(* ===== verification/_CoqProject ===== *)
-Q . S2P
Prelude.v
Simulator.v
SimFacts.v
SimProperties.v
Costs.v
Quorum.v
Consensus.v
Paxos.v
Decree.v
PaxosRefine.v
PaxosTermination.v
PaxosProperties.v
LogIndex.v
KVCommands.v
History.v
Linearizability.v
Locality.v
Projection.v
MultiKey.v
HistoryMinimizer.v
Minimizer.v
Slots.v
Refinement.v
MultiPaxos.v
MultiPaxosRefine.v
MultiPaxosProperties.v
PaxosLog.v
PaxosLogRefine.v
PaxosLogCluster.v
PaxosLogProperties.v
MPMachine.v
MPClient.v
MPReplay.v
MPClientRefine.v
MPClientCalls.v
MPClientProperties.v
MPClientWitnesses.v
RaftSpec.v
Raft.v
RaftMono.v
Replication.v
RaftRefine.v
RaftSafe.v
ReplicationMono.v
ReplicationRefine.v
LeaderLiveness.v
Driver.v
DriverRefine.v
RaftProperties.v
DriverProperties.v
RaftTimers.v
DriverWitnesses.v
AppWorld.v
StateMachine.v
KV.v
Snapshot.v
AppFacts.v
AppInv.v
AppRebuild.v
AppCheckpoint.v
AppSystem.v
AppProperties.v
AppWhole.v
LinearizableRead.v
Follows.v
ReadRefine.v
System.v
SystemProperties.v
ClientHistory.v
LeaderService.v
ClientSession.v
RaftInvariants.v
InvariantsPass.v
AppWitnesses.v
SessionSpec.v
ServiceRefine.v
ServiceCalls.v
SessionRefine.v
SessionProperties.v
SessionWitnesses.v
