(* ===== verification/Prelude.v ===== *)
(** * distlab: a verification library for the distributed-systems laboratory

    The repository is a deterministic laboratory for consensus protocols and
    replicated state machines, in Python under [src/src/distlab/] (file names
    below are relative to it).  A simulator delivers messages to protocol
    nodes, loses, delays and duplicates them by plan, and crashes and restarts
    nodes; Paxos, Multi-Paxos and Raft run on it; over Raft, an applier, a
    key/value store and its snapshots turn the log into a replicated service,
    whose client histories a checker judges.  This library translates that code
    into executable definitions and proves what each part promises.

    ** Conventions

    A method is a computation in the state-and-exception monad [M] of this
    file: it takes the world and returns the new world with a value or an
    exception, so what it changed before raising stays changed.  An exception
    is its class and the constant part of its message.  A Python integer is
    [Z], a dictionary a [gmap] (an association list where order matters), a
    tuple a [list], a dataclass with a checking [__post_init__] a [Record] with
    a constructor function [new_X] that returns [exn + X].  [isinstance] checks
    on typed data hold by typing.  Properties are proved with [wp], weakest
    preconditions for both outcomes, or with the simulation logic of
    [Refinement].

    ** The parts

    - Simulator.  [Simulator] models [simulator.py]: event queue, fault plan,
      links, crash and restart, the delivery loops.  Handlers are given by a
      signature, so every protocol runs on the same definitions.  [SimFacts] is
      what protocols rely on, [SimProperties] the contract (fate of a send,
      partitions, deadlines, budgets), [Costs] a termination logic.
    - Consensus specification.  [Quorum] (the class [QuorumSystem] with
      majorities as its instance, and proposal numbers) and [Consensus], a
      ballot-voting machine whose [agreement] is the contract.  [Decree] says
      what the variables of one acceptor and one proposer of a decree stand for
      in it.  [Refinement] is the simulation logic the protocols share, with the
      interface between the simulator and a protocol on it ([protocol]).
    - Paxos.  [Paxos] models [paxos.py]; [PaxosRefine] shows that it refines
      one decree of [Consensus]; [PaxosProperties] and [PaxosTermination] state
      agreement, validity (only values of [start_proposal] calls that returned
      are ever accepted) with sound learning, absence of reported violations,
      monotone durable state, termination and time.
    - Paxos log.  [Slots] models the per-slot records, which Multi-Paxos shares,
      and [PaxosLog] the rest of [paxos_log.py] and [paxos_log_recovery.py]: a
      decree per slot, the learned prefix, the safety harness, and recovery of
      the chosen slots from the disks.  [PaxosLogRefine] shows that the handlers
      take steps of a family of [Consensus] machines, one per slot, by the
      lemmas of [Decree]; [PaxosLogCluster] that validation, harness and
      recovery never fail and that boots and calls keep the relation;
      [PaxosLogProperties]: agreement and validity per slot across reboots, one
      log that all learned prefixes belong to, recovery of exactly the decided
      slots, and the exceptions of a call.
    - Multi-Paxos.  [MultiPaxos] models the file [multipaxos.py], with decision recovery;
      [MultiPaxosRefine] and [MultiPaxosProperties] as for Paxos, per slot.
    - Multi-Paxos service.  [MPMachine] models [multipaxos_state_machine.py] (a
      key/value machine with a deduplication table, replayed from the durable
      applied prefix) and [MPClient] the file [multipaxos_client.py]: the clients'
      journal, submit, poll and the bounded execute loop, and the system of
      servers, machines and clients under any calls, messages, faults and
      reboots, where only commands that are not requests may be proposed around
      the clients.  [MPReplay] is the specification, a list of distinct requests
      executed once each; [MPClientRefine] and [MPClientCalls] show that every
      call keeps journal, machines and answers explained by the decisions of the
      ballot-voting machine, and [MPClientProperties] concludes: the histories of
      the clients are linearizable, requests are executed exactly once, answers
      are those of the one order, and applying is complete.
    - Raft.  [LogIndex] models [log_index.py] (compacted logs by absolute
      index, with the AppendEntries merge against a reference) and [Raft] the
      file [raft.py]: pre-vote, elections, timers, AppendEntries, leadership
      lifecycle, crash, restart.  [RaftSpec] is the abstract specification of
      leader election and, over it, of the log: terms, logs and
      acknowledgements as a step relation, with log matching, leader
      completeness and one committed history as its theorems.  [RaftRefine] and
      [RaftSafe] prove that [raft.py] refines it, [RaftMono] that terms, commit
      indices and leadership generations only move forward, [RaftProperties]
      states election safety, finality of term and vote, the exceptions of each
      call and reboots, and [RaftTimers] that no live non-leader is ever without
      its timer.
    - Leader replication.  [Replication] models [commit_recovery.py] and
      the class [LeaderReplicator] of [replication.py]: probes,
      the back-off and replication loops, quorum commit, peer recovery.
      [ReplicationMono] and [ReplicationRefine] show that it stays within
      [RaftSpec]; [Driver] is a cluster together with its replicators, under
      any sequence of calls, messages, faults and crashes, [DriverRefine] its
      refinement and [DriverProperties] the safety of Raft over all time.
    - Leader liveness.  [LeaderLiveness] models [leader_liveness.py] and
      [heartbeat.py]: the two kinds of CheckQuorum round and the controller that
      runs one every interval.  They are calls of [Driver]; [DriverProperties]
      shows that the evidence of a round names a majority that answered during
      it, that a leader without one is retired, and when the rounds take place.
    - Replicated store.  [KVCommands] and [AppWorld] hold the data and the
      state; [StateMachine] models [state_machine.py], [KV] the class
      [ReplicatedKV] of [kv.py] and [Snapshot] the file [snapshot.py] over a
      plain Raft cluster.  [AppFacts], [AppInv], [AppRebuild] and
      [AppCheckpoint] give each operation's effect and the invariant.
      [AppSystem] closes them under any interleaving, with Raft as an interface:
      it may do anything to its world, but the committed entries of every node
      belong to one history ([committed_in]).  [AppProperties]: a replica is the
      replay of a prefix of the history; applying is complete and all or
      nothing; retries have no effect; replicas with one prefix are equal;
      rebuilding and transferring checkpoints lose nothing.
    - Linearizable reads.  [LinearizableRead] models [linearizable_read.py]: a
      reader confirms its authority with a quorum of acknowledgements of its
      term before it serves a key.
    - The whole system.  [System] composes the store, the readers and the driven
      Raft cluster in one world; [AppWhole] has the frame lemmas
      of the store, [Follows] and [ReadRefine] carry the refinement through
      every operation, so that the interface [committed_in] is discharged
      rather than assumed.  [SystemProperties]: every replica replays a prefix
      of one history, for ever; a read returns a state that
      holds every entry committed when it started, and fails only with the
      errors of its contract.
    - Clients of the store.  [ClientHistory] models [client_history.py] (what
      clients invoke, retry, complete and abandon, and what waits for an
      answer), [LeaderService] the files [leader_authority.py] and
      [leader_service.py] (writes, reads and barriers under one leadership
      generation, checked before every effect) and [ClientSession] the file
      [client_session.py] (one operation of a client at a time, request numbers
      that only grow, recovery behind a read barrier), and closes the system:
      one session a client, over a cluster on which anything may happen, with
      reboots, where no writes but those clients wait for are appended around
      them.  [SessionSpec] is the specification: a machine of clients over
      [RaftSpec], whose entries are of a kind the callers choose ([may]), with a
      point of the committed history for each answer; points in order with real
      time explain the clients' history.  [ServiceRefine] and
      [ServiceCalls] show that every method of the client
      history and the service is a sequence of its steps, [SessionRefine] the
      same of the sessions, with what a session knows of its client.
      [SessionProperties] concludes: the clients' histories are linearizable,
      requests are executed exactly once, a session's floor is right, and the
      service is fenced by its generation.
    - Harness.  [RaftInvariants] models [raft_invariants.py], the safety checks
      run after every step, and [InvariantsPass] proves that on a driven cluster
      they accept.
    - Checkers and tools.  [History] and [Linearizability] model
      [linearizability.py]: the recorder's invariant, and the bit-mask search
      against the definition of linearizability, with and without pending
      operations.  [Locality] proves that linearizability is local, [Projection]
      relates a history to its projection on a key, and [MultiKey] models
      [multikey_linearizability.py] and proves its verdict right for the whole
      history; one order of operations that explains a history gives the
      checker's acceptance, for the clients of both protocols.  [Minimizer]
      models [_deletion_minimizer.py] and [HistoryMinimizer] the file
      [history_minimizer.py] on top of it.
    - The files ending in [Witnesses], and the ends of [PaxosProperties],
      [PaxosLogProperties] and [InvariantsPass], instantiate the properties at
      concrete clusters, runs and inputs, and hold the examples behind the
      findings.

    ** Fuel and bounds

    Python loops whose end is not structural take fuel and raise [OutOfFuel].
    A run of Paxos needs no more fuel than the queue weighs
    ([PaxosTermination]); the linearizability search needs one more than the
    number of operations and the minimizer one round more than the number of
    entries, which the properties show to be enough.  The apply loop of the
    Multi-Paxos machine gets as much as its node has learned slots, which
    [apply_ready_complete] shows to be enough, and the loop over a prefix of the
    Paxos log as much as its dictionary has keys ([dict_prefix_lookup]).  A run
    of Raft, Multi-Paxos or the Paxos log takes the caller's fuel: its properties hold of whatever state
    the run is in when it stops.  Integers are unbounded, as in Python.

    ** Not modelled

    Of modelled files: the checks that a callback gets its own simulator; the
    branches for reconfigurable clusters, which need [membership.py]; snapshot
    transport by a leader, so the composed system does not compact its logs (the
    store alone does); the JSON codec of the Multi-Paxos client journal; its
    [Append] commands are modelled, but lie outside the histories the
    linearizability checker reads.  Reads of a single replica ([sampled_read])
    and sessions recovered without a barrier are modelled and may be stale, as
    documented; they are outside the closed system of [ClientSession]
    ([SessionWitnesses.stale_recovery] shows why).  Of [leader_runtime.py] only
    the identity of a generation: it replaces controllers as leaders come and
    go.  Membership changes, leadership transfer and snapshot transport are left
    out whole.  Journals, artifact codecs, campaigns and the schedule minimizers
    drive these parts, and are input and output around them. *)

From stdpp Require Export base gmap sets list strings sorting.
From Stdlib Require Export ZArith Lia.

#[global] Set Default Goal Selector "!".

Declare Scope py_scope.
Delimit Scope py_scope with py.
#[global] Open Scope Z_scope.

(** ** Python exceptions

    An exception is its class and the constant part of its message. *)

Inductive exn_class :=
  | ValueError
  | TypeError
  | KeyError
  | IndexError
  | RuntimeError
  | AssertionError
  | PaxosError
  | PaxosProposalActive
  | PaxosSafetyViolation
  | ElectionSafetyViolation
  | LogMatchingViolation
  | LeaderAppendOnlyViolation
  | LeaderCompletenessViolation
  | StateMachineSafetyViolation
  | NonVoterElectionError
  | MembershipChangeError
  | InvalidKVCommand
  | ClientRequestConflict
  | InvalidHistory
  | LinearizabilitySearchExhausted
  | ReplicationError
  | ReplicationResponseMissing
  | CommitRecoveryError
  | LinearizableReadError
  | CurrentTermCommitRequired
  | ReadQuorumUnavailable
  | ClientSessionError
  | SessionWritePending
  | SessionReadPending
  | StaleClientRequest
  | LeaderAuthorityLost
  | LeaderQuorumUnavailable
  | LeaderRuntimeUnavailable
  | StaleLeaderRuntimeGeneration
  | LeaderKVServiceError
  | LeaderWriteQuorumUnavailable
  | LeaderReadBarrierUnavailable
  | OutOfFuel  (** not a Python exception: the model of a loop ran out of fuel *).

#[global] Instance exn_class_eq_dec : EqDecision exn_class.
Proof. solve_decision. Defined.

Record exn := Exn { exn_cls : exn_class; exn_msg : string }.

(** ** The state-and-exception monad

    A Python method mutates the objects it reaches and either returns or
    raises.  What it mutated before raising stays mutated, so the state is
    returned in both cases. *)

Definition M (S A : Type) : Type := S → S * (exn + A).

Definition ret {S A} (a : A) : M S A := λ s, (s, inr a).

Definition bind {S A B} (m : M S A) (k : A → M S B) : M S B := λ s,
  match m s with
  | (s', inl e) => (s', inl e)
  | (s', inr a) => k a s'
  end.

Definition raise {S A} (c : exn_class) (msg : string) : M S A :=
  λ s, (s, inl (Exn c msg)).

Definition gets {S A} (f : S → A) : M S A := λ s, (s, inr (f s)).

Definition modify {S} (f : S → S) : M S unit := λ s, (f s, inr tt).

Notation "'let!' x ':=' m 'in' k" := (bind m (λ x, k))
  (at level 10, x name, m at level 100, k at level 200,
   format "'[v' 'let!'  x  ':='  m  'in' '/' k ']'") : py_scope.
Notation "m ;; k" := (bind m (λ _, k))
  (at level 100, right associativity,
   format "'[v' m ;; '/' k ']'") : py_scope.

#[global] Open Scope py_scope.

(** [if b: raise c(msg)] *)
Definition raise_if {S} (b : bool) (c : exn_class) (msg : string) : M S unit :=
  if b then raise c msg else ret tt.

(** [try: m except e: h(e)]; a handler that does not match raises again. *)
Definition rethrow {S A} (e : exn) : M S A := λ s, (s, inl e).
Definition try_except {S A} (m : M S A) (h : exn → M S A) : M S A := λ s,
  match m s with
  | (s', inl e) => h e s'
  | (s', inr a) => (s', inr a)
  end.

(** [if b: m] *)
Definition when {S} (b : bool) (m : M S unit) : M S unit :=
  if b then m else ret tt.

(** [for x in l: f(x)] *)
Fixpoint for_each {S A} (l : list A) (f : A → M S unit) : M S unit :=
  match l with
  | [] => ret tt
  | x :: l' => f x ;; for_each l' f
  end.

(** A pure computation that may raise, run inside a method. *)
Definition lift {S A} (r : exn + A) : M S A := λ s, (s, r).

(** ** Weakest preconditions

    [wp m Q E s]: from [s], [m] ends in a state satisfying [Q] when it
    returns and [E] when it raises. *)

Definition wp {S A} (m : M S A) (Q : S → A → Prop) (E : S → exn → Prop)
    (s : S) : Prop :=
  match m s with
  | (s', inr a) => Q s' a
  | (s', inl e) => E s' e
  end.

#[global] Arguments wp {S A} m Q E s : simpl never.
#[global] Arguments bind {S A B} m k s : simpl never.

Section wp_rules.
Context {S : Type}.
Implicit Types (s : S) (E : S → exn → Prop).

Lemma wp_ret {A} (a : A) Q E s : wp (ret a) Q E s ↔ Q s a.
Proof. done. Qed.

Lemma wp_bind {A B} (m : M S A) (k : A → M S B) Q E s :
  wp (bind m k) Q E s ↔ wp m (λ s' a, wp (k a) Q E s') E s.
Proof. unfold wp, bind. by destruct (m s) as [? [?|?]]. Qed.

Lemma wp_raise {A} c msg (Q : S → A → Prop) E s :
  wp (raise c msg) Q E s ↔ E s (Exn c msg).
Proof. done. Qed.

Lemma wp_gets {A} (f : S → A) Q E s : wp (gets f) Q E s ↔ Q s (f s).
Proof. done. Qed.

Lemma wp_modify f Q E s : wp (modify f) Q E s ↔ Q (f s) tt.
Proof. done. Qed.

Lemma wp_raise_if b c msg Q E s :
  (b = true → E s (Exn c msg)) → (b = false → Q s tt) →
  wp (raise_if b c msg) Q E s.
Proof. destruct b; unfold wp; simpl; auto. Qed.

Lemma wp_when b m Q E s :
  (b = true → wp m Q E s) → (b = false → Q s tt) → wp (when b m) Q E s.
Proof. destruct b; intros H1 H2; [by apply H1|by apply H2]. Qed.

Lemma wp_lift {A} (r : exn + A) Q E s :
  wp (lift r) Q E s ↔ match r with inl e => E s e | inr a => Q s a end.
Proof. unfold wp, lift. by destruct r. Qed.

Lemma wp_mono {A} (m : M S A) (Q Q' : S → A → Prop) (E E' : S → exn → Prop) s :
  wp m Q E s → (∀ s' a, Q s' a → Q' s' a) → (∀ s' e, E s' e → E' s' e) →
  wp m Q' E' s.
Proof. unfold wp. destruct (m s) as [? [?|?]]; auto. Qed.

Lemma wp_and {A} (m : M S A) (Q Q' : S → A → Prop) (E E' : S → exn → Prop) s :
  wp m Q E s → wp m Q' E' s → wp m (λ s' a, Q s' a ∧ Q' s' a) (λ s' e, E s' e ∧ E' s' e) s.
Proof. unfold wp. destruct (m s) as [? [?|?]]; auto. Qed.

(** An invariant of the body is an invariant of the loop. *)
Lemma wp_for_each {A} (l : list A) (f : A → M S unit) (I : S → Prop)
    (E : S → exn → Prop) s :
  I s → (∀ x s', x ∈ l → I s' → wp (f x) (λ s'' _, I s'') E s') →
  wp (for_each l f) (λ s' _, I s') E s.
Proof.
  revert s. induction l as [|x l IH]; intros s Hs Hf; simpl; [done|].
  apply wp_bind. eapply wp_mono; [apply Hf; [left|done]| |done].
  simpl. intros s' _ Hs'. apply IH; [done|].
  intros y s'' Hy. apply Hf. by right.
Qed.

(** Checks that pass leave the state as it was. *)
Lemma wp_for_each_pure {A} (l : list A) (f : A → M S unit) (E : S → exn → Prop) s :
  (∀ x, x ∈ l → wp (f x) (λ s' _, s' = s) E s) → wp (for_each l f) (λ s' _, s' = s) E s.
Proof. intros Hf. apply wp_for_each; [done|]. intros x s' Hx ->. by apply Hf. Qed.
End wp_rules.

(** Walk through the straight-line part of a method. *)
Ltac wp_step :=
  match goal with
  | |- wp (bind _ _) _ _ _ => apply wp_bind
  | |- wp (ret _) _ _ _ => apply wp_ret
  | |- wp (gets _) _ _ _ => apply wp_gets
  | |- wp (modify _) _ _ _ => apply wp_modify
  | |- wp (raise _ _) _ _ _ => apply wp_raise
  | |- wp (raise_if _ _ _) _ _ _ => apply wp_raise_if; intros ?
  | |- wp (when _ _) _ _ _ => apply wp_when; intros ?
  | |- wp (lift _) _ _ _ => apply wp_lift
  end.
Ltac wp_steps := repeat (wp_step; cbv beta).

(** ** Lists and options *)

(** [len(l)] as a Python integer *)
Definition zlen {A} (l : list A) : Z := Z.of_nat (length l).

Lemma zlen_nonneg {A} (l : list A) : 0 ≤ zlen l.
Proof. unfold zlen. lia. Qed.

Lemma zlen_app {A} (l k : list A) : zlen (l ++ k) = zlen l + zlen k.
Proof. unfold zlen. rewrite length_app. lia. Qed.

Lemma zlen_cons {A} (x : A) l : zlen (x :: l) = 1 + zlen l.
Proof. unfold zlen. simpl. lia. Qed.

(** [sorted(l)] on strings *)
Definition sorted_str (l : list string) : list string := merge_sort String.le l.

Lemma elem_of_sorted_str x l : x ∈ sorted_str l ↔ x ∈ l.
Proof. unfold sorted_str. by rewrite merge_sort_Permutation. Qed.

(** [range(a, b)] *)
Definition zrange (a b : Z) : list Z :=
  (λ n : nat, a + Z.of_nat n) <$> seq 0 (Z.to_nat (b - a)).

Lemma elem_of_zrange x a b : x ∈ zrange a b ↔ a ≤ x < b.
Proof.
  unfold zrange. rewrite list_elem_of_fmap. split.
  - intros (n & -> & Hn%elem_of_seq). lia.
  - intros Hx. exists (Z.to_nat (x - a)). rewrite elem_of_seq. lia.
Qed.

(** [range(b - 1, a - 1, -1)] goes down. *)
Lemma zrange_rev_sorted a b : StronglySorted Z.gt (rev (zrange a b)).
Proof.
  unfold zrange. generalize (Z.to_nat (b - a)). intros n. induction n as [|n IH]; [constructor|].
  rewrite seq_S, fmap_app, rev_app_distr. simpl. constructor; [done|]. rewrite Forall_forall.
  intros x Hx%list_elem_of_In%in_rev%list_elem_of_In%list_elem_of_fmap.
  destruct Hx as (m & -> & [_ Hm]%elem_of_seq). lia.
Qed.

(** [l[i]] for a non-negative [i] *)
Definition znth {A} (l : list A) (i : Z) : option A := l !! Z.to_nat i.

Lemma bool_decide_false {P : Prop} `{!Decision P} : ¬ P → bool_decide P = false.
Proof. apply bool_decide_eq_false_2. Qed.

Lemma filter_none {A} (P : A → Prop) `{!∀ x, Decision (P x)} (l : list A) :
  (∀ x, x ∈ l → ¬ P x) → filter P l = [].
Proof.
  induction l as [|x l IH]; intros Hl; [done|].
  rewrite filter_cons_False by (apply Hl; by left). apply IH. intros y Hy. apply Hl. by right.
Qed.

Lemma fmap_sublist {A B} (f : A → B) (l k : list A) :
  l `sublist_of` k → f <$> l `sublist_of` f <$> k.
Proof. induction 1; simpl; by constructor. Qed.

Create HintDb distlab discriminated.
Create Rewrite HintDb distlab.
#[export] Hint Resolve zlen_nonneg : distlab.
#[export] Hint Rewrite @zlen_app @zlen_cons elem_of_zrange elem_of_sorted_str
  : distlab.
