(* ===== verification/Simulator.v ===== *)
(** * Simulator: the deterministic event-driven message simulator

    Models [src/distlab/simulator.py].  [Sim] is the class [Simulator]: its
    fields are the record's fields, and every method is a computation in the
    monad [M] over a [World], the simulator together with the Python objects
    ([Objects]) that the registered callbacks close over.

    The types a protocol plugs in are collected in a signature [Sig]: its
    payloads, the trace records it writes itself, the callbacks it registers
    (a handle stands for a bound method and [run_handler], [run_crash] and
    [run_restart] call it), and its persistent and volatile dictionaries.

    [heapq] on [(time, sequence)] keys is a list kept in increasing order.
    [run] takes fuel, since a Python [while] loop need not end; it raises
    [OutOfFuel], which no Python code can catch, when the fuel is spent. *)

From S2P Require Import Prelude.

Inductive FaultAction := DELIVER | DROP | DELAY | DUPLICATE.

#[global] Instance FaultAction_eq_dec : EqDecision FaultAction.
Proof. solve_decision. Defined.

(** [FaultAction.value] *)
Definition FaultAction_value (a : FaultAction) : string :=
  match a with
  | DELIVER => "deliver"
  | DROP => "drop"
  | DELAY => "delay"
  | DUPLICATE => "duplicate"
  end.

(** What a protocol built on the simulator supplies. *)
Record Sig := mkSig {
  Payload : Type;
  Rec : Type;
  Handle : Type;
  Durable : Type;
  Volatile : Type;
  Objects : Type;
  type_name : Payload → string;
  none_payload : Payload;
  durable0 : Durable;
  volatile0 : Volatile;
}.

Record Message (Σ : Sig) := mkMessage {
  src : string;
  dst : string;
  payload : Payload Σ;
  ordinal : Z;
  delivery_dst : option string;
}.
Arguments mkMessage {_} _ _ _ _ _.
Arguments src {_} _.
Arguments dst {_} _.
Arguments payload {_} _.
Arguments ordinal {_} _.
Arguments delivery_dst {_} _.

Record FaultRule := mkFaultRule {
  fr_action : FaultAction;
  fr_src : option string;
  fr_dst : option string;
  fr_ordinal : option Z;
  fr_payload_type : option string;
  fr_extra_delay : Z;
}.

(** The dataclass constructor, with the checks of [__post_init__]. *)
Definition new_FaultRule (r : FaultRule) : exn + FaultRule :=
  if r.(fr_extra_delay) <? 0 then
    inl (Exn ValueError "extra_delay must be non-negative")
  else if match r.(fr_ordinal) with Some n => n <=? 0 | None => false end then
    inl (Exn ValueError "ordinal must be positive when specified")
  else if match r.(fr_payload_type) with Some t => (t =? "")%string | None => false end then
    inl (Exn ValueError "payload_type must be non-empty when specified")
  else inr r.

(** [field is None or field == actual] *)
Definition opt_matches {A} `{EqDecision A} (field : option A) (actual : A) : bool :=
  match field with None => true | Some x => bool_decide (x = actual) end.

Definition matches {Σ} (r : FaultRule) (m : Message Σ) : bool :=
  opt_matches r.(fr_src) m.(src)
  && opt_matches r.(fr_dst) m.(dst)
  && opt_matches r.(fr_ordinal) m.(ordinal)
  && opt_matches r.(fr_payload_type) (type_name Σ m.(payload)).

Definition FaultPlan : Type := list FaultRule.

Definition deliver_rule : FaultRule := mkFaultRule DELIVER None None None None 0.

Fixpoint action_for {Σ} (plan : FaultPlan) (m : Message Σ) : FaultRule :=
  match plan with
  | [] => deliver_rule
  | rule :: plan' => if matches rule m then rule else action_for plan' m
  end.

Record ScheduledDelivery (Σ : Sig) := mkDelivery {
  sd_time : Z;
  sd_sequence : Z;
  sd_message : Message Σ;
}.
Arguments mkDelivery {_} _ _ _.
Arguments sd_time {_} _.
Arguments sd_sequence {_} _.
Arguments sd_message {_} _.

(** The records the simulator writes to its trace, one constructor per
    [kind]; [EvProto] wraps the records of the protocol on top. *)
Inductive Event (Σ : Sig) :=
  | EvSend (s d : string) (n : Z) (p : Payload Σ) (action : string)
  | EvPartitionDrop (s d : string) (n : Z) (p : Payload Σ)
  | EvDrop (s d : string) (n : Z) (p : Payload Σ)
  | EvDuplicate (s d : string) (n : Z) (p : Payload Σ) (extra_delay : Z)
  | EvSchedule (s d : string) (n : Z) (p : Payload Σ) (delivery_time seq : Z)
  | EvDiscardCrashed (s d : string) (n : Z) (p : Payload Σ)
  | EvDeliver (s d : string) (n : Z) (p : Payload Σ)
  | EvCrash (node : string)
  | EvRestart (node : string)
  | EvPartition (left right : list string)
  | EvHealPartition (left right : list string)
  | EvBlockLink (s d : string)
  | EvHealLink (s d : string)
  | EvSetLinkDelay (s d : string) (extra_delay : Z)
  | EvClearLinkDelay (s d : string)
  | EvProto (r : Rec Σ).
Arguments EvSend {_}.
Arguments EvPartitionDrop {_}.
Arguments EvDrop {_}.
Arguments EvDuplicate {_}.
Arguments EvSchedule {_}.
Arguments EvDiscardCrashed {_}.
Arguments EvDeliver {_}.
Arguments EvCrash {_}.
Arguments EvRestart {_}.
Arguments EvPartition {_}.
Arguments EvHealPartition {_}.
Arguments EvBlockLink {_}.
Arguments EvHealLink {_}.
Arguments EvSetLinkDelay {_}.
Arguments EvClearLinkDelay {_}.
Arguments EvProto {_}.

Record TraceRecord (Σ : Sig) := mkTraceRecord {
  tr_time : Z;
  tr_event : Event Σ;
}.
Arguments mkTraceRecord {_} _ _.
Arguments tr_time {_} _.
Arguments tr_event {_} _.

Record Sim (Σ : Sig) := mkSim {
  time : Z;
  sequence : Z;
  queue : list (ScheduledDelivery Σ);
  handlers : gmap string (Handle Σ);
  crash_handlers : gmap string (Handle Σ);
  restart_handlers : gmap string (Handle Σ);
  alive : gmap string bool;
  send_ordinals : gmap (string * string) Z;
  blocked_links : gset (string * string);
  link_delays : gmap (string * string) Z;
  fault_plan : FaultPlan;
  trace : list (TraceRecord Σ);
  persistent_state : gmap string (Durable Σ);
  volatile_state : gmap string (Volatile Σ);
}.
Arguments time {_} _.
Arguments sequence {_} _.
Arguments queue {_} _.
Arguments handlers {_} _.
Arguments crash_handlers {_} _.
Arguments restart_handlers {_} _.
Arguments alive {_} _.
Arguments send_ordinals {_} _.
Arguments blocked_links {_} _.
Arguments link_delays {_} _.
Arguments fault_plan {_} _.
Arguments trace {_} _.
Arguments persistent_state {_} _.
Arguments volatile_state {_} _.

(** Field updates: [set_f v s] is the assignment [self.f = v]. *)
Section setters.
Context {Σ : Sig}.
Implicit Types s : Sim Σ.
Definition set_time (v : Z) s : Sim Σ :=
  mkSim Σ v (s.(sequence)) (s.(queue)) (s.(handlers)) (s.(crash_handlers))
  (s.(restart_handlers)) (s.(alive)) (s.(send_ordinals))
  (s.(blocked_links)) (s.(link_delays)) (s.(fault_plan)) (s.(trace))
  (s.(persistent_state)) (s.(volatile_state)).
Definition set_sequence (v : Z) s : Sim Σ :=
  mkSim Σ (s.(time)) v (s.(queue)) (s.(handlers)) (s.(crash_handlers))
  (s.(restart_handlers)) (s.(alive)) (s.(send_ordinals))
  (s.(blocked_links)) (s.(link_delays)) (s.(fault_plan)) (s.(trace))
  (s.(persistent_state)) (s.(volatile_state)).
Definition set_queue (v : list (ScheduledDelivery Σ)) s : Sim Σ :=
  mkSim Σ (s.(time)) (s.(sequence)) v (s.(handlers)) (s.(crash_handlers))
  (s.(restart_handlers)) (s.(alive)) (s.(send_ordinals))
  (s.(blocked_links)) (s.(link_delays)) (s.(fault_plan)) (s.(trace))
  (s.(persistent_state)) (s.(volatile_state)).
Definition set_handlers (v : gmap string (Handle Σ)) s : Sim Σ :=
  mkSim Σ (s.(time)) (s.(sequence)) (s.(queue)) v (s.(crash_handlers))
  (s.(restart_handlers)) (s.(alive)) (s.(send_ordinals))
  (s.(blocked_links)) (s.(link_delays)) (s.(fault_plan)) (s.(trace))
  (s.(persistent_state)) (s.(volatile_state)).
Definition set_crash_handlers (v : gmap string (Handle Σ)) s : Sim Σ :=
  mkSim Σ (s.(time)) (s.(sequence)) (s.(queue)) (s.(handlers)) v
  (s.(restart_handlers)) (s.(alive)) (s.(send_ordinals))
  (s.(blocked_links)) (s.(link_delays)) (s.(fault_plan)) (s.(trace))
  (s.(persistent_state)) (s.(volatile_state)).
Definition set_restart_handlers (v : gmap string (Handle Σ)) s : Sim Σ :=
  mkSim Σ (s.(time)) (s.(sequence)) (s.(queue)) (s.(handlers))
  (s.(crash_handlers)) v (s.(alive)) (s.(send_ordinals))
  (s.(blocked_links)) (s.(link_delays)) (s.(fault_plan)) (s.(trace))
  (s.(persistent_state)) (s.(volatile_state)).
Definition set_alive (v : gmap string bool) s : Sim Σ :=
  mkSim Σ (s.(time)) (s.(sequence)) (s.(queue)) (s.(handlers))
  (s.(crash_handlers)) (s.(restart_handlers)) v (s.(send_ordinals))
  (s.(blocked_links)) (s.(link_delays)) (s.(fault_plan)) (s.(trace))
  (s.(persistent_state)) (s.(volatile_state)).
Definition set_send_ordinals (v : gmap (string * string) Z) s : Sim Σ :=
  mkSim Σ (s.(time)) (s.(sequence)) (s.(queue)) (s.(handlers))
  (s.(crash_handlers)) (s.(restart_handlers)) (s.(alive)) v
  (s.(blocked_links)) (s.(link_delays)) (s.(fault_plan)) (s.(trace))
  (s.(persistent_state)) (s.(volatile_state)).
Definition set_blocked_links (v : gset (string * string)) s : Sim Σ :=
  mkSim Σ (s.(time)) (s.(sequence)) (s.(queue)) (s.(handlers))
  (s.(crash_handlers)) (s.(restart_handlers)) (s.(alive))
  (s.(send_ordinals)) v (s.(link_delays)) (s.(fault_plan)) (s.(trace))
  (s.(persistent_state)) (s.(volatile_state)).
Definition set_link_delays (v : gmap (string * string) Z) s : Sim Σ :=
  mkSim Σ (s.(time)) (s.(sequence)) (s.(queue)) (s.(handlers))
  (s.(crash_handlers)) (s.(restart_handlers)) (s.(alive))
  (s.(send_ordinals)) (s.(blocked_links)) v (s.(fault_plan)) (s.(trace))
  (s.(persistent_state)) (s.(volatile_state)).
Definition set_fault_plan (v : FaultPlan) s : Sim Σ :=
  mkSim Σ (s.(time)) (s.(sequence)) (s.(queue)) (s.(handlers))
  (s.(crash_handlers)) (s.(restart_handlers)) (s.(alive))
  (s.(send_ordinals)) (s.(blocked_links)) (s.(link_delays)) v (s.(trace))
  (s.(persistent_state)) (s.(volatile_state)).
Definition set_trace (v : list (TraceRecord Σ)) s : Sim Σ :=
  mkSim Σ (s.(time)) (s.(sequence)) (s.(queue)) (s.(handlers))
  (s.(crash_handlers)) (s.(restart_handlers)) (s.(alive))
  (s.(send_ordinals)) (s.(blocked_links)) (s.(link_delays))
  (s.(fault_plan)) v (s.(persistent_state)) (s.(volatile_state)).
Definition set_persistent_state (v : gmap string (Durable Σ)) s : Sim Σ :=
  mkSim Σ (s.(time)) (s.(sequence)) (s.(queue)) (s.(handlers))
  (s.(crash_handlers)) (s.(restart_handlers)) (s.(alive))
  (s.(send_ordinals)) (s.(blocked_links)) (s.(link_delays))
  (s.(fault_plan)) (s.(trace)) v (s.(volatile_state)).
Definition set_volatile_state (v : gmap string (Volatile Σ)) s : Sim Σ :=
  mkSim Σ (s.(time)) (s.(sequence)) (s.(queue)) (s.(handlers))
  (s.(crash_handlers)) (s.(restart_handlers)) (s.(alive))
  (s.(send_ordinals)) (s.(blocked_links)) (s.(link_delays))
  (s.(fault_plan)) (s.(trace)) (s.(persistent_state)) v.
End setters.

(** [Simulator(fault_plan=plan)] *)
Definition new_Simulator {Σ} (plan : FaultPlan) : Sim Σ :=
  mkSim Σ 0 0 [] ∅ ∅ ∅ ∅ ∅ ∅ ∅ plan [] ∅ ∅.

Record World (Σ : Sig) := mkWorld {
  sim : Sim Σ;
  objs : Objects Σ;
}.
Arguments mkWorld {_} _ _.
Arguments sim {_} _.
Arguments objs {_} _.

Record ScenarioAction (Σ : Sig) := mkScenarioAction {
  sa_kind : string;
  sa_src : option string;
  sa_dst : option string;
  sa_payload : Payload Σ;
  sa_delay : Z;
  sa_node : option string;
  sa_max_events : option Z;
  sa_left : list string;
  sa_right : list string;
}.
Arguments mkScenarioAction {_}.
Arguments sa_kind {_} _.
Arguments sa_src {_} _.
Arguments sa_dst {_} _.
Arguments sa_payload {_} _.
Arguments sa_delay {_} _.
Arguments sa_node {_} _.
Arguments sa_max_events {_} _.
Arguments sa_left {_} _.
Arguments sa_right {_} _.

Module Action.
Section constructors.
Context {Σ : Sig}.
Definition send s d p delay : ScenarioAction Σ :=
  mkScenarioAction "send" (Some s) (Some d) p delay None None [] [].
Definition crash n : ScenarioAction Σ :=
  mkScenarioAction "crash" None None (none_payload Σ) 1 (Some n) None [] [].
Definition restart n : ScenarioAction Σ :=
  mkScenarioAction "restart" None None (none_payload Σ) 1 (Some n) None [] [].
Definition partition l r : ScenarioAction Σ :=
  mkScenarioAction "partition" None None (none_payload Σ) 1 None None l r.
Definition heal_partition l r : ScenarioAction Σ :=
  mkScenarioAction "heal-partition" None None (none_payload Σ) 1 None None l r.
Definition block_link s d : ScenarioAction Σ :=
  mkScenarioAction "block-link" (Some s) (Some d) (none_payload Σ) 1 None None [] [].
Definition heal_link s d : ScenarioAction Σ :=
  mkScenarioAction "heal-link" (Some s) (Some d) (none_payload Σ) 1 None None [] [].
Definition set_link_delay s d extra : ScenarioAction Σ :=
  mkScenarioAction "set-link-delay" (Some s) (Some d) (none_payload Σ) extra None None [] [].
Definition clear_link_delay s d : ScenarioAction Σ :=
  mkScenarioAction "clear-link-delay" (Some s) (Some d) (none_payload Σ) 1 None None [] [].
Definition run max_events : ScenarioAction Σ :=
  mkScenarioAction "run" None None (none_payload Σ) 1 None max_events [] [].
End constructors.
End Action.

Section simulator.
Context {Σ : Sig}.
Abbreviation M := (M (World Σ)).
Implicit Types (w : World Σ) (m : Message Σ) (d : ScheduledDelivery Σ).

Definition upd_sim (f : Sim Σ → Sim Σ) : M unit :=
  modify (λ w, mkWorld (f w.(sim)) w.(objs)).

(** Access to the dictionaries of one node; a missing node is the empty
    dictionary, as [defaultdict(dict)] has it. *)
Definition durable (w : World Σ) (n : string) : Durable Σ :=
  default (durable0 Σ) (w.(sim).(persistent_state) !! n).
Definition volatile (w : World Σ) (n : string) : Volatile Σ :=
  default (volatile0 Σ) (w.(sim).(volatile_state) !! n).
Definition persist (n : string) (f : Durable Σ → Durable Σ) : M unit :=
  modify (λ w, mkWorld
    (set_persistent_state (<[n := f (durable w n)]> w.(sim).(persistent_state)) w.(sim))
    w.(objs)).
Definition set_volatile (n : string) (f : Volatile Σ → Volatile Σ) : M unit :=
  modify (λ w, mkWorld
    (set_volatile_state (<[n := f (volatile w n)]> w.(sim).(volatile_state)) w.(sim))
    w.(objs)).
Definition upd_objs (f : Objects Σ → Objects Σ) : M unit :=
  modify (λ w, mkWorld w.(sim) (f w.(objs))).

(** [_record] *)
Definition record (e : Event Σ) : M unit :=
  upd_sim (λ s, set_trace (s.(trace) ++ [mkTraceRecord s.(time) e]) s).

(** [_ScheduledDelivery.__lt__], generated by [dataclass(order=True)] *)
Definition sd_before d d' : bool :=
  (d.(sd_time) <? d'.(sd_time))
  || ((d.(sd_time) =? d'.(sd_time)) && (d.(sd_sequence) <? d'.(sd_sequence))).

(** [heapq.heappush] *)
Fixpoint heappush d (q : list (ScheduledDelivery Σ)) : list (ScheduledDelivery Σ) :=
  match q with
  | [] => [d]
  | d' :: q' => if sd_before d d' then d :: q else d' :: heappush d q'
  end.

(** [_schedule] *)
Definition schedule m (delay : Z) : M unit :=
  upd_sim (λ s, set_sequence (s.(sequence) + 1) s) ;;
  let! s := gets sim in
  let delivery_time := s.(time) + delay in
  upd_sim (λ s, set_queue
    (heappush (mkDelivery delivery_time s.(sequence) m) s.(queue)) s) ;;
  record (EvSchedule m.(src) m.(dst) m.(ordinal) m.(payload) delivery_time s.(sequence)).

Definition is_alive (w : World Σ) (n : string) : bool :=
  default true (w.(sim).(alive) !! n).

Definition register (n : string) (h : Handle Σ) (crash_h restart_h : option (Handle Σ)) : M unit :=
  let! s := gets sim in
  raise_if (bool_decide (is_Some (s.(handlers) !! n))) ValueError
    "handler already registered for node" ;;
  upd_sim (λ s, set_handlers (<[n := h]> s.(handlers)) s) ;;
  match crash_h with
  | Some c => upd_sim (λ s, set_crash_handlers (<[n := c]> s.(crash_handlers)) s)
  | None => ret tt
  end ;;
  match restart_h with
  | Some r => upd_sim (λ s, set_restart_handlers (<[n := r]> s.(restart_handlers)) s)
  | None => ret tt
  end ;;
  upd_sim (λ s, set_alive (<[n := true]> s.(alive)) s).

Definition known (w : World Σ) (n : string) : bool :=
  bool_decide (is_Some (w.(sim).(handlers) !! n)).

Definition send (s d : string) (p : Payload Σ) (delay : Z)
    (ddst : option string) : M unit :=
  raise_if (delay <? 0) ValueError "delay must be non-negative" ;;
  let! unknown := gets (λ w,
    match ddst with Some e => negb (known w e) | None => false end) in
  raise_if unknown ValueError "unknown delivery endpoint" ;;
  let key := (s, d) in
  upd_sim (λ s, set_send_ordinals
    (<[key := default 0 (s.(send_ordinals) !! key) + 1]> s.(send_ordinals)) s) ;;
  let! st := gets sim in
  let n := default 0 (st.(send_ordinals) !! key) in
  let message := mkMessage s d p n ddst in
  if bool_decide (key ∈ st.(blocked_links)) then
    record (EvSend s d n p "partition-drop") ;;
    record (EvPartitionDrop s d n p)
  else
    let rule := action_for st.(fault_plan) message in
    record (EvSend s d n p (FaultAction_value rule.(fr_action))) ;;
    if bool_decide (rule.(fr_action) = DROP) then
      record (EvDrop s d n p)
    else
      let link_delay := default 0 (st.(link_delays) !! key) in
      let fault_delay :=
        if bool_decide (rule.(fr_action) = DELAY) then rule.(fr_extra_delay) else 0 in
      let effective_delay := delay + link_delay + fault_delay in
      schedule message effective_delay ;;
      when (bool_decide (rule.(fr_action) = DUPLICATE))
        (schedule message (effective_delay + rule.(fr_extra_delay)) ;;
         record (EvDuplicate s d n p rule.(fr_extra_delay))).

(** [_validate_node], [_validate_link], [_validate_partition_groups] *)
Definition validate_node (n : string) : M unit :=
  let! k := gets (λ w, known w n) in
  raise_if (negb k) ValueError "references unknown node".

Definition validate_link (s d : string) : M unit :=
  raise_if (bool_decide (s = d)) ValueError
    "directional link endpoints must be distinct" ;;
  let! ok := gets (λ w, known w s && known w d) in
  raise_if (negb ok) ValueError "directional link references unknown nodes".

Definition validate_partition_groups (left right : list string)
    : M (list string * list string) :=
  raise_if (bool_decide (left = []) || bool_decide (right = [])) ValueError
    "partition groups must be non-empty" ;;
  raise_if (negb (bool_decide (NoDup left)) || negb (bool_decide (NoDup right)))
    ValueError "partition groups must not contain duplicate nodes" ;;
  raise_if (existsb (λ x, bool_decide (x ∈ right)) left) ValueError
    "partition groups must be disjoint" ;;
  let! ok := gets (λ w, forallb (known w) (left ++ right)) in
  raise_if (negb ok) ValueError "partition references unknown nodes" ;;
  ret (sorted_str left, sorted_str right).

Definition block_pair (a b : string) : M unit :=
  upd_sim (λ s, set_blocked_links ({[(a, b)]} ∪ s.(blocked_links)) s) ;;
  upd_sim (λ s, set_blocked_links ({[(b, a)]} ∪ s.(blocked_links)) s).

Definition unblock_pair (a b : string) : M unit :=
  upd_sim (λ s, set_blocked_links (s.(blocked_links) ∖ {[(a, b)]}) s) ;;
  upd_sim (λ s, set_blocked_links (s.(blocked_links) ∖ {[(b, a)]}) s).

Definition partition (left right : list string) : M unit :=
  let! lr := validate_partition_groups left right in
  for_each lr.1 (λ a, for_each lr.2 (λ b, block_pair a b)) ;;
  record (EvPartition lr.1 lr.2).

Definition heal_partition (left right : list string) : M unit :=
  let! lr := validate_partition_groups left right in
  for_each lr.1 (λ a, for_each lr.2 (λ b, unblock_pair a b)) ;;
  record (EvHealPartition lr.1 lr.2).

Definition block_link (s d : string) : M unit :=
  validate_link s d ;;
  upd_sim (λ st, set_blocked_links ({[(s, d)]} ∪ st.(blocked_links)) st) ;;
  record (EvBlockLink s d).

Definition heal_link (s d : string) : M unit :=
  validate_link s d ;;
  upd_sim (λ st, set_blocked_links (st.(blocked_links) ∖ {[(s, d)]}) st) ;;
  record (EvHealLink s d).

Definition set_link_delay (s d : string) (extra_delay : Z) : M unit :=
  validate_link s d ;;
  raise_if (extra_delay <=? 0) ValueError "link extra_delay must be positive" ;;
  upd_sim (λ st, set_link_delays (<[(s, d) := extra_delay]> st.(link_delays)) st) ;;
  record (EvSetLinkDelay s d extra_delay).

Definition clear_link_delay (s d : string) : M unit :=
  validate_link s d ;;
  upd_sim (λ st, set_link_delays (delete (s, d) st.(link_delays)) st) ;;
  record (EvClearLinkDelay s d).

(** ** Methods that call back into the protocol *)
Section callbacks.
Variable run_handler : Handle Σ → Message Σ → M unit.
Variable run_crash : Handle Σ → M unit.
Variable run_restart : Handle Σ → M unit.

Definition clear_volatile (n : string) : M unit :=
  set_volatile n (λ _, volatile0 Σ).

Definition crash (n : string) : M unit :=
  validate_node n ;;
  upd_sim (λ s, set_alive (<[n := false]> s.(alive)) s) ;;
  record (EvCrash n) ;;
  let! s := gets sim in
  match s.(crash_handlers) !! n with
  | Some h => run_crash h
  | None => ret tt
  end ;;
  clear_volatile n.

Definition restart (n : string) : M unit :=
  validate_node n ;;
  upd_sim (λ s, set_alive (<[n := true]> s.(alive)) s) ;;
  clear_volatile n ;;
  record (EvRestart n) ;;
  let! s := gets sim in
  match s.(restart_handlers) !! n with
  | Some h => run_restart h
  | None => ret tt
  end.

(** [message.delivery_dst or message.dst]: an empty string is falsy. *)
Definition endpoint m : string :=
  match m.(delivery_dst) with
  | Some e => if (e =? "")%string then m.(dst) else e
  | None => m.(dst)
  end.

(** The common body of the loops of [run] and [run_until_time], after
    [heappop]. *)
Definition deliver_event d : M unit :=
  upd_sim (set_time d.(sd_time)) ;;
  let m := d.(sd_message) in
  let! up := gets (λ w, is_alive w m.(dst)) in
  if negb up then
    record (EvDiscardCrashed m.(src) m.(dst) m.(ordinal) m.(payload))
  else
    let! s := gets sim in
    match s.(handlers) !! endpoint m with
    | None => raise KeyError "no handler registered for node"
    | Some h =>
        record (EvDeliver m.(src) m.(dst) m.(ordinal) m.(payload)) ;;
        run_handler h m
    end.

Fixpoint run_loop (fuel : nat) (max_events : option Z) (delivered : Z)
    : M Z :=
  match fuel with
  | O => raise OutOfFuel "run"
  | S fuel' =>
      let! s := gets sim in
      match s.(queue) with
      | [] => ret delivered
      | d :: rest =>
          if match max_events with None => true | Some k => delivered <? k end then
            upd_sim (set_queue rest) ;;
            deliver_event d ;;
            run_loop fuel' max_events (delivered + 1)
          else ret delivered
      end
  end.

Definition run (fuel : nat) (max_events : option Z) : M Z :=
  raise_if (match max_events with Some k => k <? 0 | None => false end)
    ValueError "max_events must be non-negative" ;;
  run_loop fuel max_events 0.

Fixpoint run_until_loop (fuel : nat) (deadline delivered : Z) : M Z :=
  match fuel with
  | O => raise OutOfFuel "run_until_time"
  | S fuel' =>
      let! s := gets sim in
      match s.(queue) with
      | [] => ret delivered
      | d :: rest =>
          if d.(sd_time) <=? deadline then
            upd_sim (set_queue rest) ;;
            deliver_event d ;;
            run_until_loop fuel' deadline (delivered + 1)
          else ret delivered
      end
  end.

Definition run_until_time (fuel : nat) (deadline : Z) : M Z :=
  let! s := gets sim in
  raise_if (deadline <? s.(time)) ValueError
    "deadline cannot be earlier than current simulator time" ;;
  let! delivered := run_until_loop fuel deadline 0 in
  upd_sim (set_time deadline) ;;
  ret delivered.

(** [if x is None: raise ValueError(...)], then use [x] *)
Definition require {A} (x : option A) (msg : string) : M A :=
  match x with Some a => ret a | None => raise ValueError msg end.

Definition require_pair (a : ScenarioAction Σ) (msg : string)
    : M (string * string) :=
  match a.(sa_src), a.(sa_dst) with
  | Some s, Some d => ret (s, d)
  | _, _ => raise ValueError msg
  end.

Definition run_action (fuel : nat) (a : ScenarioAction Σ) : M unit :=
  if (a.(sa_kind) =? "send")%string then
    let! p := require_pair a "send action requires src and dst" in
    send p.1 p.2 a.(sa_payload) a.(sa_delay) None
  else if (a.(sa_kind) =? "crash")%string then
    let! n := require a.(sa_node) "crash action requires node" in crash n
  else if (a.(sa_kind) =? "restart")%string then
    let! n := require a.(sa_node) "restart action requires node" in restart n
  else if (a.(sa_kind) =? "partition")%string then
    partition a.(sa_left) a.(sa_right)
  else if (a.(sa_kind) =? "heal-partition")%string then
    heal_partition a.(sa_left) a.(sa_right)
  else if (a.(sa_kind) =? "block-link")%string then
    let! p := require_pair a "block-link action requires src and dst" in
    block_link p.1 p.2
  else if (a.(sa_kind) =? "heal-link")%string then
    let! p := require_pair a "heal-link action requires src and dst" in
    heal_link p.1 p.2
  else if (a.(sa_kind) =? "set-link-delay")%string then
    let! p := require_pair a "set-link-delay action requires src and dst" in
    set_link_delay p.1 p.2 a.(sa_delay)
  else if (a.(sa_kind) =? "clear-link-delay")%string then
    let! p := require_pair a "clear-link-delay action requires src and dst" in
    clear_link_delay p.1 p.2
  else if (a.(sa_kind) =? "run")%string then
    run fuel a.(sa_max_events) ;; ret tt
  else raise ValueError "unknown scenario action".

Definition run_scenario (fuel : nat) (actions : list (ScenarioAction Σ))
    : M (list (TraceRecord Σ)) :=
  for_each actions (run_action fuel) ;;
  run fuel None ;;
  gets (λ w, w.(sim).(trace)).
End callbacks.
End simulator.
