(* ===== verification/SimFacts.v ===== *)
(** * SimFacts: what the simulator guarantees to the protocols on top of it

    The event queue is ordered and never goes back in time, a send adds at
    most two copies of its message and touches nothing else, partitions block
    exactly the links between their groups, and a crash separates volatile
    from persistent state. *)

From S2P Require Import Prelude Simulator.

Section frames.
Context {Σ : Sig}.
Implicit Types (w : World Σ).

(** [sim_ext new w w']: [w'] is [w] with the deliveries [new] put in the
    queue; trace, sequence counter and send ordinals may differ. *)
Record sim_ext (new : list (ScheduledDelivery Σ)) w w' : Prop := {
  se_objs : w'.(objs) = w.(objs);
  se_time : w'.(sim).(time) = w.(sim).(time);
  se_persistent : w'.(sim).(persistent_state) = w.(sim).(persistent_state);
  se_volatile : w'.(sim).(volatile_state) = w.(sim).(volatile_state);
  se_alive : w'.(sim).(alive) = w.(sim).(alive);
  se_handlers : w'.(sim).(handlers) = w.(sim).(handlers);
  se_crash : w'.(sim).(crash_handlers) = w.(sim).(crash_handlers);
  se_restart : w'.(sim).(restart_handlers) = w.(sim).(restart_handlers);
  se_blocked : w'.(sim).(blocked_links) = w.(sim).(blocked_links);
  se_delays : w'.(sim).(link_delays) = w.(sim).(link_delays);
  se_plan : w'.(sim).(fault_plan) = w.(sim).(fault_plan);
  se_queue : w'.(sim).(queue) ≡ₚ new ++ w.(sim).(queue);
}.

Lemma sim_ext_refl w : sim_ext [] w w.
Proof. by constructor. Qed.

Lemma sim_ext_trans new new' w1 w2 w3 :
  sim_ext new w1 w2 → sim_ext new' w2 w3 → sim_ext (new' ++ new) w1 w3.
Proof.
  intros [] []. constructor; try congruence.
  etrans; [done|]. rewrite <-app_assoc. by apply Permutation_app_head.
Qed.

Lemma heappush_perm (d : ScheduledDelivery Σ) (q : list (ScheduledDelivery Σ)) : heappush d q ≡ₚ d :: q.
Proof.
  induction q as [|d' q IH]; simpl; [done|].
  destruct (sd_before d d'); [done|].
  rewrite IH. apply Permutation_swap.
Qed.

Lemma wp_upd_sim (f : Sim Σ → Sim Σ) Q E w :
  Q (mkWorld (f w.(sim)) w.(objs)) tt → wp (upd_sim f) Q E w.
Proof. done. Qed.

(** The records of the protocol, in the order they were written. *)
Definition proto_of (e : Event Σ) : list (Rec Σ) :=
  match e with EvProto r => [r] | _ => [] end.
Definition protos w : list (Rec Σ) := w.(sim).(trace) ≫= λ x, proto_of x.(tr_event).

Lemma wp_record_protos (e : Event Σ) Q E w :
  (∀ w', sim_ext [] w w' → w'.(sim).(sequence) = w.(sim).(sequence) →
     w'.(sim).(queue) = w.(sim).(queue) → protos w' = protos w ++ proto_of e → Q w' tt) →
  wp (record e) Q E w.
Proof.
  intros HQ. apply HQ; [by constructor|done..|].
  unfold protos. simpl. rewrite bind_app. simpl. by rewrite app_nil_r.
Qed.

Lemma wp_record (e : Event Σ) Q E w :
  (∀ w', sim_ext [] w w' → w'.(sim).(sequence) = w.(sim).(sequence) →
     w'.(sim).(queue) = w.(sim).(queue) → Q w' tt) →
  wp (record e) Q E w.
Proof. intros HQ. apply wp_record_protos. intros w' ? ? ? _. by apply HQ. Qed.

Lemma wp_schedule_protos (m : Message Σ) delay Q E w :
  (∀ w',
     let d := mkDelivery (w.(sim).(time) + delay) (w.(sim).(sequence) + 1) m in
     sim_ext [d] w w' → w'.(sim).(sequence) = w.(sim).(sequence) + 1 →
     w'.(sim).(queue) = heappush d w.(sim).(queue) → protos w' = protos w → Q w' tt) →
  wp (schedule m delay) Q E w.
Proof.
  intros HQ. unfold schedule. wp_steps. apply wp_upd_sim. wp_steps. apply wp_upd_sim.
  apply wp_record_protos. intros w' [] Hseq Hq Hp. apply HQ; [|done..|by rewrite Hp, app_nil_r].
  constructor; try done. rewrite Hq. simpl. apply heappush_perm.
Qed.

Lemma wp_schedule (m : Message Σ) delay Q E w :
  (∀ w',
     let d := mkDelivery (w.(sim).(time) + delay) (w.(sim).(sequence) + 1) m in
     sim_ext [d] w w' → w'.(sim).(sequence) = w.(sim).(sequence) + 1 →
     w'.(sim).(queue) = heappush d w.(sim).(queue) → Q w' tt) →
  wp (schedule m delay) Q E w.
Proof. intros HQ. apply wp_schedule_protos. intros w' d ? ? ? _. by apply HQ. Qed.

(** [dur_ext n d w w']: [w'] is [w] with [n]'s durable dictionary set to [d]. *)
Record dur_ext (n : string) (d : Durable Σ) w w' : Prop := {
  de_objs : w'.(objs) = w.(objs);
  de_time : w'.(sim).(time) = w.(sim).(time);
  de_volatile : w'.(sim).(volatile_state) = w.(sim).(volatile_state);
  de_alive : w'.(sim).(alive) = w.(sim).(alive);
  de_handlers : w'.(sim).(handlers) = w.(sim).(handlers);
  de_crash : w'.(sim).(crash_handlers) = w.(sim).(crash_handlers);
  de_restart : w'.(sim).(restart_handlers) = w.(sim).(restart_handlers);
  de_queue : w'.(sim).(queue) = w.(sim).(queue);
  de_protos : protos w' = protos w;
  de_at : durable w' n = d;
  de_other : ∀ n', n' ≠ n → durable w' n' = durable w n';
}.

Lemma wp_persist n (f : Durable Σ → Durable Σ) Q E w :
  (∀ w', dur_ext n (f (durable w n)) w w' → Q w' tt) → wp (persist n f) Q E w.
Proof.
  intros HQ. apply HQ. constructor; try done.
  - unfold durable. simpl. by rewrite lookup_insert_eq.
  - intros n' Hn. unfold durable. simpl. by rewrite lookup_insert_ne.
Qed.

Lemma dur_ext_trans n d1 d2 w1 w2 w3 :
  dur_ext n d1 w1 w2 → dur_ext n d2 w2 w3 → dur_ext n d2 w1 w3.
Proof.
  intros H1 H2. constructor; [destruct H1, H2; congruence..|].
  intros n' Hn. rewrite (de_other _ _ _ _ H2 n' Hn). by apply H1.
Qed.

Lemma sim_ext_durable new w w' n : sim_ext new w w' → durable w' n = durable w n.
Proof. intros He. unfold durable. by rewrite (se_persistent _ _ _ He). Qed.

(** The deliveries a send of [p] from [s] to [d] may produce. *)
Definition is_copy (s d : string) (p : Payload Σ) (x : ScheduledDelivery Σ) : Prop :=
  x.(sd_message).(src) = s ∧ x.(sd_message).(dst) = d
  ∧ x.(sd_message).(payload) = p ∧ x.(sd_message).(delivery_dst) = None.

Lemma wp_send_protos s d (p : Payload Σ) delay Q E w :
  0 ≤ delay →
  (∀ w' new, sim_ext new w w' → Forall (is_copy s d p) new →
     (length new ≤ 2)%nat → protos w' = protos w → Q w' tt) →
  wp (send s d p delay None) Q E w.
Proof.
  intros Hd HQ. unfold send. wp_steps; [lia|done|]. apply wp_upd_sim.
  set (w0 := mkWorld _ _). assert (sim_ext [] w w0) as Hw0 by by constructor.
  assert (protos w0 = protos w) as Hp0 by done.
  clearbody w0. wp_steps.
  set (n := default 0 _). clearbody n.
  case_bool_decide.
  { wp_steps. apply wp_record_protos. intros w1 Hr1 _ _ Hp1. apply wp_record_protos. intros w2 Hr2 _ _ Hp2.
    rewrite app_nil_r in Hp1, Hp2. apply (HQ w2 []); [|done|simpl; lia|congruence].
    exact (sim_ext_trans _ _ _ _ _ Hw0 (sim_ext_trans _ _ _ _ _ Hr1 Hr2)). }
  set (rule := action_for _ _). clearbody rule.
  wp_steps. apply wp_record_protos. intros w1 Hr1 _ _ Hp1. rewrite app_nil_r in Hp1.
  pose proof (sim_ext_trans _ _ _ _ _ Hw0 Hr1) as Hw1. clear Hw0 Hr1.
  case_bool_decide.
  { apply wp_record_protos. intros w2 Hr2 _ _ Hp2. rewrite app_nil_r in Hp2.
    apply (HQ w2 []); [|done|simpl; lia|congruence].
    exact (sim_ext_trans _ _ _ _ _ Hw1 Hr2). }
  wp_steps. apply wp_schedule_protos. cbn. intros w2 Hr2 _ _ Hp2.
  pose proof (sim_ext_trans _ _ _ _ _ Hw1 Hr2) as Hw2. clear Hw1 Hr2.
  apply wp_when; intros _.
  - wp_steps. apply wp_schedule_protos. cbn. intros w3 Hr3 _ _ Hp3.
    apply wp_record_protos. intros w4 Hr4 _ _ Hp4. rewrite app_nil_r in Hp4.
    eapply HQ.
    + exact (sim_ext_trans _ _ _ _ _ (sim_ext_trans _ _ _ _ _ Hw2 Hr3) Hr4).
    + by repeat constructor.
    + simpl; lia.
    + congruence.
  - eapply HQ; [exact Hw2|by repeat constructor|simpl; lia|congruence].
Qed.

Lemma wp_send s d (p : Payload Σ) delay Q E w :
  0 ≤ delay →
  (∀ w' new, sim_ext new w w' → Forall (is_copy s d p) new →
     (length new ≤ 2)%nat → Q w' tt) →
  wp (send s d p delay None) Q E w.
Proof. intros Hd HQ. apply wp_send_protos; [done|]. intros w' new ? ? ? _. by eapply HQ. Qed.

(** ** Rules for the methods that only touch the network tables *)

(** [net_ext w w']: only link tables and the trace changed. *)
Record net_ext w w' : Prop := {
  ne_objs : w'.(objs) = w.(objs);
  ne_queue : w'.(sim).(queue) = w.(sim).(queue);
  ne_persistent : w'.(sim).(persistent_state) = w.(sim).(persistent_state);
  ne_volatile : w'.(sim).(volatile_state) = w.(sim).(volatile_state);
  ne_alive : w'.(sim).(alive) = w.(sim).(alive);
  ne_handlers : w'.(sim).(handlers) = w.(sim).(handlers);
  ne_crash : w'.(sim).(crash_handlers) = w.(sim).(crash_handlers);
  ne_restart : w'.(sim).(restart_handlers) = w.(sim).(restart_handlers);
  ne_protos : protos w' = protos w;
}.

Lemma net_ext_refl w : net_ext w w.
Proof. by constructor. Qed.

Lemma net_ext_trans w1 w2 w3 : net_ext w1 w2 → net_ext w2 w3 → net_ext w1 w3.
Proof. intros [] []. constructor; congruence. Qed.

(** [net_only m]: [m] changes nothing but link tables and the trace, and
    raises only [ValueError]. *)
Definition net_only {A} (m : M (World Σ) A) : Prop := ∀ w,
  wp m (λ w' _, net_ext w w') (λ w' e, net_ext w w' ∧ e.(exn_cls) = ValueError) w.

Lemma net_only_bind {A B} (m : M (World Σ) A) (k : A → M (World Σ) B) :
  net_only m → (∀ a, net_only (k a)) → net_only (bind m k).
Proof.
  intros Hm Hk w. apply wp_bind. eapply wp_mono; [apply Hm| |by auto].
  intros w1 a H1. eapply wp_mono; [apply Hk| |].
  - intros w2 b H2. exact (net_ext_trans _ _ _ H1 H2).
  - intros w2 e [H2 ?]. split; [exact (net_ext_trans _ _ _ H1 H2)|done].
Qed.

Lemma net_only_ret {A} (a : A) : net_only (ret a).
Proof. intros w. apply net_ext_refl. Qed.
Lemma net_only_gets {A} (f : World Σ → A) : net_only (gets f).
Proof. intros w. apply net_ext_refl. Qed.
Lemma net_only_raise_if b msg : net_only (raise_if b ValueError msg).
Proof.
  intros w. apply wp_raise_if; intros _; [split; [apply net_ext_refl|done]|apply net_ext_refl].
Qed.
Lemma net_only_record (e : Event Σ) : proto_of e = [] → net_only (record e).
Proof.
  intros He w. apply wp_record_protos. intros w' [] _ ? Hp. rewrite He, app_nil_r in Hp. by constructor.
Qed.
Lemma net_only_set_blocked f :
  net_only (upd_sim (λ s : Sim Σ, set_blocked_links (f s) s)).
Proof. intros w. by constructor. Qed.
Lemma net_only_set_delays f :
  net_only (upd_sim (λ s : Sim Σ, set_link_delays (f s) s)).
Proof. intros w. by constructor. Qed.
Lemma net_only_for_each {A} (l : list A) (f : A → M (World Σ) unit) :
  (∀ a, net_only (f a)) → net_only (for_each l f).
Proof.
  intros Hf. induction l as [|a l IH]; [apply net_only_ret|].
  apply net_only_bind; [apply Hf|intros _; exact IH].
Qed.
End frames.

#[export] Hint Resolve net_only_ret net_only_gets net_only_raise_if net_only_record
  net_only_set_blocked net_only_set_delays net_only_for_each : distlab.
#[export] Hint Extern 1 (proto_of _ = []) => reflexivity : distlab.
#[export] Hint Extern 3 (net_only (bind _ _)) => apply net_only_bind; [|intros] : distlab.

Section net_methods.
Context {Σ : Sig}.

Lemma net_only_validate_link s d : net_only (validate_link (Σ := Σ) s d).
Proof. unfold validate_link. auto 10 with distlab. Qed.
Lemma net_only_validate_groups l r : net_only (validate_partition_groups (Σ := Σ) l r).
Proof. unfold validate_partition_groups. auto 20 with distlab. Qed.
Lemma net_only_block_pair a b : net_only (block_pair (Σ := Σ) a b).
Proof. unfold block_pair. auto 10 with distlab. Qed.
Lemma net_only_unblock_pair a b : net_only (unblock_pair (Σ := Σ) a b).
Proof. unfold unblock_pair. auto 10 with distlab. Qed.
#[local] Hint Resolve net_only_validate_link net_only_validate_groups
  net_only_block_pair net_only_unblock_pair : distlab.

Lemma net_only_partition l r : net_only (partition (Σ := Σ) l r).
Proof. unfold partition. auto 20 with distlab. Qed.
Lemma net_only_heal_partition l r : net_only (heal_partition (Σ := Σ) l r).
Proof. unfold heal_partition. auto 20 with distlab. Qed.
Lemma net_only_block_link s d : net_only (block_link (Σ := Σ) s d).
Proof. unfold block_link. auto 20 with distlab. Qed.
Lemma net_only_heal_link s d : net_only (heal_link (Σ := Σ) s d).
Proof. unfold heal_link. auto 20 with distlab. Qed.
Lemma net_only_set_link_delay s d x : net_only (set_link_delay (Σ := Σ) s d x).
Proof. unfold set_link_delay. auto 20 with distlab. Qed.
Lemma net_only_clear_link_delay s d : net_only (clear_link_delay (Σ := Σ) s d).
Proof. unfold clear_link_delay. auto 20 with distlab. Qed.
End net_methods.

#[export] Hint Resolve net_only_partition net_only_heal_partition net_only_block_link
  net_only_heal_link net_only_set_link_delay net_only_clear_link_delay : distlab.

(** ** Invariants of the delivery loops *)
Section loops.
Context {Σ : Sig} (run_handler : Handle Σ → Message Σ → M (World Σ) unit).
Context (I : World Σ → Prop) (E : World Σ → exn → Prop).

Lemma wp_run_loop fuel k n w :
  (∀ w msg, I w → E w (Exn OutOfFuel msg)) →
  (∀ w d rest, I w → w.(sim).(queue) = d :: rest →
     wp (deliver_event run_handler d) (λ w' _, I w') E
       (mkWorld (set_queue rest w.(sim)) w.(objs))) →
  I w → wp (run_loop run_handler fuel k n) (λ w' _, I w') E w.
Proof.
  intros HE Hd. revert n w. induction fuel as [|fuel IH]; intros n w Hw.
  - apply wp_raise. by apply HE.
  - apply wp_bind, wp_gets. destruct (queue (sim w)) as [|d rest] eqn:Eq; [done|].
    destruct (match k with Some _ => _ | None => _ end); [|done].
    apply wp_bind, wp_upd_sim, wp_bind. eapply wp_mono; [by apply Hd| |done].
    intros w' x Hw'. by apply IH.
Qed.

Lemma wp_run_until_loop fuel t n w :
  (∀ w msg, I w → E w (Exn OutOfFuel msg)) →
  (∀ w d rest, I w → w.(sim).(queue) = d :: rest →
     wp (deliver_event run_handler d) (λ w' _, I w') E
       (mkWorld (set_queue rest w.(sim)) w.(objs))) →
  I w → wp (run_until_loop run_handler fuel t n) (λ w' _, I w') E w.
Proof.
  intros HE Hd. revert n w. induction fuel as [|fuel IH]; intros n w Hw.
  - apply wp_raise. by apply HE.
  - apply wp_bind, wp_gets. destruct (queue (sim w)) as [|d rest] eqn:Eq; [done|].
    destruct (_ <=? _); [|done].
    apply wp_bind, wp_upd_sim, wp_bind. eapply wp_mono; [by apply Hd| |done].
    intros w' x Hw'. by apply IH.
Qed.
End loops.
