(* ===== verification/SimProperties.v ===== *)
(** * SimProperties: the contract of the deterministic simulator

    For any protocol on top: the queue is in delivery order and nothing is due
    in the past; the fate of each send; what partitions, healing, deadlines
    and event budgets do. *)

From S2P Require Import Prelude Simulator SimFacts.

Section sim_properties.
Context {Σ : Sig}.
Implicit Types (w : World Σ) (d : ScheduledDelivery Σ).

(** ** The event queue *)

Definition before d d' : Prop :=
  d.(sd_time) < d'.(sd_time) ∨ d.(sd_time) = d'.(sd_time) ∧ d.(sd_sequence) < d'.(sd_sequence).

Lemma sd_before_spec d d' : sd_before d d' = true ↔ before d d'.
Proof.
  unfold sd_before, before. rewrite orb_true_iff, andb_true_iff, Z.ltb_lt, Z.eqb_eq, Z.ltb_lt. done.
Qed.

(** Deliveries in the order they will happen, none due before [t], with
    sequence numbers already handed out. *)
Definition queue_wf (t seq : Z) (q : list (ScheduledDelivery Σ)) : Prop :=
  StronglySorted before q ∧ Forall (λ d, t ≤ d.(sd_time) ∧ d.(sd_sequence) ≤ seq) q.

Definition timely w : Prop := queue_wf w.(sim).(time) w.(sim).(sequence) w.(sim).(queue).

(** Delays are never negative: what the constructors of [FaultRule] and
    [set_link_delay] enforce. *)
Definition delays_ok w : Prop :=
  Forall (λ r, 0 ≤ r.(fr_extra_delay)) w.(sim).(fault_plan)
  ∧ map_Forall (λ _ x, 0 ≤ x) w.(sim).(link_delays).

Lemma before_heappush d d' q :
  before d d' → Forall (before d) q → Forall (before d) (heappush d' q).
Proof. intros Hd Hq. rewrite heappush_perm. by constructor. Qed.

Lemma heappush_sorted (d : ScheduledDelivery Σ) q :
  StronglySorted before q → Forall (λ d', d'.(sd_sequence) < d.(sd_sequence)) q →
  StronglySorted before (heappush d q).
Proof.
  intros Hq. induction Hq as [|d' q Hq IH Hd']; intros Hseq; simpl.
  - repeat constructor.
  - apply Forall_cons in Hseq as [Hseq Hrest].
    destruct (sd_before d d') eqn:E.
    + apply sd_before_spec in E. constructor; [by constructor|].
      constructor; [done|]. eapply Forall_impl; [exact Hd'|].
      intros x Hx. unfold before in *. lia.
    + constructor; [by apply IH|]. apply before_heappush; [|done].
      assert (¬ before d d') as Hn by (rewrite <-sd_before_spec; congruence).
      unfold before in *. lia.
Qed.

Lemma queue_wf_push t seq q tm (m : Message Σ) :
  queue_wf t seq q → t ≤ tm → queue_wf t (seq + 1) (heappush (mkDelivery tm (seq + 1) m) q).
Proof.
  intros [Hs Hb] Ht. split.
  - apply heappush_sorted; [done|]. eapply Forall_impl; [exact Hb|]. simpl. lia.
  - rewrite heappush_perm. constructor; [simpl; lia|].
    eapply Forall_impl; [exact Hb|]. simpl. lia.
Qed.

Lemma queue_wf_pop t seq d q : queue_wf t seq (d :: q) → t ≤ d.(sd_time) ∧ queue_wf d.(sd_time) seq q.
Proof.
  intros [Hs Hb]. apply StronglySorted_inv in Hs as [Hs Hd]. apply Forall_cons in Hb as [? Hb].
  split; [lia|]. split; [done|]. rewrite Forall_forall in Hd, Hb |- *.
  intros x Hx. specialize (Hd x Hx). specialize (Hb x Hx). unfold before in Hd. lia.
Qed.

(** [evolves w w']: time has not moved, the queue is still in order, and the
    delay tables still hold no negative number. *)
Definition evolves w w' : Prop :=
  w'.(sim).(time) = w.(sim).(time) ∧ timely w' ∧ delays_ok w'.

Lemma wp_schedule_timely (m : Message Σ) delay w (E : World Σ → exn → Prop) :
  0 ≤ delay → timely w → delays_ok w →
  wp (schedule m delay) (λ w' _, evolves w w'
    ∧ w'.(sim).(queue) = heappush (mkDelivery (w.(sim).(time) + delay) (w.(sim).(sequence) + 1) m)
        w.(sim).(queue) ∧ w'.(sim).(sequence) = w.(sim).(sequence) + 1) E w.
Proof.
  intros Hd Hw Hdel. apply wp_schedule. cbv zeta. intros w' He Hseq Hq.
  split_and!; [|done|done]. split_and!; [apply He| |].
  - unfold timely. rewrite Hseq, Hq, (se_time _ _ _ He). apply queue_wf_push; [done|lia].
  - unfold delays_ok. rewrite (se_plan _ _ _ He), (se_delays _ _ _ He). done.
Qed.

Lemma action_for_delay plan (m : Message Σ) :
  Forall (λ r, 0 ≤ r.(fr_extra_delay)) plan → 0 ≤ (action_for plan m).(fr_extra_delay).
Proof.
  induction 1 as [|r plan Hr _ IH]; simpl; [lia|]. by destruct (matches r m).
Qed.

Lemma link_delay_nonneg w k : delays_ok w → 0 ≤ default 0 (w.(sim).(link_delays) !! k).
Proof.
  intros [_ Hl]. destruct (_ !! k) as [x|] eqn:E; simpl; [by apply (Hl k)|lia].
Qed.

(** ** The fate of a send *)

Definition next_ordinal w (s d : string) : Z := default 0 (w.(sim).(send_ordinals) !! (s, d)) + 1.

(** When the copies of a message arrive: none on a blocked link or when the
    first matching fault rule drops it, one or two otherwise. *)
Definition arrivals w (m : Message Σ) (delay : Z) : list Z :=
  if bool_decide ((m.(src), m.(dst)) ∈ w.(sim).(blocked_links)) then []
  else
    let rule := action_for w.(sim).(fault_plan) m in
    let now := w.(sim).(time) in
    let link := delay + default 0 (w.(sim).(link_delays) !! (m.(src), m.(dst))) in
    match rule.(fr_action) with
    | DELIVER => [now + link]
    | DROP => []
    | DELAY => [now + (link + rule.(fr_extra_delay))]
    | DUPLICATE => [now + link; now + (link + rule.(fr_extra_delay))]
    end.

Fixpoint push_all (q : list (ScheduledDelivery Σ)) (seq : Z) (m : Message Σ) (ts : list Z) :=
  match ts with
  | [] => q
  | t :: ts' => push_all (heappush (mkDelivery t (seq + 1) m) q) (seq + 1) m ts'
  end.

(** A send never raises for a non-negative delay and a known endpoint; it
    numbers the message on its link and puts exactly the copies due in the
    queue, each with a fresh sequence number; durable and volatile state, the
    objects, the clock and the link tables stay as they are. *)
Theorem send_outcome (s d : string) (p : Payload Σ) delay ddst w :
  0 ≤ delay → match ddst with Some e => known w e = true | None => True end →
  let m := mkMessage s d p (next_ordinal w s d) ddst in
  let ts := arrivals w m delay in
  ∃ w', send s d p delay ddst w = (w', inr tt)
    ∧ w'.(sim).(queue) = push_all w.(sim).(queue) w.(sim).(sequence) m ts
    ∧ w'.(sim).(sequence) = w.(sim).(sequence) + zlen ts
    ∧ w'.(sim).(send_ordinals) = <[(s, d) := next_ordinal w s d]> w.(sim).(send_ordinals)
    ∧ w'.(objs) = w.(objs) ∧ w'.(sim).(time) = w.(sim).(time)
    ∧ w'.(sim).(persistent_state) = w.(sim).(persistent_state)
    ∧ w'.(sim).(volatile_state) = w.(sim).(volatile_state)
    ∧ w'.(sim).(blocked_links) = w.(sim).(blocked_links)
    ∧ w'.(sim).(link_delays) = w.(sim).(link_delays).
Proof.
  intros Hd Hk. cbv zeta. unfold send, arrivals, bind, raise_if, gets, ret.
  rewrite (proj2 (Z.ltb_ge _ _) Hd).
  assert (match ddst with Some e => negb (known w e) | None => false end = false) as ->.
  { destruct ddst; [by rewrite Hk|done]. }
  cbn -[bool_decide heappush]. rewrite lookup_insert_eq. cbn -[bool_decide heappush].
  fold (next_ordinal w s d).
  destruct (bool_decide ((s, d) ∈ blocked_links (sim w))).
  { eexists. split; [done|]. split_and!; try done. unfold zlen. simpl. lia. }
  set (m := mkMessage s d p _ _). set (rule := action_for _ m).
  destruct (fr_action rule); unfold schedule, record, upd_sim, modify, gets, when, bind;
    cbn -[heappush]; rewrite ?Z.add_0_r;
    (eexists; split; [done|]; split_and!; try done; unfold zlen; simpl; lia).
Qed.

(** ** Keeping the queue in order *)

(** [m] moves no clock and keeps the queue in order. *)
Definition steady {A} (m : M (World Σ) A) : Prop := ∀ w,
  timely w → delays_ok w → wp m (λ w' _, evolves w w') (λ w' _, evolves w w') w.

Lemma evolves_trans w1 w2 w3 : evolves w1 w2 → evolves w2 w3 → evolves w1 w3.
Proof. intros (? & ? & ?) (? & ? & ?). split_and!; [congruence|done..]. Qed.

Lemma steady_bind {A B} (m : M (World Σ) A) (k : A → M (World Σ) B) :
  steady m → (∀ a, steady (k a)) → steady (bind m k).
Proof.
  intros Hm Hk w Ht Hd. apply wp_bind. eapply wp_mono; [by apply Hm| |done].
  intros w1 a (? & H1 & H2).
  eapply wp_mono; [by apply Hk|..]; intros w2 b H3; eapply evolves_trans; [done|exact H3|done|exact H3].
Qed.

(** What leaves clock, queue and delay tables alone is steady. *)
Lemma steady_frame {A} (m : M (World Σ) A) :
  (∀ w, let same w' := w'.(sim).(time) = w.(sim).(time)
     ∧ w'.(sim).(sequence) = w.(sim).(sequence) ∧ w'.(sim).(queue) = w.(sim).(queue)
     ∧ w'.(sim).(fault_plan) = w.(sim).(fault_plan)
     ∧ w'.(sim).(link_delays) = w.(sim).(link_delays) in
     wp m (λ w' _, same w') (λ w' _, same w') w) → steady m.
Proof.
  intros Hm w Ht Hd. eapply wp_mono; [apply Hm|..];
    intros w' a (H1 & H2 & H3 & H4 & H5);
    (split; [done|unfold timely, delays_ok; rewrite H1, H2, H3, H4, H5; done]).
Qed.

Lemma steady_ret {A} (a : A) : steady (ret a).
Proof. by apply steady_frame. Qed.
Lemma steady_gets {A} (f : World Σ → A) : steady (gets f).
Proof. by apply steady_frame. Qed.
Lemma steady_raise_if b c msg : steady (raise_if b c msg).
Proof. apply steady_frame. intros w. by destruct b. Qed.
Lemma steady_record (e : Event Σ) : steady (record e).
Proof. by apply steady_frame. Qed.
Lemma steady_schedule (m : Message Σ) delay : 0 ≤ delay → steady (schedule m delay).
Proof.
  intros Hd w Ht Hdel. eapply wp_mono; [by apply wp_schedule_timely|..].
  - by intros w' a [? _].
  - exact (λ w' _ H, H).
Qed.

Lemma steady_send (s d : string) (p : Payload Σ) delay ddst :
  0 ≤ delay → steady (send s d p delay ddst).
Proof.
  intros Hdelay. unfold send.
  apply steady_bind; [apply steady_raise_if|intros _].
  apply steady_bind; [apply steady_gets|intros u].
  apply steady_bind; [apply steady_raise_if|intros _].
  apply steady_bind; [by apply steady_frame|intros _].
  intros w Ht Hd. apply wp_bind, wp_gets. revert w Ht Hd.
  match goal with |- ∀ w, timely w → delays_ok w → wp (@?f w) _ _ w =>
    enough (∀ w0, delays_ok w0 → steady (f w0)) as Hall by (intros w Ht Hd; by apply Hall) end.
  intros w0 Hd0. cbv beta. case_bool_decide.
  { apply steady_bind; [apply steady_record|intros _; apply steady_record]. }
  apply steady_bind; [apply steady_record|intros _].
  case_bool_decide; [apply steady_record|].
  pose proof (link_delay_nonneg w0 (s, d) Hd0).
  set (rule := action_for _ _).
  assert (0 ≤ fr_extra_delay rule) by by apply action_for_delay, Hd0.
  set (fault_delay := if bool_decide (fr_action rule = DELAY) then fr_extra_delay rule else 0).
  assert (0 ≤ fault_delay) by (unfold fault_delay; destruct (bool_decide _); lia).
  clearbody fault_delay.
  apply steady_bind; [apply steady_schedule; lia|intros _].
  unfold when. destruct (bool_decide _); [|apply steady_ret].
  apply steady_bind; [apply steady_schedule; lia|intros _; apply steady_record].
Qed.

(** [m] never takes the clock back. *)
Definition advances w w' : Prop :=
  w.(sim).(time) ≤ w'.(sim).(time) ∧ timely w' ∧ delays_ok w'.

Definition forward {A} (m : M (World Σ) A) : Prop := ∀ w,
  timely w → delays_ok w → wp m (λ w' _, advances w w') (λ w' _, advances w w') w.

Lemma steady_forward {A} (m : M (World Σ) A) : steady m → forward m.
Proof.
  intros Hm w Ht Hd. eapply wp_mono; [by apply Hm|..]; intros w' a (Htime & ? & ?);
    (split; [rewrite Htime; lia|done]).
Qed.

Lemma forward_bind {A B} (m : M (World Σ) A) (k : A → M (World Σ) B) :
  forward m → (∀ a, forward (k a)) → forward (bind m k).
Proof.
  intros Hm Hk w Ht Hd. apply wp_bind. eapply wp_mono; [by apply Hm| |done].
  intros w1 a (? & H1 & H2).
  eapply wp_mono; [by apply Hk|..]; intros w2 b (? & ? & ?); (split; [lia|done]).
Qed.

(** ** Running *)
Section running.
Context (run_handler : Handle Σ → Message Σ → M (World Σ) unit).

(** [run] with a budget delivers at most that many events, and stops
    before it only with an empty queue. *)
Theorem run_budget fuel k w w' n :
  run run_handler fuel (Some k) w = (w', inr n) →
  0 ≤ k ∧ (n = k ∨ 0 ≤ n < k ∧ w'.(sim).(queue) = []).
Proof.
  unfold run, bind, raise_if. destruct (Z.ltb_spec k 0); simpl; [done|].
  assert (∀ fuel m w, 0 ≤ m ≤ k →
    run_loop run_handler fuel (Some k) m w = (w', inr n) →
    n = k ∨ 0 ≤ n < k ∧ w'.(sim).(queue) = []) as Hloop.
  { clear. induction fuel as [|fuel IH]; intros m w Hm; simpl; [done|].
    unfold bind at 1, gets. destruct (queue (sim w)) as [|d rest] eqn:Eq.
    { intros [= <- <-]. rewrite Eq. destruct (decide (m = k)); [by left|]. right. split; [lia|done]. }
    destruct (Z.ltb_spec m k); [|intros [= _ <-]; left; lia].
    unfold bind, upd_sim, modify. destruct (deliver_event _ _ _) as [w1 [e|[]]]; [done|].
    apply IH. lia. }
  intros Hr. split; [done|]. eapply Hloop; [|exact Hr]. lia.
Qed.

Context (Hhandler : ∀ h m, steady (run_handler h m)).

(** Delivering the head of the queue moves the clock to its due time. *)
Lemma wp_deliver_event w d rest :
  timely w → delays_ok w → w.(sim).(queue) = d :: rest →
  let Q w' := w'.(sim).(time) = d.(sd_time) ∧ timely w' ∧ delays_ok w' in
  w.(sim).(time) ≤ d.(sd_time) ∧
  wp (deliver_event run_handler d) (λ w' _, Q w') (λ w' _, Q w')
    (mkWorld (set_queue rest w.(sim)) w.(objs)).
Proof.
  intros Ht Hd Hq Q. unfold timely in Ht. rewrite Hq in Ht.
  apply queue_wf_pop in Ht as [Hle Ht]. split; [done|].
  unfold deliver_event. apply wp_bind, wp_upd_sim. simpl.
  set (w1 := mkWorld _ _).
  assert (timely w1) as H1 by done. assert (delays_ok w1) as H2 by done.
  apply wp_bind, wp_gets. destruct (negb _); [by apply steady_record|].
  apply wp_bind, wp_gets. destruct (handlers _ !! _) as [h|]; [|by apply wp_raise].
  assert (steady (record (EvDeliver (src (sd_message d)) (dst (sd_message d))
    (ordinal (sd_message d)) (payload (sd_message d))) ;; run_handler h (sd_message d))) as Hs
    by (apply steady_bind; [apply steady_record|intros _; apply Hhandler]).
  eapply wp_mono; [by apply Hs|..]; intros w' a (? & ? & ?); (split_and!; [|done..]); done.
Qed.

(** [run] never takes the clock back and keeps the queue in order, also
    when a handler raises. *)
Lemma forward_run fuel k : forward (run run_handler fuel k).
Proof.
  intros w Ht Hd. unfold run. apply wp_bind, wp_raise_if; intros _; [by split; [lia|]|].
  apply wp_run_loop; [done| |by split; [lia|]].
  intros w1 d rest (Hle & Ht1 & Hd1) Hq.
  destruct (wp_deliver_event w1 d rest Ht1 Hd1 Hq) as [Hdue Hw].
  eapply wp_mono; [exact Hw|..]; intros w2 a (Htime & ? & ?);
    (split; [rewrite Htime; lia|done]).
Qed.

Lemma queue_wf_advance t t' seq q :
  queue_wf t seq q → Forall (λ d, t' ≤ d.(sd_time)) q → queue_wf t' seq q.
Proof.
  intros [Hs Hb] Hq. split; [done|]. rewrite Forall_forall in Hb, Hq |- *.
  intros d Hin. specialize (Hb d Hin). specialize (Hq d Hin). simpl in *. lia.
Qed.

Lemma wp_run_until_loop_advance fuel deadline n w :
  timely w → delays_ok w → w.(sim).(time) ≤ deadline →
  wp (run_until_loop run_handler fuel deadline n)
    (λ w' _, advances w w' ∧ w'.(sim).(time) ≤ deadline
       ∧ Forall (λ d, deadline < d.(sd_time)) w'.(sim).(queue))
    (λ w' _, advances w w') w.
Proof.
  revert n w. induction fuel as [|fuel IH]; intros n w Ht Hd Hle; simpl.
  { apply wp_raise. by split; [lia|]. }
  apply wp_bind, wp_gets. destruct (queue (sim w)) as [|d rest] eqn:Eq.
  { apply wp_ret. rewrite Eq. by split; [split; [lia|]|]. }
  destruct (Z.leb_spec (sd_time d) deadline) as [Hdue|Hlate].
  - apply wp_bind, wp_upd_sim, wp_bind.
    destruct (wp_deliver_event w d rest Ht Hd Eq) as [Hnow Hw].
    eapply wp_mono; [exact Hw| |].
    + intros w1 a (Htime & ? & ?). eapply wp_mono; [apply IH; [done..|lia]| |].
      * intros w2 b [[? ?] ?]. split; [split; [lia|done]|done].
      * intros w2 e [? ?]. split; [lia|done].
    + intros w1 e (Htime & ? & ?). split; [lia|done].
  - apply wp_ret. split; [by split; [lia|]|]. split; [done|].
    unfold timely in Ht. rewrite Eq in Ht |- *.
    apply queue_wf_pop in Ht as [_ [_ Hrest]]. constructor; [lia|].
    eapply Forall_impl; [exact Hrest|]. simpl. lia.
Qed.

Lemma wp_run_until fuel deadline w :
  timely w → delays_ok w →
  wp (run_until_time run_handler fuel deadline)
    (λ w' _, advances w w' ∧ w'.(sim).(time) = deadline
       ∧ Forall (λ d, deadline < d.(sd_time)) w'.(sim).(queue))
    (λ w' _, advances w w' ∧ (deadline < w.(sim).(time) → w' = w)) w.
Proof.
  intros Ht Hd. unfold run_until_time. apply wp_bind, wp_gets.
  apply wp_bind, wp_raise_if; intros Hlt.
  { split; [by split; [lia|]|done]. }
  apply Z.ltb_ge in Hlt. apply wp_bind.
  eapply wp_mono; [by apply wp_run_until_loop_advance| |].
  - intros w1 n (Hadv & Hle & Hq). apply wp_bind, wp_upd_sim, wp_ret. simpl.
    destruct Hadv as (? & Ht1 & ?). split_and!; [|done|done].
    split; [done|]. split; [|done]. eapply queue_wf_advance; [exact Ht1|].
    eapply Forall_impl; [exact Hq|]. simpl. lia.
  - intros w1 e Hadv. split; [done|lia].
Qed.

Lemma forward_run_until fuel deadline : forward (run_until_time run_handler fuel deadline).
Proof.
  intros w Ht Hd. eapply wp_mono; [by apply wp_run_until|..]; by intros w' a [? _].
Qed.

(** [run_until_time] leaves the clock at the deadline with exactly the
    later events still queued, in order, and refuses a deadline in the past
    without doing anything. *)
Theorem run_until_time_deadline fuel deadline w w' r :
  timely w → delays_ok w → run_until_time run_handler fuel deadline w = (w', r) →
  match r with
  | inr _ => w'.(sim).(time) = deadline
      ∧ Forall (λ d, deadline < d.(sd_time)) w'.(sim).(queue) ∧ timely w'
  | inl _ => deadline < w.(sim).(time) → w' = w
  end.
Proof.
  intros Ht Hd Hr. pose proof (wp_run_until fuel deadline w Ht Hd) as Hw.
  unfold wp in Hw. rewrite Hr in Hw. destruct r as [e|n]; [by destruct Hw|].
  destruct Hw as ((_ & ? & _) & ? & ?). done.
Qed.
End running.

(** ** Partitions *)

(** [a] and [b] are on opposite sides. *)
Definition across (left right : list string) (a b : string) : Prop :=
  a ∈ left ∧ b ∈ right ∨ a ∈ right ∧ b ∈ left.

#[export] Instance across_dec left right a b : Decision (across left right a b).
Proof. unfold across. apply _. Defined.

Definition blocked w (a b : string) : Prop := (a, b) ∈ w.(sim).(blocked_links).

(** The loops of [partition] and [heal_partition] over a body that changes
    the links of one pair. *)
Lemma wp_all_pairs (f : string → string → M (World Σ) unit)
    (upd : Prop → Prop → Prop) left right w :
  (∀ a b w1, wp (f a b) (λ w2 _, ∀ x y, blocked w2 x y ↔
     upd (blocked w1 x y) (x = a ∧ y = b ∨ x = b ∧ y = a)) (λ _ _, False) w1) →
  (∀ P Q, ¬ Q → upd P Q ↔ P) → (∀ P Q Q', upd (upd P Q) Q' ↔ upd P (Q ∨ Q')) →
  (∀ P P' Q Q', (P ↔ P') → (Q ↔ Q') → upd P Q ↔ upd P' Q') →
  wp (for_each left (λ a, for_each right (λ b, f a b)))
    (λ w' _, ∀ x y, blocked w' x y ↔ upd (blocked w x y) (across left right x y))
    (λ _ _, False) w.
Proof.
  intros Hf H0 Hor Hcong.
  assert (∀ a r w1, wp (for_each r (λ b, f a b)) (λ w2 _, ∀ x y, blocked w2 x y ↔
    upd (blocked w1 x y) (x = a ∧ y ∈ r ∨ x ∈ r ∧ y = a)) (λ _ _, False) w1) as Hrow.
  { intros a r. induction r as [|b r IH]; intros w1; simpl.
    - intros x y. symmetry. apply H0. set_solver.
    - apply wp_bind. eapply wp_mono; [apply Hf| |done]. intros w2 u2 H2.
      eapply wp_mono; [apply IH| |done]. intros w3 u3 H3 x y.
      etrans; [apply H3|].
    etrans; [apply (Hcong _ _ _ _ (H2 x y) (iff_refl _))|].
    etrans; [apply Hor|]. apply Hcong; [done|]. set_solver. }
  revert w. induction left as [|a l IH]; intros w; simpl.
  - intros x y. symmetry. apply H0. unfold across. set_solver.
  - apply wp_bind. eapply wp_mono; [apply Hrow| |done]. intros w2 u2 H2.
    eapply wp_mono; [apply IH| |done]. intros w3 u3 H3 x y.
    etrans; [apply H3|].
    etrans; [apply (Hcong _ _ _ _ (H2 x y) (iff_refl _))|].
    etrans; [apply Hor|]. apply Hcong; [done|].
    unfold across. set_solver.
Qed.

Lemma across_sorted l r x y : across (sorted_str l) (sorted_str r) x y ↔ across l r x y.
Proof. unfold across. by rewrite !elem_of_sorted_str. Qed.

Lemma wp_validate_groups l r w (Q : World Σ → list string * list string → Prop) :
  (∀ w', net_ext w w' → w' = w → Q w (sorted_str l, sorted_str r)) →
  wp (validate_partition_groups l r) Q (λ _ _, True) w.
Proof.
  intros HQ. unfold validate_partition_groups.
  do 3 (apply wp_bind, wp_raise_if; [done|intros _]). apply wp_bind, wp_gets.
  apply wp_bind, wp_raise_if; [done|intros _]. apply wp_ret. apply (HQ w); [|done]. by constructor.
Qed.

(** A successful [partition] blocks, in both directions, exactly the
    links between the two groups on top of what was blocked;
    [heal_partition] unblocks exactly those. *)
Theorem partition_links left right w w' :
  (partition left right w = (w', inr tt) →
     ∀ a b, blocked w' a b ↔ blocked w a b ∨ across left right a b)
  ∧ (heal_partition left right w = (w', inr tt) →
     ∀ a b, blocked w' a b ↔ blocked w a b ∧ ¬ across left right a b).
Proof.
  split; intros Hp.
  - assert (wp (partition left right) (λ w' _, ∀ a b, blocked w' a b ↔
      blocked w a b ∨ across left right a b) (λ _ _, True) w) as Hw.
    { apply wp_bind, wp_validate_groups. intros _ _ _. apply wp_bind. eapply wp_mono;
        [apply (wp_all_pairs _ or)| |done].
      - intros a b w1 x y. unfold blocked. simpl. set_solver.
      - tauto.
      - tauto.
      - tauto.
      - intros w1 [] H1. apply wp_record. intros w2 He _ _ a b. unfold blocked at 1.
        rewrite (se_blocked _ _ _ He), <-across_sorted. apply H1. }
    unfold wp in Hw. by rewrite Hp in Hw.
  - assert (wp (heal_partition left right) (λ w' _, ∀ a b, blocked w' a b ↔
      blocked w a b ∧ ¬ across left right a b) (λ _ _, True) w) as Hw.
    { apply wp_bind, wp_validate_groups. intros _ _ _. apply wp_bind. eapply wp_mono;
        [apply (wp_all_pairs _ (λ P Q, P ∧ ¬ Q))| |done].
      - intros a b w1 x y. unfold blocked. simpl. set_solver.
      - tauto.
      - tauto.
      - tauto.
      - intros w1 [] H1. apply wp_record. intros w2 He _ _ a b. unfold blocked at 1.
        rewrite (se_blocked _ _ _ He), <-across_sorted. apply H1. }
    unfold wp in Hw. by rewrite Hp in Hw.
Qed.

Lemma steady_raise {A} c msg : steady (raise (A := A) c msg).
Proof. by apply steady_frame. Qed.
Lemma steady_lift {A} (r : exn + A) : steady (lift r).
Proof. apply steady_frame. intros w. by destruct r. Qed.
Lemma steady_persist n f : steady (persist n f).
Proof. by apply steady_frame. Qed.
Lemma steady_set_volatile n f : steady (set_volatile n f).
Proof. by apply steady_frame. Qed.
Lemma steady_upd_objs f : steady (upd_objs f).
Proof. by apply steady_frame. Qed.
Lemma steady_when b m : steady m → steady (when b m).
Proof. intros Hm. destruct b; [done|apply steady_ret]. Qed.
Lemma steady_for_each {A} (l : list A) f : (∀ a, steady (f a)) → steady (for_each l f).
Proof.
  intros Hf. induction l as [|a l IH]; [apply steady_ret|].
  apply steady_bind; [apply Hf|intros _; exact IH].
Qed.
End sim_properties.

(** Walk through a method: everything it is made of is steady. *)
Ltac steady_step :=
  match goal with
  | |- steady (bind _ _) => apply steady_bind; [|intros]
  | |- steady (ret _) => apply steady_ret
  | |- steady (gets _) => apply steady_gets
  | |- steady (raise _ _) => apply steady_raise
  | |- steady (raise_if _ _ _) => apply steady_raise_if
  | |- steady (lift _) => apply steady_lift
  | |- steady (record _) => apply steady_record
  | |- steady (persist _ _) => apply steady_persist
  | |- steady (set_volatile _ _) => apply steady_set_volatile
  | |- steady (upd_objs _) => apply steady_upd_objs
  | |- steady (upd_sim (λ _, set_blocked_links _ _)) => by apply steady_frame
  | |- steady (upd_sim (λ _, set_alive _ _)) => by apply steady_frame
  | |- steady (send _ _ _ _ _) => apply steady_send; lia
  | |- steady (when _ _) => apply steady_when
  | |- steady (for_each _ _) => apply steady_for_each; intros
  | |- steady (if ?b then _ else _) => destruct b
  | |- steady (match ?x with _ => _ end) => destruct x
  end.
Ltac steady := repeat (steady_step; cbv beta zeta).

Section link_methods.
Context {Σ : Sig}.

Lemma steady_validate_link s d : steady (validate_link (Σ := Σ) s d).
Proof. unfold validate_link. steady. Qed.

Lemma steady_partition l r : steady (partition (Σ := Σ) l r).
Proof. unfold partition, validate_partition_groups, block_pair. steady. Qed.

Lemma steady_heal_partition l r : steady (heal_partition (Σ := Σ) l r).
Proof. unfold heal_partition, validate_partition_groups, unblock_pair. steady. Qed.

Lemma steady_block_link s d : steady (block_link (Σ := Σ) s d).
Proof. unfold block_link, validate_link. steady. Qed.

Lemma steady_heal_link s d : steady (heal_link (Σ := Σ) s d).
Proof. unfold heal_link, validate_link. steady. Qed.

(** The delay tables change, but keep no negative number. *)
Lemma steady_set_link_delay s d x : steady (set_link_delay (Σ := Σ) s d x).
Proof.
  apply steady_bind; [apply steady_validate_link|intros _].
  intros w Ht Hd. apply wp_bind, wp_raise_if; intros Hx; [done|]. apply Z.leb_gt in Hx.
  apply wp_bind, wp_upd_sim.
  set (w1 := mkWorld _ _). assert (delays_ok w1) as Hd1.
  { destruct Hd as [Hp Hl]. split; [done|]. apply map_Forall_insert_2; [lia|done]. }
  exact (steady_record _ w1 Ht Hd1).
Qed.

Lemma steady_clear_link_delay s d : steady (clear_link_delay (Σ := Σ) s d).
Proof.
  apply steady_bind; [apply steady_validate_link|intros _].
  intros w Ht Hd. apply wp_bind, wp_upd_sim.
  set (w1 := mkWorld _ _). assert (delays_ok w1) as Hd1.
  { destruct Hd as [Hp Hl]. split; [done|]. by apply map_Forall_delete. }
  exact (steady_record _ w1 Ht Hd1).
Qed.

Lemma steady_crash (run_crash : Handle Σ → M (World Σ) unit) n :
  (∀ h, steady (run_crash h)) → steady (crash run_crash n).
Proof. intros Hc. unfold crash, validate_node, clear_volatile. steady. apply Hc. Qed.

Lemma steady_restart (run_restart : Handle Σ → M (World Σ) unit) n :
  (∀ h, steady (run_restart h)) → steady (restart run_restart n).
Proof. intros Hc. unfold restart, validate_node, clear_volatile. steady. apply Hc. Qed.
End link_methods.

#[export] Hint Resolve steady_partition steady_heal_partition steady_block_link steady_heal_link
  steady_set_link_delay steady_clear_link_delay : distlab.
