(* ===== verification/Costs.v ===== *)
(** * Costs: termination of the delivery loops

    Each payload has a weight, and a handler may put in the queue less weight
    than the message it handles carried; then [run] ends, after at most as many
    deliveries as the queue weighs.  A program logic for that bound. *)

From S2P Require Import Prelude Simulator SimFacts.

Section costs.
Context {Σ : Sig} (weight : Payload Σ → nat) (I : Objects Σ → Prop).
Implicit Types (w : World Σ).

Definition queue_weight (q : list (ScheduledDelivery Σ)) : nat :=
  sum_list_with (λ d, weight d.(sd_message).(payload)) q.

Definition measure w : nat := queue_weight w.(sim).(queue).

Definition fair (e : exn) : Prop := e.(exn_cls) ≠ OutOfFuel.

(** [m] adds at most [c] to the weight of the queue. *)
Definition costs {A} (m : M (World Σ) A) (c : nat) : Prop := ∀ w,
  I w.(objs) →
  wp m (λ w' _, I w'.(objs) ∧ (measure w' ≤ measure w + c)%nat) (λ _, fair) w.

Lemma costs_weaken {A} (m : M (World Σ) A) c c' : costs m c → (c ≤ c')%nat → costs m c'.
Proof.
  intros Hm Hc w Hw. eapply wp_mono; [by apply Hm| |done]. intros w' a [? ?]. split; [done|lia].
Qed.

Lemma costs_bind {A B} (m : M (World Σ) A) (k : A → M (World Σ) B) c1 c2 :
  costs m c1 → (∀ a, costs (k a) c2) → costs (bind m k) (c1 + c2).
Proof.
  intros Hm Hk w Hw. apply wp_bind. eapply wp_mono; [by apply Hm| |done].
  intros w1 a [H1 ?]. eapply wp_mono; [by apply Hk| |done].
  intros w2 b [H2 ?]. split; [done|lia].
Qed.

Lemma costs_free_bind {A B} (m : M (World Σ) A) (k : A → M (World Σ) B) c :
  costs m 0 → (∀ a, costs (k a) c) → costs (bind m k) c.
Proof. apply (costs_bind _ _ 0 c). Qed.

(** What is read may depend on the invariant. *)
Lemma costs_gets_bind {A B} (f : World Σ → A) (k : A → M (World Σ) B) c :
  (∀ w, I w.(objs) → costs (k (f w)) c) → costs (bind (gets f) k) c.
Proof. intros Hk w Hw. apply wp_bind, wp_gets. by apply Hk. Qed.

Lemma costs_ret {A} (a : A) c : costs (ret a) c.
Proof. intros w Hw. apply wp_ret. split; [done|lia]. Qed.

Lemma costs_raise {A} cls msg c : cls ≠ OutOfFuel → costs (raise (A := A) cls msg) c.
Proof. intros Hc w _. by apply wp_raise. Qed.

Lemma costs_raise_if b cls msg : cls ≠ OutOfFuel → costs (raise_if b cls msg) 0.
Proof. intros Hc w Hw. apply wp_raise_if; intros _; [done|]. split; [done|lia]. Qed.

Lemma costs_lift {A} (r : exn + A) :
  match r with inl e => fair e | inr _ => True end → costs (lift r) 0.
Proof. intros Hr w Hw. apply wp_lift. destruct r; [done|]. split; [done|lia]. Qed.

Lemma costs_when b m c : costs m c → costs (when b m) c.
Proof. intros Hm. destruct b; [done|apply costs_ret]. Qed.

Lemma costs_if {A} (b : bool) (m1 m2 : M (World Σ) A) c :
  costs m1 c → costs m2 c → costs (if b then m1 else m2) c.
Proof. by destruct b. Qed.

Lemma costs_record (e : Event Σ) : costs (record e) 0.
Proof. intros w Hw. split; [done|]. unfold measure. simpl. lia. Qed.

Lemma costs_persist n f : costs (persist n f) 0.
Proof. intros w Hw. split; [done|]. unfold measure. simpl. lia. Qed.

Lemma costs_upd_objs f : (∀ o, I o → I (f o)) → costs (upd_objs f) 0.
Proof. intros Hf w Hw. split; [by apply Hf|]. unfold measure. simpl. lia. Qed.

Lemma queue_weight_perm q q' : q ≡ₚ q' → queue_weight q = queue_weight q'.
Proof. unfold queue_weight. by intros ->. Qed.

Lemma queue_weight_app q q' : queue_weight (q ++ q') = (queue_weight q + queue_weight q')%nat.
Proof. unfold queue_weight. by rewrite sum_list_with_app. Qed.

(** A send puts at most two copies in the queue. *)
Lemma costs_send s d p delay : 0 ≤ delay → costs (send s d p delay None) (2 * weight p).
Proof.
  intros Hd w Hw. apply wp_send; [done|]. intros w' new He Hnew Hlen.
  split; [by rewrite (se_objs _ _ _ He)|]. unfold measure.
  rewrite (queue_weight_perm _ _ (se_queue _ _ _ He)), queue_weight_app.
  assert (queue_weight new ≤ length new * weight p)%nat; [|nia].
  clear -Hnew. unfold queue_weight.
  induction Hnew as [|x q (_ & _ & Hx & _) _ IH]; simpl; [lia|]. rewrite Hx. lia.
Qed.

Lemma costs_for_each {A} (l : list A) f c :
  (∀ a, costs (f a) c) → costs (for_each l f) (length l * c).
Proof.
  intros Hf. induction l as [|a l IH]; simpl; [apply costs_ret|].
  by apply costs_bind.
Qed.

Lemma costs_broadcast (l : list string) f p c N :
  (∀ a, costs (f a) (2 * weight p)) → (length l ≤ N)%nat → (N * (2 * weight p) ≤ c)%nat →
  costs (for_each l f) c.
Proof. intros Hf Hl Hc. eapply costs_weaken; [by apply costs_for_each|nia]. Qed.

(** ** The loop *)
Context (run_handler : Handle Σ → Message Σ → M (World Σ) unit).
Context (Hhandler : ∀ h m, costs (run_handler h m) (pred (weight m.(payload)))).
Context (Hpos : ∀ p, (1 ≤ weight p)%nat).

Lemma deliver_event_costs d : costs (deliver_event run_handler d)
  (pred (weight d.(sd_message).(payload))).
Proof.
  unfold deliver_event. intros w Hw. apply wp_bind, wp_upd_sim.
  apply wp_bind, wp_gets. destruct (negb _).
  { eapply wp_mono; [apply costs_record; done| |done].
    intros w' a [? Hm]. split; [done|]. unfold measure in *. simpl in *. lia. }
  apply wp_bind, wp_gets. destruct (handlers _ !! _) as [h|]; [|done].
  set (w1 := mkWorld _ _). change (measure w) with (measure w1).
  apply (costs_free_bind _ _ _ (costs_record _) (λ _, Hhandler h _)). exact Hw.
Qed.

(** With fuel for the weight of the queue, [run] does not run out of it, and
    unless it was asked to stop early it empties the queue. *)
Lemma run_loop_terminates fuel k n w :
  I w.(objs) → (measure w < fuel)%nat →
  wp (run_loop run_handler fuel k n) (λ w' _, k = None → w'.(sim).(queue) = [])
    (λ _, fair) w.
Proof.
  revert n w. induction fuel as [|fuel IH]; intros n w Hw Hm; [lia|].
  simpl. apply wp_bind, wp_gets. destruct (queue (sim w)) as [|d rest] eqn:Eq.
  { apply wp_ret. by rewrite Eq. }
  destruct (match k with Some _ => _ | None => _ end) eqn:Ek;
    [|apply wp_ret; intros ->; done].
  apply wp_bind, wp_upd_sim, wp_bind.
  eapply wp_mono; [by apply deliver_event_costs| |done].
  intros w' x [Hw' Hm']. apply IH; [done|].
  unfold measure in *. rewrite Eq in Hm. simpl in Hm, Hm'.
  pose proof (Hpos (payload (sd_message d))). unfold queue_weight in *. simpl in Hm. lia.
Qed.
End costs.

Create HintDb costs discriminated.
#[export] Hint Resolve costs_ret costs_record costs_persist costs_raise_if costs_when : costs.
