(* ===== verification/Quorum.v ===== *)
(** * Quorum: families of voter sets any two of which meet, and proposal numbers

    The interface [QuorumSystem] is what the consensus protocols need from
    their quorum rule; [majority_quorum] discharges it for the rule
    [len(votes) >= len(node_ids) // 2 + 1] that [raft.py], [paxos.py],
    [paxos_log.py] and [multipaxos.py] share. *)

From Stdlib Require Import Orders OrdersTac.
From S2P Require Import Prelude.

Class QuorumSystem (quorum : gset string → Prop) : Prop :=
  quorum_meet Q1 Q2 : quorum Q1 → quorum Q2 → ∃ a, a ∈ Q1 ∧ a ∈ Q2.

Lemma quorum_inhabited quorum `{!QuorumSystem quorum} Q :
  quorum Q → ∃ a, a ∈ Q.
Proof. intros HQ. destruct (quorum_meet Q Q HQ HQ) as (a & ? & _). by exists a. Qed.

(** [len(node_ids) // 2 + 1] *)
Definition quorum_size (node_ids : list string) : Z := zlen node_ids / 2 + 1.

Definition majority (node_ids : list string) (Q : gset string) : Prop :=
  Q ⊆ list_to_set node_ids ∧ quorum_size node_ids ≤ Z.of_nat (size Q).

Lemma size_list_to_set_le (l : list string) :
  (size (list_to_set l : gset string) ≤ length l)%nat.
Proof.
  induction l as [|x l IH]; [done|]. cbn [list_to_set length].
  rewrite size_union_alt, size_singleton.
  assert (size (list_to_set l ∖ {[x]} : gset string) ≤ size (list_to_set l : gset string))%nat
    by (apply subseteq_size; set_solver).
  lia.
Qed.

(** Two sets of voters that together outnumber the electorate overlap. *)
Lemma overlap (A : gset string) (Q1 Q2 : gset string) :
  Q1 ⊆ A → Q2 ⊆ A → (size A < size Q1 + size Q2)%nat → ∃ a, a ∈ Q1 ∧ a ∈ Q2.
Proof.
  intros H1 H2 Hlt.
  destruct (decide (Q1 ∩ Q2 = ∅)) as [He|Hne].
  - assert (size (Q1 ∪ Q2) = size Q1 + size Q2)%nat
      by (apply size_union; set_solver).
    assert (size (Q1 ∪ Q2) ≤ size A)%nat by (apply subseteq_size; set_solver).
    lia.
  - apply set_choose_L in Hne as [a Ha]. exists a. set_solver.
Qed.

#[export] Instance majority_quorum node_ids : QuorumSystem (majority node_ids).
Proof.
  intros Q1 Q2 [H1 Hs1] [H2 Hs2]. apply (overlap (list_to_set node_ids)); [done..|].
  pose proof (size_list_to_set_le node_ids). unfold quorum_size, zlen in *.
  pose proof (Z.div_mod (Z.of_nat (length node_ids)) 2 ltac:(lia)).
  pose proof (Z.mod_pos_bound (Z.of_nat (length node_ids)) 2 ltac:(lia)). lia.
Qed.

(** ** Proposal numbers

    Models [ProposalNumber] of [src/distlab/paxos.py], the ballots shared by
    single-decree Paxos, the Paxos log and Multi-Paxos.  The order is the one
    [dataclass(order=True)] generates: by round, then by proposer id, strings
    compared lexicographically. *)

Record ProposalNumber := mkProposalNumber {
  round : Z;
  proposer_id : string;
}.

#[global] Instance ProposalNumber_eq_dec : EqDecision ProposalNumber.
Proof. solve_decision. Defined.

#[global] Instance ProposalNumber_countable : Countable ProposalNumber.
Proof.
  refine (inj_countable' (λ b, (b.(round), b.(proposer_id)))
    (λ p, mkProposalNumber p.1 p.2) _); by intros [].
Defined.

(** The constructor with [__post_init__]. *)
Definition new_ProposalNumber (r : Z) (p : string) : exn + ProposalNumber :=
  if r <=? 0 then inl (Exn ValueError "Paxos proposal round must be positive")
  else if (p =? "")%string then inl (Exn ValueError "Paxos proposer_id must be non-empty")
  else inr (mkProposalNumber r p).

Lemma new_ProposalNumber_ok r n p :
  new_ProposalNumber r n = inr p → p = mkProposalNumber r n ∧ 0 < r.
Proof.
  unfold new_ProposalNumber. destruct (Z.leb_spec r 0); [done|]. case_match; [done|].
  by intros [= <-].
Qed.

Lemma new_ProposalNumber_error r n e : new_ProposalNumber r n = inl e → exn_cls e = ValueError.
Proof. unfold new_ProposalNumber. repeat case_match; naive_solver. Qed.

Definition str_ltb (a b : string) : bool := (a <=? b)%string && negb (a =? b)%string.

(** [ProposalNumber.__lt__] *)
Definition pn_ltb (p q : ProposalNumber) : bool :=
  (p.(round) <? q.(round))
  || ((p.(round) =? q.(round)) && str_ltb p.(proposer_id) q.(proposer_id)).

Definition pn_lt (p q : ProposalNumber) : Prop := pn_ltb p q = true.
Definition pn_le (p q : ProposalNumber) : Prop := pn_lt p q ∨ p = q.

Declare Scope ballot_scope.
Delimit Scope ballot_scope with ballot.
Infix "<" := pn_lt : ballot_scope.
Infix "≤" := pn_le : ballot_scope.

#[global] Instance pn_lt_dec p q : Decision (pn_lt p q).
Proof. unfold pn_lt. apply _. Defined.

(** [max(l)] for a non-empty list starting with [b]: the first maximum. *)
Fixpoint pn_max (b : ProposalNumber) (l : list ProposalNumber) : ProposalNumber :=
  match l with
  | [] => b
  | c :: l' => pn_max (if pn_ltb b c then c else b) l'
  end.

Lemma str_ltb_lt a b : str_ltb a b = true ↔ String.le a b ∧ a ≠ b.
Proof.
  unfold str_ltb, String.le. rewrite andb_true_iff, negb_true_iff.
  rewrite String.eqb_neq. split; intros [? ?]; split; auto using Is_true_true_2, Is_true_true_1.
Qed.

Lemma pn_lt_spec p q :
  pn_lt p q ↔ p.(round) < q.(round)
    ∨ (p.(round) = q.(round) ∧ String.le p.(proposer_id) q.(proposer_id)
       ∧ p.(proposer_id) ≠ q.(proposer_id)).
Proof.
  unfold pn_lt, pn_ltb.
  rewrite orb_true_iff, andb_true_iff, Z.ltb_lt, Z.eqb_eq, str_ltb_lt. done.
Qed.

#[global] Instance pn_lt_strict : StrictOrder pn_lt.
Proof.
  split.
  - intros p. unfold complement. rewrite pn_lt_spec. intros [?|(_ & _ & ?)]; [lia|done].
  - intros p q r. rewrite !pn_lt_spec.
    intros [?|(? & ? & ?)] [?|(? & ? & ?)]; [left; lia..|].
    right. split; [lia|]. split; [by etrans|].
    intros Heq. apply H1. apply (anti_symm String.le); [done|]. by rewrite Heq.
Qed.

Lemma pn_lt_total p q : pn_lt p q ∨ p = q ∨ pn_lt q p.
Proof.
  destruct p as [r a], q as [r' b]. rewrite !pn_lt_spec; simpl.
  destruct (Z.lt_trichotomy r r') as [?|[->|?]]; [auto| |auto].
  destruct (decide (a = b)) as [->|]; [auto|].
  destruct (total String.le a b); [auto|]. do 2 right. right. auto.
Qed.

(** The order tactic of the Standard Library, for ballots. *)
Module BallotOrder <: TotalOrder.
Definition t := ProposalNumber.
Definition eq := @eq ProposalNumber.
Definition eq_equiv : Equivalence eq := eq_equivalence.
Definition lt := pn_lt.
Definition lt_strorder : StrictOrder lt := pn_lt_strict.
Lemma lt_compat : Proper (eq ==> eq ==> iff) lt.
Proof. by intros ? ? -> ? ? ->. Qed.
Definition le := pn_le.
Lemma le_lteq x y : le x y ↔ lt x y ∨ eq x y.
Proof. done. Qed.
Lemma lt_total x y : lt x y ∨ eq x y ∨ lt y x.
Proof. apply pn_lt_total. Qed.
End BallotOrder.
Module BallotOrderTac := MakeOrderTac BallotOrder BallotOrder.

Ltac ballot_order :=
  change pn_lt with BallotOrder.lt in *; change pn_le with BallotOrder.le in *;
  change (@eq ProposalNumber) with BallotOrder.eq in *; BallotOrderTac.order.

Lemma pn_ltb_false p q : pn_ltb p q = false ↔ pn_le q p.
Proof.
  split.
  - intros Hf. destruct (pn_lt_total p q) as [H|[H|H]]; [|right|left]; unfold pn_lt in *; congruence.
  - intros Hle. destruct (pn_ltb p q) eqn:E; [|done]. exfalso.
    change (pn_lt p q) in E. ballot_order.
Qed.

Lemma pn_max_ge b l x : x = b ∨ x ∈ l → pn_le x (pn_max b l).
Proof.
  revert b x. induction l as [|c l IH]; intros b x; simpl.
  - intros [->|[]%elem_of_nil]. by right.
  - intros [->|[->|Hx]%elem_of_cons].
    + destruct (pn_ltb b c) eqn:E; [|by apply IH; left].
      assert (pn_le c (pn_max c l)) by by apply IH; left.
      change (pn_lt b c) in E. ballot_order.
    + destruct (pn_ltb b c) eqn:E; [by apply IH; left|].
      assert (pn_le b (pn_max b l)) by by apply IH; left.
      apply pn_ltb_false in E. ballot_order.
    + apply IH. by right.
Qed.

Lemma pn_max_elem b l : pn_max b l = b ∨ pn_max b l ∈ l.
Proof.
  revert b. induction l as [|c l IH]; intros b; simpl; [by left|].
  destruct (pn_ltb b c).
  - destruct (IH c) as [->|?]; right; [left|by right].
  - destruct (IH b) as [->|?]; [by left|]. right. by right.
Qed.

(** ** Evidence: the acceptors that hold each record

    The safety harnesses of [src/distlab/paxos.py] and
    [src/distlab/paxos_log.py] file what the acceptors durably accepted under
    its record, each with the acceptors that hold it. *)

Section evidence.
Context {K : Type} `{EqDecision K}.
Implicit Types (k : K) (gs : list (K * gset string)) (n a : string).

(** [for item in evidence: if ...: acceptors.add(node_id); break], and
    [else: evidence.append(...)] *)
Fixpoint add_evidence n k gs : list (K * gset string) :=
  match gs with
  | [] => [(k, {[n]})]
  | (k', accs) :: gs' =>
      if bool_decide (k' = k) then (k', {[n]} ∪ accs) :: gs' else (k', accs) :: add_evidence n k gs'
  end.

(** The groups hold acceptors that do hold the record, and one group each. *)
Context (ids : list string) (holds : string → K → Prop).

Record evidence_ok gs : Prop := {
  ev_nodup : NoDup gs.*1;
  ev_inhabited k accs : (k, accs) ∈ gs → ∃ a, a ∈ accs;
  ev_sound k accs a : (k, accs) ∈ gs → a ∈ accs → a ∈ ids ∧ holds a k;
}.

Definition covers gs n (l : list K) : Prop := ∀ k, k ∈ l → ∃ accs, (k, accs) ∈ gs ∧ n ∈ accs.

Lemma evidence_nil : evidence_ok [].
Proof. split; [apply NoDup_nil_2|by intros k accs []%elem_of_nil|by intros k accs a []%elem_of_nil]. Qed.

Lemma add_evidence_keys n k gs x : x ∈ (add_evidence n k gs).*1 ↔ x ∈ gs.*1 ∨ x = k.
Proof.
  induction gs as [|[k' accs] gs IH]; simpl.
  - rewrite list_elem_of_singleton, elem_of_nil. naive_solver.
  - case_bool_decide; simpl; rewrite !elem_of_cons; [naive_solver|]. rewrite IH. naive_solver.
Qed.

(** A group of the new evidence is an old one, with the new acceptor if it is its group. *)
Lemma add_evidence_elem n k gs k' accs :
  (k', accs) ∈ add_evidence n k gs →
  (k', accs) ∈ gs ∨ (k' = k ∧ n ∈ accs ∧ ∀ a, a ∈ accs → a = n ∨ ∃ accs', (k, accs') ∈ gs ∧ a ∈ accs').
Proof.
  induction gs as [|[k0 acs] gs IH]; simpl.
  - intros [= -> ->]%list_elem_of_singleton. right. split_and!; [done|set_solver|]. intros a. set_solver.
  - case_bool_decide as Hk; intros [[= -> ->]|Hin]%elem_of_cons.
    + right. subst k. split_and!; [done|set_solver|]. intros a [->%elem_of_singleton|Ha]%elem_of_union; [by left|].
      right. exists acs. split; [by left|done].
    + left. by right.
    + left. by left.
    + destruct (IH Hin) as [?|(-> & Hn & Ha)]; [left; by right|right]. split_and!; [done..|].
      intros a [?|(accs' & ? & ?)]%Ha; [by left|right]. exists accs'. split; [by right|done].
Qed.

Lemma add_evidence_ok n k gs : n ∈ ids → holds n k → evidence_ok gs → evidence_ok (add_evidence n k gs).
Proof.
  intros Hn Hk [Hnd Hin Hs]. split.
  - clear Hin Hs. induction gs as [|[k' accs] gs IH]; simpl; [apply NoDup_singleton|].
    apply NoDup_cons in Hnd as [Hk' Hnd]. case_bool_decide; simpl; apply NoDup_cons; split; [done..| |by apply IH].
    rewrite add_evidence_keys. naive_solver.
  - intros k' accs [?|(-> & ? & _)]%add_evidence_elem; [by eapply Hin|by exists n].
  - intros k' accs a [?|(-> & _ & Ha)]%add_evidence_elem; [by eapply Hs|].
    intros [->|(accs' & ? & ?)]%Ha; [done|by eapply Hs].
Qed.

Lemma add_evidence_mono n k gs k' accs :
  (k', accs) ∈ gs → ∃ accs', (k', accs') ∈ add_evidence n k gs ∧ accs ⊆ accs'.
Proof.
  induction gs as [|[k0 acs] gs IH]; simpl; [intros []%elem_of_nil|].
  case_bool_decide; intros [[= -> ->]|Hin]%elem_of_cons.
  - eexists. split; [by left|set_solver].
  - exists accs. split; [by right|done].
  - exists acs. split; [by left|done].
  - destruct (IH Hin) as (accs' & ? & ?). exists accs'. split; [by right|done].
Qed.

Lemma add_evidence_adds n k gs : ∃ accs, (k, accs) ∈ add_evidence n k gs ∧ n ∈ accs.
Proof.
  induction gs as [|[k0 acs] gs IH]; simpl.
  - eexists. split; [by left|set_solver].
  - case_bool_decide; [subst; eexists; split; [by left|set_solver]|].
    destruct IH as (accs & ? & ?). exists accs. split; [by right|done].
Qed.

Lemma add_evidence_covers n k gs m l : covers gs m l → covers (add_evidence n k gs) m l.
Proof.
  intros Hc x Hx. destruct (Hc x Hx) as (accs & Hin & Hm).
  destruct (add_evidence_mono n k _ _ _ Hin) as (accs' & ? & ?). exists accs'. split; [done|set_solver].
Qed.

Lemma evidence_history n l gs :
  n ∈ ids → (∀ k, k ∈ l → holds n k) → evidence_ok gs →
  let gs' := foldl (λ gs k, add_evidence n k gs) gs l in
  evidence_ok gs' ∧ covers gs' n l ∧ (∀ m l', covers gs m l' → covers gs' m l').
Proof.
  intros Hn. revert gs. induction l as [|k l IH]; intros gs Hl Hs; simpl.
  { split_and!; [done| |done]. intros y []%elem_of_nil. }
  destruct (IH (add_evidence n k gs)) as (Hs' & Hc' & Hm').
  { intros y Hy. apply Hl. by right. }
  { apply add_evidence_ok; [done| |done]. apply Hl. by left. }
  split_and!; [done| |].
  - intros y [->|Hy]%elem_of_cons; [|by apply Hc'].
    apply (Hm' n [k]); [|by left]. intros z ->%list_elem_of_singleton. apply add_evidence_adds.
  - intros m x Hx. apply Hm'. by apply add_evidence_covers.
Qed.

(** With every history filed, the groups of a majority are the records a
    majority holds. *)
Lemma evidence_majority gs k :
  evidence_ok gs → (∀ n, n ∈ ids → holds n k → ∃ accs, (k, accs) ∈ gs ∧ n ∈ accs) →
  (∃ accs, (k, accs) ∈ gs ∧ quorum_size ids ≤ Z.of_nat (size accs))
  ↔ ∃ Q, majority ids Q ∧ ∀ a, a ∈ Q → holds a k.
Proof.
  intros [Hnd _ Hs] Hcov. split.
  - intros (accs & Hin & Hsize). exists accs. split; [split; [|done]|].
    + intros a Ha. apply elem_of_list_to_set. by eapply Hs.
    + intros a Ha. by eapply Hs.
  - intros (Q & [Hsub Hsize] & HQ).
    assert (∀ a, a ∈ Q → ∃ accs, (k, accs) ∈ gs ∧ a ∈ accs) as Hg.
    { intros a Ha. apply Hcov; [|by apply HQ]. by apply (elem_of_list_to_set (C := gset string)), Hsub. }
    destruct (quorum_inhabited (majority ids) Q) as [a0 Ha0]; [done|].
    destruct (Hg a0 Ha0) as (accs & Hin & _). exists accs. split; [done|].
    assert (Q ⊆ accs) as Hle%subseteq_size; [|lia].
    intros a Ha. destruct (Hg a Ha) as (accs' & Hin' & Ha'). assert (accs' = accs) as ->; [|done].
    apply list_elem_of_lookup in Hin as [i Hi], Hin' as [j Hj].
    assert (i = j) as ->; [|by simplify_eq].
    eapply (NoDup_lookup gs.*1); [done| |]; rewrite list_lookup_fmap; [by rewrite Hi|by rewrite Hj].
Qed.
End evidence.
