(* ===== verification/Consensus.v ===== *)
(** * Consensus: the abstract specification the Paxos components refine

    A ballot-voting machine over slots: acceptors promise ballots and report
    their latest votes, proposers propose a value that a quorum of reports
    makes safe, acceptors vote for proposed values.  [agreement] is the
    contract: per slot, at most one value is ever chosen.  [paxos.py] (with
    one slot), [paxos_log.py] and [multipaxos.py] are shown to take only steps
    of this machine.

    It is a specification: no definition of this file translates code. *)

From stdpp Require Import relations.
From S2P Require Import Prelude Quorum.

Section consensus.
Context {V : Type} `{EqDecision V}.
Context (quorum : gset string → Prop) `{!QuorumSystem quorum}.

(** What an acceptor reports with its promise: its latest vote per slot. *)
Definition report : Type := Z → option (ProposalNumber * V).

Record State := mkState {
  max_bal : gmap string ProposalNumber;
  reports : list (ProposalNumber * string * report);
  proposed : list (Z * ProposalNumber * V);
  votes : list (Z * ProposalNumber * string * V);
}.

Definition init : State := mkState ∅ [] [] [].

(** [a] has not promised a ballot above [b]. *)
Definition may_act (s : State) (a : string) (b : ProposalNumber) : Prop :=
  ∀ m, s.(max_bal) !! a = Some m → (m ≤ b)%ballot.

Definition latest (s : State) (a : string) (r : report) : Prop :=
  ∀ slot, match r slot with
  | None => ∀ c v, (slot, c, a, v) ∉ s.(votes)
  | Some (c, v) => (slot, c, a, v) ∈ s.(votes)
      ∧ ∀ c' v', (slot, c', a, v') ∈ s.(votes) → (c' ≤ c)%ballot
  end.

(** The reports [f] of the acceptors in [Q] allow proposing [v]: either no
    one voted, or [v] is the only value reported at the highest ballot. *)
Definition allowed (f : string → report) (Q : gset string) (slot : Z) (v : V) : Prop :=
  (∀ a, a ∈ Q → f a slot = None)
  ∨ ∃ a c, a ∈ Q ∧ f a slot = Some (c, v)
      ∧ ∀ a' c' v', a' ∈ Q → f a' slot = Some (c', v') →
          (c' ≤ c)%ballot ∧ (c' = c → v' = v).

Inductive step : State → State → Prop :=
  | step_promise s a b r :
      may_act s a b → latest s a r →
      step s (mkState (<[a := b]> s.(max_bal)) ((b, a, r) :: s.(reports))
                s.(proposed) s.(votes))
  | step_propose s slot b v Q f :
      quorum Q → (∀ a, a ∈ Q → (b, a, f a) ∈ s.(reports)) → allowed f Q slot v →
      step s (mkState s.(max_bal) s.(reports) ((slot, b, v) :: s.(proposed)) s.(votes))
  | step_vote s slot b a v :
      (slot, b, v) ∈ s.(proposed) → may_act s a b →
      (∀ v', (slot, b, a, v') ∈ s.(votes) → v' = v) →
      step s (mkState (<[a := b]> s.(max_bal)) s.(reports) s.(proposed)
                ((slot, b, a, v) :: s.(votes))).

Definition chosen_at (s : State) (slot : Z) (b : ProposalNumber) (v : V) : Prop :=
  ∃ Q, quorum Q ∧ ∀ a, a ∈ Q → (slot, b, a, v) ∈ s.(votes).

(** [v] is chosen at [b], or may still become so. *)
Definition choosable (s : State) (slot : Z) (b : ProposalNumber) (v : V) : Prop :=
  ∃ Q, quorum Q ∧ ∀ a, a ∈ Q → (slot, b, a, v) ∈ s.(votes)
    ∨ ((∀ v', (slot, b, a, v') ∉ s.(votes)) ∧ may_act s a b).

Record inv (s : State) : Prop := {
  inv_vote slot b a v : (slot, b, a, v) ∈ s.(votes) →
    (slot, b, v) ∈ s.(proposed)
    ∧ ∃ m, s.(max_bal) !! a = Some m ∧ (b ≤ m)%ballot;
  inv_one_vote slot b a v v' : (slot, b, a, v) ∈ s.(votes) →
    (slot, b, a, v') ∈ s.(votes) → v = v';
  inv_report b a r : (b, a, r) ∈ s.(reports) →
    ∃ m, s.(max_bal) !! a = Some m ∧ (b ≤ m)%ballot;
  inv_reported b a r slot c v : (b, a, r) ∈ s.(reports) → r slot = Some (c, v) →
    (slot, c, a, v) ∈ s.(votes);
  inv_report_max b a r slot c v : (b, a, r) ∈ s.(reports) →
    (slot, c, a, v) ∈ s.(votes) → (c < b)%ballot →
    ∃ c' v', r slot = Some (c', v') ∧ (c ≤ c')%ballot;
  inv_safe slot b v c w : (slot, b, v) ∈ s.(proposed) → (c < b)%ballot →
    choosable s slot c w → w = v;
}.

Lemma init_inv : inv init.
Proof. split; intros; set_solver. Qed.

Lemma chosen_choosable s slot b v : chosen_at s slot b v → choosable s slot b v.
Proof. intros (Q & HQ & Hv). exists Q. auto. Qed.

Lemma may_act_insert s s' a a' b c :
  s'.(max_bal) = <[a := b]> s.(max_bal) → may_act s a b →
  may_act s' a' c → may_act s a' c.
Proof.
  intros Hs' Hb Hc m Hm. destruct (decide (a = a')) as [<-|Hne].
  - specialize (Hb m Hm). specialize (Hc b).
    rewrite Hs', lookup_insert_eq in Hc. specialize (Hc eq_refl). ballot_order.
  - apply Hc. by rewrite Hs', lookup_insert_ne.
Qed.

(** Ballots only go up. *)
Lemma max_bal_insert s a b (mb' : gmap string ProposalNumber) a' c :
  mb' = <[a := b]> s.(max_bal) → may_act s a b →
  (∃ m, s.(max_bal) !! a' = Some m ∧ (c ≤ m)%ballot) →
  ∃ m, mb' !! a' = Some m ∧ (c ≤ m)%ballot.
Proof.
  intros -> Hb (m & Hm & Hc). destruct (decide (a = a')) as [<-|Hne].
  - exists b. rewrite lookup_insert_eq. split; [done|].
    specialize (Hb m Hm). ballot_order.
  - exists m. by rewrite lookup_insert_ne.
Qed.

Lemma promise_inv s a b r :
  inv s → may_act s a b → latest s a r →
  inv (mkState (<[a := b]> s.(max_bal)) ((b, a, r) :: s.(reports)) s.(proposed) s.(votes)).
Proof.
  intros Hi Hb Hr. split; simpl.
  - intros slot c a' v Hv. destruct (inv_vote _ Hi _ _ _ _ Hv) as [? ?].
    split; [done|]. by eapply max_bal_insert.
  - apply Hi.
  - intros c a' r' [[= -> -> ->]|Hin]%elem_of_cons.
    + exists b. rewrite lookup_insert_eq. split; [done|ballot_order].
    + eapply max_bal_insert; [done..|]. by eapply inv_report.
  - intros c a' r' slot c' v [[= -> -> ->]|Hin]%elem_of_cons Hrs.
    + specialize (Hr slot). rewrite Hrs in Hr. by destruct Hr.
    + by eapply inv_reported.
  - intros c a' r' slot c' v [[= -> -> ->]|Hin]%elem_of_cons Hv Hlt.
    + specialize (Hr slot). destruct (r slot) as [[d u]|].
      * exists d, u. split; [done|]. destruct Hr as [_ Hr]. by eapply Hr.
      * by destruct (Hr c' v).
    + by eapply inv_report_max.
  - intros slot c v c' w Hp Hlt (Q & HQ & Hch). eapply inv_safe; [done..|].
    exists Q. split; [done|]. intros a' Ha'.
    destruct (Hch a' Ha') as [?|[? Hmay]]; [by left|right].
    split; [done|]. eapply may_act_insert; [|exact Hb|exact Hmay]; done.
Qed.

Lemma propose_inv s slot b v Q f :
  inv s → quorum Q → (∀ a, a ∈ Q → (b, a, f a) ∈ s.(reports)) → allowed f Q slot v →
  inv (mkState s.(max_bal) s.(reports) ((slot, b, v) :: s.(proposed)) s.(votes)).
Proof.
  intros Hi HQ Hrep Hall. split; simpl; try apply Hi.
  - intros slot' c a v' Hv. destruct (inv_vote _ Hi _ _ _ _ Hv) as [? ?].
    split; [by right|done].
  - intros slot' b' v' c w [[= -> -> ->]|Hp]%elem_of_cons Hlt (Qc & HQc & Hch);
      [|eapply inv_safe; [done..|]; by exists Qc].
    destruct (quorum_meet Q Qc HQ HQc) as (a & HaQ & HaQc).
    pose proof (Hrep a HaQ) as Ha.
    assert ((slot, c, a, w) ∈ s.(votes)) as Hvote.
    { destruct (Hch a HaQc) as [?|[_ Hmay]]; [done|]. exfalso.
      destruct (inv_report _ Hi _ _ _ Ha) as (m & Hm & ?).
      specialize (Hmay m Hm). ballot_order. }
    destruct (inv_report_max _ Hi _ _ _ _ _ _ Ha Hvote Hlt) as (c' & v' & Hfa & Hcc').
    destruct Hall as [Hnone|(am & cm & Ham & Hfm & Hmax)].
    { by rewrite (Hnone a HaQ) in Hfa. }
    destruct (Hmax a c' v' HaQ Hfa) as [Hc'cm Heq].
    pose proof (inv_reported _ Hi _ _ _ _ _ _ (Hrep am Ham) Hfm) as Hvm.
    destruct (decide (c = cm)) as [->|Hne].
    + assert (c' = cm) as -> by ballot_order.
      rewrite <-(Heq eq_refl).
      pose proof (inv_reported _ Hi _ _ _ _ _ _ Ha Hfa).
      by eapply inv_one_vote.
    + assert (c < cm)%ballot by ballot_order.
      destruct (inv_vote _ Hi _ _ _ _ Hvm) as [Hpm _].
      eapply inv_safe; [done|exact Hpm|done|]. by exists Qc.
Qed.

Lemma vote_inv s slot b a v :
  inv s → (slot, b, v) ∈ s.(proposed) → may_act s a b →
  (∀ v', (slot, b, a, v') ∈ s.(votes) → v' = v) →
  inv (mkState (<[a := b]> s.(max_bal)) s.(reports) s.(proposed)
         ((slot, b, a, v) :: s.(votes))).
Proof.
  intros Hi Hp Hb Huniq. split; simpl.
  - intros slot' c a' v' [[= -> -> -> ->]|Hv]%elem_of_cons.
    + split; [done|]. exists b. rewrite lookup_insert_eq. split; [done|ballot_order].
    + destruct (inv_vote _ Hi _ _ _ _ Hv) as [? ?]. split; [done|].
      by eapply max_bal_insert.
  - intros slot' c a' v1 v2 [[= -> -> -> ->]|Hv1]%elem_of_cons
      [Heq|Hv2]%elem_of_cons.
    + by simplify_eq.
    + symmetry. by apply Huniq.
    + simplify_eq. by apply Huniq.
    + by eapply inv_one_vote.
  - intros c a' r Hin. eapply max_bal_insert; [done..|]. by eapply inv_report.
  - intros c a' r slot' c' v' Hin Hr. right. by eapply inv_reported.
  - intros c a' r slot' c' v' Hin [[= -> -> -> ->]|Hv]%elem_of_cons Hlt;
      [|by eapply inv_report_max].
    destruct (inv_report _ Hi _ _ _ Hin) as (m & Hm & ?).
    specialize (Hb m Hm). ballot_order.
  - intros slot' c u c' w Hp' Hlt (Q & HQ & Hch). eapply inv_safe; [done..|].
    exists Q. split; [done|]. intros a' Ha'.
    destruct (Hch a' Ha') as [[[= -> -> -> ->]|?]%elem_of_cons|[Hno Hmay]].
    + destruct (decide ((slot, b, a, v) ∈ s.(votes))) as [?|Hno]; [by left|right].
      split; [|done]. intros x Hx. by rewrite (Huniq x Hx) in Hx.
    + by left.
    + right. split; [|eapply may_act_insert; [|exact Hb|exact Hmay]; done].
      intros x Hx. apply (Hno x). by right.
Qed.

Lemma step_inv s s' : inv s → step s s' → inv s'.
Proof.
  intros Hi Hs. destruct Hs; eauto using promise_inv, propose_inv, vote_inv.
Qed.

Lemma steps_inv s s' : inv s → rtc step s s' → inv s'.
Proof. intros Hi Hs. induction Hs; eauto using step_inv. Qed.

(** Agreement: per slot at most one value is chosen, whatever the ballots. *)
Lemma inv_agreement s slot b b' v v' :
  inv s → chosen_at s slot b v → chosen_at s slot b' v' → v = v'.
Proof.
  intros Hi Hc Hc'.
  assert (∀ c d u u', chosen_at s slot c u → chosen_at s slot d u' →
    (c < d)%ballot → u = u') as Hlt.
  { intros c d u u' Hu (Q & HQ & Hv) Hcd.
    destruct (quorum_inhabited _ _ HQ) as [a Ha].
    destruct (inv_vote _ Hi _ _ _ _ (Hv a Ha)) as [Hp _].
    eapply inv_safe; [done..|]. by apply chosen_choosable. }
  destruct (pn_lt_total b b') as [?|[->|?]].
  - by eapply Hlt.
  - destruct Hc as (Q & HQ & Hv), Hc' as (Q' & HQ' & Hv').
    destruct (quorum_meet Q Q' HQ HQ') as (a & Ha & Ha').
    eapply inv_one_vote; eauto.
  - symmetry. by eapply Hlt.
Qed.

(** What is voted, proposed or chosen stays so. *)
Lemma step_votes s s' x : step s s' → x ∈ s.(votes) → x ∈ s'.(votes).
Proof. intros Hs Hx. destruct Hs; simpl; [done..|by right]. Qed.

Lemma step_proposed s s' x : step s s' → x ∈ s.(proposed) → x ∈ s'.(proposed).
Proof. intros Hs Hx. destruct Hs; simpl; [done|by right|done]. Qed.

Lemma step_reports s s' x : step s s' → x ∈ s.(reports) → x ∈ s'.(reports).
Proof. intros Hs Hx. destruct Hs; simpl; [by right|done|done]. Qed.

Lemma step_chosen s s' slot b v : step s s' → chosen_at s slot b v → chosen_at s' slot b v.
Proof. intros Hs (Q & HQ & Hv). exists Q. eauto using step_votes. Qed.

Lemma steps_proposed s s' x : rtc step s s' → x ∈ s.(proposed) → x ∈ s'.(proposed).
Proof. induction 1; eauto using step_proposed. Qed.
Lemma steps_votes s s' x : rtc step s s' → x ∈ s.(votes) → x ∈ s'.(votes).
Proof. induction 1; eauto using step_votes. Qed.
Lemma steps_reports s s' x : rtc step s s' → x ∈ s.(reports) → x ∈ s'.(reports).
Proof. induction 1; eauto using step_reports. Qed.
Lemma steps_chosen s s' slot b v :
  rtc step s s' → chosen_at s slot b v → chosen_at s' slot b v.
Proof. induction 1; eauto using step_chosen. Qed.

(** A promise can only be replaced by a higher ballot. *)
Definition promise_le (p p' : option ProposalNumber) : Prop :=
  match p, p' with
  | None, _ => True
  | Some b, Some b' => (b ≤ b')%ballot
  | Some _, None => False
  end.

Lemma promise_le_refl p : promise_le p p.
Proof. destruct p; simpl; [ballot_order|done]. Qed.

Lemma promise_le_trans p1 p2 p3 : promise_le p1 p2 → promise_le p2 p3 → promise_le p1 p3.
Proof. destruct p1, p2, p3; simpl; try done. intros. ballot_order. Qed.

Lemma promise_le_insert (m : gmap string ProposalNumber) a a' b :
  (∀ x, m !! a' = Some x → (x ≤ b)%ballot) → promise_le (m !! a) (<[a' := b]> m !! a).
Proof.
  intros Hb. destruct (decide (a' = a)) as [->|Hne].
  - rewrite lookup_insert_eq. destruct (m !! a) as [x|] eqn:E; simpl; [by apply Hb|done].
  - rewrite lookup_insert_ne by done. apply promise_le_refl.
Qed.

Lemma steps_max_bal s s' a :
  rtc step s s' → promise_le (s.(max_bal) !! a) (s'.(max_bal) !! a).
Proof.
  induction 1 as [s|s1 s2 s3 Hs _ IH]; [apply promise_le_refl|].
  eapply promise_le_trans; [|exact IH].
  destruct Hs; simpl; [by apply promise_le_insert|apply promise_le_refl|by apply promise_le_insert].
Qed.
End consensus.

Arguments State V : clear implicits.
Arguments report V : clear implicits.

(** ** The contract, without ballots

    Per slot, a register that is written at most once. *)
Inductive register_step {V : Type} : (Z → option V) → (Z → option V) → Prop :=
  | decide_slot (f : Z → option V) slot v :
      f slot = None → register_step f (λ k, if k =? slot then Some v else f k).

(** [f] is the register contents that [s] stands for. *)
Definition register_of {V} (quorum : gset string → Prop) (s : State V) (f : Z → option V) : Prop :=
  ∀ slot v, f slot = Some v ↔ ∃ b, chosen_at quorum s slot b v.
