(* ===== verification/Paxos.v ===== *)
(** * Paxos: crash-recoverable single-decree Paxos

    Models [src/distlab/paxos.py]: [PaxosCluster], [PaxosNode] and
    [PaxosSafetyHarness].  The decree's values are a type [V] with decidable
    equality, Python's [Any] compared with [==].

    A node's durable dictionary is [PaxosDurable]; the instance attributes of
    the cluster and its nodes are [PaxosObjects].  The calls that check
    [sim is not self.sim] are not modelled: there is one simulator. *)

From S2P Require Import Prelude Simulator Quorum.

Section paxos.
Context {V : Type} `{EqDecision V}.

Record AcceptedValue := mkAcceptedValue {
  av_proposal : ProposalNumber;
  av_value : V;
}.

Record LearnedDecision := mkLearnedDecision {
  ld_proposal : ProposalNumber;
  ld_value : V;
}.

Record Prepare := mkPrepare {
  prep_proposal : ProposalNumber;
  prep_proposer_id : string;
}.

Definition new_Prepare (p : ProposalNumber) (owner : string) : exn + Prepare :=
  if negb (owner =? p.(proposer_id))%string then
    inl (Exn ValueError "prepare proposer must match proposal number owner")
  else inr (mkPrepare p owner).

Record Promise := mkPromise {
  prom_proposal : ProposalNumber;
  prom_acceptor_id : string;
  prom_accepted : option AcceptedValue;
}.

Record AcceptRequest := mkAcceptRequest {
  ar_proposal : ProposalNumber;
  ar_proposer_id : string;
  ar_value : V;
}.

Definition new_AcceptRequest (p : ProposalNumber) (owner : string) (v : V)
    : exn + AcceptRequest :=
  if negb (owner =? p.(proposer_id))%string then
    inl (Exn ValueError "accept proposer must match proposal number owner")
  else inr (mkAcceptRequest p owner v).

Record Accepted := mkAccepted {
  acc_proposal : ProposalNumber;
  acc_acceptor_id : string;
  acc_value : V;
}.

Record Learn := mkLearn {
  learn_proposal : ProposalNumber;
  learn_proposer_id : string;
  learn_value : V;
}.

Record ProposalState := mkProposalState {
  ps_proposal : ProposalNumber;
  ps_original_value : V;
  ps_promises : list (string * Promise);  (** a dict, in insertion order *)
  ps_accepted_by : gset string;
  ps_chosen_value : option V;
  ps_accept_phase_started : bool;
}.

#[global] Instance AcceptedValue_eq_dec : EqDecision AcceptedValue.
Proof. solve_decision. Defined.
#[global] Instance LearnedDecision_eq_dec : EqDecision LearnedDecision.
Proof. solve_decision. Defined.

(** Message payloads; [POther] is an object of any other type. *)
Inductive PaxosPayload :=
  | PPrepare (m : Prepare)
  | PPromise (m : Promise)
  | PAcceptRequest (m : AcceptRequest)
  | PAccepted (m : Accepted)
  | PLearn (m : Learn)
  | POther (ty : string).

Definition paxos_type_name (p : PaxosPayload) : string :=
  match p with
  | PPrepare _ => "Prepare"
  | PPromise _ => "Promise"
  | PAcceptRequest _ => "AcceptRequest"
  | PAccepted _ => "Accepted"
  | PLearn _ => "Learn"
  | POther ty => ty
  end.

Inductive PaxosRec :=
  | RChosen (p : ProposalNumber) (v : V) (acceptors : list string)
  | RProposalStart (proposer : string) (p : ProposalNumber) (v : V)
  | REnvelopeRejected (node s d : string) (expected_src : option string)
      (reason : string) (p : PaxosPayload)
  | RNodeCrash (node : string) (active : option ProposalNumber)
  | RNodeRestart (node : string) (promised : option ProposalNumber)
      (accepted : option AcceptedValue) (learned : option LearnedDecision)
  | RPrepareRejected (acceptor : string) (p promised : ProposalNumber)
  | RPromise (acceptor proposer : string) (p : ProposalNumber)
      (accepted : option AcceptedValue)
  | RStalePromise (proposer acceptor : string) (p : ProposalNumber)
  | RAcceptPhaseStart (proposer : string) (p : ProposalNumber) (v : V)
      (promises : list string)
  | RAcceptRejected (acceptor : string) (p promised : ProposalNumber)
  | RAccepted (acceptor proposer : string) (p : ProposalNumber) (v : V)
  | RStaleAccepted (proposer acceptor : string) (p : ProposalNumber)
  | RLearned (learner : string) (p : ProposalNumber) (v : V).

Record PaxosDurable := mkPaxosDurable {
  d_promised : option ProposalNumber;
  d_accepted : option AcceptedValue;
  d_accept_history : list AcceptedValue;
  d_learned : option LearnedDecision;
  d_last_proposal_round : Z;
}.

(** The [setdefault]s of [PaxosNode.__init__]. *)
Definition paxos_durable0 : PaxosDurable := mkPaxosDurable None None [] None 0.

Definition set_promised p (d : PaxosDurable) :=
  mkPaxosDurable (Some p) d.(d_accepted) d.(d_accept_history) d.(d_learned)
    d.(d_last_proposal_round).
Definition set_accepted a (d : PaxosDurable) :=
  mkPaxosDurable d.(d_promised) (Some a) d.(d_accept_history) d.(d_learned)
    d.(d_last_proposal_round).
Definition set_accept_history h (d : PaxosDurable) :=
  mkPaxosDurable d.(d_promised) d.(d_accepted) h d.(d_learned)
    d.(d_last_proposal_round).
Definition set_learned l (d : PaxosDurable) :=
  mkPaxosDurable d.(d_promised) d.(d_accepted) d.(d_accept_history) (Some l)
    d.(d_last_proposal_round).
Definition set_last_round r (d : PaxosDurable) :=
  mkPaxosDurable d.(d_promised) d.(d_accepted) d.(d_accept_history) d.(d_learned) r.

Record PaxosObjects := mkPaxosObjects {
  node_ids : list string;
  active : gmap string ProposalState;  (** [_proposal] of each node, when set *)
  chosen : option LearnedDecision;
  chosen_acceptors : list string;
}.

Definition set_active m (o : PaxosObjects) :=
  mkPaxosObjects o.(node_ids) m o.(chosen) o.(chosen_acceptors).
Definition set_chosen c accs (o : PaxosObjects) :=
  mkPaxosObjects o.(node_ids) o.(active) (Some c) accs.

Definition PaxosSig : Sig :=
  mkSig PaxosPayload PaxosRec string PaxosDurable unit PaxosObjects
    paxos_type_name (POther "NoneType") paxos_durable0 tt.

Abbreviation World := (World PaxosSig).
Abbreviation M := (M World).
Implicit Types (w : World) (n : string).

Definition trace_rec (r : PaxosRec) : M unit := record (Σ := PaxosSig) (EvProto (Σ := PaxosSig) r).
Definition net_send (s d : string) (p : PaxosPayload) : M unit :=
  send (Σ := PaxosSig) s d p 1 None.

Definition cluster_size w : Z := quorum_size w.(objs).(node_ids).
Definition peers w n : list string := filter (λ p, p ≠ n) w.(objs).(node_ids).
Definition dur w n : PaxosDurable := durable (Σ := PaxosSig) w n.
Definition proposal_of w n : option ProposalState := w.(objs).(active) !! n.
Definition set_proposal n (p : ProposalState) : M unit :=
  upd_objs (Σ := PaxosSig) (λ o, set_active (<[n := p]> o.(active)) o).
Definition clear_proposal n : M unit :=
  upd_objs (Σ := PaxosSig) (λ o, set_active (delete n o.(active)) o).

(** [PaxosCluster._record_chosen] *)
Definition record_chosen (p : ProposalNumber) (v : V) (acceptors : gset string) : M unit :=
  let! q := gets cluster_size in
  raise_if (Z.of_nat (size acceptors) <? q) PaxosSafetyViolation
    "Paxos decision requires a majority of acceptors" ;;
  let! current := gets (λ w, w.(objs).(chosen)) in
  match current with
  | Some c =>
      raise_if (negb (bool_decide (c.(ld_value) = v))) PaxosSafetyViolation
        "Paxos chose conflicting values"
  | None =>
      let accs := sorted_str (elements acceptors) in
      upd_objs (Σ := PaxosSig) (set_chosen (mkLearnedDecision p v) accs) ;;
      trace_rec (RChosen p v accs)
  end.

Definition receive_learn n (m : Learn) : M unit :=
  let! d := gets (λ w, dur w n) in
  match d.(d_learned) with
  | Some current =>
      raise_if (negb (bool_decide (current.(ld_value) = m.(learn_value))))
        PaxosSafetyViolation "learner observed conflicting Paxos decisions"
  | None =>
      persist (Σ := PaxosSig) n
        (set_learned (mkLearnedDecision m.(learn_proposal) m.(learn_value))) ;;
      trace_rec (RLearned n m.(learn_proposal) m.(learn_value))
  end.

Definition add_accepted_by (a : string) (st : ProposalState) : ProposalState :=
  mkProposalState st.(ps_proposal) st.(ps_original_value) st.(ps_promises)
    ({[a]} ∪ st.(ps_accepted_by)) st.(ps_chosen_value) st.(ps_accept_phase_started).

(** [response.value != state.chosen_value] *)
Definition changed_value (v : V) (st : ProposalState) : bool :=
  negb (bool_decide (st.(ps_chosen_value) = Some v)).

Definition receive_accepted n (r : Accepted) : M unit :=
  let stale := trace_rec (RStaleAccepted n r.(acc_acceptor_id) r.(acc_proposal)) in
  let! active := gets (λ w, proposal_of w n) in
  match active with
  | None => stale
  | Some st =>
      if negb (bool_decide (r.(acc_proposal) = st.(ps_proposal)))
         || negb st.(ps_accept_phase_started)
      then stale
      else
        raise_if (changed_value r.(acc_value) st) PaxosSafetyViolation
          "accepted response changed the proposal value" ;;
        let st' := add_accepted_by r.(acc_acceptor_id) st in
        set_proposal n st' ;;
        let! q := gets cluster_size in
        if Z.of_nat (size st'.(ps_accepted_by)) <? q then ret tt
        else
          let p := st'.(ps_proposal) in
          let v := r.(acc_value) in
          record_chosen p v st'.(ps_accepted_by) ;;
          let learn := mkLearn p n v in
          receive_learn n learn ;;
          let! ps := gets (λ w, peers w n) in
          for_each ps (λ peer, net_send n peer (PLearn learn)) ;;
          clear_proposal n
  end.

Definition receive_accept_request n (r : AcceptRequest) : M unit :=
  let! d := gets (λ w, dur w n) in
  let accept :=
    raise_if
      match d.(d_accepted) with
      | Some current =>
          bool_decide (current.(av_proposal) = r.(ar_proposal))
          && negb (bool_decide (current.(av_value) = r.(ar_value)))
      | None => false
      end PaxosSafetyViolation "proposal attempted conflicting accepted values" ;;
    let accepted := mkAcceptedValue r.(ar_proposal) r.(ar_value) in
    persist (Σ := PaxosSig) n (set_promised r.(ar_proposal)) ;;
    persist (Σ := PaxosSig) n (set_accepted accepted) ;;
    let history := d.(d_accept_history) in
    when (negb (bool_decide (accepted ∈ history)))
      (persist (Σ := PaxosSig) n (set_accept_history (history ++ [accepted]))) ;;
    trace_rec (RAccepted n r.(ar_proposer_id) r.(ar_proposal) r.(ar_value)) ;;
    let response := mkAccepted r.(ar_proposal) n r.(ar_value) in
    if (r.(ar_proposer_id) =? n)%string then receive_accepted n response
    else net_send n r.(ar_proposer_id) (PAccepted response) in
  match d.(d_promised) with
  | Some promised =>
      if pn_ltb r.(ar_proposal) promised then
        trace_rec (RAcceptRejected n r.(ar_proposal) promised)
      else accept
  | None => accept
  end.

(** [promises.setdefault(acceptor_id, response)] *)
Definition setdefault_promise (r : Promise) (ps : list (string * Promise))
    : list (string * Promise) :=
  if existsb (λ e, (e.1 =? r.(prom_acceptor_id))%string) ps then ps
  else ps ++ [(r.(prom_acceptor_id), r)].

Definition set_promises ps (st : ProposalState) : ProposalState :=
  mkProposalState st.(ps_proposal) st.(ps_original_value) ps st.(ps_accepted_by)
    st.(ps_chosen_value) st.(ps_accept_phase_started).

Definition start_accept_phase (v : V) (st : ProposalState) : ProposalState :=
  mkProposalState st.(ps_proposal) st.(ps_original_value) st.(ps_promises)
    st.(ps_accepted_by) (Some v) true.

(** The value the promises allow: the one accepted at the highest proposal,
    or the proposer's own; promises that disagree raise. *)
Definition choose_value (st : ProposalState) : exn + V :=
  match omap (λ e, e.2.(prom_accepted)) st.(ps_promises) with
  | [] => inr st.(ps_original_value)
  | a :: l =>
      let highest := pn_max a.(av_proposal) (av_proposal <$> l) in
      match filter (λ i, i.(av_proposal) = highest) (a :: l) with
      | [] => inr st.(ps_original_value)
      | first :: rest =>
          if existsb (λ i, negb (bool_decide (i.(av_value) = first.(av_value)))) rest
          then inl (Exn PaxosSafetyViolation "proposal was accepted with conflicting values")
          else inr first.(av_value)
      end
  end.

Definition receive_promise n (r : Promise) : M unit :=
  let stale := trace_rec (RStalePromise n r.(prom_acceptor_id) r.(prom_proposal)) in
  let! active := gets (λ w, proposal_of w n) in
  match active with
  | None => stale
  | Some st =>
      if negb (bool_decide (r.(prom_proposal) = st.(ps_proposal))) then stale
      else
        let! ids := gets (λ w, w.(objs).(node_ids)) in
        raise_if (negb (bool_decide (r.(prom_acceptor_id) ∈ ids))) PaxosSafetyViolation
          "promise references unknown acceptor" ;;
        let st' := set_promises (setdefault_promise r st.(ps_promises)) st in
        set_proposal n st' ;;
        let! q := gets cluster_size in
        if st'.(ps_accept_phase_started) || (zlen st'.(ps_promises) <? q) then ret tt
        else
          let! v := lift (choose_value st') in
          set_proposal n (start_accept_phase v st') ;;
          trace_rec (RAcceptPhaseStart n st'.(ps_proposal) v
            (sorted_str (fst <$> st'.(ps_promises)))) ;;
          let! request := lift (new_AcceptRequest st'.(ps_proposal) n v) in
          receive_accept_request n request ;;
          let! ps := gets (λ w, peers w n) in
          for_each ps (λ peer, net_send n peer (PAcceptRequest request))
  end.

Definition receive_prepare n (r : Prepare) : M unit :=
  let! d := gets (λ w, dur w n) in
  let answer :=
    when match d.(d_promised) with
         | None => true
         | Some promised => pn_ltb promised r.(prep_proposal)
         end (persist (Σ := PaxosSig) n (set_promised r.(prep_proposal))) ;;
    let promise := mkPromise r.(prep_proposal) n d.(d_accepted) in
    trace_rec (RPromise n r.(prep_proposer_id) r.(prep_proposal) d.(d_accepted)) ;;
    if (r.(prep_proposer_id) =? n)%string then receive_promise n promise
    else net_send n r.(prep_proposer_id) (PPromise promise) in
  match d.(d_promised) with
  | Some promised =>
      if pn_ltb r.(prep_proposal) promised then
        trace_rec (RPrepareRejected n r.(prep_proposal) promised)
      else answer
  | None => answer
  end.

(** [max(known_rounds) + 1] *)
Definition next_round (d : PaxosDurable) : Z :=
  let promised := match d.(d_promised) with Some p => [p.(round)] | None => [] end in
  let accepted :=
    match d.(d_accepted) with Some a => [a.(av_proposal).(round)] | None => [] end in
  let learned :=
    match d.(d_learned) with Some l => [l.(ld_proposal).(round)] | None => [] end in
  foldl Z.max d.(d_last_proposal_round) (promised ++ accepted ++ learned) + 1.

Definition start_proposal n (v : V) (round_number : option Z) : M ProposalNumber :=
  let! up := gets (λ w, is_alive w n) in
  raise_if (negb up) PaxosError "crashed proposer cannot start Paxos" ;;
  let! active := gets (λ w, proposal_of w n) in
  raise_if (bool_decide (is_Some active)) PaxosProposalActive
    "proposer already has proposal" ;;
  let! d := gets (λ w, dur w n) in
  let round_number := default (next_round d) round_number in
  raise_if (round_number <=? d.(d_last_proposal_round)) ValueError
    "proposer round must exceed durable local round" ;;
  let! proposal := lift (new_ProposalNumber round_number n) in
  persist (Σ := PaxosSig) n (set_last_round round_number) ;;
  set_proposal n (mkProposalState proposal v [] ∅ None false) ;;
  trace_rec (RProposalStart n proposal v) ;;
  let! prepare := lift (new_Prepare proposal n) in
  receive_prepare n prepare ;;
  let! ps := gets (λ w, peers w n) in
  for_each ps (λ peer, net_send n peer (PPrepare prepare)) ;;
  ret proposal.

Definition reject_source n (m : Message PaxosSig) (expected : string) : M unit :=
  trace_rec (REnvelopeRejected n m.(src) m.(dst) (Some expected)
    "source-identity-mismatch" m.(payload)).

Definition handle_message n (m : Message PaxosSig) : M unit :=
  if negb (m.(dst) =? n)%string then
    trace_rec (REnvelopeRejected n m.(src) m.(dst) None
      "destination-identity-mismatch" m.(payload))
  else
    let checked (claimed : string) (k : M unit) : M unit :=
      if negb (m.(src) =? claimed)%string then reject_source n m claimed else k in
    match m.(payload) with
    | PPrepare p => checked p.(prep_proposer_id) (receive_prepare n p)
    | PPromise p => checked p.(prom_acceptor_id) (receive_promise n p)
    | PAcceptRequest p => checked p.(ar_proposer_id) (receive_accept_request n p)
    | PAccepted p => checked p.(acc_acceptor_id) (receive_accepted n p)
    | PLearn p => checked p.(learn_proposer_id) (receive_learn n p)
    | POther _ => raise TypeError "unsupported Paxos message"
    end.

(** [by_proposal]: the same proposal twice in the history must carry the
    same value. *)
Fixpoint history_consistent (by_proposal : gmap ProposalNumber V) (h : list AcceptedValue) : bool :=
  match h with
  | [] => true
  | i :: h' =>
      match by_proposal !! i.(av_proposal) with
      | Some v =>
          if negb (bool_decide (v = i.(av_value))) then false
          else history_consistent (<[i.(av_proposal) := i.(av_value)]> by_proposal) h'
      | None => history_consistent (<[i.(av_proposal) := i.(av_value)]> by_proposal) h'
      end
  end.

(** [_validate_durable_state]: the type checks hold by typing. *)
Definition validate_durable_state n : M unit :=
  let! d := gets (λ w, dur w n) in
  raise_if (d.(d_last_proposal_round) <? 0) TypeError
    "durable Paxos proposer round must be a non-negative integer" ;;
  raise_if
    match d.(d_accepted), d.(d_promised) with
    | Some a, Some p => pn_ltb p a.(av_proposal)
    | _, _ => false
    end PaxosSafetyViolation "accepted proposal cannot exceed durable promise" ;;
  raise_if (negb (history_consistent ∅ d.(d_accept_history))) PaxosSafetyViolation
    "durable accept history conflicts" ;;
  raise_if
    match d.(d_accepted) with
    | Some a => negb (bool_decide (a ∈ d.(d_accept_history)))
    | None => false
    end PaxosSafetyViolation "current accepted value must appear in durable history".

Definition handle_crash n : M unit :=
  let! active := gets (λ w, ps_proposal <$> proposal_of w n) in
  clear_proposal n ;;
  trace_rec (RNodeCrash n active).

Definition handle_restart n : M unit :=
  clear_proposal n ;;
  validate_durable_state n ;;
  let! d := gets (λ w, dur w n) in
  trace_rec (RNodeRestart n d.(d_promised) d.(d_accepted) d.(d_learned)).

(** ** The safety harness *)

(** One group per [(proposal, value)] pair, with the acceptors that hold it. *)
Definition Group : Type := ProposalNumber * V * gset string.

Definition add_acceptor (n : string) (a : AcceptedValue) (gs : list Group) : list Group :=
  add_evidence n (a.(av_proposal), a.(av_value)) gs.

Fixpoint collect_groups (ids : list string) (gs : list Group) : M (list Group) :=
  match ids with
  | [] => ret gs
  | n :: ids' =>
      validate_durable_state n ;;
      let! d := gets (λ w, dur w n) in
      collect_groups ids' (foldl (λ gs a, add_acceptor n a gs) gs d.(d_accept_history))
  end.

Fixpoint conflicting (seen : list (ProposalNumber * V)) (gs : list Group) : bool :=
  match gs with
  | [] => false
  | (p, v, _) :: gs' =>
      match filter (λ e, e.1 = p) seen with
      | e :: _ => if negb (bool_decide (e.2 = v)) then true else conflicting seen gs'
      | [] => conflicting (seen ++ [(p, v)]) gs'
      end
  end.

Definition all_same (l : list V) : bool :=
  match l with
  | [] => true
  | x :: l' => forallb (λ y, bool_decide (y = x)) l'
  end.

Definition checkpoint : M unit :=
  let! q := gets cluster_size in
  let! ids := gets (λ w, w.(objs).(node_ids)) in
  let! groups := collect_groups ids [] in
  raise_if (conflicting [] groups) PaxosSafetyViolation
    "proposal has conflicting accepted values" ;;
  let chosen_values :=
    omap (λ g : Group, if q <=? Z.of_nat (size g.2) then Some g.1.2 else None) groups in
  raise_if (negb (all_same chosen_values)) PaxosSafetyViolation
    "durable quorum evidence chose multiple Paxos values" ;;
  let! learned := gets (λ w, omap (λ n, ld_value <$> (dur w n).(d_learned)) ids) in
  raise_if (negb (all_same learned)) PaxosSafetyViolation
    "learners contain conflicting Paxos decisions" ;;
  raise_if
    match learned with
    | first :: _ => negb (bool_decide (head chosen_values = Some first))
    | [] => false
    end PaxosSafetyViolation
    "learned Paxos decision lacks matching durable majority acceptance" ;;
  let! objective := gets (λ w, w.(objs).(chosen)) in
  match objective with
  | None => ret tt
  | Some o =>
      raise_if (negb (bool_decide (head chosen_values = Some o.(ld_value))))
        PaxosSafetyViolation
        "cluster chosen value lacks matching durable majority acceptance" ;;
      raise_if
        match learned with
        | first :: _ => negb (bool_decide (first = o.(ld_value)))
        | [] => false
        end PaxosSafetyViolation "objective and learned Paxos decisions diverged"
  end.

(** ** The cluster *)

(** [PaxosCluster.__init__] over a simulator [w]: the nodes validate their
    durable state, then register their callbacks in order. *)
Definition init_cluster (ids : list string) : M unit :=
  raise_if (bool_decide (ids = [])) ValueError "Paxos cluster requires at least one node" ;;
  raise_if (negb (bool_decide (NoDup ids))) ValueError "Paxos node ids must be unique" ;;
  upd_objs (Σ := PaxosSig) (λ _, mkPaxosObjects ids ∅ None []) ;;
  for_each ids validate_durable_state ;;
  for_each ids (λ n, register (Σ := PaxosSig) n n (Some n) (Some n)).

Definition new_world (plan : FaultPlan) : World :=
  mkWorld (Σ := PaxosSig) (new_Simulator plan) (mkPaxosObjects [] ∅ None []).

Definition paxos_run (fuel : nat) (k : option Z) : M Z :=
  run (Σ := PaxosSig) handle_message fuel k.
Definition paxos_run_until (fuel : nat) (deadline : Z) : M Z :=
  run_until_time (Σ := PaxosSig) handle_message fuel deadline.
Definition paxos_crash n : M unit := crash (Σ := PaxosSig) handle_crash n.
Definition paxos_restart n : M unit := restart (Σ := PaxosSig) handle_restart n.

(** [cluster.node(node_id)] *)
Definition node n : M string :=
  let! ids := gets (λ w, w.(objs).(node_ids)) in
  if bool_decide (n ∈ ids) then ret n else raise KeyError "nodes".

(** The calls a test or a campaign makes on the cluster and its simulator. *)
Inductive paxos_op :=
  | OpStart n (v : V) (round_number : option Z)
  | OpRun (fuel : nat) (max_events : option Z)
  | OpRunUntil (fuel : nat) (deadline : Z)
  | OpCrash n
  | OpRestart n
  | OpPartition (left right : list string)
  | OpHealPartition (left right : list string)
  | OpBlockLink (s d : string)
  | OpHealLink (s d : string)
  | OpSetLinkDelay (s d : string) (extra_delay : Z)
  | OpClearLinkDelay (s d : string)
  | OpCheckpoint.

Definition exec_op (o : paxos_op) : M unit :=
  match o with
  | OpStart n v r => let! n := node n in start_proposal n v r ;; ret tt
  | OpRun fuel k => paxos_run fuel k ;; ret tt
  | OpRunUntil fuel t => paxos_run_until fuel t ;; ret tt
  | OpCrash n => paxos_crash n
  | OpRestart n => paxos_restart n
  | OpPartition l r => partition l r
  | OpHealPartition l r => heal_partition l r
  | OpBlockLink s d => block_link s d
  | OpHealLink s d => heal_link s d
  | OpSetLinkDelay s d x => set_link_delay s d x
  | OpClearLinkDelay s d => clear_link_delay s d
  | OpCheckpoint => checkpoint
  end.

(** Worlds reached from a fresh cluster by any calls; a call that raises
    leaves the mutations it made before, and the caller may go on. *)
Inductive reachable (ids : list string) (plan : FaultPlan) : World → Prop :=
  | reach_init w : init_cluster ids (new_world plan) = (w, inr tt) → reachable ids plan w
  | reach_op w o w' r : reachable ids plan w → exec_op o w = (w', r) → reachable ids plan w'.
End paxos.
