(* ===== verification/Decree.v ===== *)
(** * Decree: one decree of Paxos against the consensus specification

    What the variables of one acceptor and one proposer of a decree stand for in
    a state of [Consensus], and that each change the protocol makes to them
    (a promise, a vote, a choice of value, a decision) is a step of it.  A
    decree uses slot 1 of the machine.  [paxos.py] has one decree and
    [paxos_log.py] one per slot; both refinements are built on these lemmas.

    It is a specification: no definition of this file translates code. *)

From stdpp Require Import relations.
From S2P Require Import Prelude Quorum Consensus Paxos.

Section decree.
Context {V : Type} `{EqDecision V}.
Implicit Types (s : State V) (n : string).

(** The report a promise carries, for the one slot of the decree. *)
Definition report_of (a : option (AcceptedValue (V := V))) : report V := λ slot,
  if slot =? 1 then (λ a, (a.(av_proposal), a.(av_value))) <$> a else None.

Context (ids : list string).
Local Abbreviation quorum := (majority ids).

(** What holds of the state of a decree *)
Record decree s : Prop := {
  dc_inv : inv quorum s;
  dc_unique slot b v v' : (slot, b, v) ∈ s.(proposed) → (slot, b, v') ∈ s.(proposed) → v = v';
}.

(** The durable dictionary of one node against the abstract state. *)
Record dur_ok s n (d : PaxosDurable (V := V)) : Prop := {
  do_bal : s.(max_bal) !! n = d.(d_promised);
  do_votes slot b v : (slot, b, n, v) ∈ s.(votes) ↔
    slot = 1 ∧ mkAcceptedValue b v ∈ d.(d_accept_history);
  do_accepted : match d.(d_accepted) with
    | None => d.(d_accept_history) = []
    | Some a => a ∈ d.(d_accept_history)
        ∧ ∀ a', a' ∈ d.(d_accept_history) → (a'.(av_proposal) ≤ a.(av_proposal))%ballot
    end;
  do_learned l : d.(d_learned) = Some l → chosen_at quorum s 1 l.(ld_proposal) l.(ld_value);
  do_round : 0 ≤ d.(d_last_proposal_round);
  do_proposed slot b v : (slot, b, v) ∈ s.(proposed) → b.(proposer_id) = n →
    b.(round) ≤ d.(d_last_proposal_round);
}.

(** A proposal in progress at [n]. *)
Record active_ok s n (d : PaxosDurable (V := V)) (st : ProposalState (V := V)) : Prop := {
  ao_owner : st.(ps_proposal).(proposer_id) = n;
  ao_round : st.(ps_proposal).(round) ≤ d.(d_last_proposal_round);
  ao_nodup : NoDup (fst <$> st.(ps_promises));
  ao_promises a m : (a, m) ∈ st.(ps_promises) →
    a ∈ ids ∧ (st.(ps_proposal), a, report_of m.(prom_accepted)) ∈ s.(reports);
  ao_started : if st.(ps_accept_phase_started) then
      ∃ v, st.(ps_chosen_value) = Some v ∧ (1, st.(ps_proposal), v) ∈ s.(proposed)
        ∧ ∀ a, a ∈ st.(ps_accepted_by) →
            a ∈ ids ∧ (1, st.(ps_proposal), a, v) ∈ s.(votes)
    else st.(ps_accepted_by) = ∅
      ∧ ∀ slot v, (slot, st.(ps_proposal), v) ∉ s.(proposed);
}.

(** A proposal in progress survives steps that propose nothing new. *)
Lemma active_ok_mono s s' n d d' st :
  rtc (step quorum) s s' → s'.(proposed) = s.(proposed) →
  d.(d_last_proposal_round) ≤ d'.(d_last_proposal_round) →
  active_ok s n d st → active_ok s' n d' st.
Proof.
  intros Hs Hprop Hround []. split; try done; [lia| |].
  - intros a m Ham. destruct (ao_promises0 a m Ham). eauto using steps_reports.
  - rewrite Hprop. destruct (ps_accept_phase_started st); [|done].
    destruct ao_started0 as (v & ? & ? & Hacc). exists v. split_and!; [done..|].
    intros a Ha. destruct (Hacc a Ha). eauto using steps_votes.
Qed.

Lemma dur_ok_other s s' n d :
  rtc (step quorum) s s' →
  s'.(max_bal) !! n = s.(max_bal) !! n →
  (∀ slot b v, (slot, b, n, v) ∈ s'.(votes) ↔ (slot, b, n, v) ∈ s.(votes)) →
  (∀ slot b v, (slot, b, v) ∈ s'.(proposed) → b.(proposer_id) = n →
     (slot, b, v) ∈ s.(proposed)) →
  dur_ok s n d → dur_ok s' n d.
Proof.
  intros Hs Hbal Hvotes Hprop []. split; try done.
  - by rewrite Hbal.
  - intros slot b v. by rewrite Hvotes.
  - intros l Hl. eauto using steps_chosen.
  - intros slot b v Hp Hb. eauto.
Qed.


Lemma vote_proposed s slot b a v : decree s → (slot, b, a, v) ∈ s.(votes) → (slot, b, v) ∈ s.(proposed).
Proof. intros Hs Hv. by apply (inv_vote _ _ (dc_inv _ Hs)) in Hv as [? _]. Qed.

Lemma decree_same s s' : decree s → rtc (step quorum) s s' → s'.(proposed) = s.(proposed) → decree s'.
Proof.
  intros Hd Hs Hp. split; [exact (steps_inv quorum _ _ (dc_inv _ Hd) Hs)|].
  intros slot b v v'. rewrite Hp. by apply dc_unique.
Qed.

(** *** Votes *)

(** The promise does not exclude acting at [b]. *)
Lemma promised_may_act s n (d : PaxosDurable (V := V)) b :
  dur_ok s n d → match d.(d_promised) with Some p => pn_ltb b p = false | None => True end → may_act s n b.
Proof.
  intros Hd Hp m Hm. rewrite (do_bal _ _ _ Hd) in Hm. rewrite Hm in Hp. by apply pn_ltb_false.
Qed.

Lemma active_ok_accept s n d st a v :
  active_ok s n d st → ps_accept_phase_started st = true →
  ps_chosen_value st = Some v → a ∈ ids → (1, ps_proposal st, a, v) ∈ s.(votes) →
  active_ok s n d (add_accepted_by a st).
Proof.
  intros [] Hst Hv Ha Hvote. split; simpl; try done.
  rewrite Hst in ao_started0 |- *. destruct ao_started0 as (v' & Hv' & ? & Hacc).
  exists v'. split_and!; [done..|]. simplify_eq.
  intros a'. rewrite elem_of_union, elem_of_singleton. intros [->|?]; [done|auto].
Qed.

Definition accept_dur (a : AcceptedValue (V := V)) (d : PaxosDurable (V := V)) : PaxosDurable :=
  mkPaxosDurable (Some a.(av_proposal)) (Some a)
    (if bool_decide (a ∈ d.(d_accept_history)) then d.(d_accept_history)
     else d.(d_accept_history) ++ [a]) d.(d_learned) d.(d_last_proposal_round).

Lemma elem_of_accept_history a a' d :
  a' ∈ d_accept_history (accept_dur a d) ↔ a' = a ∨ a' ∈ d_accept_history d.
Proof.
  simpl. case_bool_decide.
  - naive_solver.
  - rewrite elem_of_app, list_elem_of_singleton. tauto.
Qed.

Definition vote_state s n (b : ProposalNumber) (v : V) : State V :=
  mkState (<[n := b]> s.(max_bal)) s.(reports) s.(proposed) ((1, b, n, v) :: s.(votes)).

Lemma dur_ok_vote s n d b v :
  decree s → dur_ok s n d → may_act s n b →
  dur_ok (vote_state s n b v) n (accept_dur (mkAcceptedValue b v) d).
Proof.
  intros Hs [] Hmay. split; simpl d_promised; simpl d_learned; simpl d_last_proposal_round.
  - apply lookup_insert_eq.
  - intros slot b' v'. rewrite elem_of_accept_history. simpl. rewrite elem_of_cons, do_votes0.
    naive_solver.
  - simpl d_accepted. cbv beta iota. split.
    + rewrite elem_of_accept_history. by left.
    + intros a'. rewrite elem_of_accept_history. intros [->|Ha']; [by right|]. simpl.
      assert ((1, av_proposal a', n, av_value a') ∈ s.(votes)) as Hv.
      { apply do_votes0. by destruct a'. }
      destruct (inv_vote _ _ (dc_inv _ Hs) _ _ _ _ Hv) as (_ & m & Hm & ?).
      specialize (Hmay m Hm). ballot_order.
  - intros l Hl. destruct (do_learned0 l Hl) as (Q & ? & HQ). exists Q. split; [done|].
    intros a Ha. right. by apply HQ.
  - done.
  - done.
Qed.

Lemma vote_step s n b v :
  decree s → (1, b, v) ∈ s.(proposed) → may_act s n b → rtc (step quorum) s (vote_state s n b v).
Proof.
  intros Hs Hprop Hmay. apply rtc_once, step_vote; [done..|]. intros v' Hv'.
  eapply (dc_unique _ Hs); [by eapply vote_proposed|done].
Qed.

Lemma vote_others s n b v n' d :
  decree s → (1, b, v) ∈ s.(proposed) → may_act s n b → n' ≠ n → dur_ok s n' d → dur_ok (vote_state s n b v) n' d.
Proof.
  intros Hs Hprop Hmay Hne. eapply dur_ok_other; [by eapply vote_step| | |done].
  - simpl. by rewrite lookup_insert_ne.
  - intros slot b' v'. simpl. rewrite elem_of_cons. naive_solver.
Qed.

Lemma same_ballot_same_value s n d b v a :
  decree s → dur_ok s n d → (1, b, v) ∈ s.(proposed) → a ∈ d.(d_accept_history) →
  av_proposal a = b → av_value a = v.
Proof.
  intros Hs Hd Hprop Ha Hpa. eapply dc_unique; [exact Hs| |exact Hprop]. rewrite <-Hpa.
  eapply vote_proposed; [exact Hs|]. apply (do_votes _ _ _ Hd). split; [done|]. by destruct a.
Qed.

Lemma current_in_history s n d a : dur_ok s n d → d.(d_accepted) = Some a → a ∈ d.(d_accept_history).
Proof.
  intros Hd Ha. pose proof (do_accepted _ _ _ Hd) as Hacc. rewrite Ha in Hacc. apply Hacc.
Qed.

Lemma history_agrees s n d i j :
  decree s → dur_ok s n d → i ∈ d.(d_accept_history) → j ∈ d.(d_accept_history) →
  av_proposal i = av_proposal j → av_value i = av_value j.
Proof.
  intros Hs Hd Hi Hj Hij. eapply (same_ballot_same_value s n d (av_proposal j)); [done..| |done|done].
  eapply vote_proposed; [done|]. apply (do_votes _ _ _ Hd). split; [done|]. by destruct j.
Qed.

(** The accepted value is within the promise. *)
Lemma accepted_promised s n d a p :
  decree s → dur_ok s n d → d.(d_accepted) = Some a → d.(d_promised) = Some p → pn_ltb p a.(av_proposal) = false.
Proof.
  intros Hs Hd Ha Hp. apply pn_ltb_false.
  assert ((1, av_proposal a, n, av_value a) ∈ s.(votes)) as Hv.
  { apply (do_votes _ _ _ Hd). split; [done|]. destruct a. by eapply current_in_history. }
  destruct (inv_vote _ _ (dc_inv _ Hs) _ _ _ _ Hv) as (_ & m & Hm & ?).
  rewrite (do_bal _ _ _ Hd), Hp in Hm. by simplify_eq.
Qed.

(** *** Promises and proposals *)

Lemma setdefault_promise_elem (m : Promise (V := V)) ps x :
  x ∈ setdefault_promise m ps → x ∈ ps ∨ x = (m.(prom_acceptor_id), m).
Proof.
  unfold setdefault_promise. destruct (existsb _ ps); [by left|].
  rewrite elem_of_app, list_elem_of_singleton. done.
Qed.

Lemma setdefault_promise_nodup (m : Promise (V := V)) ps :
  NoDup (fst <$> ps) → NoDup (fst <$> setdefault_promise m ps).
Proof.
  intros Hnd. unfold setdefault_promise. destruct (existsb _ ps) eqn:E; [done|].
  rewrite fmap_app. apply NoDup_app. split_and!; [done| |apply NoDup_singleton].
  intros a [[b x] [-> Hin]]%list_elem_of_fmap. simpl. rewrite list_elem_of_singleton. intros ->.
  assert (existsb (λ e : string * Promise, (e.1 =? prom_acceptor_id m)%string) ps = true); [|congruence].
  apply existsb_exists. exists (prom_acceptor_id m, x). split; [by apply list_elem_of_In|].
  apply String.eqb_refl.
Qed.

(** The promises a proposer holds, as reports by acceptor. *)

Definition promised_reports (ps : list (string * Promise (V := V))) (a : string) : report V :=
  match (list_to_map ps : gmap string Promise) !! a with
  | Some m => report_of m.(prom_accepted)
  | None => λ _, None
  end.

Lemma promised_reports_elem ps a m :
  NoDup (fst <$> ps) → (a, m) ∈ ps → promised_reports ps a = report_of m.(prom_accepted).
Proof.
  intros Hnd Hin. unfold promised_reports.
  by rewrite (proj1 (elem_of_list_to_map ps a m Hnd) Hin).
Qed.

Lemma accepted_of_promises (ps : list (string * Promise (V := V))) x :
  x ∈ omap (λ e, e.2.(prom_accepted)) ps ↔ ∃ a m, (a, m) ∈ ps ∧ m.(prom_accepted) = Some x.
Proof.
  rewrite list_elem_of_omap. split.
  - intros ([a m] & ? & ?). eauto.
  - intros (a & m & ? & ?). by exists (a, m).
Qed.

Lemma choose_value_allowed (st : ProposalState (V := V)) :
  NoDup (fst <$> ps_promises st) →
  (∀ x y, x ∈ omap (λ e, e.2.(prom_accepted)) (ps_promises st) →
     y ∈ omap (λ e, e.2.(prom_accepted)) (ps_promises st) →
     av_proposal x = av_proposal y → av_value x = av_value y) →
  ∃ v, choose_value st = inr v ∧
    allowed (promised_reports (ps_promises st)) (list_to_set (fst <$> ps_promises st)) 1 v.
Proof.
  intros Hnd Hcons. unfold choose_value.
  destruct (omap _ (ps_promises st)) as [|x l] eqn:E.
  - exists (ps_original_value st). split; [done|]. left.
    intros a [[b m] [-> Hin]]%elem_of_list_to_set%list_elem_of_fmap. simpl.
    rewrite (promised_reports_elem _ _ m Hnd Hin).
    destruct (prom_accepted m) as [y|] eqn:Ey; [|done].
    assert (y ∈ omap (λ e, e.2.(prom_accepted)) (ps_promises st)) as Hy
      by (apply accepted_of_promises; eauto).
    rewrite E in Hy. by apply elem_of_nil in Hy.
  - set (hi := pn_max _ _).
    assert (∀ y, y ∈ x :: l → (av_proposal y ≤ hi)%ballot) as Hmax.
    { intros y Hy. apply pn_max_ge. apply elem_of_cons in Hy as [->|Hy]; [by left|right].
      by apply list_elem_of_fmap_2. }
    assert (∃ y, y ∈ x :: l ∧ av_proposal y = hi) as (top & Htop & Hhi).
    { destruct (pn_max_elem (av_proposal x) (av_proposal <$> l)) as [Hx|Hx].
      - exists x. split; [left|done].
      - apply list_elem_of_fmap in Hx as (y & Hy & ?). exists y. split; [by right|done]. }
    destruct (filter (λ i, av_proposal i = hi) (x :: l)) as [|first rest] eqn:Ef.
    { assert (top ∈ filter (λ i, av_proposal i = hi) (x :: l)) as Ht
        by (by apply list_elem_of_filter).
      rewrite Ef in Ht. by apply elem_of_nil in Ht. }
    assert (∀ y, y ∈ first :: rest → av_proposal y = hi ∧ y ∈ x :: l) as Hf.
    { intros y Hy. rewrite <-Ef in Hy. by apply list_elem_of_filter in Hy. }
    destruct (Hf first) as [Hfirst Hfin]; [left|].
    destruct (existsb _ rest) eqn:Ee.
    { apply existsb_exists in Ee as (y & Hy & Hne). exfalso.
      apply negb_true_iff, bool_decide_eq_false in Hne. apply Hne.
      destruct (Hf y) as [? ?]; [right; by apply list_elem_of_In|].
      apply Hcons; [done..|congruence]. }
    exists (av_value first). split; [done|]. right.
    rewrite <-E in Hfin. pose proof Hfin as (a & m & Ham & Hm)%accepted_of_promises.
    exists a, hi. split_and!.
    + apply elem_of_list_to_set, list_elem_of_fmap. by exists (a, m).
    + rewrite (promised_reports_elem _ _ m Hnd Ham), Hm. unfold report_of. simpl. by rewrite Hfirst.
    + intros a' c' v' [[b m'] [-> Hin]]%elem_of_list_to_set%list_elem_of_fmap. simpl.
      rewrite (promised_reports_elem _ _ m' Hnd Hin).
      destruct (prom_accepted m') as [y|] eqn:Ey; [|done].
      assert (y ∈ omap (λ e, e.2.(prom_accepted)) (ps_promises st)) as Hy
        by (apply accepted_of_promises; eauto).
      rewrite E in Hy, Hfin. unfold report_of. simpl. intros [= <- <-]. split.
      * by apply Hmax.
      * intros Hyh. apply Hcons; [done..|congruence].
Qed.

Definition propose_state s (b : ProposalNumber) (v : V) : State V :=
  mkState s.(max_bal) s.(reports) ((1, b, v) :: s.(proposed)) s.(votes).

Lemma promises_quorum s n d (st : ProposalState (V := V)) :
  active_ok s n d st → quorum_size ids ≤ zlen (ps_promises st) →
  quorum (list_to_set (fst <$> ps_promises st)).
Proof.
  intros [] Hlen. split.
  - intros a [[b m] [-> Hin]]%elem_of_list_to_set%list_elem_of_fmap.
    apply elem_of_list_to_set. by apply (ao_promises0 _ _ Hin).
  - rewrite size_list_to_set by done. rewrite length_fmap. exact Hlen.
Qed.


(** Acceptors never report two values for one ballot. *)
Lemma reported_values_agree s n d (st : ProposalState (V := V)) x y :
  decree s → active_ok s n d st →
  x ∈ omap (λ e, e.2.(prom_accepted)) (ps_promises st) →
  y ∈ omap (λ e, e.2.(prom_accepted)) (ps_promises st) →
  av_proposal x = av_proposal y → av_value x = av_value y.
Proof.
  intros Hs Hact (a & m & Ha & Hm)%accepted_of_promises
    (a' & m' & Ha' & Hm')%accepted_of_promises Heq.
  assert (∀ b k z, (b, k) ∈ ps_promises st → prom_accepted k = Some z →
    (1, av_proposal z, av_value z) ∈ s.(proposed)) as Hp.
  { intros b k z Hb Hk. destruct (ao_promises _ _ _ _ Hact _ _ Hb) as [_ Hrep].
    eapply vote_proposed; [exact Hs|].
    eapply (inv_reported _ _ (dc_inv _ Hs) _ _ _ _ _ _ Hrep).
    unfold report_of. by rewrite Hk. }
  eapply dc_unique; [exact Hs|exact (Hp _ _ _ Ha Hm)|].
  rewrite Heq. exact (Hp _ _ _ Ha' Hm').
Qed.

(** The value the proposer chooses may be proposed. *)
Lemma choose_value_ok s n d (st : ProposalState (V := V)) :
  decree s → active_ok s n d st → quorum_size ids ≤ zlen (ps_promises st) →
  ∃ v, choose_value st = inr v ∧ rtc (step quorum) s (propose_state s (ps_proposal st) v)
    ∧ (v = st.(ps_original_value) ∨ ∃ b, (1, b, v) ∈ s.(proposed)).
Proof.
  intros Hs Hact Hlen. destruct (choose_value_allowed st) as (v & Hv & Hall); [apply Hact| |].
  { intros x y Hx Hy. by eapply reported_values_agree. }
  exists v. split_and!; [done| |].
  - apply rtc_once. eapply step_propose; [by eapply promises_quorum| |exact Hall].
    intros a [[b m] [-> Hin]]%elem_of_list_to_set%list_elem_of_fmap. simpl.
    rewrite (promised_reports_elem _ _ m (ao_nodup _ _ _ _ Hact) Hin).
    by apply (ao_promises _ _ _ _ Hact).
  - destruct Hall as [Hnone|(a & c & Ha & Hc & _)].
    + left. unfold choose_value in Hv. destruct (omap _ (ps_promises st)) as [|x l] eqn:E; [congruence|].
      assert (x ∈ omap (λ e, e.2.(prom_accepted)) (ps_promises st)) as (a & m & Ham & Hx)%accepted_of_promises
        by (rewrite E; by left).
      specialize (Hnone a). rewrite (promised_reports_elem _ _ m (ao_nodup _ _ _ _ Hact) Ham) in Hnone.
      unfold report_of in Hnone. rewrite Hx in Hnone. discriminate Hnone.
      apply elem_of_list_to_set, list_elem_of_fmap. by exists (a, m).
    + right. exists c. apply elem_of_list_to_set, list_elem_of_fmap in Ha as [[b m] [-> Ham]]. simpl in Hc.
      rewrite (promised_reports_elem _ _ m (ao_nodup _ _ _ _ Hact) Ham) in Hc.
      eapply vote_proposed; [exact Hs|].
      eapply (inv_reported _ _ (dc_inv _ Hs)); [by apply (ao_promises _ _ _ _ Hact _ _ Ham)|exact Hc].
Qed.

Lemma active_ok_other_owner s s' n d st p v :
  s' = propose_state s p v → rtc (step quorum) s s' → p.(proposer_id) ≠ n →
  active_ok s n d st → active_ok s' n d st.
Proof.
  intros -> Hs Hp []. split; try done.
  destruct (ps_accept_phase_started st).
  - destruct ao_started0 as (u & ? & ? & ?). exists u. split_and!; [done| |done].
    by apply elem_of_cons; right.
  - destruct ao_started0 as [? Hno]. split; [done|].
    intros slot u [[= -> <- ->]|Hin]%elem_of_cons; [done|by eapply Hno].
Qed.

Lemma decree_propose s p v :
  decree s → rtc (step quorum) s (propose_state s p v) → (∀ slot u, (slot, p, u) ∉ s.(proposed)) →
  decree (propose_state s p v).
Proof.
  intros Hd Hs Hno. split; [exact (steps_inv quorum _ _ (dc_inv _ Hd) Hs)|].
  intros slot b u u' [[= -> -> ->]|Hu]%elem_of_cons [Heq|Hu']%elem_of_cons.
  - by simplify_eq.
  - by destruct (Hno 1 u').
  - simplify_eq. by destruct (Hno 1 u).
  - by eapply dc_unique.
Qed.

Lemma dur_ok_propose s n d p v :
  dur_ok s n d → (p.(proposer_id) = n → p.(round) ≤ d.(d_last_proposal_round)) → dur_ok (propose_state s p v) n d.
Proof.
  intros [] Hp. split; try done.
  intros slot b u [[= -> -> ->]|Hu]%elem_of_cons Hb; [by apply Hp|by eapply do_proposed0].
Qed.

Lemma active_ok_start s n d (st : ProposalState (V := V)) v :
  active_ok s n d st → ps_accept_phase_started st = false →
  active_ok (propose_state s (ps_proposal st) v) n d (start_accept_phase v st).
Proof.
  intros [] Hst. rewrite Hst in ao_started0. destruct ao_started0 as [Hempty _].
  split; try done. simpl. exists v. split_and!; [done|by left|]. rewrite Hempty. by intros ? ?%elem_of_empty.
Qed.

Lemma active_ok_unstarted s n d (st : ProposalState (V := V)) :
  active_ok s n d st → ps_accept_phase_started st = false → ∀ slot v, (slot, ps_proposal st, v) ∉ s.(proposed).
Proof. intros Hact Hst. pose proof (ao_started _ _ _ _ Hact) as Ha. rewrite Hst in Ha. apply Ha. Qed.

Lemma active_ok_promise s n d st (m : Promise (V := V)) :
  active_ok s n d st → m.(prom_acceptor_id) ∈ ids →
  (ps_proposal st, m.(prom_acceptor_id), report_of m.(prom_accepted)) ∈ s.(reports) →
  active_ok s n d (set_promises (setdefault_promise m (ps_promises st)) st).
Proof.
  intros [] Hm Hrep. split; simpl; try done.
  - by apply setdefault_promise_nodup.
  - intros a k [?|[= -> ->]]%setdefault_promise_elem; auto.
Qed.

Definition promise_state s n (b : ProposalNumber) (r : report V) : State V :=
  mkState (<[n := b]> s.(max_bal)) ((b, n, r) :: s.(reports)) s.(proposed) s.(votes).

Lemma latest_report s n d : dur_ok s n d → latest s n (report_of d.(d_accepted)).
Proof.
  intros [] slot. unfold report_of. destruct (Z.eqb_spec slot 1) as [->|Hslot].
  - destruct (d_accepted d) as [a|]; simpl.
    + destruct do_accepted0 as [Hin Hmax]. split.
      * apply do_votes0. by destruct a.
      * intros c v [_ Hv]%do_votes0. by apply (Hmax _ Hv).
    + intros c v [_ Hv]%do_votes0. rewrite do_accepted0 in Hv. by apply elem_of_nil in Hv.
  - intros c v [-> _]%do_votes0. done.
Qed.

Lemma promise_step s n d b :
  dur_ok s n d → may_act s n b → rtc (step quorum) s (promise_state s n b (report_of d.(d_accepted))).
Proof. intros Hd Hmay. apply rtc_once, step_promise; [done|by apply latest_report]. Qed.

Lemma dur_ok_promised s n d b r : dur_ok s n d → dur_ok (promise_state s n b r) n (set_promised b d).
Proof. intros []. split; simpl; try done. apply lookup_insert_eq. Qed.

Lemma promise_others s n d b n' d' :
  dur_ok s n d → may_act s n b → n' ≠ n → dur_ok s n' d' →
  dur_ok (promise_state s n b (report_of d.(d_accepted))) n' d'.
Proof.
  intros Hd Hmay Hne. eapply dur_ok_other; [by apply promise_step| |done|done].
  simpl. by rewrite lookup_insert_ne.
Qed.

(** Promising again what was promised *)
Lemma promised_again s n d b :
  dur_ok s n d → may_act s n b →
  match d.(d_promised) with None => true | Some p => pn_ltb p b end = false → d.(d_promised) = Some b.
Proof.
  intros Hd Hmay Hb. destruct (d_promised d) as [p|] eqn:Ep; [|done]. f_equal.
  apply pn_ltb_false in Hb. assert (p ≤ b)%ballot; [|ballot_order].
  apply Hmay. by rewrite (do_bal _ _ _ Hd).
Qed.

Lemma dur_ok_last_round s n d r : dur_ok s n d → d.(d_last_proposal_round) ≤ r → dur_ok s n (set_last_round r d).
Proof.
  intros [] Hr. split; simpl; try done; [lia|].
  intros slot b v Hp Hb. specialize (do_proposed0 slot b v Hp Hb). lia.
Qed.

(** A new round gives a proposal number nobody has proposed with. *)
Lemma active_ok_fresh s n d p v d' :
  dur_ok s n d → p.(proposer_id) = n → d.(d_last_proposal_round) < p.(round) →
  d'.(d_last_proposal_round) = p.(round) → active_ok s n d' (mkProposalState p v [] ∅ None false).
Proof.
  intros Hd Hp Hr Hd'. split; simpl; try done; [lia|constructor| |].
  - intros a m []%elem_of_nil.
  - split; [done|]. intros slot u Hin. pose proof (do_proposed _ _ _ Hd _ _ _ Hin Hp). lia.
Qed.

(** Decisions *)
Lemma decree_agree s b b' v v' : decree s → chosen_at quorum s 1 b v → chosen_at quorum s 1 b' v' → v = v'.
Proof. intros Hs. apply (inv_agreement quorum). apply Hs. Qed.

Lemma dur_ok_learn s n d p v :
  dur_ok s n d → chosen_at quorum s 1 p v → dur_ok s n (set_learned (mkLearnedDecision p v) d).
Proof. intros [] Hc. split; simpl; try done. intros l [= <-]. done. Qed.

(** A majority of [Accepted]s decides. *)
Lemma accepted_chosen s n d (st : ProposalState (V := V)) v :
  active_ok s n d st → ps_accept_phase_started st = true → ps_chosen_value st = Some v →
  quorum_size ids ≤ Z.of_nat (size (ps_accepted_by st)) →
  ps_accepted_by st ⊆ list_to_set ids ∧ (∀ a, a ∈ ps_accepted_by st → (1, ps_proposal st, a, v) ∈ s.(votes))
  ∧ chosen_at quorum s 1 (ps_proposal st) v.
Proof.
  intros Hact Hst Hv Hsize. pose proof (ao_started _ _ _ _ Hact) as Ha. rewrite Hst in Ha.
  destruct Ha as (v' & Hv' & _ & Hacc). simplify_eq.
  assert (ps_accepted_by st ⊆ list_to_set ids) as Hsub.
  { intros a Hin. apply elem_of_list_to_set. by apply Hacc. }
  split_and!; [done|by intros; apply Hacc|]. exists (ps_accepted_by st). split; [by split|].
  intros a Hin. by apply Hacc.
Qed.

(** What a majority of the histories hold is chosen. *)
Lemma held_chosen s (D : string → PaxosDurable (V := V)) p v :
  (∀ n, dur_ok s n (D n)) →
  (∃ Q, quorum Q ∧ ∀ a, a ∈ Q → mkAcceptedValue p v ∈ (D a).(d_accept_history)) ↔ chosen_at quorum s 1 p v.
Proof.
  intros HD. split; intros (Q & HQ & Hv); exists Q; (split; [done|]); intros a Ha.
  - apply (do_votes _ _ _ (HD a)). auto.
  - by apply (do_votes _ _ _ (HD a) 1), Hv.
Qed.
End decree.
