(* ===== verification/PaxosRefine.v ===== *)
(** * PaxosRefine: [paxos.py] refines the consensus specification

    Every handler of [PaxosNode] takes only steps of [Consensus.step] (on slot
    1), so the decree has at most one chosen value; and none of the checks
    that raise [PaxosSafetyViolation] ever fires. *)

From stdpp Require Import relations.
From S2P Require Import Prelude Simulator SimFacts Quorum Consensus Paxos Decree.

Section refinement.
Context {V : Type} `{EqDecision V}.
Implicit Types (w : World (PaxosSig (V := V))) (s : State V) (n : string).

Section with_ids.
(** The cluster's nodes, those that have registered their callbacks, and what
    callers propose. *)
Context (ids reg : list string) (P : V → Prop).
Local Abbreviation quorum := (majority ids).
Local Abbreviation decree := (decree ids).
Local Abbreviation dur_ok := (dur_ok ids).
Local Abbreviation active_ok := (active_ok ids).

Definition msg_ok s (p : PaxosPayload (V := V)) : Prop :=
  match p with
  | PPrepare m => m.(prep_proposer_id) ∈ ids
  | PPromise m => m.(prom_acceptor_id) ∈ ids
      ∧ (m.(prom_proposal), m.(prom_acceptor_id), report_of m.(prom_accepted)) ∈ s.(reports)
  | PAcceptRequest m => m.(ar_proposer_id) ∈ ids ∧ (1, m.(ar_proposal), m.(ar_value)) ∈ s.(proposed)
  | PAccepted m => m.(acc_acceptor_id) ∈ ids
      ∧ (1, m.(acc_proposal), m.(acc_acceptor_id), m.(acc_value)) ∈ s.(votes)
  | PLearn m => chosen_at quorum s 1 m.(learn_proposal) m.(learn_value)
  | POther _ => False
  end.

Definition queue_ok s (q : list (ScheduledDelivery (PaxosSig (V := V)))) : Prop :=
  ∀ x, x ∈ q → msg_ok s x.(sd_message).(payload)
    ∧ x.(sd_message).(dst) ∈ ids ∧ x.(sd_message).(delivery_dst) = None.

Record R w s : Prop := {
  R_ids : w.(objs).(node_ids) = ids;
  R_decree : decree s;
  R_dur n : dur_ok s n (dur w n);
  R_queue : queue_ok s w.(sim).(queue);
  R_active n st : proposal_of w n = Some st → active_ok s n (dur w n) st;
  R_original n st : proposal_of w n = Some st → P st.(ps_original_value);
  R_values slot b v : (slot, b, v) ∈ s.(proposed) → P v;
  R_chosen l : w.(objs).(chosen) = Some l →
    chosen_at quorum s 1 l.(ld_proposal) l.(ld_value);
  R_handlers e h : w.(sim).(handlers) !! e = Some h → h ∈ ids;
  R_crash e h : w.(sim).(crash_handlers) !! e = Some h → h ∈ ids;
  R_restart e h : w.(sim).(restart_handlers) !! e = Some h → h ∈ ids;
  R_reg e : e ∈ reg → is_Some (w.(sim).(handlers) !! e);
}.

(** ** Monotonicity along abstract steps *)

Lemma steps_msg_ok s s' p : rtc (step quorum) s s' → msg_ok s p → msg_ok s' p.
Proof.
  intros Hs. destruct p; simpl; [done| | | | |done];
    naive_solver eauto using steps_proposed, steps_votes, steps_reports, steps_chosen.
Qed.

Lemma steps_queue_ok s s' q : rtc (step quorum) s s' → queue_ok s q → queue_ok s' q.
Proof.
  intros Hs Hq x Hx. destruct (Hq x Hx) as [? ?]. split; [by eapply steps_msg_ok|done].
Qed.

Lemma peers_ids w s n : R w s → peers w n ⊆ ids.
Proof. intros HR x. unfold peers. rewrite (R_ids _ _ HR), list_elem_of_filter. naive_solver. Qed.

(** ** The post-condition shared by every handler *)

Definition good s w : Prop := ∃ s', rtc (step quorum) s s' ∧ R w s'.

(** The exceptions a computation may raise.  The handlers are shown not to
    raise at all. *)
Context (ok : exn → Prop).

Definition safe {A} s (m : M (World (PaxosSig (V := V))) A) w : Prop :=
  wp m (λ w' _, good s w') (λ w' e, good s w' ∧ ok e) w.

Lemma good_refl s w : R w s → good s w.
Proof. intros HR. exists s. split; [done|]. exact HR. Qed.

Lemma safe_steps {A} s s' (m : M _ A) w :
  rtc (step quorum) s s' → safe s' m w → safe s m w.
Proof.
  intros Hs Hm. eapply wp_mono; [exact Hm| |].
  - intros w' _ (s2 & ? & ?). exists s2. split; [by etrans|done].
  - intros w' e [(s2 & ? & ?) ?]. split; [|done]. exists s2. split; [by etrans|done].
Qed.

(** Sequencing: the continuation starts from some later abstract state. *)
Lemma safe_bind {A B} s (m : M _ A) (k : A → M _ B) w :
  safe s m w → (∀ s' w' a, rtc (step quorum) s s' → R w' s' → safe s' (k a) w') →
  safe s (bind m k) w.
Proof.
  intros Hm Hk. apply wp_bind. eapply wp_mono; [exact Hm| |done].
  intros w' a (s' & Hs & HR). eapply safe_steps; [exact Hs|]. by apply Hk.
Qed.

Lemma R_ext new w w' s :
  sim_ext new w w' → queue_ok s new → R w s → R w' s.
Proof.
  intros He Hnew HR.
  assert (∀ n, dur w' n = dur w n) as Hd by (intros n; exact (sim_ext_durable _ _ _ n He)).
  assert (w'.(objs) = w.(objs)) as Ho by apply He.
  assert (∀ n, proposal_of w' n = proposal_of w n) as Hp by (intros n; unfold proposal_of; by rewrite Ho).
  split; try (rewrite Ho; apply HR); try apply HR.
  - intros n. rewrite Hd. apply HR.
  - intros x. rewrite (se_queue _ _ _ He), elem_of_app. intros [?|?]; [by apply Hnew|by eapply R_queue].
  - intros n st. rewrite Hp, Hd. apply HR.
  - intros n st. rewrite Hp. apply HR.
  - rewrite (se_handlers _ _ _ He). apply HR.
  - rewrite (se_crash _ _ _ He). apply HR.
  - rewrite (se_restart _ _ _ He). apply HR.
  - rewrite (se_handlers _ _ _ He). apply HR.
Qed.

Lemma safe_record s r w : R w s → safe s (trace_rec r) w.
Proof.
  intros HR. apply wp_record. intros w' He _ _. apply good_refl.
  eapply R_ext; [exact He| |exact HR]. intros x []%elem_of_nil.
Qed.

Lemma safe_send s sr d p w : msg_ok s p → d ∈ ids → R w s → safe s (net_send sr d p) w.
Proof.
  intros Hp Hd HR. apply wp_send; [lia|]. intros w' new He Hnew _. apply good_refl.
  eapply R_ext; [exact He| |exact HR].
  intros x Hx. rewrite Forall_forall in Hnew.
  destruct (Hnew x Hx) as (_ & -> & -> & ->). done.
Qed.

Lemma safe_broadcast s n p l w :
  msg_ok s p → l ⊆ ids → R w s → safe s (for_each l (λ peer, net_send n peer p)) w.
Proof.
  intros Hp Hl HR. eapply wp_mono;
    [apply (wp_for_each _ _ (λ w', R w' s) (λ w' e, good s w' ∧ ok e))
    |intros; by apply good_refl|done]; [exact HR|].
  intros peer w' Hpeer HR'.
  apply wp_send; [lia|].
  intros w'' new He Hnew _. eapply R_ext; [exact He| |exact HR'].
  intros x Hx. rewrite Forall_forall in Hnew. destruct (Hnew x Hx) as (_ & -> & -> & ->). auto.
Qed.

(** Writing one durable dictionary, or the proposal in progress of one node. *)
Lemma R_dur_ext n d w w' s s' :
  dur_ext n d w w' → R w s → rtc (step quorum) s s' → s'.(proposed) = s.(proposed) →
  dur_ok s' n d → (∀ n', n' ≠ n → dur_ok s' n' (dur w n')) →
  (dur w n).(d_last_proposal_round) ≤ d.(d_last_proposal_round) → R w' s'.
Proof.
  intros He HR Hs Hp Hd Hother Hlast.
  assert (w'.(objs) = w.(objs)) as Ho by apply He.
  assert (∀ n', n' ≠ n → dur w' n' = dur w n') as Hne by (intros; by apply (de_other _ _ _ _ He)).
  assert (dur w' n = d) as Heq by apply (de_at _ _ _ _ He).
  split; try (rewrite Ho; apply HR); try done.
  - by eapply decree_same, Hp; [apply HR|].
  - intros n'. destruct (decide (n' = n)) as [->|?]; [by rewrite Heq|rewrite Hne; auto].
  - rewrite (de_queue _ _ _ _ He). eapply steps_queue_ok; [exact Hs|apply HR].
  - intros n' st. unfold proposal_of. rewrite Ho. intros Hst. eapply active_ok_mono; [exact Hs|done| |by eapply R_active].
    destruct (decide (n' = n)) as [->|?]; [by rewrite Heq|by rewrite Hne].
  - intros n' st. unfold proposal_of. rewrite Ho. apply HR.
  - rewrite Hp. apply HR.
  - rewrite Ho. intros l Hl. eapply steps_chosen; [exact Hs|]. by eapply R_chosen.
  - rewrite (de_handlers _ _ _ _ He). apply HR.
  - rewrite (de_crash _ _ _ _ He). apply HR.
  - rewrite (de_restart _ _ _ _ He). apply HR.
  - rewrite (de_handlers _ _ _ _ He). apply HR.
Qed.

Lemma R_set_active w s (m : gmap string (ProposalState (V := V))) :
  R w s →
  (∀ n st, m !! n = Some st → active_ok s n (dur w n) st ∧ P st.(ps_original_value)) →
  R (mkWorld (Σ := PaxosSig) w.(sim) (set_active m w.(objs))) s.
Proof. intros HR Hm. split; try apply HR; intros n st Hst; apply (Hm n st Hst). Qed.

Lemma safe_clear_proposal n w s : R w s → safe s (clear_proposal n) w.
Proof.
  intros HR. apply good_refl. apply R_set_active; [done|].
  intros n' st [_ Hst]%lookup_delete_Some. split; [by eapply R_active|by eapply R_original].
Qed.

Lemma R_set_proposal n st w s :
  R w s → active_ok s n (dur w n) st → P st.(ps_original_value) →
  R (mkWorld (Σ := PaxosSig) w.(sim)
       (set_active (<[n := st]> w.(objs).(active)) w.(objs))) s.
Proof.
  intros HR Hst HP. apply R_set_active; [done|].
  intros n' st' [[-> <-]|[_ ?]]%lookup_insert_Some; [done|]. split; [by eapply R_active|by eapply R_original].
Qed.

Lemma safe_set_proposal n st w s :
  R w s → active_ok s n (dur w n) st → P st.(ps_original_value) → safe s (set_proposal n st) w.
Proof. intros. by apply good_refl, R_set_proposal. Qed.

(** Chosen values agree. *)
Lemma R_agree w s b b' v v' :
  R w s → chosen_at quorum s 1 b v → chosen_at quorum s 1 b' v' → v = v'.
Proof. intros HR. apply (decree_agree ids). apply HR. Qed.

(** What acceptors hold and what is chosen was proposed. *)
Lemma vote_value w s a b v : R w s → (1, b, a, v) ∈ s.(votes) → P v.
Proof. intros HR Hv. eapply R_values, vote_proposed, Hv; [exact HR|apply HR]. Qed.

Lemma accepted_value w s n b v :
  R w s → mkAcceptedValue b v ∈ d_accept_history (dur w n) → P v.
Proof.
  intros HR Hv. eapply vote_value; [exact HR|].
  apply (do_votes _ _ _ _ (R_dur _ _ HR n)). done.
Qed.

Lemma chosen_value w s b v : R w s → chosen_at quorum s 1 b v → P v.
Proof.
  intros HR (Q & HQ & Hv). destruct (quorum_inhabited quorum Q HQ) as [a Ha].
  eapply vote_value; [exact HR|]. by apply Hv.
Qed.

Lemma safe_receive_learn n (m : Learn (V := V)) w s :
  R w s → chosen_at quorum s 1 m.(learn_proposal) m.(learn_value) →
  safe s (receive_learn n m) w.
Proof.
  intros HR Hc. unfold receive_learn. apply wp_bind, wp_gets.
  destruct (d_learned (dur w n)) as [l|] eqn:El.
  - pose proof (do_learned _ _ _ _ (R_dur _ _ HR n) _ El) as Hl.
    rewrite bool_decide_eq_true_2 by (by eapply R_agree).
    by apply good_refl.
  - eapply safe_bind; [|intros; by apply safe_record].
    apply wp_persist. intros w' He. apply good_refl.
    eapply R_dur_ext; [exact He|exact HR|done|done| |intros; apply HR|done].
    apply dur_ok_learn; [apply HR|done].
Qed.

Lemma safe_record_chosen p v (accs : gset string) w s :
  R w s → accs ⊆ list_to_set ids → (∀ a, a ∈ accs → (1, p, a, v) ∈ s.(votes)) →
  quorum_size ids ≤ Z.of_nat (size accs) →
  safe s (record_chosen p v accs) w.
Proof.
  intros HR Hsub Hvotes Hsize.
  assert (chosen_at quorum s 1 p v) as Hc by (exists accs; by repeat split).
  unfold record_chosen. apply wp_bind, wp_gets. unfold cluster_size. rewrite (R_ids _ _ HR).
  apply wp_bind, wp_raise_if; [intros ?%Z.ltb_lt; lia|intros _].
  apply wp_bind, wp_gets.
  destruct (w.(objs).(chosen)) as [l|] eqn:El.
  - rewrite bool_decide_eq_true_2 by (eapply R_agree; [done|by eapply R_chosen|done]).
    by apply good_refl.
  - eapply safe_bind; [|intros; by apply safe_record].
    apply good_refl. split; try apply HR. simpl. by intros ? [= <-].
Qed.

Lemma safe_receive_accepted n (r : Accepted (V := V)) w s :
  R w s → r.(acc_acceptor_id) ∈ ids →
  (1, r.(acc_proposal), r.(acc_acceptor_id), r.(acc_value)) ∈ s.(votes) →
  safe s (receive_accepted n r) w.
Proof.
  intros HR Ha Hvote. unfold receive_accepted. apply wp_bind, wp_gets.
  destruct (proposal_of w n) as [st|] eqn:Est; [|by apply safe_record].
  case_bool_decide as Hp; simpl; [|by apply safe_record].
  destruct (ps_accept_phase_started st) eqn:Hst; simpl; [|by apply safe_record].
  pose proof (R_active _ _ HR _ _ Est) as Hact.
  pose proof (ao_started _ _ _ _ _ Hact) as Hstarted. rewrite Hst in Hstarted.
  destruct Hstarted as (v & Hv & Hprop & Hacc).
  assert (r.(acc_value) = v) as Hrv.
  { eapply (dc_unique _ _ (R_decree _ _ HR)); [|exact Hprop]. rewrite <-Hp. by eapply vote_proposed, Hvote; apply HR. }
  apply wp_bind, wp_raise_if; [|intros _].
  { unfold changed_value. rewrite Hv, Hrv, bool_decide_eq_true_2; done. }
  rewrite Hp in Hvote.
  assert (active_ok s n (dur w n) (add_accepted_by (acc_acceptor_id r) st)) as Hact'.
  { eapply active_ok_accept; [done..|by rewrite <-Hrv]. }
  eapply safe_bind; [apply safe_set_proposal; [done..|exact (R_original _ _ HR _ _ Est)]|]. intros s1 w1 _ Hs1 HR1.
  apply wp_bind, wp_gets. unfold cluster_size. rewrite (R_ids _ _ HR1).
  destruct (_ <? quorum_size ids) eqn:Hsize; [by apply good_refl|].
  apply Z.ltb_ge in Hsize.
  destruct (accepted_chosen ids s n (dur w n) _ (acc_value r) Hact') as (Hsub & Hall & Hc);
    [done|by rewrite Hrv|done|].
  apply (steps_chosen _ s s1) in Hc; [|done].
  assert (∀ a, a ∈ ps_accepted_by (add_accepted_by (acc_acceptor_id r) st) →
    (1, ps_proposal st, a, acc_value r) ∈ s1.(votes)) as Hall1 by eauto using steps_votes.
  eapply safe_bind; [by apply safe_record_chosen|]. intros s2 w2 _ Hs2 HR2.
  eapply safe_bind.
  { apply safe_receive_learn; [done|]. simpl. by eapply steps_chosen. }
  intros s3 w3 _ Hs3 HR3. apply wp_bind, wp_gets.
  eapply safe_bind; [|intros; by apply safe_clear_proposal].
  apply safe_broadcast; [|by apply (peers_ids _ s3)|done]. simpl.
  eapply steps_chosen; [exact Hs3|]. by eapply steps_chosen.
Qed.

Lemma R_vote w w' s n b v :
  R w s → (1, b, v) ∈ s.(proposed) → may_act s n b →
  dur_ext (Σ := PaxosSig) n (accept_dur (mkAcceptedValue b v) (dur w n)) w w' →
  R w' (vote_state s n b v).
Proof.
  intros HR Hprop Hmay He.
  eapply R_dur_ext; [exact He|exact HR|by eapply vote_step; [apply HR| |]|done|by apply dur_ok_vote; [apply HR..|]| |done].
  intros n' Hne. apply vote_others; [apply HR|done..|apply HR].
Qed.

(** What [receive_accept_request] does once the vote is durable. *)
Lemma safe_answer_accept n (r : AcceptRequest (V := V)) w w' s :
  R w s → n ∈ ids → ar_proposer_id r ∈ ids →
  (1, r.(ar_proposal), r.(ar_value)) ∈ s.(proposed) →
  may_act s n r.(ar_proposal) →
  dur_ext (Σ := PaxosSig) n
    (accept_dur (mkAcceptedValue r.(ar_proposal) r.(ar_value)) (dur w n)) w w' →
  safe s (trace_rec (RAccepted n (ar_proposer_id r) (ar_proposal r) (ar_value r)) ;;
    (if (ar_proposer_id r =? n)%string
     then receive_accepted n (mkAccepted (ar_proposal r) n (ar_value r))
     else net_send n (ar_proposer_id r) (PAccepted (mkAccepted (ar_proposal r) n (ar_value r))))) w'.
Proof.
  intros HR Hn Hr Hprop Hmay He.
  eapply safe_steps; [by eapply vote_step, Hmay; [apply HR|]|].
  eapply safe_bind; [by eapply safe_record, R_vote|]. intros s4 w4 _ Hs4 HR4.
  assert ((1, ar_proposal r, n, ar_value r) ∈ s4.(votes)).
  { eapply steps_votes; [exact Hs4|]. simpl. by left. }
  destruct (ar_proposer_id r =? n)%string; [by apply safe_receive_accepted|by apply safe_send].
Qed.

Lemma safe_receive_accept_request n (r : AcceptRequest (V := V)) w s :
  R w s → n ∈ ids → ar_proposer_id r ∈ ids →
  (1, r.(ar_proposal), r.(ar_value)) ∈ s.(proposed) →
  safe s (receive_accept_request n r) w.
Proof.
  intros HR Hn Hr Hprop. unfold receive_accept_request. apply wp_bind, wp_gets.
  set (accept := raise_if _ _ _ ;; _).
  enough (may_act s n (ar_proposal r) → safe s accept w) as Haccept.
  { pose proof (promised_may_act ids s n (dur w n) (ar_proposal r) (R_dur _ _ HR n)) as Hp.
    destruct (d_promised (dur w n)) as [p|]; [|by apply Haccept, Hp].
    destruct (pn_ltb (ar_proposal r) p); [by apply safe_record|by apply Haccept, Hp]. }
  intros Hmay. subst accept. apply wp_bind, wp_raise_if.
  { destruct (d_accepted (dur w n)) as [a|] eqn:Ea; [|done].
    intros [Hpa Hva]%andb_true_iff. apply bool_decide_eq_true in Hpa.
    apply negb_true_iff, bool_decide_eq_false in Hva. exfalso. apply Hva.
    eapply (same_ballot_same_value ids s n (dur w n)); [apply HR|apply HR|exact Hprop| |exact Hpa].
    by eapply current_in_history; [apply (R_dur _ _ HR n)|]. }
  intros _. cbv zeta. set (a := mkAcceptedValue (ar_proposal r) (ar_value r)).
  apply wp_bind, wp_persist. intros w1 He1.
  apply wp_bind, wp_persist. intros w2 He2. rewrite (de_at _ _ _ _ He1) in He2.
  pose proof (dur_ext_trans _ _ _ _ _ _ He1 He2) as He. clear He1 He2 w1.
  apply wp_bind, wp_when; intros Hin.
  - apply negb_true_iff in Hin.
    apply wp_persist. intros w3 He3. rewrite (de_at _ _ _ _ He) in He3.
    eapply safe_answer_accept; [done..|]. unfold accept_dur. fold a. rewrite Hin.
    exact (dur_ext_trans _ _ _ _ _ _ He He3).
  - apply negb_false_iff in Hin.
    eapply safe_answer_accept; [done..|]. unfold accept_dur. fold a. rewrite Hin. exact He.
Qed.

(** ** Phase 1: collecting promises and choosing the value *)

Lemma R_propose w s n (st : ProposalState (V := V)) v :
  R w s → active_ok s n (dur w n) st → ps_accept_phase_started st = false → P st.(ps_original_value) → P v →
  rtc (step quorum) s (propose_state s (ps_proposal st) v) →
  R (mkWorld (Σ := PaxosSig) w.(sim)
       (set_active (<[n := start_accept_phase v st]> w.(objs).(active)) w.(objs)))
    (propose_state s (ps_proposal st) v).
Proof.
  intros HR Hact Hst Ho Hv Hs.
  split; try apply HR.
  - apply decree_propose; [apply HR|done|]. by eapply active_ok_unstarted.
  - intros n'. apply dur_ok_propose; [apply HR|]. rewrite (ao_owner _ _ _ _ _ Hact). intros <-. apply Hact.
  - eapply steps_queue_ok; [exact Hs|apply HR].
  - unfold proposal_of. cbn [objs active set_active].
    intros n' st' [[-> <-]|[Hne Hst']]%lookup_insert_Some; [by apply active_ok_start|].
    eapply active_ok_other_owner; [done|exact Hs| |exact (R_active _ _ HR _ _ Hst')].
    rewrite (ao_owner _ _ _ _ _ Hact). congruence.
  - unfold proposal_of. cbn [objs active set_active].
    intros n' st' [[-> <-]|[_ Hst']]%lookup_insert_Some; [done|by eapply R_original].
  - intros slot b x [[= -> -> ->]|Hx]%elem_of_cons; [done|by eapply R_values].
Qed.

Lemma safe_accept_phase n (st : ProposalState (V := V)) v w s :
  R w s → n ∈ ids → proposer_id (ps_proposal st) = n →
  (1, ps_proposal st, v) ∈ s.(proposed) →
  safe s (
    trace_rec (RAcceptPhaseStart n (ps_proposal st) v (sorted_str (fst <$> ps_promises st))) ;;
    let! request := lift (new_AcceptRequest (ps_proposal st) n v) in
    receive_accept_request n request ;;
    let! ps := gets (λ w, peers w n) in
    for_each ps (λ peer, net_send n peer (PAcceptRequest request))) w.
Proof.
  intros HR Hn Howner Hp.
  eapply safe_bind; [by apply safe_record|]. intros s1 w1 _ Hs1 HR1.
  unfold new_AcceptRequest. rewrite Howner, String.eqb_refl. simpl.
  apply wp_bind, wp_lift.
  assert ((1, ps_proposal st, v) ∈ s1.(proposed)) by by eapply steps_proposed.
  eapply safe_bind; [by apply safe_receive_accept_request|].
  intros s2 w2 _ Hs2 HR2. apply wp_bind, wp_gets.
  apply safe_broadcast; [|by apply (peers_ids _ s2)|done]. simpl. split; [done|]. by eapply steps_proposed.
Qed.

Lemma safe_receive_promise n (r : Promise (V := V)) w s :
  R w s → n ∈ ids → r.(prom_acceptor_id) ∈ ids →
  (r.(prom_proposal), r.(prom_acceptor_id), report_of r.(prom_accepted)) ∈ s.(reports) →
  safe s (receive_promise n r) w.
Proof.
  intros HR Hn Ha Hrep. unfold receive_promise. apply wp_bind, wp_gets.
  destruct (proposal_of w n) as [st|] eqn:Est; [|by apply safe_record].
  case_bool_decide as Hp; simpl; [|by apply safe_record].
  pose proof (R_active _ _ HR _ _ Est) as Hact. rewrite Hp in Hrep.
  apply wp_bind, wp_gets. rewrite (R_ids _ _ HR).
  apply wp_bind, wp_raise_if; [rewrite bool_decide_eq_true_2 by done; done|intros _].
  pose proof (active_ok_promise _ _ _ _ _ _ Hact Ha Hrep) as Hact'.
  set (st' := set_promises _ st) in *. cbv zeta.
  apply wp_bind, wp_modify. apply wp_bind, wp_gets.
  unfold cluster_size. cbn [objs node_ids set_active]. rewrite (R_ids _ _ HR).
  set (w1 := mkWorld _ _). pose proof (R_original _ _ HR _ _ Est) as HP. assert (R w1 s) as HR1 by by apply R_set_proposal.
  destruct (_ || _) eqn:Hwait; [by apply good_refl|].
  apply orb_false_iff in Hwait as [Hst Hsize%Z.ltb_ge].
  destruct (choose_value_ok ids s n (dur w n) st') as (v & Hv & Hs & Hfrom); [apply HR|done..|].
  change (safe s (
    let! v := lift (choose_value st') in
    set_proposal n (start_accept_phase v st') ;;
    (trace_rec (RAcceptPhaseStart n (ps_proposal st') v (sorted_str (fst <$> ps_promises st'))) ;;
    let! request := lift (new_AcceptRequest (ps_proposal st') n v) in
    receive_accept_request n request ;;
    let! ps := gets (λ w, peers w n) in
    for_each ps (λ peer, net_send n peer (PAcceptRequest request)))) w1).
  apply wp_bind, wp_lift. rewrite Hv. apply wp_bind, wp_modify.
  eapply safe_steps; [exact Hs|]. apply safe_accept_phase; [|done|apply Hact'|by left].
  apply R_propose; [done..| |done]. destruct Hfrom as [->|[b Hb]]; [done|by eapply R_values].
Qed.

Lemma R_promise w w' s n b :
  R w s → may_act s n b →
  dur_ext (Σ := PaxosSig) n (set_promised b (dur w n)) w w' →
  R w' (promise_state s n b (report_of (d_accepted (dur w n)))).
Proof.
  intros HR Hmay He.
  eapply R_dur_ext; [exact He|exact HR|by apply (promise_step ids); [apply HR|]|done|by apply dur_ok_promised, HR| |done].
  intros n' Hne. by apply promise_others; [apply HR..| | |apply HR].
Qed.

Lemma dur_ext_same w n b :
  d_promised (dur w n) = Some b → dur_ext (Σ := PaxosSig) n (set_promised b (dur w n)) w w.
Proof.
  intros Hb. constructor; try done. unfold set_promised. rewrite <-Hb.
  unfold dur. by destruct (durable w n).
Qed.

Lemma safe_answer_prepare n (r : Prepare) w w' s :
  R w s → n ∈ ids → prep_proposer_id r ∈ ids → may_act s n r.(prep_proposal) →
  dur_ext (Σ := PaxosSig) n (set_promised r.(prep_proposal) (dur w n)) w w' →
  safe s (
    trace_rec (RPromise n r.(prep_proposer_id) r.(prep_proposal) (dur w n).(d_accepted)) ;;
    (if (r.(prep_proposer_id) =? n)%string
     then receive_promise n (mkPromise r.(prep_proposal) n (dur w n).(d_accepted))
     else net_send n r.(prep_proposer_id)
            (PPromise (mkPromise r.(prep_proposal) n (dur w n).(d_accepted))))) w'.
Proof.
  intros HR Hn Hr Hmay He. eapply safe_steps; [by apply (promise_step ids), Hmay; apply HR|].
  eapply safe_bind; [by eapply safe_record, R_promise|]. intros s1 w1 _ Hs1 HR1.
  assert ((prep_proposal r, n, report_of (d_accepted (dur w n))) ∈ s1.(reports)).
  { eapply steps_reports; [exact Hs1|]. simpl. by left. }
  destruct (prep_proposer_id r =? n)%string; [by apply safe_receive_promise|by apply safe_send].
Qed.

Lemma safe_receive_prepare n (r : Prepare) w s :
  R w s → n ∈ ids → prep_proposer_id r ∈ ids → safe s (receive_prepare n r) w.
Proof.
  intros HR Hn Hr. unfold receive_prepare. apply wp_bind, wp_gets.
  set (answer := when _ _ ;; _).
  enough (may_act s n (prep_proposal r) → safe s answer w) as Hanswer.
  { pose proof (promised_may_act ids s n (dur w n) (prep_proposal r) (R_dur _ _ HR n)) as Hp.
    destruct (d_promised (dur w n)) as [p|]; [|by apply Hanswer, Hp].
    destruct (pn_ltb (prep_proposal r) p); [by apply safe_record|by apply Hanswer, Hp]. }
  intros Hmay. subst answer. apply wp_bind, wp_when; intros Hb.
  - apply wp_persist. intros w1 He. by apply safe_answer_prepare.
  - apply safe_answer_prepare; [done..|]. apply dur_ext_same.
    by eapply promised_again; [apply (R_dur _ _ HR n)|..].
Qed.

(** ** Starting a proposal *)

Lemma R_last_round w w' s n r :
  R w s → d_last_proposal_round (dur w n) ≤ r →
  dur_ext (Σ := PaxosSig) n (set_last_round r (dur w n)) w w' → R w' s.
Proof.
  intros HR Hr He. eapply R_dur_ext; [exact He|exact HR|done|done| |intros; apply HR|done].
  by apply dur_ok_last_round; [apply HR|].
Qed.

(** What [start_proposal] raises it raises before it has changed anything,
    or in one of the handlers it runs. *)
Lemma wp_start_proposal n v r w s :
  R w s → n ∈ ids → P v →
  wp (start_proposal n v r) (λ w' _, good s w')
    (λ w' e, w' = w ∧ exn_cls e ∈ [ValueError; PaxosError; PaxosProposalActive] ∨ good s w' ∧ ok e) w.
Proof.
  intros HR Hn HP. unfold start_proposal. apply wp_bind, wp_gets.
  apply wp_bind, wp_raise_if; intros _; [left; split; [done|set_solver]|].
  apply wp_bind, wp_gets, wp_bind, wp_raise_if; intros _; [left; split; [done|set_solver]|].
  apply wp_bind, wp_gets. set (rn := default _ r).
  apply wp_bind, wp_raise_if; intros Hround; [left; split; [done|set_solver]|].
  apply Z.leb_gt in Hround. apply wp_bind, wp_lift.
  destruct (new_ProposalNumber rn n) as [e|p] eqn:Ep.
  { left. split; [done|]. rewrite (new_ProposalNumber_error _ _ _ Ep). set_solver. }
  apply new_ProposalNumber_ok in Ep as [-> _].
  apply wp_bind, wp_persist. intros w1 He.
  assert (R w1 s) as HR1 by (eapply R_last_round; [done| |done]; lia).
  apply wp_bind, wp_modify. set (st := mkProposalState _ _ _ _ _ _).
  set (w2 := mkWorld _ _).
  assert (R w2 s) as HR2.
  { apply R_set_proposal; [done| |done]. eapply active_ok_fresh; [apply (R_dur _ _ HR n)|done|simpl; lia|].
    unfold dur. by rewrite (de_at _ _ _ _ He). }
  eapply (wp_mono _ (λ w' _, good s w') _ (λ w' e, good s w' ∧ ok e)); [|done|by right].
  change (safe s (trace_rec (RProposalStart n (mkProposalNumber rn n) v) ;;
    let! prepare := lift (new_Prepare (mkProposalNumber rn n) n) in
    receive_prepare n prepare ;;
    let! ps := gets (λ w, peers w n) in
    for_each ps (λ peer, net_send n peer (PPrepare prepare)) ;;
    ret (mkProposalNumber rn n)) w2).
  eapply safe_bind; [by apply safe_record|]. intros s3 w3 _ _ HR3.
  unfold new_Prepare. simpl. rewrite String.eqb_refl. simpl. apply wp_bind, wp_lift.
  eapply safe_bind; [by apply safe_receive_prepare|]. intros s4 w4 _ _ HR4.
  apply wp_bind, wp_gets.
  eapply safe_bind; [apply safe_broadcast; [done|by apply (peers_ids _ s4)|done]|]. intros s5 w5 _ _ HR5. by apply good_refl.
Qed.

Lemma safe_start_proposal n v r w s :
  (∀ e, exn_cls e ∈ [ValueError; PaxosError; PaxosProposalActive] → ok e) →
  R w s → n ∈ ids → P v → safe s (start_proposal n v r) w.
Proof.
  intros Hok HR Hn HP. eapply wp_mono; [by apply (wp_start_proposal n v r w s)|done|].
  intros w' e [[-> He]|He]; [|done]. split; [by apply good_refl|by apply Hok].
Qed.

(** ** Delivery, crash and restart *)

Lemma safe_handle_message n (m : Message (PaxosSig (V := V))) w s :
  R w s → n ∈ ids → msg_ok s m.(payload) → safe s (handle_message n m) w.
Proof.
  intros HR Hn Hm. unfold handle_message. destruct (negb _); [by apply safe_record|].
  destruct (payload m) as [p|p|p|p|p|ty]; simpl in Hm; [..|done];
    (destruct (negb _); [by apply safe_record|]).
  - by apply safe_receive_prepare.
  - destruct Hm. by apply safe_receive_promise.
  - destruct Hm. by apply safe_receive_accept_request.
  - destruct Hm. by apply safe_receive_accepted.
  - by apply safe_receive_learn.
Qed.

Lemma history_consistent_true (h : list (AcceptedValue (V := V))) m :
  (∀ i v, i ∈ h → m !! av_proposal i = Some v → v = av_value i) →
  (∀ i j, i ∈ h → j ∈ h → av_proposal i = av_proposal j → av_value i = av_value j) →
  history_consistent m h = true.
Proof.
  revert m. induction h as [|i h IH]; intros m Hm Hh; simpl; [done|].
  assert (history_consistent (<[av_proposal i:=av_value i]> m) h = true).
  { apply IH.
    - intros j v Hj [[Hij <-]|[_ Hv]]%lookup_insert_Some.
      + apply Hh; [by left|by right|done].
      + by apply Hm; [right|].
    - intros j k Hj Hk. by apply Hh; right. }
  destruct (m !! av_proposal i) as [v|] eqn:Ev; [|done].
  rewrite (Hm i v); [|by left|done]. by rewrite bool_decide_eq_true_2.
Qed.

(** The durable state of every node passes [_validate_durable_state]. *)
Lemma wp_validate n w s (Q : _ → unit → Prop) E :
  R w s → Q w tt → wp (validate_durable_state n) Q E w.
Proof.
  intros HR HQ. pose proof (R_dur _ _ HR n) as Hd. pose proof (R_decree _ _ HR) as Hs.
  unfold validate_durable_state. apply wp_bind, wp_gets.
  apply wp_bind, wp_raise_if; [|intros _].
  { intros ?%Z.ltb_lt. pose proof (do_round _ _ _ _ Hd). lia. }
  apply wp_bind, wp_raise_if; [|intros _].
  { destruct (d_accepted (dur w n)) as [a|] eqn:Ea; [|done].
    destruct (d_promised (dur w n)) as [p|] eqn:Ep; [|done].
    by rewrite (accepted_promised ids s n (dur w n) a p). }
  apply wp_bind, wp_raise_if; [|intros _].
  { rewrite history_consistent_true; [done| |].
    - intros i v _. by rewrite lookup_empty.
    - intros i j. by apply (history_agrees ids s n (dur w n)). }
  apply wp_raise_if; [|done].
  destruct (d_accepted (dur w n)) as [a|] eqn:Ea; [|done].
  rewrite bool_decide_eq_true_2; [done|by eapply current_in_history].
Qed.

Lemma safe_handle_crash n w s : R w s → safe s (handle_crash n) w.
Proof.
  intros HR. unfold handle_crash. apply wp_bind, wp_gets.
  eapply safe_bind; [by apply safe_clear_proposal|]. intros. by apply safe_record.
Qed.

Lemma safe_handle_restart n w s : R w s → safe s (handle_restart n) w.
Proof.
  intros HR. unfold handle_restart.
  eapply safe_bind; [by apply safe_clear_proposal|]. intros s1 w1 _ _ HR1.
  apply wp_bind. eapply wp_validate; [done|]. apply wp_bind, wp_gets. by apply safe_record.
Qed.

(** Updates of the parts of the simulator that [R] does not mention. *)
Lemma R_sim w s (f : Sim (PaxosSig (V := V)) → Sim PaxosSig) :
  (f w.(sim)).(persistent_state) = w.(sim).(persistent_state) →
  (f w.(sim)).(queue) ⊆ w.(sim).(queue) →
  (f w.(sim)).(handlers) = w.(sim).(handlers) →
  (f w.(sim)).(crash_handlers) = w.(sim).(crash_handlers) →
  (f w.(sim)).(restart_handlers) = w.(sim).(restart_handlers) →
  R w s → R (mkWorld (Σ := PaxosSig) (f w.(sim)) w.(objs)) s.
Proof.
  intros Hp Hq Hh Hc Hr HR.
  assert (∀ n, dur (mkWorld (Σ := PaxosSig) (f w.(sim)) w.(objs)) n = dur w n) as Hd.
  { intros n. unfold dur, durable. simpl. by rewrite Hp. }
  split; try apply HR; simpl.
  - intros n. rewrite Hd. apply HR.
  - intros x Hx. eapply R_queue; [exact HR|]. by apply Hq.
  - intros n st. rewrite Hd. apply HR.
  - rewrite Hh. apply HR.
  - rewrite Hc. apply HR.
  - rewrite Hr. apply HR.
  - rewrite Hh. apply HR.
Qed.

Lemma safe_upd_sim w s (f : Sim (PaxosSig (V := V)) → Sim PaxosSig) :
  (∀ st, (f st).(persistent_state) = st.(persistent_state)) →
  (∀ st, (f st).(queue) = st.(queue)) →
  (∀ st, (f st).(handlers) = st.(handlers)) →
  (∀ st, (f st).(crash_handlers) = st.(crash_handlers)) →
  (∀ st, (f st).(restart_handlers) = st.(restart_handlers)) →
  R w s → safe s (upd_sim f) w.
Proof.
  intros Hp Hq Hh Hc Hr HR. apply wp_upd_sim, good_refl.
  apply R_sim; [done| |done..]. by rewrite Hq.
Qed.

Lemma safe_record_event (e : Event (PaxosSig (V := V))) w s : R w s → safe s (record e) w.
Proof.
  intros HR. apply wp_record. intros w' He _ _. apply good_refl.
  eapply R_ext; [exact He| |exact HR]. intros x []%elem_of_nil.
Qed.

Lemma safe_deliver x rest w s :
  ids ⊆ reg → R w s → w.(sim).(queue) = x :: rest →
  safe s (deliver_event (Σ := PaxosSig) handle_message x)
    (mkWorld (Σ := PaxosSig) (set_queue rest w.(sim)) w.(objs)).
Proof.
  intros Hreg HR Hq.
  destruct (R_queue _ _ HR x) as (Hx & Hdst & Hddst); [rewrite Hq; by left|].
  assert (R (mkWorld (Σ := PaxosSig) (set_queue rest w.(sim)) w.(objs)) s) as HR'.
  { apply (R_sim w s (set_queue rest)); try done. simpl. rewrite Hq. set_solver. }
  unfold deliver_event.
  eapply safe_bind; [by apply safe_upd_sim|]. intros s1 w1 _ Hs1 HR1.
  apply wp_bind, wp_gets. destruct (negb _); [by apply safe_record_event|].
  apply wp_bind, wp_gets. unfold endpoint. rewrite Hddst.
  destruct (R_reg _ _ HR1 (dst (sd_message x))) as [h Eh]; [by apply Hreg|]. rewrite Eh.
  eapply safe_bind; [by apply safe_record_event|]. intros s2 w2 _ Hs2 HR2.
  apply safe_handle_message; [done|by eapply (R_handlers w1)|].
  eapply steps_msg_ok; [exact Hs2|]. by eapply steps_msg_ok.
Qed.

Lemma safe_run_loop fuel k (count : Z) w s :
  ids ⊆ reg → (∀ msg, ok (Exn OutOfFuel msg)) → R w s →
  safe s (run_loop (Σ := PaxosSig) handle_message fuel k count) w.
Proof.
  intros Hreg Hok HR. apply wp_run_loop; [by split| |by apply good_refl].
  intros w1 x rest (s1 & Hs1 & HR1) Hq.
  eapply safe_steps; [exact Hs1|]. by apply safe_deliver.
Qed.

(** ** The safety harness finds nothing *)

(** The pair an acceptor's history holds *)
Definition holds (D : string → PaxosDurable (V := V)) n (k : ProposalNumber * V) : Prop :=
  mkAcceptedValue k.1 k.2 ∈ d_accept_history (D n).

Lemma add_history D n h gs :
  n ∈ ids → (∀ x, x ∈ h → x ∈ d_accept_history (D n)) → evidence_ok ids (holds D) gs →
  let gs' := foldl (λ gs a, add_acceptor n a gs) gs h in
  evidence_ok ids (holds D) gs' ∧ covers gs' n ((λ x, (av_proposal x, av_value x)) <$> h)
  ∧ (∀ m l, covers gs m l → covers gs' m l).
Proof.
  intros Hn Hh Hgs. unfold add_acceptor.
  rewrite <-(foldl_fmap (λ gs k, add_evidence n k gs) gs h (λ x, (av_proposal x, av_value x))).
  apply evidence_history; [done| |done]. intros k (x & -> & Hx)%list_elem_of_fmap.
  unfold holds. destruct x. by apply Hh.
Qed.

Definition all_covered (D : string → PaxosDurable (V := V)) (gs : list (Group (V := V))) (l : list string) : Prop :=
  ∀ n k, n ∈ l → holds D n k → ∃ accs, (k, accs) ∈ gs ∧ n ∈ accs.

Lemma wp_collect l gs w s (Q : _ → list (Group (V := V)) → Prop) E :
  R w s → (∀ n, n ∈ l → n ∈ ids) → evidence_ok ids (holds (dur w)) gs →
  (∀ gs' : list (Group (V := V)), evidence_ok ids (holds (dur w)) gs' → all_covered (dur w) gs' l →
     (∀ m k, covers gs m k → covers gs' m k) → Q w gs') →
  wp (collect_groups l gs) Q E w.
Proof.
  intros HR. revert gs. induction l as [|n l IH]; intros gs Hl Hs HQ; simpl.
  - apply wp_ret. apply HQ; [done| |done]. intros n k []%elem_of_nil.
  - apply wp_bind. eapply wp_validate; [exact HR|]. apply wp_bind, wp_gets.
    destruct (add_history (dur w) n (d_accept_history (dur w n)) gs) as (Hs' & Hc' & Hm');
      [apply Hl; by left|done|done|].
    apply IH; [intros m Hm; apply Hl; by right|done|].
    intros gs' Hgs Hcov Hmono. apply HQ; [done| |].
    + intros m k [->|Hm]%elem_of_cons Hk; [|by apply Hcov]. apply (Hmono _ _ Hc').
      apply list_elem_of_fmap. exists (mkAcceptedValue k.1 k.2). split; [by destruct k|done].
    + intros m k Hk. by apply Hmono, Hm'.
Qed.

Lemma conflicting_false (gs : list (Group (V := V))) seen (Q : ProposalNumber → V → Prop) :
  (∀ b v v', Q b v → Q b v' → v = v') →
  (∀ b v, (b, v) ∈ seen → Q b v) → (∀ b v accs, (b, v, accs) ∈ gs → Q b v) →
  conflicting seen gs = false.
Proof.
  intros HP. revert seen. induction gs as [|[[p v] accs] gs IH]; intros seen Hseen Hgs; simpl; [done|].
  assert (Q p v) as Hpv by (eapply Hgs; by left).
  assert (∀ b v accs, (b, v, accs) ∈ gs → Q b v) as Hgs' by (intros b u acs Hin; eapply Hgs; by right).
  destruct (filter _ seen) as [|[q u] l] eqn:Ef.
  - apply IH; [|done]. intros b u [?|[= -> ->]%list_elem_of_singleton]%elem_of_app; [by apply Hseen|done].
  - assert ((q, u) ∈ filter (λ e, e.1 = p) seen) as Hin by (rewrite Ef; by left).
    apply list_elem_of_filter in Hin as [Hq Hin]. simpl in Hq. subst q. simpl.
    rewrite bool_decide_eq_true_2 by (by eapply HP, Hpv; apply Hseen).
    by apply IH.
Qed.

Lemma all_same_true (l : list V) :
  (∀ x y, x ∈ l → y ∈ l → x = y) → all_same l = true.
Proof.
  destruct l as [|x l]; intros Hl; simpl; [done|]. apply forallb_forall.
  intros y Hy%list_elem_of_In. apply bool_decide_eq_true. apply Hl; [by right|by left].
Qed.

(** The groups of a majority are the chosen values. *)
Lemma groups_chosen w s gs p v :
  R w s → evidence_ok ids (holds (dur w)) gs → all_covered (dur w) gs ids →
  (∃ accs, (p, v, accs) ∈ gs ∧ quorum_size ids ≤ Z.of_nat (size accs)) ↔ chosen_at quorum s 1 p v.
Proof.
  intros HR Hgs Hc. rewrite (evidence_majority ids (holds (dur w)) gs (p, v) Hgs);
    [|by intros n Hn; apply Hc].
  apply (held_chosen ids s (dur w)). apply HR.
Qed.

Lemma group_proposed w s gs p v accs :
  R w s → evidence_ok ids (holds (dur w)) gs → (p, v, accs) ∈ gs → (1, p, v) ∈ s.(proposed).
Proof.
  intros HR Hgs Hin. destruct (ev_inhabited _ _ _ Hgs _ _ Hin) as [a Ha].
  eapply vote_proposed; [apply HR|]. apply (do_votes _ _ _ _ (R_dur _ _ HR a)). split; [done|].
  by apply (ev_sound _ _ _ Hgs _ _ _ Hin).
Qed.

(** A single value [v] is chosen, and the harness's list starts with it. *)
Lemma head_chosen (l : list V) v :
  v ∈ l → (∀ x, x ∈ l → x = v) → head l = Some v.
Proof.
  destruct l as [|x l]; intros Hv Hl; [by apply elem_of_nil in Hv|].
  simpl. f_equal. apply Hl. by left.
Qed.

Lemma wp_checkpoint w s E :
  R w s → wp checkpoint (λ w' _, w' = w) E w.
Proof.
  intros HR. unfold checkpoint. do 2 apply wp_bind, wp_gets.
  unfold cluster_size. rewrite (R_ids _ _ HR).
  apply wp_bind. eapply wp_collect; [exact HR|done| |].
  { apply evidence_nil. }
  intros gs Hgs Hcov _.
  set (chosen_values := omap _ gs).
  assert (∀ x, x ∈ chosen_values → ∃ b, chosen_at quorum s 1 b x) as Hcv.
  { intros x ([[p v] accs] & Hin & Hx)%list_elem_of_omap. simpl in Hx.
    destruct (quorum_size ids <=? _) eqn:Hsz; [|done]. simplify_eq. apply Z.leb_le in Hsz.
    exists p. eapply groups_chosen; [exact HR|exact Hgs|exact Hcov|]. by exists accs. }
  assert (∀ b x, chosen_at quorum s 1 b x → head chosen_values = Some x) as Hhead.
  { intros b x Hx. apply head_chosen.
    - destruct (proj2 (groups_chosen _ _ _ _ _ HR Hgs Hcov) Hx) as (accs & Hin & Hsz).
      apply list_elem_of_omap. exists (b, x, accs). split; [done|]. simpl.
      by rewrite (proj2 (Z.leb_le _ _) Hsz).
    - intros y (b' & Hy)%Hcv. by eapply R_agree. }
  apply wp_bind, wp_raise_if; [|intros _].
  { erewrite conflicting_false; [done| | |].
    - intros b v v'. exact (dc_unique _ _ (R_decree _ _ HR) 1 b v v').
    - intros b v []%elem_of_nil.
    - intros b v accs Hin. eapply group_proposed; [exact HR|exact Hgs|exact Hin]. }
  apply wp_bind, wp_raise_if; [|intros _].
  { rewrite all_same_true; [done|]. intros x y (b & Hx)%Hcv (b' & Hy)%Hcv. by eapply R_agree. }
  apply wp_bind, wp_gets.
  set (learned := omap _ ids).
  assert (∀ x, x ∈ learned → ∃ b, chosen_at quorum s 1 b x) as Hl.
  { intros x (n & _ & Hx)%list_elem_of_omap. apply fmap_Some in Hx as (l & Hl & ->).
    eexists. by apply (do_learned _ _ _ _ (R_dur _ _ HR n)). }
  apply wp_bind, wp_raise_if; [|intros _].
  { rewrite all_same_true; [done|]. intros x y (b & Hx)%Hl (b' & Hy)%Hl. by eapply R_agree. }
  apply wp_bind, wp_raise_if; [|intros _].
  { destruct learned as [|x l]; [done|]. destruct (Hl x) as [b Hx]; [by left|].
    by rewrite (Hhead b x Hx), bool_decide_eq_true_2. }
  apply wp_bind, wp_gets.
  destruct (chosen (objs w)) as [o|] eqn:Eo; [|done].
  pose proof (R_chosen _ _ HR _ Eo) as Ho.
  apply wp_bind, wp_raise_if; [|intros _].
  { by rewrite (Hhead _ _ Ho), bool_decide_eq_true_2. }
  apply wp_raise_if; [|done].
  destruct learned as [|x l]; [done|]. destruct (Hl x) as [b Hx]; [by left|].
  rewrite bool_decide_eq_true_2; [done|]. by eapply R_agree.
Qed.

(** ** The calls *)

(** The exceptions a caller can provoke: a bad argument, a proposer that is
    down or busy, an unknown node; and the model's own [OutOfFuel]. *)
Definition call_error (e : exn) : Prop :=
  e.(exn_cls) ∈ [ValueError; PaxosError; PaxosProposalActive; KeyError; OutOfFuel].

Hypothesis Hok : ∀ e, call_error e → ok e.
Hypothesis Hreg : ids ⊆ reg.

Local Ltac raises := split; [by apply good_refl|apply Hok; unfold call_error; set_solver].

Lemma safe_run fuel k w s : R w s → safe s (paxos_run fuel k) w.
Proof.
  intros HR. unfold paxos_run, run. apply wp_bind, wp_raise_if; intros _; [raises|].
  apply safe_run_loop; [done| |done]. intros msg. apply Hok. unfold call_error. set_solver.
Qed.

Lemma safe_run_until fuel t w s : R w s → safe s (paxos_run_until fuel t) w.
Proof.
  intros HR. unfold paxos_run_until, run_until_time. apply wp_bind, wp_gets.
  apply wp_bind, wp_raise_if; intros _; [raises|].
  eapply safe_bind.
  - apply wp_run_until_loop; [| |by apply good_refl].
    { intros w1 msg Hw1. split; [done|]. apply Hok. unfold call_error. set_solver. }
    intros w1 x rest (s1 & Hs1 & HR1) Hq.
    eapply safe_steps; [exact Hs1|]. by apply safe_deliver.
  - intros s1 w1 n _ HR1. eapply safe_bind; [by apply safe_upd_sim|].
    intros s2 w2 _ _ HR2. by apply good_refl.
Qed.

(** ** Crash, restart and the network methods *)

Lemma safe_set_volatile n f w s : R w s → safe s (set_volatile (Σ := PaxosSig) n f) w.
Proof. intros HR. by apply good_refl, (R_sim w s (set_volatile_state _)). Qed.

Lemma safe_validate_node n w s : R w s → safe s (validate_node (Σ := PaxosSig (V := V)) n) w.
Proof.
  intros HR. apply wp_bind, wp_gets, wp_raise_if; intros _; [raises|by apply good_refl].
Qed.

Lemma safe_paxos_crash n w s : R w s → safe s (paxos_crash n) w.
Proof.
  intros HR. unfold paxos_crash, crash.
  eapply safe_bind; [by apply safe_validate_node|]. intros s1 w1 _ _ HR1.
  eapply safe_bind; [by apply safe_upd_sim|]. intros s2 w2 _ _ HR2.
  eapply safe_bind; [by apply safe_record_event|]. intros s3 w3 _ _ HR3.
  apply wp_bind, wp_gets. eapply safe_bind.
  - destruct (crash_handlers _ !! n) as [h|]; [by apply safe_handle_crash|by apply good_refl].
  - intros s4 w4 _ _ HR4. by apply safe_set_volatile.
Qed.

Lemma safe_paxos_restart n w s : R w s → safe s (paxos_restart n) w.
Proof.
  intros HR. unfold paxos_restart, restart.
  eapply safe_bind; [by apply safe_validate_node|]. intros s1 w1 _ _ HR1.
  eapply safe_bind; [by apply safe_upd_sim|]. intros s2 w2 _ _ HR2.
  eapply safe_bind; [by apply safe_set_volatile|]. intros s3 w3 _ _ HR3.
  eapply safe_bind; [by apply safe_record_event|]. intros s4 w4 _ _ HR4.
  apply wp_bind, wp_gets.
  destruct (restart_handlers _ !! n) as [h|]; [by apply safe_handle_restart|by apply good_refl].
Qed.

Lemma R_net_ext w w' s : net_ext w w' → R w s → R w' s.
Proof.
  intros He HR.
  assert (∀ n, dur w' n = dur w n) as Hd.
  { intros n. unfold dur, durable. by rewrite (ne_persistent _ _ He). }
  pose proof (ne_objs _ _ He) as Ho.
  split; try (rewrite Ho; apply HR); try apply HR.
  - intros n. rewrite Hd. apply HR.
  - rewrite (ne_queue _ _ He). apply HR.
  - intros n st. unfold proposal_of. rewrite Ho, Hd. apply HR.
  - intros n st. unfold proposal_of. rewrite Ho. apply HR.
  - rewrite (ne_handlers _ _ He). apply HR.
  - rewrite (ne_crash _ _ He). apply HR.
  - rewrite (ne_restart _ _ He). apply HR.
  - rewrite (ne_handlers _ _ He). apply HR.
Qed.

Lemma safe_net_only {A} (m : M _ A) w s : net_only m → R w s → safe s m w.
Proof.
  intros Hm HR. eapply wp_mono; [apply Hm| |].
  - intros w' a He. exact (good_refl _ _ (R_net_ext _ _ _ He HR)).
  - intros w' e [He Hc]. split; [exact (good_refl _ _ (R_net_ext _ _ _ He HR))|]. apply Hok.
    unfold call_error. rewrite Hc. set_solver.
Qed.

(** The caller proposes what it may. *)
Definition offers (o : paxos_op (V := V)) : Prop := match o with OpStart _ v _ => P v | _ => True end.

Lemma safe_exec_op (o : paxos_op (V := V)) w s : R w s → offers o → safe s (exec_op o) w.
Proof.
  intros HR Hoff. destruct o; simpl; try (by apply safe_net_only; [auto with distlab|]).
  - apply wp_bind, wp_bind, wp_gets. rewrite (R_ids _ _ HR).
    case_bool_decide; [|raises]. apply wp_ret.
    eapply safe_bind; [apply safe_start_proposal; [|done..]|intros; by apply good_refl].
    intros e He. apply Hok. unfold call_error. set_solver.
  - eapply safe_bind; [by apply safe_run|]. intros. by apply good_refl.
  - eapply safe_bind; [by apply safe_run_until|]. intros. by apply good_refl.
  - by apply safe_paxos_crash.
  - by apply safe_paxos_restart.
  - eapply wp_mono; [by apply (wp_checkpoint w s (λ _ _, False))| |].
    + intros w' a ->. by apply good_refl.
    + intros w' e [].
Qed.

End with_ids.

Lemma R_weaken ids reg (P Q : V → Prop) w s :
  (∀ v, P v → Q v) → R ids reg P w s → R ids reg Q w s.
Proof.
  intros HPQ HR. split; try apply HR.
  - intros n st Hst. by eapply HPQ, R_original.
  - intros slot b v Hv. by eapply HPQ, R_values.
Qed.

(** ** The fresh cluster *)
Section fresh.
Context (ids : list string) (P : V → Prop).

Lemma R_fresh plan :
  R ids [] P (mkWorld (Σ := PaxosSig) (new_Simulator plan) (mkPaxosObjects ids ∅ None [])) Consensus.init.
Proof.
  split; simpl; try done.
  - split; [apply init_inv, _|]. intros slot b v v' []%elem_of_nil.
  - intros n. split; simpl; try done.
    + intros slot b v. split; [intros []%elem_of_nil|intros [_ []%elem_of_nil]].
    + intros slot b v []%elem_of_nil.
  - intros x []%elem_of_nil.
  - intros slot b v []%elem_of_nil.
  - intros e []%elem_of_nil.
Qed.

Lemma wp_register_all l reg w s :
  R ids reg P w s → l ⊆ ids →
  wp (for_each l (λ n, Simulator.register (Σ := PaxosSig) n n (Some n) (Some n)))
    (λ w' _, R ids (l ++ reg) P w' s) (λ _ e, exn_cls e = ValueError) w.
Proof.
  revert reg w. induction l as [|n l IH]; intros reg w HR Hl; simpl; [done|].
  unfold Simulator.register. apply wp_bind, wp_bind, wp_gets, wp_bind, wp_raise_if; intros _; [done|].
  do 3 apply wp_bind, wp_upd_sim. apply wp_upd_sim. simpl.
  set (w1 := mkWorld _ _). assert (n ∈ ids) as Hn by (apply Hl; by left).
  assert (R ids (n :: reg) P w1 s) as HR1.
  { split; try done; try apply HR; simpl.
    - intros e h [[_ <-]|[_ ?]]%lookup_insert_Some; [done|by eapply R_handlers].
    - intros e h [[_ <-]|[_ ?]]%lookup_insert_Some; [done|by eapply R_crash].
    - intros e h [[_ <-]|[_ ?]]%lookup_insert_Some; [done|by eapply R_restart].
    - intros e He. destruct (decide (e = n)) as [->|Hne]; [by rewrite lookup_insert_eq|].
      rewrite lookup_insert_ne by done. apply elem_of_cons in He as [->|He]; [done|].
      by apply (R_reg _ _ _ _ _ HR). }
  eapply wp_mono; [apply (IH (n :: reg) w1 HR1)| |done].
  - intros x Hx. apply Hl. by right.
  - intros w2 a HR2. split; try apply HR2. intros e He. apply (R_reg _ _ _ _ _ HR2).
    set_solver.
Qed.

Lemma wp_init_cluster plan :
  wp (init_cluster ids) (λ w' _, R ids ids P w' Consensus.init)
    (λ _ e, exn_cls e = ValueError) (new_world (V := V) plan).
Proof.
  unfold init_cluster. apply wp_bind, wp_raise_if; [done|intros _].
  apply wp_bind, wp_raise_if; [done|intros _]. apply wp_bind.
  change (wp (for_each ids validate_durable_state ;;
    for_each ids (λ n, Simulator.register (Σ := PaxosSig) n n (Some n) (Some n)))
    (λ w' _, R ids ids P w' Consensus.init) (λ _ e, exn_cls e = ValueError)
    (mkWorld (Σ := PaxosSig) (new_Simulator plan) (mkPaxosObjects ids ∅ None []))).
  pose proof (R_fresh plan) as HR. set (w0 := mkWorld _ _) in *. clearbody w0.
  apply wp_bind. eapply wp_mono;
    [apply (wp_for_each _ _ (λ w, R ids [] P w Consensus.init) (λ _ e, exn_cls e = ValueError)); [done|]| |done].
  { intros n w _ HRw. by eapply wp_validate. }
  intros w1 a HR1. eapply wp_mono; [exact (wp_register_all ids [] w1 _ HR1 ltac:(done))| |done].
  intros w2 [] HR2. by rewrite app_nil_r in HR2.
Qed.

Lemma exec_op_safe (o : paxos_op (V := V)) w s :
  R ids ids P w s → offers P o → safe ids ids P call_error s (exec_op o) w.
Proof. by apply safe_exec_op. Qed.

(** A [start_proposal] call that raises changes nothing. *)
Lemma start_raises w n v round w' e s :
  R ids ids P w s → exec_op (OpStart n v round) w = (w', inl e) → w' = w ∧ call_error e.
Proof.
  intros HR Ho. enough (wp (exec_op (OpStart n v round)) (λ _ _, True) (λ w' e, w' = w ∧ call_error e) w) as Hi
    by (unfold wp in Hi; by rewrite Ho in Hi).
  simpl. apply wp_bind, wp_bind, wp_gets. rewrite (R_ids _ _ _ _ _ HR).
  case_bool_decide as Hn; [|split; [done|unfold call_error; set_solver]].
  apply wp_ret, wp_bind. eapply wp_mono;
    [apply (wp_start_proposal ids ids (λ _, True) (λ _, False) n v round w s); [|done..]|done|].
  - by apply (R_weaken ids ids P).
  - intros w1 e1 [[-> He]|[_ []]]. split; [done|]. unfold call_error. set_solver.
Qed.

(** The machine follows one call. *)
Lemma exec_op_follows w (o : paxos_op (V := V)) w' r s :
  R ids ids P w s → (r = inr tt → offers P o) → exec_op o w = (w', r) →
  ∃ s', rtc (step (majority ids)) s s' ∧ R ids ids P w' s' ∧ match r with inl e => call_error e | inr _ => True end.
Proof.
  intros HR Hoff Ho. assert (offers P o ∨ ∃ n v round e, o = OpStart n v round ∧ r = inl e) as [Hp|(n & v & round & e & -> & ->)].
  { destruct r as [e|[]]; [|left; by apply Hoff]. destruct o; try (by left). right. by eauto 10. }
  - pose proof (exec_op_safe o w s HR Hp) as Hi. unfold safe, wp in Hi. rewrite Ho in Hi.
    destruct r as [e|[]]; [destruct Hi as [(s' & ? & ?) ?]|destruct Hi as (s' & ? & ?)]; by exists s'.
  - destruct (start_raises _ _ _ _ _ _ _ HR Ho) as [-> He]. by exists s.
Qed.
End fresh.

(** Whatever the callers propose *)
Local Abbreviation anything := (λ _ : V, True).

(** The abstract state behind a reachable cluster. *)
Lemma reachable_good ids plan w : reachable ids plan w → good ids ids anything Consensus.init w.
Proof.
  induction 1 as [w Hw|w o w' r _ (s & Hs & HR) Ho].
  - pose proof (wp_init_cluster ids anything plan) as Hi. unfold wp in Hi. rewrite Hw in Hi. by exists init.
  - destruct (exec_op_follows ids anything w o w' r s HR) as (s' & Hs' & HR' & _); [by destruct o|done|].
    exists s'. split; [by etrans|done].
Qed.

(** One call on a reachable cluster: the abstract machine can follow it. *)
Lemma exec_op_good ids plan w (o : paxos_op (V := V)) w' r :
  reachable ids plan w → exec_op o w = (w', r) →
  ∃ s s', rtc (step (majority ids)) Consensus.init s ∧ R ids ids anything w s
    ∧ rtc (step (majority ids)) s s' ∧ R ids ids anything w' s'
    ∧ match r with inl e => call_error e | inr _ => True end.
Proof.
  intros (s & Hs & HR)%reachable_good Ho.
  destruct (exec_op_follows ids anything w o w' r s HR) as (s' & Hs' & HR' & He); [by destruct o|done|].
  by exists s, s'.
Qed.

(** The clusters reached by a list of calls, each with its outcome *)
Inductive called ids plan : list (paxos_op (V := V) * (exn + unit)) → World PaxosSig → Prop :=
  | called_init w : init_cluster ids (new_world plan) = (w, inr tt) → called ids plan [] w
  | called_op l w o w' r : called ids plan l w → exec_op o w = (w', r) → called ids plan (l ++ [(o, r)]) w'.

(** A [start_proposal] call for [v] returned. *)
Definition proposed_in (l : list (paxos_op (V := V) * (exn + unit))) (v : V) : Prop :=
  ∃ n round, (OpStart n v round, inr tt) ∈ l.

Lemma called_good ids plan l w L :
  called ids plan l w → l ⊆ L → good ids ids (proposed_in L) Consensus.init w.
Proof.
  induction 1 as [w Hw|l w o w' r _ IH Ho]; intros HL.
  - pose proof (wp_init_cluster ids (proposed_in L) plan) as Hi. unfold wp in Hi. rewrite Hw in Hi. by exists init.
  - destruct IH as (s & Hs & HR); [set_solver|].
    destruct (exec_op_follows ids (proposed_in L) w o w' r s HR) as (s' & Hs' & HR' & _); [|done|].
    { intros ->. destruct o; try done. exists n, round_number. apply HL. set_solver. }
    exists s'. split; [by etrans|done].
Qed.
End refinement.
