(* ===== verification/PaxosTermination.v ===== *)
(** * PaxosTermination: every run of a Paxos cluster ends, and its clock

    A [Prepare] outweighs the [Promise] it may cause, a [Promise] the
    [AcceptRequest]s, and so on down to [Learn], so a run delivers at most as
    many messages as the queue weighs; with at least that much fuel [run]
    returns, and leaves the queue empty. *)

From stdpp Require Import relations.
From S2P Require Import Prelude Simulator SimFacts SimProperties Costs Quorum Consensus Paxos Decree PaxosRefine.

Section weights.
Context {V : Type} `{EqDecision V}.
Context (N : nat).
Implicit Types (w : World (PaxosSig (V := V))) (n : string).

Definition learn_weight : nat := 1.
Definition accepted_weight : nat := 1 + N * (2 * learn_weight).
Definition accept_request_weight : nat := 1 + 2 * accepted_weight.
Definition promise_weight : nat := accept_request_weight + N * (2 * accept_request_weight).
Definition prepare_weight : nat := 1 + 2 * promise_weight.

Definition weight (p : PaxosPayload (V := V)) : nat :=
  match p with
  | PPrepare _ => prepare_weight
  | PPromise _ => promise_weight
  | PAcceptRequest _ => accept_request_weight
  | PAccepted _ => accepted_weight
  | PLearn _ => learn_weight
  | POther _ => 1
  end.

Definition small (o : PaxosObjects (V := V)) : Prop := length o.(node_ids) = N.

Local Abbreviation costs := (costs (Σ := PaxosSig) weight small).

Lemma peers_small w n : small w.(objs) → (length (peers (V := V) w n) ≤ N)%nat.
Proof. intros <-. apply length_filter. Qed.

Lemma costs_trace r c : costs (trace_rec r) c.
Proof. apply (costs_weaken _ _ _ 0); [apply costs_record|lia]. Qed.

Lemma costs_net_send s d p : costs (net_send s d p) (2 * weight p).
Proof. by apply costs_send. Qed.

Lemma costs_set_proposal n st : costs (set_proposal n st) 0.
Proof. by apply costs_upd_objs. Qed.

Lemma costs_clear_proposal n : costs (clear_proposal n) 0.
Proof. by apply costs_upd_objs. Qed.

(** Send [p] to every peer, then do [m]. *)
Lemma costs_to_peers {A} n p (k : M _ A) :
  costs k 0 →
  costs (let! ps := gets (λ w, peers w n) in for_each ps (λ peer, net_send n peer p) ;; k)
    (N * (2 * weight p)).
Proof.
  intros Hk. apply costs_gets_bind. intros w Hw.
  rewrite <-(Nat.add_0_r (N * _)). apply costs_bind; [|done].
  eapply costs_broadcast; [intros; apply costs_net_send|by apply peers_small|done].
Qed.

Lemma costs_peers n p :
  costs (let! ps := gets (λ w, peers w n) in for_each ps (λ peer, net_send n peer p))
    (N * (2 * weight p)).
Proof.
  apply costs_gets_bind. intros w Hw.
  eapply costs_broadcast; [intros; apply costs_net_send|by apply peers_small|done].
Qed.

Lemma costs_record_chosen p v accs : costs (record_chosen p v accs) 0.
Proof.
  apply costs_gets_bind. intros w _. apply costs_free_bind; [by apply costs_raise_if|intros _].
  apply costs_gets_bind. intros w' _. destruct (chosen _); [by apply costs_raise_if|].
  apply costs_free_bind; [by apply costs_upd_objs|intros _; apply costs_trace].
Qed.

Lemma costs_receive_learn n m : costs (receive_learn n m) 0.
Proof.
  apply costs_gets_bind. intros w _. destruct (d_learned _); [by apply costs_raise_if|].
  apply costs_free_bind; [apply costs_persist|intros _; apply costs_trace].
Qed.

Lemma costs_receive_accepted n m : costs (receive_accepted n m) (pred accepted_weight).
Proof.
  apply costs_gets_bind. intros w _. destruct (proposal_of _ _) as [st|]; [|apply costs_trace].
  apply costs_if; [apply costs_trace|].
  apply costs_free_bind; [by apply costs_raise_if|intros _].
  apply costs_free_bind; [apply costs_set_proposal|intros _].
  apply costs_gets_bind. intros w' _. apply costs_if; [apply costs_ret|].
  apply costs_free_bind; [apply costs_record_chosen|intros _].
  apply costs_free_bind; [apply costs_receive_learn|intros _].
  change (pred accepted_weight) with (N * (2 * weight (PLearn (mkLearn (ps_proposal st) n (acc_value m)))))%nat.
  apply (costs_to_peers n (PLearn _)), costs_clear_proposal.
Qed.

Lemma costs_receive_accept_request n m :
  costs (receive_accept_request n m) (2 * accepted_weight).
Proof.
  apply costs_gets_bind. intros w _. cbv zeta.
  match goal with |- Costs.costs _ _ (match _ with Some _ => if _ then _ else ?a | None => _ end) _ =>
    assert (costs a (2 * accepted_weight)) as Ha end.
  { apply costs_free_bind; [by apply costs_raise_if|intros _].
    do 2 (apply costs_free_bind; [apply costs_persist|intros _]).
    apply costs_free_bind; [apply costs_when, costs_persist|intros _].
    apply costs_free_bind; [apply costs_trace|intros _].
    apply costs_if; [|apply costs_net_send].
    eapply costs_weaken; [apply costs_receive_accepted|lia]. }
  destruct (d_promised _); [|done]. apply costs_if; [apply costs_trace|done].
Qed.

Lemma choose_value_fair (st : ProposalState (V := V)) :
  match choose_value st with inl e => fair e | inr _ => True end.
Proof.
  unfold choose_value. destruct (omap _ _); [done|].
  destruct (filter _ _); [done|]. by destruct (existsb _ _).
Qed.

Lemma costs_receive_promise n m : costs (receive_promise n m) (pred promise_weight).
Proof.
  apply costs_gets_bind. intros w _. destruct (proposal_of _ _) as [st|]; [|apply costs_trace].
  apply costs_if; [apply costs_trace|]. apply costs_gets_bind. intros w1 _.
  apply costs_free_bind; [by apply costs_raise_if|intros _].
  apply costs_free_bind; [apply costs_set_proposal|intros _].
  apply costs_gets_bind. intros w2 _. apply costs_if; [apply costs_ret|].
  apply costs_free_bind; [apply costs_lift, choose_value_fair|intros v].
  apply costs_free_bind; [apply costs_set_proposal|intros _].
  apply costs_free_bind; [apply costs_trace|intros _].
  apply costs_free_bind; [apply costs_lift; unfold new_AcceptRequest; by destruct (negb _)|intros r].
  eapply costs_weaken; [apply costs_bind; [apply costs_receive_accept_request|]|].
  - intros _. apply (costs_peers n (PAcceptRequest r)).
  - unfold promise_weight. simpl weight. unfold accept_request_weight. lia.
Qed.

Lemma costs_receive_prepare n m : costs (receive_prepare n m) (2 * promise_weight).
Proof.
  apply costs_gets_bind. intros w _. cbv zeta.
  match goal with |- Costs.costs _ _ (match _ with Some _ => if _ then _ else ?a | None => _ end) _ =>
    assert (costs a (2 * promise_weight)) as Ha end.
  { apply costs_free_bind; [apply costs_when, costs_persist|intros _].
    apply costs_free_bind; [apply costs_trace|intros _].
    apply costs_if; [|apply costs_net_send].
    eapply costs_weaken; [apply costs_receive_promise|lia]. }
  destruct (d_promised _); [|done]. apply costs_if; [apply costs_trace|done].
Qed.

Lemma costs_handle_message n (m : Message (PaxosSig (V := V))) :
  costs (handle_message n m) (pred (weight m.(payload))).
Proof.
  unfold handle_message. apply costs_if; [apply costs_trace|].
  destruct (payload m); try (apply costs_if; [apply costs_trace|]).
  - apply costs_receive_prepare.
  - apply costs_receive_promise.
  - apply costs_receive_accept_request.
  - apply costs_receive_accepted.
  - apply costs_receive_learn.
  - by apply costs_raise.
Qed.

Lemma weight_pos p : (1 ≤ weight p)%nat.
Proof.
  destruct p; simpl; unfold prepare_weight, promise_weight, accept_request_weight,
    accepted_weight, learn_weight; lia.
Qed.
End weights.

Section termination.
Context {V : Type} `{EqDecision V}.
Implicit Types (w : World (PaxosSig (V := V))).

(** The weight of the messages in flight. *)
Definition in_flight w : nat :=
  measure (Σ := PaxosSig) (weight (length w.(objs).(node_ids))) w.

(** C38: on a reachable cluster, [run()] with fuel for the messages in flight
    returns normally, whatever faults were injected before, and leaves no
    message undelivered. *)
Theorem paxos_run_terminates ids plan w fuel :
  reachable ids plan w → (in_flight w < fuel)%nat →
  ∃ w' delivered, paxos_run fuel None w = (w', inr delivered) ∧ w'.(sim).(queue) = [].
Proof.
  intros Hw Hfuel.
  pose proof (run_loop_terminates (Σ := PaxosSig) _ (small (length w.(objs).(node_ids))) handle_message
    (costs_handle_message _) (weight_pos _) fuel None 0 w eq_refl Hfuel) as Hterm.
  destruct (reachable_good ids plan w Hw) as (s & _ & HR).
  pose proof (safe_run_loop ids ids _ (λ e, exn_cls e = OutOfFuel) fuel None 0 w s
    ltac:(done) ltac:(done) HR) as Hsafe.
  unfold safe, wp in Hterm, Hsafe.
  unfold paxos_run, run, bind, raise_if, ret.
  destruct (run_loop (Σ := PaxosSig) handle_message fuel None 0 w) as [w' [e|k]].
  - by destruct Hsafe as [_ He].
  - exists w', k. split; [done|]. by apply Hterm.
Qed.
End termination.

(** ** Simulated time in a Paxos cluster

    Every call on the cluster keeps the event queue in order and never takes
    the clock back. *)

Section clock.
Context {V : Type} `{EqDecision V}.
Implicit Types (w : World (PaxosSig (V := V))) (n : string).

Lemma steady_receive_learn n m : steady (receive_learn (V := V) n m).
Proof. unfold receive_learn, trace_rec. steady. Qed.

Lemma steady_receive_accepted n m : steady (receive_accepted (V := V) n m).
Proof.
  unfold receive_accepted, record_chosen, trace_rec, set_proposal, clear_proposal, net_send.
  steady. apply steady_receive_learn.
Qed.

Lemma steady_receive_accept_request n m : steady (receive_accept_request (V := V) n m).
Proof.
  unfold receive_accept_request, trace_rec, net_send. steady; apply steady_receive_accepted.
Qed.

Lemma steady_receive_promise n m : steady (receive_promise (V := V) n m).
Proof.
  unfold receive_promise, trace_rec, set_proposal, net_send.
  steady; apply steady_receive_accept_request.
Qed.

Lemma steady_receive_prepare n m : steady (receive_prepare (V := V) n m).
Proof.
  unfold receive_prepare, trace_rec, net_send. steady; apply steady_receive_promise.
Qed.

Lemma steady_handle_message n (m : Message (PaxosSig (V := V))) : steady (handle_message n m).
Proof.
  unfold handle_message, reject_source, trace_rec. steady.
  - apply steady_receive_prepare.
  - apply steady_receive_promise.
  - apply steady_receive_accept_request.
  - apply steady_receive_accepted.
  - apply steady_receive_learn.
Qed.

Lemma steady_validate n : steady (validate_durable_state (V := V) n).
Proof. unfold validate_durable_state. steady. Qed.

Lemma steady_start_proposal n v r : steady (start_proposal (V := V) n v r).
Proof.
  unfold start_proposal, trace_rec, set_proposal, net_send. steady; apply steady_receive_prepare.
Qed.

Lemma steady_collect_groups l gs : steady (collect_groups (V := V) l gs).
Proof.
  revert gs. induction l as [|n l IH]; intros gs; [apply steady_ret|].
  apply steady_bind; [apply steady_validate|intros _].
  apply steady_bind; [apply steady_gets|intros d; apply IH].
Qed.

Lemma forward_exec_op (o : paxos_op (V := V)) : forward (exec_op o).
Proof.
  destruct o; simpl; try (by apply steady_forward; auto with distlab).
  - apply steady_forward. unfold node. steady. apply steady_start_proposal.
  - apply forward_bind; [|intros; by apply steady_forward, steady_ret].
    apply forward_run. intros h m. apply steady_handle_message.
  - apply forward_bind; [|intros; by apply steady_forward, steady_ret].
    apply forward_run_until. intros h m. apply steady_handle_message.
  - apply steady_forward, steady_crash. intros h. unfold handle_crash, clear_proposal, trace_rec. steady.
  - apply steady_forward, steady_restart. intros h.
    unfold handle_restart, clear_proposal, trace_rec. steady. apply steady_validate.
  - apply steady_forward. unfold checkpoint. steady. apply steady_collect_groups.
Qed.

Lemma init_timely ids plan w :
  Forall (λ r, 0 ≤ r.(fr_extra_delay)) plan →
  init_cluster (V := V) ids (new_world plan) = (w, inr tt) → timely w ∧ delays_ok w.
Proof.
  intros Hplan Hi.
  assert (steady (init_cluster (V := V) ids)) as Hs.
  { unfold init_cluster, register. steady; try apply steady_validate; by apply steady_frame. }
  assert (delays_ok (new_world (V := V) plan)) as Hd by (split; [done|apply map_Forall_empty]).
  assert (timely (new_world (V := V) plan)) as Ht by (split; constructor).
  specialize (Hs _ Ht Hd). unfold wp in Hs. rewrite Hi in Hs. apply Hs.
Qed.

Lemma reachable_timely ids plan w :
  Forall (λ r, 0 ≤ r.(fr_extra_delay)) plan → reachable (V := V) ids plan w →
  timely w ∧ delays_ok w.
Proof.
  intros Hplan Hw. induction Hw as [w Hi|w o w' r _ [Ht Hd] Ho]; [by eapply init_timely|].
  pose proof (forward_exec_op o w Ht Hd) as Hf. unfold wp in Hf. rewrite Ho in Hf.
  destruct r; apply Hf.
Qed.

(** On every reachable cluster the event queue is sorted by due time and
    sequence number and holds nothing due in the past, and no call takes the
    clock back, also when it raises. *)
Theorem paxos_clock_monotone ids plan w (o : paxos_op (V := V)) w' r :
  Forall (λ r, 0 ≤ r.(fr_extra_delay)) plan → reachable ids plan w →
  exec_op o w = (w', r) → timely w ∧ timely w' ∧ w.(sim).(time) ≤ w'.(sim).(time).
Proof.
  intros Hplan Hw Ho. destruct (reachable_timely _ _ _ Hplan Hw) as [Ht Hd].
  pose proof (forward_exec_op o w Ht Hd) as Hf. unfold wp in Hf. rewrite Ho in Hf.
  destruct r; destruct Hf as (? & ? & ?); done.
Qed.
End clock.
