(* ===== verification/PaxosProperties.v ===== *)
(** * PaxosProperties: what [paxos.py] guarantees

    The statements are about the durable dictionaries and the calls of the
    implementation only; the abstract machine of [Consensus] appears in the
    proofs, through [PaxosRefine]. *)

From stdpp Require Import relations.
From S2P Require Import Prelude Simulator SimFacts SimProperties Quorum Consensus Paxos Decree PaxosRefine PaxosTermination.

Section properties.
Context {V : Type} `{EqDecision V}.
Implicit Types (w : World (PaxosSig (V := V))) (n : string) (ids : list string).

(** The acceptors whose durable history holds [v] at ballot [p]. *)
Definition holders ids w (p : ProposalNumber) (v : V) : gset string :=
  filter (λ n, mkAcceptedValue p v ∈ d_accept_history (dur w n)) (list_to_set ids).

(** [v] is decided: a majority of acceptors durably accepted it at one ballot. *)
Definition decided ids w (v : V) : Prop :=
  ∃ p, quorum_size ids ≤ Z.of_nat (size (holders ids w p v)).

Definition accepted_anywhere ids w : list (AcceptedValue (V := V)) :=
  mjoin ((λ n, d_accept_history (dur w n)) <$> ids).

(** The decided values, computed. *)
Definition decisions ids w : list V :=
  omap (λ a, if quorum_size ids <=? Z.of_nat (size (holders ids w a.(av_proposal) a.(av_value)))
             then Some a.(av_value) else None) (accepted_anywhere ids w).

Lemma elem_of_holders ids w p v a :
  a ∈ holders ids w p v ↔ a ∈ ids ∧ mkAcceptedValue p v ∈ d_accept_history (dur w a).
Proof. unfold holders. rewrite elem_of_filter, elem_of_list_to_set. naive_solver. Qed.

Lemma quorum_size_pos ids : 1 ≤ quorum_size ids.
Proof.
  unfold quorum_size. pose proof (zlen_nonneg ids).
  assert (0 ≤ zlen ids / 2) by (apply Z.div_pos; lia). lia.
Qed.

Lemma elem_of_decisions ids w v : v ∈ decisions ids w ↔ decided ids w v.
Proof.
  unfold decisions. rewrite list_elem_of_omap. split.
  - intros ([p x] & _ & Hx). simpl in Hx. destruct (_ <=? _) eqn:E; simplify_eq.
    apply Z.leb_le in E. by exists p.
  - intros [p Hp]. pose proof (quorum_size_pos ids).
    destruct (decide (holders ids w p v = ∅)) as [He|[a Ha]%set_choose_L].
    { rewrite He, size_empty in Hp. lia. }
    apply elem_of_holders in Ha as [Ha Hh].
    exists (mkAcceptedValue p v). split.
    + unfold accepted_anywhere. apply list_elem_of_join. exists (d_accept_history (dur w a)).
      split; [done|]. apply list_elem_of_fmap. by exists a.
    + simpl. by rewrite (proj2 (Z.leb_le _ _) Hp).
Qed.

#[export] Instance decided_dec ids w v : Decision (decided ids w v).
Proof. refine (cast_if (decide (v ∈ decisions ids w))); by rewrite <-elem_of_decisions. Defined.

Lemma chosen_holders ids P w s p v :
  R ids ids P w s → chosen_at (majority ids) s 1 p v ↔ quorum_size ids ≤ Z.of_nat (size (holders ids w p v)).
Proof.
  intros HR. split.
  - intros (Q & [Hsub Hsize] & HQ).
    assert (Q ⊆ holders ids w p v) as Hle%subseteq_size; [|lia].
    intros a Ha. apply elem_of_holders. split; [by apply (elem_of_list_to_set (C := gset string)), Hsub|].
    by apply (do_votes _ _ _ _ (R_dur _ _ _ _ _ HR a) 1), HQ.
  - intros Hp. exists (holders ids w p v). split; [split; [|done]|].
    + intros a [Ha _]%elem_of_holders. by apply elem_of_list_to_set.
    + intros a [_ Ha]%elem_of_holders. apply (do_votes _ _ _ _ (R_dur _ _ _ _ _ HR a)). done.
Qed.

Lemma decided_chosen ids P w s v :
  R ids ids P w s → decided ids w v ↔ ∃ p, chosen_at (majority ids) s 1 p v.
Proof. intros HR. unfold decided. setoid_rewrite (chosen_holders ids P w s _ v HR). done. Qed.

(** ** Properties *)

(** A call on a reachable cluster raises only what its caller can provoke
    (a bad argument, a proposer that is down or busy, an unknown node), never
    [PaxosSafetyViolation] or [TypeError], the harness's [checkpoint]
    included: whatever messages were dropped, delayed, duplicated or blocked,
    and whichever nodes crashed and restarted. *)
Theorem paxos_never_violates ids plan w (o : paxos_op (V := V)) w' e :
  reachable ids plan w → exec_op o w = (w', inl e) → call_error e.
Proof.
  intros Hw Ho. destruct (exec_op_good _ _ _ _ _ _ Hw Ho) as (s & s' & _ & _ & _ & _ & He).
  exact He.
Qed.

(** C7: agreement across time: a value decided in any reachable state stays
    decided through later calls, crashes and restarts, and no other value is
    ever decided. *)
Theorem paxos_agreement ids plan w (o : paxos_op (V := V)) w' r v v' :
  reachable ids plan w → exec_op o w = (w', r) →
  decided ids w v → decided ids w' v ∧ (decided ids w' v' → v' = v).
Proof.
  intros Hw Ho Hv. destruct (exec_op_good _ _ _ _ _ _ Hw Ho) as (s & s' & _ & HR & Hs & HR' & _).
  destruct (proj1 (decided_chosen _ _ _ _ _ HR) Hv) as [p Hp].
  assert (chosen_at (majority ids) s' 1 p v) as Hp' by (by eapply steps_chosen).
  split; [apply (decided_chosen _ _ _ _ _ HR'); by exists p|].
  intros [q Hq]%(decided_chosen _ _ _ _ _ HR'). by eapply (R_agree ids ids _ w' s').
Qed.

(** The decisions the cluster records: what a node has learned, and what the
    first proposer to gather a majority of acceptances entered. *)
Definition recorded w (d : LearnedDecision (V := V)) : Prop :=
  (∃ n, (dur w n).(d_learned) = Some d) ∨ w.(objs).(chosen) = Some d.

(** C21: validity and sound learning: every value an acceptor has durably
    accepted is the argument of a [start_proposal] call that returned, made on
    the cluster since it was built (a call that raised proposes nothing); and
    a decision a node has learned, or the cluster records, is one a majority
    of acceptors durably accepted at the very proposal number it names.
    Whatever messages were dropped, duplicated, delayed or blocked, and
    whichever nodes crashed and restarted. *)
Theorem paxos_validity ids plan l w :
  called ids plan l w →
  (∀ n a, a ∈ (dur w n).(d_accept_history) → proposed_in l a.(av_value))
  ∧ (∀ d, recorded w d →
      quorum_size ids ≤ Z.of_nat (size (holders ids w d.(ld_proposal) d.(ld_value)))
      ∧ proposed_in l d.(ld_value)).
Proof.
  intros (s & _ & HR)%(called_good _ _ _ _ l); [|done]. split.
  - intros n [b v] Hv. exact (accepted_value _ _ _ _ _ _ _ _ HR Hv).
  - intros d Hd. assert (chosen_at (majority ids) s 1 d.(ld_proposal) d.(ld_value)) as Hc.
    { destruct Hd as [[n Hn]|Hn]; [by apply (do_learned _ _ _ _ (R_dur _ _ _ _ _ HR n))|by apply (R_chosen _ _ _ _ _ HR)]. }
    split; [by apply (chosen_holders _ _ _ _ _ _ HR)|exact (chosen_value _ _ _ _ _ _ _ HR Hc)].
Qed.

(** An acceptor's durable promise never goes down and its accept history
    never loses an entry, whatever is called, crashes and restarts included. *)
Theorem paxos_durable_monotone ids plan w (o : paxos_op (V := V)) w' r n :
  reachable ids plan w → exec_op o w = (w', r) →
  promise_le (dur w n).(d_promised) (dur w' n).(d_promised)
  ∧ (dur w n).(d_accept_history) ⊆ (dur w' n).(d_accept_history).
Proof.
  intros Hw Ho. destruct (exec_op_good _ _ _ _ _ _ Hw Ho) as (s & s' & _ & HR & Hs & HR' & _).
  pose proof (R_dur _ _ _ _ _ HR n) as Hd. pose proof (R_dur _ _ _ _ _ HR' n) as Hd'. split.
  - rewrite <-(do_bal _ _ _ _ Hd), <-(do_bal _ _ _ _ Hd'). by eapply steps_max_bal.
  - intros [b v] Hin. apply (do_votes _ _ _ _ Hd' 1). eapply steps_votes; [exact Hs|].
    by apply (do_votes _ _ _ _ Hd).
Qed.

(** The safety harness accepts every reachable cluster and changes
    nothing. *)
Theorem paxos_checkpoint_passes ids plan w :
  reachable ids plan w → checkpoint w = (w, inr tt).
Proof.
  intros (s & _ & HR)%reachable_good.
  pose proof (wp_checkpoint ids ids _ w s (λ _ _, False) HR) as Hc. unfold wp in Hc.
  destruct (checkpoint w) as [w' [?|[]]]; [done|]. by subst.
Qed.
End properties.

(** * PaxosWitnesses: the properties of [paxos.py] at concrete clusters

    A three-node cluster that loses a message, decides, crashes and restarts a
    node, and is asked for a second value. *)

Section exec.
Context {V : Type} `{EqDecision V}.

Definition exec_ops (l : list (paxos_op (V := V))) (w : World PaxosSig) : World PaxosSig :=
  foldl (λ w o, (exec_op o w).1) w l.

Fixpoint outcomes (l : list (paxos_op (V := V))) (w : World PaxosSig) : list (paxos_op * (exn + unit)) :=
  match l with
  | [] => []
  | o :: l => (o, (exec_op o w).2) :: outcomes l (exec_op o w).1
  end.

Definition cluster ids plan : World (PaxosSig (V := V)) := (init_cluster ids (new_world plan)).1.

Lemma reachable_exec_ops ids plan l w :
  reachable ids plan w → reachable ids plan (exec_ops l w).
Proof.
  revert w. induction l as [|o l IH]; intros w Hw; simpl; [done|].
  apply IH. eapply reach_op; [exact Hw|]. by apply surjective_pairing.
Qed.

Lemma called_exec_ops ids plan l l0 w :
  called ids plan l0 w → called ids plan (l0 ++ outcomes l w) (exec_ops l w).
Proof.
  revert l0 w. induction l as [|o l IH]; intros l0 w Hw; simpl; [by rewrite app_nil_r|].
  rewrite cons_middle, app_assoc. apply IH. eapply called_op; [exact Hw|]. by apply surjective_pairing.
Qed.

Lemma reachable_cluster ids plan l :
  (init_cluster (V := V) ids (new_world plan)).2 = inr tt →
  reachable ids plan (exec_ops l (cluster ids plan)).
Proof.
  intros Hi. apply reachable_exec_ops, reach_init. unfold cluster. rewrite <-Hi.
  by apply surjective_pairing.
Qed.
End exec.

Definition demo_ids : list string := ["n1"; "n2"; "n3"].
Definition demo_plan : FaultPlan :=
  [mkFaultRule DROP None (Some "n3") None (Some "Prepare") 0;
   mkFaultRule DUPLICATE (Some "n2") None None (Some "Promise") 2].
Definition demo_ops : list (paxos_op (V := string)) :=
  [OpStart "n1" "x" None; OpRun 100 None; OpCrash "n1"; OpRestart "n1"].
Definition demo : World (PaxosSig (V := string)) := exec_ops demo_ops (cluster demo_ids demo_plan).
Definition demo_second : paxos_op (V := string) := OpStart "n3" "y" (Some 7).
Definition demo2 : World (PaxosSig (V := string)) := (exec_op demo_second demo).1.

Lemma demo2_exec : exec_op demo_second demo = (demo2, (exec_op demo_second demo).2).
Proof. apply surjective_pairing. Qed.

Lemma demo_reachable : reachable demo_ids demo_plan demo.
Proof. apply reachable_cluster. vm_compute. reflexivity. Qed.

Definition demo_calls : list (paxos_op (V := string) * (exn + unit)) :=
  outcomes demo_ops (cluster demo_ids demo_plan) ++ [(demo_second, (exec_op demo_second demo).2)].

Lemma demo2_called : called demo_ids demo_plan demo_calls demo2.
Proof.
  eapply called_op; [|exact demo2_exec]. unfold demo. apply (called_exec_ops _ _ demo_ops []).
  apply called_init. vm_compute. reflexivity.
Qed.

Lemma demo_decided : decided demo_ids demo "x".
Proof. apply (bool_decide_unpack _). vm_compute. exact I. Qed.

Lemma paxos_never_violates_witness :
  ∃ e, (exec_op (OpStart "n9" "z" None) demo).2 = inl e ∧ call_error e.
Proof.
  exists (Exn KeyError "nodes"). split; [vm_compute; reflexivity|].
  refine (paxos_never_violates demo_ids demo_plan demo (OpStart "n9" "z" None) demo _
    demo_reachable _). vm_compute. reflexivity.
Defined.

Lemma paxos_agreement_witness : decided demo_ids demo2 "x".
Proof.
  exact (proj1 (paxos_agreement demo_ids demo_plan demo demo_second demo2 _ "x" "x"
    demo_reachable demo2_exec demo_decided)).
Defined.

Lemma paxos_validity_witness :
  proposed_in demo_calls "x"
  ∧ quorum_size demo_ids ≤ Z.of_nat (size (holders demo_ids demo2 (mkProposalNumber 1 "n1") "x")).
Proof.
  pose proof (proj2 (paxos_validity demo_ids demo_plan demo_calls demo2 demo2_called)
    (mkLearnedDecision (mkProposalNumber 1 "n1") "x")) as H.
  assert (recorded demo2 (mkLearnedDecision (mkProposalNumber 1 "n1") "x")) as Hr
    by (left; exists "n2"; vm_compute; reflexivity).
  split; [exact (proj2 (H Hr))|exact (proj1 (H Hr))].
Defined.

Lemma paxos_durable_monotone_witness :
  promise_le (dur demo "n2").(d_promised) (dur demo2 "n2").(d_promised)
  ∧ (dur demo "n2").(d_accept_history) = [mkAcceptedValue (mkProposalNumber 1 "n1") "x"].
Proof.
  split; [|vm_compute; reflexivity].
  exact (proj1 (paxos_durable_monotone demo_ids demo_plan demo demo_second demo2 _ "n2"
    demo_reachable demo2_exec)).
Defined.

Lemma paxos_checkpoint_passes_witness : checkpoint demo = (demo, inr tt).
Proof. exact (paxos_checkpoint_passes demo_ids demo_plan demo demo_reachable). Defined.

Lemma demo2_reachable : reachable demo_ids demo_plan demo2.
Proof. exact (reachable_exec_ops _ _ [demo_second] _ demo_reachable). Qed.

Lemma paxos_run_terminates_witness :
  ∃ w' delivered, paxos_run 1000 None demo2 = (w', inr delivered)
    ∧ w'.(sim).(queue) = [] ∧ demo2.(sim).(queue) ≠ [].
Proof.
  assert (in_flight demo2 < 1000)%nat as Hfuel by (apply Nat.ltb_lt; vm_compute; reflexivity).
  destruct (paxos_run_terminates demo_ids demo_plan demo2 1000 demo2_reachable Hfuel)
    as (w' & d & H1 & H2).
  exists w', d. split; [exact H1|]. split; [exact H2|]. vm_compute. discriminate.
Defined.

Lemma paxos_clock_monotone_witness :
  timely demo ∧ demo.(sim).(time) <= demo2.(sim).(time).
Proof.
  destruct (paxos_clock_monotone demo_ids demo_plan demo demo_second demo2 _
    ltac:(repeat constructor; simpl; lia) demo_reachable demo2_exec) as (Ht & _ & Hle).
  exact (conj Ht Hle).
Defined.

(** ** The simulator *)

Lemma send_outcome_witness :
  arrivals demo (mkMessage (Σ := PaxosSig) "n2" "n1"
      (PPromise (mkPromise (mkProposalNumber 9 "n1") "n2" None)) 3 None) 1
    = [demo.(sim).(time) + 1; demo.(sim).(time) + 3]
  ∧ ∃ w', net_send (V := string) "n2" "n1"
      (PPromise (mkPromise (mkProposalNumber 9 "n1") "n2" None)) demo = (w', inr tt).
Proof.
  split; [vm_compute; reflexivity|].
  destruct (send_outcome (Σ := PaxosSig) "n2" "n1"
    (PPromise (mkPromise (mkProposalNumber 9 "n1") "n2" None)) 1 None demo) as (w' & Hw' & _);
    [lia|exact I|]. exists w'. exact Hw'.
Defined.

Lemma run_budget_witness :
  ∃ w', paxos_run 100 (Some 2) demo2 = (w', inr 2) ∧ w'.(sim).(queue) ≠ []
    ∧ 0 <= 2.
Proof.
  exists (paxos_run 100 (Some 2) demo2).1.
  split; [vm_compute; reflexivity|]. split; [vm_compute; discriminate|].
  apply (run_budget (Σ := PaxosSig) handle_message 100 2 demo2
    (paxos_run 100 (Some 2) demo2).1 2).
  vm_compute. reflexivity.
Defined.

Lemma run_until_time_deadline_witness :
  let t := demo2.(sim).(time) in
  ∃ w' n, paxos_run_until 100 (t + 1) demo2 = (w', inr n)
    ∧ w'.(sim).(time) = t + 1 ∧ Forall (λ d, t + 1 < d.(sd_time)) w'.(sim).(queue).
Proof.
  cbv zeta. destruct (reachable_timely demo_ids demo_plan demo2) as [Ht Hd];
    [repeat constructor; simpl; lia|exact demo2_reachable|].
  destruct (paxos_run_until 100 (demo2.(sim).(time) + 1) demo2) as [w' [e|n]] eqn:E.
  - exfalso. revert E. vm_compute. discriminate.
  - exists w', n.
    destruct (run_until_time_deadline (Σ := PaxosSig) handle_message
      (λ h m, steady_handle_message h m) 100 _ demo2 w' (inr n) Ht Hd E) as (H1 & H2 & _).
    split; [reflexivity|]. split; [exact H1|exact H2].
Defined.

Lemma partition_links_witness :
  let w1 := (partition ["n1"; "n3"] ["n2"] demo).1 in
  let w2 := (heal_partition ["n1"] ["n2"] w1).1 in
  blocked w1 "n2" "n3" ∧ ¬ blocked w2 "n1" "n2" ∧ blocked w2 "n3" "n2".
Proof.
  cbv zeta. set (w1 := (partition ["n1"; "n3"] ["n2"] demo).1).
  assert (partition ["n1"; "n3"] ["n2"] demo = (w1, inr tt)) as H1 by (vm_compute; reflexivity).
  assert (heal_partition ["n1"] ["n2"] w1 = ((heal_partition ["n1"] ["n2"] w1).1, inr tt)) as H2
    by (vm_compute; reflexivity).
  pose proof (proj1 (partition_links (Σ := PaxosSig) ["n1"; "n3"] ["n2"] demo w1) H1) as Hp.
  pose proof (proj2 (partition_links (Σ := PaxosSig) ["n1"] ["n2"] w1 _) H2) as Hh.
  split; [|split].
  - apply Hp. right. apply (bool_decide_unpack _). vm_compute. exact I.
  - intros Hb. apply (proj1 (Hh _ _)) in Hb. destruct Hb as [_ Hn]. apply Hn.
    apply (bool_decide_unpack _). vm_compute. exact I.
  - apply Hh. split; [apply Hp; right|]; apply (bool_decide_unpack _); vm_compute; exact I.
Defined.
