(* ===== verification/LogIndex.v ===== *)
(** * LogIndex: a Raft log addressed by absolute index

    Models [src/distlab/log_index.py], the class [RaftLogView], and [LogEntry]
    of [raft.py].  Commands are a type [C] with decidable equality; the
    [isinstance] checks hold by typing. *)

From S2P Require Import Prelude.

(** An error value in a pure computation. *)
Definition err {A} (c : exn_class) (msg : string) : exn + A := inl (Exn c msg).

(** Sequencing of pure computations that may raise. *)
Definition ebind {A B} (r : exn + A) (k : A → exn + B) : exn + B :=
  match r with inl e => inl e | inr a => k a end.

Section log.
Context {C : Type} `{EqDecision C}.

Record LogEntry := mkLogEntry {
  le_term : Z;
  le_command : C;
}.

#[global] Instance LogEntry_eq_dec : EqDecision LogEntry.
Proof. solve_decision. Defined.

Definition new_LogEntry (term : Z) (c : C) : exn + LogEntry :=
  if term <? 0 then err ValueError "log entry term must be non-negative"
  else inr (mkLogEntry term c).

Record RaftLogView := mkRaftLogView {
  base_index : Z;
  base_term : Z;
  entries : list LogEntry;
}.

(** The constructor, with the checks of [__post_init__]. *)
Definition new_RaftLogView (bi bt : Z) (es : list LogEntry) : exn + RaftLogView :=
  if bi <? 0 then err ValueError "log base index must be non-negative"
  else if bt <? 0 then err ValueError "log base term must be non-negative"
  else if (bi =? 0) && negb (bt =? 0) then
    err ValueError "log base term must be zero at index zero"
  else inr (mkRaftLogView bi bt es).

Definition uncompacted (es : list LogEntry) : exn + RaftLogView := new_RaftLogView 0 0 es.

Implicit Types (v : RaftLogView) (index term : Z).

Definition first_retained_index v : Z := v.(base_index) + 1.
Definition last_index v : Z := v.(base_index) + zlen v.(entries).
Definition last_term v : Z :=
  match last v.(entries) with Some e => e.(le_term) | None => v.(base_term) end.

Definition entry_at v index : exn + LogEntry :=
  if index <=? v.(base_index) then
    err IndexError "log index is at or before compacted boundary"
  else if last_index v <? index then err IndexError "log index exceeds last index"
  else match znth v.(entries) (index - v.(base_index) - 1) with
    | Some e => inr e
    | None => err IndexError "tuple index out of range"
    end.

Definition term_at v index : exn + Z :=
  if index =? v.(base_index) then inr v.(base_term)
  else ebind (entry_at v index) (λ e, inr e.(le_term)).

Definition suffix_from v index : exn + list LogEntry :=
  if index <? first_retained_index v then
    err IndexError "log index precedes first retained index"
  else if last_index v + 1 <? index then err IndexError "log index exceeds append position"
  else inr (drop (Z.to_nat (index - first_retained_index v)) v.(entries)).

Definition compact_through v index : exn + RaftLogView :=
  if index <? v.(base_index) then err IndexError "compaction index precedes current boundary"
  else if last_index v <? index then err IndexError "compaction index exceeds last index"
  else if index =? v.(base_index) then inr v
  else ebind (term_at v index) (λ boundary_term,
    new_RaftLogView index boundary_term
      (drop (Z.to_nat (index - v.(base_index))) v.(entries))).

Definition prefix_matches v index term : exn + bool :=
  if term <? 0 then err ValueError "log term must be non-negative"
  else if (index <? v.(base_index)) || (last_index v <? index) then inr false
  else ebind (term_at v index) (λ t, inr (t =? term)).

(** The [while] loop of [merge_after] from [insert_at], on what is left of the
    incoming entries. *)
Fixpoint merge_loop (retained : list LogEntry) (insert_at : nat) (incoming : list LogEntry)
    : exn + list LogEntry :=
  match incoming with
  | [] => inr retained
  | candidate :: incoming' =>
      match retained !! insert_at with
      | None => inr (retained ++ incoming)
      | Some existing =>
          if negb (existing.(le_term) =? candidate.(le_term)) then
            inr (take insert_at retained ++ incoming)
          else if negb (bool_decide (existing = candidate)) then
            err LogMatchingViolation "same index/term identifies different entries"
          else merge_loop retained (S insert_at) incoming'
      end
  end.

Definition merge_after v (prev_index : Z) (incoming : list LogEntry) : exn + list LogEntry :=
  if (prev_index <? v.(base_index)) || (last_index v <? prev_index) then
    err IndexError "previous log index is outside retained range"
  else if bool_decide (incoming = []) then inr v.(entries)
  else merge_loop v.(entries) (Z.to_nat (prev_index - v.(base_index))) incoming.

(** ** Laws *)

(** What the constructor accepts. *)
Definition view_wf v : Prop :=
  0 ≤ v.(base_index) ∧ 0 ≤ v.(base_term) ∧ (v.(base_index) = 0 → v.(base_term) = 0).

Lemma new_RaftLogView_wf bi bt es v :
  new_RaftLogView bi bt es = inr v ↔ v = mkRaftLogView bi bt es ∧ view_wf v.
Proof.
  unfold new_RaftLogView, view_wf, err. split.
  - destruct (Z.ltb_spec bi 0), (Z.ltb_spec bt 0), (Z.eqb_spec bi 0), (Z.eqb_spec bt 0);
      simpl; try done; intros [= <-]; (split; [done|simpl; lia]).
  - intros [-> (H1 & H2 & H3)]. simpl in *.
    destruct (Z.ltb_spec bi 0), (Z.ltb_spec bt 0), (Z.eqb_spec bi 0), (Z.eqb_spec bt 0);
      simpl; done || lia.
Qed.

Lemma entry_at_lookup v index e :
  entry_at v index = inr e ↔ v.(base_index) < index ∧ znth v.(entries) (index - v.(base_index) - 1) = Some e.
Proof.
  unfold entry_at, znth, last_index, zlen.
  destruct (Z.leb_spec index (base_index v)); [split; [done|lia]|].
  destruct (Z.ltb_spec (base_index v + Z.of_nat (length (entries v))) index).
  - split; [done|]. intros [_ Hl%lookup_lt_Some]. lia.
  - destruct (entries v !! _); naive_solver.
Qed.

Lemma entry_at_total v index :
  v.(base_index) < index ≤ last_index v → ∃ e, entry_at v index = inr e.
Proof.
  intros Hi. destruct (znth (entries v) (index - base_index v - 1)) as [e|] eqn:E.
  - exists e. apply entry_at_lookup. split; [lia|done].
  - unfold znth in E. apply lookup_ge_None in E. unfold last_index, zlen in Hi. lia.
Qed.

Lemma term_at_total v index :
  v.(base_index) ≤ index ≤ last_index v → ∃ t, term_at v index = inr t.
Proof.
  intros Hi. unfold term_at. destruct (Z.eqb_spec index (base_index v)); [by eexists|].
  destruct (entry_at_total v index) as [e ->]; [lia|]. by eexists.
Qed.

(** [max_prefix] splits the common prefix off: the loop in one step. *)
Lemma merge_loop_spec retained (insert_at : nat) incoming :
  (insert_at ≤ length retained)%nat →
  merge_loop retained insert_at incoming =
    match max_prefix (drop insert_at retained) incoming with
    | (_, [], _) => inr retained
    | ([], new, _) => inr (retained ++ new)
    | (x :: _, y :: _, _) =>
        if x.(le_term) =? y.(le_term) then
          err LogMatchingViolation "same index/term identifies different entries"
        else inr (take insert_at retained ++ incoming)
    end.
Proof.
  revert insert_at. induction incoming as [|y inc IH]; intros n Hn; simpl.
  { by destruct (drop n retained). }
  destruct (retained !! n) as [x|] eqn:Ex.
  - rewrite (drop_S _ _ _ Ex). simpl. destruct (decide (x = y)) as [->|Hne].
    + case_decide; [|done]. rewrite Z.eqb_refl, bool_decide_eq_true_2 by done. simpl.
      rewrite IH by (apply lookup_lt_Some in Ex; lia).
      destruct (max_prefix (drop (S n) retained) inc) as [[[|a l1] [|b l2]] k]; simpl; try done.
      destruct (_ =? _); [done|]. rewrite (take_S_r _ _ _ Ex), <-app_assoc. done.
    + case_decide; [done|]. rewrite bool_decide_eq_false_2 by done. simpl.
      by destruct (_ =? _).
  - apply lookup_ge_None in Ex. rewrite drop_ge by lia. done.
Qed.

Definition position v (index : Z) : nat := Z.to_nat (index - v.(base_index)).

Definition in_range v (index : Z) : Prop := v.(base_index) ≤ index ≤ last_index v.

Lemma position_le v index : in_range v index → (position v index ≤ length v.(entries))%nat.
Proof. unfold in_range, last_index, position, zlen. lia. Qed.

Lemma merge_after_loop v prev incoming :
  in_range v prev → merge_after v prev incoming = merge_loop v.(entries) (position v prev) incoming.
Proof.
  intros [H1 H2]. unfold merge_after.
  rewrite (proj2 (Z.ltb_ge _ _) H1), (proj2 (Z.ltb_ge _ _) H2). simpl.
  by case_bool_decide; subst.
Qed.

(** C40: [merge_after] against a reference: split the longest common prefix of
    the retained suffix and the incoming entries off; nothing new keeps the log,
    an exhausted log is extended, the first differing entry of another term cuts
    the log there, and one of the same term is a Log Matching violation.  A
    previous index outside the view is an [IndexError]. *)
Theorem merge_after_reference v prev incoming :
  merge_after v prev incoming =
    if bool_decide (in_range v prev) then
      match max_prefix (drop (position v prev) v.(entries)) incoming with
      | (_, [], _) => inr v.(entries)
      | ([], new, _) => inr (v.(entries) ++ new)
      | (x :: _, y :: _, _) =>
          if x.(le_term) =? y.(le_term) then
            err LogMatchingViolation "same index/term identifies different entries"
          else inr (take (position v prev) v.(entries) ++ incoming)
      end
    else err IndexError "previous log index is outside retained range".
Proof.
  case_bool_decide as Hr.
  - rewrite merge_after_loop by done. by apply merge_loop_spec, position_le.
  - unfold merge_after, in_range in *.
    destruct (Z.ltb_spec prev (base_index v)); [done|].
    destruct (Z.ltb_spec (last_index v) prev); [done|]. lia.
Qed.

(** The two shapes a merged log can have. *)
Lemma merge_loop_cases retained n incoming es :
  (n ≤ length retained)%nat → merge_loop retained n incoming = inr es →
  (es = retained ∧ incoming `prefix_of` drop n retained) ∨ es = take n retained ++ incoming.
Proof.
  intros Hn. rewrite merge_loop_spec by done.
  pose proof (max_prefix_fst (drop n retained) incoming) as H1.
  pose proof (max_prefix_snd (drop n retained) incoming) as H2.
  destruct (max_prefix _ _) as [[[|x l1] [|y l2]] k]; simpl in *.
  - intros [= <-]. left. split; [done|]. rewrite H1, H2. done.
  - intros [= <-]. right. rewrite H2. rewrite app_nil_r in H1. rewrite app_assoc, <-H1.
    by rewrite take_drop.
  - intros [= <-]. left. split; [done|]. rewrite app_nil_r in H2. rewrite H1, H2.
    by apply prefix_app_r.
  - destruct (_ =? _); intros [= <-]. by right.
Qed.

Lemma prefix_lookup (l k : list LogEntry) (i : nat) :
  l `prefix_of` k → (i < length l)%nat → k !! i = l !! i.
Proof. intros [r ->] Hi. by rewrite lookup_app_l. Qed.

Lemma merge_loop_again retained n incoming es :
  (n ≤ length retained)%nat → merge_loop retained n incoming = inr es →
  merge_loop es n incoming = inr es.
Proof.
  intros Hn Hm. pose proof (merge_loop_cases _ _ _ _ Hn Hm) as [[-> _]|Hes]; [done|]. subst es.
  rewrite merge_loop_spec by (rewrite length_app, length_take; lia).
  rewrite drop_app_le by (rewrite length_take; lia).
  rewrite (drop_ge (take n retained)) by (rewrite length_take; lia). simpl.
  assert (max_prefix incoming incoming = ([], [], incoming)) as ->; [|done].
  clear. induction incoming as [|x l IH]; simpl; [done|].
  case_decide; [|done]. by rewrite IH.
Qed.

(** After a merge the log holds the incoming entries right after
    [prev_index] and everything before it unchanged; entries beyond are kept
    unless a conflict cut them off; and delivering the same entries again (a
    duplicated AppendEntries) changes nothing. *)
Theorem merge_after_adopts v prev incoming es :
  merge_after v prev incoming = inr es →
  let p := position v prev in
  take p es = take p v.(entries)
  ∧ (∀ i, (i < length incoming)%nat → es !! (p + i)%nat = incoming !! i)
  ∧ (es = v.(entries) ∨ es = take p v.(entries) ++ incoming)
  ∧ merge_after (mkRaftLogView v.(base_index) v.(base_term) es) prev incoming = inr es.
Proof.
  intros Hm p. assert (in_range v prev) as Hr.
  { unfold merge_after, in_range in *. destruct (Z.ltb_spec prev (base_index v)); [done|].
    destruct (Z.ltb_spec (last_index v) prev); [done|]. lia. }
  rewrite merge_after_loop in Hm by done. fold p in Hm. pose proof (position_le v prev Hr) as Hp.
  pose proof (merge_loop_cases _ _ _ _ Hp Hm) as Hcases.
  assert (p ≤ length es)%nat as Hle.
  { destruct Hcases as [[-> _]|Hes]; [done|]. rewrite Hes, length_app, length_take. fold p in Hp. lia. }
  assert (in_range (mkRaftLogView (base_index v) (base_term v) es) prev) as Hr'.
  { subst p. unfold in_range, position, last_index, zlen in *. simpl. lia. }
  split_and!.
  - destruct Hcases as [[-> _]|Hes]; [done|]. rewrite Hes. fold p.
    rewrite take_app_le by (rewrite length_take; lia). by rewrite take_take, Nat.min_id.
  - intros i Hi. destruct Hcases as [[-> Hpre]|Hes].
    + rewrite <-lookup_drop. by apply prefix_lookup.
    + rewrite Hes. fold p. rewrite lookup_app_r by (rewrite length_take; lia).
      f_equal. rewrite length_take. fold p in Hp. lia.
  - destruct Hcases as [[-> _]|Hes]; [by left|by right].
  - rewrite merge_after_loop by done. exact (merge_loop_again _ _ _ _ Hp Hm).
Qed.

Lemma compact_eq v k t :
  v.(base_index) < k ≤ last_index v → term_at v k = inr t →
  compact_through v k = new_RaftLogView k t (drop (position v k) v.(entries)).
Proof.
  intros Hk Ht. unfold compact_through.
  rewrite (proj2 (Z.ltb_ge k _)), (proj2 (Z.ltb_ge _ k)) by lia.
  destruct (Z.eqb_spec k (base_index v)); [lia|]. by rewrite Ht.
Qed.

(** Everything at or above the new boundary reads the same. *)
Lemma entry_at_compact v k t index :
  v.(base_index) ≤ k ≤ last_index v → k < index →
  entry_at (mkRaftLogView k t (drop (position v k) v.(entries))) index = entry_at v index.
Proof.
  intros Hk Hi. unfold entry_at, last_index, position, zlen in *. simpl.
  rewrite length_drop. destruct (Z.leb_spec index k); [lia|].
  destruct (Z.leb_spec index (base_index v)); [lia|].
  replace (k + _) with (base_index v + Z.of_nat (length (entries v))) by lia.
  destruct (_ <? index); [done|]. unfold znth. rewrite lookup_drop.
  by replace (_ + _)%nat with (Z.to_nat (index - base_index v - 1)) by lia.
Qed.

Lemma term_at_compact v k t index :
  v.(base_index) ≤ k ≤ last_index v → term_at v k = inr t → k ≤ index →
  term_at (mkRaftLogView k t (drop (position v k) v.(entries))) index = term_at v index.
Proof.
  intros Hk Ht Hi. unfold term_at at 1. simpl. destruct (Z.eqb_spec index k) as [->|Hne].
  { by rewrite Ht. }
  rewrite entry_at_compact by lia. unfold term_at.
  destruct (Z.eqb_spec index (base_index v)); [lia|done].
Qed.

Lemma last_index_compact v k t :
  v.(base_index) ≤ k ≤ last_index v →
  last_index (mkRaftLogView k t (drop (position v k) v.(entries))) = last_index v.
Proof. intros Hk. unfold last_index, position, zlen in *. simpl. rewrite length_drop. lia. Qed.

Lemma term_nonneg v index t :
  view_wf v → Forall (λ e, 0 ≤ e.(le_term)) v.(entries) → term_at v index = inr t → 0 ≤ t.
Proof.
  intros (_ & Hb & _) Hes. unfold term_at. destruct (_ =? _); [by intros [= <-]|].
  destruct (entry_at v index) as [e|e] eqn:E; simpl; [done|]. intros [= <-].
  apply entry_at_lookup in E as [_ E]. by eapply Forall_lookup_1 in Hes.
Qed.

(** Compacting a well-formed view through any index it covers succeeds,
    gives a well-formed view with that boundary, and leaves the last index, the
    terms, entries, suffixes and AppendEntries prefix checks at or above it as
    they were. *)
Theorem compact_through_preserves v k :
  view_wf v → Forall (λ e, 0 ≤ e.(le_term)) v.(entries) → in_range v k →
  ∃ v', compact_through v k = inr v' ∧ view_wf v' ∧ v'.(base_index) = k
    ∧ last_index v' = last_index v
    ∧ ∀ index, k ≤ index →
        term_at v' index = term_at v index
        ∧ (∀ t, prefix_matches v' index t = prefix_matches v index t)
        ∧ (k < index → entry_at v' index = entry_at v index
             ∧ suffix_from v' index = suffix_from v index).
Proof.
  intros Hwf Hes Hk. destruct (term_at_total v k) as [t Ht]; [done|].
  destruct (decide (k = base_index v)) as [->|Hne].
  { exists v. unfold compact_through. rewrite Z.ltb_irrefl, Z.eqb_refl.
    rewrite (proj2 (Z.ltb_ge _ _)) by apply Hk. done. }
  unfold in_range in Hk. rewrite (compact_eq v k t) by (done || lia).
  pose proof (term_nonneg v k t Hwf Hes Ht) as Hpos. destruct Hwf as (Hb & _ & _).
  eexists. split; [apply new_RaftLogView_wf; split; [done|]|].
  { unfold view_wf. simpl. lia. }
  split; [unfold view_wf; simpl; lia|]. split; [done|].
  pose proof (last_index_compact v k t Hk) as Hl. split; [done|].
  intros index Hi. pose proof (term_at_compact v k t index Hk Ht Hi) as Hterm. split; [done|]. split.
  - intros u. unfold prefix_matches. rewrite Hl, Hterm. simpl.
    destruct (u <? 0); [done|].
    by rewrite (proj2 (Z.ltb_ge index k)), (proj2 (Z.ltb_ge index (base_index v))) by lia.
  - intros Hlt. split; [by apply entry_at_compact; lia|].
    unfold suffix_from. rewrite Hl. unfold first_retained_index. simpl.
    rewrite (proj2 (Z.ltb_ge index (k + 1))), (proj2 (Z.ltb_ge index (base_index v + 1))) by lia.
    destruct (_ <? index); [done|]. rewrite drop_drop. unfold position.
    do 2 f_equal. lia.
Qed.
End log.

Arguments LogEntry C : clear implicits.
Arguments RaftLogView C : clear implicits.

(** ** Concrete views *)

Definition demo_entry t c : LogEntry string := mkLogEntry t c.

(** A follower compacted through index 2, with a conflicting tail. *)
Definition demo_view : RaftLogView string :=
  mkRaftLogView 2 1 [demo_entry 1 "a"; demo_entry 1 "b"; demo_entry 2 "stale"].
Definition demo_incoming : list (LogEntry string) := [demo_entry 1 "b"; demo_entry 3 "c"].
Definition demo_merged : list (LogEntry string) :=
  [demo_entry 1 "a"; demo_entry 1 "b"; demo_entry 3 "c"].

Lemma merge_after_adopts_witness :
  merge_after demo_view 3 demo_incoming = inr demo_merged
  ∧ demo_merged !! 2%nat = Some (demo_entry 3 "c")
  ∧ merge_after (mkRaftLogView 2 1 demo_merged) 3 demo_incoming = inr demo_merged.
Proof.
  assert (merge_after demo_view 3 demo_incoming = inr demo_merged) as Hm
    by (vm_compute; reflexivity).
  destruct (merge_after_adopts demo_view 3 demo_incoming demo_merged Hm) as (_ & H1 & _ & H2).
  split; [exact Hm|]. split; [|exact H2].
  pose proof (H1 1%nat ltac:(simpl; lia)) as H. vm_compute in H. vm_compute. exact H.
Defined.

Lemma compact_through_preserves_witness :
  ∃ v', compact_through demo_view 4 = inr v' ∧ view_wf v' ∧ v'.(base_index) = 4.
Proof.
  destruct (compact_through_preserves demo_view 4) as (v' & H1 & H2 & H3 & _).
  - unfold view_wf. simpl. repeat split; try lia; try (intros; lia).
  - repeat constructor; simpl; lia.
  - unfold in_range, last_index, zlen. simpl. lia.
  - exists v'. split; [exact H1|]. split; [exact H2|exact H3].
Defined.
