(* ===== verification/KVCommands.v ===== *)
(** * KVCommands: the operations of the replicated key/value store

    The data types at the top of [src/distlab/kv.py] and [Get] of
    [linearizability.py], with the checks of their constructors. *)

From S2P Require Import Prelude.

Inductive KVOperation :=
  | Put (key value : string)
  | Delete (key : string).

#[global] Instance KVOperation_eq_dec : EqDecision KVOperation.
Proof. solve_decision. Defined.

Definition empty_str (s : string) : bool := (s =? "")%string.

(** A constructor whose check fails raises. *)
Definition checked {A} (bad : bool) (c : exn_class) (msg : string) (a : A) : exn + A :=
  if bad then inl (Exn c msg) else inr a.

Definition new_Put (key value : string) : exn + KVOperation :=
  checked (empty_str key) ValueError "KV key must be non-empty" (Put key value).

Definition new_Delete (key : string) : exn + KVOperation :=
  checked (empty_str key) ValueError "KV key must be non-empty" (Delete key).

(** [ClientRequest]: a write with the identity its retries keep. *)
Record ClientRequest := mkClientRequest {
  cr_client_id : string;
  cr_request_id : Z;
  cr_operation : KVOperation;
}.

#[global] Instance ClientRequest_eq_dec : EqDecision ClientRequest.
Proof. solve_decision. Defined.

Definition new_ClientRequest (client : string) (request : Z) (op : KVOperation)
    : exn + ClientRequest :=
  if empty_str client then inl (Exn ValueError "client_id must be non-empty")
  else checked (request <? 0) ValueError "request_id must be non-negative"
    (mkClientRequest client request op).

(** [Put | Delete | Get] *)
Inductive HistoryOperation :=
  | HWrite (op : KVOperation)
  | HGet (key : string).

#[global] Instance HistoryOperation_eq_dec : EqDecision HistoryOperation.
Proof. solve_decision. Defined.

Definition new_Get (key : string) : exn + HistoryOperation :=
  checked (empty_str key) ValueError "KV key must be non-empty" (HGet key).

Definition kv_key (op : KVOperation) : string :=
  match op with Put k _ => k | Delete k => k end.

Definition op_key (op : HistoryOperation) : string :=
  match op with HWrite w => kv_key w | HGet k => k end.

Definition is_write (op : HistoryOperation) : bool :=
  match op with HWrite _ => true | HGet _ => false end.
