(* ===== verification/History.v ===== *)
(** * History: client operation histories

    Models the class [OperationHistory] of [src/distlab/linearizability.py].
    Its [_invocations] dict is a list in insertion order, keyed by
    [operation_id]; the other dicts are finite maps. *)

From S2P Require Import Prelude KVCommands.

Definition HistoryResult : Type := option string.

Record Invocation := mkInvocation {
  inv_operation_id : string;
  inv_client_id : string;
  inv_operation : HistoryOperation;
  inv_sequence : Z;
}.

Record Completion := mkCompletion {
  cpl_operation_id : string;
  cpl_result : HistoryResult;
  cpl_sequence : Z;
}.

Record CompletedOperation := mkCompletedOperation {
  co_invocation : Invocation;
  co_completion : Completion;
}.

#[global] Instance Invocation_eq_dec : EqDecision Invocation.
Proof. solve_decision. Defined.
#[global] Instance Completion_eq_dec : EqDecision Completion.
Proof. solve_decision. Defined.
#[global] Instance CompletedOperation_eq_dec : EqDecision CompletedOperation.
Proof. solve_decision. Defined.

Definition co_operation_id (c : CompletedOperation) : string := c.(co_invocation).(inv_operation_id).

Record OperationHistory := mkHistory {
  h_sequence : Z;
  h_invocations : list Invocation;
  h_completions : gmap string Completion;
  h_abandoned : gset string;
  h_client_request_ids : gmap string Z;
  h_active_client_requests : gmap (string * Z) string;
}.

Definition new_history : OperationHistory := mkHistory 0 [] ∅ ∅ ∅ ∅.

Definition set_sequence v h := mkHistory v h.(h_invocations) h.(h_completions) h.(h_abandoned) h.(h_client_request_ids) h.(h_active_client_requests).
Definition set_invocations v h := mkHistory h.(h_sequence) v h.(h_completions) h.(h_abandoned) h.(h_client_request_ids) h.(h_active_client_requests).
Definition set_completions v h := mkHistory h.(h_sequence) h.(h_invocations) v h.(h_abandoned) h.(h_client_request_ids) h.(h_active_client_requests).
Definition set_abandoned v h := mkHistory h.(h_sequence) h.(h_invocations) h.(h_completions) v h.(h_client_request_ids) h.(h_active_client_requests).
Definition set_request_ids v h := mkHistory h.(h_sequence) h.(h_invocations) h.(h_completions) h.(h_abandoned) v h.(h_active_client_requests).
Definition set_active_requests v h := mkHistory h.(h_sequence) h.(h_invocations) h.(h_completions) h.(h_abandoned) h.(h_client_request_ids) v.

Abbreviation HM := (M OperationHistory).
Implicit Types (h : OperationHistory) (id : string).

(** [self._invocations.get(operation_id)] *)
Definition invocation_of h id : option Invocation :=
  head (filter (λ i, i.(inv_operation_id) = id) h.(h_invocations)).

Definition completed_id h id : bool := bool_decide (is_Some (h.(h_completions) !! id)).

Definition next_sequence : HM Z :=
  let! s := gets h_sequence in
  modify (set_sequence (s + 1)) ;;
  ret s.

Definition invoke (id client : string) (op : HistoryOperation) : HM Invocation :=
  raise_if (empty_str id) ValueError "operation_id must be non-empty" ;;
  raise_if (empty_str client) ValueError "client_id must be non-empty" ;;
  let! existing := gets (λ h, invocation_of h id) in
  raise_if (bool_decide (is_Some existing)) InvalidHistory "duplicate invocation" ;;
  let! s := next_sequence in
  let invocation := mkInvocation id client op s in
  modify (λ h, set_invocations (h.(h_invocations) ++ [invocation]) h) ;;
  ret invocation.

(** The invocation, or the error a method raises without one. *)
Definition require_invocation id : HM Invocation :=
  let! i := gets (λ h, invocation_of h id) in
  match i with
  | Some i => ret i
  | None => raise InvalidHistory "without invocation for operation"
  end.

Definition respond id (result : HistoryResult) : HM Completion :=
  let! invocation := require_invocation id in
  let! h := gets (λ h, h) in
  raise_if (completed_id h id) InvalidHistory "duplicate response" ;;
  raise_if (bool_decide (id ∈ h.(h_abandoned))) InvalidHistory
    "response for abandoned operation" ;;
  raise_if (is_write invocation.(inv_operation) && bool_decide (is_Some result))
    InvalidHistory "Put/Delete responses must be None" ;;
  let! s := next_sequence in
  let completion := mkCompletion id result s in
  modify (λ h, set_completions (<[id := completion]> h.(h_completions)) h) ;;
  ret completion.

Definition abandon id : HM Invocation :=
  let! invocation := require_invocation id in
  let! h := gets (λ h, h) in
  raise_if (completed_id h id) InvalidHistory "cannot abandon completed operation" ;;
  raise_if (is_write invocation.(inv_operation)) InvalidHistory
    "cannot abandon unresolved client write" ;;
  raise_if (bool_decide (id ∈ h.(h_abandoned))) InvalidHistory "duplicate abandonment" ;;
  modify (λ h, set_abandoned ({[id]} ∪ h.(h_abandoned)) h) ;;
  ret invocation.

Definition attach_client_request_id id (request : Z) : HM unit :=
  let! invocation := require_invocation id in
  let! h := gets (λ h, h) in
  raise_if (negb (is_write invocation.(inv_operation))) InvalidHistory
    "client request identity may only be attached to Put/Delete" ;;
  raise_if (completed_id h id) InvalidHistory
    "client request identity cannot be attached after response" ;;
  raise_if (request <? 0) ValueError "request_id must be non-negative" ;;
  raise_if (bool_decide (is_Some (h.(h_client_request_ids) !! id))) InvalidHistory
    "duplicate client request identity" ;;
  let identity := (invocation.(inv_client_id), request) in
  raise_if (bool_decide (is_Some (h.(h_active_client_requests) !! identity))) InvalidHistory
    "client request identity is already attached to active operation" ;;
  modify (λ h, set_request_ids (<[id := request]> h.(h_client_request_ids)) h) ;;
  modify (λ h, set_active_requests (<[identity := id]> h.(h_active_client_requests)) h).

Definition client_request_id h id : option Z := h.(h_client_request_ids) !! id.

Definition retire_client_request_id id : HM Z :=
  let! h := gets (λ h, h) in
  raise_if (negb (completed_id h id)) InvalidHistory
    "client request identity cannot retire before response" ;;
  let! invocation := (match invocation_of h id with
    | Some i => ret i
    | None => raise KeyError "operation_id"
    end : HM Invocation) in
  match h.(h_client_request_ids) !! id with
  | None => raise InvalidHistory "missing client request identity for completed operation"
  | Some request =>
      modify (λ h, set_request_ids (delete id h.(h_client_request_ids)) h) ;;
      let identity := (invocation.(inv_client_id), request) in
      when (negb (bool_decide (h.(h_active_client_requests) !! identity = Some id)))
        (modify (λ h, set_request_ids (<[id := request]> h.(h_client_request_ids)) h) ;;
         raise InvalidHistory "active client request identity owner mismatch") ;;
      modify (λ h, set_active_requests (delete identity h.(h_active_client_requests)) h) ;;
      ret request
  end.

Definition is_abandoned h id : bool := bool_decide (id ∈ h.(h_abandoned)).

(** [sorted(..., key=lambda item: item.sequence)] *)
Definition by_sequence (i j : Invocation) : Prop := i.(inv_sequence) ≤ j.(inv_sequence).
#[global] Instance by_sequence_dec : RelDecision by_sequence.
Proof. intros i j. unfold by_sequence. apply _. Defined.

Definition invocations h : list Invocation := merge_sort by_sequence h.(h_invocations).

Definition co_by_sequence (c d : CompletedOperation) : Prop :=
  by_sequence c.(co_invocation) d.(co_invocation).
#[global] Instance co_by_sequence_dec : RelDecision co_by_sequence.
Proof. intros c d. unfold co_by_sequence. apply _. Defined.

Definition completed h : list CompletedOperation :=
  merge_sort co_by_sequence
    (omap (λ i, mkCompletedOperation i <$> h.(h_completions) !! i.(inv_operation_id))
       h.(h_invocations)).

Definition abandoned h : list Invocation :=
  filter (λ i, i.(inv_operation_id) ∈ h.(h_abandoned)) (invocations h).

Definition pending h : list Invocation :=
  filter (λ i, h.(h_completions) !! i.(inv_operation_id) = None) (invocations h).

(** ** The invariant *)

Record history_wf h : Prop := {
  wf_nonneg : 0 ≤ h.(h_sequence);
  wf_ids : NoDup (inv_operation_id <$> h.(h_invocations));
  wf_sorted : StronglySorted (λ i j, i.(inv_sequence) < j.(inv_sequence)) h.(h_invocations);
  wf_fresh i : i ∈ h.(h_invocations) → 0 ≤ i.(inv_sequence) < h.(h_sequence);
  wf_completion id c : h.(h_completions) !! id = Some c →
    c.(cpl_operation_id) = id ∧ c.(cpl_sequence) < h.(h_sequence) ∧
    ∃ i, invocation_of h id = Some i ∧ i.(inv_sequence) < c.(cpl_sequence)
      ∧ (is_write i.(inv_operation) = true → c.(cpl_result) = None);
  wf_abandoned id : id ∈ h.(h_abandoned) →
    h.(h_completions) !! id = None ∧
    ∃ i, invocation_of h id = Some i ∧ is_write i.(inv_operation) = false;
  wf_request id r : h.(h_client_request_ids) !! id = Some r →
    ∃ i, invocation_of h id = Some i ∧ is_write i.(inv_operation) = true
      ∧ h.(h_active_client_requests) !! (i.(inv_client_id), r) = Some id;
  wf_active client r id : h.(h_active_client_requests) !! (client, r) = Some id →
    h.(h_client_request_ids) !! id = Some r
    ∧ ∃ i, invocation_of h id = Some i ∧ i.(inv_client_id) = client;
  wf_named i : i ∈ h.(h_invocations) →
    empty_str i.(inv_operation_id) = false ∧ empty_str i.(inv_client_id) = false;
  wf_moment id c : h.(h_completions) !! id = Some c →
    (∀ i, i ∈ h.(h_invocations) → i.(inv_sequence) ≠ c.(cpl_sequence))
    ∧ ∀ id' c', h.(h_completions) !! id' = Some c' → c.(cpl_sequence) = c'.(cpl_sequence) → id = id';
}.

Inductive history_op :=
  | HInvoke (id client : string) (op : HistoryOperation)
  | HRespond (id : string) (result : HistoryResult)
  | HAbandon (id : string)
  | HAttach (id : string) (request : Z)
  | HRetire (id : string).

Definition exec_history_op (o : history_op) : HM unit :=
  match o with
  | HInvoke id client op => invoke id client op ;; ret tt
  | HRespond id result => respond id result ;; ret tt
  | HAbandon id => abandon id ;; ret tt
  | HAttach id request => attach_client_request_id id request
  | HRetire id => retire_client_request_id id ;; ret tt
  end.

Definition exec_history (l : list history_op) (h : OperationHistory) : OperationHistory :=
  foldl (λ h o, (exec_history_op o h).1) h l.

Lemma invocation_of_elem h id i :
  invocation_of h id = Some i → i ∈ h.(h_invocations) ∧ i.(inv_operation_id) = id.
Proof.
  unfold invocation_of. intros Hi.
  assert (i ∈ filter (λ i, i.(inv_operation_id) = id) h.(h_invocations)) as Hin.
  { destruct (filter _ _); [done|]. simplify_eq/=. by left. }
  apply list_elem_of_filter in Hin as [? ?]. done.
Qed.

Lemma invocation_of_none h id :
  invocation_of h id = None ↔ id ∉ (inv_operation_id <$> h.(h_invocations)).
Proof.
  unfold invocation_of. rewrite list_elem_of_fmap. split.
  - intros Hn (i & -> & Hi).
    assert (i ∈ filter (λ j, j.(inv_operation_id) = i.(inv_operation_id)) h.(h_invocations)) as Hin
      by (by apply list_elem_of_filter).
    destruct (filter _ _); [by apply elem_of_nil in Hin|done].
  - intros Hn. destruct (filter _ _) as [|i l] eqn:E; [done|]. exfalso. apply Hn.
    assert (i ∈ filter (λ i, i.(inv_operation_id) = id) h.(h_invocations)) as Hin by (rewrite E; by left).
    apply list_elem_of_filter in Hin as [<- ?]. by exists i.
Qed.

(** An operation's invocation, once there, is never replaced. *)
Lemma invocation_of_app h i id s :
  invocation_of h i.(inv_operation_id) = None →
  invocation_of (set_invocations (h.(h_invocations) ++ [i]) (set_sequence s h)) id =
    if decide (id = i.(inv_operation_id)) then Some i else invocation_of h id.
Proof.
  intros Hn. unfold invocation_of. simpl. rewrite filter_app.
  destruct (decide (id = inv_operation_id i)) as [->|Hne].
  - apply invocation_of_none in Hn.
    assert (filter (λ j, inv_operation_id j = inv_operation_id i) (h_invocations h) = []) as ->.
    { apply filter_none. intros j Hj Heq. apply Hn. apply list_elem_of_fmap. by exists j. }
    rewrite filter_cons_True by done. done.
  - rewrite filter_cons_False by congruence. by rewrite filter_nil, app_nil_r.
Qed.

(** ** What a method that returns has done *)

Definition with_invocation h id client op : OperationHistory :=
  set_invocations (h.(h_invocations) ++ [mkInvocation id client op h.(h_sequence)])
    (set_sequence (h.(h_sequence) + 1) h).

Definition with_completion h id value : OperationHistory :=
  set_completions (<[id := mkCompletion id value h.(h_sequence)]> h.(h_completions))
    (set_sequence (h.(h_sequence) + 1) h).

Lemma wp_invoke h id client op :
  wp (invoke id client op) (λ h' _, h' = with_invocation h id client op ∧ invocation_of h id = None)
    (λ h' e, h' = h ∧ (e.(exn_cls) = ValueError ∨ is_Some (invocation_of h id))) h.
Proof.
  unfold invoke, next_sequence. repeat (wp_step; cbv beta).
  - split; [done|by left].
  - split; [done|by left].
  - split; [done|right]. by apply bool_decide_eq_true in H1.
  - split; [done|]. by apply bool_decide_eq_false, eq_None_not_Some in H1.
Qed.

Lemma wp_respond h id value :
  wp (respond id value) (λ h' _, h' = with_completion h id value ∧ h.(h_completions) !! id = None)
    (λ h' _, h' = h) h.
Proof.
  unfold respond, require_invocation, next_sequence. wp_steps.
  destruct (invocation_of h id) as [i|]; [|done]. wp_steps; [done..|]. split; [done|].
  unfold completed_id in H. by apply bool_decide_eq_false, eq_None_not_Some in H.
Qed.

Lemma respond_returns h id value i :
  invocation_of h id = Some i → h.(h_completions) !! id = None → id ∉ h.(h_abandoned) →
  (is_write i.(inv_operation) = true → value = None) →
  respond id value h = (with_completion h id value, inr (mkCompletion id value h.(h_sequence))).
Proof.
  intros Hi Hc Ha Hv. unfold respond, require_invocation, next_sequence, bind, gets, modify, raise_if.
  rewrite Hi. simpl. unfold completed_id. rewrite Hc, bool_decide_eq_false_2, bool_decide_eq_false_2; [|done|by intros []].
  destruct (is_write _); [rewrite Hv by done|]; done.
Qed.

(** ** Every method keeps the invariant *)

(** A method that raises leaves the history as it was, and never meets the
    owner-mismatch error of [retire_client_request_id]: the state that error
    reports does not arise. *)
Definition refused h h' (e : exn) : Prop :=
  h' = h ∧ exn_msg e ≠ "active client request identity owner mismatch"%string.

Ltac by_method := repeat (wp_step; cbv beta); try done; try (by split).

Lemma invoke_wf h id client op :
  history_wf h → wp (invoke id client op) (λ h' _, history_wf h') (refused h) h.
Proof.
  intros Hw. unfold invoke, next_sequence. by_method.
  destruct (invocation_of h id) as [i|] eqn:Hn; [done|].
  set (i := mkInvocation id client op (h_sequence h)).
  pose proof (λ id', invocation_of_app h i id' (h_sequence h + 1) Hn) as Happ.
  assert (∀ id' j, invocation_of h id' = Some j →
    invocation_of (set_invocations (h_invocations h ++ [i]) (set_sequence (h_sequence h + 1) h)) id' = Some j) as Hkeep.
  { intros id' j Hj. rewrite Happ. destruct (decide _) as [->|]; [|done].
    exfalso. simpl in Hj. by rewrite Hn in Hj. }
  destruct Hw. split; simpl; [lia|..].
  - rewrite fmap_app. apply NoDup_app. split_and!; [done| |apply NoDup_singleton].
    intros x Hx ->%list_elem_of_singleton. by apply invocation_of_none in Hn.
  - apply StronglySorted_app_2; [|done|repeat constructor].
    intros j k Hj%wf_fresh0 ->%list_elem_of_singleton. simpl. lia.
  - intros j [Hj%wf_fresh0| ->%list_elem_of_singleton]%elem_of_app; simpl; lia.
  - intros id' c Hc. destruct (wf_completion0 id' c Hc) as (? & ? & j & ? & ? & ?).
    split_and!; [done|lia|]. exists j. split_and!; [by apply Hkeep|done..].
  - intros id' Ha. destruct (wf_abandoned0 id' Ha) as (? & j & ? & ?). eauto.
  - intros id' r Hr. destruct (wf_request0 id' r Hr) as (j & ? & ? & ?). eauto.
  - intros cl r id' Hr. destruct (wf_active0 cl r id' Hr) as (? & j & ? & ?). eauto.
  - intros j [Hj| ->%list_elem_of_singleton]%elem_of_app; [by apply wf_named0|done].
  - intros id' c Hc. destruct (wf_moment0 id' c Hc) as [Hm ?]. split; [|done].
    intros j [Hj| ->%list_elem_of_singleton]%elem_of_app; [by apply Hm|]. simpl.
    destruct (wf_completion0 id' c Hc) as (_ & ? & _). lia.
Qed.

Lemma respond_wf h id result :
  history_wf h → wp (respond id result) (λ h' _, history_wf h') (refused h) h.
Proof.
  intros Hw. unfold respond, require_invocation, next_sequence. by_method.
  destruct (invocation_of h id) as [i|] eqn:Hi; [|done]. by_method.
  pose proof (invocation_of_elem _ _ _ Hi) as [Hin Hid].
  destruct Hw. pose proof (wf_fresh0 i Hin). split; simpl; try done; [lia|..].
  - intros j Hj%wf_fresh0. lia.
  - intros id' c [[<- <-]|[Hne Hc]]%lookup_insert_Some; simpl.
    + split_and!; [done|lia|]. exists i. split_and!; [done|lia|].
      intros Hwr. rewrite Hwr in H1. simpl in H1. destruct result; [|done].
      by rewrite bool_decide_eq_true_2 in H1.
    + destruct (wf_completion0 id' c Hc) as (? & ? & ?). split_and!; [done|lia|done].
  - intros id' Ha. destruct (wf_abandoned0 id' Ha) as (? & Hi'). split; [|done].
    rewrite lookup_insert_ne; [done|]. intros ->. by apply bool_decide_eq_false in H0.
  - intros id' c [[<- <-]|[Hne Hc]]%lookup_insert_Some; simpl; split.
    + intros j Hj%wf_fresh0. lia.
    + intros id2 c2 [[<- <-]|[_ Hc2]]%lookup_insert_Some; [done|].
      destruct (wf_completion0 id2 c2 Hc2) as (_ & ? & _). lia.
    + by apply (wf_moment0 id' c Hc).
    + intros id2 c2 [[<- <-]|[_ Hc2]]%lookup_insert_Some; simpl.
      * destruct (wf_completion0 id' c Hc) as (_ & ? & _). lia.
      * by apply (wf_moment0 id' c Hc).
Qed.

Lemma abandon_wf h id :
  history_wf h → wp (abandon id) (λ h' _, history_wf h') (refused h) h.
Proof.
  intros Hw. unfold abandon, require_invocation. by_method.
  destruct (invocation_of h id) as [i|] eqn:Hi; [|done]. by_method.
  destruct Hw. split; simpl; try done.
  intros id' [->%elem_of_singleton|Ha]%elem_of_union; [|by apply wf_abandoned0].
  split; [|by exists i]. unfold completed_id in H. apply bool_decide_eq_false in H.
  by apply eq_None_not_Some.
Qed.

Lemma attach_wf h id r :
  history_wf h → wp (attach_client_request_id id r) (λ h' _, history_wf h') (refused h) h.
Proof.
  intros Hw. unfold attach_client_request_id, require_invocation. by_method.
  destruct (invocation_of h id) as [i|] eqn:Hi; [|done]. by_method.
  apply negb_false_iff in H. apply bool_decide_eq_false in H2, H3.
  destruct Hw. split; simpl; try done.
  - intros id' r' [[<- <-]|[Hne Hr]]%lookup_insert_Some.
    + exists i. split_and!; [done..|]. by rewrite lookup_insert_eq.
    + destruct (wf_request0 id' r' Hr) as (j & ? & ? & Hact). exists j. split_and!; [done..|].
      rewrite lookup_insert_ne; [done|]. intros Heq. apply H3. rewrite Heq. by exists id'.
  - intros cl r' id' [[[= <- <-] <-]|[Hne Hr]]%lookup_insert_Some.
    + rewrite lookup_insert_eq. split; [done|]. by exists i.
    + destruct (wf_active0 cl r' id' Hr) as [Hq ?]. split; [|done].
      rewrite lookup_insert_ne; [done|]. intros ->. apply H2. by exists r'.
Qed.

Lemma retire_wf h id :
  history_wf h → wp (retire_client_request_id id) (λ h' _, history_wf h')
    (refused h) h.
Proof.
  intros Hw. unfold retire_client_request_id. by_method.
  apply negb_false_iff, bool_decide_eq_true in H as [c Hc].
  destruct (wf_completion _ Hw id c Hc) as (_ & _ & i & Hi & _). rewrite Hi. by_method.
  destruct (h_client_request_ids h !! id) as [r|] eqn:Hr; [|by_method].
  destruct (wf_request _ Hw id r Hr) as (j & Hj & Hwr & Hact). rewrite Hi in Hj. simplify_eq.
  by_method.
  { rewrite Hact, bool_decide_eq_true_2 in H; done. }
  destruct Hw. split; simpl; try done.
  - intros id' r' [Hne Hr']%lookup_delete_Some.
    destruct (wf_request0 id' r' Hr') as (k & ? & ? & Hk). exists k. split_and!; [done..|].
    rewrite lookup_delete_ne; [done|]. intros Heq. rewrite <-Heq in Hk. congruence.
  - intros cl r' id' [Hne Hr']%lookup_delete_Some.
    destruct (wf_active0 cl r' id' Hr') as [Hq (k & Hk & <-)]. split; [|by exists k].
    rewrite lookup_delete_ne; [done|]. intros <-. apply Hne. rewrite Hr in Hq. simplify_eq.
Qed.

Lemma new_history_wf : history_wf new_history.
Proof.
  split; simpl; try done; try (by constructor); by intros i []%elem_of_nil.
Qed.

Lemma exec_history_op_wf h o :
  history_wf h → wp (exec_history_op o) (λ h' _, history_wf h') (refused h) h.
Proof.
  intros Hw. destruct o as [id cl op|id r|id|id r|id]; simpl.
  - apply wp_bind. eapply wp_mono; [by apply invoke_wf|done..].
  - apply wp_bind. eapply wp_mono; [by apply respond_wf|done..].
  - apply wp_bind. eapply wp_mono; [by apply abandon_wf|done..].
  - by apply attach_wf.
  - apply wp_bind. eapply wp_mono; [by apply retire_wf|done..].
Qed.

Lemma exec_history_wf l h : history_wf h → history_wf (exec_history l h).
Proof.
  revert h. induction l as [|o l IH]; intros h Hw; simpl; [done|]. apply IH.
  pose proof (exec_history_op_wf h o Hw) as Ho. unfold wp in Ho.
  destruct (exec_history_op o h) as [h' [e|[]]]; simpl; [|done]. by destruct Ho as [-> _].
Qed.

(** C39: every history a client can build is well formed: unique operation
    ids, strictly increasing sequence numbers, responses after invocations,
    abandoned operations never answered, and request identities attached to
    one unresolved write each.  A method that raises changes nothing. *)
Theorem history_invariant l o :
  let h := exec_history l new_history in
  history_wf h ∧
  match exec_history_op o h with
  | (h', inr _) => history_wf h'
  | (h', inl e) => refused h h' e
  end.
Proof.
  cbv zeta. pose proof (exec_history_wf l _ new_history_wf) as Hw. split; [done|].
  pose proof (exec_history_op_wf _ o Hw) as Ho. unfold wp in Ho.
  by destruct (exec_history_op o _) as [h' [e|[]]].
Qed.
