(* ===== verification/Linearizability.v ===== *)
(** * Linearizability: the exhaustive single-key checker

    Models [SingleKeyKVLinearizabilityChecker] of
    [src/distlab/linearizability.py].  The nested [search] functions of
    [check] and [check_with_pending_extensions] differ in their goal mask, in
    what an operation does to the value and in the state budget, and share the
    rest; [search] is that function, with those as parameters.  Its recursion
    takes fuel: each call selects one more operation, so one more than the
    number of operations is enough ([search_complete] below shows it).

    The masks are Python integers with their bit operations. *)

From S2P Require Import Prelude KVCommands History.

Record LinearizabilityResult := mkResult {
  lr_linearizable : bool;
  lr_order : list string;
}.

Record CompletionExtensionResult := mkExtensionResult {
  ce_linearizable : bool;
  ce_order : list string;
  ce_included_pending : list string;
  ce_omitted_pending : list string;
}.

(** [_apply]: the next value, [None] for [_INVALID]. *)
Definition apply_completed (item : CompletedOperation) (value : option string)
    : option (option string) :=
  let result := item.(co_completion).(cpl_result) in
  match item.(co_invocation).(inv_operation) with
  | HWrite (Put _ v) => if bool_decide (result = None) then Some (Some v) else None
  | HWrite (Delete _) => if bool_decide (result = None) then Some None else None
  | HGet _ => if bool_decide (result = value) then Some value else None
  end.

(** [1 << index] *)
Definition bit (index : nat) : Z := Z.shiftl 1 (Z.of_nat index).

(** [mask |= 1 << index] for the members of a list that satisfy a test. *)
Fixpoint mask_of {A} (f : A → bool) (index : nat) (l : list A) : Z :=
  match l with
  | [] => 0
  | x :: l' => Z.lor (if f x then bit index else 0) (mask_of f (S index) l')
  end.

(** [sum(1 << index for ...)] *)
Fixpoint mask_sum {A} (f : A → bool) (index : nat) (l : list A) : Z :=
  match l with
  | [] => 0
  | x :: l' => (if f x then bit index else 0) + mask_sum f (S index) l'
  end.

Record SearchState := mkSearchState {
  failed : gset (Z * option string);
  expanded : Z;
}.

Definition add_failed k (s : SearchState) : SearchState :=
  mkSearchState ({[k]} ∪ s.(failed)) s.(expanded).
Definition count_state (s : SearchState) : SearchState :=
  mkSearchState s.(failed) (s.(expanded) + 1).

Section search.
Context (n : nat).
Context (step : nat → option string → option (option string)).
Context (predecessors : nat → Z).
Context (is_goal : Z → bool).
Context (max_states : option Z).
Implicit Types (mask : Z) (value : option string) (s : SearchState).

Section body.
Context (rec : Z → option string → M SearchState (option (list nat))).

(** The [for] loop, over the operations still to be tried. *)
Fixpoint try_each mask value (indices : list nat) : M SearchState (option (list nat)) :=
  match indices with
  | [] =>
      modify (add_failed (mask, value)) ;;
      ret None
  | index :: rest =>
      let b := bit index in
      if negb (Z.land mask b =? 0) || negb (Z.land (predecessors index) (Z.lnot mask) =? 0)
      then try_each mask value rest
      else
        match step index value with
        | None => try_each mask value rest
        | Some next_value =>
            let! suffix := rec (Z.lor mask b) next_value in
            match suffix with
            | Some order => ret (Some (index :: order))
            | None => try_each mask value rest
            end
        end
  end.
End body.

Fixpoint search (fuel : nat) mask value : M SearchState (option (list nat)) :=
  match fuel with
  | O => raise OutOfFuel "search"
  | S fuel' =>
      if is_goal mask then ret (Some [])
      else
        let! s := gets (λ s, s) in
        if bool_decide ((mask, value) ∈ s.(failed)) then ret None
        else
          raise_if (match max_states with Some k => k <=? s.(expanded) | None => false end)
            LinearizabilitySearchExhausted "completion-extension search exceeded max_states" ;;
          modify count_state ;;
          try_each (search fuel') mask value (seq 0 n)
  end.
End search.

(** [_predecessors] *)
Definition predecessors_of (operations : list CompletedOperation) (current : CompletedOperation) : Z :=
  mask_of (λ other, other.(co_completion).(cpl_sequence) <? current.(co_invocation).(inv_sequence))
    0 operations.

(** [check], from the completed operations. *)
Definition check_operations (operations : list CompletedOperation) : exn + LinearizabilityResult :=
  if bool_decide (operations = []) then inr (mkResult true [])
  else
    let keys := list_to_set ((λ item, op_key item.(co_invocation).(inv_operation)) <$> operations)
      : gset string in
    if negb (Z.of_nat (size keys) =? 1) then
      inl (Exn InvalidHistory
        "single-key checker requires all completed operations to use one key")
    else
      let predecessors := predecessors_of operations <$> operations in
      let full_mask := Z.shiftl 1 (zlen operations) - 1 in
      let step index value :=
        match operations !! index with
        | Some item => apply_completed item value
        | None => None
        end in
      match (search (length operations) step (λ i, predecessors !!! i) (λ mask, mask =? full_mask)
               None (S (length operations)) 0 None (mkSearchState ∅ 0)).2 with
      | inl e => inl e
      | inr None => inr (mkResult false [])
      | inr (Some order) =>
          inr (mkResult true (omap (λ i, co_operation_id <$> operations !! i) order))
      end.

Definition check (h : OperationHistory) : exn + LinearizabilityResult :=
  check_operations (completed h).

(** [check_with_pending_extensions]; the type checks hold by typing. *)
Definition observed_of (h : OperationHistory) : gmap string CompletedOperation :=
  list_to_map ((λ c, (co_operation_id c, c)) <$> completed h).

(** The key [(operation_id not in observed, sequence)] of the sort. *)
Definition candidate_before (observed : gmap string CompletedOperation) (i j : Invocation) : Prop :=
  let pending i := bool_decide (observed !! i.(inv_operation_id) = None) in
  (pending i = false ∧ pending j = true)
  ∨ (pending i = pending j ∧ by_sequence i j).
#[global] Instance candidate_before_dec observed : RelDecision (candidate_before observed).
Proof. intros i j. unfold candidate_before. apply _. Defined.

Definition candidates (h : OperationHistory) (observed : gmap string CompletedOperation)
    : list Invocation :=
  merge_sort (candidate_before observed)
    (filter (λ i, is_Some (observed !! i.(inv_operation_id)) ∨ is_write i.(inv_operation) = true)
       (invocations h)).

Definition is_observed (observed : gmap string CompletedOperation) (i : Invocation) : bool :=
  bool_decide (is_Some (observed !! i.(inv_operation_id))).

Definition extension_predecessors (observed : gmap string CompletedOperation)
    (operations : list Invocation) (current : Invocation) : Z :=
  mask_sum (λ other, match observed !! other.(inv_operation_id) with
    | Some c => c.(co_completion).(cpl_sequence) <? current.(inv_sequence)
    | None => false
    end) 0 operations.

(** What a candidate does to the value: a completed one as observed, a pending
    write as if it took effect. *)
Definition extension_step (observed : gmap string CompletedOperation) (i : Invocation)
    (value : option string) : option (option string) :=
  match observed !! i.(inv_operation_id) with
  | Some actual => apply_completed actual value
  | None =>
      match i.(inv_operation) with
      | HWrite (Put _ v) => Some (Some v)
      | _ => Some None
      end
  end.

Definition check_with_pending_extensions (h : OperationHistory) (max_operations max_states : Z)
    : exn + CompletionExtensionResult :=
  let invs := invocations h in
  let keys := list_to_set ((λ i, op_key i.(inv_operation)) <$> invs) : gset string in
  if negb ((1 <=? max_operations) && (max_operations <=? 64)) then
    inl (Exn ValueError "max_operations must be an integer in 1..64")
  else if max_states <=? 0 then inl (Exn ValueError "max_states must be a positive integer")
  else if existsb (λ i, empty_str (op_key i.(inv_operation))) invs then
    inl (Exn InvalidHistory "single-key history requires non-empty string keys")
  else if (1 <? Z.of_nat (size keys)) then
    inl (Exn InvalidHistory "single-key checker requires all invocations to use one key")
  else if max_operations <? zlen invs then
    inl (Exn LinearizabilitySearchExhausted "history has too many invocations")
  else
    let observed := observed_of h in
    let operations := candidates h observed in
    let required_mask := mask_sum (is_observed observed) 0 operations in
    let predecessors := extension_predecessors observed operations <$> operations in
    let step index value :=
      match operations !! index with
      | Some i => extension_step observed i value
      | None => None
      end in
    match (search (length operations) step (λ i, predecessors !!! i)
             (λ mask, Z.land mask required_mask =? required_mask) (Some max_states)
             (S (length operations)) 0 None (mkSearchState ∅ 0)).2 with
    | inl e => inl e
    | inr None => inr (mkExtensionResult false [] [] [])
    | inr (Some indices) =>
        let order := omap (λ i, inv_operation_id <$> operations !! i) indices in
        let included := filter (λ id, observed !! id = None) order in
        let omitted := omap (λ i, if bool_decide (observed !! i.(inv_operation_id) = None)
            && negb (bool_decide (i.(inv_operation_id) ∈ included))
          then Some i.(inv_operation_id) else None) invs in
        inr (mkExtensionResult true order included omitted)
    end.

(** ** Bit masks *)

Lemma testbit_bit index j : Z.testbit (bit index) j = bool_decide (j = Z.of_nat index).
Proof.
  unfold bit. rewrite Z.shiftl_1_l. destruct (decide (j = Z.of_nat index)) as [->|Hne].
  - by rewrite Z.pow2_bits_true, bool_decide_eq_true_2 by lia.
  - by rewrite Z.pow2_bits_false, bool_decide_eq_false_2 by lia.
Qed.

Lemma testbit_lor_bit mask index j :
  Z.testbit (Z.lor mask (bit index)) j = Z.testbit mask j || bool_decide (j = Z.of_nat index).
Proof. by rewrite Z.lor_spec, testbit_bit. Qed.

Lemma land_bit_zero mask index :
  (Z.land mask (bit index) =? 0) = negb (Z.testbit mask (Z.of_nat index)).
Proof.
  destruct (Z.testbit mask (Z.of_nat index)) eqn:E; simpl.
  - apply Z.eqb_neq. intros H0. assert (Z.testbit (Z.land mask (bit index)) (Z.of_nat index) = true) as Ht.
    { by rewrite Z.land_spec, E, testbit_bit, bool_decide_eq_true_2. }
    by rewrite H0, Z.bits_0 in Ht.
  - apply Z.eqb_eq. apply Z.bits_inj'. intros j _. rewrite Z.land_spec, testbit_bit, Z.bits_0.
    case_bool_decide; subst; [by rewrite E|by rewrite andb_false_r].
Qed.

Lemma missing_zero preds mask :
  (Z.land preds (Z.lnot mask) =? 0) = true ↔
  ∀ j : nat, Z.testbit preds (Z.of_nat j) = true → Z.testbit mask (Z.of_nat j) = true.
Proof.
  rewrite Z.eqb_eq. split.
  - intros H0 j Hj. assert (Z.testbit (Z.land preds (Z.lnot mask)) (Z.of_nat j) = false) as Ht
      by (by rewrite H0, Z.bits_0).
    rewrite Z.land_spec, Z.lnot_spec, Hj in Ht by lia. by destruct (Z.testbit mask _).
  - intros Hsub. apply Z.bits_inj'. intros j Hj. rewrite Z.bits_0, Z.land_spec, Z.lnot_spec by done.
    destruct (Z.testbit preds j) eqn:E; [|done]. specialize (Hsub (Z.to_nat j)).
    rewrite Z2Nat.id in Hsub by done. by rewrite Hsub.
Qed.

Lemma testbit_mask_of {A} (f : A → bool) index l (j : nat) :
  Z.testbit (mask_of f index l) (Z.of_nat j) = true ↔
  ∃ k x, j = (index + k)%nat ∧ l !! k = Some x ∧ f x = true.
Proof.
  revert index. induction l as [|x l IH]; intros index; simpl.
  { rewrite Z.bits_0. split; [done|]. by intros (k & x & _ & ? & _). }
  rewrite Z.lor_spec, orb_true_iff, IH. split.
  - intros [Hx|(k & y & -> & Hy & Hf)].
    + exists 0%nat, x. destruct (f x) eqn:E; [|by rewrite Z.bits_0 in Hx].
      rewrite testbit_bit in Hx. apply bool_decide_eq_true in Hx. split_and!; [lia|done..].
    + exists (S k), y. split_and!; [lia|done..].
  - intros ([|k] & y & -> & Hy & Hf); simpl in Hy.
    + left. simplify_eq. rewrite Hf, testbit_bit. apply bool_decide_eq_true. lia.
    + right. exists k, y. split_and!; [lia|done..].
Qed.

Lemma mask_sum_of {A} (f : A → bool) index l : mask_sum f index l = mask_of f index l.
Proof.
  revert index. induction l as [|x l IH]; intros index; simpl; [done|]. rewrite IH.
  destruct (f x); [|done].
  assert (Z.land (bit index) (mask_of f (S index) l) = 0) as Hd.
  { apply Z.bits_inj'. intros j Hj. rewrite Z.land_spec, testbit_bit, Z.bits_0.
    case_bool_decide; [subst|done]. simpl.
    destruct (Z.testbit _ _) eqn:E; [|done]. apply testbit_mask_of in E as (k & y & ? & _). lia. }
  by rewrite Z.add_nocarry_lxor, Z.lxor_lor.
Qed.

(** The mask after selecting the operations of a list. *)
Definition select (mask : Z) (order : list nat) : Z := foldl (λ m i, Z.lor m (bit i)) mask order.

Lemma testbit_select mask order (j : nat) :
  Z.testbit (select mask order) (Z.of_nat j) = true ↔
  Z.testbit mask (Z.of_nat j) = true ∨ j ∈ order.
Proof.
  revert mask. induction order as [|i order IH]; intros mask; simpl.
  { rewrite elem_of_nil. naive_solver. }
  rewrite IH, testbit_lor_bit, orb_true_iff, bool_decide_eq_true, elem_of_cons.
  assert (Z.of_nat j = Z.of_nat i ↔ j = i) as -> by lia. naive_solver.
Qed.

(** ** The search explores exactly the orders that complete a mask *)

Section search_spec.
Context (n : nat).
Context (step : nat → option string → option (option string)).
Context (predecessors : nat → Z).
Context (is_goal : Z → bool).
Context (max_states : option Z).

Local Abbreviation search := (search n step predecessors is_goal max_states).

Definition eligible mask (i : nat) : Prop :=
  Z.testbit mask (Z.of_nat i) = false ∧
  ∀ j : nat, Z.testbit (predecessors i) (Z.of_nat j) = true → Z.testbit mask (Z.of_nat j) = true.

(** [order] takes the search from [mask] and [value] to a goal. *)
Inductive completes : Z → option string → list nat → Prop :=
  | completes_goal mask value : is_goal mask = true → completes mask value []
  | completes_step mask value i next order :
      (i < n)%nat → eligible mask i → step i value = Some next →
      completes (Z.lor mask (bit i)) next order → completes mask value (i :: order).

Lemma completes_cons mask value i order :
  completes mask value (i :: order) ↔
  (i < n)%nat ∧ eligible mask i ∧
    ∃ next, step i value = Some next ∧ completes (Z.lor mask (bit i)) next order.
Proof.
  split; [|by intros (? & ? & next & ? & ?); eapply completes_step].
  inversion 1; subst. split_and!; [done..|]. by eexists.
Qed.

Definition failed_ok (s : SearchState) : Prop :=
  ∀ mask value order, (mask, value) ∈ s.(failed) → ¬ completes mask value order.

Definition search_post mask value (s : SearchState) (r : option (list nat)) : Prop :=
  failed_ok s ∧
  match r with
  | Some order => completes mask value order
  | None => ∀ order, ¬ completes mask value order
  end.

Definition exhausted (_ : SearchState) (e : exn) : Prop :=
  is_Some max_states ∧ exn_cls e = LinearizabilitySearchExhausted.

(** The operations not yet selected. *)
Definition free mask : nat :=
  length (filter (λ i, Z.testbit mask (Z.of_nat i) = false) (seq 0 n)).

Lemma free_select mask i :
  (i < n)%nat → Z.testbit mask (Z.of_nat i) = false → (free (Z.lor mask (bit i)) < free mask)%nat.
Proof.
  intros Hi Hb. unfold free. assert (i ∈ seq 0 n) as Hin by (apply elem_of_seq; lia).
  assert (∀ l, (length (filter (λ j, Z.testbit (Z.lor mask (bit i)) (Z.of_nat j) = false) l)
    ≤ length (filter (λ j, Z.testbit mask (Z.of_nat j) = false) l))%nat) as Hle.
  { induction l as [|j l IH]; [done|]. rewrite !filter_cons, testbit_lor_bit.
    destruct (Z.testbit mask (Z.of_nat j)); simpl; [done|].
    case_bool_decide; simpl; lia. }
  revert Hin. generalize (seq 0 n). induction l as [|j l IH]; [by intros ?%elem_of_nil|].
  rewrite !filter_cons, testbit_lor_bit. intros [->|Hin]%elem_of_cons.
  - rewrite Hb, bool_decide_eq_true_2 by done. simpl. specialize (Hle l). lia.
  - specialize (IH Hin). destruct (Z.testbit mask (Z.of_nat j)); simpl; [done|].
    case_bool_decide; simpl; lia.
Qed.

Lemma eligible_guard mask i :
  negb (Z.land mask (bit i) =? 0) || negb (Z.land (predecessors i) (Z.lnot mask) =? 0) = false ↔
  eligible mask i.
Proof.
  unfold eligible. rewrite land_bit_zero, negb_involutive, orb_false_iff, negb_false_iff.
  by rewrite missing_zero.
Qed.

Lemma try_each_spec rec mask value indices s :
  (∀ i next s, (i < n)%nat → eligible mask i → failed_ok s →
     wp (rec (Z.lor mask (bit i)) next) (search_post (Z.lor mask (bit i)) next) exhausted s) →
  is_goal mask = false → (∀ i, i ∈ indices → (i < n)%nat) → failed_ok s →
  (∀ i order, i ∉ indices → ¬ completes mask value (i :: order)) →
  wp (try_each step predecessors rec mask value indices) (search_post mask value) exhausted s.
Proof.
  intros Hrec Hgoal. revert s. induction indices as [|i rest IH]; intros s Hin Hs Hno; simpl.
  - apply wp_bind, wp_modify, wp_ret.
    assert (∀ order, ¬ completes mask value order) as Hnone.
    { intros [|i order] Hc; [inversion Hc; congruence|]. eapply Hno; [|exact Hc].
      apply not_elem_of_nil. }
    split; [|done]. intros m v order [[= -> ->]%elem_of_singleton|Hf]%elem_of_union; [done|].
    by apply Hs.
  - assert (∀ i, i ∈ rest → (i < n)%nat) as Hin' by (intros j Hj; apply Hin; by right).
    assert ((∀ order, ¬ completes mask value (i :: order)) →
      ∀ j order, j ∉ rest → ¬ completes mask value (j :: order)) as Hskip.
    { intros Hi j order Hj. destruct (decide (j = i)) as [->|Hne]; [apply Hi|].
      apply Hno. rewrite elem_of_cons. naive_solver. }
    destruct (_ || _) eqn:Eg.
    { apply IH; [done..|]. apply Hskip. intros order (_ & He & _)%completes_cons.
      apply eligible_guard in He. by rewrite He in Eg. }
    apply eligible_guard in Eg. destruct (step i value) as [next|] eqn:Es.
    + apply wp_bind. eapply wp_mono; [by apply Hrec; [apply Hin; left|..]| |done].
      intros s' [order|] [Hs' Hr].
      * apply wp_ret. split; [done|]. eapply completes_step; [apply Hin; by left|done..].
      * apply IH; [done..|]. apply Hskip. intros order (_ & _ & next' & ? & Hc)%completes_cons.
        simplify_eq. by eapply Hr.
    + apply IH; [done..|]. apply Hskip. intros order (_ & _ & next' & ? & _)%completes_cons.
      congruence.
Qed.

Lemma search_spec fuel mask value s :
  (free mask < fuel)%nat → failed_ok s →
  wp (search fuel mask value) (search_post mask value) exhausted s.
Proof.
  revert mask value s. induction fuel as [|fuel IH]; intros mask value s Hf Hs; [lia|]. simpl.
  destruct (is_goal mask) eqn:Eg.
  { apply wp_ret. split; [done|]. by constructor. }
  apply wp_bind, wp_gets. case_bool_decide as Hm.
  { apply wp_ret. split; [done|]. intros order. by apply Hs. }
  apply wp_bind, wp_raise_if.
  { intros Hmax. split; [|done]. destruct max_states; [by eexists|done]. }
  intros _. apply wp_bind, wp_modify.
  apply try_each_spec; [|done|intros i Hi%elem_of_seq; lia|done|].
  - intros i next s' Hi He Hs'. apply IH; [|done].
    pose proof (free_select mask i Hi (proj1 He)). lia.
  - intros i order Hi (? & _)%completes_cons. apply Hi, elem_of_seq. lia.
Qed.
End search_spec.

(** ** Orders of operations, without masks *)

Section sequential.
Context {A St : Type}.
Context (act : A → St → option St) (prec : A → A → bool) (required : A → bool) (init : St).
Implicit Types (l ops : list A).

(** Applied one after the other, every operation does what was observed. *)
Fixpoint legal (value : St) l : Prop :=
  match l with
  | [] => True
  | x :: l' => ∃ next, act x value = Some next ∧ legal next l'
  end.

(** Real-time order: what precedes comes first. *)
Definition respects l : Prop := ∀ i j a b,
  l !! i = Some a → l !! j = Some b → prec a b = true → (i < j)%nat.

(** A sequential witness: it leaves out only operations not required. *)
Definition sequential_witness ops l : Prop :=
  (∃ omitted, ops ≡ₚ l ++ omitted ∧ Forall (λ x, required x = false) omitted)
  ∧ respects l ∧ legal init l.
End sequential.

Section witnesses.
Context {A : Type}.
Context (act : A → option string → option (option string)).
Context (prec : A → A → bool) (required : A → bool).
Implicit Types (l ops : list A).
Local Abbreviation legal := (legal act).
Local Abbreviation respects := (respects prec).
Local Abbreviation sequential_witness := (sequential_witness act prec required None).

(** [pick ops order]: the operations at the indices [order]. *)
Definition pick ops (order : list nat) : list A := omap (λ i, ops !! i) order.

Local Arguments pick : simpl never.

Definition valid ops (order : list nat) : Prop := ∀ i, i ∈ order → (i < length ops)%nat.

Lemma valid_cons ops i order :
  valid ops (i :: order) ↔ (i < length ops)%nat ∧ valid ops order.
Proof. unfold valid. set_solver. Qed.

Lemma pick_lookup ops order (k : nat) :
  valid ops order → pick ops order !! k = (order !! k) ≫= (ops !!.).
Proof.
  revert k. induction order as [|i order IH]; intros k; [done|]. intros [Hi Ho]%valid_cons.
  unfold pick. simpl. destruct (lookup_lt_is_Some_2 ops i Hi) as [x Hx]. rewrite Hx.
  destruct k as [|k]; simpl; [done|]. by apply IH.
Qed.

Lemma pick_cons ops i order x : ops !! i = Some x → pick ops (i :: order) = x :: pick ops order.
Proof. intros Hx. unfold pick. simpl. by rewrite Hx. Qed.

Lemma pick_seq ops : pick ops (seq 0 (length ops)) = ops.
Proof.
  apply list_eq. intros k. rewrite pick_lookup by (intros i Hi%elem_of_seq; lia).
  destruct (decide (k < length ops)%nat) as [Hk|Hk].
  - by rewrite lookup_seq_lt.
  - rewrite lookup_seq_ge by lia. simpl. symmetry. apply lookup_ge_None. lia.
Qed.

(** A rearrangement of the operations is a rearrangement of their indices. *)
Lemma pick_of_permutation ops l :
  l ≡ₚ ops → ∃ order, order ≡ₚ seq 0 (length ops) ∧ l = pick ops order.
Proof.
  intros Hp. set (pairs := zip ops (seq 0 (length ops))).
  assert (ops = pairs.*1) as H1 by (unfold pairs; rewrite fst_zip; [done|rewrite length_seq; lia]).
  assert (pairs.*2 = seq 0 (length ops)) as H2 by (unfold pairs; rewrite snd_zip; [done|rewrite length_seq; lia]).
  assert (Permutation l (map fst pairs)) as Hp' by (rewrite Hp; rewrite H1 at 1; done).
  destruct (Permutation_map_inv fst _ Hp') as (k & -> & Hk).
  exists (k.*2). split; [by rewrite <-Hk, H2|].
  assert (∀ x i, (x, i) ∈ k → ops !! i = Some x) as Hall.
  { intros x i Hin. rewrite <-Hk in Hin. apply list_elem_of_lookup in Hin as [j Hj].
    apply lookup_zip_Some in Hj as [Hx Hi]. apply lookup_seq in Hi as [-> _]. done. }
  clear -Hall. induction k as [|[x i] k IH]; [done|]. simpl.
  rewrite (pick_cons _ _ _ x) by (apply Hall; by left).
  f_equal. apply IH. intros y j Hj. apply Hall. by right.
Qed.

(** ** The two views agree *)
Context (ops : list A) (predecessors : nat → Z) (is_goal : Z → bool).

Let step (i : nat) (value : option string) : option (option string) :=
  match ops !! i with Some x => act x value | None => None end.

Local Abbreviation completes := (completes (length ops) step predecessors is_goal).

Fixpoint legal_indices (value : option string) (order : list nat) : Prop :=
  match order with
  | [] => True
  | i :: order' => ∃ next, step i value = Some next ∧ legal_indices next order'
  end.

Lemma legal_pick value order : valid ops order → legal_indices value order ↔ legal value (pick ops order).
Proof.
  revert value. induction order as [|i order IH]; intros value; [done|]. intros [Hi Ho]%valid_cons.
  destruct (lookup_lt_is_Some_2 ops i Hi) as [x Hx]. rewrite (pick_cons _ _ _ _ Hx). simpl.
  unfold step. rewrite Hx. apply exist_proper. intros next. by rewrite IH.
Qed.

(** Each index comes after its predecessors, or they are in the mask. *)
Definition ordered (mask : Z) (order : list nat) : Prop := ∀ (k i j : nat),
  order !! k = Some i → Z.testbit (predecessors i) (Z.of_nat j) = true →
  Z.testbit mask (Z.of_nat j) = true ∨ ∃ k', (k' < k)%nat ∧ order !! k' = Some j.

Lemma ordered_cons mask i order :
  ordered mask (i :: order) ↔
  (∀ j : nat, Z.testbit (predecessors i) (Z.of_nat j) = true → Z.testbit mask (Z.of_nat j) = true)
  ∧ ordered (Z.lor mask (bit i)) order.
Proof.
  split.
  - intros Ho. split.
    + intros j Hj. destruct (Ho 0%nat i j eq_refl Hj) as [?|(k' & ? & _)]; [done|lia].
    + intros k i' j Hk Hj. rewrite testbit_lor_bit, orb_true_iff, bool_decide_eq_true.
      destruct (Ho (S k) i' j Hk Hj) as [?|([|k'] & ? & Hk')]; [by left; left| |].
      * left. right. simpl in Hk'. by simplify_eq.
      * right. exists k'. split; [lia|done].
  - intros [Hi Ho] [|k] i' j Hk Hj; simpl in Hk.
    + simplify_eq. left. by apply Hi.
    + destruct (Ho k i' j Hk Hj) as [Hm|(k' & ? & Hk')].
      * rewrite testbit_lor_bit, orb_true_iff, bool_decide_eq_true in Hm.
        destruct Hm as [?|Hm]; [by left|]. right. exists 0%nat. split; [lia|].
        simpl. f_equal. lia.
      * right. exists (S k'). split; [lia|done].
Qed.

Lemma completes_iff mask value order :
  completes mask value order ↔
  NoDup order ∧ (∀ i, i ∈ order → (i < length ops)%nat ∧ Z.testbit mask (Z.of_nat i) = false)
  ∧ ordered mask order ∧ legal_indices value order ∧ is_goal (select mask order) = true.
Proof.
  revert mask value. induction order as [|i order IH]; intros mask value.
  - split; [inversion 1; subst|].
    + split_and!; [constructor|by intros i ?%elem_of_nil|by intros ? ? ? ?|done|done].
    + intros (_ & _ & _ & _ & ?). by constructor.
  - rewrite completes_cons, ordered_cons, NoDup_cons. simpl. unfold eligible. split.
    + intros (Hi & [Hb Hp] & next & Hs & (Hnd & Hin & Ho & Hl & Hg)%IH).
      assert (i ∉ order) as Hni.
      { intros [_ Hb']%Hin. rewrite testbit_lor_bit, bool_decide_eq_true_2, orb_true_r in Hb'; done. }
      split_and!; [done|done| |done|done|by eexists|done].
      intros j [->|Hj]%elem_of_cons; [done|]. destruct (Hin j Hj) as [? Hb']. split; [done|].
      rewrite testbit_lor_bit in Hb'. by apply orb_false_iff in Hb' as [? _].
    + intros ([Hni Hnd] & Hin & [Hp Ho] & (next & Hs & Hl) & Hg).
      destruct (Hin i) as [Hi Hb]; [by left|].
      split; [done|]. split; [done|]. exists next. split; [done|]. apply IH.
      split_and!; [done| |done..]. intros j Hj. destruct (Hin j) as [? Hb']; [by right|].
      split; [done|]. rewrite testbit_lor_bit, Hb', bool_decide_eq_false_2; [done|].
      intros ->%Nat2Z.inj. done.
Qed.

Context (Hpred : ∀ (i j : nat) b, ops !! i = Some b →
  Z.testbit (predecessors i) (Z.of_nat j) = true ↔
    (∃ a, ops !! j = Some a ∧ prec a b = true)).
Context (Hgoal : ∀ order, valid ops order →
  is_goal (select 0 order) = true ↔
  (∀ i x, ops !! i = Some x → required x = true → i ∈ order)).
Context (Hrequired : ∀ a b, prec a b = true → required a = true).

Lemma pick_permutation order : NoDup order → valid ops order →
  ∃ rest, seq 0 (length ops) ≡ₚ order ++ rest ∧ ∀ i, i ∈ rest → i ∉ order.
Proof.
  intros Hnd Hv. exists (filter (λ i, i ∉ order) (seq 0 (length ops))). split.
  - apply NoDup_Permutation; [apply NoDup_seq| |].
    + apply NoDup_app. split_and!; [done| |apply NoDup_filter, NoDup_seq].
      intros i Hi [? _]%list_elem_of_filter. done.
    + intros i. rewrite elem_of_app, list_elem_of_filter, elem_of_seq. specialize (Hv i).
      destruct (decide (i ∈ order)); naive_solver lia.
  - by intros i [? _]%list_elem_of_filter.
Qed.

Lemma pick_app order order' : pick ops (order ++ order') = pick ops order ++ pick ops order'.
Proof. apply omap_app. Qed.

Lemma completes_witness order :
  completes 0 None order → sequential_witness ops (pick ops order).
Proof.
  intros (Hnd & Hin & Ho & Hl & Hg)%completes_iff.
  assert (valid ops order) as Hv by (intros i Hi; by apply Hin). split_and!.
  - destruct (pick_permutation order Hnd Hv) as (rest & Hp & Hrest).
    exists (pick ops rest). split.
    + rewrite <-pick_app. rewrite <-(pick_seq ops) at 1. unfold pick. by rewrite Hp.
    + apply Forall_forall. intros x Hx. unfold pick in Hx.
      apply list_elem_of_omap in Hx as (i & Hi%Hrest & Hx).
      destruct (required x) eqn:Er; [|done]. exfalso. apply Hi.
      by eapply (proj1 (Hgoal order Hv) Hg).
  - intros k k' a b Ha Hb Hab. rewrite pick_lookup in Ha, Hb by done.
    destruct (order !! k) as [i|] eqn:Ei; [|done]. destruct (order !! k') as [j|] eqn:Ej; [|done].
    simpl in Ha, Hb.
    destruct (Ho k' j i Ej) as [Hz|(k2 & ? & Hk2)].
    + apply (Hpred j i b Hb). by exists a.
    + by rewrite Z.bits_0 in Hz.
    + assert (k = k2) as ->; [by eapply NoDup_lookup|done].
  - by apply legal_pick.
Qed.

Lemma witness_completes l :
  sequential_witness ops l → ∃ order, completes 0 None order ∧ l = pick ops order.
Proof.
  intros ((omitted & Hp & Hom) & Hr & Hl).
  destruct (pick_of_permutation ops (l ++ omitted)) as (order' & Hperm & Heq); [done|].
  assert (valid ops order') as Hv' by (intros i; rewrite Hperm, elem_of_seq; lia).
  assert (NoDup order') as Hnd' by (rewrite Hperm; apply NoDup_seq).
  set (order := take (length l) order'). set (rest := drop (length l) order').
  assert (order' = order ++ rest) as Hsplit by (symmetry; apply take_drop).
  assert (length order' = length (l ++ omitted)) as Hlen.
  { apply Permutation_length in Hperm, Hp.
    rewrite length_seq in Hperm. lia. }
  assert (valid ops order ∧ valid ops rest) as [Hv Hvr].
  { rewrite Hsplit in Hv'. split; intros i Hi; apply Hv'; set_solver. }
  assert (length (pick ops order) = length order) as Hlo.
  { clear -Hv. induction order as [|i order IH]; [done|]. apply valid_cons in Hv as [Hi Hv].
    destruct (lookup_lt_is_Some_2 ops i Hi) as [x Hx]. rewrite (pick_cons _ _ _ _ Hx). simpl.
    f_equal. by apply IH. }
  rewrite Hsplit, pick_app in Heq.
  apply app_inj_1 in Heq as [Hlp Hor].
  2: { rewrite Hlo. unfold order. rewrite length_take, Hlen, length_app. lia. }
  exists order. split; [|done]. rewrite Hsplit in Hnd'. apply NoDup_app in Hnd' as (Hnd & _ & _).
  assert (∀ i x, ops !! i = Some x → required x = true → i ∈ order) as Hreq.
  { intros i x Hi Hx. assert (i ∈ order') as Hin.
    { rewrite Hperm. apply elem_of_seq. apply lookup_lt_Some in Hi. lia. }
    rewrite Hsplit in Hin. apply elem_of_app in Hin as [?|Hin]; [done|]. exfalso.
    rewrite Forall_forall in Hom. assert (x ∈ omitted) as Hxo%Hom; [|congruence].
    rewrite Hor. apply list_elem_of_omap. by exists i. }
  apply completes_iff. split_and!; [done| | | |].
  - intros i Hi. split; [by apply Hv|apply Z.bits_0].
  - intros k i j Hk Hj. right. destruct (lookup_lt_is_Some_2 ops i) as [b Hb].
    { apply Hv. by eapply list_elem_of_lookup_2. }
    destruct (proj1 (Hpred i j b Hb) Hj) as (a & Ha & Hab).
    assert (j ∈ order) as [k' Hk']%list_elem_of_lookup by (eapply Hreq; [done|by eapply Hrequired]).
    exists k'. split; [|done]. apply (Hr k' k a b); [..|done];
      rewrite Hlp, pick_lookup by done; [by rewrite Hk'|by rewrite Hk].
  - apply legal_pick; [done|]. by rewrite <-Hlp.
  - by apply (Hgoal order Hv).
Qed.

(** The search, started empty: an order if and only if there is a witness. *)
Lemma search_correct max_states :
  wp (search (length ops) step predecessors is_goal max_states (S (length ops)) 0 None)
    (λ _ r, match r with
      | Some order => valid ops order ∧ sequential_witness ops (pick ops order)
      | None => ∀ l, ¬ sequential_witness ops l
      end)
    (exhausted max_states) (mkSearchState ∅ 0).
Proof.
  eapply wp_mono; [apply search_spec| |done].
  - unfold free. apply Nat.lt_succ_r. etrans; [apply length_filter|]. by rewrite length_seq.
  - intros m v order Hf. simpl in Hf. by apply elem_of_empty in Hf.
  - intros s [order|] [_ Hr].
    + split; [|by apply completes_witness].
      apply completes_iff in Hr as (_ & Hin & _). intros i Hi. by apply Hin.
    + intros l (order & Hc & _)%witness_completes. by eapply Hr.
Qed.
End witnesses.

(** ** The checker *)

#[local] Arguments search : simpl never.

(** [a] completed before [b] was invoked. *)
Definition precedes (a b : CompletedOperation) : bool :=
  a.(co_completion).(cpl_sequence) <? b.(co_invocation).(inv_sequence).

(** A linearization: every completed operation once, in an order that respects
    real time and explains every result. *)
Definition linearization (operations l : list CompletedOperation) : Prop :=
  l ≡ₚ operations ∧ respects precedes l ∧ legal apply_completed None l.

Lemma linearization_witness operations l :
  sequential_witness apply_completed precedes (λ _, true) None operations l ↔
  linearization operations l.
Proof.
  unfold linearization, sequential_witness. split.
  - intros (([|x om] & Hp & Hf) & ?); [|by inversion Hf].
    rewrite app_nil_r in Hp. by split.
  - intros (Hp & ?). split; [|done]. exists []. by rewrite app_nil_r.
Qed.

Lemma predecessors_lookup {A} (f : A → Z) (l : list A) (i : nat) b :
  l !! i = Some b → (f <$> l) !!! i = f b.
Proof. intros Hb. apply list_lookup_total_correct. by rewrite list_lookup_fmap, Hb. Qed.

Lemma select_full n order :
  (∀ i, i ∈ order → (i < n)%nat) →
  (select 0 order =? Z.shiftl 1 (Z.of_nat n) - 1) = true ↔ (∀ i, (i < n)%nat → i ∈ order).
Proof.
  intros Hv. assert (Z.shiftl 1 (Z.of_nat n) - 1 = Z.ones (Z.of_nat n)) as ->.
  { rewrite Z.ones_equiv, Z.shiftl_1_l. lia. }
  rewrite Z.eqb_eq. split.
  - intros Heq i Hi. assert (Z.testbit (select 0 order) (Z.of_nat i) = true) as Ht.
    { rewrite Heq. apply Z.ones_spec_low. lia. }
    apply testbit_select in Ht as [Ht|?]; [by rewrite Z.bits_0 in Ht|done].
  - intros Hall. apply Z.bits_inj'. intros j Hj. rewrite <-(Z2Nat.id j) by done.
    set (k := Z.to_nat j). destruct (decide (k < n)%nat) as [Hk|Hk].
    + rewrite Z.ones_spec_low by lia. apply testbit_select. right. by apply Hall.
    + rewrite Z.ones_spec_high by lia. destruct (Z.testbit _ _) eqn:E; [|done].
      apply testbit_select in E as [E|E%Hv]; [by rewrite Z.bits_0 in E|done].
Qed.

Lemma check_search operations :
  let step index value :=
    match operations !! index with Some item => apply_completed item value | None => None end in
  wp (search (length operations) step
       (λ i, (predecessors_of operations <$> operations) !!! i)
       (λ mask, mask =? Z.shiftl 1 (zlen operations) - 1) None (S (length operations)) 0 None)
    (λ _ r, match r with
      | Some order => valid operations order ∧ linearization operations (pick operations order)
      | None => ∀ l, ¬ linearization operations l
      end) (λ _ _, False) (mkSearchState ∅ 0).
Proof.
  cbv zeta. eapply wp_mono;
    [apply (search_correct apply_completed precedes (λ _, true) operations)| |].
  - intros i j b Hb. rewrite (predecessors_lookup _ _ _ b Hb). unfold predecessors_of.
    rewrite testbit_mask_of. unfold precedes. split.
    + intros (k & x & -> & Hx & Hlt). by exists x.
    + intros (a & Ha & Hlt). by exists j, a.
  - intros order Hv. cbv beta. unfold zlen. rewrite select_full by exact Hv. split.
    + intros Hall i x Hi _. apply Hall. by eapply lookup_lt_Some.
    + intros Hall i Hi. destruct (lookup_lt_is_Some_2 operations i Hi) as [x Hx]. by eapply Hall.
  - done.
  - intros s [order|] Hr; [destruct Hr as [? Hr%linearization_witness]; done|].
    intros l Hl%linearization_witness. by eapply Hr.
  - intros s e [[k Hk] _]. done.
Qed.

Lemma pick_ids operations order :
  omap (λ i, co_operation_id <$> operations !! i) order = co_operation_id <$> pick operations order.
Proof.
  induction order as [|i order IH]; [done|]. unfold pick in *. simpl.
  destruct (operations !! i); simpl; [f_equal|]; exact IH.
Qed.

Lemma check_operations_exact operations :
  let keys := list_to_set ((λ c, op_key c.(co_invocation).(inv_operation)) <$> operations)
    : gset string in
  if decide (operations = [] ∨ size keys = 1%nat) then
    ∃ r, check_operations operations = inr r ∧
      if r.(lr_linearizable)
      then ∃ l, linearization operations l ∧ r.(lr_order) = co_operation_id <$> l
      else r.(lr_order) = [] ∧ ∀ l, ¬ linearization operations l
  else ∃ msg, check_operations operations = inl (Exn InvalidHistory msg).
Proof.
  cbv zeta. unfold check_operations.
  case_bool_decide as Hemp; [subst|].
  { rewrite decide_True by (by left). eexists. split; [done|]. simpl.
    exists []. split; [|done]. unfold linearization, respects. done. }
  set (keys := list_to_set _). destruct (Z.eqb_spec (Z.of_nat (size keys)) 1) as [Hk|Hk]; simpl.
  - rewrite decide_True by (right; lia).
    pose proof (check_search operations) as Hs. cbv zeta in Hs. unfold wp in Hs.
    destruct (search _ _ _ _ _ _ _ _ _) as [s [e|[order|]]]; simpl; [done| |].
    + destruct Hs as [_ Hs]. eexists. split; [done|]. simpl. eexists. split; [exact Hs|].
      apply pick_ids.
    + eexists. split; [done|]. simpl. split; [done|exact Hs].
  - rewrite decide_False; [by eexists|]. intros [?|?]; [done|lia].
Qed.

(** C16: the checker is exact: it answers, for any history over one key, that
    it is linearizable if and only if a linearization of its completed
    operations exists, and then returns the ids of one, in order.  It raises
    [InvalidHistory], and nothing else, when the completed operations use more
    than one key. *)
Theorem check_correct h :
  let operations := completed h in
  let keys := list_to_set ((λ c, op_key c.(co_invocation).(inv_operation)) <$> operations)
    : gset string in
  if decide (operations = [] ∨ size keys = 1%nat) then
    ∃ r, check h = inr r ∧
      if r.(lr_linearizable)
      then ∃ l, linearization operations l ∧ r.(lr_order) = co_operation_id <$> l
      else r.(lr_order) = [] ∧ ∀ l, ¬ linearization operations l
  else ∃ msg, check h = inl (Exn InvalidHistory msg).
Proof. exact (check_operations_exact (completed h)). Qed.

(** ** Pending extensions *)

(** A completed operation precedes what is invoked after its response; a
    pending one precedes nothing. *)
Definition extension_precedes (observed : gmap string CompletedOperation) (a b : Invocation) : bool :=
  match observed !! a.(inv_operation_id) with
  | Some c => c.(co_completion).(cpl_sequence) <? b.(inv_sequence)
  | None => false
  end.

(** A completion extension: every completed operation and any pending writes,
    in an order that respects real time and explains every observed result. *)
Definition completion_extension (h : OperationHistory) (l : list Invocation) : Prop :=
  let observed := observed_of h in
  sequential_witness (extension_step observed) (extension_precedes observed)
    (is_observed observed) None (candidates h observed) l.

Lemma select_required {A} (f : A → bool) (l : list A) order :
  (Z.land (select 0 order) (mask_of f 0 l) =? mask_of f 0 l) = true ↔
  (∀ i x, l !! i = Some x → f x = true → i ∈ order).
Proof.
  rewrite Z.eqb_eq. split.
  - intros Heq i x Hi Hx. assert (Z.testbit (mask_of f 0 l) (Z.of_nat i) = true) as Ht
      by (apply testbit_mask_of; by exists i, x).
    rewrite <-Heq, Z.land_spec in Ht. apply andb_true_iff in Ht as [Ht _].
    apply testbit_select in Ht as [Ht|?]; [by rewrite Z.bits_0 in Ht|done].
  - intros Hall. apply Z.bits_inj'. intros j Hj. rewrite <-(Z2Nat.id j) by done.
    rewrite Z.land_spec. destruct (Z.testbit (mask_of f 0 l) _) eqn:E; [|by rewrite andb_false_r].
    rewrite andb_true_r. apply testbit_select. right.
    apply testbit_mask_of in E as (k & x & -> & Hx & Hf). by eapply Hall.
Qed.

Lemma extension_search h max_states :
  let observed := observed_of h in
  let operations := candidates h observed in
  let step index value :=
    match operations !! index with Some i => extension_step observed i value | None => None end in
  wp (search (length operations) step
       (λ i, (extension_predecessors observed operations <$> operations) !!! i)
       (λ mask, Z.land mask (mask_sum (is_observed observed) 0 operations)
                =? mask_sum (is_observed observed) 0 operations)
       (Some max_states) (S (length operations)) 0 None)
    (λ _ r, match r with
      | Some order => valid operations order ∧ completion_extension h (pick operations order)
      | None => ∀ l, ¬ completion_extension h l
      end)
    (λ _ e, exn_cls e = LinearizabilitySearchExhausted) (mkSearchState ∅ 0).
Proof.
  cbv zeta. set (observed := observed_of h). set (operations := candidates h observed).
  eapply wp_mono;
    [apply (search_correct (extension_step observed) (extension_precedes observed)
       (is_observed observed) operations)|done|].
  - intros i j b Hb. rewrite (predecessors_lookup _ _ _ b Hb). unfold extension_predecessors.
    rewrite mask_sum_of, testbit_mask_of. unfold extension_precedes. split.
    + intros (k & x & -> & Hx & Hlt). by exists x.
    + intros (a & Ha & Hlt). by exists j, a.
  - intros order _. cbv beta. rewrite mask_sum_of. apply select_required.
  - intros a b. unfold extension_precedes, is_observed.
    destruct (observed !! _) eqn:E; [|done]. intros _. by apply bool_decide_eq_true_2.
  - by intros s e [_ He].
Qed.

Lemma pick_invocation_ids operations order :
  omap (λ i, inv_operation_id <$> operations !! i) order = inv_operation_id <$> pick operations order.
Proof.
  induction order as [|i order IH]; [done|]. unfold pick in *. simpl.
  destruct (operations !! i); simpl; [f_equal|]; exact IH.
Qed.

(** The extension checker is exact: a verdict is positive if and only if
    some choice of pending writes can be added to the completed operations and
    linearized, the order it then returns is the ids of such an extension, and
    what it raises says why it gives no verdict. *)
Theorem extensions_correct h max_operations max_states :
  match check_with_pending_extensions h max_operations max_states with
  | inr r =>
      if r.(ce_linearizable)
      then ∃ l, completion_extension h l ∧ r.(ce_order) = inv_operation_id <$> l
        ∧ r.(ce_included_pending) =
            filter (λ id, observed_of h !! id = None) (inv_operation_id <$> l)
      else ∀ l, ¬ completion_extension h l
  | inl e => e.(exn_cls) ∈ [ValueError; InvalidHistory; LinearizabilitySearchExhausted]
  end.
Proof.
  unfold check_with_pending_extensions. cbv zeta.
  destruct (negb _); [set_solver|]. destruct (max_states <=? 0); [set_solver|].
  destruct (existsb _ _); [set_solver|]. destruct (1 <? _); [set_solver|].
  destruct (max_operations <? _); [set_solver|].
  pose proof (extension_search h max_states) as Hs. cbv zeta in Hs. unfold wp in Hs.
  destruct (search _ _ _ _ _ _ _ _ _) as [s [e|[order|]]]; simpl; [|destruct Hs as [_ Hs]|done].
  - rewrite Hs. set_solver.
  - rewrite pick_invocation_ids. eexists. split; [exact Hs|]. done.
Qed.
