(* ===== verification/Locality.v ===== *)
(** * Locality: histories over independent objects

    A history whose operations each touch one key has a sequential witness if
    and only if the operations of every key have one ([locality]).  From
    witnesses of the keys a common order is built by giving each operation a
    point in time: the latest invocation among the operations of its key up to
    it.  The point lies between its own invocation and response, so ordering by
    points respects real time.

    The fact is about orders; no definition of this file translates code. *)

From S2P Require Import Prelude Linearizability.

(** ** Sorted lists *)

Lemma strongly_sorted_filter {A} (R : A → A → Prop) (P : A → Prop) `{!∀ x, Decision (P x)} l :
  StronglySorted R l → StronglySorted R (filter P l).
Proof.
  induction 1 as [|x l Hl IH Hx]; [constructor|]. rewrite filter_cons. case_decide; [|done].
  constructor; [done|]. rewrite Forall_forall in *. intros y [_ Hy]%list_elem_of_filter. by apply Hx.
Qed.

Lemma strongly_sorted_fmap {A B} (f : A → B) (R : B → B → Prop) l :
  StronglySorted R (f <$> l) ↔ StronglySorted (λ x y, R (f x) (f y)) l.
Proof.
  induction l as [|x l IH]; simpl; [by split; constructor|]. split; inversion 1; subst; constructor;
    try (by apply IH); try (by apply Forall_fmap); by apply Forall_fmap in H3.
Qed.

(** Real-time order says what cannot come later. *)
Lemma respects_sorted {A} (prec : A → A → bool) l :
  respects prec l ↔ StronglySorted (λ a b, prec b a = false) l ∧ Forall (λ a, prec a a = false) l.
Proof.
  split.
  - intros H. split.
    + induction l as [|x l IH]; constructor.
      * apply IH. intros i j a b Ha Hb Hp. pose proof (H (S i) (S j) a b Ha Hb Hp). lia.
      * apply Forall_forall. intros y [j Hj]%list_elem_of_lookup. destruct (prec y x) eqn:E; [|done].
        pose proof (H (S j) O y x Hj eq_refl E). lia.
    + apply Forall_forall. intros y [j Hj]%list_elem_of_lookup. destruct (prec y y) eqn:E; [|done].
      pose proof (H j j y y Hj Hj E). lia.
  - intros [Hs Hf] i j a b Ha Hb Hp. destruct (Nat.lt_trichotomy i j) as [?|[->|Hgt]]; [done|exfalso..].
    + rewrite Forall_forall in Hf. assert (b = a) as -> by congruence.
      pose proof (Hf a (list_elem_of_lookup_2 _ _ _ Ha)). congruence.
    + clear Hf. revert i j Ha Hb Hgt. induction Hs as [|x l Hl IH Hx]; intros [|i] [|j] Ha Hb Hgt; simpl in *; try (done || lia).
      * assert (x = b) as -> by congruence. rewrite Forall_forall in Hx. pose proof (Hx a (list_elem_of_lookup_2 _ _ _ Ha)). simpl in *. congruence.
      * apply (IH i j Ha Hb). lia.
Qed.

Lemma strongly_sorted_mono {A} (R R' : A → A → Prop) l :
  (∀ x y, R x y → R' x y) → StronglySorted R l → StronglySorted R' l.
Proof. intros HR. induction 1; constructor; [done|]. eapply Forall_impl; [done|]. simpl. auto. Qed.

Lemma filter_all {A} (P : A → Prop) `{!∀ x, Decision (P x)} (l : list A) : (∀ x, x ∈ l → P x) → filter P l = l.
Proof.
  induction l as [|x l IH]; intros Hl; [done|]. rewrite filter_cons_True by (apply Hl; left).
  f_equal. apply IH. intros y Hy. apply Hl. by right.
Qed.

Section locality.
Context {A K V : Type} `{Countable K}.
Context (key : A → K) (act : A → option V → option (option V)).
Context (start : A → Z) (stop : A → option Z) (required : A → bool).
Implicit Types (a b : A) (l ops : list A) (k : K) (st : gmap K V).

Definition before a b : bool := match stop a with Some s => s <? start b | None => false end.

(** An operation on the whole store *)
Definition act_at a st : option (gmap K V) :=
  match act a (st !! key a) with
  | Some v => Some (partial_alter (λ _, v) (key a) st)
  | None => None
  end.

Definition of_key k l : list A := filter (λ a, key a = k) l.

Lemma act_at_lookup a st st' : act_at a st = Some st' →
  act a (st !! key a) = Some (st' !! key a) ∧ ∀ k, k ≠ key a → st' !! k = st !! k.
Proof.
  unfold act_at. destruct (act a _) as [v|]; [|done]. intros [= <-].
  rewrite lookup_partial_alter_eq. split; [done|]. intros k Hk. by rewrite lookup_partial_alter_ne.
Qed.

Lemma legal_of_key st l : legal act_at st l ↔ ∀ k, legal act (st !! k) (of_key k l).
Proof.
  revert st. induction l as [|a l IH]; intros st; [done|]. simpl. split.
  - intros (st' & Ha & Hl) k. apply act_at_lookup in Ha as [Ha Hother]. unfold of_key. rewrite filter_cons.
    case_decide as Hk.
    + subst k. simpl. exists (st' !! key a). split; [done|]. by apply (proj1 (IH st')).
    + rewrite <-Hother by done. by apply (proj1 (IH st')).
  - intros Hall. pose proof (Hall (key a)) as Ha. unfold of_key in Ha. rewrite filter_cons_True in Ha by done.
    destruct Ha as (v & Ha & Hl). exists (partial_alter (λ _, v) (key a) st). unfold act_at. rewrite Ha.
    split; [done|]. apply IH. intros k. destruct (decide (k = key a)) as [->|Hk].
    + by rewrite lookup_partial_alter_eq.
    + rewrite lookup_partial_alter_ne by done. specialize (Hall k). unfold of_key in Hall.
      by rewrite filter_cons_False in Hall.
Qed.

(** ** From the whole to a key *)

Local Abbreviation witness := (sequential_witness act_at before required ∅).
Local Abbreviation key_witness := (sequential_witness act before required None).

Lemma witness_of_key ops l k : witness ops l → key_witness (of_key k ops) (of_key k l).
Proof.
  intros ((om & Hp & Hom) & Hr & Hl). split_and!.
  - exists (of_key k om). split; [unfold of_key; by rewrite Hp, filter_app|].
    apply Forall_forall. intros a [_ Ha]%list_elem_of_filter. rewrite Forall_forall in Hom. by apply Hom.
  - apply respects_sorted in Hr as [Hs Hf]. apply respects_sorted. split; [by apply strongly_sorted_filter|].
    apply Forall_forall. intros a [_ Ha]%list_elem_of_filter. rewrite Forall_forall in Hf. by apply Hf.
  - pose proof (proj1 (legal_of_key ∅ l) Hl k) as H1. by rewrite lookup_empty in H1.
Qed.

(** ** From the keys to the whole *)

(** A point, a position in the witness of the key, and the operation *)
Local Abbreviation Tagged := (Z * nat * A)%type.
Implicit Types (x y : Tagged).

Definition tag_le x y : Prop := x.1.1 < y.1.1 ∨ (x.1.1 = y.1.1 ∧ (x.1.2 ≤ y.1.2)%nat).
#[local] Instance tag_le_dec : RelDecision tag_le.
Proof. intros x y. unfold tag_le. apply _. Defined.
#[local] Instance tag_le_total : Total tag_le.
Proof. intros x y. unfold tag_le. lia. Qed.
#[local] Instance tag_le_trans : Transitive tag_le.
Proof. intros x y z. unfold tag_le. lia. Qed.

(** The operations of a witness with their points, from the position [n] on,
    the latest invocation so far being [p] *)
Fixpoint tagged (p : Z) (n : nat) l : list Tagged :=
  match l with
  | [] => []
  | a :: l' => (Z.max p (start a), n, a) :: tagged (Z.max p (start a)) (S n) l'
  end.

Lemma tagged_ops p n l : (tagged p n l).*2 = l.
Proof. revert p n. induction l as [|a l IH]; intros p n; simpl; [done|by rewrite IH]. Qed.

Lemma elem_of_tagged p n l x : x ∈ tagged p n l → p ≤ x.1.1 ∧ (n ≤ x.1.2)%nat ∧ start x.2 ≤ x.1.1.
Proof.
  revert p n. induction l as [|a l IH]; intros p n; simpl; [by intros ?%elem_of_nil|].
  intros [->|Hx]%elem_of_cons; simpl; [lia|]. apply IH in Hx. lia.
Qed.

Lemma tagged_sorted p n l :
  StronglySorted (λ x y, tag_le x y ∧ (x.1.2 < y.1.2)%nat) (tagged p n l).
Proof.
  revert p n. induction l as [|a l IH]; intros p n; constructor; [done|].
  apply Forall_forall. intros y Hy%elem_of_tagged. unfold tag_le. simpl. lia.
Qed.

(** The point of an operation that has answered is not after its answer. *)
Lemma tagged_stop p n l x s :
  StronglySorted (λ a b, before b a = false) l → (∀ a t, a ∈ l → stop a = Some t → start a < t) →
  x ∈ tagged p n l → stop x.2 = Some s → p ≤ s → x.1.1 ≤ s.
Proof.
  intros Hl. revert p n. induction Hl as [|a l Hl IH Ha]; intros p n Hst Hx Hs Hp; simpl in *; [by apply elem_of_nil in Hx|].
  apply elem_of_cons in Hx as [->|Hx]; simpl in *.
  - pose proof (Hst a s (list_elem_of_here _ _) Hs). lia.
  - apply (IH (Z.max p (start a)) (S n)); [intros; apply Hst; [by right|done]|done|done|].
    rewrite Forall_forall in Ha. assert (x.2 ∈ l) as Hin.
    { rewrite <-(tagged_ops (Z.max p (start a)) (S n) l). apply list_elem_of_fmap. by exists x. }
    specialize (Ha _ Hin). unfold before in Ha. rewrite Hs in Ha. lia.
Qed.

Section merge.
Context (ks : list K) (g : K → list A).
Context (Hks : NoDup ks) (Hkey : ∀ k a, k ∈ ks → a ∈ g k → key a = k).
Context (Hsorted : ∀ k, k ∈ ks → StronglySorted (λ a b, before b a = false) (g k)).
Context (Hstop : ∀ k a t, k ∈ ks → a ∈ g k → stop a = Some t → start a < t).
Context (first : Z) (Hfirst : ∀ k a, k ∈ ks → a ∈ g k → first ≤ start a).

Definition all_tagged : list Tagged := ks ≫= λ k, tagged first 0 (g k).
Definition merged_tags : list Tagged := merge_sort tag_le all_tagged.
Definition merged : list A := merged_tags.*2.

Lemma elem_of_all_tagged x : x ∈ all_tagged → ∃ k, k ∈ ks ∧ key x.2 = k ∧ x ∈ tagged first 0 (g k).
Proof.
  unfold all_tagged. intros (k & Hx & Hk)%list_elem_of_bind. exists k. split_and!; [done| |done].
  apply Hkey; [done|]. rewrite <-(tagged_ops first 0 (g k)). apply list_elem_of_fmap. by exists x.
Qed.

Lemma merged_perm : merged ≡ₚ ks ≫= g.
Proof.
  unfold merged, merged_tags. rewrite merge_sort_Permutation. unfold all_tagged.
  clear Hks Hkey Hsorted Hstop Hfirst. induction ks as [|k l IH]; simpl; [done|]. by rewrite fmap_app, tagged_ops, IH.
Qed.

Lemma merged_sorted : StronglySorted tag_le merged_tags.
Proof. apply StronglySorted_merge_sort; apply _. Qed.

Lemma tagged_inj p n l x y : x ∈ tagged p n l → y ∈ tagged p n l → x.1.2 = y.1.2 → x = y.
Proof.
  intros Hx Hy Heq. pose proof (tagged_sorted p n l) as Hs. revert Hx Hy.
  induction Hs as [|z l' Hl IH Hz]; [by intros ?%elem_of_nil|]. rewrite Forall_forall in Hz.
  intros [->|Hx]%elem_of_cons [->|Hy]%elem_of_cons; [done| | |auto].
  - destruct (Hz y Hy). lia.
  - destruct (Hz x Hx). lia.
Qed.

Lemma all_tagged_key k : k ∈ ks → filter (λ x, key x.2 = k) all_tagged ≡ₚ tagged first 0 (g k).
Proof.
  unfold all_tagged. clear Hsorted Hstop Hfirst. induction Hks as [|k' l Hni Hnd IH]; [by intros ?%elem_of_nil|].
  assert (∀ k0 x, k0 ∈ k' :: l → x ∈ tagged first 0 (g k0) → key x.2 = k0) as Hx.
  { intros k0 x Hk0 Hin. apply Hkey; [done|]. rewrite <-(tagged_ops first 0 (g k0)).
    apply list_elem_of_fmap. by exists x. }
  intros [->|Hk]%elem_of_cons; simpl; rewrite filter_app.
  - rewrite (filter_all _ (tagged _ _ _)) by (intros x Hin; apply Hx; [left|done]).
    rewrite filter_none; [by rewrite app_nil_r|].
    intros x (k0 & Hin & Hk0)%list_elem_of_bind Heq. apply Hni.
    rewrite <-Heq, (Hx k0 x); [done|by right|done].
  - rewrite filter_none; [|intros x Hin Heq; apply Hni; rewrite <-(Hx k' x), Heq; [done|left|done]].
    apply IH; [done| |done]. intros k0 a Hk0. apply Hkey. by right.
Qed.

Lemma merged_of_key k : k ∈ ks → of_key k merged = g k.
Proof.
  intros Hk. rewrite <-(tagged_ops first 0 (g k)). unfold merged, of_key.
  assert (∀ l : list Tagged, filter (λ a, key a = k) l.*2 = (filter (λ x, key x.2 = k) l).*2) as Hf.
  { induction l as [|x l IH]; [done|]. rewrite fmap_cons, !filter_cons. case_decide; simpl; by rewrite IH. }
  assert (filter (λ x, key x.2 = k) merged_tags ≡ₚ tagged first 0 (g k)) as Hp.
  { unfold merged_tags. rewrite merge_sort_Permutation. by apply all_tagged_key. }
  rewrite Hf. f_equal. apply (StronglySorted_unique_strong tag_le); [| | |done].
  - intros x y Hx Hy H1 H2. apply (tagged_inj first 0 (g k)); [by rewrite <-Hp|done|]. unfold tag_le in *. lia.
  - by apply strongly_sorted_filter, merged_sorted.
  - eapply strongly_sorted_mono; [|apply tagged_sorted]. by intros ? ? [? _].
Qed.

Lemma merged_respects : respects before merged.
Proof.
  apply respects_sorted. split.
  - unfold merged. apply strongly_sorted_fmap. assert (∀ x, x ∈ merged_tags → x ∈ all_tagged) as Hin
      by (intros x; unfold merged_tags; by rewrite merge_sort_Permutation).
    revert Hin. induction merged_sorted as [|x l Hl IH Hx]; intros Hin; constructor.
    { apply IH. intros y Hy. apply Hin. by right. }
    rewrite Forall_forall in *. intros y Hy. unfold before. destruct (stop y.2) as [s|] eqn:Es; [|done].
    destruct (elem_of_all_tagged y) as (k & Hk & _ & Hyk); [apply Hin; by right|].
    assert (y.2 ∈ g k) as Hyg by (rewrite <-(tagged_ops first 0 (g k)); apply list_elem_of_fmap; by exists y).
    assert (y.1.1 ≤ s) as Hys.
    { eapply (tagged_stop first 0 (g k)); [by apply Hsorted|intros; by eapply Hstop|done|done|].
      pose proof (Hstop _ _ _ Hk Hyg Es). pose proof (Hfirst _ _ Hk Hyg). lia. }
    destruct (elem_of_all_tagged x) as (k' & _ & _ & Hxk%elem_of_tagged); [apply Hin; by left|].
    pose proof (Hx y Hy) as Hle. unfold tag_le in Hle. lia.
  - apply Forall_forall. intros a. rewrite merged_perm. intros (k & Ha & Hk)%list_elem_of_bind.
    unfold before. destruct (stop a) as [s|] eqn:Es; [|done]. pose proof (Hstop _ _ _ Hk Ha Es). lia.
Qed.
End merge.

(** A choice of witnesses *)
Lemma choose_witnesses (P : K → list A → Prop) (ks : list K) :
  (∀ k, k ∈ ks → ∃ l, P k l) → ∃ g : K → list A, ∀ k, k ∈ ks → P k (g k).
Proof.
  induction ks as [|k ks IH]; intros Hk; [by exists (λ _, []); intros ? ?%elem_of_nil|].
  destruct IH as [g Hg]; [intros; apply Hk; by right|]. destruct (Hk k (list_elem_of_here _ _)) as [l Hl].
  exists (λ k', if decide (k' = k) then l else g k'). intros k' Hin. case_decide as Hd; [by subst|].
  apply Hg. apply elem_of_cons in Hin as [?|?]; done.
Qed.

Lemma eq_perm (l l' : list A) : l = l' → l ≡ₚ l'.
Proof. by intros ->. Qed.

Lemma bind_ext_elem {B C} (f g : B → list C) (l : list B) : (∀ x : B, x ∈ l → f x = g x) → l ≫= f = l ≫= g.
Proof.
  induction l as [|x l IH]; intros Hfg; [done|]. rewrite !bind_cons, Hfg by left.
  rewrite IH; [done|]. intros y Hy. apply Hfg. by right.
Qed.

Lemma bind_of_key (ks : list K) ops : NoDup ks → (∀ a, a ∈ ops → key a ∈ ks) → ks ≫= (λ k, of_key k ops) ≡ₚ ops.
Proof.
  intros Hnd. revert ops. induction Hnd as [|k ks Hni Hnd IH]; intros ops Hops.
  { destruct ops as [|a ops]; [done|]. destruct (not_elem_of_nil (key a)). apply Hops. left. }
  simpl. etrans; [|apply (filter_app_complement (λ a, key a = k) ops)]. apply Permutation_app_head.
  etrans; [|apply (IH (filter (λ a, key a ≠ k) ops))].
  - apply eq_perm, bind_ext_elem. intros k' Hk'. unfold of_key. rewrite list_filter_filter.
    apply list_filter_iff. intros a. split; [intros <-|]; naive_solver.
  - intros a [Hne Ha]%list_elem_of_filter. apply Hops in Ha. by apply elem_of_cons in Ha as [?|?].
Qed.

Lemma gather_omitted (ks : list K) ops (g : K → list A) :
  (∀ k, k ∈ ks → ∃ om, of_key k ops ≡ₚ g k ++ om ∧ Forall (λ a, required a = false) om) →
  ∃ om, ks ≫= (λ k, of_key k ops) ≡ₚ (ks ≫= g) ++ om ∧ Forall (λ a, required a = false) om.
Proof.
  induction ks as [|k ks IH]; intros Hk; [by exists []|]. simpl.
  destruct IH as (om & Hp & Hom); [intros; apply Hk; by right|].
  destruct (Hk k (list_elem_of_here _ _)) as (om1 & Hp1 & Hom1).
  exists (om1 ++ om). rewrite Hp, Hp1. split; [solve_Permutation|by apply Forall_app].
Qed.

(** A history of operations whose answers follow their invocations is explained
    as a whole if and only if every key is. *)
Lemma locality ops :
  (∀ a t, a ∈ ops → stop a = Some t → start a < t) →
  (∃ l, witness ops l) ↔ ∀ k, ∃ l, key_witness (of_key k ops) l.
Proof.
  intros Hst. split; [intros [l Hl] k; exists (of_key k l); by apply witness_of_key|]. intros Hall.
  set (ks := remove_dups (key <$> ops)).
  destruct (choose_witnesses (λ k l, key_witness (of_key k ops) l) ks (λ k _, Hall k)) as [g Hg].
  assert (∀ k a, k ∈ ks → a ∈ g k → key a = k ∧ a ∈ ops) as Hin.
  { intros k a Hk Ha. destruct (Hg k Hk) as ((om & Hp & _) & _).
    assert (a ∈ of_key k ops) as [? ?]%list_elem_of_filter by (rewrite Hp; set_solver). done. }
  assert (∀ k, k ∈ ks → StronglySorted (λ a b, before b a = false) (g k)) as Hs
    by (intros k Hk; destruct (Hg k Hk) as (_ & Hr & _); by apply respects_sorted in Hr as [? _]).
  assert (∀ k a t, k ∈ ks → a ∈ g k → stop a = Some t → start a < t) as Hst'
    by (intros k a t Hk Ha; apply Hst; by apply (Hin k a)).
  set (first := foldr (λ a m, Z.min (start a) m) 0 ops).
  assert (∀ k a, k ∈ ks → a ∈ g k → first ≤ start a) as Hfirst.
  { intros k a Hk Ha. destruct (Hin k a Hk Ha) as [_ Hao]. unfold first. clear -Hao.
    induction Hao as [b l|b c l _ IH]; simpl; lia. }
  pose proof (NoDup_remove_dups (key <$> ops)) as Hnd. fold ks in Hnd.
  assert (∀ k a, k ∈ ks → a ∈ g k → key a = k) as Hkey by (intros; by eapply Hin).
  exists (merged ks g first). split_and!.
  - destruct (gather_omitted ks ops g) as (om & Hp & Hom); [intros k Hk; apply (Hg k Hk)|].
    exists om. split; [|done]. rewrite merged_perm, <-Hp by done. symmetry. apply bind_of_key; [done|].
    intros a Ha. apply elem_of_remove_dups. apply list_elem_of_fmap. by exists a.
  - by apply merged_respects.
  - apply legal_of_key. intros k. rewrite lookup_empty. destruct (decide (k ∈ ks)) as [Hk|Hk].
    + rewrite merged_of_key by done. by apply (Hg k Hk).
    + assert (of_key k (merged ks g first) = []) as ->; [|done]. apply filter_none.
      intros a Ha Heq. rewrite merged_perm in Ha. apply list_elem_of_bind in Ha as (k' & Ha & Hk').
      apply Hk. by rewrite <-Heq, (Hkey k' a).
Qed.
End locality.
