(* ===== verification/Projection.v ===== *)
(** * Projection: replaying part of a history

    The multi-key checker and the history minimizer both build a smaller
    [OperationHistory] by replaying some of the recorded invocations and
    responses, in the order of their sequence numbers.  A replay of the events
    of some operations gives those operations back, renumbered, and judges them
    as the whole history does ([moved_candidates], [projected_linearization]). *)

From S2P Require Import Prelude KVCommands History Linearizability.

Inductive HistoryEvent :=
  | EvInvocation (i : Invocation)
  | EvCompletion (c : CompletedOperation).

Implicit Types (e : HistoryEvent) (es : list HistoryEvent) (h : OperationHistory) (id : string).

Definition ev_sequence e : Z :=
  match e with
  | EvInvocation i => i.(inv_sequence)
  | EvCompletion c => c.(co_completion).(cpl_sequence)
  end.

(** The invocation an event belongs to *)
Definition ev_invocation e : Invocation :=
  match e with EvInvocation i => i | EvCompletion c => c.(co_invocation) end.
Definition ev_id e : string := (ev_invocation e).(inv_operation_id).

Definition ev_before e e' : Prop := ev_sequence e ≤ ev_sequence e'.
#[global] Instance ev_before_dec : RelDecision ev_before.
Proof. intros e e'. unfold ev_before. apply _. Defined.

(** Invocations, then responses, of a history *)
Definition recorded h : list HistoryEvent :=
  (EvInvocation <$> invocations h) ++ (EvCompletion <$> completed h).

Definition replay_event e : HM unit :=
  match e with
  | EvInvocation i => invoke i.(inv_operation_id) i.(inv_client_id) i.(inv_operation) ;; ret tt
  | EvCompletion c => respond (co_operation_id c) c.(co_completion).(cpl_result) ;; ret tt
  end.

Definition replay_events es : exn + OperationHistory :=
  let r := for_each es replay_event new_history in
  match r.2 with inl e => inl e | inr _ => inr r.1 end.

(** ** Events in order *)

Definition earlier e e' : Prop := ev_sequence e < ev_sequence e'.

(** What a history records of some of its operations *)
Record events_ok es : Prop := {
  eo_sorted : StronglySorted earlier es;
  eo_invoked j j' i i' : es !! j = Some (EvInvocation i) → es !! j' = Some (EvInvocation i') →
    i.(inv_operation_id) = i'.(inv_operation_id) → j = j';
  eo_named i : EvInvocation i ∈ es →
    empty_str i.(inv_operation_id) = false ∧ empty_str i.(inv_client_id) = false;
  eo_answers j c : es !! j = Some (EvCompletion c) →
    ∃ j', (j' < j)%nat ∧ es !! j' = Some (EvInvocation c.(co_invocation));
  eo_once j j' c c' : es !! j = Some (EvCompletion c) → es !! j' = Some (EvCompletion c') →
    co_operation_id c = co_operation_id c' → j = j';
  eo_write c : EvCompletion c ∈ es → is_write c.(co_invocation).(inv_operation) = true →
    c.(co_completion).(cpl_result) = None;
}.

Lemma events_ok_snoc es e : events_ok (es ++ [e]) → events_ok es.
Proof.
  intros [Hs Hi Hn Ha Ho Hw]. assert (∀ j x, es !! j = Some x → (es ++ [e]) !! j = Some x) as Hl
    by (intros; by apply lookup_app_l_Some).
  split.
  - by eapply StronglySorted_app_1_l.
  - intros j j' i i' ? ? ?. eapply Hi; eauto.
  - intros i Hin. apply Hn. set_solver.
  - intros j c Hj. destruct (Ha j c (Hl _ _ Hj)) as (j' & Hlt & Hj'). exists j'. split; [done|].
    rewrite lookup_app_l in Hj'; [done|]. apply lookup_lt_Some in Hj. lia.
  - intros j j' c c' ? ? ?. eapply Ho; eauto.
  - intros c Hin. apply Hw. set_solver.
Qed.

(** ** The replayed history *)

Definition indexed es : list (Z * HistoryEvent) := imap (λ k e, (Z.of_nat k, e)) es.

Definition renumber (k : Z) (i : Invocation) : Invocation :=
  mkInvocation i.(inv_operation_id) i.(inv_client_id) i.(inv_operation) k.

Definition built_invocations es : list Invocation :=
  omap (λ x, match x.2 with EvInvocation i => Some (renumber x.1 i) | _ => None end) (indexed es).
Definition built_completions es : list (string * Completion) :=
  omap (λ x, match x.2 with
    | EvCompletion c => Some (co_operation_id c, mkCompletion (co_operation_id c) c.(co_completion).(cpl_result) x.1)
    | _ => None end) (indexed es).

Definition built es : OperationHistory :=
  mkHistory (zlen es) (built_invocations es) (list_to_map (built_completions es)) ∅ ∅ ∅.

Lemma indexed_snoc es e : indexed (es ++ [e]) = indexed es ++ [(zlen es, e)].
Proof. unfold indexed, zlen. rewrite imap_app. simpl. by rewrite Nat.add_0_r. Qed.

Lemma elem_of_indexed es k e : (k, e) ∈ indexed es ↔ ∃ j : nat, k = Z.of_nat j ∧ es !! j = Some e.
Proof.
  unfold indexed. rewrite elem_of_lookup_imap. split.
  - intros (j & x & [= -> ->] & Hx). by exists j.
  - intros (j & -> & Hx). by exists j, e.
Qed.

Lemma elem_of_built es i' :
  i' ∈ built_invocations es ↔ ∃ (j : nat) i, es !! j = Some (EvInvocation i) ∧ i' = renumber (Z.of_nat j) i.
Proof.
  unfold built_invocations. rewrite list_elem_of_omap. split.
  - intros ([k [i|c]] & Hin & Heq); [|done]. simpl in Heq. injection Heq as <-.
    apply elem_of_indexed in Hin as (j & -> & Hj). by exists j, i.
  - intros (j & i & Hj & ->). exists (Z.of_nat j, EvInvocation i). split; [|done].
    apply elem_of_indexed. by exists j.
Qed.

Lemma elem_of_built_completions es id x :
  (id, x) ∈ built_completions es ↔ ∃ (j : nat) c, es !! j = Some (EvCompletion c)
    ∧ co_operation_id c = id ∧ x = mkCompletion id c.(co_completion).(cpl_result) (Z.of_nat j).
Proof.
  unfold built_completions. rewrite list_elem_of_omap. split.
  - intros ([k [i|c]] & Hin & Heq); [done|]. simpl in Heq. injection Heq as <- <-.
    apply elem_of_indexed in Hin as (j & -> & Hj). by exists j, c.
  - intros (j & c & Hj & <- & ->). exists (Z.of_nat j, EvCompletion c). split; [|done].
    apply elem_of_indexed. by exists j.
Qed.

Lemma invocation_of_built es id :
  events_ok es → ∀ i, invocation_of (built es) id = Some i ↔ i ∈ built_invocations es ∧ i.(inv_operation_id) = id.
Proof.
  intros Hes i. split; [apply (invocation_of_elem (built es))|]. intros [Hi <-].
  destruct (invocation_of (built es) (inv_operation_id i)) as [i'|] eqn:E.
  2:{ apply (invocation_of_none (built es)) in E. destruct E. apply list_elem_of_fmap. by exists i. }
  apply invocation_of_elem in E as [Hi' Hid]. simpl in Hi'. f_equal.
  apply elem_of_built in Hi as (j & i1 & Hj & ->), Hi' as (j' & i2 & Hj' & ->). simpl in Hid.
  assert (j' = j) as -> by (by eapply (eo_invoked _ Hes)). congruence.
Qed.

Lemma built_completed es id :
  events_ok es → ∀ x, (built es).(h_completions) !! id = Some x ↔ (id, x) ∈ built_completions es.
Proof.
  intros Hes x. split; [apply elem_of_list_to_map_2|]. intros Hin.
  apply elem_of_list_to_map_1'; [|done]. intros y.
  apply elem_of_built_completions in Hin as (j & c & Hj & Hid & ->).
  intros (j' & c' & Hj' & Hid' & ->)%elem_of_built_completions.
  assert (j' = j) as -> by (apply (eo_once _ Hes j' j c' c Hj' Hj); congruence). congruence.
Qed.

Lemma built_snoc es e :
  events_ok (es ++ [e]) → replay_event e (built es) = (built (es ++ [e]), inr tt).
Proof.
  intros Hes. pose proof (events_ok_snoc _ _ Hes) as Hes0.
  assert ((es ++ [e]) !! length es = Some e) as Hlast by (by rewrite lookup_app_r, Nat.sub_diag).
  unfold replay_event, built, built_invocations, built_completions. rewrite indexed_snoc, !omap_app.
  fold (built_invocations es) (built_completions es).
  assert (zlen (es ++ [e]) = zlen es + 1) as -> by (unfold zlen; rewrite length_app; simpl; lia).
  destruct e as [i|c].
  - destruct (eo_named _ Hes i) as [H1 H2]; [set_solver|]. simpl. rewrite app_nil_r.
    unfold invoke, next_sequence, bind, raise_if, gets, modify, ret. rewrite H1, H2. simpl.
    destruct (invocation_of (built es) (inv_operation_id i)) as [i'|] eqn:E.
    2:{ unfold built in E. rewrite E. rewrite bool_decide_eq_false_2 by (by intros []). done. }
    apply (invocation_of_built _ _ Hes0) in E as [(j & i0 & Hj & ->)%elem_of_built Hid]. simpl in Hid.
    assert (j = length es) as ->.
    { eapply (eo_invoked _ Hes); [by apply lookup_app_l_Some|exact Hlast|done]. }
    apply lookup_lt_Some in Hj. lia.
  - destruct (eo_answers _ Hes _ _ Hlast) as (j & Hlt & Hj). rewrite lookup_app_l in Hj by done.
    assert (invocation_of (built es) (co_operation_id c) = Some (renumber (Z.of_nat j) (co_invocation c))) as Hi.
    { apply invocation_of_built; [done|]. split; [|done]. apply elem_of_built. by exists j, (co_invocation c). }
    assert ((built es).(h_completions) !! co_operation_id c = None) as Hn.
    { destruct (h_completions (built es) !! co_operation_id c) as [x|] eqn:E; [|done].
      apply (built_completed _ _ Hes0) in E.
      apply elem_of_built_completions in E as (j' & c' & Hj' & Hid & _).
      assert (j' = length es) as ->
        by (by apply (eo_once _ Hes j' (length es) c' c (lookup_app_l_Some _ _ _ _ Hj') Hlast)).
      apply lookup_lt_Some in Hj'. lia. }
    unfold respond, require_invocation, next_sequence, completed_id. unfold built in Hi, Hn. simpl in Hn.
    unfold bind, raise_if, gets, modify, ret. rewrite Hi. simpl. rewrite Hn.
    rewrite (bool_decide_eq_false_2 (is_Some None)) by (by intros []).
    rewrite (bool_decide_eq_false_2 (_ ∈ ∅)) by set_solver.
    assert (is_write (inv_operation (co_invocation c)) && bool_decide (is_Some (cpl_result (co_completion c))) = false) as ->.
    { destruct (is_write _) eqn:Ew; [|done]. simpl. apply bool_decide_eq_false_2.
      rewrite (eo_write _ Hes c); [by intros []|set_solver|done]. }
    simpl. unfold set_completions, set_sequence. simpl. rewrite app_nil_r. do 2 f_equal.
    symmetry. apply list_to_map_snoc. intros ([id x] & Heq & Hin)%list_elem_of_fmap. simpl in Heq. subst id.
    apply (built_completed _ _ Hes0) in Hin. simpl in Hin. congruence.
Qed.

Lemma replay_built es : events_ok es → replay_events es = inr (built es).
Proof.
  intros Hes. unfold replay_events. assert (for_each es replay_event new_history = (built es, inr tt)) as ->; [|done].
  induction es as [|e es IH] using rev_ind; [done|].
  assert (∀ l (k : HM unit) h h', for_each l replay_event h = (h', inr tt) →
    for_each (l ++ [e]) replay_event h = replay_event e h') as Happ.
  { intros l _. induction l as [|x l IHl]; intros h h'; simpl.
    - intros [= <-]. unfold bind. destruct (replay_event e h) as [h1 [e'|[]]]; done.
    - unfold bind. destruct (replay_event x h) as [h1 [e'|[]]]; [done|apply IHl]. }
  rewrite (Happ es (ret tt) _ _ (IH (events_ok_snoc _ _ Hes))). by apply built_snoc.
Qed.

Lemma strongly_sorted_lookup {A} (R : A → A → Prop) l (j j' : nat) x y :
  StronglySorted R l → l !! j = Some x → l !! j' = Some y → (j < j')%nat → R x y.
Proof.
  intros Hl. revert j j'. induction Hl as [|z l Hl IH Hz]; intros [|j] [|j'] Hx Hy Hlt; simpl in *; try (done || lia).
  - simplify_eq. rewrite Forall_forall in Hz. apply Hz. by eapply list_elem_of_lookup_2.
  - apply (IH j j'); [done..|lia].
Qed.

(** ** Part of a history *)

Section part.
Context (keep : Invocation → bool).

(** The events of the operations kept, by sequence number *)
Definition part h : list HistoryEvent :=
  merge_sort ev_before (filter (λ e, keep (ev_invocation e) = true) (recorded h)).

Lemma elem_of_completed h c :
  c ∈ completed h ↔ co_invocation c ∈ h.(h_invocations)
    ∧ h.(h_completions) !! co_operation_id c = Some (co_completion c).
Proof.
  unfold completed. rewrite merge_sort_Permutation, list_elem_of_omap. split.
  - intros (i & Hi & Heq). destruct (h_completions h !! inv_operation_id i) as [x|] eqn:E; [|done].
    simpl in Heq. injection Heq as <-. by split.
  - intros [Hi Hc]. exists (co_invocation c). split; [done|]. unfold co_operation_id in Hc. rewrite Hc.
    by destruct c.
Qed.

Lemma elem_of_part h e :
  e ∈ part h ↔ keep (ev_invocation e) = true ∧
    match e with EvInvocation i => i ∈ h.(h_invocations) | EvCompletion c => c ∈ completed h end.
Proof.
  unfold part, recorded. rewrite merge_sort_Permutation, list_elem_of_filter, elem_of_app, !list_elem_of_fmap.
  apply and_iff_compat_l.
  assert (∀ i, i ∈ invocations h ↔ i ∈ h.(h_invocations)) as Hi
    by (intros i; unfold invocations; by rewrite merge_sort_Permutation).
  destruct e as [i|c]; [rewrite <-Hi|]; split.
  - intros [(x & [= ->] & ?)|(x & [=] & _)]. done.
  - left. by exists i.
  - intros [(x & [=] & _)|(x & [= ->] & ?)]. done.
  - right. by exists c.
Qed.

Lemma omap_completed_sublist h l :
  co_invocation <$> omap (λ i, mkCompletedOperation i <$> h.(h_completions) !! i.(inv_operation_id)) l `sublist_of` l.
Proof.
  induction l as [|i l IH]; simpl; [done|].
  destruct (h_completions h !! inv_operation_id i); simpl; [by apply sublist_skip|by apply sublist_cons].
Qed.

Lemma inv_unique h i i' :
  history_wf h → i ∈ h.(h_invocations) → i' ∈ h.(h_invocations) →
  i.(inv_operation_id) = i'.(inv_operation_id) → i = i'.
Proof.
  intros Hw [j Hj]%list_elem_of_lookup [j' Hj']%list_elem_of_lookup Hid.
  assert (j = j') as ->; [|congruence].
  eapply (NoDup_lookup _ j j' (inv_operation_id i) (wf_ids _ Hw)); rewrite list_lookup_fmap;
    [by rewrite Hj|by rewrite Hj', Hid].
Qed.

Lemma inv_moment h i i' :
  history_wf h → i ∈ h.(h_invocations) → i' ∈ h.(h_invocations) → i.(inv_sequence) = i'.(inv_sequence) → i = i'.
Proof.
  intros Hw [j Hj]%list_elem_of_lookup [j' Hj']%list_elem_of_lookup Hs.
  destruct (Nat.lt_trichotomy j j') as [Hlt|[->|Hlt]]; [exfalso| congruence |exfalso].
  - pose proof (strongly_sorted_lookup _ _ _ _ _ _ (wf_sorted _ Hw) Hj Hj' Hlt). simpl in *. lia.
  - pose proof (strongly_sorted_lookup _ _ _ _ _ _ (wf_sorted _ Hw) Hj' Hj Hlt). simpl in *. lia.
Qed.

Lemma completed_wf h c :
  history_wf h → c ∈ completed h → co_invocation c ∈ h.(h_invocations)
    ∧ (co_invocation c).(inv_sequence) < (co_completion c).(cpl_sequence)
    ∧ (is_write (co_invocation c).(inv_operation) = true → (co_completion c).(cpl_result) = None).
Proof.
  intros Hw [Hi Hc]%elem_of_completed. destruct (wf_completion _ Hw _ _ Hc) as (_ & _ & i & Hi' & Hlt & Hwr).
  apply invocation_of_elem in Hi' as [Hin Hid]. rewrite (inv_unique h (co_invocation c) i); done.
Qed.

Lemma part_moment h e e' :
  history_wf h → e ∈ part h → e' ∈ part h → ev_sequence e = ev_sequence e' → e = e'.
Proof.
  intros Hw [_ He]%elem_of_part [_ He']%elem_of_part Hs.
  destruct e as [i|c], e' as [i'|c']; simpl in Hs.
  - f_equal. by eapply inv_moment.
  - apply elem_of_completed in He' as [Hi Hc]. by destruct (proj1 (wf_moment _ Hw _ _ Hc) i He).
  - apply elem_of_completed in He as [Hi Hc]. by destruct (proj1 (wf_moment _ Hw _ _ Hc) i' He').
  - f_equal. apply elem_of_completed in He as [Hi Hc], He' as [Hi' Hc'].
    pose proof (proj2 (wf_moment _ Hw _ _ Hc) _ _ Hc' Hs) as Hid.
    assert (co_invocation c = co_invocation c') as Heq by (by eapply inv_unique).
    rewrite Hid, Hc' in Hc. destruct c, c'. simpl in *. congruence.
Qed.

Lemma part_nodup h : history_wf h → NoDup (part h).
Proof.
  intros Hw. unfold part. rewrite merge_sort_Permutation. apply NoDup_filter. unfold recorded.
  apply NoDup_app. split_and!.
  - apply NoDup_fmap_2; [by intros ? ? [=]|]. unfold invocations. rewrite merge_sort_Permutation.
    apply (NoDup_fmap_1 inv_operation_id). apply (wf_ids _ Hw).
  - intros e (? & -> & _)%list_elem_of_fmap (? & [=] & _)%list_elem_of_fmap.
  - apply NoDup_fmap_2; [by intros ? ? [=]|]. unfold completed. rewrite merge_sort_Permutation.
    apply (NoDup_fmap_1 co_invocation). eapply sublist_NoDup; [|apply omap_completed_sublist].
    apply (NoDup_fmap_1 inv_operation_id). apply (wf_ids _ Hw).
Qed.

Lemma ev_before_total : Total ev_before.
Proof. intros e e'. unfold ev_before. lia. Qed.
Lemma ev_before_trans : Transitive ev_before.
Proof. intros e e' e''. unfold ev_before. lia. Qed.

Lemma part_sorted h : history_wf h → StronglySorted earlier (part h).
Proof.
  intros Hw. assert (StronglySorted ev_before (part h)) as Hs.
  { apply StronglySorted_merge_sort; [exact ev_before_trans|exact ev_before_total]. }
  assert (∀ l, StronglySorted ev_before l → NoDup l → (∀ e, e ∈ l → e ∈ part h) → StronglySorted earlier l) as H.
  2:{ apply H; [done|by apply part_nodup|done]. }
  induction 1 as [|e l Hl IH He]; intros Hnd Hin; [constructor|]. apply NoDup_cons in Hnd as [Hni Hnd].
  constructor; [apply IH; [done|]; set_solver|]. rewrite Forall_forall in *. intros e' He'.
  pose proof (He e' He') as Hle. unfold ev_before, earlier in *.
  assert (ev_sequence e ≠ ev_sequence e'); [|lia]. intros Heq.
  assert (e = e') as ->; [|done]. apply (part_moment h); [done|apply Hin; set_solver..|done].
Qed.

Lemma sorted_lookup es j j' e e' :
  StronglySorted earlier es → es !! j = Some e → es !! j' = Some e' → ev_sequence e < ev_sequence e' ↔ (j < j')%nat.
Proof.
  intros Hs He He'. split.
  - intros Hlt. destruct (Nat.lt_trichotomy j j') as [?|[->|Hgt]]; [done|simplify_eq; lia|].
    pose proof (strongly_sorted_lookup _ _ _ _ _ _ Hs He' He Hgt) as H. unfold earlier in H. lia.
  - intros Hlt. exact (strongly_sorted_lookup _ _ _ _ _ _ Hs He He' Hlt).
Qed.

Lemma part_ok h : history_wf h → events_ok (part h).
Proof.
  intros Hw. pose proof (part_nodup h Hw) as Hnd. pose proof (part_sorted h Hw) as Hs.
  assert (∀ j e, part h !! j = Some e → e ∈ part h) as Hin by (intros; by eapply list_elem_of_lookup_2).
  split; [done|..].
  - intros j j' i i' Hj Hj' Hid. pose proof (Hin _ _ Hj) as [_ Hi]%elem_of_part.
    pose proof (Hin _ _ Hj') as [_ Hi']%elem_of_part. rewrite (inv_unique h i i') in Hj by done.
    by eapply NoDup_lookup.
  - intros i [_ Hi]%elem_of_part. by apply (wf_named _ Hw).
  - intros j c Hj. pose proof (Hin _ _ Hj) as [Hk Hc]%elem_of_part.
    destruct (completed_wf _ _ Hw Hc) as (Hi & Hlt & _).
    assert (EvInvocation (co_invocation c) ∈ part h) as [j' Hj']%list_elem_of_lookup
      by (apply elem_of_part; by split).
    exists j'. split; [|done]. by apply (sorted_lookup _ _ _ _ _ Hs Hj' Hj).
  - intros j j' c c' Hj Hj' Hid. pose proof (Hin _ _ Hj) as [_ Hc]%elem_of_part.
    pose proof (Hin _ _ Hj') as [_ Hc']%elem_of_part. apply elem_of_completed in Hc as [Hi Hc], Hc' as [Hi' Hc'].
    assert (c = c') as Heq.
    { assert (co_invocation c = co_invocation c') by (by eapply inv_unique).
      rewrite Hid, Hc' in Hc. destruct c, c'. simpl in *. congruence. }
    rewrite Heq in Hj. by eapply NoDup_lookup.
  - intros c [_ Hc]%elem_of_part. by apply (completed_wf _ _ Hw Hc).
Qed.

(** *** The history it replays to *)

Lemma replay_event_wf e h : history_wf h → wp (replay_event e) (λ h' _, history_wf h') (λ _ _, True) h.
Proof.
  intros Hw. destruct e as [i|c]; simpl; apply wp_bind;
    (eapply wp_mono; [by apply invoke_wf || by apply respond_wf| |done]); intros h1 x Hw1; by apply wp_ret.
Qed.

Lemma built_wf h : history_wf h → history_wf (built (part h)).
Proof.
  intros Hw. pose proof (replay_built _ (part_ok h Hw)) as Hr. unfold replay_events in Hr.
  assert (wp (for_each (part h) replay_event) (λ h' _, history_wf h') (λ _ _, True) new_history) as Hwp.
  { apply wp_for_each; [apply new_history_wf|]. intros e h0 _ Hw0. by apply replay_event_wf. }
  unfold wp in Hwp. destruct (for_each _ _ _) as [h' [e|[]]]; simpl in Hr; [done|]. by simplify_eq.
Qed.

Lemma observed_iff h id c :
  history_wf h → observed_of h !! id = Some c ↔ c ∈ completed h ∧ co_operation_id c = id.
Proof.
  intros Hw. unfold observed_of. assert (∀ x, (id, x) ∈ ((λ c, (co_operation_id c, c)) <$> completed h)
    ↔ x ∈ completed h ∧ co_operation_id x = id) as Hin.
  { intros x. rewrite list_elem_of_fmap. split; [by intros (y & [= -> ->] & ?)|].
    intros [? <-]. by exists x. }
  split; [by intros ?%elem_of_list_to_map_2%Hin|]. intros Hc. apply elem_of_list_to_map_1'; [|by apply Hin].
  intros x [Hx Hidx]%Hin. destruct Hc as [Hc Hid]. apply elem_of_completed in Hc as [Hi Hc], Hx as [Hix Hx].
  assert (co_invocation c = co_invocation x) as Heq 
    by (eapply inv_unique; [exact Hw|done|done|unfold co_operation_id in *; congruence]).
  rewrite Hid in Hc. rewrite Hidx, Hc in Hx. destruct c, x. simpl in *. congruence.
Qed.

(** An operation in the replayed history *)
Definition moved h (i : Invocation) : Invocation :=
  default i (invocation_of (built (part h)) i.(inv_operation_id)).

Lemma moved_spec h i :
  history_wf h → i ∈ h.(h_invocations) → keep i = true →
  ∃ j : nat, part h !! j = Some (EvInvocation i) ∧ moved h i = renumber (Z.of_nat j) i.
Proof.
  intros Hw Hi Hk. assert (EvInvocation i ∈ part h) as [j Hj]%list_elem_of_lookup by by apply elem_of_part.
  exists j. split; [done|]. unfold moved.
  rewrite (proj2 (invocation_of_built _ _ (part_ok h Hw) (renumber (Z.of_nat j) i))); [done|].
  split; [|done]. apply elem_of_built. by exists j, i.
Qed.

Lemma moved_observed h c :
  history_wf h → c ∈ completed h → keep (co_invocation c) = true →
  ∃ j : nat, part h !! j = Some (EvCompletion c) ∧ observed_of (built (part h)) !! co_operation_id c =
    Some (mkCompletedOperation (moved h (co_invocation c))
      (mkCompletion (co_operation_id c) (cpl_result (co_completion c)) (Z.of_nat j))).
Proof.
  intros Hw Hc Hk. assert (EvCompletion c ∈ part h) as [j Hj]%list_elem_of_lookup by by apply elem_of_part.
  exists j. split; [done|]. apply observed_iff; [by apply built_wf|].
  destruct (moved_spec h (co_invocation c) Hw) as (j' & Hj' & ->); [by apply (completed_wf _ _ Hw)|done|].
  split; [|done]. apply elem_of_completed. split.
  - apply elem_of_built. by exists j', (co_invocation c).
  - apply (built_completed _ _ (part_ok h Hw)). apply elem_of_built_completions. by exists j, c.
Qed.

Lemma moved_pending h i :
  history_wf h → i ∈ h.(h_invocations) → observed_of h !! i.(inv_operation_id) = None →
  observed_of (built (part h)) !! i.(inv_operation_id) = None.
Proof.
  intros Hw Hi Hn. destruct (observed_of (built (part h)) !! _) as [c'|] eqn:E; [|done].
  apply (observed_iff _ _ _ (built_wf h Hw)) in E as [[_ Hc']%elem_of_completed Hid].
  apply (built_completed _ _ (part_ok h Hw)), elem_of_built_completions in Hc' as (j & c & Hj & Hidc & _).
  assert (c ∈ completed h) as Hc by (apply list_elem_of_lookup_2, elem_of_part in Hj as [_ ?]; done).
  assert (observed_of h !! inv_operation_id i = Some c); [|congruence].
  apply observed_iff; [done|]. split; [done|congruence].
Qed.

(** What the moved operation does, what it precedes, and whether it was observed *)
Lemma moved_step h i v :
  history_wf h → i ∈ h.(h_invocations) → keep i = true →
  extension_step (observed_of (built (part h))) (moved h i) v = extension_step (observed_of h) i v
  ∧ is_observed (observed_of (built (part h))) (moved h i) = is_observed (observed_of h) i.
Proof.
  intros Hw Hi Hk. destruct (moved_spec h i Hw Hi Hk) as (j & Hj & Hm).
  unfold extension_step, is_observed. rewrite Hm. simpl.
  destruct (observed_of h !! inv_operation_id i) as [c|] eqn:E.
  2:{ by rewrite (moved_pending h i Hw Hi E). }
  apply (observed_iff _ _ _ Hw) in E as [Hc Hid].
  assert (co_invocation c = i) as <-.
  { eapply inv_unique; [exact Hw|by apply elem_of_completed in Hc as [? _]|done|done]. }
  destruct (moved_observed h c Hw Hc Hk) as (j' & _ & Ho). rewrite <-Hid in *. rewrite Ho, Hm. done.
Qed.

Lemma moved_precedes h a b :
  history_wf h → a ∈ h.(h_invocations) → keep a = true → b ∈ h.(h_invocations) → keep b = true →
  extension_precedes (observed_of (built (part h))) (moved h a) (moved h b)
  = extension_precedes (observed_of h) a b.
Proof.
  intros Hw Ha Hka Hb Hkb. destruct (moved_spec h a Hw Ha Hka) as (ja & _ & Hma).
  destruct (moved_spec h b Hw Hb Hkb) as (jb & Hjb & Hmb).
  unfold extension_precedes. rewrite Hma, Hmb. simpl.
  destruct (observed_of h !! inv_operation_id a) as [c|] eqn:E.
  2:{ by rewrite (moved_pending h a Hw Ha E). }
  apply (observed_iff _ _ _ Hw) in E as [Hc Hid].
  assert (co_invocation c = a) as <-.
  { eapply inv_unique; [exact Hw|by apply elem_of_completed in Hc as [? _]|done|done]. }
  destruct (moved_observed h c Hw Hc Hka) as (jc & Hjc & Ho). rewrite <-Hid in *. rewrite Ho. simpl.
  pose proof (sorted_lookup _ _ _ _ _ (part_sorted h Hw) Hjc Hjb) as Hs. simpl in Hs.
  apply eq_true_iff_eq. rewrite !Z.ltb_lt. lia.
Qed.

Lemma elem_of_candidates h i :
  i ∈ candidates h (observed_of h) ↔
  i ∈ h.(h_invocations) ∧ (is_Some (observed_of h !! i.(inv_operation_id)) ∨ is_write i.(inv_operation) = true).
Proof.
  unfold candidates, invocations. rewrite merge_sort_Permutation, list_elem_of_filter, merge_sort_Permutation.
  clear keep. tauto.
Qed.

Lemma candidates_nodup h : history_wf h → NoDup (candidates h (observed_of h)).
Proof.
  intros Hw. unfold candidates, invocations. rewrite merge_sort_Permutation. apply NoDup_filter.
  rewrite merge_sort_Permutation. apply (NoDup_fmap_1 inv_operation_id). apply (wf_ids _ Hw).
Qed.

Lemma moved_candidates h :
  history_wf h → candidates (built (part h)) (observed_of (built (part h)))
    ≡ₚ moved h <$> filter (λ i, keep i = true) (candidates h (observed_of h)).
Proof.
  intros Hw. apply NoDup_Permutation.
  - by apply candidates_nodup, built_wf.
  - apply NoDup_fmap_2_strong.
    + intros a b [Hka [Ha _]%elem_of_candidates]%list_elem_of_filter [Hkb [Hb _]%elem_of_candidates]%list_elem_of_filter Heq.
      destruct (moved_spec h a Hw Ha Hka) as (? & _ & Hma). destruct (moved_spec h b Hw Hb Hkb) as (? & _ & Hmb).
      apply (inv_unique h); [done..|]. rewrite Hma, Hmb in Heq. unfold renumber in Heq. congruence.
    + by apply NoDup_filter, candidates_nodup.
  - intros i'. rewrite elem_of_candidates, list_elem_of_fmap. split.
    + intros [(j & i & Hj & ->)%elem_of_built Ho].
      pose proof (list_elem_of_lookup_2 _ _ _ Hj) as [Hk Hi]%elem_of_part. simpl in Hk.
      destruct (moved_spec h i Hw Hi Hk) as (j' & Hj' & Hm).
      assert (j' = j) as -> by (by eapply (eo_invoked _ (part_ok h Hw))).
      exists i. split; [done|]. apply list_elem_of_filter. split; [done|]. apply elem_of_candidates. split; [done|].
      destruct Ho as [Ho|Ho]; [left|by right]. simpl in Ho.
      destruct (observed_of h !! inv_operation_id i) eqn:E; [done|].
      rewrite (moved_pending h i Hw Hi E) in Ho. by destruct Ho.
    + intros (i & -> & [Hk [Hi Ho]%elem_of_candidates]%list_elem_of_filter).
      destruct (moved_spec h i Hw Hi Hk) as (j & Hj & Hm). split.
      * rewrite Hm. apply elem_of_built. by exists j, i.
      * destruct (moved_step h i None Hw Hi Hk) as [_ Hob]. unfold is_observed in Hob. rewrite Hm in *. simpl in *.
        destruct Ho as [Ho|Ho]; [left|by right].
        rewrite (bool_decide_eq_true_2 _ Ho) in Hob. by apply bool_decide_eq_true in Hob.
Qed.
(** A completed operation in the replayed history *)
Definition moved_completed h (c : CompletedOperation) : CompletedOperation :=
  default c (observed_of (built (part h)) !! co_operation_id c).

Lemma moved_completed_spec h c :
  history_wf h → c ∈ completed h → keep (co_invocation c) = true →
  moved_completed h c ∈ completed (built (part h))
  ∧ (moved_completed h c).(co_invocation) = moved h (co_invocation c)
  ∧ (moved_completed h c).(co_completion).(cpl_result) = (co_completion c).(cpl_result)
  ∧ ∃ j : nat, part h !! j = Some (EvCompletion c)
    ∧ (moved_completed h c).(co_completion).(cpl_sequence) = Z.of_nat j.
Proof.
  intros Hw Hc Hk. destruct (moved_observed h c Hw Hc Hk) as (j & Hj & Ho). unfold moved_completed.
  rewrite Ho. simpl. pose proof (proj1 (observed_iff _ _ _ (built_wf h Hw)) Ho) as [Hin _].
  split_and!; try done. by exists j.
Qed.

Lemma moved_completed_id h c :
  history_wf h → c ∈ completed h → keep (co_invocation c) = true → co_operation_id (moved_completed h c) = co_operation_id c.
Proof.
  intros Hw Hc Hk. destruct (moved_completed_spec h c Hw Hc Hk) as (_ & Hi & _). unfold co_operation_id. rewrite Hi.
  by destruct (moved_spec h _ Hw (proj1 (completed_wf _ _ Hw Hc)) Hk) as (? & _ & ->).
Qed.

Lemma moved_completed_act h c v :
  history_wf h → c ∈ completed h → keep (co_invocation c) = true →
  apply_completed (moved_completed h c) v = apply_completed c v.
Proof.
  intros Hw Hc Hk. destruct (moved_completed_spec h c Hw Hc Hk) as (_ & Hi & Hr & _). unfold apply_completed.
  rewrite Hi, Hr. by destruct (moved_spec h _ Hw (proj1 (completed_wf _ _ Hw Hc)) Hk) as (? & _ & ->).
Qed.

Lemma moved_completed_precedes h c d :
  history_wf h → c ∈ completed h → keep (co_invocation c) = true → d ∈ completed h → keep (co_invocation d) = true →
  precedes (moved_completed h c) (moved_completed h d) = precedes c d.
Proof.
  intros Hw Hc Hkc Hd Hkd. destruct (moved_completed_spec h c Hw Hc Hkc) as (_ & _ & _ & j & Hj & Hs).
  destruct (moved_completed_spec h d Hw Hd Hkd) as (_ & Hi & _).
  destruct (moved_spec h _ Hw (proj1 (completed_wf _ _ Hw Hd)) Hkd) as (j' & Hj' & Hm).
  unfold precedes. rewrite Hs, Hi, Hm. simpl.
  pose proof (sorted_lookup _ _ _ _ _ (part_sorted h Hw) Hj Hj') as Hl. simpl in Hl.
  apply eq_true_iff_eq. rewrite !Z.ltb_lt. lia.
Qed.

Lemma completed_nodup h : history_wf h → NoDup (completed h).
Proof.
  intros Hw. unfold completed. rewrite merge_sort_Permutation. apply (NoDup_fmap_1 co_invocation).
  eapply sublist_NoDup; [|apply omap_completed_sublist]. apply (NoDup_fmap_1 inv_operation_id), (wf_ids _ Hw).
Qed.

Lemma moved_completions h :
  history_wf h → completed (built (part h))
    ≡ₚ moved_completed h <$> filter (λ c, keep (co_invocation c) = true) (completed h).
Proof.
  intros Hw. apply NoDup_Permutation.
  - by apply completed_nodup, built_wf.
  - apply NoDup_fmap_2_strong.
    + intros c d [Hkc Hc]%list_elem_of_filter [Hkd Hd]%list_elem_of_filter Heq.
      assert (co_operation_id c = co_operation_id d) as Hid
        by (rewrite <-(moved_completed_id h c), <-(moved_completed_id h d), Heq; done).
      apply (inj Some). rewrite <-(proj2 (observed_iff h _ c Hw) (conj Hc eq_refl)), Hid.
      by apply (observed_iff h _ d Hw).
    + by apply NoDup_filter, completed_nodup.
  - intros c'. rewrite list_elem_of_fmap. split.
    + intros Hc'. pose proof Hc' as [_ Hx]%elem_of_completed.
      apply (built_completed _ _ (part_ok h Hw)), elem_of_built_completions in Hx as (j & c & Hj & Hid & _).
      pose proof (list_elem_of_lookup_2 _ _ _ Hj) as [Hk Hc]%elem_of_part. simpl in Hk.
      exists c. split; [|by apply list_elem_of_filter]. unfold moved_completed. rewrite Hid.
      by rewrite (proj2 (observed_iff _ _ c' (built_wf h Hw)) (conj Hc' eq_refl)).
    + intros (c & -> & [Hk Hc]%list_elem_of_filter). by apply moved_completed_spec.
Qed.
End part.

(** ** Renaming the operations of a witness *)

Section map.
Context {A B St : Type} (act : A → St → option St) (act' : B → St → option St).
Context (prec : A → A → bool) (prec' : B → B → bool) (required : A → bool) (required' : B → bool) (init : St).
Context (f : A → B) (ops : list A) (ops' : list B).
Context (Hops : ops' ≡ₚ f <$> ops).
Context (Hact : ∀ x v, x ∈ ops → act' (f x) v = act x v).
Context (Hprec : ∀ x y, x ∈ ops → y ∈ ops → prec' (f x) (f y) = prec x y).
Context (Hreq : ∀ x, x ∈ ops → required' (f x) = required x).

Lemma legal_map v l : (∀ x, x ∈ l → x ∈ ops) → legal act' v (f <$> l) ↔ legal act v l.
Proof.
  revert v. induction l as [|x l IH]; intros v Hl; [done|]. simpl. rewrite Hact by (apply Hl; left).
  apply exist_proper. intros next. rewrite IH; [done|]. intros y Hy. apply Hl. by right.
Qed.

Lemma respects_map l : (∀ x, x ∈ l → x ∈ ops) → respects prec' (f <$> l) ↔ respects prec l.
Proof.
  intros Hl. split.
  - intros H i j a b Ha Hb Hp. apply (H i j (f a) (f b)); [by rewrite list_lookup_fmap, Ha|by rewrite list_lookup_fmap, Hb|].
    rewrite Hprec; [done|..]; apply Hl; by eapply list_elem_of_lookup_2.
  - intros H i j a' b' Ha Hb Hp. rewrite list_lookup_fmap in Ha, Hb.
    destruct (l !! i) as [a|] eqn:Ea; [|done]. destruct (l !! j) as [b|] eqn:Eb; [|done]. simpl in *. simplify_eq.
    apply (H i j a b); [done..|]. rewrite <-Hprec; [done|..]; apply Hl; by eapply list_elem_of_lookup_2.
Qed.

Lemma witness_map l :
  sequential_witness act prec required init ops l → sequential_witness act' prec' required' init ops' (f <$> l).
Proof.
  intros ((om & Hp & Hom) & Hr & Hl). assert (∀ x, x ∈ l → x ∈ ops) as Hin by (intros x Hx; rewrite Hp; set_solver).
  split; [|by rewrite respects_map, legal_map]. exists (f <$> om). split; [by rewrite Hops, Hp, fmap_app|].
  apply Forall_fmap, Forall_forall. intros x Hx. simpl. rewrite Hreq; [|rewrite Hp; set_solver].
  rewrite Forall_forall in Hom. by apply Hom.
Qed.

Lemma witness_unmap l' :
  sequential_witness act' prec' required' init ops' l' →
  ∃ l, l' = f <$> l ∧ sequential_witness act prec required init ops l.
Proof.
  intros ((om' & Hp & Hom) & Hr & Hl). rewrite Hops in Hp. symmetry in Hp.
  destruct (Permutation_map_inv f ops Hp) as (k & Hk & Hpk). symmetry in Hk. apply fmap_app_inv in Hk as (l & om & -> & -> & ->).
  assert (∀ x, x ∈ l → x ∈ ops) as Hin by (intros x Hx; rewrite Hpk; set_solver).
  exists l. split; [done|]. rewrite respects_map in Hr by done. rewrite legal_map in Hl by done. split; [|done].
  exists om. split; [done|]. apply Forall_forall. intros x Hx. rewrite <-Hreq by (rewrite Hpk; set_solver).
  apply Forall_fmap in Hom. rewrite Forall_forall in Hom. by apply Hom.
Qed.
End map.

(** The replayed operations linearize as they did in the whole history. *)
Lemma projected_linearization keep h :
  history_wf h →
  (∃ l, linearization (completed (built (part keep h))) l)
  ↔ ∃ l, linearization (filter (λ c, keep (co_invocation c) = true) (completed h)) l.
Proof.
  intros Hw. setoid_rewrite <-linearization_witness.
  assert (∀ c, c ∈ filter (λ c, keep (co_invocation c) = true) (completed h) →
    c ∈ completed h ∧ keep (co_invocation c) = true) as Hin by (intros c [??]%list_elem_of_filter; done).
  split; intros [l Hl].
  - eapply witness_unmap in Hl as (l0 & _ & Hl0); [by exists l0|by apply moved_completions|..].
    + intros c v [Hc Hk]%Hin. by apply moved_completed_act.
    + intros c d [Hc Hkc]%Hin [Hd Hkd]%Hin. by apply moved_completed_precedes.
    + done.
  - eexists. eapply witness_map; [by apply moved_completions|..|exact Hl].
    + intros c v [Hc Hk]%Hin. by apply moved_completed_act.
    + intros c d [Hc Hkc]%Hin [Hd Hkd]%Hin. by apply moved_completed_precedes.
    + done.
Qed.
