(* ===== verification/MultiKey.v ===== *)
(** * MultiKey: linearizability over several keys, and orders that explain a history

    Models [MultiKeyKVLinearizabilityChecker] of
    [src/distlab/multikey_linearizability.py].  The type checks of the method
    hold by typing.  The dict [projected] is a finite map of histories the loop
    threads as its state; replaying an event into one of them is the history's
    own [invoke] or [respond], whatever they raise included. *)

From S2P Require Import Prelude KVCommands History Linearizability Locality Projection.

Record MultiKeyCompletionExtensionResult := mkMultiKeyResult {
  mk_linearizable : bool;
  mk_by_key : list (string * CompletionExtensionResult);
}.

Implicit Types (h : OperationHistory) (i : Invocation) (e : HistoryEvent) (k : string)
  (p : gmap string OperationHistory).

Definition inv_key i : string := op_key i.(inv_operation).

(** [by_identity] *)
Definition by_identity h : gmap string Invocation :=
  list_to_map ((λ i, (i.(inv_operation_id), i)) <$> invocations h).

(** [projected.setdefault(operation.key, OperationHistory())] *)
Definition set_default p k : gmap string OperationHistory :=
  match p !! k with Some _ => p | None => <[k := new_history]> p end.

Definition empty_projections h : gmap string OperationHistory :=
  foldl (λ p i, set_default p (inv_key i)) ∅ (invocations h).

(** One round of the replay: the history of the event's key gets the event. *)
Definition event_key h e : option string :=
  match e with
  | EvInvocation i => Some (inv_key i)
  | EvCompletion c => inv_key <$> by_identity h !! co_operation_id c
  end.

Definition dispatch h e : M (gmap string OperationHistory) unit := λ p,
  match event_key h e with
  | None => (p, inl (Exn KeyError "operation_id"))
  | Some k =>
      match p !! k with
      | None => (p, inl (Exn KeyError "key"))
      | Some projected =>
          let '(projected', r) := replay_event e projected in (<[k := projected']> p, r)
      end
  end.

(** The verdicts of the keys, in the order given; the first error is raised. *)
Fixpoint check_keys (max_operations max_states : Z) p (keys : list string)
    : exn + list (string * CompletionExtensionResult) :=
  match keys with
  | [] => inr []
  | k :: keys' =>
      match check_with_pending_extensions (default new_history (p !! k)) max_operations max_states with
      | inl e => inl e
      | inr r =>
          match check_keys max_operations max_states p keys' with
          | inl e => inl e
          | inr rs => inr ((k, r) :: rs)
          end
      end
  end.

Definition check_multi_key h (max_operations max_keys max_states_per_key : Z)
    : exn + MultiKeyCompletionExtensionResult :=
  if negb ((1 <=? max_operations) && (max_operations <=? 64)) then
    inl (Exn ValueError "max_operations must be an integer in 1..64")
  else if negb ((1 <=? max_keys) && (max_keys <=? 64)) then
    inl (Exn ValueError "max_keys must be an integer in 1..64")
  else if max_states_per_key <=? 0 then
    inl (Exn ValueError "max_states_per_key must be a positive integer")
  else if max_operations <? zlen (invocations h) then
    inl (Exn LinearizabilitySearchExhausted "history has too many invocations")
  else if existsb (λ i, empty_str (inv_key i)) (invocations h) then
    inl (Exn InvalidHistory "multi-key operations require non-empty string keys")
  else
    let projected := empty_projections h in
    if max_keys <? Z.of_nat (size projected) then
      inl (Exn LinearizabilitySearchExhausted "history touches too many keys")
    else
      match for_each (merge_sort ev_before (recorded h)) (dispatch h) projected with
      | (_, inl e) => inl e
      | (projected, inr _) =>
          match check_keys max_operations max_states_per_key projected
                  (sorted_str (elements (dom projected))) with
          | inl e => inl e
          | inr results => inr (mkMultiKeyResult (forallb (λ r, r.2.(ce_linearizable)) results) results)
          end
      end.

(** ** The projections *)

Definition on_key k i : bool := bool_decide (inv_key i = k).

Lemma on_key_iff k i : on_key k i = true ↔ inv_key i = k.
Proof. unfold on_key. by rewrite bool_decide_eq_true. Qed.

Lemma lookup_empty_projections h k :
  empty_projections h !! k = if decide (k ∈ inv_key <$> invocations h) then Some new_history else None.
Proof.
  unfold empty_projections. assert (∀ l p, (∀ k x, p !! k = Some x → x = new_history) →
    foldl (λ p i, set_default p (inv_key i)) p l !! k
    = if decide (k ∈ inv_key <$> l) then Some new_history else p !! k) as H.
  2:{ rewrite H; [|intros ?? Hx; by rewrite lookup_empty in Hx]. by rewrite lookup_empty. }
  induction l as [|i l IH]; intros p Hp; simpl; [done|].
  assert (∀ k', set_default p (inv_key i) !! k' = if decide (k' = inv_key i) then Some new_history else p !! k') as Hs.
  { intros k'. unfold set_default. destruct (p !! inv_key i) as [x|] eqn:E; destruct (decide (k' = inv_key i)) as [Hd|Hd].
    - by rewrite Hd, E, (Hp _ _ E).
    - done.
    - by rewrite Hd, lookup_insert_eq.
    - by rewrite lookup_insert_ne. }
  rewrite IH, Hs.
  - repeat case_decide; set_solver.
  - intros k' x. rewrite Hs. destruct (decide (k' = inv_key i)); [by intros [= <-]|apply Hp].
Qed.

(** The events of a key are a part of all the events. *)
Lemma part_filter (keep : Invocation → bool) h :
  history_wf h →
  filter (λ e, keep (ev_invocation e) = true) (merge_sort ev_before (recorded h)) = part keep h.
Proof.
  intros Hw. apply (StronglySorted_unique_strong earlier).
  - intros e e' _ _. unfold earlier. lia.
  - apply strongly_sorted_filter. pose proof (part_sorted (λ _, true) h Hw) as Hs. unfold part in Hs.
    by rewrite filter_all in Hs.
  - by apply part_sorted.
  - unfold part. by rewrite !merge_sort_Permutation.
Qed.

Lemma events_ok_prefix es es' : events_ok (es ++ es') → events_ok es.
Proof.
  induction es' as [|e es' IH] using rev_ind; [by rewrite app_nil_r|].
  rewrite app_assoc. intros ?%events_ok_snoc. auto.
Qed.

Lemma by_identity_lookup h i :
  history_wf h → i ∈ h.(h_invocations) → by_identity h !! i.(inv_operation_id) = Some i.
Proof.
  intros Hw Hi. unfold by_identity. apply elem_of_list_to_map_1'.
  - intros i' (i2 & [= Hid ->] & Hi2)%list_elem_of_fmap. unfold invocations in Hi2.
    rewrite merge_sort_Permutation in Hi2. by apply (inv_unique h).
  - apply list_elem_of_fmap. exists i. split; [done|]. unfold invocations. by rewrite merge_sort_Permutation.
Qed.

Lemma event_key_recorded h e :
  history_wf h → e ∈ recorded h →
  event_key h e = Some (inv_key (ev_invocation e)) ∧ inv_key (ev_invocation e) ∈ inv_key <$> invocations h.
Proof.
  intros Hw He. unfold recorded in He. rewrite elem_of_app, !list_elem_of_fmap in He.
  destruct He as [(i & -> & Hi)|(c & -> & Hc)]; simpl.
  - split; [done|]. apply list_elem_of_fmap. by exists i.
  - apply (completed_wf _ _ Hw) in Hc as [Hi _]. unfold co_operation_id. rewrite by_identity_lookup by done.
    split; [done|]. apply list_elem_of_fmap. exists (co_invocation c).
    unfold invocations. by rewrite merge_sort_Permutation.
Qed.

(** After the loop has replayed [es], the history of a key has its events. *)
Definition projections_of h (es : list HistoryEvent) p : Prop := ∀ k,
  p !! k = if decide (k ∈ inv_key <$> invocations h)
           then Some (built (filter (λ e, on_key k (ev_invocation e) = true) es)) else None.

Lemma dispatch_projections h es e p :
  history_wf h → e ∈ recorded h →
  (∀ k, events_ok (filter (λ e, on_key k (ev_invocation e) = true) (es ++ [e]))) →
  projections_of h es p →
  ∃ p', dispatch h e p = (p', inr tt) ∧ projections_of h (es ++ [e]) p'.
Proof.
  intros Hw He Hok Hp. destruct (event_key_recorded h e Hw He) as [Hk Hin].
  set (k := inv_key (ev_invocation e)) in *. pose proof (Hp k) as Hpk. rewrite decide_True in Hpk by done.
  assert (filter (λ e, on_key k (ev_invocation e) = true) (es ++ [e])
    = filter (λ e, on_key k (ev_invocation e) = true) es ++ [e]) as Hf.
  { rewrite filter_app, filter_cons_True; [done|]. by apply on_key_iff. }
  pose proof (Hok k) as Hokk. rewrite Hf in Hokk. unfold dispatch. rewrite Hk, Hpk, (built_snoc _ _ Hokk).
  eexists. split; [done|]. intros k'. destruct (decide (k' = k)) as [->|Hne].
  - by rewrite lookup_insert_eq, decide_True, Hf.
  - rewrite lookup_insert_ne, Hp by done. rewrite filter_app, (filter_cons_False _ e); [by rewrite app_nil_r|].
    rewrite on_key_iff. intros Heq. by destruct Hne.
Qed.

Lemma replay_projections h :
  history_wf h →
  ∃ p, for_each (merge_sort ev_before (recorded h)) (dispatch h) (empty_projections h) = (p, inr tt)
    ∧ ∀ k, p !! k = if decide (k ∈ inv_key <$> invocations h) then Some (built (part (on_key k) h)) else None.
Proof.
  intros Hw. set (all := merge_sort ev_before (recorded h)).
  assert (∀ es es' p, all = es ++ es' → projections_of h es p →
    ∃ p', for_each es' (dispatch h) p = (p', inr tt) ∧ projections_of h all p') as Hloop.
  { intros es es'. revert es. induction es' as [|e es' IH]; intros es p Hall Hp.
    { exists p. split; [done|]. by rewrite Hall, app_nil_r. }
    destruct (dispatch_projections h es e p) as (p' & Hd & Hp').
    - done.
    - rewrite <-(merge_sort_Permutation ev_before (recorded h)). fold all. rewrite Hall. set_solver.
    - intros k. apply (events_ok_prefix _ (filter (λ e, on_key k (ev_invocation e) = true) es')).
      rewrite <-filter_app, <-app_assoc. simpl. rewrite <-Hall. unfold all. rewrite part_filter by done.
      by apply part_ok.
    - done.
    - destruct (IH (es ++ [e]) p') as (p'' & Hf & Hp''); [by rewrite <-app_assoc|done|].
      exists p''. split; [|done]. simpl. unfold bind. by rewrite Hd. }
  destruct (Hloop [] all (empty_projections h)) as (p & Hf & Hp); [done|..].
  { intros k. rewrite lookup_empty_projections. by case_decide. }
  exists p. split; [done|]. intros k. rewrite Hp. unfold all. by rewrite part_filter.
Qed.

(** ** Extensions over all keys *)

(** One order of all the candidates that explains the whole store *)
Definition multi_key_extension h (l : list Invocation) : Prop :=
  let observed := observed_of h in
  sequential_witness (act_at inv_key (extension_step observed)) (extension_precedes observed)
    (is_observed observed) (∅ : gmap string string) (candidates h observed) l.

Lemma multi_key_locality h :
  history_wf h →
  (∃ l, multi_key_extension h l) ↔ ∀ k, ∃ l, completion_extension (built (part (on_key k) h)) l.
Proof.
  intros Hw. set (observed := observed_of h).
  pose proof (locality inv_key (extension_step observed) inv_sequence
    (λ i, (λ c, cpl_sequence (co_completion c)) <$> observed !! inv_operation_id i)
    (is_observed observed) (candidates h observed)) as Hloc.
  assert (∀ A (act : Invocation → A → option A) req init ops l, sequential_witness act
      (before inv_sequence (λ i, (λ c, cpl_sequence (co_completion c)) <$> observed !! inv_operation_id i)) req init ops l
      ↔ sequential_witness act (extension_precedes observed) req init ops l) as Heq.
  { intros A act req init ops l. unfold sequential_witness. apply and_iff_compat_l, and_iff_compat_r.
    assert (∀ a b, before inv_sequence (λ i, (λ c, cpl_sequence (co_completion c)) <$> observed !! inv_operation_id i) a b
      = extension_precedes observed a b) as Hb.
    { intros a b. unfold before, extension_precedes. by destruct (observed !! inv_operation_id a). }
    unfold respects. by setoid_rewrite Hb. }
  setoid_rewrite Heq in Hloc. unfold multi_key_extension. fold observed. rewrite Hloc.
  - apply forall_proper. intros k. pose proof (moved_candidates (on_key k) h Hw) as Hcand. fold observed in Hcand.
    assert (of_key inv_key k (candidates h observed) = filter (λ i, on_key k i = true) (candidates h observed)) as ->
      by (apply list_filter_iff; intros i; by rewrite on_key_iff).
    assert (∀ i, i ∈ filter (λ i, on_key k i = true) (candidates h observed) →
      i ∈ h.(h_invocations) ∧ on_key k i = true) as Hin.
    { intros i [Hk Hc]%list_elem_of_filter. apply elem_of_candidates in Hc as [? _]. by split. }
    split; intros [l Hl].
    + exists (moved (on_key k) h <$> l). unfold completion_extension. eapply witness_map; [exact Hcand| | | |exact Hl].
      * intros i v [Hi Hk]%Hin. by apply moved_step.
      * intros a b [Ha Hka]%Hin [Hb Hkb]%Hin. by apply moved_precedes.
      * intros i [Hi Hk]%Hin. by destruct (moved_step (on_key k) h i None Hw Hi Hk).
    + unfold completion_extension in Hl. eapply witness_unmap in Hl as (l0 & _ & Hl0); [by exists l0|exact Hcand|..].
      * intros i v [Hi Hk]%Hin. by apply moved_step.
      * intros a b [Ha Hka]%Hin [Hb Hkb]%Hin. by apply moved_precedes.
      * intros i [Hi Hk]%Hin. by destruct (moved_step (on_key k) h i None Hw Hi Hk).
  - intros i t [Hi _]%elem_of_candidates Ht. destruct (observed !! inv_operation_id i) as [c|] eqn:E; [|done].
    simpl in Ht. injection Ht as <-. apply (observed_iff _ _ _ Hw) in E as [Hc Hid].
    destruct (completed_wf _ _ Hw Hc) as (Hic & Hlt & _).
    assert (co_invocation c = i) as <- by (by apply (inv_unique h)). done.
Qed.

(** ** The verdicts *)

(** What a verdict on a history claims, and its witness *)
Definition verdict_holds h (r : CompletionExtensionResult) : Prop :=
  if r.(ce_linearizable)
  then ∃ l, completion_extension h l ∧ r.(ce_order) = inv_operation_id <$> l
  else ∀ l, ¬ completion_extension h l.

Lemma check_keys_spec h max_operations max_states p keys :
  (∀ k, k ∈ keys → p !! k = Some (built (part (on_key k) h))) →
  match check_keys max_operations max_states p keys with
  | inr rs => rs.*1 = keys ∧ ∀ k r, (k, r) ∈ rs → verdict_holds (built (part (on_key k) h)) r
  | inl e => e.(exn_cls) ∈ [ValueError; InvalidHistory; LinearizabilitySearchExhausted]
  end.
Proof.
  induction keys as [|k keys IH]; intros Hp; simpl; [split; [done|]; by intros ?? ?%elem_of_nil|].
  rewrite (Hp k) by left. simpl.
  pose proof (extensions_correct (built (part (on_key k) h)) max_operations max_states) as Hx.
  destruct (check_with_pending_extensions _ _ _) as [e|r]; [done|].
  destruct (check_keys _ _ _ _) as [e|rs]; [apply IH; intros; apply Hp; by right|].
  destruct IH as [Hk Hr]; [intros; apply Hp; by right|]. split; [by rewrite fmap_cons, Hk|].
  intros k' r' [[= -> ->]|Hin]%elem_of_cons; [|by apply Hr]. unfold verdict_holds.
  destruct (ce_linearizable r); [|done]. destruct Hx as (l & ? & ? & _). by exists l.
Qed.

(** A key without operations has the empty extension. *)
Lemma untouched_key h k :
  history_wf h → k ∉ inv_key <$> invocations h → completion_extension (built (part (on_key k) h)) [].
Proof.
  intros Hw Hk. split_and!; [|by intros i j a b Ha|done]. exists []. split; [|constructor]. simpl.
  rewrite moved_candidates by done. rewrite filter_none; [done|]. intros i Hi Hik%on_key_iff. apply Hk.
  apply elem_of_candidates in Hi as [Hi _]. apply list_elem_of_fmap. exists i. split; [done|].
  unfold invocations. by rewrite merge_sort_Permutation.
Qed.

(** The checker on a well-formed history. *)
Lemma check_multi_key_exact h max_operations max_keys max_states :
  history_wf h →
  match check_multi_key h max_operations max_keys max_states with
  | inr r =>
      (r.(mk_linearizable) = true ↔ ∃ l, multi_key_extension h l)
      ∧ (∀ k, k ∈ r.(mk_by_key).*1 ↔ k ∈ inv_key <$> invocations h)
      ∧ ∀ k v, (k, v) ∈ r.(mk_by_key) → verdict_holds (built (part (on_key k) h)) v
  | inl e => e.(exn_cls) ∈ [ValueError; InvalidHistory; LinearizabilitySearchExhausted]
  end.
Proof.
  intros Hw.
  unfold check_multi_key. cbv zeta. destruct (negb _); [set_solver|]. destruct (negb _); [set_solver|].
  destruct (max_states <=? 0); [set_solver|]. destruct (max_operations <? _); [set_solver|].
  destruct (existsb _ _); [set_solver|]. destruct (max_keys <? _); [set_solver|].
  destruct (replay_projections h Hw) as (p & -> & Hp).
  pose proof (check_keys_spec h max_operations max_states p (sorted_str (elements (dom p)))) as Hc.
  assert (∀ k, k ∈ sorted_str (elements (dom p)) ↔ k ∈ inv_key <$> invocations h) as Hdom.
  { intros k. rewrite elem_of_sorted_str, elem_of_elements, elem_of_dom, Hp.
    case_decide; split; done || by intros []. }
  destruct (check_keys _ _ _ _) as [e|rs]; [apply Hc|simpl; destruct Hc as [Hk Hr]];
    try by (intros k Hk%Hdom; rewrite Hp, decide_True).
  split_and!; [|by rewrite Hk|done]. rewrite (multi_key_locality h Hw), forallb_forall. split.
  - intros Hall k. destruct (decide (k ∈ inv_key <$> invocations h)) as [Hin|Hin].
    2:{ eexists. by apply untouched_key. }
    apply Hdom in Hin. rewrite <-Hk in Hin. apply list_elem_of_fmap in Hin as ([k' r] & Heq & Hin).
    simpl in Heq. subst k'. pose proof (Hr _ _ Hin) as Hv. unfold verdict_holds in Hv.
    pose proof (Hall (k, r) (proj1 (list_elem_of_In _ _) Hin)) as Ht. simpl in Ht. rewrite Ht in Hv.
    destruct Hv as (l & Hl & _). by exists l.
  - intros Hall [k r] Hin%list_elem_of_In. specialize (Hr _ _ Hin). unfold verdict_holds in Hr. simpl.
    destruct (ce_linearizable r); [done|]. destruct (Hall k) as [l Hl]. by destruct (Hr l).
Qed.

(** C19: The checker of several keys judges the whole history: its verdict is
    positive if and only if one order of the completed operations and some
    pending writes, over all the keys, respects real time and explains every
    observed result.  It answers for exactly the keys of the history, each with
    a witness of that key's own history, and what it raises says why it gives
    no verdict. *)
Theorem multi_key_correct ops max_operations max_keys max_states :
  let h := exec_history ops new_history in
  match check_multi_key h max_operations max_keys max_states with
  | inr r =>
      (r.(mk_linearizable) = true ↔ ∃ l, multi_key_extension h l)
      ∧ (∀ k, k ∈ r.(mk_by_key).*1 ↔ k ∈ inv_key <$> invocations h)
      ∧ ∀ k v, (k, v) ∈ r.(mk_by_key) → verdict_holds (built (part (on_key k) h)) v
  | inl e => e.(exn_cls) ∈ [ValueError; InvalidHistory; LinearizabilitySearchExhausted]
  end.
Proof. intros h. apply check_multi_key_exact, exec_history_wf, new_history_wf. Qed.

(** ** Orders of operations that explain a history

    What a service has to show for its clients' history to be linearizable: one
    order of invocations in which every answered operation got the answer the
    operations before it give, and in which an operation invoked after another
    was answered comes after it ([explains]).  Operations without an answer may
    be in the order or not. *)

Implicit Types (st : gmap string string) (op : HistoryOperation) (l order : list Invocation).

Definition op_effect op st : gmap string string :=
  match op with
  | HWrite (Put k v) => <[k := v]> st
  | HWrite (Delete k) => delete k st
  | HGet _ => st
  end.

Definition op_answer op st : option string := match op with HGet k => st !! k | HWrite _ => None end.

Definition run_ops l : gmap string string := foldl (λ st i, op_effect i.(inv_operation) st) ∅ l.

Lemma run_ops_snoc l i : run_ops (l ++ [i]) = op_effect i.(inv_operation) (run_ops l).
Proof. unfold run_ops. by rewrite foldl_app. Qed.

Record explains h order : Prop := {
  ex_nodup : NoDup order;
  ex_invoked i : i ∈ order → i ∈ h.(h_invocations);
  ex_result id c : h.(h_completions) !! id = Some c → ∃ l1 i l2, order = l1 ++ i :: l2
    ∧ i.(inv_operation_id) = id ∧ c.(cpl_result) = op_answer i.(inv_operation) (run_ops l1);
  ex_time id c l1 i l2 : h.(h_completions) !! id = Some c → order = l1 ++ i :: l2 →
    c.(cpl_sequence) < i.(inv_sequence) → ∃ a, a ∈ l1 ∧ a.(inv_operation_id) = id;
}.

(** A relation between the elements a [filter] keeps *)
Lemma filter_sorted {A} (P : A → Prop) `{!∀ x, Decision (P x)} (R : A → A → Prop) (k : list A) :
  (∀ (k1 : list A) y (k2 : list A) y', k = k1 ++ y :: k2 → y' ∈ k2 → P y → P y' → R y y') → StronglySorted R (filter P k).
Proof.
  induction k as [|y k IH]; intros Hl; simpl; [constructor|].
  assert (StronglySorted R (filter P k)) as Hs.
  { apply IH. intros k1 z k2 z' ->. apply (Hl (y :: k1)). done. }
  destruct (decide (P y)) as [Hy|Hy].
  - rewrite filter_cons_True by done. constructor; [done|]. apply Forall_forall.
    intros z [Hz Hin]%list_elem_of_filter. by apply (Hl [] y k).
  - by rewrite filter_cons_False.
Qed.

Lemma nodup_split {A} (x : A) (l1 l2 k1 k2 : list A) : NoDup (l1 ++ x :: l2) → l1 ++ x :: l2 = k1 ++ x :: k2 → l1 = k1.
Proof.
  revert k1. induction l1 as [|y l1 IH]; intros [|z k1] Hnd He; simpl in *; simplify_eq; [done|..].
  - apply NoDup_cons in Hnd as [Hx _]. set_solver.
  - apply NoDup_cons in Hnd as [Hx _]. set_solver.
  - apply NoDup_cons in Hnd as [_ Hnd]. f_equal. by apply IH.
Qed.

Section explained.
Context h order (Hw : history_wf h) (He : explains h order).
Local Abbreviation observed := (observed_of h).

(** The operations the checker places *)
Definition execution : list Invocation := filter (λ i, i ∈ candidates h observed) order.

(** A completed operation and its place *)
Lemma observed_placed i o : i ∈ h.(h_invocations) → observed !! i.(inv_operation_id) = Some o →
  o.(co_invocation) = i ∧ h.(h_completions) !! i.(inv_operation_id) = Some o.(co_completion)
  ∧ i.(inv_sequence) < o.(co_completion).(cpl_sequence)
  ∧ ∃ l1 l2, order = l1 ++ i :: l2 ∧ o.(co_completion).(cpl_result) = op_answer i.(inv_operation) (run_ops l1).
Proof.
  intros Hi Hobs. apply (observed_iff _ _ _ Hw) in Hobs as [Hc Hid].
  destruct (completed_wf _ _ Hw Hc) as (Hi' & Hlt & _).
  apply elem_of_completed in Hc as [_ Hc]. rewrite Hid in Hc.
  assert (co_invocation o = i) as Heq by (eapply inv_unique; done). rewrite Heq in Hlt.
  split_and!; [done..|]. destruct (ex_result _ _ He _ _ Hc) as (l1 & i' & l2 & Ho & Hi'' & Hr).
  assert (i' = i) as -> by (eapply inv_unique; [exact Hw|apply (ex_invoked _ _ He); set_solver|done|done]).
  by exists l1, l2.
Qed.

(** Only operations without an answer are left out. *)
Lemma execution_covers :
  ∃ omitted, candidates h observed ≡ₚ execution ++ omitted ∧ Forall (λ i, is_observed observed i = false) omitted.
Proof.
  exists (filter (λ i, i ∉ execution) (candidates h observed)). split.
  - assert (execution ≡ₚ filter (λ i, i ∈ execution) (candidates h observed)) as Hp.
    { apply NoDup_Permutation; [apply NoDup_filter, He|by apply NoDup_filter, candidates_nodup|].
      intros i. rewrite list_elem_of_filter. split; [|by intros [? _]]. intros Hi. split; [done|].
      by apply list_elem_of_filter in Hi as [? _]. }
    rewrite Hp at 1. symmetry. apply filter_app_complement.
  - apply Forall_forall. intros i [Hni Hi]%list_elem_of_filter. unfold is_observed. apply bool_decide_eq_false.
    intros [o Hobs]. pose proof Hi as [Hin _]%elem_of_candidates.
    destruct (observed_placed i o Hin Hobs) as (_ & _ & _ & l1 & l2 & Ho & _). apply Hni.
    apply list_elem_of_filter. split; [done|]. rewrite Ho. set_solver.
Qed.

(** Real time *)
Lemma execution_respects : respects (extension_precedes observed) execution.
Proof.
  assert (∀ a b, b ∈ h.(h_invocations) → extension_precedes observed b a = true →
    ∃ z, h.(h_completions) !! b.(inv_operation_id) = Some z ∧ b.(inv_sequence) < z.(cpl_sequence)
      ∧ z.(cpl_sequence) < a.(inv_sequence)) as Hprec.
  { intros a b Hb. unfold extension_precedes. destruct (observed !! _) as [o|] eqn:Eo; [|done].
    destruct (observed_placed b o Hb Eo) as (_ & Hc & Hlt & _). intros ?%Z.ltb_lt. by exists (co_completion o). }
  apply respects_sorted. split.
  - apply filter_sorted. intros l1 a l2 b Ho Hb _ _. apply not_true_iff_false. intros Hp.
    assert (b ∈ h.(h_invocations)) as Hib by (apply (ex_invoked _ _ He); set_solver).
    destruct (Hprec a b Hib Hp) as (z & Hz & _ & Hlt).
    destruct (ex_time _ _ He _ _ _ _ _ Hz Ho Hlt) as (b' & Hb' & Hid).
    assert (b' = b) as -> by (eapply inv_unique; [exact Hw|apply (ex_invoked _ _ He); set_solver|done|done]).
    pose proof (ex_nodup _ _ He) as Hnd. rewrite Ho in Hnd. apply NoDup_app in Hnd as (_ & Hd & _).
    apply (Hd _ Hb'). by right.
  - apply Forall_forall. intros a [_ Ha]%list_elem_of_filter. apply (ex_invoked _ _ He) in Ha.
    apply not_true_iff_false. intros (z & _ & ? & ?)%Hprec; [|done]. lia.
Qed.

(** Every operation does what was observed. *)
Lemma run_step st op v :
  v = match op with HWrite (Put _ v) => Some v | HWrite (Delete _) => None | HGet k => st !! k end →
  partial_alter (λ _, v) (op_key op) st = op_effect op st.
Proof.
  intros ->. destruct op as [[k v|k]|k]; simpl; [done..|].
  apply map_eq. intros k'. destruct (decide (k' = k)) as [->|Hne].
  - by rewrite lookup_partial_alter_eq.
  - by rewrite lookup_partial_alter_ne.
Qed.

Lemma placed_step l1 i l2 :
  order = l1 ++ i :: l2 → i ∈ candidates h observed →
  act_at inv_key (extension_step observed) i (run_ops l1) = Some (run_ops (l1 ++ [i])).
Proof.
  intros Ho Hc. rewrite run_ops_snoc. unfold act_at, inv_key, extension_step.
  assert (i ∈ h.(h_invocations)) as Hi by (apply (ex_invoked _ _ He); set_solver).
  destruct (observed !! inv_operation_id i) as [o|] eqn:Eo.
  - destruct (observed_placed i o Hi Eo) as (Hoi & _ & _ & k1 & k2 & Ho' & Hres).
    assert (l1 = k1) as <-.
    { eapply nodup_split; [rewrite <-Ho; apply He|by rewrite <-Ho]. }
    unfold apply_completed. rewrite Hoi, Hres.
    destruct (inv_operation i) as [[k v|k]|k] eqn:Ei; simpl; [done..|]. rewrite bool_decide_eq_true_2 by done.
    f_equal. by apply (run_step _ (HGet k)).
  - apply elem_of_candidates in Hc as [_ [[o Ho']|Hwr]]; [congruence|]. by destruct (inv_operation i) as [[k v|k]|k].
Qed.

(** A read without an answer *)
Lemma skipped_step l1 i : i ∈ h.(h_invocations) → i ∉ candidates h observed → run_ops (l1 ++ [i]) = run_ops l1.
Proof.
  intros Hi Hc. rewrite run_ops_snoc. destruct (inv_operation i) as [w|k] eqn:Eo; [|done].
  destruct Hc. apply elem_of_candidates. split; [done|]. right. by rewrite Eo.
Qed.

Lemma execution_legal : legal (act_at inv_key (extension_step observed)) ∅ execution.
Proof.
  unfold execution. assert (∀ l2 l1, order = l1 ++ l2 →
    legal (act_at inv_key (extension_step observed)) (run_ops l1)
      (filter (λ i, i ∈ candidates h observed) l2)) as Hl; [|by apply (Hl _ [])].
  induction l2 as [|i l2 IH]; intros l1 Ho; [done|].
  assert (order = (l1 ++ [i]) ++ l2) as Ho' by by rewrite <-app_assoc.
  destruct (decide (i ∈ candidates h observed)) as [Hc|Hc].
  - rewrite filter_cons_True by done. exists (run_ops (l1 ++ [i])). split; [by eapply placed_step|by apply IH].
  - rewrite filter_cons_False by done. rewrite <-(skipped_step l1 i); [by apply IH| |done].
    apply (ex_invoked _ _ He). set_solver.
Qed.

Lemma execution_explains : multi_key_extension h execution.
Proof. split_and!; [apply execution_covers|apply execution_respects|apply execution_legal]. Qed.
End explained.

(** What an explained history is worth: it is linearizable, and the checker does
    not reject it. *)
Definition accepted h : Prop :=
  (∃ l, multi_key_extension h l)
  ∧ ∀ max_operations max_keys max_states,
      match check_multi_key h max_operations max_keys max_states with
      | inr r => r.(mk_linearizable) = true
      | inl e => e.(exn_cls) ∈ [ValueError; InvalidHistory; LinearizabilitySearchExhausted]
      end.

Lemma explained_accepted h order : history_wf h → explains h order → accepted h.
Proof.
  intros Hw He. assert (∃ l, multi_key_extension h l) as Hl by (eexists; by eapply execution_explains).
  split; [done|]. intros mo mk ms. pose proof (check_multi_key_exact _ mo mk ms Hw) as Hx.
  destruct (check_multi_key _ _ _ _); [done|]. by apply (proj1 Hx).
Qed.
