(* ===== verification/HistoryMinimizer.v ===== *)
(** * HistoryMinimizer: minimal non-linearizable histories

    Models [NonLinearizableHistoryMinimizer] of
    [src/distlab/history_minimizer.py] with the checker its constructor
    supplies.  Each round of the [while] loop drops one operation, so one more
    round than there are completed operations is enough fuel. *)

From S2P Require Import Prelude KVCommands History Linearizability Locality Projection.

Record HistoryMinimizationResult := mkMinimization {
  hm_history : OperationHistory;
  hm_operation_ids : list string;
  hm_removed_operation_ids : list string;
}.

Implicit Types (h : OperationHistory) (id : string) (ids current : list string).

(** [_project] *)
Definition keeps ids (i : Invocation) : bool := bool_decide (i.(inv_operation_id) ∈ ids).

Definition project h ids : exn + OperationHistory := replay_events (part (keeps ids) h).

(** [self.checker.check(...).linearizable] of a projection *)
Definition projection_linearizable h ids : exn + bool :=
  match project h ids with
  | inl e => inl e
  | inr candidate =>
      match check candidate with
      | inl e => inl e
      | inr r => inr r.(lr_linearizable)
      end
  end.

Definition drop_id id ids : list string := filter (λ x, x ≠ id) ids.

(** The [for] loop: the ids left after the first deletion that keeps the failure *)
Fixpoint first_removable h current (tried : list string) : exn + option (list string) :=
  match tried with
  | [] => inr None
  | operation_id :: tried' =>
      match projection_linearizable h (drop_id operation_id current) with
      | inl e => inl e
      | inr true => first_removable h current tried'
      | inr false => inr (Some (drop_id operation_id current))
      end
  end.

(** The [while] loop; [None] is out of fuel. *)
Fixpoint minimize_history_loop (fuel : nat) h current : exn + option (list string) :=
  match fuel with
  | O => inr None
  | S fuel =>
      match first_removable h current current with
      | inl e => inl e
      | inr None => inr (Some current)
      | inr (Some current) => minimize_history_loop fuel h current
      end
  end.

Definition minimize_history h : exn + option HistoryMinimizationResult :=
  match check h with
  | inl e => inl e
  | inr r =>
      if r.(lr_linearizable) then
        inl (Exn ValueError "history must be non-linearizable before minimization")
      else
        let original_ids := inv_operation_id <$> invocations h in
        let current := co_operation_id <$> completed h in
        if bool_decide (current = []) then
          inl (Exn AssertionError "non-linearizable history must contain completed operations")
        else
          match minimize_history_loop (S (length current)) h current with
          | inl e => inl e
          | inr None => inr None
          | inr (Some kept) =>
              match project h kept with
              | inl e => inl e
              | inr minimized =>
                  inr (Some (mkMinimization minimized kept (filter (λ id, id ∉ kept) original_ids)))
              end
          end
  end.

(** ** What a projection decides *)

(** The completed operations of a history with these ids *)
Definition completed_among h ids : list CompletedOperation :=
  filter (λ c, co_operation_id c ∈ ids) (completed h).

Definition has_linearization (operations : list CompletedOperation) : Prop :=
  ∃ l, linearization operations l.

(** All completed operations touch one key. *)
Definition one_key h : Prop :=
  (size (list_to_set ((λ c, op_key c.(co_invocation).(inv_operation)) <$> completed h) : gset string) = 1)%nat.

Lemma keeps_among h ids :
  filter (λ c, keeps ids (co_invocation c) = true) (completed h) = completed_among h ids.
Proof. apply list_filter_iff. intros c. unfold keeps. by rewrite bool_decide_eq_true. Qed.

Lemma project_built h ids : history_wf h → project h ids = inr (built (part (keeps ids) h)).
Proof. intros Hw. by apply replay_built, part_ok. Qed.

Lemma projection_keys h ids :
  history_wf h → one_key h →
  completed (built (part (keeps ids) h)) = [] ∨
  (size (list_to_set ((λ c, op_key c.(co_invocation).(inv_operation)) <$> completed (built (part (keeps ids) h)))
    : gset string) = 1)%nat.
Proof.
  intros Hw Hone. set (ops := completed (built (part (keeps ids) h))).
  set (keys := list_to_set _). assert (keys ⊆ list_to_set ((λ c, op_key c.(co_invocation).(inv_operation)) <$> completed h)) as Hsub.
  { intros k. unfold keys. rewrite !elem_of_list_to_set, !list_elem_of_fmap. intros (c' & -> & Hc').
    unfold ops in Hc'. rewrite moved_completions in Hc' by done.
    apply list_elem_of_fmap in Hc' as (c & -> & [Hk Hc]%list_elem_of_filter). exists c. split; [|done].
    destruct (moved_completed_spec _ h c Hw Hc Hk) as (_ & -> & _).
    by destruct (moved_spec _ h _ Hw (proj1 (completed_wf _ _ Hw Hc)) Hk) as (? & _ & ->). }
  pose proof (subseteq_size _ _ Hsub) as Hle. unfold one_key in Hone. rewrite Hone in Hle.
  destruct (decide (ops = [])) as [?|Hne]; [by left|right]. assert (size keys ≠ 0)%nat; [|lia].
  rewrite size_empty_iff. unfold keys. destruct ops; [done|]. set_solver.
Qed.

Lemma projection_check h ids :
  history_wf h → one_key h →
  ∃ b, projection_linearizable h ids = inr b ∧ (b = true ↔ has_linearization (completed_among h ids)).
Proof.
  intros Hw Hone. unfold projection_linearizable. rewrite project_built by done.
  pose proof (check_operations_exact (completed (built (part (keeps ids) h)))) as Hc. cbv zeta in Hc.
  rewrite decide_True in Hc by (by apply projection_keys). destruct Hc as (r & Hr & Hv).
  unfold check. rewrite Hr. eexists. split; [done|]. unfold has_linearization.
  rewrite <-keeps_among, <-projected_linearization by done.
  destruct (lr_linearizable r); split; try done.
  - intros _. destruct Hv as (l & Hl & _). by exists l.
  - intros [l Hl]. by destruct (proj2 Hv l).
Qed.

(** ** The loop *)

Lemma first_removable_spec h current tried :
  history_wf h → one_key h →
  match first_removable h current tried with
  | inr (Some next) => ∃ id, id ∈ tried ∧ next = drop_id id current
      ∧ ¬ has_linearization (completed_among h next)
  | inr None => ∀ id, id ∈ tried → has_linearization (completed_among h (drop_id id current))
  | inl _ => False
  end.
Proof.
  intros Hw Hone. induction tried as [|id tried IH]; simpl; [by intros ? ?%elem_of_nil|].
  destruct (projection_check h (drop_id id current) Hw Hone) as ([|] & -> & Hb).
  - destruct (first_removable _ _ _) as [e|[next|]]; [done|..].
    + destruct IH as (id' & ? & ?). exists id'. by split; [right|].
    + intros id' [->|Hin]%elem_of_cons; [by apply Hb|by apply IH].
  - exists id. split_and!; [left|done|]. intros Hl. by apply Hb in Hl.
Qed.

Lemma drop_id_shorter id ids : id ∈ ids → (length (drop_id id ids) < length ids)%nat.
Proof. intros Hin. apply (length_filter_lt _ ids id); [done|]. by intros []. Qed.

(** A list of ids that fails and keeps failing with none of them left out *)
Record minimal_failure h current ids : Prop := {
  mf_kept : ids `sublist_of` current;
  mf_fails : ¬ has_linearization (completed_among h ids);
  mf_minimal id : id ∈ ids → has_linearization (completed_among h (drop_id id ids));
}.

Lemma minimize_history_loop_spec fuel h current :
  history_wf h → one_key h → (length current < fuel)%nat →
  ¬ has_linearization (completed_among h current) →
  ∃ kept, minimize_history_loop fuel h current = inr (Some kept) ∧ minimal_failure h current kept.
Proof.
  intros Hw Hone. revert current. induction fuel as [|fuel IH]; intros current Hlt Hfail; [lia|]. simpl.
  pose proof (first_removable_spec h current current Hw Hone) as Hs.
  destruct (first_removable h current current) as [e|[next|]]; [done|..].
  - destruct Hs as (id & Hin & -> & Hn). pose proof (drop_id_shorter id current Hin) as Hsh.
    destruct (IH (drop_id id current)) as (kept & Hk & [Hsub Hf Hm]); [lia|done|].
    exists kept. split; [done|]. split; [|done..]. etrans; [done|]. apply sublist_filter.
  - exists current. split; [done|]. by split.
Qed.

(** C22: The minimizer always comes to an end.  It refuses a history that is
    linearizable, or whose completed operations touch several keys, and for
    every other one it returns ids of completed operations, in their order,
    whose operations are still not linearizable while leaving out any one of
    them makes them so, together with the history of just these operations
    and the ids it removed. *)
Theorem minimize_history_correct ops :
  let h := exec_history ops new_history in
  match minimize_history h with
  | inr (Some r) =>
      minimal_failure h (co_operation_id <$> completed h) r.(hm_operation_ids)
      ∧ r.(hm_history) = built (part (keeps r.(hm_operation_ids)) h)
      ∧ (∀ l, ¬ linearization (completed r.(hm_history)) l)
      ∧ (∀ id, id ∈ r.(hm_removed_operation_ids)
          ↔ id ∈ inv_operation_id <$> invocations h ∧ id ∉ r.(hm_operation_ids))
  | inr None => False
  | inl e => (e.(exn_cls) = ValueError ∧ has_linearization (completed h))
      ∨ (e.(exn_cls) = InvalidHistory ∧ completed h ≠ [] ∧ ¬ one_key h)
  end.
Proof.
  intros h. assert (history_wf h) as Hw by apply exec_history_wf, new_history_wf.
  unfold minimize_history, check. pose proof (check_operations_exact (completed h)) as Hc. cbv zeta in Hc.
  destruct (decide _) as [Hone|Hone].
  2:{ destruct Hc as [msg ->]. right. split; [done|]. split; intros ?; apply Hone; [by left|by right]. }
  destruct Hc as (r & -> & Hv). destruct (lr_linearizable r).
  { left. split; [done|]. destruct Hv as (l & Hl & _). by exists l. }
  destruct Hv as [_ Hv]. assert (completed h ≠ []) as Hne.
  { intros He. apply (Hv []). rewrite He. unfold linearization, respects. done. }
  destruct Hone as [?|Hone]; [done|]. rewrite bool_decide_eq_false_2 by (by destruct (completed h)).
  assert (completed_among h (co_operation_id <$> completed h) = completed h) as Hall.
  { apply Locality.filter_all. intros c Hc. apply list_elem_of_fmap. by exists c. }
  destruct (minimize_history_loop_spec (S (length (co_operation_id <$> completed h))) h
    (co_operation_id <$> completed h)) as (kept & -> & Hm); [done|done|lia|rewrite Hall; by intros [l Hl%Hv]|].
  rewrite project_built by done. simpl. split_and!; [done|done|..].
  - intros l Hl. apply (mf_fails _ _ _ Hm). unfold has_linearization. rewrite <-keeps_among.
    apply projected_linearization; [done|]. by exists l.
  - intros id. rewrite list_elem_of_filter. tauto.
Qed.
