(* ===== verification/Minimizer.v ===== *)
(** * Minimizer: greedy one-at-a-time deletion

    Models [minimize_indexed_sequence] of
    [src/distlab/_deletion_minimizer.py], the reduction the schedule and
    workload minimizers share.  [preserves_failure] is the caller's oracle, a
    deterministic function; the [while True] loop takes fuel, and one round more
    than there are entries is enough ([minimize_sound] runs it with that). *)

From S2P Require Import Prelude.

Section minimizer.
Context {T : Type} (preserves_failure : list T → bool).
Implicit Types (current : list (nat * T)).

(** [list(enumerate(entries))] *)
Definition enumerate (entries : list T) : list (nat * T) := zip (seq 0 (length entries)) entries.

(** [current[:position] + current[position + 1:]] *)
Definition without (position : nat) current : list (nat * T) :=
  take position current ++ drop (S position) current.

(** The [for] loop: the first position whose deletion keeps the failure. *)
Fixpoint first_deletable (positions : list nat) current : option (nat * list (nat * T)) :=
  match positions with
  | [] => None
  | position :: rest =>
      let candidate_entries := without position current in
      if preserves_failure candidate_entries.*2 then
        match current !! position with
        | Some (original_index, _) => Some (original_index, candidate_entries)
        | None => first_deletable rest current
        end
      else first_deletable rest current
  end.

Fixpoint minimize_loop (fuel : nat) current (removed : list nat)
    : option (list (nat * T) * list nat) :=
  match fuel with
  | O => None
  | S fuel' =>
      match first_deletable (seq 0 (length current)) current with
      | None => Some (current, merge_sort le removed)
      | Some (original_index, candidate_entries) =>
          minimize_loop fuel' candidate_entries (removed ++ [original_index])
      end
  end.

Definition minimize_indexed_sequence (entries : list T) : option (list (nat * T) * list nat) :=
  minimize_loop (S (length entries)) (enumerate entries) [].

(** ** The scan *)

Lemma without_split position current x :
  current !! position = Some x →
  without position current `sublist_of` current ∧ current ≡ₚ x :: without position current
  ∧ length current = S (length (without position current)).
Proof.
  intros Hx. unfold without. pose proof (take_drop_middle current position x Hx) as Hsplit.
  split_and!.
  - rewrite <-Hsplit at 3. apply sublist_app; [done|]. by apply sublist_cons.
  - rewrite <-Hsplit at 1. by rewrite Permutation_middle.
  - rewrite <-Hsplit at 1. rewrite !length_app. simpl. lia.
Qed.

Lemma first_deletable_some positions current original rest :
  first_deletable positions current = Some (original, rest) →
  ∃ position x, current !! position = Some (original, x) ∧ rest = without position current
    ∧ preserves_failure rest.*2 = true.
Proof.
  induction positions as [|p l IH]; simpl; [done|].
  destruct (preserves_failure (without p current).*2) eqn:Ep; [|exact IH].
  destruct (current !! p) as [[o x]|] eqn:Ex; [|exact IH].
  intros [= <- <-]. by exists p, x.
Qed.

Lemma first_deletable_none positions current :
  first_deletable positions current = None →
  ∀ position, position ∈ positions → (position < length current)%nat →
    preserves_failure (without position current).*2 = false.
Proof.
  induction positions as [|p l IH]; simpl; [by intros _ p ?%elem_of_nil|].
  destruct (preserves_failure _) eqn:Ep.
  - destruct (current !! p) as [[o x]|] eqn:Ex; [done|].
    intros Hn q [->|Hq]%elem_of_cons Hlt; [|by apply IH].
    apply lookup_ge_None in Ex. lia.
  - intros Hn q [->|Hq]%elem_of_cons Hlt; [done|by apply IH].
Qed.

(** No single entry can be deleted from [l] without losing the failure. *)
Definition one_minimal (l : list T) : Prop := ∀ position,
  (position < length l)%nat → preserves_failure (take position l ++ drop (S position) l) = false.

Lemma minimize_loop_spec fuel current removed :
  (length current < fuel)%nat →
  ∃ kept gone, minimize_loop fuel current removed = Some (kept, merge_sort le (removed ++ gone))
    ∧ kept `sublist_of` current ∧ current.*1 ≡ₚ kept.*1 ++ gone
    ∧ one_minimal kept.*2
    ∧ (gone = [] ∧ kept = current ∨ preserves_failure kept.*2 = true).
Proof.
  revert current removed. induction fuel as [|fuel IH]; intros current removed Hf; [lia|]. simpl.
  destruct (first_deletable _ current) as [[o rest]|] eqn:E.
  - apply first_deletable_some in E as (p & x & Hp & -> & Hpf).
    destruct (without_split _ _ _ Hp) as (Hsub & Hperm & Hlen).
    destruct (IH (without p current) (removed ++ [o])) as (kept & gone & -> & Hk & Hg & Hmin & Hor);
      [lia|].
    exists kept, (o :: gone). split_and!.
    + by rewrite <-app_assoc.
    + by etrans.
    + rewrite Hperm. simpl. rewrite Hg. by rewrite Permutation_middle.
    + done.
    + right. destruct Hor as [[_ ->]|?]; done.
  - exists current, []. rewrite app_nil_r. split_and!; [done|done|by rewrite app_nil_r| |by left].
    intros p Hp. rewrite length_fmap in Hp.
    pose proof (first_deletable_none _ _ E p) as Hn. unfold without in Hn.
    rewrite fmap_app, fmap_take, fmap_drop in Hn. apply Hn; [|done]. apply elem_of_seq. lia.
Qed.

Lemma enumerate_fst entries : (enumerate entries).*1 = seq 0 (length entries).
Proof. unfold enumerate. rewrite fst_zip; [done|]. by rewrite length_seq. Qed.

Lemma enumerate_snd entries : (enumerate entries).*2 = entries.
Proof. unfold enumerate. rewrite snd_zip; [done|]. by rewrite length_seq. Qed.

(** The minimizer ends; what it keeps is a subsequence of the input in the
    original order, every index is either kept or listed (once, in increasing
    order) as removed, the result still fails if the input did, and it is
    1-minimal: no single further deletion keeps the failure. *)
Theorem minimize_sound entries :
  ∃ kept removed, minimize_indexed_sequence entries = Some (kept, removed)
    ∧ kept.*2 `sublist_of` entries
    ∧ seq 0 (length entries) ≡ₚ kept.*1 ++ removed ∧ StronglySorted le removed
    ∧ one_minimal kept.*2
    ∧ (preserves_failure entries = true → preserves_failure kept.*2 = true).
Proof.
  unfold minimize_indexed_sequence.
  destruct (minimize_loop_spec (S (length entries)) (enumerate entries) [])
    as (kept & gone & -> & Hk & Hg & Hmin & Hor).
  { unfold enumerate. rewrite length_zip_with, length_seq. lia. }
  exists kept, (merge_sort le gone). split_and!; [done| | | |done|].
  - rewrite <-(enumerate_snd entries). by apply fmap_sublist.
  - rewrite <-enumerate_fst, Hg. by rewrite merge_sort_Permutation.
  - apply StronglySorted_merge_sort; [|apply _]. intros x y ?; lia.
  - destruct Hor as [[_ ->]|?]; [|done]. by rewrite enumerate_snd.
Qed.
End minimizer.

(** Deleting from [1; 2; 3; 4] while the sum stays at least 6. *)
Lemma minimize_example :
  minimize_indexed_sequence (λ l, 6 <=? foldr Z.add 0 l) [1; 2; 3; 4] =
    Some ([(2%nat, 3); (3%nat, 4)], [0%nat; 1%nat]).
Proof. vm_compute. reflexivity. Qed.

(** ** A concrete oracle *)

(** The failure needs 3 before 5. *)
Fixpoint needs_3_before_5 (seen : bool) (l : list Z) : bool :=
  match l with
  | [] => false
  | x :: l' => if x =? 5 then seen || needs_3_before_5 seen l'
               else needs_3_before_5 (seen || (x =? 3)) l'
  end.

Lemma minimize_sound_witness :
  ∃ kept removed,
    minimize_indexed_sequence (needs_3_before_5 false) [3; 1; 5; 3] = Some (kept, removed)
    ∧ needs_3_before_5 false kept.*2 = true.
Proof.
  destruct (minimize_sound (needs_3_before_5 false) [3; 1; 5; 3])
    as (kept & removed & H1 & _ & _ & _ & H2).
  exists kept, removed. split; [exact H1|]. apply H2. vm_compute. reflexivity.
Defined.
