(* ===== verification/Slots.v ===== *)
(** * Slots: per-slot Paxos records

    [SlotAcceptedValue] and [SlotLearnedDecision] of [src/distlab/paxos_log.py],
    which the multi-slot protocols share. *)

From S2P Require Import Prelude Quorum.

Section slots.
Context {V : Type} `{EqDecision V}.

Record SlotAcceptedValue := mkSlotAccepted {
  sa_slot : Z;
  sa_proposal : ProposalNumber;
  sa_value : V;
}.

Record SlotLearnedDecision := mkSlotLearned {
  sl_slot : Z;
  sl_proposal : ProposalNumber;
  sl_value : V;
}.

#[global] Instance SlotAcceptedValue_eq_dec : EqDecision SlotAcceptedValue.
Proof. solve_decision. Defined.
#[global] Instance SlotLearnedDecision_eq_dec : EqDecision SlotLearnedDecision.
Proof. solve_decision. Defined.

Definition new_SlotAcceptedValue slot p v : exn + SlotAcceptedValue :=
  if slot <=? 0 then inl (Exn ValueError "Paxos log slot must be positive")
  else inr (mkSlotAccepted slot p v).

Definition new_SlotLearnedDecision slot p v : exn + SlotLearnedDecision :=
  if slot <=? 0 then inl (Exn ValueError "Paxos log slot must be positive")
  else inr (mkSlotLearned slot p v).
End slots.

Arguments SlotAcceptedValue V : clear implicits.
Arguments SlotLearnedDecision V : clear implicits.

(** [dict[k] = v] on a dict in insertion order: a present key keeps its place. *)
Section assoc.
Context {K A : Type} `{EqDecision K}.

Fixpoint assoc_set (k : K) (a : A) (l : list (K * A)) : list (K * A) :=
  match l with
  | [] => [(k, a)]
  | (k', a') :: l' => if decide (k' = k) then (k, a) :: l' else (k', a') :: assoc_set k a l'
  end.

Fixpoint assoc_get (k : K) (l : list (K * A)) : option A :=
  match l with
  | [] => None
  | (k', a) :: l' => if decide (k' = k) then Some a else assoc_get k l'
  end.

Lemma assoc_get_set k k' a l :
  assoc_get k' (assoc_set k a l) = if decide (k' = k) then Some a else assoc_get k' l.
Proof.
  induction l as [|[k1 a1] l IH]; simpl; [repeat case_decide; congruence|].
  destruct (decide (k1 = k)) as [->|Hne]; simpl; [repeat case_decide; congruence|].
  rewrite IH. repeat case_decide; congruence.
Qed.

Lemma assoc_get_elem k a l : assoc_get k l = Some a → (k, a) ∈ l.
Proof.
  induction l as [|[k1 a1] l IH]; simpl; [done|]. case_decide; subst.
  - intros [= ->]. by left.
  - intros ?%IH. by right.
Qed.

Lemma assoc_set_keys k a l : ∀ x, x ∈ (assoc_set k a l).*1 ↔ x = k ∨ x ∈ l.*1.
Proof.
  induction l as [|[k1 a1] l IH]; intros x; simpl.
  - rewrite list_elem_of_singleton, elem_of_nil. naive_solver.
  - case_decide; subst; simpl; rewrite !elem_of_cons; [naive_solver|]. rewrite IH. naive_solver.
Qed.

Lemma assoc_set_nodup k a l : NoDup l.*1 → NoDup (assoc_set k a l).*1.
Proof.
  induction l as [|[k1 a1] l IH]; simpl; [intros _; apply NoDup_singleton|].
  intros [Hk Hnd]%NoDup_cons. case_decide; subst; simpl; apply NoDup_cons; [done|].
  split; [|by apply IH]. rewrite assoc_set_keys. naive_solver.
Qed.

(** A new key goes to the end. *)
Lemma assoc_set_fresh k a l : k ∉ l.*1 → assoc_set k a l = l ++ [(k, a)].
Proof.
  induction l as [|[k1 a1] l IH]; simpl; [done|]. intros [Hne Hk]%not_elem_of_cons.
  rewrite decide_False by done. by rewrite IH.
Qed.

Lemma elem_assoc_get k a l : NoDup l.*1 → (k, a) ∈ l → assoc_get k l = Some a.
Proof.
  induction l as [|[k1 a1] l IH]; simpl; [by intros _ ?%elem_of_nil|].
  intros [Hk Hnd]%NoDup_cons [[= <- <-]|Hin]%elem_of_cons; [by rewrite decide_True|].
  case_decide as Heq; [|by apply IH]. subst. exfalso. apply Hk, list_elem_of_fmap. by exists (k, a).
Qed.
End assoc.
