(* ===== verification/Refinement.v ===== *)
(** * Refinement: stateful code that follows an abstract machine

    [refines s m Q w]: run from the world [w], which stands for the abstract
    state [s], the computation [m] ends in a world that stands for a state the
    machine can reach from [s]; if it returns, [Q] holds of what it returned,
    and if it raises, the exception is one of [ok].

    [protocol] is the interface between the simulator and a protocol on it: what
    a simulation relation has to give for the simulator's own methods (sending,
    running, crashing, the network) to follow the machine. *)

From stdpp Require Import relations.
From S2P Require Import Prelude Simulator SimFacts.

Section refinement.
Context {W S : Type} (step : S → S → Prop) (R : W → S → Prop) (ok : exn → Prop).
Implicit Types (w : W) (s : S).

Definition refines {A} s (m : M W A) (Q : W → S → A → Prop) w : Prop :=
  wp m (λ w' a, ∃ s', rtc step s s' ∧ R w' s' ∧ Q w' s' a)
       (λ w' e, (∃ s', rtc step s s' ∧ R w' s') ∧ ok e) w.

(** Nothing is said of the result. *)
Definition safely {A} s (m : M W A) w : Prop := refines s m (λ _ _ _, True) w.

Lemma refines_ret {A} s (a : A) (Q : W → S → A → Prop) w :
  R w s → Q w s a → refines s (ret a) Q w.
Proof. intros HR HQ. exists s. done. Qed.

Lemma refines_weaken {A} s (m : M W A) (Q Q' : W → S → A → Prop) w :
  refines s m Q w →
  (∀ s' w' a, rtc step s s' → R w' s' → Q w' s' a → Q' w' s' a) →
  refines s m Q' w.
Proof.
  intros Hm HQ. eapply wp_mono; [exact Hm| |done].
  intros w' a (s' & ? & ? & ?). exists s'. auto.
Qed.

Lemma refines_steps {A} s s' (m : M W A) (Q : W → S → A → Prop) w :
  rtc step s s' → refines s' m Q w → refines s m Q w.
Proof.
  intros Hs Hm. eapply wp_mono; [exact Hm| |].
  - intros w' a (s2 & ? & ? & ?). exists s2. split; [by etrans|done].
  - intros w' e [(s2 & ? & ?) ?]. split; [|done]. exists s2. split; [by etrans|done].
Qed.

Lemma refines_bind {A B} s (m : M W A) (k : A → M W B) (Q : W → S → B → Prop)
    (P : W → S → A → Prop) w :
  refines s m P w →
  (∀ s' w' a, rtc step s s' → R w' s' → P w' s' a → refines s' (k a) Q w') →
  refines s (bind m k) Q w.
Proof.
  intros Hm Hk. apply wp_bind. eapply wp_mono; [exact Hm| |done].
  intros w' a (s' & Hs & HR & HP). eapply refines_steps; [exact Hs|]. by apply Hk.
Qed.

Lemma refines_assoc {A B D} s (m : M W A) (k : A → M W B) (k' : B → M W D) (Q : W → S → D → Prop) w :
  refines s (bind (bind m k) k') Q w → refines s (bind m (λ a, bind (k a) k')) Q w.
Proof. unfold refines, wp, bind. by destruct (m w) as [w' [e|a]]. Qed.

Lemma refines_gets {A B} s (f : W → A) (k : A → M W B) (Q : W → S → B → Prop) w :
  refines s (k (f w)) Q w → refines s (bind (gets f) k) Q w.
Proof. intros Hk. by apply wp_bind, wp_gets. Qed.

Lemma refines_raise {A} s c msg (Q : W → S → A → Prop) w :
  R w s → ok (Exn c msg) → refines s (raise c msg) Q w.
Proof. intros HR Hok. apply wp_raise. split; [by exists s|done]. Qed.

(** A guard that does not fire, and one that may. *)
Lemma refines_guard {B} s b c msg (k : unit → M W B) (Q : W → S → B → Prop) w :
  b = false → refines s (k tt) Q w → refines s (bind (raise_if b c msg) k) Q w.
Proof. intros -> Hk. by apply wp_bind. Qed.

Lemma refines_check {B} s b c msg (k : unit → M W B) (Q : W → S → B → Prop) w :
  R w s → (b = true → ok (Exn c msg)) → (b = false → refines s (k tt) Q w) →
  refines s (bind (raise_if b c msg) k) Q w.
Proof.
  intros HR Hok Hk. destruct b; [|by apply wp_bind, Hk].
  apply wp_bind, wp_raise. split; [by exists s|by apply Hok].
Qed.

Lemma refines_lift {A B} s (r : exn + A) (k : A → M W B) (Q : W → S → B → Prop) w :
  R w s → (∀ e, r = inl e → ok e) → (∀ a, r = inr a → refines s (k a) Q w) →
  refines s (bind (lift r) k) Q w.
Proof.
  intros HR He Hk. apply wp_bind, wp_lift. destruct r as [e|a]; [|by apply Hk].
  split; [by exists s|by apply He].
Qed.

(** A computation that leaves the world as it is. *)
Lemma refines_pure {A B} s (m : M W A) (k : A → M W B) (P : A → Prop) (Q : W → S → B → Prop) w :
  wp m (λ w' a, w' = w ∧ P a) (λ w' e, w' = w ∧ ok e) w → R w s →
  (∀ a, P a → refines s (k a) Q w) → refines s (bind m k) Q w.
Proof.
  intros Hm HR Hk. apply wp_bind. eapply wp_mono; [exact Hm| |].
  - intros w' a [-> Ha]. by apply Hk.
  - intros w' e [-> He]. split; [by exists s|done].
Qed.

(** A computation known to return [a] and change nothing. *)
Lemma refines_returns {A B} s (m : M W A) (k : A → M W B) (a : A) (Q : W → S → B → Prop) w :
  m w = (w, inr a) → refines s (k a) Q w → refines s (bind m k) Q w.
Proof. intros Hm Hk. apply wp_bind. unfold wp at 1. by rewrite Hm. Qed.

Lemma safely_intro s w : R w s → safely s (ret tt) w.
Proof. intros HR. by apply refines_ret. Qed.

Lemma safely_bind {A B} s (m : M W A) (k : A → M W B) w :
  safely s m w →
  (∀ s' w' a, rtc step s s' → R w' s' → safely s' (k a) w') → safely s (bind m k) w.
Proof. intros Hm Hk. eapply refines_bind; [exact Hm|]. intros. by apply Hk. Qed.

Lemma safely_when s b (m : M W unit) w :
  R w s → (b = true → safely s m w) → safely s (when b m) w.
Proof. intros HR Hm. destruct b; [by apply Hm|by apply safely_intro]. Qed.

(** A loop whose body is safe under a condition the machine preserves. *)
Lemma safely_for_each {A} s (l : list A) (f : A → M W unit) (P : S → A → Prop) w :
  R w s → (∀ x, x ∈ l → P s x) → (∀ s' s'' x, rtc step s' s'' → P s' x → P s'' x) →
  (∀ s' w' x, rtc step s s' → R w' s' → P s' x → safely s' (f x) w') →
  safely s (for_each l f) w.
Proof.
  intros HR HP Hmono Hf. revert s w HR HP Hf.
  induction l as [|x l IH]; intros s w HR HP Hf; simpl; [by apply safely_intro|].
  eapply safely_bind; [apply Hf; [done..|by apply HP; left]|].
  intros s' w' _ Hs' HR'. apply IH; [done| |].
  - intros y Hy. eapply Hmono; [exact Hs'|]. apply HP. by right.
  - intros s2 w2 y Hs2. apply Hf. by etrans.
Qed.

(** A computation that ends in a world related to the same abstract state. *)
Lemma safely_wp {A} s (m : M W A) w :
  wp m (λ w' _, R w' s) (λ w' e, R w' s ∧ ok e) w → safely s m w.
Proof.
  intros Hm. eapply wp_mono; [exact Hm| |].
  - intros w' a HR. by exists s.
  - intros w' e [HR ?]. split; [by exists s|done].
Qed.
End refinement.

(** A finer relation gives a coarser one. *)
Lemma refines_change {W S A} (step : S → S → Prop) (R R' : W → S → Prop) ok s (m : M W A) Q w :
  (∀ w s, R w s → R' w s) → refines step R ok s m Q w → refines step R' ok s m Q w.
Proof.
  intros HR Hm. eapply wp_mono; [exact Hm| |].
  - intros w' a (s' & ? & ? & ?). exists s'. auto.
  - intros w' e [(s' & ? & ?) ?]. split; [|done]. exists s'. auto.
Qed.

(** A caught exception leaves a world the handler goes on from. *)
Lemma refines_try {W S A} (step : S → S → Prop) (R : W → S → Prop) ok ok' (s : S) (m : M W A) h Q w :
  refines step R ok s m Q w →
  (∀ s' w' e, rtc step s s' → R w' s' → ok e → m w = (w', inl e) → refines step R ok' s' (h e) Q w') →
  refines step R ok' s (try_except m h) Q w.
Proof.
  unfold try_except, refines at 1 3, wp. destruct (m w) as [w' [e|a]] eqn:E; [|done].
  intros [(s' & Hs & HR) He] Hh. by eapply (refines_steps _ _ _ s s'), Hh.
Qed.

Lemma safely_unit {W S A} (step : S → S → Prop) (R : W → S → Prop) ok (m : M W A) w (s : S) :
  safely step R ok s m w → safely step R ok s (m ;; ret tt) w.
Proof. intros Hm. eapply safely_bind; [exact Hm|]. intros. by apply safely_intro. Qed.

(** ** Protocols on the simulator *)
Section protocol.
Context {Σ : Sig} {S : Type} (step : S → S → Prop) (R : World Σ → S → Prop) (ok : exn → Prop).
Implicit Types (w : World Σ) (s : S).
Local Abbreviation M := (M (World Σ)).
Local Abbreviation safely := (safely step R ok).
Local Abbreviation steps := (rtc step).

(** What may be in flight, to whom, and which handlers may be registered *)
Context (msg_ok : S → Payload Σ → Prop) (dst_ok : string → Prop) (handle_ok : Handle Σ → Prop).

Definition messages_ok s (q : list (ScheduledDelivery Σ)) : Prop :=
  ∀ x, x ∈ q → msg_ok s x.(sd_message).(payload)
    ∧ dst_ok x.(sd_message).(dst) ∧ x.(sd_message).(delivery_dst) = None.

(** Of the simulator, the relation is about the disks, the queue and the
    registered handlers. *)
Record protocol : Prop := {
  pr_msg s s' p : steps s s' → msg_ok s p → msg_ok s' p;
  pr_sim w s (st : Sim Σ) : R w s →
    st.(persistent_state) = w.(sim).(persistent_state) → messages_ok s st.(queue) →
    st.(handlers) = w.(sim).(handlers) → st.(crash_handlers) = w.(sim).(crash_handlers) →
    st.(restart_handlers) = w.(sim).(restart_handlers) → R (mkWorld st w.(objs)) s;
  pr_queue w s : R w s → messages_ok s w.(sim).(queue);
  pr_crash w s n h : R w s → w.(sim).(crash_handlers) !! n = Some h → handle_ok h;
  pr_restart w s n h : R w s → w.(sim).(restart_handlers) !! n = Some h → handle_ok h;
}.
Context (Hp : protocol).

Lemma messages_mono s s' q : steps s s' → messages_ok s q → messages_ok s' q.
Proof. intros Hs Hq x Hx. destruct (Hq x Hx). split; [by eapply (pr_msg Hp)|done]. Qed.

Lemma protocol_ext new w w' s : sim_ext new w w' → messages_ok s new → R w s → R w' s.
Proof.
  intros He Hnew HR. replace w' with (mkWorld w'.(sim) w.(objs)) by (rewrite <-(se_objs _ _ _ He); by destruct w').
  apply (pr_sim Hp w); [done|apply He| |apply He..].
  intros x. rewrite (se_queue _ _ _ He), elem_of_app. intros [?|?]; [by apply Hnew|by apply (pr_queue Hp w)].
Qed.

Lemma protocol_record s (e : Event Σ) w : R w s → safely s (record e) w.
Proof.
  intros HR. apply wp_record. intros w' He _ _. exists s. split; [done|]. split; [|done].
  eapply protocol_ext; [exact He| |exact HR]. intros x []%elem_of_nil.
Qed.

Lemma protocol_send s sr d p w :
  R w s → msg_ok s p → dst_ok d → safely s (send sr d p 1 None) w.
Proof.
  intros HR Hm Hd. apply wp_send; [lia|]. intros w' new He Hnew _.
  exists s. split; [done|]. split; [|done]. eapply protocol_ext; [exact He| |exact HR].
  intros x Hx. rewrite Forall_forall in Hnew. destruct (Hnew x Hx) as (_ & -> & -> & ->). done.
Qed.

Lemma protocol_send_all s sr l p w :
  R w s → msg_ok s p → (∀ d, d ∈ l → dst_ok d) → safely s (for_each l (λ peer, send sr peer p 1 None)) w.
Proof.
  intros HR Hm Hl. apply (safely_for_each _ _ _ _ _ _ (λ s d, msg_ok s p ∧ dst_ok d)); [done| | |].
  - intros x Hx. auto.
  - intros s1 s2 x Hs [??]. split; [by eapply (pr_msg Hp)|done].
  - intros s1 w1 x _ HR1 [??]. by apply protocol_send.
Qed.

Lemma protocol_upd w s (f : Sim Σ → Sim Σ) :
  (∀ st, (f st).(persistent_state) = st.(persistent_state)) → (∀ st, (f st).(queue) = st.(queue)) →
  (∀ st, (f st).(handlers) = st.(handlers)) → (∀ st, (f st).(crash_handlers) = st.(crash_handlers)) →
  (∀ st, (f st).(restart_handlers) = st.(restart_handlers)) → R w s → safely s (upd_sim f) w.
Proof.
  intros Hd Hq Hh Hc Hr HR. apply wp_upd_sim. exists s. split; [done|]. split; [|done].
  apply (pr_sim Hp w); auto. rewrite Hq. by apply (pr_queue Hp w).
Qed.

Lemma protocol_net w s (m : M unit) : (∀ msg, ok (Exn ValueError msg)) → net_only m → R w s → safely s m w.
Proof.
  intros Hok Hm HR. apply safely_wp.
  assert (∀ w', net_ext w w' → R w' s) as HR'.
  { intros w' He. replace w' with (mkWorld w'.(sim) w.(objs)) by (rewrite <-(ne_objs _ _ He); by destruct w').
    apply (pr_sim Hp w); [done|apply He| |apply He..].
    rewrite (ne_queue _ _ He). by apply (pr_queue Hp w). }
  eapply wp_mono; [apply Hm|by auto|]. intros w' [c msg] [He Hc]. simpl in Hc. subst c. auto.
Qed.

(** *** Runs *)
Context (run_handler : Handle Σ → Message Σ → M unit).
Hypothesis Hhandle : ∀ h m w s, R w s → handle_ok h → msg_ok s m.(payload) → safely s (run_handler h m) w.
Hypothesis Hregistered : ∀ w s d, R w s → dst_ok d → ∃ h, w.(sim).(handlers) !! d = Some h ∧ handle_ok h.
Hypothesis Hfuel : ∀ msg, ok (Exn OutOfFuel msg).
Hypothesis Hvalue : ∀ msg, ok (Exn ValueError msg).

Lemma protocol_deliver x rest w s :
  R w s → w.(sim).(queue) = x :: rest →
  safely s (deliver_event run_handler x) (mkWorld (set_queue rest w.(sim)) w.(objs)).
Proof.
  intros HR Hq. destruct (pr_queue Hp w s HR x) as (Hx & Hdst & Hddst); [rewrite Hq; by left|].
  assert (R (mkWorld (set_queue rest w.(sim)) w.(objs)) s) as HR'.
  { apply (pr_sim Hp w); try done. intros y Hy. apply (pr_queue Hp w s HR). rewrite Hq. by right. }
  unfold deliver_event. eapply safely_bind; [by apply protocol_upd|]. intros s1 w1 _ Hs1 HR1.
  apply refines_gets. destruct (negb _); [by apply protocol_record|].
  apply refines_gets. unfold endpoint. rewrite Hddst.
  destruct (Hregistered w1 s1 _ HR1 Hdst) as (h & Eh & Hh). rewrite Eh.
  eapply safely_bind; [by apply protocol_record|]. intros s2 w2 _ Hs2 HR2.
  apply Hhandle; [done..|]. eapply (pr_msg Hp); [|exact Hx]. by etrans.
Qed.

Definition reaches s w : Prop := ∃ s', steps s s' ∧ R w s'.

Lemma deliver_reaches s w x rest :
  reaches s w → w.(sim).(queue) = x :: rest →
  wp (deliver_event run_handler x) (λ w' _, reaches s w')
    (λ w' e, reaches s w' ∧ ok e) (mkWorld (set_queue rest w.(sim)) w.(objs)).
Proof.
  intros (s1 & Hs1 & HR1) Hq. eapply wp_mono; [by eapply protocol_deliver| |].
  - intros w' a (s' & ? & ? & _). exists s'. split; [by etrans|done].
  - intros w' e [(s' & ? & ?) ?]. split; [|done]. exists s'. split; [by etrans|done].
Qed.

Lemma reaches_safely (m : M Z) w s :
  wp m (λ w' _, reaches s w') (λ w' e, reaches s w' ∧ ok e) w → safely s m w.
Proof. intros Hm. eapply wp_mono; [exact Hm| |done]. intros w' a (s' & ? & ?). by exists s'. Qed.

Lemma protocol_run fuel k w s : R w s → safely s (run run_handler fuel k) w.
Proof.
  intros HR. unfold run. apply refines_check; [done|by intros _|intros _].
  apply reaches_safely, wp_run_loop; [by intros w1 msg Hw1| |by exists s].
  intros w1 x rest Hw1 Hq. by apply deliver_reaches.
Qed.

Lemma protocol_run_until fuel t w s : R w s → safely s (run_until_time run_handler fuel t) w.
Proof.
  intros HR. unfold run_until_time. apply refines_gets. apply refines_check; [done|by intros _|intros _].
  eapply safely_bind.
  - apply reaches_safely, wp_run_until_loop; [by intros w1 msg Hw1| |by exists s].
    intros w1 x rest Hw1 Hq. by apply deliver_reaches.
  - intros s1 w1 n _ HR1. eapply safely_bind; [by apply protocol_upd|].
    intros s2 w2 _ _ HR2. by apply refines_ret.
Qed.

(** *** Crash and restart *)
Lemma protocol_set_volatile n f w s : R w s → safely s (set_volatile (Σ := Σ) n f) w.
Proof.
  intros HR. exists s. split; [done|]. split; [|done]. apply (pr_sim Hp w); try done. by apply (pr_queue Hp w).
Qed.

Lemma protocol_validate n w s : R w s → safely s (validate_node (Σ := Σ) n) w.
Proof.
  intros HR. apply refines_gets, wp_raise_if; intros _; [|by apply safely_intro]. split; [by exists s|done].
Qed.

Lemma protocol_crash (run_crash : Handle Σ → M unit) n w s :
  (∀ h w s, R w s → handle_ok h → safely s (run_crash h) w) → R w s → safely s (crash run_crash n) w.
Proof.
  intros Hc HR. unfold crash.
  eapply safely_bind; [by apply protocol_validate|]. intros s1 w1 _ _ HR1.
  eapply safely_bind; [by apply protocol_upd|]. intros s2 w2 _ _ HR2.
  eapply safely_bind; [by apply protocol_record|]. intros s3 w3 _ _ HR3.
  apply refines_gets. eapply safely_bind.
  - destruct (crash_handlers _ !! n) as [h|] eqn:Eh; [by eapply Hc, (pr_crash Hp w3)|by apply safely_intro].
  - intros s4 w4 _ _ HR4. by apply protocol_set_volatile.
Qed.

Lemma protocol_restart (run_restart : Handle Σ → M unit) n w s :
  (∀ h w s, R w s → handle_ok h → safely s (run_restart h) w) → R w s → safely s (restart run_restart n) w.
Proof.
  intros Hc HR. unfold restart.
  eapply safely_bind; [by apply protocol_validate|]. intros s1 w1 _ _ HR1.
  eapply safely_bind; [by apply protocol_upd|]. intros s2 w2 _ _ HR2.
  eapply safely_bind; [by apply protocol_set_volatile|]. intros s3 w3 _ _ HR3.
  eapply safely_bind; [by apply protocol_record|]. intros s4 w4 _ _ HR4. apply refines_gets.
  destruct (restart_handlers _ !! n) as [h|] eqn:Eh; [by eapply Hc, (pr_restart Hp w4)|by apply safely_intro].
Qed.
End protocol.
