(* ===== verification/MultiPaxos.v ===== *)
(** * MultiPaxos: stable-leader Multi-Paxos with decision recovery

    Models [src/distlab/multipaxos.py]: [MultiPaxosCluster] and
    [MultiPaxosNode].  A node's durable dictionary is [MPDurable] (the key of
    the learned map is absent unless the cluster learns decisions), its
    attributes are [MPNode].  The checks that a callback gets its own simulator
    are not modelled; [isinstance] checks hold by typing. *)

From S2P Require Import Prelude Simulator Quorum Slots.

Section multipaxos.
Context {V : Type} `{EqDecision V}.

Record LeaderPrepare := mkLeaderPrepare { lp_ballot : ProposalNumber }.

Record LeaderPromise := mkLeaderPromise {
  lpr_ballot : ProposalNumber;
  lpr_acceptor_id : string;
  lpr_accepted : list (SlotAcceptedValue V);
}.

Record LeaderAccept := mkLeaderAccept {
  la_slot : Z;
  la_ballot : ProposalNumber;
  la_value : V;
}.

Record LeaderAccepted := mkLeaderAccepted {
  lad_slot : Z;
  lad_ballot : ProposalNumber;
  lad_acceptor_id : string;
  lad_value : V;
}.

Record LeaderDecision := mkLeaderDecision {
  ld_slot : Z;
  ld_ballot : ProposalNumber;
  ld_value : V;
}.

Definition RECOVERY_WINDOW : Z := 16.
Definition RECOVERY_ATTEMPTS : Z := 3.
Definition RECOVERY_RETRY_DELAY : Z := 4.

Inductive MPPayload :=
  | MPrepare (m : LeaderPrepare)
  | MPromise (m : LeaderPromise)
  | MAccept (m : LeaderAccept)
  | MAccepted (m : LeaderAccepted)
  | MDecision (m : LeaderDecision)
  | MRecoveryRequest (start_slot : Z)
  | MRecoveryResponse (start_slot : Z) (decisions : list (SlotLearnedDecision V))
  | MRecoveryRetry (generation attempt : Z)
  | MOther (ty : string).

Definition mp_type_name (p : MPPayload) : string :=
  match p with
  | MPrepare _ => "LeaderPrepare"
  | MPromise _ => "LeaderPromise"
  | MAccept _ => "LeaderAccept"
  | MAccepted _ => "LeaderAccepted"
  | MDecision _ => "LeaderDecision"
  | MRecoveryRequest _ => "DecisionRecoveryRequest"
  | MRecoveryResponse _ _ => "DecisionRecoveryResponse"
  | MRecoveryRetry _ _ => "_DecisionRecoveryRetry"
  | MOther ty => ty
  end.

Inductive MPRec :=
  | RChosenRecovered (slot : Z) (b : ProposalNumber) (v : V)
  | RMPChosen (slot : Z) (b : ProposalNumber) (v : V)
  | RRecoveryExhausted (node : string) (start attempts : Z) (known_gap : bool)
  | RPhase1Start (leader : string) (b : ProposalNumber)
  | RPhase2Start (slot : Z) (leader : string) (b : ProposalNumber) (v : V)
  | RPromiseInvalid (leader acceptor : string) (b : ProposalNumber) (a : SlotAcceptedValue V)
  | RPhase1Complete (leader : string) (b : ProposalNumber) (promises : list string)
  | RAcceptInvalidSlot (slot : Z) (acceptor : string) (b : ProposalNumber)
  | RMPAcceptRejected (slot : Z) (acceptor : string) (b promised : ProposalNumber)
  | RDecisionIgnored (node : string) (slot : Z) (b : ProposalNumber)
  | RDecisionDuplicate (node : string) (slot : Z) (b : ProposalNumber)
  | RMPLearned (node : string) (slot : Z) (b : ProposalNumber) (v : V)
  | RMPRestart (node : string)
  (* written by [multipaxos_state_machine.py] and [multipaxos_client.py] *)
  | RMachineLoad (node : string) (last_applied : Z)
  | RMachineApply (node : string) (slot : Z) (b : ProposalNumber) (v : V)
  | RMachineGap (node : string) (missing_slot : Z) (learned_beyond : list Z)
  | RClientResult (status node client_id : string) (request_id : Z) (operation_id : string)
      (slot : option Z) (b authority : option ProposalNumber) (result : option string).

Record MPDurable := mkMPDurable {
  d_promised : option ProposalNumber;
  d_accepted : list (Z * SlotAcceptedValue V);  (** a dict, in insertion order *)
  d_history : list (SlotAcceptedValue V);
  d_last_round : Z;
  d_learned : option (gmap Z (SlotLearnedDecision V));
}.

Definition mp_durable0 : MPDurable := mkMPDurable None [] [] 0 None.

Definition set_promised p (d : MPDurable) :=
  mkMPDurable (Some p) d.(d_accepted) d.(d_history) d.(d_last_round) d.(d_learned).
Definition set_accepted a (d : MPDurable) :=
  mkMPDurable d.(d_promised) a d.(d_history) d.(d_last_round) d.(d_learned).
Definition set_history h (d : MPDurable) :=
  mkMPDurable d.(d_promised) d.(d_accepted) h d.(d_last_round) d.(d_learned).
Definition set_last_round r (d : MPDurable) :=
  mkMPDurable d.(d_promised) d.(d_accepted) d.(d_history) r d.(d_learned).
Definition set_learned l (d : MPDurable) :=
  mkMPDurable d.(d_promised) d.(d_accepted) d.(d_history) d.(d_last_round) (Some l).

Record MPNode := mkMPNode {
  leader_ballot : option ProposalNumber;
  promises : list (string * LeaderPromise);  (** a dict, in insertion order *)
  pending : gmap Z V;
  accepted_by : gmap Z (gset string);
  recovery : option Z;  (** the start slot of the active request *)
  recovery_generation : Z;
  recovery_attempt : Z;
}.

Definition new_node : MPNode := mkMPNode None [] ∅ ∅ None 0 0.

Definition set_leadership b ps pend accs (o : MPNode) : MPNode :=
  mkMPNode b ps pend accs o.(recovery) o.(recovery_generation) o.(recovery_attempt).
Definition set_recovery r g a (o : MPNode) : MPNode :=
  mkMPNode o.(leader_ballot) o.(promises) o.(pending) o.(accepted_by) r g a.

Record MPObjects := mkMPObjects {
  node_ids : list string;
  learn_decisions : bool;
  nodes : gmap string MPNode;
  chosen : gmap Z (SlotLearnedDecision V);
}.

Definition set_nodes m (o : MPObjects) : MPObjects :=
  mkMPObjects o.(node_ids) o.(learn_decisions) m o.(chosen).
Definition set_chosen c (o : MPObjects) : MPObjects :=
  mkMPObjects o.(node_ids) o.(learn_decisions) o.(nodes) c.

Definition MPSig : Sig :=
  mkSig MPPayload MPRec string MPDurable unit MPObjects mp_type_name (MOther "NoneType")
    mp_durable0 tt.

Abbreviation World := (World MPSig).
Abbreviation M := (M World).
Implicit Types (w : World) (n : string).

Definition trace_rec (r : MPRec) : M unit := record (Σ := MPSig) (EvProto (Σ := MPSig) r).
Definition net_send (s d : string) (p : MPPayload) : M unit := send (Σ := MPSig) s d p 1 None.
Definition put n (f : MPDurable → MPDurable) : M unit := persist (Σ := MPSig) n f.

Definition dur w n : MPDurable := durable (Σ := MPSig) w n.
Definition obj w n : MPNode := default new_node (w.(objs).(nodes) !! n).
Definition upd_node n (f : MPNode → MPNode) : M unit :=
  modify (λ w, mkWorld (Σ := MPSig) w.(sim)
    (set_nodes (<[n := f (obj w n)]> w.(objs).(nodes)) w.(objs))).

Definition cluster_size w : Z := quorum_size w.(objs).(node_ids).
Definition peers w n : list string := filter (λ p, p ≠ n) w.(objs).(node_ids).
Definition member w n : bool := bool_decide (n ∈ w.(objs).(node_ids)).
Definition valid_slot (slot : Z) : bool := 0 <? slot.

(** The [promised_ballot] property. *)
Definition promised_ballot n : M (option ProposalNumber) :=
  let! d := gets (λ w, dur w n) in
  let! bad := gets (λ w, match d.(d_promised) with
    | Some b => negb (member w b.(proposer_id))
    | None => false
    end) in
  raise_if bad PaxosSafetyViolation "Multi-Paxos durable promise has non-member proposer" ;;
  ret d.(d_promised).

Definition learned_map w n : gmap Z (SlotLearnedDecision V) := default ∅ (dur w n).(d_learned).

Definition learned_decision w n (slot : Z) : option (SlotLearnedDecision V) :=
  learned_map w n !! slot.

(** [learned[slot] for slot in sorted(learned)] *)
Definition learned_decisions w n : list (SlotLearnedDecision V) :=
  omap (λ slot, learned_map w n !! slot)
    (merge_sort Z.le (map_to_list (learned_map w n)).*1).

(** ** Cluster-wide checks *)

Definition validate_ballot (b : ProposalNumber) : M unit :=
  raise_if (negb (valid_slot b.(round))) PaxosSafetyViolation
    "Multi-Paxos evidence has invalid ballot" ;;
  let! known := gets (λ w, member w b.(proposer_id)) in
  raise_if (negb known) PaxosSafetyViolation "Multi-Paxos evidence has non-member proposer".

Definition validate_durable_accepted n (a : SlotAcceptedValue V) : M unit :=
  raise_if (negb (valid_slot a.(sa_slot))) PaxosSafetyViolation
    "Multi-Paxos durable history has invalid slot" ;;
  validate_ballot a.(sa_proposal) ;;
  let! promised := promised_ballot n in
  raise_if match promised with
    | None => true
    | Some p => pn_ltb p a.(sa_proposal)
    end PaxosSafetyViolation "Multi-Paxos durable accepted proposal exceeds promised ballot".

(** [_require_decision_evidence]: a majority durably accepted the decision. *)
Definition matches_decision (d : SlotLearnedDecision V) (a : SlotAcceptedValue V) : bool :=
  bool_decide (a.(sa_slot) = d.(sl_slot)) && bool_decide (a.(sa_proposal) = d.(sl_proposal))
  && bool_decide (a.(sa_value) = d.(sl_value)).

Fixpoint evidence_acceptors (decision : SlotLearnedDecision V) (ids : list string)
    (acceptors : gset string) : M (gset string) :=
  match ids with
  | [] => ret acceptors
  | n :: ids' =>
      let! d := gets (λ w, dur w n) in
      match filter (λ a, matches_decision decision a = true) d.(d_history) with
      | a :: _ =>
          validate_durable_accepted n a ;;
          evidence_acceptors decision ids' ({[n]} ∪ acceptors)
      | [] => evidence_acceptors decision ids' acceptors
      end
  end.

Definition require_decision_evidence (d : SlotLearnedDecision V) : M unit :=
  raise_if (negb (valid_slot d.(sl_slot))) PaxosSafetyViolation
    "Multi-Paxos decision has invalid slot or record" ;;
  validate_ballot d.(sl_proposal) ;;
  let! ids := gets (λ w, w.(objs).(node_ids)) in
  let! acceptors := evidence_acceptors d ids ∅ in
  let! q := gets cluster_size in
  raise_if (Z.of_nat (size acceptors) <? q) PaxosSafetyViolation
    "Multi-Paxos slot lacks matching durable quorum evidence".

Definition validate_durable_learned n : M unit :=
  let! d := gets (λ w, dur w n) in
  match d.(d_learned) with
  | None => ret tt
  | Some learned =>
      for_each (map_to_list learned) (λ e,
        raise_if (negb (valid_slot e.1) || negb (valid_slot e.2.(sl_slot))
                  || negb (bool_decide (e.2.(sl_slot) = e.1))) PaxosSafetyViolation
          "Multi-Paxos durable learned decision is invalid" ;;
        validate_ballot e.2.(sl_proposal))
  end.

(** The [by_slot_ballot] check of [_validate_durable_history]. *)
Fixpoint validate_history n (by_key : gmap (Z * ProposalNumber) V)
    (h : list (SlotAcceptedValue V)) : M unit :=
  match h with
  | [] => ret tt
  | a :: h' =>
      validate_durable_accepted n a ;;
      let key := (a.(sa_slot), a.(sa_proposal)) in
      raise_if match by_key !! key with
        | Some v => negb (bool_decide (v = a.(sa_value)))
        | None => false
        end PaxosSafetyViolation "same Multi-Paxos ballot has conflicting durable accepted values" ;;
      validate_history n (<[key := a.(sa_value)]> by_key) h'
  end.

Definition validate_durable_history n : M unit :=
  validate_durable_learned n ;;
  let! d := gets (λ w, dur w n) in
  validate_history n ∅ d.(d_history).

(** [by_slot]: the accepted records of all nodes, per slot. *)
Definition Entry : Type := ProposalNumber * V * string.

Definition add_entry n (by_slot : list (Z * list Entry)) (a : SlotAcceptedValue V)
    : list (Z * list Entry) :=
  assoc_set a.(sa_slot)
    (default [] (assoc_get a.(sa_slot) by_slot) ++ [(a.(sa_proposal), a.(sa_value), n)]) by_slot.

Fixpoint collect_by_slot (ids : list string) (by_slot : list (Z * list Entry))
    : M (list (Z * list Entry)) :=
  match ids with
  | [] => ret by_slot
  | n :: ids' =>
      validate_durable_history n ;;
      let! d := gets (λ w, dur w n) in
      collect_by_slot ids' (foldl (add_entry n) by_slot d.(d_history))
  end.

(** The nodes that accepted this value at this ballot. *)
Definition supporters (records : list Entry) (b : ProposalNumber) (v : V) : gset string :=
  list_to_set (omap (λ e : Entry, if decide (e.1 = (b, v)) then Some e.2 else None) records).

Definition has_quorum (q : Z) (records : list Entry) (b : ProposalNumber) (v : V) : bool :=
  q <=? Z.of_nat (size (supporters records b v)).

(** [quorum_evidence]: the distinct pairs that a majority supports. *)
Definition quorum_evidence (q : Z) (records : list Entry) : list (ProposalNumber * V) :=
  foldl (λ acc e, if has_quorum q records e.1.1 e.1.2 && negb (bool_decide (e.1 ∈ acc))
                  then acc ++ [e.1] else acc) [] records.

(** The values a majority supports, one per record. *)
Definition quorum_candidates (q : Z) (records : list Entry) : list V :=
  omap (λ e : Entry, if has_quorum q records e.1.1 e.1.2 then Some e.1.2 else None) records.

Definition all_equal_head (l : list V) : bool :=
  match l with
  | [] => true
  | v :: l' => forallb (λ u, bool_decide (u = v)) l'
  end.

Definition record_chosen (slot : Z) (b : ProposalNumber) (v : V) : M unit :=
  let! current := gets (λ w, w.(objs).(chosen) !! slot) in
  raise_if match current with
    | Some c => negb (bool_decide (c.(sl_value) = v))
    | None => false
    end PaxosSafetyViolation "Multi-Paxos slot chose conflicting values" ;;
  match current with
  | None =>
      let! decision := lift (new_SlotLearnedDecision slot b v) in
      upd_objs (Σ := MPSig) (λ o, set_chosen (<[slot := decision]> o.(chosen)) o) ;;
      trace_rec (RMPChosen slot b v)
  | Some _ => ret tt
  end.

(** One slot of the loop of [assert_safety]. *)
Fixpoint check_slots (q : Z) (by_slot : list (Z * list Entry)) (quorum_values : gmap Z V)
    : M (gmap Z V) :=
  match by_slot with
  | [] => ret quorum_values
  | (slot, records) :: rest =>
      let candidates := quorum_candidates q records in
      raise_if (negb (all_equal_head candidates)) PaxosSafetyViolation
        "Multi-Paxos slot has conflicting quorums" ;;
      let! c := gets (λ w, w.(objs).(chosen) !! slot) in
      raise_if match c, candidates with
        | Some c, v :: _ => negb (bool_decide (c.(sl_value) = v))
        | _, _ => false
        end PaxosSafetyViolation "Multi-Paxos slot runtime/durable mismatch" ;;
      check_slots q rest
        match candidates with v :: _ => <[slot := v]> quorum_values | [] => quorum_values end
  end.

Definition assert_safety : M unit :=
  let! ids := gets (λ w, w.(objs).(node_ids)) in
  let! by_slot := collect_by_slot ids [] in
  let! q := gets cluster_size in
  let! quorum_values := check_slots q by_slot ∅ in
  for_each ids (λ n,
    let! ds := gets (λ w, learned_decisions w n) in
    for_each ds (λ d,
      raise_if (negb (bool_decide (quorum_values !! d.(sl_slot) = Some d.(sl_value))))
        PaxosSafetyViolation "node learned slot without matching durable quorum evidence" ;;
      require_decision_evidence d)).

Definition recover_slot (q slot : Z) (records : list Entry) : M unit :=
  match quorum_evidence q records with
  | [] => ret tt
  | (b, first_value) :: rest =>
      raise_if (negb (all_equal_head (first_value :: rest.*2))) PaxosSafetyViolation
        "Multi-Paxos slot has conflicting durable quorums" ;;
      let ballot := pn_max b rest.*1 in
      let! decision := lift (new_SlotLearnedDecision slot ballot first_value) in
      upd_objs (Σ := MPSig) (λ o, set_chosen (<[slot := decision]> o.(chosen)) o) ;;
      trace_rec (RChosenRecovered slot ballot first_value)
  end.

(** [_recover_chosen] *)
Definition recover_chosen : M unit :=
  let! ids := gets (λ w, w.(objs).(node_ids)) in
  let! by_slot := collect_by_slot ids [] in
  let! q := gets cluster_size in
  for_each by_slot (λ e, recover_slot q e.1 e.2) ;;
  assert_safety.

(** ** The node *)

Definition has_leader_authority w n : bool :=
  bool_decide (is_Some (obj w n).(leader_ballot))
  && (cluster_size w <=? zlen (obj w n).(promises)).

(** [leadership_accepted] *)
Definition leadership_accepted w n : list (SlotAcceptedValue V) :=
  mjoin ((λ peer, default [] (lpr_accepted <$> assoc_get peer (obj w n).(promises))) <$>
    sorted_str (obj w n).(promises).*1).

(** [pending_proposals] *)
Definition pending_proposals w n : list LeaderAccept :=
  match (obj w n).(leader_ballot) with
  | None => []
  | Some b => omap (λ slot, mkLeaderAccept slot b <$> (obj w n).(pending) !! slot)
      (merge_sort Z.le (map_to_list (obj w n).(pending)).*1)
  end.

(** [chosen_slots] *)
Definition chosen_slots w : list (SlotLearnedDecision V) :=
  omap (λ slot, w.(objs).(chosen) !! slot) (merge_sort Z.le (map_to_list w.(objs).(chosen)).*1).

Definition receive_decision n (m : LeaderDecision) : M unit :=
  let! d := gets (λ w, dur w n) in
  match d.(d_learned) with
  | None => trace_rec (RDecisionIgnored n m.(ld_slot) m.(ld_ballot))
  | Some learned =>
      if negb (valid_slot m.(ld_slot)) then
        trace_rec (RDecisionIgnored n m.(ld_slot) m.(ld_ballot))
      else
        let current := learned !! m.(ld_slot) in
        raise_if match current with
          | Some c => negb (bool_decide (c.(sl_value) = m.(ld_value)))
          | None => false
          end PaxosSafetyViolation "Multi-Paxos learner observed conflicting decisions" ;;
        let! decision := lift (new_SlotLearnedDecision m.(ld_slot) m.(ld_ballot) m.(ld_value)) in
        require_decision_evidence decision ;;
        match current with
        | Some _ => trace_rec (RDecisionDuplicate n m.(ld_slot) m.(ld_ballot))
        | None =>
            put n (set_learned (<[m.(ld_slot) := decision]> learned)) ;;
            trace_rec (RMPLearned n m.(ld_slot) m.(ld_ballot) m.(ld_value))
        end
  end.

Definition receive_accepted n (m : LeaderAccepted) : M unit :=
  if m.(lad_slot) <=? 0 then ret tt
  else
    let! o := gets (λ w, obj w n) in
    let! known := gets (λ w, member w m.(lad_acceptor_id)) in
    if negb (bool_decide (o.(leader_ballot) = Some m.(lad_ballot))) then ret tt
    else
      match o.(pending) !! m.(lad_slot) with
      | None => ret tt
      | Some v =>
          if negb known then ret tt
          else
            raise_if (negb (bool_decide (m.(lad_value) = v))) PaxosSafetyViolation
              "Multi-Paxos accepted response changed proposed value" ;;
            let accs := {[m.(lad_acceptor_id)]} ∪ default ∅ (o.(accepted_by) !! m.(lad_slot)) in
            upd_node n (λ o, set_leadership o.(leader_ballot) o.(promises) o.(pending)
              (<[m.(lad_slot) := accs]> o.(accepted_by)) o) ;;
            let! q := gets cluster_size in
            if Z.of_nat (size accs) <? q then ret tt
            else
              record_chosen m.(lad_slot) m.(lad_ballot) m.(lad_value) ;;
              upd_node n (λ o, set_leadership o.(leader_ballot) o.(promises)
                (delete m.(lad_slot) o.(pending)) (delete m.(lad_slot) o.(accepted_by)) o) ;;
              let! learn := gets (λ w, w.(objs).(learn_decisions)) in
              when learn
                (let decision := mkLeaderDecision m.(lad_slot) m.(lad_ballot) m.(lad_value) in
                 receive_decision n decision ;;
                 let! ps := gets (λ w, peers w n) in
                 for_each ps (λ peer, net_send n peer (MDecision decision)))
      end.

Definition receive_accept n (m : LeaderAccept) : M unit :=
  if m.(la_slot) <=? 0 then trace_rec (RAcceptInvalidSlot m.(la_slot) n m.(la_ballot))
  else
    let! promised := promised_ballot n in
    let accept :=
      put n (set_promised m.(la_ballot)) ;;
      let! d := gets (λ w, dur w n) in
      raise_if match assoc_get m.(la_slot) d.(d_accepted) with
        | Some current => bool_decide (current.(sa_proposal) = m.(la_ballot))
            && negb (bool_decide (current.(sa_value) = m.(la_value)))
        | None => false
        end PaxosSafetyViolation "same Multi-Paxos ballot accepted conflicting values" ;;
      let! accepted := lift (new_SlotAcceptedValue m.(la_slot) m.(la_ballot) m.(la_value)) in
      put n (set_accepted (assoc_set m.(la_slot) accepted d.(d_accepted))) ;;
      when (negb (bool_decide (accepted ∈ d.(d_history))))
        (put n (set_history (d.(d_history) ++ [accepted]))) ;;
      let response := mkLeaderAccepted m.(la_slot) m.(la_ballot) n m.(la_value) in
      if (m.(la_ballot).(proposer_id) =? n)%string then receive_accepted n response
      else net_send n m.(la_ballot).(proposer_id) (MAccepted response) in
    match promised with
    | Some p =>
        if pn_ltb m.(la_ballot) p then
          trace_rec (RMPAcceptRejected m.(la_slot) n m.(la_ballot) p)
        else accept
    | None => accept
    end.

(** The first accepted record a promise must not hold. *)
Definition invalid_evidence w (b : ProposalNumber) (a : SlotAcceptedValue V) : bool :=
  (a.(sa_slot) <=? 0) || negb (member w a.(sa_proposal).(proposer_id)) || pn_ltb b a.(sa_proposal).

Definition setdefault_promise (m : LeaderPromise) (ps : list (string * LeaderPromise))
    : list (string * LeaderPromise) :=
  match assoc_get m.(lpr_acceptor_id) ps with
  | Some _ => ps
  | None => ps ++ [(m.(lpr_acceptor_id), m)]
  end.

Definition receive_promise n (m : LeaderPromise) : M unit :=
  let! o := gets (λ w, obj w n) in
  let! known := gets (λ w, member w m.(lpr_acceptor_id)) in
  if negb (bool_decide (o.(leader_ballot) = Some m.(lpr_ballot))) || negb known then ret tt
  else
    let! bad := gets (λ w, filter (λ a, invalid_evidence w m.(lpr_ballot) a = true) m.(lpr_accepted)) in
    match bad with
    | a :: _ => trace_rec (RPromiseInvalid n m.(lpr_acceptor_id) m.(lpr_ballot) a)
    | [] =>
        let ps := setdefault_promise m o.(promises) in
        upd_node n (λ o, set_leadership o.(leader_ballot) ps o.(pending) o.(accepted_by) o) ;;
        let! q := gets cluster_size in
        when (zlen ps =? q) (trace_rec (RPhase1Complete n m.(lpr_ballot) (sorted_str ps.*1)))
    end.

Definition receive_prepare n (m : LeaderPrepare) : M unit :=
  let! promised := promised_ballot n in
  let answer :=
    put n (set_promised m.(lp_ballot)) ;;
    let! d := gets (λ w, dur w n) in
    let promise := mkLeaderPromise m.(lp_ballot) n d.(d_accepted).*2 in
    if (m.(lp_ballot).(proposer_id) =? n)%string then receive_promise n promise
    else net_send n m.(lp_ballot).(proposer_id) (MPromise promise) in
  match promised with
  | Some p => if pn_ltb m.(lp_ballot) p then ret tt else answer
  | None => answer
  end.

Definition broadcast n (p : MPPayload) : M unit :=
  let! ps := gets (λ w, peers w n) in
  for_each ps (λ peer, net_send n peer p).

Definition prepare_leadership n (round_number : option Z) : M ProposalNumber :=
  let! up := gets (λ w, is_alive w n) in
  raise_if (negb up) PaxosError "crashed node cannot prepare Multi-Paxos leadership" ;;
  let! d := gets (λ w, dur w n) in
  let! promised := promised_ballot n in
  let last := d.(d_last_round) in
  let round_number := default
    (Z.max last match promised with Some p => p.(round) | None => 0 end + 1) round_number in
  raise_if (round_number <=? last) ValueError
    "leader ballot round must increase monotonically" ;;
  let! ballot := lift (new_ProposalNumber round_number n) in
  put n (set_last_round round_number) ;;
  upd_node n (set_leadership (Some ballot) [] ∅ ∅) ;;
  let request := mkLeaderPrepare ballot in
  receive_prepare n request ;;
  broadcast n (MPrepare request) ;;
  trace_rec (RPhase1Start n ballot) ;;
  ret ballot.

(** [_adopted_value]: the accepted record with the highest ballot, the first of
    them in the order the promises came. *)
Definition accepted_for (slot : Z) (ps : list (string * LeaderPromise)) : list (SlotAcceptedValue V) :=
  filter (λ a, a.(sa_slot) = slot) (mjoin ((λ e, e.2.(lpr_accepted)) <$> ps)).

Definition adopted_value (slot : Z) (ps : list (string * LeaderPromise))
    : exn + option (SlotAcceptedValue V) :=
  match accepted_for slot ps with
  | [] => inr None
  | a :: l =>
      let top := pn_max a.(sa_proposal) (sa_proposal <$> l) in
      match filter (λ i, i.(sa_proposal) = top) (a :: l) with
      | [] => inr None
      | highest :: rest =>
          if existsb (λ i, negb (bool_decide (i.(sa_value) = highest.(sa_value)))) rest
          then inl (Exn PaxosSafetyViolation "slot has conflicting accepted values")
          else inr (Some highest)
      end
  end.

Definition propose n (slot : Z) (value : V) : M unit :=
  raise_if (slot <=? 0) ValueError "Multi-Paxos slot must be positive" ;;
  let! authority := gets (λ w, has_leader_authority w n) in
  raise_if (negb authority) PaxosError "Multi-Paxos proposal requires Phase-1 quorum authority" ;;
  let! o := gets (λ w, obj w n) in
  match o.(leader_ballot) with
  | None => raise PaxosError "Multi-Paxos proposal requires Phase-1 quorum authority"
  | Some ballot =>
      raise_if (bool_decide (is_Some (o.(pending) !! slot))) PaxosError
        "slot already has an active proposal" ;;
      let! adopted := lift (adopted_value slot o.(promises)) in
      let chosen_value := match adopted with Some a => a.(sa_value) | None => value end in
      upd_node n (λ o, set_leadership o.(leader_ballot) o.(promises)
        (<[slot := chosen_value]> o.(pending)) (<[slot := ∅]> o.(accepted_by)) o) ;;
      let request := mkLeaderAccept slot ballot chosen_value in
      receive_accept n request ;;
      broadcast n (MAccept request) ;;
      let! o := gets (λ w, obj w n) in
      trace_rec (RPhase2Start slot n (default ballot o.(leader_ballot)) chosen_value)
  end.

Definition retry_proposal n (slot : Z) : M unit :=
  let! up := gets (λ w, is_alive w n) in
  let! authority := gets (λ w, has_leader_authority w n) in
  raise_if (negb up || negb authority) PaxosError
    "Multi-Paxos retry requires live Phase-1 authority" ;;
  let! promised := promised_ballot n in
  let! o := gets (λ w, obj w n) in
  raise_if (negb (bool_decide (o.(leader_ballot) = promised))) PaxosError
    "Multi-Paxos retry requires live Phase-1 authority" ;;
  match o.(leader_ballot), o.(pending) !! slot with
  | Some ballot, Some v =>
      let request := mkLeaderAccept slot ballot v in
      receive_accept n request ;;
      broadcast n (MAccept request)
  | _, _ => raise PaxosError "Multi-Paxos retry requires an active proposal"
  end.

(** ** Decision recovery *)

Definition retry_recovery n : M unit :=
  let! o := gets (λ w, obj w n) in
  match o.(recovery) with
  | None => ret tt
  | Some start =>
      let! known := gets (λ w, learned_decision w n start) in
      if bool_decide (is_Some known) then
        upd_node n (λ o, set_recovery None o.(recovery_generation) o.(recovery_attempt) o)
      else if o.(recovery_attempt) =? RECOVERY_ATTEMPTS then
        upd_node n (λ o, set_recovery None o.(recovery_generation) o.(recovery_attempt) o) ;;
        let! ds := gets (λ w, learned_decisions w n) in
        trace_rec (RRecoveryExhausted n start o.(recovery_attempt)
          (existsb (λ d, start <? d.(sl_slot)) ds))
      else
        let attempt := o.(recovery_attempt) + 1 in
        upd_node n (λ o, set_recovery o.(recovery) o.(recovery_generation) attempt o) ;;
        let! ps := gets (λ w, peers w n) in
        for_each (sorted_str ps) (λ peer, net_send n peer (MRecoveryRequest start)) ;;
        schedule (Σ := MPSig)
          (mkMessage (Σ := MPSig) n n (MRecoveryRetry o.(recovery_generation) attempt) 0 None)
          RECOVERY_RETRY_DELAY
  end.

Definition recover_decisions n (start_slot : Z) : M unit :=
  raise_if (negb (valid_slot start_slot)) ValueError
    "recovery start slot must be a positive integer" ;;
  let! skip := gets (λ w, negb w.(objs).(learn_decisions) || bool_decide (peers w n = [])) in
  if skip then ret tt
  else
    let! up := gets (λ w, is_alive w n) in
    raise_if (negb up) PaxosError "crashed node cannot recover Multi-Paxos decisions" ;;
    let! o := gets (λ w, obj w n) in
    if bool_decide (o.(recovery) = Some start_slot) then ret tt
    else
      upd_node n (λ o, set_recovery (Some start_slot) (o.(recovery_generation) + 1) 0 o) ;;
      retry_recovery n.

Definition receive_recovery_request n (requester : string) (start : Z) : M unit :=
  if negb (valid_slot start) then ret tt
  else
    let! decisions := gets (λ w,
      omap (learned_decision w n) (zrange start (start + RECOVERY_WINDOW))) in
    for_each decisions require_decision_evidence ;;
    net_send n requester (MRecoveryResponse start decisions).

(** The window check of a response: slots increasing and inside the window,
    ballots of members. *)
Fixpoint response_ok w n (previous limit : Z) (ds : list (SlotLearnedDecision V)) : bool :=
  match ds with
  | [] => true
  | d :: ds' =>
      valid_slot d.(sl_slot) && (previous <? d.(sl_slot)) && (d.(sl_slot) <? limit)
      && valid_slot d.(sl_proposal).(round)
      && bool_decide (d.(sl_proposal).(proposer_id) ∈ peers w n ++ [n])
      && response_ok w n d.(sl_slot) limit ds'
  end.

Definition receive_recovery_response n (start : Z) (ds : list (SlotLearnedDecision V)) : M unit :=
  if negb (valid_slot start) || (RECOVERY_WINDOW <? zlen ds) then ret tt
  else
    let! ok := gets (λ w, response_ok w n (start - 1) (start + RECOVERY_WINDOW) ds) in
    if negb ok then ret tt
    else
      for_each ds (λ d,
        let! current := gets (λ w, learned_decision w n d.(sl_slot)) in
        raise_if match current with
          | Some c => negb (bool_decide (c.(sl_value) = d.(sl_value)))
          | None => false
          end PaxosSafetyViolation "Multi-Paxos recovery observed conflicting decisions" ;;
        require_decision_evidence d) ;;
      for_each ds (λ d,
        receive_decision n (mkLeaderDecision d.(sl_slot) d.(sl_proposal) d.(sl_value))).

Definition handle_message n (m : Message MPSig) : M unit :=
  raise_if (negb (m.(dst) =? n)%string) ValueError "invalid Multi-Paxos message delivery" ;;
  let from_owner (b : ProposalNumber) (k : M unit) : M unit :=
    let! known := gets (λ w, member w b.(proposer_id)) in
    if negb (m.(src) =? b.(proposer_id))%string || negb known then ret tt else k in
  let from_acceptor (a : string) (k : M unit) : M unit :=
    if negb (m.(src) =? a)%string then ret tt else k in
  let from_peer (k : M unit) : M unit :=
    let! skip := gets (λ w, negb w.(objs).(learn_decisions)
      || negb (bool_decide (m.(src) ∈ peers w n))) in
    if skip then ret tt else k in
  match m.(payload) with
  | MPrepare p => from_owner p.(lp_ballot) (receive_prepare n p)
  | MPromise p => from_acceptor p.(lpr_acceptor_id) (receive_promise n p)
  | MAccept p => from_owner p.(la_ballot) (receive_accept n p)
  | MAccepted p => from_acceptor p.(lad_acceptor_id) (receive_accepted n p)
  | MDecision p => from_owner p.(ld_ballot) (receive_decision n p)
  | MRecoveryRequest start => from_peer (receive_recovery_request n m.(src) start)
  | MRecoveryResponse start ds => from_peer (receive_recovery_response n start ds)
  | MRecoveryRetry generation attempt =>
      let! o := gets (λ w, obj w n) in
      if (m.(src) =? n)%string && (generation =? o.(recovery_generation))
         && (attempt =? o.(recovery_attempt))
      then retry_recovery n else ret tt
  | MOther _ => raise TypeError "unsupported Multi-Paxos message"
  end.

Definition handle_crash n : M unit :=
  upd_node n (λ o, mkMPNode None [] ∅ ∅ None (o.(recovery_generation) + 1) 0).

Definition handle_restart n : M unit :=
  handle_crash n ;;
  trace_rec (RMPRestart n).

(** ** The cluster *)

(** [MultiPaxosCluster.__init__]: the durable defaults of every node, recovery
    of the chosen slots from durable evidence, then the callbacks. *)
Definition init_cluster (ids : list string) (learn : bool) : M unit :=
  raise_if (bool_decide (ids = []) || negb (bool_decide (NoDup ids))) ValueError
    "Multi-Paxos requires unique non-empty node ids" ;;
  upd_objs (Σ := MPSig) (λ _, mkMPObjects ids learn ∅ ∅) ;;
  for_each ids (λ n, put n (λ d,
    if learn then set_learned (default ∅ d.(d_learned)) d else d)) ;;
  recover_chosen ;;
  for_each ids (λ n, register (Σ := MPSig) n n (Some n) (Some n)).

(** A fresh simulator over the durable state [disks]. *)
Definition boot_world (plan : FaultPlan) (disks : gmap string MPDurable) : World :=
  mkWorld (Σ := MPSig) (set_persistent_state (Σ := MPSig) disks (new_Simulator plan))
    (mkMPObjects [] false ∅ ∅).

Definition mp_run (fuel : nat) (k : option Z) : M Z := run (Σ := MPSig) handle_message fuel k.
Definition mp_run_until (fuel : nat) (t : Z) : M Z :=
  run_until_time (Σ := MPSig) handle_message fuel t.
Definition mp_crash n : M unit := crash (Σ := MPSig) handle_crash n.
Definition mp_restart n : M unit := restart (Σ := MPSig) handle_restart n.

Definition node n : M string :=
  let! known := gets (λ w, member w n) in
  if known then ret n else raise KeyError "nodes".

Inductive mp_op :=
  | OpPrepare n (round_number : option Z)
  | OpPropose n (slot : Z) (v : V)
  | OpRetry n (slot : Z)
  | OpRecover n (start_slot : Z)
  | OpRun (fuel : nat) (max_events : option Z)
  | OpRunUntil (fuel : nat) (deadline : Z)
  | OpCrash n
  | OpRestart n
  | OpPartition (left right : list string)
  | OpHealPartition (left right : list string)
  | OpBlockLink (s d : string)
  | OpHealLink (s d : string)
  | OpSetLinkDelay (s d : string) (extra_delay : Z)
  | OpClearLinkDelay (s d : string)
  | OpAssertSafety.

Definition exec_op (o : mp_op) : M unit :=
  match o with
  | OpPrepare n r => let! n := node n in prepare_leadership n r ;; ret tt
  | OpPropose n slot v => let! n := node n in propose n slot v
  | OpRetry n slot => let! n := node n in retry_proposal n slot
  | OpRecover n start => let! n := node n in recover_decisions n start
  | OpRun fuel k => mp_run fuel k ;; ret tt
  | OpRunUntil fuel t => mp_run_until fuel t ;; ret tt
  | OpCrash n => mp_crash n
  | OpRestart n => mp_restart n
  | OpPartition l r => partition l r
  | OpHealPartition l r => heal_partition l r
  | OpBlockLink s d => block_link s d
  | OpHealLink s d => heal_link s d
  | OpSetLinkDelay s d x => set_link_delay s d x
  | OpClearLinkDelay s d => clear_link_delay s d
  | OpAssertSafety => assert_safety
  end.

(** The discipline a caller of [propose] can keep: no proposal for a slot that
    is already chosen. *)
Definition disciplined (o : mp_op) w : Prop :=
  match o with OpPropose _ slot _ => w.(objs).(chosen) !! slot = None | _ => True end.

(** Worlds reached from a fresh cluster by any calls, including a restart of
    the whole cluster over its disks; [strict] asks for disciplined callers. *)
Inductive reachable (strict : bool) (ids : list string) (learn : bool) : World → Prop :=
  | reach_init plan w :
      init_cluster ids learn (boot_world plan ∅) = (w, inr tt) → reachable strict ids learn w
  | reach_op w o w' r :
      reachable strict ids learn w → (strict = true → disciplined o w) →
      exec_op o w = (w', r) → reachable strict ids learn w'
  | reach_reboot w plan w' :
      reachable strict ids learn w →
      init_cluster ids learn (boot_world plan w.(sim).(persistent_state)) = (w', inr tt) →
      reachable strict ids learn w'.
End multipaxos.
