(* ===== verification/MultiPaxosRefine.v ===== *)
(** * MultiPaxosRefine: [multipaxos.py] refines the consensus specification

    Every handler of [MultiPaxosNode] takes only steps of [Consensus.step], and
    the cluster-wide checks on durable evidence never fire.  [strict] says that
    callers do not propose for chosen slots: then one ballot never proposes two
    values for a slot, and no [PaxosSafetyViolation] is raised at all. *)

From stdpp Require Import relations.
From S2P Require Import Prelude Simulator SimFacts Quorum Consensus Slots Refinement MultiPaxos.

Section refinement.
Context {V : Type} `{EqDecision V}.
Implicit Types (w : World (MPSig (V := V))) (s : State V) (n : string).
Local Abbreviation Accepted := (SlotAcceptedValue V).

(** The report a promise carries. *)
Definition report_of (l : list Accepted) : report V := λ slot,
  match filter (λ a, a.(sa_slot) = slot) l with
  | a :: _ => Some (a.(sa_proposal), a.(sa_value))
  | [] => None
  end.

Lemma report_of_elem l (a : Accepted) :
  NoDup (sa_slot <$> l) → a ∈ l → report_of l a.(sa_slot) = Some (a.(sa_proposal), a.(sa_value)).
Proof.
  unfold report_of. induction l as [|x l IH]; [by intros _ ?%elem_of_nil|].
  intros [Hx Hnd]%NoDup_cons [->|Ha]%elem_of_cons.
  - by rewrite filter_cons_True.
  - rewrite filter_cons_False; [by apply IH|]. intros Heq. apply Hx. rewrite Heq.
    by apply list_elem_of_fmap_2.
Qed.

Lemma report_of_some l slot c (v : V) :
  report_of l slot = Some (c, v) → mkSlotAccepted slot c v ∈ l.
Proof.
  unfold report_of. destruct (filter _ l) as [|a k] eqn:Ef; [done|]. intros [= <- <-].
  assert (a ∈ filter (λ a, a.(sa_slot) = slot) l) as Ha by (rewrite Ef; by left).
  apply list_elem_of_filter in Ha as [<- Ha]. by destruct a.
Qed.

Lemma report_of_none l slot (a : Accepted) :
  report_of l slot = None → a ∈ l → a.(sa_slot) ≠ slot.
Proof.
  unfold report_of. destruct (filter _ l) as [|x k] eqn:Ef; [|done]. intros _ Ha Heq.
  assert (a ∈ filter (λ a, a.(sa_slot) = slot) l) as Hf by by apply list_elem_of_filter.
  rewrite Ef in Hf. by apply elem_of_nil in Hf.
Qed.

Section with_ids.
(** The cluster's nodes, those that have registered their callbacks, whether
    callers are disciplined, the exceptions that may be raised, and what callers
    propose. *)
Context (ids reg : list string) (strict : bool) (ok : exn → Prop) (P : V → Prop).
Local Abbreviation quorum := (majority ids).

Definition valid (b : ProposalNumber) : Prop := 0 < b.(round) ∧ b.(proposer_id) ∈ ids.

Definition msg_ok s (p : MPPayload (V := V)) : Prop :=
  match p with
  | MPrepare m => valid m.(lp_ballot)
  | MPromise m => m.(lpr_acceptor_id) ∈ ids ∧ NoDup (sa_slot <$> m.(lpr_accepted))
      ∧ (m.(lpr_ballot), m.(lpr_acceptor_id), report_of m.(lpr_accepted)) ∈ s.(reports)
  | MAccept m => (m.(la_slot), m.(la_ballot), m.(la_value)) ∈ s.(proposed)
  | MAccepted m => m.(lad_acceptor_id) ∈ ids
      ∧ (m.(lad_slot), m.(lad_ballot), m.(lad_acceptor_id), m.(lad_value)) ∈ s.(votes)
  | MDecision m => chosen_at quorum s m.(ld_slot) m.(ld_ballot) m.(ld_value)
  | MRecoveryRequest _ => True
  | MRecoveryResponse _ ds =>
      ∀ d, d ∈ ds → chosen_at quorum s d.(sl_slot) d.(sl_proposal) d.(sl_value)
  | MRecoveryRetry _ _ => True
  | MOther _ => False
  end.

Definition queue_ok s (q : list (ScheduledDelivery (MPSig (V := V)))) : Prop :=
  ∀ x, x ∈ q → msg_ok s x.(sd_message).(payload)
    ∧ x.(sd_message).(dst) ∈ ids ∧ x.(sd_message).(delivery_dst) = None.

(** The durable dictionary of one node against the abstract state. *)
Record dur_ok s n (d : MPDurable (V := V)) : Prop := {
  do_bal : s.(max_bal) !! n = d.(d_promised);
  do_promised b : d.(d_promised) = Some b → valid b;
  do_votes slot b v : (slot, b, n, v) ∈ s.(votes) ↔ mkSlotAccepted slot b v ∈ d.(d_history);
  do_keys : NoDup d.(d_accepted).*1;
  do_accepted k a : (k, a) ∈ d.(d_accepted) →
    a.(sa_slot) = k ∧ a ∈ d.(d_history)
    ∧ ∀ a', a' ∈ d.(d_history) → a'.(sa_slot) = k → (a'.(sa_proposal) ≤ a.(sa_proposal))%ballot;
  do_history a : a ∈ d.(d_history) → a.(sa_slot) ∈ d.(d_accepted).*1;
  do_learned m k l : d.(d_learned) = Some m → m !! k = Some l →
    l.(sl_slot) = k ∧ chosen_at quorum s k l.(sl_proposal) l.(sl_value);
  do_round : 0 ≤ d.(d_last_round);
  do_proposed slot b v : (slot, b, v) ∈ s.(proposed) → b.(proposer_id) = n →
    b.(round) ≤ d.(d_last_round);
}.

(** A node that leads, or tries to, with ballot [b]. *)
Record lead_ok (ch : gmap Z (SlotLearnedDecision V)) s n (last : Z) b
    (o : MPNode (V := V)) : Prop := {
  lo_owner : b.(proposer_id) = n;
  lo_valid : valid b;
  lo_round : b.(round) ≤ last;
  lo_nodup : NoDup o.(promises).*1;
  lo_promises a m : (a, m) ∈ o.(promises) →
    a ∈ ids ∧ NoDup (sa_slot <$> m.(lpr_accepted))
    ∧ (b, a, report_of m.(lpr_accepted)) ∈ s.(reports);
  lo_pending slot v : o.(pending) !! slot = Some v → (slot, b, v) ∈ s.(proposed);
  lo_accepted slot v a : o.(pending) !! slot = Some v →
    a ∈ default ∅ (o.(accepted_by) !! slot) → a ∈ ids ∧ (slot, b, a, v) ∈ s.(votes);
  lo_proposed slot v : (slot, b, v) ∈ s.(proposed) →
    o.(pending) !! slot = Some v ∨ is_Some (ch !! slot);
}.

Record R w s : Prop := {
  R_ids : w.(objs).(node_ids) = ids;
  R_inv : inv quorum s;
  R_unique : strict = true → ∀ slot b v v',
    (slot, b, v) ∈ s.(proposed) → (slot, b, v') ∈ s.(proposed) → v = v';
  R_valid slot b v : (slot, b, v) ∈ s.(proposed) → 0 < slot ∧ valid b;
  R_values slot b v : (slot, b, v) ∈ s.(proposed) → P v;
  R_dur n : dur_ok s n (dur w n);
  R_queue : queue_ok s w.(sim).(queue);
  R_lead n b : (obj w n).(leader_ballot) = Some b →
    lead_ok w.(objs).(chosen) s n (dur w n).(d_last_round) b (obj w n);
  R_chosen slot l : w.(objs).(chosen) !! slot = Some l →
    l.(sl_slot) = slot ∧ chosen_at quorum s slot l.(sl_proposal) l.(sl_value);
  R_handlers e h : w.(sim).(handlers) !! e = Some h → h = e ∧ e ∈ ids ∧ e ∈ reg;
  R_crash e h : w.(sim).(crash_handlers) !! e = Some h → h ∈ ids;
  R_restart e h : w.(sim).(restart_handlers) !! e = Some h → h ∈ ids;
  R_reg e : e ∈ reg → is_Some (w.(sim).(handlers) !! e);
}.

Local Abbreviation safely := (safely (step quorum) R ok).
Local Abbreviation steps := (rtc (step quorum)).

(** ** Monotonicity along abstract steps *)

Lemma mp_steps_msg_ok s s' p : steps s s' → msg_ok s p → msg_ok s' p.
Proof.
  intros Hs. destruct p; simpl; try done;
    naive_solver eauto using steps_proposed, steps_votes, steps_reports, steps_chosen.
Qed.

Lemma mp_steps_queue_ok s s' q : steps s s' → queue_ok s q → queue_ok s' q.
Proof.
  intros Hs Hq x Hx. destruct (Hq x Hx) as [? ?]. split; [by eapply mp_steps_msg_ok|done].
Qed.

Lemma lead_ok_mono ch ch' s s' n last last' b o :
  steps s s' → (∀ slot v, (slot, b, v) ∈ s'.(proposed) → (slot, b, v) ∈ s.(proposed)) →
  last ≤ last' → (∀ slot, is_Some (ch !! slot) → is_Some (ch' !! slot)) →
  lead_ok ch s n last b o → lead_ok ch' s' n last' b o.
Proof.
  intros Hs Hp Hlast Hch []. split; try done; [lia|..].
  - intros a m Ham. destruct (lo_promises0 a m Ham) as (? & ? & ?). eauto using steps_reports.
  - intros slot v Hv. eauto using steps_proposed.
  - intros slot v a Hv Ha. destruct (lo_accepted0 slot v a Hv Ha). eauto using steps_votes.
  - intros slot v Hv. destruct (lo_proposed0 slot v); auto.
Qed.

Lemma mp_dur_ok_other s s' n d :
  steps s s' → s'.(max_bal) !! n = s.(max_bal) !! n →
  (∀ slot b v, (slot, b, n, v) ∈ s'.(votes) ↔ (slot, b, n, v) ∈ s.(votes)) →
  (∀ slot b v, (slot, b, v) ∈ s'.(proposed) → b.(proposer_id) = n → (slot, b, v) ∈ s.(proposed)) →
  dur_ok s n d → dur_ok s' n d.
Proof.
  intros Hs Hbal Hvotes Hprop []. split; try done.
  - by rewrite Hbal.
  - intros slot b v. by rewrite Hvotes.
  - intros m k l Hm Hl. destruct (do_learned0 m k l Hm Hl). eauto using steps_chosen.
  - intros slot b v Hp Hb. eauto.
Qed.

(** ** Frames *)

Lemma mp_R_ext new w w' s : sim_ext new w w' → queue_ok s new → R w s → R w' s.
Proof.
  intros He Hnew HR.
  assert (∀ n, dur w' n = dur w n) as Hd by (intros n; exact (sim_ext_durable _ _ _ n He)).
  assert (w'.(objs) = w.(objs)) as Ho by apply He.
  assert (∀ n, obj w' n = obj w n) as Hob by (intros n; unfold obj; by rewrite Ho).
  split; try (rewrite Ho; apply HR); try apply HR.
  - intros n. rewrite Hd. apply HR.
  - intros x. rewrite (se_queue _ _ _ He), elem_of_app. intros [?|?]; [by apply Hnew|by eapply R_queue].
  - intros n b. rewrite Hob, Hd, Ho. apply HR.
  - rewrite (se_handlers _ _ _ He). apply HR.
  - rewrite (se_crash _ _ _ He). apply HR.
  - rewrite (se_restart _ _ _ He). apply HR.
  - rewrite (se_handlers _ _ _ He). apply HR.
Qed.

(** A write to one durable dictionary, along steps that propose nothing. *)
Lemma mp_R_dur_ext n d w w' s s' :
  dur_ext n d w w' → R w s → steps s s' → s'.(proposed) = s.(proposed) →
  dur_ok s' n d → (∀ n', n' ≠ n → dur_ok s' n' (dur w n')) →
  (dur w n).(d_last_round) ≤ d.(d_last_round) → R w' s'.
Proof.
  intros He HR Hs Hprop Hd Hother Hlast.
  assert (w'.(objs) = w.(objs)) as Ho by apply He.
  assert (∀ n', n' ≠ n → dur w' n' = dur w n') as Hne by (intros; by apply (de_other _ _ _ _ He)).
  assert (dur w' n = d) as Heq by apply (de_at _ _ _ _ He).
  split; try (rewrite Ho; apply HR); try (rewrite Hprop; apply HR).
  - exact (steps_inv quorum _ _ (R_inv _ _ HR) Hs).
  - intros n'. destruct (decide (n' = n)) as [->|?]; [by rewrite Heq|rewrite Hne; auto].
  - rewrite (de_queue _ _ _ _ He). eapply mp_steps_queue_ok; [exact Hs|apply HR].
  - intros n' b. unfold obj. rewrite Ho. intros Hb.
    apply (lead_ok_mono w.(objs).(chosen) _ s _ _ (dur w n').(d_last_round)); try done.
    + by rewrite Hprop.
    + destruct (decide (n' = n)) as [->|?]; [by rewrite Heq|by rewrite Hne].
    + by apply (R_lead _ _ HR n' b).
  - rewrite Ho. intros slot l Hl. destruct (R_chosen _ _ HR _ _ Hl). eauto using steps_chosen.
  - rewrite (de_handlers _ _ _ _ He). apply HR.
  - rewrite (de_crash _ _ _ _ He). apply HR.
  - rewrite (de_restart _ _ _ _ He). apply HR.
  - rewrite (de_handlers _ _ _ _ He). apply HR.
Qed.

Lemma obj_upd w n (f : MPNode (V := V) → MPNode) n' :
  obj (mkWorld (Σ := MPSig) w.(sim) (set_nodes (<[n := f (obj w n)]> w.(objs).(nodes)) w.(objs))) n'
  = if decide (n' = n) then f (obj w n) else obj w n'.
Proof.
  unfold obj at 1. simpl. destruct (decide (n' = n)) as [->|Hne].
  - by rewrite lookup_insert_eq.
  - by rewrite lookup_insert_ne.
Qed.

(** A change to the attributes of one node. *)
Lemma R_upd_node n f w s :
  R w s →
  (∀ b, (f (obj w n)).(leader_ballot) = Some b →
     lead_ok w.(objs).(chosen) s n (dur w n).(d_last_round) b (f (obj w n))) →
  R (mkWorld (Σ := MPSig) w.(sim) (set_nodes (<[n := f (obj w n)]> w.(objs).(nodes)) w.(objs))) s.
Proof.
  intros HR Hf. split; try apply HR. intros n' b. rewrite obj_upd.
  destruct (decide (n' = n)) as [->|Hne]; [apply Hf|apply (R_lead _ _ HR n')].
Qed.

Lemma safely_upd_node n f w s :
  R w s →
  (∀ b, (f (obj w n)).(leader_ballot) = Some b →
     lead_ok w.(objs).(chosen) s n (dur w n).(d_last_round) b (f (obj w n))) →
  safely s (upd_node n f) w.
Proof. intros HR Hf. exists s. split; [done|]. split; [|done]. by apply R_upd_node. Qed.

Lemma safely_record s e w : R w s → safely s (record (Σ := MPSig) e) w.
Proof.
  intros HR. apply wp_record. intros w' He _ _. exists s. split; [done|]. split; [|done].
  eapply mp_R_ext; [exact He| |exact HR]. intros x []%elem_of_nil.
Qed.

Lemma safely_trace s r w : R w s → safely s (trace_rec r) w.
Proof. apply safely_record. Qed.

Lemma safely_send s sr d p w : R w s → msg_ok s p → d ∈ ids → safely s (net_send sr d p) w.
Proof.
  intros HR Hp Hd. apply wp_send; [lia|]. intros w' new He Hnew _.
  exists s. split; [done|]. split; [|done]. eapply mp_R_ext; [exact He| |exact HR].
  intros x Hx. rewrite Forall_forall in Hnew. destruct (Hnew x Hx) as (_ & -> & -> & ->). done.
Qed.

Lemma safely_send_all s sr l p w :
  R w s → msg_ok s p → l ⊆ ids → safely s (for_each l (λ peer, net_send sr peer p)) w.
Proof.
  intros HR Hp Hl. apply (safely_for_each _ _ _ _ _ _ (λ s d, msg_ok s p ∧ d ∈ ids)); [done| | |].
  - intros x Hx. auto.
  - intros s1 s2 x Hs [??]. split; [by eapply mp_steps_msg_ok|done].
  - intros s1 w1 x _ HR1 [??]. by apply safely_send.
Qed.

Lemma mp_peers_ids w s n : R w s → peers w n ⊆ ids.
Proof. intros HR x. unfold peers. rewrite (R_ids _ _ HR), list_elem_of_filter. naive_solver. Qed.

Lemma safely_broadcast s n p w : R w s → msg_ok s p → safely s (broadcast n p) w.
Proof.
  intros HR Hp. apply refines_gets. apply safely_send_all; [done..|]. by eapply mp_peers_ids.
Qed.

Lemma mp_R_agree w s slot b b' v v' :
  R w s → chosen_at quorum s slot b v → chosen_at quorum s slot b' v' → v = v'.
Proof. intros HR. apply (inv_agreement quorum). apply HR. Qed.

Lemma member_ids w s n : R w s → member w n = bool_decide (n ∈ ids).
Proof. intros HR. unfold member. by rewrite (R_ids _ _ HR). Qed.

Lemma mp_voted_proposed w s slot b a v :
  R w s → (slot, b, a, v) ∈ s.(votes) → (slot, b, v) ∈ s.(proposed).
Proof. intros HR Hv. by apply (inv_vote _ _ (R_inv _ _ HR)) in Hv as [? _]. Qed.

Lemma chosen_valid w s slot b v :
  R w s → chosen_at quorum s slot b v → 0 < slot ∧ valid b.
Proof.
  intros HR (Q & HQ & Hv). destruct (quorum_inhabited _ _ HQ) as [a Ha].
  eapply R_valid; [exact HR|]. by eapply mp_voted_proposed, Hv.
Qed.

(** ** Checks on durable state *)

Lemma wp_promised_ballot n w s E :
  R w s → wp (promised_ballot n) (λ w' p, w' = w ∧ p = (dur w n).(d_promised)) E w.
Proof.
  intros HR. unfold promised_ballot. apply wp_bind, wp_gets, wp_bind, wp_gets, wp_bind.
  apply wp_raise_if; intros Hbad; [|done]. exfalso.
  destruct (d_promised (dur w n)) as [b|] eqn:Eb; [|done].
  destruct (do_promised _ _ _ (R_dur _ _ HR n) b Eb) as [_ Hb].
  rewrite (member_ids _ _ _ HR), bool_decide_eq_true_2 in Hbad; done.
Qed.

Lemma wp_validate_ballot b w s E :
  R w s → valid b → wp (validate_ballot b) (λ w' _, w' = w) E w.
Proof.
  intros HR [Hr Hp]. unfold validate_ballot, valid_slot.
  apply wp_bind, wp_raise_if; [intros ?%negb_true_iff%Z.ltb_ge; lia|intros _].
  apply wp_bind, wp_gets. rewrite (member_ids _ _ _ HR), bool_decide_eq_true_2 by done. done.
Qed.

Lemma history_vote w s n a :
  R w s → a ∈ (dur w n).(d_history) →
  (a.(sa_slot), a.(sa_proposal), n, a.(sa_value)) ∈ s.(votes).
Proof. intros HR Ha. apply (do_votes _ _ _ (R_dur _ _ HR n)). by destruct a. Qed.

Lemma history_valid w s n a :
  R w s → a ∈ (dur w n).(d_history) → 0 < a.(sa_slot) ∧ valid a.(sa_proposal)
    ∧ ∃ p, (dur w n).(d_promised) = Some p ∧ (a.(sa_proposal) ≤ p)%ballot.
Proof.
  intros HR Ha%(history_vote _ _ _ _ HR). pose proof (mp_voted_proposed _ _ _ _ _ _ HR Ha) as Hp.
  destruct (R_valid _ _ HR _ _ _ Hp). split_and!; [done..|].
  destruct (inv_vote _ _ (R_inv _ _ HR) _ _ _ _ Ha) as (_ & m & Hm & Hle).
  exists m. by rewrite <-(do_bal _ _ _ (R_dur _ _ HR n)).
Qed.

Lemma wp_validate_accepted n a w s E :
  R w s → a ∈ (dur w n).(d_history) →
  wp (validate_durable_accepted n a) (λ w' _, w' = w) E w.
Proof.
  intros HR Ha. destruct (history_valid _ _ _ _ HR Ha) as (Hslot & Hb & p & Hp & Hle).
  unfold validate_durable_accepted, valid_slot.
  apply wp_bind, wp_raise_if; [intros ?%negb_true_iff%Z.ltb_ge; lia|intros _].
  apply wp_bind. eapply wp_mono; [by eapply wp_validate_ballot| |done]. intros w1 x ->.
  apply wp_bind. eapply wp_mono; [by eapply wp_promised_ballot| |done]. intros w1 q [-> ->].
  rewrite Hp. apply wp_raise_if; [|done]. intros Hlt. exfalso.
  change (p < sa_proposal a)%ballot in Hlt. ballot_order.
Qed.
Lemma matches_decision_true (d : SlotLearnedDecision V) (a : Accepted) :
  matches_decision d a = true ↔ a = mkSlotAccepted d.(sl_slot) d.(sl_proposal) d.(sl_value).
Proof.
  unfold matches_decision. rewrite !andb_true_iff, !bool_decide_eq_true. destruct a; simpl.
  naive_solver.
Qed.

Lemma wp_evidence d l accs w s E :
  R w s →
  wp (evidence_acceptors d l accs) (λ w' r, w' = w ∧ accs ⊆ r ∧ ∀ n, n ∈ l →
    mkSlotAccepted d.(sl_slot) d.(sl_proposal) d.(sl_value) ∈ (dur w n).(d_history) → n ∈ r) E w.
Proof.
  intros HR. revert accs. induction l as [|n l IH]; intros accs; simpl.
  { apply wp_ret. split_and!; [done..|]. intros n []%elem_of_nil. }
  apply wp_bind, wp_gets.
  destruct (filter _ (d_history (dur w n))) as [|a k] eqn:Ef.
  - eapply wp_mono; [apply IH| |done]. intros w' r (-> & Hsub & Hl). split_and!; [done..|].
    intros m [->|Hm]%elem_of_cons Hin; [|by apply Hl]. exfalso.
    eapply elem_of_nil. rewrite <-Ef. apply list_elem_of_filter. split; [|exact Hin].
    by apply matches_decision_true.
  - assert (a ∈ d_history (dur w n)) as Ha.
    { assert (a ∈ a :: k) as Ha by (by left). rewrite <-Ef in Ha.
      by apply list_elem_of_filter in Ha as [_ Ha]. }
    apply wp_bind. eapply wp_mono; [by eapply wp_validate_accepted| |done]. intros w1 x ->.
    eapply wp_mono; [apply IH| |done]. intros w' r (-> & Hsub & Hl).
    split_and!; [done|set_solver|]. intros m [->|Hm]%elem_of_cons Hin; [set_solver|by apply Hl].
Qed.

(** A chosen decision always has its durable evidence. *)
Lemma wp_require_evidence d w s E :
  R w s → chosen_at quorum s d.(sl_slot) d.(sl_proposal) d.(sl_value) →
  wp (require_decision_evidence d) (λ w' _, w' = w) E w.
Proof.
  intros HR Hc. destruct (chosen_valid _ _ _ _ _ HR Hc) as [Hslot Hb].
  unfold require_decision_evidence, valid_slot.
  apply wp_bind, wp_raise_if; [intros ?%negb_true_iff%Z.ltb_ge; lia|intros _].
  apply wp_bind. eapply wp_mono; [by eapply wp_validate_ballot| |done]. intros w1 x ->.
  apply wp_bind, wp_gets, wp_bind. rewrite (R_ids _ _ HR).
  eapply wp_mono; [by eapply wp_evidence| |done]. intros w1 accs (-> & _ & Hall).
  apply wp_bind, wp_gets, wp_raise_if; [|done]. intros Hlt%Z.ltb_lt. exfalso.
  unfold cluster_size in Hlt. rewrite (R_ids _ _ HR) in Hlt.
  destruct Hc as (Q & [Hsub Hsize] & HQ).
  assert (Q ⊆ accs) as Hle%subseteq_size; [|lia].
  intros a Ha. apply Hall.
  - by apply (elem_of_list_to_set (C := gset string)), Hsub.
  - apply (do_votes _ _ _ (R_dur _ _ HR a)). by apply HQ.
Qed.

Lemma new_decision_chosen w s slot b v :
  R w s → chosen_at quorum s slot b v →
  new_SlotLearnedDecision slot b v = inr (mkSlotLearned slot b v).
Proof.
  intros HR Hc. destruct (chosen_valid _ _ _ _ _ HR Hc) as [Hslot _].
  unfold new_SlotLearnedDecision. by rewrite (proj2 (Z.leb_gt _ _) Hslot).
Qed.

(** ** Learning *)

Lemma R_learn n m slot b v w w' s :
  R w s → (dur w n).(d_learned) = Some m → chosen_at quorum s slot b v →
  dur_ext (Σ := MPSig) n (set_learned (<[slot := mkSlotLearned slot b v]> m) (dur w n)) w w' →
  R w' s.
Proof.
  intros HR Hm Hc He.
  eapply mp_R_dur_ext; [exact He|exact HR|done|done| |intros; apply HR|done].
  pose proof (R_dur _ _ HR n) as []. split; simpl; try done.
  intros m' k l [= <-] [[-> <-]|[_ Hl]]%lookup_insert_Some; [done|by eapply do_learned0].
Qed.

Lemma safely_receive_decision n (m : LeaderDecision (V := V)) w s :
  R w s → chosen_at quorum s m.(ld_slot) m.(ld_ballot) m.(ld_value) →
  safely s (receive_decision n m) w.
Proof.
  intros HR Hc. unfold receive_decision. apply refines_gets.
  destruct (d_learned (dur w n)) as [learned|] eqn:El; [|by apply safely_trace].
  destruct (negb _); [by apply safely_trace|]. cbv zeta.
  apply refines_guard.
  { destruct (learned !! ld_slot m) as [c|] eqn:Ec; [|done]. apply negb_false_iff, bool_decide_eq_true.
    destruct (do_learned _ _ _ (R_dur _ _ HR n) _ _ _ El Ec). by eapply mp_R_agree. }
  rewrite (new_decision_chosen _ _ _ _ _ HR Hc). apply wp_bind, wp_lift.
  eapply (refines_pure _ _ _ _ _ _ (λ _, True)); [|exact HR|intros _ _].
  { eapply wp_mono; [by eapply (wp_require_evidence _ _ _ (λ _ _, False))|by auto|done]. }
  destruct (learned !! ld_slot m); [by apply safely_trace|].
  apply wp_bind, wp_persist. intros w' He.
  apply safely_trace. by eapply R_learn.
Qed.

(** ** Choosing *)

Lemma R_record_chosen slot b v w s :
  R w s → chosen_at quorum s slot b v →
  R (mkWorld (Σ := MPSig) w.(sim)
      (set_chosen (<[slot := mkSlotLearned slot b v]> w.(objs).(chosen)) w.(objs))) s.
Proof.
  intros HR Hc. split; try apply HR; simpl.
  - intros n b' Hb'. apply (lead_ok_mono w.(objs).(chosen) _ s s n (dur w n).(d_last_round));
      [done|auto|done| |by apply (R_lead _ _ HR n b')].
    intros k Hk. destruct (decide (k = slot)) as [->|Hne];
      [by rewrite lookup_insert_eq|by rewrite lookup_insert_ne].
  - intros k l [[-> <-]|[_ Hl]]%lookup_insert_Some; [done|by apply (R_chosen _ _ HR)].
Qed.

(** After recording, the slot is chosen in the cluster's map. *)
Lemma refines_record_chosen slot b v w s :
  R w s → chosen_at quorum s slot b v →
  refines (step quorum) R ok s (record_chosen slot b v)
    (λ w' _ _, is_Some (w'.(objs).(chosen) !! slot)) w.
Proof.
  intros HR Hc. unfold record_chosen. apply refines_gets. apply refines_guard.
  { destruct (chosen (objs w) !! slot) as [c|] eqn:Ec; [|done].
    apply negb_false_iff, bool_decide_eq_true.
    destruct (R_chosen _ _ HR _ _ Ec). by eapply mp_R_agree. }
  destruct (chosen (objs w) !! slot) as [c|] eqn:Ec.
  { apply refines_ret; [done|]. by rewrite Ec. }
  rewrite (new_decision_chosen _ _ _ _ _ HR Hc). apply wp_bind, wp_lift, wp_bind, wp_modify.
  apply wp_record. intros w' He _ _. exists s. split; [done|]. split.
  - eapply mp_R_ext; [exact He| |by apply R_record_chosen]. intros x []%elem_of_nil.
  - rewrite (se_objs _ _ _ He). simpl. by rewrite lookup_insert_eq.
Qed.

(** One more acceptor counted. *)
Lemma lead_ok_accepted ch s n last b o slot v a :
  lead_ok ch s n last b o → o.(pending) !! slot = Some v → a ∈ ids → (slot, b, a, v) ∈ s.(votes) →
  lead_ok ch s n last b (set_leadership o.(leader_ballot) o.(promises) o.(pending)
    (<[slot := {[a]} ∪ default ∅ (o.(accepted_by) !! slot)]> o.(accepted_by)) o).
Proof.
  intros [] Hv Ha Hvote. split; try done; simpl. intros slot' v' a' Hv'.
  destruct (decide (slot' = slot)) as [->|Hne].
  - rewrite lookup_insert_eq. simpl. assert (v' = v) as -> by congruence.
    rewrite elem_of_union, elem_of_singleton. intros [->|?]; [done|]. by eapply lo_accepted0.
  - rewrite lookup_insert_ne by done. by eapply lo_accepted0.
Qed.

(** A slot retired once it is chosen. *)
Lemma lead_ok_retire ch s n last b o slot :
  lead_ok ch s n last b o → is_Some (ch !! slot) →
  lead_ok ch s n last b (set_leadership o.(leader_ballot) o.(promises)
    (delete slot o.(pending)) (delete slot o.(accepted_by)) o).
Proof.
  intros [] Hch. split; try done; simpl.
  - intros k v [_ Hk]%lookup_delete_Some. by apply lo_pending0.
  - intros k v a [Hne Hk]%lookup_delete_Some. rewrite lookup_delete_ne by done.
    by eapply lo_accepted0.
  - intros k v Hk. destruct (decide (k = slot)) as [->|Hne]; [by right|].
    rewrite lookup_delete_ne by done. by apply lo_proposed0.
Qed.

Lemma pending_chosen w s n b slot v :
  R w s → (obj w n).(leader_ballot) = Some b → (obj w n).(pending) !! slot = Some v →
  quorum_size ids ≤ Z.of_nat (size (default ∅ ((obj w n).(accepted_by) !! slot) : gset string)) →
  chosen_at quorum s slot b v.
Proof.
  intros HR Hb Hv Hsize. pose proof (R_lead _ _ HR n b Hb) as [].
  eexists. split; [split; [|exact Hsize]|].
  - intros a Ha. apply elem_of_list_to_set. by eapply lo_accepted0.
  - intros a Ha. by eapply lo_accepted0.
Qed.

Hypothesis Hviol : strict = false → ∀ msg, ok (Exn PaxosSafetyViolation msg).

(** One ballot has two values for a slot only when callers are undisciplined. *)
Lemma two_values w s slot b v v' msg :
  R w s → (slot, b, v) ∈ s.(proposed) → (slot, b, v') ∈ s.(proposed) → v ≠ v' →
  ok (Exn PaxosSafetyViolation msg).
Proof.
  intros HR Hv Hv' Hne. destruct strict eqn:Es; [|by apply Hviol].
  exfalso. apply Hne. eapply (R_unique _ _ HR); done.
Qed.

(** What follows once a majority has accepted the pending value. *)
Lemma safely_chosen n slot b v w s :
  R w s → n ∈ ids → (obj w n).(leader_ballot) = Some b → chosen_at quorum s slot b v →
  safely s (
    record_chosen slot b v ;;
    upd_node n (λ o, set_leadership o.(leader_ballot) o.(promises)
      (delete slot o.(pending)) (delete slot o.(accepted_by)) o) ;;
    let! learn := gets (λ w, w.(objs).(learn_decisions)) in
    when learn
      (let decision := mkLeaderDecision slot b v in
       receive_decision n decision ;;
       let! ps := gets (λ w, peers w n) in
       for_each ps (λ peer, net_send n peer (MDecision decision)))) w.
Proof.
  intros HR Hn Hb Hc.
  eapply refines_bind; [by apply refines_record_chosen|].
  intros s1 w1 x Hs1 HR1 Hch. cbv beta.
  eapply safely_bind.
  { apply safely_upd_node; [done|]. intros b' Hb'. apply lead_ok_retire; [|done].
    apply (R_lead _ _ HR1). exact Hb'. }
  intros s2 w2 _ Hs2 HR2. apply refines_gets. apply safely_when; [done|intros _].
  assert (chosen_at quorum s2 slot b v) as Hc2.
  { eapply steps_chosen; [exact Hs2|]. by eapply steps_chosen. }
  eapply safely_bind; [by apply safely_receive_decision|].
  intros s3 w3 _ Hs3 HR3. apply refines_gets.
  apply safely_send_all; [done| |by eapply mp_peers_ids]. simpl. by eapply steps_chosen.
Qed.

Lemma safely_receive_accepted n (m : LeaderAccepted (V := V)) w s :
  R w s → n ∈ ids → m.(lad_acceptor_id) ∈ ids →
  (m.(lad_slot), m.(lad_ballot), m.(lad_acceptor_id), m.(lad_value)) ∈ s.(votes) →
  safely s (receive_accepted n m) w.
Proof.
  intros HR Hn Ha Hvote. unfold receive_accepted.
  destruct (_ <=? 0); [by apply safely_intro|]. do 2 apply refines_gets.
  case_bool_decide as Hb; simpl; [|by apply safely_intro].
  destruct (pending _ !! _) as [v|] eqn:Hv; [|by apply safely_intro].
  destruct (negb (member _ _)); [by apply safely_intro|].
  pose proof (R_lead _ _ HR n _ Hb) as Hlead.
  apply refines_check; [done| |].
  { intros Hne%negb_true_iff%bool_decide_eq_false.
    eapply two_values; [exact HR|by eapply mp_voted_proposed| |exact Hne]. by apply Hlead. }
  intros Heq%negb_false_iff%bool_decide_eq_true. rewrite Heq in *. cbv zeta.
  apply wp_bind, wp_modify.
  set (w1 := mkWorld _ _).
  assert (R w1 s) as HR1.
  { apply (R_upd_node n (λ o, set_leadership o.(leader_ballot) o.(promises) o.(pending)
      (<[lad_slot m := {[lad_acceptor_id m]} ∪ default ∅ (accepted_by (obj w n) !! lad_slot m)]>
        o.(accepted_by)) o)); [done|].
    intros b' Hb'. simpl in Hb'. assert (b' = lad_ballot m) as -> by congruence.
    by apply (lead_ok_accepted _ _ _ _ _ _ _ v). }
  assert (obj w1 n = set_leadership (obj w n).(leader_ballot) (obj w n).(promises) (obj w n).(pending)
    (<[lad_slot m := {[lad_acceptor_id m]} ∪ default ∅ (accepted_by (obj w n) !! lad_slot m)]>
      (obj w n).(accepted_by)) (obj w n)) as Ho1.
  { unfold w1. rewrite (obj_upd w n (λ o, set_leadership _ _ _ (<[_ := _]> _) o)).
    by rewrite decide_True. }
  clearbody w1. apply refines_gets. unfold cluster_size. rewrite (R_ids _ _ HR1).
  destruct (_ <? _) eqn:Hsize; [by apply safely_intro|]. apply Z.ltb_ge in Hsize.
  apply safely_chosen; [done|done|by rewrite Ho1|].
  eapply (pending_chosen w1 s n); [done|by rewrite Ho1|by rewrite Ho1|].
  rewrite Ho1. simpl. by rewrite lookup_insert_eq.
Qed.
(** ** Promising *)

Lemma mp_may_act_promised w s n b :
  R w s → match (dur w n).(d_promised) with Some p => pn_ltb b p = false | None => True end →
  may_act s n b.
Proof.
  intros HR Hp m Hm. rewrite (do_bal _ _ _ (R_dur _ _ HR n)) in Hm.
  rewrite Hm in Hp. by apply pn_ltb_false.
Qed.

Lemma accepted_slots s n d : dur_ok s n d → sa_slot <$> d.(d_accepted).*2 = d.(d_accepted).*1.
Proof.
  intros Hd. pose proof (do_accepted _ _ _ Hd) as Hacc. revert Hacc.
  induction d.(d_accepted) as [|[k a] l IH]; intros Hacc; simpl; [done|]. f_equal.
  - by destruct (Hacc k a) as [-> _]; [left|].
  - apply IH. intros k' a' Hin. apply Hacc. by right.
Qed.

Lemma accepted_nodup s n d : dur_ok s n d → NoDup (sa_slot <$> d.(d_accepted).*2).
Proof. intros Hd. rewrite (accepted_slots _ _ _ Hd). apply Hd. Qed.

Lemma accepted_history s n d a : dur_ok s n d → a ∈ d.(d_accepted).*2 →
  a ∈ d.(d_history) ∧ ∀ a', a' ∈ d.(d_history) → a'.(sa_slot) = a.(sa_slot) →
    (a'.(sa_proposal) ≤ a.(sa_proposal))%ballot.
Proof.
  intros Hd [[k a'] [-> Hin]]%list_elem_of_fmap.
  destruct (do_accepted _ _ _ Hd _ _ Hin) as (<- & ? & ?). done.
Qed.

Lemma mp_latest_report s n d : dur_ok s n d → latest s n (report_of d.(d_accepted).*2).
Proof.
  intros Hd slot. destruct (report_of _ slot) as [[c v]|] eqn:Er.
  - apply report_of_some in Er. destruct (accepted_history _ _ _ _ Hd Er) as [Hh Hmax]. split.
    + by apply (do_votes _ _ _ Hd).
    + intros c' v' Hv%(do_votes _ _ _ Hd). exact (Hmax _ Hv eq_refl).
  - intros c v Hv%(do_votes _ _ _ Hd). pose proof (do_history _ _ _ Hd _ Hv) as Hk. simpl in Hk.
    rewrite <-(accepted_slots _ _ _ Hd) in Hk. apply list_elem_of_fmap in Hk as (a & Ha & Hin).
    by eapply report_of_none.
Qed.

Definition promise_state s n (b : ProposalNumber) (r : report V) : State V :=
  mkState (<[n := b]> s.(max_bal)) ((b, n, r) :: s.(reports)) s.(proposed) s.(votes).

Lemma mp_promise_step w s n b :
  R w s → may_act s n b → steps s (promise_state s n b (report_of (dur w n).(d_accepted).*2)).
Proof. intros HR Hmay. apply rtc_once, step_promise; [done|]. apply mp_latest_report, HR. Qed.

Lemma mp_R_promise w w' s n b :
  R w s → may_act s n b → valid b → dur_ext (Σ := MPSig) n (set_promised b (dur w n)) w w' →
  R w' (promise_state s n b (report_of (dur w n).(d_accepted).*2)).
Proof.
  intros HR Hmay Hb He. pose proof (mp_promise_step _ _ _ _ HR Hmay) as Hs.
  eapply mp_R_dur_ext; [exact He|exact HR|exact Hs|done| | |done].
  - pose proof (R_dur _ _ HR n) as Hd. split; simpl; try apply Hd.
    + apply lookup_insert_eq.
    + by intros ? [= <-].
  - intros n' Hne. eapply mp_dur_ok_other; [exact Hs| |done|done|apply HR].
    simpl. by rewrite lookup_insert_ne.
Qed.

Lemma mp_setdefault_promise_elem (m : LeaderPromise (V := V)) ps x :
  x ∈ setdefault_promise m ps → x ∈ ps ∨ x = (m.(lpr_acceptor_id), m).
Proof.
  unfold setdefault_promise. destruct (assoc_get _ ps); [by left|].
  rewrite elem_of_app, list_elem_of_singleton. done.
Qed.

Lemma mp_setdefault_promise_nodup (m : LeaderPromise (V := V)) ps :
  NoDup ps.*1 → NoDup (setdefault_promise m ps).*1.
Proof.
  intros Hnd. unfold setdefault_promise. destruct (assoc_get _ ps) as [x|] eqn:E; [done|].
  rewrite fmap_app. apply NoDup_app. split_and!; [done| |apply NoDup_singleton].
  intros a [[b x] [-> Hin]]%list_elem_of_fmap. simpl. rewrite list_elem_of_singleton. intros ->.
  apply (elem_assoc_get _ _ _ Hnd) in Hin. congruence.
Qed.

Lemma safely_receive_promise n (m : LeaderPromise (V := V)) w s :
  R w s → msg_ok s (MPromise m) → safely s (receive_promise n m) w.
Proof.
  intros HR (Ha & Hnd & Hrep). unfold receive_promise. do 2 apply refines_gets.
  case_bool_decide as Hb; simpl; [|by apply safely_intro].
  destruct (negb (member _ _)); [by apply safely_intro|]. apply refines_gets.
  destruct (filter _ (lpr_accepted m)); [|by apply safely_trace]. cbv zeta.
  pose proof (R_lead _ _ HR n _ Hb) as Hlead.
  eapply safely_bind.
  { apply safely_upd_node; [done|]. intros b' Hb'. simpl in Hb'.
    assert (b' = lpr_ballot m) as -> by congruence. destruct Hlead. split; simpl; try done.
    - by apply mp_setdefault_promise_nodup.
    - intros a k [?|[= -> ->]]%mp_setdefault_promise_elem; auto. }
  intros s1 w1 _ Hs1 HR1. apply refines_gets. apply safely_when; [done|intros _].
  by apply safely_trace.
Qed.

Lemma safely_receive_prepare n (m : LeaderPrepare) w s :
  R w s → n ∈ ids → valid m.(lp_ballot) → safely s (receive_prepare n m) w.
Proof.
  intros HR Hn Hb. unfold receive_prepare.
  eapply refines_pure; [eapply wp_mono; [by eapply (wp_promised_ballot _ _ _ (λ _ _, False))|
    intros ? ? H1; exact H1|done]|exact HR|intros p ->]. cbv zeta.
  set (answer := put _ _ ;; _).
  enough (may_act s n (lp_ballot m) → safely s answer w) as Hanswer.
  { pose proof (mp_may_act_promised w s n (lp_ballot m) HR) as Hp.
    destruct (d_promised (dur w n)) as [p|]; [|by apply Hanswer, Hp].
    destruct (pn_ltb (lp_ballot m) p); [by apply safely_intro|by apply Hanswer, Hp]. }
  intros Hmay. subst answer. apply wp_bind, wp_persist. intros w1 He.
  pose proof (mp_R_promise _ _ _ _ _ HR Hmay Hb He) as HR1.
  eapply refines_steps; [by apply (mp_promise_step w)|]. apply refines_gets. cbv zeta.
  assert (d_accepted (dur w1 n) = d_accepted (dur w n)) as Hacc.
  { unfold dur at 1. by rewrite (de_at _ _ _ _ He). }
  rewrite Hacc.
  assert (msg_ok (promise_state s n (lp_ballot m) (report_of (d_accepted (dur w n)).*2))
    (MPromise (mkLeaderPromise (lp_ballot m) n (d_accepted (dur w n)).*2))) as Hm.
  { simpl. split_and!; [done|by eapply accepted_nodup, HR|by left]. }
  destruct (_ =? n)%string; [by apply safely_receive_promise|apply safely_send; [done..|apply Hb]].
Qed.

(** ** Accepting *)

Definition vote_state s n slot (b : ProposalNumber) (v : V) : State V :=
  mkState (<[n := b]> s.(max_bal)) s.(reports) s.(proposed) ((slot, b, n, v) :: s.(votes)).

(** The durable effect of an acceptance. *)
Definition accept_dur (a : Accepted) (d : MPDurable (V := V)) : MPDurable :=
  mkMPDurable d.(d_promised) (assoc_set a.(sa_slot) a d.(d_accepted))
    (if bool_decide (a ∈ d.(d_history)) then d.(d_history) else d.(d_history) ++ [a])
    d.(d_last_round) d.(d_learned).

Lemma mp_elem_of_accept_history a a' d :
  a' ∈ (accept_dur a d).(d_history) ↔ a' = a ∨ a' ∈ d.(d_history).
Proof.
  simpl. case_bool_decide; [naive_solver|]. rewrite elem_of_app, list_elem_of_singleton. tauto.
Qed.

Lemma assoc_set_elem {K A} `{EqDecision K} (k k' : K) (a a' : A) l :
  NoDup l.*1 → (k', a') ∈ assoc_set k a l → (k' = k ∧ a' = a) ∨ (k' ≠ k ∧ (k', a') ∈ l).
Proof.
  intros Hnd Hin%elem_assoc_get; [|by apply assoc_set_nodup].
  rewrite assoc_get_set in Hin. case_decide as Hk; [left; split; congruence|right].
  split; [done|by apply assoc_get_elem].
Qed.

Lemma mp_dur_ok_vote w s n slot b v :
  R w s → (dur w n).(d_promised) = Some b →
  dur_ok (vote_state s n slot b v) n (accept_dur (mkSlotAccepted slot b v) (dur w n)).
Proof.
  intros HR Hb. pose proof (R_dur _ _ HR n) as Hd. pose proof Hd as [].
  assert (∀ a, a ∈ d_history (dur w n) → (sa_proposal a ≤ b)%ballot) as Hmax.
  { intros a Ha. destruct (history_valid _ _ _ _ HR Ha) as (_ & _ & p & Hp & ?). congruence. }
  split; try done.
  - simpl. rewrite lookup_insert_eq. by rewrite Hb.
  - intros k c u. rewrite mp_elem_of_accept_history. simpl. rewrite elem_of_cons, do_votes0.
    naive_solver.
  - simpl. by apply assoc_set_nodup.
  - intros k a Hin. simpl in Hin. apply assoc_set_elem in Hin as [[-> ->]|[Hne Hin]]; [| |done].
    + split_and!; [done|by rewrite mp_elem_of_accept_history; left|].
      intros a'. rewrite mp_elem_of_accept_history. intros [->|Ha'] _; [by right|by apply Hmax].
    + destruct (do_accepted0 _ _ Hin) as (Hk & ? & Hle).
      split_and!; [done|by rewrite mp_elem_of_accept_history; right|].
      intros a'. rewrite mp_elem_of_accept_history. intros [->|Ha'] Heq; [by simpl in *; subst|by apply Hle].
  - intros a Hin. rewrite mp_elem_of_accept_history in Hin. simpl. apply assoc_set_keys.
    destruct Hin as [->|Hin]; [by left|right; auto].
  - intros m k l Hm Hl. destruct (do_learned0 m k l Hm Hl) as (? & Q & ? & HQ). split; [done|].
    exists Q. split; [done|]. intros a Ha. right. by apply HQ.
Qed.
(** The acceptor has no other vote in this ballot. *)
Definition free_to_vote w n slot b (v : V) : Prop :=
  ∀ a, assoc_get slot (dur w n).(d_accepted) = Some a → a.(sa_proposal) = b → a.(sa_value) = v.

Lemma one_vote w s n slot b v v' :
  R w s → (dur w n).(d_promised) = Some b → free_to_vote w n slot b v →
  (slot, b, n, v') ∈ s.(votes) → v' = v.
Proof.
  intros HR Hb Hfree Hv'. pose proof (R_dur _ _ HR n) as Hd.
  pose proof (proj1 (do_votes _ _ _ Hd _ _ _) Hv') as Hh.
  pose proof (do_history _ _ _ Hd _ Hh) as Hk. simpl in Hk.
  apply list_elem_of_fmap in Hk as ([k a] & -> & Hin).
  destruct (do_accepted _ _ _ Hd _ _ Hin) as (Hslot & Ha & Hmax).
  specialize (Hmax _ Hh eq_refl). simpl in Hmax.
  destruct (history_valid _ _ _ _ HR Ha) as (_ & _ & p & Hp & Hle).
  assert (a.(sa_proposal) = b) as Hab by (assert (p = b) as -> by congruence; ballot_order).
  rewrite <-(Hfree a); [|by apply elem_assoc_get; [apply Hd|]|done].
  apply (history_vote _ _ _ _ HR) in Ha. simpl in *. rewrite Hslot, Hab in Ha.
  eapply (inv_one_vote _ _ (R_inv _ _ HR)); [exact Hv'|exact Ha].
Qed.

Lemma mp_vote_step w s n slot b v :
  R w s → (slot, b, v) ∈ s.(proposed) → (dur w n).(d_promised) = Some b →
  free_to_vote w n slot b v → steps s (vote_state s n slot b v).
Proof.
  intros HR Hprop Hb Hfree. apply rtc_once, step_vote; [done| |].
  - intros m Hm. rewrite (do_bal _ _ _ (R_dur _ _ HR n)), Hb in Hm. simplify_eq. by right.
  - intros v' Hv'. by eapply one_vote.
Qed.

Lemma mp_R_vote w w' s n slot b v :
  R w s → (slot, b, v) ∈ s.(proposed) → (dur w n).(d_promised) = Some b →
  free_to_vote w n slot b v →
  dur_ext (Σ := MPSig) n (accept_dur (mkSlotAccepted slot b v) (dur w n)) w w' →
  R w' (vote_state s n slot b v).
Proof.
  intros HR Hprop Hb Hfree He. pose proof (mp_vote_step _ _ _ _ _ _ HR Hprop Hb Hfree) as Hs.
  eapply mp_R_dur_ext; [exact He|exact HR|exact Hs|done|by apply mp_dur_ok_vote| |done].
  intros n' Hne. eapply mp_dur_ok_other; [exact Hs| | |done|apply HR].
  - simpl. by rewrite lookup_insert_ne.
  - intros k c u. simpl. rewrite elem_of_cons. naive_solver.
Qed.

(** The answer to an accept request once the vote is durable. *)
Lemma safely_answer_accept n slot b v w w' s :
  R w s → n ∈ ids → (slot, b, v) ∈ s.(proposed) → (dur w n).(d_promised) = Some b →
  free_to_vote w n slot b v →
  dur_ext (Σ := MPSig) n (accept_dur (mkSlotAccepted slot b v) (dur w n)) w w' →
  safely s (if (b.(proposer_id) =? n)%string then receive_accepted n (mkLeaderAccepted slot b n v)
    else net_send n b.(proposer_id) (MAccepted (mkLeaderAccepted slot b n v))) w'.
Proof.
  intros HR Hn Hprop Hb Hfree He.
  pose proof (mp_R_vote _ _ _ _ _ _ _ HR Hprop Hb Hfree He) as HR'.
  eapply refines_steps; [by eapply mp_vote_step|].
  assert ((slot, b, n, v) ∈ (vote_state s n slot b v).(votes)) as Hv by by left.
  destruct (_ =? n)%string; [by apply safely_receive_accepted|].
  apply safely_send; [done..|]. by eapply (R_valid _ _ HR).
Qed.

(** The durable writes of an acceptance. *)
Lemma safely_accept_writes n slot b v (k : M _ unit) w s :
  (∀ w', dur_ext (Σ := MPSig) n (accept_dur (mkSlotAccepted slot b v) (dur w n)) w w' →
     safely s k w') →
  safely s (
    put n (set_accepted (assoc_set slot (mkSlotAccepted slot b v) (dur w n).(d_accepted))) ;;
    when (negb (bool_decide (mkSlotAccepted slot b v ∈ (dur w n).(d_history))))
      (put n (set_history ((dur w n).(d_history) ++ [mkSlotAccepted slot b v]))) ;;
    k) w.
Proof.
  intros Hk. apply wp_bind, wp_persist. intros w2 He2. apply wp_bind, wp_when; intros Hin.
  - apply negb_true_iff in Hin. apply wp_persist. intros w3 He3. rewrite (de_at _ _ _ _ He2) in He3.
    apply Hk. unfold accept_dur. rewrite Hin. exact (dur_ext_trans _ _ _ _ _ _ He2 He3).
  - apply negb_false_iff in Hin. apply Hk. unfold accept_dur. rewrite Hin. exact He2.
Qed.

Lemma safely_receive_accept n (m : LeaderAccept (V := V)) w s :
  R w s → n ∈ ids → (m.(la_slot), m.(la_ballot), m.(la_value)) ∈ s.(proposed) →
  safely s (receive_accept n m) w.
Proof.
  intros HR Hn Hprop. destruct (R_valid _ _ HR _ _ _ Hprop) as [Hslot Hb].
  unfold receive_accept. destruct (_ <=? 0); [by apply safely_trace|].
  eapply refines_pure; [eapply wp_mono; [by eapply (wp_promised_ballot _ _ _ (λ _ _, False))|
    intros ? ? H1; exact H1|done]|exact HR|intros p ->]. cbv zeta.
  set (accept := put _ _ ;; _).
  enough (may_act s n (la_ballot m) → safely s accept w) as Haccept.
  { pose proof (mp_may_act_promised w s n (la_ballot m) HR) as Hp.
    destruct (d_promised (dur w n)) as [p|]; [|by apply Haccept, Hp].
    destruct (pn_ltb (la_ballot m) p); [by apply safely_trace|by apply Haccept, Hp]. }
  intros Hmay. subst accept. apply wp_bind, wp_persist. intros w1 He.
  pose proof (mp_R_promise _ _ _ _ _ HR Hmay Hb He) as HR1.
  eapply refines_steps; [by apply (mp_promise_step w)|]. set (s1 := promise_state _ _ _ _) in *.
  assert (d_promised (dur w1 n) = Some (la_ballot m)) as Hp1.
  { unfold dur. by rewrite (de_at _ _ _ _ He). }
  clear He Hmay. apply refines_gets. apply refines_check; [done| |].
  { destruct (assoc_get _ _) as [cur|] eqn:Ec; [|done].
    intros [Hpc%bool_decide_eq_true Hvc%negb_true_iff%bool_decide_eq_false]%andb_true_iff.
    apply assoc_get_elem in Ec. destruct (do_accepted _ _ _ (R_dur _ _ HR1 n) _ _ Ec) as (Hk & Hh & _).
    eapply (two_values w1 s1 (la_slot m) (la_ballot m)); [done| |exact Hprop|exact Hvc].
    rewrite <-Hk, <-Hpc. eapply mp_voted_proposed; [done|]. by eapply history_vote. }
  intros Hcheck.
  assert (free_to_vote w1 n (la_slot m) (la_ballot m) (la_value m)) as Hfree.
  { intros a Ha Hpa. rewrite Ha, bool_decide_eq_true_2 in Hcheck by done.
    by apply negb_false_iff, bool_decide_eq_true in Hcheck. }
  unfold new_SlotAcceptedValue. rewrite (proj2 (Z.leb_gt _ _) Hslot).
  apply wp_bind, wp_lift. apply safely_accept_writes. intros w2 He2.
  by eapply safely_answer_accept.
Qed.
(** ** Phase 1 *)

(** The exceptions a caller can provoke. *)
Definition call_error (e : exn) : Prop :=
  e.(exn_cls) ∈ [ValueError; PaxosError; KeyError; OutOfFuel].

Hypothesis Hok : ∀ e, call_error e → ok e.

Lemma caller c msg : c ∈ [ValueError; PaxosError; KeyError; OutOfFuel] → ok (Exn c msg).
Proof. intros Hc. by apply Hok. Qed.

Lemma mp_R_last_round w w' s n r :
  R w s → (dur w n).(d_last_round) ≤ r →
  dur_ext (Σ := MPSig) n (set_last_round r (dur w n)) w w' → R w' s.
Proof.
  intros HR Hr He.
  eapply mp_R_dur_ext; [exact He|exact HR|done|done| |intros; apply HR|done].
  pose proof (R_dur _ _ HR n) as []. split; simpl; try done; [lia|].
  intros slot b v Hp Hb. specialize (do_proposed0 slot b v Hp Hb). lia.
Qed.

(** A ballot of a new round has proposed nothing yet. *)
Lemma lead_ok_fresh w s ch n b o last :
  R w s → valid b → b.(proposer_id) = n → (dur w n).(d_last_round) < b.(round) → b.(round) ≤ last →
  lead_ok ch s n last b (set_leadership (Some b) [] ∅ ∅ o).
Proof.
  intros HR Hb Hn Hr Hlast. split; try done; simpl.
  - constructor.
  - intros a m []%elem_of_nil.
  - intros slot v Hp. pose proof (do_proposed _ _ _ (R_dur _ _ HR n) _ _ _ Hp Hn). lia.
Qed.

Lemma safely_prepare_leadership n r w s :
  R w s → n ∈ ids → safely s (prepare_leadership n r) w.
Proof.
  intros HR Hn. unfold prepare_leadership. apply refines_gets.
  apply refines_check; [done|intros _; apply caller; set_solver|intros _]. apply refines_gets.
  eapply refines_pure; [eapply wp_mono; [by eapply (wp_promised_ballot _ _ _ (λ _ _, False))|
    intros ? ? H1; exact H1|done]|exact HR|intros p ->]. cbv zeta.
  set (rn := default _ r).
  apply refines_check; [done|intros _; apply caller; set_solver|intros Hround%Z.leb_gt].
  apply refines_lift; [done| |].
  { intros e He%new_ProposalNumber_error. apply Hok. unfold call_error. rewrite He. set_solver. }
  intros b [-> Hpos]%new_ProposalNumber_ok.
  apply wp_bind, wp_persist. intros w1 He.
  assert (R w1 s) as HR1 by (eapply mp_R_last_round; [exact HR| |exact He]; lia).
  set (b := mkProposalNumber rn n). assert (valid b) as Hb by done.
  eapply safely_bind.
  { apply safely_upd_node; [done|]. intros b' [= <-].
    eapply lead_ok_fresh; [exact HR|done|done|simpl; lia|].
    unfold dur. rewrite (de_at _ _ _ _ He). done. }
  intros s2 w2 _ Hs2 HR2. eapply safely_bind; [by apply safely_receive_prepare|].
  intros s3 w3 _ Hs3 HR3. eapply safely_bind; [by apply safely_broadcast|].
  intros s4 w4 _ Hs4 HR4. eapply safely_bind; [by apply safely_trace|].
  intros s5 w5 _ Hs5 HR5. by apply refines_ret.
Qed.

(** ** Phase 2 *)

(** The promises a leader holds, as reports by acceptor. *)
Definition promised_reports (ps : list (string * LeaderPromise (V := V))) (a : string) : report V :=
  match assoc_get a ps with
  | Some m => report_of m.(lpr_accepted)
  | None => λ _, None
  end.

Definition promises_ok s b (ps : list (string * LeaderPromise (V := V))) : Prop :=
  NoDup ps.*1 ∧ ∀ a m, (a, m) ∈ ps → a ∈ ids ∧ NoDup (sa_slot <$> m.(lpr_accepted))
    ∧ (b, a, report_of m.(lpr_accepted)) ∈ s.(reports).

Lemma mp_promised_reports_elem (ps : list (string * LeaderPromise (V := V))) a m :
  NoDup ps.*1 → (a, m) ∈ ps → promised_reports ps a = report_of m.(lpr_accepted).
Proof. intros Hnd Hin. unfold promised_reports. by rewrite (elem_assoc_get _ _ _ Hnd Hin). Qed.

Lemma elem_of_accepted_for slot (ps : list (string * LeaderPromise (V := V))) x :
  x ∈ accepted_for slot ps ↔ x.(sa_slot) = slot ∧ ∃ a m, (a, m) ∈ ps ∧ x ∈ m.(lpr_accepted).
Proof.
  unfold accepted_for. rewrite list_elem_of_filter, list_elem_of_join. split.
  - intros [? (l & Hx & ([a m] & -> & Ham)%list_elem_of_fmap)]. eauto.
  - intros [? (a & m & Ham & Hx)]. split; [done|]. exists m.(lpr_accepted). split; [done|].
    apply list_elem_of_fmap. by exists (a, m).
Qed.

(** What the promises report is in [accepted_for], and conversely. *)
Lemma reported_accepted slot s b ps a c (v : V) :
  promises_ok s b ps → a ∈ ps.*1 →
  promised_reports ps a slot = Some (c, v) → mkSlotAccepted slot c v ∈ accepted_for slot ps.
Proof.
  intros [Hnd Hps] [[a' m] [-> Hin]]%list_elem_of_fmap. simpl.
  rewrite (mp_promised_reports_elem _ _ _ Hnd Hin). intros Hr%report_of_some.
  apply elem_of_accepted_for. eauto.
Qed.

Lemma accepted_reported slot s b ps x :
  promises_ok s b ps → x ∈ accepted_for slot ps →
  ∃ a, a ∈ ps.*1 ∧ promised_reports ps a slot = Some (x.(sa_proposal), x.(sa_value)).
Proof.
  intros [Hnd Hps] (<- & a & m & Ham & Hx)%elem_of_accepted_for. exists a. split.
  - apply list_elem_of_fmap. by exists (a, m).
  - rewrite (mp_promised_reports_elem _ _ _ Hnd Ham). apply report_of_elem; [|done].
    by destruct (Hps _ _ Ham) as (_ & ? & _).
Qed.

Lemma pn_max_spec {A} (f : A → ProposalNumber) a l :
  let top := pn_max (f a) (f <$> l) in
  (∃ x, x ∈ a :: l ∧ f x = top) ∧ ∀ x, x ∈ a :: l → (f x ≤ top)%ballot.
Proof.
  split.
  - destruct (pn_max_elem (f a) (f <$> l)) as [Hx|(x & Hx & Hin)%list_elem_of_fmap].
    + exists a. split; [left|done].
    + exists x. split; [by right|done].
  - intros x [->|Hx]%elem_of_cons; apply pn_max_ge; [by left|right]. by apply list_elem_of_fmap_2.
Qed.

(** [adopted_value] finds nothing, the value at the top ballot, or a conflict. *)
Lemma adopted_value_cases slot (ps : list (string * LeaderPromise (V := V))) :
  match adopted_value slot ps with
  | inr None => accepted_for slot ps = []
  | inr (Some h) => h ∈ accepted_for slot ps ∧ ∀ x, x ∈ accepted_for slot ps →
      (x.(sa_proposal) ≤ h.(sa_proposal))%ballot ∧ (x.(sa_proposal) = h.(sa_proposal) →
        x.(sa_value) = h.(sa_value))
  | inl e => exn_cls e = PaxosSafetyViolation ∧ ∃ x y, x ∈ accepted_for slot ps ∧
      y ∈ accepted_for slot ps ∧ x.(sa_proposal) = y.(sa_proposal) ∧ x.(sa_value) ≠ y.(sa_value)
  end.
Proof.
  unfold adopted_value. destruct (accepted_for slot ps) as [|a l] eqn:E; [done|].
  destruct (pn_max_spec sa_proposal a l) as [(t & Ht & Hteq) Hmax].
  set (top := pn_max _ _) in *.
  destruct (filter _ (a :: l)) as [|h rest] eqn:Ef.
  { exfalso. eapply elem_of_nil. rewrite <-Ef. apply list_elem_of_filter. split; [exact Hteq|done]. }
  assert (∀ x, x ∈ h :: rest ↔ sa_proposal x = top ∧ x ∈ a :: l) as Hf
    by (intros x; by rewrite <-Ef, list_elem_of_filter).
  destruct (proj1 (Hf h)) as [Hh Hhin]; [by left|].
  destruct (existsb _ rest) eqn:Ee.
  - apply existsb_exists in Ee as (y & Hy%list_elem_of_In & Hne%negb_true_iff%bool_decide_eq_false).
    destruct (proj1 (Hf y)) as [??]; [by right|]. split; [done|].
    exists y, h. split_and!; [done|done|congruence|done].
  - split; [done|]. intros x Hx. rewrite Hh. split; [by apply Hmax|]. intros Hxt.
    assert (x ∈ h :: rest) as [->|Hin]%elem_of_cons by (by apply Hf); [done|].
    destruct (decide (sa_value x = sa_value h)) as [|Hne]; [done|]. exfalso.
    assert (existsb (λ i, negb (bool_decide (sa_value i = sa_value h))) rest = true); [|congruence].
    apply existsb_exists. exists x. split; [by apply list_elem_of_In|].
    by rewrite bool_decide_eq_false_2.
Qed.

Lemma adopted_allowed slot s b ps o (value : V) :
  promises_ok s b ps → adopted_value slot ps = inr o →
  allowed (promised_reports ps) (list_to_set ps.*1) slot
    match o with Some a => a.(sa_value) | None => value end.
Proof.
  intros Hps Ho. pose proof (adopted_value_cases slot ps) as Hc. rewrite Ho in Hc.
  destruct o as [h|].
  - right. destruct Hc as [Hh Hmax]. destruct (accepted_reported _ _ _ _ _ Hps Hh) as (a & Ha & Hr).
    exists a, h.(sa_proposal). split_and!; [by apply elem_of_list_to_set|done|].
    intros a' c v Ha'%elem_of_list_to_set Hr'.
    destruct (Hmax _ (reported_accepted _ _ _ _ _ _ _ Hps Ha' Hr')). done.
  - left. intros a Ha%elem_of_list_to_set.
    destruct (promised_reports ps a slot) as [[c v]|] eqn:Er; [|done].
    apply (reported_accepted _ _ _ _ _ _ _ Hps Ha) in Er. rewrite Hc in Er. by apply elem_of_nil in Er.
Qed.

(** What the promises of a leader report was proposed. *)
Lemma accepted_proposed w s slot b ps z :
  R w s → promises_ok s b ps → z ∈ accepted_for slot ps →
  (slot, z.(sa_proposal), z.(sa_value)) ∈ s.(proposed).
Proof.
  intros HR Hps Hz. pose proof Hz as (<- & a & m & Ham & Hzm)%elem_of_accepted_for.
  destruct (proj2 Hps _ _ Ham) as (_ & Hnd & Hrep). eapply mp_voted_proposed; [exact HR|].
  eapply (inv_reported _ _ (R_inv _ _ HR)); [exact Hrep|]. by apply report_of_elem.
Qed.

Lemma adopted_conflict w s slot b ps e :
  R w s → promises_ok s b ps → adopted_value slot ps = inl e → ok e.
Proof.
  intros HR Hps He. pose proof (adopted_value_cases slot ps) as Hc. rewrite He in Hc.
  destruct Hc as (Hcls & x & y & Hx & Hy & Heq & Hne).
  pose proof (accepted_proposed _ _ _ _ _ x HR Hps Hx) as Hpx.
  pose proof (accepted_proposed _ _ _ _ _ y HR Hps Hy) as Hpy.
  destruct e as [c msg]. simpl in Hcls. subst c.
  eapply (two_values w s slot (sa_proposal x)); [done..| |exact Hne]. by rewrite Heq.
Qed.
Definition propose_state s slot (b : ProposalNumber) (v : V) : State V :=
  mkState s.(max_bal) s.(reports) ((slot, b, v) :: s.(proposed)) s.(votes).

Lemma lead_promises_ok ch s n last b o : lead_ok ch s n last b o → promises_ok s b o.(promises).
Proof. intros []. by split. Qed.

Lemma mp_propose_step s slot b ps v :
  promises_ok s b ps → quorum_size ids ≤ zlen ps →
  allowed (promised_reports ps) (list_to_set ps.*1) slot v →
  steps s (propose_state s slot b v).
Proof.
  intros [Hnd Hps] Hlen Hall. apply rtc_once. eapply step_propose; [| |exact Hall].
  - split.
    + intros a [[a' m] [-> Hin]]%elem_of_list_to_set%list_elem_of_fmap.
      apply elem_of_list_to_set. by apply (Hps _ _ Hin).
    + rewrite size_list_to_set by done. rewrite length_fmap. exact Hlen.
  - intros a [[a' m] [-> Hin]]%elem_of_list_to_set%list_elem_of_fmap. simpl.
    rewrite (mp_promised_reports_elem _ _ _ Hnd Hin). by apply (Hps _ _ Hin).
Qed.

(** The slot's entry in the leader's tables when it proposes. *)
Definition start_slot slot v (o : MPNode (V := V)) : MPNode :=
  set_leadership o.(leader_ballot) o.(promises) (<[slot := v]> o.(pending))
    (<[slot := ∅]> o.(accepted_by)) o.

Lemma lead_ok_start ch s n last b o slot v :
  lead_ok ch s n last b o → o.(pending) !! slot = None → steps s (propose_state s slot b v) →
  lead_ok ch (propose_state s slot b v) n last b (start_slot slot v o).
Proof.
  intros [] Hnone Hs. split; try done; unfold start_slot; simpl.
  - intros k u [[-> ->]|[_ Hk]]%lookup_insert_Some; [by left|right; auto].
  - intros k u a [[<- <-]|[Hne Hk]]%lookup_insert_Some.
    + rewrite lookup_insert_eq. by intros ?%elem_of_empty.
    + rewrite lookup_insert_ne by done. by apply lo_accepted0.
  - intros k u [[= -> ->]|Hk]%elem_of_cons; [by left; rewrite lookup_insert_eq|].
    destruct (lo_proposed0 k u Hk) as [Hp|]; [|by right].
    left. rewrite lookup_insert_ne; [done|]. intros ->. congruence.
Qed.

Lemma lead_ok_other ch s n last b o slot b' v :
  lead_ok ch s n last b o → b'.(proposer_id) ≠ n → steps s (propose_state s slot b' v) →
  lead_ok ch (propose_state s slot b' v) n last b o.
Proof.
  intros Hl Hb' Hs. pose proof (lo_owner _ _ _ _ _ _ Hl).
  apply (lead_ok_mono ch ch s _ n last); [done| |lia|auto|done].
  intros k u [[= -> -> ->]|Hk]%elem_of_cons; [congruence|done].
Qed.

Lemma mp_R_propose w s n b slot v :
  R w s → (obj w n).(leader_ballot) = Some b → (obj w n).(pending) !! slot = None → 0 < slot →
  (strict = true → w.(objs).(chosen) !! slot = None) → P v → steps s (propose_state s slot b v) →
  R (mkWorld (Σ := MPSig) w.(sim)
       (set_nodes (<[n := start_slot slot v (obj w n)]> w.(objs).(nodes)) w.(objs)))
    (propose_state s slot b v).
Proof.
  intros HR Hb Hnone Hslot Hdis HP Hs. pose proof (R_lead _ _ HR n b Hb) as Hl.
  assert (strict = true → ∀ u, (slot, b, u) ∉ s.(proposed)) as Hnew.
  { intros Hst u Hu. destruct (lo_proposed _ _ _ _ _ _ Hl _ _ Hu) as [?|[l ?]]; [congruence|].
    by rewrite Hdis in *. }
  split; try apply HR.
  - exact (steps_inv quorum _ _ (R_inv _ _ HR) Hs).
  - intros Hst k c u u' [[= -> -> ->]|Hu]%elem_of_cons [Heq|Hu']%elem_of_cons.
    + by simplify_eq.
    + by destruct (Hnew Hst u').
    + simplify_eq. by destruct (Hnew Hst u).
    + by eapply (R_unique _ _ HR).
  - intros k c u [[= -> -> ->]|Hu]%elem_of_cons; [|by eapply R_valid].
    split; [done|]. by apply Hl.
  - intros k c u [[= -> -> ->]|Hu]%elem_of_cons; [done|by eapply R_values].
  - intros n'. pose proof (R_dur _ _ HR n') as []. split; try done.
    intros k c u [[= -> -> ->]|Hp]%elem_of_cons Hc; [|by eapply do_proposed0].
    pose proof (lo_owner _ _ _ _ _ _ Hl). simplify_eq. apply Hl.
  - eapply mp_steps_queue_ok; [exact Hs|apply HR].
  - intros n' b'. rewrite (obj_upd w n (start_slot slot v)). destruct (decide (n' = n)) as [->|Hne].
    + intros Hb''. assert (b' = b) as -> by (unfold start_slot in Hb''; simpl in Hb''; congruence).
      by apply lead_ok_start.
    + intros Hb'. apply lead_ok_other; [by apply (R_lead _ _ HR n')| |done].
      by rewrite (lo_owner _ _ _ _ _ _ Hl).
Qed.

Lemma authority_quorum w s n :
  R w s → has_leader_authority w n = true →
  is_Some (obj w n).(leader_ballot) ∧ quorum_size ids ≤ zlen (obj w n).(promises).
Proof.
  intros HR. unfold has_leader_authority, cluster_size. rewrite (R_ids _ _ HR).
  intros [?%bool_decide_eq_true ?%Z.leb_le]%andb_true_iff. done.
Qed.

(** Sending the accept request for a proposed value. *)
Lemma safely_phase2 {B} n slot b v (k : M _ B) w s :
  R w s → n ∈ ids → (slot, b, v) ∈ s.(proposed) →
  (∀ s' w', R w' s' → safely s' k w') →
  safely s (receive_accept n (mkLeaderAccept slot b v) ;;
            broadcast n (MAccept (mkLeaderAccept slot b v)) ;; k) w.
Proof.
  intros HR Hn Hp Hk. eapply safely_bind; [by apply safely_receive_accept|].
  intros s1 w1 _ Hs1 HR1. eapply safely_bind.
  - apply safely_broadcast; [done|]. simpl. by eapply steps_proposed.
  - intros s2 w2 _ _ HR2. by apply Hk.
Qed.

(** A value a leader adopts was proposed before. *)
Lemma adopted_proposed w s slot b ps a :
  R w s → promises_ok s b ps → adopted_value slot ps = inr (Some a) →
  (slot, a.(sa_proposal), a.(sa_value)) ∈ s.(proposed).
Proof.
  intros HR Hps Ha. pose proof (adopted_value_cases slot ps) as Hc. rewrite Ha in Hc.
  destruct Hc as [Hin _]. by eapply accepted_proposed.
Qed.

Lemma safely_propose n slot v w s :
  R w s → n ∈ ids → (strict = true → w.(objs).(chosen) !! slot = None) → P v →
  safely s (propose n slot v) w.
Proof.
  intros HR Hn Hdis HP. unfold propose.
  apply refines_check; [done|intros _; apply caller; set_solver|intros Hslot%Z.leb_gt].
  apply refines_gets. apply refines_check; [done|intros _; apply caller; set_solver|].
  intros Hauth%negb_false_iff. destruct (authority_quorum _ _ _ HR Hauth) as [[b Hb] Hq].
  apply refines_gets. rewrite Hb.
  apply refines_check; [done|intros _; apply caller; set_solver|].
  intros Hnone%bool_decide_eq_false. apply eq_None_not_Some in Hnone.
  pose proof (R_lead _ _ HR n b Hb) as Hl. pose proof (lead_promises_ok _ _ _ _ _ _ Hl) as Hps.
  apply refines_lift; [done|intros e He; by eapply adopted_conflict|].
  intros adopted Ha. pose proof (adopted_allowed _ _ _ _ _ v Hps Ha) as Hall. cbv zeta.
  set (chosen_value := match adopted with Some _ => _ | None => _ end) in *.
  assert (P chosen_value) as HPc.
  { unfold chosen_value. destruct adopted as [a|]; [|done]. eapply R_values; [exact HR|].
    by eapply adopted_proposed. }
  pose proof (mp_propose_step _ _ _ _ _ Hps Hq Hall) as Hs.
  apply wp_bind, wp_modify. eapply refines_steps; [exact Hs|].
  pose proof (mp_R_propose _ _ _ _ _ chosen_value HR Hb Hnone Hslot Hdis HPc Hs) as HR1.
  unfold start_slot in HR1. set (w1 := mkWorld _ _) in *. clearbody w1.
  apply safely_phase2; [done|done|by left|].
  intros s2 w2 HR2. apply refines_gets. by apply safely_trace.
Qed.

Lemma safely_retry_proposal n slot w s :
  R w s → n ∈ ids → safely s (retry_proposal n slot) w.
Proof.
  intros HR Hn. unfold retry_proposal. do 2 apply refines_gets.
  apply refines_check; [done|intros _; apply caller; set_solver|intros _].
  eapply refines_pure; [eapply wp_mono; [by eapply (wp_promised_ballot _ _ _ (λ _ _, False))|
    intros ? ? H1; exact H1|done]|exact HR|intros p ->].
  apply refines_gets. apply refines_check; [done|intros _; apply caller; set_solver|intros _].
  destruct (leader_ballot (obj w n)) as [b|] eqn:Hb;
    [|apply refines_raise; [done|apply caller; set_solver]].
  destruct (pending (obj w n) !! slot) as [v|] eqn:Hv;
    [|apply refines_raise; [done|apply caller; set_solver]].
  pose proof (lo_pending _ _ _ _ _ _ (R_lead _ _ HR n b Hb) _ _ Hv) as Hp. cbv zeta.
  eapply safely_bind; [by apply safely_receive_accept|]. intros s1 w1 _ Hs1 HR1.
  apply safely_broadcast; [done|]. simpl. by eapply steps_proposed.
Qed.
(** ** Decision recovery *)

Lemma lead_ok_recovery ch s n last b o r g a :
  lead_ok ch s n last b o → lead_ok ch s n last b (set_recovery r g a o).
Proof. by intros []. Qed.

Lemma safely_set_recovery n f w s :
  (∀ o, ∃ r g a, f o = set_recovery r g a o) → R w s → safely s (upd_node n f) w.
Proof.
  intros Hf HR. apply safely_upd_node; [done|]. destruct (Hf (obj w n)) as (r & g & a & ->).
  intros b Hb. apply lead_ok_recovery. by apply (R_lead _ _ HR).
Qed.

Lemma learned_chosen w s n slot l :
  R w s → learned_decision w n slot = Some l →
  l.(sl_slot) = slot ∧ chosen_at quorum s slot l.(sl_proposal) l.(sl_value).
Proof.
  intros HR. unfold learned_decision, learned_map.
  destruct (d_learned (dur w n)) as [m|] eqn:Em; [|done]. simpl.
  by apply (do_learned _ _ _ (R_dur _ _ HR n)).
Qed.

Lemma safely_schedule (m : Message (MPSig (V := V))) delay w s :
  R w s → msg_ok s m.(payload) → m.(dst) ∈ ids → m.(delivery_dst) = None →
  safely s (schedule m delay) w.
Proof.
  intros HR Hm Hd Hdd. apply wp_schedule. intros w' d He _ _.
  exists s. split; [done|]. split; [|done]. eapply mp_R_ext; [exact He| |exact HR].
  by intros x ->%list_elem_of_singleton.
Qed.

Lemma safely_retry_recovery n w s : R w s → n ∈ ids → safely s (retry_recovery n) w.
Proof.
  intros HR Hn. unfold retry_recovery. apply refines_gets.
  destruct (recovery (obj w n)) as [start|]; [|by apply safely_intro]. apply refines_gets.
  case_bool_decide; [apply safely_set_recovery; [by eauto|done]|].
  destruct (_ =? RECOVERY_ATTEMPTS).
  - eapply safely_bind; [apply safely_set_recovery; [by eauto|done]|].
    intros s1 w1 _ _ HR1. apply refines_gets. by apply safely_trace.
  - eapply safely_bind; [apply safely_set_recovery; [by eauto|done]|].
    intros s1 w1 _ _ HR1. apply refines_gets. eapply safely_bind.
    + apply safely_send_all; [done|done|]. intros x. rewrite elem_of_sorted_str. by apply (mp_peers_ids w1 s1).
    + intros s2 w2 _ _ HR2. by apply safely_schedule.
Qed.

Lemma safely_recover_decisions n start w s :
  R w s → n ∈ ids → safely s (recover_decisions n start) w.
Proof.
  intros HR Hn. unfold recover_decisions.
  apply refines_check; [done|intros _; apply caller; set_solver|intros _]. apply refines_gets.
  destruct (_ || _); [by apply safely_intro|]. apply refines_gets.
  apply refines_check; [done|intros _; apply caller; set_solver|intros _]. apply refines_gets.
  case_bool_decide; [by apply safely_intro|].
  eapply safely_bind; [apply safely_set_recovery; [by eauto|done]|].
  intros s1 w1 _ _ HR1. by apply safely_retry_recovery.
Qed.

(** A pure check in front of a computation. *)
Lemma safely_pure {A} (m : M _ unit) (k : unit → M _ A) w s :
  wp m (λ w' _, w' = w) (λ _ _, False) w → R w s → safely s (k tt) w → safely s (bind m k) w.
Proof.
  intros Hm HR Hk. eapply (refines_pure _ _ _ _ _ _ (λ _, True)); [|exact HR|by intros []].
  eapply wp_mono; [exact Hm|by auto|done].
Qed.

Lemma safely_recovery_request n requester start w s :
  R w s → requester ∈ ids → safely s (receive_recovery_request n requester start) w.
Proof.
  intros HR Hr. unfold receive_recovery_request.
  destruct (negb _); [by apply safely_intro|]. apply refines_gets.
  assert (∀ d, d ∈ omap (learned_decision w n) (zrange start (start + RECOVERY_WINDOW)) →
    chosen_at quorum s d.(sl_slot) d.(sl_proposal) d.(sl_value)) as Hds.
  { intros d (slot & _ & Hd)%list_elem_of_omap. destruct (learned_chosen _ _ _ _ _ HR Hd).
    by subst slot. }
  apply safely_pure; [|done|by apply safely_send].
  apply wp_for_each_pure. intros d Hd. eapply wp_require_evidence; [exact HR|by apply Hds].
Qed.

Lemma safely_recovery_response n start ds w s :
  R w s → (∀ d, d ∈ ds → chosen_at quorum s d.(sl_slot) d.(sl_proposal) d.(sl_value)) →
  safely s (receive_recovery_response n start ds) w.
Proof.
  intros HR Hds. unfold receive_recovery_response.
  destruct (_ || _); [by apply safely_intro|]. apply refines_gets.
  destruct (negb _); [by apply safely_intro|].
  apply safely_pure; [|done|].
  - apply wp_for_each_pure. intros d Hd. apply wp_bind, wp_gets, wp_bind.
    apply wp_raise_if; [|intros _; eapply wp_require_evidence; [exact HR|by apply Hds]].
    destruct (learned_decision w n (sl_slot d)) as [c|] eqn:Ec; [|done].
    intros Hne%negb_true_iff%bool_decide_eq_false. apply Hne.
    destruct (learned_chosen _ _ _ _ _ HR Ec). eapply mp_R_agree; [done..|by apply Hds].
  - apply (safely_for_each _ _ _ _ _ _
      (λ s (d : SlotLearnedDecision V), chosen_at quorum s d.(sl_slot) d.(sl_proposal) d.(sl_value)));
      [done|by apply Hds| |].
    + intros s1 s2 d Hs Hc. by eapply steps_chosen.
    + intros s1 w1 d _ HR1 Hd. by apply safely_receive_decision.
Qed.

(** ** Delivery, crash and restart *)

Lemma member_true w s n : R w s → member w n = true → n ∈ ids.
Proof. intros HR. rewrite (member_ids _ _ _ HR). apply bool_decide_eq_true. Qed.

Lemma safely_handle_message n (m : Message (MPSig (V := V))) w s :
  R w s → n ∈ ids → msg_ok s m.(payload) → m.(dst) = n → safely s (handle_message n m) w.
Proof.
  intros HR Hn Hm Hdst. unfold handle_message.
  apply refines_guard; [by rewrite Hdst, String.eqb_refl|].
  destruct (payload m) as [p|p|p|p|p|start|start ds|g a|ty]; simpl in Hm; [| | | | | | | |done].
  - apply refines_gets. destruct (_ || _); [by apply safely_intro|by apply safely_receive_prepare].
  - destruct (negb _); [by apply safely_intro|by apply safely_receive_promise].
  - apply refines_gets. destruct (_ || _); [by apply safely_intro|by apply safely_receive_accept].
  - destruct Hm. destruct (negb _); [by apply safely_intro|by apply safely_receive_accepted].
  - apply refines_gets. destruct (_ || _); [by apply safely_intro|by apply safely_receive_decision].
  - apply refines_gets. destruct (_ || _) eqn:Hskip; [by apply safely_intro|].
    apply orb_false_iff in Hskip as [_ Hsrc%negb_false_iff%bool_decide_eq_true].
    apply safely_recovery_request; [done|]. by eapply mp_peers_ids.
  - apply refines_gets. destruct (_ || _); [by apply safely_intro|by apply safely_recovery_response].
  - apply refines_gets. destruct (_ && _); [by apply safely_retry_recovery|by apply safely_intro].
Qed.

Lemma safely_handle_crash n w s : R w s → safely s (handle_crash n) w.
Proof. intros HR. by apply safely_upd_node. Qed.

Lemma safely_handle_restart n w s : R w s → safely s (handle_restart n) w.
Proof.
  intros HR. unfold handle_restart. eapply safely_bind; [by apply safely_handle_crash|].
  intros s1 w1 _ _ HR1. by apply safely_trace.
Qed.

(** Updates of the parts of the simulator that [R] does not mention. *)
Lemma mp_R_sim w s (st : Sim (MPSig (V := V))) :
  st.(persistent_state) = w.(sim).(persistent_state) → st.(queue) ⊆ w.(sim).(queue) →
  st.(handlers) = w.(sim).(handlers) → st.(crash_handlers) = w.(sim).(crash_handlers) →
  st.(restart_handlers) = w.(sim).(restart_handlers) →
  R w s → R (mkWorld (Σ := MPSig) st w.(objs)) s.
Proof.
  intros Hp Hq Hh Hc Hr HR.
  assert (∀ n, dur (mkWorld (Σ := MPSig) st w.(objs)) n = dur w n) as Hd.
  { intros n. unfold dur, durable. simpl. by rewrite Hp. }
  split; try apply HR; simpl.
  - intros n. rewrite Hd. apply HR.
  - intros x Hx. eapply R_queue; [exact HR|]. by apply Hq.
  - intros n b Hb. rewrite Hd. by apply (R_lead _ _ HR n b).
  - rewrite Hh. apply HR.
  - rewrite Hc. apply HR.
  - rewrite Hr. apply HR.
  - rewrite Hh. apply HR.
Qed.

Lemma safely_upd_sim w s (f : Sim (MPSig (V := V)) → Sim MPSig) :
  (∀ st, (f st).(persistent_state) = st.(persistent_state)) →
  (∀ st, (f st).(queue) = st.(queue)) → (∀ st, (f st).(handlers) = st.(handlers)) →
  (∀ st, (f st).(crash_handlers) = st.(crash_handlers)) →
  (∀ st, (f st).(restart_handlers) = st.(restart_handlers)) →
  R w s → safely s (upd_sim f) w.
Proof.
  intros Hp Hq Hh Hc Hr HR. apply wp_upd_sim. exists s. split; [done|]. split; [|done].
  apply mp_R_sim; auto. by rewrite Hq.
Qed.

Hypothesis Hreg : ids ⊆ reg.

Lemma safely_deliver x rest w s :
  R w s → w.(sim).(queue) = x :: rest →
  safely s (deliver_event (Σ := MPSig) handle_message x)
    (mkWorld (Σ := MPSig) (set_queue rest w.(sim)) w.(objs)).
Proof.
  intros HR Hq. destruct (R_queue _ _ HR x) as (Hx & Hdst & Hddst); [rewrite Hq; by left|].
  assert (R (mkWorld (Σ := MPSig) (set_queue rest w.(sim)) w.(objs)) s) as HR'.
  { apply mp_R_sim; try done. simpl. rewrite Hq. set_solver. }
  unfold deliver_event. eapply safely_bind; [by apply safely_upd_sim|]. intros s1 w1 _ Hs1 HR1.
  apply refines_gets. destruct (negb _); [by apply safely_record|].
  apply refines_gets. unfold endpoint. rewrite Hddst.
  destruct (R_reg _ _ HR1 (dst (sd_message x))) as [h Eh]; [by apply Hreg|]. rewrite Eh.
  destruct (R_handlers _ _ HR1 _ _ Eh) as (-> & Hin & _).
  eapply safely_bind; [by apply safely_record|]. intros s2 w2 _ Hs2 HR2.
  apply safely_handle_message; [done..| |done].
  eapply mp_steps_msg_ok; [exact Hs2|]. by eapply mp_steps_msg_ok.
Qed.

Definition follows s w : Prop := ∃ s', steps s s' ∧ R w s'.

Lemma safely_loop (m : M _ Z) w s :
  wp m (λ w' _, follows s w') (λ w' e, follows s w' ∧ ok e) w → safely s m w.
Proof.
  intros Hm. eapply wp_mono; [exact Hm| |done]. intros w' a (s' & ? & ?). by exists s'.
Qed.

Lemma deliver_follows s w x rest :
  follows s w → w.(sim).(queue) = x :: rest →
  wp (deliver_event (Σ := MPSig) handle_message x) (λ w' _, follows s w')
    (λ w' e, follows s w' ∧ ok e) (mkWorld (Σ := MPSig) (set_queue rest w.(sim)) w.(objs)).
Proof.
  intros (s1 & Hs1 & HR1) Hq. eapply wp_mono; [by eapply safely_deliver| |].
  - intros w' a (s' & ? & ? & _). exists s'. split; [by etrans|done].
  - intros w' e [(s' & ? & ?) ?]. split; [|done]. exists s'. split; [by etrans|done].
Qed.

Lemma safely_run fuel k w s : R w s → safely s (mp_run fuel k) w.
Proof.
  intros HR. unfold mp_run, run.
  apply refines_check; [done|intros _; apply caller; set_solver|intros _].
  apply safely_loop, wp_run_loop; [| |by exists s].
  - intros w1 msg Hw1. split; [done|apply caller; set_solver].
  - intros w1 x rest Hw1 Hq. by apply deliver_follows.
Qed.

Lemma safely_run_until fuel t w s : R w s → safely s (mp_run_until fuel t) w.
Proof.
  intros HR. unfold mp_run_until, run_until_time. apply refines_gets.
  apply refines_check; [done|intros _; apply caller; set_solver|intros _].
  eapply safely_bind.
  - apply safely_loop, wp_run_until_loop; [| |by exists s].
    + intros w1 msg Hw1. split; [done|apply caller; set_solver].
    + intros w1 x rest Hw1 Hq. by apply deliver_follows.
  - intros s1 w1 n _ HR1. eapply safely_bind; [by apply safely_upd_sim|].
    intros s2 w2 _ _ HR2. by apply refines_ret.
Qed.
(** ** Crash, restart and the network methods *)

Lemma safely_set_volatile n f w s : R w s → safely s (set_volatile (Σ := MPSig) n f) w.
Proof. intros HR. exists s. split; [done|]. split; [|done]. by apply mp_R_sim. Qed.

Lemma safely_validate_node n w s : R w s → safely s (validate_node (Σ := MPSig (V := V)) n) w.
Proof.
  intros HR. apply refines_gets, wp_raise_if; intros _; [|by apply safely_intro].
  split; [by exists s|apply caller; set_solver].
Qed.

Lemma safely_crash n w s : R w s → safely s (mp_crash n) w.
Proof.
  intros HR. unfold mp_crash, crash.
  eapply safely_bind; [by apply safely_validate_node|]. intros s1 w1 _ _ HR1.
  eapply safely_bind; [by apply safely_upd_sim|]. intros s2 w2 _ _ HR2.
  eapply safely_bind; [by apply safely_record|]. intros s3 w3 _ _ HR3.
  apply refines_gets. eapply safely_bind.
  - destruct (crash_handlers _ !! n) as [h|]; [by apply safely_handle_crash|by apply safely_intro].
  - intros s4 w4 _ _ HR4. by apply safely_set_volatile.
Qed.

Lemma safely_restart n w s : R w s → safely s (mp_restart n) w.
Proof.
  intros HR. unfold mp_restart, restart.
  eapply safely_bind; [by apply safely_validate_node|]. intros s1 w1 _ _ HR1.
  eapply safely_bind; [by apply safely_upd_sim|]. intros s2 w2 _ _ HR2.
  eapply safely_bind; [by apply safely_set_volatile|]. intros s3 w3 _ _ HR3.
  eapply safely_bind; [by apply safely_record|]. intros s4 w4 _ _ HR4. apply refines_gets.
  destruct (restart_handlers _ !! n) as [h|]; [by apply safely_handle_restart|by apply safely_intro].
Qed.

Lemma mp_R_net_ext w w' s : net_ext w w' → R w s → R w' s.
Proof.
  intros He HR.
  assert (w' = mkWorld (Σ := MPSig) w'.(sim) w.(objs)) as ->.
  { rewrite <-(ne_objs _ _ He). by destruct w'. }
  apply mp_R_sim; try apply He; [|done]. by rewrite (ne_queue _ _ He).
Qed.

Lemma safely_net_only (m : M _ unit) w s : net_only m → R w s → safely s m w.
Proof.
  intros Hm HR. apply safely_wp. eapply wp_mono; [apply Hm| |].
  - intros w' a He. exact (mp_R_net_ext _ _ _ He HR).
  - intros w' e [He Hc]. split; [exact (mp_R_net_ext _ _ _ He HR)|]. apply Hok.
    unfold call_error. rewrite Hc. set_solver.
Qed.

(** ** Durable evidence collected from the disks *)

Lemma wp_validate_learned n w s E :
  R w s → wp (validate_durable_learned n) (λ w' _, w' = w) E w.
Proof.
  intros HR. unfold validate_durable_learned. apply wp_bind, wp_gets.
  destruct (d_learned (dur w n)) as [m|] eqn:Em; [|done].
  apply wp_for_each_pure. intros [k l] Hin. apply elem_of_map_to_list in Hin.
  destruct (do_learned _ _ _ (R_dur _ _ HR n) _ _ _ Em Hin) as [Hk Hc].
  destruct (chosen_valid _ _ _ _ _ HR Hc) as [Hpos Hb].
  apply wp_bind, wp_raise_if; [|intros _; by eapply wp_validate_ballot].
  simpl. unfold valid_slot. rewrite Hk, bool_decide_eq_true_2 by done.
  by rewrite (proj2 (Z.ltb_lt _ _) Hpos).
Qed.

Lemma wp_validate_entries n m h w s E :
  R w s → h ⊆ (dur w n).(d_history) →
  (∀ slot b v, m !! (slot, b) = Some v → (slot, b, n, v) ∈ s.(votes)) →
  wp (validate_history n m h) (λ w' _, w' = w) E w.
Proof.
  intros HR. revert m. induction h as [|a h IH]; intros m Hh Hm; simpl; [done|].
  assert (a ∈ d_history (dur w n)) as Ha by (apply Hh; by left).
  apply wp_bind. eapply wp_mono; [by eapply wp_validate_accepted| |done]. intros w1 x ->.
  pose proof (history_vote _ _ _ _ HR Ha) as Hv.
  apply wp_bind, wp_raise_if; [|intros _].
  { destruct (m !! _) as [v|] eqn:Ev; [|done]. intros Hne%negb_true_iff%bool_decide_eq_false.
    exfalso. apply Hne. eapply (inv_one_vote _ _ (R_inv _ _ HR)); [by apply Hm|exact Hv]. }
  apply IH; [intros y Hy; apply Hh; by right|].
  intros slot b v [[[= <- <-] <-]|[_ Hl]]%lookup_insert_Some; [done|by apply Hm].
Qed.

Lemma wp_validate_history n w s E :
  R w s → wp (validate_durable_history n) (λ w' _, w' = w) E w.
Proof.
  intros HR. unfold validate_durable_history.
  apply wp_bind. eapply wp_mono; [by eapply wp_validate_learned| |done]. intros w1 x ->.
  apply wp_bind, wp_gets. eapply wp_validate_entries; [exact HR|done|].
  intros slot b v. by rewrite lookup_empty.
Qed.

Local Abbreviation Entries := (list (Z * list (Entry (V := V)))).

Definition records_of (slot : Z) (by_slot : Entries) : list (Entry (V := V)) :=
  default [] (assoc_get slot by_slot).

Lemma records_of_add n (by_slot : Entries) a slot :
  records_of slot (add_entry n by_slot a) =
    records_of slot by_slot ++
    (if decide (slot = a.(sa_slot)) then [(a.(sa_proposal), a.(sa_value), n)] else []).
Proof.
  unfold records_of, add_entry. rewrite assoc_get_set. case_decide as Hs; [by subst|].
  by rewrite app_nil_r.
Qed.

Lemma records_of_history n h (by_slot : Entries) slot b v x :
  (b, v, x) ∈ records_of slot (foldl (add_entry n) by_slot h) ↔
    (b, v, x) ∈ records_of slot by_slot ∨ (x = n ∧ mkSlotAccepted slot b v ∈ h).
Proof.
  revert by_slot. induction h as [|a h IH]; intros by_slot; simpl.
  - rewrite elem_of_nil. naive_solver.
  - rewrite IH, records_of_add, elem_of_app, elem_of_cons. destruct a as [k c u]; simpl.
    case_decide; rewrite ?list_elem_of_singleton, ?elem_of_nil; naive_solver.
Qed.

Lemma add_history_nodup n h (by_slot : Entries) :
  NoDup by_slot.*1 → NoDup (foldl (add_entry n) by_slot h).*1.
Proof.
  revert by_slot. induction h as [|a h IH]; intros by_slot Hnd; simpl; [done|].
  apply IH. by apply assoc_set_nodup.
Qed.

Lemma mp_wp_collect l (by_slot : Entries) w s E :
  R w s → NoDup by_slot.*1 →
  wp (collect_by_slot l by_slot) (λ w' r, w' = w ∧ NoDup r.*1 ∧ ∀ slot b v x,
    (b, v, x) ∈ records_of slot r ↔ (b, v, x) ∈ records_of slot by_slot
      ∨ (x ∈ l ∧ mkSlotAccepted slot b v ∈ (dur w x).(d_history))) E w.
Proof.
  intros HR. revert by_slot. induction l as [|n l IH]; intros by_slot Hnd; simpl.
  { apply wp_ret. split_and!; [done..|]. intros slot b v x. rewrite elem_of_nil. tauto. }
  apply wp_bind. eapply wp_mono; [by eapply wp_validate_history| |done]. intros w1 y ->.
  apply wp_bind, wp_gets.
  eapply wp_mono; [apply IH; by apply add_history_nodup| |done].
  intros w1 r (-> & Hr & Hrec). split_and!; [done..|]. intros slot b v x.
  rewrite Hrec, records_of_history, elem_of_cons. split.
  - intros [[?|[-> ?]]|[? ?]]; auto.
  - intros [?|[[->|?] ?]]; auto.
Qed.

(** The records collected from all disks of the cluster. *)
Definition collected w (by_slot : Entries) : Prop :=
  NoDup by_slot.*1 ∧ ∀ slot b v x, (b, v, x) ∈ records_of slot by_slot ↔
    x ∈ ids ∧ mkSlotAccepted slot b v ∈ (dur w x).(d_history).

Lemma wp_collect_all w s E :
  R w s → wp (collect_by_slot ids []) (λ w' r, w' = w ∧ collected w r) E w.
Proof.
  intros HR. eapply wp_mono; [apply (mp_wp_collect ids [] w s E HR); constructor| |done].
  intros w' r (-> & Hnd & Hr). split; [done|]. split; [done|]. intros slot b v x. rewrite Hr.
  unfold records_of. simpl. rewrite elem_of_nil. tauto.
Qed.

Lemma elem_of_supporters (records : list (Entry (V := V))) b v x :
  x ∈ supporters records b v ↔ (b, v, x) ∈ records.
Proof.
  unfold supporters. rewrite elem_of_list_to_set, list_elem_of_omap. split.
  - intros ([[c u] y] & Hin & Heq). simpl in Heq. case_decide; naive_solver.
  - intros Hin. exists (b, v, x). split; [done|]. simpl. by rewrite decide_True.
Qed.

Lemma has_quorum_chosen w s by_slot slot b v :
  R w s → collected w by_slot →
  has_quorum (quorum_size ids) (records_of slot by_slot) b v = true ↔ chosen_at quorum s slot b v.
Proof.
  intros HR [_ Hrec]. unfold has_quorum. rewrite Z.leb_le. split.
  - intros Hsize. eexists. split; [split; [|exact Hsize]|].
    + intros x Hx%elem_of_supporters%Hrec. apply elem_of_list_to_set. apply Hx.
    + intros x Hx%elem_of_supporters%Hrec. apply (do_votes _ _ _ (R_dur _ _ HR x)). apply Hx.
  - intros (Q & [Hsub Hsize] & HQ).
    assert (Q ⊆ supporters (records_of slot by_slot) b v) as Hle%subseteq_size; [|lia].
    intros x Hx. apply elem_of_supporters, Hrec. split.
    + by apply (elem_of_list_to_set (C := gset string)), Hsub.
    + by apply (do_votes _ _ _ (R_dur _ _ HR x)), HQ.
Qed.

Lemma chosen_record w s by_slot slot b v :
  R w s → collected w by_slot → chosen_at quorum s slot b v →
  ∃ x, (b, v, x) ∈ records_of slot by_slot.
Proof.
  intros HR [_ Hrec] (Q & HQ & Hv). destruct (quorum_inhabited _ _ HQ) as [x Hx].
  exists x. apply Hrec. split.
  - destruct HQ as [Hsub _]. by apply (elem_of_list_to_set (C := gset string)), Hsub.
  - by apply (do_votes _ _ _ (R_dur _ _ HR x)), Hv.
Qed.

Lemma collected_lookup w by_slot slot recs :
  collected w by_slot → (slot, recs) ∈ by_slot → recs = records_of slot by_slot.
Proof. intros [Hnd _] Hin. unfold records_of. by rewrite (elem_assoc_get _ _ _ Hnd Hin). Qed.

Lemma records_slot (slot : Z) (by_slot : Entries) e :
  e ∈ records_of slot by_slot → slot ∈ by_slot.*1.
Proof.
  unfold records_of. destruct (assoc_get slot by_slot) as [recs|] eqn:E; [intros _|by intros ?%elem_of_nil].
  apply list_elem_of_fmap. exists (slot, recs). split; [done|by apply assoc_get_elem].
Qed.
(** ** The cluster-wide checks find nothing *)

Lemma mp_elem_of_candidates w s by_slot slot v :
  R w s → collected w by_slot →
  v ∈ quorum_candidates (quorum_size ids) (records_of slot by_slot) ↔
    ∃ b, chosen_at quorum s slot b v.
Proof.
  intros HR Hc. unfold quorum_candidates. rewrite list_elem_of_omap. split.
  - intros ([[b u] x] & Hin & He). simpl in He.
    destruct (has_quorum _ _ _ _) eqn:Hq; [|done]. simplify_eq.
    exists b. by apply (has_quorum_chosen w s by_slot).
  - intros [b Hb]. destruct (chosen_record _ _ _ _ _ _ HR Hc Hb) as [x Hx].
    exists (b, v, x). split; [done|]. simpl.
    by rewrite (proj2 (has_quorum_chosen _ _ _ _ _ _ HR Hc) Hb).
Qed.

Lemma all_equal_head_true (l : list V) : (∀ x y, x ∈ l → y ∈ l → x = y) → all_equal_head l = true.
Proof.
  destruct l as [|v l]; intros Hl; simpl; [done|]. apply forallb_forall.
  intros x Hx%list_elem_of_In. apply bool_decide_eq_true. apply Hl; [by right|by left].
Qed.

Lemma candidates_agree w s by_slot slot x y :
  R w s → collected w by_slot →
  x ∈ quorum_candidates (quorum_size ids) (records_of slot by_slot) →
  y ∈ quorum_candidates (quorum_size ids) (records_of slot by_slot) → x = y.
Proof.
  intros HR Hc [b Hx]%(mp_elem_of_candidates _ _ _ _ _ HR Hc)
    [b' Hy]%(mp_elem_of_candidates _ _ _ _ _ HR Hc).
  by eapply mp_R_agree.
Qed.

Lemma wp_check_slots l by_slot qv w s E :
  R w s → collected w by_slot → l ⊆ by_slot →
  wp (check_slots (quorum_size ids) l qv) (λ w' r, w' = w ∧ ∀ slot b v,
    chosen_at quorum s slot b v → slot ∈ l.*1 ∨ qv !! slot = Some v → r !! slot = Some v) E w.
Proof.
  intros HR Hc. revert qv. induction l as [|[slot recs] l IH]; intros qv Hl; simpl.
  { apply wp_ret. split; [done|]. intros slot b v _ [?%elem_of_nil|?]; done. }
  assert (recs = records_of slot by_slot) as ->.
  { eapply collected_lookup; [exact Hc|]. apply Hl. by left. }
  apply wp_bind, wp_raise_if; [|intros _].
  { rewrite all_equal_head_true; [done|]. intros x y. by eapply candidates_agree. }
  apply wp_bind, wp_gets, wp_bind, wp_raise_if; [|intros _].
  { destruct (chosen _ !! slot) as [c|] eqn:Ech; [|done].
    destruct (quorum_candidates _ _) as [|v k] eqn:Ek; [done|].
    intros Hne%negb_true_iff%bool_decide_eq_false. exfalso. apply Hne.
    destruct (R_chosen _ _ HR _ _ Ech) as [_ Hcc].
    assert (v ∈ quorum_candidates (quorum_size ids) (records_of slot by_slot)) as Hv
      by (rewrite Ek; by left).
    apply (mp_elem_of_candidates _ _ _ _ _ HR Hc) in Hv as [b Hv]. by eapply mp_R_agree. }
  eapply wp_mono; [apply IH; intros x Hx; apply Hl; by right| |done].
  intros w' r (-> & Hr). split; [done|]. intros k b v Hkv Hor. apply (Hr k b v Hkv).
  assert (v ∈ quorum_candidates (quorum_size ids) (records_of k by_slot)) as Hv
    by (apply (mp_elem_of_candidates _ _ _ _ _ HR Hc); by exists b).
  destruct (decide (k = slot)) as [->|Hne].
  - right. destruct (quorum_candidates _ _) as [|u q] eqn:Ek; [by apply elem_of_nil in Hv|].
    rewrite lookup_insert_eq. f_equal.
    eapply (candidates_agree w s by_slot slot); [done|done|rewrite Ek; by left|by rewrite Ek].
  - destruct Hor as [[?|Hin]%elem_of_cons|Hq]; [done|by left|right].
    destruct (quorum_candidates _ _); [done|]. by rewrite lookup_insert_ne.
Qed.

Lemma learned_decisions_chosen w s n d :
  R w s → d ∈ learned_decisions w n → chosen_at quorum s d.(sl_slot) d.(sl_proposal) d.(sl_value).
Proof.
  intros HR (k & _ & Hk)%list_elem_of_omap.
  destruct (learned_chosen _ _ _ _ _ HR Hk) as [<- ?]. done.
Qed.

Lemma wp_assert_safety w s E : R w s → wp assert_safety (λ w' _, w' = w) E w.
Proof.
  intros HR. unfold assert_safety. apply wp_bind, wp_gets. rewrite (R_ids _ _ HR).
  apply wp_bind. eapply wp_mono; [by eapply wp_collect_all| |done]. intros w1 by_slot (-> & Hc).
  apply wp_bind, wp_gets. unfold cluster_size. rewrite (R_ids _ _ HR).
  apply wp_bind. eapply wp_mono; [by eapply wp_check_slots| |done]. intros w1 qv (-> & Hqv).
  apply wp_for_each_pure. intros n _. apply wp_bind, wp_gets.
  apply wp_for_each_pure. intros d Hd. pose proof (learned_decisions_chosen _ _ _ _ HR Hd) as Hdc.
  apply wp_bind, wp_raise_if; [|intros _; by eapply wp_require_evidence].
  rewrite bool_decide_eq_true_2; [done|]. eapply Hqv; [exact Hdc|]. left.
  destruct (chosen_record _ _ _ _ _ _ HR Hc Hdc) as [x Hx]. by eapply records_slot.
Qed.

(** ** Recovering the chosen slots *)

Lemma elem_of_evidence q (records l : list (Entry (V := V))) acc e :
  e ∈ foldl (λ acc (e : Entry), if has_quorum q records e.1.1 e.1.2 && negb (bool_decide (e.1 ∈ acc))
        then acc ++ [e.1] else acc) acc l ↔
  e ∈ acc ∨ (has_quorum q records e.1 e.2 = true ∧ ∃ x, (e, x) ∈ l).
Proof.
  revert acc. induction l as [|[[b v] y] l IH]; intros acc; simpl.
  { setoid_rewrite elem_of_nil. naive_solver. }
  rewrite IH. clear IH. setoid_rewrite elem_of_cons.
  destruct (has_quorum q records b v) eqn:Hq; simpl; [case_bool_decide as Hin; simpl|].
  - split; [naive_solver|]. intros [?|[? [x [[= ->]|?]]]]; eauto.
  - rewrite elem_of_app, list_elem_of_singleton. split.
    + intros [[?| ->]|(? & x & ?)]; eauto.
    + intros [?|[? [x [[= ->]|?]]]]; eauto.
  - split; [naive_solver|]. intros [?|[Hq' [x [[= ->]|?]]]]; [by left|simpl in *; congruence|eauto].
Qed.

Lemma evidence_chosen w s by_slot slot b v :
  R w s → collected w by_slot →
  (b, v) ∈ quorum_evidence (quorum_size ids) (records_of slot by_slot) ↔ chosen_at quorum s slot b v.
Proof.
  intros HR Hc. unfold quorum_evidence. rewrite elem_of_evidence, elem_of_nil. simpl.
  rewrite (has_quorum_chosen _ _ _ _ _ _ HR Hc). split; [by intros [?|[? _]]|].
  intros Hb. right. split; [done|]. by eapply chosen_record.
Qed.

(** The evidence of one slot: its ballots, with the one chosen value. *)
Lemma wp_recover_slot slot by_slot w s E :
  R w s → collected w by_slot →
  wp (recover_slot (quorum_size ids) slot (records_of slot by_slot)) (λ w' _, R w' s
    ∧ (∀ n, dur w' n = dur w n) ∧ (∀ k, is_Some (w.(objs).(chosen) !! k) → is_Some (w'.(objs).(chosen) !! k))
    ∧ (∀ b v, chosen_at quorum s slot b v → is_Some (w'.(objs).(chosen) !! slot))) E w.
Proof.
  intros HR Hc. pose proof (λ b v, evidence_chosen w s by_slot slot b v HR Hc) as Hev.
  unfold recover_slot. destruct (quorum_evidence _ _) as [|[b v] rest] eqn:Ee.
  { apply wp_ret. split_and!; [done..|]. intros b v Hb%Hev. by apply elem_of_nil in Hb. }
  assert (∀ x, x ∈ v :: rest.*2 → x = v) as Hsame.
  { intros x Hx. assert (∃ c, (c, x) ∈ (b, v) :: rest) as [c Hcx].
    { apply elem_of_cons in Hx as [->|([c y] & -> & Hin)%list_elem_of_fmap];
        [exists b; by left|exists c; by right]. }
    eapply mp_R_agree; [done|by apply Hev|apply Hev; by left]. }
  apply wp_bind, wp_raise_if; [|intros _].
  { rewrite all_equal_head_true; [done|]. intros x y ->%Hsame ->%Hsame. done. }
  cbv zeta. set (top := pn_max b rest.*1).
  assert (chosen_at quorum s slot top v) as Htop.
  { apply Hev. destruct (pn_max_elem b rest.*1) as [Hb|([c y] & Hcy & Hin)%list_elem_of_fmap];
      unfold top; [rewrite Hb; by left|].
    rewrite Hcy. right. simpl. rewrite <-(Hsame y); [done|].
    right. by apply (list_elem_of_fmap_2 snd) in Hin. }
  rewrite (new_decision_chosen _ _ _ _ _ HR Htop). apply wp_bind, wp_lift, wp_bind, wp_modify.
  apply wp_record. intros w' He _ _.
  assert (w'.(objs) = set_chosen (<[slot := mkSlotLearned slot top v]> w.(objs).(chosen)) w.(objs))
    as Ho by apply He.
  split_and!.
  - eapply mp_R_ext; [exact He| |by apply R_record_chosen]. intros x []%elem_of_nil.
  - intros n. exact (sim_ext_durable _ _ _ n He).
  - intros k Hk. rewrite Ho. simpl. destruct (decide (k = slot)) as [->|Hne];
      [by rewrite lookup_insert_eq|by rewrite lookup_insert_ne].
  - intros _ _ _. rewrite Ho. simpl. by rewrite lookup_insert_eq.
Qed.

Lemma collected_dur w w' by_slot :
  (∀ n, dur w' n = dur w n) → collected w by_slot → collected w' by_slot.
Proof.
  intros Hd [Hnd Hr]. split; [done|]. intros slot b v x. by rewrite Hr, Hd.
Qed.

Lemma wp_recover_slots l by_slot w s E :
  R w s → collected w by_slot → l ⊆ by_slot →
  wp (for_each l (λ e, recover_slot (quorum_size ids) e.1 e.2)) (λ w' _, R w' s
    ∧ ∀ slot b v, chosen_at quorum s slot b v →
        slot ∈ l.*1 ∨ is_Some (w.(objs).(chosen) !! slot) → is_Some (w'.(objs).(chosen) !! slot)) E w.
Proof.
  revert w. induction l as [|[slot recs] l IH]; intros w HR Hc Hl; simpl.
  { apply wp_ret. split; [done|]. intros k b v _ [?%elem_of_nil|?]; done. }
  assert (recs = records_of slot by_slot) as ->.
  { eapply collected_lookup; [exact Hc|]. apply Hl. by left. }
  apply wp_bind. eapply wp_mono; [by eapply wp_recover_slot| |done].
  intros w1 a (HR1 & Hd & Hkeep & Hnew).
  eapply wp_mono; [apply (IH w1 HR1); [by eapply collected_dur|]| |done].
  { intros x Hx. apply Hl. by right. }
  intros w2 a2 (HR2 & Hw2). split; [done|]. intros k b v Hk [[->|?]%elem_of_cons|?]; eauto.
Qed.

(** Recovery records exactly the slots chosen on the disks, and never raises. *)
Lemma wp_recover_chosen w s E :
  R w s →
  wp recover_chosen (λ w' _, R w' s ∧ ∀ slot b v, chosen_at quorum s slot b v →
    is_Some (w'.(objs).(chosen) !! slot)) E w.
Proof.
  intros HR. unfold recover_chosen. apply wp_bind, wp_gets. rewrite (R_ids _ _ HR).
  apply wp_bind. eapply wp_mono; [by eapply wp_collect_all| |done]. intros w1 by_slot (-> & Hc).
  apply wp_bind, wp_gets. unfold cluster_size. rewrite (R_ids _ _ HR).
  apply wp_bind. eapply wp_mono; [by eapply wp_recover_slots| |done]. intros w1 a [HR1 Hw1].
  eapply wp_mono; [by eapply wp_assert_safety| |done]. intros w2 a2 ->. split; [done|].
  intros slot b v Hb. eapply Hw1; [exact Hb|]. left.
  destruct (chosen_record _ _ _ _ _ _ HR Hc Hb) as [x Hx]. by eapply records_slot.
Qed.

(** ** The calls *)

Lemma safely_assert_safety w s : R w s → safely s assert_safety w.
Proof.
  intros HR. apply safely_wp. eapply wp_mono; [by apply (wp_assert_safety w s (λ _ _, False))| |done].
  by intros w' a ->.
Qed.

Lemma refines_node n w s (k : string → M _ unit) :
  R w s → (n ∈ ids → safely s (k n) w) → safely s (bind (node n) k) w.
Proof.
  intros HR Hk. unfold node. apply wp_bind, wp_bind, wp_gets.
  rewrite (member_ids _ _ _ HR). case_bool_decide as Hn; [by apply wp_ret, Hk|].
  apply wp_raise. split; [by exists s|apply caller; set_solver].
Qed.

(** The values a call may propose *)
Definition proposes (o : mp_op (V := V)) : Prop :=
  match o with OpPropose _ _ v => P v | _ => True end.

Lemma safely_exec_op (o : mp_op (V := V)) w s :
  R w s → (strict = true → disciplined o w) → proposes o → safely s (exec_op o) w.
Proof.
  intros HR Hdis HP. destruct o; simpl in *; try (by apply safely_net_only; [auto with distlab|]);
    try (apply refines_node; [done|intros Hn]).
  - apply safely_unit. by apply safely_prepare_leadership.
  - by apply safely_propose.
  - by apply safely_retry_proposal.
  - by apply safely_recover_decisions.
  - apply safely_unit. by apply safely_run.
  - apply safely_unit. by apply safely_run_until.
  - by apply safely_crash.
  - by apply safely_restart.
  - by apply safely_assert_safety.
Qed.
End with_ids.
(** ** Booting a cluster over disks *)
Section boot.
Context (ids : list string) (strict : bool) (P : V → Prop).
Local Abbreviation steps := (rtc (step (majority ids))).

Definition booted plan (disks : gmap string MPDurable) learn : World (MPSig (V := V)) :=
  mkWorld (Σ := MPSig) (set_persistent_state (Σ := MPSig) disks (new_Simulator plan))
    (mkMPObjects ids learn ∅ ∅).

Lemma R_boot reg plan learn w s :
  R ids reg strict P w s → R ids [] strict P (booted plan w.(sim).(persistent_state) learn) s.
Proof.
  intros HR. split; try done; try apply HR.
  - intros x []%elem_of_nil.
  - intros e []%elem_of_nil.
Qed.

Lemma R_empty plan learn : R ids [] strict P (booted plan ∅ learn) Consensus.init.
Proof.
  split; try done.
  - apply init_inv, _.
  - intros _ slot b v v' []%elem_of_nil.
  - intros slot b v []%elem_of_nil.
  - intros slot b v []%elem_of_nil.
  - intros n. split; simpl; try done.
    + intros slot b v. split; intros []%elem_of_nil.
    + constructor.
    + intros k a []%elem_of_nil.
    + intros a []%elem_of_nil.
    + intros slot b v []%elem_of_nil.
  - intros x []%elem_of_nil.
  - intros e []%elem_of_nil.
Qed.

Lemma wp_learned_defaults (learn : bool) l reg w s E :
  R ids reg strict P w s →
  wp (for_each l (λ n, put n (λ d, if learn then set_learned (default ∅ d.(d_learned)) d else d)))
    (λ w' _, R ids reg strict P w' s) E w.
Proof.
  intros HR. apply (wp_for_each _ _ (λ w', R ids reg strict P w' s)); [done|].
  intros n w' _ HR'. apply wp_persist. intros w2 He.
  eapply mp_R_dur_ext; [exact He|exact HR'|done|done| |intros; apply HR'|by destruct learn].
  pose proof (R_dur _ _ _ _ _ _ HR' n) as Hd. destruct learn; [|exact Hd].
  split; simpl; try apply Hd. intros m k l' [= <-]. destruct (d_learned _) as [m|] eqn:Em; [|done].
  by apply (do_learned _ _ _ _ Hd).
Qed.

Lemma R_register n reg w s :
  R ids reg strict P w s → n ∈ ids →
  R ids (n :: reg) strict P (mkWorld (Σ := MPSig)
    (set_alive (<[n := true]> w.(sim).(alive))
    (set_restart_handlers (<[n := n]> w.(sim).(restart_handlers))
    (set_crash_handlers (<[n := n]> w.(sim).(crash_handlers))
    (set_handlers (<[n := n]> w.(sim).(handlers)) w.(sim))))) w.(objs)) s.
Proof.
  intros HR Hn. split; try done; try apply HR; simpl.
  - intros e h [[<- <-]|[_ Hh]]%lookup_insert_Some; [by repeat split; [|left]|].
    destruct (R_handlers _ _ _ _ _ _ HR _ _ Hh) as (? & ? & ?). split_and!; [done..|by right].
  - intros e h [[_ <-]|[_ ?]]%lookup_insert_Some; [done|by eapply R_crash].
  - intros e h [[_ <-]|[_ ?]]%lookup_insert_Some; [done|by eapply R_restart].
  - intros e He. destruct (decide (e = n)) as [->|Hne]; [by rewrite lookup_insert_eq|].
    rewrite lookup_insert_ne by done. apply elem_of_cons in He as [->|He]; [done|].
    by apply (R_reg _ _ _ _ _ _ HR).
Qed.

Lemma mp_wp_register_all l reg w s (C : gmap Z (SlotLearnedDecision V) → Prop) :
  R ids reg strict P w s → l ⊆ ids → NoDup l → (∀ e, e ∈ l → e ∉ reg) → C w.(objs).(chosen) →
  wp (for_each l (λ n, register (Σ := MPSig) n n (Some n) (Some n)))
    (λ w' _, R ids (rev l ++ reg) strict P w' s ∧ C w'.(objs).(chosen)) (λ _ _, False) w.
Proof.
  revert reg w. induction l as [|n l IH]; intros reg w HR Hl Hnd Hnew HP; simpl; [by apply wp_ret|].
  apply NoDup_cons in Hnd as [Hn Hnd].
  unfold register. apply wp_bind, wp_bind, wp_gets, wp_bind, wp_raise_if; intros Hreg.
  { apply bool_decide_eq_true in Hreg as [h Hh].
    destruct (R_handlers _ _ _ _ _ _ HR _ _ Hh) as (_ & _ & ?). apply (Hnew n); [by left|done]. }
  do 3 apply wp_bind, wp_upd_sim. apply wp_upd_sim. simpl.
  assert (n ∈ ids) as Hin by (apply Hl; by left).
  rewrite <-app_assoc. apply IH; [by apply R_register| |done| |exact HP].
  - intros x Hx. apply Hl. by right.
  - intros e He [->|?]%elem_of_cons; [done|]. by apply (Hnew e); [right|].
Qed.

(** Booting over disks that stand for [s] succeeds, with the chosen slots of
    [s] recovered. *)
Lemma mp_wp_init_cluster plan disks learn s :
  ids ≠ [] → NoDup ids → R ids [] strict P (booted plan disks learn) s →
  wp (init_cluster ids learn) (λ w' _, R ids (rev ids ++ []) strict P w' s ∧ ∀ slot b v,
    chosen_at (majority ids) s slot b v → is_Some (w'.(objs).(chosen) !! slot)) (λ _ _, False)
    (boot_world plan disks).
Proof.
  intros Hne Hnd HR. unfold init_cluster.
  apply wp_bind, wp_raise_if; intros Hbad.
  { rewrite bool_decide_eq_false_2, bool_decide_eq_true_2 in Hbad; done. }
  apply wp_bind, wp_modify.
  change (mkWorld _ _) with (booted plan disks learn).
  apply wp_bind. eapply wp_mono; [exact (wp_learned_defaults _ _ _ _ _ (λ _ _, False) HR)| |done]. intros w1 a HR1.
  apply wp_bind. eapply wp_mono; [exact (wp_recover_chosen _ _ _ _ _ _ (λ _ _, False) HR1)| |done]. intros w2 a2 [HR2 Hw2].
  apply (mp_wp_register_all ids [] w2 s (λ c, ∀ slot b v,
    chosen_at (majority ids) s slot b v → is_Some (c !! slot))); [done..| |exact Hw2].
  intros e _ []%elem_of_nil.
Qed.

(** A boot that succeeds was given distinct node ids. *)
Lemma init_cluster_ids learn w w' :
  init_cluster (V := V) ids learn w = (w', inr tt) → ids ≠ [] ∧ NoDup ids.
Proof.
  unfold init_cluster, bind at 1, raise_if.
  repeat case_bool_decide; by try discriminate.
Qed.

Lemma R_reg_equiv reg reg' w s : (∀ e, e ∈ reg ↔ e ∈ reg') → R ids reg strict P w s → R ids reg' strict P w s.
Proof.
  intros He HR. split; try apply HR.
  - intros e h Hh. destruct (R_handlers _ _ _ _ _ _ HR _ _ Hh) as (? & ? & ?).
    split_and!; [done..|by apply He].
  - intros e Hr. by apply (R_reg _ _ _ _ _ _ HR), He.
Qed.

Lemma R_rev w s : R ids (rev ids ++ []) strict P w s → R ids ids strict P w s.
Proof.
  apply R_reg_equiv. intros e. rewrite app_nil_r, list_elem_of_In, <-in_rev. by rewrite list_elem_of_In.
Qed.

(** The exceptions of a call. *)
Definition op_error (e : exn) : Prop :=
  call_error e ∨ (strict = false ∧ exn_cls e = PaxosSafetyViolation).

Lemma exec_op_safely (o : mp_op (V := V)) w s :
  R ids ids strict P w s → (strict = true → disciplined o w) → proposes P o →
  safely (step (majority ids)) (R ids ids strict P) op_error s (exec_op o) w.
Proof.
  intros HR Hdis HP. apply safely_exec_op; [|by left|done..]. intros Hst msg. by right.
Qed.

(** Booting over the disks of a cluster that stands for [s] succeeds. *)
Lemma reboot_R learn w s plan :
  ids ≠ [] → NoDup ids → R ids ids strict P w s →
  ∃ w', init_cluster ids learn (boot_world plan w.(sim).(persistent_state)) = (w', inr tt)
    ∧ R ids ids strict P w' s
    ∧ ∀ slot b v, chosen_at (majority ids) s slot b v → is_Some (w'.(objs).(chosen) !! slot).
Proof.
  intros Hne Hnd HR.
  pose proof (mp_wp_init_cluster plan _ learn s Hne Hnd (R_boot _ plan learn _ _ HR)) as Hwp.
  unfold wp in Hwp. destruct (init_cluster ids learn _) as [w' [e|[]]]; [done|].
  destruct Hwp as [HR' Hc]. exists w'. split_and!; [done|by apply R_rev|done].
Qed.

(** A fresh cluster *)
Lemma init_R learn w plan :
  init_cluster ids learn (boot_world plan ∅) = (w, inr tt) →
  ids ≠ [] ∧ NoDup ids ∧ R ids ids strict P w Consensus.init.
Proof.
  intros Hw. destruct (init_cluster_ids _ _ _ Hw) as [Hne Hnd]. split_and!; [done..|].
  pose proof (mp_wp_init_cluster plan ∅ learn _ Hne Hnd (R_empty plan learn)) as Hwp.
  unfold wp in Hwp. rewrite Hw in Hwp. destruct Hwp as [HR _]. by apply R_rev.
Qed.
End boot.

(** More values may be proposed. *)
Lemma R_values_mono ids reg strict (P P' : V → Prop) w s :
  (∀ v, P v → P' v) → R ids reg strict P w s → R ids reg strict P' w s.
Proof. intros HP HR. split; try apply HR. intros slot b v Hv. apply HP. by eapply R_values. Qed.

Definition any_value (v : V) : Prop := True.

Lemma proposes_any (o : mp_op (V := V)) : proposes any_value o.
Proof. by destruct o. Qed.

(** The abstract state behind a reachable cluster. *)
Lemma reachable_follows ids strict learn w :
  reachable strict ids learn w →
  ids ≠ [] ∧ NoDup ids ∧ ∃ s, rtc (step (majority ids)) Consensus.init s ∧ R ids ids strict any_value w s.
Proof.
  induction 1 as [plan w Hw|w o w' r Hw IH Hdis Ho|w plan w' Hw IH Hi].
  - destruct (init_R ids strict any_value learn w plan Hw) as (? & ? & HR). split_and!; [done..|].
    by exists Consensus.init.
  - destruct IH as (Hne & Hnd & s & Hs & HR). split_and!; [done..|].
    pose proof (exec_op_safely ids strict any_value o w s HR Hdis (proposes_any o)) as Hwp.
    unfold safely, refines, wp in Hwp. rewrite Ho in Hwp.
    destruct r as [e|[]]; [destruct Hwp as [(s' & ? & ?) _]|destruct Hwp as (s' & ? & ? & _)];
      exists s'; (split; [by etrans|done]).
  - destruct IH as (Hne & Hnd & s & Hs & HR). split_and!; [done..|].
    destruct (reboot_R ids strict any_value learn w s plan Hne Hnd HR) as (w2 & Hi2 & HR2 & _).
    rewrite Hi in Hi2. simplify_eq. by exists s.
Qed.
End refinement.
