(* ===== verification/MultiPaxosProperties.v ===== *)
(** * MultiPaxosProperties: what [multipaxos.py] guarantees

    The statements are about durable dictionaries, the cluster's map of chosen
    slots and the calls of the implementation; [MultiPaxosRefine] supplies the
    simulation behind them.  Worlds are reached by any calls and by reboots of
    the whole cluster over its disks. *)

From stdpp Require Import relations.
From S2P Require Import Prelude Simulator SimFacts Quorum Consensus Slots Refinement MultiPaxos MultiPaxosRefine.

Section properties.
Context {V : Type} `{EqDecision V}.
Implicit Types (w : World (MPSig (V := V))) (n : string) (ids : list string).

(** The acceptors whose durable history holds [v] for [slot] at ballot [b]. *)
Definition holders ids w slot b (v : V) : gset string :=
  filter (λ n, mkSlotAccepted slot b v ∈ d_history (dur w n)) (list_to_set ids).

(** [v] is decided for [slot]. *)
Definition decided ids w slot (v : V) : Prop :=
  ∃ b, quorum_size ids ≤ Z.of_nat (size (holders ids w slot b v)).

Lemma mp_elem_of_holders ids w slot b v a :
  a ∈ holders ids w slot b v ↔ a ∈ ids ∧ mkSlotAccepted slot b v ∈ d_history (dur w a).
Proof. unfold holders. rewrite elem_of_filter, elem_of_list_to_set. naive_solver. Qed.

Lemma mp_decided_chosen ids reg strict P w s slot v :
  R ids reg strict P w s → decided ids w slot v ↔ ∃ b, chosen_at (majority ids) s slot b v.
Proof.
  intros HR. split.
  - intros [b Hb]. exists b, (holders ids w slot b v). split; [split; [|done]|].
    + intros a [Ha _]%mp_elem_of_holders. by apply elem_of_list_to_set.
    + intros a [_ Ha]%mp_elem_of_holders. by apply (do_votes _ _ _ _ (R_dur _ _ _ _ _ _ HR a)).
  - intros (b & Q & [Hsub Hsize] & HQ). exists b.
    assert (Q ⊆ holders ids w slot b v) as Hle%subseteq_size; [|lia].
    intros a Ha. apply mp_elem_of_holders.
    split; [by apply (elem_of_list_to_set (C := gset string)), Hsub|].
    by apply (do_votes _ _ _ _ (R_dur _ _ _ _ _ _ HR a)), HQ.
Qed.

(** One call, or a reboot of every node over the disks. *)
Inductive next ids learn w : World (MPSig (V := V)) → Prop :=
  | next_call o w' r : exec_op o w = (w', r) → next ids learn w w'
  | next_reboot plan w' :
      init_cluster ids learn (boot_world plan w.(sim).(persistent_state)) = (w', inr tt) →
      next ids learn w w'.

Lemma next_R ids learn w w' :
  reachable false ids learn w → next ids learn w w' →
  ∃ s s', rtc (step (majority ids)) s s' ∧ R ids ids false any_value w s ∧ R ids ids false any_value w' s'.
Proof.
  intros (Hne & Hnd & s & _ & HR)%reachable_follows [o w1 r Ho|plan w1 Hi].
  - pose proof (exec_op_safely ids false any_value o w s HR ltac:(done) (proposes_any o)) as Hwp.
    unfold safely, refines, wp in Hwp. rewrite Ho in Hwp. exists s.
    destruct r as [e|[]]; [destruct Hwp as [(s' & ? & ?) _]|destruct Hwp as (s' & ? & ? & _)];
      by exists s'.
  - destruct (reboot_R ids false any_value learn w s plan Hne Hnd HR) as (w2 & Hi2 & HR2 & _).
    rewrite Hi in Hi2. simplify_eq. by exists s, s.
Qed.

(** C8: agreement per slot and across time: a value decided by a majority of
    durable histories stays decided through every later call, crash, restart
    and reboot of the whole cluster, and no other value is ever decided for its
    slot, even when callers propose again for chosen slots. *)
Theorem mp_agreement ids learn w w' slot v v' :
  reachable false ids learn w → next ids learn w w' →
  decided ids w slot v → decided ids w' slot v ∧ (decided ids w' slot v' → v' = v).
Proof.
  intros Hw Hn Hv. destruct (next_R _ _ _ _ Hw Hn) as (s & s' & Hs & HR & HR').
  destruct (proj1 (mp_decided_chosen _ _ _ _ _ _ _ _ HR) Hv) as [b Hb].
  assert (chosen_at (majority ids) s' slot b v) as Hb' by (by eapply steps_chosen).
  split; [apply (mp_decided_chosen _ _ _ _ _ _ _ _ HR'); by exists b|].
  intros [c Hc]%(mp_decided_chosen _ _ _ _ _ _ _ _ HR'). by eapply (mp_R_agree _ _ _ _ w' s').
Qed.

(** As long as callers propose only for slots that are not chosen yet, a
    call raises only what its caller can provoke (a bad argument, a node that
    is down or has no leader authority, an unknown node), never
    [PaxosSafetyViolation] or [TypeError]. *)
Theorem mp_never_violates ids learn w (o : mp_op (V := V)) w' e :
  reachable true ids learn w → disciplined o w → exec_op o w = (w', inl e) → call_error e.
Proof.
  intros (_ & _ & s & _ & HR)%reachable_follows Hdis Ho.
  pose proof (exec_op_safely ids true any_value o w s HR ltac:(done) (proposes_any o)) as Hwp.
  unfold safely, refines, wp in Hwp. rewrite Ho in Hwp. by destruct Hwp as [_ [?|[? _]]].
Qed.

(** What a node has learned, and what the cluster records as chosen, is
    decided for the slot it is filed under. *)
Theorem mp_recorded_decided ids learn w slot (l : SlotLearnedDecision V) :
  reachable false ids learn w →
  (w.(objs).(chosen) !! slot = Some l ∨ ∃ n, learned_decision w n slot = Some l) →
  l.(sl_slot) = slot ∧ decided ids w slot l.(sl_value).
Proof.
  intros (_ & _ & s & _ & HR)%reachable_follows Hl.
  assert (l.(sl_slot) = slot ∧ chosen_at (majority ids) s slot l.(sl_proposal) l.(sl_value)) as [Hs Hc].
  { destruct Hl as [Hl|[n Hl]]; [by apply (R_chosen _ _ _ _ _ _ HR)|by eapply learned_chosen]. }
  split; [done|]. apply (mp_decided_chosen _ _ _ _ _ _ _ _ HR). by eexists.
Qed.

(** An acceptor's promise never goes down and its accept history never
    loses an entry, whatever is called, reboots included. *)
Theorem mp_durable_monotone ids learn w w' n :
  reachable false ids learn w → next ids learn w w' →
  promise_le (dur w n).(d_promised) (dur w' n).(d_promised)
  ∧ (dur w n).(d_history) ⊆ (dur w' n).(d_history).
Proof.
  intros Hw Hn. destruct (next_R _ _ _ _ Hw Hn) as (s & s' & Hs & HR & HR').
  pose proof (R_dur _ _ _ _ _ _ HR n) as Hd. pose proof (R_dur _ _ _ _ _ _ HR' n) as Hd'. split.
  - rewrite <-(do_bal _ _ _ _ Hd), <-(do_bal _ _ _ _ Hd'). by eapply steps_max_bal.
  - intros [slot b v] Hin. apply (do_votes _ _ _ _ Hd'). eapply steps_votes; [exact Hs|].
    by apply (do_votes _ _ _ _ Hd).
Qed.

(** The cluster's safety check accepts every reachable world and changes
    nothing. *)
Theorem mp_assert_safety_passes ids learn w :
  reachable false ids learn w → assert_safety w = (w, inr tt).
Proof.
  intros (_ & _ & s & _ & HR)%reachable_follows.
  pose proof (wp_assert_safety ids ids false any_value w s (λ _ _, False) HR) as Hc. unfold wp in Hc.
  destruct (assert_safety w) as [w' [?|[]]]; [done|]. by subst.
Qed.

(** C34: a reboot over the disks of a reachable world succeeds, and records as
    chosen exactly the decided slots, each with its value. *)
Theorem mp_reboot_recovers ids learn w plan :
  reachable false ids learn w →
  ∃ w', init_cluster ids learn (boot_world plan w.(sim).(persistent_state)) = (w', inr tt)
    ∧ ∀ slot v, sl_value <$> w'.(objs).(chosen) !! slot = Some v ↔ decided ids w slot v.
Proof.
  intros (Hne & Hnd & s & _ & HR)%reachable_follows.
  destruct (reboot_R ids false any_value learn w s plan Hne Hnd HR) as (w' & Hi & HR' & Hrec).
  exists w'. split; [done|]. intros slot v. rewrite (mp_decided_chosen _ _ _ _ _ _ _ _ HR). split.
  - intros (l & Hl & ->)%fmap_Some. eexists. by apply (R_chosen _ _ _ _ _ _ HR').
  - intros [b Hb]. destruct (Hrec _ _ _ Hb) as [l Hl]. rewrite Hl. simpl. f_equal.
    destruct (R_chosen _ _ _ _ _ _ HR' _ _ Hl). by eapply (mp_R_agree _ _ _ _ w' s).
Qed.
End properties.
