(* ===== verification/PaxosLog.v ===== *)
(** * PaxosLog: independent Paxos decrees composed into a log

    Models [src/distlab/paxos_log.py]: [PaxosLogCluster], [PaxosLogNode] and
    [PaxosLogSafetyHarness], and [src/distlab/paxos_log_recovery.py], the
    cluster that reconstructs its chosen slots from the disks.  A node's durable
    dictionary is [PLDurable]; the attributes of the cluster and its nodes are
    [PLObjects].  Dictionaries by slot are finite maps: where one is iterated,
    the order decides no more than the message of an exception.  Type checks
    hold by typing, and there is one simulator. *)

From S2P Require Import Prelude Simulator Quorum Slots.

Section paxos_log.
Context {V : Type} `{EqDecision V}.

Record SlotPrepare := mkSlotPrepare {
  sp_slot : Z;
  sp_proposal : ProposalNumber;
  sp_proposer_id : string;
}.

Definition positive_slot {A} (slot : Z) (a : exn + A) : exn + A :=
  if slot <=? 0 then inl (Exn ValueError "Paxos log slot must be positive") else a.

Definition new_SlotPrepare slot (p : ProposalNumber) owner : exn + SlotPrepare :=
  positive_slot slot
    (if negb (owner =? p.(proposer_id))%string then
       inl (Exn ValueError "prepare proposer must match proposal number owner")
     else inr (mkSlotPrepare slot p owner)).

Record SlotPromise := mkSlotPromise {
  spr_slot : Z;
  spr_proposal : ProposalNumber;
  spr_acceptor_id : string;
  spr_accepted : option (SlotAcceptedValue V);
}.

Record SlotAcceptRequest := mkSlotAcceptRequest {
  sar_slot : Z;
  sar_proposal : ProposalNumber;
  sar_proposer_id : string;
  sar_value : V;
}.

Definition new_SlotAcceptRequest slot (p : ProposalNumber) owner (v : V) : exn + SlotAcceptRequest :=
  positive_slot slot
    (if negb (owner =? p.(proposer_id))%string then
       inl (Exn ValueError "accept proposer must match proposal number owner")
     else inr (mkSlotAcceptRequest slot p owner v)).

Record SlotAccepted := mkSlotAcceptedMsg {
  sac_slot : Z;
  sac_proposal : ProposalNumber;
  sac_acceptor_id : string;
  sac_value : V;
}.

Record SlotLearn := mkSlotLearnMsg {
  sle_slot : Z;
  sle_proposal : ProposalNumber;
  sle_proposer_id : string;
  sle_value : V;
}.

Record SlotProposalState := mkSlotProposal {
  st_slot : Z;
  st_proposal : ProposalNumber;
  st_original_value : V;
  st_promises : list (string * SlotPromise);  (** a dict, in insertion order *)
  st_accepted_by : gset string;
  st_chosen_value : option V;
  st_accept_phase_started : bool;
}.

(** Message payloads; [LOther] is an object of any other type. *)
Inductive PLPayload :=
  | LPrepare (m : SlotPrepare)
  | LPromise (m : SlotPromise)
  | LAcceptRequest (m : SlotAcceptRequest)
  | LAccepted (m : SlotAccepted)
  | LLearn (m : SlotLearn)
  | LOther (ty : string).

Definition pl_type_name (p : PLPayload) : string :=
  match p with
  | LPrepare _ => "SlotPrepare"
  | LPromise _ => "SlotPromise"
  | LAcceptRequest _ => "SlotAcceptRequest"
  | LAccepted _ => "SlotAccepted"
  | LLearn _ => "SlotLearn"
  | LOther ty => ty
  end.

Inductive PLRec :=
  | LRChosen (slot : Z) (p : ProposalNumber) (v : V) (acceptors : list string)
  | LRChosenRecovered (slot : Z) (p : ProposalNumber) (v : V) (acceptors : list string)
  | LRProposalStart (slot : Z) (proposer : string) (p : ProposalNumber) (v : V)
  | LRNodeCrash (node : string) (active : list (Z * ProposalNumber))
  | LRNodeRestart (node : string) (learned_prefix : list (SlotLearnedDecision V))
  | LRPrepareRejected (slot : Z) (acceptor : string) (p promised : ProposalNumber)
  | LRPromise (slot : Z) (acceptor proposer : string) (p : ProposalNumber)
      (accepted : option (SlotAcceptedValue V))
  | LRStalePromise (slot : Z) (proposer acceptor : string) (p : ProposalNumber)
  | LRAcceptPhaseStart (slot : Z) (proposer : string) (p : ProposalNumber) (v : V) (promises : list string)
  | LRAcceptRejected (slot : Z) (acceptor : string) (p promised : ProposalNumber)
  | LRAccepted (slot : Z) (acceptor proposer : string) (p : ProposalNumber) (v : V)
  | LRStaleAccepted (slot : Z) (proposer acceptor : string) (p : ProposalNumber)
  | LRLearned (slot : Z) (learner : string) (p : ProposalNumber) (v : V) (prefix_length : Z)
  | LREnvelopeRejected (node s d : string) (expected_src : option string) (reason : string) (p : PLPayload).

Record PLDurable := mkPLDurable {
  d_promised : gmap Z ProposalNumber;
  d_accepted : gmap Z (SlotAcceptedValue V);
  d_accept_history : list (SlotAcceptedValue V);
  d_learned : gmap Z (SlotLearnedDecision V);
  d_last_proposal_round : Z;
}.

(** The [setdefault]s of [PaxosLogNode.__init__]. *)
Definition pl_durable0 : PLDurable := mkPLDurable ∅ ∅ [] ∅ 0.

Definition set_promised slot p (d : PLDurable) :=
  mkPLDurable (<[slot := p]> d.(d_promised)) d.(d_accepted) d.(d_accept_history) d.(d_learned) d.(d_last_proposal_round).
Definition set_accepted slot a (d : PLDurable) :=
  mkPLDurable d.(d_promised) (<[slot := a]> d.(d_accepted)) d.(d_accept_history) d.(d_learned) d.(d_last_proposal_round).
Definition set_accept_history h (d : PLDurable) :=
  mkPLDurable d.(d_promised) d.(d_accepted) h d.(d_learned) d.(d_last_proposal_round).
Definition set_learned slot l (d : PLDurable) :=
  mkPLDurable d.(d_promised) d.(d_accepted) d.(d_accept_history) (<[slot := l]> d.(d_learned)) d.(d_last_proposal_round).
Definition set_last_round r (d : PLDurable) :=
  mkPLDurable d.(d_promised) d.(d_accepted) d.(d_accept_history) d.(d_learned) r.

Record PLObjects := mkPLObjects {
  node_ids : list string;
  proposals : gmap string (gmap Z SlotProposalState);  (** [_proposals] of each node *)
  chosen : gmap Z (SlotLearnedDecision V);
  chosen_acceptors : gmap Z (list string);
}.

Definition set_proposals m (o : PLObjects) := mkPLObjects o.(node_ids) m o.(chosen) o.(chosen_acceptors).
Definition set_chosen slot c accs (o : PLObjects) :=
  mkPLObjects o.(node_ids) o.(proposals) (<[slot := c]> o.(chosen)) (<[slot := accs]> o.(chosen_acceptors)).

Definition PLSig : Sig :=
  mkSig PLPayload PLRec string PLDurable unit PLObjects pl_type_name (LOther "NoneType") pl_durable0 tt.

Abbreviation World := (World PLSig).
Abbreviation M := (M World).
Implicit Types (w : World) (n : string) (slot : Z).

Definition trace_rec (r : PLRec) : M unit := record (Σ := PLSig) (EvProto (Σ := PLSig) r).
Definition net_send (s d : string) (p : PLPayload) : M unit := send (Σ := PLSig) s d p 1 None.
Definition put n (f : PLDurable → PLDurable) : M unit := persist (Σ := PLSig) n f.

Definition cluster_size w : Z := quorum_size w.(objs).(node_ids).
Definition member w n : bool := bool_decide (n ∈ w.(objs).(node_ids)).
Definition peers w n : list string := filter (λ p, p ≠ n) w.(objs).(node_ids).
Definition dur w n : PLDurable := durable (Σ := PLSig) w n.
Definition proposals_of w n : gmap Z SlotProposalState := default ∅ (w.(objs).(proposals) !! n).
Definition proposal_of w n slot : option SlotProposalState := proposals_of w n !! slot.
Definition upd_proposals n (f : gmap Z SlotProposalState → gmap Z SlotProposalState) : M unit :=
  modify (λ w, mkWorld (Σ := PLSig) w.(sim)
    (set_proposals (<[n := f (proposals_of w n)]> w.(objs).(proposals)) w.(objs))).

Definition require_slot slot : M unit :=
  raise_if (slot <=? 0) ValueError "Paxos log slot must be a positive integer".

Definition promised_proposal n slot : M (option ProposalNumber) :=
  require_slot slot ;; gets (λ w, (dur w n).(d_promised) !! slot).
Definition accepted_value n slot : M (option (SlotAcceptedValue V)) :=
  require_slot slot ;; gets (λ w, (dur w n).(d_accepted) !! slot).
Definition learned_decision n slot : M (option (SlotLearnedDecision V)) :=
  require_slot slot ;; gets (λ w, (dur w n).(d_learned) !! slot).

(** [while (decision := ... ) is not None], from [slot] on.  A dict has no
    longer prefix than it has keys. *)
Fixpoint prefix_from {A} (fuel : nat) (m : gmap Z A) slot : list A :=
  match fuel with
  | O => []
  | S fuel => match m !! slot with Some a => a :: prefix_from fuel m (slot + 1) | None => [] end
  end.
Definition dict_prefix {A} (m : gmap Z A) : list A := prefix_from (size m) m 1.

Definition learned_prefix w n : list (SlotLearnedDecision V) := dict_prefix (dur w n).(d_learned).
Definition chosen_prefix w : list (SlotLearnedDecision V) := dict_prefix w.(objs).(chosen).

(** [PaxosLogCluster._record_chosen] *)
Definition record_chosen slot (p : ProposalNumber) (v : V) (acceptors : gset string) : M unit :=
  let! q := gets cluster_size in
  raise_if (Z.of_nat (size acceptors) <? q) PaxosSafetyViolation "Paxos log decision requires a majority" ;;
  let! current := gets (λ w, w.(objs).(chosen) !! slot) in
  match current with
  | Some c =>
      raise_if (negb (bool_decide (c.(sl_value) = v))) PaxosSafetyViolation
        "Paxos log slot chose conflicting values"
  | None =>
      let accs := sorted_str (elements acceptors) in
      let! decision := lift (new_SlotLearnedDecision slot p v) in
      upd_objs (Σ := PLSig) (set_chosen slot decision accs) ;;
      trace_rec (LRChosen slot p v accs)
  end.

Definition receive_learn n (m : SlotLearn) : M unit :=
  let! current := learned_decision n m.(sle_slot) in
  match current with
  | Some c =>
      raise_if (negb (bool_decide (c.(sl_value) = m.(sle_value)))) PaxosSafetyViolation
        "learner observed conflicting values"
  | None =>
      let! decision := lift (new_SlotLearnedDecision m.(sle_slot) m.(sle_proposal) m.(sle_value)) in
      put n (set_learned m.(sle_slot) decision) ;;
      let! prefix := gets (λ w, learned_prefix w n) in
      trace_rec (LRLearned m.(sle_slot) n m.(sle_proposal) m.(sle_value) (zlen prefix))
  end.

Definition add_accepted_by (a : string) (st : SlotProposalState) : SlotProposalState :=
  mkSlotProposal st.(st_slot) st.(st_proposal) st.(st_original_value) st.(st_promises)
    ({[a]} ∪ st.(st_accepted_by)) st.(st_chosen_value) st.(st_accept_phase_started).

Definition receive_accepted n (r : SlotAccepted) : M unit :=
  let stale := trace_rec (LRStaleAccepted r.(sac_slot) n r.(sac_acceptor_id) r.(sac_proposal)) in
  let! state := gets (λ w, proposal_of w n r.(sac_slot)) in
  match state with
  | None => stale
  | Some st =>
      if negb (bool_decide (r.(sac_proposal) = st.(st_proposal))) || negb st.(st_accept_phase_started)
      then stale
      else
        raise_if (negb (bool_decide (st.(st_chosen_value) = Some r.(sac_value)))) PaxosSafetyViolation
          "Paxos log accepted response changed value" ;;
        let st' := add_accepted_by r.(sac_acceptor_id) st in
        upd_proposals n (<[r.(sac_slot) := st']>) ;;
        let! q := gets cluster_size in
        if Z.of_nat (size st'.(st_accepted_by)) <? q then ret tt
        else
          let slot := st'.(st_slot) in
          let p := st'.(st_proposal) in
          let v := r.(sac_value) in  (* the [st_chosen_value], by the check above *)
          record_chosen slot p v st'.(st_accepted_by) ;;
          let learn := mkSlotLearnMsg slot p n v in
          receive_learn n learn ;;
          let! ps := gets (λ w, peers w n) in
          for_each ps (λ peer, net_send n peer (LLearn learn)) ;;
          upd_proposals n (delete slot)
  end.

Definition receive_accept_request n (r : SlotAcceptRequest) : M unit :=
  let! promised := promised_proposal n r.(sar_slot) in
  let accept :=
    let! current := accepted_value n r.(sar_slot) in
    raise_if
      match current with
      | Some c =>
          bool_decide (c.(sa_proposal) = r.(sar_proposal)) && negb (bool_decide (c.(sa_value) = r.(sar_value)))
      | None => false
      end PaxosSafetyViolation "proposal attempted conflicting values" ;;
    put n (set_promised r.(sar_slot) r.(sar_proposal)) ;;
    let! accepted := lift (new_SlotAcceptedValue r.(sar_slot) r.(sar_proposal) r.(sar_value)) in
    put n (set_accepted r.(sar_slot) accepted) ;;
    let! history := gets (λ w, (dur w n).(d_accept_history)) in
    when (negb (bool_decide (accepted ∈ history))) (put n (set_accept_history (history ++ [accepted]))) ;;
    trace_rec (LRAccepted r.(sar_slot) n r.(sar_proposer_id) r.(sar_proposal) r.(sar_value)) ;;
    let response := mkSlotAcceptedMsg r.(sar_slot) r.(sar_proposal) n r.(sar_value) in
    if (r.(sar_proposer_id) =? n)%string then receive_accepted n response
    else net_send n r.(sar_proposer_id) (LAccepted response) in
  match promised with
  | Some p =>
      if pn_ltb r.(sar_proposal) p then trace_rec (LRAcceptRejected r.(sar_slot) n r.(sar_proposal) p)
      else accept
  | None => accept
  end.

(** [promises.setdefault(acceptor_id, response)] *)
Definition setdefault_promise (r : SlotPromise) (ps : list (string * SlotPromise)) : list (string * SlotPromise) :=
  if existsb (λ e, (e.1 =? r.(spr_acceptor_id))%string) ps then ps else ps ++ [(r.(spr_acceptor_id), r)].

Definition set_promises ps (st : SlotProposalState) : SlotProposalState :=
  mkSlotProposal st.(st_slot) st.(st_proposal) st.(st_original_value) ps st.(st_accepted_by)
    st.(st_chosen_value) st.(st_accept_phase_started).

Definition start_accept_phase (v : V) (st : SlotProposalState) : SlotProposalState :=
  mkSlotProposal st.(st_slot) st.(st_proposal) st.(st_original_value) st.(st_promises) st.(st_accepted_by)
    (Some v) true.

Definition choose_value (st : SlotProposalState) : exn + V :=
  match omap (λ e, e.2.(spr_accepted)) st.(st_promises) with
  | [] => inr st.(st_original_value)
  | a :: l =>
      let highest := pn_max a.(sa_proposal) (sa_proposal <$> l) in
      match filter (λ i, i.(sa_proposal) = highest) (a :: l) with
      | [] => inr st.(st_original_value)
      | first :: rest =>
          if existsb (λ i, negb (bool_decide (i.(sa_value) = first.(sa_value)))) rest
          then inl (Exn PaxosSafetyViolation "proposal has conflicting values")
          else inr first.(sa_value)
      end
  end.

Definition receive_promise n (r : SlotPromise) : M unit :=
  let stale := trace_rec (LRStalePromise r.(spr_slot) n r.(spr_acceptor_id) r.(spr_proposal)) in
  let! state := gets (λ w, proposal_of w n r.(spr_slot)) in
  match state with
  | None => stale
  | Some st =>
      if negb (bool_decide (r.(spr_proposal) = st.(st_proposal))) then stale
      else
        let! known := gets (λ w, member w r.(spr_acceptor_id)) in
        raise_if (negb known) PaxosSafetyViolation "Paxos log promise references unknown acceptor" ;;
        let st' := set_promises (setdefault_promise r st.(st_promises)) st in
        upd_proposals n (<[r.(spr_slot) := st']>) ;;
        let! q := gets cluster_size in
        if st'.(st_accept_phase_started) || (zlen st'.(st_promises) <? q) then ret tt
        else
          let! v := lift (choose_value st') in
          upd_proposals n (<[r.(spr_slot) := start_accept_phase v st']>) ;;
          trace_rec (LRAcceptPhaseStart st'.(st_slot) n st'.(st_proposal) v (sorted_str st'.(st_promises).*1)) ;;
          let! request := lift (new_SlotAcceptRequest st'.(st_slot) st'.(st_proposal) n v) in
          receive_accept_request n request ;;
          let! ps := gets (λ w, peers w n) in
          for_each ps (λ peer, net_send n peer (LAcceptRequest request))
  end.

Definition receive_prepare n (r : SlotPrepare) : M unit :=
  let! promised := promised_proposal n r.(sp_slot) in
  let answer :=
    when match promised with None => true | Some p => pn_ltb p r.(sp_proposal) end
      (put n (set_promised r.(sp_slot) r.(sp_proposal))) ;;
    let! accepted := accepted_value n r.(sp_slot) in
    let promise := mkSlotPromise r.(sp_slot) r.(sp_proposal) n accepted in
    trace_rec (LRPromise r.(sp_slot) n r.(sp_proposer_id) r.(sp_proposal) accepted) ;;
    if (r.(sp_proposer_id) =? n)%string then receive_promise n promise
    else net_send n r.(sp_proposer_id) (LPromise promise) in
  match promised with
  | Some p =>
      if pn_ltb r.(sp_proposal) p then trace_rec (LRPrepareRejected r.(sp_slot) n r.(sp_proposal) p)
      else answer
  | None => answer
  end.

(** [max(known_rounds) + 1] *)
Definition next_round (d : PLDurable) : Z :=
  foldl Z.max d.(d_last_proposal_round)
    ((round <$> (map_to_list d.(d_promised)).*2)
     ++ ((λ a, a.(sa_proposal).(round)) <$> (map_to_list d.(d_accepted)).*2)
     ++ ((λ l, l.(sl_proposal).(round)) <$> (map_to_list d.(d_learned)).*2)) + 1.

Definition start_proposal n slot (v : V) (round_number : option Z) : M ProposalNumber :=
  require_slot slot ;;
  let! up := gets (λ w, is_alive w n) in
  raise_if (negb up) PaxosError "crashed proposer cannot start Paxos log" ;;
  let! active := gets (λ w, proposal_of w n slot) in
  raise_if (bool_decide (is_Some active)) PaxosProposalActive "proposer already has active proposal for slot" ;;
  let! d := gets (λ w, dur w n) in
  let round_number := default (next_round d) round_number in
  raise_if (round_number <=? d.(d_last_proposal_round)) ValueError
    "proposer round must exceed durable local round" ;;
  let! proposal := lift (new_ProposalNumber round_number n) in
  put n (set_last_round round_number) ;;
  upd_proposals n (<[slot := mkSlotProposal slot proposal v [] ∅ None false]>) ;;
  trace_rec (LRProposalStart slot n proposal v) ;;
  let! prepare := lift (new_SlotPrepare slot proposal n) in
  receive_prepare n prepare ;;
  let! ps := gets (λ w, peers w n) in
  for_each ps (λ peer, net_send n peer (LPrepare prepare)) ;;
  ret proposal.

Definition reject_source n (m : Message PLSig) (expected : option string) (reason : string) : M unit :=
  trace_rec (LREnvelopeRejected n m.(src) m.(dst) expected reason m.(payload)).

Definition handle_message n (m : Message PLSig) : M unit :=
  if negb (m.(dst) =? n)%string then reject_source n m None "destination-identity-mismatch"
  else
    let from (expected reason : string) (k : M unit) : M unit :=
      let! known := gets (λ w, member w expected) in
      if negb known then reject_source n m (Some expected) reason
      else if negb (m.(src) =? expected)%string then reject_source n m (Some expected) "source-identity-mismatch"
      else k in
    match m.(payload) with
    | LPrepare p => from p.(sp_proposer_id) "unknown-proposer" (receive_prepare n p)
    | LPromise p => from p.(spr_acceptor_id) "unknown-acceptor" (receive_promise n p)
    | LAcceptRequest p => from p.(sar_proposer_id) "unknown-proposer" (receive_accept_request n p)
    | LAccepted p => from p.(sac_acceptor_id) "unknown-acceptor" (receive_accepted n p)
    | LLearn p => from p.(sle_proposer_id) "unknown-proposer" (receive_learn n p)
    | LOther _ => raise TypeError "unsupported Paxos log message"
    end.

(** [history_by_pair]: the same proposal twice in a slot of the history must
    carry the same value. *)
Fixpoint history_consistent (by_pair : gmap (Z * ProposalNumber) V) (h : list (SlotAcceptedValue V)) : bool :=
  match h with
  | [] => true
  | i :: h' =>
      let key := (i.(sa_slot), i.(sa_proposal)) in
      match by_pair !! key with
      | Some v =>
          if negb (bool_decide (v = i.(sa_value))) then false
          else history_consistent (<[key := i.(sa_value)]> by_pair) h'
      | None => history_consistent (<[key := i.(sa_value)]> by_pair) h'
      end
  end.

(** [_validate_durable_state] *)
Definition validate_durable_state n : M unit :=
  let! d := gets (λ w, dur w n) in
  raise_if (existsb (λ e, e.1 <=? 0) (map_to_list d.(d_promised))) TypeError
    "durable Paxos log promises must map slots to ProposalNumber" ;;
  raise_if (existsb (λ e, (e.1 <=? 0) || negb (e.2.(sa_slot) =? e.1)) (map_to_list d.(d_accepted))) TypeError
    "durable Paxos log accepted state is invalid" ;;
  raise_if (existsb (λ e, (e.1 <=? 0) || negb (e.2.(sl_slot) =? e.1)) (map_to_list d.(d_learned))) TypeError
    "durable Paxos log learned state is invalid" ;;
  raise_if (d.(d_last_proposal_round) <? 0) TypeError "durable Paxos log proposer round must be non-negative" ;;
  raise_if (negb (history_consistent ∅ d.(d_accept_history))) PaxosSafetyViolation
    "durable Paxos log history conflicts" ;;
  for_each (map_to_list d.(d_accepted)) (λ e,
    raise_if (negb (bool_decide (e.2 ∈ d.(d_accept_history)))) PaxosSafetyViolation
      "current accepted value missing from durable history" ;;
    raise_if match d.(d_promised) !! e.1 with Some p => pn_ltb p e.2.(sa_proposal) | None => false end
      PaxosSafetyViolation "accepted proposal exceeds durable promise").

(** [sorted(self._proposals.items())], each with its proposal *)
Definition active_proposals (m : gmap Z SlotProposalState) : list (Z * ProposalNumber) :=
  omap (λ slot, (λ st, (slot, st.(st_proposal))) <$> m !! slot) (merge_sort Z.le (map_to_list m).*1).

Definition handle_crash n : M unit :=
  let! active := gets (λ w, active_proposals (proposals_of w n)) in
  upd_proposals n (λ _, ∅) ;;
  trace_rec (LRNodeCrash n active).

Definition handle_restart n : M unit :=
  upd_proposals n (λ _, ∅) ;;
  validate_durable_state n ;;
  let! prefix := gets (λ w, learned_prefix w n) in
  trace_rec (LRNodeRestart n prefix).

(** ** Durable evidence *)

(** [proposal_values] and [evidence] of the loops of the harness and of the
    recovery: the first value of each proposal, and the acceptors of each
    record. *)
Definition Group : Type := Z * ProposalNumber * V * gset string.

Definition file_accepted (msg : string) n (a : SlotAcceptedValue V)
    (x : list (Z * ProposalNumber * V) * list Group) : exn + (list (Z * ProposalNumber * V) * list Group) :=
  let pair := (a.(sa_slot), a.(sa_proposal)) in
  match filter (λ e, e.1 = pair) x.1 with
  | e :: _ =>
      if negb (bool_decide (e.2 = a.(sa_value))) then inl (Exn PaxosSafetyViolation msg)
      else inr (x.1, add_evidence n (pair, a.(sa_value)) x.2)
  | [] => inr (x.1 ++ [(pair, a.(sa_value))], add_evidence n (pair, a.(sa_value)) x.2)
  end.

Fixpoint file_history (msg : string) n (h : list (SlotAcceptedValue V))
    (x : list (Z * ProposalNumber * V) * list Group) : exn + (list (Z * ProposalNumber * V) * list Group) :=
  match h with
  | [] => inr x
  | a :: h' => match file_accepted msg n a x with inl e => inl e | inr x' => file_history msg n h' x' end
  end.

(** The loop over the nodes; the harness validates each first. *)
Fixpoint collect_evidence (validate : bool) (msg : string) (ids : list string)
    (x : list (Z * ProposalNumber * V) * list Group) : M (list Group) :=
  match ids with
  | [] => ret x.2
  | n :: ids' =>
      when validate (validate_durable_state n) ;;
      let! h := gets (λ w, (dur w n).(d_accept_history)) in
      let! x' := lift (file_history msg n h x) in
      collect_evidence validate msg ids' x'
  end.

(** [chosen_by_slot]: per slot, the records a majority holds, in order *)
Definition Candidate : Type := ProposalNumber * V * gset string.

Definition add_candidate (q : Z) (by_slot : list (Z * list Candidate)) (g : Group) : list (Z * list Candidate) :=
  let slot := g.1.1.1 in
  if q <=? Z.of_nat (size g.2) then
    assoc_set slot (default [] (assoc_get slot by_slot) ++ [(g.1.1.2, g.1.2, g.2)]) by_slot
  else by_slot.

Definition chosen_by_slot (q : Z) (gs : list Group) : list (Z * list Candidate) := foldl (add_candidate q) [] gs.

(** [any(value != first_value for _, value, _ in chosen[1:])] *)
Definition conflicting (cs : list Candidate) : bool :=
  match cs with
  | [] => false
  | c :: cs' => existsb (λ c', negb (bool_decide (c'.1.2 = c.1.2))) cs'
  end.

(** [not chosen or chosen[0][1] != value] *)
Definition lacks (by_slot : list (Z * list Candidate)) slot (v : V) : bool :=
  match default [] (assoc_get slot by_slot) with
  | [] => true
  | c :: _ => negb (bool_decide (c.1.2 = v))
  end.

(** [left[:common] != right[:common]] *)
Definition diverged (l r : list V) : bool :=
  let common := Nat.min (length l) (length r) in negb (bool_decide (take common l = take common r)).

(** [PaxosLogSafetyHarness.checkpoint] *)
Definition checkpoint : M unit :=
  let! q := gets cluster_size in
  let! ids := gets (λ w, w.(objs).(node_ids)) in
  let! evidence := collect_evidence true "proposal has conflicting accepted values" ids ([], []) in
  let by_slot := chosen_by_slot q evidence in
  for_each by_slot (λ e, raise_if (conflicting e.2) PaxosSafetyViolation
    "durable quorum evidence chose multiple values for slot") ;;
  for_each ids (λ n,
    let! learned := gets (λ w, map_to_list (dur w n).(d_learned)) in
    for_each learned (λ e, raise_if (lacks by_slot e.1 e.2.(sl_value)) PaxosSafetyViolation
      "node learned slot without matching durable majority acceptance")) ;;
  let! objective := gets (λ w, map_to_list w.(objs).(chosen)) in
  for_each objective (λ e, raise_if (lacks by_slot e.1 e.2.(sl_value)) PaxosSafetyViolation
    "objective chosen slot lacks durable majority evidence") ;;
  let! prefixes := gets (λ w, (λ n, sl_value <$> learned_prefix w n) <$> ids) in
  for_each prefixes (λ left, for_each prefixes (λ right,
    raise_if (diverged left right) PaxosSafetyViolation "learned Paxos log prefixes diverged")).

(** ** Recovery *)

(** [min(candidates, key=lambda item: item[0])]: the first least one *)
Definition min_candidate (c : Candidate) (cs : list Candidate) : Candidate :=
  foldl (λ best x, if pn_ltb x.1.1 best.1.1 then x else best) c cs.

Definition recover_slot slot (cs : list Candidate) : M unit :=
  match cs with
  | [] => ret tt
  | c :: cs' =>
      let value := c.1.2 in
      raise_if (conflicting cs) PaxosSafetyViolation "durable quorum evidence chose multiple values for slot" ;;
      let best := min_candidate c cs' in
      let proposal := best.1.1 in
      let accs := sorted_str (elements best.2) in
      let! decision := lift (new_SlotLearnedDecision slot proposal value) in
      upd_objs (Σ := PLSig) (set_chosen slot decision accs) ;;
      trace_rec (LRChosenRecovered slot proposal value accs)
  end.

(** [_recover_chosen_from_durable_history] *)
Definition recover_chosen : M unit :=
  let! ids := gets (λ w, w.(objs).(node_ids)) in
  let! evidence := collect_evidence false "proposal has conflicting durable accepted values" ids ([], []) in
  let! q := gets cluster_size in
  let by_slot := chosen_by_slot q evidence in
  for_each (merge_sort Z.le by_slot.*1) (λ slot, recover_slot slot (default [] (assoc_get slot by_slot))).

(** ** The cluster *)

(** [PaxosLogCluster.__init__]; with [recovering], the one of
    [RecoveringPaxosLogCluster]. *)
Definition init_cluster (recovering : bool) (ids : list string) : M unit :=
  raise_if (bool_decide (ids = [])) ValueError "Paxos log cluster requires at least one node" ;;
  raise_if (negb (bool_decide (NoDup ids))) ValueError "Paxos log node ids must be unique" ;;
  upd_objs (Σ := PLSig) (λ _, mkPLObjects ids ∅ ∅ ∅) ;;
  for_each ids validate_durable_state ;;
  for_each ids (λ n, register (Σ := PLSig) n n (Some n) (Some n)) ;;
  when recovering (recover_chosen ;; checkpoint).

(** A fresh simulator over the durable state [disks]. *)
Definition boot_world (plan : FaultPlan) (disks : gmap string PLDurable) : World :=
  mkWorld (Σ := PLSig) (set_persistent_state (Σ := PLSig) disks (new_Simulator plan)) (mkPLObjects [] ∅ ∅ ∅).

Definition pl_run (fuel : nat) (k : option Z) : M Z := run (Σ := PLSig) handle_message fuel k.
Definition pl_run_until (fuel : nat) (t : Z) : M Z := run_until_time (Σ := PLSig) handle_message fuel t.
Definition pl_crash n : M unit := crash (Σ := PLSig) handle_crash n.
Definition pl_restart n : M unit := restart (Σ := PLSig) handle_restart n.

(** [cluster.node(node_id)] *)
Definition node n : M string :=
  let! known := gets (λ w, member w n) in
  if known then ret n else raise KeyError "nodes".

(** The calls a caller makes on the cluster and its simulator. *)
Inductive pl_op :=
  | OpStart n slot (v : V) (round_number : option Z)
  | OpRun (fuel : nat) (max_events : option Z)
  | OpRunUntil (fuel : nat) (deadline : Z)
  | OpCrash n
  | OpRestart n
  | OpPartition (left right : list string)
  | OpHealPartition (left right : list string)
  | OpBlockLink (s d : string)
  | OpHealLink (s d : string)
  | OpSetLinkDelay (s d : string) (extra_delay : Z)
  | OpClearLinkDelay (s d : string)
  | OpCheckpoint.

Definition exec_op (o : pl_op) : M unit :=
  match o with
  | OpStart n slot v r => let! n := node n in start_proposal n slot v r ;; ret tt
  | OpRun fuel k => pl_run fuel k ;; ret tt
  | OpRunUntil fuel t => pl_run_until fuel t ;; ret tt
  | OpCrash n => pl_crash n
  | OpRestart n => pl_restart n
  | OpPartition l r => partition l r
  | OpHealPartition l r => heal_partition l r
  | OpBlockLink s d => block_link s d
  | OpHealLink s d => heal_link s d
  | OpSetLinkDelay s d x => set_link_delay s d x
  | OpClearLinkDelay s d => clear_link_delay s d
  | OpCheckpoint => checkpoint
  end.

(** What a call proposes is allowed for its slot. *)
Definition proposes (P : Z → V → Prop) (o : pl_op) : Prop :=
  match o with OpStart _ slot v _ => P slot v | _ => True end.

(** One call, or a reboot of the cluster over its disks, with recovery or
    without. *)
Inductive next (P : Z → V → Prop) (ids : list string) w : World → Prop :=
  | next_call o w' r : proposes P o → exec_op o w = (w', r) → next P ids w w'
  | next_reboot recovering plan w' :
      init_cluster recovering ids (boot_world plan w.(sim).(persistent_state)) = (w', inr tt) →
      next P ids w w'.

(** Worlds reached from a fresh cluster. *)
Inductive reachable (P : Z → V → Prop) (ids : list string) : World → Prop :=
  | reach_init recovering plan w :
      init_cluster recovering ids (boot_world plan ∅) = (w, inr tt) → reachable P ids w
  | reach_next w w' : reachable P ids w → next P ids w w' → reachable P ids w'.
End paxos_log.
