(* ===== verification/PaxosLogRefine.v ===== *)
(** * PaxosLogRefine: each slot of [paxos_log.py] refines a decree

    The abstract state is a family of [Consensus] machines, one per slot; a call
    takes any number of steps of any of them ([slots_step]).  What a slot's
    share of a dictionary, of a message and of a proposal stands for is what the
    lemmas of [Decree] are about ([slot_dur], [state_of]), and every change the
    handlers make to it is one of theirs. *)

From stdpp Require Import relations functions.
From S2P Require Import Prelude Simulator SimFacts Quorum Consensus Paxos Decree Slots Refinement PaxosLog.

Section refinement.
Context {V : Type} `{EqDecision V}.
Implicit Types (w : World (PLSig (V := V))) (n : string) (slot k : Z) (d : PLDurable (V := V)) (S : Z → State V).

(** ** A slot's share *)

Definition acc_of (a : SlotAcceptedValue V) : AcceptedValue := mkAcceptedValue a.(sa_proposal) a.(sa_value).
Definition learned_of (l : SlotLearnedDecision V) : LearnedDecision := mkLearnedDecision l.(sl_proposal) l.(sl_value).
Definition promise_of (p : SlotPromise (V := V)) : Promise :=
  mkPromise p.(spr_proposal) p.(spr_acceptor_id) (acc_of <$> p.(spr_accepted)).
Definition state_of (st : SlotProposalState (V := V)) : ProposalState :=
  mkProposalState st.(st_proposal) st.(st_original_value) ((λ e, (e.1, promise_of e.2)) <$> st.(st_promises))
    st.(st_accepted_by) st.(st_chosen_value) st.(st_accept_phase_started).
Definition slot_dur k d : PaxosDurable :=
  mkPaxosDurable (d.(d_promised) !! k) (acc_of <$> d.(d_accepted) !! k)
    (acc_of <$> filter (λ a, a.(sa_slot) = k) d.(d_accept_history)) (learned_of <$> d.(d_learned) !! k)
    d.(d_last_proposal_round).

Lemma elem_slot_history k d a :
  a ∈ Paxos.d_accept_history (slot_dur k d)
  ↔ mkSlotAccepted k a.(av_proposal) a.(av_value) ∈ d.(d_accept_history).
Proof.
  simpl. rewrite list_elem_of_fmap. split.
  - intros ([slot p v] & -> & [Hs Ha]%list_elem_of_filter). simpl in *. by subst.
  - intros Ha. eexists. split; [|apply list_elem_of_filter; split; [|exact Ha]]; by destruct a.
Qed.

Lemma state_of_promise r ps (st : SlotProposalState (V := V)) :
  st.(st_promises) = ps →
  state_of (set_promises (setdefault_promise r ps) st)
  = Paxos.set_promises (Paxos.setdefault_promise (promise_of r) (ps_promises (state_of st))) (state_of st).
Proof.
  intros <-. unfold state_of, Paxos.set_promises, setdefault_promise, Paxos.setdefault_promise. simpl. f_equal.
  assert (existsb (λ e : string * Promise, (e.1 =? spr_acceptor_id r)%string) ((λ e, (e.1, promise_of e.2)) <$> st_promises st)
    = existsb (λ e : string * SlotPromise, (e.1 =? spr_acceptor_id r)%string) (st_promises st)) as ->.
  { induction (st_promises st) as [|e ps IH]; [done|]. rewrite fmap_cons. cbn [existsb]. by rewrite IH. }
  destruct (existsb _ _); [done|]. by rewrite fmap_app.
Qed.

Lemma pn_max_acc p (l : list (SlotAcceptedValue V)) :
  pn_max p (av_proposal <$> (acc_of <$> l)) = pn_max p (sa_proposal <$> l).
Proof. by rewrite <-list_fmap_compose. Qed.

(** Choosing a value is choosing it in the decree. *)
Lemma choose_value_of (st : SlotProposalState (V := V)) v :
  Paxos.choose_value (state_of st) = inr v → choose_value st = inr v.
Proof.
  unfold Paxos.choose_value, choose_value. simpl.
  assert (omap (λ e : string * Promise, prom_accepted e.2) ((λ e, (e.1, promise_of e.2)) <$> st_promises st)
    = acc_of <$> omap (λ e : string * SlotPromise, spr_accepted e.2) (st_promises st)) as ->.
  { induction (st_promises st) as [|[a p] ps IH]; [done|]. rewrite fmap_cons. unfold omap in *. simpl in *.
    destruct (spr_accepted p); simpl; by rewrite IH. }
  destruct (omap _ (st_promises st)) as [|a l]; simpl; [done|]. rewrite pn_max_acc.
  set (hi := pn_max _ _).
  assert (∀ l : list (SlotAcceptedValue V), filter (λ i, av_proposal i = hi) (acc_of <$> l)
    = acc_of <$> filter (λ i, sa_proposal i = hi) l) as Hf.
  { intros l'. induction l' as [|x l' IH]; [done|]. rewrite fmap_cons, !filter_cons. simpl. rewrite IH.
    by case_decide. }
  change (acc_of a :: list_fmap _ _ acc_of l) with (acc_of <$> a :: l). rewrite Hf.
  destruct (filter _ (a :: l)) as [|x k]; [done|]. rewrite fmap_cons.
  assert (existsb (λ i, negb (bool_decide (av_value i = av_value (acc_of x)))) (acc_of <$> k)
    = existsb (λ i, negb (bool_decide (sa_value i = sa_value x))) k) as ->; [|by destruct (existsb _ k)].
  induction k as [|y k IH]; [done|]. rewrite fmap_cons. cbn [existsb]. by rewrite IH.
Qed.

(** ** Changes to one dictionary *)

Lemma slot_promised k k' p d :
  slot_dur k' (set_promised k p d)
  = if decide (k' = k) then Paxos.set_promised p (slot_dur k d) else slot_dur k' d.
Proof.
  unfold slot_dur, Paxos.set_promised. simpl. case_decide as Hk; subst.
  - by rewrite lookup_insert_eq.
  - by rewrite lookup_insert_ne.
Qed.

Lemma slot_learned k k' l d :
  slot_dur k' (set_learned k l d)
  = if decide (k' = k) then Paxos.set_learned (learned_of l) (slot_dur k d) else slot_dur k' d.
Proof.
  unfold slot_dur, Paxos.set_learned. simpl. case_decide as Hk; subst.
  - by rewrite lookup_insert_eq.
  - by rewrite lookup_insert_ne.
Qed.

Definition pl_accept_dur (a : SlotAcceptedValue V) d : PLDurable :=
  mkPLDurable (<[a.(sa_slot) := a.(sa_proposal)]> d.(d_promised)) (<[a.(sa_slot) := a]> d.(d_accepted))
    (if bool_decide (a ∈ d.(d_accept_history)) then d.(d_accept_history) else d.(d_accept_history) ++ [a])
    d.(d_learned) d.(d_last_proposal_round).

Lemma slot_accepted k (a : SlotAcceptedValue V) d :
  slot_dur k (pl_accept_dur a d)
  = if decide (k = a.(sa_slot)) then accept_dur (acc_of a) (slot_dur k d) else slot_dur k d.
Proof.
  unfold slot_dur, accept_dur. simpl. case_decide as Hk.
  - subst k. rewrite !lookup_insert_eq. simpl. f_equal.
    assert (acc_of a ∈ (acc_of <$> filter (λ a', sa_slot a' = sa_slot a) (d_accept_history d)) ↔ a ∈ d_accept_history d) as Hin.
    { rewrite (elem_slot_history (sa_slot a) d (acc_of a)). by destruct a. }
    case_bool_decide as Ha; rewrite <-Hin in Ha.
    + by rewrite bool_decide_eq_true_2.
    + rewrite bool_decide_eq_false_2 by done. by rewrite filter_app, fmap_app, filter_cons_True.
  - rewrite !lookup_insert_ne by done. f_equal. case_bool_decide; [done|].
    by rewrite filter_app, fmap_app, filter_cons_False, app_nil_r.
Qed.

(** What [_validate_durable_state] asks of the keys *)
Record keys_ok d : Prop := {
  ko_promised k p : d.(d_promised) !! k = Some p → 0 < k;
  ko_accepted k a : d.(d_accepted) !! k = Some a → 0 < k ∧ a.(sa_slot) = k;
  ko_learned k l : d.(d_learned) !! k = Some l → 0 < k ∧ l.(sl_slot) = k;
  ko_history a : a ∈ d.(d_accept_history) → 0 < a.(sa_slot);
}.

Lemma keys_promised k p d : 0 < k → keys_ok d → keys_ok (set_promised k p d).
Proof.
  intros Hk []. split; simpl; try done.
  intros k' p' [[<- _]|[_ ?]]%lookup_insert_Some; [done|by eapply ko_promised0].
Qed.

Lemma keys_learned k l d : 0 < k → l.(sl_slot) = k → keys_ok d → keys_ok (set_learned k l d).
Proof.
  intros Hk Hl []. split; simpl; try done.
  intros k' l' [[<- <-]|[_ ?]]%lookup_insert_Some; [done|by eapply ko_learned0].
Qed.

Lemma keys_accepted (a : SlotAcceptedValue V) d : 0 < a.(sa_slot) → keys_ok d → keys_ok (pl_accept_dur a d).
Proof.
  intros Ha []. split; simpl; try done.
  - intros k p [[<- _]|[_ ?]]%lookup_insert_Some; [done|by eapply ko_promised0].
  - intros k a' [[<- <-]|[_ ?]]%lookup_insert_Some; [done|by eapply ko_accepted0].
  - intros a'. case_bool_decide; [by apply ko_history0|].
    intros [?|Hin%list_elem_of_singleton]%elem_of_app; [by apply ko_history0|by subst].
Qed.

Section with_ids.
(** The cluster's nodes, those that have registered their callbacks, and what
    callers propose for a slot. *)
Context (ids reg : list string) (P : Z → V → Prop).
Local Abbreviation quorum := (majority ids).

(** ** The machines of the slots *)

Definition slots_step S S' : Prop := ∀ k, rtc (step quorum) (S k) (S' k).

Lemma slots_refl S : slots_step S S.
Proof. by intros k. Qed.

Lemma slots_steps S S' : rtc slots_step S S' → slots_step S S'.
Proof.
  induction 1 as [S|S1 S2 S3 H1 _ IH]; [apply slots_refl|]. intros k. etrans; [apply H1|apply IH].
Qed.

Lemma slots_one S k s' : rtc (step quorum) (S k) s' → rtc slots_step S (<[k := s']> S).
Proof.
  intros Hs. apply rtc_once. intros k'. destruct (decide (k' = k)) as [->|Hne];
    [by rewrite fn_lookup_insert|by rewrite fn_lookup_insert_ne].
Qed.

Definition slot_msg_ok S (p : PLPayload (V := V)) : Prop :=
  match p with
  | LPrepare m => 0 < m.(sp_slot) ∧ m.(sp_proposer_id) ∈ ids
  | LPromise m => 0 < m.(spr_slot) ∧ m.(spr_acceptor_id) ∈ ids
      ∧ (m.(spr_proposal), m.(spr_acceptor_id), report_of (acc_of <$> m.(spr_accepted))) ∈ (S m.(spr_slot)).(reports)
  | LAcceptRequest m => 0 < m.(sar_slot) ∧ m.(sar_proposer_id) ∈ ids
      ∧ (1, m.(sar_proposal), m.(sar_value)) ∈ (S m.(sar_slot)).(proposed)
  | LAccepted m => 0 < m.(sac_slot) ∧ m.(sac_acceptor_id) ∈ ids
      ∧ (1, m.(sac_proposal), m.(sac_acceptor_id), m.(sac_value)) ∈ (S m.(sac_slot)).(votes)
  | LLearn m => 0 < m.(sle_slot) ∧ chosen_at quorum (S m.(sle_slot)) 1 m.(sle_proposal) m.(sle_value)
  | LOther _ => False
  end.

Lemma slot_msg_mono S S' p : rtc slots_step S S' → slot_msg_ok S p → slot_msg_ok S' p.
Proof.
  intros Hs%slots_steps. destruct p as [m|m|m|m|m|ty]; simpl; [done| | | | |done];
    [specialize (Hs (spr_slot m))|specialize (Hs (sar_slot m))|specialize (Hs (sac_slot m))|specialize (Hs (sle_slot m))];
    naive_solver eauto using steps_proposed, steps_votes, steps_reports, steps_chosen.
Qed.

Local Abbreviation queue_ok S q := (messages_ok (Σ := PLSig (V := V)) slot_msg_ok (.∈ ids) S q).

(** A proposal in progress at [n] for [k] *)
Definition proposing S n k d (st : SlotProposalState (V := V)) : Prop :=
  st.(st_slot) = k ∧ 0 < k ∧ P k st.(st_original_value) ∧ active_ok ids (S k) n (slot_dur k d) (state_of st).

Record pl_R w S : Prop := {
  pl_ids : w.(objs).(node_ids) = ids;
  pl_decree k : decree ids (S k);
  pl_values k slot b v : (slot, b, v) ∈ (S k).(proposed) → P k v;
  pl_dur n k : dur_ok ids (S k) n (slot_dur k (dur w n));
  pl_keys n : keys_ok (dur w n);
  pl_queue : queue_ok S w.(sim).(queue);
  pl_active n k st : proposal_of w n k = Some st → proposing S n k (dur w n) st;
  pl_chosen k l : w.(objs).(chosen) !! k = Some l →
    l.(sl_slot) = k ∧ 0 < k ∧ chosen_at quorum (S k) 1 l.(sl_proposal) l.(sl_value);
  pl_handlers e h : w.(sim).(handlers) !! e = Some h → h ∈ ids;
  pl_crash_handlers e h : w.(sim).(crash_handlers) !! e = Some h → h ∈ ids;
  pl_restart_handlers e h : w.(sim).(restart_handlers) !! e = Some h → h ∈ ids;
  pl_registered e : e ∈ reg → is_Some (w.(sim).(handlers) !! e);
}.

Lemma pl_protocol : protocol (Σ := PLSig (V := V)) slots_step pl_R slot_msg_ok (.∈ ids) (.∈ ids).
Proof.
  split; [apply slot_msg_mono| |by apply pl_queue|by intros w s n h []; eauto|by intros w s n h []; eauto].
  intros w S st HR Hp Hq Hh Hc Hr.
  assert (∀ n, dur (mkWorld (Σ := PLSig) st w.(objs)) n = dur w n) as Hd.
  { intros n. unfold dur, durable. simpl. by rewrite Hp. }
  split; try apply HR; simpl.
  - intros n k. rewrite Hd. apply HR.
  - intros n. rewrite Hd. apply HR.
  - exact Hq.
  - intros n k. rewrite Hd. apply (pl_active _ _ HR n k).
  - rewrite Hh. apply HR.
  - rewrite Hc. apply HR.
  - rewrite Hr. apply HR.
  - rewrite Hh. apply HR.
Qed.

(** ** Changes to the world *)

(** A write to a dictionary that is a step of one slot *)
Lemma pl_R_write n k d w w' S s' :
  dur_ext (Σ := PLSig) n d w w' → pl_R w S → rtc (step quorum) (S k) s' → s'.(proposed) = (S k).(proposed) → keys_ok d →
  dur_ok ids s' n (slot_dur k d) → (∀ k', k' ≠ k → slot_dur k' d = slot_dur k' (dur w n)) →
  (∀ n', n' ≠ n → dur_ok ids s' n' (slot_dur k (dur w n'))) →
  d.(d_last_proposal_round) = (dur w n).(d_last_proposal_round) → pl_R w' (<[k := s']> S).
Proof.
  intros He HR Hs Hp Hkeys Hd Hsame Hother Hlast.
  assert (w'.(objs) = w.(objs)) as Ho by apply He.
  assert (∀ n', n' ≠ n → dur w' n' = dur w n') as Hne by (intros; by apply (de_other _ _ _ _ He)).
  assert (dur w' n = d) as Heq by apply (de_at _ _ _ _ He).
  assert (∀ k', (<[k := s']> S) k' = if decide (k' = k) then s' else S k') as Hk.
  { intros k'. case_decide as Hk'; [subst; by rewrite fn_lookup_insert|by rewrite fn_lookup_insert_ne]. }
  split; try (rewrite Ho; apply HR).
  - intros k'. rewrite Hk. case_decide; [|apply HR]. eapply decree_same; [apply HR|exact Hs|done].
  - intros k' slot b v. rewrite Hk. case_decide; [subst k'; rewrite Hp|]; apply HR.
  - intros n' k'. rewrite Hk. destruct (decide (n' = n)) as [->|Hn']; case_decide as Hk'.
    + subst k'. by rewrite Heq.
    + rewrite Heq, Hsame by done. apply HR.
    + subst k'. rewrite Hne by done. by apply Hother.
    + rewrite Hne by done. apply HR.
  - intros n'. destruct (decide (n' = n)) as [->|?]; [by rewrite Heq|rewrite Hne by done; apply HR].
  - rewrite (de_queue _ _ _ _ He). eapply messages_mono; [apply pl_protocol|by apply slots_one|apply HR].
  - intros n' k' st. unfold proposal_of, proposals_of. rewrite Ho. intros Hst.
    destruct (pl_active _ _ HR n' k' st Hst) as (? & ? & ? & Hact). split_and!; [done..|].
    eapply (active_ok_mono ids (S k')); [..|exact Hact].
    + rewrite Hk. case_decide as Hkk; [by rewrite Hkk|reflexivity].
    + rewrite Hk. case_decide as Hkk; [by rewrite Hkk|reflexivity].
    + destruct (decide (n' = n)) as [->|Hn']; [rewrite Heq; simpl; lia|by rewrite Hne].
  - rewrite Ho. intros k' l Hl. destruct (pl_chosen _ _ HR k' l Hl) as (? & ? & ?). split_and!; [done..|].
    rewrite Hk. case_decide as Hkk; [rewrite Hkk in *; by eapply steps_chosen|done].
  - rewrite (de_handlers _ _ _ _ He). apply HR.
  - rewrite (de_crash _ _ _ _ He). apply HR.
  - rewrite (de_restart _ _ _ _ He). apply HR.
  - rewrite (de_handlers _ _ _ _ He). apply HR.
Qed.

Lemma pl_R_round n r w w' S :
  dur_ext (Σ := PLSig) n (set_last_round r (dur w n)) w w' → (dur w n).(d_last_proposal_round) ≤ r → pl_R w S → pl_R w' S.
Proof.
  intros He Hr HR.
  assert (w'.(objs) = w.(objs)) as Ho by apply He.
  assert (∀ n', n' ≠ n → dur w' n' = dur w n') as Hne by (intros; by apply (de_other _ _ _ _ He)).
  assert (dur w' n = set_last_round r (dur w n)) as Heq by apply (de_at _ _ _ _ He).
  split; try (rewrite Ho; apply HR); try apply HR.
  - intros n' k. destruct (decide (n' = n)) as [->|?]; [rewrite Heq|rewrite Hne by done; apply HR].
    apply (dur_ok_last_round ids (S k) n (slot_dur k (dur w n)) r); [apply HR|done].
  - intros n'. destruct (decide (n' = n)) as [->|?]; [rewrite Heq; by destruct (pl_keys _ _ HR n)|rewrite Hne by done; apply HR].
  - rewrite (de_queue _ _ _ _ He). apply HR.
  - intros n' k st. unfold proposal_of, proposals_of. rewrite Ho. intros Hst.
    destruct (pl_active _ _ HR n' k st Hst) as (? & ? & ? & Hact). split_and!; [done..|].
    eapply (active_ok_mono ids (S k)); [done|done| |exact Hact].
    destruct (decide (n' = n)) as [->|?]; [by rewrite Heq|by rewrite Hne].
  - rewrite (de_handlers _ _ _ _ He). apply HR.
  - rewrite (de_crash _ _ _ _ He). apply HR.
  - rewrite (de_restart _ _ _ _ He). apply HR.
  - rewrite (de_handlers _ _ _ _ He). apply HR.
Qed.

Lemma pl_R_proposals n m w S :
  pl_R w S → (∀ k st, m !! k = Some st → proposing S n k (dur w n) st) →
  pl_R (mkWorld (Σ := PLSig) w.(sim) (set_proposals (<[n := m]> w.(objs).(proposals)) w.(objs))) S.
Proof.
  intros HR Hm. split; try apply HR. intros n' k st. unfold proposal_of, proposals_of. simpl.
  destruct (decide (n' = n)) as [->|Hne].
  - rewrite lookup_insert_eq. apply Hm.
  - rewrite lookup_insert_ne by done. apply (pl_active _ _ HR n' k st).
Qed.

Lemma pl_R_chosen k l accs w S :
  pl_R w S → l.(sl_slot) = k → 0 < k → chosen_at quorum (S k) 1 l.(sl_proposal) l.(sl_value) →
  pl_R (mkWorld (Σ := PLSig) w.(sim) (set_chosen k l accs w.(objs))) S.
Proof.
  intros HR Hl Hk Hc. split; try apply HR. simpl.
  intros k' l' [[<- <-]|[_ Hl']]%lookup_insert_Some; [done|by apply HR].
Qed.

(** ** The handlers *)

Context (ok : exn → Prop).
Local Abbreviation safely := (safely slots_step pl_R ok).

Lemma pl_record S r w : pl_R w S → safely S (trace_rec r) w.
Proof. apply (protocol_record _ _ _ _ _ _ pl_protocol). Qed.

Lemma pl_send S sr n p w : pl_R w S → slot_msg_ok S p → n ∈ ids → safely S (net_send sr n p) w.
Proof. apply (protocol_send _ _ _ _ _ _ pl_protocol). Qed.

Lemma pl_peers w S n : pl_R w S → ∀ x, x ∈ peers w n → x ∈ ids.
Proof. intros HR x. unfold peers. rewrite (pl_ids _ _ HR), list_elem_of_filter. by intros [_ ?]. Qed.

Lemma pl_broadcast S n p w : pl_R w S → slot_msg_ok S p → safely S (for_each (peers w n) (λ peer, net_send n peer p)) w.
Proof. intros HR Hp. apply (protocol_send_all _ _ _ _ _ _ pl_protocol); [done..|]. by eapply pl_peers. Qed.

Lemma pl_known w S n : pl_R w S → member w n = bool_decide (n ∈ ids).
Proof. intros HR. unfold member. by rewrite (pl_ids _ _ HR). Qed.

(** A property of a positive slot *)
Lemma refines_slot {A B} S slot (f : World (PLSig (V := V)) → A) (kont : A → M (World (PLSig (V := V))) B) Q w :
  0 < slot → refines slots_step pl_R ok S (kont (f w)) Q w →
  refines slots_step pl_R ok S (bind (require_slot slot ;; gets f) kont) Q w.
Proof.
  intros Hs Hk. apply wp_bind. unfold require_slot. apply wp_bind, wp_raise_if; [intros ?%Z.leb_le; lia|].
  intros _. by apply wp_gets.
Qed.

Lemma new_decision slot p (v : V) : 0 < slot → new_SlotLearnedDecision slot p v = inr (mkSlotLearned slot p v).
Proof. intros Hs. unfold new_SlotLearnedDecision. by destruct (Z.leb_spec slot 0); [lia|]. Qed.

Lemma pl_agree w S k b b' v v' :
  pl_R w S → chosen_at quorum (S k) 1 b v → chosen_at quorum (S k) 1 b' v' → v = v'.
Proof. intros HR. apply (decree_agree ids). apply HR. Qed.

Lemma pl_receive_learn n (m : SlotLearn (V := V)) w S :
  pl_R w S → 0 < m.(sle_slot) → chosen_at quorum (S m.(sle_slot)) 1 m.(sle_proposal) m.(sle_value) →
  safely S (receive_learn n m) w.
Proof.
  intros HR Hslot Hc. unfold receive_learn. apply refines_slot; [done|].
  destruct (d_learned (dur w n) !! sle_slot m) as [l|] eqn:El.
  - pose proof (do_learned _ _ _ _ (pl_dur _ _ HR n (sle_slot m)) (learned_of l)) as Hl.
    simpl in Hl. rewrite El in Hl. specialize (Hl eq_refl). simpl in Hl.
    rewrite bool_decide_eq_true_2 by (by eapply pl_agree). by apply safely_intro.
  - rewrite new_decision by done. apply wp_bind, wp_lift.
    set (l := mkSlotLearned _ _ _). eapply safely_bind.
    + apply wp_persist. intros w' He. exists (<[sle_slot m := S (sle_slot m)]> S).
      split; [by apply slots_one|]. split; [|done].
      eapply pl_R_write; [exact He|done|done|done|..|done].
      * by apply keys_learned; [| |apply HR].
      * rewrite slot_learned, decide_True by done. apply dur_ok_learn; [apply HR|done].
      * intros k' Hk'. by rewrite slot_learned, decide_False.
      * intros; apply HR.
    + intros S1 w1 _ _ HR1. apply refines_gets. by apply pl_record.
Qed.

Lemma pl_record_chosen k p v (accs : gset string) w S :
  pl_R w S → 0 < k → quorum_size ids ≤ Z.of_nat (size accs) → chosen_at quorum (S k) 1 p v →
  safely S (record_chosen k p v accs) w.
Proof.
  intros HR Hk Hsize Hc. unfold record_chosen. apply refines_gets. unfold cluster_size. rewrite (pl_ids _ _ HR).
  apply refines_guard; [by apply Z.ltb_ge|]. apply refines_gets.
  destruct (chosen (objs w) !! k) as [l|] eqn:El.
  - rewrite bool_decide_eq_true_2 by (eapply pl_agree; [done|by eapply (pl_chosen _ _ HR k l)|done]).
    by apply safely_intro.
  - rewrite new_decision by done. apply wp_bind, wp_lift.
    eapply safely_bind; [|intros; by apply pl_record].
    exists S. split; [done|]. split; [|done]. by apply pl_R_chosen.
Qed.

Lemma pl_upd_proposals n f w S :
  pl_R w S → (∀ k st, f (proposals_of w n) !! k = Some st → proposing S n k (dur w n) st) →
  safely S (upd_proposals n f) w.
Proof. intros HR Hf. exists S. split; [done|]. split; [|done]. by apply pl_R_proposals. Qed.

Lemma proposing_insert n k st w S :
  pl_R w S → proposing S n k (dur w n) st →
  ∀ k' st', <[k := st]> (proposals_of w n) !! k' = Some st' → proposing S n k' (dur w n) st'.
Proof.
  intros HR Hst k' st' [[<- <-]|[_ ?]]%lookup_insert_Some; [done|]. by apply (pl_active _ _ HR n k' st').
Qed.

Lemma pl_finish n k w S : pl_R w S → safely S (upd_proposals n (delete k)) w.
Proof.
  intros HR. apply pl_upd_proposals; [done|].
  intros k' st [_ ?]%lookup_delete_Some. by apply (pl_active _ _ HR n k' st).
Qed.

Lemma pl_receive_accepted n (r : SlotAccepted (V := V)) w S :
  pl_R w S → r.(sac_acceptor_id) ∈ ids →
  (1, r.(sac_proposal), r.(sac_acceptor_id), r.(sac_value)) ∈ (S r.(sac_slot)).(votes) →
  safely S (receive_accepted n r) w.
Proof.
  intros HR Ha Hvote. unfold receive_accepted. apply refines_gets.
  destruct (proposal_of w n (sac_slot r)) as [st|] eqn:Est; [|by apply pl_record].
  case_bool_decide as Hp; simpl; [|by apply pl_record].
  destruct (st_accept_phase_started st) eqn:Hst; simpl; [|by apply pl_record].
  destruct (pl_active _ _ HR _ _ _ Est) as (Hslot & Hpos & HP & Hact).
  pose proof (ao_started _ _ _ _ _ Hact) as Hs. simpl in Hs. rewrite Hst in Hs.
  destruct Hs as (v & Hv & Hprop & _).
  assert (r.(sac_value) = v) as Hrv.
  { eapply (dc_unique _ _ (pl_decree _ _ HR (sac_slot r))); [|exact Hprop]. rewrite <-Hp.
    eapply vote_proposed; [apply (pl_decree _ _ HR)|exact Hvote]. }
  apply refines_guard; [by rewrite Hv, Hrv, bool_decide_eq_true_2|].
  set (st' := add_accepted_by _ st). rewrite Hp in Hvote.
  assert (active_ok ids (S (sac_slot r)) n (slot_dur (sac_slot r) (dur w n)) (state_of st')) as Hact'.
  { eapply (active_ok_accept ids (S (sac_slot r)) n _ (state_of st)); [done..|by rewrite <-Hrv]. }
  eapply safely_bind; [apply pl_upd_proposals; [done|by apply proposing_insert]|]. intros S1 w1 _ Hs1 HR1.
  apply refines_gets. unfold cluster_size. rewrite (pl_ids _ _ HR1).
  destruct (_ <? quorum_size ids) eqn:Hsize; [by apply safely_intro|]. apply Z.ltb_ge in Hsize.
  destruct (accepted_chosen ids (S (sac_slot r)) n _ (state_of st') (sac_value r) Hact') as (_ & _ & Hc);
    [done|by rewrite Hrv|done|].
  apply (steps_chosen quorum _ (S1 (sac_slot r))) in Hc; [|by apply slots_steps]. simpl in Hc.
  cbv zeta. change (st_slot st') with (st_slot st). change (st_proposal st') with (st_proposal st).
  rewrite Hslot. eapply safely_bind; [by apply pl_record_chosen|]. intros S2 w2 _ Hs2 HR2.
  apply (steps_chosen quorum _ (S2 (sac_slot r))) in Hc; [|by apply slots_steps].
  eapply safely_bind; [by apply pl_receive_learn|]. intros S3 w3 _ Hs3 HR3.
  apply refines_gets. eapply safely_bind; [|intros; by apply pl_finish].
  apply pl_broadcast; [done|]. simpl. split; [done|].
  eapply steps_chosen; [|exact Hc]. by apply slots_steps.
Qed.

(** What [receive_accept_request] does once the vote is durable *)
Lemma pl_answer_accept n (r : SlotAcceptRequest (V := V)) w w' S :
  let k := r.(sar_slot) in let a := mkSlotAccepted k r.(sar_proposal) r.(sar_value) in
  pl_R w S → n ∈ ids → r.(sar_proposer_id) ∈ ids → 0 < k →
  (1, r.(sar_proposal), r.(sar_value)) ∈ (S k).(proposed) → may_act (S k) n r.(sar_proposal) →
  dur_ext (Σ := PLSig) n (pl_accept_dur a (dur w n)) w w' →
  safely S (trace_rec (LRAccepted k n r.(sar_proposer_id) r.(sar_proposal) r.(sar_value)) ;;
    (if (r.(sar_proposer_id) =? n)%string
     then receive_accepted n (mkSlotAcceptedMsg k r.(sar_proposal) n r.(sar_value))
     else net_send n r.(sar_proposer_id) (LAccepted (mkSlotAcceptedMsg k r.(sar_proposal) n r.(sar_value))))) w'.
Proof.
  intros k a HR Hn Hr Hk Hprop Hmay He.
  pose proof (vote_step ids (S k) n _ _ (pl_decree _ _ HR k) Hprop Hmay) as Hs.
  eapply refines_steps; [by apply slots_one|]. eapply safely_bind.
  - apply pl_record. eapply pl_R_write; [exact He|done|exact Hs|done|..|done].
    + by apply keys_accepted; [|apply HR].
    + rewrite slot_accepted, decide_True by done. apply dur_ok_vote; [apply HR..|done].
    + intros k' Hk'. by rewrite slot_accepted, decide_False.
    + intros n' Hne. apply vote_others; [apply HR|done..|apply HR].
  - intros S4 w4 _ Hs4 HR4.
    assert ((1, sar_proposal r, n, sar_value r) ∈ (S4 k).(votes)).
    { eapply steps_votes; [by apply slots_steps|]. rewrite fn_lookup_insert. by left. }
    destruct (sar_proposer_id r =? n)%string; [by apply pl_receive_accepted|by apply pl_send].
Qed.

Lemma pl_receive_accept_request n (r : SlotAcceptRequest (V := V)) w S :
  pl_R w S → n ∈ ids → r.(sar_proposer_id) ∈ ids → 0 < r.(sar_slot) →
  (1, r.(sar_proposal), r.(sar_value)) ∈ (S r.(sar_slot)).(proposed) →
  safely S (receive_accept_request n r) w.
Proof.
  intros HR Hn Hr Hk Hprop. unfold receive_accept_request. apply refines_slot; [done|].
  set (accept := bind (accepted_value _ _) _). set (k := sar_slot r) in *.
  enough (may_act (S k) n (sar_proposal r) → safely S accept w) as Haccept.
  { pose proof (promised_may_act ids (S k) n _ (sar_proposal r) (pl_dur _ _ HR n k)) as Hp. simpl in Hp.
    destruct (d_promised (dur w n) !! k) as [p|]; [|by apply Haccept, Hp].
    destruct (pn_ltb (sar_proposal r) p); [by apply pl_record|by apply Haccept, Hp]. }
  intros Hmay. subst accept. apply refines_slot; [done|].
  pose proof (pl_dur _ _ HR n k) as Hd. apply refines_guard.
  { destruct (d_accepted (dur w n) !! k) as [a|] eqn:Ea; [|done].
    case_bool_decide as Hpa; [|done]. simpl. rewrite bool_decide_eq_true_2; [done|].
    apply (same_ballot_same_value ids (S k) n (slot_dur k (dur w n)) (sar_proposal r) (sar_value r) (acc_of a));
      [apply HR|done|done| |done].
    eapply current_in_history; [exact Hd|]. simpl. by rewrite Ea. }
  set (a := mkSlotAccepted k (sar_proposal r) (sar_value r)).
  apply wp_bind, wp_persist. intros w1 He1.
  unfold new_SlotAcceptedValue. destruct (Z.leb_spec k 0); [lia|]. apply wp_bind, wp_lift.
  apply wp_bind, wp_persist. intros w2 He2. rewrite (de_at _ _ _ _ He1) in He2.
  pose proof (dur_ext_trans _ _ _ _ _ _ He1 He2) as He. clear He1 He2 w1.
  apply wp_bind, wp_gets.
  assert (d_accept_history (dur w2 n) = d_accept_history (dur w n)) as ->.
  { unfold dur at 1. by rewrite (de_at _ _ _ _ He). }
  fold a. destruct (bool_decide (a ∈ d_accept_history (dur w n))) eqn:Hin; apply wp_bind.
  - apply wp_ret. eapply (pl_answer_accept n r w); [done..|].
    unfold pl_accept_dur. simpl. fold k a. rewrite Hin. exact He.
  - apply wp_persist. intros w3 He3. rewrite (de_at _ _ _ _ He) in He3.
    eapply (pl_answer_accept n r w); [done..|].
    unfold pl_accept_dur. simpl. fold k a. rewrite Hin. exact (dur_ext_trans _ _ _ _ _ _ He He3).
Qed.
(** *** Promises *)

(** Proposing a value the promises allow is a step of the slot's machine. *)
Lemma pl_R_propose w S n k (st : SlotProposalState (V := V)) v :
  pl_R w S → proposal_of w n k = Some st → st.(st_accept_phase_started) = false → P k v →
  rtc (step quorum) (S k) (propose_state (S k) st.(st_proposal) v) →
  pl_R (mkWorld (Σ := PLSig) w.(sim)
      (set_proposals (<[n := <[k := start_accept_phase v st]> (proposals_of w n)]> w.(objs).(proposals)) w.(objs)))
    (<[k := propose_state (S k) st.(st_proposal) v]> S).
Proof.
  intros HR Hst Hf HP Hs. pose proof (pl_active _ _ HR _ _ _ Hst) as (Hslot & Hpos & Horig & Hact).
  pose proof (active_ok_unstarted ids _ _ _ _ Hact Hf) as Hno. simpl in Hno.
  set (s' := propose_state _ _ _) in *.
  assert (∀ k', (<[k := s']> S) k' = if decide (k' = k) then s' else S k') as Hk.
  { intros k'. case_decide as Hk'; [subst; by rewrite fn_lookup_insert|by rewrite fn_lookup_insert_ne]. }
  split; try apply HR; simpl.
  - intros k'. rewrite Hk. case_decide; [|apply HR]. by apply decree_propose; [apply HR| |].
  - intros k' slot b u. rewrite Hk. case_decide as Hkk; [|apply HR]. subst k'.
    intros [[= -> -> ->]|?]%elem_of_cons; [done|by eapply HR].
  - intros n' k'. change (dur (mkWorld _ _) n') with (dur w n'). rewrite Hk.
    case_decide as Hkk; [|apply HR]. subst k'. apply dur_ok_propose; [apply HR|]. intros Hown.
    assert (n' = n) as -> by (rewrite <-Hown; apply (ao_owner _ _ _ _ _ Hact)). apply (ao_round _ _ _ _ _ Hact).
  - eapply messages_mono; [apply pl_protocol|by apply slots_one|apply HR].
  - intros n' k' st'. change (dur (mkWorld _ _) n') with (dur w n').
    unfold proposing. rewrite Hk. unfold proposal_of, proposals_of. simpl.
    destruct (decide (n' = n)) as [->|Hn'].
    + rewrite lookup_insert_eq. simpl. intros [[<- <-]|[Hkk Hst']]%lookup_insert_Some.
      * rewrite decide_True by done. split_and!; [done..|]. by apply (active_ok_start ids (S k) n _ (state_of st) v).
      * rewrite decide_False by done. by apply (pl_active _ _ HR n k' st').
    + rewrite lookup_insert_ne by done. intros Hst'. pose proof (pl_active _ _ HR n' k' st' Hst') as (? & ? & ? & Hact').
      split_and!; [done..|]. case_decide as Hkk; [rewrite Hkk in *|done].
      eapply active_ok_other_owner; [done|exact Hs| |exact Hact'].
      intros Hown. apply Hn'. rewrite <-Hown. apply (ao_owner _ _ _ _ _ Hact).
  - intros k' l Hl. destruct (pl_chosen _ _ HR k' l Hl) as (? & ? & ?). split_and!; [done..|].
    rewrite Hk. case_decide as Hkk; [rewrite Hkk in *; by eapply steps_chosen|done].
Qed.

Lemma pl_receive_promise n (r : SlotPromise (V := V)) w S :
  pl_R w S → n ∈ ids → r.(spr_acceptor_id) ∈ ids →
  (r.(spr_proposal), r.(spr_acceptor_id), report_of (acc_of <$> r.(spr_accepted))) ∈ (S r.(spr_slot)).(reports) →
  safely S (receive_promise n r) w.
Proof.
  intros HR Hn Ha Hrep. unfold receive_promise. apply refines_gets.
  destruct (proposal_of w n (spr_slot r)) as [st|] eqn:Est; [|by apply pl_record].
  case_bool_decide as Hp; simpl; [|by apply pl_record].
  destruct (pl_active _ _ HR _ _ _ Est) as (Hslot & Hpos & HP & Hact). rewrite Hp in Hrep.
  apply refines_gets. rewrite (pl_known _ S) by done.
  apply refines_guard; [by rewrite bool_decide_eq_true_2|].
  pose proof (active_ok_promise ids (S (spr_slot r)) n _ (state_of st) (promise_of r) Hact Ha Hrep) as Hact'.
  rewrite <-(state_of_promise _ _ st) in Hact' by done.
  set (st' := set_promises _ st) in *. set (k := spr_slot r) in *.
  apply wp_bind, wp_modify. set (w1 := mkWorld _ _).
  assert (pl_R w1 S) as HR1 by (apply pl_R_proposals; [done|by apply proposing_insert]).
  assert (proposal_of w1 n k = Some st') as Est1
    by (unfold proposal_of, proposals_of; simpl; rewrite lookup_insert_eq; simpl; by rewrite lookup_insert_eq).
  clearbody w1. clear Est Hact HR. rename HR1 into HR. apply refines_gets. unfold cluster_size. rewrite (pl_ids _ _ HR).
  destruct (_ || _) eqn:Hwait; [by apply safely_intro|].
  apply orb_false_iff in Hwait as [Hst Hsize%Z.ltb_ge].
  destruct (choose_value_ok ids (S k) n _ (state_of st') (pl_decree _ _ HR k) Hact') as (v & Hv & Hs & Hval).
  { simpl. unfold zlen in *. by rewrite length_fmap. }
  apply choose_value_of in Hv. apply wp_bind, wp_lift. rewrite Hv.
  assert (P k v) as HPv.
  { destruct Hval as [->|[b Hb]]; [done|]. by eapply (pl_values _ _ HR). }
  eapply refines_steps; [by apply (slots_one S k)|]. apply wp_bind, wp_modify.
  set (S1 := <[k := _]> S). set (w2 := mkWorld _ _).
  assert (pl_R w2 S1) as HR2 by by apply pl_R_propose.
  eapply safely_bind; [by apply pl_record|]. intros S3 w3 _ Hs3 HR3.
  assert ((1, st_proposal st', v) ∈ (S3 k).(proposed)) as Hprop.
  { eapply steps_proposed; [by apply slots_steps|]. unfold S1. rewrite fn_lookup_insert. by left. }
  rewrite Hslot. change (st_proposal st) with (st_proposal st').
  unfold new_SlotAcceptRequest, positive_slot. destruct (Z.leb_spec k 0); [lia|].
  assert ((n =? proposer_id (st_proposal st'))%string = true) as ->.
  { apply String.eqb_eq. symmetry. apply (ao_owner _ _ _ _ _ Hact'). }
  simpl negb. apply wp_bind, wp_lift. cbv iota.
  eapply safely_bind; [by apply pl_receive_accept_request|]. intros S4 w4 _ Hs4 HR4.
  apply refines_gets. apply pl_broadcast; [done|]. simpl. split_and!; [done..|].
  eapply steps_proposed; [by apply slots_steps|done].
Qed.
Lemma pl_dur_ext_same w n k b :
  d_promised (dur w n) !! k = Some b → dur_ext (Σ := PLSig) n (set_promised k b (dur w n)) w w.
Proof.
  intros Hb. constructor; try done. unfold set_promised. rewrite insert_id by done.
  unfold dur. by destruct (durable w n).
Qed.

(** What [receive_prepare] does once the promise is durable *)
Lemma pl_answer_prepare n (r : SlotPrepare) w w' S :
  let k := r.(sp_slot) in let a := (dur w n).(d_accepted) !! k in
  pl_R w S → n ∈ ids → r.(sp_proposer_id) ∈ ids → 0 < k → may_act (S k) n r.(sp_proposal) →
  dur_ext (Σ := PLSig) n (set_promised k r.(sp_proposal) (dur w n)) w w' →
  safely S (trace_rec (LRPromise k n r.(sp_proposer_id) r.(sp_proposal) a) ;;
    (if (r.(sp_proposer_id) =? n)%string
     then receive_promise n (mkSlotPromise k r.(sp_proposal) n a)
     else net_send n r.(sp_proposer_id) (LPromise (mkSlotPromise k r.(sp_proposal) n a)))) w'.
Proof.
  intros k a HR Hn Hr Hk Hmay He. pose proof (pl_dur _ _ HR n k) as Hd.
  pose proof (promise_step ids _ _ _ _ Hd Hmay) as Hs.
  eapply refines_steps; [by apply slots_one|]. eapply safely_bind.
  - apply pl_record. eapply pl_R_write; [exact He|done|exact Hs|done|..|done].
    + by apply keys_promised, HR.
    + rewrite slot_promised, decide_True by done. by apply dur_ok_promised.
    + intros k' Hk'. by rewrite slot_promised, decide_False.
    + intros n' Hne. by apply promise_others; [done..|apply HR].
  - intros S4 w4 _ Hs4 HR4.
    assert ((sp_proposal r, n, report_of (acc_of <$> a)) ∈ (S4 k).(reports)).
    { eapply steps_reports; [by apply slots_steps|]. rewrite fn_lookup_insert. by left. }
    destruct (sp_proposer_id r =? n)%string; [by apply pl_receive_promise|by apply pl_send].
Qed.

Lemma pl_receive_prepare n (r : SlotPrepare) w S :
  pl_R w S → n ∈ ids → r.(sp_proposer_id) ∈ ids → 0 < r.(sp_slot) → safely S (receive_prepare n r) w.
Proof.
  intros HR Hn Hr Hslot. unfold receive_prepare. apply refines_slot; [done|].
  set (answer := when _ _ ;; _). set (k := sp_slot r) in *.
  enough (may_act (S k) n (sp_proposal r) → safely S answer w) as Hanswer.
  { pose proof (promised_may_act ids (S k) n _ (sp_proposal r) (pl_dur _ _ HR n k)) as Hp. simpl in Hp.
    destruct (d_promised (dur w n) !! k) as [p|]; [|by apply Hanswer, Hp].
    destruct (pn_ltb (sp_proposal r) p); [by apply pl_record|by apply Hanswer, Hp]. }
  intros Hmay. subst answer. apply wp_bind, wp_when; intros Hb.
  - apply wp_persist. intros w1 He. apply refines_slot; [done|]. cbv zeta.
    assert (d_accepted (dur w1 n) = d_accepted (dur w n)) as ->.
    { unfold dur at 1. by rewrite (de_at _ _ _ _ He). }
    by apply (pl_answer_prepare n r w).
  - apply refines_slot; [done|]. apply (pl_answer_prepare n r w); [done..|]. apply pl_dur_ext_same.
    by apply (promised_again ids (S k) n (slot_dur k (dur w n))); [apply HR|..].
Qed.

(** *** Starting a proposal *)

Lemma pl_start_proposal n k v r w S :
  (∀ e, exn_cls e ∈ [ValueError; PaxosError; PaxosProposalActive] → ok e) →
  pl_R w S → n ∈ ids → P k v → safely S (start_proposal n k v r) w.
Proof.
  intros Hok HR Hn HP. unfold start_proposal, require_slot.
  apply refines_check; [done|by intros _; apply Hok; set_solver|intros Hk%Z.leb_gt].
  apply refines_gets, refines_check; [done|by intros _; apply Hok; set_solver|intros _].
  apply refines_gets, refines_check; [done|by intros _; apply Hok; set_solver|intros _].
  apply refines_gets. set (rn := default _ r).
  apply refines_check; [done|by intros _; apply Hok; set_solver|intros Hround%Z.leb_gt].
  apply refines_lift; [done| |].
  { intros e He%new_ProposalNumber_error. apply Hok. rewrite He. set_solver. }
  intros p [-> _]%new_ProposalNumber_ok. apply wp_bind, wp_persist. intros w1 He.
  assert (pl_R w1 S) as HR1 by (eapply pl_R_round; [exact He|lia|done]).
  assert (d_last_proposal_round (dur w1 n) = rn) as Hlast by (unfold dur; by rewrite (de_at _ _ _ _ He)).
  eapply safely_bind.
  { apply pl_upd_proposals; [done|]. apply proposing_insert; [done|]. split_and!; [done..|].
    eapply active_ok_fresh; [apply (pl_dur _ _ HR n k)|done|simpl; lia|done]. }
  intros S2 w2 _ _ HR2. eapply safely_bind; [by apply pl_record|]. intros S3 w3 _ _ HR3.
  unfold new_SlotPrepare, positive_slot. destruct (Z.leb_spec k 0); [lia|].
  simpl. rewrite String.eqb_refl. simpl. apply wp_bind, wp_lift.
  eapply safely_bind; [by apply pl_receive_prepare|]. intros S4 w4 _ _ HR4. apply refines_gets.
  eapply safely_bind; [by apply pl_broadcast|]. intros S5 w5 _ _ HR5. by apply refines_ret.
Qed.

(** *** Delivery *)

Lemma pl_from n (m : Message (PLSig (V := V))) expected reason (k : M _ unit) w S :
  pl_R w S → (expected ∈ ids → safely S k w) →
  safely S (let! known := gets (λ w, member w expected) in
    if negb known then reject_source n m (Some expected) reason
    else if negb (m.(src) =? expected)%string then reject_source n m (Some expected) "source-identity-mismatch"
    else k) w.
Proof.
  intros HR Hk. apply refines_gets. rewrite (pl_known _ S) by done.
  case_bool_decide; [|by apply pl_record]. simpl. destruct (negb _); [by apply pl_record|by apply Hk].
Qed.

Lemma pl_handle_message n (m : Message (PLSig (V := V))) w S :
  pl_R w S → n ∈ ids → slot_msg_ok S m.(payload) → safely S (handle_message n m) w.
Proof.
  intros HR Hn Hm. unfold handle_message. destruct (negb _); [by apply pl_record|].
  destruct (payload m) as [p|p|p|p|p|ty]; simpl in Hm; [..|done];
    (apply pl_from; [done|intros Hfrom]); destruct_and?.
  - by apply pl_receive_prepare.
  - by apply pl_receive_promise.
  - by apply pl_receive_accept_request.
  - by apply pl_receive_accepted.
  - by apply pl_receive_learn.
Qed.
End with_ids.
End refinement.
