(* ===== verification/PaxosLogCluster.v ===== *)
(** * PaxosLogCluster: the cluster of [paxos_log.py] against its slots

    The durable state of every node passes [_validate_durable_state], the
    safety harness never raises, recovery from the disks rebuilds exactly the
    chosen slots, and every call and every boot keeps the relation [pl_R] of
    [PaxosLogRefine]. *)

From stdpp Require Import relations functions sorting.
From S2P Require Import Prelude Simulator SimFacts Quorum Consensus Paxos Decree Slots Refinement PaxosLog PaxosLogRefine.

(** ** Prefixes of a dictionary by slot *)
Section prefix.
Context {A : Type}.
Implicit Types (m : gmap Z A) (slot : Z).

Lemma prefix_from_lookup fuel m slot i a :
  prefix_from fuel m slot !! i = Some a → m !! (slot + Z.of_nat i) = Some a.
Proof.
  revert slot i. induction fuel as [|fuel IH]; intros slot i; simpl; [done|].
  destruct (m !! slot) as [b|] eqn:Eb; [|done]. destruct i as [|i]; simpl.
  - intros [= <-]. by rewrite Z.add_0_r.
  - intros Hi%IH. by replace (slot + Z.of_nat (Datatypes.S i)) with (slot + 1 + Z.of_nat i) by lia.
Qed.

Lemma prefix_from_complete fuel m slot i :
  (i < fuel)%nat → (∀ j, (j ≤ i)%nat → is_Some (m !! (slot + Z.of_nat j))) →
  prefix_from fuel m slot !! i = m !! (slot + Z.of_nat i).
Proof.
  revert slot i. induction fuel as [|fuel IH]; intros slot i Hi Hm; [lia|]. simpl.
  destruct (Hm 0%nat) as [b Hb]; [lia|]. rewrite Z.add_0_r in Hb. rewrite Hb.
  destruct i as [|i]; simpl; [by rewrite Z.add_0_r|].
  replace (slot + Z.of_nat (Datatypes.S i)) with (slot + 1 + Z.of_nat i) by lia. apply IH; [lia|].
  intros j Hj. replace (slot + 1 + Z.of_nat j) with (slot + Z.of_nat (Datatypes.S j)) by lia. apply Hm. lia.
Qed.

(** A dictionary with the first [n] slots has [n] keys at least. *)
Lemma slots_size m (n : nat) : (∀ j, (j < n)%nat → is_Some (m !! (1 + Z.of_nat j))) → (n ≤ size m)%nat.
Proof.
  intros Hm. rewrite <-(size_dom (D := gset Z) m).
  assert (list_to_set ((λ j, 1 + Z.of_nat j) <$> seq 0 n) ⊆ dom m) as Hsub.
  { intros k (j & -> & Hj%elem_of_seq)%elem_of_list_to_set%list_elem_of_fmap. apply elem_of_dom, Hm. lia. }
  apply subseteq_size in Hsub. rewrite size_list_to_set, length_fmap, length_seq in Hsub; [done|].
  apply NoDup_fmap_2; [intros x y; lia|apply NoDup_seq].
Qed.

(** [while (decision := decisions.get(slot)) is not None] finds the longest
    prefix there is. *)
Lemma dict_prefix_lookup m i a :
  dict_prefix m !! i = Some a ↔
  m !! (1 + Z.of_nat i) = Some a ∧ ∀ j, (j < i)%nat → is_Some (m !! (1 + Z.of_nat j)).
Proof.
  split.
  - intros Hi. split; [by apply (prefix_from_lookup (size m))|]. intros j Hj.
    destruct (lookup_lt_is_Some_2 (dict_prefix m) j) as [b Hb]; [apply lookup_lt_Some in Hi; lia|].
    exists b. by apply (prefix_from_lookup (size m)).
  - intros [Hi Hm]. unfold dict_prefix. rewrite prefix_from_complete; [done| |].
    + apply (slots_size m (Datatypes.S i)). intros j Hj. destruct (decide (j = i)) as [->|]; [by rewrite Hi|apply Hm; lia].
    + intros j Hj. destruct (decide (j = i)) as [->|]; [by rewrite Hi|apply Hm; lia].
Qed.
End prefix.

Section cluster.
Context {V : Type} `{EqDecision V}.
Implicit Types (w : World (PLSig (V := V))) (n : string) (slot k : Z) (d : PLDurable (V := V)) (S : Z → State V).

Lemma diverged_false (l r : list V) :
  (∀ i x y, l !! i = Some x → r !! i = Some y → x = y) → diverged l r = false.
Proof.
  intros Hlr. unfold diverged. rewrite bool_decide_eq_true_2; [done|]. apply list_eq. intros i.
  destruct (decide (i < length l `min` length r)%nat) as [Hi|Hi].
  - rewrite !lookup_take_lt by done. destruct (lookup_lt_is_Some_2 l i) as [x Hx]; [lia|].
    destruct (lookup_lt_is_Some_2 r i) as [y Hy]; [lia|]. rewrite Hx, Hy. f_equal. by eapply Hlr.
  - by rewrite !lookup_take_ge by lia.
Qed.

(** ** Candidates of a slot *)

Definition candidates (q k : Z) (gs : list (Group (V := V))) : list (Candidate (V := V)) :=
  (λ g, (g.1.1.2, g.1.2, g.2)) <$> filter (λ g, g.1.1.1 = k ∧ q ≤ Z.of_nat (size g.2)) gs.

Lemma add_candidate_lookup q by_slot (g : Group (V := V)) k :
  default [] (assoc_get k (add_candidate q by_slot g))
  = default [] (assoc_get k by_slot) ++ candidates q k [g].
Proof.
  unfold add_candidate, candidates. rewrite filter_cons, filter_nil.
  destruct (Z.leb_spec q (Z.of_nat (size g.2))) as [Hq|Hq].
  - rewrite assoc_get_set. case_decide as Hk.
    + subst k. by rewrite decide_True.
    + rewrite decide_False by naive_solver. by rewrite app_nil_r.
  - rewrite decide_False by (intros [_ ?]; lia). by rewrite app_nil_r.
Qed.

Lemma chosen_by_slot_lookup q (gs : list (Group (V := V))) k :
  default [] (assoc_get k (chosen_by_slot q gs)) = candidates q k gs.
Proof.
  unfold chosen_by_slot. rewrite <-(app_nil_l (candidates q k gs)).
  change [] with (default [] (assoc_get k ([] : list (Z * list (Candidate (V := V)))))) at 3.
  generalize ([] : list (Z * list (Candidate (V := V)))). induction gs as [|g gs IH]; intros l; simpl.
  - unfold candidates. by rewrite filter_nil, app_nil_r.
  - rewrite IH, add_candidate_lookup, <-app_assoc. f_equal. unfold candidates.
    by rewrite <-fmap_app, <-filter_app.
Qed.

Lemma chosen_by_slot_nodup q (gs : list (Group (V := V))) : NoDup (chosen_by_slot q gs).*1.
Proof.
  unfold chosen_by_slot. assert (NoDup ([] : list (Z * list (Candidate (V := V)))).*1) as Hnd by apply NoDup_nil_2.
  revert Hnd. generalize ([] : list (Z * list (Candidate (V := V)))). induction gs as [|g gs IH]; intros l Hl; simpl; [done|].
  apply IH. unfold add_candidate. destruct (_ <=? _); [by apply assoc_set_nodup|done].
Qed.

Lemma chosen_by_slot_elem q (gs : list (Group (V := V))) k cs : (k, cs) ∈ chosen_by_slot q gs → cs = candidates q k gs.
Proof.
  intros Hin%elem_assoc_get; [|apply chosen_by_slot_nodup]. by rewrite <-chosen_by_slot_lookup, Hin.
Qed.

Lemma chosen_by_slot_key q (gs : list (Group (V := V))) k : candidates q k gs ≠ [] → k ∈ (chosen_by_slot q gs).*1.
Proof.
  rewrite <-chosen_by_slot_lookup. destruct (assoc_get k _) as [cs|] eqn:E; [intros _|done].
  apply list_elem_of_fmap. exists (k, cs). split; [done|by apply assoc_get_elem].
Qed.

Lemma pl_elem_of_candidates q k (gs : list (Group (V := V))) p v accs :
  (p, v, accs) ∈ candidates q k gs ↔ (k, p, v, accs) ∈ gs ∧ q ≤ Z.of_nat (size accs).
Proof.
  unfold candidates. rewrite list_elem_of_fmap. split.
  - intros ([[[k' p'] v'] accs'] & [= -> -> ->] & [[<- ?] ?]%list_elem_of_filter). done.
  - intros [Hin Hq]. exists (k, p, v, accs). split; [done|]. by apply list_elem_of_filter.
Qed.

(** [min]: a candidate whose proposal none of the others is below *)
Lemma min_candidate_spec (c : Candidate (V := V)) cs :
  min_candidate c cs ∈ c :: cs ∧ ∀ x, x ∈ c :: cs → ((min_candidate c cs).1.1 ≤ x.1.1)%ballot.
Proof.
  revert c. induction cs as [|y cs IH]; intros c.
  - split; [by left|]. intros x ->%list_elem_of_singleton. by right.
  - set (b := if pn_ltb y.1.1 c.1.1 then y else c).
    change (min_candidate c (y :: cs)) with (min_candidate b cs).
    assert (b.1.1 ≤ y.1.1 ∧ b.1.1 ≤ c.1.1)%ballot as [Hby Hbc].
    { unfold b. destruct (pn_ltb y.1.1 c.1.1) eqn:E; [|apply pn_ltb_false in E; split; ballot_order].
      change (y.1.1 < c.1.1)%ballot in E. split; ballot_order. }
    destruct (IH b) as [Hin Hmin]. assert ((min_candidate b cs).1.1 ≤ b.1.1)%ballot as Hb by (apply Hmin; by left).
    split.
    + apply elem_of_cons in Hin as [Hm|Hin]; [rewrite Hm|by do 2 right]. unfold b. destruct (pn_ltb _ _); [by right; left|by left].
    + intros x [->|[->|Hx]%elem_of_cons]%elem_of_cons; [ballot_order..|]. apply Hmin. by right.
Qed.

(** ** Validation *)

Lemma pl_history_consistent (h : list (SlotAcceptedValue V)) m :
  (∀ i v, i ∈ h → m !! (sa_slot i, sa_proposal i) = Some v → v = sa_value i) →
  (∀ i j, i ∈ h → j ∈ h → sa_slot i = sa_slot j → sa_proposal i = sa_proposal j → sa_value i = sa_value j) →
  history_consistent m h = true.
Proof.
  revert m. induction h as [|i h IH]; intros m Hm Hh; simpl; [done|].
  assert (history_consistent (<[(sa_slot i, sa_proposal i):=sa_value i]> m) h = true).
  { apply IH.
    - intros j v Hj [[[= ? ?] <-]|[_ Hv]]%lookup_insert_Some.
      + apply Hh; [by left|by right|done..].
      + by apply Hm; [right|].
    - intros j k Hj Hk. by apply Hh; right. }
  destruct (m !! (sa_slot i, sa_proposal i)) as [v|] eqn:Ev; [|done].
  rewrite (Hm i v); [|by left|done]. by rewrite bool_decide_eq_true_2.
Qed.

Section with_ids.
Context (ids : list string) (P : Z → V → Prop).
Local Abbreviation quorum := (majority ids).
Local Abbreviation pl_R reg := (pl_R ids reg P).

(** What the histories hold of a slot *)
Definition pl_holds w n (key : Z * ProposalNumber * V) : Prop :=
  mkSlotAccepted key.1.1 key.1.2 key.2 ∈ d_accept_history (dur w n).

Section related.
Context (reg : list string) w S (HR : pl_R reg w S).

Lemma pl_history_agrees n i j :
  i ∈ d_accept_history (dur w n) → j ∈ d_accept_history (dur w n) →
  sa_slot i = sa_slot j → sa_proposal i = sa_proposal j → sa_value i = sa_value j.
Proof.
  intros Hi Hj Hs Hp.
  apply (history_agrees ids (S (sa_slot i)) n (slot_dur (sa_slot i) (dur w n)) (acc_of i) (acc_of j));
    [apply HR..| | |done]; rewrite elem_slot_history; [by destruct i|rewrite Hs; by destruct j].
Qed.

(** The durable state of every node passes [_validate_durable_state]. *)
Lemma pl_wp_validate n (E : _ → exn → Prop) : wp (validate_durable_state n) (λ w' _, w' = w) E w.
Proof.
  destruct (pl_keys _ _ _ _ _ HR n) as [Kp Ka Kl Kh].
  unfold validate_durable_state. apply wp_bind, wp_gets.
  apply wp_bind, wp_raise_if; [|intros _].
  { intros ([k p] & Hin%list_elem_of_In%elem_of_map_to_list & Hk%Z.leb_le)%existsb_exists.
    apply Kp in Hin. simpl in Hk. lia. }
  apply wp_bind, wp_raise_if; [|intros _].
  { intros ([k a] & Hin%list_elem_of_In%elem_of_map_to_list & Hk)%existsb_exists.
    apply Ka in Hin as [? <-]. simpl in Hk. rewrite Z.eqb_refl, orb_false_r in Hk. apply Z.leb_le in Hk. lia. }
  apply wp_bind, wp_raise_if; [|intros _].
  { intros ([k a] & Hin%list_elem_of_In%elem_of_map_to_list & Hk)%existsb_exists.
    apply Kl in Hin as [? <-]. simpl in Hk. rewrite Z.eqb_refl, orb_false_r in Hk. apply Z.leb_le in Hk. lia. }
  apply wp_bind, wp_raise_if; [|intros _].
  { intros Hr%Z.ltb_lt. pose proof (do_round _ _ _ _ (pl_dur _ _ _ _ _ HR n 0)). simpl in *. lia. }
  apply wp_bind, wp_raise_if; [|intros _].
  { rewrite pl_history_consistent; [done| |].
    - intros i v _. by rewrite lookup_empty.
    - intros i j. apply pl_history_agrees. }
  apply wp_for_each_pure. intros [k a] Hin%elem_of_map_to_list. simpl. destruct (Ka _ _ Hin) as [Hk Hs].
  pose proof (pl_dur _ _ _ _ _ HR n k) as Hd.
  assert (Paxos.d_accepted (slot_dur k (dur w n)) = Some (acc_of a)) as Hacc by (simpl; by rewrite Hin).
  apply wp_bind, wp_raise_if; [|intros _].
  { pose proof (current_in_history _ _ _ _ _ Hd Hacc) as Hh. rewrite elem_slot_history in Hh.
    rewrite bool_decide_eq_true_2; [done|]. subst k. by destruct a. }
  apply wp_raise_if; [|done].
  destruct (d_promised (dur w n) !! k) as [p|] eqn:Ep; [|done].
  pose proof (accepted_promised ids (S k) n _ _ p (pl_decree _ _ _ _ _ HR k) Hd Hacc) as Hp. simpl in Hp.
  by rewrite Hp.
Qed.

(** ** Evidence *)

(** The values filed are proposed ones, so a proposal never has two. *)
Definition pairs_ok (l : list (Z * ProposalNumber * V)) : Prop :=
  ∀ e, e ∈ l → (1, e.1.2, e.2) ∈ (S e.1.1).(proposed).

Lemma history_proposed n a : a ∈ d_accept_history (dur w n) → (1, sa_proposal a, sa_value a) ∈ (S (sa_slot a)).(proposed).
Proof.
  intros Ha. eapply vote_proposed; [apply HR|]. apply (do_votes _ _ _ _ (pl_dur _ _ _ _ _ HR n (sa_slot a))).
  split; [done|]. apply elem_slot_history. by destruct a.
Qed.

Definition key_of (a : SlotAcceptedValue V) : Z * ProposalNumber * V := (sa_slot a, sa_proposal a, sa_value a).

Lemma file_history_returns msg n h x :
  (∀ a, a ∈ h → a ∈ d_accept_history (dur w n)) → pairs_ok x.1 →
  ∃ l, file_history msg n h x = inr (l, foldl (λ gs key, add_evidence n key gs) x.2 (key_of <$> h)) ∧ pairs_ok l.
Proof.
  revert x. induction h as [|a h IH]; intros x Hh Hx; simpl.
  { exists x.1. split; [by destruct x|done]. }
  assert (∀ b, b ∈ h → b ∈ d_accept_history (dur w n)) as Hh' by (intros b Hb; apply Hh; by right).
  assert (a ∈ d_accept_history (dur w n)) as Ha by (apply Hh; by left). apply history_proposed in Ha.
  assert (∃ l, file_accepted msg n a x = inr (l, add_evidence n (key_of a) x.2) ∧ pairs_ok l) as (l & -> & Hl).
  { unfold file_accepted. destruct (filter _ x.1) as [|e rest] eqn:Ef.
    - eexists. split; [done|]. intros e [?|He%list_elem_of_singleton]%elem_of_app; [by apply Hx|by subst e].
    - assert (e ∈ filter (λ e, e.1 = (sa_slot a, sa_proposal a)) x.1) as He by (rewrite Ef; by left).
      apply list_elem_of_filter in He as [He Hin].
      apply Hx in Hin. destruct e as [[k p] v]. simpl in *. simplify_eq.
      rewrite bool_decide_eq_true_2; [by exists x.1|].
      by apply (dc_unique _ _ (pl_decree _ _ _ _ _ HR (sa_slot a)) 1 (sa_proposal a)). }
  by apply (IH (l, _)).
Qed.

Definition all_filed (gs : list (Group (V := V))) (l : list string) : Prop :=
  ∀ n key, n ∈ l → pl_holds w n key → ∃ accs, (key, accs) ∈ gs ∧ n ∈ accs.

Lemma pl_wp_collect validate msg l x (Q : _ → list (Group (V := V)) → Prop) (E : _ → exn → Prop) :
  (∀ n, n ∈ l → n ∈ ids) → pairs_ok x.1 → evidence_ok ids (pl_holds w) x.2 →
  (∀ gs, evidence_ok ids (pl_holds w) gs → all_filed gs l → (∀ m keys, covers x.2 m keys → covers gs m keys) → Q w gs) →
  wp (collect_evidence validate msg l x) Q E w.
Proof.
  revert x. induction l as [|n l IH]; intros x Hl Hx Hev HQ; simpl.
  - apply wp_ret. apply HQ; [done| |done]. intros n k []%elem_of_nil.
  - apply wp_bind.
    assert (wp (when validate (validate_durable_state n)) (λ w' _, w' = w) E w) as Hwp.
    { destruct validate; [by apply pl_wp_validate|by apply wp_ret]. }
    eapply wp_mono; [exact Hwp| |done]. intros w' _ ->. apply wp_bind, wp_gets, wp_bind, wp_lift.
    destruct (file_history_returns msg n (d_accept_history (dur w n)) x) as (l' & -> & Hl'); [done..|].
    destruct (evidence_history ids (pl_holds w) n (key_of <$> d_accept_history (dur w n)) x.2) as (Hev' & Hc' & Hm').
    { apply Hl; by left. }
    { intros k (a & -> & Ha)%list_elem_of_fmap. unfold pl_holds. by destruct a. }
    { done. }
    apply IH; [intros m Hm; apply Hl; by right|done..|].
    intros gs Hgs Hcov Hmono. apply HQ; [done| |].
    + intros m k [->|Hm]%elem_of_cons Hk; [|by apply Hcov]. apply (Hmono _ _ Hc').
      apply list_elem_of_fmap. eexists. split; [|exact Hk]. by destruct k as [[??]?].
    + intros m k Hk. by apply Hmono, Hm'.
Qed.

(** The candidates of a slot are its chosen proposals. *)
Lemma candidates_chosen gs k p v :
  evidence_ok ids (pl_holds w) gs → all_filed gs ids →
  (∃ accs, (p, v, accs) ∈ candidates (quorum_size ids) k gs) ↔ chosen_at quorum (S k) 1 p v.
Proof.
  intros Hgs Hc. rewrite <-(held_chosen ids (S k) (λ n, slot_dur k (dur w n)) p v); [|intros n; apply HR].
  pose proof (evidence_majority ids (pl_holds w) gs (k, p, v) Hgs (λ n Hn, Hc n (k, p, v) Hn)) as He.
  split.
  - intros (accs & Hin%pl_elem_of_candidates). destruct (proj1 He) as (Q & HQ & Ha); [by exists accs|].
    exists Q. split; [done|]. intros a Hin'. rewrite elem_slot_history. by apply Ha.
  - intros (Q & HQ & Ha). destruct (proj2 He) as (accs & Hin).
    + exists Q. split; [done|]. intros a Hin. apply Ha in Hin. by rewrite elem_slot_history in Hin.
    + exists accs. by apply pl_elem_of_candidates.
Qed.

Lemma pl_learned_chosen n k l :
  d_learned (dur w n) !! k = Some l → chosen_at quorum (S k) 1 (sl_proposal l) (sl_value l).
Proof.
  intros Hl. apply (do_learned _ _ _ _ (pl_dur _ _ _ _ _ HR n k) (learned_of l)). simpl. by rewrite Hl.
Qed.

Lemma pl_chosen_positive k p v : chosen_at quorum (S k) 1 p v → 0 < k.
Proof.
  intros (Q & HQ & Hv). destruct (quorum_inhabited quorum Q HQ) as [a Ha].
  apply Hv, (do_votes _ _ _ _ (pl_dur _ _ _ _ _ HR a k)) in Ha as [_ Ha].
  apply elem_slot_history, (ko_history _ (pl_keys _ _ _ _ _ HR a)) in Ha. done.
Qed.

(** Checks on the candidates of a slot, where these are what was chosen *)
Section checks.
Context (gs : list (Group (V := V))).
Hypothesis Hgs : ∀ k p v,
  (∃ accs, (p, v, accs) ∈ candidates (quorum_size ids) k gs) ↔ chosen_at quorum (S k) 1 p v.

Lemma pl_candidates_agree k c c' :
  c ∈ candidates (quorum_size ids) k gs → c' ∈ candidates (quorum_size ids) k gs → c.1.2 = c'.1.2.
Proof.
  destruct c as [[p v] accs], c' as [[p' v'] accs']. intros Hc Hc'.
  eapply (pl_agree _ _ _ _ _ k); [exact HR|apply Hgs; eauto..].
Qed.

Lemma candidates_conflict k : conflicting (candidates (quorum_size ids) k gs) = false.
Proof.
  pose proof (pl_candidates_agree k) as Ha. destruct (candidates _ k gs) as [|c cs]; [done|]. simpl.
  apply not_true_iff_false. intros (c' & Hc'%list_elem_of_In & Hne)%existsb_exists.
  rewrite (Ha c' c), bool_decide_eq_true_2 in Hne; [done|done|by right|by left].
Qed.

Lemma chosen_not_lacking k p v :
  chosen_at quorum (S k) 1 p v → lacks (chosen_by_slot (quorum_size ids) gs) k v = false.
Proof.
  intros (accs & Hc)%Hgs. unfold lacks. rewrite chosen_by_slot_lookup.
  pose proof (pl_candidates_agree k) as Ha. destruct (candidates _ k gs) as [|c cs]; [by apply elem_of_nil in Hc|].
  by rewrite (Ha c _ ltac:(by left) Hc), bool_decide_eq_true_2.
Qed.
End checks.

(** The harness never raises. *)
Lemma pl_wp_checkpoint (E : _ → exn → Prop) : wp checkpoint (λ w' _, w' = w) E w.
Proof.
  unfold checkpoint. do 2 apply wp_bind, wp_gets. unfold cluster_size. rewrite (pl_ids _ _ _ _ _ HR).
  apply wp_bind, pl_wp_collect; [done|by intros ? ?%elem_of_nil|apply evidence_nil|].
  intros gs Hgs Hcov _. assert (∀ k p v, (∃ accs, (p, v, accs) ∈ candidates (quorum_size ids) k gs)
    ↔ chosen_at quorum (S k) 1 p v) as Hc by (intros; by apply candidates_chosen).
  apply wp_bind. eapply wp_mono; [apply (wp_for_each_pure _ _ E)| |done].
  { intros [k cs] Hin%chosen_by_slot_elem. subst cs. apply wp_raise_if; [|done].
    simpl. by rewrite candidates_conflict. }
  intros w' _ ->. apply wp_bind. eapply wp_mono; [apply (wp_for_each_pure _ _ E)| |done].
  { intros n _. apply wp_bind, wp_gets, wp_for_each_pure. intros [k l] Hl%elem_of_map_to_list%pl_learned_chosen.
    apply wp_raise_if; [|done]. simpl. by erewrite chosen_not_lacking. }
  intros w' _ ->. apply wp_bind, wp_gets, wp_bind. eapply wp_mono; [apply (wp_for_each_pure _ _ E)| |done].
  { intros [k l] Hl%elem_of_map_to_list%(pl_chosen _ _ _ _ _ HR). destruct_and!.
    apply wp_raise_if; [|done]. simpl. by erewrite chosen_not_lacking. }
  intros w' _ ->. apply wp_bind, wp_gets, wp_for_each_pure.
  intros l (n & -> & _)%list_elem_of_fmap. apply wp_for_each_pure. intros r (n' & -> & _)%list_elem_of_fmap.
  apply wp_raise_if; [|done]. rewrite diverged_false; [done|]. intros i x y. rewrite !list_lookup_fmap.
  intros (a & Ha & ->)%fmap_Some (b & Hb & ->)%fmap_Some.
  apply dict_prefix_lookup in Ha as [Ha%pl_learned_chosen _], Hb as [Hb%pl_learned_chosen _]. by eapply pl_agree.
Qed.
End related.

(** ** Recovery *)

(** The objective decision of a chosen slot is known, with its least proposal. *)
Definition recovered w S k : Prop :=
  ∀ p v, chosen_at quorum (S k) 1 p v → ∃ l, chosen w.(objs) !! k = Some l ∧ (sl_proposal l ≤ p)%ballot.

Lemma pl_wp_recover_slot reg w S gs k (E : _ → exn → Prop) :
  pl_R reg w S →
  (∀ k p v, (∃ accs, (p, v, accs) ∈ candidates (quorum_size ids) k gs) ↔ chosen_at quorum (S k) 1 p v) →
  wp (recover_slot k (candidates (quorum_size ids) k gs))
    (λ w' _, pl_R reg w' S ∧ recovered w' S k
      ∧ ∀ k', k' ≠ k → chosen w'.(objs) !! k' = chosen w.(objs) !! k') E w.
Proof.
  intros HR Hgs. pose proof (candidates_conflict _ _ _ HR gs Hgs k) as Hconf.
  pose proof (pl_candidates_agree _ _ _ HR gs Hgs k) as Hag. specialize (Hgs k).
  destruct (candidates _ k gs) as [|c cs]; cbn [recover_slot].
  { apply wp_ret. split_and!; [done| |done]. intros p v [accs []%elem_of_nil]%Hgs. }
  apply wp_bind, wp_raise_if; [by rewrite Hconf|intros _].
  destruct (min_candidate_spec c cs) as [Hin Hmin]. set (best := min_candidate c cs) in *.
  assert (chosen_at quorum (S k) 1 best.1.1 c.1.2) as Hc.
  { rewrite (Hag c best) by (by left || done). apply Hgs. exists best.2. by destruct best as [[??]?]. }
  assert (0 < k) as Hk by by eapply pl_chosen_positive.
  rewrite new_decision by done. apply wp_bind, wp_lift.
  set (l := mkSlotLearned _ _ _). apply wp_bind, wp_modify. set (w1 := mkWorld _ _).
  assert (pl_R reg w1 S) as HR1 by by apply pl_R_chosen.
  apply wp_record. intros w' He _ _. split_and!.
  - eapply protocol_ext; [apply pl_protocol|exact He| |exact HR1]. intros x []%elem_of_nil.
  - intros p v [accs Hp]%Hgs. exists l. rewrite (se_objs _ _ _ He). simpl. rewrite lookup_insert_eq.
    split; [done|]. apply (Hmin _ Hp).
  - intros k' Hk'. rewrite (se_objs _ _ _ He). simpl. by rewrite lookup_insert_ne.
Qed.

(** Recovery rebuilds the chosen slots from the histories, and never raises. *)
Lemma pl_wp_recover reg w S (E : _ → exn → Prop) :
  pl_R reg w S → wp recover_chosen (λ w' _, pl_R reg w' S ∧ ∀ k, recovered w' S k) E w.
Proof.
  intros HR. unfold recover_chosen. apply wp_bind, wp_gets. rewrite (pl_ids _ _ _ _ _ HR).
  apply wp_bind, (pl_wp_collect reg _ S); [done..|by intros ? ?%elem_of_nil|apply evidence_nil|].
  intros gs Hgs Hcov _. assert (∀ k p v, (∃ accs, (p, v, accs) ∈ candidates (quorum_size ids) k gs)
    ↔ chosen_at quorum (S k) 1 p v) as Hc by (intros; by eapply candidates_chosen).
  clear Hgs Hcov. apply wp_bind, wp_gets. unfold cluster_size. rewrite (pl_ids _ _ _ _ _ HR).
  set (keys := merge_sort _ _).
  assert (∀ k, candidates (quorum_size ids) k gs ≠ [] → k ∈ keys) as Hkeys.
  { intros k Hk%chosen_by_slot_key. unfold keys. by rewrite merge_sort_Permutation. }
  assert (∀ k, k ∈ keys ∨ recovered w S k) as Hall.
  { intros k. destruct (decide (k ∈ keys)) as [|Hk]; [by left|right]. intros p v [accs Hp]%Hc.
    destruct Hk. apply Hkeys. intros Hnil. rewrite Hnil in Hp. by apply elem_of_nil in Hp. }
  clear Hkeys. clearbody keys. revert w HR Hall. induction keys as [|k keys IH]; intros w HR Hall; simpl.
  { split; [done|]. intros k. by destruct (Hall k) as [[]%elem_of_nil|]. }
  rewrite chosen_by_slot_lookup. apply wp_bind. eapply wp_mono; [by apply pl_wp_recover_slot| |done].
  intros w' _ (HR' & Hk & Hsame). apply IH; [done|]. intros k'.
  destruct (Hall k') as [[->|?]%elem_of_cons|Hr]; [by right|by left|right].
  destruct (decide (k' = k)) as [->|Hne]; [done|]. intros p v Hp. rewrite Hsame by done. by apply (Hr p v).
Qed.

(** ** Booting over disks *)

Definition pl_booted plan (disks : gmap string (PLDurable (V := V))) : World (PLSig (V := V)) :=
  mkWorld (Σ := PLSig) (set_persistent_state (Σ := PLSig) disks (new_Simulator plan)) (mkPLObjects ids ∅ ∅ ∅).

Lemma pl_R_boot reg plan w S : pl_R reg w S → pl_R [] (pl_booted plan w.(sim).(persistent_state)) S.
Proof.
  intros HR. split; try done; try apply HR.
  - intros x []%elem_of_nil.
  - intros e []%elem_of_nil.
Qed.

Lemma pl_R_empty plan : pl_R [] (pl_booted plan ∅) (λ _, Consensus.init).
Proof.
  split; try done.
  - intros k. split; [apply init_inv, _|]. intros slot b v v' []%elem_of_nil.
  - intros k slot b v []%elem_of_nil.
  - intros n k. split; simpl; try done.
    + intros slot b v. split; [intros []%elem_of_nil|intros [_ []%elem_of_nil]].
    + intros slot b v []%elem_of_nil.
  - intros n. split; simpl; try done. intros a []%elem_of_nil.
  - intros x []%elem_of_nil.
  - intros e []%elem_of_nil.
Qed.

Lemma pl_R_reg reg reg' w S : (∀ e, e ∈ reg' → e ∈ reg) → pl_R reg w S → pl_R reg' w S.
Proof. intros He HR. split; try apply HR. intros e Hr. by apply (pl_registered _ _ _ _ _ HR), He. Qed.

Lemma pl_wp_register l reg w S (E : _ → exn → Prop) :
  pl_R reg w S → (∀ n, n ∈ l → n ∈ ids) → NoDup l → (∀ n, n ∈ l → w.(sim).(handlers) !! n = None) →
  wp (for_each l (λ n, register (Σ := PLSig) n n (Some n) (Some n)))
    (λ w' _, pl_R (l ++ reg) w' S ∧ w'.(objs) = w.(objs)) E w.
Proof.
  revert reg w. induction l as [|n l IH]; intros reg w HR Hl Hnd Hnew; simpl; [by apply wp_ret|].
  apply NoDup_cons in Hnd as [Hn Hnd]. unfold register. apply wp_bind, wp_bind, wp_gets, wp_bind, wp_raise_if; intros Hreg.
  { rewrite Hnew in Hreg by by left. by apply bool_decide_eq_true, is_Some_None in Hreg. }
  do 3 apply wp_bind, wp_upd_sim. apply wp_upd_sim. simpl.
  set (w1 := mkWorld _ _). assert (n ∈ ids) as Hin by (apply Hl; by left).
  assert (pl_R (n :: reg) w1 S) as HR1.
  { split; try done; try apply HR; simpl.
    - intros e h [[_ <-]|[_ ?]]%lookup_insert_Some; [done|by eapply (pl_handlers _ _ _ _ _ HR)].
    - intros e h [[_ <-]|[_ ?]]%lookup_insert_Some; [done|by eapply (pl_crash_handlers _ _ _ _ _ HR)].
    - intros e h [[_ <-]|[_ ?]]%lookup_insert_Some; [done|by eapply (pl_restart_handlers _ _ _ _ _ HR)].
    - intros e He. destruct (decide (e = n)) as [->|Hne]; [by rewrite lookup_insert_eq|].
      rewrite lookup_insert_ne by done. apply elem_of_cons in He as [->|He]; [done|].
      by apply (pl_registered _ _ _ _ _ HR). }
  eapply wp_mono; [apply (IH (n :: reg)); [done| |done|]| |done].
  - intros m Hm. apply Hl. by right.
  - intros m Hm. simpl. rewrite lookup_insert_ne by (by intros ->). apply Hnew. by right.
  - intros w' _ [HR' Ho]. split; [|by rewrite Ho]. eapply pl_R_reg, HR'. intros e. set_solver.
Qed.

(** Booting over the disks of a cluster succeeds, and a recovering one then
    knows every chosen slot. *)
Lemma pl_wp_init reg recovering plan w S (E : _ → exn → Prop) :
  ids ≠ [] → NoDup ids → pl_R reg w S →
  wp (init_cluster recovering ids)
    (λ w' _, pl_R ids w' S ∧ (recovering = true → ∀ k, recovered w' S k)) E
    (boot_world plan w.(sim).(persistent_state)).
Proof.
  intros Hne Hnd HR%(pl_R_boot _ plan). unfold init_cluster.
  apply wp_bind, wp_raise_if; [by rewrite bool_decide_eq_false_2|intros _].
  apply wp_bind, wp_raise_if; [by rewrite bool_decide_eq_true_2|intros _].
  apply wp_bind, wp_modify. change (mkWorld _ _) with (pl_booted plan w.(sim).(persistent_state)).
  apply wp_bind. eapply wp_mono; [apply wp_for_each_pure; intros n _; by eapply pl_wp_validate| |done].
  intros w' _ ->. apply wp_bind. eapply wp_mono; [by apply (pl_wp_register ids [])| |done].
  rewrite app_nil_r. intros w1 _ [HR1 _]. destruct recovering; [|by apply wp_ret].
  apply wp_bind. eapply wp_mono; [by eapply pl_wp_recover| |done]. intros w2 _ [HR2 Hrec].
  eapply wp_mono; [by eapply pl_wp_checkpoint| |done]. by intros w3 _ ->.
Qed.

Lemma pl_init_ids recovering w w' :
  init_cluster (V := V) recovering ids w = (w', inr tt) → ids ≠ [] ∧ NoDup ids.
Proof. unfold init_cluster, bind at 1, raise_if. repeat case_bool_decide; by try discriminate. Qed.

(** ** The calls *)

(** The exceptions a caller can provoke: a bad argument, a proposer that is
    down or busy, an unknown node; and the model's own [OutOfFuel]. *)
Definition pl_call_error (e : exn) : Prop :=
  e.(exn_cls) ∈ [ValueError; PaxosError; PaxosProposalActive; KeyError; OutOfFuel].

Local Abbreviation safely := (safely (slots_step ids) (pl_R ids) pl_call_error).

Lemma pl_crash_safe n w S : pl_R ids w S → safely S (handle_crash n) w.
Proof.
  intros HR. unfold handle_crash. apply refines_gets. eapply safely_bind.
  - apply pl_upd_proposals; [done|]. by intros k st ?%lookup_empty_Some.
  - intros S1 w1 _ _ HR1. by apply pl_record.
Qed.

Lemma pl_restart_safe n w S : pl_R ids w S → safely S (handle_restart n) w.
Proof.
  intros HR. unfold handle_restart. eapply safely_bind.
  - apply pl_upd_proposals; [done|]. by intros k st ?%lookup_empty_Some.
  - intros S1 w1 _ _ HR1. eapply safely_bind.
    + apply safely_wp. eapply wp_mono; [exact (pl_wp_validate _ _ _ HR1 n (λ _ _, False))| |]; [by intros w' _ ->|].
      intros w' e [].
    + intros S2 w2 _ _ HR2. apply refines_gets. by apply pl_record.
Qed.

Lemma pl_exec_safe (o : pl_op (V := V)) w S : pl_R ids w S → proposes P o → safely S (exec_op o) w.
Proof.
  intros HR HP.
  assert (∀ msg, pl_call_error (Exn ValueError msg)) as Hv by (intros; unfold pl_call_error; set_solver).
  assert (∀ msg, pl_call_error (Exn OutOfFuel msg)) as Hf by (intros; unfold pl_call_error; set_solver).
  assert (∀ h (m : Message (PLSig (V := V))) w S, pl_R ids w S → h ∈ ids → slot_msg_ok ids S m.(payload) → safely S (handle_message h m) w) as Hh.
  { intros. by apply pl_handle_message. }
  assert (∀ w S e, pl_R ids w S → e ∈ ids → ∃ h, w.(sim).(handlers) !! e = Some h ∧ h ∈ ids) as Hr.
  { intros w' S' e HR' He. destruct (pl_registered _ _ _ _ _ HR' e He) as [h Eh]. exists h.
    split; [done|by eapply (pl_handlers _ _ _ _ _ HR')]. }
  destruct o; simpl in *; try (by apply (protocol_net _ _ _ _ _ _ (pl_protocol ids ids P)); [|auto with distlab|]).
  - unfold node. apply wp_bind, wp_bind, wp_gets. rewrite (pl_known _ _ _ _ S) by done. case_bool_decide as Hn.
    + apply wp_ret, safely_unit, pl_start_proposal; [|done..]. intros e He. unfold pl_call_error. set_solver.
    + apply wp_raise. split; [by exists S|]. unfold pl_call_error. set_solver.
  - apply safely_unit. by eapply (protocol_run _ _ _ _ _ _ (pl_protocol ids ids P)).
  - apply safely_unit. by eapply (protocol_run_until _ _ _ _ _ _ (pl_protocol ids ids P)).
  - apply (protocol_crash _ _ _ _ _ _ (pl_protocol ids ids P)); [done| |done]. intros. by apply pl_crash_safe.
  - apply (protocol_restart _ _ _ _ _ _ (pl_protocol ids ids P)); [done| |done]. intros. by apply pl_restart_safe.
  - apply safely_wp. eapply wp_mono; [exact (pl_wp_checkpoint _ _ _ HR (λ _ _, False))| |]; [by intros w' _ ->|]. intros w' e [].
Qed.

(** ** Reachable clusters *)

(** A call or a reboot moves the machines forward. *)
Lemma pl_next_steps w S w' :
  ids ≠ [] → NoDup ids → pl_R ids w S → next P ids w w' → ∃ S', slots_step ids S S' ∧ pl_R ids w' S'.
Proof.
  intros Hne Hnd HR [o w2 r HP Ho|recovering plan w2 Hi].
  - pose proof (pl_exec_safe o w S HR HP) as Hwp. unfold safely, refines, wp in Hwp. rewrite Ho in Hwp.
    destruct r as [e|[]]; [destruct Hwp as [(S' & Hs & ?) _]|destruct Hwp as (S' & Hs & ? & _)];
      exists S'; (split; [by apply slots_steps|done]).
  - pose proof (pl_wp_init ids recovering plan w S (λ _ _, False) Hne Hnd HR) as Hwp.
    unfold wp in Hwp. rewrite Hi in Hwp. exists S. split; [apply slots_refl|apply Hwp].
Qed.

Lemma pl_nexts_steps w S w' :
  ids ≠ [] → NoDup ids → pl_R ids w S → rtc (next P ids) w w' → ∃ S', slots_step ids S S' ∧ pl_R ids w' S'.
Proof.
  intros Hne Hnd HR Hn. revert S HR. induction Hn as [w|w w1 w2 H1 _ IH]; intros S HR.
  { exists S. split; [apply slots_refl|done]. }
  destruct (pl_next_steps w S w1 Hne Hnd HR H1) as (S1 & Hs1 & HR1). destruct (IH S1 HR1) as (S2 & Hs2 & HR2).
  exists S2. split; [|done]. intros k. etrans; [apply Hs1|apply Hs2].
Qed.

Lemma pl_reachable w :
  reachable P ids w → ids ≠ [] ∧ NoDup ids ∧ ∃ S, slots_step ids (λ _, Consensus.init) S ∧ pl_R ids w S.
Proof.
  induction 1 as [recovering plan w Hw|w w' Hw IH Hn].
  - destruct (pl_init_ids _ _ _ Hw) as [Hne Hnd]. split_and!; [done..|]. exists (λ _, Consensus.init).
    split; [apply slots_refl|].
    pose proof (pl_wp_init [] recovering plan _ _ (λ _ _, False) Hne Hnd (pl_R_empty plan)) as Hwp.
    unfold wp in Hwp. simpl in Hwp. rewrite Hw in Hwp. apply Hwp.
  - destruct IH as (Hne & Hnd & S & Hs & HR). split_and!; [done..|].
    destruct (pl_next_steps w S w' Hne Hnd HR Hn) as (S' & Hs' & HR'). exists S'. split; [|done].
    intros k. etrans; [apply Hs|apply Hs'].
Qed.
End with_ids.
End cluster.
