(* ===== verification/PaxosLogProperties.v ===== *)
(** * PaxosLogProperties: what [paxos_log.py] guarantees

    The statements are about the durable dictionaries of the nodes, the map of
    chosen slots and the calls; worlds are reached by any calls and by reboots of
    the cluster over its disks, with [RecoveringPaxosLogCluster] or without.  At
    the end, the properties at a three-node cluster. *)

From stdpp Require Import relations.
From S2P Require Import Prelude Simulator SimFacts Quorum Consensus Decree Slots Refinement PaxosLog PaxosLogRefine PaxosLogCluster.

Section properties.
Context {V : Type} `{EqDecision V}.
Implicit Types (w : World (PLSig (V := V))) (n : string) (ids : list string) (slot : Z) (P : Z → V → Prop).

(** The acceptors whose durable history holds [v] for [slot] at [p]. *)
Definition slot_holders ids w slot p (v : V) : gset string :=
  filter (λ n, mkSlotAccepted slot p v ∈ d_accept_history (dur w n)) (list_to_set ids).

(** [v] is decided for [slot]: a majority durably accepted it at one ballot. *)
Definition slot_decided ids w slot (v : V) : Prop :=
  ∃ p, quorum_size ids ≤ Z.of_nat (size (slot_holders ids w slot p v)).

(** The values a caller finds in [learned_prefix] *)
Definition log_of w n : list V := sl_value <$> learned_prefix w n.

Lemma elem_of_slot_holders ids w slot p v a :
  a ∈ slot_holders ids w slot p v ↔ a ∈ ids ∧ mkSlotAccepted slot p v ∈ d_accept_history (dur w a).
Proof. unfold slot_holders. rewrite elem_of_filter, elem_of_list_to_set. naive_solver. Qed.

Lemma slot_majority_chosen ids reg P w S slot p v :
  pl_R ids reg P w S →
  quorum_size ids ≤ Z.of_nat (size (slot_holders ids w slot p v)) ↔ chosen_at (majority ids) (S slot) 1 p v.
Proof.
  intros HR. rewrite <-(held_chosen ids (S slot) (λ n, slot_dur slot (dur w n)) p v) by (intros n; apply HR). split.
  - intros Hsize. exists (slot_holders ids w slot p v). split; [split; [|done]|].
    + intros a [Ha _]%elem_of_slot_holders. by apply elem_of_list_to_set.
    + intros a [_ Ha]%elem_of_slot_holders. by rewrite elem_slot_history.
  - intros (Q & [Hsub Hsize] & HQ).
    assert (Q ⊆ slot_holders ids w slot p v) as Hle%subseteq_size; [|lia].
    intros a Ha. apply elem_of_slot_holders.
    split; [by apply (elem_of_list_to_set (C := gset string)), Hsub|].
    apply (elem_slot_history slot (dur w a) (Paxos.mkAcceptedValue p v)), HQ, Ha.
Qed.

Lemma slot_decided_chosen ids reg P w S slot v :
  pl_R ids reg P w S → slot_decided ids w slot v ↔ ∃ p, chosen_at (majority ids) (S slot) 1 p v.
Proof. intros HR. by split; intros [p Hp]; exists p; apply (slot_majority_chosen _ _ _ _ _ _ _ _ HR). Qed.

Lemma pl_chosen_proposed ids reg P w S slot p v :
  pl_R ids reg P w S → chosen_at (majority ids) (S slot) 1 p v → P slot v.
Proof.
  intros HR (Q & HQ & Hv). destruct (quorum_inhabited (majority ids) Q HQ) as [a Ha].
  eapply (pl_values _ _ _ _ _ HR). eapply vote_proposed; [apply HR|by apply Hv].
Qed.

Lemma log_of_chosen ids reg P w S n i v :
  pl_R ids reg P w S → log_of w n !! i = Some v → ∃ p, chosen_at (majority ids) (S (1 + Z.of_nat i)) 1 p v.
Proof.
  intros HR. unfold log_of. rewrite list_lookup_fmap. intros (l & [Hl _]%dict_prefix_lookup & ->)%fmap_Some.
  exists (sl_proposal l). by eapply pl_learned_chosen.
Qed.

Lemma prefix_comparable {A} (l r : list A) :
  (∀ i x y, l !! i = Some x → r !! i = Some y → x = y) → l `prefix_of` r ∨ r `prefix_of` l.
Proof.
  revert r. induction l as [|x l IH]; intros r Hlr; [left; apply prefix_nil|].
  destruct r as [|y r]; [right; apply prefix_nil|]. assert (x = y) as -> by (by apply (Hlr 0%nat)).
  destruct (IH r) as [?|?]; [intros i; apply (Hlr (Datatypes.S i))|left|right]; by apply prefix_cons.
Qed.

(** A world and a later one, with the machines behind them *)
Lemma reachable_later P ids w w' :
  reachable P ids w → rtc (next P ids) w w' →
  ∃ S S', slots_step ids S S' ∧ pl_R ids ids P w S ∧ pl_R ids ids P w' S'.
Proof.
  intros (Hne & Hnd & S & _ & HR)%pl_reachable Hn.
  destruct (pl_nexts_steps ids P w S w' Hne Hnd HR Hn) as (S' & ? & ?). by exists S, S'.
Qed.

(** C9: Agreement per slot and across time: a value decided for a slot stays
    decided through any calls, crashes, restarts and reboots of the whole
    cluster, with recovery or without, and no other value is ever decided for the
    slot; slots do not interfere, and what is decided was proposed for its slot. *)
Theorem paxos_log_agreement P ids w w' slot v :
  reachable P ids w → rtc (next P ids) w w' → slot_decided ids w slot v →
  slot_decided ids w' slot v ∧ (∀ v', slot_decided ids w' slot v' → v' = v) ∧ 0 < slot ∧ P slot v.
Proof.
  intros Hw Hn. destruct (reachable_later _ _ _ _ Hw Hn) as (S & S' & Hs & HR & HR').
  intros [p Hp]%(slot_decided_chosen _ _ _ _ _ _ _ HR).
  assert (chosen_at (majority ids) (S' slot) 1 p v) as Hp' by (eapply steps_chosen; [apply Hs|done]).
  split_and!.
  - apply (slot_decided_chosen _ _ _ _ _ _ _ HR'). by exists p.
  - intros v' [p' Hv']%(slot_decided_chosen _ _ _ _ _ _ _ HR'). by eapply (pl_agree _ _ _ w' S').
  - by eapply pl_chosen_positive.
  - by eapply pl_chosen_proposed.
Qed.

(** C33: The logs nodes read are one log: every entry of a learned prefix is the
    decided value of its slot, and of two prefixes, at different nodes and at
    different times, one is a prefix of the other. *)
Theorem paxos_log_prefixes P ids w w' n n' :
  reachable P ids w → rtc (next P ids) w w' →
  (∀ i v, log_of w n !! i = Some v → slot_decided ids w (1 + Z.of_nat i) v)
  ∧ (log_of w n `prefix_of` log_of w' n' ∨ log_of w' n' `prefix_of` log_of w n).
Proof.
  intros Hw Hn. destruct (reachable_later _ _ _ _ Hw Hn) as (S & S' & Hs & HR & HR'). split.
  - intros i v (p & Hp)%(log_of_chosen _ _ _ _ _ _ _ _ HR). apply (slot_decided_chosen _ _ _ _ _ _ _ HR). by exists p.
  - apply prefix_comparable. intros i x y (p & Hp)%(log_of_chosen _ _ _ _ _ _ _ _ HR) (q & Hq)%(log_of_chosen _ _ _ _ _ _ _ _ HR').
    eapply (pl_agree _ _ _ w' S'); [done| |exact Hq]. eapply steps_chosen; [apply Hs|done].
Qed.

(** C37: A call raises only what its caller can provoke (a bad slot or round, a
    proposer that is down or busy with the slot, an unknown node), never
    [PaxosSafetyViolation] or [TypeError], the safety harness included. *)
Theorem paxos_log_never_violates P ids w (o : pl_op (V := V)) w' e :
  reachable P ids w → proposes P o → exec_op o w = (w', inl e) → pl_call_error e.
Proof.
  intros (_ & _ & S & _ & HR)%pl_reachable HP Ho.
  pose proof (pl_exec_safe ids P o w S HR HP) as Hwp. unfold safely, refines, wp in Hwp. rewrite Ho in Hwp. apply Hwp.
Qed.

(** C32: [RecoveringPaxosLogCluster] over the disks of any reachable cluster starts,
    and its chosen slots are exactly the decided ones, each with its value and the
    least of the proposals a majority holds. *)
Theorem paxos_log_recovers P ids w plan :
  reachable P ids w →
  ∃ w', init_cluster true ids (boot_world plan w.(sim).(persistent_state)) = (w', inr tt)
    ∧ (∀ slot v, sl_value <$> w'.(objs).(chosen) !! slot = Some v ↔ slot_decided ids w slot v)
    ∧ ∀ slot l p, w'.(objs).(chosen) !! slot = Some l →
        quorum_size ids ≤ Z.of_nat (size (slot_holders ids w slot p l.(sl_value))) → (l.(sl_proposal) ≤ p)%ballot.
Proof.
  intros (Hne & Hnd & S & _ & HR)%pl_reachable.
  pose proof (pl_wp_init ids P ids true plan w S (λ _ _, False) Hne Hnd HR) as Hwp. unfold wp in Hwp.
  destruct (init_cluster true ids _) as [w' [e|[]]]; [done|]. destruct Hwp as [HR' Hrec]. specialize (Hrec eq_refl).
  exists w'. split_and!; [done| |].
  - intros slot v. rewrite (slot_decided_chosen _ _ _ _ _ _ _ HR). split.
    + intros (l & Hl & ->)%fmap_Some. exists (sl_proposal l). by apply (pl_chosen _ _ _ _ _ HR').
    + intros [p Hp]. destruct (Hrec slot p v Hp) as (l & Hl & _). rewrite Hl. simpl. f_equal.
      destruct (pl_chosen _ _ _ _ _ HR' _ _ Hl) as (_ & _ & ?). by eapply (pl_agree _ _ _ w' S).
  - intros slot l p Hl Hp. destruct (Hrec slot p (sl_value l)) as (l' & Hl' & ?); [|by simplify_eq].
    by apply (slot_majority_chosen ids ids P w S).
Qed.
End properties.

(** ** A three-node cluster *)
Section exec.
Context {V : Type} `{EqDecision V}.
Implicit Types (w : World (PLSig (V := V))) (P : Z → V → Prop).

Definition pl_exec_ops (l : list (pl_op (V := V))) w : World PLSig := foldl (λ w o, (exec_op o w).1) w l.

Definition pl_boot recovering ids plan (disks : gmap string (PLDurable (V := V))) : World PLSig :=
  (init_cluster recovering ids (boot_world plan disks)).1.

Lemma pl_exec_next P ids l w : Forall (proposes P) l → rtc (next P ids) w (pl_exec_ops l w).
Proof.
  revert w. induction l as [|o l IH]; intros w Hl; [reflexivity|]. apply Forall_cons in Hl as [Ho Hl].
  eapply rtc_l; [|by apply IH]. eapply next_call; [exact Ho|apply surjective_pairing].
Qed.

Lemma reachable_nexts P ids w w' : reachable P ids w → rtc (next P ids) w w' → reachable P ids w'.
Proof. intros Hw Hn. induction Hn as [|w1 w2 w3 H12 _ IH]; [done|]. by eapply IH, reach_next. Qed.
End exec.

(** Two proposers for different slots, lost notifications, a crash, and a
    later proposal of another value for a decided slot. *)
Definition pl_demo_ids : list string := ["n1"; "n2"; "n3"].
Definition pl_demo_plan : FaultPlan := [mkFaultRule DROP (Some "n1") (Some "n3") None (Some "SlotLearn") 0].
Definition pl_demo_values (slot : Z) (v : string) : Prop := (slot, v) ∈ [(1, "x"); (2, "y"); (1, "z")].
Definition pl_demo : World (PLSig (V := string)) :=
  pl_exec_ops [OpStart "n1" 1 "x" None; OpStart "n2" 2 "y" None; OpRun 100 None; OpCrash "n1"]
    (pl_boot false pl_demo_ids pl_demo_plan ∅).
Definition pl_demo_later : World (PLSig (V := string)) :=
  pl_exec_ops [OpStart "n3" 1 "z" None; OpRun 100 None; OpRestart "n1"; OpCheckpoint] pl_demo.

Lemma pl_demo_reachable : reachable pl_demo_values pl_demo_ids pl_demo.
Proof.
  eapply reachable_nexts; [|apply pl_exec_next; repeat constructor].
  apply (reach_init _ _ false pl_demo_plan). vm_compute. reflexivity.
Qed.

Lemma pl_demo_steps : rtc (next pl_demo_values pl_demo_ids) pl_demo pl_demo_later.
Proof. apply pl_exec_next. repeat constructor. Qed.

Lemma pl_demo_decided : slot_decided pl_demo_ids pl_demo 1 "x".
Proof. exists (mkProposalNumber 1 "n1"). apply Z.leb_le. vm_compute. reflexivity. Qed.

Lemma paxos_log_agreement_witness : slot_decided pl_demo_ids pl_demo_later 1 "x" ∧ pl_demo_values 1 "x".
Proof.
  destruct (paxos_log_agreement _ _ _ _ _ _ pl_demo_reachable pl_demo_steps pl_demo_decided) as (? & _ & _ & ?).
  by split.
Defined.

(** The notification of slot 1 is lost for [n3], which so far reads no prefix
    although it knows slot 2; the later round tells it. *)
Lemma paxos_log_prefixes_witness :
  log_of pl_demo "n1" = ["x"; "y"] ∧ log_of pl_demo "n3" = [] ∧ log_of pl_demo_later "n3" = ["x"; "y"]
  ∧ slot_decided pl_demo_ids pl_demo 2 "y".
Proof.
  destruct (paxos_log_prefixes _ _ _ _ "n1" "n3" pl_demo_reachable pl_demo_steps) as [Hd _].
  split_and!; [vm_compute; reflexivity..|]. apply (Hd 1%nat). vm_compute. reflexivity.
Defined.

Lemma paxos_log_never_violates_witness :
  ∃ e, (exec_op (OpStart "n1" 1 "z" None) pl_demo).2 = inl e ∧ pl_call_error e.
Proof.
  exists (Exn PaxosError "crashed proposer cannot start Paxos log"). split; [vm_compute; reflexivity|].
  refine (paxos_log_never_violates _ _ pl_demo (OpStart "n1" 1 "z" None) pl_demo _ pl_demo_reachable _ _);
    [repeat constructor|vm_compute; reflexivity].
Defined.

Lemma paxos_log_recovers_witness :
  ∃ w', init_cluster true pl_demo_ids (boot_world [] pl_demo.(sim).(persistent_state)) = (w', inr tt)
    ∧ sl_value <$> w'.(objs).(chosen) !! 1 = Some "x".
Proof.
  destruct (paxos_log_recovers _ _ _ [] pl_demo_reachable) as (w' & Hi & Hc & _).
  exists w'. split; [exact Hi|]. apply Hc. exact pl_demo_decided.
Defined.
