(* ===== verification/MPMachine.v ===== *)
(** * MPMachine: the replicated state machine over Multi-Paxos

    Models [src/distlab/multipaxos_state_machine.py]: the commands, the
    transition of the key/value state with its deduplication table, and
    [MultiPaxosStateMachine].  The module's key of a node's durable dictionary
    ([multipaxos_applied]) and its key of the volatile one are maps beside the
    cluster's world; a crash, a restart and a new simulator drop the second.
    The [isinstance] checks of records and commands hold by typing. *)

From S2P Require Import Prelude Simulator Quorum Slots KVCommands MultiPaxos.

(** ** Commands *)

Record Append := mkAppend { ap_key : string; ap_suffix : string }.

#[global] Instance Append_eq_dec : EqDecision Append.
Proof. solve_decision. Defined.

Definition new_Append (key suffix : string) : exn + Append :=
  checked (empty_str key) ValueError "KV key must be non-empty" (mkAppend key suffix).

(** [Put | Delete | Get | Append] *)
Inductive MPOperation :=
  | OnHistory (op : HistoryOperation)
  | OnAppend (a : Append).

#[global] Instance MPOperation_eq_dec : EqDecision MPOperation.
Proof. solve_decision. Defined.

Definition operation_key (op : MPOperation) : string :=
  match op with OnHistory h => op_key h | OnAppend a => a.(ap_key) end.

Record MultiPaxosRequest := mkRequest {
  rq_client_id : string;
  rq_request_id : Z;
  rq_operation_id : string;
  rq_operation : MPOperation;
}.

#[global] Instance MultiPaxosRequest_eq_dec : EqDecision MultiPaxosRequest.
Proof. solve_decision. Defined.

Definition new_MultiPaxosRequest (client : string) (request : Z) (id : string) (op : MPOperation)
    : exn + MultiPaxosRequest :=
  if empty_str client then inl (Exn ValueError "client_id must be a non-empty string")
  else if empty_str id then inl (Exn ValueError "operation_id must be a non-empty string")
  else if request <? 0 then inl (Exn ValueError "request_id must be a non-negative integer")
  else checked (empty_str (operation_key op)) ValueError "client key must be a non-empty string"
    (mkRequest client request id op).

Definition identity (r : MultiPaxosRequest) : string * Z := (r.(rq_client_id), r.(rq_request_id)).

Record AppliedRequest := mkApplied {
  ar_request : MultiPaxosRequest;
  ar_slot : Z;
  ar_result : option string;
}.

#[global] Instance AppliedRequest_eq_dec : EqDecision AppliedRequest.
Proof. solve_decision. Defined.

(** What a slot can hold: a request, a bare operation, [None], anything else. *)
Inductive Command :=
  | CRequest (r : MultiPaxosRequest)
  | CPlain (op : MPOperation)
  | CNone
  | COther (repr : string).

#[global] Instance Command_eq_dec : EqDecision Command.
Proof. solve_decision. Defined.

Abbreviation Learned := (SlotLearnedDecision Command).
Abbreviation MPWorld := (World (MPSig (V := Command))).

(** ** The transition *)

(** The two dictionaries of a machine *)
Record Tables := mkTables {
  kv : gmap string string;
  requests : gmap (string * Z) AppliedRequest;
}.

#[global] Instance Tables_eq_dec : EqDecision Tables.
Proof. solve_decision. Defined.

Definition tables0 : Tables := mkTables ∅ ∅.

(** [apply_multipaxos_command] on an operation; any other value is a no-op. *)
Definition apply_operation (op : MPOperation) (state : gmap string string) : gmap string string :=
  match op with
  | OnHistory (HWrite (Put k v)) => <[k := v]> state
  | OnHistory (HWrite (Delete k)) => delete k state
  | OnHistory (HGet _) => state
  | OnAppend a => <[a.(ap_key) := (default "" (state !! a.(ap_key)) ++ a.(ap_suffix))%string]> state
  end.

Definition apply_multipaxos_command (c : Command) (state : gmap string string) : gmap string string :=
  match c with CPlain op => apply_operation op state | _ => state end.

(** What a request answers *)
Definition answer (op : MPOperation) (state : gmap string string) : option string :=
  match op with OnHistory (HGet k) => state !! k | _ => None end.

Definition same_operation_id (r : MultiPaxosRequest) (a : AppliedRequest) : bool :=
  (a.(ar_request).(rq_operation_id) =? r.(rq_operation_id))%string.

Definition apply_decision (decision : Learned) : M Tables unit :=
  match decision.(sl_value) with
  | CRequest command =>
      let! previous := gets (λ t, t.(requests) !! identity command) in
      match previous with
      | Some previous =>
          raise_if (negb (bool_decide (previous.(ar_request) = command))) ClientRequestConflict
            "conflicting Multi-Paxos request identity"
      | None =>
          let! clash := gets (λ t, existsb (same_operation_id command) (map_to_list t.(requests)).*2) in
          raise_if clash ClientRequestConflict "conflicting Multi-Paxos operation_id" ;;
          let! result := gets (λ t, answer command.(rq_operation) t.(kv)) in
          modify (λ t, mkTables (apply_operation command.(rq_operation) t.(kv))
            (<[identity command := mkApplied command decision.(sl_slot) result]> t.(requests)))
      end
  | c => modify (λ t, mkTables (apply_multipaxos_command c t.(kv)) t.(requests))
  end.

(** [_replay] *)
Definition replay (applied : list Learned) : Tables * (exn + unit) :=
  for_each applied apply_decision tables0.

(** ** MultiPaxosStateMachine *)

Record Machine := mkMachine {
  applied_through : Z;
  tables : Tables;
}.

Record MachineWorld := mkMachineWorld {
  cluster : MPWorld;
  disk : gmap string (list Learned);
  machines : gmap string Machine;
}.

Abbreviation MM := (M MachineWorld).
Implicit Types (x : MachineWorld) (n : string).

(** A call of the cluster *)
Definition on_cluster {A} (m : M MPWorld A) : MM A := λ x,
  let r := m x.(cluster) in (mkMachineWorld r.1 x.(disk) x.(machines), r.2).

Definition mm_record (r : MPRec) : MM unit := on_cluster (trace_rec r).

Definition set_applied n (applied : list Learned) : MM unit :=
  modify (λ x, mkMachineWorld x.(cluster) (<[n := applied]> x.(disk)) x.(machines)).
Definition set_machine n (m : Machine) : MM unit :=
  modify (λ x, mkMachineWorld x.(cluster) x.(disk) (<[n := m]> x.(machines))).

(** [machine["kv"]] and [machine["requests"]], changed in place *)
Definition on_tables n (m : M Tables unit) : MM unit := λ x,
  match x.(machines) !! n with
  | None => (x, inl (Exn KeyError "multipaxos_state_machine"))
  | Some mc =>
      let r := m mc.(tables) in
      (mkMachineWorld x.(cluster) x.(disk) (<[n := mkMachine mc.(applied_through) r.1]> x.(machines)), r.2)
  end.

Definition set_through n (through : Z) : MM unit :=
  modify (λ x, match x.(machines) !! n with
    | None => x
    | Some mc => mkMachineWorld x.(cluster) x.(disk) (<[n := mkMachine through mc.(tables)]> x.(machines))
    end).

Definition applied_of x n : list Learned := default [] (x.(disk) !! n).
Definition learned_at x n slot : option Learned := learned_decision x.(cluster) n slot.

Definition require_node n : MM unit :=
  let! known := gets (λ x, member x.(cluster) n) in
  raise_if (negb known) ValueError "unknown Multi-Paxos node".

Definition require_alive n : MM unit :=
  require_node n ;;
  let! up := gets (λ x, is_alive x.(cluster) n) in
  raise_if (negb up) PaxosError "crashed node cannot run its state machine".

(** The slots of the durable prefix must count up from one. *)
Fixpoint check_prefix (expected : Z) (value : list Learned) : exn + unit :=
  match value with
  | [] => inr tt
  | item :: value' =>
      if item.(sl_slot) <=? 0 then
        inl (Exn PaxosSafetyViolation "durable Multi-Paxos applied slot is invalid")
      else if item.(sl_slot) <? expected then
        inl (Exn PaxosSafetyViolation "durable Multi-Paxos applied history applies a slot twice")
      else if expected <? item.(sl_slot) then
        inl (Exn PaxosSafetyViolation "durable Multi-Paxos applied history skips a slot")
      else check_prefix (expected + 1) value'
  end.

Definition durable_applied n : MM (list Learned) :=
  let! value := gets (λ x, applied_of x n) in
  lift (check_prefix 1 value) ;;
  ret value.

Definition require_chosen n (decision : Learned) : MM unit :=
  let! n := on_cluster (node n) in
  let! learned := gets (λ x, learned_at x n decision.(sl_slot)) in
  match learned with
  | None => raise PaxosSafetyViolation "applied Multi-Paxos slot without a matching durable learned decision"
  | Some learned =>
      raise_if (negb (bool_decide (learned = decision))) PaxosSafetyViolation
        "applied Multi-Paxos slot without a matching durable learned decision" ;;
      let! chosen := gets (λ x, x.(cluster).(objs).(chosen) !! decision.(sl_slot)) in
      raise_if match chosen with
        | None => true
        | Some c => negb (bool_decide (c.(sl_value) = decision.(sl_value)))
        end PaxosSafetyViolation "applied Multi-Paxos slot without matching chosen quorum evidence" ;;
      on_cluster (require_decision_evidence learned)
  end.

(** [_machine]: the cached machine, loaded from the durable prefix if absent. *)
Definition load_machine n : MM Machine :=
  let! applied := durable_applied n in
  let! cached := gets (λ x, x.(machines) !! n) in
  for_each applied (require_chosen n) ;;
  match cached with
  | None =>
      let (t, r) := replay applied in
      lift r ;;
      let machine := mkMachine (zlen applied) t in
      set_machine n machine ;;
      mm_record (RMachineLoad n (zlen applied)) ;;
      ret machine
  | Some machine =>
      raise_if (negb (machine.(applied_through) =? zlen applied)) PaxosSafetyViolation
        "Multi-Paxos state machine diverged from its durable applied prefix" ;;
      ret machine
  end.

Definition applied n : MM (list Learned) :=
  require_node n ;;
  durable_applied n.

Definition last_applied n : MM Z :=
  let! l := applied n in
  ret (zlen l).

Definition blocked_on n : MM (option Z) :=
  let! last := last_applied n in
  let next_slot := last + 1 in
  let! n := on_cluster (node n) in
  let! known := gets (λ x, learned_at x n next_slot) in
  let! decisions := gets (λ x, learned_decisions x.(cluster) n) in
  ret match known with
    | Some _ => None
    | None => if existsb (λ d, next_slot <? d.(sl_slot)) decisions then Some next_slot else None
    end.

Definition state n : MM (gmap string string) :=
  require_alive n ;;
  let! m := load_machine n in
  ret m.(tables).(kv).

Definition client_requests n : MM (gmap (string * Z) AppliedRequest) :=
  require_alive n ;;
  let! m := load_machine n in
  ret m.(tables).(requests).

(** The [while] loop of [apply_ready]: what was applied, and now. *)
Fixpoint apply_loop (fuel : nat) n (applied applied_now : list Learned)
    : MM (list Learned * list Learned) :=
  let! next := gets (λ x, learned_at x n (zlen applied + 1)) in
  match next with
  | None => ret (applied, applied_now)
  | Some decision =>
      match fuel with
      | O => raise OutOfFuel "apply_ready"
      | S fuel =>
          require_chosen n decision ;;
          on_tables n (apply_decision decision) ;;
          let applied := applied ++ [decision] in
          set_applied n applied ;;
          set_through n decision.(sl_slot) ;;
          mm_record (RMachineApply n decision.(sl_slot) decision.(sl_proposal) decision.(sl_value)) ;;
          apply_loop fuel n applied (applied_now ++ [decision])
      end
  end.

(** Every round applies a learned slot, so there are no more rounds than those. *)
Definition apply_fuel x n : nat := size (learned_map x.(cluster) n).

Definition apply_ready n : MM (list Learned) :=
  require_alive n ;;
  load_machine n ;;
  let! n := on_cluster (node n) in
  let! applied := durable_applied n in
  let! fuel := gets (λ x, apply_fuel x n) in
  let! done := apply_loop fuel n applied [] in
  let! gap := blocked_on n in
  match gap with
  | None => ret tt
  | Some gap =>
      let! beyond := gets (λ x, sl_slot <$> filter (λ d, gap < d.(sl_slot)) (learned_decisions x.(cluster) n)) in
      mm_record (RMachineGap n gap beyond)
  end ;;
  on_cluster (recover_decisions n (zlen done.1 + 1)) ;;
  ret done.2.

(** One decision of the reference check of [assert_safety] *)
Definition check_reference (decision : Learned) : M (gmap Z Command) unit :=
  let! canonical := gets (λ r, r !! decision.(sl_slot)) in
  match canonical with
  | Some v =>
      raise_if (negb (bool_decide (v = decision.(sl_value)))) PaxosSafetyViolation
        "Multi-Paxos applied slot diverged"
  | None => modify <[decision.(sl_slot) := decision.(sl_value)]>
  end.

Fixpoint check_decisions n (l : list Learned) (reference : gmap Z Command) : MM (gmap Z Command) :=
  match l with
  | [] => ret reference
  | decision :: l' =>
      require_chosen n decision ;;
      let (reference, r) := check_reference decision reference in
      lift r ;;
      check_decisions n l' reference
  end.

Fixpoint check_machines (ids : list string) (reference : gmap Z Command) : MM unit :=
  match ids with
  | [] => ret tt
  | n :: ids' =>
      let! applied := durable_applied n in
      let! reference := check_decisions n applied reference in
      let! machine := gets (λ x, x.(machines) !! n) in
      let (expected, r) := replay applied in
      lift r ;;
      raise_if match machine with
        | None => false
        | Some m => negb (m.(applied_through) =? zlen applied)
            || negb (bool_decide (m.(tables) = expected))
        end PaxosSafetyViolation "Multi-Paxos state machine diverged from its durable applied prefix" ;;
      check_machines ids' reference
  end.

Definition assert_applied : MM unit :=
  on_cluster assert_safety ;;
  let! ids := gets (λ x, x.(cluster).(objs).(node_ids)) in
  check_machines ids ∅.

(** [__init__] *)
Definition init_machine : MM unit :=
  let! learns := gets (λ x, x.(cluster).(objs).(learn_decisions)) in
  raise_if (negb learns) ValueError "Multi-Paxos application requires learn_decisions=True" ;;
  let! ids := gets (λ x, x.(cluster).(objs).(node_ids)) in
  for_each ids (λ n, let! l := gets (λ x, applied_of x n) in set_applied n l) ;;
  assert_applied.

(** ** The simulator's volatile dictionaries *)

Definition drop_machine n : MM unit :=
  modify (λ x, mkMachineWorld x.(cluster) x.(disk) (delete n x.(machines))).

(** [MultiPaxosSimulator.crash] and [restart] clear the node's dictionary last
    and first; the handlers do not look at it. *)
Definition machine_crash n : MM unit := on_cluster (mp_crash n) ;; drop_machine n.
Definition machine_restart n : MM unit := on_cluster (mp_restart n) ;; drop_machine n.

(** A new simulator over the disks *)
Definition machine_boot (plan : FaultPlan) (ids : list string) (disks : gmap string MPDurable)
    (applied : gmap string (list Learned)) : MachineWorld * (exn + unit) :=
  (on_cluster (init_cluster ids true) ;; init_machine) (mkMachineWorld (boot_world plan disks) applied ∅).
