(* ===== verification/MPClient.v ===== *)
(** * MPClient: clients of the Multi-Paxos state machine

    Models [src/distlab/multipaxos_client.py]: the [ClientJournal], which a
    client keeps across server crashes, and [MultiPaxosClient].  The journal's
    JSON codec is not modelled; the type checks of the methods hold by typing. *)

From S2P Require Import Prelude Simulator Quorum Slots KVCommands History Linearizability MultiPaxos MPMachine.

Inductive ClientStatus :=
  | SUBMITTED | PENDING | CHOSEN | APPLIED | COMPLETED | CONFLICT
  | LEADERSHIP_UNAVAILABLE | QUORUM_UNAVAILABLE.

#[global] Instance ClientStatus_eq_dec : EqDecision ClientStatus.
Proof. solve_decision. Defined.

Definition status_value (s : ClientStatus) : string :=
  match s with
  | SUBMITTED => "submitted"
  | PENDING => "pending"
  | CHOSEN => "chosen_not_applied"
  | APPLIED => "applied_not_acknowledged"
  | COMPLETED => "completed"
  | CONFLICT => "conflict"
  | LEADERSHIP_UNAVAILABLE => "leadership_unavailable"
  | QUORUM_UNAVAILABLE => "quorum_unavailable"
  end.

Record ClientResult := mkClientResult {
  res_status : ClientStatus;
  res_request : MultiPaxosRequest;
  res_node_id : string;
  res_slot : option Z;
  res_ballot : option ProposalNumber;
  res_value : option string;
  res_authority_ballot : option ProposalNumber;
}.

(** [requests] is a dict by operation id, in insertion order. *)
Record ClientJournal := mkJournal {
  history : OperationHistory;
  journal_requests : list (string * MultiPaxosRequest);
}.

Definition new_journal : ClientJournal := mkJournal new_history [].

Record ClientWorld := mkClientWorld {
  machine : MachineWorld;
  journal : ClientJournal;
}.

Abbreviation CM := (M ClientWorld).
Implicit Types (c : ClientWorld) (n : string) (request : MultiPaxosRequest).

Definition world_of c : MPWorld := c.(machine).(cluster).

Definition on_machine {A} (m : MM A) : CM A := λ c,
  let r := m c.(machine) in (mkClientWorld r.1 c.(journal), r.2).
Definition on_node {A} (m : M MPWorld A) : CM A := on_machine (on_cluster m).

Definition set_history h : ClientJournal → ClientJournal := λ j, mkJournal h j.(journal_requests).
Definition set_requests l : ClientJournal → ClientJournal := λ j, mkJournal j.(history) l.
Definition upd_journal (f : ClientJournal → ClientJournal) : CM unit :=
  modify (λ c, mkClientWorld c.(machine) (f c.(journal))).
Definition on_history {A} (m : HM A) : CM A := λ c,
  let r := m c.(journal).(history) in (mkClientWorld c.(machine) (set_history r.1 c.(journal)), r.2).

(** The same identity, or the same operation id *)
Definition clashes (a b : MultiPaxosRequest) : bool :=
  bool_decide (identity a = identity b) || (a.(rq_operation_id) =? b.(rq_operation_id))%string.

(** The first registered request that the new one shares a name with *)
Definition first_clash request (l : list (string * MultiPaxosRequest)) : option MultiPaxosRequest :=
  head (filter (λ previous, clashes previous request = true) l.*2).

(** [ClientJournal.register] *)
Definition register_request request : CM unit :=
  let! clash := gets (λ c, first_clash request c.(journal).(journal_requests)) in
  match clash with
  | Some previous =>
      raise_if (negb (bool_decide (previous = request))) ClientRequestConflict
        "request/history identity reused with different content"
  | None =>
      match request.(rq_operation) with
      | OnHistory op =>
          on_history (invoke request.(rq_operation_id) request.(rq_client_id) op) ;; ret tt
      | OnAppend _ => ret tt
      end ;;
      upd_journal (λ j, set_requests
        (assoc_set request.(rq_operation_id) request j.(journal_requests)) j)
  end.

(** [_authorized] *)
Definition authorized n (expected_ballot : option ProposalNumber) : CM bool :=
  let! able := gets (λ c, is_alive (world_of c) n && has_leader_authority (world_of c) n) in
  if negb able then ret false
  else
    let! leading := gets (λ c, (obj (world_of c) n).(leader_ballot)) in
    let! promised := on_node (promised_ballot n) in
    ret (bool_decide (leading = promised)
      && match expected_ballot with
         | None => true
         | Some _ => bool_decide (leading = expected_ballot)
         end).

(** [_high_water]: the highest slot a node knows of *)
Definition known_slots (w : MPWorld) n : list Z :=
  (sa_slot <$> (dur w n).(d_history)) ++ (sa_slot <$> leadership_accepted w n)
  ++ (sl_slot <$> learned_decisions w n).

Definition high_water (w : MPWorld) n : Z :=
  match known_slots w n with
  | [] => 0
  | slot :: slots => foldl Z.max slot slots
  end.

(** [_check_local_identity] *)
Definition known_values (w : MPWorld) n : list Command :=
  (sa_value <$> (dur w n).(d_history)) ++ (sa_value <$> leadership_accepted w n)
  ++ (sl_value <$> learned_decisions w n).

Definition conflicts request (v : Command) : bool :=
  match v with
  | CRequest command => clashes command request && negb (bool_decide (command = request))
  | _ => false
  end.

Definition check_local_identity n request : CM unit :=
  let! clash := gets (λ c, existsb (conflicts request) (known_values (world_of c) n)) in
  raise_if clash ClientRequestConflict "conflicting locally known request identity".

(** [_result] *)
Definition result (status : ClientStatus) n request (slot : option Z) (value : option string)
    (ballot : option ProposalNumber) : CM ClientResult :=
  let! leading := gets (λ c, (obj (world_of c) n).(leader_ballot)) in
  let! authority := authorized n None in
  let ballot := match ballot with Some b => Some b | None => leading end in
  let authority_ballot := if authority then leading else None in
  on_machine (mm_record (RClientResult (status_value status) n request.(rq_client_id)
    request.(rq_request_id) request.(rq_operation_id) slot ballot authority_ballot value)) ;;
  ret (mkClientResult status request n slot ballot value authority_ballot).

Definition plain_result status n request (slot : option Z) : CM ClientResult :=
  result status n request slot None None.

(** The [if acknowledge] branch of [poll] *)
Definition publish request (value : option string) : CM unit :=
  let! observed := gets (λ c, observed_of c.(journal).(history) !! request.(rq_operation_id)) in
  match observed with
  | None => on_history (respond request.(rq_operation_id) value) ;; ret tt
  | Some completed =>
      raise_if (negb (bool_decide (completed.(co_completion).(cpl_result) = value))) AssertionError
        "reconstructed client result changed"
  end.

Definition is_append request : bool :=
  match request.(rq_operation) with OnAppend _ => true | OnHistory _ => false end.

(** [self.machine.applied(node_id)[slot - 1]] *)
Definition applied_at n (slot : Z) : CM Learned :=
  let! l := on_machine (applied n) in
  match znth l (slot - 1) with
  | Some d => ret d
  | None => raise IndexError "tuple index out of range"
  end.

Definition registered c request : bool :=
  bool_decide (assoc_get request.(rq_operation_id) c.(journal).(journal_requests) = Some request).

Definition poll n request (expected_ballot : option ProposalNumber) (apply acknowledge : bool)
    : CM ClientResult :=
  let! known := gets (λ c, registered c request) in
  raise_if (negb known) ValueError "poll requires the original registered request" ;;
  let! n := on_node (node n) in
  let! able := authorized n expected_ballot in
  if negb able then plain_result LEADERSHIP_UNAVAILABLE n request None
  else
    let! conflict := try_except (check_local_identity n request ;; ret false) (λ e,
      match e.(exn_cls) with ClientRequestConflict => ret true | _ => rethrow e end) in
    if conflict : bool then plain_result CONFLICT n request None
    else
      when apply (on_machine (apply_ready n) ;; ret tt) ;;
      let! records := on_machine (client_requests n) in
      match records !! identity request with
      | Some record =>
          if negb (bool_decide (record.(ar_request) = request)) then plain_result CONFLICT n request None
          else
            let! decision := applied_at n record.(ar_slot) in
            raise_if (negb (bool_decide (decision.(sl_value) = CRequest request))) AssertionError
              "client completion lacks matching applied request" ;;
            when (acknowledge && negb (is_append request)) (publish request record.(ar_result)) ;;
            result (if acknowledge then COMPLETED else APPLIED) n request (Some record.(ar_slot))
              record.(ar_result) (Some decision.(sl_proposal))
      | None =>
          let! chosen := gets (λ c, filter (λ d, d.(sl_value) = CRequest request)
            (learned_decisions (world_of c) n)) in
          match chosen with
          | decision :: _ =>
              result CHOSEN n request (Some decision.(sl_slot)) None (Some decision.(sl_proposal))
          | [] => plain_result PENDING n request None
          end
      end.

(** The part of [submit] after the local checks *)
Definition place n request (slot : option Z) : CM ClientResult :=
  let! pending := gets (λ c, pending_proposals (world_of c) n) in
  match filter (λ p, p.(la_value) = CRequest request) pending with
  | p :: _ =>
      on_node (retry_proposal n p.(la_slot)) ;;
      plain_result PENDING n request (Some p.(la_slot))
  | [] =>
      let! high := gets (λ c, high_water (world_of c) n) in
      let proposed_slot := match slot with Some s => s | None => high + 1 end in
      let! pending := gets (λ c, pending_proposals (world_of c) n) in
      if existsb (λ p, p.(la_slot) =? proposed_slot) pending then
        plain_result PENDING n request (Some proposed_slot)
      else
        on_node (propose n proposed_slot (CRequest request)) ;;
        plain_result SUBMITTED n request (Some proposed_slot)
  end.

Definition submit n request (slot : option Z) : CM ClientResult :=
  raise_if match slot with Some s => s <=? 0 | None => false end ValueError
    "slot must be a positive integer" ;;
  let! n := on_node (node n) in
  let! conflict := try_except (register_request request ;; check_local_identity n request ;; ret false) (λ e,
    match e.(exn_cls) with ClientRequestConflict => ret true | _ => rethrow e end) in
  if conflict : bool then plain_result CONFLICT n request None
  else
    let! able := authorized n None in
    if negb able then plain_result LEADERSHIP_UNAVAILABLE n request None
    else
      let! observed := poll n request None false false in
      match observed.(res_status) with
      | APPLIED | CHOSEN => ret observed
      | _ => place n request slot
      end.

(** The body of the loop of [_repair_prefix] *)
Definition repair_slot n (pending : list Z) (slot : Z) : CM unit :=
  let! known := gets (λ c, learned_at c.(machine) n slot) in
  match known with
  | Some _ => ret tt
  | None =>
      if bool_decide (slot ∈ pending) then on_node (retry_proposal n slot)
      else on_node (propose n slot CNone)
  end.

Definition repair_prefix n : CM unit :=
  let! able := authorized n None in
  if negb able then ret tt
  else
    let! last := on_machine (last_applied n) in
    let start := last + 1 in
    let! high := gets (λ c, high_water (world_of c) n) in
    let stop := Z.min (high + 1) (start + 16) in
    let! pending := gets (λ c, la_slot <$> pending_proposals (world_of c) n) in
    for_each (zrange start stop) (repair_slot n pending).

Section fuel.
(** The rounds a run of the simulator may take *)
Context (rf : nat).

Definition apply_alive peer : CM unit :=
  let! up := gets (λ c, is_alive (world_of c) peer) in
  when up (on_machine (apply_ready peer) ;; ret tt).

(** The rounds left of the loop of [execute] *)
Fixpoint execute_rounds (rounds : nat) n request (events : Z) (last : ClientResult)
    : CM ClientResult :=
  match rounds with
  | O =>
      match last.(res_status) with
      | SUBMITTED | PENDING =>
          let! n := on_node (node n) in
          plain_result QUORUM_UNAVAILABLE n request last.(res_slot)
      | _ => ret last
      end
  | S rounds =>
      match last.(res_status) with
      | LEADERSHIP_UNAVAILABLE | CONFLICT => ret last
      | _ =>
          let! n := on_node (node n) in
          repair_prefix n ;;
          on_node (mp_run rf (Some events)) ;;
          let! ids := gets (λ c, (world_of c).(objs).(node_ids)) in
          for_each ids apply_alive ;;
          let! polled := poll n request None true true in
          match polled.(res_status) with
          | COMPLETED | CONFLICT | LEADERSHIP_UNAVAILABLE => ret polled
          | _ =>
              let! again := submit n request None in
              execute_rounds rounds n request events again
          end
      end
  end.

Definition execute n request (max_rounds events_per_round : Z) : CM ClientResult :=
  raise_if (max_rounds <=? 0) ValueError "max_rounds must be a positive integer" ;;
  raise_if (events_per_round <=? 0) ValueError "events_per_round must be a positive integer" ;;
  let! first := submit n request None in
  execute_rounds (Z.to_nat max_rounds) n request events_per_round first.
End fuel.

(** ** The system: servers, their machines and a journal *)

Inductive client_op :=
  | CSubmit n request (slot : option Z)
  | CPoll n request (expected_ballot : option ProposalNumber) (apply acknowledge : bool)
  | CExecute (rf : nat) n request (max_rounds events_per_round : Z)
  | CApply n
  | CState n
  | CBlocked n
  | CAssert
  | CCrash n
  | CRestart n
  | CCluster (o : mp_op (V := Command)).

(** What reaches the cluster around the clients: anything but a crash or a
    restart, which take the machine along, and the proposal of a command. *)
Definition outside (o : mp_op (V := Command)) : bool :=
  match o with
  | OpCrash _ | OpRestart _ => false
  | OpPropose _ _ v => match v with CNone | COther _ => true | _ => false end
  | _ => true
  end.

Definition exec_client_op (o : client_op) : CM unit :=
  match o with
  | CSubmit n request slot => submit n request slot ;; ret tt
  | CPoll n request b apply acknowledge => poll n request b apply acknowledge ;; ret tt
  | CExecute rf n request rounds events => execute rf n request rounds events ;; ret tt
  | CApply n => on_machine (apply_ready n) ;; ret tt
  | CState n => on_machine (state n) ;; ret tt
  | CBlocked n => on_machine (blocked_on n) ;; ret tt
  | CAssert => on_machine assert_applied
  | CCrash n => on_machine (machine_crash n)
  | CRestart n => on_machine (machine_restart n)
  | CCluster o => if outside o then on_node (exec_op o) else ret tt
  end.

(** Worlds reached by any calls from a fresh system; a reboot of the servers
    keeps their disks and the clients' journal. *)
Inductive client_reachable (ids : list string) : ClientWorld → Prop :=
  | client_init plan x :
      machine_boot plan ids ∅ ∅ = (x, inr tt) → client_reachable ids (mkClientWorld x new_journal)
  | client_call c o c' r :
      client_reachable ids c → exec_client_op o c = (c', r) → client_reachable ids c'
  | client_reboot c plan x :
      client_reachable ids c →
      machine_boot plan ids (world_of c).(sim).(persistent_state) c.(machine).(disk) = (x, inr tt) →
      client_reachable ids (mkClientWorld x c.(journal)).
