(* ===== verification/MPReplay.v ===== *)
(** * MPReplay: what replaying chosen commands computes

    The reference for the machine of [MPMachine]: a list of commands stands for
    the distinct requests in it, in the order of their first occurrence
    ([firsts]), and the machine's dictionaries are those requests executed one
    after the other ([tables_ok]). *)

From S2P Require Import Prelude Quorum Slots KVCommands MultiPaxos MPMachine MPClient.

Implicit Types (cs : list Command) (c : Command) (r : MultiPaxosRequest) (l : list MultiPaxosRequest)
  (ds : list Learned) (t : Tables).

(** ** Requests in the order of their first occurrence *)

Definition add_first l c : list MultiPaxosRequest :=
  match c with CRequest r => if decide (r ∈ l) then l else l ++ [r] | _ => l end.

Definition firsts cs : list MultiPaxosRequest := foldl add_first [] cs.

Definition run_requests l : gmap string string :=
  foldl (λ st r, apply_operation r.(rq_operation) st) ∅ l.

Lemma firsts_snoc cs c : firsts (cs ++ [c]) = add_first (firsts cs) c.
Proof. unfold firsts. by rewrite foldl_app. Qed.

Lemma run_requests_snoc l r : run_requests (l ++ [r]) = apply_operation r.(rq_operation) (run_requests l).
Proof. unfold run_requests. by rewrite foldl_app. Qed.

Lemma add_first_app l c : ∃ l', add_first l c = l ++ l'.
Proof. destruct c; simpl; [case_decide|..]; eauto using app_nil_r. all: exists []; by rewrite app_nil_r. Qed.

Lemma firsts_app cs cs' : ∃ l, firsts (cs ++ cs') = firsts cs ++ l.
Proof.
  induction cs' as [|c cs' IH] using rev_ind; [exists []; by rewrite !app_nil_r|].
  destruct IH as [l Hl]. rewrite app_assoc, firsts_snoc, Hl.
  destruct (add_first_app (firsts cs ++ l) c) as [l' ->]. exists (l ++ l'). by rewrite app_assoc.
Qed.

Lemma elem_of_firsts cs r : r ∈ firsts cs ↔ CRequest r ∈ cs.
Proof.
  induction cs as [|c cs IH] using rev_ind; [by split; intros ?%elem_of_nil|].
  rewrite firsts_snoc, elem_of_app, list_elem_of_singleton. destruct c as [r'|op| |x]; simpl; [|naive_solver..].
  case_decide as Hd; [|rewrite elem_of_app, list_elem_of_singleton]; naive_solver.
Qed.

Lemma firsts_nodup cs : NoDup (firsts cs).
Proof.
  induction cs as [|c cs IH] using rev_ind; [constructor|]. rewrite firsts_snoc.
  destruct c as [r| | |]; simpl; try done. case_decide as Hd; [done|].
  apply NoDup_app. split_and!; [done| |apply NoDup_singleton].
  intros x Hx ->%list_elem_of_singleton. done.
Qed.

(** ** Requests told apart by their names *)

Definition well_named l : Prop := ∀ r r', r ∈ l → r' ∈ l → clashes r r' = true → r = r'.

Lemma clashes_true r r' :
  clashes r r' = true ↔ identity r = identity r' ∨ r.(rq_operation_id) = r'.(rq_operation_id).
Proof. unfold clashes. by rewrite orb_true_iff, bool_decide_eq_true, String.eqb_eq. Qed.

(** Commands a client system has in its slots: registered requests and no-ops. *)
Definition ordered_by l c : Prop :=
  match c with CRequest r => r ∈ l | CPlain _ => False | CNone | COther _ => True end.

Definition orders l cs : Prop := ∀ c, c ∈ cs → ordered_by l c.

Lemma orders_snoc l cs c : orders l (cs ++ [c]) → orders l cs ∧ ordered_by l c.
Proof. intros Ho. split; [intros c' Hc'|]; apply Ho; set_solver. Qed.

Lemma orders_snoc_2 l cs c : orders l cs → ordered_by l c → orders l (cs ++ [c]).
Proof. intros Ho Hc c' [Hc'| ->%list_elem_of_singleton]%elem_of_app; [by apply Ho|done]. Qed.

Lemma orders_firsts l cs r : orders l cs → r ∈ firsts cs → r ∈ l.
Proof. intros Ho Hr%elem_of_firsts. apply (Ho _ Hr). Qed.

(** ** The machine's dictionaries *)

(** [r] was executed after [l1]. *)
Definition executed_at cs r (l1 : list MultiPaxosRequest) : Prop := ∃ l2, firsts cs = l1 ++ r :: l2.

Lemma executed_app cs cs' r l1 : executed_at cs r l1 → executed_at (cs ++ cs') r l1.
Proof.
  intros [l2 Hl]. destruct (firsts_app cs cs') as [l Hf]. exists (l2 ++ l). rewrite Hf.
  by rewrite Hl, <-app_assoc.
Qed.

Lemma executed_elem cs r l1 : executed_at cs r l1 → r ∈ firsts cs.
Proof. intros [l2 ->]. set_solver. Qed.

(** There is one place where a request is executed. *)
Lemma executed_unique cs r l1 l1' : executed_at cs r l1 → executed_at cs r l1' → l1 = l1'.
Proof.
  intros [l2 Hl] [l2' Hl']. pose proof (firsts_nodup cs) as Hnd. rewrite Hl in Hl', Hnd.
  assert (∀ k k' : list MultiPaxosRequest, r ∉ k → r ∉ k' → k ++ r :: l2 = k' ++ r :: l2' → k = k') as Hu.
  { induction k as [|x k IH]; intros [|y k'] Hk Hk' He; simpl in *; simplify_eq; [done|set_solver..|].
    f_equal. apply IH; [set_solver..|done]. }
  assert (∀ k k' : list MultiPaxosRequest, NoDup (k ++ r :: k') → r ∉ k) as Hn.
  { intros k k' (_ & Hd & _)%NoDup_app Hr. apply (Hd r Hr). left. }
  apply (Hu l1 l1'); [by eapply Hn| |done]. rewrite Hl' in Hnd. by eapply Hn.
Qed.

Record record_ok cs (name : string * Z) (a : AppliedRequest) : Prop := {
  rec_name : identity a.(ar_request) = name;
  rec_slot : 0 < a.(ar_slot);
  rec_value : znth cs (a.(ar_slot) - 1) = Some (CRequest a.(ar_request));
  rec_result : ∃ l1, executed_at cs a.(ar_request) l1
    ∧ a.(ar_result) = answer a.(ar_request).(rq_operation) (run_requests l1);
}.

Record tables_ok cs t : Prop := {
  tables_kv : t.(kv) = run_requests (firsts cs);
  tables_record name a : t.(requests) !! name = Some a → record_ok cs name a;
  tables_known r : r ∈ firsts cs → is_Some (t.(requests) !! identity r);
}.

Lemma record_ok_app cs cs' name a : record_ok cs name a → record_ok (cs ++ cs') name a.
Proof.
  intros []. split; [done..| |].
  - unfold znth in *. by apply lookup_app_l_Some.
  - destruct rec_result0 as (l1 & ? & ?). exists l1. split; [by apply executed_app|done].
Qed.

Lemma tables0_ok : tables_ok [] tables0.
Proof. split; [done|by intros name a ?|by intros r ?%elem_of_nil]. Qed.

(** A command that is not a new request changes nothing. *)
Lemma tables_ok_skip cs c t : tables_ok cs t → add_first (firsts cs) c = firsts cs → tables_ok (cs ++ [c]) t.
Proof.
  intros [] Hf. split.
  - by rewrite firsts_snoc, Hf.
  - intros name a Ha. by apply record_ok_app, tables_record0.
  - intros r. rewrite firsts_snoc, Hf. apply tables_known0.
Qed.

Lemma tables_ok_new cs r t :
  tables_ok cs t → r ∉ firsts cs →
  tables_ok (cs ++ [CRequest r]) (mkTables (apply_operation r.(rq_operation) t.(kv))
    (<[identity r := mkApplied r (zlen cs + 1) (answer r.(rq_operation) t.(kv))]> t.(requests))).
Proof.
  intros [] Hr. assert (firsts (cs ++ [CRequest r]) = firsts cs ++ [r]) as Hf.
  { rewrite firsts_snoc. simpl. by rewrite decide_False. }
  split; simpl.
  - by rewrite Hf, run_requests_snoc, tables_kv0.
  - intros name a [[<- <-]|[_ Ha]]%lookup_insert_Some; [|by apply record_ok_app, tables_record0].
    split; simpl; [done|unfold zlen; lia| |].
    + unfold znth, zlen. replace (Z.to_nat _) with (length cs) by lia. by apply list_lookup_middle.
    + exists (firsts cs). split; [by exists []|by rewrite tables_kv0].
  - intros r'. rewrite Hf, elem_of_app, list_elem_of_singleton. intros Hr'.
    destruct (decide (identity r' = identity r)) as [->|Hne]; [by rewrite lookup_insert_eq|].
    rewrite lookup_insert_ne by done. apply tables_known0. by destruct Hr' as [?| ->].
Qed.

(** One decision: no conflict is met, and the dictionaries follow. *)
Lemma apply_decision_ok l cs t (d : Learned) :
  well_named l → orders l (cs ++ [d.(sl_value)]) → tables_ok cs t → d.(sl_slot) = zlen cs + 1 →
  ∃ t', apply_decision d t = (t', inr tt) ∧ tables_ok (cs ++ [d.(sl_value)]) t'.
Proof.
  intros Hl [Ho Hd]%orders_snoc Ht Hs. unfold apply_decision.
  destruct (sl_value d) as [r|op| |x] eqn:Ev; simpl in Hd; [|done|..].
  2,3: exists t; split; [by destruct t|by apply tables_ok_skip].
  unfold bind, gets, modify, raise_if. destruct (requests t !! identity r) as [a|] eqn:Ea.
  - pose proof (tables_record _ _ Ht _ _ Ea) as Hrec. destruct (rec_result _ _ _ Hrec) as (l1 & Hx & _).
    pose proof (executed_elem _ _ _ Hx) as Hin.
    assert (ar_request a = r) as Heq.
    { apply Hl; [by eapply orders_firsts|done|]. apply clashes_true. left. apply Hrec. }
    exists t. rewrite bool_decide_eq_true_2 by done. split; [done|]. apply tables_ok_skip; [done|].
    simpl. rewrite decide_True; [done|]. by rewrite <-Heq.
  - assert (r ∉ firsts cs) as Hr.
    { intros Hr. destruct (tables_known _ _ Ht _ Hr) as [a Ha]. congruence. }
    assert (existsb (same_operation_id r) (map_to_list (requests t)).*2 = false) as ->.
    { apply not_true_iff_false. rewrite existsb_exists. intros (a & Ha%list_elem_of_In & Hid%String.eqb_eq).
      apply list_elem_of_fmap in Ha as ([name a'] & -> & Ha%elem_of_map_to_list). simpl in Hid.
      destruct (rec_result _ _ _ (tables_record _ _ Ht _ _ Ha)) as (l1 & Hx & _).
      pose proof (executed_elem _ _ _ Hx) as Hin. apply Hr. rewrite <-(Hl (ar_request a') r); [done|by eapply orders_firsts|done|].
      apply clashes_true. by right. }
    simpl. rewrite Hs. eexists. split; [done|]. by apply tables_ok_new.
Qed.

(** ** Replaying a durable prefix *)

Lemma check_prefix_snoc k ds (d : Learned) :
  0 < k → check_prefix k (ds ++ [d]) = inr tt ↔ check_prefix k ds = inr tt ∧ d.(sl_slot) = k + zlen ds.
Proof.
  revert k. induction ds as [|d' ds IH]; intros k Hk; simpl.
  - repeat case_match; unfold zlen; simpl; naive_solver lia.
  - rewrite zlen_cons. repeat case_match; try naive_solver. rewrite IH by lia. naive_solver lia.
Qed.

Lemma for_each_snoc {S A} (l : list A) (a : A) (f : A → M S unit) s s' :
  for_each l f s = (s', inr tt) → for_each (l ++ [a]) f s = f a s'.
Proof.
  revert s. induction l as [|x l IH]; intros s; simpl.
  - intros [= ->]. unfold bind, ret. by destruct (f a s') as [? [?|[]]].
  - unfold bind. destruct (f x s) as [s1 [e|[]]]; [done|]. apply IH.
Qed.

(** A replay of chosen commands succeeds. *)
Lemma replay_ok l ds :
  well_named l → orders l (sl_value <$> ds) → check_prefix 1 ds = inr tt →
  ∃ t, replay ds = (t, inr tt) ∧ tables_ok (sl_value <$> ds) t.
Proof.
  intros Hl. induction ds as [|d ds IH] using rev_ind; intros Ho Hp; [exists tables0; split; [done|apply tables0_ok]|].
  apply check_prefix_snoc in Hp as [Hp Hd]; [|lia]. rewrite fmap_app in Ho |- *. simpl in Ho |- *.
  apply orders_snoc in Ho as [Ho Hd'].
  destruct IH as (t & Ht & Hok); [done..|].
  destruct (apply_decision_ok l _ t d Hl (orders_snoc_2 _ _ _ Ho Hd') Hok) as (t' & Ht' & Hok').
  { rewrite Hd. unfold zlen. rewrite length_fmap. lia. }
  exists t'. split; [|done]. unfold replay. by rewrite (for_each_snoc _ _ _ _ _ Ht).
Qed.

Lemma replay_snoc ds (d : Learned) t t' :
  replay ds = (t, inr tt) → apply_decision d t = (t', inr tt) → replay (ds ++ [d]) = (t', inr tt).
Proof. intros Ht Hd. unfold replay. by rewrite (for_each_snoc _ _ _ _ _ Ht). Qed.
