(* ===== verification/MPClientRefine.v ===== *)
(** * MPClientRefine: clients over Multi-Paxos stay within the specification

    [follows c s] relates a client world to a state of [Consensus]: the cluster
    refines it with the registered requests and no-ops as its only values, the
    durable prefixes of all nodes are prefixes of one list of chosen commands,
    machines are their replays, and every answer in the journal is the one its
    request got at its place in that list.  Every call keeps it. *)

From stdpp Require Import relations.
From S2P Require Import Prelude Simulator SimFacts Quorum Consensus Slots Refinement KVCommands History Linearizability Projection MultiPaxos MultiPaxosRefine MPMachine MPClient MPReplay.

Implicit Types (x : MachineWorld) (c : ClientWorld) (j : ClientJournal) (s : State Command)
  (n : string) (cs : list Command) (h : OperationHistory).

(** ** The journal *)

Definition names j : list MultiPaxosRequest := j.(journal_requests).*2.

Record journal_ok j : Prop := {
  jo_keys k r : (k, r) ∈ j.(journal_requests) → k = r.(rq_operation_id);
  jo_nodup : NoDup j.(journal_requests).*1;
  jo_names : well_named (names j);
  jo_history : history_wf j.(history);
  jo_abandoned : j.(history).(h_abandoned) = ∅;
  jo_invoked i : i ∈ j.(history).(h_invocations) → ∃ r, r ∈ names j
    ∧ r.(rq_operation_id) = i.(inv_operation_id) ∧ r.(rq_operation) = OnHistory i.(inv_operation);
  jo_recorded r op : r ∈ names j → r.(rq_operation) = OnHistory op →
    ∃ i, invocation_of j.(history) r.(rq_operation_id) = Some i ∧ i.(inv_operation) = op;
}.

(** The journal against a list of commands: an answer is the one the request
    got, and what was invoked after an answer comes after it. *)
Record answers_ok cs h : Prop := {
  an_result id a : h.(h_completions) !! id = Some a → ∃ r l1, r.(rq_operation_id) = id
    ∧ executed_at cs r l1 ∧ a.(cpl_result) = answer r.(rq_operation) (run_requests l1);
  an_order id a i r l1 : h.(h_completions) !! id = Some a → i ∈ h.(h_invocations) →
    a.(cpl_sequence) < i.(inv_sequence) → r.(rq_operation_id) = i.(inv_operation_id) →
    executed_at cs r l1 → ∃ r0, r0 ∈ l1 ∧ r0.(rq_operation_id) = id;
}.

Lemma new_journal_ok : journal_ok new_journal.
Proof.
  split; try done; [..|apply new_history_wf| |].
  - by intros k r ?%elem_of_nil.
  - constructor.
  - by intros r r' ?%elem_of_nil.
  - by intros i ?%elem_of_nil.
  - by intros r op ?%elem_of_nil.
Qed.

Lemma new_answers_ok : answers_ok [] new_history.
Proof. by split. Qed.

(** The list grows at its end. *)
Lemma executed_app_inv cs cs' r l1 :
  executed_at (cs ++ cs') r l1 → executed_at cs r l1 ∨ firsts cs `prefix_of` l1.
Proof.
  destruct (firsts_app cs cs') as [l Hl]. intros [l2 Hl2]. rewrite Hl in Hl2.
  apply app_eq_inv in Hl2 as [(k & Hf & Hk)|(k & -> & _)]; [|right; by exists k].
  destruct k as [|y k]; simpl in *; [right; exists []; by rewrite Hf, !app_nil_r|].
  injection Hk as <- _. left. by exists k.
Qed.

Lemma answers_ok_app cs cs' h : answers_ok cs h → answers_ok (cs ++ cs') h.
Proof.
  intros []. split.
  - intros id a Ha. destruct (an_result0 id a Ha) as (r & l1 & ? & ? & ?). exists r, l1.
    split_and!; [done|by apply executed_app|done].
  - intros id a i r l1 Ha Hi Hlt Hid [Hx|[k ->]]%executed_app_inv; [by eapply an_order0|].
    destruct (an_result0 id a Ha) as (r0 & l0 & Hid0 & Hx0 & _). exists r0. split; [|done].
    apply elem_of_app. left. by eapply executed_elem.
Qed.

Lemma assoc_get_names j id r :
  journal_ok j → assoc_get id j.(journal_requests) = Some r ↔ r ∈ names j ∧ r.(rq_operation_id) = id.
Proof.
  intros Hj. unfold names. rewrite list_elem_of_fmap. split.
  - intros Hg. pose proof (assoc_get_elem _ _ _ Hg) as Hin. split; [by exists (id, r)|].
    by rewrite (jo_keys _ Hj _ _ Hin).
  - intros [([k r'] & -> & Hin) <-]. simpl. rewrite <-(jo_keys _ Hj _ _ Hin).
    apply elem_assoc_get; [apply Hj|done].
Qed.

(** ** Registration *)

Lemma first_clash_some r j r' :
  first_clash r j.(journal_requests) = Some r' → r' ∈ names j ∧ clashes r' r = true.
Proof.
  unfold first_clash. intros Hf.
  assert (r' ∈ filter (λ previous, clashes previous r = true) (names j)) as [? ?]%list_elem_of_filter.
  { unfold names. destruct (filter _ _); simplify_eq/=. left. }
  done.
Qed.

Lemma first_clash_none r j r' : first_clash r j.(journal_requests) = None → r' ∈ names j → clashes r' r = false.
Proof.
  unfold first_clash. intros Hf Hr'. apply not_true_iff_false. intros Hc.
  assert (r' ∈ filter (λ previous, clashes previous r = true) (names j)) as Hin
    by (by apply list_elem_of_filter).
  unfold names in Hin. destruct (filter _ _); [by apply elem_of_nil in Hin|done].
Qed.

Lemma answers_ok_invoked cs j r op :
  journal_ok j → orders (names j) cs → answers_ok cs j.(history) →
  first_clash r j.(journal_requests) = None →
  answers_ok cs (with_invocation j.(history) r.(rq_operation_id) r.(rq_client_id) op).
Proof.
  intros Hj Ho [Hres Hord] Hn. split; [done|]. simpl.
  intros id a i r' l1 Ha [Hi| ->%list_elem_of_singleton]%elem_of_app Hlt Hid Hx; [by eapply Hord|].
  simpl in Hid. exfalso. pose proof (orders_firsts _ _ _ Ho (executed_elem _ _ _ Hx)) as Hin.
  pose proof (first_clash_none _ _ _ Hn Hin) as Hc. apply not_true_iff_false in Hc. apply Hc.
  apply clashes_true. by right.
Qed.

Definition with_request j r h : ClientJournal :=
  mkJournal h (assoc_set r.(rq_operation_id) r j.(journal_requests)).

Lemma fresh_key j r : journal_ok j → first_clash r j.(journal_requests) = None →
  r.(rq_operation_id) ∉ j.(journal_requests).*1.
Proof.
  intros Hj Hn ([k r'] & Hk & Hin)%list_elem_of_fmap. simpl in Hk.
  assert (r' ∈ names j) as Hr' by (apply list_elem_of_fmap; by exists (k, r')).
  pose proof (first_clash_none _ _ _ Hn Hr') as Hc. apply not_true_iff_false in Hc. apply Hc.
  apply clashes_true. right. by rewrite <-(jo_keys _ Hj _ _ Hin).
Qed.

Lemma names_with_request j r h r' :
  journal_ok j → first_clash r j.(journal_requests) = None →
  r' ∈ names (with_request j r h) ↔ r' = r ∨ r' ∈ names j.
Proof.
  intros Hj Hn. unfold with_request, names. simpl. rewrite assoc_set_fresh by (by apply fresh_key).
  rewrite fmap_app, elem_of_app. simpl. rewrite list_elem_of_singleton. naive_solver.
Qed.

Lemma journal_ok_request j r h :
  journal_ok j → first_clash r j.(journal_requests) = None → history_wf h →
  h.(h_abandoned) = ∅ →
  (∀ i, i ∈ h.(h_invocations) → i ∈ j.(history).(h_invocations)
    ∨ r.(rq_operation_id) = i.(inv_operation_id) ∧ r.(rq_operation) = OnHistory i.(inv_operation)) →
  (∀ id i, invocation_of j.(history) id = Some i → invocation_of h id = Some i) →
  (∀ op, r.(rq_operation) = OnHistory op →
    ∃ i, invocation_of h r.(rq_operation_id) = Some i ∧ i.(inv_operation) = op) →
  journal_ok (with_request j r h).
Proof.
  intros Hj Hn Hw Ha Hi Hkeep Hnew. pose proof (fresh_key _ _ Hj Hn) as Hf.
  pose proof (λ r', names_with_request j r h r' Hj Hn) as Hnames. split; try done; simpl.
  - intros k r'. rewrite assoc_set_fresh by done. intros [Hin|[= -> ->]%list_elem_of_singleton]%elem_of_app; [|done].
    by apply (jo_keys _ Hj).
  - apply assoc_set_nodup, Hj.
  - intros a b Ha' Hb Hc. apply Hnames in Ha', Hb.
    destruct Ha' as [->|Ha'], Hb as [->|Hb]; [done| | |by apply (jo_names _ Hj)].
    + pose proof (first_clash_none _ _ _ Hn Hb) as Hx. apply not_true_iff_false in Hx. destruct Hx.
      apply clashes_true in Hc. apply clashes_true. destruct Hc; [by left|by right].
    + pose proof (first_clash_none _ _ _ Hn Ha') as Hx. congruence.
  - intros i [Hin|[??]]%Hi.
    + destruct (jo_invoked _ Hj _ Hin) as (r' & ? & ?). exists r'. rewrite Hnames. auto.
    + exists r. rewrite Hnames. auto.
  - intros r' op [->|Hr']%Hnames Hop; [by apply Hnew|].
    destruct (jo_recorded _ Hj _ _ Hr' Hop) as (i & Hi' & ?). exists i. split; [by apply Hkeep|done].
Qed.

Lemma wp_register cs r c :
  journal_ok c.(journal) → orders (names c.(journal)) cs → answers_ok cs c.(journal).(history) →
  wp (register_request r)
    (λ c' _, c'.(machine) = c.(machine) ∧ journal_ok c'.(journal) ∧ r ∈ names c'.(journal)
      ∧ names c.(journal) ⊆ names c'.(journal) ∧ answers_ok cs c'.(journal).(history))
    (λ c' e, c' = c ∧ e.(exn_cls) ∈ [ClientRequestConflict; ValueError]) c.
Proof.
  destruct c as [x j]. simpl. intros Hj Ho Ha. unfold register_request. apply wp_bind, wp_gets. simpl.
  destruct (first_clash r _) as [r'|] eqn:Hn.
  - apply first_clash_some in Hn as [Hin _]. apply wp_raise_if; intros Hb; [split; [done|by left]|].
    apply negb_false_iff, bool_decide_eq_true in Hb as <-. split_and!; done.
  - apply wp_bind. destruct (rq_operation r) as [op|a] eqn:Eo.
    + apply wp_bind. unfold on_history, wp at 1. simpl. pose proof (wp_invoke (history j) (rq_operation_id r) (rq_client_id r) op) as Hv.
      pose proof (invoke_wf (history j) (rq_operation_id r) (rq_client_id r) op (jo_history _ Hj)) as Hw.
      unfold wp in Hv, Hw. destruct (invoke _ _ _ _) as [h' [e|i]]; simpl.
      * destruct Hv as [-> [Hc|[i Hi]]]; [split; [by destruct j|rewrite Hc; set_solver]|].
        destruct (jo_invoked _ Hj i) as (r' & Hr' & Hid & _); [by apply invocation_of_elem in Hi as [? _]|].
        apply invocation_of_elem in Hi as [_ Hi]. pose proof (first_clash_none _ _ _ Hn Hr') as Hx.
        apply not_true_iff_false in Hx. destruct Hx. apply clashes_true. right. congruence.
      * destruct Hv as [-> Hnone]. apply wp_ret, wp_modify. simpl.
        pose proof (λ id', invocation_of_app (history j) (mkInvocation (rq_operation_id r) (rq_client_id r) op (h_sequence (history j))) id' (h_sequence (history j) + 1) Hnone) as Happ.
        simpl in Happ. split_and!; [done| | | |by apply answers_ok_invoked].
        -- apply journal_ok_request; [done..|apply Hj| | |].
           ++ intros i' [Hi'| ->%list_elem_of_singleton]%elem_of_app; [by left|right]. by rewrite Eo.
           ++ intros id' i' Hi'. unfold with_invocation. rewrite Happ. case_decide as Hd; [|done]. congruence.
           ++ rewrite Eo. intros op' [= <-]. eexists. unfold with_invocation. by rewrite Happ, decide_True.
        -- by apply (names_with_request j r); [..|left].
        -- intros r' Hr'. by apply (names_with_request j r); [..|right].
    + apply wp_ret, wp_modify. simpl. split_and!; [done| | | |done].
      * apply (journal_ok_request j r (history j)); try done; try apply Hj; [by left|]. by rewrite Eo.
      * by apply (names_with_request j r (history j)); [..|left].
      * intros r' Hr'. by apply (names_with_request j r (history j)); [..|right].
Qed.

(** ** The servers, for a given journal *)

(** What a machine raises by itself *)
Definition machine_error (e : exn) : Prop :=
  exn_cls e ∈ [ValueError; PaxosError; KeyError; PaxosSafetyViolation].

Lemma machine_op_error e : machine_error e → op_error false e.
Proof.
  unfold machine_error, op_error, call_error. rewrite !elem_of_cons, elem_of_nil.
  intros [->|[->|[->|[->|[]]]]]; [left; set_solver..|by right].
Qed.

Section servers.
Context (ids : list string) (j : ClientJournal).
Local Abbreviation quorum := (majority ids).
Local Abbreviation steps := (rtc (step quorum)).
Local Abbreviation RC := (R ids ids false (ordered_by (names j))).

(** The commands [cs] are chosen, slot by slot. *)
Definition decides s cs : Prop := ∀ k v, cs !! k = Some v → ∃ b, chosen_at quorum s (Z.of_nat k + 1) b v.

Record machines_ok cs x : Prop := {
  mo_prefix n : sl_value <$> applied_of x n `prefix_of` cs;
  mo_slots n : check_prefix 1 (applied_of x n) = inr tt;
  mo_machine n mc : x.(machines) !! n = Some mc →
    replay (applied_of x n) = (mc.(tables), inr tt) ∧ mc.(applied_through) = zlen (applied_of x n);
}.

Definition serves cs x s : Prop :=
  RC x.(cluster) s ∧ decides s cs ∧ machines_ok cs x ∧ answers_ok cs j.(history).
Definition RX x s : Prop := ∃ cs, serves cs x s.


Lemma decides_steps s s' cs : steps s s' → decides s cs → decides s' cs.
Proof. intros Hs Hd k v Hk. destruct (Hd k v Hk) as [b Hb]. exists b. by eapply steps_chosen. Qed.

Lemma decides_orders w s cs : RC w s → decides s cs → orders (names j) cs.
Proof.
  intros HR Hd c [k Hk]%list_elem_of_lookup. destruct (Hd k c Hk) as (b & Q & HQ & Hv).
  destruct (quorum_inhabited _ _ HQ) as [a Ha]. eapply R_values; [exact HR|].
  by eapply mp_voted_proposed, Hv.
Qed.

Lemma machines_ok_cluster cs x w : machines_ok cs x → machines_ok cs (mkMachineWorld w x.(disk) x.(machines)).
Proof. intros []. by split. Qed.

Lemma serves_cluster cs x s s' w :
  serves cs x s → steps s s' → RC w s' → serves cs (mkMachineWorld w x.(disk) x.(machines)) s'.
Proof.
  intros (HR & Hd & Hm & Ha) Hs HR'. split_and!; [done|by eapply decides_steps|by apply machines_ok_cluster|done].
Qed.

(** ** What a machine reads *)

Lemma served_replay n x s cs :
  journal_ok j → serves cs x s →
  ∃ t, replay (applied_of x n) = (t, inr tt) ∧ tables_ok (sl_value <$> applied_of x n) t.
Proof.
  intros Hj (HR & Hd & Hm & _). apply (replay_ok (names j)); [apply Hj| |apply Hm].
  destruct (mo_prefix _ _ Hm n) as [k Hk]. intros c Hc. eapply decides_orders; [exact HR|exact Hd|].
  rewrite Hk. set_solver.
Qed.

Lemma machine_violation msg : machine_error (Exn PaxosSafetyViolation msg).
Proof. unfold machine_error. set_solver. Qed.

Lemma machine_failure cls msg : cls ∈ [ValueError; PaxosError; KeyError] → machine_error (Exn cls msg).
Proof. unfold machine_error. set_solver. Qed.

Lemma wp_mnode n x s :
  RX x s → wp (on_cluster (node n)) (λ x' n', x' = x ∧ n' = n ∧ n ∈ ids)
    (λ x' e, x' = x ∧ machine_error e) x.
Proof.
  intros [cs (HR & _)]. destruct x as [w d m]. unfold on_cluster, node, bind, gets, wp. simpl in *.
  rewrite (member_ids _ _ _ _ _ _ _ HR). case_bool_decide as Hn; simpl; [done|].
  split; [done|apply machine_failure; set_solver].
Qed.

Lemma learned_chosen_at x s n slot (d : Learned) :
  RX x s → learned_at x n slot = Some d →
  d.(sl_slot) = slot ∧ chosen_at quorum s slot d.(sl_proposal) d.(sl_value).
Proof. intros [cs (HR & _)]. by apply (learned_chosen _ _ _ _ _ _ _ _ _ HR). Qed.

Lemma wp_require_chosen n d x s :
  RX x s → wp (require_chosen n d) (λ x' _, x' = x ∧ learned_at x n d.(sl_slot) = Some d)
    (λ x' e, x' = x ∧ machine_error e) x.
Proof.
  intros Hx. pose proof Hx as [cs (HR & _)]. unfold require_chosen. apply wp_bind.
  eapply wp_mono; [by eapply wp_mnode| |done]. intros ? n' (-> & -> & _). destruct x as [w dk ms]. simpl in *.
  apply wp_bind, wp_gets. destruct (learned_at _ _ _) as [learned|] eqn:El; [|split; [done|apply machine_violation]].
  apply wp_bind, wp_raise_if; intros Hb; [split; [done|apply machine_violation]|].
  apply negb_false_iff, bool_decide_eq_true in Hb as ->.
  apply wp_bind, wp_gets, wp_bind, wp_raise_if; intros Hc; [split; [done|apply machine_violation]|].
  destruct (learned_chosen_at _ _ _ _ _ Hx El) as [_ Hch].
  pose proof (wp_require_evidence ids ids false _ d w s (λ _ _, False) HR Hch) as Hwp.
  unfold wp, on_cluster in *. simpl. destruct (require_decision_evidence d w) as [w' [e|[]]]; [done|]. simpl. by subst.
Qed.

Lemma wp_require_node n x s :
  RX x s → wp (require_node n) (λ x' _, x' = x ∧ n ∈ ids) (λ x' e, x' = x ∧ machine_error e) x.
Proof.
  intros [cs (HR & _)]. unfold require_node. apply wp_bind, wp_gets. rewrite (member_ids _ _ _ _ _ _ _ HR).
  apply wp_raise_if; intros Hn; [split; [done|apply machine_failure; set_solver]|].
  by apply negb_false_iff, bool_decide_eq_true in Hn.
Qed.

Lemma wp_require_alive n x s :
  RX x s → wp (require_alive n) (λ x' _, x' = x ∧ n ∈ ids) (λ x' e, x' = x ∧ machine_error e) x.
Proof.
  intros Hx. unfold require_alive. apply wp_bind. eapply wp_mono; [by eapply wp_require_node| |done].
  intros ? [] [-> Hn]. apply wp_bind, wp_gets, wp_raise_if; intros ?; [|done].
  split; [done|apply machine_failure; set_solver].
Qed.

Lemma wp_applied n x s :
  RX x s → wp (applied n) (λ x' l, x' = x ∧ l = applied_of x n) (λ x' e, x' = x ∧ machine_error e) x.
Proof.
  intros Hx. unfold applied. apply wp_bind. eapply wp_mono; [by eapply wp_require_node| |done]. intros ? [] [-> _].
  destruct Hx as [cs (_ & _ & Hm & _)]. unfold durable_applied. apply wp_bind, wp_gets, wp_bind, wp_lift.
  by rewrite (mo_slots _ _ Hm n).
Qed.

Lemma wp_last_applied n x s :
  RX x s → wp (last_applied n) (λ x' k, x' = x ∧ k = zlen (applied_of x n)) (λ x' e, x' = x ∧ machine_error e) x.
Proof.
  intros Hx. unfold last_applied. apply wp_bind. eapply wp_mono; [by eapply wp_applied| |done].
  by intros ? l [-> ->].
Qed.

(** The exceptions that may be raised: at least those of a machine *)
Context (ok : exn → Prop) (Hok : ∀ e, machine_error e → ok e).
Local Abbreviation refinesX := (refines (step quorum) RX ok).
Local Abbreviation safelyX := (safely (step quorum) RX ok).

(** A call of the cluster leaves disks and machines alone. *)
Lemma refines_cluster_call {A} (m : M MPWorld A) (Q : MPWorld → State Command → A → Prop) x s :
  RX x s → refines (step quorum) RC ok s m Q x.(cluster) →
  refinesX s (on_cluster m) (λ x' s' a, Q x'.(cluster) s' a ∧ x'.(disk) = x.(disk) ∧ x'.(machines) = x.(machines)) x.
Proof.
  intros [cs Hx] Hm. unfold refines, wp, on_cluster in *. destruct (m (cluster x)) as [w' [e|a]]; simpl.
  - destruct Hm as [(s' & Hs & HR) He]. split; [|done]. exists s'. split; [done|]. exists cs.
    by eapply serves_cluster.
  - destruct Hm as (s' & Hs & HR & HQ). exists s'. split_and!; [done| |done..]. exists cs.
    by eapply serves_cluster.
Qed.

Lemma safely_on_cluster {A} (m : M MPWorld A) x s :
  RX x s → safely (step quorum) RC ok s m x.(cluster) →
  refinesX s (on_cluster m) (λ x' _ _, x'.(disk) = x.(disk) ∧ x'.(machines) = x.(machines)) x.
Proof.
  intros Hx Hm. eapply refines_weaken; [by eapply refines_cluster_call|]. by intros ? ? ? _ _ (_ & ? & ?).
Qed.

Lemma safely_mm_record r x s :
  RX x s → refinesX s (mm_record r) (λ x' _ _, x'.(disk) = x.(disk) ∧ x'.(machines) = x.(machines)
    ∧ ∀ n slot, learned_at x' n slot = learned_at x n slot) x.
Proof.
  intros Hx. pose proof Hx as [cs (HR & _)]. eapply refines_weaken.
  - eapply (refines_cluster_call (trace_rec r) (λ w' _ _, ∀ n, dur w' n = dur x.(cluster) n)); [done|].
    apply wp_record. intros w' He _ _. exists s. split; [done|]. split.
    + eapply mp_R_ext; [exact He| |exact HR]. intros y []%elem_of_nil.
    + intros n. apply (sim_ext_durable _ _ _ n He).
  - intros s' x' _ _ _ (Hd & ? & ?). split_and!; [done..|]. intros n slot.
    unfold learned_at, learned_decision, learned_map. by rewrite Hd.
Qed.

Lemma call_failure cls msg : cls ∈ [ValueError; PaxosError; KeyError] → ok (Exn cls msg).
Proof. intros ?. by apply Hok, machine_failure. Qed.

Lemma refines_durable {B} n (k : list Learned → MM B) Q x s :
  RX x s → refinesX s (k (applied_of x n)) Q x → refinesX s (bind (durable_applied n) k) Q x.
Proof.
  intros [cs (_ & _ & Hm & _)] Hk. eapply refines_returns; [|exact Hk].
  unfold durable_applied, bind, gets, lift. by rewrite (mo_slots _ _ Hm n).
Qed.

(** A method that only asks *)
Lemma refines_asks {A B} (m : MM A) (P : A → Prop) (k : A → MM B) Q x s :
  wp m (λ x' a, x' = x ∧ P a) (λ x' e, x' = x ∧ machine_error e) x → RX x s →
  (∀ a, P a → refinesX s (k a) Q x) → refinesX s (bind m k) Q x.
Proof.
  intros Hm Hx. apply refines_pure; [|done]. eapply wp_mono; [exact Hm|done|].
  intros ? e [-> ?]. auto.
Qed.

Lemma refines_mnode {B} n (k : string → MM B) Q x s :
  RX x s → (n ∈ ids → refinesX s (k n) Q x) → refinesX s (bind (on_cluster (node n)) k) Q x.
Proof.
  intros Hx Hk. eapply refines_asks; [by eapply wp_mnode|done|]. simpl. intros n' [-> Hn]. by apply Hk.
Qed.

Lemma refines_require_chosen {B} n d (k : unit → MM B) Q x s :
  RX x s → (learned_at x n d.(sl_slot) = Some d → refinesX s (k tt) Q x) →
  refinesX s (bind (require_chosen n d) k) Q x.
Proof.
  intros Hx Hk. eapply (refines_asks _ (λ _, learned_at x n d.(sl_slot) = Some d)); [by eapply wp_require_chosen|done|].
  intros [] Hl. by apply Hk.
Qed.

(** ** Loading *)

(** What [_machine] returns. *)
Definition loaded x n (mc : Machine) : Prop :=
  x.(machines) !! n = Some mc ∧ replay (applied_of x n) = (mc.(tables), inr tt)
  ∧ mc.(applied_through) = zlen (applied_of x n).

Lemma RX_set_machine n mc x s :
  RX x s → replay (applied_of x n) = (mc.(tables), inr tt) → mc.(applied_through) = zlen (applied_of x n) →
  RX (mkMachineWorld x.(cluster) x.(disk) (<[n := mc]> x.(machines))) s.
Proof.
  intros [cs (HR & Hd & [] & Ha)] Hr Ht. exists cs. split_and!; [done..| |done]. split; [done..|].
  simpl. intros n' mc' [[<- <-]|[_ Hn']]%lookup_insert_Some; [done|by apply mo_machine0].
Qed.

Lemma refines_load_machine n x s :
  journal_ok j → RX x s →
  refinesX s (load_machine n) (λ x' _ mc, x'.(disk) = x.(disk) ∧ loaded x' n mc
    ∧ ∀ n slot, learned_at x' n slot = learned_at x n slot) x.
Proof.
  intros Hj Hx. pose proof Hx as [cs Hsv]. destruct (served_replay n _ _ _ Hj Hsv) as (t & Ht & _).
  destruct Hsv as (_ & _ & Hm & _).
  unfold load_machine. apply refines_durable; [done|]. apply refines_gets.
  eapply (refines_asks _ (λ _, True)); [|done|intros [] _].
  { eapply wp_mono; [apply (wp_for_each _ _ (λ x', x' = x))| |].
    - done.
    - intros d x' _ ->. eapply wp_mono; [by eapply wp_require_chosen|by intros ? ? [-> _]|intros ? ? H; exact H].
    - by intros ? ? ->.
    - done. }
  destruct (machines x !! n) as [mc|] eqn:Em.
  - destruct (mo_machine _ _ Hm _ _ Em) as [Hr Hth]. apply refines_guard; [|by apply refines_ret].
    by rewrite Hth, Z.eqb_refl.
  - rewrite Ht. cbv zeta. apply refines_lift; [done..|]. intros [] _.
    apply wp_bind, wp_modify.
    set (mc := mkMachine _ _). set (x1 := mkMachineWorld _ _ _).
    assert (RX x1 s) as Hx1 by (by apply RX_set_machine).
    eapply refines_bind; [by apply safely_mm_record|]. simpl. intros s2 x2 _ _ Hx2 (Hd2 & Hm2 & Hl2).
    apply refines_ret; [done|]. unfold loaded, applied_of. rewrite Hd2, Hm2. simpl.
    split_and!; [done|by rewrite lookup_insert_eq|done..].
Qed.

(** ** Applying *)

Lemma refines_live {B} n (k : unit → MM B) Q x s :
  RX x s → (n ∈ ids → refinesX s (k tt) Q x) → refinesX s (bind (require_alive n) k) Q x.
Proof.
  intros Hx Hk. eapply (refines_asks _ (λ _, n ∈ ids)); [by eapply wp_require_alive|done|].
  intros [] Hn. by apply Hk.
Qed.

(** The next decision of a node fits the list of commands. *)
Lemma next_command cs x s n (d : Learned) :
  serves cs x s → learned_at x n (zlen (applied_of x n) + 1) = Some d →
  ∃ cs', cs `prefix_of` cs' ∧ decides s cs'
    ∧ (sl_value <$> applied_of x n) ++ [d.(sl_value)] `prefix_of` cs'.
Proof.
  intros Hsv Hl. destruct (learned_chosen_at _ s _ _ _ (ex_intro _ cs Hsv) Hl) as [_ Hch].
  destruct Hsv as (HR & Hd & Hm & _). destruct (mo_prefix _ _ Hm n) as [k Hk]. subst cs.
  destruct k as [|v k].
  - exists ((sl_value <$> applied_of x n) ++ [sl_value d]). rewrite app_nil_r in *. split_and!; [by eexists| |done].
    intros i v [Hi|[Hi Hv]]%lookup_app_Some; [by apply Hd|].
    apply list_lookup_singleton_Some in Hv as [Hz <-]. exists (sl_proposal d). replace (Z.of_nat i + 1) with (zlen (applied_of x n) + 1); [done|].
    unfold zlen. rewrite length_fmap in *. lia.
  - eexists. split_and!; [done..|]. exists k. rewrite <-app_assoc. simpl. f_equal. f_equal.
    destruct (Hd (length (applied_of x n)) v) as [b Hb].
    { rewrite lookup_app_r; rewrite length_fmap; [|done]. by rewrite Nat.sub_diag. }
    eapply (mp_R_agree _ _ _ _ _ s); [exact HR|exact Hb|exact Hch].
Qed.

(** The world after one round of the loop *)
Definition apply_next n (d : Learned) (tb : Tables) x : MachineWorld :=
  mkMachineWorld x.(cluster) (<[n := applied_of x n ++ [d]]> x.(disk))
    (<[n := mkMachine d.(sl_slot) tb]> x.(machines)).

Lemma applied_of_next n d tb x n' :
  applied_of (apply_next n d tb x) n' = if decide (n' = n) then applied_of x n ++ [d] else applied_of x n'.
Proof.
  unfold applied_of at 1. simpl. destruct (decide (n' = n)) as [->|Hne].
  - by rewrite lookup_insert_eq.
  - by rewrite lookup_insert_ne.
Qed.

Lemma RX_apply_next n d mc x s :
  journal_ok j → RX x s → x.(machines) !! n = Some mc →
  learned_at x n (zlen (applied_of x n) + 1) = Some d →
  ∃ tb, apply_decision d mc.(tables) = (tb, inr tt) ∧ RX (apply_next n d tb x) s.
Proof.
  intros Hj [cs Hsv] Hmc Hl. pose proof (ex_intro _ cs Hsv : RX x s) as Hx.
  destruct (learned_chosen_at _ _ _ _ _ Hx Hl) as [Hslot _].
  destruct (next_command _ _ _ _ _ Hsv Hl) as (cs' & [k ->] & Hd' & Hpre).
  destruct (served_replay n _ _ _ Hj Hsv) as (t & Ht & Htab).
  destruct Hsv as (HR & Hd & [] & Ha). destruct (mo_machine0 n mc Hmc) as [Hr Hth].
  rewrite Ht in Hr. injection Hr as ->.
  assert (orders (names j) ((sl_value <$> applied_of x n) ++ [sl_value d])) as Ho.
  { pose proof (decides_orders _ _ _ HR Hd') as Ho. destruct Hpre as [k' Hk']. rewrite Hk' in Ho.
    intros c Hc. apply Ho. set_solver. }
  destruct (apply_decision_ok _ _ _ d (jo_names _ Hj) Ho Htab) as (tb & Htb & _).
  { rewrite Hslot. unfold zlen. by rewrite length_fmap. }
  exists tb. split; [done|]. exists (cs ++ k). split_and!; [done..| |by apply answers_ok_app].
  assert (check_prefix 1 (applied_of x n ++ [d]) = inr tt) as Hcp.
  { apply check_prefix_snoc; [lia|]. split; [done|]. lia. }
  split.
  - intros n'. rewrite applied_of_next. case_decide; [by rewrite fmap_app|].
    etrans; [apply mo_prefix0|by eexists].
  - intros n'. rewrite applied_of_next. by case_decide.
  - intros n' mc'. rewrite applied_of_next. simpl.
    intros [[<- <-]|[Hne Hn']]%lookup_insert_Some; [|rewrite decide_False by done; by apply mo_machine0].
    rewrite decide_True by done. simpl. split; [by eapply replay_snoc|].
    rewrite Hslot, zlen_app. unfold zlen at 3. simpl. lia.
Qed.

(** What a run of the loop does: [ds] more decisions, to the first slot the node
    has not learned. *)
Record applies n x x' (ds : list Learned) : Prop := {
  al_applied : applied_of x' n = applied_of x n ++ ds;
  al_others n' : n' ≠ n → applied_of x' n' = applied_of x n';
  al_learned n' slot : learned_at x' n' slot = learned_at x n' slot;
  al_loaded : is_Some (x'.(machines) !! n);
}.

Lemma applies_nil n x : is_Some (x.(machines) !! n) → applies n x x [].
Proof. by split; [rewrite app_nil_r|..]. Qed.

(** The learned slots a node has not applied *)
Definition left_to_apply x n : nat :=
  size (filter (λ e : Z * Learned, zlen (applied_of x n) < e.1) (learned_map x.(cluster) n)).

Lemma left_to_apply_next x y n d :
  learned_at x n (zlen (applied_of x n) + 1) = Some d → applied_of y n = applied_of x n ++ [d] →
  (∀ slot, learned_at y n slot = learned_at x n slot) → (left_to_apply y n < left_to_apply x n)%nat.
Proof.
  intros Hl Ha Hy. unfold left_to_apply. rewrite Ha, zlen_app. set (k := zlen (applied_of x n)) in *.
  assert (learned_map y.(cluster) n = learned_map x.(cluster) n) as -> by (apply map_eq; exact Hy).
  assert (filter (λ e : Z * Learned, k < e.1) (learned_map x.(cluster) n) !! (k + 1) = Some d) as Hk.
  { apply map_lookup_filter_Some. split; [exact Hl|simpl; lia]. }
  pose proof (map_size_delete_Some _ _ (mk_is_Some _ _ Hk)) as Hs. pose proof (map_size_ne_0_lookup_2 _ _ (mk_is_Some _ _ Hk)) as Hpos.
  assert (filter (λ e : Z * Learned, k + zlen [d] < e.1) (learned_map x.(cluster) n)
    ⊆ delete (k + 1) (filter (λ e : Z * Learned, k < e.1) (learned_map x.(cluster) n))) as Hsub.
  { apply map_subseteq_spec. intros i d' [Hi Hlt]%map_lookup_filter_Some. unfold zlen in Hlt. simpl in Hlt.
    apply lookup_delete_Some. split; [lia|]. apply map_lookup_filter_Some. split; [done|simpl; lia]. }
  apply map_subseteq_size in Hsub. lia.
Qed.

Lemma refines_apply_loop fuel n now x s :
  journal_ok j → RX x s → is_Some (x.(machines) !! n) → (left_to_apply x n ≤ fuel)%nat →
  refinesX s (apply_loop fuel n (applied_of x n) now) (λ x' _ r, ∃ ds, applies n x x' ds
    ∧ r = (applied_of x' n, now ++ ds) ∧ learned_at x' n (zlen (applied_of x' n) + 1) = None) x.
Proof.
  intros Hj. revert now x s. induction fuel as [|fuel IH]; intros now x s Hx [mc Hmc] Hf; simpl; apply refines_gets;
    destruct (learned_at x n (zlen (applied_of x n) + 1)) as [d|] eqn:Hl;
    try (apply refines_ret; [done|]; exists []; split_and!; [by apply applies_nil|by rewrite app_nil_r|done]).
  - exfalso. assert (left_to_apply x n ≠ 0%nat); [|lia]. apply (map_size_ne_0_lookup_2 _ (zlen (applied_of x n) + 1)).
    exists d. apply map_lookup_filter_Some. split; [exact Hl|simpl; lia].
  - apply refines_require_chosen; [done|intros _].
    destruct (RX_apply_next _ _ _ _ _ Hj Hx Hmc Hl) as (tb & Htb & Hx1).
    apply wp_bind. unfold wp at 1, on_tables. rewrite Hmc, Htb. cbv zeta. simpl.
    apply wp_bind, wp_modify, wp_bind, wp_modify. simpl. rewrite lookup_insert_eq, insert_insert_eq. simpl.
    fold (apply_next n d tb x). eapply refines_bind; [by apply safely_mm_record|].
    intros s2 x2 [] Hs2 Hx2 (Hdk & Hm2 & Hl2).
    assert (∀ n', applied_of x2 n' = applied_of (apply_next n d tb x) n') as Happ
      by (intros n'; unfold applied_of; by rewrite Hdk).
    pose proof (Happ n) as Happn. rewrite applied_of_next, decide_True in Happn by done. rewrite <-Happn.
    eapply refines_weaken; [apply IH; [done| |]|].
    + rewrite Hm2. simpl. rewrite lookup_insert_eq. by eexists.
    + assert (left_to_apply x2 n < left_to_apply x n)%nat; [|lia]. eapply left_to_apply_next; [exact Hl|done|].
      intros slot. by rewrite Hl2.
    + intros s3 x3 r _ _ (ds & [] & -> & Hnone). exists (d :: ds). rewrite <-app_assoc. split_and!; [|done..].
      split; [by rewrite al_applied0, Happn, <-app_assoc| |by intros; rewrite al_learned0, Hl2|done].
      intros n' Hne. by rewrite al_others0, Happ, applied_of_next, decide_False.
Qed.

(** A method that only reads *)
Lemma refines_reads {A} (m : MM A) (P : A → Prop) x s :
  RX x s → wp m (λ x' a, x' = x ∧ P a) (λ x' e, x' = x ∧ ok e) x →
  refinesX s m (λ x' _ a, x' = x ∧ P a) x.
Proof.
  intros Hx Hm. eapply wp_mono; [exact Hm| |].
  - intros ? a [-> ?]. by exists s.
  - intros ? e [-> ?]. split; [by exists s|done].
Qed.

Lemma refines_blocked_on n x s :
  RX x s → refinesX s (blocked_on n) (λ x' _ _, x' = x) x.
Proof.
  intros Hx. unfold blocked_on. eapply refines_asks; [by eapply wp_last_applied|done|intros l _].
  apply refines_mnode; [done|intros _]. do 2 apply refines_gets. by apply refines_ret.
Qed.

(** Asking for decisions changes nothing durable. *)
Definition same_disks (w w' : MPWorld) : Prop := ∀ n, dur w' n = dur w n.
Definition plain_error (e : exn) : Prop := exn_cls e ∈ [ValueError; PaxosError; KeyError].

Lemma wp_keeps_upd_node n f (w : MPWorld) E : wp (upd_node n f) (λ w' _, same_disks w w') E w.
Proof. by apply wp_modify. Qed.

Lemma wp_keeps_send w0 sr d p (w : MPWorld) E : same_disks w0 w → wp (net_send sr d p) (λ w' _, same_disks w0 w') E w.
Proof.
  intros Hw. apply wp_send; [lia|]. intros w' new He _ _ n. exact (eq_trans (sim_ext_durable _ _ _ n He) (Hw n)).
Qed.

Lemma wp_keeps_retry n (w : MPWorld) E : wp (retry_recovery n) (λ w' _, same_disks w w') E w.
Proof.
  unfold retry_recovery. apply wp_bind, wp_gets. destruct (recovery _) as [start|]; [|by apply wp_ret].
  apply wp_bind, wp_gets. case_bool_decide; [by apply wp_keeps_upd_node|]. destruct (_ =? _).
  - apply wp_bind. eapply wp_mono; [apply (wp_keeps_upd_node _ _ _ E)| |done]. intros w1 [] H1.
    apply wp_bind, wp_gets, wp_record. intros w' He _ _ n'. exact (eq_trans (sim_ext_durable _ _ _ n' He) (H1 n')).
  - apply wp_bind. eapply wp_mono; [apply (wp_keeps_upd_node _ _ _ E)| |done]. intros w1 [] H1.
    apply wp_bind, wp_gets, wp_bind. eapply wp_mono; [apply (wp_for_each _ _ (same_disks w) E); [exact H1|]| |done].
    + intros p w' _ Hw'. by apply wp_keeps_send.
    + intros w2 [] H2. apply wp_schedule. intros w' new He _ _ n'. exact (eq_trans (sim_ext_durable _ _ _ n' He) (H2 n')).
Qed.

Lemma wp_keeps_recover n k (w : MPWorld) :
  wp (recover_decisions n k) (λ w' _, same_disks w w') (λ w' e, same_disks w w' ∧ plain_error e) w.
Proof.
  assert (∀ cls msg, cls ∈ [ValueError; PaxosError; KeyError] → plain_error (Exn cls msg)) as Hp by done.
  unfold recover_decisions. apply wp_bind, wp_raise_if; intros _; [split; [done|apply Hp; set_solver]|].
  apply wp_bind, wp_gets. destruct (_ || _); [by apply wp_ret|].
  apply wp_bind, wp_gets, wp_bind, wp_raise_if; intros _; [split; [done|apply Hp; set_solver]|].
  apply wp_bind, wp_gets. case_bool_decide; [by apply wp_ret|].
  apply wp_bind. eapply wp_mono; [apply (wp_keeps_upd_node _ _ _ (λ _ _, False))| |done]. intros w1 [] H1.
  eapply wp_mono; [apply (wp_keeps_retry _ _ (λ _ _, False))| |done]. intros w2 [] H2 n'. by rewrite H2.
Qed.

Lemma refines_recover n k x s :
  RX x s → n ∈ ids →
  refinesX s (on_cluster (recover_decisions n k)) (λ x' _ _, x'.(disk) = x.(disk) ∧ x'.(machines) = x.(machines)
    ∧ ∀ n slot, learned_at x' n slot = learned_at x n slot) x.
Proof.
  intros Hx Hn. pose proof Hx as [cs (HR & _)]. eapply refines_weaken.
  - apply (refines_cluster_call _ (λ w' _ _, same_disks x.(cluster) w')); [done|].
    eapply wp_mono; [apply wp_and; [|apply wp_keeps_recover]| |].
    + eapply (safely_recover_decisions ids ids false (op_error false)); [by right|by left|exact HR|done].
    + simpl. intros w' [] [(s' & ? & ? & _) ?]. by exists s'.
    + simpl. intros w' e [[? _] [_ He]]. split; [done|]. apply Hok. revert He.
      unfold plain_error, machine_error. set_solver.
  - intros s' x' [] _ _ (Hd & ? & ?). split_and!; [done..|]. intros n' slot.
    unfold learned_at, learned_decision, learned_map. by rewrite Hd.
Qed.

(** [apply_ready] applies every decision that is ready, in order. *)
Lemma refines_apply_ready n x s :
  journal_ok j → RX x s →
  refinesX s (apply_ready n) (λ x' _ ds, applies n x x' ds ∧ n ∈ ids
    ∧ learned_at x' n (zlen (applied_of x' n) + 1) = None) x.
Proof.
  intros Hj Hx. unfold apply_ready. apply refines_live; [done|intros Hn].
  eapply refines_bind; [by apply refines_load_machine|]. intros s1 x1 mc Hs1 Hx1 (Hd1 & (Hmc & _) & Hl1).
  apply refines_mnode; [done|intros _]. apply refines_durable; [done|]. apply refines_gets.
  eapply refines_bind; [apply refines_apply_loop; [done|done|by eexists|]|]; simpl.
  { unfold left_to_apply, apply_fuel. apply map_subseteq_size, map_filter_subseteq. }
  intros s2 x2 r Hs2 Hx2 (ds & Hap & -> & Hnone). simpl.
  assert (applies n x x2 ds) as Hap'.
  { destruct Hap. assert (∀ n, applied_of x1 n = applied_of x n) as Ha by (intros; unfold applied_of; by rewrite Hd1).
    split; [by rewrite al_applied0, Ha|by intros; rewrite al_others0, Ha|by intros; rewrite al_learned0, Hl1|done]. }
  clear Hap. eapply refines_bind; [by apply refines_blocked_on|]. intros s3 x3 gap Hs3 Hx3 ->.
  assert (∀ s x3, RX x3 s → x3.(disk) = x2.(disk) → x3.(machines) = x2.(machines) →
    (∀ n slot, learned_at x3 n slot = learned_at x2 n slot) →
    refinesX s (on_cluster (recover_decisions n (zlen (applied_of x2 n) + 1)) ;; ret ds)
    (λ x' _ ds, applies n x x' ds ∧ n ∈ ids ∧ learned_at x' n (zlen (applied_of x' n) + 1) = None) x3) as Hrec.
  { intros s4 x4 Hx4 Hd4 Hm4 Hl4. eapply refines_bind; [by apply refines_recover|].
    intros s5 x5 [] _ Hx5 (Hd5 & Hm5 & Hl5). apply refines_ret; [done|].
    assert (∀ n', applied_of x5 n' = applied_of x2 n') as Ha5 by (intros; unfold applied_of; by rewrite Hd5, Hd4).
    rewrite Ha5, Hl5, Hl4. split_and!; [|done..]. destruct Hap'.
    split; [by rewrite Ha5|by intros; rewrite Ha5, al_others0|by intros; rewrite Hl5, Hl4|by rewrite Hm5, Hm4]. }
  simpl. destruct gap as [gap|]; [|by apply Hrec].
  eapply refines_bind; [apply refines_gets; by apply safely_mm_record|].
  intros s4 x4 [] _ Hx4 (Hd4 & Hm4 & Hl4). by apply Hrec.
Qed.

End servers.

(** ** The other calls of a machine *)

Section machine_calls.
Context (ids : list string) (j : ClientJournal).
Local Abbreviation quorum := (majority ids).
Local Abbreviation steps := (rtc (step quorum)).
Local Abbreviation RX := (RX ids j).
Local Abbreviation refinesX := (refines (step quorum) RX (op_error false)).
Local Abbreviation safelyX := (safely (step quorum) RX (op_error false)).

(** Fewer machines loaded, the same durable prefixes *)
Lemma RX_restrict x y s :
  RX x s → y.(cluster) = x.(cluster) → (∀ n, applied_of y n = applied_of x n) →
  (∀ n mc, y.(machines) !! n = Some mc → x.(machines) !! n = Some mc) → RX y s.
Proof.
  intros [cs (HR & Hd & [] & Ha)] Hcl Hap Hmc. exists cs. unfold serves. rewrite Hcl. split_and!; [done..| |done].
  split; intros n; rewrite Hap; auto.
Qed.

Lemma refines_drop n x s : RX x s → refinesX s (drop_machine n) (λ _ _ _, True) x.
Proof.
  intros Hx. apply wp_modify. exists s. split_and!; [done| |done]. apply (RX_restrict x); [done..|].
  simpl. by intros n' mc [_ ?]%lookup_delete_Some.
Qed.

Lemma refines_state n x s : journal_ok j → RX x s → safelyX s (state n) x.
Proof.
  intros Hj Hx. unfold state. apply (refines_live _ _ _ machine_op_error); [done|intros _].
  eapply refines_bind; [by apply (refines_load_machine _ _ _ machine_op_error)|]. intros. by apply refines_ret.
Qed.

Lemma refines_cluster_op (o : mp_op (V := Command)) x s :
  RX x s → proposes (ordered_by (names j)) o → safelyX s (on_cluster (exec_op o)) x.
Proof.
  intros Hx Ho. pose proof Hx as [cs (HR & _)]. eapply refines_weaken; [|done].
  apply safely_on_cluster; [done|]. by apply exec_op_safely.
Qed.

Lemma refines_crash_restart (o : mp_op (V := Command)) n x s :
  RX x s → proposes (ordered_by (names j)) o → safelyX s (on_cluster (exec_op o) ;; drop_machine n) x.
Proof.
  intros Hx Ho. eapply safely_bind; [by apply refines_cluster_op|]. intros s1 x1 [] _ Hx1. by apply refines_drop.
Qed.

Lemma wp_check_decisions n l reference x s :
  RX x s → wp (check_decisions n l reference) (λ x' _, x' = x) (λ x' e, x' = x ∧ machine_error e) x.
Proof.
  intros Hx. revert reference. induction l as [|d l IH]; intros reference; simpl; [by apply wp_ret|].
  apply wp_bind. eapply wp_mono; [by eapply wp_require_chosen| |done]. intros ? [] [-> _].
  unfold check_reference, bind at 1, gets. destruct (reference !! sl_slot d) as [v|]; simpl.
  - unfold raise_if. destruct (negb _); simpl; [split; [done|apply machine_violation]|]. apply wp_bind, wp_lift, IH.
  - apply wp_bind, wp_lift, IH.
Qed.

Lemma wp_check_machines l reference x s :
  journal_ok j → RX x s →
  wp (check_machines l reference) (λ x' _, x' = x) (λ x' e, x' = x ∧ machine_error e) x.
Proof.
  intros Hj Hx. pose proof Hx as [cs Hsv]. revert reference. induction l as [|n l IH]; intros reference; simpl; [by apply wp_ret|].
  destruct (served_replay _ _ n _ _ _ Hj Hsv) as (t & Ht & _). destruct Hsv as (_ & _ & Hm & _).
  apply wp_bind. unfold durable_applied, bind at 1, gets, lift at 1. unfold wp at 1, bind at 1.
  rewrite (mo_slots _ _ Hm n). simpl. apply wp_bind. eapply wp_mono; [by eapply wp_check_decisions| |done].
  intros ? r ->. apply wp_bind, wp_gets. rewrite Ht. apply wp_bind, wp_lift, wp_bind, wp_raise_if; intros _; [|by apply IH].
  split; [done|apply machine_violation].
Qed.

Lemma refines_assert x s : journal_ok j → RX x s → safelyX s assert_applied x.
Proof.
  intros Hj Hx. unfold assert_applied. eapply safely_bind; [by apply (refines_cluster_op OpAssertSafety)|].
  intros s1 x1 [] _ Hx1. apply refines_gets, safely_wp. eapply wp_mono; [by eapply wp_check_machines| |].
  - by intros ? [] ->.
  - intros ? e [-> ?]. split; [done|by apply machine_op_error].
Qed.

Lemma refines_init_machine x s : journal_ok j → RX x s → safelyX s init_machine x.
Proof.
  intros Hj Hx. unfold init_machine. apply refines_gets.
  apply refines_check; [done|intros _; left; set_solver|intros _]. apply refines_gets.
  eapply safely_bind; [|intros s1 x1 [] _ Hx1; by apply refines_assert].
  apply safely_wp. eapply wp_mono; [apply (wp_for_each _ _ (λ x', RX x' s) (λ _ _, False)); [done|]|done..].
  intros n x' _ Hx'. apply wp_bind, wp_gets, wp_modify. apply (RX_restrict x'); [done..| |done].
  intros n'. unfold applied_of at 1. simpl. destruct (decide (n' = n)) as [->|Hne].
  - by rewrite lookup_insert_eq.
  - by rewrite lookup_insert_ne.
Qed.

(** A new simulator over the disks of the servers *)
Lemma machine_reboot plan x y s :
  journal_ok j → RX x s →
  machine_boot plan ids x.(cluster).(sim).(persistent_state) x.(disk) = (y, inr tt) →
  ∃ s', steps s s' ∧ RX y s'.
Proof.
  intros Hj [cs (HR & Hd & Hm & Ha)]. unfold machine_boot, bind at 1, on_cluster. simpl.
  destruct (init_cluster ids true _) as [w' [e|[]]] eqn:Ei; simpl; [done|]. intros Hy.
  destruct (init_cluster_ids _ _ _ _ Ei) as [Hne Hnd].
  destruct (reboot_R _ _ _ true _ _ plan Hne Hnd HR) as (w2 & Hi2 & HR2 & _). rewrite Ei in Hi2.
  assert (w' = w2) as <- by congruence. clear Hi2.
  assert (RX (mkMachineWorld w' x.(disk) ∅) s) as Hx.
  { exists cs. split_and!; [done..| |done]. destruct Hm. split; [done..|]. simpl. by intros n mc ?%lookup_empty_Some. }
  pose proof (refines_init_machine _ _ Hj Hx) as Hw. unfold safely, refines, wp in Hw. rewrite Hy in Hw.
  destruct Hw as (s' & ? & ? & _). by exists s'.
Qed.
End machine_calls.

Lemma machine_init plan ids y :
  machine_boot plan ids ∅ ∅ = (y, inr tt) →
  ids ≠ [] ∧ NoDup ids ∧ ∃ s, rtc (step (majority ids)) Consensus.init s ∧ RX ids new_journal y s.
Proof.
  unfold machine_boot, bind at 1, on_cluster. simpl.
  destruct (init_cluster ids true _) as [w' [e|[]]] eqn:Ei; simpl; [done|]. intros Hy.
  destruct (init_R ids false (ordered_by (names new_journal)) true _ _ Ei) as (Hne & Hnd & HR).
  split_and!; [done..|].
  assert (RX ids new_journal (mkMachineWorld w' ∅ ∅) Consensus.init) as Hx.
  { exists []. split_and!; [done|done| |apply new_answers_ok]. split; [done|done|]. simpl. by intros n mc ?%lookup_empty_Some. }
  pose proof (refines_init_machine _ _ _ _ new_journal_ok Hx) as Hw. unfold safely, refines, wp in Hw. rewrite Hy in Hw.
  destruct Hw as (s' & ? & ? & _). by exists s'.
Qed.
