(* ===== verification/MPClientCalls.v ===== *)
(** * MPClientCalls: every client call keeps the relation

    [follows ids c s] pairs the invariant of the journal with the relation of
    the servers to the specification; each method of [MPClient] keeps it and
    raises only what [client_error] lists. *)

From stdpp Require Import relations.
From S2P Require Import Prelude Simulator SimFacts Quorum Consensus Slots Refinement KVCommands History Linearizability Projection MultiPaxos MultiPaxosRefine MPMachine MPClient MPReplay MPClientRefine.

Implicit Types (x : MachineWorld) (c : ClientWorld) (j : ClientJournal) (s : State Command)
  (n : string) (cs : list Command) (h : OperationHistory) (request : MultiPaxosRequest).

Section calls.
Context (ids : list string).
Local Abbreviation quorum := (majority ids).
Local Abbreviation steps := (rtc (step quorum)).

Definition follows c s : Prop := journal_ok c.(journal) ∧ RX ids c.(journal) c.(machine) s.

Local Abbreviation refinesC := (refines (step quorum) follows (op_error false)).
Local Abbreviation safelyC := (safely (step quorum) follows (op_error false)).
Local Abbreviation refinesX j := (refines (step quorum) (RX ids j) (op_error false)).

Lemma refines_on_machine {A} (m : MM A) (Q : MachineWorld → State Command → A → Prop) c s :
  follows c s → refinesX c.(journal) s m Q c.(machine) →
  refinesC s (on_machine m) (λ c' s' a, Q c'.(machine) s' a ∧ c'.(journal) = c.(journal)) c.
Proof.
  intros [Hj _] Hm. unfold refines, wp, on_machine in *. destruct (m (machine c)) as [x' [e|a]]; simpl.
  - destruct Hm as [(s' & Hs & Hx) He]. split; [|done]. exists s'. done.
  - destruct Hm as (s' & Hs & Hx & HQ). exists s'. done.
Qed.

Lemma safely_on_machine {A} (m : MM A) (Q : MachineWorld → State Command → A → Prop) c s :
  follows c s → refinesX c.(journal) s m Q c.(machine) →
  refinesC s (on_machine m) (λ c' _ _, c'.(journal) = c.(journal)) c.
Proof.
  intros Hc Hm. eapply refines_weaken; [by eapply refines_on_machine|]. by intros ? ? ? _ _ [_ ?].
Qed.

(** A call of the cluster *)
Lemma refines_on_node {A} (m : M MPWorld A) c s :
  follows c s →
  (∀ w, w = world_of c → R ids ids false (ordered_by (names c.(journal))) w s →
    safely (step quorum) (R ids ids false (ordered_by (names c.(journal)))) (op_error false) s m w) →
  refinesC s (on_node m) (λ c' _ _, c'.(journal) = c.(journal)) c.
Proof.
  intros Hc Hm. pose proof Hc as [_ Hx]. pose proof Hx as [cs (HR & _)].
  eapply safely_on_machine; [done|]. apply safely_on_cluster; [done|]. by apply Hm.
Qed.

(** ** Calls that change nothing *)

Lemma wp_on_machine_pure {A} (m : MM A) c (Q : A → Prop) (E : exn → Prop) :
  wp m (λ x' a, x' = c.(machine) ∧ Q a) (λ x' e, x' = c.(machine) ∧ E e) c.(machine) →
  wp (on_machine m) (λ c' a, c' = c ∧ Q a) (λ c' e, c' = c ∧ E e) c.
Proof.
  destruct c as [x j]. unfold wp, on_machine. simpl. by destruct (m x) as [x' [e|a]]; simpl; intros [-> ?].
Qed.

Lemma wp_op_error {A} (m : MM A) Q x0 x :
  wp m Q (λ x' e, x' = x0 ∧ machine_error e) x → wp m Q (λ x' e, x' = x0 ∧ op_error false e) x.
Proof. intros Hm. eapply wp_mono; [exact Hm|done|]. intros ? e [-> ?]. split; [done|by apply machine_op_error]. Qed.

Lemma wp_cnode n c s :
  follows c s → wp (on_node (node n)) (λ c' n', c' = c ∧ n' = n ∧ n ∈ ids)
    (λ c' e, c' = c ∧ op_error false e) c.
Proof. intros [_ Hx]. apply wp_on_machine_pure. by eapply wp_op_error, wp_mnode. Qed.

Lemma refines_cnode {B} n (k : string → CM B) Q c s :
  follows c s → (n ∈ ids → refinesC s (k n) Q c) → refinesC s (bind (on_node (node n)) k) Q c.
Proof.
  intros Hc Hk. eapply refines_pure; [by eapply wp_cnode|done|]. simpl. intros n' [-> Hn]. by apply Hk.
Qed.

Lemma wp_authorized n b c s :
  follows c s → wp (authorized n b) (λ c' _, c' = c ∧ True) (λ c' e, c' = c ∧ op_error false e) c.
Proof.
  intros [_ [cs (HR & _)]]. unfold authorized. apply wp_bind, wp_gets. destruct (negb _); [by apply wp_ret|].
  apply wp_bind, wp_gets, wp_bind.
  eapply wp_mono; [apply (wp_on_machine_pure _ _ (λ _, True) (op_error false))| |done].
  - unfold wp, on_cluster. pose proof (wp_promised_ballot ids ids false _ n (world_of c) s (λ _ _, False) HR) as Hp.
    unfold wp in Hp. unfold world_of in *. destruct (promised_ballot n (cluster (machine c))) as [w' [e|p]]; [done|].
    destruct Hp as [-> _]. simpl. split; [|done]. by destruct (machine c).
  - intros ? p [-> _]. by apply wp_ret.
Qed.

Lemma refines_authorized {B} n b (k : bool → CM B) Q c s :
  follows c s → (∀ able, refinesC s (k able) Q c) → refinesC s (bind (authorized n b) k) Q c.
Proof. intros Hc Hk. eapply refines_pure; [by eapply wp_authorized|done|]. intros able _. apply Hk. Qed.

(** ** Results *)

Definition result_of (status : ClientStatus) n request (slot : option Z) (value : option string)
    (r : ClientResult) : Prop :=
  r.(res_status) = status ∧ r.(res_request) = request ∧ r.(res_node_id) = n ∧ r.(res_slot) = slot
  ∧ r.(res_value) = value.

Lemma refines_result status n request slot value b c s :
  follows c s → refinesC s (result status n request slot value b)
    (λ c' _ r, c'.(journal) = c.(journal) ∧ c'.(machine).(disk) = c.(machine).(disk)
      ∧ result_of status n request slot value r) c.
Proof.
  intros Hc. unfold result. apply refines_gets, refines_authorized; [done|intros able].
  eapply refines_bind.
  { eapply refines_on_machine; [done|]. apply safely_mm_record, Hc. }
  simpl. intros s' c' [] _ Hc' ((Hd & _) & Hj). by apply refines_ret.
Qed.

Lemma refines_plain status n request slot c s :
  follows c s → refinesC s (plain_result status n request slot)
    (λ c' _ r, c'.(journal) = c.(journal) ∧ c'.(machine).(disk) = c.(machine).(disk)
      ∧ result_of status n request slot None r) c.
Proof. apply refines_result. Qed.

(** ** Registration and local checks *)

Lemma refines_register {B} request (k : unit → CM B) Q c s :
  follows c s →
  (∀ c', follows c' s → c'.(machine) = c.(machine) → request ∈ names c'.(journal) → refines (step quorum) follows
    (λ e, op_error false e ∨ e.(exn_cls) = ClientRequestConflict) s (k tt) Q c') →
  refines (step quorum) follows (λ e, op_error false e ∨ e.(exn_cls) = ClientRequestConflict) s
    (bind (register_request request) k) Q c.
Proof.
  intros [Hj [cs (HR & Hd & Hm & Ha)]] Hk. apply wp_bind. eapply wp_mono; [apply (wp_register cs)| |].
  - done.
  - by eapply decides_orders.
  - done.
  - simpl. intros c' [] (Hmc & Hj' & Hr & Hsub & Ha'). apply Hk; [|done..]. split; [done|]. exists cs.
    rewrite Hmc. split_and!; [|done..]. eapply R_values_mono; [|exact HR].
    intros v. destruct v; simpl; auto.
  - simpl. intros c' e [-> He]. split; [exists s; split; [done|split; [done|by exists cs]]|].
    apply elem_of_cons in He as [He|He%list_elem_of_singleton]; [by right|left; left].
    unfold call_error. rewrite He. set_solver.
Qed.

Lemma refines_identity ok n request c s :
  follows c s → (∀ msg, ok (Exn ClientRequestConflict msg)) →
  refines (step quorum) follows ok s (check_local_identity n request ;; ret false) (λ c' _ _, c' = c) c.
Proof.
  intros Hc Hok. unfold check_local_identity. apply wp_bind, wp_bind, wp_gets, wp_raise_if; intros _.
  - split; [by exists s|apply Hok].
  - by apply refines_ret.
Qed.

(** ** Answers *)

(** [records] is the deduplication table of [n]'s durable prefix. *)
Lemma refines_client_requests n c s :
  follows c s →
  refinesC s (on_machine (client_requests n)) (λ c' _ records, c'.(journal) = c.(journal)
    ∧ ∃ t, records = t.(requests) ∧ tables_ok (sl_value <$> applied_of c'.(machine) n) t) c.
Proof.
  intros Hc. pose proof Hc as [Hj Hx]. eapply refines_weaken.
  - apply (refines_on_machine _ (λ x' _ records, ∃ t, records = t.(requests)
      ∧ tables_ok (sl_value <$> applied_of x' n) t)); [done|].
    unfold client_requests. apply (refines_live _ _ _ machine_op_error); [done|intros Hn].
    eapply refines_bind; [by apply (refines_load_machine _ _ _ machine_op_error)|]. intros s1 x1 mc _ Hx1 (_ & (_ & Hr & _) & _).
    apply refines_ret; [done|]. exists (tables mc). split; [done|]. destruct Hx1 as [cs Hsv].
    destruct (served_replay _ _ n _ _ _ Hj Hsv) as (t & Ht & Hok). rewrite Hr in Ht. by injection Ht as ->.
  - simpl. by intros s' c' records _ _ [? ?].
Qed.

Lemma refines_applied_at {B} n slot d (k : Learned → CM B) Q c s :
  follows c s → znth (applied_of c.(machine) n) (slot - 1) = Some d →
  refinesC s (k d) Q c → refinesC s (bind (applied_at n slot) k) Q c.
Proof.
  intros Hc Hd Hk. pose proof Hc as [_ Hx]. eapply (refines_pure _ _ _ _ _ _ (λ d', d' = d)); [|done|by intros ? ->].
  unfold applied_at. apply wp_bind. eapply wp_mono; [apply (wp_on_machine_pure _ _ (λ l, l = applied_of c.(machine) n) (op_error false))| |done].
  - by eapply wp_op_error, wp_applied.
  - simpl. intros ? l [-> ->]. by rewrite Hd.
Qed.

Lemma completed_lookup h i :
  history_wf h → i ∈ h.(h_invocations) →
  (λ o, o.(co_completion)) <$> observed_of h !! i.(inv_operation_id) = h.(h_completions) !! i.(inv_operation_id).
Proof.
  intros Hw Hi. destruct (observed_of h !! _) as [o|] eqn:Eo; simpl.
  - apply (observed_iff _ _ _ Hw) in Eo as [[Ho Hc]%elem_of_completed Hid]. by rewrite <-Hid, Hc.
  - destruct (h_completions h !! _) as [a|] eqn:Ea; [|done]. exfalso.
    assert (observed_of h !! inv_operation_id i = Some (mkCompletedOperation i a)); [|congruence].
    apply (observed_iff _ _ _ Hw). split; [|done]. by apply elem_of_completed.
Qed.

(** What an answer adds to the journal. *)
Lemma journal_ok_responded j id i value :
  journal_ok j → invocation_of j.(history) id = Some i → j.(history).(h_completions) !! id = None →
  (is_write i.(inv_operation) = true → value = None) →
  journal_ok (set_history (with_completion j.(history) id value) j).
Proof.
  intros Hj Hi Hc Hv. pose proof (respond_returns _ _ _ _ Hi Hc ltac:(rewrite (jo_abandoned _ Hj); set_solver) Hv) as He.
  pose proof (respond_wf j.(history) id value (jo_history _ Hj)) as Hw. unfold wp in Hw. rewrite He in Hw.
  split; try apply Hj. exact Hw.
Qed.

Lemma answers_ok_responded cs h r l1 id value :
  answers_ok cs h → history_wf h → r.(rq_operation_id) = id → executed_at cs r l1 →
  value = answer r.(rq_operation) (run_requests l1) → answers_ok cs (with_completion h id value).
Proof.
  intros [Hr Ho] Hw Hid Hx ->. split; simpl.
  - intros id' a [[<- <-]|[_ Ha]]%lookup_insert_Some; [|by apply Hr]. by exists r, l1.
  - intros id' a i r' l' [[<- <-]|[_ Ha]]%lookup_insert_Some Hi Hlt; [|by eapply Ho].
    simpl in Hlt. pose proof (wf_fresh _ Hw _ Hi). lia.
Qed.

Lemma refines_publish request value l1 c s :
  follows c s → request ∈ names c.(journal) → is_append request = false →
  (∃ n, executed_at (sl_value <$> applied_of c.(machine) n) request l1) →
  value = answer request.(rq_operation) (run_requests l1) →
  refinesC s (publish request value) (λ c' _ _, c'.(machine) = c.(machine) ∧ names c'.(journal) = names c.(journal)) c.
Proof.
  intros [Hj Hx] Hr Happ [n Hl1] Hval. pose proof Hx as [cs (HR & Hd & Hm & Ha)].
  assert (executed_at cs request l1) as Hex by (destruct (mo_prefix _ _ Hm n) as [k ->]; by apply executed_app).
  unfold is_append in Happ. destruct (rq_operation request) as [op|] eqn:Eop; [|done].
  destruct (jo_recorded _ Hj _ _ Hr Eop) as (i & Hi & Hop). pose proof (invocation_of_elem _ _ _ Hi) as [Hin Hid].
  pose proof (completed_lookup _ _ (jo_history _ Hj) Hin) as Hc. rewrite Hid in Hc.
  unfold publish. apply refines_gets. destruct (observed_of _ !! _) as [o|] eqn:Eo; simpl in Hc.
  - apply wp_raise_if; [|intros _; exists s; split; [done|split; [split; [done|by exists cs]|done]]].
    intros Hne. exfalso. apply negb_true_iff, bool_decide_eq_false in Hne. apply Hne.
    destruct (an_result _ _ Ha _ _ (eq_sym Hc)) as (r & l1' & Hrid & Hx' & ->).
    assert (r = request) as ->.
    { apply (jo_names _ Hj); [|done|apply clashes_true; by right].
      eapply orders_firsts; [by eapply decides_orders|by eapply executed_elem]. }
    by rewrite Hval, Eop, (executed_unique _ _ _ _ Hex Hx').
  - assert (is_write (inv_operation i) = true → value = None) as Hw.
    { rewrite Hop, Hval. destruct op; simpl; [done|discriminate]. }
    apply wp_bind. unfold wp at 1, on_history.
    rewrite (respond_returns _ _ _ i Hi (eq_sym Hc) ltac:(rewrite (jo_abandoned _ Hj); set_solver) Hw). simpl. apply wp_ret. exists s.
    split; [done|]. split; [|done]. split; simpl; [by eapply journal_ok_responded|]. exists cs.
    split_and!; [done..|]. simpl. eapply answers_ok_responded; [done|apply Hj|done|exact Hex|by rewrite Eop].
Qed.

(** ** poll *)

(** The answer a result reports is the one the node's durable prefix gives. *)
Definition answered c (r : ClientResult) : Prop :=
  r.(res_status) ∈ [COMPLETED; APPLIED] → ∃ l1,
    executed_at (sl_value <$> applied_of c.(machine) r.(res_node_id)) r.(res_request) l1
    ∧ r.(res_value) = answer r.(res_request).(rq_operation) (run_requests l1).

Lemma not_answered c r status n request slot value :
  result_of status n request slot value r → status ∉ [COMPLETED; APPLIED] → answered c r.
Proof. intros (Hs & _) Hn Hin. by rewrite Hs in Hin. Qed.

(** What a call that answers a request leaves. *)
Definition polled c n request c' (r : ClientResult) : Prop :=
  names c'.(journal) = names c.(journal) ∧ r.(res_request) = request ∧ r.(res_node_id) = n ∧ answered c' r.

Lemma refines_unanswered status n request slot c s :
  follows c s → status ∉ [COMPLETED; APPLIED] →
  refinesC s (plain_result status n request slot) (λ c' _ r, polled c n request c' r) c.
Proof.
  intros Hc Hst. eapply refines_weaken; [by apply refines_plain|]. intros s' c' r _ _ (Hj & _ & Hr).
  split_and!; [by rewrite Hj|apply Hr..|by eapply not_answered].
Qed.

Lemma polled_trans c c1 n request c' r :
  names c1.(journal) = names c.(journal) → polled c1 n request c' r → polled c n request c' r.
Proof. intros Hn (? & ? & ? & ?). split_and!; congruence || done. Qed.

(** The part of [poll] on a record *)
Lemma refines_answer n request (record : AppliedRequest) acknowledge c s :
  follows c s → request ∈ names c.(journal) → record.(ar_request) = request →
  record_ok (sl_value <$> applied_of c.(machine) n) (identity request) record →
  refinesC s (
    let! decision := applied_at n record.(ar_slot) in
    raise_if (negb (bool_decide (decision.(sl_value) = CRequest request))) AssertionError
      "client completion lacks matching applied request" ;;
    when (acknowledge && negb (is_append request)) (publish request record.(ar_result)) ;;
    result (if acknowledge then COMPLETED else APPLIED) n request (Some record.(ar_slot))
      record.(ar_result) (Some decision.(sl_proposal)))
    (λ c' _ r, polled c n request c' r) c.
Proof.
  intros Hc Hr Hreq Hrec. pose proof (rec_value _ _ _ Hrec) as Hv. unfold znth in Hv.
  rewrite list_lookup_fmap in Hv. apply fmap_Some in Hv as (d & Hd & Hdv).
  eapply refines_applied_at; [done|exact Hd|]. apply refines_guard.
  { rewrite <-Hdv, Hreq. by rewrite bool_decide_eq_true_2. }
  destruct (rec_result _ _ _ Hrec) as (l1 & Hex & Hres). rewrite Hreq in Hex, Hres.
  eapply (refines_bind _ _ _ _ _ _ _ (λ c' _ _, c'.(machine) = c.(machine) ∧ names c'.(journal) = names c.(journal))).
  - destruct (acknowledge && negb (is_append request)) eqn:Eb; [|by apply refines_ret].
    apply andb_true_iff in Eb as [_ Eb%negb_true_iff]. eapply refines_publish; [done..|by exists n|done].
  - intros s1 c1 [] _ Hc1 [Hm1 Hn1]. eapply refines_weaken; [by apply refines_result|].
    intros s2 c2 r _ Hc2 (Hj2 & Hd2 & Hs & Hq & Hn & _ & Hval). split_and!; [congruence|done..|].
    intros _. exists l1. rewrite Hq, Hn, Hval. unfold applied_of in *. by rewrite Hd2, Hm1.
Qed.

Lemma refines_poll n request b apply acknowledge c s :
  follows c s → refinesC s (poll n request b apply acknowledge) (λ c' _ r, polled c n request c' r) c.
Proof.
  intros Hc. unfold poll. apply refines_gets.
  apply refines_check; [done|intros _; left; set_solver|].
  intros Hr%negb_false_iff%bool_decide_eq_true. apply assoc_get_names in Hr as [Hr _]; [|apply Hc].
  apply refines_cnode; [done|intros Hn]. apply refines_authorized; [done|intros able].
  destruct (negb able); [apply refines_unanswered; [done|set_solver]|].
  eapply (refines_bind _ _ _ _ _ _ _ (λ c' _ _, c' = c)).
  { eapply (refines_try _ _ (λ e, e.(exn_cls) = ClientRequestConflict)); [by apply refines_identity|].
    simpl. intros s' c' e Hs' Hc' -> He. apply refines_ret; [done|].
    unfold check_local_identity, bind, gets, raise_if in He. destruct (existsb _ _); [by injection He|done]. }
  intros s1 c1 conflict _ Hc1 ->. destruct conflict; [apply refines_unanswered; [done|set_solver]|].
  eapply (refines_bind _ _ _ _ _ _ _ (λ c' _ _, c'.(journal) = c.(journal))).
  { destruct apply; [|by apply refines_ret]. simpl. eapply refines_bind.
    - eapply safely_on_machine; [done|]. apply (refines_apply_ready _ _ _ machine_op_error); apply Hc1.
    - intros s2 c2 ds _ Hc2 Hj2. by apply refines_ret. }
  intros s2 c2 [] _ Hc2 Hj2. eapply refines_bind; [by apply refines_client_requests|].
  intros s3 c3 records _ Hc3 (Hj3 & t & -> & Ht).
  assert (names c3.(journal) = names c.(journal)) as Hn3 by congruence.
  destruct (requests t !! identity request) as [record|] eqn:Erec.
  - destruct (bool_decide (ar_request record = request)) eqn:Eq; simpl.
    + apply bool_decide_eq_true in Eq. eapply refines_weaken; [apply refines_answer; [done| |done|]|].
      * by rewrite Hn3.
      * by apply (tables_record _ _ Ht).
      * intros. by eapply polled_trans.
    + eapply refines_weaken; [apply refines_unanswered; [done|set_solver]|]. intros. by eapply polled_trans.
  - apply refines_gets. destruct (filter _ _) as [|d l].
    + eapply refines_weaken; [apply refines_unanswered; [done|set_solver]|]. intros. by eapply polled_trans.
    + eapply refines_weaken; [by apply refines_result|]. intros s4 c4 r _ _ (Hj4 & _ & Hr4).
      split_and!; [congruence|apply Hr4..|]. eapply not_answered; [exact Hr4|set_solver].
Qed.

(** ** submit *)

Lemma refines_retry n slot c s :
  follows c s → n ∈ ids →
  refinesC s (on_node (retry_proposal n slot)) (λ c' _ _, c'.(journal) = c.(journal)) c.
Proof.
  intros Hc Hn. apply refines_on_node; [done|]. intros w -> HR.
  apply safely_retry_proposal; [by right|by left|done|done].
Qed.

Lemma refines_propose n slot v c s :
  follows c s → n ∈ ids → ordered_by (names c.(journal)) v →
  refinesC s (on_node (propose n slot v)) (λ c' _ _, c'.(journal) = c.(journal)) c.
Proof.
  intros Hc Hn Hv. apply refines_on_node; [done|]. intros w -> HR.
  apply safely_propose; [by right|by left|done|done|done|done].
Qed.

Lemma refines_then_plain {A} status n request slot (m : CM A) c s :
  follows c s → status ∉ [COMPLETED; APPLIED] →
  refinesC s m (λ c' _ _, c'.(journal) = c.(journal)) c →
  refinesC s (m ;; plain_result status n request slot) (λ c' _ r, polled c n request c' r) c.
Proof.
  intros Hc Hst Hm. eapply refines_bind; [exact Hm|]. simpl. intros s1 c1 _ _ Hc1 Hj1.
  eapply refines_weaken; [by apply refines_unanswered|]. intros s2 c2 r _ _ Hp.
  eapply polled_trans; [|exact Hp]. by rewrite Hj1.
Qed.

Lemma refines_place n request slot c s :
  follows c s → n ∈ ids → request ∈ names c.(journal) →
  refinesC s (place n request slot) (λ c' _ r, polled c n request c' r) c.
Proof.
  intros Hc Hn Hr. unfold place. apply refines_gets. destruct (filter _ _) as [|p l].
  - apply refines_gets. cbv zeta. apply refines_gets. destruct (existsb _ _).
    + by apply refines_unanswered; [|set_solver].
    + apply refines_then_plain; [done|set_solver|]. by apply refines_propose.
  - apply refines_then_plain; [done|set_solver|]. by apply refines_retry.
Qed.

(** The journal only gains requests. *)
Definition submitted c n request c' (r : ClientResult) : Prop :=
  names c.(journal) ⊆ names c'.(journal) ∧ r.(res_request) = request ∧ r.(res_node_id) = n ∧ answered c' r.

Lemma polled_submitted c c1 n request c' r :
  names c.(journal) ⊆ names c1.(journal) → polled c1 n request c' r → submitted c n request c' r.
Proof. intros Hn (Hn' & ? & ? & ?). split_and!; [by rewrite Hn'|done..]. Qed.

(** Registering and checking, the clash caught *)
Definition admit_request n request : CM bool :=
  try_except (register_request request ;; check_local_identity n request ;; ret false) (λ e,
    match e.(exn_cls) with ClientRequestConflict => ret true | _ => rethrow e end).

Lemma register_grows request c c' e :
  register_request request c = (c', inl e) → names c.(journal) ⊆ names c'.(journal).
Proof.
  unfold register_request, bind, gets, raise_if. destruct (first_clash _ _) as [p|].
  - by destruct (negb _); intros [= <- _].
  - destruct (rq_operation request) as [op|a]; [|done].
    unfold on_history. destruct (invoke _ _ _ _) as [h [e'|i]]; [|done]. by intros [= <- _].
Qed.

Lemma refines_admit n request c s :
  follows c s → refinesC s (admit_request n request) (λ c' _ conflict,
    names c.(journal) ⊆ names c'.(journal) ∧ (conflict = false → request ∈ names c'.(journal))) c.
Proof.
  intros Hc. pose proof Hc as [Hj [cs (HR & Hd & Hm & Ha)]]. unfold admit_request, try_except, refines, wp.
  pose proof (wp_register cs request c Hj (decides_orders _ _ _ _ _ HR Hd) Ha) as Hw. unfold wp in Hw.
  unfold bind at 1. destruct (register_request request c) as [c1 [e|[]]] eqn:Er.
  - destruct Hw as [-> He]. simpl. apply elem_of_cons in He as [He|He%list_elem_of_singleton]; rewrite He; simpl.
    + by exists s.
    + split; [by exists s|]. left. unfold call_error. rewrite He. set_solver.
  - destruct Hw as (Hmc & Hj1 & Hr & Hsub & Ha1).
    assert (follows c1 s) as Hc1.
    { split; [done|]. exists cs. rewrite Hmc. split_and!; [|done..]. eapply R_values_mono; [|exact HR].
      intros v. destruct v; simpl; auto. }
    unfold check_local_identity, bind, gets, raise_if. destruct (existsb _ _); simpl; by exists s.
Qed.

Lemma refines_submit n request slot c s :
  follows c s → refinesC s (submit n request slot) (λ c' _ r, submitted c n request c' r) c.
Proof.
  intros Hc. unfold submit. apply refines_check; [done|intros _; left; set_solver|intros _].
  apply refines_cnode; [done|intros Hn]. fold (admit_request n request).
  eapply refines_bind; [by apply refines_admit|]. intros s1 c1 conflict _ Hc1 [Hsub Hr].
  destruct conflict.
  { eapply refines_weaken; [apply refines_unanswered; [done|set_solver]|]. intros. by eapply polled_submitted. }
  specialize (Hr eq_refl). apply refines_authorized; [done|intros able]. destruct (negb able).
  { eapply refines_weaken; [apply refines_unanswered; [done|set_solver]|]. intros. by eapply polled_submitted. }
  eapply refines_bind; [by apply refines_poll|]. intros s2 c2 observed _ Hc2 Hp.
  assert (refinesC s2 (ret observed) (λ c' _ r, submitted c n request c' r) c2) as Hret.
  { apply refines_ret; [done|]. by eapply polled_submitted. }
  destruct Hp as [Hn2 _].
  assert (refinesC s2 (place n request slot) (λ c' _ r, submitted c n request c' r) c2) as Hplace.
  { eapply refines_weaken; [apply refines_place; [done|done|by rewrite Hn2]|]. intros s3 c3 r _ _ Hp3.
    eapply polled_submitted; [|exact Hp3]. by rewrite Hn2. }
  by destruct (res_status observed).
Qed.

(** ** execute *)

Lemma refines_repair_prefix n c s :
  follows c s → n ∈ ids →
  refinesC s (repair_prefix n) (λ c' _ _, c'.(journal) = c.(journal)) c.
Proof.
  intros Hc Hn. unfold repair_prefix. apply refines_authorized; [done|intros able].
  destruct (negb able); [by apply refines_ret|].
  eapply (refines_bind _ _ _ _ _ _ _ (λ c' _ _, c'.(journal) = c.(journal))).
  { eapply safely_on_machine; [done|]. destruct Hc as [_ Hx]. by eapply refines_reads, wp_op_error, wp_last_applied. }
  intros s1 c1 last _ Hc1 Hj1. cbv zeta. do 2 apply refines_gets. set (pending := _ <$> _).
  generalize (zrange (last + 1) (Z.min (high_water (world_of c1) n + 1) (last + 1 + 16))). intros slots.
  clearbody pending. clear last. revert s1 c1 Hc1 Hj1.
  induction slots as [|slot slots IH]; intros s1 c1 Hc1 Hj1; simpl; [by apply refines_ret|].
  eapply (refines_bind _ _ _ _ _ _ _ (λ c' _ _, c'.(journal) = c.(journal))).
  - unfold repair_slot. apply refines_gets. destruct (learned_at _ _ _); [by apply refines_ret|].
    rewrite <-Hj1. case_bool_decide; [by apply refines_retry|by apply refines_propose].
  - intros s2 c2 [] _ Hc2 Hj2. by apply IH.
Qed.

Lemma refines_apply_all l c s :
  follows c s → refinesC s (for_each l apply_alive) (λ c' _ _, c'.(journal) = c.(journal)) c.
Proof.
  revert c s. induction l as [|n l IH]; intros c s Hc; simpl; [by apply refines_ret|].
  eapply (refines_bind _ _ _ _ _ _ _ (λ c' _ _, c'.(journal) = c.(journal))).
  - unfold apply_alive. apply refines_gets. destruct (is_alive _ _); [|by apply refines_ret]. simpl.
    eapply refines_bind; [eapply safely_on_machine; [done|]; apply (refines_apply_ready _ _ _ machine_op_error); apply Hc|].
    intros s1 c1 ds _ Hc1 Hj1. by apply refines_ret.
  - intros s1 c1 [] _ Hc1 Hj1. eapply refines_weaken; [by apply IH|]. intros. congruence.
Qed.

Lemma submitted_trans c c1 n request c' r :
  names c.(journal) ⊆ names c1.(journal) → submitted c1 n request c' r → submitted c n request c' r.
Proof. intros Hn (? & ? & ? & ?). split_and!; [by etrans|done..]. Qed.

Lemma refines_execute_rounds rf rounds n request events last c s :
  follows c s → submitted c n request c last →
  refinesC s (execute_rounds rf rounds n request events last) (λ c' _ r, submitted c n request c' r) c.
Proof.
  revert last c s. induction rounds as [|rounds IH]; intros last c s Hc Hlast; simpl.
  - assert (refinesC s (ret last) (λ c' _ r, submitted c n request c' r) c) as Hret by by apply refines_ret.
    assert (refinesC s (let! n := on_node (node n) in
      plain_result QUORUM_UNAVAILABLE n request last.(res_slot)) (λ c' _ r, submitted c n request c' r) c) as Hq.
    { apply refines_cnode; [done|intros _]. eapply refines_weaken; [apply refines_unanswered; [done|set_solver]|].
      intros. by eapply polled_submitted. }
    by destruct (res_status last).
  - assert (refinesC s (ret last) (λ c' _ r, submitted c n request c' r) c) as Hret by by apply refines_ret.
    assert (refinesC s (
      let! n := on_node (node n) in
      repair_prefix n ;;
      on_node (mp_run rf (Some events)) ;;
      let! ids := gets (λ c, (world_of c).(objs).(node_ids)) in
      for_each ids apply_alive ;;
      let! polled := poll n request None true true in
      match polled.(res_status) with
      | COMPLETED | CONFLICT | LEADERSHIP_UNAVAILABLE => ret polled
      | _ =>
          let! again := submit n request None in
          execute_rounds rf rounds n request events again
      end) (λ c' _ r, submitted c n request c' r) c) as Hround; [|by destruct (res_status last)].
    clear Hret. apply refines_cnode; [done|intros Hn].
    eapply refines_bind; [by apply refines_repair_prefix|]. intros s1 c1 [] _ Hc1 Hj1.
    eapply refines_bind.
    { apply refines_on_node; [done|]. intros w -> HR. eapply safely_run; [by right|by left|done|exact HR]. }
    simpl. intros s2 c2 _ _ Hc2 Hj2. apply refines_gets.
    eapply refines_bind; [by apply refines_apply_all|]. simpl. intros s3 c3 [] _ Hc3 Hj3.
    eapply refines_bind; [by apply refines_poll|]. simpl. intros s4 c4 r _ Hc4 Hp.
    assert (names c.(journal) ⊆ names c3.(journal)) as Hn3 by (by rewrite Hj3, Hj2, Hj1).
    pose proof (polled_submitted _ _ _ _ _ _ Hn3 Hp) as Hr.
    assert (refinesC s4 (ret r) (λ c' _ r, submitted c n request c' r) c4) as Hret by (by apply refines_ret).
    assert (refinesC s4 (let! again := submit n request None in execute_rounds rf rounds n request events again)
      (λ c' _ r, submitted c n request c' r) c4) as Hagain.
    { eapply refines_bind; [by apply refines_submit|]. intros s5 c5 again _ Hc5 Ha. destruct Hr as [Hn4 _].
      destruct (proj1 (conj Ha I)) as [Hn5 [Hq Hrest]].
      eapply refines_weaken; [apply IH; [done|by split_and!; [done|..]; [exact Hq|apply Hrest..]]|].
      intros s6 c6 r6 _ _ H6. eapply submitted_trans; [|exact H6]. by etrans. }
    by destruct (res_status r).
Qed.

Lemma refines_execute rf n request rounds events c s :
  follows c s →
  refinesC s (execute rf n request rounds events) (λ c' _ r, submitted c n request c' r) c.
Proof.
  intros Hc. unfold execute. do 2 (apply refines_check; [done|intros _; left; set_solver|intros _]).
  eapply refines_bind; [by apply refines_submit|]. intros s1 c1 first _ Hc1 (Hn & Hq & Hnode & Ha).
  eapply refines_weaken; [by apply refines_execute_rounds|]. intros s2 c2 r _ _ Hr. by eapply submitted_trans.
Qed.

(** ** The system *)

(** Nothing else of the journal matters to a call that keeps it. *)
Lemma safely_machine_call {A} (m : MM A) c s :
  follows c s → safely (step quorum) (RX ids c.(journal)) (op_error false) s m c.(machine) →
  refinesC s (on_machine m ;; ret tt) (λ c' _ _, names c.(journal) ⊆ names c'.(journal)) c.
Proof.
  intros Hc Hm. eapply refines_bind; [by eapply safely_on_machine|]. simpl. intros s1 c1 a _ Hc1 Hj.
  apply refines_ret; [done|]. by rewrite Hj.
Qed.

Lemma outside_proposes (o : mp_op (V := Command)) l : outside o = true → proposes (ordered_by l) o.
Proof. destruct o as [|n slot v| | | | | | | | | | | | |]; try done. by destruct v. Qed.

Lemma refines_unit {A} (m : CM A) (Q : ClientWorld → State Command → unit → Prop) c s :
  refinesC s m (λ c' s' _, Q c' s' tt) c → refinesC s (m ;; ret tt) Q c.
Proof. intros Hm. eapply refines_bind; [exact Hm|]. simpl. intros. by apply refines_ret. Qed.

Lemma refines_exec (o : client_op) c s :
  follows c s → refinesC s (exec_client_op o) (λ c' _ _, names c.(journal) ⊆ names c'.(journal)) c.
Proof.
  intros Hc. pose proof Hc as [Hj Hx].
  destruct o as [n request slot|n request b apply acknowledge|rf n request rounds events|n|n|n| |n|n|o]; simpl.
  - apply refines_unit. eapply refines_weaken; [by apply refines_submit|]. by intros s1 c1 r _ _ [? _].
  - apply refines_unit. eapply refines_weaken; [by apply refines_poll|]. intros s1 c1 r _ _ [Hn _]. by rewrite Hn.
  - apply refines_unit. eapply refines_weaken; [by apply refines_execute|]. by intros s1 c1 r _ _ [? _].
  - apply safely_machine_call; [done|]. eapply refines_weaken; [by apply (refines_apply_ready _ _ _ machine_op_error)|done].
  - apply safely_machine_call; [done|]. by apply refines_state.
  - apply safely_machine_call; [done|]. eapply refines_weaken; [by apply (refines_blocked_on _ _ _ machine_op_error)|done].
  - eapply refines_weaken; [eapply safely_on_machine; [done|by apply refines_assert]|]. simpl. by intros s1 c1 _ _ _ ->.
  - eapply refines_weaken; [eapply safely_on_machine; [done|by apply (refines_crash_restart _ _ (OpCrash n))]|].
    simpl. by intros s1 c1 _ _ _ ->.
  - eapply refines_weaken; [eapply safely_on_machine; [done|by apply (refines_crash_restart _ _ (OpRestart n))]|].
    simpl. by intros s1 c1 _ _ _ ->.
  - destruct (outside o) eqn:Eo; [|by apply refines_ret].
    eapply refines_weaken; [eapply safely_on_machine; [done|by apply refines_cluster_op, outside_proposes]|].
    simpl. by intros s1 c1 _ _ _ ->.
Qed.

(** The relation holds in every world a system reaches. *)
Lemma client_follows c :
  client_reachable ids c → ids ≠ [] ∧ NoDup ids ∧ ∃ s, steps Consensus.init s ∧ follows c s.
Proof.
  induction 1 as [plan x Hx|c o c' r Hc IH Ho|c plan x Hc IH Hb].
  - destruct (machine_init _ _ _ Hx) as (? & ? & s & ? & ?). split_and!; [done..|]. exists s.
    split; [done|]. split; [apply new_journal_ok|done].
  - destruct IH as (? & ? & s & Hs & Hf). split_and!; [done..|].
    pose proof (refines_exec o c s Hf) as Hw. unfold refines, wp in Hw. rewrite Ho in Hw.
    destruct r as [e|[]]; [destruct Hw as [(s' & ? & ?) _]|destruct Hw as (s' & ? & ? & _)];
      exists s'; (split; [by etrans|done]).
  - destruct IH as (? & ? & s & Hs & Hj & Hx). split_and!; [done..|].
    destruct (machine_reboot _ _ _ _ _ _ Hj Hx Hb) as (s' & Hs' & Hx'). exists s'. split; [by etrans|done].
Qed.
End calls.
