(* ===== verification/MPClientProperties.v ===== *)
(** * MPClientProperties: what clients of the Multi-Paxos machine observe

    In every reachable world the recorded history of the clients is
    linearizable ([client_linearizable]), every machine is the replay of a
    prefix of one order of distinct requests ([client_exactly_once]), and the
    results of the calls are the ones of that order ([client_answers]). *)

From stdpp Require Import relations.
From S2P Require Import Prelude Simulator SimFacts Quorum Consensus Slots Refinement KVCommands History Linearizability Locality Projection MultiKey MultiPaxos MultiPaxosRefine MPMachine MPClient MPReplay MPClientRefine MPClientCalls.

Implicit Types (x : MachineWorld) (c : ClientWorld) (j : ClientJournal) (s : State Command)
  (n : string) (cs : list Command) (h : OperationHistory) (request : MultiPaxosRequest) (i : Invocation).

(** ** The order of execution explains the history *)

Lemma omap_split {A B} (f : A → option B) (k : list A) (l1 : list B) b (l2 : list B) :
  omap f k = l1 ++ b :: l2 → ∃ k1 a k2, k = k1 ++ a :: k2 ∧ omap f k1 = l1 ∧ f a = Some b ∧ omap f k2 = l2.
Proof.
  revert l1. induction k as [|y k IH]; intros l1 Hl; simpl in Hl; [by destruct l1|].
  destruct (f y) as [z|] eqn:Ey.
  - destruct l1 as [|z' l1]; injection Hl as <- Hl; [by exists [], y, k; subst|].
    destruct (IH _ Hl) as (k1 & y' & k2 & -> & <- & ? & ?). exists (y :: k1), y', k2. simpl. by rewrite Ey.
  - destruct (IH _ Hl) as (k1 & y' & k2 & -> & <- & ? & ?). exists (y :: k1), y', k2. simpl. by rewrite Ey.
Qed.

Section explained.
Context (j : ClientJournal) (cs : list Command).
Context (Hj : journal_ok j) (Ho : orders (names j) cs) (Ha : answers_ok cs j.(history)).
Context (Hna : ∀ r, r ∈ names j → is_append r = false).
Local Abbreviation h := (j.(history)).

Definition invocation_at r : option Invocation := invocation_of h r.(rq_operation_id).
Definition executed : list Invocation := omap invocation_at (firsts cs).

Lemma registered_invocation r : r ∈ firsts cs →
  ∃ i, invocation_at r = Some i ∧ r.(rq_operation) = OnHistory i.(inv_operation).
Proof.
  intros Hr. pose proof (orders_firsts _ _ _ Ho Hr) as Hin. pose proof (Hna _ Hin) as Happ. unfold is_append in Happ.
  destruct (rq_operation r) as [op|] eqn:Eop; [|done].
  destruct (jo_recorded _ Hj _ _ Hin Eop) as (i & Hi & <-). by exists i.
Qed.

Lemma same_request r r' : r ∈ firsts cs → r' ∈ firsts cs → r.(rq_operation_id) = r'.(rq_operation_id) → r = r'.
Proof.
  intros Hr Hr' Hid. apply (jo_names _ Hj); [by eapply orders_firsts..|]. apply clashes_true. by right.
Qed.

Lemma invocation_at_id r i : invocation_at r = Some i → i ∈ h.(h_invocations) ∧ i.(inv_operation_id) = r.(rq_operation_id).
Proof. apply invocation_of_elem. Qed.

(** The requests and their operations do the same. *)
Lemma run_executed l k : firsts cs = l ++ k → run_ops (omap invocation_at l) = run_requests l.
Proof.
  revert k. induction l as [|r l IH] using rev_ind; intros k Hl; [done|].
  rewrite <-app_assoc in Hl. rewrite omap_app, run_requests_snoc, <-(IH _ Hl). simpl.
  destruct (registered_invocation r) as (i & -> & ->); [rewrite Hl; set_solver|]. by rewrite run_ops_snoc.
Qed.

Lemma executed_nodup : NoDup executed.
Proof.
  unfold executed. pose proof (firsts_nodup cs) as Hnd.
  assert (∀ r, r ∈ firsts cs → r ∈ firsts cs) as Hsub by done. revert Hnd Hsub.
  generalize (firsts cs) at 1 2 4. intros l. induction l as [|r l IH]; intros Hnd Hsub; simpl; [constructor|].
  apply NoDup_cons in Hnd as [Hr Hnd]. assert (NoDup (omap invocation_at l)) as Hl by (apply IH; [done|intros; apply Hsub; by right]).
  destruct (invocation_at r) as [i|] eqn:Ei; [|done]. apply NoDup_cons. split; [|done].
  intros (r' & Hr' & Hi')%list_elem_of_omap. apply invocation_at_id in Ei as [_ Hid], Hi' as [_ Hid'].
  apply Hr. rewrite (same_request r r'); [done|apply Hsub; by left|apply Hsub; by right|congruence].
Qed.

Lemma executed_explains : explains h executed.
Proof.
  split; [apply executed_nodup| | |].
  - intros i (r & _ & Hi)%list_elem_of_omap. by apply invocation_at_id in Hi as [? _].
  - intros id c Hc. destruct (an_result _ _ Ha _ _ Hc) as (r & l1 & Hid & Hx & Hres).
    destruct (registered_invocation r (executed_elem _ _ _ Hx)) as (i & Hi & Hop). destruct Hx as [l2 Hl].
    exists (omap invocation_at l1), i, (omap invocation_at l2). unfold executed. rewrite Hl, omap_app. simpl. rewrite Hi.
    split; [done|]. split; [apply invocation_at_id in Hi as [_ ?]; congruence|].
    rewrite Hres, Hop, (run_executed _ _ Hl). by destruct (inv_operation i).
  - intros id c l1 i l2 Hc Hex Hlt. apply omap_split in Hex as (k1 & r & k2 & Hl & <- & Hi & _).
    apply invocation_at_id in Hi as [Hin Hid].
    destruct (an_order _ _ Ha _ _ i r k1 Hc Hin Hlt (eq_sym Hid) (ex_intro _ k2 Hl)) as (r0 & Hr0 & Hid0).
    destruct (registered_invocation r0) as (a & Hai & _); [rewrite Hl; set_solver|]. exists a.
    split; [apply list_elem_of_omap; by exists r0|]. apply invocation_at_id in Hai as [_ ?]. congruence.
Qed.
End explained.

(** ** The system *)

Section system.
Context (ids : list string).

(** The commands behind a reachable world *)
Lemma client_commands c :
  client_reachable ids c → ∃ cs, journal_ok c.(journal) ∧ orders (names c.(journal)) cs
    ∧ machines_ok cs c.(machine) ∧ answers_ok cs c.(journal).(history).
Proof.
  intros (_ & _ & s & _ & Hj & cs & HR & Hd & Hm & Ha)%client_follows. exists cs.
  split_and!; [done|by eapply decides_orders|done..].
Qed.

(** A call that returns or raises, in a reachable world *)
Lemma client_refines {A} (m : CM A) Q c c' r :
  client_reachable ids c →
  (∀ s, follows ids c s → refines (step (majority ids)) (follows ids) (op_error false) s m Q c) →
  m c = (c', r) → match r with inr a => ∃ s, follows ids c' s ∧ Q c' s a | inl e => op_error false e end.
Proof.
  intros (_ & _ & s & _ & Hf)%client_follows Hm Hr. specialize (Hm s Hf). unfold refines, wp in Hm. rewrite Hr in Hm.
  destruct r as [e|a]; [apply Hm|]. destruct Hm as (s' & _ & ? & ?). by exists s'.
Qed.

(** C6: What the clients recorded is linearizable, whatever the servers, the network
    and the clients did: crashes, restarts, lost and delayed messages, rival
    leaders, retries, requests placed at slots of the caller's choice, reboots
    of all servers.  One order of the answered operations and some unanswered
    writes, over all keys, respects real time and explains every answer; so the
    checker never rejects such a history.  [Append] is outside the checker's
    operations. *)
Theorem client_linearizable c :
  client_reachable ids c → forallb (λ r, negb (is_append r)) (names c.(journal)) = true →
  accepted c.(journal).(history).
Proof.
  intros Hc Hna. destruct (client_commands c Hc) as (cs & Hj & Ho & _ & Ha).
  apply (explained_accepted _ (executed c.(journal) cs)); [apply Hj|]. apply executed_explains; [done..|].
  intros r Hr. rewrite forallb_forall in Hna. by apply negb_true_iff, Hna, list_elem_of_In.
Qed.

(** C11: Exactly once, on every replica: there is one order of distinct requests, all
    of them registered by clients, such that the key/value state of every loaded
    machine is what the first so many requests of it do, each executed once, and
    its table of answers knows exactly those.  It holds with [Append], whose
    effect a second execution would change. *)
Theorem client_exactly_once c :
  client_reachable ids c →
  ∃ order, NoDup order ∧ order ⊆ names c.(journal) ∧ ∀ n m, c.(machine).(machines) !! n = Some m →
    ∃ k, m.(tables).(kv) = run_requests (take k order)
      ∧ (∀ r, r ∈ take k order ↔ ∃ a, m.(tables).(requests) !! identity r = Some a ∧ a.(ar_request) = r)
      ∧ m.(applied_through) = zlen (applied_of c.(machine) n).
Proof.
  intros Hc. destruct (client_commands c Hc) as (cs & Hj & Ho & Hm & _).
  exists (firsts cs). split_and!; [apply firsts_nodup|intros r; by apply orders_firsts|].
  intros n m Hn. destruct (mo_machine _ _ Hm _ _ Hn) as [Hr Hth]. destruct (mo_prefix _ _ Hm n) as [k Hk].
  assert (orders (names (journal c)) (sl_value <$> applied_of (machine c) n)) as Ho'.
  { intros v Hv. apply Ho. rewrite Hk. set_solver. }
  destruct (replay_ok _ _ (jo_names _ Hj) Ho' (mo_slots _ _ Hm n)) as (t & Ht & Hok).
  rewrite Hr in Ht. injection Ht as <-. destruct (firsts_app (sl_value <$> applied_of (machine c) n) k) as [l Hl].
  rewrite <-Hk in Hl. exists (length (firsts (sl_value <$> applied_of (machine c) n))).
  rewrite Hl, take_app_length. destruct Hok as [Hkv Hrecs Hknown]. split_and!; [done| |done]. intros r. split.
  - intros Hin. destruct (Hknown r Hin) as [a Ha]. exists a. split; [done|].
    pose proof (Hrecs _ _ Ha) as Hrec. destruct (rec_result _ _ _ Hrec) as (l1 & Hx & _).
    apply (jo_names _ Hj); [by eapply orders_firsts, executed_elem|by eapply orders_firsts|].
    apply clashes_true. left. apply Hrec.
  - intros (a & Ha & <-). destruct (rec_result _ _ _ (Hrecs _ _ Ha)) as (l1 & Hx & _).
    by eapply executed_elem.
Qed.

(** The calls of a client, with the request and what they return *)
Inductive answering c request : ClientWorld → ClientResult → Prop :=
  | by_submit n slot c' r : submit n request slot c = (c', inr r) → answering c request c' r
  | by_poll n b apply acknowledge c' r : poll n request b apply acknowledge c = (c', inr r) → answering c request c' r
  | by_execute rf n rounds events c' r : execute rf n request rounds events c = (c', inr r) → answering c request c' r.

(** C24: A result that reports an answer is about the caller's request, which the
    node has durably applied, and the value is what the request returns after
    the requests before it in that node's applied prefix. *)
Theorem client_answers c request c' r :
  client_reachable ids c → answering c request c' r →
  r.(res_request) = request ∧ answered c' r.
Proof.
  intros Hc [n slot c1 r1 H1|n b ap ack c1 r1 H1|rf n rounds events c1 r1 H1].
  - destruct (client_refines _ _ _ _ _ Hc (λ s, refines_submit ids n request slot c s) H1) as (s & _ & _ & ? & _ & ?). done.
  - destruct (client_refines _ _ _ _ _ Hc (λ s, refines_poll ids n request b ap ack c s) H1) as (s & _ & _ & ? & _ & ?). done.
  - destruct (client_refines _ _ _ _ _ Hc (λ s, refines_execute ids rf n request rounds events c s) H1) as (s & _ & _ & ? & _ & ?). done.
Qed.

(** No call ends in an assertion: what a call raises is a bad argument, an
    unknown or unable node, the model's own end of fuel, or the violation
    [multipaxos.py] raises when it is made to propose twice in one ballot.  A
    clash of identities is always answered, never raised. *)
Theorem client_call_errors c o c' e :
  client_reachable ids c → exec_client_op o c = (c', inl e) →
  e.(exn_cls) ∈ [ValueError; PaxosError; KeyError; OutOfFuel; PaxosSafetyViolation].
Proof.
  intros Hc He. pose proof (client_refines _ _ _ _ _ Hc (λ s, refines_exec ids o c s) He) as H. simpl in H.
  destruct H as [H|[_ ->]]; [|set_solver]. unfold call_error in H. set_solver.
Qed.

(** C23: [apply_ready] returns exactly the decisions that were ready: the node's
    durable prefix grows by them, other nodes' do not change, the next slot is
    one the node has not learned, and its machine is the replay of the new
    prefix.  Its loop never runs out of fuel. *)
Theorem apply_ready_complete c n x' r :
  client_reachable ids c → apply_ready n c.(machine) = (x', r) →
  match r with
  | inr ds => applies n c.(machine) x' ds
      ∧ learned_at x' n (zlen (applied_of x' n) + 1) = None
      ∧ ∃ m, x'.(machines) !! n = Some m ∧ tables_ok (sl_value <$> applied_of x' n) m.(tables)
  | inl e => machine_error e
  end.
Proof.
  intros (_ & _ & s & _ & Hj & Hx)%client_follows Hr.
  pose proof (refines_apply_ready ids (journal c) machine_error (λ _ He, He) n (machine c) s Hj Hx) as Hw.
  unfold refines, wp in Hw. rewrite Hr in Hw. destruct r as [e|ds]; [apply Hw|].
  destruct Hw as (s' & _ & Hx' & Hap & _ & Hn). split_and!; [done..|].
  destruct (al_loaded _ _ _ _ Hap) as [m Hm]. exists m. split; [done|]. destruct Hx' as [cs Hsv].
  destruct (served_replay _ _ n _ _ _ Hj Hsv) as (t & Ht & Hok). destruct Hsv as (_ & _ & Hmo & _).
  destruct (mo_machine _ _ Hmo _ _ Hm) as [Hrep _]. rewrite Ht in Hrep. by injection Hrep as ->.
Qed.
End system.
