(* ===== verification/MPClientWitnesses.v ===== *)
(** * MPClientWitnesses: the properties of Multi-Paxos and of its clients at concrete systems

    A three-node cluster that elects a leader, decides two slots despite a lost
    message, loses its leader and reboots; and the single-node cluster on which
    proposing again for a chosen slot raises a safety violation. *)

From S2P Require Import Prelude Simulator Quorum Consensus KVCommands History Linearizability MultiKey Slots MultiPaxos MultiPaxosRefine MultiPaxosProperties MPMachine MPClient MPReplay MPClientRefine MPClientCalls MPClientProperties.

Section exec.
Context {V : Type} `{EqDecision V}.
Implicit Types (w : World (MPSig (V := V))).

Definition mp_exec_ops (l : list (mp_op (V := V))) w : World MPSig :=
  foldl (λ w o, (exec_op o w).1) w l.

Fixpoint all_disciplined (l : list (mp_op (V := V))) w : bool :=
  match l with
  | [] => true
  | o :: l' => match o with
      | OpPropose _ slot _ => bool_decide (w.(objs).(chosen) !! slot = None)
      | _ => true
      end && all_disciplined l' (exec_op o w).1
  end.

Lemma all_disciplined_head o l w :
  all_disciplined (o :: l) w = true → disciplined o w ∧ all_disciplined l (exec_op o w).1 = true.
Proof.
  simpl. intros [Ho Hl]%andb_true_iff. split; [|exact Hl].
  destruct o; simpl; try exact I. by apply bool_decide_eq_true in Ho.
Qed.

Lemma mp_reachable_exec strict ids learn l w :
  reachable strict ids learn w → (strict = true → all_disciplined l w = true) →
  reachable strict ids learn (mp_exec_ops l w).
Proof.
  revert w. induction l as [|o l IH]; intros w Hw Hd; [exact Hw|].
  apply IH.
  - eapply reach_op; [exact Hw| |apply surjective_pairing].
    intros Hs. exact (proj1 (all_disciplined_head o l w (Hd Hs))).
  - intros Hs. exact (proj2 (all_disciplined_head o l w (Hd Hs))).
Qed.

Definition mp_cluster ids learn plan : World (MPSig (V := V)) :=
  (init_cluster ids learn (boot_world plan ∅)).1.

Lemma mp_reachable_cluster strict ids learn plan l :
  (init_cluster (V := V) ids learn (boot_world plan ∅)).2 = inr tt →
  (strict = true → all_disciplined l (mp_cluster ids learn plan) = true) →
  reachable strict ids learn (mp_exec_ops l (mp_cluster ids learn plan)).
Proof.
  intros Hi Hd. apply mp_reachable_exec; [|exact Hd]. apply (reach_init _ _ _ plan).
  unfold mp_cluster. rewrite <-Hi. apply surjective_pairing.
Qed.
End exec.

Definition mp_ids : list string := ["n1"; "n2"; "n3"].
Definition mp_plan : FaultPlan := [mkFaultRule DROP None (Some "n3") (Some 1) (Some "LeaderPrepare") 0].
Definition mp_ops : list (mp_op (V := string)) :=
  [OpPrepare "n1" None; OpRun 100 None; OpPropose "n1" 1 "x"; OpPropose "n1" 3 "y"; OpRun 100 None;
   OpCrash "n1"].
Definition mp_demo : World (MPSig (V := string)) := mp_exec_ops mp_ops (mp_cluster mp_ids true mp_plan).

Lemma mp_demo_reachable strict : reachable strict mp_ids true mp_demo.
Proof. apply mp_reachable_cluster; intros; vm_compute; reflexivity. Qed.

Definition mp_ballot : ProposalNumber := mkProposalNumber 1 "n1".

Lemma mp_demo_decided : decided mp_ids mp_demo 1 "x".
Proof. exists mp_ballot. apply Z.leb_le. vm_compute. reflexivity. Qed.

Definition mp_demo_next : World (MPSig (V := string)) := mp_exec_ops [OpPrepare "n2" None] mp_demo.

Lemma mp_demo_step : next mp_ids true mp_demo mp_demo_next.
Proof.
  exact (next_call mp_ids true mp_demo (OpPrepare "n2" None) mp_demo_next _ (surjective_pairing _)).
Qed.

Lemma mp_agreement_witness : decided mp_ids mp_demo_next 1 "x".
Proof.
  exact (proj1 (mp_agreement mp_ids true mp_demo mp_demo_next 1 "x" "x"
    (mp_demo_reachable false) mp_demo_step mp_demo_decided)).
Defined.

Lemma mp_never_violates_witness :
  ∃ e, (exec_op (OpPropose "n1" 4 "z") mp_demo).2 = inl e ∧ call_error e.
Proof.
  exists (Exn PaxosError "Multi-Paxos proposal requires Phase-1 quorum authority").
  split; [vm_compute; reflexivity|].
  refine (mp_never_violates mp_ids true mp_demo (OpPropose "n1" 4 "z") mp_demo _
    (mp_demo_reachable true) _ _); vm_compute; reflexivity.
Defined.

Lemma mp_recorded_decided_witness : decided mp_ids mp_demo 3 "y".
Proof.
  refine (proj2 (mp_recorded_decided mp_ids true mp_demo 3 (mkSlotLearned 3 mp_ballot "y")
    (mp_demo_reachable false) (or_intror (ex_intro _ "n2" _)))).
  vm_compute. reflexivity.
Defined.

Lemma mp_durable_monotone_witness :
  promise_le (dur mp_demo "n2").(d_promised) (dur mp_demo_next "n2").(d_promised).
Proof.
  exact (proj1 (mp_durable_monotone mp_ids true mp_demo mp_demo_next "n2"
    (mp_demo_reachable false) mp_demo_step)).
Defined.

Lemma mp_assert_safety_passes_witness : assert_safety mp_demo = (mp_demo, inr tt).
Proof. exact (mp_assert_safety_passes mp_ids true mp_demo (mp_demo_reachable false)). Defined.

Lemma mp_reboot_recovers_witness :
  ∃ w', init_cluster mp_ids true (boot_world mp_plan mp_demo.(sim).(persistent_state)) = (w', inr tt)
    ∧ sl_value <$> w'.(objs).(chosen) !! 1 = Some "x".
Proof.
  destruct (mp_reboot_recovers mp_ids true mp_demo mp_plan (mp_demo_reachable false)) as (w' & Hi & Hw').
  exists w'. split; [exact Hi|]. apply Hw'. exact mp_demo_decided.
Defined.

Definition mp_single_ops : list (mp_op (V := string)) :=
  [OpPrepare "n1" None; OpPropose "n1" 1 "a"].

(** [propose] does not check that a slot is chosen: on a single-node cluster,
    proposing another value for a chosen slot in the same ballot raises a
    safety violation, although nothing unsafe has happened. *)
Example mp_repropose_violates :
  let w := mp_exec_ops mp_single_ops (mp_cluster ["n1"] false []) in
  reachable false ["n1"] false w
  ∧ (exec_op (OpPropose "n1" 1 "b") w).2 =
      inl (Exn PaxosSafetyViolation "same Multi-Paxos ballot accepted conflicting values").
Proof.
  split; [|vm_compute; reflexivity].
  apply mp_reachable_cluster; [vm_compute; reflexivity|]. intros [=].
Qed.

(** ** The client properties at a concrete system *)

Definition either_error {A} (r : exn + A) : option exn := match r with inl e => Some e | inr _ => None end.

Definition client_run (ops : list client_op) (c : ClientWorld) : ClientWorld :=
  foldl (λ c o, (exec_client_op o c).1) c ops.

Lemma client_run_reachable ids ops c : client_reachable ids c → client_reachable ids (client_run ops c).
Proof.
  revert c. induction ops as [|o ops IH]; intros c Hc; simpl; [done|]. apply IH.
  destruct (exec_client_op o c) as [c' r] eqn:Ho. by eapply client_call.
Qed.

Lemma client_boot_reachable ids plan :
  (machine_boot plan ids ∅ ∅).2 = inr tt →
  client_reachable ids (mkClientWorld (machine_boot plan ids ∅ ∅).1 new_journal).
Proof.
  intros Hb. apply (client_init _ plan). destruct (machine_boot plan ids ∅ ∅) as [x r]. simpl in *. by subst.
Qed.

(** Three servers; a client writes through [a] and, after [a] has crashed, other
    clients write and read through [b]; the servers' first decision message is
    lost, and one request is retried at both leaders. *)
Definition demo_ids : list string := ["a"; "b"; "c"].
Definition demo_plan : FaultPlan := [mkFaultRule DROP None (Some "b") (Some 1) (Some "LeaderDecision") 0].
Definition demo_put : MultiPaxosRequest := mkRequest "c1" 0 "w1" (OnHistory (HWrite (Put "k" "v1"))).
Definition demo_put2 : MultiPaxosRequest := mkRequest "c2" 0 "w2" (OnHistory (HWrite (Put "k" "v2"))).
Definition demo_get : MultiPaxosRequest := mkRequest "c3" 0 "r1" (OnHistory (HGet "k")).

Definition demo_ops : list client_op :=
  [CCluster (OpPrepare "a" None); CCluster (OpRun 50 None); CExecute 100 "a" demo_put 4 64;
   CSubmit "a" demo_put2 None; CCrash "a"; CCluster (OpPrepare "b" None); CCluster (OpRun 50 None);
   CExecute 100 "b" demo_put2 4 64; CExecute 100 "b" demo_get 4 64; CSubmit "b" demo_put None;
   CRestart "a"; CApply "a"; CCluster (OpRun 50 None)].

Definition demo : ClientWorld :=
  client_run demo_ops (mkClientWorld (machine_boot demo_plan demo_ids ∅ ∅).1 new_journal).

Lemma client_demo_reachable : client_reachable demo_ids demo.
Proof. by apply client_run_reachable, client_boot_reachable; vm_compute. Qed.

Lemma client_linearizable_witness :
  client_reachable demo_ids demo ∧ accepted demo.(journal).(history).
Proof.
  split; [apply client_demo_reachable|].
  apply (client_linearizable demo_ids demo client_demo_reachable). vm_compute. reflexivity.
Defined.

(** The second write holds two slots and was executed once. *)
Lemma client_exactly_once_witness :
  (sl_value <$> applied_of demo.(machine) "b") !! 1%nat = Some (CRequest demo_put2)
  ∧ (sl_value <$> applied_of demo.(machine) "b") !! 2%nat = Some (CRequest demo_put2)
  ∧ ∃ order, NoDup order ∧ order ⊆ names demo.(journal) ∧ ∀ n m,
      demo.(machine).(machines) !! n = Some m → ∃ k, m.(tables).(kv) = run_requests (take k order).
Proof.
  split_and!; [vm_compute; reflexivity..|].
  destruct (client_exactly_once demo_ids demo client_demo_reachable) as (order & Hnd & Hin & Hm).
  exists order. split_and!; [exact Hnd|exact Hin|]. intros n m Hn.
  destruct (Hm n m Hn) as (k & Hk & _). exists k. exact Hk.
Defined.

(** A later retry of the read finds its first answer. *)
Lemma client_answers_witness :
  ∃ c' r, execute 100 "c" demo_get 4 64 (client_run [CCluster (OpPrepare "c" None); CCluster (OpRun 50 None)] demo)
    = (c', inr r) ∧ r.(res_status) = COMPLETED ∧ r.(res_value) = Some "v2" ∧ answered c' r.
Proof.
  set (c0 := client_run [CCluster (OpPrepare "c" None); CCluster (OpRun 50 None)] demo).
  assert (client_reachable demo_ids c0) as Hc0 by (apply client_run_reachable, client_demo_reachable).
  assert ((λ x : exn + ClientResult, match x with inr r => bool_decide (r.(res_status) = COMPLETED ∧ r.(res_value) = Some "v2") | inl _ => false end)
    (execute 100 "c" demo_get 4 64 c0).2 = true) as Hb by (vm_compute; reflexivity).
  destruct (execute 100 "c" demo_get 4 64 c0) as [c' [e|r]] eqn:He; [discriminate Hb|].
  apply bool_decide_eq_true in Hb as [Hs Hv]. exists c', r. split_and!; [reflexivity|exact Hs|exact Hv|].
  apply (client_answers demo_ids c0 demo_get c' r Hc0). eapply by_execute. exact He.
Defined.

Lemma client_call_errors_witness :
  ∃ c' e, exec_client_op (CApply "d") demo = (c', inl e)
    ∧ e.(exn_cls) ∈ [ValueError; PaxosError; KeyError; OutOfFuel; PaxosSafetyViolation].
Proof.
  destruct (exec_client_op (CApply "d") demo) as [c' [e|u]] eqn:He.
  - exists c', e. split; [reflexivity|].
    apply (client_call_errors demo_ids demo (CApply "d") c' e client_demo_reachable He).
  - exfalso. assert (match (exec_client_op (CApply "d") demo).2 with inl _ => true | inr _ => false end = true) as Hb
      by (vm_compute; reflexivity). rewrite He in Hb. discriminate Hb.
Defined.

Lemma apply_ready_complete_witness :
  ∃ x' ds, apply_ready "a" demo.(machine) = (x', inr ds) ∧ length ds = 3%nat ∧ applies "a" demo.(machine) x' ds.
Proof.
  assert (match (apply_ready "a" demo.(machine)).2 with inr ds => Nat.eqb (length ds) 3 | inl _ => false end = true) as Hb
    by (vm_compute; reflexivity).
  destruct (apply_ready "a" demo.(machine)) as [x' [e|ds]] eqn:He; [discriminate Hb|].
  exists x', ds. split_and!; [reflexivity|apply Nat.eqb_eq; exact Hb|].
  apply (apply_ready_complete demo_ids demo "a" x' (inr ds) client_demo_reachable He).
Defined.

(** The slot of [submit] is documented as a placement hint.  Naming a slot the
    same leader has already chosen raises a safety violation, and the request's
    later retries without a hint raise it as well: the refused proposal stays
    pending at that slot. *)
Definition demo_first : ClientWorld :=
  client_run (take 3 demo_ops) (mkClientWorld (machine_boot demo_plan demo_ids ∅ ∅).1 new_journal).

Example submit_hint_violates :
  let hinted := submit "a" demo_put2 (Some 1) demo_first in
  exn_cls <$> either_error hinted.2 = Some PaxosSafetyViolation
  ∧ exn_cls <$> either_error (execute 100 "a" demo_put2 4 64 hinted.1).2 = Some PaxosSafetyViolation.
Proof. vm_compute. split; reflexivity. Qed.
