(* ===== verification/RaftSpec.v ===== *)
(** * RaftSpec: the abstract specification of leader election and of replicated logs

    Voters observe terms that never go down and cast at most one vote per term,
    in the term they are in; a candidate that a quorum voted for in a term may
    be elected in it.  The contract: a term has at most one leader, and it never
    changes ([backed_once], [steps_elected]); a voter's term and its vote in it
    are final ([steps_term], [steps_cast]).  [raft.py] is shown to take only
    steps of this machine, for majorities of a fixed electorate.

    It is a specification: no definition of this file translates code. *)

From stdpp Require Import relations.
From S2P Require Import Prelude Quorum LogIndex.

Section election.
Context (quorum : gset string → Prop) `{!QuorumSystem quorum}.

Record Ballots := mkBallots {
  cast : list (Z * string * string);  (** term, voter, candidate *)
  elected : gmap Z string;
  terms : gmap string Z;
}.

Implicit Types s : Ballots.

Definition no_ballots : Ballots := mkBallots [] ∅ ∅.

Definition term_of s (a : string) : Z := default 0 (s.(terms) !! a).

Definition backed s (t : Z) (c : string) : Prop :=
  ∃ Q, quorum Q ∧ ∀ a, a ∈ Q → (t, a, c) ∈ s.(cast).

Inductive election_step : Ballots → Ballots → Prop :=
  | step_observe s t a :
      term_of s a ≤ t → election_step s (mkBallots s.(cast) s.(elected) (<[a := t]> s.(terms)))
  | step_cast s a c :
      (∀ c', (term_of s a, a, c') ∈ s.(cast) → c' = c) →
      election_step s (mkBallots ((term_of s a, a, c) :: s.(cast)) s.(elected) s.(terms))
  | step_elect s t c :
      backed s t c → election_step s (mkBallots s.(cast) (<[t := c]> s.(elected)) s.(terms)).

Record election_inv s : Prop := {
  ei_one_vote t a c c' : (t, a, c) ∈ s.(cast) → (t, a, c') ∈ s.(cast) → c = c';
  ei_elected t c : s.(elected) !! t = Some c → backed s t c;
  ei_term t a c : (t, a, c) ∈ s.(cast) → t ≤ term_of s a;
}.

Lemma no_ballots_inv : election_inv no_ballots.
Proof. split; [by intros t a c c' ?%elem_of_nil|done|by intros t a c ?%elem_of_nil]. Qed.

Lemma step_cast_mono s s' x : election_step s s' → x ∈ s.(cast) → x ∈ s'.(cast).
Proof. intros Hs Hx. destruct Hs; [done|by right|done]. Qed.

Lemma steps_cast s s' x : rtc election_step s s' → x ∈ s.(cast) → x ∈ s'.(cast).
Proof. induction 1; eauto using step_cast_mono. Qed.

Lemma step_term s s' a : election_step s s' → term_of s a ≤ term_of s' a.
Proof.
  intros Hs. destruct Hs as [s t b Ht| |]; [|done..]. unfold term_of at 2. simpl.
  destruct (decide (b = a)) as [->|Hne]; [by rewrite lookup_insert_eq|].
  by rewrite lookup_insert_ne.
Qed.

Lemma steps_term s s' a : rtc election_step s s' → term_of s a ≤ term_of s' a.
Proof. induction 1 as [|s s1 s2 Hs _ IH]; [done|]. pose proof (step_term _ _ a Hs). lia. Qed.

Lemma step_backed s s' t c : election_step s s' → backed s t c → backed s' t c.
Proof. intros Hs (Q & HQ & Hv). exists Q. eauto using step_cast_mono. Qed.

Lemma step_election_inv s s' : election_inv s → election_step s s' → election_inv s'.
Proof.
  intros [Hone Hel Hterm] Hs. split.
  - destruct Hs as [|s a c Hnew|]; simpl; [exact Hone| |exact Hone].
    intros t' a' c1 c2 [[= -> -> ->]|H1]%elem_of_cons [[= Heq]|H2]%elem_of_cons;
      [done|symmetry; by apply Hnew|subst; by apply Hnew|by eapply Hone].
  - intros t' c' Hc'. apply (step_backed s); [done|].
    destruct Hs as [|s a c Hnew|s t c Hc]; simpl in *; [by apply Hel..|].
    apply lookup_insert_Some in Hc' as [[<- <-]|[_ ?]]; [done|by apply Hel].
  - intros t a c Hin. pose proof (step_term _ _ a Hs) as Hle.
    destruct Hs as [|s b d Hnew|]; simpl in *; [|apply elem_of_cons in Hin as [[= -> -> _]|Hin]; [done|]|];
      pose proof (Hterm _ _ _ Hin); lia.
Qed.

Lemma steps_election_inv s s' : election_inv s → rtc election_step s s' → election_inv s'.
Proof. intros Hi Hs. induction Hs; eauto using step_election_inv. Qed.

(** Two candidates backed in one term are the same. *)
Lemma backed_once s t c c' : election_inv s → backed s t c → backed s t c' → c = c'.
Proof.
  intros Hi (Q & HQ & Hv) (Q' & HQ' & Hv').
  destruct (quorum_meet Q Q' HQ HQ') as (a & Ha & Ha').
  eapply ei_one_vote; [exact Hi|by apply Hv|by apply Hv'].
Qed.

Lemma elected_backed s t c c' :
  election_inv s → s.(elected) !! t = Some c → backed s t c' → c' = c.
Proof. intros Hi Hc Hb. eapply backed_once; [done..|]. by eapply ei_elected. Qed.

(** A term keeps its leader. *)
Lemma step_elected s s' t c :
  election_inv s → election_step s s' → s.(elected) !! t = Some c → s'.(elected) !! t = Some c.
Proof.
  intros Hi Hs Hc. destruct Hs as [| |s t' c' Hb]; simpl; [done..|].
  destruct (decide (t' = t)) as [->|Hne]; [|by rewrite lookup_insert_ne].
  rewrite lookup_insert_eq. f_equal. by eapply elected_backed.
Qed.

Lemma steps_elected s s' t c :
  election_inv s → rtc election_step s s' →
  s.(elected) !! t = Some c → s'.(elected) !! t = Some c.
Proof.
  intros Hi Hs. induction Hs; [done|]. intros Hc.
  eauto using step_election_inv, step_elected.
Qed.

Lemma steps_backed s s' t c : rtc election_step s s' → backed s t c → backed s' t c.
Proof. induction 1; eauto using step_backed. Qed.
End election.

(** ** The abstract specification of replicated logs

    The machine above, and over it: a candidate stands with its log, a
    voter votes only for a candidate whose log is as up to date as its own, a
    leader starts from the log it stood with and appends to it, and a follower
    adopts a prefix of the log of its term's leader and acknowledges it.  The
    contract: an entry that a quorum acknowledged in the term that made it is in
    the log of every later leader ([leader_completeness]), so committed
    prefixes never disagree ([committed_agree]), now or later
    ([steps_committed]).

    [disc] says whether logs are changed in these ways only.  Without it the
    steps on ballots are those above, and nothing is said about logs:
    [raft.py] lets callers put any entries into a leader's message.  [may] says
    which commands leaders may append; no entry of a log carries another one
    ([carries]).

    It is a specification: no definition of this file translates code. *)

(** No restriction on what is appended *)
Definition any_command {C : Type} : C → Prop := λ _, True.

Section spec.
Context {C : Type} `{EqDecision C} (quorum : gset string → Prop) `{!QuorumSystem quorum} (disc : bool).
Context {may : C → Prop}.
Local Abbreviation Entry := (LogEntry C).

Record Logs := mkLogs {
  nlogs : gmap string (list Entry);        (** the log of a voter *)
  clogs : gmap (Z * string) (list Entry);  (** what a candidate stood with *)
  llogs : gmap Z (list Entry);             (** the log of a term's leader *)
  acks : list (Z * string * nat);          (** term, voter, entries *)
}.

Record Spec := mkSpec { ballots :> Ballots; logs :> Logs }.

Implicit Types (g : Spec) (t : Z) (v c : string) (l L : list Entry) (e : Entry) (i m : nat).

Definition nlog g v : list Entry := default [] (g.(nlogs) !! v).

Definition spec0 : Spec := mkSpec no_ballots (mkLogs ∅ ∅ ∅ []).

Definition end_term l : Z := match last l with Some e => e.(le_term) | None => 0 end.

(** Raft's order on logs *)
Definition as_recent l l' : Prop :=
  end_term l' < end_term l ∨ (end_term l' = end_term l ∧ (length l' ≤ length l)%nat).

(** What the voter's log becomes: a log that disagrees with the leader's first
    [m] entries is cut to them. *)
Definition adopt l L m : list Entry := if decide (take m l = take m L) then l else take m L.

Definition set_ballots (b : Ballots) g : Spec := mkSpec b g.(logs).
Definition set_nlog v l (x : Logs) : Logs := mkLogs (<[v := l]> x.(nlogs)) x.(clogs) x.(llogs) x.(acks).
Definition set_llog t l (x : Logs) : Logs := mkLogs x.(nlogs) x.(clogs) (<[t := l]> x.(llogs)) x.(acks).

Inductive spec_step : Spec → Spec → Prop :=
  | sp_observe g t v :
      term_of g v ≤ t →
      spec_step g (set_ballots (mkBallots g.(cast) g.(elected) (<[v := t]> g.(terms))) g)
  | sp_candidate g t c :
      term_of g c < t →
      spec_step g (mkSpec (mkBallots ((t, c, c) :: g.(cast)) g.(elected) (<[c := t]> g.(terms)))
        (mkLogs g.(nlogs) (<[(t, c) := nlog g c]> g.(clogs)) g.(llogs) g.(acks)))
  | sp_cast g v c :
      (∀ c', (term_of g v, v, c') ∈ g.(cast) → c' = c) →
      (disc = true → ∃ L, g.(clogs) !! (term_of g v, c) = Some L ∧ as_recent L (nlog g v)) →
      spec_step g (set_ballots (mkBallots ((term_of g v, v, c) :: g.(cast)) g.(elected) g.(terms)) g)
  | sp_elect g t c :
      backed quorum g t c → t ≤ term_of g c → g.(elected) !! t = None →
      (disc = true → g.(clogs) !! (t, c) = Some (nlog g c)) →
      spec_step g (mkSpec (mkBallots g.(cast) (<[t := c]> g.(elected)) g.(terms))
        (set_llog t (nlog g c) g.(logs)))
  | sp_append g t c e :
      g.(elected) !! t = Some c → g.(llogs) !! t = Some (nlog g c) → term_of g c = t → e.(le_term) = t → may e.(le_command) →
      spec_step g (mkSpec g.(ballots) (set_llog t (nlog g c ++ [e]) (set_nlog c (nlog g c ++ [e]) g.(logs))))
  | sp_accept g v L m :
      g.(llogs) !! term_of g v = Some L → (m ≤ length L)%nat →
      spec_step g (mkSpec g.(ballots)
        (mkLogs (<[v := adopt (nlog g v) L m]> g.(nlogs)) g.(clogs) g.(llogs) ((term_of g v, v, m) :: g.(acks)))).


Local Abbreviation steps := (rtc spec_step).

(** ** Elections *)

Lemma spec_election g g' :
  election_inv quorum g → spec_step g g' → rtc (election_step quorum) g g'.
Proof.
  intros Hi Hs. destruct Hs as [g t v Ht|g t c Ht|g v c Hv _|g t c Hb _ _ _|g t c e|g v L m]; simpl; try done.
  - apply rtc_once. by constructor.
  - eapply rtc_l; [apply (step_observe _ g t c); lia|]. apply rtc_once.
    set (b := mkBallots _ _ _). assert (term_of b c = t) as Hc by (unfold term_of; simpl; by rewrite lookup_insert_eq).
    pose proof (step_cast quorum b c c) as Hcast. rewrite Hc in Hcast. apply Hcast.
    intros c' Hin. pose proof (ei_term _ _ Hi _ _ _ Hin). lia.
  - apply rtc_once. by constructor.
  - apply rtc_once. by constructor.
Qed.

Lemma spec_election_inv g g' : election_inv quorum g → spec_step g g' → election_inv quorum g'.
Proof. intros Hi Hs. eapply steps_election_inv; [exact Hi|by apply spec_election]. Qed.

(** ** Log invariants *)

(** Each entry of [l] was made by the leader of its term, and [l] agrees with
    that leader's log up to it; terms do not go down. *)
Record good g l : Prop := {
  gd_made i e : l !! i = Some e →
    ∃ L, g.(llogs) !! e.(le_term) = Some L ∧ take (S i) L = take (S i) l;
  gd_sorted i j e e' : (i ≤ j)%nat → l !! i = Some e → l !! j = Some e' → e.(le_term) ≤ e'.(le_term);
}.

Definition terms_le l t : Prop := ∀ i e, l !! i = Some e → e.(le_term) ≤ t.

(** [i] entries of term [t]'s leader, the last of them its own, may still be
    acknowledged by a quorum. *)
Definition made_by L t i : Prop := ∃ e, (0 < i)%nat ∧ L !! Nat.pred i = Some e ∧ e.(le_term) = t.

Definition acked g t v i : Prop := ∃ m, (i ≤ m)%nat ∧ (t, v, m) ∈ g.(acks).

Definition choosable g t i : Prop :=
  ∃ L Q, g.(llogs) !! t = Some L ∧ made_by L t i ∧ quorum Q
    ∧ ∀ v, v ∈ Q → acked g t v i ∨ term_of g v ≤ t.

(** A quorum has acknowledged them. *)
Definition chosen g t i : Prop :=
  ∃ L Q, g.(llogs) !! t = Some L ∧ made_by L t i ∧ quorum Q ∧ ∀ v, v ∈ Q → acked g t v i.

Record logs_inv g : Prop := {
  li_term v : 0 ≤ term_of g v;
  li_elected t : is_Some (g.(llogs) !! t) ↔ is_Some (g.(elected) !! t);
  li_leader t c : g.(elected) !! t = Some c → t ≤ term_of g c ∧ 0 < t;
  li_nlog v : good g (nlog g v) ∧ terms_le (nlog g v) (term_of g v);
  li_llog t L : g.(llogs) !! t = Some L → good g L ∧ terms_le L t;
  li_clog t c L : g.(clogs) !! (t, c) = Some L → good g L ∧ terms_le L (t - 1) ∧ t ≤ term_of g c ∧ 0 < t;
  li_cast t v c : (t, v, c) ∈ g.(cast) → is_Some (g.(clogs) !! (t, c));
  li_ack t v m : (t, v, m) ∈ g.(acks) → t ≤ term_of g v ∧ ∃ L, g.(llogs) !! t = Some L ∧ (m ≤ length L)%nat
    ∧ ∀ i, (i ≤ m)%nat → choosable g t i → take i (nlog g v) = take i L;
  li_vote t' v c Lc t m i : (t', v, c) ∈ g.(cast) → g.(clogs) !! (t', c) = Some Lc →
    t < t' → (t, v, m) ∈ g.(acks) → (i ≤ m)%nat → choosable g t i →
    ∃ L, g.(llogs) !! t = Some L ∧ take i Lc = take i L;
  li_complete t t' L L' i : t < t' → g.(llogs) !! t = Some L → g.(llogs) !! t' = Some L' →
    choosable g t i → take i L' = take i L;
  li_held t t' c L i : t < t' → g.(elected) !! t' = Some c → g.(llogs) !! t = Some L →
    choosable g t i → take i (nlog g c) = take i L;
}.

(** Everything about logs depends on the discipline. *)
Record spec_inv g : Prop := {
  si_election : election_inv quorum g;
  si_reached t c : g.(elected) !! t = Some c → t ≤ term_of g c;
  si_logs : disc = true → logs_inv g;
}.

Lemma spec0_inv : spec_inv spec0.
Proof.
  split; [apply no_ballots_inv|done|]. intros _. split; simpl; try done.
  - intros t. rewrite !lookup_empty. by split; intros [].
  - by intros t v c Hin%elem_of_nil.
  - by intros t v m Hin%elem_of_nil.
Qed.

(** *** Prefixes *)

Lemma take_le {A} (l k : list A) i j : (i ≤ j)%nat → take j l = take j k → take i l = take i k.
Proof. intros Hij E. apply (f_equal (take i)) in E. rewrite !take_take in E. by rewrite Nat.min_l in E. Qed.

Lemma made_by_length L t i : made_by L t i → (i ≤ length L)%nat.
Proof. intros (e & Hi & He & _). apply lookup_lt_Some in He. lia. Qed.

Lemma take_made {A} (l k : list A) i : (i ≤ length k)%nat → take i l = take i k → (i ≤ length l)%nat.
Proof. intros Hk E. apply (f_equal length) in E. rewrite !length_take in E. lia. Qed.

Lemma take_lookup {A} (l k : list A) i j : (i < j)%nat → take j l = take j k → l !! i = k !! i.
Proof. intros Hi E. rewrite <-(lookup_take_lt l j i), <-(lookup_take_lt k j i) by done. by rewrite E. Qed.

Lemma good_take g l m : good g l → good g (take m l).
Proof.
  intros [Hm Hs]. split.
  - intros i e [He Hi]%lookup_take_Some. destruct (Hm i e He) as (L & HL & E).
    exists L. split; [done|]. rewrite take_take. by rewrite Nat.min_l by lia.
  - intros i j e e' Hij [He _]%lookup_take_Some [He' _]%lookup_take_Some. by eapply Hs.
Qed.

Lemma adopt_cases l L m :
  (take m l = take m L ∧ adopt l L m = l) ∨ (take m l ≠ take m L ∧ adopt l L m = take m L).
Proof. unfold adopt. case_decide; [left|right]; done. Qed.

Lemma adopt_same l L m : take m l = take m L → adopt l L m = l.
Proof. intros E. unfold adopt. by rewrite decide_True. Qed.

Lemma adopt_cut l L m : take m l ≠ take m L → adopt l L m = take m L.
Proof. intros E. unfold adopt. by rewrite decide_False. Qed.

(** What [l] already shares with the leader's log stays. *)
Lemma adopt_keeps l L m i :
  (m ≤ length L)%nat → take i l = take i L → (i ≤ length L)%nat → take i (adopt l L m) = take i L.
Proof.
  intros Hm E Hi. destruct (adopt_cases l L m) as [[_ ->]|[Hne ->]]; [done|].
  rewrite take_take. destruct (decide (i ≤ m)%nat) as [Him|Him]; [by rewrite Nat.min_l|].
  destruct Hne. apply (take_le _ _ m i); [lia|done].
Qed.

Lemma adopt_acked l L m : take m (adopt l L m) = take m L.
Proof.
  destruct (adopt_cases l L m) as [[E ->]|[_ ->]]; [done|]. by rewrite take_take, Nat.min_id.
Qed.

(** *** Choosable entries *)

(** A step makes nothing choosable that was not, except an entry it appends. *)
Lemma choosable_back g g' t i :
  (∀ L, g'.(llogs) !! t = Some L → ∃ L0, g.(llogs) !! t = Some L0 ∧ L0 `prefix_of` L) →
  (∀ v m, (t, v, m) ∈ g'.(acks) → (t, v, m) ∈ g.(acks) ∨ term_of g v = t) →
  (∀ v, term_of g v ≤ term_of g' v) →
  choosable g' t i →
  ∃ L0, g.(llogs) !! t = Some L0 ∧ ((i ≤ length L0)%nat → choosable g t i).
Proof.
  intros Hl Ha Ht (L & Q & HL & (e & Hi & He & Hte) & HQ & Hv). destruct (Hl L HL) as (L0 & HL0 & [k Hk]).
  exists L0. split; [done|]. intros Hlen. exists L0, Q. split_and!; try done.
  - exists e. split_and!; try done. rewrite <-He, Hk. rewrite lookup_app_l; [done|lia].
  - intros v Hin. destruct (Hv v Hin) as [(m & Hm & Hin')|Hle].
    + destruct (Ha v m Hin') as [?|?]; [left; by exists m|right; lia].
    + right. pose proof (Ht v). lia.
Qed.

Lemma step_terms g g' v : spec_step g g' → term_of g v ≤ term_of g' v.
Proof.
  intros Hs. assert (∀ u t (b : Ballots), b.(terms) = <[u := t]> g.(terms) → term_of g u ≤ t →
    term_of g v ≤ term_of b v) as Hset.
  { intros u t b Hb Hle. unfold term_of at 2. rewrite Hb. destruct (decide (u = v)) as [->|Hne].
    - by rewrite lookup_insert_eq.
    - by rewrite lookup_insert_ne. }
  destruct Hs; simpl; try done.
  - by eapply Hset.
  - eapply Hset; [done|lia].
Qed.

Lemma steps_terms g g' v : steps g g' → term_of g v ≤ term_of g' v.
Proof. induction 1 as [|g g1 g2 Hs _ IH]; [done|]. pose proof (step_terms _ _ v Hs). lia. Qed.

(** Two terms, an older with choosable entries and a younger that was won: a
    voter of the younger acknowledged them. *)
Lemma choosable_voter g t t' c i :
  election_inv quorum g → t < t' → backed quorum g t' c → choosable g t i →
  ∃ v, (t', v, c) ∈ g.(cast) ∧ acked g t v i.
Proof.
  intros Hi Hlt (Q' & HQ' & Hv') (L & Q & _ & _ & HQ & Hv).
  destruct (quorum_meet Q Q' HQ HQ') as (v & Hin & Hin'). exists v. split; [by apply Hv'|].
  destruct (Hv v Hin) as [?|Hle]; [done|]. pose proof (ei_term _ _ Hi _ _ _ (Hv' v Hin')). lia.
Qed.

(** *** A log at least as recent as a voter's has the voter's choosable entries *)

Lemma good_last g l e : good g l → last l = Some e → ∃ L, g.(llogs) !! e.(le_term) = Some L ∧ take (length l) L = l.
Proof.
  intros Hg He. rewrite last_lookup in He. destruct (gd_made _ _ Hg _ _ He) as (L & HL & E).
  exists L. split; [done|]. apply lookup_lt_Some in He. replace (S (Nat.pred (length l))) with (length l) in E by lia.
  by rewrite E, take_ge.
Qed.

Lemma recent_covers g t t' L Lc l i :
  logs_inv g → good g Lc → terms_le Lc (t' - 1) → good g l → 0 ≤ t →
  g.(llogs) !! t = Some L → made_by L t i → choosable g t i → take i l = take i L →
  as_recent Lc l → take i Lc = take i L.
Proof.
  intros Hinv Hgc Htc Hgl Hpos HL (e & Hi & He & Hte) Hch E Hrec.
  assert (i ≤ length L)%nat as HiL by (apply lookup_lt_Some in He; lia).
  assert (i ≤ length l)%nat as Hil by (by eapply take_made).
  assert (l !! Nat.pred i = Some e) as Hel by (rewrite (take_lookup l L _ i); [done|lia|done]).
  destruct (last l) as [el|] eqn:Elast.
  2:{ apply last_None in Elast. subst l. simpl in Hil. lia. }
  assert (t ≤ el.(le_term)) as Htl.
  { rewrite <-Hte. rewrite last_lookup in Elast. eapply (gd_sorted _ _ Hgl); [|exact Hel|exact Elast]. lia. }
  unfold as_recent, end_term in Hrec. rewrite Elast in Hrec.
  destruct (last Lc) as [ec|] eqn:Ec.
  2:{ apply last_None in Ec. subst Lc. simpl in Hrec. lia. }
  destruct (good_last _ _ _ Hgc Ec) as (Lc' & HLc' & ELc). destruct (good_last _ _ _ Hgl Elast) as (Ll & HLl & ELl).
  assert (take i Lc' = take i L → (i ≤ length Lc)%nat → take i Lc = take i L) as Hfin.
  { intros E1 Hle. rewrite <-ELc, take_take, Nat.min_l by done. done. }
  destruct Hrec as [Hlt|[Heq Hlen]].
  - assert (take i Lc' = take i L) as E1 by (eapply (li_complete _ Hinv t); [|exact HL|exact HLc'|done]; lia).
    apply Hfin; [done|]. destruct (decide (i ≤ length Lc)%nat) as [|Hn]; [done|exfalso].
    rewrite last_lookup in Ec. pose proof (lookup_lt_Some _ _ _ Ec) as Hclen.
    assert (Lc' !! Nat.pred i = Some e) as He1 by (rewrite (take_lookup Lc' L _ i); [done|lia|done]).
    assert (Lc' !! Nat.pred (length Lc) = Some ec) as He2.
    { rewrite <-ELc in Ec. apply lookup_take_Some in Ec as [Ec _]. rewrite length_take in Ec.
      pose proof (f_equal length ELc) as El. rewrite length_take in El.
      by replace (Nat.pred (Nat.min (length Lc) (length Lc'))) with (Nat.pred (length Lc)) in Ec by lia. }
    pose proof (gd_sorted _ _ (proj1 (li_llog _ Hinv _ _ HLc')) (Nat.pred (length Lc)) (Nat.pred i) _ _
      ltac:(lia) He2 He1). lia.
  - rewrite Heq, HLc' in HLl. injection HLl as <-. apply Hfin; [|lia].
    rewrite <-E, <-ELl, take_take, Nat.min_l by done. done.
Qed.

(** *** Every step keeps the invariant *)

Lemma good_mono g g' l :
  (∀ t L, g.(llogs) !! t = Some L → ∃ k, g'.(llogs) !! t = Some (L ++ k)) → good g l → good g' l.
Proof.
  intros Hl [Hm Hs]. split; [|exact Hs]. intros i e He. destruct (Hm i e He) as (L & HL & E).
  destruct (Hl _ _ HL) as [k Hk]. exists (L ++ k). split; [done|].
  apply lookup_lt_Some in He. rewrite take_app_le; [done|].
  eapply (take_made L l (S i)); [lia|exact E].
Qed.

Lemma choosable_made g t i L : choosable g t i → g.(llogs) !! t = Some L → made_by L t i.
Proof. intros (L' & Q & HL' & Hm & _) HL. by simplify_eq. Qed.

Lemma choosable_length g t i L : choosable g t i → g.(llogs) !! t = Some L → (i ≤ length L)%nat.
Proof. intros Hc HL. by eapply made_by_length, choosable_made. Qed.

(** Steps that leave the leaders' logs alone. *)
Lemma choosable_same g g' t i :
  g'.(llogs) = g.(llogs) →
  (∀ v m, (t, v, m) ∈ g'.(acks) → (t, v, m) ∈ g.(acks) ∨ term_of g v = t) →
  (∀ v, term_of g v ≤ term_of g' v) → choosable g' t i → choosable g t i.
Proof.
  intros Hl Ha Ht Hc. destruct (choosable_back g g' t i) as (L0 & HL0 & Hb); try done.
  { intros L HL. exists L. by rewrite <-Hl. }
  apply Hb. by eapply choosable_length; [exact Hc|rewrite Hl].
Qed.

Lemma inv_ballots g g' :
  logs_inv g → g'.(logs) = g.(logs) → g'.(elected) = g.(elected) →
  (∀ v, term_of g v ≤ term_of g' v) →
  (∀ t v c, (t, v, c) ∈ g'.(cast) → (t, v, c) ∈ g.(cast) ∨
     (∃ L, g.(clogs) !! (t, c) = Some L ∧ as_recent L (nlog g v)) ∧ term_of g v = t) →
  logs_inv g'.
Proof.
  intros Hinv Hlogs Hel Ht Hcast.
  assert (∀ v, nlog g' v = nlog g v) as Hn by (intros v; unfold nlog; by rewrite Hlogs).
  assert (∀ l, good g l → good g' l) as Hgood.
  { intros l. apply good_mono. intros t L HL. exists []. by rewrite Hlogs, app_nil_r. }
  assert (∀ t i, choosable g' t i → choosable g t i) as Hch.
  { intros t i. apply choosable_same; [by rewrite Hlogs| |done]. intros v m. rewrite Hlogs. by left. }
  split.
  - intros v. etrans; [apply (li_term _ Hinv)|apply Ht].
  - intros t. rewrite Hlogs, Hel. apply Hinv.
  - intros t c Hc. rewrite Hel in Hc. destruct (li_leader _ Hinv _ _ Hc) as [? ?]. pose proof (Ht c). split; lia.
  - intros v. rewrite Hn. destruct (li_nlog _ Hinv v) as [Hg Hle]. split; [by apply Hgood|].
    intros i e He. pose proof (Hle i e He). pose proof (Ht v). lia.
  - intros t L HL. rewrite Hlogs in HL. destruct (li_llog _ Hinv _ _ HL). split; [by apply Hgood|done].
  - intros t c L HL. rewrite Hlogs in HL. destruct (li_clog _ Hinv _ _ _ HL) as (Hg & ? & ? & ?).
    pose proof (Ht c). split_and!; [by apply Hgood|done|lia|done].
  - intros t v c Hin. rewrite Hlogs. destruct (Hcast _ _ _ Hin) as [Hin'|[(L & HL & _) _]]; [|by exists L].
    by eapply li_cast.
  - intros t v m Hin. rewrite Hlogs in *. destruct (li_ack _ Hinv _ _ _ Hin) as (Hle & L & HL & Hm & Hi).
    pose proof (Ht v). split; [lia|]. exists L. split_and!; try done. intros i Hi' Hc. rewrite Hn. auto.
  - intros t' v c Lc t m i Hin HLc Hlt Hack Hi Hc. rewrite Hlogs in *. apply Hch in Hc.
    destruct (Hcast _ _ _ Hin) as [Hin'|[(L' & HL' & Hrec) Htv]]; [by eapply li_vote|].
    assert (L' = Lc) as -> by congruence.
    destruct (li_ack _ Hinv _ _ _ Hack) as (_ & L & HL & _ & E). exists L. split; [done|].
    destruct (li_clog _ Hinv _ _ _ HLc) as (Hgc & Htc & _).
    eapply (recent_covers g t t'); [done|exact Hgc|exact Htc|apply (li_nlog _ Hinv v)| |exact HL| |done|by apply E|done].
    + pose proof (proj1 (li_elected _ Hinv t) (mk_is_Some _ _ HL)) as [d Hd].
      destruct (li_leader _ Hinv _ _ Hd). lia.
    + by eapply choosable_made.
  - intros t t' L L' i Hlt HL HL' Hc. rewrite Hlogs in *. eapply li_complete; eauto.
  - intros t t' c L i Hlt Hc HL Hch'. rewrite Hlogs in HL. rewrite Hel in Hc. rewrite Hn.
    eapply (li_held _ Hinv t t'); eauto.
Qed.

Lemma inv_accept g v L m :
  election_inv quorum g → logs_inv g → g.(llogs) !! term_of g v = Some L → (m ≤ length L)%nat →
  logs_inv (mkSpec g.(ballots)
    (mkLogs (<[v := adopt (nlog g v) L m]> g.(nlogs)) g.(clogs) g.(llogs) ((term_of g v, v, m) :: g.(acks)))).
Proof.
  intros Hei Hinv HL Hm. set (g' := mkSpec _ _).
  assert (∀ u, nlog g' u = if decide (u = v) then adopt (nlog g v) L m else nlog g u) as Hn.
  { intros u. unfold nlog at 1. simpl. case_decide; [subst; by rewrite lookup_insert_eq|by rewrite lookup_insert_ne]. }
  assert (∀ l, good g l → good g' l) as Hgood.
  { intros l. apply good_mono. intros t L' HL'. exists []. by rewrite app_nil_r. }
  assert (∀ t i, choosable g' t i → choosable g t i) as Hch.
  { intros t i. apply choosable_same; [done| |done]. intros u k [E|Hin]%elem_of_cons; [right; congruence|by left]. }
  assert (good g' (adopt (nlog g v) L m) ∧ terms_le (adopt (nlog g v) L m) (term_of g v)) as Had.
  { destruct (li_nlog _ Hinv v) as [Hg Hle]. destruct (li_llog _ Hinv _ _ HL) as [HgL HleL].
    destruct (adopt_cases (nlog g v) L m) as [[_ ->]|[_ ->]]; [by split; [apply Hgood|]|].
    split; [by apply Hgood, good_take|]. intros i e [He _]%lookup_take_Some. by eapply HleL. }
  split; try (apply Hinv); try (intros; by eapply Hinv).
  - intros u. rewrite Hn. case_decide as E; [by subst|]. destruct (li_nlog _ Hinv u). split; [by apply Hgood|done].
  - intros t L' HL'. destruct (li_llog _ Hinv _ _ HL'). split; [by apply Hgood|done].
  - intros t c L' HL'. destruct (li_clog _ Hinv _ _ _ HL') as (? & ? & ? & ?). split_and!; [by apply Hgood|done..].
  - intros t u k Hin. apply elem_of_cons in Hin as [[= -> -> ->]|Hin].
    + split; [done|]. exists L. split_and!; try done. intros i Hi _. rewrite Hn, decide_True by done.
      eapply take_le; [exact Hi|apply adopt_acked].
    + destruct (li_ack _ Hinv _ _ _ Hin) as (Hle & L' & HL' & Hk & E). split; [done|]. exists L'.
      split_and!; try done. intros i Hi Hc%Hch. rewrite Hn. case_decide as Eu; [|by apply E]. subst u.
      pose proof (E i Hi Hc) as E'. pose proof (choosable_length _ _ _ _ Hc HL') as HiL'.
      assert (take i L = take i L') as EL.
      { destruct (decide (t = term_of g v)) as [->|Hne]; [by simplify_eq|].
        eapply (li_complete _ Hinv t); [|exact HL'|exact HL|done]. lia. }
      rewrite adopt_keeps; [done|done|by rewrite E'|by eapply take_made].
  - intros t' u c Lc t k i Hin HLc Hlt Hack Hi Hc%Hch. apply elem_of_cons in Hack as [[= -> -> ->]|Hack].
    + pose proof (ei_term _ _ Hei _ _ _ Hin). lia.
    + by eapply (li_vote _ Hinv).
  - intros t t' L1 L2 i Hlt HL1 HL2 Hc%Hch. by eapply (li_complete _ Hinv t).
  - intros t t' c L1 i Hlt Hel HL1 Hc%Hch. pose proof (li_held _ Hinv t t' c L1 i Hlt Hel HL1 Hc) as E.
    rewrite Hn. case_decide as Eu; [|done]. subst c. pose proof (choosable_length _ _ _ _ Hc HL1) as HiL.
    destruct (li_leader _ Hinv _ _ Hel) as [Hle _].
    assert (take i L = take i L1) as EL by (eapply (li_complete _ Hinv t); [|exact HL1|exact HL|done]; lia).
    rewrite adopt_keeps; [done|done|by rewrite E|by eapply take_made].
Qed.

Lemma made_by_young l t i : terms_le l (t - 1) → ¬ made_by l t i.
Proof. intros Hle (e & _ & He & Ht). pose proof (Hle _ _ He). lia. Qed.

Lemma inv_elect g t c :
  election_inv quorum g → logs_inv g → backed quorum g t c → t ≤ term_of g c → g.(elected) !! t = None →
  g.(clogs) !! (t, c) = Some (nlog g c) →
  logs_inv (mkSpec (mkBallots g.(cast) (<[t := c]> g.(elected)) g.(terms)) (set_llog t (nlog g c) g.(logs))).
Proof.
  intros Hei Hinv Hb Htc Hnone Hcl. set (g' := mkSpec _ _).
  assert (g.(llogs) !! t = None) as Hl.
  { apply eq_None_not_Some. intros [c' Hc]%(li_elected _ Hinv). congruence. }
  destruct (li_clog _ Hinv _ _ _ Hcl) as (Hgc & Hle & _ & Hpos).
  assert (∀ u L, g'.(llogs) !! u = Some L → u = t ∧ L = nlog g c ∨ u ≠ t ∧ g.(llogs) !! u = Some L) as Hll.
  { intros u L. simpl. intros [[<- <-]|[? ?]]%lookup_insert_Some; [by left|by right]. }
  assert (∀ l, good g l → good g' l) as Hgood.
  { intros l. apply good_mono. intros u L HL. exists []. simpl. rewrite app_nil_r, lookup_insert_ne; [done|congruence]. }
  assert (∀ u i, choosable g' u i → u ≠ t ∧ choosable g u i) as Hch.
  { intros u i (L & Q & HL & Hm & HQ). destruct (Hll _ _ HL) as [[-> ->]|[Hne HL']].
    - by apply made_by_young in Hm.
    - split; [done|]. by exists L, Q. }
  assert (∀ u L, g.(llogs) !! u = Some L → g'.(llogs) !! u = Some L) as Hl'.
  { intros u L HL. simpl. rewrite lookup_insert_ne; [done|congruence]. }
  split; try (apply Hinv); try (intros; by eapply Hinv).
  - intros u. simpl. rewrite !lookup_insert_is_Some. rewrite (li_elected _ Hinv). done.
  - intros u d. simpl. intros [[<- <-]|[_ Hd]]%lookup_insert_Some; [done|by apply (li_leader _ Hinv)].
  - intros v. destruct (li_nlog _ Hinv v). split; [by apply Hgood|done].
  - intros u L HL. destruct (Hll _ _ HL) as [[-> ->]|[_ HL']].
    + split; [by apply Hgood|]. intros i e He. pose proof (Hle i e He). lia.
    + destruct (li_llog _ Hinv _ _ HL'). split; [by apply Hgood|done].
  - intros u d L HL. destruct (li_clog _ Hinv _ _ _ HL) as (? & ? & ? & ?). split_and!; [by apply Hgood|done..].
  - intros u v m Hin. destruct (li_ack _ Hinv _ _ _ Hin) as (? & L & HL & Hm & E). split; [done|].
    exists L. split_and!; [by apply Hl'|done|]. intros i Hi [_ Hc]%Hch. by apply E.
  - intros t' v d Lc u m i Hin HLc Hlt Hack Hi [_ Hc]%Hch.
    destruct (li_vote _ Hinv _ _ _ _ _ _ _ Hin HLc Hlt Hack Hi Hc) as (L & HL & E). exists L. by split; [apply Hl'|].
  - intros t1 t2 L1 L2 i Hlt HL1 HL2 [Hne Hc]%Hch.
    destruct (Hll _ _ HL1) as [[-> _]|[_ HL1']]; [done|].
    destruct (Hll _ _ HL2) as [[-> ->]|[_ HL2']]; [|by eapply (li_complete _ Hinv t1)].
    destruct (choosable_voter g t1 t c i Hei Hlt Hb Hc) as (v & Hin & m & Hm & Hack).
    destruct (li_vote _ Hinv _ _ _ _ _ _ _ Hin Hcl Hlt Hack Hm Hc) as (L & HL & E). by simplify_eq.
  - intros t1 t2 d L1 i Hlt Hd HL1 [Hne Hc]%Hch. destruct (Hll _ _ HL1) as [[-> _]|[_ HL1']]; [done|].
    simpl in Hd. apply lookup_insert_Some in Hd as [[<- <-]|[_ Hd]]; [|by eapply (li_held _ Hinv t1 t2)].
    destruct (choosable_voter g t1 t c i Hei Hlt Hb Hc) as (v & Hin & m & Hm & Hack).
    destruct (li_vote _ Hinv _ _ _ _ _ _ _ Hin Hcl Hlt Hack Hm Hc) as (L & HL & E). by simplify_eq.
Qed.

Lemma inv_append g t c e :
  election_inv quorum g → logs_inv g → g.(llogs) !! t = Some (nlog g c) → term_of g c = t → e.(le_term) = t →
  logs_inv (mkSpec g.(ballots) (set_llog t (nlog g c ++ [e]) (set_nlog c (nlog g c ++ [e]) g.(logs)))).
Proof.
  intros Hei Hinv HL Htc He. set (g' := mkSpec _ _). set (L := nlog g c) in *.
  assert (∀ u, nlog g' u = if decide (u = c) then L ++ [e] else nlog g u) as Hn.
  { intros u. unfold nlog at 1. simpl. case_decide; [subst; by rewrite lookup_insert_eq|by rewrite lookup_insert_ne]. }
  assert (∀ u L0, g.(llogs) !! u = Some L0 → ∃ k, g'.(llogs) !! u = Some (L0 ++ k)) as Hmono.
  { intros u L0 HL0. simpl. destruct (decide (u = t)) as [->|Hne].
    - rewrite lookup_insert_eq. exists [e]. congruence.
    - rewrite lookup_insert_ne by done. exists []. by rewrite app_nil_r. }
  assert (∀ u L', g'.(llogs) !! u = Some L' → ∃ L0 k, g.(llogs) !! u = Some L0 ∧ L' = L0 ++ k
    ∧ (u ≠ t ∧ k = [] ∨ u = t ∧ k = [e] ∧ L0 = L)) as Hback.
  { intros u L'. simpl. intros [[<- <-]|[Hne HL']]%lookup_insert_Some.
    - exists L, [e]. split_and!; [done..|by right].
    - exists L', []. rewrite app_nil_r. split_and!; [done..|left]. by split; [congruence|]. }
  assert (∀ l, good g l → good g' l) as Hgood by (intros l; by apply good_mono).
  assert (∀ u i L0, choosable g' u i → g.(llogs) !! u = Some L0 → (i ≤ length L0)%nat → choosable g u i) as Hch.
  { intros u i L0 Hc HL0 Hi. destruct (choosable_back g g' u i) as (L1 & HL1 & Hb); try done.
    - intros L' HL'. destruct (Hback _ _ HL') as (L1 & k & HL1 & -> & _). exists L1. split; [done|by eexists].
    - intros v m Hin. by left.
    - apply Hb. by simplify_eq. }
  assert (∀ t1 t2 d L1 i, t1 < t2 → g.(elected) !! t2 = Some d → g.(llogs) !! t1 = Some L1 →
    choosable g' t1 i → (i ≤ length L1)%nat) as Hlong.
  { intros t1 t2 d L1 i Hlt Hd HL1 Hc.
    destruct (choosable_voter g' t1 t2 d i Hei Hlt (ei_elected _ _ Hei _ _ Hd) Hc) as (v & _ & m & Hm & Hack).
    destruct (li_ack _ Hinv _ _ _ Hack) as (_ & L0 & HL0 & Hlen & _). simplify_eq. lia. }
  assert (good g' (L ++ [e])) as Hge.
  { destruct (li_llog _ Hinv _ _ HL) as [[Hm Hs] Hle]. split.
    - intros i x [Hx|[Hlen Hx]]%lookup_app_Some.
      + destruct (gd_made _ _ (Hgood _ (Build_good _ _ Hm Hs)) i x Hx) as (L1 & HL1 & E). exists L1. split; [done|].
        apply lookup_lt_Some in Hx. rewrite (take_app_le L) by lia. done.
      + apply list_lookup_singleton_Some in Hx as [Hz <-]. exists (L ++ [e]). split; [|done].
        simpl. rewrite He. by rewrite lookup_insert_eq.
    - intros i j x y Hij Hx [Hy|[Hlen Hy]]%lookup_app_Some.
      + rewrite lookup_app_l in Hx by (apply lookup_lt_Some in Hy; lia). by eapply Hs.
      + apply list_lookup_singleton_Some in Hy as [_ <-]. rewrite He.
        apply lookup_app_Some in Hx as [Hx|[_ Hx]]; [by eapply Hle|].
        apply list_lookup_singleton_Some in Hx as [_ <-]. lia. }
  assert (terms_le (L ++ [e]) t) as Hlee.
  { destruct (li_llog _ Hinv _ _ HL) as [_ Hle]. intros i x [Hx|[_ Hx]]%lookup_app_Some; [by eapply Hle|].
    apply list_lookup_singleton_Some in Hx as [_ <-]. lia. }
  split; try (apply Hinv); try (intros; by eapply Hinv).
  - intros u. simpl. rewrite lookup_insert_is_Some', <-(li_elected _ Hinv). split; [|tauto].
    intros [->|?]; [by eexists|done].
  - intros v. rewrite Hn. case_decide as E.
    + subst v. split; [done|]. change (terms_le (L ++ [e]) (term_of g c)). by rewrite Htc.
    + destruct (li_nlog _ Hinv v). split; [by apply Hgood|done].
  - intros u L' HL'. destruct (Hback _ _ HL') as (L0 & k & HL0 & -> & [[_ ->]|(-> & -> & ->)]); [|done].
    rewrite app_nil_r. destruct (li_llog _ Hinv _ _ HL0). split; [by apply Hgood|done].
  - intros u d L' HL'. destruct (li_clog _ Hinv _ _ _ HL') as (? & ? & ? & ?). split_and!; [by apply Hgood|done..].
  - intros u v m Hin. destruct (li_ack _ Hinv _ _ _ Hin) as (? & L0 & HL0 & Hm & E). split; [done|].
    destruct (Hmono _ _ HL0) as [k Hk]. exists (L0 ++ k). split_and!; [done|rewrite length_app; lia|].
    intros i Hi Hc. assert (choosable g u i) as Hc0 by (eapply Hch; [done..|lia]).
    pose proof (E i Hi Hc0) as E0. rewrite (take_app_le L0) by lia. rewrite Hn.
    case_decide as Ev; [|done]. subst v. rewrite take_app_le; [done|]. eapply take_made; [|exact E0]. lia.
  - intros t' v d Lc u m i Hin HLc Hlt Hack Hi Hc.
    destruct (li_ack _ Hinv _ _ _ Hack) as (_ & L0 & HL0 & Hm & _).
    assert (choosable g u i) as Hc0 by (eapply Hch; [done..|lia]).
    destruct (li_vote _ Hinv _ _ _ _ _ _ _ Hin HLc Hlt Hack Hi Hc0) as (L1 & HL1 & E). simplify_eq.
    destruct (Hmono _ _ HL0) as [k Hk]. exists (L0 ++ k). split; [done|]. rewrite take_app_le; [done|lia].
  - intros t1 t2 L1 L2 i Hlt HL1 HL2 Hc.
    destruct (Hback _ _ HL1) as (L1' & k1 & HL1' & -> & Hk1). destruct (Hback _ _ HL2) as (L2' & k2 & HL2' & -> & _).
    destruct (proj1 (li_elected _ Hinv t2) (mk_is_Some _ _ HL2')) as [d Hd].
    assert (i ≤ length L1')%nat as Hi by by eapply (Hlong t1 t2 d).
    pose proof (Hch _ _ _ Hc HL1' Hi) as Hc0. pose proof (li_complete _ Hinv _ _ _ _ i Hlt HL1' HL2' Hc0) as E.
    rewrite (take_app_le L1'), (take_app_le L2') by (done || by eapply take_made). done.
  - intros t1 t2 d L1 i Hlt Hd HL1 Hc. destruct (Hback _ _ HL1) as (L1' & k1 & HL1' & -> & Hk1).
    assert (i ≤ length L1')%nat as Hi by by eapply (Hlong t1 t2 d).
    pose proof (Hch _ _ _ Hc HL1' Hi) as Hc0. pose proof (li_held _ Hinv _ _ _ _ i Hlt Hd HL1' Hc0) as E.
    rewrite (take_app_le L1'), Hn by done. case_decide as Ed; [|done]. subst d.
    by rewrite take_app_le by (by eapply take_made).
Qed.

Lemma term_of_insert (b : Ballots) c t v :
  term_of (mkBallots b.(cast) b.(elected) (<[c := t]> b.(terms))) v = if decide (v = c) then t else term_of b v.
Proof.
  unfold term_of. simpl. case_decide; [subst; by rewrite lookup_insert_eq|by rewrite lookup_insert_ne].
Qed.

(** A candidate stands with a log of its own term's past. *)
Lemma inv_stand g t c :
  logs_inv g → t ≤ term_of g c → 0 < t → terms_le (nlog g c) (t - 1) → (∀ v, (t, v, c) ∉ g.(cast)) →
  logs_inv (mkSpec g.(ballots)
    (mkLogs g.(nlogs) (<[(t, c) := nlog g c]> g.(clogs)) g.(llogs) g.(acks))).
Proof.
  intros Hinv Htc Hpos Hle Hcast. set (g' := mkSpec _ _).
  assert (∀ l, good g l → good g' l) as Hgood.
  { intros l. apply good_mono. intros u L HL. exists []. by rewrite app_nil_r. }
  assert (∀ u i, choosable g' u i → choosable g u i) as Hch.
  { intros u i. apply choosable_same; [done|by left|done]. }
  split; [apply (li_term _ Hinv)|apply (li_elected _ Hinv)|apply (li_leader _ Hinv)|..].
  - intros v. destruct (li_nlog _ Hinv v). split; [by apply Hgood|done].
  - intros u L HL. destruct (li_llog _ Hinv _ _ HL). split; [by apply Hgood|done].
  - intros u d L. simpl. intros [[[= <- <-] <-]|[_ HL]]%lookup_insert_Some.
    + split_and!; [apply Hgood, (li_nlog _ Hinv c)|done..].
    + destruct (li_clog _ Hinv _ _ _ HL) as (? & ? & ? & ?). split_and!; [by apply Hgood|done..].
  - intros u v d Hin. simpl. rewrite lookup_insert_is_Some'. right. by apply (li_cast _ Hinv _ v).
  - intros u v m Hin. destruct (li_ack _ Hinv _ _ _ Hin) as (? & L & HL & Hm & E). split; [done|].
    exists L. by split_and!.
  - intros t' v d Lc u m i Hin HLc Hlt Hack Hi Hc%Hch. simpl in HLc.
    apply lookup_insert_Some in HLc as [[[= <- <-] _]|[_ HLc]]; [by destruct (Hcast v)|by eapply (li_vote _ Hinv)].
  - intros t1 t2 L1 L2 i Hlt HL1 HL2 Hc%Hch. by eapply (li_complete _ Hinv t1).
  - intros t1 t2 d L1 i Hlt Hd HL1 Hc%Hch. by eapply (li_held _ Hinv t1 t2).
Qed.

Lemma inv_candidate g t c :
  election_inv quorum g → logs_inv g → term_of g c < t →
  logs_inv (mkSpec (mkBallots ((t, c, c) :: g.(cast)) g.(elected) (<[c := t]> g.(terms)))
    (mkLogs g.(nlogs) (<[(t, c) := nlog g c]> g.(clogs)) g.(llogs) g.(acks))).
Proof.
  intros Hei Hinv Hlt. pose proof (li_term _ Hinv c) as Hpos.
  set (b := mkBallots g.(cast) g.(elected) (<[c := t]> g.(terms))).
  assert (∀ v, term_of b v = if decide (v = c) then t else term_of g v) as Hterm.
  { intros v. exact (term_of_insert g c t v). }
  assert (term_of b c = t) as Hbc by (by rewrite Hterm, decide_True).
  assert (logs_inv (mkSpec b g.(logs))) as H1.
  { apply (inv_ballots g); try done; [|by left]. intros v. change (term_of g v ≤ term_of b v).
    rewrite Hterm. case_decide as E; [rewrite E; lia|lia]. }
  assert (logs_inv (mkSpec b (mkLogs g.(nlogs) (<[(t, c) := nlog g c]> g.(clogs)) g.(llogs) g.(acks)))) as H2.
  { apply (inv_stand (mkSpec b g.(logs)) t c); [done|apply Z.eq_le_incl; symmetry; exact Hbc|lia| |].
    - intros i e He. destruct (li_nlog _ Hinv c) as [_ Hle]. pose proof (Hle i e He). lia.
    - intros v Hin. destruct (li_cast _ Hinv _ _ _ Hin) as [L HL].
      destruct (li_clog _ Hinv _ _ _ HL) as (_ & _ & Hc & _). lia. }
  apply (inv_ballots _ _ H2); try done.
  intros u v d [[= -> -> ->]|Hin]%elem_of_cons; [right|by left].
  split; [|exact Hbc]. exists (nlog g c). split; [simpl; by rewrite lookup_insert_eq|]. right. by split.
Qed.

Lemma spec_step_inv g g' : spec_inv g → spec_step g g' → spec_inv g'.
Proof.
  intros [Hei Hrd Hinv] Hs. split; [by eapply spec_election_inv| |].
  { intros t c Hc. assert (t ≤ term_of g c ∨ t ≤ term_of g' c) as [Hle|]; [|pose proof (step_terms _ _ c Hs); lia|done].
    destruct Hs as [| | |g u d _ Hud _ _| |]; simpl in Hc; try (left; by apply Hrd).
    apply lookup_insert_Some in Hc as [[<- <-]|[_ Hc]]; left; [done|by apply Hrd]. }
  intros Hd. specialize (Hinv Hd).
  destruct Hs as [g t v Ht|g t c Ht|g v c Hv Hrec|g t c Hb Htc Hnone Hcl|g t c e _ HL Htc He|g v L m HL Hm].
  - apply (inv_ballots g); try done; [|by left]. intros u.
    change (term_of g u ≤ term_of (mkBallots g.(cast) g.(elected) (<[v := t]> g.(terms))) u).
    rewrite (term_of_insert g v t u). case_decide; [by subst|done].
  - by apply inv_candidate.
  - apply (inv_ballots g); try done. intros u a d [[= -> -> ->]|Hin]%elem_of_cons; [right|by left].
    split; [by apply Hrec|done].
  - apply inv_elect; auto.
  - by apply inv_append.
  - by apply inv_accept.
Qed.

Lemma spec_steps_inv g g' : spec_inv g → steps g g' → spec_inv g'.
Proof. intros Hi Hs. induction Hs; eauto using spec_step_inv. Qed.

(** ** The contract *)

(** Leader completeness: what a quorum acknowledged in the term that made it is
    in the log of every later leader. *)
Lemma spec_chosen_choosable g t i : chosen g t i → choosable g t i.
Proof. intros (L & Q & HL & Hm & HQ & Hv). exists L, Q. split_and!; auto. Qed.

Lemma leader_completeness g t t' L L' i :
  disc = true → spec_inv g → t < t' → g.(llogs) !! t = Some L → g.(llogs) !! t' = Some L' →
  chosen g t i → take i L' = take i L.
Proof. intros Hd [_ _ Hinv] Hlt HL HL' Hc. by eapply (li_complete _ (Hinv Hd)); [..|apply spec_chosen_choosable]. Qed.

(** A prefix of what is chosen, in a term up to [t] *)
Definition committed g t (p : list Entry) : Prop :=
  p = [] ∨ ∃ t0 L i k, t0 ≤ t ∧ chosen g t0 i ∧ g.(llogs) !! t0 = Some L ∧ (k ≤ i)%nat ∧ p = take k L.

Lemma chosen_made g t i L : chosen g t i → g.(llogs) !! t = Some L → (i ≤ length L)%nat.
Proof. intros Hc. apply choosable_length. by apply spec_chosen_choosable. Qed.

Lemma take_prefix_le {A} (l : list A) i j : (i ≤ j)%nat → take i l `prefix_of` take j l.
Proof. intros Hij. rewrite <-(Nat.min_l i j), <-take_take by done. apply prefix_take. Qed.

Lemma committed_weaken g t t' p p' : committed g t' p' → t' ≤ t → p `prefix_of` p' → committed g t p.
Proof.
  intros [->|(u & L & i & k & Hu & Hc & HL & Hk & ->)] Ht Hp; [left; by apply prefix_nil_inv|right].
  pose proof (chosen_made _ _ _ _ Hc HL). pose proof (prefix_length _ _ Hp) as Hlen. rewrite length_take in Hlen.
  exists u, L, i, (length p). split_and!; [lia|done|done|lia|].
  destruct Hp as [x E]. apply (f_equal (take (length p))) in E.
  rewrite take_take, take_app_length, Nat.min_l in E by lia. done.
Qed.

(** What is committed is in the log of every leader from then on. *)
Lemma committed_leader g t t' p L :
  disc = true → spec_inv g → committed g t p → t ≤ t' → g.(llogs) !! t' = Some L → p `prefix_of` L.
Proof.
  intros Hd Hi [->|(u & L0 & i & k & Hu & Hc & HL0 & Hk & ->)] Ht HL; [apply prefix_nil|].
  destruct (decide (u = t')) as [->|Hne]; [simplify_eq; apply prefix_take|].
  assert (take i L = take i L0) as E by (eapply leader_completeness; [done|done| |done..]; lia).
  rewrite (take_le L0 L k i) by done. apply prefix_take.
Qed.

(** Who led a later term still has it, whatever it has adopted since. *)
Lemma committed_held g t t' c p :
  disc = true → spec_inv g → committed g t p → t < t' → g.(elected) !! t' = Some c → p `prefix_of` nlog g c.
Proof.
  intros Hd Hi [->|(u & L & i & k & Hu & Hc & HL & Hk & ->)] Ht Hel; [apply prefix_nil|].
  assert (take i (nlog g c) = take i L) as E.
  { eapply (li_held _ (si_logs _ Hi Hd) u t'); [lia|done..|by apply spec_chosen_choosable]. }
  rewrite (take_le L (nlog g c) k i) by done. apply prefix_take.
Qed.

(** A leader whose term a majority has not gone past has everything committed
    anywhere. *)
Lemma committed_among g t T Q L p :
  disc = true → spec_inv g → committed g t p → quorum Q → (∀ v, v ∈ Q → term_of g v ≤ T) →
  g.(llogs) !! T = Some L → p `prefix_of` L.
Proof.
  intros Hd Hi [->|(u & L0 & i & k & Hu & Hc & HL0 & Hk & ->)] HQ HT HL; [apply prefix_nil|].
  destruct (decide (u ≤ T)) as [Hle|Hgt].
  - eapply (committed_leader g u T); [done|done| |exact Hle|exact HL]. right. exists u, L0, i, k. by split_and!.
  - exfalso. destruct Hc as (L1 & Q' & _ & _ & HQ' & Hack). destruct (quorum_meet _ _ HQ HQ') as (v & Hv & Hv').
    destruct (Hack v Hv') as (m & _ & Hin). destruct (li_ack _ (si_logs _ Hi Hd) _ _ _ Hin) as [Ht _].
    specialize (HT v Hv). lia.
Qed.

(** The entries of a leader's own term are the last ones of its log. *)
Lemma own_entries_last g t L i :
  disc = true → spec_inv g → g.(llogs) !! t = Some L → made_by L t i → made_by L t (length L).
Proof.
  intros Hd Hi HL Hm. pose proof (made_by_length _ _ _ Hm) as Hlen. destruct Hm as (e & H0 & He & Ht).
  destruct (lookup_lt_is_Some_2 L (Nat.pred (length L))) as [e' He']; [lia|].
  exists e'. split_and!; [lia|done|]. destruct (li_llog _ (si_logs _ Hi Hd) _ _ HL) as [Hg Hle].
  pose proof (Hle _ _ He'). pose proof (gd_sorted _ _ Hg (Nat.pred i) (Nat.pred (length L)) _ _ ltac:(lia) He He'). lia.
Qed.

(** State machine safety: committed prefixes never disagree. *)
Lemma committed_agree g t t' p p' :
  disc = true → spec_inv g → committed g t p → committed g t' p' → p `prefix_of` p' ∨ p' `prefix_of` p.
Proof.
  intros Hd Hi [->|(u & L & i & k & _ & Hc & HL & Hk & ->)]; [left; apply prefix_nil|].
  intros [->|(u' & L' & i' & k' & _ & Hc' & HL' & Hk' & ->)]; [right; apply prefix_nil|].
  assert (take k L `prefix_of` take i L ∧ take k' L' `prefix_of` take i' L') as [Hp Hp']
    by (split; by apply take_prefix_le).
  destruct (decide (u ≤ u')) as [Hle|Hlt].
  - assert (take k L `prefix_of` L') as H1.
    { apply (committed_leader g u u'); [done..| |done|done]. right. by exists u, L, i, k. }
    eapply prefix_weak_total; [exact H1|apply prefix_take].
  - assert (take k' L' `prefix_of` L) as H1.
    { apply (committed_leader g u' u); [done..| |lia|done]. right. by exists u', L', i', k'. }
    eapply prefix_weak_total; [apply prefix_take|exact H1].
Qed.

(** A follower that adopts the leader's entries keeps what is committed. *)
Lemma committed_adopt g t v L m p :
  disc = true → spec_inv g → committed g t p → t ≤ term_of g v → g.(llogs) !! term_of g v = Some L →
  (m ≤ length L)%nat → p `prefix_of` nlog g v → p `prefix_of` adopt (nlog g v) L m.
Proof.
  intros Hd Hi Hc Ht HL Hm Hp. pose proof (committed_leader _ _ _ _ _ Hd Hi Hc Ht HL) as HpL.
  destruct Hp as [x Hx], HpL as [y Hy].
  assert (take (length p) (adopt (nlog g v) L m) = p) as <-; [|apply prefix_take].
  rewrite adopt_keeps; [by rewrite Hy, take_app_length|done| |rewrite Hy, length_app; lia].
  rewrite Hx, Hy. by rewrite !take_app_length.
Qed.

(** Log matching *)
Lemma good_agree g l k i e e' :
  good g l → good g k → l !! i = Some e → k !! i = Some e' → e.(le_term) = e'.(le_term) →
  take (S i) l = take (S i) k.
Proof.
  intros Hl Hk He He' Ht. destruct (gd_made _ _ Hl _ _ He) as (L & HL & <-).
  destruct (gd_made _ _ Hk _ _ He') as (L' & HL' & <-). rewrite Ht in HL. by simplify_eq.
Qed.

(** *** What steps keep *)

Lemma step_llog g g' t L :
  disc = true → spec_inv g → spec_step g g' → g.(llogs) !! t = Some L → ∃ k, g'.(llogs) !! t = Some (L ++ k).
Proof.
  intros Hd [Hei _ Hinv] Hs HL. specialize (Hinv Hd).
  destruct Hs as [|g u c|g v c|g u c Hb Huc Hnone Hcl|g u c e _ HL' Htc He|g v L' m]; simpl;
    try (exists []; by rewrite app_nil_r).
  - exists []. rewrite app_nil_r, lookup_insert_ne; [done|]. intros ->.
    pose proof (proj1 (li_elected _ Hinv t) (mk_is_Some _ _ HL)) as [d Hd']. congruence.
  - destruct (decide (u = t)) as [->|Hne]; [|exists []; by rewrite app_nil_r, lookup_insert_ne].
    rewrite lookup_insert_eq. exists [e]. congruence.
Qed.

Lemma step_acks g g' x : spec_step g g' → x ∈ g.(acks) → x ∈ g'.(acks).
Proof. intros Hs Hx. destruct Hs; try done. by right. Qed.

Lemma step_clogs g g' t c L :
  disc = true → spec_inv g → spec_step g g' → g.(clogs) !! (t, c) = Some L → g'.(clogs) !! (t, c) = Some L.
Proof.
  intros Hd [Hei _ Hinv] Hs HL. specialize (Hinv Hd). destruct Hs as [|g u d Hlt| | | |]; try done.
  simpl. rewrite lookup_insert_ne; [done|]. intros [= -> ->].
  destruct (li_clog _ Hinv _ _ _ HL) as (_ & _ & ? & _). lia.
Qed.

Lemma spec_step_chosen g g' t i : disc = true → spec_inv g → spec_step g g' → chosen g t i → chosen g' t i.
Proof.
  intros Hd Hinv Hs (L & Q & HL & (e & Hi & He & Ht) & HQ & Hv).
  destruct (step_llog _ _ _ _ Hd Hinv Hs HL) as [k HL']. exists (L ++ k), Q. split_and!; try done.
  - exists e. split_and!; try done. by apply lookup_app_l_Some.
  - intros v Hin. destruct (Hv v Hin) as (m & Hm & Hack). exists m. split; [done|]. by eapply step_acks.
Qed.

Lemma step_committed g g' t p :
  disc = true → spec_inv g → spec_step g g' → committed g t p → committed g' t p.
Proof.
  intros Hd Hinv Hs [->|(u & L & i & k & Hu & Hc & HL & Hk & ->)]; [by left|right].
  destruct (step_llog _ _ _ _ Hd Hinv Hs HL) as [x HL'].
  exists u, (L ++ x), i, k. split_and!; [done|by eapply spec_step_chosen|done..|].
  rewrite take_app_le; [done|]. pose proof (chosen_made _ _ _ _ Hc HL). lia.
Qed.

(** A property of every step is one of every run. *)
Lemma steps_ind_inv (P : Spec → Prop) g g' :
  (∀ g1 g2, spec_inv g1 → spec_step g1 g2 → P g1 → P g2) → spec_inv g → steps g g' → P g → P g'.
Proof. intros HP Hi Hs. induction Hs; eauto using spec_step_inv. Qed.

Lemma steps_llog g g' t L :
  disc = true → spec_inv g → steps g g' → g.(llogs) !! t = Some L → ∃ k, g'.(llogs) !! t = Some (L ++ k).
Proof.
  intros Hd Hi Hs HL. apply (steps_ind_inv (λ g', ∃ k, g'.(llogs) !! t = Some (L ++ k)) g g'); try done.
  - intros g1 g2 Hi1 Hs1 [k Hk]. destruct (step_llog _ _ _ _ Hd Hi1 Hs1 Hk) as [k' Hk'].
    exists (k ++ k'). by rewrite app_assoc.
  - exists []. by rewrite app_nil_r.
Qed.

Lemma steps_acks g g' x : steps g g' → x ∈ g.(acks) → x ∈ g'.(acks).
Proof. induction 1; eauto using step_acks. Qed.

Lemma steps_clogs g g' t c L :
  disc = true → spec_inv g → steps g g' → g.(clogs) !! (t, c) = Some L → g'.(clogs) !! (t, c) = Some L.
Proof. intros Hd Hi Hs. apply (steps_ind_inv (λ g', g'.(clogs) !! (t, c) = Some L)); eauto using step_clogs. Qed.

Lemma steps_committed g g' t p :
  disc = true → spec_inv g → steps g g' → committed g t p → committed g' t p.
Proof. intros Hd Hi Hs. apply (steps_ind_inv (λ g', committed g' t p)); eauto using step_committed. Qed.

(** What a voter has of the committed prefix of a term it has reached, it
    keeps. *)
Lemma step_keeps g g' t v p :
  disc = true → spec_inv g → spec_step g g' → committed g t p → t ≤ term_of g v →
  p `prefix_of` nlog g v → t ≤ term_of g' v ∧ p `prefix_of` nlog g' v.
Proof.
  intros Hd Hi Hs Hc Ht Hp.
  destruct Hs as [g u c Hu|g u c Hu|g c c'|g u c Hb Huc Hnone Hcl|g u c e _ HL' Htc He|g c L m HL Hm];
    unfold term_of, nlog in *; simpl in *; try done.
  - destruct (decide (c = v)) as [->|]; [rewrite lookup_insert_eq|by rewrite lookup_insert_ne].
    split; [simpl; lia|done].
  - destruct (decide (c = v)) as [->|]; [rewrite lookup_insert_eq|by rewrite lookup_insert_ne].
    split; [simpl; lia|done].
  - destruct (decide (c = v)) as [->|]; [rewrite lookup_insert_eq|by rewrite lookup_insert_ne].
    split; [done|]. simpl. by apply prefix_app_r.
  - destruct (decide (c = v)) as [->|]; [rewrite lookup_insert_eq|by rewrite lookup_insert_ne].
    split; [done|]. by eapply committed_adopt.
Qed.

Lemma steps_keeps g g' t v p :
  disc = true → spec_inv g → steps g g' → committed g t p → t ≤ term_of g v →
  p `prefix_of` nlog g v → t ≤ term_of g' v ∧ p `prefix_of` nlog g' v.
Proof.
  intros Hd Hi Hs Hc Ht Hp.
  apply (steps_ind_inv (λ g', committed g' t p ∧ t ≤ term_of g' v ∧ p `prefix_of` nlog g' v) g g'); try done.
  intros g1 g2 Hi1 Hs1 (Hc1 & Ht1 & Hp1). split; [by eapply step_committed|]. by eapply step_keeps.
Qed.

Lemma spec_steps_election g g' : spec_inv g → steps g g' → rtc (election_step quorum) g g'.
Proof.
  intros Hi Hs. induction Hs as [|g g1 g2 Hs _ IH]; [done|].
  etrans; [apply spec_election; [apply Hi|done]|]. apply IH. by eapply spec_step_inv.
Qed.

Lemma spec_steps_cast g g' x : spec_inv g → steps g g' → x ∈ g.(cast) → x ∈ g'.(cast).
Proof. intros Hi Hs. eapply steps_cast. by apply spec_steps_election. Qed.

Lemma spec_steps_elected g g' t c :
  spec_inv g → steps g g' → g.(elected) !! t = Some c → g'.(elected) !! t = Some c.
Proof. intros Hi Hs. apply (steps_elected quorum); [apply Hi|by apply spec_steps_election]. Qed.

(** *** What a step of one party keeps of another *)

Definition observe_state g v t : Spec :=
  mkSpec (mkBallots g.(cast) g.(elected) (<[v := t]> g.(terms))) g.(logs).
Definition stand_state g c t : Spec :=
  mkSpec (mkBallots ((t, c, c) :: g.(cast)) g.(elected) (<[c := t]> g.(terms)))
    (mkLogs g.(nlogs) (<[(t, c) := nlog g c]> g.(clogs)) g.(llogs) g.(acks)).
Definition vote_state g v c : Spec :=
  mkSpec (mkBallots ((term_of g v, v, c) :: g.(cast)) g.(elected) g.(terms)) g.(logs).
Definition elect_state g c t : Spec :=
  mkSpec (mkBallots g.(cast) (<[t := c]> g.(elected)) g.(terms)) (set_llog t (nlog g c) g.(logs)).
Definition append_state g c t e : Spec :=
  mkSpec g.(ballots) (set_llog t (nlog g c ++ [e]) (set_nlog c (nlog g c ++ [e]) g.(logs))).
Definition accept_state g v L m : Spec :=
  mkSpec g.(ballots)
    (mkLogs (<[v := adopt (nlog g v) L m]> g.(nlogs)) g.(clogs) g.(llogs) ((term_of g v, v, m) :: g.(acks))).

(** [v] takes no part in what happens from [g] to [g']. *)
Record apart v g g' : Prop := {
  ap_term : term_of g' v = term_of g v;
  ap_cast t c : (t, v, c) ∈ g'.(cast) → (t, v, c) ∈ g.(cast);
  ap_elected t : g'.(elected) !! t = Some v → g.(elected) !! t = Some v;
  ap_nlog : nlog g' v = nlog g v;
  ap_llog t : g.(elected) !! t = Some v → g'.(llogs) !! t = g.(llogs) !! t;
}.

Lemma apart_observe g u v t : v ≠ u → apart v g (observe_state g u t).
Proof. intros Hne. split; try done. unfold term_of. simpl. by rewrite lookup_insert_ne. Qed.

Lemma apart_stand g u v t : v ≠ u → apart v g (stand_state g u t).
Proof.
  intros Hne. split; try done.
  - unfold term_of. simpl. by rewrite lookup_insert_ne.
  - intros t' c. simpl. intros [[=]|?]%elem_of_cons; done.
Qed.

Lemma apart_vote g u v c : v ≠ u → apart v g (vote_state g u c).
Proof. intros Hne. split; try done. intros t' d. simpl. intros [[=]|?]%elem_of_cons; done. Qed.

Lemma apart_elect g u v t : v ≠ u → g.(elected) !! t = None → apart v g (elect_state g u t).
Proof.
  intros Hne Ht. split; try done; simpl.
  - intros t' [[_ ?]|[_ ?]]%lookup_insert_Some; done.
  - intros t' Hv. rewrite lookup_insert_ne; [done|congruence].
Qed.

Lemma apart_append g u v t e : v ≠ u → g.(elected) !! t = Some u → apart v g (append_state g u t e).
Proof.
  intros Hne Ht. split; try done; simpl.
  - unfold nlog. simpl. by rewrite lookup_insert_ne.
  - intros t' Hv. rewrite lookup_insert_ne; [done|congruence].
Qed.

Lemma apart_accept g u v L m : v ≠ u → apart v g (accept_state g u L m).
Proof. intros Hne. split; try done. unfold nlog. simpl. by rewrite lookup_insert_ne. Qed.

(** ** Commands *)

(** No log holds a command that [P] does not allow. *)
Record carries (P : C → Prop) g : Prop := {
  ca_nlog v e : e ∈ nlog g v → P e.(le_command);
  ca_clog x L e : g.(clogs) !! x = Some L → e ∈ L → P e.(le_command);
  ca_llog t L e : g.(llogs) !! t = Some L → e ∈ L → P e.(le_command);
}.

Lemma carries_mono (P P' : C → Prop) g : (∀ x, P x → P' x) → carries P g → carries P' g.
Proof. intros HP []. split; eauto. Qed.

Lemma spec0_carries P : carries P spec0.
Proof. split; simpl; [intros v e He; by apply elem_of_nil in He|done..]. Qed.

Lemma elem_of_adopt l L m e : e ∈ adopt l L m → e ∈ l ∨ e ∈ L.
Proof. unfold adopt. case_decide; [by left|]. intros He%elem_of_take. destruct He as (i & ? & _). right. by eapply list_elem_of_lookup_2. Qed.

Lemma step_carries (P : C → Prop) g g' : (∀ x, may x → P x) → spec_step g g' → carries P g → carries P g'.
Proof.
  intros HP Hs [Hn Hc Hl]. destruct Hs as [g t v _|g t c _|g v c _ _|g t c _ _ _ _|g t c e _ _ _ _ He|g v L m HL _];
    split; simpl; try done.
  - intros x L e [[_ <-]|[_ Hx]]%lookup_insert_Some; [by apply Hn|by eapply Hc].
  - intros x L e [[_ <-]|[_ Hx]]%lookup_insert_Some; [by apply Hn|by eapply Hl].
  - intros v e'. unfold nlog at 1. simpl. destruct (decide (v = c)) as [->|Hne].
    + rewrite lookup_insert_eq. simpl. intros [He'| ->%list_elem_of_singleton]%elem_of_app; [by eapply Hn|by apply HP].
    + rewrite lookup_insert_ne by done. apply Hn.
  - intros x L e' [[_ <-]|[_ Hx]]%lookup_insert_Some; [|by eapply Hl].
    intros [He'| ->%list_elem_of_singleton]%elem_of_app; [by eapply Hn|by apply HP].
  - intros u e. unfold nlog at 1. simpl. destruct (decide (u = v)) as [->|Hne].
    + rewrite lookup_insert_eq. simpl. intros [He|He]%elem_of_adopt; [by eapply Hn|by eapply Hl].
    + rewrite lookup_insert_ne by done. apply Hn.
Qed.

Lemma steps_carries (P : C → Prop) g g' : (∀ x, may x → P x) → steps g g' → carries P g → carries P g'.
Proof. intros HP Hs. induction Hs; eauto using step_carries. Qed.

Lemma committed_carries (P : C → Prop) g t p e : carries P g → committed g t p → e ∈ p → P e.(le_command).
Proof.
  intros [_ _ Hl] [->|(u & L & i & k & _ & _ & HL & _ & ->)] He; [by apply elem_of_nil in He|].
  apply elem_of_take in He as (j & He & _). eapply Hl; [exact HL|]. by eapply list_elem_of_lookup_2.
Qed.

End spec.

Arguments spec_step {C EqDecision0} quorum disc may _ _.

(** Fewer commands may be appended where more may. *)

Lemma spec_step_mono {C : Type} `{EqDecision C} quorum disc (may may' : C → Prop) g g' :
  (∀ x, may x → may' x) → spec_step quorum disc may g g' → spec_step quorum disc may' g g'.
Proof. intros Hm Hs. destruct Hs; econstructor; eauto. Qed.


Arguments Logs C : clear implicits.
Arguments Spec C : clear implicits.
