(* ===== verification/Raft.v ===== *)
(** * Raft: elections, log matching and commit propagation

    Models [src/distlab/raft.py]: [RaftCluster] and [RaftNode].  A node's
    durable dictionary is [RaftDurable], its volatile one [RaftVolatile] (a
    missing key reads as its default), the attributes of the cluster and of its
    nodes are [RaftObjects].  Commands are a type [C] with decidable equality.

    A leadership observer is a callback of the caller; the model keeps the list
    of registered observers and, in order, the events each has been called
    with.  [isinstance] checks hold by typing, and the checks that a callback
    gets its own simulator are not modelled.  [RaftRec] also has the records
    that the modules driving a leader write to the same trace. *)

From S2P Require Import Prelude Simulator Quorum LogIndex.

Section raft.
Context {C : Type} `{EqDecision C}.
Local Abbreviation Entry := (LogEntry C).
Local Abbreviation View := (RaftLogView C).

Inductive RaftRole := FOLLOWER | CANDIDATE | LEADER.

#[global] Instance RaftRole_eq_dec : EqDecision RaftRole.
Proof. solve_decision. Defined.

Inductive LeadershipLifecycleKind := ACQUIRED | RETIRED.

Record LeadershipLifecycleEvent := mkLifecycleEvent {
  lc_kind : LeadershipLifecycleKind;
  lc_generation : Z;
  lc_node_id : string;
  lc_term : Z;
  lc_reason : string;
}.

Record RequestVote := mkRequestVote {
  rv_term : Z;
  rv_candidate_id : string;
  rv_last_log_index : Z;
  rv_last_log_term : Z;
}.

Definition new_RequestVote t c li lt : exn + RequestVote :=
  if t <? 0 then err ValueError "term must be non-negative"
  else if li <? 0 then err ValueError "last_log_index must be non-negative"
  else if lt <? 0 then err ValueError "last_log_term must be non-negative"
  else inr (mkRequestVote t c li lt).

Record RequestVoteResponse := mkRequestVoteResponse {
  rvr_term : Z;
  rvr_voter_id : string;
  rvr_vote_granted : bool;
}.

Record PreVote := mkPreVote {
  pv_term : Z;
  pv_candidate_id : string;
  pv_last_log_index : Z;
  pv_last_log_term : Z;
}.

Definition new_PreVote t c li lt : exn + PreVote :=
  if t <=? 0 then err ValueError "pre-vote term must be positive"
  else if li <? 0 then err ValueError "last_log_index must be non-negative"
  else if lt <? 0 then err ValueError "last_log_term must be non-negative"
  else inr (mkPreVote t c li lt).

Record PreVoteResponse := mkPreVoteResponse {
  pvr_term : Z;
  pvr_voter_id : string;
  pvr_prospective_term : Z;
  pvr_vote_granted : bool;
}.

Definition new_PreVoteResponse t v p g : exn + PreVoteResponse :=
  if t <? 0 then err ValueError "term must be non-negative"
  else if p <=? 0 then err ValueError "prospective_term must be positive"
  else inr (mkPreVoteResponse t v p g).

Record AppendEntries := mkAppendEntries {
  ae_term : Z;
  ae_leader_id : string;
  ae_prev_log_index : Z;
  ae_prev_log_term : Z;
  ae_entries : list Entry;
  ae_leader_commit : Z;
}.

Definition new_AppendEntries t l pi pt es lc : exn + AppendEntries :=
  if t <? 0 then err ValueError "term must be non-negative"
  else if pi <? 0 then err ValueError "prev_log_index must be non-negative"
  else if pt <? 0 then err ValueError "prev_log_term must be non-negative"
  else if lc <? 0 then err ValueError "leader_commit must be non-negative"
  else if (pi =? 0) && negb (pt =? 0) then
    err ValueError "prev_log_term must be zero when prev_log_index is zero"
  else inr (mkAppendEntries t l pi pt es lc).

Record AppendEntriesResponse := mkAppendEntriesResponse {
  aer_term : Z;
  aer_follower_id : string;
  aer_success : bool;
  aer_match_index : Z;
}.

Definition new_AppendEntriesResponse t f s mi : exn + AppendEntriesResponse :=
  if t <? 0 then err ValueError "term must be non-negative"
  else if mi <? 0 then err ValueError "match_index must be non-negative"
  else inr (mkAppendEntriesResponse t f s mi).

Inductive RaftPayload :=
  | PElectionTimeout (generation : Z) (deadline : option Z)
  | PPreVote (m : PreVote)
  | PPreVoteResponse (m : PreVoteResponse)
  | PRequestVote (m : RequestVote)
  | PRequestVoteResponse (m : RequestVoteResponse)
  | PAppendEntries (m : AppendEntries)
  | PAppendEntriesResponse (m : AppendEntriesResponse)
  | PRaftOther (ty : string).

Definition raft_type_name (p : RaftPayload) : string :=
  match p with
  | PElectionTimeout _ _ => "_ElectionTimeout"
  | PPreVote _ => "PreVote"
  | PPreVoteResponse _ => "PreVoteResponse"
  | PRequestVote _ => "RequestVote"
  | PRequestVoteResponse _ => "RequestVoteResponse"
  | PAppendEntries _ => "AppendEntries"
  | PAppendEntriesResponse _ => "AppendEntriesResponse"
  | PRaftOther ty => ty
  end.

Inductive RaftRec :=
  | RLeaderAcquired (node : string) (term generation : Z) (reason : string)
  | RLeaderRetired (node : string) (term generation : Z) (reason : string)
  | RCommitIndex (node : string) (previous index : Z) (source : string)
  | RTimeoutReset (node : string) (generation deadline : Z) (reason : string)
  | RRaftRestart (node : string) (term : Z) (voted_for : option string)
      (base_index base_term last_index last_term : Z)
  | RPreVoteStart (node : string) (prospective current last_index last_term : Z)
  | RElectionStart (node : string) (term last_index last_term : Z)
  | RStepDown (node : string) (term : Z) (reason : string)
  | RRaftEnvelopeRejected (node s d ty : string) (claimed : option string) (reason : string)
  | RTimeoutStale (node : string) (generation current : Z)
  | RTimeoutRejected (node : string) (generation : Z) (deadline expected : option Z) (reason : string)
  | RTimeout (node : string) (generation : Z)
  | RPreVote (voter candidate : string) (prospective current : Z) (granted up_to_date : bool)
      (clast_index clast_term vlast_index vlast_term : Z)
  | RVote (voter candidate : string) (term : Z) (granted up_to_date : bool)
      (clast_index clast_term vlast_index vlast_term : Z)
  | RAppendEntries (follower leader : string) (term prev_index prev_term count leader_commit commit : Z)
      (success : bool) (match_index : Z)
  | RAppendResponse (leader follower : string) (term : Z) (success : bool) (match_index : Z)
  | RTermAdvance (node : string) (term : Z)
  | RPersistTermVote (node : string) (term : Z) (voted_for : option string)
  | RPersistLog (node : string) (base_index base_term : Z) (log : list Entry)
  | RLeader (node : string) (term : Z)
  (** of [commit_recovery.py] and [replication.py], which drive a leader *)
  | RCurrentTermBarrier (leader : string) (term index : Z)
  | RQuorumProbe (leader follower : string) (term prev_index leader_commit floor : Z)
  | RQuorumProbeMissing (leader follower : string) (term : Z)
  | RQuorumProbeAck (leader follower : string) (term : Z) (success : bool) (match_index : Z)
  | RReplicationProbe (leader follower : string) (term next_index prev_index count expected_match
      leader_commit attempt floor : Z)
  | RReplicationBacktrack (leader follower : string) (term previous_next next_index : Z)
  | RReplicationAdvance (leader follower : string) (term previous_match match_index next_index : Z)
      (source : string)
  | RPeerRecovered (leader follower : string) (term match_index commit : Z)
  | RCommitAdvance (leader : string) (term previous commit replicas majority : Z)
  (** of [leader_liveness.py] and [heartbeat.py], which watch a leader *)
  | RCheckQuorumAuthorityLost (leader : string) (monitor_term current_term : Z) (role : RaftRole) (reason : string)
  | RCheckQuorumWindow (leader : string) (term deadline voter_count : Z)
  | RCheckQuorumFailed (leader : string) (term : Z) (peers voters : list string) (majority : Z)
      (deadline : option Z)
  | RCheckQuorum (leader : string) (term : Z) (peers voters : list string) (majority : Z)
      (deadline : option Z)
  | RHeartbeatDelayed (leader : string) (term planned_time actual_time : Z)
  | RHeartbeatStart (leader : string) (term round scheduled_time response_timeout : Z)
  | RHeartbeatFailed (leader : string) (term round scheduled_time completed_time : Z) (reason : string)
  | RHeartbeatComplete (leader : string) (term round scheduled_time completed_time : Z) (voters : list string).

Record RaftDurable := mkRaftDurable {
  current_term : Z;
  voted_for : option string;
  log : list Entry;
  log_base_index : Z;
  log_base_term : Z;
}.

Definition raft_durable0 : RaftDurable := mkRaftDurable 0 None [] 0 0.

Definition set_term_vote t v (d : RaftDurable) : RaftDurable :=
  mkRaftDurable t v d.(log) d.(log_base_index) d.(log_base_term).
Definition set_log l (d : RaftDurable) : RaftDurable :=
  mkRaftDurable d.(current_term) d.(voted_for) l d.(log_base_index) d.(log_base_term).

Record RaftVolatile := mkRaftVolatile {
  role : RaftRole;
  votes_received : gset string;
  pre_vote_term : option Z;
  pre_votes_received : gset string;
  commit_index : Z;
}.

Definition raft_volatile0 : RaftVolatile := mkRaftVolatile FOLLOWER ∅ None ∅ 0.

Definition set_role r (v : RaftVolatile) : RaftVolatile :=
  mkRaftVolatile r v.(votes_received) v.(pre_vote_term) v.(pre_votes_received) v.(commit_index).
Definition set_votes vs (v : RaftVolatile) : RaftVolatile :=
  mkRaftVolatile v.(role) vs v.(pre_vote_term) v.(pre_votes_received) v.(commit_index).
Definition set_pre_vote t vs (v : RaftVolatile) : RaftVolatile :=
  mkRaftVolatile v.(role) v.(votes_received) t vs v.(commit_index).
Definition set_commit i (v : RaftVolatile) : RaftVolatile :=
  mkRaftVolatile v.(role) v.(votes_received) v.(pre_vote_term) v.(pre_votes_received) i.

(** [_election_timer_generation] and [_election_timer_deadline] *)
Record Timer := mkTimer { generation : Z; deadline : option Z }.

Record RaftObjects := mkRaftObjects {
  node_ids : list string;
  timeouts : gmap string Z;  (** [_election_timeout], when it is not [None] *)
  timers : gmap string Timer;
  leaders_by_term : gmap Z string;
  leadership_generation : Z;
  active_leader_generations : gmap string (Z * Z);
  observers : list string;
  observed : list (string * LeadershipLifecycleEvent);
}.

Definition set_timers x (o : RaftObjects) : RaftObjects :=
  mkRaftObjects o.(node_ids) o.(timeouts) x o.(leaders_by_term) o.(leadership_generation)
    o.(active_leader_generations) o.(observers) o.(observed).
Definition set_leaders x (o : RaftObjects) : RaftObjects :=
  mkRaftObjects o.(node_ids) o.(timeouts) o.(timers) x o.(leadership_generation)
    o.(active_leader_generations) o.(observers) o.(observed).
Definition set_generations g a (o : RaftObjects) : RaftObjects :=
  mkRaftObjects o.(node_ids) o.(timeouts) o.(timers) o.(leaders_by_term) g a
    o.(observers) o.(observed).
Definition set_observers obs calls (o : RaftObjects) : RaftObjects :=
  mkRaftObjects o.(node_ids) o.(timeouts) o.(timers) o.(leaders_by_term)
    o.(leadership_generation) o.(active_leader_generations) obs calls.

Definition RaftSig : Sig :=
  mkSig RaftPayload RaftRec string RaftDurable RaftVolatile RaftObjects raft_type_name
    (PRaftOther "NoneType") raft_durable0 raft_volatile0.

Abbreviation World := (World RaftSig).
Abbreviation M := (M World).
Implicit Types (w : World) (n : string).

Definition trace_rec (r : RaftRec) : M unit := record (Σ := RaftSig) (EvProto (Σ := RaftSig) r).
Definition net_send (s d : string) (p : RaftPayload) : M unit := send (Σ := RaftSig) s d p 1 None.
Definition upd_vol n (f : RaftVolatile → RaftVolatile) : M unit := set_volatile (Σ := RaftSig) n f.
Definition put n (f : RaftDurable → RaftDurable) : M unit := persist (Σ := RaftSig) n f.
Definition upd_obj (f : RaftObjects → RaftObjects) : M unit := upd_objs (Σ := RaftSig) f.

Definition dur w n : RaftDurable := durable (Σ := RaftSig) w n.
Definition vol w n : RaftVolatile := volatile (Σ := RaftSig) w n.
Definition timer w n : Timer := default (mkTimer 0 None) (w.(objs).(timers) !! n).
Definition peers w n : list string := filter (λ p, p ≠ n) w.(objs).(node_ids).
Definition member w n : bool := bool_decide (n ∈ w.(objs).(node_ids)).
Definition is_role w n (r : RaftRole) : bool := bool_decide ((vol w n).(role) = r).

(** [log_view]: the view validates itself when it is built. *)
Definition log_view n : M View :=
  let! d := gets (λ w, dur w n) in
  lift (new_RaftLogView d.(log_base_index) d.(log_base_term) d.(log)).

Definition validate_persistent_log n : M unit := log_view n ;; ret tt.

Definition last_log_index n : M Z := let! v := log_view n in ret (last_index v).
Definition last_log_term n : M Z := let! v := log_view n in ret (last_term v).

Definition has_majority (votes : Z) : M bool := gets (λ w, quorum_size w.(objs).(node_ids) <=? votes).

(** ** Leadership lifecycle *)

(** [for observer in tuple(observers): observer(event)] *)
Definition notify (event : LeadershipLifecycleEvent) : M unit :=
  let! obs := gets (λ w, w.(objs).(observers)) in
  for_each obs (λ o, upd_obj (λ os, set_observers os.(observers) (os.(observed) ++ [(o, event)]) os)).

Definition notify_leader_retired n (term : Z) (reason : string) : M bool :=
  let! existing := gets (λ w, w.(objs).(active_leader_generations) !! n) in
  match existing with
  | None => ret false
  | Some (t, g) =>
      if negb (t =? term) then ret false
      else
        upd_obj (λ o, set_generations o.(leadership_generation)
          (delete n o.(active_leader_generations)) o) ;;
        trace_rec (RLeaderRetired n term g reason) ;;
        notify (mkLifecycleEvent RETIRED g n term reason) ;;
        ret true
  end.

Definition notify_leader_acquired n (term : Z) (reason : string) : M Z :=
  let! existing := gets (λ w, w.(objs).(active_leader_generations) !! n) in
  let acquire :=
    upd_obj (λ o, set_generations (o.(leadership_generation) + 1)
      (<[n := (term, o.(leadership_generation) + 1)]> o.(active_leader_generations)) o) ;;
    let! g := gets (λ w, w.(objs).(leadership_generation)) in
    trace_rec (RLeaderAcquired n term g reason) ;;
    notify (mkLifecycleEvent ACQUIRED g n term reason) ;;
    ret g in
  match existing with
  | Some (t, g) =>
      if t =? term then ret g
      else notify_leader_retired n t "leader-generation-superseded" ;; acquire
  | None => acquire
  end.

(** Active leaders in the order of their generations. *)
Definition by_generation (x y : string * (Z * Z)) : Prop := x.2.2 ≤ y.2.2.
#[global] Instance by_generation_dec x y : Decision (by_generation x y).
Proof. unfold by_generation. apply _. Defined.

Definition register_leadership_observer (observer : string) (replay_active : bool) : M unit :=
  let! obs := gets (λ w, w.(objs).(observers)) in
  raise_if (bool_decide (observer ∈ obs)) ValueError "leadership observer already registered" ;;
  upd_obj (λ o, set_observers (o.(observers) ++ [observer]) o.(observed) o) ;;
  when replay_active
    (let! active := gets (λ w,
       merge_sort by_generation (map_to_list w.(objs).(active_leader_generations))) in
     for_each active (λ e, upd_obj (λ o, set_observers o.(observers)
       (o.(observed) ++ [(observer, mkLifecycleEvent ACQUIRED e.2.2 e.1 e.2.1 "observer-replay")]) o))).

Definition record_leader (term : Z) n : M unit :=
  let! existing := gets (λ w, w.(objs).(leaders_by_term) !! term) in
  raise_if match existing with Some e => negb (e =? n)%string | None => false end
    ElectionSafetyViolation "Election Safety violated" ;;
  upd_obj (λ o, set_leaders (<[term := n]> o.(leaders_by_term)) o).

(** ** Log matching *)

Definition check_pair (left right : string) : M unit :=
  let! l := log_view left in
  let! r := log_view right in
  let shared := Z.min (last_index l) (last_index r) in
  let overlap_start := Z.max l.(base_index) r.(base_index) in
  for_each (zrange overlap_start (shared + 1)) (λ index,
    let! lt := lift (term_at l index) in
    let! rt := lift (term_at r index) in
    when (lt =? rt)
      (for_each (zrange (Z.max (first_retained_index l) (first_retained_index r)) (index + 1))
        (λ prefix_index,
          let! le := lift (entry_at l prefix_index) in
          let! re := lift (entry_at r prefix_index) in
          raise_if (negb (bool_decide (le = re))) LogMatchingViolation "Log Matching violated"))).

(** [for i, left in enumerate(nodes): for right in nodes[i + 1:]] *)
Fixpoint pairs (l : list string) : list (string * string) :=
  match l with
  | [] => []
  | x :: l' => ((λ y, (x, y)) <$> l') ++ pairs l'
  end.

Definition assert_log_matching : M unit :=
  let! ids := gets (λ w, w.(objs).(node_ids)) in
  for_each (pairs ids) (λ p, check_pair p.1 p.2).
(** ** The node *)

Definition advance_commit_index n (index : Z) (source : string) : M Z :=
  raise_if (index <? 0) ValueError "commit index must be non-negative" ;;
  let! last := last_log_index n in
  raise_if (last <? index) ValueError "commit index cannot exceed the local log" ;;
  let! previous := gets (λ w, (vol w n).(commit_index)) in
  if index <=? previous then ret previous
  else
    upd_vol n (set_commit index) ;;
    trace_rec (RCommitIndex n previous index source) ;;
    ret index.

Definition reset_election_timeout n (reason : string) : M unit :=
  let! timeout := gets (λ w, w.(objs).(timeouts) !! n) in
  let! leads := gets (λ w, is_role w n LEADER) in
  match timeout with
  | None => ret tt
  | Some timeout =>
      if leads then ret tt
      else
        let! g := gets (λ w, (timer w n).(generation) + 1) in
        let! deadline := gets (λ w, w.(sim).(time) + timeout) in
        upd_obj (λ o, set_timers (<[n := mkTimer g (Some deadline)]> o.(timers)) o) ;;
        trace_rec (RTimeoutReset n g deadline reason) ;;
        schedule (Σ := RaftSig)
          (mkMessage (Σ := RaftSig) n n (PElectionTimeout g (Some deadline)) 0 None) timeout
  end.

(** [self._election_timer_generation += 1; self._election_timer_deadline = None] *)
Definition cancel_timer n : M unit :=
  let! g := gets (λ w, (timer w n).(generation)) in
  upd_obj (λ o, set_timers (<[n := mkTimer (g + 1) None]> o.(timers)) o).

Definition handle_crash n : M unit :=
  let! leads := gets (λ w, is_role w n LEADER) in
  when leads
    (let! d := gets (λ w, dur w n) in
     notify_leader_retired n d.(current_term) "node-crash" ;; ret tt).

(** [_reset_volatile_defaults] sets the missing keys to their defaults, which is
    what a missing key reads as. *)
Definition reset_volatile_defaults n : M unit := upd_vol n (λ v, v).

Definition handle_restart n : M unit :=
  let! active := gets (λ w, w.(objs).(active_leader_generations) !! n) in
  match active with
  | Some (t, _) => notify_leader_retired n t "node-restart" ;; ret tt
  | None => ret tt
  end ;;
  validate_persistent_log n ;;
  cancel_timer n ;;
  reset_volatile_defaults n ;;
  let! d := gets (λ w, dur w n) in
  let! li := last_log_index n in
  let! lt := last_log_term n in
  trace_rec (RRaftRestart n d.(current_term) d.(voted_for) d.(log_base_index) d.(log_base_term) li lt) ;;
  reset_election_timeout n "restart".

Definition clear_pre_vote n : M unit := upd_vol n (set_pre_vote None ∅).

Definition persist_term_and_vote n (term : Z) (vote : option string) : M unit :=
  put n (set_term_vote term vote) ;;
  trace_rec (RPersistTermVote n term vote).

Definition persist_log n (l : list Entry) : M unit :=
  put n (set_log l) ;;
  let! d := gets (λ w, dur w n) in
  trace_rec (RPersistLog n d.(log_base_index) d.(log_base_term) l).

Definition become_leader n (term : Z) : M unit :=
  let! d := gets (λ w, dur w n) in
  let! candidate := gets (λ w, is_role w n CANDIDATE) in
  if negb (term =? d.(current_term)) || negb candidate then ret tt
  else
    record_leader term n ;;
    upd_vol n (set_role LEADER) ;;
    clear_pre_vote n ;;
    cancel_timer n ;;
    trace_rec (RLeader n term) ;;
    notify_leader_acquired n term "election-won" ;;
    ret tt.

Definition send_to_peers n (p : RaftPayload) : M unit :=
  let! ps := gets (λ w, peers w n) in
  for_each ps (λ peer, net_send n peer p).

Definition start_election n : M unit :=
  let! up := gets (λ w, is_alive w n) in
  raise_if (negb up) RuntimeError "crashed node cannot start an election" ;;
  clear_pre_vote n ;;
  let! d := gets (λ w, dur w n) in
  let term := d.(current_term) + 1 in
  persist_term_and_vote n term (Some n) ;;
  upd_vol n (set_role CANDIDATE) ;;
  upd_vol n (set_votes {[n]}) ;;
  let! li := last_log_index n in
  let! lt := last_log_term n in
  trace_rec (RElectionStart n term li lt) ;;
  reset_election_timeout n "election-start" ;;
  let! majority := has_majority 1 in
  if majority then become_leader n term
  else
    let! request := lift (new_RequestVote term n li lt) in
    send_to_peers n (PRequestVote request).

Definition start_pre_vote n : M unit :=
  let! up := gets (λ w, is_alive w n) in
  raise_if (negb up) RuntimeError "crashed node cannot start a pre-vote" ;;
  let! leads := gets (λ w, is_role w n LEADER) in
  if leads then ret tt
  else
    let! d := gets (λ w, dur w n) in
    let prospective_term := d.(current_term) + 1 in
    upd_vol n (set_pre_vote (Some prospective_term) {[n]}) ;;
    let! li := last_log_index n in
    let! lt := last_log_term n in
    trace_rec (RPreVoteStart n prospective_term d.(current_term) li lt) ;;
    let! majority := has_majority 1 in
    if majority then clear_pre_vote n ;; start_election n
    else
      reset_election_timeout n "pre-vote-start" ;;
      let! request := lift (new_PreVote prospective_term n li lt) in
      send_to_peers n (PPreVote request).

Definition step_down n (reason : string) : M bool :=
  raise_if (reason =? "")%string ValueError "leader step-down reason must be non-empty" ;;
  let! up := gets (λ w, is_alive w n) in
  raise_if (negb up) RuntimeError "crashed node cannot step down" ;;
  let! leads := gets (λ w, is_role w n LEADER) in
  if negb leads then ret false
  else
    let! d := gets (λ w, dur w n) in
    upd_vol n (set_role FOLLOWER) ;;
    upd_vol n (set_votes ∅) ;;
    clear_pre_vote n ;;
    notify_leader_retired n d.(current_term) reason ;;
    trace_rec (RStepDown n d.(current_term) reason) ;;
    reset_election_timeout n reason ;;
    ret true.

Definition send_append_entries n (peer : string) (prev_log_index : option Z) (entries : list Entry)
    (leader_commit : option Z) : M unit :=
  let! up := gets (λ w, is_alive w n) in
  raise_if (negb up) RuntimeError "crashed node cannot send AppendEntries" ;;
  let! leads := gets (λ w, is_role w n LEADER) in
  raise_if (negb leads) RuntimeError "only the current leader role can send AppendEntries" ;;
  let! known := gets (λ w, bool_decide (peer ∈ peers w n)) in
  raise_if (negb known) ValueError "unknown peer" ;;
  let! last := last_log_index n in
  let prev := default last prev_log_index in
  let! d := gets (λ w, dur w n) in
  raise_if ((prev <? d.(log_base_index)) || (last <? prev)) ValueError
    "prev_log_index must reference the retained leader log" ;;
  let! commit := gets (λ w, default (vol w n).(commit_index) leader_commit) in
  raise_if ((commit <? 0) || (last <? commit)) ValueError
    "leader_commit must reference the leader log" ;;
  let! view := log_view n in
  let! prev_term := lift (term_at view prev) in
  let! request := lift (new_AppendEntries d.(current_term) n prev prev_term entries commit) in
  net_send n peer (PAppendEntries request).

(** ** Message handlers *)

Definition advance_term n (term : Z) (rearm_if_leader : bool) : M unit :=
  let! d := gets (λ w, dur w n) in
  if term <=? d.(current_term) then ret tt
  else
    let! was_leader := gets (λ w, is_role w n LEADER) in
    persist_term_and_vote n term None ;;
    upd_vol n (set_role FOLLOWER) ;;
    upd_vol n (set_votes ∅) ;;
    clear_pre_vote n ;;
    when was_leader (notify_leader_retired n d.(current_term) "higher-term-observed" ;; ret tt) ;;
    trace_rec (RTermAdvance n term) ;;
    when (rearm_if_leader && was_leader) (reset_election_timeout n "term-advance").

Definition up_to_date n (rindex rterm : Z) : M bool :=
  let! li := last_log_index n in
  let! lt := last_log_term n in
  ret (if negb (rterm =? lt) then lt <? rterm else li <=? rindex).

Definition handle_election_timeout n (g : Z) (dl : option Z) : M unit :=
  let! t := gets (λ w, timer w n) in
  let! now := gets (λ w, w.(sim).(time)) in
  if negb (g =? t.(generation)) then trace_rec (RTimeoutStale n g t.(generation))
  else if negb (bool_decide (dl = t.(deadline))) then
    trace_rec (RTimeoutRejected n g dl t.(deadline) "deadline-mismatch")
  else if match t.(deadline) with None => true | Some d => now <? d end then
    trace_rec (RTimeoutRejected n g dl t.(deadline) "early-delivery")
  else
    let! leads := gets (λ w, is_role w n LEADER) in
    if leads then ret tt
    else trace_rec (RTimeout n g) ;; start_pre_vote n.

Definition handle_pre_vote n (s : string) (m : PreVote) : M unit :=
  let! ok := up_to_date n m.(pv_last_log_index) m.(pv_last_log_term) in
  let! d := gets (λ w, dur w n) in
  let grant := (d.(current_term) + 1 <=? m.(pv_term)) && ok in
  let! li := last_log_index n in
  let! lt := last_log_term n in
  trace_rec (RPreVote n m.(pv_candidate_id) m.(pv_term) d.(current_term) grant ok
    m.(pv_last_log_index) m.(pv_last_log_term) li lt) ;;
  let! response := lift (new_PreVoteResponse d.(current_term) n m.(pv_term) grant) in
  net_send n s (PPreVoteResponse response).

Definition handle_pre_vote_response n (m : PreVoteResponse) : M unit :=
  let! d := gets (λ w, dur w n) in
  if d.(current_term) <? m.(pvr_term) then advance_term n m.(pvr_term) true
  else
    let! v := gets (λ w, vol w n) in
    if negb (bool_decide (v.(pre_vote_term) = Some m.(pvr_prospective_term)))
       || negb (m.(pvr_prospective_term) =? d.(current_term) + 1)
       || bool_decide (v.(role) = LEADER)
    then ret tt
    else if negb m.(pvr_vote_granted) then ret tt
    else
      let votes := {[m.(pvr_voter_id)]} ∪ v.(pre_votes_received) in
      upd_vol n (λ v, set_pre_vote v.(pre_vote_term) votes v) ;;
      let! majority := has_majority (Z.of_nat (size votes)) in
      when majority (clear_pre_vote n ;; start_election n).

(** The vote itself: granted unless the node voted for another candidate. *)
Definition vote_for n (m : RequestVote) : M bool :=
  let! d := gets (λ w, dur w n) in
  if match d.(voted_for) with None => true | Some c => (c =? m.(rv_candidate_id))%string end then
    persist_term_and_vote n m.(rv_term) (Some m.(rv_candidate_id)) ;;
    upd_vol n (set_role FOLLOWER) ;;
    clear_pre_vote n ;;
    reset_election_timeout n "vote-granted" ;;
    ret true
  else ret false.

Definition handle_request_vote n (s : string) (m : RequestVote) : M unit :=
  let! d := gets (λ w, dur w n) in
  let! leads := gets (λ w, is_role w n LEADER) in
  let retired_leader := leads && (d.(current_term) <? m.(rv_term)) in
  when (d.(current_term) <? m.(rv_term)) (advance_term n m.(rv_term) false) ;;
  let! ok := up_to_date n m.(rv_last_log_index) m.(rv_last_log_term) in
  let! d := gets (λ w, dur w n) in
  let! grant := if (m.(rv_term) =? d.(current_term)) && ok then vote_for n m else ret false in
  when (retired_leader && negb grant) (reset_election_timeout n "higher-term-vote-rejected") ;;
  let! li := last_log_index n in
  let! lt := last_log_term n in
  trace_rec (RVote n m.(rv_candidate_id) m.(rv_term) grant ok
    m.(rv_last_log_index) m.(rv_last_log_term) li lt) ;;
  let! d := gets (λ w, dur w n) in
  net_send n s (PRequestVoteResponse (mkRequestVoteResponse d.(current_term) n grant)).

Definition handle_request_vote_response n (m : RequestVoteResponse) : M unit :=
  let! d := gets (λ w, dur w n) in
  if d.(current_term) <? m.(rvr_term) then advance_term n m.(rvr_term) true
  else
    let! v := gets (λ w, vol w n) in
    if negb (m.(rvr_term) =? d.(current_term)) || negb (bool_decide (v.(role) = CANDIDATE))
    then ret tt
    else if negb m.(rvr_vote_granted) then ret tt
    else
      let votes := {[m.(rvr_voter_id)]} ∪ v.(votes_received) in
      upd_vol n (set_votes votes) ;;
      let! majority := has_majority (Z.of_nat (size votes)) in
      when majority (become_leader n m.(rvr_term)).

Definition merge_entries n (prev_log_index : Z) (entries : list Entry) : M unit :=
  if bool_decide (entries = []) then ret tt
  else
    let! view := log_view n in
    let! l := lift (merge_after view prev_log_index entries) in
    persist_log n l.

(** The body of [_handle_append_entries] for a request of the current term:
    whether it matched, and through which index. *)
Definition accept_entries n (m : AppendEntries) : M (bool * Z) :=
  let! view := log_view n in
  let! matches := lift (prefix_matches view m.(ae_prev_log_index) m.(ae_prev_log_term)) in
  if negb matches then ret (false, 0)
  else
    merge_entries n m.(ae_prev_log_index) m.(ae_entries) ;;
    let match_index := m.(ae_prev_log_index) + zlen m.(ae_entries) in
    let! commit := gets (λ w, (vol w n).(commit_index)) in
    when (commit <? m.(ae_leader_commit))
      (advance_commit_index n (Z.min m.(ae_leader_commit) match_index) m.(ae_leader_id) ;; ret tt) ;;
    assert_log_matching ;;
    ret (true, match_index).

Definition follow n (previous_term : Z) (was_leader : bool) (m : AppendEntries) : M unit :=
  upd_vol n (set_role FOLLOWER) ;;
  upd_vol n (set_votes ∅) ;;
  clear_pre_vote n ;;
  when (was_leader && (m.(ae_term) =? previous_term))
    (notify_leader_retired n previous_term "append-entries" ;; ret tt) ;;
  reset_election_timeout n "append-entries".

Definition handle_append_entries n (s : string) (m : AppendEntries) : M unit :=
  let! d := gets (λ w, dur w n) in
  let previous_term := d.(current_term) in
  let! was_leader := gets (λ w, is_role w n LEADER) in
  when (previous_term <? m.(ae_term)) (advance_term n m.(ae_term) false) ;;
  let! d := gets (λ w, dur w n) in
  let! r :=
    if m.(ae_term) =? d.(current_term) then
      follow n previous_term was_leader m ;; accept_entries n m
    else ret (false, 0) in
  let! d := gets (λ w, dur w n) in
  let! commit := gets (λ w, (vol w n).(commit_index)) in
  trace_rec (RAppendEntries n m.(ae_leader_id) m.(ae_term) m.(ae_prev_log_index) m.(ae_prev_log_term)
    (zlen m.(ae_entries)) m.(ae_leader_commit) commit r.1 r.2) ;;
  let! response := lift (new_AppendEntriesResponse d.(current_term) n r.1 r.2) in
  net_send n s (PAppendEntriesResponse response).

Definition handle_append_entries_response n (m : AppendEntriesResponse) : M unit :=
  let! d := gets (λ w, dur w n) in
  if d.(current_term) <? m.(aer_term) then advance_term n m.(aer_term) true
  else trace_rec (RAppendResponse n m.(aer_follower_id) m.(aer_term) m.(aer_success) m.(aer_match_index)).

(** The principal a payload claims to come from. *)
Definition claimed_src n (p : RaftPayload) : option string :=
  match p with
  | PElectionTimeout _ _ => Some n
  | PPreVote m => Some m.(pv_candidate_id)
  | PPreVoteResponse m => Some m.(pvr_voter_id)
  | PRequestVote m => Some m.(rv_candidate_id)
  | PRequestVoteResponse m => Some m.(rvr_voter_id)
  | PAppendEntries m => Some m.(ae_leader_id)
  | PAppendEntriesResponse m => Some m.(aer_follower_id)
  | PRaftOther _ => None
  end.

(** The reason to reject an envelope, with the claimed source. *)
Definition envelope_reason w n (m : Message RaftSig) : option (string * option string) :=
  if negb (m.(dst) =? n)%string then Some ("destination-identity-mismatch", None)
  else
    let claimed := claimed_src n m.(payload) in
    if match claimed with Some c => negb (member w c) | None => false end
    then Some ("unknown-source-principal", claimed)
    else if negb (member w m.(dst)) then Some ("unknown-destination-principal", claimed)
    else if match claimed with Some c => negb (m.(src) =? c)%string | None => false end
    then Some ("source-identity-mismatch", claimed)
    else None.

Definition dispatch n (m : Message RaftSig) : M unit :=
  match m.(payload) with
  | PElectionTimeout g d => handle_election_timeout n g d
  | PPreVote p => handle_pre_vote n m.(src) p
  | PPreVoteResponse p => handle_pre_vote_response n p
  | PRequestVote p => handle_request_vote n m.(src) p
  | PRequestVoteResponse p => handle_request_vote_response n p
  | PAppendEntries p => handle_append_entries n m.(src) p
  | PAppendEntriesResponse p => handle_append_entries_response n p
  | PRaftOther _ => raise TypeError "unsupported Raft message"
  end.

Definition handle_message n (m : Message RaftSig) : M unit :=
  reset_volatile_defaults n ;;
  let! reason := gets (λ w, envelope_reason w n m) in
  match reason with
  | Some (r, claimed) =>
      trace_rec (RRaftEnvelopeRejected n m.(src) m.(dst) (raft_type_name m.(payload)) claimed r)
  | None => dispatch n m
  end.

(** ** The cluster *)

(** [RaftCluster.__init__]; [ts] is [election_timeouts], a mapping. *)
Definition init_cluster (ids : list string) (ts : option (gmap string Z)) : M unit :=
  raise_if (bool_decide (ids = [])) ValueError "Raft cluster requires at least one node" ;;
  raise_if (negb (bool_decide (NoDup ids))) ValueError "Raft node ids must be unique" ;;
  match ts with
  | None => ret tt
  | Some m =>
      raise_if (negb (bool_decide (dom m = list_to_set ids))) ValueError
        "election_timeouts must specify every Raft node exactly once" ;;
      raise_if (existsb (λ e, e.2 <=? 0) (map_to_list m)) ValueError
        "election timeouts must be positive"
  end ;;
  upd_obj (λ _, mkRaftObjects ids (default ∅ ts) ∅ ∅ 0 ∅ [] []) ;;
  for_each ids (λ n, validate_persistent_log n ;; reset_volatile_defaults n) ;;
  for_each ids (λ n, register (Σ := RaftSig) n n (Some n) (Some n)) ;;
  for_each ids (λ n, reset_election_timeout n "initial").

(** A fresh simulator over the durable state [disks]. *)
Definition boot_world (plan : FaultPlan) (disks : gmap string RaftDurable) : World :=
  mkWorld (Σ := RaftSig) (set_persistent_state (Σ := RaftSig) disks (new_Simulator plan))
    (mkRaftObjects [] ∅ ∅ ∅ 0 ∅ [] []).

Definition raft_run (fuel : nat) (k : option Z) : M Z := run (Σ := RaftSig) handle_message fuel k.
Definition raft_run_until (fuel : nat) (t : Z) : M Z :=
  run_until_time (Σ := RaftSig) handle_message fuel t.
Definition raft_crash n : M unit := crash (Σ := RaftSig) handle_crash n.
Definition raft_restart n : M unit := restart (Σ := RaftSig) handle_restart n.

(** [cluster.node(node_id)] *)
Definition node n : M string :=
  let! known := gets (λ w, member w n) in
  if known then ret n else raise KeyError "nodes".

Inductive raft_op :=
  | OpStartElection n
  | OpStartPreVote n
  | OpStepDown n (reason : string)
  | OpSendAppendEntries n (peer : string) (prev : option Z) (entries : list Entry) (commit : option Z)
  | OpAdvanceCommit n (index : Z) (source : string)
  | OpResetTimeout n (reason : string)
  | OpRegisterObserver (observer : string) (replay_active : bool)
  | OpRun (fuel : nat) (max_events : option Z)
  | OpRunUntil (fuel : nat) (deadline : Z)
  | OpCrash n
  | OpRestart n
  | OpPartition (left right : list string)
  | OpHealPartition (left right : list string)
  | OpBlockLink (s d : string)
  | OpHealLink (s d : string)
  | OpSetLinkDelay (s d : string) (extra_delay : Z)
  | OpClearLinkDelay (s d : string)
  | OpAssertLogMatching.

Definition exec_op (o : raft_op) : M unit :=
  match o with
  | OpStartElection n => let! n := node n in start_election n
  | OpStartPreVote n => let! n := node n in start_pre_vote n
  | OpStepDown n reason => let! n := node n in step_down n reason ;; ret tt
  | OpSendAppendEntries n peer prev es c => let! n := node n in send_append_entries n peer prev es c
  | OpAdvanceCommit n i source => let! n := node n in advance_commit_index n i source ;; ret tt
  | OpResetTimeout n reason => let! n := node n in reset_election_timeout n reason
  | OpRegisterObserver o replay => register_leadership_observer o replay
  | OpRun fuel k => raft_run fuel k ;; ret tt
  | OpRunUntil fuel t => raft_run_until fuel t ;; ret tt
  | OpCrash n => raft_crash n
  | OpRestart n => raft_restart n
  | OpPartition l r => partition l r
  | OpHealPartition l r => heal_partition l r
  | OpBlockLink s d => block_link s d
  | OpHealLink s d => heal_link s d
  | OpSetLinkDelay s d x => set_link_delay s d x
  | OpClearLinkDelay s d => clear_link_delay s d
  | OpAssertLogMatching => assert_log_matching
  end.

(** The entries of a request were built by [LogEntry]'s constructor. *)
Definition op_wf (o : raft_op) : Prop :=
  match o with
  | OpSendAppendEntries _ _ _ es _ => Forall (λ e, new_LogEntry e.(le_term) e.(le_command) = inr e) es
  | _ => True
  end.

(** Worlds reached from a fresh cluster by any calls, including a restart of
    the whole cluster over its disks. *)
Inductive reachable (ids : list string) (ts : option (gmap string Z)) : World → Prop :=
  | reach_init plan w : init_cluster ids ts (boot_world plan ∅) = (w, inr tt) → reachable ids ts w
  | reach_op w o w' r :
      reachable ids ts w → op_wf o → exec_op o w = (w', r) → reachable ids ts w'
  | reach_reboot w plan w' :
      reachable ids ts w →
      init_cluster ids ts (boot_world plan w.(sim).(persistent_state)) = (w', inr tt) →
      reachable ids ts w'.
End raft.
