(* ===== verification/RaftMono.v ===== *)
(** * RaftMono: what only moves forward in a Raft cluster

    Every call of [raft.py] takes a cluster to a [later] one: terms do not go
    back; within a term a node is a candidate, then a leader, then a follower
    for good; its commit index grows unless it is a follower in the end; a
    request that is accepted from then on carries at least the term its receiver
    had before; and a response that is delivered was sent.  The facts hold call by call, for any messages and any caller. *)

From S2P Require Import Prelude Simulator SimFacts Quorum LogIndex Raft.

Section later.
Context {C : Type} `{EqDecision C}.
Local Abbreviation W := (World (RaftSig (C := C))).
Implicit Types (w : W) (n f : string).

Definition term_at_node w n : Z := (dur w n).(current_term).

(** The way of a node through a term *)
Definition rank (r : RaftRole) : Z :=
  match r with CANDIDATE => 0 | LEADER => 1 | FOLLOWER => 2 end.

Definition tenure (t : Z) (v : RaftVolatile) (t' : Z) (v' : RaftVolatile) : Prop :=
  t < t' ∨ (t = t' ∧ rank v.(role) ≤ rank v'.(role)
    ∧ (v'.(role) = FOLLOWER ∨ v.(commit_index) ≤ v'.(commit_index))).

(** A request the follower accepted, in its term *)
Definition accepted_request (e : Event (RaftSig (C := C))) : option (string * Z) :=
  match e with
  | EvProto (RAppendEntries f _ t _ _ _ _ _ true _) => Some (f, t)
  | _ => None
  end.

(** [s] has sent [d] the response [m] as the [o]th message of that link. *)
Definition sent_in (tr : list (TraceRecord (RaftSig (C := C)))) (s d : string) (o : Z) (m : AppendEntriesResponse) : Prop :=
  ∃ x action, x ∈ tr ∧ x.(tr_event) = EvSend (Σ := RaftSig) s d o (PAppendEntriesResponse m) action.

(** Every response in flight or delivered was sent before. *)
Definition traced_in (q : list (ScheduledDelivery (RaftSig (C := C)))) (tr : list (TraceRecord (RaftSig (C := C)))) : Prop :=
  (∀ x m, x ∈ q → x.(sd_message).(payload) = PAppendEntriesResponse m →
     sent_in tr x.(sd_message).(src) x.(sd_message).(dst) x.(sd_message).(ordinal) m)
  ∧ ∀ i s d o m, tr_event <$> tr !! i = Some (EvDeliver (Σ := RaftSig) s d o (PAppendEntriesResponse m)) →
     sent_in (take i tr) s d o m.

Definition traced w : Prop := traced_in w.(sim).(queue) w.(sim).(trace).

Lemma sent_in_app tr new s d o m : sent_in tr s d o m → sent_in (tr ++ new) s d o m.
Proof. intros (x & a & Hx & Ex). exists x, a. split; [apply elem_of_app; by left|done]. Qed.

(** A response a record says was delivered was sent. *)
Definition origin tr (e : Event (RaftSig (C := C))) : Prop :=
  match e with EvDeliver s d o (PAppendEntriesResponse m) => sent_in tr s d o m | _ => True end.

Definition delivery (e : Event (RaftSig (C := C))) : bool := match e with EvDeliver _ _ _ _ => true | _ => false end.

Lemma traced_record q tr t e : origin tr e → traced_in q tr → traced_in q (tr ++ [mkTraceRecord t e]).
Proof.
  intros He [Hq Hd]. split; [intros x m Hx Hm; by apply sent_in_app, Hq|].
  intros i s d o m (x & Hx & Ex)%fmap_Some. apply lookup_app_Some in Hx as [Hx|[Hi Hx]].
  - rewrite take_app_le by (apply lookup_lt_Some in Hx; lia). apply Hd. by rewrite Hx, Ex.
  - apply list_lookup_singleton_Some in Hx as [Hi' <-]. simpl in Ex. subst e.
    rewrite take_app_ge by lia. replace (i - length tr)%nat with O by lia. by rewrite app_nil_r.
Qed.

Record later w w' : Prop := {
  la_tenure n : tenure (term_at_node w n) (vol w n) (term_at_node w' n) (vol w' n);
  la_records : ∃ new, w'.(sim).(trace) = w.(sim).(trace) ++ new
    ∧ ∀ x f t, x ∈ new → accepted_request x.(tr_event) = Some (f, t) → term_at_node w f ≤ t;
  la_traced : traced w → traced w';
}.

Lemma tenure_refl t v : tenure t v t v.
Proof. right. split_and!; [done|done|by right]. Qed.

Lemma tenure_trans t v t1 v1 t' v' : tenure t v t1 v1 → tenure t1 v1 t' v' → tenure t v t' v'.
Proof.
  intros [?|(-> & Hr & Hc)] [?|(-> & Hr' & Hc')]; [left; lia..|]. right. split_and!; [done|lia|].
  destruct Hc' as [?|Hc']; [by left|]. destruct Hc as [E|Hc]; [left|right; lia].
  rewrite E in Hr'. by destruct (role v').
Qed.

Lemma tenure_term t v t' v' : tenure t v t' v' → t ≤ t'.
Proof. intros [?|[-> _]]; lia. Qed.

Lemma later_term w w' n : later w w' → term_at_node w n ≤ term_at_node w' n.
Proof. intros Hl. eapply tenure_term, Hl. Qed.

Lemma later_refl w : later w w.
Proof. split; [intros n; apply tenure_refl| |done]. exists []. rewrite app_nil_r. split; [done|]. by intros ? ? ? ?%elem_of_nil. Qed.

Lemma later_trans w w1 w' : later w w1 → later w1 w' → later w w'.
Proof.
  intros H1 H2. split; [intros n; eapply tenure_trans; [apply H1|apply H2]| |intros Ht; apply H2, H1, Ht].
  destruct (la_records _ _ H1) as (l1 & E1 & Hl1), (la_records _ _ H2) as (l2 & E2 & Hl2).
  exists (l1 ++ l2). rewrite E2, E1, app_assoc. split; [done|]. intros x f t [Hx|Hx]%elem_of_app Ha; [by eapply Hl1|].
  pose proof (later_term _ _ f H1). pose proof (Hl2 _ _ _ Hx Ha). lia.
Qed.

(** A leader that still leads its term has not lost what it committed. *)
Lemma later_leader w w' n :
  later w w' → (vol w n).(role) = LEADER → (vol w' n).(role) = LEADER → term_at_node w n = term_at_node w' n →
  (vol w n).(commit_index) ≤ (vol w' n).(commit_index).
Proof. intros Hl Hr Hr' Ht. destruct (la_tenure _ _ Hl n) as [?|(_ & _ & [?|?])]; [lia|congruence|done]. Qed.

(** Who leads a term at two moments led it in between. *)
Lemma later_between w w1 w' n :
  later w w1 → later w1 w' → (vol w n).(role) = LEADER → (vol w' n).(role) = LEADER →
  term_at_node w n = term_at_node w' n → (vol w1 n).(role) = LEADER ∧ term_at_node w1 n = term_at_node w n.
Proof.
  intros H1 H2 Hr Hr' Ht. destruct (la_tenure _ _ H1 n) as [?|(E & Hk & _)], (la_tenure _ _ H2 n) as [?|(E' & Hk' & _)];
    try lia. rewrite Hr in Hk. rewrite Hr' in Hk'. destruct (role (vol w1 n)); simpl in *; try lia. done.
Qed.

(** What a node committed while it led [t] it keeps for the rest of the term,
    unless it gives up the lead. *)
Definition tracks w n (t c : Z) : Prop :=
  t < term_at_node w n ∨ (t = term_at_node w n
    ∧ ((vol w n).(role) = FOLLOWER ∨ ((vol w n).(role) = LEADER ∧ c ≤ (vol w n).(commit_index)))).

Lemma tracks_later w w' n t c : later w w' → tracks w n t c → tracks w' n t c.
Proof.
  intros Hl [Ht|[-> Hr]]; [left; pose proof (later_term _ _ n Hl); lia|].
  destruct (la_tenure _ _ Hl n) as [?|(E & Hk & Hc)]; [by left|]. right. split; [done|].
  destruct Hr as [Hr|[Hr Hcc]]; rewrite Hr in Hk.
  - left. destruct (role (vol w' n)); simpl in *; done || lia.
  - destruct Hc as [?|?]; [by left|]. destruct (role (vol w' n)) eqn:E'; simpl in *; [by left|lia|right; split; [done|lia]].
Qed.

(** ** Computations that move forward *)

Definition moves {A} (m : M W A) : Prop := ∀ w, later w (m w).1.

(** From a world with a property, *)
Definition late (P : W → Prop) {A} (m : M W A) : Prop := ∀ w0 w, P w0 → later w0 w → later w0 (m w).1.

(** And after the term of [n] has moved on. *)
Definition renews n {A} (m : M W A) : Prop := ∀ w0 w, later w0 w → term_at_node w0 n < term_at_node w n →
  later w0 (m w).1 ∧ term_at_node w0 n < term_at_node (m w).1 n.

Lemma moves_late P {A} (m : M W A) : moves m → late P m.
Proof. intros Hm w0 w _ Hl. eapply later_trans; [exact Hl|apply Hm]. Qed.

Lemma moves_renews n {A} (m : M W A) : moves m → renews n m.
Proof.
  intros Hm w0 w Hl Ht. split; [eapply later_trans; [exact Hl|apply Hm]|].
  pose proof (later_term _ _ n (Hm w)). lia.
Qed.

Lemma late_moves {A} (m : M W A) : late (λ _, True) m → moves m.
Proof. intros Hm w. apply Hm; [done|apply later_refl]. Qed.

Lemma moves_bind {A B} (m : M W A) (k : A → M W B) : moves m → (∀ a, moves (k a)) → moves (bind m k).
Proof.
  intros Hm Hk w. unfold bind. specialize (Hm w). destruct (m w) as [w1 [e|a]]; [done|].
  eapply later_trans; [exact Hm|apply Hk].
Qed.

Lemma late_bind P {A B} (m : M W A) (k : A → M W B) : late P m → (∀ a, late P (k a)) → late P (bind m k).
Proof.
  intros Hm Hk w0 w HP Hl. unfold bind. specialize (Hm w0 w HP Hl). destruct (m w) as [w1 [e|a]]; [done|by apply Hk].
Qed.

Lemma renews_bind n {A B} (m : M W A) (k : A → M W B) : renews n m → (∀ a, renews n (k a)) → renews n (bind m k).
Proof.
  intros Hm Hk w0 w Hl Ht. unfold bind. specialize (Hm w0 w Hl Ht). destruct (m w) as [w1 [e|a]]; [done|].
  destruct Hm. by apply (Hk a w0 w1).
Qed.

Lemma moves_gets_bind {A B} (f : W → A) (k : A → M W B) : (∀ w, later w (k (f w) w).1) → moves (bind (gets f) k).
Proof. intros Hk w. apply Hk. Qed.

Lemma later_bind {A B} (m : M W A) (k : A → M W B) w : later w (m w).1 → (∀ a, moves (k a)) → later w (bind m k w).1.
Proof.
  intros Hm Hk. unfold bind. destruct (m w) as [w1 [e|a]]; [done|]. eapply later_trans; [exact Hm|apply Hk].
Qed.

Lemma moves_ret {A} (a : A) : moves (ret a). Proof. intros w. apply later_refl. Qed.
Lemma moves_gets {A} (f : W → A) : moves (gets f). Proof. intros w. apply later_refl. Qed.
Lemma moves_raise {A} c msg : moves (raise (A := A) c msg). Proof. intros w. apply later_refl. Qed.
Lemma moves_raise_if b c msg : moves (raise_if b c msg). Proof. intros w. destruct b; apply later_refl. Qed.
Lemma moves_lift {A} (r : exn + A) : moves (lift r). Proof. intros w. apply later_refl. Qed.
Lemma moves_when b (m : M W unit) : moves m → moves (when b m).
Proof. intros Hm. destruct b; [exact Hm|apply moves_ret]. Qed.
Lemma moves_for_each {A} (l : list A) (f : A → M W unit) : (∀ a, moves (f a)) → moves (for_each l f).
Proof. intros Hf. induction l as [|a l IH]; [apply moves_ret|]. apply moves_bind; [apply Hf|intros _; exact IH]. Qed.

(** The simulator's own state *)
Lemma moves_upd_sim (f : Sim (RaftSig (C := C)) → Sim (RaftSig (C := C))) :
  (∀ s, (f s).(persistent_state) = s.(persistent_state) ∧ (f s).(volatile_state) = s.(volatile_state)
     ∧ (f s).(trace) = s.(trace) ∧ (f s).(queue) = s.(queue)) → moves (upd_sim f).
Proof.
  intros Hf w. destruct (Hf w.(sim)) as (Hp & Hv & Ht & Hq). split; [| |unfold traced; simpl; by rewrite Ht, Hq].
  - intros n. unfold term_at_node, dur, vol, durable, volatile, upd_sim, modify. simpl. rewrite Hp, Hv. apply tenure_refl.
  - exists []. simpl. rewrite app_nil_r. split; [done|]. by intros ? ? ? ?%elem_of_nil.
Qed.

Lemma later_record w0 w e :
  later w0 w → (∀ f t, accepted_request e = Some (f, t) → term_at_node w0 f ≤ t) →
  (traced w0 → origin w.(sim).(trace) e) → later w0 (record (Σ := RaftSig) e w).1.
Proof.
  intros [Ht (new & E & Hn) Htr] He Ho. split; [exact Ht| |intros Hw0; apply traced_record; [by apply Ho|by apply Htr]].
  exists (new ++ [mkTraceRecord w.(sim).(time) e]).
  simpl. rewrite E, app_assoc. split; [done|]. intros x f t [Hx|Hx]%elem_of_app Ha; [by eapply Hn|].
  apply list_elem_of_singleton in Hx as ->. by apply He.
Qed.

Lemma moves_record e : accepted_request e = None → delivery e = false → moves (record (Σ := RaftSig) e).
Proof.
  intros He Hd w. apply later_record; [apply later_refl|intros f t; by rewrite He|]. intros _. by destruct e.
Qed.

Lemma moves_upd_obj (g : RaftObjects → RaftObjects) : moves (upd_obj g).
Proof. intros w. destruct (later_refl w) as [Ht Hr Htr]. by split. Qed.

Lemma vol_upd n (g : RaftVolatile → RaftVolatile) w n' :
  vol (upd_vol n g w).1 n' = if decide (n' = n) then g (vol w n) else vol w n'.
Proof.
  unfold vol, upd_vol, set_volatile, modify, volatile. simpl.
  case_decide; [subst; by rewrite lookup_insert_eq|by rewrite lookup_insert_ne].
Qed.

Lemma dur_put n (g : RaftDurable → RaftDurable) w n' :
  dur (put n g w).1 n' = if decide (n' = n) then g (dur w n) else dur w n'.
Proof.
  unfold dur, put, persist, modify, durable. simpl.
  case_decide; [subst; by rewrite lookup_insert_eq|by rewrite lookup_insert_ne].
Qed.

Lemma later_upd_vol n g w :
  tenure (term_at_node w n) (vol w n) (term_at_node w n) (g (vol w n)) → later w (upd_vol n g w).1.
Proof.
  intros Hg. split; [| |done].
  - intros m. rewrite vol_upd. change (term_at_node (upd_vol n g w).1 m) with (term_at_node w m).
    case_decide; [by subst|apply tenure_refl].
  - exists []. rewrite app_nil_r. split; [done|]. by intros ? ? ? ?%elem_of_nil.
Qed.

Lemma later_put n g w :
  (dur w n).(current_term) ≤ (g (dur w n)).(current_term) → later w (put n g w).1.
Proof.
  intros Hg. split; [| |done].
  - intros m. unfold term_at_node. rewrite dur_put. change (vol (put n g w).1 m) with (vol w m).
    case_decide; [subst|apply tenure_refl].
    destruct (Z.eq_dec (current_term (dur w n)) (current_term (g (dur w n)))) as [<-|Hne]; [apply tenure_refl|].
    left. lia.
  - exists []. rewrite app_nil_r. split; [done|]. by intros ? ? ? ?%elem_of_nil.
Qed.

Lemma moves_upd_vol n g :
  (∀ v, rank v.(role) ≤ rank (g v).(role) ∧ ((g v).(role) = FOLLOWER ∨ v.(commit_index) ≤ (g v).(commit_index))) →
  moves (upd_vol n g).
Proof. intros Hg w. apply later_upd_vol. right. split; [done|apply Hg]. Qed.

Lemma moves_put n g : (∀ d, d.(current_term) ≤ (g d).(current_term)) → moves (put n g).
Proof. intros Hg w. apply later_put, Hg. Qed.

(** In a new term a node may be anything. *)
Lemma renews_upd_vol n g : renews n (upd_vol n g).
Proof.
  intros w0 w Hl Ht. split; [|exact Ht]. split; [|exact (la_records _ _ Hl)|exact (la_traced _ _ Hl)].
  intros m. rewrite vol_upd. change (term_at_node (upd_vol n g w).1 m) with (term_at_node w m).
  case_decide; [subst; by left|apply Hl].
Qed.
End later.

#[export] Hint Resolve moves_ret moves_gets moves_raise moves_raise_if moves_lift moves_when moves_for_each
  moves_upd_obj moves_record renews_upd_vol : distlab.
#[export] Hint Extern 1 (accepted_request _ = None) => reflexivity : distlab.
#[export] Hint Extern 1 (delivery _ = false) => reflexivity : distlab.
#[export] Hint Extern 2 (moves (upd_sim _)) => apply moves_upd_sim; intros; split_and!; reflexivity : distlab.
#[export] Hint Extern 3 (moves (bind _ _)) => apply moves_bind; [|intros] : distlab.
#[export] Hint Extern 5 (moves (if ?b then _ else _)) => destruct b : distlab.
#[export] Hint Extern 5 (moves (match ?b with _ => _ end)) => destruct b : distlab.
#[export] Hint Extern 3 (renews _ (bind _ _)) => apply renews_bind; [|intros] : distlab.
#[export] Hint Extern 5 (renews _ (if ?b then _ else _)) => destruct b : distlab.
#[export] Hint Extern 8 (renews _ _) => apply moves_renews; solve [auto 20 with distlab] : distlab.

Section methods.
Context {C : Type} `{EqDecision C}.
Local Abbreviation W := (World (RaftSig (C := C))).
Implicit Types (w : W) (n : string).

Lemma moves_trace_rec (r : RaftRec (C := C)) : accepted_request (EvProto (Σ := RaftSig) r) = None → moves (trace_rec r).
Proof. intros Hr. by apply moves_record. Qed.
#[local] Hint Resolve moves_trace_rec : distlab.

(** A message put on its way: a response must have been sent. *)
Definition sent w (m : Message (RaftSig (C := C))) : Prop := ∀ r, m.(payload) = PAppendEntriesResponse r →
  sent_in w.(sim).(trace) m.(src) m.(dst) m.(ordinal) r.

Lemma sent_later w w' m : later w w' → sent w m → sent w' m.
Proof.
  intros Hl Hm r Hr. destruct (la_records _ _ Hl) as (new & E & _). rewrite E. by apply sent_in_app, Hm.
Qed.

Lemma later_schedule w (m : Message (RaftSig (C := C))) delay : sent w m → later w (schedule m delay w).1.
Proof.
  intros Hm. set (n := w.(sim).(sequence) + 1). set (t := w.(sim).(time) + delay).
  set (w1 := mkWorld (set_queue (heappush (mkDelivery t n m) w.(sim).(queue)) (set_sequence n w.(sim))) w.(objs) : W).
  change (later w (record (Σ := RaftSig) (EvSchedule m.(src) m.(dst) m.(ordinal) m.(payload) t n) w1).1).
  apply later_record; [|done|done]. destruct (later_refl w) as [Ht Hr _].
  split; [exact Ht|exact Hr|]. intros [Hq Hd]. split; [|exact Hd].
  intros x r. simpl. rewrite heappush_perm, elem_of_cons. intros [->|Hx]; [|by apply Hq]. by apply Hm.
Qed.

Lemma moves_schedule (m : Message (RaftSig (C := C))) delay :
  (∀ r, m.(payload) ≠ PAppendEntriesResponse r) → moves (schedule m delay).
Proof. intros Hm w. apply later_schedule. intros r Hr. by destruct (Hm r). Qed.
#[local] Hint Extern 2 (moves (schedule _ _)) => apply moves_schedule; intros; discriminate : distlab.

(** Copies of a message that has been sent *)
Lemma later_copies w (m : Message (RaftSig (C := C))) delay b more e :
  sent w m → accepted_request e = None → delivery e = false →
  later w ((schedule m delay ;; when b (schedule m more ;; record e)) w).1.
Proof.
  intros Hm He Hd. pose proof (later_schedule w m delay Hm) as Hl. unfold bind at 1.
  destruct (schedule m delay w) as [w1 [?|[]]]; [done|]. eapply later_trans; [exact Hl|].
  destruct b; [|apply later_refl]. pose proof (later_schedule w1 m more (sent_later _ _ _ Hl Hm)) as Hl1.
  change (later w1 ((schedule m more ;; record e) w1).1). unfold bind at 1. destruct (schedule m more w1) as [w2 [?|[]]]; [done|].
  eapply later_trans; [exact Hl1|]. by apply moves_record.
Qed.

Lemma moves_send s d p delay e : moves (send (Σ := RaftSig (C := C)) s d p delay e).
Proof.
  unfold send. cbv zeta. do 4 (apply moves_bind; [auto with distlab|intros ?]). apply moves_bind; [auto with distlab|intros st].
  case_bool_decide; [auto with distlab|]. intros w. unfold bind at 1.
  match goal with |- context [record ?e w] => set (w1 := (record e w).1); change (record e w) with (w1, @inr exn unit tt) end.
  assert (later w w1) as Hl by by apply moves_record. eapply later_trans; [exact Hl|].
  case_bool_decide; [by apply moves_record|]. apply later_copies; [|done|done].
  intros r Hr. simpl in *. subst p. eexists _, _. split; [apply elem_of_app; right; by left|reflexivity].
Qed.
#[local] Hint Resolve moves_send : distlab.

Lemma moves_net_send s d p : moves (net_send (C := C) s d p).
Proof. apply moves_send. Qed.
#[local] Hint Resolve moves_net_send : distlab.

Lemma moves_log_view n : moves (log_view (C := C) n).
Proof. unfold log_view. auto with distlab. Qed.
#[local] Hint Resolve moves_log_view : distlab.
Lemma moves_validate n : moves (validate_persistent_log (C := C) n).
Proof. unfold validate_persistent_log. auto with distlab. Qed.
Lemma moves_last_index n : moves (last_log_index (C := C) n).
Proof. unfold last_log_index. auto with distlab. Qed.
Lemma moves_last_term n : moves (last_log_term (C := C) n).
Proof. unfold last_log_term. auto with distlab. Qed.
Lemma moves_majority v : moves (has_majority (C := C) v).
Proof. unfold has_majority. auto with distlab. Qed.
Lemma moves_notify e : moves (notify (C := C) e).
Proof. unfold notify. auto with distlab. Qed.
#[local] Hint Resolve moves_validate moves_last_index moves_last_term moves_majority moves_notify : distlab.

Lemma moves_retired n t r : moves (notify_leader_retired (C := C) n t r).
Proof. unfold notify_leader_retired. apply moves_bind; [auto with distlab|intros [[? ?]|]]; auto 20 with distlab. Qed.
#[local] Hint Resolve moves_retired : distlab.
Lemma moves_acquired n t r : moves (notify_leader_acquired (C := C) n t r).
Proof. unfold notify_leader_acquired. apply moves_bind; [auto with distlab|intros [[? ?]|]]; auto 20 with distlab. Qed.
Lemma moves_register_observer o b : moves (register_leadership_observer (C := C) o b).
Proof. unfold register_leadership_observer. auto 20 with distlab. Qed.
Lemma moves_record_leader t n : moves (record_leader (C := C) t n).
Proof. unfold record_leader. auto 20 with distlab. Qed.
Lemma moves_check_pair l r : moves (check_pair (C := C) l r).
Proof. unfold check_pair. cbv zeta. auto 20 with distlab. Qed.
#[local] Hint Resolve moves_acquired moves_register_observer moves_record_leader moves_check_pair : distlab.
Lemma moves_assert_log_matching : moves (assert_log_matching (C := C)).
Proof. unfold assert_log_matching. auto 20 with distlab. Qed.
Lemma moves_reset_timeout n r : moves (reset_election_timeout (C := C) n r).
Proof. unfold reset_election_timeout. auto 20 with distlab. Qed.
Lemma moves_cancel n : moves (cancel_timer (C := C) n).
Proof. unfold cancel_timer. auto 20 with distlab. Qed.
#[local] Hint Resolve moves_assert_log_matching moves_reset_timeout moves_cancel : distlab.

Lemma moves_set_pre_vote n t v : moves (upd_vol (C := C) n (set_pre_vote t v)).
Proof. apply moves_upd_vol. intros x. split; [done|by right]. Qed.
Lemma moves_set_votes n v : moves (upd_vol (C := C) n (set_votes v)).
Proof. apply moves_upd_vol. intros x. split; [done|by right]. Qed.
Lemma moves_follower n : moves (upd_vol (C := C) n (set_role FOLLOWER)).
Proof. apply moves_upd_vol. intros x. split; [by destruct (role x)|by left]. Qed.
Lemma moves_defaults n : moves (reset_volatile_defaults (C := C) n).
Proof. apply moves_upd_vol. intros x. split; [done|by right]. Qed.
Lemma moves_clear_volatile n : moves (clear_volatile (Σ := RaftSig (C := C)) n).
Proof. apply (moves_upd_vol n (λ _, raft_volatile0)). intros x. split; [by destruct (role x)|by left]. Qed.
#[local] Hint Resolve moves_set_pre_vote moves_set_votes moves_follower moves_defaults moves_clear_volatile : distlab.

Lemma moves_pre_vote n : moves (clear_pre_vote (C := C) n).
Proof. unfold clear_pre_vote. auto with distlab. Qed.
Lemma moves_persist_log n l : moves (persist_log (C := C) n l).
Proof.
  unfold persist_log. apply moves_bind; [by apply moves_put|intros _]. auto with distlab.
Qed.
#[local] Hint Resolve moves_pre_vote moves_persist_log : distlab.

Lemma later_persist_term n t v w : term_at_node w n ≤ t → later w (persist_term_and_vote (C := C) n t v w).1.
Proof.
  intros Ht. unfold persist_term_and_vote. apply later_bind; [by apply later_put|auto with distlab].
Qed.

Lemma moves_advance_commit n i src : moves (advance_commit_index (C := C) n i src).
Proof.
  unfold advance_commit_index. apply moves_bind; [auto with distlab|intros _].
  apply moves_bind; [auto with distlab|intros last]. apply moves_bind; [auto with distlab|intros _].
  apply moves_gets_bind. intros w. destruct (Z.leb_spec i (vol w n).(commit_index)); [apply later_refl|].
  apply later_bind; [|auto 20 with distlab]. apply later_upd_vol. right. split_and!; [done|done|right; simpl; lia].
Qed.
#[local] Hint Resolve moves_advance_commit : distlab.

Lemma moves_become_leader n t : moves (become_leader (C := C) n t).
Proof.
  unfold become_leader. apply moves_bind; [auto with distlab|intros d]. apply moves_gets_bind. intros w.
  unfold is_role. case_bool_decide as Hr; simpl; [|rewrite orb_true_r; apply later_refl].
  rewrite orb_false_r. destruct (negb _); [apply later_refl|]. unfold bind at 1.
  assert (∀ w1 r, record_leader t n w = (w1, r) → later w w1 ∧ vol w1 n = vol w n) as Hrec.
  { intros w1 r E. pose proof (moves_record_leader t n w) as Hl. rewrite E in Hl. split; [done|].
    revert E. unfold record_leader, bind, gets, raise_if. destruct (match leaders_by_term (objs w) !! t with Some _ => _ | None => _ end); by intros [= <- <-]. }
  destruct (record_leader t n w) as [w1 [e|[]]] eqn:E; destruct (Hrec _ _ eq_refl) as [Hl Hv]; [done|].
  eapply later_trans; [exact Hl|]. apply later_bind; [|auto 20 with distlab].
  apply later_upd_vol. right. rewrite Hv, Hr. split_and!; [done|done|by right].
Qed.
#[local] Hint Resolve moves_become_leader : distlab.

Lemma moves_send_to_peers n p : moves (send_to_peers (C := C) n p).
Proof. unfold send_to_peers. auto 20 with distlab. Qed.
#[local] Hint Resolve moves_send_to_peers : distlab.

Lemma moves_start_election n : moves (start_election (C := C) n).
Proof.
  unfold start_election. do 3 (apply moves_bind; [auto with distlab|intros ?]).
  apply moves_gets_bind. intros w. cbv zeta. set (t := _ + 1). unfold bind at 1.
  pose proof (later_persist_term n t (Some n) w ltac:(unfold term_at_node; lia)) as Hl.
  assert (persist_term_and_vote (C := C) n t (Some n) w
    = ((persist_term_and_vote (C := C) n t (Some n) w).1, inr tt)) as E by done.
  assert (term_at_node w n < term_at_node (persist_term_and_vote (C := C) n t (Some n) w).1 n) as Ht.
  { unfold term_at_node at 2, dur, durable. simpl. rewrite lookup_insert_eq. simpl. unfold term_at_node. lia. }
  rewrite E. set (w1 := (persist_term_and_vote _ _ _ _).1) in *. clearbody w1. clear E.
  match goal with |- later _ (?m w1).1 => assert (renews n m) as Hm; [|exact (proj1 (Hm _ _ Hl Ht))] end.
  auto 40 with distlab.
Qed.
#[local] Hint Resolve moves_start_election : distlab.

Lemma moves_start_pre_vote n : moves (start_pre_vote (C := C) n).
Proof. unfold start_pre_vote. cbv zeta. auto 40 with distlab. Qed.
Lemma moves_step_down n r : moves (step_down (C := C) n r).
Proof. unfold step_down. auto 40 with distlab. Qed.
Lemma moves_send_append n p i es c : moves (send_append_entries (C := C) n p i es c).
Proof. unfold send_append_entries. cbv zeta. auto 40 with distlab. Qed.
#[local] Hint Resolve moves_start_pre_vote moves_step_down moves_send_append : distlab.

(** A node that stepped down does not lead in the term it had. *)
Definition retires n w w' : Prop := (vol w' n).(role) = LEADER → term_at_node w n < term_at_node w' n.

Lemma wp_step_down n reason w :
  wp (step_down n reason) (λ w' _, retires n w w')
    (λ w' e, e.(exn_cls) ∈ [ValueError; RuntimeError] ∨ retires n w w') w.
Proof.
  unfold step_down. apply wp_bind, wp_raise_if; [intros _; left; simpl; set_solver|intros _].
  apply wp_bind, wp_gets, wp_bind, wp_raise_if; [intros _; left; simpl; set_solver|intros _].
  apply wp_bind, wp_gets. destruct (is_role w n LEADER) eqn:Hl; simpl;
    [|apply wp_ret; intros Hr; by apply bool_decide_eq_false in Hl].
  apply wp_bind, wp_gets. set (d := dur w n). clearbody d.
  unfold wp, bind at 1. pose proof (vol_upd n (set_role FOLLOWER) w n) as Hr1. rewrite decide_True in Hr1 by done.
  assert (∀ m, term_at_node (upd_vol n (set_role FOLLOWER) w).1 m = term_at_node w m) as Ht1 by done.
  destruct (upd_vol n (set_role FOLLOWER) w) as [w1 [e|[]]] eqn:Eu; [done|]. simpl in Hr1, Ht1.
  assert (∀ w', later w1 w' → retires n w w') as Hgo.
  { intros w' Hlat Hr. rewrite <-Ht1. destruct (la_tenure _ _ Hlat n) as [?|(_ & Hk & _)]; [done|].
    rewrite Hr1, Hr in Hk. simpl in Hk. lia. }
  match goal with |- context [?c w1] => assert (moves c) as Hm by auto 40 with distlab; specialize (Hm w1); destruct (c w1) as [w' [e|b]] end;
    [right|]; by apply Hgo.
Qed.

Lemma moves_advance_term n t b : moves (advance_term (C := C) n t b).
Proof.
  unfold advance_term. apply moves_gets_bind. intros w. destruct (Z.leb_spec t (dur w n).(current_term)); [apply later_refl|].
  unfold bind at 1, gets. apply later_bind; [apply later_persist_term; unfold term_at_node; lia|]. auto 40 with distlab.
Qed.
#[local] Hint Resolve moves_advance_term : distlab.

Lemma moves_up_to_date n i t : moves (up_to_date (C := C) n i t).
Proof. unfold up_to_date. auto 20 with distlab. Qed.
#[local] Hint Resolve moves_up_to_date : distlab.

Lemma moves_election_timeout n g d : moves (handle_election_timeout (C := C) n g d).
Proof. unfold handle_election_timeout. auto 40 with distlab. Qed.
Lemma moves_pre_vote_request n s m : moves (handle_pre_vote (C := C) n s m).
Proof. unfold handle_pre_vote. cbv zeta. auto 40 with distlab. Qed.
Lemma moves_pre_vote_response n m : moves (handle_pre_vote_response (C := C) n m).
Proof.
  unfold handle_pre_vote_response. cbv zeta. apply moves_bind; [auto with distlab|intros d].
  destruct (_ <? _); [auto with distlab|]. apply moves_bind; [auto with distlab|intros v].
  destruct (_ || _); [auto with distlab|]. destruct (negb _); [auto with distlab|].
  apply moves_bind; [|auto 20 with distlab]. apply moves_upd_vol. intros x. split; [done|by right].
Qed.
#[local] Hint Resolve moves_election_timeout moves_pre_vote_request moves_pre_vote_response : distlab.

Lemma later_vote_for n m w : m.(rv_term) = term_at_node w n → later w (vote_for (C := C) n m w).1.
Proof.
  intros Ht. unfold vote_for. unfold bind at 1, gets. destruct (match voted_for (dur w n) with Some _ => _ | None => _ end).
  - apply later_bind; [apply later_persist_term; lia|]. auto 40 with distlab.
  - apply later_refl.
Qed.

Lemma moves_request_vote n s m : moves (handle_request_vote (C := C) n s m).
Proof.
  unfold handle_request_vote. cbv zeta. do 4 (apply moves_bind; [auto with distlab|intros ?]).
  apply moves_gets_bind. intros w. apply later_bind; [|auto 40 with distlab].
  destruct (Z.eqb_spec m.(rv_term) (dur w n).(current_term)); simpl; [|apply later_refl].
  destruct a2; [by apply later_vote_for|apply later_refl].
Qed.
Lemma moves_vote_response n m : moves (handle_request_vote_response (C := C) n m).
Proof. unfold handle_request_vote_response. cbv zeta. auto 40 with distlab. Qed.
#[local] Hint Resolve moves_request_vote moves_vote_response : distlab.

Lemma moves_accept n m : moves (accept_entries (C := C) n m).
Proof. unfold accept_entries, merge_entries. cbv zeta. auto 40 with distlab. Qed.
Lemma moves_follow n t b m : moves (follow (C := C) n t b m).
Proof. unfold follow. auto 40 with distlab. Qed.
#[local] Hint Resolve moves_accept moves_follow : distlab.

(** A request is accepted in the follower's term. *)
Lemma moves_append_entries n s m : moves (handle_append_entries (C := C) n s m).
Proof.
  unfold handle_append_entries. cbv zeta. do 3 (apply moves_bind; [auto with distlab|intros ?]).
  apply moves_gets_bind. intros w.
  set (P := λ w0 : W, term_at_node w0 n ≤ m.(ae_term)).
  assert (∀ r : bool * Z, late (λ w0, r.1 = true → P w0) (
    let! d := gets (λ w, dur w n) in
    let! commit := gets (λ w, (vol w n).(commit_index)) in
    trace_rec (RAppendEntries n m.(ae_leader_id) m.(ae_term) m.(ae_prev_log_index) m.(ae_prev_log_term)
      (zlen m.(ae_entries)) m.(ae_leader_commit) commit r.1 r.2) ;;
    let! response := lift (new_AppendEntriesResponse d.(current_term) n r.1 r.2) in
    net_send n s (PAppendEntriesResponse response))) as Hrest.
  { intros r. do 2 (apply late_bind; [apply moves_late; auto with distlab|intros ?]).
    apply late_bind; [|intros ?; apply moves_late; auto 20 with distlab].
    intros w0 w1 HP Hl. apply later_record; [exact Hl| |done]. intros f t. simpl. destruct (r.1); [|done].
    intros [= <- <-]. by apply HP. }
  unfold bind at 1. destruct (Z.eqb_spec m.(ae_term) (dur w n).(current_term)) as [Ht|Ht].
  - assert (moves (follow n (current_term a) a0 m ;; accept_entries n m)) as Hm by auto with distlab.
    specialize (Hm w). destruct ((follow n _ _ m ;; accept_entries n m) w) as [w1 [e|r]]; [done|].
    apply Hrest; [|exact Hm]. intros _. unfold P, term_at_node. lia.
  - exact (Hrest (false, 0) w w ltac:(done) (later_refl w)).
Qed.
Lemma moves_append_response n m : moves (handle_append_entries_response (C := C) n m).
Proof. unfold handle_append_entries_response. auto 40 with distlab. Qed.
#[local] Hint Resolve moves_append_entries moves_append_response : distlab.

Lemma moves_handle_message n m : moves (handle_message (C := C) n m).
Proof. unfold handle_message, dispatch. auto 40 with distlab. Qed.
#[local] Hint Resolve moves_handle_message : distlab.

(** ** Calls of the cluster *)

(** The first delivery of the queue, and what follows it *)
Lemma later_deliver {A} w d rest (k : M W A) :
  w.(sim).(queue) = d :: rest → moves k →
  later w ((upd_sim (set_queue rest) ;; deliver_event (Σ := RaftSig) handle_message d ;; k) w).1.
Proof.
  intros Hq Hk. unfold bind at 1, upd_sim, modify. set (w1 := mkWorld _ _ : W).
  assert (later w w1) as Hl1.
  { destruct (later_refl w) as [Ht Hr _]. split; [exact Ht|exact Hr|]. intros [Hs Hd]. split; [|exact Hd].
    intros x m Hx. apply Hs. rewrite Hq. by right. }
  unfold bind at 1.
  enough (later w (deliver_event (Σ := RaftSig) handle_message d w1).1) as Hl.
  { destruct (deliver_event _ _ _) as [w2 [e|[]]]; [done|]. eapply later_trans; [exact Hl|apply Hk]. }
  unfold deliver_event, bind at 1, upd_sim, modify. set (w2 := mkWorld _ _ : W).
  assert (later w w2) as Hl2 by (eapply later_trans; [exact Hl1|by destruct (later_refl w1) as [? ? ?]; split]).
  unfold bind at 1, gets. cbv zeta. destruct (negb _); [eapply later_trans; [exact Hl2|by apply moves_record]|].
  unfold bind at 1. destruct (handlers (sim w2) !! _) as [h|]; [|exact Hl2].
  unfold bind at 1. match goal with |- context [record ?e w2] => set (w3 := (record e w2).1); change (record e w2) with (w3, @inr exn unit tt) end.
  eapply later_trans; [|apply moves_handle_message].
  apply later_record; [exact Hl2|done|]. intros [Hs _]. simpl. destruct (payload _) as [| | | | | |r|] eqn:Ep; try done.
  apply (Hs d r); [rewrite Hq; by left|done].
Qed.

Lemma moves_run fuel k : moves (raft_run (C := C) fuel k).
Proof.
  unfold raft_run, run. apply moves_bind; [auto with distlab|intros _]. generalize 0.
  induction fuel as [|fuel IH]; intros d; simpl; [auto with distlab|]. apply moves_gets_bind. intros w.
  destruct (queue (sim w)) as [|x rest] eqn:Hq; [apply later_refl|]. destruct (match k with Some _ => _ | None => _ end); [|apply later_refl].
  by apply later_deliver.
Qed.
Lemma moves_run_until fuel t : moves (raft_run_until (C := C) fuel t).
Proof.
  unfold raft_run_until, run_until_time. do 2 (apply moves_bind; [auto with distlab|intros ?]).
  apply moves_bind; [|auto 20 with distlab]. generalize 0.
  induction fuel as [|fuel IH]; intros d; simpl; [auto with distlab|]. apply moves_gets_bind. intros w.
  destruct (queue (sim w)) as [|x rest] eqn:Hq; [apply later_refl|]. destruct (_ <=? _); [|apply later_refl].
  by apply later_deliver.
Qed.
#[local] Hint Resolve moves_run moves_run_until : distlab.

Lemma moves_handle_crash n : moves (handle_crash (C := C) n).
Proof. unfold handle_crash. auto 20 with distlab. Qed.
Lemma moves_handle_restart n : moves (handle_restart (C := C) n).
Proof.
  unfold handle_restart. apply moves_bind; [auto with distlab|intros active].
  apply moves_bind; [destruct active as [[? ?]|]; auto with distlab|]. auto 40 with distlab.
Qed.
#[local] Hint Resolve moves_handle_crash moves_handle_restart : distlab.

Lemma moves_crash n : moves (raft_crash (C := C) n).
Proof. unfold raft_crash, crash, validate_node. auto 40 with distlab. Qed.
Lemma moves_restart n : moves (raft_restart (C := C) n).
Proof. unfold raft_restart, restart, validate_node. auto 40 with distlab. Qed.
#[local] Hint Resolve moves_crash moves_restart : distlab.

Lemma moves_node n : moves (node (C := C) n).
Proof. unfold node. auto 20 with distlab. Qed.
#[local] Hint Resolve moves_node : distlab.

Lemma moves_links :
  (∀ s d, moves (validate_link (Σ := RaftSig (C := C)) s d)) ∧ (∀ l r, moves (partition (Σ := RaftSig (C := C)) l r))
  ∧ (∀ l r, moves (heal_partition (Σ := RaftSig (C := C)) l r)).
Proof.
  split_and!; intros; unfold validate_link, partition, heal_partition, validate_partition_groups, block_pair, unblock_pair;
    auto 40 with distlab.
Qed.

Lemma moves_exec_op (o : raft_op (C := C)) : moves (exec_op o).
Proof.
  destruct o; simpl; auto 20 with distlab; try apply moves_links;
    unfold block_link, heal_link, set_link_delay, clear_link_delay, validate_link, block_pair, unblock_pair; auto 40 with distlab.
Qed.

Lemma moves_register n h c r : moves (register (Σ := RaftSig (C := C)) n h c r).
Proof. unfold register. destruct c, r; auto 20 with distlab. Qed.
#[local] Hint Resolve moves_register : distlab.

Lemma moves_init_cluster ids ts : moves (init_cluster (C := C) ids ts).
Proof. unfold init_cluster. auto 20 with distlab. Qed.

(** A cluster just booted has delivered nothing. *)
Lemma traced_boot ids ts plan disks w r : init_cluster (C := C) ids ts (boot_world plan disks) = (w, r) → traced w.
Proof.
  intros Hi. pose proof (la_traced _ _ (moves_init_cluster ids ts (boot_world plan disks))) as Ht. rewrite Hi in Ht.
  apply Ht. by split; [intros x m ?%elem_of_nil|].
Qed.
End methods.

#[export] Hint Resolve moves_trace_rec moves_log_view moves_last_index moves_advance_commit moves_send_append
  moves_run moves_exec_op moves_node moves_persist_log : distlab.

#[export] Hint Extern 1 (accepted_request _ = None) => reflexivity : distlab.
#[export] Hint Extern 1 (delivery _ = false) => reflexivity : distlab.
