(* ===== verification/Replication.v ===== *)
(** * Replication: entries at the end of a leader's log, and their replication

    Models [src/distlab/commit_recovery.py]: [append_current_term_barrier],
    which is how entries, barriers and commands alike, get into a leader's
    durable log.  The command is the caller's; replication is
    the second part. *)

From S2P Require Import Prelude Simulator Quorum LogIndex Raft.

Section recovery.
Context {C : Type} `{EqDecision C}.
Implicit Types (w : World (RaftSig (C := C))) (n : string).

(** The appended entry goes straight to the durable dictionary: no
    [raft-persist-log] record is written.  The index returned counts the
    retained entries only. *)
Definition append_current_term_barrier n (command : C) : M (World (RaftSig (C := C))) Z :=
  let! up := gets (λ w, is_alive w n) in
  raise_if (negb up) CommitRecoveryError "commit recovery requires a live leader" ;;
  let! leads := gets (λ w, is_role w n LEADER) in
  raise_if (negb leads) CommitRecoveryError "commit recovery requires leader role" ;;
  let! d := gets (λ w, dur w n) in
  let previous := d.(log) in
  let! entry := lift (new_LogEntry d.(current_term) command) in
  let durable := previous ++ [entry] in
  put n (set_log durable) ;;
  let index := zlen durable in
  trace_rec (RCurrentTermBarrier n d.(current_term) index) ;;
  let! after := gets (λ w, (dur w n).(log)) in
  raise_if (negb (bool_decide (take (length previous) after = previous))) AssertionError
    "Leader Append-Only violated while appending commit barrier" ;;
  raise_if (negb (bool_decide (znth after (index - 1) = Some entry))) AssertionError
    "commit recovery barrier was not durably appended" ;;
  ret index.
End recovery.

(** ** A leader's replication loop

    Models [src/distlab/replication.py]: [LeaderReplicator], built without a
    snapshot transport ([snapshot_transport=None], so crossing the compacted
    boundary raises).  A replicator is an object beside the cluster: its
    methods run on a pair of the Raft world and the object, and what they
    changed stays changed when they raise.  The deterministic [sim.run()] of
    each attempt takes [rf] deliveries of fuel. *)

Section replication.
Context {C : Type} `{EqDecision C}.
Local Abbreviation Cluster := (World (RaftSig (C := C))).
Implicit Types (w : Cluster) (n peer : string).

Record PeerReplicationProgress := mkProgress { next_index : Z; match_index : Z }.

Record PeerActivityProbe := mkActivityProbe {
  probe_peer : string;
  probe_term : Z;
  probe_trace_start : nat;
  probe_prev_log_index : Z;
  probe_ordinal_floor : Z;
}.

(** [except ReplicationError], whose subclass is [ReplicationResponseMissing] *)
Definition is_replication_error (e : exn) : bool :=
  match e.(exn_cls) with ReplicationError | ReplicationResponseMissing => true | _ => false end.

Record LeaderReplicator := mkReplicator {
  leader : string;
  rep_term : Z;
  rep_commit_index : Z;
  progress : gmap string PeerReplicationProgress;
}.

Definition set_rep_commit i (r : LeaderReplicator) : LeaderReplicator :=
  mkReplicator r.(leader) r.(rep_term) i r.(progress).
Definition set_progress peer p (r : LeaderReplicator) : LeaderReplicator :=
  mkReplicator r.(leader) r.(rep_term) r.(rep_commit_index) (<[peer := p]> r.(progress)).

(** The cluster and [self] *)
Record RepWorld := mkRepWorld { cluster : Cluster; self : LeaderReplicator }.

Abbreviation RM := (M RepWorld).

Definition on_cluster {A} (m : M Cluster A) : RM A := λ s,
  let r := m s.(cluster) in (mkRepWorld r.1 s.(self), r.2).
Definition upd_self (f : LeaderReplicator → LeaderReplicator) : RM unit :=
  modify (λ s, mkRepWorld s.(cluster) (f s.(self))).
Definition rep_record (r : RaftRec (C := C)) : RM unit := on_cluster (trace_rec r).

Definition check_current_leader (r : LeaderReplicator) : M Cluster unit :=
  let! up := gets (λ w, is_alive w r.(leader)) in
  raise_if (negb up) ReplicationError "replication requires a live leader" ;;
  let! leads := gets (λ w, is_role w r.(leader) LEADER) in
  raise_if (negb leads) ReplicationError "replication requires leader role" ;;
  let! d := gets (λ w, dur w r.(leader)) in
  raise_if (negb (d.(current_term) =? r.(rep_term))) ReplicationError "replicator term is stale".

Definition require_current_leader : RM unit :=
  let! r := gets self in on_cluster (check_current_leader r).

Definition require_peer peer : RM unit :=
  let! r := gets self in
  raise_if (negb (bool_decide (is_Some (r.(progress) !! peer)))) ValueError "unknown peer".

(** [LeaderReplicator.__init__]: the log is read once per peer. *)
Definition new_LeaderReplicator n : M Cluster LeaderReplicator :=
  let! d := gets (λ w, dur w n) in
  let! v := gets (λ w, vol w n) in
  let! ps := gets (λ w, peers w n) in
  let! last := if bool_decide (ps = []) then ret 0 else last_log_index n in
  let r := mkReplicator n d.(current_term) v.(commit_index)
    (list_to_map ((λ p, (p, mkProgress (last + 1) 0)) <$> ps)) in
  check_current_leader r ;;
  ret r.

(** ** Evidence in the trace *)

Local Abbreviation Trace := (list (TraceRecord (RaftSig (C := C)))).
Implicit Types (tr : Trace) (r : LeaderReplicator).

Definition append_response_ordinal_floor tr r peer : Z :=
  foldl (λ (floor : Z) (x : TraceRecord (RaftSig (C := C))),
    match x.(tr_event) with
    | EvSend s d ordinal (PAppendEntriesResponse _) _ =>
        if (s =? peer)%string && (d =? r.(leader))%string then Z.max floor ordinal else floor
    | _ => floor
    end) 0 tr.

Definition append_response_delivered_after tr r peer (response_index : nat) (ordinal_floor : Z)
    (success : bool) (match_index : Z) : bool :=
  match response_index with
  | O => false
  | S i =>
      match tr_event <$> tr !! i with
      | Some (EvDeliver s d ordinal (PAppendEntriesResponse p)) =>
          (s =? peer)%string && (d =? r.(leader))%string && negb (ordinal <=? ordinal_floor)
          && (p.(aer_term) =? r.(rep_term)) && (p.(aer_follower_id) =? peer)%string
          && Bool.eqb p.(aer_success) success && (p.(aer_match_index) =? match_index)
      | _ => false
      end
  end.

Definition append_probe_observed tr r peer (trace_start : nat) (prev_log_index entry_count : Z)
    (success : bool) (match_index : Z) : bool :=
  existsb (λ x : TraceRecord (RaftSig (C := C)),
    match x.(tr_event) with
    | EvProto (RAppendEntries f l t prev _ count _ _ ok m) =>
        (l =? r.(leader))%string && (f =? peer)%string && (t =? r.(rep_term))
        && (prev =? prev_log_index) && (count =? entry_count) && Bool.eqb ok success && (m =? match_index)
    | _ => false
    end) (drop trace_start tr).

(** The body of the loop of [_matching_response], for an append response: the
    record's success and match index, if it is the evidence looked for. *)
Definition response_at tr r peer (trace_start : nat) (expected_match expected_prev expected_count floor : Z)
    (index : nat) : option (bool * Z) :=
  match tr_event <$> tr !! index with
  | Some (EvProto (RAppendResponse l f t success m)) =>
      if (l =? r.(leader))%string && (f =? peer)%string && (t =? r.(rep_term))
         && append_response_delivered_after tr r peer index floor success m
         && negb (success && negb (m =? expected_match))
         && append_probe_observed tr r peer trace_start expected_prev expected_count success m
      then Some (success, m) else None
  | _ => None
  end.

(** The latest one wins. *)
Definition matching_response tr r peer (trace_start : nat)
    (expected_match expected_prev expected_count floor : Z) : option (bool * Z) :=
  head (omap (response_at tr r peer trace_start expected_match expected_prev expected_count floor)
    (rev (seq trace_start (length tr - trace_start)))).

Definition trace_of w : Trace := w.(sim).(trace).

(** ** Progress and commitment *)

Definition advance_peer peer (p : PeerReplicationProgress) (matched : Z) (source : string) : RM unit :=
  let! r := gets self in
  let old_match_index := p.(match_index) in
  let new_match_index := Z.max old_match_index matched in
  upd_self (set_progress peer (mkProgress (new_match_index + 1) new_match_index)) ;;
  rep_record (RReplicationAdvance r.(leader) peer r.(rep_term) old_match_index new_match_index
    (new_match_index + 1) source).

(** [1 + sum(progress.match_index >= index for ...)] *)
Definition replicas r (index : Z) : Z :=
  1 + zlen (filter (λ p, index ≤ p.2.(match_index)) (map_to_list r.(progress))).

(** The loop of [advance_commit_index] on the indices left, highest first. *)
Fixpoint commit_scan (view : RaftLogView C) (previous majority : Z) (indices : list Z) : RM unit :=
  match indices with
  | [] => ret tt
  | index :: indices' =>
      let! t := on_cluster (lift (term_at view index)) in
      let! r := gets self in
      if negb (t =? r.(rep_term)) then commit_scan view previous majority indices'
      else if replicas r index <? majority then commit_scan view previous majority indices'
      else
        upd_self (set_rep_commit index) ;;
        on_cluster (advance_commit_index r.(leader) index r.(leader)) ;;
        rep_record (RCommitAdvance r.(leader) r.(rep_term) previous index (replicas r index) majority)
  end.

Definition rep_advance_commit_index : RM Z :=
  require_current_leader ;;
  let! r := gets self in
  let! majority := on_cluster (gets (λ w, quorum_size w.(objs).(node_ids))) in
  let previous := r.(rep_commit_index) in
  let! view := on_cluster (log_view r.(leader)) in
  let scan_floor := Z.max previous view.(base_index) in
  commit_scan view previous majority (rev (zrange (scan_floor + 1) (last_index view + 1))) ;;
  let! r := gets self in ret r.(rep_commit_index).

(** ** Activity probes *)

Definition begin_activity_probe peer : RM PeerActivityProbe :=
  require_peer peer ;;
  require_current_leader ;;
  let! r := gets self in
  let! view := on_cluster (log_view r.(leader)) in
  let prev_log_index := last_index view in
  let! tr := on_cluster (gets trace_of) in
  let floor := append_response_ordinal_floor tr r peer in
  rep_record (RQuorumProbe r.(leader) peer r.(rep_term) prev_log_index r.(rep_commit_index) floor) ;;
  on_cluster (send_append_entries r.(leader) peer (Some prev_log_index) [] (Some r.(rep_commit_index))) ;;
  ret (mkActivityProbe peer r.(rep_term) (length tr) prev_log_index floor).

Definition finish_activity_probe (probe : PeerActivityProbe) : RM bool :=
  require_peer probe.(probe_peer) ;;
  require_current_leader ;;
  let! r := gets self in
  raise_if (negb (probe.(probe_term) =? r.(rep_term))) ReplicationError "activity probe term is stale" ;;
  let! tr := on_cluster (gets trace_of) in
  match matching_response tr r probe.(probe_peer) probe.(probe_trace_start) probe.(probe_prev_log_index)
      probe.(probe_prev_log_index) 0 probe.(probe_ordinal_floor) with
  | None =>
      rep_record (RQuorumProbeMissing r.(leader) probe.(probe_peer) r.(rep_term)) ;; ret false
  | Some (success, m) =>
      rep_record (RQuorumProbeAck r.(leader) probe.(probe_peer) r.(rep_term) success m) ;; ret true
  end.

Section fuel.
Context (rf : nat).

Definition probe_activity peer : RM bool :=
  let! probe := begin_activity_probe peer in
  on_cluster (raft_run rf None) ;;
  finish_activity_probe probe.

(** ** The replication loop *)

(** One attempt: [Some b] when [replicate] returns [b], [None] when the next
    index was moved back. *)
Definition replicate_attempt peer (attempt : Z) : RM (option bool) :=
  require_current_leader ;;
  let! r := gets self in
  let p := default (mkProgress 0 0) (r.(progress) !! peer) in
  let! view := on_cluster (log_view r.(leader)) in
  if p.(next_index) <=? view.(base_index) then
    raise ReplicationError "replication crossed the compacted log boundary without snapshot transport"
  else
    let prev_log_index := p.(next_index) - 1 in
    let! entries := on_cluster (lift (suffix_from view p.(next_index))) in
    let expected_match_index := prev_log_index + zlen entries in
    let! tr := on_cluster (gets trace_of) in
    let floor := append_response_ordinal_floor tr r peer in
    let trace_start := length tr in
    rep_record (RReplicationProbe r.(leader) peer r.(rep_term) p.(next_index) prev_log_index (zlen entries)
      expected_match_index r.(rep_commit_index) attempt floor) ;;
    on_cluster (send_append_entries r.(leader) peer (Some prev_log_index) entries (Some r.(rep_commit_index))) ;;
    on_cluster (raft_run rf None) ;;
    let! tr := on_cluster (gets trace_of) in
    match matching_response tr r peer trace_start expected_match_index prev_log_index (zlen entries) floor with
    | None => raise ReplicationResponseMissing "no AppendEntries response"
    | Some (true, m) =>
        advance_peer peer p m "append" ;;
        rep_advance_commit_index ;;
        ret (Some true)
    | Some (false, _) =>
        let new_next_index := Z.max 1 (p.(next_index) - 1) in
        upd_self (set_progress peer (mkProgress new_next_index p.(match_index))) ;;
        rep_record (RReplicationBacktrack r.(leader) peer r.(rep_term) p.(next_index) new_next_index) ;;
        ret None
    end.

(** [while max_attempts is None or attempts < max_attempts]; a bound is fuel
    enough. *)
Fixpoint replicate_loop (fuel : nat) peer (max_attempts : option Z) (attempts : Z) : RM bool :=
  match fuel with
  | O => raise OutOfFuel "replicate"
  | S fuel =>
      if match max_attempts with Some k => k <=? attempts | None => false end then ret false
      else
        let! res := replicate_attempt peer (attempts + 1) in
        match res with
        | Some b => ret b
        | None => replicate_loop fuel peer max_attempts (attempts + 1)
        end
  end.

Definition attempts_fuel (fuel : nat) (max_attempts : option Z) : nat :=
  match max_attempts with Some k => S (Z.to_nat k) | None => fuel end.

Definition positive_attempts (max_attempts : option Z) : RM unit :=
  raise_if match max_attempts with Some k => k <=? 0 | None => false end ValueError
    "max_attempts must be positive when provided".

Definition replicate (fuel : nat) peer (max_attempts : option Z) : RM bool :=
  require_peer peer ;;
  positive_attempts max_attempts ;;
  replicate_loop (attempts_fuel fuel max_attempts) peer max_attempts 0.

Fixpoint recover_loop (fuel : nat) peer (max_attempts : option Z) (attempts : Z) : RM bool :=
  match fuel with
  | O => raise OutOfFuel "recover_peer"
  | S fuel =>
      require_current_leader ;;
      let! follower := on_cluster (node peer) in
      let! r := gets self in
      let p := default (mkProgress 0 0) (r.(progress) !! peer) in
      let! last := on_cluster (last_log_index r.(leader)) in
      let target_commit := Z.min r.(rep_commit_index) last in
      let! commit := on_cluster (gets (λ w, (vol w follower).(commit_index))) in
      if (last <=? p.(match_index)) && (target_commit <=? commit) then
        rep_record (RPeerRecovered r.(leader) peer r.(rep_term) p.(match_index) commit) ;;
        ret true
      else if match max_attempts with Some k => k <=? attempts | None => false end then ret false
      else
        replicate 0 peer (Some 1) ;;
        recover_loop fuel peer max_attempts (attempts + 1)
  end.

Definition recover_peer (fuel : nat) peer (max_attempts : option Z) : RM bool :=
  require_peer peer ;;
  positive_attempts max_attempts ;;
  recover_loop (attempts_fuel fuel max_attempts) peer max_attempts 0.
End fuel.
End replication.
