(* ===== verification/RaftRefine.v ===== *)
(** * RaftRefine: [raft.py] refines the specification of replicated logs

    Every call and every delivery takes only steps of [RaftSpec.spec_step] for
    majorities of the cluster, so [record_leader] never finds two leaders of
    one term.  The relation [R] has two readings.  With [disc = false] callers
    may do anything: what it says is about ballots, and a delivery raises
    nothing but [LogMatchingViolation], the check of a log whose entries
    callers made up.  With [disc = true] leaders replicate their own logs: a
    node's durable log is the log of the machine, messages and records carry
    parts of the leader's log and acknowledgements the machine knows, and what
    a node takes for committed is committed. *)

From stdpp Require Import relations.
From S2P Require Import Prelude Simulator SimFacts Quorum LogIndex RaftSpec Refinement Raft.

Section refinement.
Context {C : Type} `{EqDecision C}.
Implicit Types (w : World (RaftSig (C := C))) (s : Spec C) (n : string).
Local Abbreviation Durable := (RaftDurable (C := C)).

Definition entries_ok (es : list (LogEntry C)) : Prop := Forall (λ e, 0 ≤ e.(le_term)) es.

Definition view_of (d : Durable) : RaftLogView C :=
  mkRaftLogView d.(log_base_index) d.(log_base_term) d.(log).

(** The term at index [i] of a log that was never compacted *)
Definition term_before (l : list (LogEntry C)) (i : Z) : Z :=
  if i =? 0 then 0 else match znth l (i - 1) with Some e => e.(le_term) | None => 0 end.

Section with_ids.
(** Whether callers keep to the leader's log, the electorate, the nodes that
    have registered, and the exceptions allowed.  [R x al] is the relation
    while the role of node [x] (if any) is being changed and [al] are up. *)
Context (disc : bool) (ids reg : list string) (ok : exn → Prop) {may : C → Prop}.
Local Abbreviation quorum := (majority ids).
Local Abbreviation steps := (rtc (spec_step quorum disc may)).
Local Abbreviation spec_inv := (spec_inv quorum disc).
Local Abbreviation committed := (committed quorum).

(** The durable dictionary of one node against the machine. *)
Record dur_ok s n (d : Durable) : Prop := {
  rd_term : 0 ≤ d.(current_term);
  rd_known : term_of s n = d.(current_term);
  rd_cast t c : (t, n, c) ∈ s.(cast) →
    t ≤ d.(current_term) ∧ (t = d.(current_term) → d.(voted_for) = Some c);
  rd_vote c : d.(voted_for) = Some c → (d.(current_term), n, c) ∈ s.(cast);
  rd_view : view_wf (view_of d);
  rd_entries : entries_ok d.(log);
  rd_log : disc = true → d.(log) = nlog s n ∧ d.(log_base_index) = 0;
}.

(** Candidates send what they stand with, *)
Definition request_ok s (p : RequestVote) : Prop := disc = true →
  ∃ L, s.(clogs) !! (p.(rv_term), p.(rv_candidate_id)) = Some L
    ∧ p.(rv_last_log_index) = zlen L ∧ p.(rv_last_log_term) = end_term L.

(** Leaders parts of their log, and what of it is committed, *)
Definition append_ok s (p : AppendEntries (C := C)) : Prop := disc = true →
  ∃ L, s.(llogs) !! p.(ae_term) = Some L
    ∧ 0 ≤ p.(ae_prev_log_index) ≤ zlen L ∧ p.(ae_prev_log_term) = term_before L p.(ae_prev_log_index)
    ∧ p.(ae_entries) `prefix_of` drop (Z.to_nat p.(ae_prev_log_index)) L
    ∧ 0 ≤ p.(ae_leader_commit) ≤ zlen L
    ∧ committed s p.(ae_term) (take (Z.to_nat p.(ae_leader_commit)) L).

(** And followers what they acknowledge. *)
Definition ack_ok s (t : Z) (v : string) (b : bool) (m : Z) : Prop :=
  disc = true → b = true → 0 ≤ m ∧ (t, v, Z.to_nat m) ∈ s.(acks).

Definition msg_ok s (m : Message (RaftSig (C := C))) : Prop :=
  match m.(payload) with
  | PElectionTimeout _ _ => True
  | PPreVote p => 0 < p.(pv_term)
  | PPreVoteResponse _ => True
  | PRequestVote p => request_ok s p
  | PRequestVoteResponse p => p.(rvr_vote_granted) = true →
      p.(rvr_voter_id) ∈ ids ∧ (p.(rvr_term), p.(rvr_voter_id), m.(dst)) ∈ s.(cast)
  | PAppendEntries p => (0 ≤ p.(ae_prev_log_index) ∧ 0 ≤ p.(ae_prev_log_term)
      ∧ 0 ≤ p.(ae_leader_commit) ∧ entries_ok p.(ae_entries)) ∧ append_ok s p
  | PAppendEntriesResponse p =>
      ack_ok s p.(aer_term) p.(aer_follower_id) p.(aer_success) p.(aer_match_index)
  | PRaftOther _ => False
  end ∧ m.(dst) ∈ ids ∧ m.(delivery_dst) = None.

Definition queue_ok s (q : list (ScheduledDelivery (RaftSig (C := C)))) : Prop :=
  ∀ x, x ∈ q → msg_ok s x.(sd_message).

(** The records that replication reads back *)
Definition rec_ok s (r : RaftRec (C := C)) : Prop :=
  match r with RAppendResponse _ f t b m => ack_ok s t f b m | _ => True end.

(** A node's role against the machine and the cluster's tables. *)
Definition role_ok (o : RaftObjects) s n (t : Z) (v : RaftVolatile) : Prop :=
  match v.(role) with
  | FOLLOWER => True
  | CANDIDATE => (∀ a, a ∈ v.(votes_received) → a ∈ ids ∧ (t, a, n) ∈ s.(cast))
      ∧ s.(elected) !! t ≠ Some n
      ∧ (disc = true → s.(clogs) !! (t, n) = Some (nlog s n))
  | LEADER => o.(leaders_by_term) !! t = Some n ∧ s.(elected) !! t = Some n
      ∧ (∃ g, o.(active_leader_generations) !! n = Some (t, g))
      ∧ (disc = true → s.(llogs) !! t = Some (nlog s n))
  end.

Definition commit_ok s (d : Durable) (v : RaftVolatile) : Prop := disc = true →
  0 ≤ v.(commit_index) ≤ zlen d.(log)
  ∧ committed s d.(current_term) (take (Z.to_nat v.(commit_index)) d.(log)).

Record R (x : option string) (al : gmap string bool) w s : Prop := {
  R_ids : w.(objs).(node_ids) = ids;
  R_inv : spec_inv s;
  R_dur n : dur_ok s n (dur w n);
  R_queue : queue_ok s w.(sim).(queue);
  R_trace r : r ∈ protos w → rec_ok s r;
  R_role n : x ≠ Some n → role_ok w.(objs) s n (dur w n).(current_term) (vol w n);
  R_commit n : commit_ok s (dur w n) (vol w n);
  R_leaders t c : w.(objs).(leaders_by_term) !! t = Some c → s.(elected) !! t = Some c;
  R_generation n t g : w.(objs).(active_leader_generations) !! n = Some (t, g) →
    1 ≤ g ≤ w.(objs).(leadership_generation);
  R_counter : 0 ≤ w.(objs).(leadership_generation);
  R_distinct n n' t t' g : w.(objs).(active_leader_generations) !! n = Some (t, g) →
    w.(objs).(active_leader_generations) !! n' = Some (t', g) → n = n';
  R_alive : w.(sim).(alive) = al;
  R_handlers e h : w.(sim).(handlers) !! e = Some h → h = e ∧ e ∈ ids ∧ e ∈ reg;
  R_crash e h : w.(sim).(crash_handlers) !! e = Some h → h = e;
  R_restart e h : w.(sim).(restart_handlers) !! e = Some h → h = e;
  R_reg e : e ∈ reg → is_Some (w.(sim).(handlers) !! e);
}.

Local Abbreviation safely x al := (safely (spec_step quorum disc may) (R x al) ok).
Local Abbreviation refines x al := (refines (spec_step quorum disc may) (R x al) ok).

(** ** Monotonicity *)

Lemma term_before_app (l k : list (LogEntry C)) i :
  0 ≤ i ≤ zlen l → term_before (l ++ k) i = term_before l i.
Proof.
  intros Hi. unfold term_before, znth, zlen in *. destruct (Z.eqb_spec i 0); [done|].
  by rewrite lookup_app_l by lia.
Qed.

Lemma take_app_z (l k : list (LogEntry C)) i : i ≤ zlen l → take (Z.to_nat i) (l ++ k) = take (Z.to_nat i) l.
Proof. intros Hi. apply take_app_le. unfold zlen in Hi. lia. Qed.

Lemma ack_ok_mono s s' t v b m : steps s s' → ack_ok s t v b m → ack_ok s' t v b m.
Proof. intros Hs Ha Hd Hb. destruct (Ha Hd Hb). split; [done|]. by eapply (steps_acks quorum). Qed.

Lemma append_ok_mono s s' p : spec_inv s → steps s s' → append_ok s p → append_ok s' p.
Proof.
  intros Hi Hs Hp Hd. destruct (Hp Hd) as (L & HL & Hprev & Ht & He & Hlc & Hc).
  destruct (steps_llog _ _ _ _ _ _ Hd Hi Hs HL) as [k HL']. exists (L ++ k).
  unfold zlen in *. rewrite length_app. split_and!; [done|lia|lia| | |lia|lia|].
  - rewrite term_before_app; [done|unfold zlen; lia].
  - rewrite drop_app_le by lia. by apply prefix_app_r.
  - rewrite take_app_z by (unfold zlen; lia).
    eapply (steps_committed quorum); [exact Hd|exact Hi|exact Hs|exact Hc].
Qed.

Lemma msg_ok_mono s s' m : spec_inv s → steps s s' → msg_ok s m → msg_ok s' m.
Proof.
  intros Hi Hs [Hm ?]. split; [|done]. destruct (payload m); try done.
  - intros Hd. destruct (Hm Hd) as (L & HL & ?). exists L. split; [by eapply (steps_clogs quorum)|done].
  - intros Hg. destruct (Hm Hg). split; [done|]. by eapply (spec_steps_cast quorum).
  - destruct Hm as [? Hm]. split; [done|]. by eapply append_ok_mono.
  - by eapply ack_ok_mono.
Qed.

Lemma queue_ok_mono s s' q : spec_inv s → steps s s' → queue_ok s q → queue_ok s' q.
Proof. intros Hi Hs Hq x Hx. eapply msg_ok_mono; [exact Hi|exact Hs|by apply Hq]. Qed.

Lemma rec_ok_mono s s' r : steps s s' → rec_ok s r → rec_ok s' r.
Proof. intros Hs. destruct r; try done. by apply ack_ok_mono. Qed.

Lemma commit_ok_mono s s' d v : spec_inv s → steps s s' → commit_ok s d v → commit_ok s' d v.
Proof. intros Hi Hs Hc Hd. destruct (Hc Hd). split; [done|]. by eapply (steps_committed quorum). Qed.

(** Only [commit_index] matters. *)
Lemma commit_ok_same s d v v' : v'.(commit_index) = v.(commit_index) → commit_ok s d v → commit_ok s d v'.
Proof. unfold commit_ok. by intros ->. Qed.

Lemma commit_ok_0 s d v : v.(commit_index) = 0 → commit_ok s d v.
Proof.
  intros Hv _. rewrite Hv. split; [pose proof (zlen_nonneg d.(log)); lia|]. by left.
Qed.

Lemma role_ok_mono o s s' n t v :
  spec_inv s → steps s s' → apart n s s' → role_ok o s n t v → role_ok o s' n t v.
Proof.
  intros Hi Hs Ha. unfold role_ok. destruct (role v); [done|..].
  - intros (Hv & He & Hl). split_and!.
    + intros a Hin. destruct (Hv a Hin). split; [done|]. by eapply (spec_steps_cast quorum).
    + intros He'. by apply He, (ap_elected _ _ _ Ha).
    + intros Hd. rewrite (ap_nlog _ _ _ Ha). eapply (steps_clogs quorum); [done..|by apply Hl].
  - intros (? & He & ? & Hl). split_and!; [done|by eapply (spec_steps_elected quorum)|done|].
    intros Hd. rewrite (ap_nlog _ _ _ Ha), (ap_llog _ _ _ Ha) by done. by apply Hl.
Qed.

Lemma dur_ok_apart s s' n d : spec_inv s → steps s s' → apart n s s' → dur_ok s n d → dur_ok s' n d.
Proof.
  intros Hi Hs Ha []. split; try done.
  - by rewrite (ap_term _ _ _ Ha).
  - intros t c Hc. by apply rd_cast0, (ap_cast _ _ _ Ha).
  - intros c Hc. eapply (spec_steps_cast quorum); [done..|by apply rd_vote0].
  - by rewrite (ap_nlog _ _ _ Ha).
Qed.

(** A node may be put in transition, and leaves it when its role is right. *)
Lemma R_begin n al w s : R None al w s → R (Some n) al w s.
Proof. intros HR. split; try apply HR. intros n' _. by apply HR. Qed.

Lemma R_end n al w s :
  R (Some n) al w s → role_ok w.(objs) s n (dur w n).(current_term) (vol w n) → R None al w s.
Proof.
  intros HR Hn. split; try apply HR. intros n' _. destruct (decide (n' = n)) as [->|Hne]; [done|].
  apply HR. congruence.
Qed.

(** ** Frames *)

Lemma raft_R_ext x al new w w' s :
  sim_ext new w w' → queue_ok s new → (∀ r, r ∈ protos w' → r ∈ protos w ∨ rec_ok s r) →
  R x al w s → R x al w' s.
Proof.
  intros He Hnew Htr HR.
  assert (∀ n, dur w' n = dur w n) as Hd by (intros n; exact (sim_ext_durable _ _ _ n He)).
  assert (∀ n, vol w' n = vol w n) as Hv.
  { intros n. unfold vol, volatile. by rewrite (se_volatile _ _ _ He). }
  assert (w'.(objs) = w.(objs)) as Ho by apply He.
  split; try (rewrite Ho; apply HR); try apply HR.
  - intros n. rewrite Hd. apply HR.
  - intros y. rewrite (se_queue _ _ _ He), elem_of_app. intros [?|?]; [by apply Hnew|by eapply R_queue].
  - intros r Hr. destruct (Htr r Hr); [by eapply R_trace|done].
  - intros n Hx. rewrite Ho, Hd, Hv. by apply HR.
  - intros n. rewrite Hd, Hv. apply HR.
  - rewrite (se_alive _ _ _ He). apply HR.
  - rewrite (se_handlers _ _ _ He). apply HR.
  - rewrite (se_crash _ _ _ He). apply HR.
  - rewrite (se_restart _ _ _ He). apply HR.
  - rewrite (se_handlers _ _ _ He). apply HR.
Qed.

(** A record that replication does not read back. *)
Lemma raft_R_note x al e w w' s :
  sim_ext [] w w' → protos w' = protos w ++ proto_of e → (∀ r, r ∈ proto_of e → rec_ok s r) →
  R x al w s → R x al w' s.
Proof.
  intros He Hp Hr. apply raft_R_ext with (new := []); [done|by intros y ?%elem_of_nil|].
  intros r. rewrite Hp, elem_of_app. intros [?|?]; [by left|right; by apply Hr].
Qed.

(** A write to the durable dictionary of [n], along steps of [n]. *)
Lemma raft_R_dur_ext x al n d w w' s s' :
  dur_ext n d w w' → R x al w s → steps s s' → (∀ n', n' ≠ n → apart n' s s') → dur_ok s' n d →
  (x = Some n ∨ role_ok w.(objs) s' n d.(current_term) (vol w n)) → commit_ok s' d (vol w n) →
  R x al w' s'.
Proof.
  intros He HR Hs Hap Hd Hx Hc. pose proof (R_inv _ _ _ _ HR) as Hi.
  assert (w'.(objs) = w.(objs)) as Ho by apply He.
  assert (∀ n', n' ≠ n → dur w' n' = dur w n') as Hne by (intros; by apply (de_other _ _ _ _ He)).
  assert (dur w' n = d) as Heq by apply (de_at _ _ _ _ He).
  assert (∀ n', vol w' n' = vol w n') as Hv.
  { intros n'. unfold vol, volatile. by rewrite (de_volatile _ _ _ _ He). }
  split; try (rewrite Ho; apply HR).
  - by eapply (spec_steps_inv quorum).
  - intros n'. destruct (decide (n' = n)) as [->|?]; [by rewrite Heq|rewrite Hne by done].
    apply (dur_ok_apart s); auto. by apply HR.
  - rewrite (de_queue _ _ _ _ He). eapply queue_ok_mono; [done..|apply HR].
  - intros r. rewrite (de_protos _ _ _ _ He). intros Hr. eapply rec_ok_mono; [done|by eapply R_trace].
  - intros n' Hxn. rewrite Ho, Hv. destruct (decide (n' = n)) as [->|?].
    + rewrite Heq. by destruct Hx as [->|?].
    + rewrite Hne by done. apply (role_ok_mono _ s); auto. by apply HR.
  - intros n'. rewrite Hv. destruct (decide (n' = n)) as [->|?]; [by rewrite Heq|rewrite Hne by done].
    apply (commit_ok_mono s); [done..|]. by apply HR.
  - rewrite Ho. intros t c Hc'. eapply (spec_steps_elected quorum); [done..|].
    by apply (R_leaders _ _ _ _ HR).
  - rewrite (de_alive _ _ _ _ He). apply HR.
  - rewrite (de_handlers _ _ _ _ He). apply HR.
  - rewrite (de_crash _ _ _ _ He). apply HR.
  - rewrite (de_restart _ _ _ _ He). apply HR.
  - rewrite (de_handlers _ _ _ _ He). apply HR.
Qed.

(** Steps of [n] that its dictionary does not show. *)
Lemma raft_R_steps x al n w s s' :
  R x al w s → steps s s' → (∀ n', n' ≠ n → apart n' s s') → dur_ok s' n (dur w n) →
  (x = Some n ∨ role_ok w.(objs) s' n (dur w n).(current_term) (vol w n)) → R x al w s'.
Proof.
  intros HR Hs Hap Hd Hx. eapply (raft_R_dur_ext x al n (dur w n) w w s s'); try done.
  apply (commit_ok_mono s); [apply HR|done|apply HR].
Qed.

(** The world after [upd_vol n f]. *)
Definition vol_world n (f : RaftVolatile → RaftVolatile) w : World (RaftSig (C := C)) :=
  mkWorld (Σ := RaftSig)
    (set_volatile_state (<[n := f (vol w n)]> w.(sim).(volatile_state)) w.(sim)) w.(objs).

Lemma wp_upd_vol n f (Q : _ → unit → Prop) E w : Q (vol_world n f w) tt → wp (upd_vol n f) Q E w.
Proof. done. Qed.

Definition timer_world n t w : World (RaftSig (C := C)) :=
  mkWorld (Σ := RaftSig) w.(sim) (set_timers (<[n := t]> w.(objs).(timers)) w.(objs)).

Lemma wp_cancel_timer n (Q : _ → unit → Prop) E w :
  Q (timer_world n (mkTimer ((timer w n).(generation) + 1) None) w) tt → wp (cancel_timer n) Q E w.
Proof. done. Qed.

Lemma vol_vol_world n f w n' :
  vol (vol_world n f w) n' = if decide (n' = n) then f (vol w n) else vol w n'.
Proof.
  unfold vol at 1, volatile. simpl. destruct (decide (n' = n)) as [->|Hne].
  - by rewrite lookup_insert_eq.
  - by rewrite lookup_insert_ne.
Qed.

Lemma R_vol_commit x al n f w s :
  R x al w s → commit_ok s (dur w n) (f (vol w n)) →
  (x = Some n ∨ role_ok w.(objs) s n (dur w n).(current_term) (f (vol w n))) →
  R x al (vol_world n f w) s.
Proof.
  intros HR Hc Hf. split; try apply HR.
  - intros n' Hx. rewrite vol_vol_world.
    destruct (decide (n' = n)) as [->|Hne]; [|by apply (R_role _ _ _ _ HR n')].
    destruct Hf as [->|Hf]; [done|exact Hf].
  - intros n'. rewrite vol_vol_world. case_decide as Hn; [subst; exact Hc|apply (R_commit _ _ _ _ HR n')].
Qed.

Lemma R_vol x al n f w s :
  R x al w s → (∀ v, (f v).(commit_index) = v.(commit_index)) →
  (x = Some n ∨ role_ok w.(objs) s n (dur w n).(current_term) (f (vol w n))) →
  R x al (vol_world n f w) s.
Proof.
  intros HR Hc. apply R_vol_commit; [done|]. eapply commit_ok_same; [apply Hc|apply HR].
Qed.

(** A change to the cluster's own attributes. *)
Lemma R_objs x al (o : RaftObjects) w s :
  R x al w s → o.(node_ids) = w.(objs).(node_ids) →
  o.(leaders_by_term) = w.(objs).(leaders_by_term) →
  o.(active_leader_generations) = w.(objs).(active_leader_generations) →
  o.(leadership_generation) = w.(objs).(leadership_generation) →
  R x al (mkWorld (Σ := RaftSig) w.(sim) o) s.
Proof.
  intros HR Hi Hl Ha Hg. split; try apply HR; simpl; rewrite ?Hi, ?Hl, ?Ha, ?Hg; try apply HR.
  intros n Hx. unfold role_ok. rewrite Hl, Ha. by apply HR.
Qed.

Lemma R_timer x al n t w s : R x al w s → R x al (timer_world n t w) s.
Proof. intros HR. by apply (R_objs _ _ (set_timers _ _)). Qed.

Lemma safely_objs x al (f : RaftObjects → RaftObjects) w s :
  (∀ o, (f o).(node_ids) = o.(node_ids) ∧ (f o).(leaders_by_term) = o.(leaders_by_term)
    ∧ (f o).(active_leader_generations) = o.(active_leader_generations)
    ∧ (f o).(leadership_generation) = o.(leadership_generation)) →
  R x al w s → safely x al s (upd_obj f) w.
Proof.
  intros Hf HR. destruct (Hf w.(objs)) as (? & ? & ? & ?). exists s. split; [done|].
  split; [|done]. by apply R_objs.
Qed.

Lemma safely_vol x al n f w s :
  R x al w s → (∀ v, (f v).(commit_index) = v.(commit_index)) → (x = Some n ∨ role_ok w.(objs) s n (dur w n).(current_term) (f (vol w n))) →
  safely x al s (upd_vol n f) w.
Proof. intros HR Hc Hf. exists s. split; [done|]. split; [|done]. by apply R_vol. Qed.

(** Updates that leave a node's role, votes and commit index alone. *)
Lemma safely_vol_same x al n f w s :
  (∀ v, (f v).(role) = v.(role) ∧ (f v).(votes_received) = v.(votes_received)
    ∧ (f v).(commit_index) = v.(commit_index)) →
  R x al w s → safely x al s (upd_vol n f) w.
Proof.
  intros Hf HR. apply safely_vol; [done|apply Hf|]. destruct (Hf (vol w n)) as (Hr & Hv & _).
  destruct (decide (x = Some n)) as [?|Hx]; [by left|right].
  unfold role_ok. rewrite Hr, Hv. by apply HR.
Qed.

(** Any record but the one replication reads back. *)
Definition plain (e : Event (RaftSig (C := C))) : bool :=
  match e with EvProto (RAppendResponse _ _ _ _ _) => false | _ => true end.

Lemma plain_ok s e : plain e = true → ∀ r, r ∈ proto_of e → rec_ok s r.
Proof. destruct e; try by intros _ r ?%elem_of_nil. intros Hp r' ->%list_elem_of_singleton. by destruct r. Qed.

Lemma wp_record_ok x al s e w (Q : _ → unit → Prop) E :
  R x al w s → (∀ r, r ∈ proto_of e → rec_ok s r) →
  (∀ w', sim_ext [] w w' → protos w' = protos w ++ proto_of e → R x al w' s → Q w' tt) →
  wp (record (Σ := RaftSig) e) Q E w.
Proof.
  intros HR Hr HQ. apply wp_record_protos. intros w' He _ _ Hp. apply HQ; [done..|].
  by eapply raft_R_note.
Qed.

Lemma wp_plain x al s e w (Q : _ → unit → Prop) E :
  R x al w s → plain e = true →
  (∀ w', sim_ext [] w w' → protos w' = protos w ++ proto_of e → R x al w' s → Q w' tt) →
  wp (record (Σ := RaftSig) e) Q E w.
Proof. intros HR He. apply (wp_record_ok x al s); [done|by apply plain_ok]. Qed.

Lemma raft_safely_record x al s e w :
  R x al w s → (∀ r, r ∈ proto_of e → rec_ok s r) → safely x al s (record (Σ := RaftSig) e) w.
Proof.
  intros HR Hr. apply (wp_record_ok x al s); [done|done|]. intros w' _ _ HR'. by exists s.
Qed.

Lemma raft_safely_trace x al s r w :
  R x al w s → plain (EvProto (Σ := RaftSig) r) = true → safely x al s (trace_rec r) w.
Proof. intros HR Hr. by apply raft_safely_record, plain_ok. Qed.

Lemma raft_safely_send x al s sr d p w :
  R x al w s → (∀ k, msg_ok s (mkMessage (Σ := RaftSig) sr d p k None)) →
  safely x al s (net_send sr d p) w.
Proof.
  intros HR Hp. apply wp_send_protos; [lia|]. intros w' new He Hnew _ Htr.
  exists s. split; [done|]. split; [|done].
  eapply raft_R_ext; [exact He| |by intros r; rewrite Htr; left|exact HR].
  intros y Hy. rewrite Forall_forall in Hnew. destruct (Hnew y Hy) as (Hs & Hd & Hpl & Hdd).
  destruct y as [ty qy [sy dy py oy ddy]]; simpl in *; subst. apply Hp.
Qed.

Lemma raft_peers_ids x al w s n : R x al w s → peers w n ⊆ ids.
Proof. intros HR y. unfold peers. rewrite (R_ids _ _ _ _ HR), list_elem_of_filter. naive_solver. Qed.

Lemma safely_to_peers x al s n p w :
  R x al w s → (∀ d k, d ∈ ids → msg_ok s (mkMessage (Σ := RaftSig) n d p k None)) →
  safely x al s (send_to_peers n p) w.
Proof.
  intros HR Hp. apply refines_gets. apply safely_wp.
  apply (wp_for_each _ _ (λ w', R x al w' s)); [done|]. intros d w' Hd HR'.
  apply wp_send_protos; [lia|]. intros w2 new He Hnew _ Htr.
  eapply raft_R_ext; [exact He| |by intros r; rewrite Htr; left|exact HR'].
  intros y Hy. rewrite Forall_forall in Hnew. destruct (Hnew y Hy) as (Hs & Hdst & Hpl & Hdd).
  destruct y as [ty qy [sy dy py oy ddy]]; simpl in *; subst.
  apply Hp. exact (raft_peers_ids _ _ _ _ _ HR _ Hd).
Qed.

Lemma raft_safely_schedule x al (m : Message (RaftSig (C := C))) delay w s :
  R x al w s → msg_ok s m → safely x al s (schedule m delay) w.
Proof.
  intros HR Hm. apply wp_schedule_protos. intros w' d He _ _ Htr.
  exists s. split; [done|]. split; [|done].
  eapply raft_R_ext; [exact He|by intros y ->%list_elem_of_singleton|by intros r; rewrite Htr; left|exact HR].
Qed.

(** ** The log *)

Lemma new_view_ok s n d :
  dur_ok s n d → new_RaftLogView d.(log_base_index) d.(log_base_term) d.(log) = inr (view_of d).
Proof. intros Hd. apply new_RaftLogView_wf. split; [done|apply Hd]. Qed.

Lemma log_view_returns x al n s w :
  R x al w s → log_view n w = (w, inr (view_of (dur w n))).
Proof.
  intros HR. unfold log_view, bind, gets, lift. by rewrite (new_view_ok s n (dur w n) (R_dur _ _ _ _ HR n)).
Qed.

Lemma last_index_returns x al n s w :
  R x al w s → last_log_index n w = (w, inr (last_index (view_of (dur w n)))).
Proof. intros HR. unfold last_log_index, bind. by rewrite (log_view_returns _ _ _ _ _ HR). Qed.

Lemma last_term_returns x al n s w :
  R x al w s → last_log_term n w = (w, inr (last_term (view_of (dur w n)))).
Proof. intros HR. unfold last_log_term, bind. by rewrite (log_view_returns _ _ _ _ _ HR). Qed.

(** A log that was never compacted *)
Lemma disc_view s n d : disc = true → dur_ok s n d → view_of d = mkRaftLogView 0 0 d.(log) ∧ d.(log) = nlog s n.
Proof.
  intros Hd Hok. destruct (rd_log _ _ _ Hok Hd) as [Hl Hb]. split; [|done].
  pose proof (rd_view _ _ _ Hok) as (_ & _ & Ht). unfold view_of in *. simpl in Ht. by rewrite Hb, (Ht Hb).
Qed.

Lemma last_term_end l : last_term (mkRaftLogView (C := C) 0 0 l) = end_term l.
Proof. done. Qed.

Lemma up_to_date_returns x al n s w i t :
  R x al w s → ∃ b, up_to_date n i t w = (w, inr b)
    ∧ (disc = true → b = true → ∀ L, i = zlen L → t = end_term L → as_recent L (nlog s n)).
Proof.
  intros HR. unfold up_to_date, bind. rewrite (last_index_returns _ _ _ _ _ HR).
  rewrite (last_term_returns _ _ _ _ _ HR). eexists. split; [done|].
  intros Hd. destruct (disc_view _ _ _ Hd (R_dur _ _ _ _ HR n)) as [-> Hl]. rewrite last_term_end, Hl.
  intros Hb L -> ->. unfold as_recent. unfold last_index, zlen in Hb. simpl in Hb.
  destruct (Z.eqb_spec (end_term L) (end_term (nlog s n))) as [He|He]; simpl in Hb.
  - right. split; [done|]. apply Z.leb_le in Hb. lia.
  - left. by apply Z.ltb_lt in Hb.
Qed.

Lemma last_index_nonneg x al n s w : R x al w s → 0 ≤ last_index (view_of (dur w n)).
Proof.
  intros HR. destruct (rd_view _ _ _ (R_dur _ _ _ _ HR n)) as [? _].
  unfold last_index. simpl in *. pose proof (zlen_nonneg (log (dur w n))). lia.
Qed.

Lemma last_term_nonneg x al n s w : R x al w s → 0 ≤ last_term (view_of (dur w n)).
Proof.
  intros HR. pose proof (R_dur _ _ _ _ HR n) as Hd. unfold last_term. simpl.
  destruct (last (log (dur w n))) as [e|] eqn:El; [|apply (rd_view _ _ _ Hd)].
  pose proof (rd_entries _ _ _ Hd) as Hes. apply last_Some in El as [l El].
  rewrite El in Hes. apply Forall_app in Hes as [_ He]. by apply Forall_cons in He as [He _].
Qed.
(** ** Leadership lifecycle *)

(** [w'] is [w] up to the trace and the calls observers have got. *)
Definition announced w w' : Prop :=
  sim_ext [] (mkWorld (Σ := RaftSig) w.(sim) w'.(objs)) w'
  ∧ (∀ r, r ∈ protos w' → r ∈ protos w ∨ plain (EvProto (Σ := RaftSig) r) = true)
  ∧ ∃ calls, w'.(objs) = set_observers w.(objs).(observers) calls w.(objs).

Lemma announced_refl w : announced w w.
Proof.
  split; [by destruct w; apply sim_ext_refl|]. split; [by left|].
  exists w.(objs).(observed). by destruct w as [? []].
Qed.

Lemma announced_trans w1 w2 w3 : announced w1 w2 → announced w2 w3 → announced w1 w3.
Proof.
  intros (He1 & Hp1 & c1 & Ho1) (He2 & Hp2 & c2 & Ho2). split_and!.
  - destruct He1, He2. constructor; simpl in *; congruence || (etrans; [done|]; simpl; done).
  - intros r Hr. destruct (Hp2 r Hr); [auto|by right].
  - exists c2. by rewrite Ho2, Ho1.
Qed.

Lemma announced_state w w' n :
  announced w w' → dur w' n = dur w n ∧ vol w' n = vol w n.
Proof.
  intros [He _]. split; unfold dur, vol, durable, volatile.
  - by rewrite (se_persistent _ _ _ He).
  - by rewrite (se_volatile _ _ _ He).
Qed.

Lemma R_announced x al w w' s : announced w w' → R x al w s → R x al w' s.
Proof.
  intros (He & Hp & calls & Ho) HR. eapply raft_R_ext; [exact He| | |].
  - intros y []%elem_of_nil.
  - intros r Hr. destruct (Hp r Hr) as [?|Hr']; [by left|right].
    apply (plain_ok _ _ Hr'). by apply list_elem_of_singleton.
  - rewrite Ho. by apply R_objs.
Qed.

Lemma wp_notify e w E : wp (notify e) (λ w' _, announced w w') E w.
Proof.
  unfold notify. apply wp_bind, wp_gets. apply (wp_for_each _ _ (announced w)); [apply announced_refl|].
  intros o w' _ Hw'. apply wp_modify. eapply announced_trans; [exact Hw'|].
  split; [apply sim_ext_refl|]. split; [by left|by eexists].
Qed.

Lemma wp_announce r e w E :
  plain (EvProto (Σ := RaftSig) r) = true →
  wp (trace_rec r ;; notify e) (λ w' _, announced w w') E w.
Proof.
  intros Hr. apply wp_bind, wp_record_protos. intros w1 He _ _ Hp.
  eapply wp_mono; [apply wp_notify| |done].
  intros w2 a Hw2. eapply announced_trans; [|exact Hw2]. split_and!.
  - destruct He; constructor; simpl; congruence || done.
  - intros r'. rewrite Hp, elem_of_app. simpl. intros [?| ->%list_elem_of_singleton]; [by left|by right].
  - exists w.(objs).(observed). rewrite (se_objs _ _ _ He). by destruct w as [? []].
Qed.

Definition generations_world g act w : World (RaftSig (C := C)) :=
  mkWorld (Σ := RaftSig) w.(sim) (set_generations g act w.(objs)).

Lemma R_retire x al n w s :
  R x al w s → x = Some n ∨ (vol w n).(role) ≠ LEADER →
  R x al (generations_world w.(objs).(leadership_generation)
    (delete n w.(objs).(active_leader_generations)) w) s.
Proof.
  intros HR Hn. split; try apply HR; simpl.
  - intros n' Hx. pose proof (R_role _ _ _ _ HR n' Hx) as Hr. unfold role_ok in *.
    change (vol (generations_world _ _ w) n') with (vol w n').
    change (dur (generations_world _ _ w) n') with (dur w n').
    destruct (role (vol w n')) eqn:Er; [done|done|]. simpl. destruct Hr as (? & ? & (g & Hg) & ?).
    split_and!; [done..| |done]. exists g. rewrite lookup_delete_ne; [done|].
    intros <-. destruct Hn as [->|?]; [done|congruence].
  - intros n' t g [_ Hg]%lookup_delete_Some. by apply (R_generation _ _ _ _ HR n' t).
  - intros n1 n2 t1 t2 g [_ H1]%lookup_delete_Some [_ H2]%lookup_delete_Some.
    by apply (R_distinct _ _ _ _ HR n1 n2 t1 t2 g).
Qed.

Lemma wp_retired n t r x al w s :
  R x al w s → x = Some n ∨ (vol w n).(role) ≠ LEADER →
  wp (notify_leader_retired n t r) (λ w' _, R x al w' s ∧ (∀ m, dur w' m = dur w m)
    ∧ (∀ m, vol w' m = vol w m) ∧ w'.(objs).(leaders_by_term) = w.(objs).(leaders_by_term))
    (λ _ _, False) w.
Proof.
  intros HR Hn. unfold notify_leader_retired. apply wp_bind, wp_gets.
  destruct (active_leader_generations (objs w) !! n) as [[t' g]|]; [|by apply wp_ret].
  destruct (negb _); [by apply wp_ret|]. apply wp_bind, wp_modify.
  set (w1 := mkWorld _ _). assert (R x al w1 s) as HR1 by exact (R_retire _ _ _ _ _ HR Hn).
  change (wp (trace_rec (RLeaderRetired n t g r) ;; (notify (mkLifecycleEvent RETIRED g n t r) ;; ret true))
    (λ w' _, R x al w' s ∧ (∀ m, dur w' m = dur w1 m)
    ∧ (∀ m, vol w' m = vol w1 m) ∧ w'.(objs).(leaders_by_term) = w1.(objs).(leaders_by_term))
    (λ _ _, False) w1).
  clearbody w1. clear HR Hn.
  pose proof (wp_announce (RLeaderRetired n t g r) (mkLifecycleEvent RETIRED g n t r) w1 (λ _ _, False) eq_refl) as Ha.
  apply wp_bind in Ha. apply wp_bind. eapply wp_mono; [exact Ha| |done].
  intros w2 a Ha2. apply wp_bind. eapply wp_mono; [exact Ha2| |done].
  intros w3 a3 Hw3. cbv beta in Hw3. apply wp_ret.
  split_and!; [by eapply R_announced|intros m; by apply announced_state..|].
  destruct Hw3 as (_ & _ & calls & ->). done.
Qed.

Lemma safely_retired n t r x al w s :
  R x al w s → x = Some n ∨ (vol w n).(role) ≠ LEADER →
  safely x al s (notify_leader_retired n t r) w.
Proof.
  intros HR Hn. apply safely_wp. eapply wp_mono; [by eapply wp_retired| |done]. by intros w' a [? _].
Qed.

Lemma R_acquire al n t w s :
  R (Some n) al w s →
  R (Some n) al (generations_world (w.(objs).(leadership_generation) + 1)
    (<[n := (t, w.(objs).(leadership_generation) + 1)]> w.(objs).(active_leader_generations)) w) s.
Proof.
  intros HR. split; try apply HR; simpl.
  - intros n' Hx. pose proof (R_role _ _ _ _ HR n' Hx) as Hr. unfold role_ok in *.
    change (vol (generations_world _ _ w) n') with (vol w n').
    change (dur (generations_world _ _ w) n') with (dur w n').
    destruct (role (vol w n')) eqn:Er; [done|done|]. simpl. destruct Hr as (? & ? & (g & Hg) & ?).
    split_and!; [done..| |done]. exists g. rewrite lookup_insert_ne; [done|congruence].
  - intros n' t' g [[<- [= <- <-]]|[_ Hg]]%lookup_insert_Some.
    + pose proof (R_counter _ _ _ _ HR). lia.
    + pose proof (R_generation _ _ _ _ HR n' t' g Hg). lia.
  - pose proof (R_counter _ _ _ _ HR). lia.
  - intros n1 n2 t1 t2 g [[<- [= <- <-]]|[Hn1 H1]]%lookup_insert_Some [[<- [= _]]|[Hn2 H2]]%lookup_insert_Some.
    + done.
    + pose proof (R_generation _ _ _ _ HR _ _ _ H2). lia.
    + pose proof (R_generation _ _ _ _ HR _ _ _ H1). lia.
    + by apply (R_distinct _ _ _ _ HR n1 n2 t1 t2 g).
Qed.
(** [acquired n t w w']: [w'] is [w] with an active generation of [n] for [t]. *)
Definition acquired n t w w' : Prop :=
  (∀ m, dur w' m = dur w m) ∧ (∀ m, vol w' m = vol w m)
  ∧ w'.(objs).(leaders_by_term) = w.(objs).(leaders_by_term)
  ∧ ∃ g, w'.(objs).(active_leader_generations) !! n = Some (t, g).

Lemma wp_acquire_new n t r al w s :
  R (Some n) al w s →
  wp (upd_obj (λ o, set_generations (o.(leadership_generation) + 1)
        (<[n := (t, o.(leadership_generation) + 1)]> o.(active_leader_generations)) o) ;;
      let! g := gets (λ w, w.(objs).(leadership_generation)) in
      trace_rec (RLeaderAcquired n t g r) ;;
      notify (mkLifecycleEvent ACQUIRED g n t r) ;;
      ret g) (λ w' _, R (Some n) al w' s ∧ acquired n t w w') (λ _ _, False) w.
Proof.
  intros HR. apply wp_bind, wp_modify. set (w1 := mkWorld _ _).
  assert (R (Some n) al w1 s) as HR1 by exact (R_acquire _ _ t _ _ HR).
  assert (acquired n t w w1) as Hacq.
  { split_and!; [done..|]. eexists. simpl. by rewrite lookup_insert_eq. }
  clearbody w1. apply wp_bind, wp_gets. set (g := leadership_generation _).
  pose proof (wp_announce (RLeaderAcquired n t g r) (mkLifecycleEvent ACQUIRED g n t r) w1
    (λ _ _, False) eq_refl) as Ha.
  apply wp_bind in Ha. apply wp_bind. eapply wp_mono; [exact Ha| |done].
  intros w2 a Ha2. apply wp_bind. eapply wp_mono; [exact Ha2| |done].
  intros w3 a3 Hw3. cbv beta in Hw3. apply wp_ret. split; [by eapply R_announced|].
  destruct Hacq as (Hd & Hv & Hl & g' & Hg). destruct (Hw3) as (_ & _ & calls & Ho).
  split_and!.
  - intros m. rewrite <-Hd. by apply announced_state.
  - intros m. rewrite <-Hv. by apply announced_state.
  - by rewrite Ho.
  - exists g'. by rewrite Ho.
Qed.

Lemma wp_acquired n t r al w s :
  R (Some n) al w s →
  wp (notify_leader_acquired n t r) (λ w' _, R (Some n) al w' s ∧ acquired n t w w')
    (λ _ _, False) w.
Proof.
  intros HR. unfold notify_leader_acquired. apply wp_bind, wp_gets. cbv zeta.
  destruct (active_leader_generations (objs w) !! n) as [[t' g]|] eqn:Ea; [|by apply wp_acquire_new].
  destruct (Z.eqb_spec t' t) as [->|Hne].
  - apply wp_ret. split; [done|]. split_and!; [done..|]. by exists g.
  - apply wp_bind. eapply wp_mono; [by eapply wp_retired; [|left]| |done].
    intros w1 a (HR1 & Hd & Hv & Hl). eapply wp_mono; [by apply wp_acquire_new| |done].
    intros w2 a2 (HR2 & Hd2 & Hv2 & Hl2 & Hg). split; [done|]. split_and!; [..|exact Hg].
    + intros m. by rewrite Hd2.
    + intros m. by rewrite Hv2.
    + by rewrite Hl2.
Qed.

(** A candidate backed by a majority is recorded without complaint. *)
Lemma wp_record_leader t n al w s (Q : _ → unit → Prop) E :
  R (Some n) al w s → backed quorum s t n → t = (dur w n).(current_term) →
  s.(elected) !! t ≠ Some n → (disc = true → s.(clogs) !! (t, n) = Some (nlog s n)) →
  (∀ w', R (Some n) al w' (elect_state s n t) → spec_step quorum disc may s (elect_state s n t) →
     (∀ m, dur w' m = dur w m) → (∀ m, vol w' m = vol w m) →
     w'.(objs).(leaders_by_term) !! t = Some n → Q w' tt) →
  wp (record_leader t n) Q E w.
Proof.
  intros HR Hb Ht Hne Hcl HQ. unfold record_leader. apply wp_bind, wp_gets.
  pose proof (R_inv _ _ _ _ HR) as Hi.
  assert (s.(elected) !! t = None) as Hnone.
  { destruct (s.(elected) !! t) as [c|] eqn:Hc; [|done]. destruct Hne.
    by rewrite <-(elected_backed quorum _ _ _ _ (si_election _ _ _ Hi) Hc Hb). }
  assert (∀ e, leaders_by_term (objs w) !! t = Some e → e = n) as He.
  { intros e He%(R_leaders _ _ _ _ HR). congruence. }
  apply wp_bind, wp_raise_if; [|intros _].
  { destruct (leaders_by_term (objs w) !! t) as [e|]; [|done]. by rewrite (He e eq_refl), String.eqb_refl. }
  assert (spec_step quorum disc may s (elect_state s n t)) as Hstep.
  { constructor; [done| |done..]. rewrite (rd_known _ _ _ (R_dur _ _ _ _ HR n)). lia. }
  assert (steps s (elect_state s n t)) as Hs by by apply rtc_once.
  assert (R (Some n) al w (elect_state s n t)) as HR1.
  { apply (raft_R_steps _ _ n _ s); [done..| | |by left].
    - intros m Hm. by apply apart_elect.
    - destruct (R_dur _ _ _ _ HR n). by split. }
  apply wp_modify. apply HQ; [|done..|simpl; by rewrite lookup_insert_eq].
  split; try apply HR1; simpl.
  - intros m Hx. pose proof (R_role _ _ _ _ HR1 m Hx) as Hr. unfold role_ok in *.
    change (vol (mkWorld _ _) m) with (vol w m). change (dur (mkWorld _ _) m) with (dur w m).
    destruct (role (vol w m)); [done|exact Hr|]. destruct Hr as (Hl & Hel & Hg & Hll).
    split_and!; [|done..]. simpl.
    destruct (decide (t = current_term (dur w m))) as [Heq|Hneq]; [|by rewrite lookup_insert_ne].
    rewrite <-Heq in Hel |- *. simpl in Hel. rewrite lookup_insert_eq in Hel. by rewrite lookup_insert_eq.
  - intros t' c [[<- <-]|[Hneq Hc]]%lookup_insert_Some; [by rewrite lookup_insert_eq|].
    rewrite lookup_insert_ne by done. by apply (R_leaders _ _ _ _ HR).
Qed.

Lemma safely_become_leader n t al w s :
  R None al w s →
  (t = (dur w n).(current_term) → (vol w n).(role) = CANDIDATE → backed quorum s t n) →
  safely None al s (become_leader n t) w.
Proof.
  intros HR Hb. unfold become_leader. do 2 apply refines_gets.
  destruct (Z.eqb_spec t (current_term (dur w n))) as [Ht|]; simpl; [|by apply safely_intro].
  unfold is_role. case_bool_decide as Hr; simpl; [|by apply safely_intro].
  pose proof (R_role _ _ _ _ HR n ltac:(done)) as Hrole. unfold role_ok in Hrole. rewrite Hr, <-Ht in Hrole.
  destruct Hrole as (_ & Hel & Hcl). specialize (Hb Ht Hr).
  apply R_begin with (n := n) in HR.
  apply wp_bind, (wp_record_leader _ _ al _ s); [done..|].
  intros w1 HR1 Hstep Hd1 Hv1 Hl1. set (s1 := elect_state s n t) in *.
  apply (refines_steps _ _ _ _ s1); [by apply rtc_once|].
  assert (s1.(elected) !! t = Some n) as Hel1 by (simpl; by rewrite lookup_insert_eq).
  assert (s1.(llogs) !! t = Some (nlog s1 n)) as Hll1 by (simpl; by rewrite lookup_insert_eq).
  clearbody s1. apply wp_bind, wp_upd_vol.
  assert (R (Some n) al (vol_world n (set_role LEADER) w1) s1) as HR2
    by (apply R_vol; [done..|by left]).
  set (w2 := vol_world n (set_role LEADER) w1) in *.
  assert (role (vol w2 n) = LEADER) as Hr2 by (unfold w2; by rewrite vol_vol_world, decide_True).
  assert (dur w2 n = dur w n ∧ objs w2 = objs w1) as [Hd2 Ho2] by (split; [apply Hd1|done]).
  clearbody w2. apply wp_bind, wp_upd_vol.
  assert (R (Some n) al (vol_world n (set_pre_vote None ∅) w2) s1) as HR3
    by (apply R_vol; [done..|by left]).
  set (w3 := vol_world n (set_pre_vote None ∅) w2) in *.
  assert (role (vol w3 n) = LEADER) as Hr3.
  { unfold w3. rewrite vol_vol_world, decide_True by done. done. }
  assert (dur w3 n = dur w n ∧ objs w3 = objs w1) as [Hd3 Ho3] by done.
  clearbody w3. apply wp_bind, wp_cancel_timer. set (w4 := timer_world _ _ _).
  assert (R (Some n) al w4 s1) as HR4 by by apply R_timer.
  apply wp_bind, (wp_plain (Some n) al s1); [done..|]. intros w5 He5 _ HR5.
  apply wp_bind. eapply wp_mono; [by eapply wp_acquired| |done].
  intros w6 a (HR6 & Hd6 & Hv6 & Hl6 & Hg6). apply wp_ret.
  exists s1. split; [done|]. split; [|done].
  assert (dur w5 n = dur w n) as Hd5 by (etrans; [exact (sim_ext_durable _ _ _ n He5)|exact Hd3]).
  assert (vol w5 n = vol w3 n) as Hv5.
  { unfold vol, volatile. rewrite (se_volatile _ _ _ He5). done. }
  apply (R_end n); [done|]. unfold role_ok. rewrite Hv6, Hv5, Hr3, Hd6, Hd5, <-Ht.
  split_and!; [|done..]. rewrite Hl6, (se_objs _ _ _ He5). simpl. by rewrite Ho3.
Qed.
(** ** Timers *)

Lemma wp_reset_timeout x al n r w s :
  R x al w s → n ∈ ids →
  wp (reset_election_timeout n r) (λ w' _, R x al w' s ∧ (∀ m, dur w' m = dur w m)
    ∧ ∀ m, vol w' m = vol w m) (λ _ _, False) w.
Proof.
  intros HR Hn. unfold reset_election_timeout. do 2 apply wp_bind, wp_gets.
  destruct (timeouts (objs w) !! n) as [t|]; [|by apply wp_ret].
  destruct (is_role w n LEADER); [by apply wp_ret|]. do 2 apply wp_bind, wp_gets.
  apply wp_bind, wp_modify. set (g := generation _ + 1). set (d := time _ + t).
  assert (R x al (timer_world n (mkTimer g (Some d)) w) s) as HR1 by by apply R_timer.
  set (w1 := timer_world _ _ _) in HR1.
  apply wp_bind, (wp_plain x al s _ w1); [done..|]. intros w2 He2 _ HR2.
  apply wp_schedule_protos. intros w3 x3 He3 _ _ Htr. split_and!.
  - eapply raft_R_ext; [exact He3|by intros y ->%list_elem_of_singleton| |exact HR2].
    intros r'. rewrite Htr. by left.
  - intros m. etrans; [exact (sim_ext_durable _ _ _ m He3)|]. exact (sim_ext_durable _ _ _ m He2).
  - intros m. unfold vol, volatile. by rewrite (se_volatile _ _ _ He3), (se_volatile _ _ _ He2).
Qed.

Lemma safely_reset_timeout x al n r w s :
  R x al w s → n ∈ ids → safely x al s (reset_election_timeout n r) w.
Proof.
  intros HR Hn. apply safely_wp. eapply wp_mono; [by eapply wp_reset_timeout| |done].
  by intros w' a [? _].
Qed.

(** ** Terms and votes *)

(** What a node that stands for [s] may write, and what it stands for then: a
    later term, alone or with a vote for itself, or a vote in its term. *)
Inductive persists s n (d : Durable) : Z → option string → Spec C → Prop :=
  | ps_observe t : d.(current_term) < t → persists s n d t None (observe_state s n t)
  | ps_stand t : d.(current_term) < t → persists s n d t (Some n) (stand_state s n t)
  | ps_vote c :
      d.(voted_for) = None ∨ d.(voted_for) = Some c →
      (disc = true → ∃ L, s.(clogs) !! (d.(current_term), c) = Some L ∧ as_recent L (nlog s n)) →
      persists s n d d.(current_term) (Some c) (vote_state s n c).

Lemma persists_step s n d t v s' : dur_ok s n d → persists s n d t v s' → spec_step quorum disc may s s'.
Proof.
  intros Hd Hp. pose proof (rd_known _ _ _ Hd) as Hk. destruct Hp as [t Ht|t Ht|c Hv Hrec].
  - constructor. lia.
  - constructor. lia.
  - constructor; rewrite Hk; [|done]. intros c' Hc'.
    destruct (rd_cast _ _ _ Hd _ _ Hc') as [_ Heq]. specialize (Heq eq_refl). destruct Hv; congruence.
Qed.

Lemma persists_apart s n d t v s' n' : n' ≠ n → persists s n d t v s' → apart n' s s'.
Proof. intros Hne []; [by apply apart_observe|by apply apart_stand|by apply apart_vote]. Qed.

Lemma persists_le s n d t v s' : persists s n d t v s' → d.(current_term) ≤ t.
Proof. intros []; lia. Qed.

Lemma persists_nlog s n d t v s' : persists s n d t v s' → nlog s' n = nlog s n.
Proof. by intros []. Qed.

Lemma persists_dur_ok s n d t v s' :
  dur_ok s n d → persists s n d t v s' → dur_ok s' n (set_term_vote t v d).
Proof.
  intros Hd Hp. pose proof Hd as []. pose proof (persists_le _ _ _ _ _ _ Hp).
  split; simpl; [lia| | | |done|done|by rewrite (persists_nlog _ _ _ _ _ _ Hp)].
  - destruct Hp; [unfold term_of; simpl; by rewrite lookup_insert_eq..|done].
  - intros u c. destruct Hp as [t Ht|t Ht|c' Hv _]; simpl.
    + intros Hin. destruct (rd_cast0 _ _ Hin). split; lia.
    + intros [[= -> ->]|Hin]%elem_of_cons; [done|]. destruct (rd_cast0 _ _ Hin). split; lia.
    + rewrite rd_known0. intros [[= -> ->]|Hin]%elem_of_cons; [done|].
      destruct (rd_cast0 _ _ Hin) as [Hle Heq]. split; [done|]. intros Hu. specialize (Heq Hu).
      destruct Hv; congruence.
  - intros c. destruct Hp as [t Ht|t Ht|c' Hv _]; simpl; [done|..].
    + intros [= <-]. by left.
    + intros [= <-]. rewrite rd_known0. by left.
Qed.

Lemma persists_commit s n d t v vo s' :
  dur_ok s n d → persists s n d t v s' → spec_inv s → commit_ok s d vo → commit_ok s' (set_term_vote t v d) vo.
Proof.
  intros Hd Hp Hi Hc Hdisc. destruct (Hc Hdisc) as [? Hcom]. split; [done|]. simpl.
  eapply committed_weaken; [|by eapply persists_le|done].
  eapply (steps_committed quorum); [done..|apply rtc_once; by eapply persists_step|exact Hcom].
Qed.

Lemma wp_persist_term n t v al w s s' (Q : _ → unit → Prop) E :
  R (Some n) al w s → persists s n (dur w n) t v s' →
  (∀ w', R (Some n) al w' s' → (∀ m, vol w' m = vol w m) → w'.(objs) = w.(objs) →
     dur w' n = set_term_vote t v (dur w n) → Q w' tt) →
  wp (persist_term_and_vote n t v) Q E w.
Proof.
  intros HR Hp HQ. unfold persist_term_and_vote. apply wp_bind, wp_persist. intros w1 He1.
  pose proof (R_dur _ _ _ _ HR n) as Hd.
  assert (R (Some n) al w1 s') as HR1.
  { eapply raft_R_dur_ext; [exact He1|exact HR| | | |by left|].
    - apply rtc_once. by eapply persists_step.
    - intros n' Hne. by eapply persists_apart.
    - by eapply persists_dur_ok.
    - eapply persists_commit; [exact Hd|exact Hp|apply HR|apply HR]. }
  apply (wp_plain (Some n) al s'); [done..|]. intros w2 He2 _ HR2. apply HQ; [done|..].
  - intros m. unfold vol, volatile. rewrite (se_volatile _ _ _ He2).
    by rewrite (de_volatile _ _ _ _ He1).
  - by rewrite (se_objs _ _ _ He2), (de_objs _ _ _ _ He1).
  - etrans; [exact (sim_ext_durable _ _ _ n He2)|]. apply (de_at _ _ _ _ He1).
Qed.

(** Falling back to follower, which is where a transition ends. *)
Lemma wp_demote {A} n al w s (k : M _ A) (Q : _ → A → Prop) E :
  R (Some n) al w s →
  (∀ w', R None al w' s → (vol w' n).(role) = FOLLOWER → (∀ m, dur w' m = dur w m) →
     w'.(objs) = w.(objs) → wp k Q E w') →
  wp (upd_vol n (set_role FOLLOWER) ;; upd_vol n (set_votes ∅) ;; clear_pre_vote n ;; k) Q E w.
Proof.
  intros HR Hk. do 3 apply wp_bind, wp_upd_vol.
  assert (role (vol (vol_world n (set_pre_vote None ∅) (vol_world n (set_votes ∅)
    (vol_world n (set_role FOLLOWER) w))) n) = FOLLOWER) as Hr.
  { rewrite !vol_vol_world, !decide_True by done. done. }
  apply Hk; [|exact Hr|done|done].
  apply (R_end n); [|unfold role_ok; by rewrite Hr].
  do 3 (apply R_vol; [|done|by left]). done.
Qed.

Lemma safely_advance_term n t b al w s :
  R None al w s → n ∈ ids → safely None al s (advance_term n t b) w.
Proof.
  intros HR Hn. unfold advance_term. apply refines_gets.
  destruct (Z.leb_spec t (current_term (dur w n))) as [|Ht]; [by apply safely_intro|].
  apply refines_gets. pose proof (R_dur _ _ _ _ HR n) as Hd.
  pose proof (ps_observe s n _ _ Ht) as Hw. set (s1 := observe_state s n t) in *.
  assert (steps s s1) as Hs1 by (apply rtc_once; by eapply persists_step). clearbody s1.
  apply R_begin with (n := n) in HR.
  apply wp_bind, (wp_persist_term n _ _ al _ s s1); [done..|].
  intros w1 HR1 _ _ _. apply (refines_steps _ _ _ _ s1); [done|].
  apply (wp_demote n al _ s1); [done|]. intros w2 HR2 Hr2 _ _.
  eapply safely_bind.
  - apply safely_when; [done|intros _].
    eapply safely_bind; [apply safely_retired; [done|right; congruence]|].
    intros s3 w3 _ _ HR3. by apply safely_intro.
  - intros s3 w3 _ _ HR3. eapply safely_bind; [by apply raft_safely_trace|].
    intros s4 w4 _ _ HR4. apply safely_when; [done|intros _]. by apply safely_reset_timeout.
Qed.

(** ** Elections *)

Definition up (al : gmap string bool) n : Prop := default true (al !! n) = true.

(** The node is up, or a [RuntimeError] is allowed. *)
Definition may_run al n : Prop := up al n ∨ ∀ msg, ok (Exn RuntimeError msg).

Lemma refines_alive {B} x al n msg s w (k : unit → M _ B) (Q : _ → _ → B → Prop) :
  R x al w s → may_run al n → refines x al s (k tt) Q w →
  refines x al s (bind (gets (λ w, is_alive w n)) (λ up, bind (raise_if (negb up) RuntimeError msg) k)) Q w.
Proof.
  intros HR Hup Hk. apply refines_gets. apply refines_check; [done| |done].
  unfold is_alive. rewrite (R_alive _ _ _ _ HR). intros Hn%negb_true_iff.
  destruct Hup as [Hup|Hok]; [|done]. unfold up in Hup. congruence.
Qed.

Lemma majority_backed s t n (Q : gset string) :
  (∀ a, a ∈ Q → a ∈ ids ∧ (t, a, n) ∈ s.(cast)) → quorum_size ids ≤ Z.of_nat (size Q) →
  backed quorum s t n.
Proof.
  intros HQ Hsize. exists Q. split; [split; [|done]|].
  - intros a Ha. apply elem_of_list_to_set. by apply HQ.
  - intros a Ha. by apply HQ.
Qed.

Lemma refines_majority {B} x al (v : Z) s w (k : bool → M _ B) (Q : _ → _ → B → Prop) :
  R x al w s → refines x al s (k (quorum_size ids <=? v)) Q w →
  refines x al s (bind (has_majority v) k) Q w.
Proof. intros HR Hk. apply refines_gets. by rewrite (R_ids _ _ _ _ HR). Qed.

Lemma new_RequestVote_ok t c li lt :
  0 ≤ t → 0 ≤ li → 0 ≤ lt → new_RequestVote t c li lt = inr (mkRequestVote t c li lt).
Proof.
  intros. unfold new_RequestVote. by rewrite !(proj2 (Z.ltb_ge _ _)) by done.
Qed.

Lemma new_PreVote_ok t c li lt :
  0 < t → 0 ≤ li → 0 ≤ lt → new_PreVote t c li lt = inr (mkPreVote t c li lt).
Proof.
  intros. unfold new_PreVote. rewrite (proj2 (Z.leb_gt _ _)) by done.
  by rewrite !(proj2 (Z.ltb_ge _ _)) by done.
Qed.

Lemma safely_start_election n al w s :
  R None al w s → n ∈ ids → may_run al n → safely None al s (start_election n) w.
Proof.
  intros HR Hn Hup. unfold start_election. apply refines_alive; [done..|].
  eapply safely_bind; [by apply safely_vol_same|]. clear HR w. intros s0 w _ _ HR.
  apply refines_gets. cbv zeta. set (t := current_term (dur w n) + 1).
  pose proof (R_dur _ _ _ _ HR n) as Hd. pose proof (rd_term _ _ _ Hd).
  pose proof (last_index_nonneg _ _ n _ _ HR). pose proof (last_term_nonneg _ _ n _ _ HR).
  assert (persists s0 n (dur w n) t (Some n) (stand_state s0 n t)) as Hw by (constructor; lia).
  set (s1 := stand_state s0 n t) in *.
  assert (steps s0 s1) as Hs1 by (apply rtc_once; by eapply persists_step).
  assert ((t, n, n) ∈ s1.(cast)) as Hown by by left.
  assert (s1.(elected) !! t ≠ Some n) as Hnot.
  { intros Hel%(si_reached _ _ _ (R_inv _ _ _ _ HR)). rewrite (rd_known _ _ _ Hd) in Hel. lia. }
  assert (s1.(clogs) !! (t, n) = Some (nlog s1 n)) as Hcl by (simpl; by rewrite lookup_insert_eq).
  clearbody s1. apply R_begin with (n := n) in HR.
  apply wp_bind, (wp_persist_term n _ _ al _ s0 s1); [done..|].
  intros w1 HR1 Hv1 Ho1 Hd1. apply (refines_steps _ _ _ _ s1); [done|].
  do 2 apply wp_bind, wp_upd_vol. set (w2 := vol_world n (set_votes {[n]}) _).
  assert (∀ a, a ∈ ({[n]} : gset string) → a ∈ ids ∧ (t, a, n) ∈ s1.(cast)) as Hvotes.
  { by intros a ->%elem_of_singleton. }
  assert (dur w2 n = set_term_vote t (Some n) (dur w n)) as Hd2 by exact Hd1.
  assert (R None al w2 s1) as HR2.
  { apply (R_end n); [do 2 (apply R_vol; [|done|by left]); done|].
    rewrite Hd2. unfold role_ok, w2. rewrite !vol_vol_world, !decide_True by done. by split_and!. }
  assert (request_ok s1 (mkRequestVote t n (last_index (view_of (dur w n))) (last_term (view_of (dur w n))))) as Hreq.
  { intros Hdisc. destruct (disc_view _ _ _ Hdisc (R_dur _ _ _ _ HR2 n)) as [Hv2 Hl2].
    exists (nlog s1 n). split; [done|]. rewrite Hd2 in Hv2, Hl2.
    change (view_of (set_term_vote t (Some n) (dur w n))) with (view_of (dur w n)) in Hv2. simpl.
    by rewrite Hv2, <-Hl2. }
  clearbody w2. eapply refines_returns; [by eapply last_index_returns|].
  eapply refines_returns; [by eapply last_term_returns|].
  rewrite Hd2. change (view_of (set_term_vote t (Some n) (dur w n))) with (view_of (dur w n)).
  eapply safely_bind; [by apply raft_safely_trace|]. intros s3 w3 _ Hs3 HR3.
  eapply safely_bind; [by apply safely_reset_timeout|]. intros s4 w4 _ Hs4 HR4.
  apply refines_majority; [done|]. destruct (Z.leb_spec (quorum_size ids) 1).
  - apply safely_become_leader; [done|]. intros _ _.
    apply (majority_backed _ _ _ {[n]}); [|by rewrite size_singleton].
    intros a Ha. destruct (Hvotes a Ha) as [??]. split; [done|].
    eapply (spec_steps_cast quorum); [|etrans; [exact Hs3|exact Hs4]|done]. apply HR2.
  - rewrite new_RequestVote_ok by (done || lia). apply wp_bind, wp_lift.
    apply safely_to_peers; [done|]. intros d k Hd'. split; [|done].
    apply (msg_ok_mono s1 s4 (mkMessage (Σ := RaftSig) n d (PRequestVote _) k None));
      [apply HR2|by etrans|by split].
Qed.

Lemma safely_start_pre_vote n al w s :
  R None al w s → n ∈ ids → may_run al n → safely None al s (start_pre_vote n) w.
Proof.
  intros HR Hn Hup. unfold start_pre_vote. apply refines_alive; [done..|].
  apply refines_gets. destruct (is_role w n LEADER); [by apply safely_intro|].
  apply refines_gets. cbv zeta. set (t := current_term (dur w n) + 1).
  assert (0 < t) as Ht by (pose proof (rd_term _ _ _ (R_dur _ _ _ _ HR n)); lia).
  clearbody t.
  eapply safely_bind; [by apply safely_vol_same|]. intros s1 w1 _ _ HR1.
  eapply refines_returns; [by eapply last_index_returns|].
  eapply refines_returns; [by eapply last_term_returns|].
  pose proof (last_index_nonneg _ _ n _ _ HR1) as Hi. pose proof (last_term_nonneg _ _ n _ _ HR1) as Hlt.
  set (li := last_index _) in *. set (lt := last_term _) in *. clearbody li lt.
  eapply safely_bind; [by apply raft_safely_trace|]. intros s2 w2 _ _ HR2.
  apply refines_majority; [done|]. destruct (quorum_size ids <=? 1).
  - eapply safely_bind; [by apply safely_vol_same|]. intros s3 w3 _ _ HR3.
    by apply safely_start_election.
  - eapply safely_bind; [by apply safely_reset_timeout|]. intros s3 w3 _ _ HR3.
    rewrite new_PreVote_ok by done. apply wp_bind, wp_lift.
    apply safely_to_peers; [done|]. intros d k Hd'. by repeat split.
Qed.
Lemma safely_step_down n r al w s :
  R None al w s → n ∈ ids → may_run al n → (∀ msg, ok (Exn ValueError msg)) →
  safely None al s (step_down n r) w.
Proof.
  intros HR Hn Hup Hok. unfold step_down. apply refines_check; [done|by intros _|intros _].
  apply refines_alive; [done..|]. apply refines_gets.
  destruct (negb (is_role w n LEADER)); [by apply refines_ret|]. apply refines_gets.
  apply R_begin with (n := n) in HR.
  apply (wp_demote n al _ s); [done|]. intros w1 HR1 Hr1 _ _.
  eapply safely_bind; [apply safely_retired; [done|right; congruence]|]. intros s2 w2 _ _ HR2.
  eapply safely_bind; [by apply raft_safely_trace|]. intros s3 w3 _ _ HR3.
  eapply safely_bind; [by apply safely_reset_timeout|]. intros s4 w4 _ _ HR4. by apply refines_ret.
Qed.

(** ** Voting *)

Lemma safely_handle_timeout n g dl al w s :
  R None al w s → n ∈ ids → may_run al n → safely None al s (handle_election_timeout n g dl) w.
Proof.
  intros HR Hn Hup. unfold handle_election_timeout. do 2 apply refines_gets.
  destruct (negb _); [by apply raft_safely_trace|]. destruct (negb _); [by apply raft_safely_trace|].
  destruct (match deadline (timer w n) with None => _ | Some _ => _ end); [by apply raft_safely_trace|].
  apply refines_gets. destruct (is_role w n LEADER); [by apply safely_intro|].
  eapply safely_bind; [by apply raft_safely_trace|]. intros s1 w1 _ _ HR1.
  by apply safely_start_pre_vote.
Qed.

Lemma safely_handle_pre_vote n sr (m : PreVote) al w s :
  R None al w s → sr ∈ ids → 0 < m.(pv_term) → safely None al s (handle_pre_vote n sr m) w.
Proof.
  intros HR Hsr Hm. unfold handle_pre_vote.
  destruct (up_to_date_returns _ _ n _ _ (pv_last_log_index m) (pv_last_log_term m) HR) as (b & Hb & _).
  eapply refines_returns; [exact Hb|]. apply refines_gets. cbv zeta.
  pose proof (rd_term _ _ _ (R_dur _ _ _ _ HR n)) as Ht. set (t := current_term _) in *. clearbody t.
  eapply refines_returns; [by eapply last_index_returns|].
  eapply refines_returns; [by eapply last_term_returns|].
  eapply safely_bind; [by apply raft_safely_trace|]. intros s1 w1 _ _ HR1.
  unfold new_PreVoteResponse.
  rewrite (proj2 (Z.ltb_ge _ _) Ht), (proj2 (Z.leb_gt _ _) Hm). apply wp_bind, wp_lift.
  apply raft_safely_send; [done|]. intros k. by repeat split.
Qed.

Lemma safely_handle_pre_vote_response n (m : PreVoteResponse) al w s :
  R None al w s → n ∈ ids → may_run al n → safely None al s (handle_pre_vote_response n m) w.
Proof.
  intros HR Hn Hup. unfold handle_pre_vote_response. apply refines_gets.
  destruct (_ <? _); [by apply safely_advance_term|]. apply refines_gets.
  destruct (_ || _); [by apply safely_intro|]. destruct (negb _); [by apply safely_intro|]. cbv zeta.
  eapply safely_bind; [by apply safely_vol_same|]. intros s1 w1 _ _ HR1.
  apply refines_majority; [done|]. apply safely_when; [done|intros _].
  eapply safely_bind; [by apply safely_vol_same|]. intros s2 w2 _ _ HR2.
  by apply safely_start_election.
Qed.

(** A vote granted is a vote cast. *)
Lemma refines_vote_for n (m : RequestVote) al w s :
  R None al w s → n ∈ ids → m.(rv_term) = (dur w n).(current_term) →
  (disc = true → ∃ L, s.(clogs) !! (m.(rv_term), m.(rv_candidate_id)) = Some L ∧ as_recent L (nlog s n)) →
  refines None al s (vote_for n m) (λ w' s' b, (dur w' n).(current_term) = m.(rv_term)
    ∧ (b = true → (m.(rv_term), n, m.(rv_candidate_id)) ∈ s'.(cast))) w.
Proof.
  intros HR Hn Ht Hrec. unfold vote_for. apply refines_gets.
  set (free := match voted_for _ with None => _ | Some _ => _ end).
  destruct free eqn:Hfree; [|by apply refines_ret].
  set (s1 := vote_state s n (rv_candidate_id m)).
  assert (persists s n (dur w n) (rv_term m) (Some (rv_candidate_id m)) s1) as Hw.
  { rewrite Ht in Hrec |- *. constructor; [|done]. subst free.
    destruct (voted_for (dur w n)) as [c|]; [right|by left]. by apply String.eqb_eq in Hfree as ->. }
  pose proof (R_dur _ _ _ _ HR n) as Hd.
  assert ((rv_term m, n, rv_candidate_id m) ∈ s1.(cast)) as Hcast.
  { rewrite Ht, <-(rd_known _ _ _ Hd). by left. }
  assert (steps s s1) as Hs1 by (apply rtc_once; by eapply persists_step). clearbody s1.
  apply R_begin with (n := n) in HR.
  apply wp_bind, (wp_persist_term n _ _ al _ s s1); [done..|].
  intros w1 HR1 Hv1 Ho1 Hd1. apply (refines_steps _ _ _ _ s1); [done|].
  apply wp_bind, wp_upd_vol. set (w2 := vol_world n (set_role FOLLOWER) w1).
  assert (R None al w2 s1) as HR2.
  { apply (R_end n); [apply R_vol; [done..|by left]|].
    unfold role_ok, w2. by rewrite vol_vol_world, decide_True. }
  assert (dur w2 n = set_term_vote (rv_term m) (Some (rv_candidate_id m)) (dur w n)) as Hd2 by exact Hd1.
  clearbody w2. apply wp_bind, wp_upd_vol. set (w3 := vol_world n _ w2).
  assert (R None al w3 s1) as HR3.
  { apply R_vol; [done..|right]. pose proof (R_role _ _ _ _ HR2 n ltac:(done)) as Hr.
    unfold role_ok in *. simpl. exact Hr. }
  apply wp_bind. eapply wp_mono; [by apply (wp_reset_timeout _ _ _ _ _ _ HR3)| |done].
  intros w4 a (HR4 & Hd4 & _). apply refines_ret; [done|].
  rewrite Hd4. change (dur w3 n) with (dur w2 n). rewrite Hd2. by split.
Qed.

Lemma refines_when {A} x al (b : bool) (m : M _ unit) (k : unit → M _ A) (Q : _ → _ → A → Prop) s w :
  R x al w s →
  (b = true → refines x al s (bind m k) Q w) → (b = false → refines x al s (k tt) Q w) →
  refines x al s (bind (when b m) k) Q w.
Proof. intros HR H1 H2. destruct b; [by apply H1|]. apply wp_bind. by apply H2. Qed.

Lemma safely_handle_request_vote n (m : RequestVote) al w s :
  R None al w s → n ∈ ids → m.(rv_candidate_id) ∈ ids → request_ok s m →
  safely None al s (handle_request_vote n m.(rv_candidate_id) m) w.
Proof.
  intros HR Hn Hc Hreq. unfold handle_request_vote. do 2 apply refines_gets. cbv zeta.
  set (retired := is_role w n LEADER && _). clearbody retired.
  eapply safely_bind; [apply safely_when; [done|by intros _; apply safely_advance_term]|].
  pose proof (R_inv _ _ _ _ HR) as Hi. clear HR w. intros s1 w _ Hs1 HR.
  destruct (up_to_date_returns _ _ n _ _ (rv_last_log_index m) (rv_last_log_term m) HR) as (b & Hb & Hrec).
  eapply refines_returns; [exact Hb|]. apply refines_gets.
  eapply (refines_bind _ _ _ _ _ _ _ (λ w' s' g, g = true → (dur w' n).(current_term) = m.(rv_term)
    ∧ (m.(rv_term), n, m.(rv_candidate_id)) ∈ s'.(cast))).
  { destruct (Z.eqb_spec (rv_term m) (current_term (dur w n))) as [Ht|]; simpl;
      [destruct b; simpl|]; [|by apply refines_ret..].
    eapply refines_weaken; [apply refines_vote_for; [done..|]|].
    { intros Hd. destruct (Hreq Hd) as (L & HL & Hli & Hlt). exists L.
      split; [by eapply (steps_clogs quorum)|by apply Hrec]. } intros s' w' a _ _ [? ?]. auto. }
  intros s2 w2 grant Hs2 HR2 Hgrant.
  assert (safely None al s2 (
    let! li := last_log_index n in
    let! lt := last_log_term n in
    trace_rec (RVote n m.(rv_candidate_id) m.(rv_term) grant b
      m.(rv_last_log_index) m.(rv_last_log_term) li lt) ;;
    let! d := gets (λ w, dur w n) in
    net_send n m.(rv_candidate_id)
      (PRequestVoteResponse (mkRequestVoteResponse d.(current_term) n grant))) w2) as Hsend.
  { eapply refines_returns; [by eapply last_index_returns|].
    eapply refines_returns; [by eapply last_term_returns|].
    apply wp_bind, (wp_plain None al s2); [done..|]. intros w3 He3 _ HR3.
    assert (dur w3 n = dur w2 n) as Hd3 by exact (sim_ext_durable _ _ _ n He3).
    apply refines_gets. apply raft_safely_send; [done|]. intros k. split; [|done]. simpl. rewrite Hd3.
    intros Hg. by destruct (Hgrant Hg) as [-> ?]. }
  destruct grant; [by rewrite andb_false_r; apply wp_bind, wp_ret|].
  rewrite andb_true_r. apply refines_when; [done| |done]. intros _.
  eapply safely_bind; [by apply safely_reset_timeout|].
  intros s3 w3 _ _ HR3. eapply refines_returns; [by eapply last_index_returns|].
  eapply refines_returns; [by eapply last_term_returns|].
  eapply safely_bind; [by apply raft_safely_trace|]. intros s4 w4 _ _ HR4.
  apply refines_gets. apply raft_safely_send; [done|]. intros k. by split.
Qed.

Lemma safely_handle_request_vote_response n (m : RequestVoteResponse) al w s :
  R None al w s → n ∈ ids →
  (m.(rvr_vote_granted) = true → m.(rvr_voter_id) ∈ ids ∧ (m.(rvr_term), m.(rvr_voter_id), n) ∈ s.(cast)) →
  safely None al s (handle_request_vote_response n m) w.
Proof.
  intros HR Hn Hm. unfold handle_request_vote_response. apply refines_gets.
  destruct (_ <? _); [by apply safely_advance_term|]. apply refines_gets.
  destruct (Z.eqb_spec (rvr_term m) (current_term (dur w n))) as [Ht|]; simpl; [|by apply safely_intro].
  case_bool_decide as Hr; simpl; [|by apply safely_intro].
  destruct (rvr_vote_granted m); simpl; [|by apply safely_intro]. cbv zeta.
  destruct (Hm eq_refl) as [Hv Hcast]. pose proof (R_role _ _ _ _ HR n ltac:(done)) as Hrole.
  unfold role_ok in Hrole. rewrite Hr in Hrole. destruct Hrole as [Hrole Hcand].
  set (votes := {[rvr_voter_id m]} ∪ votes_received (vol w n)).
  assert (∀ a, a ∈ votes → a ∈ ids ∧ (rvr_term m, a, n) ∈ s.(cast)) as Hvotes.
  { intros a [->%elem_of_singleton|Ha]%elem_of_union; [done|]. rewrite Ht. by apply Hrole. }
  clearbody votes. eapply safely_bind.
  { apply safely_vol; [done..|right]. unfold role_ok. simpl. rewrite Hr, <-Ht. split; [exact Hvotes|by rewrite Ht]. }
  pose proof (R_inv _ _ _ _ HR) as Hi.
  intros s1 w1 _ Hs1 HR1. apply refines_majority; [done|].
  destruct (Z.leb_spec (quorum_size ids) (Z.of_nat (size votes))); [|by apply safely_intro].
  apply safely_become_leader; [done|]. intros _ _. apply (majority_backed _ _ _ votes); [|done].
  intros a Ha. destruct (Hvotes a Ha). split; [done|]. by eapply (spec_steps_cast quorum).
Qed.
End with_ids.
End refinement.
