(* ===== verification/RaftSafe.v ===== *)
(** * RaftSafe: replication, delivery, crashes and boots of [raft.py]

    The rest of the refinement of [RaftRefine]: AppendEntries, the envelope
    checks, the delivery loops, crash and restart, the constructor, and every
    call of the cluster with the exceptions it may raise. *)

From stdpp Require Import relations.
From S2P Require Import Prelude Simulator SimFacts Quorum LogIndex RaftSpec Refinement Raft RaftRefine.

Section views.
Context {C : Type} `{EqDecision C}.
Implicit Types (v : RaftLogView C) (es : list (LogEntry C)).

Lemma prefix_matches_total v i t :
  0 ≤ t → ∃ b, prefix_matches v i t = inr b ∧ (b = true → in_range v i ∧ term_at v i = inr t).
Proof.
  intros Ht. unfold prefix_matches. rewrite (proj2 (Z.ltb_ge _ _) Ht).
  destruct (Z.ltb_spec i (base_index v)); [by exists false|].
  destruct (Z.ltb_spec (last_index v) i); [by exists false|].
  destruct (term_at_total v i) as [u Hu]; [lia|]. rewrite Hu. eexists. split; [done|].
  simpl. intros ->%Z.eqb_eq. done.
Qed.

Lemma term_at_before l i :
  0 ≤ i ≤ zlen l → term_at (mkRaftLogView (C := C) 0 0 l) i = inr (term_before l i).
Proof.
  intros Hi. unfold term_at, term_before. simpl. destruct (Z.eqb_spec i 0); [done|].
  destruct (entry_at_total (mkRaftLogView 0 0 l) i) as [e He]; [unfold last_index; simpl; lia|].
  rewrite He. apply entry_at_lookup in He as [_ He]. simpl in He.
  replace (i - 0 - 1) with (i - 1) in He by lia. by rewrite He.
Qed.

(** Merging a part of the leader's log into a log that matches it up to there *)
Lemma merge_adopt l L es p :
  take p l = take p L → es `prefix_of` drop p L →
  (∀ i e e', l !! i = Some e → L !! i = Some e' → e.(le_term) = e'.(le_term) → e = e') →
  merge_loop (C := C) l p es = inr (adopt l L (p + length es)).
Proof.
  intros E Hes Hag. revert p E Hes. induction es as [|y es IH]; intros p E Hes; simpl.
  { by rewrite Nat.add_0_r, adopt_same. }
  assert (L !! p = Some y) as Hy.
  { destruct Hes as [k Hk]. rewrite <-(Nat.add_0_r p), <-lookup_drop, Hk. done. }
  assert (es `prefix_of` drop (S p) L) as Hes'.
  { destruct Hes as [k Hk]. rewrite (drop_S _ _ _ Hy) in Hk. injection Hk as Hk. rewrite Hk. by apply prefix_app_r. }
  assert (take (p + S (length es)) L = take p L ++ y :: es) as HtL.
  { rewrite <-take_take_drop. f_equal. rewrite (drop_S _ _ _ Hy). simpl. f_equal. destruct Hes' as [k ->]. by rewrite take_app_length. }
  destruct (l !! p) as [x|] eqn:Ex.
  - destruct (Z.eqb_spec x.(le_term) y.(le_term)) as [Ht|Ht]; simpl.
    + rewrite (Hag p x y Ex Hy Ht) in Ex |- *. rewrite bool_decide_eq_true_2 by done. simpl.
      rewrite IH; [by rewrite Nat.add_succ_r| |done]. by rewrite (take_S_r _ _ _ Ex), (take_S_r _ _ _ Hy), E.
    + rewrite E, <-HtL. rewrite adopt_cut; [done|]. intros E'. destruct Ht. f_equal.
      assert (l !! p = L !! p) as E2 by (eapply take_lookup; [|exact E']; lia). congruence.
  - apply lookup_ge_None in Ex. rewrite take_ge in E by done. rewrite E at 1. rewrite <-HtL.
    rewrite adopt_cut; [done|]. intros E'. apply (f_equal length) in E'. rewrite !length_take in E'.
    destruct Hes as [k Hk]. apply (f_equal length) in Hk. rewrite length_drop, length_app in Hk. simpl in Hk. lia.
Qed.

(** A merge raises only [LogMatchingViolation]; merged logs cover the request. *)
Lemma merge_loop_error (retained : list (LogEntry C)) n es e :
  merge_loop retained n es = inl e → exn_cls e = LogMatchingViolation.
Proof.
  revert n. induction es as [|x es IH]; intros n; simpl; [done|].
  destruct (retained !! n) as [y|]; [|done]. destruct (negb _); [done|].
  destruct (negb _); [by intros [= <-]|apply IH].
Qed.

Lemma merge_after_ok v i es l :
  in_range v i → entries_ok v.(entries) → entries_ok es → merge_after v i es = inr l →
  entries_ok l ∧ i + zlen es ≤ v.(base_index) + zlen l.
Proof.
  intros Hi Hv Hes. rewrite merge_after_loop by done.
  pose proof (position_le v i Hi) as Hp.
  intros Hm. destruct (merge_loop_cases _ _ _ _ Hp Hm) as [[-> Hpre]| ->].
  - split; [done|]. apply prefix_length in Hpre. rewrite length_drop in Hpre.
    unfold position, zlen, in_range in *. lia.
  - split; [apply Forall_app; split; [by apply Forall_take|done]|].
    unfold zlen. rewrite length_app, length_take.
    unfold position, in_range in *. lia.
Qed.
End views.

Section refinement.
Context {C : Type} `{EqDecision C}.
Implicit Types (w : World (RaftSig (C := C))) (s : Spec C) (n : string).

Section with_ids.
Context (disc : bool) (ids reg : list string) (ok : exn → Prop) {may : C → Prop}.
Local Abbreviation quorum := (majority ids).
Local Abbreviation R := (R (C := C) disc ids reg).
Local Abbreviation steps := (rtc (spec_step quorum disc may)).
Local Abbreviation committed := (committed quorum).
Local Abbreviation safely x al := (safely (spec_step quorum disc may) (R x al) ok).
Local Abbreviation refines x al := (refines (spec_step quorum disc may) (R x al) ok).

Definition allows (c : exn_class) : Prop := ∀ e, exn_cls e = c → ok e.

(** Callers that make up entries may be told so. *)
Local Abbreviation may_mismatch := (disc = false → allows LogMatchingViolation).

(** ** AppendEntries *)

Lemma disc_good x al n w s :
  R x al w s → disc = true → view_of (dur w n) = mkRaftLogView 0 0 (nlog s n)
    ∧ (dur w n).(log) = nlog s n ∧ good s (nlog s n).
Proof.
  intros HR Hd. destruct (disc_view _ _ _ _ Hd (R_dur _ _ _ _ _ _ _ HR n)) as [Hv Hl].
  rewrite Hv, Hl. split_and!; [done..|]. apply (li_nlog _ _ (si_logs _ _ _ (R_inv _ _ _ _ _ _ _ HR) Hd)).
Qed.

(** [n] acknowledges [m] entries of the leader of its term, whose log is [L]:
    what its dictionary must become. *)
Section accept.
Context (x : option string) (al : gmap string bool) n w s (L : list (LogEntry C)) (m : nat).
Context (HR : R x al w s) (Hd : disc = true).
Context (HL : s.(llogs) !! (dur w n).(current_term) = Some L) (Hm : (m ≤ length L)%nat).
Local Abbreviation s' := (accept_state s n L m).

Lemma accept_llog : s.(llogs) !! term_of s n = Some L.
Proof. by rewrite (rd_known _ _ _ _ (R_dur _ _ _ _ _ _ _ HR n)). Qed.

Lemma accept_steps : steps s s'.
Proof. apply rtc_once. constructor; [apply accept_llog|done]. Qed.

Lemma accept_ack : ((dur w n).(current_term), n, m) ∈ s'.(acks).
Proof. rewrite <-(rd_known _ _ _ _ (R_dur _ _ _ _ _ _ _ HR n)). by left. Qed.

Lemma accept_dur_ok :
  entries_ok (adopt (nlog s n) L m) → dur_ok disc s' n (set_log (adopt (nlog s n) L m) (dur w n)).
Proof.
  intros He. destruct (R_dur _ _ _ _ _ _ _ HR n). split; try done. intros _. simpl.
  split; [unfold nlog at 2; simpl; by rewrite lookup_insert_eq|by apply rd_log].
Qed.

Lemma accept_commit_ok v :
  commit_ok disc ids s (dur w n) v → commit_ok disc ids s' (set_log (adopt (nlog s n) L m) (dur w n)) v.
Proof.
  intros Hc Hd'. destruct (Hc Hd') as [Hi Hcom]. simpl.
  destruct (disc_good _ _ n _ _ HR Hd) as (_ & Hlog & _). rewrite Hlog in Hi, Hcom.
  assert (take (Z.to_nat (commit_index v)) (nlog s n) `prefix_of` adopt (nlog s n) L m) as Hp.
  { eapply (committed_adopt quorum disc); [done|apply (R_inv _ _ _ _ _ _ _ HR)|exact Hcom| |apply accept_llog|done|].
    - rewrite (rd_known _ _ _ _ (R_dur _ _ _ _ _ _ _ HR n)). lia.
    - apply prefix_take. }
  pose proof (prefix_length _ _ Hp) as Hlen. rewrite length_take in Hlen. unfold zlen in *.
  split; [lia|]. destruct Hp as [k Hk].
  assert (take (Z.to_nat (commit_index v)) (adopt (nlog s n) L m) = take (Z.to_nat (commit_index v)) (nlog s n)) as ->.
  { rewrite Hk. rewrite take_app_le by (rewrite length_take; lia). rewrite take_take. f_equal. lia. }
  eapply (steps_committed quorum); [done|apply (R_inv _ _ _ _ _ _ _ HR)|apply accept_steps|exact Hcom].
Qed.
End accept.

Lemma wp_persist_log n l x al w s s' E :
  R x al w s → steps s s' → (∀ n', n' ≠ n → apart n' s s') → dur_ok disc s' n (set_log l (dur w n)) →
  (vol w n).(role) = FOLLOWER → commit_ok disc ids s' (set_log l (dur w n)) (vol w n) →
  wp (persist_log n l) (λ w' _, R x al w' s' ∧ dur w' n = set_log l (dur w n)) E w.
Proof.
  intros HR Hs Ha Hl Hr Hc. unfold persist_log. apply wp_bind, wp_persist. intros w1 He1.
  assert (R x al w1 s') as HR1.
  { eapply raft_R_dur_ext; [exact He1|exact HR|done..| |done]. right. unfold role_ok. by rewrite Hr. }
  apply wp_bind, wp_gets, (wp_plain disc ids reg x al s'); [done..|]. intros w2 He2 _ HR2. split; [done|].
  etrans; [exact (sim_ext_durable _ _ _ n He2)|]. apply (de_at _ _ _ _ He1).
Qed.

Lemma wp_advance_commit n i src x al w s :
  R x al w s →
  (disc = true → 0 ≤ i ≤ zlen (dur w n).(log) →
    committed s (dur w n).(current_term) (take (Z.to_nat i) (dur w n).(log)) ∨ i ≤ (vol w n).(commit_index)) →
  wp (advance_commit_index n i src) (λ w' _, R x al w' s ∧ (∀ m, dur w' m = dur w m)
      ∧ (∀ m, (vol w' m).(role) = (vol w m).(role)) ∧ i ≤ (vol w' n).(commit_index))
    (λ w' e, R x al w' s ∧ exn_cls e = ValueError ∧ ¬ 0 ≤ i ≤ last_index (view_of (dur w n))) w.
Proof.
  intros HR Hi. unfold advance_commit_index.
  apply wp_bind, wp_raise_if; [intros Hneg%Z.ltb_lt; split_and!; [done..|lia]|intros H0%Z.ltb_ge].
  apply wp_bind. unfold wp at 1. rewrite (last_index_returns _ _ _ _ _ _ _ _ HR).
  apply wp_bind, wp_raise_if; [intros Hlt%Z.ltb_lt; split_and!; [done..|lia]|intros Hle%Z.ltb_ge].
  apply wp_bind, wp_gets. destruct (Z.leb_spec i (vol w n).(commit_index)) as [|Hprev]; [by apply wp_ret|].
  apply wp_bind, wp_upd_vol. set (w1 := vol_world n _ w).
  assert (R x al w1 s) as HR1.
  { apply R_vol_commit; [done| |].
    - intros Hd. simpl. destruct (disc_view _ _ _ _ Hd (R_dur _ _ _ _ _ _ _ HR n)) as [Hv _].
      rewrite Hv in Hle. unfold last_index in Hle. simpl in Hle.
      destruct (Hi Hd) as [?|?]; [lia|split; [lia|done]|lia].
    - destruct (decide (x = Some n)) as [|Hx]; [by left|right]. exact (R_role _ _ _ _ _ _ _ HR n Hx). }
  apply wp_bind, (wp_plain disc ids reg x al s); [done..|]. intros w2 He2 _ HR2. apply wp_ret. split; [done|].
  assert (∀ m, vol w2 m = if decide (m = n) then set_commit i (vol w n) else vol w m) as Hv.
  { intros m. unfold vol, volatile. rewrite (se_volatile _ _ _ He2). apply (vol_vol_world n _ w m). }
  split_and!; [intros m; exact (sim_ext_durable _ _ _ m He2)| |rewrite Hv, decide_True by done; simpl; lia].
  intros m. rewrite Hv. by case_decide; subst.
Qed.

Lemma safely_advance_commit n i src x al w s :
  R x al w s → allows ValueError →
  (disc = true → 0 ≤ i ≤ zlen (dur w n).(log) →
    committed s (dur w n).(current_term) (take (Z.to_nat i) (dur w n).(log)) ∨ i ≤ (vol w n).(commit_index)) →
  safely x al s (advance_commit_index n i src) w.
Proof.
  intros HR Hok Hi. apply safely_wp. eapply wp_mono; [by apply wp_advance_commit| |].
  - by intros w' a [? _].
  - intros w' e (? & He & _). split; [done|by apply Hok].
Qed.

Lemma entry_at_0 (l : list (LogEntry C)) i e : entry_at (mkRaftLogView 0 0 l) i = inr e → l !! Z.to_nat (i - 1) = Some e.
Proof. intros [_ He]%entry_at_lookup. simpl in He. by rewrite Z.sub_0_r in He. Qed.

(** Logs of the machine agree wherever their terms do. *)
Lemma disc_entries l r i j x al w s :
  R x al w s → disc = true → 1 ≤ j ≤ i →
  term_at (view_of (dur w l)) i = term_at (view_of (dur w r)) i →
  i ≤ last_index (view_of (dur w l)) → i ≤ last_index (view_of (dur w r)) →
  entry_at (view_of (dur w l)) j = entry_at (view_of (dur w r)) j.
Proof.
  intros HR Hd Hj. destruct (disc_good _ _ l _ _ HR Hd) as (-> & _ & Hl).
  destruct (disc_good _ _ r _ _ HR Hd) as (-> & _ & Hr). intros Ht Hil Hir.
  destruct (entry_at_total (mkRaftLogView 0 0 (nlog s l)) i) as [a Ha]; [simpl; lia|].
  destruct (entry_at_total (mkRaftLogView 0 0 (nlog s r)) i) as [b Hb]; [simpl; lia|].
  destruct (entry_at_total (mkRaftLogView 0 0 (nlog s l)) j) as [c Hc]; [simpl; lia|].
  destruct (entry_at_total (mkRaftLogView 0 0 (nlog s r)) j) as [d Hdd]; [simpl; lia|].
  rewrite Hc, Hdd. unfold term_at in Ht. simpl in Ht. destruct (Z.eqb_spec i 0); [lia|].
  rewrite Ha, Hb in Ht. simpl in Ht. injection Ht as Ht.
  apply entry_at_0 in Ha, Hb, Hc, Hdd. pose proof (good_agree _ _ _ _ _ _ Hl Hr Ha Hb Ht) as E.
  assert (nlog s l !! Z.to_nat (j - 1) = nlog s r !! Z.to_nat (j - 1)) as E2.
  { eapply take_lookup; [|exact E]. lia. }
  congruence.
Qed.

Lemma wp_check_pair l r x al w s :
  R x al w s →
  wp (check_pair l r) (λ w' _, w' = w)
    (λ w' e, w' = w ∧ exn_cls e = LogMatchingViolation ∧ disc = false) w.
Proof.
  intros HR. unfold check_pair.
  apply wp_bind. unfold wp at 1. rewrite (log_view_returns _ _ _ _ _ _ _ _ HR).
  apply wp_bind. unfold wp at 1. rewrite (log_view_returns _ _ _ _ _ _ _ _ HR). cbv zeta.
  pose proof (disc_entries l r) as Hag.
  set (lv := view_of (dur w l)) in *. set (rv := view_of (dur w r)) in *.
  apply (wp_for_each _ _ (λ w', w' = w)); [done|].
  intros i w' Hi%elem_of_zrange ->. cbv beta.
  destruct (term_at_total lv i) as [lt Hlt]; [lia|]. apply wp_bind, wp_lift. rewrite Hlt.
  destruct (term_at_total rv i) as [rt Hrt]; [lia|]. apply wp_bind, wp_lift. rewrite Hrt.
  apply wp_when; [intros Hterm%Z.eqb_eq|done].
  apply (wp_for_each _ _ (λ w', w' = w)); [done|].
  intros j w' Hj%elem_of_zrange ->. cbv beta. unfold first_retained_index in Hj.
  destruct (entry_at_total lv j) as [le Hle]; [lia|]. apply wp_bind, wp_lift. rewrite Hle.
  destruct (entry_at_total rv j) as [re Hre]; [lia|]. apply wp_bind, wp_lift. rewrite Hre.
  apply wp_raise_if; intros Hneq; [|done]. split_and!; [done..|].
  destruct (Bool.bool_dec disc true) as [Hd|]; [|by destruct disc].
  assert (1 ≤ j) as H1.
  { destruct (rd_view _ _ _ _ (R_dur _ _ _ _ _ _ _ HR l)) as [Hb _]. subst lv. unfold view_of in *. simpl in *. lia. }
  assert (entry_at lv j = entry_at rv j) as E.
  { apply (Hag i j x al w s); [done|done|lia| |subst lv; lia|subst rv; lia].
    etrans; [exact Hlt|]. etrans; [|symmetry; exact Hrt]. by rewrite Hterm. }
  rewrite Hle, Hre in E. injection E as ->. by rewrite bool_decide_eq_true_2 in Hneq.
Qed.

Lemma wp_assert_log_matching x al w s :
  R x al w s →
  wp assert_log_matching (λ w' _, w' = w)
    (λ w' e, w' = w ∧ exn_cls e = LogMatchingViolation ∧ disc = false) w.
Proof.
  intros HR. apply wp_bind, wp_gets. apply (wp_for_each _ _ (λ w', w' = w)); [done|].
  intros p w' _ ->. by eapply wp_check_pair.
Qed.

Lemma safely_assert_log_matching x al w s :
  R x al w s → may_mismatch → safely x al s assert_log_matching w.
Proof.
  intros HR Hok. apply safely_wp. eapply wp_mono; [by eapply wp_assert_log_matching| |].
  - by intros w' a ->.
  - intros w' e (-> & He & Hd). split; [done|by apply Hok].
Qed.

(** *** Merging and accepting *)

(** [es] is the leader's log after its first [i] entries, which [n] has too. *)
Definition fits s w n (i : Z) (es : list (LogEntry C)) : Prop := disc = true →
  ∃ L, s.(llogs) !! (dur w n).(current_term) = Some L ∧ 0 ≤ i ≤ zlen L
    ∧ take (Z.to_nat i) (nlog s n) = take (Z.to_nat i) L ∧ es `prefix_of` drop (Z.to_nat i) L.

(** [n] has and acknowledges the first [j] entries of its leader. *)
Definition covers s w n (j : Z) : Prop := disc = true →
  ∃ L, s.(llogs) !! (dur w n).(current_term) = Some L ∧ 0 ≤ j ≤ zlen L
    ∧ take (Z.to_nat j) (dur w n).(log) = take (Z.to_nat j) L
    ∧ ((dur w n).(current_term), n, Z.to_nat j) ∈ s.(acks).

Lemma set_log_same (d : RaftDurable (C := C)) : set_log d.(log) d = d.
Proof. by destruct d. Qed.

Lemma refines_merge_nothing n i al w s :
  R None al w s → in_range (view_of (dur w n)) i → (vol w n).(role) = FOLLOWER → fits s w n i [] →
  refines None al s (ret tt) (λ w' s' _, i ≤ last_index (view_of (dur w' n))
    ∧ (dur w' n).(current_term) = (dur w n).(current_term) ∧ covers s' w' n i) w.
Proof.
  intros HR [_ Hi] Hr Hfit. destruct (Bool.bool_dec disc true) as [Hd|Hd].
  2:{ apply refines_ret; [done|]. split_and!; [done..|]. by intros Hd'. }
  destruct (Hfit Hd) as (L & HL & Hil & E & _). set (m := Z.to_nat i) in *.
  assert (m ≤ length L)%nat as Hm by (unfold zlen in Hil; lia).
  destruct (disc_good _ _ n _ _ HR Hd) as (_ & Hlog & _).
  apply (refines_steps _ _ _ _ (accept_state s n L m)); [by eapply accept_steps|]. apply refines_ret.
  - eapply (raft_R_steps disc ids reg None al n w s); [done|by eapply accept_steps| | |].
    + intros n' Hne. by apply apart_accept.
    + pose proof (accept_dur_ok None al n w s L m HR Hd) as Hok. rewrite adopt_same, <-Hlog, set_log_same in Hok by done.
      apply Hok, (R_dur _ _ _ _ _ _ _ HR n).
    + right. unfold role_ok. by rewrite Hr.
  - split_and!; [done..|]. intros _. exists L. rewrite Hlog.
    split_and!; [done|lia..|done|by apply (accept_ack None al n w s L m HR)].
Qed.

Lemma refines_merge_entries n i es al w s :
  R None al w s → in_range (view_of (dur w n)) i → entries_ok es → may_mismatch →
  (vol w n).(role) = FOLLOWER → fits s w n i es →
  refines None al s (merge_entries n i es)
    (λ w' s' _, i + zlen es ≤ last_index (view_of (dur w' n))
      ∧ (dur w' n).(current_term) = (dur w n).(current_term) ∧ covers s' w' n (i + zlen es)) w.
Proof.
  intros HR Hi Hes Hok Hr Hfit. unfold merge_entries. case_bool_decide as He.
  { subst es. replace (i + zlen []) with i by (unfold zlen; simpl; lia). by apply refines_merge_nothing. }
  eapply refines_returns; [by eapply log_view_returns|].
  pose proof (R_dur _ _ _ _ _ _ _ HR n) as Hdok. pose proof (rd_entries _ _ _ _ Hdok) as Hd.
  destruct (Bool.bool_dec disc true) as [Hdisc|Hdisc].
  - destruct (Hfit Hdisc) as (L & HL & Hil & E & Hpre). set (p := Z.to_nat i) in *.
    set (m := (p + length es)%nat).
    destruct (disc_good _ _ n _ _ HR Hdisc) as (Hv & Hlog & Hg). rewrite Hv in Hi |- *.
    assert (merge_after (mkRaftLogView 0 0 (nlog s n)) i es = inr (adopt (nlog s n) L m)) as Hm.
    { rewrite merge_after_loop by done. simpl. unfold position. simpl. rewrite Z.sub_0_r.
      apply merge_adopt; [done..|]. intros k e e' Hk Hk' Ht.
      pose proof (si_logs _ _ _ (R_inv _ _ _ _ _ _ _ HR) Hdisc) as Hinv.
      pose proof (good_agree _ _ _ _ _ _ Hg (proj1 (li_llog _ _ Hinv _ _ HL)) Hk Hk' Ht) as E2.
      assert (nlog s n !! k = L !! k) by (eapply take_lookup; [|exact E2]; lia). congruence. }
    rewrite Hlog in Hd. pose proof (merge_after_ok _ _ _ _ Hi Hd Hes Hm) as [Hl Hlen]. simpl in Hlen.
    assert (m ≤ length L)%nat as HmL.
    { apply prefix_length in Hpre. rewrite length_drop in Hpre. unfold zlen in Hil. lia. }
    assert (Z.to_nat (i + zlen es) = m) as Hmz by (unfold m, p, zlen; lia).
    rewrite Hm. apply wp_bind, wp_lift.
    apply (refines_steps _ _ _ _ (accept_state s n L m)); [by eapply accept_steps|].
    eapply wp_mono; [eapply (wp_persist_log n _ _ _ _ s _ (λ _ _, False)); [exact HR|by eapply accept_steps| | |exact Hr|]| |].
    + intros n' Hne. by apply apart_accept.
    + by eapply accept_dur_ok.
    + eapply accept_commit_ok; [exact HR|done..|apply HR].
    + intros w' a [HR' Hd']. exists (accept_state s n L m). split; [done|]. split; [done|].
      destruct (disc_good _ _ n _ _ HR' Hdisc) as (Hv' & Hlog' & _). rewrite Hv', <-Hlog', Hd'. simpl.
      split_and!; [exact Hlen|done|]. intros _. exists L. rewrite Hd'. simpl. rewrite Hmz.
      split_and!; [done|unfold zlen; lia..|apply adopt_acked|by apply (accept_ack None al n w s L m HR)].
    + by intros w' e ?.
  - apply refines_lift; [done| |].
    + rewrite merge_after_loop by done. intros e Hm. apply Hok; [by destruct disc|]. by eapply merge_loop_error.
    + intros l Hm. destruct (merge_after_ok _ _ _ _ Hi Hd Hes Hm) as [Hl Hlen].
      eapply wp_mono; [eapply (wp_persist_log n l _ _ _ s s (λ _ _, False)); [exact HR|done|done| |exact Hr|by intros Hd']| |].
      * destruct Hdok. by split.
      * intros w' a [HR' Hd']. exists s. split; [done|]. split; [done|]. rewrite Hd'.
        split_and!; [exact Hlen|done|]. by intros Hd2.
      * by intros w' e ?.
Qed.

(** The request's previous entry is the same in both logs. *)
Lemma prefix_fits n (m : AppendEntries) x al w s :
  R x al w s → m.(ae_term) = (dur w n).(current_term) → append_ok disc ids s m →
  in_range (view_of (dur w n)) m.(ae_prev_log_index) →
  term_at (view_of (dur w n)) m.(ae_prev_log_index) = inr m.(ae_prev_log_term) →
  fits s w n m.(ae_prev_log_index) m.(ae_entries).
Proof.
  intros HR Ht Happ Hin Hterm Hd. destruct (Happ Hd) as (L & HL & Hp & Hpt & He & _).
  rewrite Ht in HL. exists L. split_and!; [done|lia..| |done].
  destruct (disc_good _ _ n _ _ HR Hd) as (Hv & _ & Hg). rewrite Hv in Hin, Hterm.
  set (i := ae_prev_log_index m) in *. unfold in_range, last_index in Hin. simpl in Hin.
  rewrite term_at_before in Hterm by lia. injection Hterm as Hterm. rewrite Hpt in Hterm.
  unfold term_before, znth in Hterm. destruct (Z.eqb_spec i 0) as [->|Hi0]; [done|].
  pose proof (si_logs _ _ _ (R_inv _ _ _ _ _ _ _ HR) Hd) as Hinv. unfold zlen in *.
  destruct (lookup_lt_is_Some_2 (nlog s n) (Z.to_nat (i - 1))) as [a Ha]; [lia|].
  destruct (lookup_lt_is_Some_2 L (Z.to_nat (i - 1))) as [b Hb]; [lia|].
  rewrite Ha, Hb in Hterm.
  pose proof (good_agree _ _ _ _ _ _ Hg (proj1 (li_llog _ _ Hinv _ _ HL)) Ha Hb Hterm) as E.
  by replace (S (Z.to_nat (i - 1))) with (Z.to_nat i) in E by lia.
Qed.

Lemma refines_accept_entries n (m : AppendEntries) al w s :
  R None al w s → 0 ≤ m.(ae_prev_log_index) → 0 ≤ m.(ae_prev_log_term) →
  0 ≤ m.(ae_leader_commit) → entries_ok m.(ae_entries) → may_mismatch →
  (vol w n).(role) = FOLLOWER → m.(ae_term) = (dur w n).(current_term) → append_ok disc ids s m →
  refines None al s (accept_entries n m) (λ w' s' r, 0 ≤ r.2
    ∧ (dur w' n).(current_term) = m.(ae_term) ∧ ack_ok disc s' m.(ae_term) n r.1 r.2) w.
Proof.
  intros HR Hi Ht Hc Hes Hok Hr Hterm Happ. unfold accept_entries.
  eapply refines_returns; [by eapply log_view_returns|].
  destruct (prefix_matches_total (view_of (dur w n)) (ae_prev_log_index m) _ Ht) as (b & -> & Hb).
  apply refines_lift; [done..|]. intros a [= <-]. destruct b; simpl; [|by apply refines_ret].
  destruct (Hb eq_refl) as [Hin Hat].
  eapply refines_bind; [apply refines_merge_entries; [done..|by apply prefix_fits with (x := None) (al := al)]|].
  intros s1 w1 u Hs1 HR1 (Hlast & Ht1 & Hcov). apply refines_gets.
  pose proof (zlen_nonneg (ae_entries m)). set (j := ae_prev_log_index m + zlen (ae_entries m)) in *.
  assert (append_ok disc ids s1 m) as Happ1 by (eapply append_ok_mono; [apply HR|done|done]).
  rewrite <-Ht1 in Hterm. clear HR Hs1 Happ Hr Hin Hat Ht1.
  eapply (refines_bind _ _ _ _ _ _ _ (λ w' s' _, s' = s1 ∧ ∀ k, dur w' k = dur w1 k)).
  { destruct (_ <? _); [|by apply refines_ret]. apply wp_bind.
    eapply wp_mono; [apply (wp_advance_commit n _ _ None al w1 s1); [done|]| |].
    - intros Hd _. left. destruct (Happ1 Hd) as (L & HL & _ & _ & _ & _ & Hcom).
      destruct (Hcov Hd) as (L' & HL' & Hj & E & _). rewrite Hterm in HL. simplify_eq. rewrite Hterm in Hcom.
      rewrite (take_le _ L _ (Z.to_nat j)) by (done || lia).
      eapply committed_weaken; [exact Hcom|lia|apply take_prefix_le; lia].
    - intros w2 a (HR2 & Hd2 & _). apply wp_ret. by exists s1.
    - intros w2 e (_ & _ & []). unfold j in *. lia. }
  intros s2 w2 _ _ HR2 [-> Hd2]. apply wp_bind. eapply wp_mono; [by eapply wp_assert_log_matching| |].
  - intros w3 a ->. apply refines_ret; [done|]. simpl. rewrite Hd2. split_and!; [unfold j; lia|done|].
    intros Hd _. destruct (Hcov Hd) as (L & _ & Hj & _ & Hack). rewrite Hterm. split; [unfold j; lia|done].
  - intros w3 e (-> & He & Hd). split; [by exists s1|by apply Hok].
Qed.

Lemma wp_follow n t b (m : AppendEntries (C := C)) al w s :
  R None al w s → n ∈ ids →
  wp (follow n t b m) (λ w' _, R None al w' s ∧ dur w' n = dur w n ∧ (vol w' n).(role) = FOLLOWER)
    (λ _ _, False) w.
Proof.
  intros HR Hn. unfold follow. apply R_begin with (n := n) in HR.
  apply (wp_demote disc ids reg n al _ s); [done|]. intros w1 HR1 Hr1 Hd1 _.
  apply wp_bind. eapply (wp_mono _ (λ w' _, R None al w' s ∧ dur w' n = dur w1 n ∧ vol w' n = vol w1 n) _ (λ _ _, False)); [| |done].
  { apply wp_when; intros _; [|done]. apply wp_bind.
    eapply wp_mono; [apply (wp_retired disc ids reg n t "append-entries" None al w1 s); [done|right; congruence]| |done].
    intros w2 a (HR2 & Hd2 & Hv2 & _). by apply wp_ret. }
  intros w2 a (HR2 & Hd2 & Hv2). eapply wp_mono; [by eapply wp_reset_timeout| |done].
  intros w3 a3 (HR3 & Hd3 & Hv3). split; [done|]. rewrite Hd3, Hv3, Hd2, Hv2. by rewrite Hd1.
Qed.

Lemma new_AppendEntriesResponse_ok t f b mi :
  0 ≤ t → 0 ≤ mi → new_AppendEntriesResponse t f b mi = inr (mkAppendEntriesResponse t f b mi).
Proof. intros. unfold new_AppendEntriesResponse. by rewrite !(proj2 (Z.ltb_ge _ _)) by done. Qed.

Lemma safely_handle_append_entries n sr (m : AppendEntries) al w s :
  R None al w s → n ∈ ids → sr ∈ ids → 0 ≤ m.(ae_prev_log_index) → 0 ≤ m.(ae_prev_log_term) →
  0 ≤ m.(ae_leader_commit) → entries_ok m.(ae_entries) → may_mismatch → append_ok disc ids s m →
  safely None al s (handle_append_entries n sr m) w.
Proof.
  intros HR Hn Hsr Hi Ht Hc Hes Hok Happ. unfold handle_append_entries. do 2 apply refines_gets. cbv zeta.
  pose proof (R_inv _ _ _ _ _ _ _ HR) as Hinv.
  eapply safely_bind; [by apply safely_when; [|intros _; apply safely_advance_term]|].
  intros s1 w1 _ Hs1 HR1. apply refines_gets.
  apply (append_ok_mono disc ids (may := may) s s1) in Happ; [|done..].
  eapply (refines_bind _ _ _ _ _ _ _ (λ w' s' r, 0 ≤ r.2
    ∧ ack_ok disc s' (dur w' n).(current_term) n r.1 r.2)).
  { destruct (Z.eqb_spec (ae_term m) (current_term (dur w1 n))) as [Hterm|]; [|by apply refines_ret].
    apply wp_bind. eapply wp_mono; [by apply wp_follow| |done].
    intros w2 a (HR2 & Hd2 & Hr2). rewrite <-Hd2 in Hterm.
    eapply refines_weaken; [by apply refines_accept_entries|].
    intros s3 w3 r _ _ (? & Ht3 & Hack). split; [done|]. by rewrite Ht3. }
  intros s2 w2 r _ HR2 [Hr Hack]. do 2 apply refines_gets.
  pose proof (rd_term _ _ _ _ (R_dur _ _ _ _ _ _ _ HR2 n)) as Hterm.
  set (t := current_term _) in *. clearbody t.
  eapply safely_bind; [by apply raft_safely_trace|]. intros s3 w3 _ Hs3 HR3.
  rewrite new_AppendEntriesResponse_ok by done. apply wp_bind, wp_lift.
  apply raft_safely_send; [done|]. intros k. split; [|done]. by eapply ack_ok_mono.
Qed.

Lemma safely_handle_append_entries_response n (m : AppendEntriesResponse) al w s :
  R None al w s → n ∈ ids → ack_ok disc s m.(aer_term) m.(aer_follower_id) m.(aer_success) m.(aer_match_index) →
  safely None al s (handle_append_entries_response n m) w.
Proof.
  intros HR Hn Hack. unfold handle_append_entries_response. apply refines_gets.
  destruct (_ <? _); [by apply safely_advance_term|].
  apply raft_safely_record; [done|]. by intros r ->%list_elem_of_singleton.
Qed.

Lemma new_AppendEntries_spec t l pi pt es lc :
  match new_AppendEntries (C := C) t l pi pt es lc with
  | inl e => exn_cls e = ValueError
  | inr m => m = mkAppendEntries t l pi pt es lc ∧ 0 ≤ pi ∧ 0 ≤ pt ∧ 0 ≤ lc
  end.
Proof.
  unfold new_AppendEntries.
  destruct (_ <? 0); [done|]. destruct (Z.ltb_spec pi 0); [done|].
  destruct (Z.ltb_spec pt 0); [done|]. destruct (Z.ltb_spec lc 0); [done|]. by destruct (_ && _).
Qed.

(** A leader sends entries of its own log, and a commit index it knows. *)
Definition own_entries w n (prev : option Z) (es : list (LogEntry C)) (c : option Z) s : Prop :=
  es `prefix_of` drop (Z.to_nat (default (zlen (dur w n).(log)) prev)) (dur w n).(log)
  ∧ ∀ i, c = Some i → committed s (dur w n).(current_term) (take (Z.to_nat i) (dur w n).(log)).

Lemma own_append_ok n prev es c t al w s :
  R None al w s → disc = true → (vol w n).(role) = LEADER → own_entries w n prev es c s →
  let prev := default (last_index (view_of (dur w n))) prev in
  let lc := default (vol w n).(commit_index) c in
  (dur w n).(log_base_index) ≤ prev ≤ last_index (view_of (dur w n)) →
  0 ≤ lc ≤ last_index (view_of (dur w n)) → term_at (view_of (dur w n)) prev = inr t →
  append_ok disc ids s (mkAppendEntries (dur w n).(current_term) n prev t es lc).
Proof.
  intros HR Hd Hr [Hes Hc] p lc. destruct (disc_good _ _ n _ _ HR Hd) as (Hv & Hlog & _).
  rewrite Hv. unfold last_index. cbn [base_index entries]. intros Hp Hlc Hterm _. simpl.
  pose proof (R_role _ _ _ _ _ _ _ HR n ltac:(done)) as Hrole. unfold role_ok in Hrole. rewrite Hr in Hrole.
  destruct Hrole as (_ & _ & _ & HL). exists (nlog s n).
  rewrite (proj2 (rd_log _ _ _ _ (R_dur _ _ _ _ _ _ _ HR n) Hd)) in Hp.
  split_and!; [by apply HL|lia..| | |lia|lia|].
  - rewrite term_at_before in Hterm by lia. by injection Hterm as <-.
  - subst p. rewrite Hv, <-Hlog. unfold last_index. simpl. by rewrite Z.add_0_l.
  - rewrite <-Hlog. subst lc. destruct c as [i|]; simpl; [by apply Hc|]. by apply (R_commit _ _ _ _ _ _ _ HR n).
Qed.

Lemma safely_send_append_entries n peer prev es c al w s :
  R None al w s → entries_ok es → may_run ok al n → allows ValueError →
  (vol w n).(role) = LEADER ∨ allows RuntimeError →
  (disc = true → (vol w n).(role) = LEADER → own_entries w n prev es c s) →
  safely None al s (send_append_entries n peer prev es c) w.
Proof.
  intros HR Hes Hup Hv Hr Hown. unfold send_append_entries.
  apply refines_alive; [done..|]. apply refines_gets.
  apply refines_check; [done| |intros Hleads].
  { intros Hno%negb_true_iff%bool_decide_eq_false. destruct Hr as [?|Hr]; [done|by apply Hr]. }
  apply refines_gets. apply negb_false_iff, bool_decide_eq_true in Hleads.
  apply refines_check; [done|by intros _; apply Hv|intros Hknown].
  assert (peer ∈ ids) as Hpeer.
  { apply negb_false_iff, bool_decide_eq_true in Hknown. by eapply raft_peers_ids. }
  eapply refines_returns; [by eapply last_index_returns|]. cbv zeta. apply refines_gets.
  apply refines_check; [done|by intros _; apply Hv|intros Hprev]. apply refines_gets.
  apply refines_check; [done|by intros _; apply Hv|intros Hcom].
  eapply refines_returns; [by eapply log_view_returns|].
  apply orb_false_iff in Hprev as [H1%Z.ltb_ge H2%Z.ltb_ge], Hcom as [H3%Z.ltb_ge H4%Z.ltb_ge].
  destruct (term_at_total (view_of (dur w n)) (default (last_index (view_of (dur w n))) prev))
    as [t Ht]; [done|]. rewrite Ht. apply refines_lift; [done..|]. intros a [= <-].
  pose proof (new_AppendEntries_spec (current_term (dur w n)) n
    (default (last_index (view_of (dur w n))) prev) t es (default (vol w n).(commit_index) c)) as Hs.
  apply refines_lift; [done| |].
  - intros e He. apply Hv. by rewrite He in Hs.
  - intros m Hm. rewrite Hm in Hs. destruct Hs as (-> & ? & ? & ?).
    apply raft_safely_send; [done|]. intros k. split; [|done]. split; [done|].
    intros Hd. by apply (own_append_ok n prev es c t al w s HR Hd Hleads (Hown Hd Hleads)).
Qed.
(** ** Delivery *)

Lemma raft_member_ids x al w s n : R x al w s → member w n = bool_decide (n ∈ ids).
Proof. intros HR. unfold member. by rewrite (R_ids _ _ _ _ _ _ _ HR). Qed.

(** What the envelope checks let through. *)
Lemma envelope_accepted al w s n (m : Message (RaftSig (C := C))) :
  R None al w s → envelope_reason w n m = None →
  m.(dst) = n ∧ (∀ c, claimed_src n m.(payload) = Some c → c ∈ ids ∧ m.(src) = c).
Proof.
  intros HR. unfold envelope_reason. destruct (String.eqb_spec (dst m) n) as [->|]; simpl; [|done].
  destruct (claimed_src n (payload m)) as [c|].
  - rewrite (raft_member_ids _ _ _ _ c HR). case_bool_decide as Hc; simpl; [|done].
    destruct (negb (member w n)); [done|]. destruct (String.eqb_spec (src m) c); simpl; [|done].
    intros _. split; [done|]. by intros c' [= <-].
  - intros _. by split.
Qed.

Lemma safely_dispatch n (m : Message (RaftSig (C := C))) al w s :
  R None al w s → n ∈ ids → up al n → msg_ok disc ids s m → envelope_reason w n m = None →
  may_mismatch → safely None al s (dispatch n m) w.
Proof.
  intros HR Hn Hup [Hm _] Henv Hok.
  destruct (envelope_accepted _ _ _ _ _ HR Henv) as [Hdst Hclaim].
  assert (may_run ok al n) as Hrun by by left.
  unfold dispatch. destruct (payload m) as [g d|p|p|p|p|p|p|ty]; simpl in Hclaim.
  - by apply safely_handle_timeout.
  - destruct (Hclaim _ eq_refl) as [Hc ->]. by apply safely_handle_pre_vote.
  - by apply safely_handle_pre_vote_response.
  - destruct (Hclaim _ eq_refl) as [Hc ->]. by apply safely_handle_request_vote.
  - apply safely_handle_request_vote_response; [done..|]. by rewrite <-Hdst.
  - destruct (Hclaim _ eq_refl) as [Hc ->]. destruct Hm as ((? & ? & ? & ?) & ?).
    by apply safely_handle_append_entries.
  - by apply safely_handle_append_entries_response.
  - done.
Qed.

Lemma raft_safely_handle_message n (m : Message (RaftSig (C := C))) al w s :
  R None al w s → n ∈ ids → up al n → msg_ok disc ids s m →
  may_mismatch → safely None al s (handle_message n m) w.
Proof.
  intros HR Hn Hup Hm Hok. unfold handle_message. pose proof (R_inv _ _ _ _ _ _ _ HR) as Hi.
  eapply safely_bind; [by apply safely_vol_same|]. intros s1 w1 _ Hs1 HR1. apply refines_gets.
  destruct (envelope_reason w1 n m) as [[r c]|] eqn:He; [by apply raft_safely_trace|].
  apply safely_dispatch; [done..|by eapply msg_ok_mono|done|done].
Qed.

(** Changes to the simulator that keep what [R] reads. *)
Lemma raft_R_sim x al (sm : Sim (RaftSig (C := C))) w s :
  R x al w s → sm.(persistent_state) = w.(sim).(persistent_state) →
  sm.(volatile_state) = w.(sim).(volatile_state) → sm.(queue) ⊆ w.(sim).(queue) →
  sm.(handlers) = w.(sim).(handlers) → sm.(crash_handlers) = w.(sim).(crash_handlers) →
  sm.(restart_handlers) = w.(sim).(restart_handlers) →
  protos (mkWorld (Σ := RaftSig) sm w.(objs)) = protos w →
  R x sm.(alive) (mkWorld (Σ := RaftSig) sm w.(objs)) s.
Proof.
  intros HR Hp Hv Hq Hh Hc Hr Htr.
  assert (∀ n, dur (mkWorld (Σ := RaftSig) sm w.(objs)) n = dur w n) as Hd
    by (intros n; unfold dur, durable; simpl; by rewrite Hp).
  assert (∀ n, vol (mkWorld (Σ := RaftSig) sm w.(objs)) n = vol w n) as Hvol
    by (intros n; unfold vol, volatile; simpl; by rewrite Hv).
  split; simpl; try apply HR.
  - intros n. rewrite Hd. apply HR.
  - intros y Hy. apply (R_queue _ _ _ _ _ _ _ HR). by apply Hq.
  - intros r. rewrite Htr. apply HR.
  - intros n Hx. rewrite Hd, Hvol. by apply HR.
  - intros n. rewrite Hd, Hvol. apply HR.
  - done.
  - rewrite Hh. apply HR.
  - rewrite Hc. apply HR.
  - rewrite Hr. apply HR.
  - rewrite Hh. apply HR.
Qed.

Lemma safely_set_time x al t w s : R x al w s → safely x al s (upd_sim (set_time t)) w.
Proof.
  intros HR. exists s. split; [done|]. split; [|done].
  rewrite <-(R_alive _ _ _ _ _ _ _ HR). by apply (raft_R_sim x al (set_time t w.(sim))).
Qed.

Section delivery.
Context (Hreg : ∀ n, n ∈ ids → n ∈ reg) (Hok : may_mismatch).

Lemma raft_safely_deliver d rest al w s :
  R None al w s → w.(sim).(queue) = d :: rest →
  safely None al s (deliver_event (Σ := RaftSig) handle_message d)
    (mkWorld (Σ := RaftSig) (set_queue rest w.(sim)) w.(objs)).
Proof.
  intros HR Hq. pose proof (R_queue _ _ _ _ _ _ _ HR d) as Hm.
  destruct Hm as (Hm & Hdst & Hddst); [rewrite Hq; by left|].
  assert (R None al (mkWorld (Σ := RaftSig) (set_queue rest w.(sim)) w.(objs)) s) as HR0.
  { rewrite <-(R_alive _ _ _ _ _ _ _ HR). apply (raft_R_sim None al (set_queue rest w.(sim))); try done.
    simpl. rewrite Hq. set_solver. }
  pose proof (R_inv _ _ _ _ _ _ _ HR0) as Hinv.
  unfold deliver_event. eapply safely_bind; [by apply safely_set_time|]. intros s1 w1 _ Hs1 HR1.
  pose proof (R_inv _ _ _ _ _ _ _ HR1) as Hinv1.
  apply refines_gets. unfold is_alive. rewrite (R_alive _ _ _ _ _ _ _ HR1).
  destruct (default true (al !! dst (sd_message d))) eqn:Hup; simpl; [|by apply raft_safely_record, plain_ok].
  apply refines_gets. unfold endpoint. rewrite Hddst.
  pose proof (R_reg _ _ _ _ _ _ _ HR1 _ (Hreg _ Hdst)) as [h Eh].
  match goal with |- context [match ?x with Some _ => _ | None => _ end] =>
    replace x with (Some h) by (symmetry; exact Eh) end.
  destruct (R_handlers _ _ _ _ _ _ _ HR1 _ _ Eh) as (-> & _ & _).
  eapply safely_bind; [by apply raft_safely_record, plain_ok|]. intros s2 w2 _ Hs2 HR2.
  apply raft_safely_handle_message; [done..| |done].
  eapply msg_ok_mono; [exact Hinv1|exact Hs2|].
  eapply msg_ok_mono; [exact Hinv|exact Hs1|by split].
Qed.

Definition follows al s w : Prop := ∃ s', steps s s' ∧ R None al w s'.

Lemma raft_safely_loop (m : M _ Z) al w s :
  wp m (λ w' _, follows al s w') (λ w' e, follows al s w' ∧ ok e) w → safely None al s m w.
Proof.
  intros Hm. eapply wp_mono; [exact Hm| |done]. intros w' a (s' & ? & ?). by exists s'.
Qed.

Lemma raft_deliver_follows al s w x rest :
  follows al s w → w.(sim).(queue) = x :: rest →
  wp (deliver_event (Σ := RaftSig) handle_message x) (λ w' _, follows al s w')
    (λ w' e, follows al s w' ∧ ok e) (mkWorld (Σ := RaftSig) (set_queue rest w.(sim)) w.(objs)).
Proof.
  intros (s1 & Hs1 & HR1) Hq. eapply wp_mono; [by eapply raft_safely_deliver| |].
  - intros w' a (s' & ? & ? & _). exists s'. split; [by etrans|done].
  - intros w' e [(s' & ? & ?) ?]. split; [|done]. exists s'. split; [by etrans|done].
Qed.

Context (Hvalue : allows ValueError) (Hfuel : allows OutOfFuel).

Lemma raft_safely_run fuel k al w s : R None al w s → safely None al s (raft_run fuel k) w.
Proof.
  intros HR. unfold raft_run, run. apply refines_check; [done|by intros _; apply Hvalue|intros _].
  apply raft_safely_loop, wp_run_loop; [| |by exists s].
  - intros w1 msg Hw1. split; [done|by apply Hfuel].
  - intros w1 x rest Hw1 Hq. by apply raft_deliver_follows.
Qed.

Lemma raft_safely_run_until fuel t al w s : R None al w s → safely None al s (raft_run_until fuel t) w.
Proof.
  intros HR. unfold raft_run_until, run_until_time. apply refines_gets.
  apply refines_check; [done|by intros _; apply Hvalue|intros _]. eapply safely_bind.
  - apply raft_safely_loop, wp_run_until_loop; [| |by exists s].
    + intros w1 msg Hw1. split; [done|by apply Hfuel].
    + intros w1 x rest Hw1 Hq. by apply raft_deliver_follows.
  - intros s1 w1 k _ HR1. eapply safely_bind; [by apply safely_set_time|].
    intros s2 w2 _ _ HR2. by apply refines_ret.
Qed.
End delivery.

(** ** Crash, restart and the observers *)

Lemma wp_handle_crash n al w s :
  R (Some n) al w s → wp (handle_crash n) (λ w' _, R (Some n) al w' s) (λ _ _, False) w.
Proof.
  intros HR. unfold handle_crash. apply wp_bind, wp_gets, wp_when; intros _; [|done].
  apply wp_bind, wp_gets, wp_bind. eapply wp_mono; [by eapply wp_retired; [|left]| |done].
  by intros w' a [? _].
Qed.

Lemma raft_safely_handle_restart n al w s :
  R None al w s → n ∈ ids → (vol w n).(role) ≠ LEADER → safely None al s (handle_restart n) w.
Proof.
  intros HR Hn Hr. unfold handle_restart. apply refines_gets. eapply safely_bind.
  { destruct (active_leader_generations (objs w) !! n) as [[t g]|]; [|by apply safely_intro].
    eapply safely_bind; [by apply safely_retired; [|right]|].
    intros s1 w1 _ _ HR1. by apply safely_intro. }
  intros s1 w1 _ _ HR1. eapply safely_bind.
  { unfold validate_persistent_log. eapply refines_returns; [by eapply log_view_returns|].
    by apply safely_intro. }
  intros s2 w2 _ _ HR2. eapply safely_bind.
  { exists s2. split; [done|]. split; [|done]. by apply R_timer. }
  intros s3 w3 _ _ HR3. eapply safely_bind; [by apply safely_vol_same|].
  intros s4 w4 _ _ HR4. apply refines_gets.
  eapply refines_returns; [by eapply last_index_returns|].
  eapply refines_returns; [by eapply last_term_returns|].
  eapply safely_bind; [by apply raft_safely_trace|].
  intros s5 w5 _ _ HR5. by apply safely_reset_timeout.
Qed.

Lemma safely_register_observer o b al w s :
  R None al w s → allows ValueError → safely None al s (register_leadership_observer o b) w.
Proof.
  intros HR Hok. apply refines_gets. apply refines_check; [done|by intros _; apply Hok|intros _].
  eapply safely_bind; [by apply safely_objs|]. intros s1 w1 _ _ HR1.
  apply safely_when; [done|intros _]. apply refines_gets.
  apply (safely_for_each _ _ _ _ _ _ (λ _ _, True)); [done..|].
  intros s2 w2 e _ HR2 _. by apply safely_objs.
Qed.

(** [R] whichever nodes are up. *)
Definition Ra w s : Prop := R None w.(sim).(alive) w s.
Local Abbreviation safelyA := (Refinement.safely (spec_step quorum disc may) Ra ok).

Lemma R_Ra al w s : R None al w s → Ra w s.
Proof. intros HR. unfold Ra. by rewrite (R_alive _ _ _ _ _ _ _ HR). Qed.

Lemma safely_any {A} al (m : M _ A) w s : safely None al s m w → safelyA s m w.
Proof. apply refines_change. intros w' s'. apply R_Ra. Qed.

Lemma R_set_alive x al n b w s :
  R x al w s → R x (<[n := b]> w.(sim).(alive))
    (mkWorld (Σ := RaftSig) (set_alive (<[n := b]> w.(sim).(alive)) w.(sim)) w.(objs)) s.
Proof. intros HR. by apply (raft_R_sim x al (set_alive _ w.(sim))). Qed.

Lemma refines_known {B} n w s (k : unit → M _ B) (Q : _ → _ → B → Prop) :
  Ra w s → allows ValueError →
  (n ∈ ids → Refinement.refines (spec_step quorum disc may) Ra ok s (k tt) Q w) →
  Refinement.refines (spec_step quorum disc may) Ra ok s (bind (validate_node (Σ := RaftSig) n) k) Q w.
Proof.
  intros HR Hok Hk. apply wp_bind, wp_bind, wp_gets, wp_raise_if; intros Hn.
  - split; [by exists s|by apply Hok].
  - apply Hk. apply negb_false_iff, bool_decide_eq_true in Hn as [h Hh].
    destruct (R_handlers _ _ _ _ _ _ _ HR n h Hh) as (_ & ? & _). done.
Qed.

Lemma raft_safely_crash n w s : Ra w s → allows ValueError → safelyA s (raft_crash n) w.
Proof.
  intros HR Hok. apply refines_known; [done..|intros Hn].
  apply wp_bind, wp_upd_sim. apply R_set_alive with (n := n) (b := false) in HR.
  set (w1 := mkWorld _ _) in *. set (al := <[n := false]> _) in *. clearbody w1 al.
  apply wp_bind, (wp_plain disc ids reg None al s); [done..|]. intros w2 He2 _ HR2.
  apply wp_bind, wp_gets, wp_bind. apply R_begin with (n := n) in HR2.
  assert (∀ w3, R (Some n) al w3 s → wp (clear_volatile (Σ := RaftSig) n)
    (λ w' _, ∃ s', steps s s' ∧ Ra w' s' ∧ True) (λ w' e, (∃ s', steps s s' ∧ Ra w' s') ∧ ok e) w3)
    as Hclear.
  { intros w3 HR3. apply (wp_upd_vol n). exists s. split; [done|]. split; [|done].
    eapply R_Ra, (R_end _ _ _ n); [apply R_vol_commit; [exact HR3|by apply commit_ok_0|by left]|].
    unfold role_ok. rewrite vol_vol_world, decide_True by done. done. }
  destruct (crash_handlers _ !! n) as [h|] eqn:Eh; [|by apply wp_ret, Hclear].
  rewrite (R_crash _ _ _ _ _ _ _ HR2 n h Eh).
  eapply wp_mono; [by eapply wp_handle_crash| |done]. intros w3 a HR3. by apply Hclear.
Qed.

Lemma raft_safely_restart n w s : Ra w s → allows ValueError → safelyA s (raft_restart n) w.
Proof.
  intros HR Hok. apply refines_known; [done..|intros Hn].
  apply wp_bind, wp_upd_sim. apply R_set_alive with (n := n) (b := true) in HR.
  set (w1 := mkWorld _ _) in *. set (al := <[n := true]> _) in *. clearbody w1 al.
  eapply safely_any, wp_bind, (wp_upd_vol n). set (w2 := vol_world n _ w1).
  assert (R None al w2 s) as HR2 by (apply R_vol_commit; [exact HR|by apply commit_ok_0|by right]).
  assert ((vol w2 n).(role) = FOLLOWER) as Hr2
    by (unfold w2; rewrite vol_vol_world, decide_True by done; done).
  clearbody w2. apply wp_bind, (wp_plain disc ids reg None al s); [done..|]. intros w3 He3 _ HR3.
  apply wp_bind, wp_gets.
  destruct (restart_handlers _ !! n) as [h|] eqn:Eh; [|by apply safely_intro].
  rewrite (R_restart _ _ _ _ _ _ _ HR3 n h Eh). apply raft_safely_handle_restart; [done..|].
  unfold vol, volatile. rewrite (se_volatile _ _ _ He3). intros Hr.
  unfold vol, volatile in Hr2. rewrite Hr2 in Hr. done.
Qed.

Lemma net_ext_Ra w w' s : net_ext w w' → Ra w s → Ra w' s.
Proof.
  intros He HR. unfold Ra. replace w' with (mkWorld (Σ := RaftSig) w'.(sim) w.(objs)).
  - eapply raft_R_sim; [exact HR|..]; try apply He. by rewrite (ne_queue _ _ He).
  - rewrite <-(ne_objs _ _ He). by destruct w'.
Qed.

Lemma raft_safely_net_only (m : M _ unit) w s :
  net_only m → Ra w s → allows ValueError → safelyA s m w.
Proof.
  intros Hm HR Hok. apply safely_wp. eapply wp_mono; [apply Hm| |].
  - intros w' a He. exact (net_ext_Ra _ _ _ He HR).
  - intros w' e [He Hc]. split; [exact (net_ext_Ra _ _ _ He HR)|by apply Hok].
Qed.

Lemma raft_refines_node n w s (k : string → M _ unit) :
  Ra w s → allows KeyError → (n ∈ ids → safelyA s (k n) w) → safelyA s (bind (node n) k) w.
Proof.
  intros HR Hok Hk. unfold node. apply wp_bind, wp_bind, wp_gets.
  rewrite (raft_member_ids _ _ _ _ _ HR). case_bool_decide as Hn; [by apply wp_ret, Hk|].
  apply wp_raise. split; [by exists s|by apply Hok].
Qed.
End with_ids.

(** ** The calls *)

(** The exceptions each call may raise. *)
Definition op_errors (o : raft_op (C := C)) : list exn_class :=
  match o with
  | OpStartElection _ | OpStartPreVote _ => [KeyError; RuntimeError]
  | OpStepDown _ _ | OpSendAppendEntries _ _ _ _ _ => [KeyError; RuntimeError; ValueError]
  | OpAdvanceCommit _ _ _ => [KeyError; ValueError]
  | OpResetTimeout _ _ => [KeyError]
  | OpRun _ _ | OpRunUntil _ _ => [ValueError; LogMatchingViolation; OutOfFuel]
  | OpAssertLogMatching => [LogMatchingViolation]
  | _ => [ValueError]
  end.

(** Logs that leaders replicate always match. *)
Definition op_ok (disc : bool) (o : raft_op (C := C)) (e : exn) : Prop :=
  exn_cls e ∈ op_errors o ∧ (disc = true → exn_cls e ≠ LogMatchingViolation).

Lemma op_allows disc o c :
  c ∈ op_errors o → (disc = true → c ≠ LogMatchingViolation) → allows (op_ok disc o) c.
Proof. intros Hc Hd e He. unfold op_ok. by rewrite He. Qed.

Lemma op_wf_entries (es : list (LogEntry C)) :
  Forall (λ e, new_LogEntry e.(le_term) e.(le_command) = inr e) es → entries_ok es.
Proof.
  intros Hes. eapply Forall_impl; [exact Hes|]. intros [t c]. unfold new_LogEntry. simpl.
  by destruct (Z.ltb_spec t 0).
Qed.

(** What keeps a caller within the leader's log: entries sent are the leader's,
    and commit indices are not made up. *)
Definition disciplined w (o : raft_op (C := C)) : Prop :=
  match o with
  | OpSendAppendEntries n _ prev es c =>
      es `prefix_of` drop (Z.to_nat (default (zlen (dur w n).(log)) prev)) (dur w n).(log)
      ∧ match c with Some i => i ≤ (vol w n).(commit_index) | None => True end
  | OpAdvanceCommit n i _ => i ≤ (vol w n).(commit_index)
  | _ => True
  end.

Lemma disciplined_own disc ids reg n peer prev es c w s :
  Ra disc ids reg w s → disc = true → disciplined w (OpSendAppendEntries n peer prev es c) →
  own_entries ids w n prev es c s.
Proof.
  intros HR Hd [Hes Hc]. split; [done|]. intros i ->.
  destruct (R_commit _ _ _ _ _ _ _ HR n Hd) as [_ Hcom].
  eapply committed_weaken; [exact Hcom|done|]. apply take_prefix_le. lia.
Qed.

Lemma raft_safely_exec_op {may : C → Prop} disc ids reg o w s :
  (∀ n, n ∈ ids → n ∈ reg) → Ra disc ids reg w s → op_wf o → (disc = true → disciplined w o) →
  safely (spec_step (majority ids) disc may) (Ra disc ids reg) (op_ok disc o) s (exec_op o) w.
Proof.
  intros Hreg HR Hwf Hdis.
  assert (∀ c, c ∈ op_errors o → c ≠ LogMatchingViolation → allows (op_ok disc o) c) as Hok
    by (intros; by apply op_allows).
  assert (LogMatchingViolation ∈ op_errors o → disc = false → allows (op_ok disc o) LogMatchingViolation) as Hlm
    by (intros ? ->; by apply op_allows).
  assert (RuntimeError ∈ op_errors o → ∀ n, may_run (op_ok disc o) w.(sim).(alive) n) as Hrun.
  { intros Hin n. right. intros msg. by apply (Hok RuntimeError). }
  destruct o; simpl in Hok, Hlm, Hrun |- *;
    try (apply raft_safely_net_only; [solve [auto with distlab]|done|apply Hok; set_solver]);
    try (apply raft_refines_node; [done|apply Hok; set_solver|intros Hn]).
  - eapply safely_any, safely_start_election; [done..|apply Hrun; set_solver].
  - eapply safely_any, safely_start_pre_vote; [done..|apply Hrun; set_solver].
  - eapply safely_any, safely_unit, safely_step_down; [done..|apply Hrun; set_solver|].
    intros msg. apply (Hok ValueError); [set_solver|done..].
  - eapply safely_any, safely_send_append_entries;
      [done|by apply op_wf_entries|apply Hrun; set_solver|apply Hok; set_solver|right; apply Hok; set_solver|].
    intros Hd _. by eapply disciplined_own; [..|by apply Hdis].
  - eapply safely_any, safely_unit, safely_advance_commit; [done|apply Hok; set_solver|].
    intros Hd _. right. by apply Hdis.
  - by eapply safely_any, safely_reset_timeout.
  - eapply safely_any, safely_register_observer; [done|apply Hok; set_solver].
  - eapply safely_any, safely_unit, raft_safely_run; [done|apply Hlm; set_solver|apply Hok; set_solver..|done].
  - eapply safely_any, safely_unit, raft_safely_run_until; [done|apply Hlm; set_solver|apply Hok; set_solver..|done].
  - apply raft_safely_crash; [done|apply Hok; set_solver].
  - apply raft_safely_restart; [done|apply Hok; set_solver].
  - eapply safely_any, safely_assert_log_matching; [done|apply Hlm; set_solver].
Qed.

(** ** Booting a cluster over disks *)
Section boot.
Context (disc : bool) (ids : list string) (ts : option (gmap string Z)).

Definition timeouts_ok : Prop :=
  match ts with
  | None => True
  | Some m => dom m = list_to_set ids ∧ ∀ n t, m !! n = Some t → 0 < t
  end.

Definition booted plan (disks : gmap string RaftDurable) : World (RaftSig (C := C)) :=
  mkWorld (Σ := RaftSig) (set_persistent_state (Σ := RaftSig) disks (new_Simulator plan))
    (mkRaftObjects ids (default ∅ ts) ∅ ∅ 0 ∅ [] []).

Lemma raft_R_boot reg x al plan w s :
  R disc ids reg x al w s → R disc ids [] None ∅ (booted plan w.(sim).(persistent_state)) s.
Proof.
  intros HR. split; try done; try apply HR.
  - by intros y ?%elem_of_nil.
  - by intros r ?%elem_of_nil.
  - intros n. by apply commit_ok_0.
  - intros e ?%elem_of_nil. done.
Qed.

Lemma raft_R_empty plan : R disc ids [] None ∅ (booted plan ∅) spec0.
Proof.
  split; try done.
  - apply spec0_inv.
  - intros n. split; simpl; try done; [|by constructor]. intros t c ?%elem_of_nil. done.
  - by intros y ?%elem_of_nil.
  - by intros r ?%elem_of_nil.
  - intros n. by apply commit_ok_0.
  - intros e ?%elem_of_nil. done.
Qed.

Lemma raft_R_register n reg al w s :
  R disc ids reg None al w s → n ∈ ids →
  R disc ids (n :: reg) None (<[n := true]> w.(sim).(alive)) (mkWorld (Σ := RaftSig)
    (set_alive (<[n := true]> w.(sim).(alive))
    (set_restart_handlers (<[n := n]> w.(sim).(restart_handlers))
    (set_crash_handlers (<[n := n]> w.(sim).(crash_handlers))
    (set_handlers (<[n := n]> w.(sim).(handlers)) w.(sim))))) w.(objs)) s.
Proof.
  intros HR Hn. split; try done; try apply HR; simpl.
  - intros e h [[<- <-]|[_ Hh]]%lookup_insert_Some; [by repeat split; [|left]|].
    destruct (R_handlers _ _ _ _ _ _ _ HR _ _ Hh) as (? & ? & ?). split_and!; [done..|by right].
  - intros e h [[<- <-]|[_ ?]]%lookup_insert_Some; [done|by eapply R_crash].
  - intros e h [[<- <-]|[_ ?]]%lookup_insert_Some; [done|by eapply R_restart].
  - intros e He. destruct (decide (e = n)) as [->|Hne]; [by rewrite lookup_insert_eq|].
    rewrite lookup_insert_ne by done. apply elem_of_cons in He as [->|He]; [done|].
    by apply (R_reg _ _ _ _ _ _ _ HR).
Qed.

(** What booting leaves alone: disks, and nodes that start as followers. *)
Definition fresh (disks : gmap string RaftDurable) w : Prop := ∀ n,
  dur w n = default raft_durable0 (disks !! n) ∧ (vol w n).(role) = FOLLOWER.

Lemma fresh_ext disks w w' :
  (∀ n, dur w' n = dur w n) → (∀ n, vol w' n = vol w n) → fresh disks w → fresh disks w'.
Proof. intros Hd Hv Hw n. rewrite Hd, Hv. apply Hw. Qed.

Lemma raft_wp_register_all disks l reg w s :
  Ra disc ids reg w s → fresh disks w → l ⊆ ids → NoDup l → (∀ e, e ∈ l → e ∉ reg) →
  wp (for_each l (λ n, register (Σ := RaftSig) n n (Some n) (Some n)))
    (λ w' _, Ra disc ids (rev l ++ reg) w' s ∧ fresh disks w') (λ _ _, False) w.
Proof.
  revert reg w. induction l as [|n l IH]; intros reg w HR Hf Hl Hnd Hnew; simpl; [by apply wp_ret|].
  apply NoDup_cons in Hnd as [Hn Hnd].
  unfold register. apply wp_bind, wp_bind, wp_gets, wp_bind, wp_raise_if; intros Hreg.
  { apply bool_decide_eq_true in Hreg as [h Hh].
    destruct (R_handlers _ _ _ _ _ _ _ HR _ _ Hh) as (_ & _ & ?). apply (Hnew n); [by left|done]. }
  do 3 apply wp_bind, wp_upd_sim. apply wp_upd_sim. simpl.
  assert (n ∈ ids) as Hin by (apply Hl; by left).
  rewrite <-app_assoc.
  apply IH; [exact (R_Ra _ _ _ _ _ _ (raft_R_register _ _ _ _ _ HR Hin))|exact Hf| |done|].
  - intros x Hx. apply Hl. by right.
  - intros e He [->|?]%elem_of_cons; [done|]. by apply (Hnew e); [right|].
Qed.

Lemma raft_R_reg_equiv reg reg' x al w s :
  (∀ e, e ∈ reg ↔ e ∈ reg') → R disc ids reg x al w s → R disc ids reg' x al w s.
Proof.
  intros He HR. split; try apply HR.
  - intros e h Hh. destruct (R_handlers _ _ _ _ _ _ _ HR _ _ Hh) as (? & ? & ?).
    split_and!; [done..|by apply He].
  - intros e Hr. by apply (R_reg _ _ _ _ _ _ _ HR), He.
Qed.

(** Booting over disks that stand for [s] succeeds. *)
Lemma raft_wp_init_cluster plan disks s :
  ids ≠ [] → NoDup ids → timeouts_ok → R disc ids [] None ∅ (booted plan disks) s →
  wp (init_cluster ids ts) (λ w' _, Ra disc ids ids w' s ∧ fresh disks w') (λ _ _, False)
    (boot_world plan disks).
Proof.
  intros Hne Hnd Hts HR. unfold init_cluster.
  apply wp_bind, wp_raise_if; intros Hb.
  { by apply bool_decide_eq_true in Hb. }
  apply wp_bind, wp_raise_if; intros Hb2.
  { by rewrite bool_decide_eq_true_2 in Hb2. }
  apply wp_bind. assert (∀ Q : _ → unit → Prop, Q (boot_world plan disks) tt →
    wp (match ts with
        | None => ret tt
        | Some m => raise_if (negb (bool_decide (dom m = list_to_set ids))) ValueError
            "election_timeouts must specify every Raft node exactly once" ;;
            raise_if (existsb (λ e, e.2 <=? 0) (map_to_list m)) ValueError
            "election timeouts must be positive" end) Q (λ _ _, False) (boot_world plan disks)) as Hck.
  { intros Q HQ. unfold timeouts_ok in Hts. destruct ts as [m|]; [|done]. destruct Hts as [Hd Ht].
    apply wp_bind, wp_raise_if; intros Hc; [by rewrite bool_decide_eq_true_2 in Hc|].
    apply wp_raise_if; intros Hc2; [|done].
    apply existsb_exists in Hc2 as ([n t] & Hin%list_elem_of_In & Hle%Z.leb_le).
    apply elem_of_map_to_list in Hin. specialize (Ht _ _ Hin). simpl in *. lia. }
  apply Hck. apply wp_bind, wp_modify. change (mkWorld _ _) with (booted plan disks).
  apply wp_bind. eapply wp_mono.
  { apply (wp_for_each _ _ (λ w, R disc ids [] None ∅ w s ∧ fresh disks w) (λ _ _, False)); [by split|].
    intros n w _ [HRw Hf]. apply wp_bind, wp_bind. unfold wp at 1.
    rewrite (log_view_returns _ _ _ _ _ _ _ _ HRw). apply wp_ret, (wp_upd_vol n). split.
    - apply R_vol; [done..|right]. by apply HRw.
    - apply (fresh_ext _ w); [done| |done]. intros n'. rewrite vol_vol_world. by case_decide; subst. }
  2: done.
  intros w1 a [HR1 Hf1]. apply wp_bind. eapply wp_mono.
  { apply (raft_wp_register_all disks ids []); [by eapply R_Ra|done..|]. intros e _ ?%elem_of_nil. done. }
  2: done.
  intros w2 a2 [HR2 Hf2].
  assert (Ra disc ids ids w2 s) as HR2'.
  { eapply raft_R_reg_equiv; [|exact HR2]. intros e. rewrite app_nil_r, !list_elem_of_In.
    by rewrite <-in_rev. }
  apply (wp_for_each _ _ (λ w, Ra disc ids ids w s ∧ fresh disks w)); [done|]. intros n w Hn [HRw Hf].
  eapply wp_mono; [by eapply wp_reset_timeout| |done]. intros w' x (HR' & Hd & Hv).
  split; [by eapply R_Ra|by eapply fresh_ext].
Qed.

Lemma init_cluster_checks w w' :
  init_cluster (C := C) ids ts w = (w', inr tt) → ids ≠ [] ∧ NoDup ids ∧ timeouts_ok.
Proof.
  unfold init_cluster, timeouts_ok, bind at 1, raise_if at 1. case_bool_decide; [done|].
  unfold bind at 1, raise_if at 1. case_bool_decide; [simpl|done]. intros Hi.
  split_and!; [done..|]. revert Hi. destruct ts as [m|]; [|done].
  unfold bind at 1, bind at 1, raise_if at 1. case_bool_decide; [simpl|done].
  destruct (existsb _ _) eqn:He; [done|]. intros _. split; [done|]. intros n t Hnt.
  destruct (Z.ltb_spec 0 t); [done|]. exfalso. apply not_true_iff_false in He. apply He.
  apply existsb_exists. exists (n, t). split; [|by apply Z.leb_le].
  by apply list_elem_of_In, elem_of_map_to_list.
Qed.

End boot.

(** The abstract state behind a reachable cluster, whatever callers do *)
Lemma raft_reachable_follows ids ts w :
  reachable (C := C) ids ts w →
  ids ≠ [] ∧ NoDup ids ∧ timeouts_ok ids ts
  ∧ ∃ s, rtc (spec_step (majority ids) false any_command) spec0 s ∧ Ra false ids ids w s.
Proof.
  induction 1 as [plan w Hw|w o w' r Hw IH Hwf Ho|w plan w' Hw IH Hi].
  - destruct (init_cluster_checks _ _ _ _ Hw) as (Hne & Hnd & Hts). split_and!; [done..|].
    pose proof (raft_wp_init_cluster false ids ts plan ∅ _ Hne Hnd Hts (raft_R_empty _ _ _ plan)) as Hwp.
    unfold wp in Hwp. rewrite Hw in Hwp. destruct Hwp as [HR _]. by exists spec0.
  - destruct IH as (Hne & Hnd & Hts & s & Hs & HR). split_and!; [done..|].
    pose proof (raft_safely_exec_op (may := any_command) false ids ids o w s ltac:(done) HR Hwf ltac:(done)) as Hwp.
    unfold safely, refines, wp in Hwp. rewrite Ho in Hwp.
    destruct r as [e|[]]; [destruct Hwp as [(s' & ? & ?) _]|destruct Hwp as (s' & ? & ? & _)];
      exists s'; (split; [by etrans|done]).
  - destruct IH as (Hne & Hnd & Hts & s & Hs & HR). split_and!; [done..|].
    pose proof (raft_wp_init_cluster false ids ts plan _ s Hne Hnd Hts (raft_R_boot _ _ _ _ _ _ plan _ _ HR)) as Hwp.
    unfold wp in Hwp. rewrite Hi in Hwp. destruct Hwp as [HR' _]. by exists s.
Qed.
End refinement.
