(* ===== verification/ReplicationMono.v ===== *)
(** * ReplicationMono: drivers only move a cluster forward

    [RaftMono.moves] for the calls of [commit_recovery.py] and
    [replication.py]: whatever a call does, and wherever it raises, the cluster
    it leaves is [later], and a replicator knows at least as much as before. *)

From S2P Require Import Prelude Simulator Quorum LogIndex Raft RaftMono Replication.

Section replicators.
Context {C : Type} `{EqDecision C}.
Implicit Types (st : RepWorld (C := C)) (n peer : string).

(** What a method of the replicator leaves: a later cluster, and a replicator
    that knows at least as much. *)
Record grown st st' : Prop := {
  gr_later : later st.(cluster) st'.(cluster);
  gr_leader : st'.(self).(leader) = st.(self).(leader);
  gr_term : st'.(self).(rep_term) = st.(self).(rep_term);
  gr_commit : st.(self).(rep_commit_index) ≤ st'.(self).(rep_commit_index);
  gr_match p x : st.(self).(progress) !! p = Some x →
    ∃ x', st'.(self).(progress) !! p = Some x' ∧ x.(match_index) ≤ x'.(match_index);
}.

Lemma grown_same st st' : later st.(cluster) st'.(cluster) → st'.(self) = st.(self) → grown st st'.
Proof. intros Hl E. split; rewrite ?E; [done..|lia|]. intros p x Hp. exists x. by split. Qed.

Lemma grown_refl st : grown st st.
Proof. apply grown_same; [apply later_refl|done]. Qed.

Lemma grown_trans st st1 st' : grown st st1 → grown st1 st' → grown st st'.
Proof.
  intros H1 H2. split.
  - eapply later_trans; [apply H1|apply H2].
  - by rewrite (gr_leader _ _ H2), (gr_leader _ _ H1).
  - by rewrite (gr_term _ _ H2), (gr_term _ _ H1).
  - pose proof (gr_commit _ _ H1). pose proof (gr_commit _ _ H2). lia.
  - intros p x Hp. destruct (gr_match _ _ H1 _ _ Hp) as (x1 & Hp1 & ?), (gr_match _ _ H2 _ _ Hp1) as (x2 & ? & ?).
    exists x2. split; [done|lia].
Qed.

(** ** Computations of a replicator *)

Definition grows {A} (m : M (RepWorld (C := C)) A) : Prop := ∀ st, grown st (m st).1.

(** They may move the cluster and leave the replicator alone, *)
Definition quiet {A} (m : M (RepWorld (C := C)) A) : Prop :=
  ∀ st, later st.(cluster) (m st).1.(cluster) ∧ (m st).1.(self) = st.(self).

(** Or run from a state only. *)
Definition grows_at {A} (m : M (RepWorld (C := C)) A) st : Prop := grown st (m st).1.

Lemma quiet_grows {A} (m : M _ A) : quiet m → grows m.
Proof. intros Hm st. destruct (Hm st). by apply grown_same. Qed.

Lemma grows_bind {A B} (m : M _ A) (k : A → M _ B) : grows m → (∀ a, grows (k a)) → grows (bind m k).
Proof.
  intros Hm Hk st. unfold bind. specialize (Hm st). destruct (m st) as [st1 [e|a]]; [done|].
  eapply grown_trans; [exact Hm|apply Hk].
Qed.

Lemma quiet_bind {A B} (m : M _ A) (k : A → M _ B) : quiet m → (∀ a, quiet (k a)) → quiet (bind m k).
Proof.
  intros Hm Hk st. unfold bind. specialize (Hm st). destruct (m st) as [st1 [e|a]]; [done|]. simpl in Hm.
  destruct Hm as [Hl E], (Hk a st1) as [Hl' E']. split; [by eapply later_trans|congruence].
Qed.

Lemma grows_at_quiet {A B} (m : M _ A) (k : A → M _ B) st :
  quiet m → (∀ a st1, st1.(self) = st.(self) → grows_at (k a) st1) → grows_at (bind m k) st.
Proof.
  intros Hm Hk. unfold grows_at, bind. destruct (Hm st) as [Hl E]. destruct (m st) as [st1 [e|a]]; simpl in *.
  - by apply grown_same.
  - eapply grown_trans; [by apply grown_same|by apply Hk].
Qed.

Lemma grows_at_then {A B} (m : M _ A) (k : A → M _ B) st :
  grows_at m st → (∀ a, grows (k a)) → grows_at (bind m k) st.
Proof.
  intros Hm Hk. unfold grows_at, bind in *. destruct (m st) as [st1 [e|a]]; [done|].
  eapply grown_trans; [exact Hm|apply Hk].
Qed.

Lemma grows_at_gets {B X} (f : _ → X) (k : X → M _ B) st : grows_at (k (f st)) st → grows_at (bind (gets f) k) st.
Proof. done. Qed.

Lemma quiet_on_cluster {A} (m : M _ A) : moves m → quiet (on_cluster m).
Proof. intros Hm st. split; [apply Hm|done]. Qed.
Lemma quiet_ret {A} (a : A) : quiet (ret a). Proof. intros st. split; [apply later_refl|done]. Qed.
Lemma quiet_gets {A} (f : _ → A) : quiet (gets f). Proof. intros st. split; [apply later_refl|done]. Qed.
Lemma quiet_raise {A} c msg : quiet (raise (A := A) c msg). Proof. intros st. split; [apply later_refl|done]. Qed.
Lemma quiet_raise_if b c msg : quiet (raise_if b c msg).
Proof. destruct b; [apply quiet_raise|apply quiet_ret]. Qed.
Lemma quiet_record (r : RaftRec) : accepted_request (EvProto (Σ := RaftSig) r) = None → quiet (rep_record r).
Proof. intros Hr. by apply quiet_on_cluster, moves_trace_rec. Qed.
Lemma moves_check_leader r : moves (check_current_leader (C := C) r).
Proof. unfold check_current_leader. auto 20 with distlab. Qed.
#[local] Hint Resolve quiet_on_cluster quiet_ret quiet_gets quiet_raise quiet_raise_if quiet_record
  moves_check_leader : distlab.
#[local] Hint Extern 3 (quiet (bind _ _)) => apply quiet_bind; [|intros] : distlab.
#[local] Hint Extern 3 (grows (bind _ _)) => apply grows_bind; [|intros] : distlab.
#[local] Hint Extern 5 (quiet (if ?b then _ else _)) => destruct b : distlab.
#[local] Hint Extern 5 (quiet (match ?b with _ => _ end)) => destruct b : distlab.
#[local] Hint Extern 5 (grows (if ?b then _ else _)) => destruct b : distlab.
#[local] Hint Extern 5 (grows (match ?b with _ => _ end)) => destruct b : distlab.
#[local] Hint Extern 7 (grows _) => apply quiet_grows; solve [auto 20 with distlab] : distlab.

Lemma quiet_current : quiet require_current_leader.
Proof. unfold require_current_leader. auto 20 with distlab. Qed.
Lemma quiet_peer peer : quiet (require_peer peer).
Proof. unfold require_peer. auto 20 with distlab. Qed.
Lemma quiet_begin peer : quiet (begin_activity_probe peer).
Proof. unfold begin_activity_probe, require_peer. cbv zeta. auto 40 using quiet_current with distlab. Qed.
Lemma quiet_finish probe : quiet (finish_activity_probe probe).
Proof. unfold finish_activity_probe, require_peer. auto 40 using quiet_current with distlab. Qed.
#[local] Hint Resolve quiet_current quiet_peer quiet_begin quiet_finish : distlab.
Lemma quiet_probe rf peer : quiet (probe_activity rf peer).
Proof. unfold probe_activity. auto 20 with distlab. Qed.

(** The scan only goes up. *)
Lemma grows_scan view previous k indices st :
  (∀ i, i ∈ indices → st.(self).(rep_commit_index) ≤ i) → grows_at (commit_scan view previous k indices) st.
Proof.
  revert st. induction indices as [|i indices IH]; intros st Hin; simpl; [apply grown_refl|].
  apply grows_at_quiet; [auto with distlab|]. intros t st1 E. apply grows_at_gets.
  assert (grows_at (commit_scan view previous k indices) st1) as Hrest.
  { apply IH. intros j Hj. rewrite E. apply Hin. by right. }
  destruct (negb _); [exact Hrest|]. destruct (_ <? _); [exact Hrest|].
  apply grows_at_then; [|auto 20 with distlab].
  split; simpl; [apply later_refl|done..|rewrite E; apply Hin; by left|]. intros p x Hp. by exists x.
Qed.

Lemma grows_advance : grows rep_advance_commit_index.
Proof.
  intros st. change (grows_at rep_advance_commit_index st). unfold rep_advance_commit_index. cbv zeta.
  apply grows_at_quiet; [auto with distlab|]. intros _ st1 _. apply grows_at_gets.
  apply grows_at_quiet; [auto with distlab|]. intros m st2 E2.
  apply grows_at_quiet; [auto with distlab|]. intros view st3 E3.
  apply grows_at_then; [|auto with distlab]. apply grows_scan.
  intros i Hi%list_elem_of_In%in_rev%list_elem_of_In%elem_of_zrange. rewrite E3, E2. lia.
Qed.

Lemma grows_progress st peer p :
  (∀ x, st.(self).(progress) !! peer = Some x → x.(match_index) ≤ p.(match_index)) →
  grows_at (upd_self (set_progress peer p)) st.
Proof.
  intros Hle. split; simpl; [apply later_refl|done..|lia|]. intros q y Hq.
  destruct (decide (q = peer)) as [->|Hne].
  - rewrite lookup_insert_eq. exists p. split; [done|by apply Hle].
  - rewrite lookup_insert_ne by done. by exists y.
Qed.

Lemma grows_advance_peer st peer p m src :
  (∀ x, st.(self).(progress) !! peer = Some x → x.(match_index) ≤ p.(match_index)) →
  grows_at (advance_peer peer p m src) st.
Proof.
  intros Hle. unfold advance_peer. apply grows_at_gets. cbv zeta. apply grows_at_then; [|auto with distlab].
  apply grows_progress. intros x Hx. specialize (Hle x Hx). simpl. lia.
Qed.

(** What an attempt knows of the peer is what it stores. *)
Lemma grows_attempt rf peer k : grows (replicate_attempt rf peer k).
Proof.
  intros st. change (grows_at (replicate_attempt rf peer k) st). unfold replicate_attempt. cbv zeta.
  apply grows_at_quiet; [auto with distlab|]. intros _ st1 _. apply grows_at_gets.
  set (p := default _ _).
  assert (∀ x, progress (self st1) !! peer = Some x → match_index x ≤ match_index p) as Hle.
  { intros x Hx. unfold p. rewrite Hx. simpl. lia. }
  apply grows_at_quiet; [auto with distlab|]. intros view st2 E2.
  destruct (_ <=? _); [apply grown_refl|].
  apply grows_at_quiet; [auto with distlab|]. intros es st3 E3.
  apply grows_at_quiet; [auto with distlab|]. intros tr st4 E4.
  apply grows_at_quiet; [auto with distlab|]. intros _ st5 E5.
  apply grows_at_quiet; [auto with distlab|]. intros _ st6 E6.
  apply grows_at_quiet; [auto with distlab|]. intros _ st7 E7.
  apply grows_at_quiet; [auto with distlab|]. intros tr' st8 E8.
  assert (self st8 = self st1) as E by congruence.
  destruct (matching_response _ _ _ _ _ _ _) as [[[] m]|].
  - apply grows_at_then; [apply grows_advance_peer; by rewrite E|]. intros _.
    apply grows_bind; [apply grows_advance|auto with distlab].
  - apply grows_at_then; [apply grows_progress; by rewrite E|auto 20 with distlab].
  - apply grown_refl.
Qed.
#[local] Hint Resolve grows_attempt grows_advance : distlab.

Lemma grows_loop rf fuel peer k a : grows (replicate_loop rf fuel peer k a).
Proof. revert a. induction fuel as [|fuel IH]; intros a; simpl; auto 20 with distlab. Qed.
#[local] Hint Resolve grows_loop : distlab.
Lemma grows_replicate rf fuel peer k : grows (replicate rf fuel peer k).
Proof. unfold replicate, positive_attempts. auto 20 with distlab. Qed.
#[local] Hint Resolve grows_replicate : distlab.
Lemma grows_recover_loop rf fuel peer k a : grows (recover_loop rf fuel peer k a).
Proof. revert a. induction fuel as [|fuel IH]; intros a; simpl; cbv zeta; auto 40 with distlab. Qed.
#[local] Hint Resolve grows_recover_loop : distlab.
Lemma grows_recover rf fuel peer k : grows (recover_peer rf fuel peer k).
Proof. unfold recover_peer, positive_attempts. auto 20 with distlab. Qed.

Lemma grows_unit {A} (m : M _ A) : grows m → grows (m ;; ret tt).
Proof. intros Hm. auto with distlab. Qed.

(** ** New entries and replicators *)

Lemma moves_barrier n c : moves (append_current_term_barrier (C := C) n c).
Proof.
  assert (∀ l, moves (put (C := C) n (set_log l))) by (intros l; by apply moves_put).
  unfold append_current_term_barrier. cbv zeta. auto 40 with distlab.
Qed.

Lemma moves_new_replicator n : moves (new_LeaderReplicator (C := C) n).
Proof. unfold new_LeaderReplicator. cbv zeta. auto 40 with distlab. Qed.
#[local] Hint Resolve moves_barrier moves_new_replicator : distlab.

Lemma moves_node_barrier n c : moves (let! n := node n in append_current_term_barrier (C := C) n c ;; ret tt).
Proof. auto 20 with distlab. Qed.
End replicators.

#[export] Hint Resolve moves_new_replicator moves_node_barrier moves_barrier : distlab.
#[export] Hint Resolve quiet_grows grows_unit grows_replicate grows_recover grows_advance quiet_probe quiet_begin
  quiet_finish : distlab.
#[export] Hint Resolve quiet_on_cluster quiet_ret quiet_gets quiet_raise quiet_raise_if quiet_record quiet_current : distlab.
#[export] Hint Extern 3 (quiet (bind _ _)) => apply quiet_bind; [|intros] : distlab.
#[export] Hint Extern 5 (quiet (if ?b then _ else _)) => destruct b : distlab.
#[export] Hint Extern 5 (quiet (match ?b with _ => _ end)) => destruct b : distlab.
