(* ===== verification/ReplicationRefine.v ===== *)
(** * ReplicationRefine: replication keeps to the leader's log

    [commit_recovery.py] and [replication.py] over [R true]: a barrier is an
    append by the leader, an attempt sends a part of the leader's log and, when
    the response is in the trace, its follower has acknowledged it, and an index
    is committed only when a majority acknowledged an entry of the leader's own
    term.  [rep_ok] is what a replicator knows of the machine. *)

From stdpp Require Import relations.
From S2P Require Import Prelude Simulator SimFacts Quorum LogIndex RaftSpec Refinement Raft RaftRefine RaftSafe.
From S2P Require Import RaftMono Replication ReplicationMono.

Section refinement.
Context {C : Type} `{EqDecision C}.
Implicit Types (w : World (RaftSig (C := C))) (s : Spec C) (n peer : string) (r : LeaderReplicator).
Implicit Types (st : RepWorld (C := C)).

Section with_ids.
Context (ids : list string) (ld : string) (ok : exn → Prop) {may : C → Prop}.
Local Abbreviation quorum := (majority ids).
Local Abbreviation steps := (rtc (spec_step quorum true may)).
Local Abbreviation committed := (committed quorum).
Local Abbreviation Ra := (Ra (C := C) true ids ids).
Local Abbreviation allows := (allows ok).

Definition progress_ok s (t : Z) (last : Z) peer (p : PeerReplicationProgress) : Prop :=
  1 ≤ p.(next_index) ≤ last + 1 ∧ 0 ≤ p.(match_index) ≤ last
  ∧ (0 < p.(match_index) → (t, peer, Z.to_nat p.(match_index)) ∈ s.(acks)).

(** What the replicator of [ld] knows: the leader of its term, and of that leader's log
    what each peer acknowledged and what is committed. *)
Record rep_ok s r : Prop := {
  ro_leader : r.(leader) = ld;
  ro_member : ld ∈ ids;
  ro_peers p : is_Some (r.(progress) !! p) ↔ p ∈ ids ∧ p ≠ r.(leader);
  ro_log : ∃ L, s.(llogs) !! r.(rep_term) = Some L
    ∧ 0 ≤ r.(rep_commit_index) ≤ zlen L
    ∧ committed s r.(rep_term) (take (Z.to_nat r.(rep_commit_index)) L)
    ∧ ∀ peer p, r.(progress) !! peer = Some p → progress_ok s r.(rep_term) (zlen L) peer p;
}.

Lemma progress_ok_mono s s' t last last' peer p :
  steps s s' → last ≤ last' → progress_ok s t last peer p → progress_ok s' t last' peer p.
Proof.
  intros Hs Hl (? & ? & Ha). split_and!; [lia..|]. intros Hm. eapply (steps_acks quorum); [done|by apply Ha].
Qed.

Lemma rep_ok_mono s s' r : spec_inv quorum true s → steps s s' → rep_ok s r → rep_ok s' r.
Proof.
  intros Hi Hs [? ? ? (L & HL & Hc & Hcom & Hp)]. split; [done..|].
  destruct (steps_llog quorum true _ _ _ _ eq_refl Hi Hs HL) as [k HL']. exists (L ++ k).
  assert (zlen L ≤ zlen (L ++ k)) by (unfold zlen; rewrite length_app; lia).
  split_and!; [done|lia|lia| |].
  - rewrite take_app_z by lia. by eapply (steps_committed quorum true).
  - intros peer p Hpp. eapply progress_ok_mono; [done..|by apply Hp].
Qed.

(** While the replicator's node leads, it has committed what the replicator has. *)
Definition rep_tracks w r : Prop := tracks w r.(leader) r.(rep_term) r.(rep_commit_index).

Definition RRep st s : Prop :=
  Ra st.(cluster) s ∧ rep_ok s st.(self) ∧ rep_tracks st.(cluster) st.(self).

Local Abbreviation refinesR := (Refinement.refines (spec_step quorum true may) RRep ok).
Local Abbreviation safelyR := (Refinement.safely (spec_step quorum true may) RRep ok).
Local Abbreviation refinesA := (Refinement.refines (spec_step quorum true may) Ra ok).
Local Abbreviation safelyA := (Refinement.safely (spec_step quorum true may) Ra ok).

Lemma Ra_inv w s : Ra w s → spec_inv quorum true s.
Proof. apply R_inv. Qed.

(** ** Methods of the cluster called by a replicator *)

Lemma refines_on_cluster {A} s (m : M _ A) (Q : _ → _ → A → Prop) st :
  RRep st s → moves m → refinesA s m Q st.(cluster) →
  refinesR s (on_cluster m) (λ st' s' a, (Q st'.(cluster) s' a ∧ later st.(cluster) st'.(cluster))
    ∧ st'.(self) = st.(self)) st.
Proof.
  intros (HR & Hr & Ht) Hmv Hm. unfold on_cluster, Refinement.refines, wp in *. specialize (Hmv (cluster st)).
  destruct (m (cluster st)) as [w' [e|a]]; simpl in *.
  - destruct Hm as [(s' & Hs & HR') Hok]. split; [|done]. exists s'. split; [done|]. split_and!; [done|..].
    + eapply rep_ok_mono; [exact (Ra_inv _ _ HR)|done..].
    + by eapply tracks_later.
  - destruct Hm as (s' & Hs & HR' & HQ). exists s'. split; [done|]. split; [|done]. split_and!; [done|..].
    + eapply rep_ok_mono; [exact (Ra_inv _ _ HR)|done..].
    + by eapply tracks_later.
Qed.

Lemma on_cluster_returns {A} (m : M _ A) st (a : A) :
  m st.(cluster) = (st.(cluster), inr a) → on_cluster m st = (st, inr a).
Proof. intros Hm. unfold on_cluster. rewrite Hm. by destruct st. Qed.

Lemma refines_read {A B} s (f : _ → A) (k : A → M _ B) Q st :
  refinesR s (k (f st.(cluster))) Q st → refinesR s (bind (on_cluster (gets f)) k) Q st.
Proof. apply refines_returns. by apply on_cluster_returns. Qed.

Lemma refines_read_lift {A B} s (a : A) (k : A → M _ B) Q st :
  refinesR s (k a) Q st → refinesR s (bind (on_cluster (lift (inr a))) k) Q st.
Proof. apply refines_returns. by apply on_cluster_returns. Qed.

Lemma refines_read_view {B} s n (k : _ → M _ B) Q st :
  RRep st s → refinesR s (k (view_of (dur st.(cluster) n))) Q st →
  refinesR s (bind (on_cluster (log_view n)) k) Q st.
Proof. intros [HR _]. apply refines_returns, on_cluster_returns. by eapply log_view_returns. Qed.

(** A record leaves the nodes alone. *)
Record same_nodes w w' : Prop := {
  sn_dur n : dur w' n = dur w n;
  sn_vol n : vol w' n = vol w n;
  sn_alive n : is_alive w' n = is_alive w n;
}.

Lemma refines_record s rec st :
  RRep st s → plain (EvProto (Σ := RaftSig) rec) = true → accepted_request (EvProto (Σ := RaftSig) rec) = None →
  refinesR s (rep_record rec) (λ st' s' _, s' = s ∧ same_nodes st.(cluster) st'.(cluster)
    ∧ later st.(cluster) st'.(cluster) ∧ st'.(self) = st.(self)) st.
Proof.
  intros HR Hp Hacc. eapply refines_weaken;
    [apply (refines_on_cluster _ _ (λ w' s' _, s' = s ∧ same_nodes st.(cluster) w')); [done|by apply moves_trace_rec|]
    |by intros ? ? ? _ _ [[[-> ?] ?] ?]].
  unfold trace_rec. eapply wp_plain; [exact (proj1 HR)|done|]. intros w' He _ HR'.
  exists s. split; [done|]. split; [by eapply R_Ra|]. split; [done|]. split; intros n.
  - exact (sim_ext_durable _ _ _ n He).
  - unfold vol, volatile. by rewrite (se_volatile _ _ _ He).
  - unfold is_alive. by rewrite (se_alive _ _ _ He).
Qed.

Lemma refines_note {B} s (rec : RaftRec) (k : unit → M _ B) Q st :
  RRep st s → plain (EvProto (Σ := RaftSig) rec) = true → accepted_request (EvProto (Σ := RaftSig) rec) = None →
  (∀ st', RRep st' s → later st.(cluster) st'.(cluster) → st'.(self) = st.(self) →
     same_nodes st.(cluster) st'.(cluster) → refinesR s (k tt) Q st') →
  refinesR s (bind (rep_record rec) k) Q st.
Proof.
  intros HR Hp Hacc Hk. eapply refines_bind; [by apply refines_record|].
  intros s' st' [] _ HR' (-> & Hn & Hl & Hself). by apply Hk.
Qed.

(** ** The current leader *)

Record current st : Prop := {
  cur_alive : is_alive st.(cluster) st.(self).(leader) = true;
  cur_leads : (vol st.(cluster) st.(self).(leader)).(role) = LEADER;
  cur_term : (dur st.(cluster) st.(self).(leader)).(current_term) = st.(self).(rep_term);
}.

Lemma current_same st st' :
  current st → st'.(self) = st.(self) → same_nodes st.(cluster) st'.(cluster) → current st'.
Proof. intros [Ha Hl Ht] Hs [Hd Hv Hal]. split; by rewrite Hs, ?Hd, ?Hv, ?Hal. Qed.

Lemma wp_check_current r w :
  wp (check_current_leader r)
    (λ w' _, w' = w ∧ is_alive w r.(leader) = true ∧ (vol w r.(leader)).(role) = LEADER
      ∧ (dur w r.(leader)).(current_term) = r.(rep_term))
    (λ w' e, w' = w ∧ exn_cls e = ReplicationError) w.
Proof.
  unfold check_current_leader.
  apply wp_bind, wp_gets, wp_bind, wp_raise_if; [done|intros Ha%negb_false_iff].
  apply wp_bind, wp_gets, wp_bind, wp_raise_if; [done|intros Hl%negb_false_iff%bool_decide_eq_true].
  apply wp_bind, wp_gets, wp_raise_if; [done|intros Ht%negb_false_iff%Z.eqb_eq]. done.
Qed.

(** A check of the cluster leaves the pair as it is. *)
Lemma wp_on_cluster_same {A} (m : M _ A) (P : A → Prop) (E : exn → Prop) st :
  wp m (λ w' a, w' = st.(cluster) ∧ P a) (λ w' e, w' = st.(cluster) ∧ E e) st.(cluster) →
  wp (on_cluster m) (λ st' a, st' = st ∧ P a) (λ st' e, st' = st ∧ E e) st.
Proof.
  unfold wp, on_cluster. destruct (m (cluster st)) as [w' [e|a]]; simpl; intros [-> ?]; by destruct st.
Qed.

Lemma refines_current {B} s (k : unit → M _ B) Q st :
  RRep st s → allows ReplicationError → (current st → refinesR s (k tt) Q st) →
  refinesR s (bind require_current_leader k) Q st.
Proof.
  intros HR Hok Hk. apply (refines_pure _ _ _ _ _ _ (λ _, current st)); [|done|by intros [] ?; apply Hk].
  apply wp_bind, wp_gets, wp_on_cluster_same. eapply wp_mono; [apply wp_check_current| |].
  - intros w' a (-> & ? & ? & ?). done.
  - intros w' e [-> ?]. split; [done|by apply Hok].
Qed.

(** The replicator's node leads its term. *)
Definition in_lead st : Prop :=
  (vol st.(cluster) st.(self).(leader)).(role) = LEADER
  ∧ term_at_node st.(cluster) st.(self).(leader) = st.(self).(rep_term).

Lemma current_in_lead st : current st → in_lead st.
Proof. by intros [_ ? ?]. Qed.

(** A leader that leads has committed what its replicator has. *)
Lemma in_lead_commit st s :
  RRep st s → in_lead st → st.(self).(rep_commit_index) ≤ (vol st.(cluster) st.(self).(leader)).(commit_index).
Proof.
  intros (_ & _ & Ht) [Hr Hterm]. destruct Ht as [?|[_ [?|[_ ?]]]]; [lia|congruence|done].
Qed.

(** Its log is the log of its term. *)
Lemma in_lead_log st s :
  RRep st s → in_lead st →
  let log := (dur st.(cluster) st.(self).(leader)).(log) in
  view_of (dur st.(cluster) st.(self).(leader)) = mkRaftLogView 0 0 log
  ∧ log = nlog s st.(self).(leader) ∧ s.(llogs) !! st.(self).(rep_term) = Some log.
Proof.
  intros [HR Hr] [Hl Ht] log. unfold term_at_node in Ht.
  destruct (disc_good _ _ _ _ _ (leader (self st)) _ _ HR eq_refl) as (Hv & Hlog & _).
  pose proof (R_role _ _ _ _ _ _ _ HR (leader (self st)) ltac:(done)) as Hrole.
  unfold role_ok in Hrole. rewrite Hl in Hrole. destruct Hrole as (_ & _ & _ & HL).
  rewrite Hv, Ht in *. subst log. rewrite Hlog. split_and!; [done..|by apply HL].
Qed.

Lemma current_log st s :
  RRep st s → current st →
  let log := (dur st.(cluster) st.(self).(leader)).(log) in
  view_of (dur st.(cluster) st.(self).(leader)) = mkRaftLogView 0 0 log
  ∧ log = nlog s st.(self).(leader) ∧ s.(llogs) !! st.(self).(rep_term) = Some log.
Proof. intros HR Hc. by apply in_lead_log, current_in_lead. Qed.

Lemma current_knows st s :
  RRep st s → current st →
  let log := (dur st.(cluster) st.(self).(leader)).(log) in
  0 ≤ st.(self).(rep_commit_index) ≤ zlen log
  ∧ committed s st.(self).(rep_term) (take (Z.to_nat st.(self).(rep_commit_index)) log)
  ∧ ∀ peer p, st.(self).(progress) !! peer = Some p → progress_ok s st.(self).(rep_term) (zlen log) peer p.
Proof.
  intros HR Hc log. destruct (current_log _ _ HR Hc) as (_ & _ & HL).
  destruct (ro_log _ _ (proj1 (proj2 HR))) as (L & HL' & ?). simplify_eq. done.
Qed.
(** ** Commitment *)

(** A leader acknowledges its own log. *)
Lemma leader_acks w s n :
  Ra w s → (vol w n).(role) = LEADER →
  ∃ s', steps s s' ∧ Ra w s' ∧ ((dur w n).(current_term), n, length (dur w n).(log)) ∈ s'.(acks).
Proof.
  intros HR Hr. destruct (disc_good _ _ _ _ _ n _ _ HR eq_refl) as (_ & Hlog & _).
  pose proof (R_role _ _ _ _ _ _ _ HR n ltac:(done)) as Hrole. unfold role_ok in Hrole. rewrite Hr in Hrole.
  destruct Hrole as (Hlt & Hel & Hg & HL). specialize (HL eq_refl).
  set (L := nlog s n) in *. rewrite Hlog.
  assert (steps s (accept_state s n L (length L))) as Hs by by eapply accept_steps.
  exists (accept_state s n L (length L)). split; [done|]. split.
  - eapply (raft_R_steps true ids ids None _ n w s); [exact HR|done| | |].
    + intros n' Hne. by apply apart_accept.
    + pose proof (accept_dur_ok _ _ _ None _ n w s L (length L) HR eq_refl) as Hok.
      rewrite adopt_same in Hok by done.
      assert (set_log (nlog s n) (dur w n) = dur w n) as E by (fold L; rewrite <-Hlog; apply set_log_same).
      rewrite E in Hok. apply Hok. fold L. rewrite <-Hlog. apply (R_dur _ _ _ _ _ _ _ HR n).
    + right. unfold role_ok. rewrite Hr. split_and!; [done..|]. intros _.
      unfold nlog. simpl. rewrite lookup_insert_eq. simpl. by rewrite adopt_same.
  - by apply (accept_ack _ _ _ None _ n w s L (length L) HR).
Qed.

(** The peers that have an index, as a set *)
Definition rep_holders r (index : Z) : gset string :=
  list_to_set (fst <$> filter (λ p, index ≤ p.2.(match_index)) (map_to_list r.(progress))).

Lemma elem_of_rep_holders r index peer :
  peer ∈ rep_holders r index ↔ ∃ p, r.(progress) !! peer = Some p ∧ index ≤ p.(match_index).
Proof.
  unfold rep_holders. rewrite elem_of_list_to_set, list_elem_of_fmap. split.
  - intros ([q p] & -> & [Hm Hin]%list_elem_of_filter). exists p. by apply elem_of_map_to_list in Hin.
  - intros (p & Hp & Hm). exists (peer, p). split; [done|]. apply list_elem_of_filter.
    split; [done|]. by apply elem_of_map_to_list.
Qed.

Lemma NoDup_fst_filter {A B} (P : A * B → Prop) `{!∀ x, Decision (P x)} (l : list (A * B)) :
  NoDup l.*1 → NoDup (filter P l).*1.
Proof.
  induction l as [|x l IH]; simpl; [done|]. intros [Hx Hl]%NoDup_cons. rewrite filter_cons.
  case_decide; simpl; [|by apply IH]. apply NoDup_cons. split; [|by apply IH].
  intros Hin. apply Hx. apply list_elem_of_fmap in Hin as (y & -> & [_ Hy]%list_elem_of_filter).
  apply list_elem_of_fmap. by exists y.
Qed.

Lemma replicas_size r index : replicas r index = 1 + Z.of_nat (size (rep_holders r index)).
Proof.
  unfold replicas, rep_holders, zlen. rewrite size_list_to_set; [by rewrite length_fmap|].
  apply NoDup_fst_filter. apply NoDup_fst_map_to_list.
Qed.

(** A majority of acknowledgements of an entry of the leader's own term *)
Lemma replicas_chosen s r L index :
  rep_ok s r → s.(llogs) !! r.(rep_term) = Some L → 1 ≤ index ≤ zlen L →
  term_before L index = r.(rep_term) → (r.(rep_term), r.(leader), length L) ∈ s.(acks) →
  quorum_size ids ≤ replicas r index → chosen quorum s r.(rep_term) (Z.to_nat index).
Proof.
  intros Hr HL Hi Ht Hack Hq. exists L, ({[r.(leader)]} ∪ rep_holders r index). unfold zlen in Hi.
  split_and!; [done| | |].
  - unfold term_before, znth in Ht. destruct (Z.eqb_spec index 0); [lia|].
    destruct (lookup_lt_is_Some_2 L (Z.to_nat (index - 1))) as [e He]; [lia|]. rewrite He in Ht.
    exists e. split_and!; [lia| |done]. by replace (Nat.pred (Z.to_nat index)) with (Z.to_nat (index - 1)) by lia.
  - split.
    + intros a [->%elem_of_singleton|(p & Hp & _)%elem_of_rep_holders]%elem_of_union; apply elem_of_list_to_set.
      * rewrite (ro_leader _ _ Hr). apply Hr.
      * apply (ro_peers _ _ Hr a). by exists p.
    + rewrite size_union, size_singleton.
      * rewrite replicas_size in Hq. lia.
      * intros a ->%elem_of_singleton (p & Hp & _)%elem_of_rep_holders.
        by destruct (proj1 (ro_peers _ _ Hr (leader r)) (mk_is_Some _ _ Hp)).
  - intros a [->%elem_of_singleton|(p & Hp & Hm)%elem_of_rep_holders]%elem_of_union.
    + exists (length L). split; [lia|done].
    + destruct (ro_log _ _ Hr) as (L' & HL' & _ & _ & Hall).
      destruct (Hall _ _ Hp) as (_ & Hb & Ha). exists (Z.to_nat p.(match_index)). split; [lia|].
      apply Ha. lia.
Qed.

Lemma chosen_committed s t L i :
  chosen quorum s t i → s.(llogs) !! t = Some L → committed s t (take i L).
Proof. intros Hc HL. right. by exists t, L, i, i. Qed.

Lemma refines_grown {A} s (m : M _ A) (Q : _ → _ → A → Prop) st :
  grows_at m st → refinesR s m Q st → refinesR s m (λ st' s' a, grown st st' ∧ Q st' s' a) st.
Proof.
  unfold refines, wp, grows_at. destruct (m st) as [st' [e|a]]; [done|]. intros Hg (s' & ? & ? & ?). by exists s'.
Qed.

Lemma wp_later {A} (m : M _ A) (Q : _ → A → Prop) E w :
  moves m → wp m Q E w → wp m (λ w' a, Q w' a ∧ later w w') E w.
Proof. unfold wp. intros Hm. specialize (Hm w). by destruct (m w) as [w' [e|a]]. Qed.

(** The leader commits an index a majority acknowledged. *)
Lemma refines_commit_at st s i :
  RRep st s → current st → st.(self).(rep_commit_index) ≤ i →
  1 ≤ i ≤ zlen (dur st.(cluster) st.(self).(leader)).(log) →
  term_before (dur st.(cluster) st.(self).(leader)).(log) i = st.(self).(rep_term) →
  quorum_size ids ≤ replicas st.(self) i →
  refinesR s (upd_self (set_rep_commit i) ;; on_cluster (advance_commit_index st.(self).(leader) i st.(self).(leader)))
    (λ st' _ _, in_lead st' ∧ st'.(self).(rep_commit_index) = i) st.
Proof.
  intros HR Hc Hge Hi Ht Hq. destruct (current_log _ _ HR Hc) as (Hview & _). set (L := log _) in *.
  destruct (leader_acks _ _ _ (proj1 HR) (cur_leads _ Hc)) as (s1 & Hs1 & HR1 & Hack).
  rewrite (cur_term _ Hc) in Hack. fold L in Hack. apply (refines_steps _ _ _ _ s1); [done|].
  assert (rep_ok s1 (self st)) as Hr1 by (eapply rep_ok_mono; [exact (Ra_inv _ _ (proj1 HR))|done|apply HR]).
  destruct (current_log st s1 (conj HR1 (conj Hr1 (proj2 (proj2 HR)))) Hc) as (_ & _ & HL1). fold L in HL1.
  pose proof (replicas_chosen s1 _ L i Hr1 HL1 Hi Ht Hack Hq) as Hch.
  pose proof (chosen_committed _ _ _ _ Hch HL1) as Hcom.
  apply wp_bind, wp_modify. unfold on_cluster, refines, wp. simpl.
  assert (committed s1 (dur (cluster st) (leader (self st))).(current_term) (take (Z.to_nat i) L)) as Hcom'
    by by rewrite (cur_term _ Hc).
  pose proof (wp_later _ _ _ _ (moves_advance_commit (leader (self st)) i (leader (self st)))
    (wp_advance_commit true ids ids (leader (self st)) i (leader (self st)) None _ (cluster st) s1 HR1
      (λ _ _, or_introl Hcom'))) as Hwp.
  unfold wp in Hwp. destruct (advance_commit_index _ _ _ _) as [w' [e|a]]; simpl.
  { destruct Hwp as (_ & _ & []). rewrite Hview. unfold last_index. simpl. lia. }
  destruct Hwp as ((HR' & Hd & Hro & Hci) & Hl). exists s1. split; [done|].
  assert (in_lead (mkRepWorld w' (set_rep_commit i (self st)))) as Hleads.
  { split; simpl; [rewrite Hro; apply Hc|unfold term_at_node; rewrite Hd; apply Hc]. }
  split; [|by split]. split; [by eapply R_Ra|]. split.
  - destruct Hr1 as [? ? ? (L' & HL' & ? & ? & Hp)]. rewrite HL1 in HL'. injection HL' as <-. split; [done..|].
    exists L. split_and!; [done|simpl; lia|simpl; lia|done|done].
  - right. simpl. destruct Hleads as [Hr Hterm]. split; [done|right; by split].
Qed.

Lemma refines_commit_scan st s view previous indices :
  RRep st s → current st → view = view_of (dur st.(cluster) st.(self).(leader)) →
  StronglySorted Z.gt indices →
  (∀ i, i ∈ indices → 1 ≤ i ≤ last_index view ∧ st.(self).(rep_commit_index) ≤ i) →
  refinesR s (commit_scan view previous (quorum_size ids) indices) (λ st' _ _, in_lead st'
    ∧ ∀ i, i ∈ indices → term_before (dur st.(cluster) st.(self).(leader)).(log) i = st.(self).(rep_term) →
       quorum_size ids ≤ replicas st.(self) i → i ≤ st'.(self).(rep_commit_index)) st.
Proof.
  intros HR Hc Hv. induction indices as [|i indices IH]; intros Hsort Hin.
  { apply refines_ret; [done|]. split; [by apply current_in_lead|]. by intros i ?%elem_of_nil. }
  simpl. apply StronglySorted_cons in Hsort as [Hmax Hsort].
  assert (refinesR s (commit_scan view previous (quorum_size ids) indices) (λ st' _ _, in_lead st'
    ∧ ∀ i, i ∈ indices → term_before (dur st.(cluster) st.(self).(leader)).(log) i = st.(self).(rep_term) →
       quorum_size ids ≤ replicas st.(self) i → i ≤ st'.(self).(rep_commit_index)) st) as Hrest.
  { apply IH; [done|]. intros j Hj. apply Hin. by right. }
  destruct (current_log _ _ HR Hc) as (Hview & _ & HL). set (L := log _) in *. rewrite Hview in Hv.
  destruct (Hin i ltac:(by left)) as [Hi Hge]. rewrite Hv in Hi. unfold last_index in Hi. simpl in Hi.
  rewrite Hv. rewrite term_at_before by lia. rewrite <-Hv. apply refines_read_lift, refines_gets.
  destruct (Z.eqb_spec (term_before L i) (rep_term (self st))) as [Ht|Ht]; simpl.
  2:{ eapply refines_weaken; [exact Hrest|]. intros ? ? ? _ _ [? Hall]. split; [done|].
      intros j [->|?]%elem_of_cons; [done|by apply Hall]. }
  destruct (Z.ltb_spec (replicas (self st) i) (quorum_size ids)) as [Hlt|Hq].
  { eapply refines_weaken; [exact Hrest|]. intros ? ? ? _ _ [? Hall]. split; [done|].
    intros j [->|?]%elem_of_cons; [lia|by apply Hall]. }
  apply refines_assoc. eapply refines_bind; [by apply refines_commit_at|].
  intros s1 st1 _ _ HR1 [[Hr Hterm] Hci]. eapply refines_weaken; [by apply refines_record|].
  intros s2 st2 _ _ _ (_ & Hn & _ & Hself). split.
  - unfold in_lead, term_at_node. by rewrite Hself, (sn_vol _ _ Hn), (sn_dur _ _ Hn).
  - rewrite Hself, Hci. rewrite Forall_forall in Hmax. intros j [->|Hj]%elem_of_cons _ _; [done|].
    specialize (Hmax j Hj). lia.
Qed.

Lemma refines_rep_advance st s :
  RRep st s → allows ReplicationError →
  refinesR s rep_advance_commit_index (λ st' _ _, in_lead st' ∧ ∀ L i,
    s.(llogs) !! st.(self).(rep_term) = Some L → 1 ≤ i ≤ zlen L → term_before L i = st.(self).(rep_term) →
    quorum_size ids ≤ replicas st.(self) i → i ≤ st'.(self).(rep_commit_index)) st.
Proof.
  intros HR Hok. unfold rep_advance_commit_index. apply refines_current; [done..|intros Hc].
  apply refines_gets, refines_read. rewrite (R_ids _ _ _ _ _ _ _ (proj1 HR)). cbv zeta.
  apply refines_read_view with (s := s); [done|].
  destruct (current_log _ _ HR Hc) as (Hview & _ & HL). destruct (current_knows _ _ HR Hc) as (Hci & _).
  rewrite Hview. unfold last_index. cbn [base_index entries].
  eapply refines_bind.
  - assert (∀ i, i ∈ rev (zrange (Z.max (rep_commit_index (self st)) 0 + 1)
        (0 + zlen (log (dur (cluster st) (leader (self st)))) + 1)) →
      1 ≤ i ≤ zlen (log (dur (cluster st) (leader (self st)))) ∧ rep_commit_index (self st) ≤ i) as Hin
      by (intros i Hi%list_elem_of_In%in_rev%list_elem_of_In%elem_of_zrange; lia).
    apply refines_grown; [apply grows_scan; intros i Hi; by apply Hin|].
    apply refines_commit_scan; [done..|apply zrange_rev_sorted|].
    intros i Hi. unfold last_index. cbn [base_index entries]. by apply Hin.
  - intros s1 st1 _ _ HR1 (Hg & Hl & Hall). apply refines_gets. apply refines_ret; [done|]. split; [done|].
    intros L i HL' Hi Ht Hq. rewrite HL in HL'. injection HL' as <-. pose proof (gr_commit _ _ Hg).
    destruct (Z.le_gt_cases i (rep_commit_index (self st))); [lia|]. apply Hall; [|done..].
    apply list_elem_of_In, in_rev. rewrite rev_involutive. apply list_elem_of_In, elem_of_zrange. lia.
Qed.
(** ** Attempts *)

Lemma event_recorded w i rec :
  tr_event <$> trace_of w !! i = Some (EvProto (Σ := RaftSig) rec) → rec ∈ protos w.
Proof.
  intros (x & Hx & E)%fmap_Some. apply list_elem_of_bind. exists x. split.
  - rewrite <-E. by left.
  - by eapply list_elem_of_lookup_2.
Qed.

(** The evidence of a response is a record of the trace. *)
Lemma matching_response_recorded w r peer start em ep ec floor b m :
  matching_response (trace_of w) r peer start em ep ec floor = Some (b, m) →
  RAppendResponse r.(leader) peer r.(rep_term) b m ∈ protos w.
Proof.
  intros (i & _ & Hi)%head_Some_elem_of%list_elem_of_omap. unfold response_at in Hi.
  destruct (tr_event <$> trace_of w !! i) as [[]|] eqn:Ee; try done.
  destruct r0; try done. destruct (_ && _) eqn:Hc; [|done]. injection Hi as -> ->.
  rewrite !andb_true_iff in Hc. destruct Hc as (((((Hl & Hf) & Ht) & _) & _) & _).
  apply String.eqb_eq in Hl as ->. apply String.eqb_eq in Hf as ->. apply Z.eqb_eq in Ht as ->.
  by eapply event_recorded.
Qed.

Lemma matching_response_acked st s peer start em ep ec floor m :
  RRep st s →
  matching_response (trace_of st.(cluster)) st.(self) peer start em ep ec floor = Some (true, m) →
  0 ≤ m ∧ (st.(self).(rep_term), peer, Z.to_nat m) ∈ s.(acks)
    ∧ ∃ L, s.(llogs) !! st.(self).(rep_term) = Some L ∧ m ≤ zlen L.
Proof.
  intros [HR Hr] Hm%matching_response_recorded. pose proof (R_trace _ _ _ _ _ _ _ HR _ Hm) as Hack.
  destruct (Hack eq_refl eq_refl) as [H0 Hin]. split_and!; [done..|].
  destruct (li_ack _ _ (si_logs _ _ _ (R_inv _ _ _ _ _ _ _ HR) eq_refl) _ _ _ Hin) as (_ & L & HL & Hle & _).
  exists L. split; [done|]. unfold zlen. lia.
Qed.

(** A success tells that the follower had all that was sent, in a request it
    accepted since. *)
Lemma matching_response_heard w0 w r peer em ep ec floor m :
  later w0 w → matching_response (trace_of w) r peer (length (trace_of w0)) em ep ec floor = Some (true, m) →
  m = em ∧ term_at_node w0 peer ≤ r.(rep_term).
Proof.
  intros Hl (i & _ & Hi)%head_Some_elem_of%list_elem_of_omap. unfold response_at in Hi.
  destruct (tr_event <$> trace_of w !! i) as [[]|] eqn:Ee; try done.
  destruct r0; try done. destruct (_ && _) eqn:Hc; [|done]. injection Hi as -> ->.
  rewrite !andb_true_iff in Hc. destruct Hc as (((((_ & _) & _) & _) & Hm) & Hobs).
  apply negb_true_iff in Hm. simpl in Hm. apply negb_false_iff, Z.eqb_eq in Hm. split; [done|].
  destruct (la_records _ _ Hl) as (new & E & Hnew).
  unfold append_probe_observed in Hobs. unfold trace_of in *. rewrite E, drop_app_length in Hobs.
  apply existsb_exists in Hobs as (x & Hx%list_elem_of_In & Hev). destruct (tr_event x) as [] eqn:Ex; try done.
  match type of Hev with context [match ?r with _ => _ end] => destruct r; try done end. rewrite !andb_true_iff in Hev. destruct Hev as ((((((_ & Hf) & Ht) & _) & _) & Hok) & _).
  apply String.eqb_eq in Hf as ->. apply Z.eqb_eq in Ht as ->. apply eqb_prop in Hok as ->.
  apply (Hnew x peer _ Hx). by rewrite Ex.
Qed.

Lemma refines_require_peer {B} s peer (k : unit → M _ B) Q st :
  RRep st s → allows ValueError → (is_Some (st.(self).(progress) !! peer) → refinesR s (k tt) Q st) →
  refinesR s (bind (require_peer peer) k) Q st.
Proof.
  intros HR Hok Hk. apply wp_bind, wp_bind, wp_gets, wp_raise_if.
  - intros _. split; [by exists s|by apply Hok].
  - intros Hp%negb_false_iff%bool_decide_eq_true. by apply Hk.
Qed.

Lemma rep_ok_progress s r L peer p :
  rep_ok s r → s.(llogs) !! r.(rep_term) = Some L → is_Some (r.(progress) !! peer) →
  progress_ok s r.(rep_term) (zlen L) peer p → rep_ok s (set_progress peer p r).
Proof.
  intros [? ? Hp (L' & HL' & ? & ? & Hall)] HL Hpeer Hpp.
  rewrite HL in HL'. injection HL' as <-. split; simpl; [done|done|..].
  - intros q. rewrite lookup_insert_is_Some', <-Hp. split; [|by right]. by intros [<-|?].
  - exists L. split_and!; [done|lia|lia|done|].
    intros q x [[<- <-]|[_ Hx]]%lookup_insert_Some; [done|by apply Hall].
Qed.

Lemma suffix_from_log l i :
  1 ≤ i ≤ zlen l + 1 → suffix_from (mkRaftLogView (C := C) 0 0 l) i = inr (drop (Z.to_nat (i - 1)) l).
Proof.
  intros Hi. unfold suffix_from, first_retained_index, last_index. simpl.
  destruct (Z.ltb_spec i (0 + 1)); [lia|]. destruct (Z.ltb_spec (0 + zlen l + 1) i); [lia|].
  by replace (i - (0 + 1)) with (i - 1) by lia.
Qed.

(** A current leader sends a part of its log. *)
Lemma safely_rep_send st s peer prev :
  RRep st s → current st → allows ValueError →
  refinesR s (on_cluster (send_append_entries st.(self).(leader) peer (Some prev)
    (drop (Z.to_nat prev) (dur st.(cluster) st.(self).(leader)).(log))
    (Some st.(self).(rep_commit_index)))) (λ st' _ _, later st.(cluster) st'.(cluster) ∧ st'.(self) = st.(self)) st.
Proof.
  intros HR Hc Hok. destruct (current_knows _ _ HR Hc) as (_ & Hcom & _).
  eapply refines_weaken; [apply (refines_on_cluster _ _ (λ _ _ _, True)); [done|auto with distlab|]
    |by intros ? ? ? _ _ [[_ ?] ?]].
  eapply safely_any, safely_send_append_entries; [exact (proj1 HR)| | |done|left; apply Hc|].
  - apply Forall_drop, (rd_entries _ _ _ _ (R_dur _ _ _ _ _ _ _ (proj1 HR) _)).
  - left. apply (cur_alive _ Hc).
  - intros _ _. split; [done|]. intros i [= <-]. rewrite (cur_term _ Hc). done.
Qed.

Section loops.
Context (rf : nat) (Hrep : allows ReplicationError) (Hmiss : allows ReplicationResponseMissing).
Context (Hval : allows ValueError) (Hfuel : allows OutOfFuel).

Lemma safely_rep_run st s :
  RRep st s → refinesR s (on_cluster (raft_run rf None))
    (λ st' _ _, later st.(cluster) st'.(cluster) ∧ st'.(self) = st.(self)) st.
Proof.
  intros HR.
  eapply refines_weaken; [apply (refines_on_cluster _ _ (λ _ _ _, True)); [done|auto with distlab|]
    |by intros ? ? ? _ _ [[_ ?] ?]].
  eapply safely_any, raft_safely_run; [done|done|done|done|exact (proj1 HR)].
Qed.

(** Storing what is known of a peer *)
Lemma RRep_progress st s L peer p :
  RRep st s → s.(llogs) !! st.(self).(rep_term) = Some L → is_Some (st.(self).(progress) !! peer) →
  progress_ok s st.(self).(rep_term) (zlen L) peer p →
  RRep (mkRepWorld st.(cluster) (set_progress peer p st.(self))) s.
Proof. intros (? & ? & ?) HL Hp Hok. split_and!; [done| |done]. by eapply rep_ok_progress. Qed.

Lemma refines_advance_peer st s peer p m src :
  RRep st s → st.(self).(progress) !! peer = Some p → 0 ≤ m →
  (st.(self).(rep_term), peer, Z.to_nat m) ∈ s.(acks) →
  (∃ L, s.(llogs) !! st.(self).(rep_term) = Some L ∧ m ≤ zlen L) →
  refinesR s (advance_peer peer p m src) (λ st' _ _, ∃ p', st'.(self).(progress) !! peer = Some p' ∧ m ≤ p'.(match_index)) st.
Proof.
  intros HR Hp Hm Hack (L & HL & HmL). unfold advance_peer. apply refines_gets. cbv zeta.
  set (p' := mkProgress _ _). apply wp_bind, wp_modify.
  set (st1 := mkRepWorld _ _).
  assert (RRep st1 s) as HR1.
  { apply (RRep_progress _ _ L); [done|done|by eexists|].
    destruct (ro_log _ _ (proj1 (proj2 HR))) as (L' & HL' & _ & _ & Hall). rewrite HL in HL'. injection HL' as <-.
    destruct (Hall _ _ Hp) as (Hn & Hb & Ha). unfold progress_ok. simpl. split_and!; [lia..|].
    intros _. destruct (Z.max_spec p.(match_index) m) as [[? ->]|[? ->]]; [done|].
    destruct (decide (0 < p.(match_index))); [by apply Ha|]. by replace (match_index p) with m by lia. }
  eapply refines_weaken; [by apply refines_record|]. intros s2 st2 _ _ _ (_ & _ & _ & Hself).
  rewrite Hself. exists p'. simpl. rewrite lookup_insert_eq. split; [done|lia].
Qed.

(** The peer follows the replicator's term, and is known to have what the
    leader's log was at the start. *)
Definition confirmed st s peer st' : Prop :=
  term_at_node st.(cluster) peer ≤ st.(self).(rep_term)
  ∧ ∃ x, st'.(self).(progress) !! peer = Some x
      ∧ ∀ L, s.(llogs) !! st.(self).(rep_term) = Some L → zlen L ≤ x.(match_index).

Lemma confirmed_grown st s peer st1 st' : confirmed st s peer st1 → grown st1 st' → confirmed st s peer st'.
Proof.
  intros (Ht & x & Hx & Hall) Hg. split; [done|]. destruct (gr_match _ _ Hg _ _ Hx) as (x' & Hx' & Hle).
  exists x'. split; [done|]. intros L HL. specialize (Hall L HL). lia.
Qed.

Lemma confirmed_before st s st1 s1 peer st' :
  spec_inv quorum true s → steps s s1 → grown st st1 → confirmed st1 s1 peer st' → confirmed st s peer st'.
Proof.
  intros Hi Hs Hg (Ht & x & Hx & Hall). rewrite (gr_term _ _ Hg) in *. split.
  - pose proof (later_term _ _ peer (gr_later _ _ Hg)). lia.
  - exists x. split; [done|]. intros L HL. destruct (steps_llog quorum true _ _ _ _ eq_refl Hi Hs HL) as [k HL'].
    specialize (Hall _ HL'). unfold zlen in *. rewrite length_app in Hall. lia.
Qed.

Lemma refines_attempt peer k st s :
  RRep st s → is_Some (st.(self).(progress) !! peer) →
  refinesR s (replicate_attempt rf peer k) (λ st' _ res, res = Some true → confirmed st s peer st') st.
Proof.
  intros HR [p Hp]. unfold replicate_attempt. apply refines_current; [done..|intros Hc].
  apply refines_gets. cbv zeta. rewrite Hp. simpl. apply refines_read_view with (s := s); [done|].
  destruct (current_log _ _ HR Hc) as (Hview & _ & HL). destruct (current_knows _ _ HR Hc) as (_ & _ & Hall).
  destruct (Hall _ _ Hp) as (Hn & Hm & _). rewrite Hview. simpl.
  destruct (Z.leb_spec (next_index p) 0); [lia|]. rewrite suffix_from_log by lia.
  apply refines_read_lift, refines_read.
  set (floor := append_response_ordinal_floor _ _ _). clearbody floor.
  apply refines_note; [done..|]. intros st1 HR1 Hl1 Hself1 Hsame1.
  pose proof (current_same _ _ Hc Hself1 Hsame1) as Hc1. rewrite <-Hself1, <-(sn_dur _ _ Hsame1).
  rewrite <-(sn_dur _ _ Hsame1) in HL, Hn.
  eapply refines_bind; [by apply safely_rep_send|]. intros s2 st2 [] Hs2 HR2 [Hl2 Hself2].
  eapply refines_bind; [by apply safely_rep_run|]. intros s3 st3 z Hs3 HR3 [Hl3 Hself3].
  apply refines_read. assert (self st3 = self st) as E by congruence. rewrite Hself1, <-E.
  assert (later (cluster st) (cluster st3)) as Hl by (eapply later_trans, later_trans; done).
  rewrite <-E in Hp. destruct (matching_response _ _ _ _ _ _ _) as [[[] m]|] eqn:Em; [|clear Em|].
  - destruct (matching_response_acked _ _ _ _ _ _ _ _ _ HR3 Em) as (H0 & Hack & HmL).
    destruct (matching_response_heard _ _ _ _ _ _ _ _ _ Hl Em) as [-> Hterm]. rewrite E in Hterm.
    eapply refines_bind; [by apply refines_advance_peer|]. intros s4 st4 _ _ HR4 (p' & Hp' & Hle).
    eapply refines_bind; [apply refines_grown; [apply grows_advance|by apply refines_rep_advance]|].
    intros s5 st5 _ _ HR5 [Hg5 _]. apply refines_ret; [done|]. intros _.
    eapply confirmed_grown; [|exact Hg5]. split; [done|]. exists p'. split; [done|].
    intros L' HL'. rewrite HL in HL'. injection HL' as <-. rewrite E in Hle.
    unfold zlen in *. rewrite length_drop in Hle. lia.
  - apply wp_bind, wp_modify. set (st4 := mkRepWorld _ _).
    assert (RRep st4 s3) as HR4.
    { destruct (ro_log _ _ (proj1 (proj2 HR3))) as (L' & HL' & _ & _ & Hall3).
      destruct (Hall3 _ _ Hp) as (? & ? & ?).
      apply (RRep_progress _ _ L'); [done|done|by eexists|]. split_and!; simpl; [lia..|done]. }
    eapply refines_bind; [by apply refines_record|]. intros s5 st5 _ _ HR5 (_ & _ & Hl5 & Hself5).
    by apply refines_ret.
  - apply wp_raise. split; [by exists s3|by apply Hmiss].
Qed.
End loops.

(** Peers stay peers. *)
Lemma rep_ok_peer s r s' r' peer :
  rep_ok s r → rep_ok s' r' → is_Some (r.(progress) !! peer) → is_Some (r'.(progress) !! peer).
Proof.
  intros Hr Hr' Hp%(ro_peers _ _ Hr). apply (ro_peers _ _ Hr').
  by rewrite (ro_leader _ _ Hr'), <-(ro_leader _ _ Hr).
Qed.

Section attempts.
Context (rf : nat) (Hrep : allows ReplicationError) (Hmiss : allows ReplicationResponseMissing).
Context (Hval : allows ValueError) (Hfuel : allows OutOfFuel).

Lemma refines_replicate_loop fuel peer k a st s :
  RRep st s → is_Some (st.(self).(progress) !! peer) →
  refinesR s (replicate_loop rf fuel peer k a) (λ st' _ b, b = true → confirmed st s peer st') st.
Proof.
  revert a st s. induction fuel as [|fuel IH]; intros a st s HR Hp; simpl.
  { apply wp_raise. split; [by exists s|by apply Hfuel]. }
  destruct (match k with Some _ => _ | None => _ end).
  { by apply refines_ret. }
  eapply refines_bind; [apply refines_grown; [apply grows_attempt|by apply refines_attempt]|].
  intros s1 st1 [b|] Hs1 HR1 [Hg Hb].
  { apply refines_ret; [done|]. intros ->. by apply Hb. }
  eapply refines_weaken; [apply IH; [done|]|].
  { eapply rep_ok_peer; [apply HR|apply HR1|done]. }
  intros s2 st2 b _ _ Hb2 Hbt.
  eapply (confirmed_before _ _ st1 s1); [exact (Ra_inv _ _ (proj1 HR))|done|done|by apply Hb2].
Qed.

Lemma refines_replicate fuel peer k st s :
  RRep st s → refinesR s (replicate rf fuel peer k)
    (λ st' _ b, b = true → confirmed st s peer st') st.
Proof.
  intros HR. apply refines_require_peer; [done..|intros Hp].
  apply refines_check; [done|by intros _; apply Hval|intros _]. by apply refines_replicate_loop.
Qed.

(** What [recover_peer] promises when it returns [True]: the peer acknowledged
    the leader's whole log, and takes for committed what the replicator does. *)
Definition recovered peer st : Prop :=
  current st ∧ (∃ p, st.(self).(progress) !! peer = Some p
    ∧ zlen (dur st.(cluster) st.(self).(leader)).(log) ≤ p.(match_index))
  ∧ Z.min st.(self).(rep_commit_index) (zlen (dur st.(cluster) st.(self).(leader)).(log))
    ≤ (vol st.(cluster) peer).(commit_index).

Lemma refines_recover_loop fuel peer k a st s :
  RRep st s → is_Some (st.(self).(progress) !! peer) →
  refinesR s (recover_loop rf fuel peer k a) (λ st' _ b, b = true → recovered peer st') st.
Proof.
  revert a st s. induction fuel as [|fuel IH]; intros a st s HR Hp; simpl.
  { apply wp_raise. split; [by exists s|by apply Hfuel]. }
  apply refines_current; [done..|intros Hc].
  assert (peer ∈ ids) as Hin by by apply (ro_peers _ _ (proj1 (proj2 HR)) peer).
  eapply refines_returns.
  { apply on_cluster_returns. unfold node, bind, gets. rewrite (raft_member_ids _ _ _ _ _ _ _ _ (proj1 HR)).
    by rewrite bool_decide_eq_true_2. }
  apply refines_gets. cbv zeta. eapply refines_returns.
  { apply on_cluster_returns. eapply last_index_returns. exact (proj1 HR). }
  apply refines_read. destruct (current_log _ _ HR Hc) as (Hview & _). rewrite Hview.
  unfold last_index. cbn [base_index entries]. rewrite Z.add_0_l. destruct (_ && _) eqn:Hdone.
  { apply refines_note; [done..|]. intros st1 HR1 _ Hs1 Hsame. apply refines_ret; [done|]. intros _.
    apply andb_true_iff in Hdone as [H1%Z.leb_le H2%Z.leb_le]. destruct Hp as [p Hp]. rewrite Hp in H1.
    split; [by eapply current_same|]. rewrite Hs1, (sn_dur _ _ Hsame), (sn_vol _ _ Hsame). split; [by exists p|done]. }
  destruct (match k with Some _ => _ | None => _ end); [by apply refines_ret|].
  eapply refines_bind; [by apply refines_replicate|]. intros s1 st1 b _ HR1 _.
  apply IH; [done|]. eapply rep_ok_peer; [apply HR|apply HR1|done].
Qed.

Lemma refines_recover_peer fuel peer k st s :
  RRep st s → refinesR s (recover_peer rf fuel peer k) (λ st' _ b, b = true → recovered peer st') st.
Proof.
  intros HR. apply refines_require_peer; [done..|intros Hp].
  apply refines_check; [done|by intros _; apply Hval|intros _]. by apply refines_recover_loop.
Qed.

Lemma safely_begin_probe peer st s : RRep st s → safelyR s (begin_activity_probe peer) st.
Proof.
  intros HR. apply refines_require_peer; [done..|intros Hp]. apply refines_current; [done..|intros Hc].
  apply refines_gets, refines_read_view with (s := s); [done|]. cbv zeta. apply refines_read.
  set (floor := append_response_ordinal_floor _ _ _). clearbody floor.
  apply refines_note; [done..|]. intros st1 HR1 _ Hself1 Hsame.
  pose proof (current_same _ _ Hc Hself1 Hsame) as Hc1. pose proof (sn_dur _ _ Hsame) as Hd1. rewrite <-Hself1.
  destruct (current_log _ _ HR1 Hc1) as (Hview & _). rewrite Hd1 in Hview.
  rewrite Hview. unfold last_index. simpl.
  eapply refines_bind; [|intros s2 st2 [] _ HR2 _; by apply refines_ret].
  pose proof (safely_rep_send _ _ peer (zlen (log (dur (cluster st1) (leader (self st1))))) HR1 Hc1 Hval) as Hsend.
  rewrite drop_ge in Hsend by (unfold zlen; lia). rewrite Hd1 in Hsend. exact Hsend.
Qed.

Lemma safely_finish_probe probe st s : RRep st s → safelyR s (finish_activity_probe probe) st.
Proof.
  intros HR. apply refines_require_peer; [done..|intros Hp]. apply refines_current; [done..|intros Hc].
  apply refines_gets. apply refines_check; [done|by intros _; apply Hrep|intros _]. apply refines_read.
  destruct (matching_response _ _ _ _ _ _ _) as [[b m]|];
    (apply refines_note; [done..|]; intros st1 HR1 _ _ _; by apply refines_ret).
Qed.

Lemma safely_probe_activity peer st s : RRep st s → safelyR s (probe_activity rf peer) st.
Proof.
  intros HR. eapply safely_bind; [by apply safely_begin_probe|]. intros s1 st1 probe _ HR1.
  eapply refines_bind; [by apply safely_rep_run|]. intros s2 st2 z _ HR2 _. by apply safely_finish_probe.
Qed.
End attempts.

(** ** New replicators and entries *)

Lemma refines_new_replicator w s :
  Ra w s → ld ∈ ids → allows ReplicationError →
  refinesA s (new_LeaderReplicator ld) (λ w' s' r, rep_ok s' r ∧ rep_tracks w' r) w.
Proof.
  intros HR Hin Hok. unfold new_LeaderReplicator. do 3 apply refines_gets.
  set (ps := peers w ld).
  assert (∃ last, (if bool_decide (ps = []) then ret 0 else last_log_index ld) w = (w, inr last)
    ∧ (ps ≠ [] → last = last_index (view_of (dur w ld)))) as (last & Hlast & Hl).
  { case_bool_decide as Hps; [by exists 0|]. eexists. split; [by eapply last_index_returns|done]. }
  eapply refines_returns; [exact Hlast|]. cbv zeta. set (r := mkReplicator _ _ _ _).
  apply (refines_pure _ _ _ _ _ _ (λ _, current (mkRepWorld w r))); [|done|].
  { eapply wp_mono; [apply wp_check_current| |].
    - intros w' a (-> & ? & ? & ?). done.
    - intros w' e [-> ?]. split; [done|by apply Hok]. }
  intros _ [_ Hlead Hterm]. simpl in Hlead, Hterm. apply refines_ret; [done|].
  split; [|right; split; [done|right; by split]].
  destruct (disc_good _ _ _ _ _ ld _ _ HR eq_refl) as (Hv & Hlog & _).
  pose proof (R_role _ _ _ _ _ _ _ HR ld ltac:(done)) as Hrole. unfold role_ok in Hrole. rewrite Hlead in Hrole.
  destruct Hrole as (_ & _ & _ & HL).
  destruct (R_commit _ _ _ _ _ _ _ HR ld eq_refl) as [Hci Hcom]. rewrite Hlog in Hci, Hcom.
  split; simpl; [done..| |].
  - intros p. rewrite <-elem_of_dom, dom_list_to_map_L, elem_of_list_to_set, <-list_fmap_compose.
    rewrite list_elem_of_fmap. simpl. unfold ps, peers. rewrite (R_ids _ _ _ _ _ _ _ HR). split.
    + intros (q & -> & [? ?]%list_elem_of_filter). done.
    + intros [Hp Hne]. exists p. split; [done|]. by apply list_elem_of_filter.
  - exists (nlog s ld). split_and!; [by apply HL|apply Hci|apply Hci|done|].
    intros peer p Hp%elem_of_list_to_map_2. apply list_elem_of_fmap in Hp as (q & [= -> ->] & Hq).
    assert (last = zlen (nlog s ld)) as ->.
    { rewrite Hl by (intros E; rewrite E in Hq; by apply elem_of_nil in Hq).
      rewrite Hv. done. }
    pose proof (zlen_nonneg (nlog s ld)). split_and!; simpl; lia.
Qed.

Lemma append_steps w s n c :
  Ra w s → (vol w n).(role) = LEADER → may c →
  let t := (dur w n).(current_term) in
  let s' := append_state s n t (mkLogEntry t c) in
  steps s s' ∧ (∀ n', n' ≠ n → apart n' s s')
  ∧ dur_ok true s' n (set_log ((dur w n).(log) ++ [mkLogEntry t c]) (dur w n))
  ∧ role_ok true ids w.(objs) s' n t (vol w n)
  ∧ commit_ok true ids s' (set_log ((dur w n).(log) ++ [mkLogEntry t c]) (dur w n)) (vol w n).
Proof.
  intros HR Hr Hc t s'. destruct (disc_good _ _ _ _ _ n _ _ HR eq_refl) as (_ & Hlog & _).
  pose proof (R_role _ _ _ _ _ _ _ HR n ltac:(done)) as Hrole. unfold role_ok in Hrole. rewrite Hr in Hrole.
  destruct Hrole as (Hlt & Hel & Hg & HL). specialize (HL eq_refl). fold t in Hlt, Hel, Hg, HL.
  pose proof (R_dur _ _ _ _ _ _ _ HR n) as Hd.
  assert (steps s s') as Hs by (apply rtc_once, sp_append; [done..|apply Hd|done|done]).
  assert (nlog s' n = nlog s n ++ [mkLogEntry t c]) as Hn
    by (unfold nlog at 1; simpl; by rewrite lookup_insert_eq).
  split_and!; [done| | | |].
  - intros n' Hne. by apply apart_append.
  - destruct Hd. split; try done; simpl.
    + apply Forall_app. split; [done|]. by repeat constructor.
    + intros _. split; [by rewrite Hn, Hlog|by apply rd_log].
  - unfold role_ok. rewrite Hr. split_and!; [done..|]. intros _. rewrite Hn. simpl. by rewrite lookup_insert_eq.
  - intros _. simpl. destruct (R_commit _ _ _ _ _ _ _ HR n eq_refl) as [Hci Hcom].
    rewrite take_app_z by lia. split; [unfold zlen in *; rewrite length_app; lia|].
    eapply (steps_committed quorum true); [done|exact (Ra_inv _ _ HR)|exact Hs|exact Hcom].
Qed.

Lemma safely_barrier w s n c :
  Ra w s → allows CommitRecoveryError → may c → safelyA s (append_current_term_barrier n c) w.
Proof.
  intros HR Hok Hmay. unfold append_current_term_barrier. apply refines_gets.
  apply refines_check; [done|by intros _; apply Hok|intros _]. apply refines_gets.
  apply refines_check; [done|by intros _; apply Hok|intros Hl%negb_false_iff%bool_decide_eq_true].
  apply refines_gets. cbv zeta. pose proof (rd_term _ _ _ _ (R_dur _ _ _ _ _ _ _ HR n)) as Ht.
  unfold new_LogEntry. rewrite (proj2 (Z.ltb_ge _ _) Ht). apply wp_bind, wp_lift.
  destruct (append_steps w s n c HR Hl Hmay) as (Hs & Hap & Hd & Hrole & Hcom).
  set (t := current_term (dur w n)) in *. set (s1 := append_state _ _ _ _) in *. set (e := mkLogEntry t c) in *.
  apply (refines_steps _ _ _ _ s1); [done|]. apply wp_bind, wp_persist. intros w1 He1.
  assert (Ra w1 s1) as HR1.
  { eapply R_Ra. eapply raft_R_dur_ext; [exact He1|exact HR|done..|by right|done]. }
  assert ((dur w1 n).(log) = (dur w n).(log) ++ [e]) as Hlog.
  { assert (dur w1 n = set_log ((dur w n).(log) ++ [e]) (dur w n)) as -> by apply (de_at _ _ _ _ He1). done. }
  clearbody s1. apply wp_bind. eapply wp_plain; [exact HR1|done|]. intros w2 He2 _ HR2.
  assert (dur w2 n = dur w1 n) as Hd2 by exact (sim_ext_durable _ _ _ n He2).
  apply refines_gets. rewrite Hd2, Hlog.
  apply refines_guard; [by rewrite take_app_length, bool_decide_eq_true_2|].
  apply refines_guard; [|apply refines_ret; [by eapply R_Ra|done]].
  rewrite bool_decide_eq_true_2; [done|]. unfold znth, zlen. rewrite length_app. simpl.
  replace (Z.to_nat _) with (length (dur w n).(log)) by lia. by rewrite lookup_app_r, Nat.sub_diag by lia.
Qed.
End with_ids.
End refinement.
