(* ===== verification/LeaderLiveness.v ===== *)
(** * LeaderLiveness: CheckQuorum rounds and heartbeats

    Models [src/distlab/leader_liveness.py] and [src/distlab/heartbeat.py] on a
    cluster with a fixed membership: the branches for a
    [ReconfigurableRaftCluster] are left out, the quorum mode is always
    ["stable"] and there is no second majority.  A monitor is a method of the
    replicator it was made for, with the term it remembers; a controller is a
    record beside them.  [rf] bounds the runs of the simulator.

    Below the definitions: what a round that returns has seen, that a leader
    without a quorum is retired, and the times of a controller's rounds. *)

From S2P Require Import Prelude Simulator SimFacts Quorum LogIndex RaftSpec Refinement Raft RaftRefine RaftSafe RaftMono Replication ReplicationMono ReplicationRefine.

Record LeaderQuorumEvidence := mkQuorumEvidence {
  qe_leader : string;
  qe_term : Z;
  qe_acknowledged_peers : list string;
  qe_acknowledged_voters : list string;
  qe_quorum_mode : string;
  qe_old_majority : Z;
}.

(** [_term] of a [LeaderQuorumMonitor] *)
Record LeaderQuorumMonitor := mkMonitor { lm_term : Z }.

Record HeartbeatRound := mkHeartbeatRound {
  hr_round_number : Z;
  hr_scheduled_time : Z;
  hr_completed_time : Z;
  hr_evidence : LeaderQuorumEvidence;
}.

Record LeaderHeartbeatController := mkController {
  hb_monitor : LeaderQuorumMonitor;
  heartbeat_interval : Z;
  response_timeout : Z;
  hb_next_heartbeat_time : Z;
  hb_round_number : Z;
}.

(** The methods that run a round *)
Inductive CheckCall := Sequential (max_attempts_per_peer : Z) | Window (response_timeout : Z).

(** [except LeaderLivenessError] *)
Definition is_liveness_error (e : exn) : bool :=
  match e.(exn_cls) with LeaderAuthorityLost | LeaderQuorumUnavailable => true | _ => false end.

Section liveness.
Context {C : Type} `{EqDecision C}.
Implicit Types (m : LeaderQuorumMonitor) (st : RepWorld (C := C)) (peer : string).

Abbreviation RM := (M (RepWorld (C := C))).

Definition read {A} (f : World (RaftSig (C := C)) → A) : RM A := on_cluster (gets f).
Definition my_id : RM string := gets (λ st, st.(self).(leader)).

Definition new_LeaderQuorumMonitor : RM LeaderQuorumMonitor := gets (λ st, mkMonitor st.(self).(rep_term)).

(** [_require_current_leader] *)
Definition require_watched_leader m : RM unit :=
  let! n := my_id in
  let! up := read (λ w, is_alive w n) in
  raise_if (negb up) LeaderAuthorityLost "CheckQuorum requires a live leader" ;;
  let! leads := read (λ w, is_role w n LEADER) in
  raise_if (negb leads) LeaderAuthorityLost "CheckQuorum requires leader role" ;;
  let! d := read (λ w, dur w n) in
  raise_if (negb (d.(current_term) =? m.(lm_term))) LeaderAuthorityLost "CheckQuorum monitor term is stale" ;;
  let! t := gets (λ st, st.(self).(rep_term)) in
  raise_if (negb (t =? m.(lm_term))) LeaderAuthorityLost "CheckQuorum replicator term is stale".

Definition record_authority_lost m (reason : string) : RM unit :=
  let! n := my_id in
  let! d := read (λ w, dur w n) in
  let! v := read (λ w, vol w n) in
  rep_record (RCheckQuorumAuthorityLost n m.(lm_term) d.(current_term) v.(role) reason).

(** [_raise_authority_loss] *)
Definition raise_authority_loss {A} m (e : exn) : RM A :=
  record_authority_lost m e.(exn_msg) ;; raise LeaderAuthorityLost e.(exn_msg).

Definition or_authority_loss {A} m (c : RM A) : RM A :=
  try_except c (λ e, if is_replication_error e then raise_authority_loss m e else rethrow e).

Definition active_voters (w : World (RaftSig (C := C))) : gset string := list_to_set w.(objs).(node_ids).
(** [sorted(active_voters - {self.leader.node_id})] *)
Definition voter_peers n (w : World (RaftSig (C := C))) : list string :=
  sorted_str (elements (active_voters w ∖ {[n]})).

(** [if self.leader.node_id not in active_voters] *)
Definition require_voter : RM unit :=
  let! n := my_id in
  let! known := read (λ w, bool_decide (n ∈ active_voters w)) in
  when (negb known)
    (on_cluster (step_down n "check-quorum-leader-not-voter") ;;
     raise LeaderAuthorityLost "current leader is not an active voter").

Definition majority_of : RM Z := read (λ w, quorum_size w.(objs).(node_ids)).

(** The end of both kinds of round: retire the leader or report the quorum. *)
Definition conclude_round m (acknowledged : gset string) (acked : list string) (deadline : option Z)
    : RM LeaderQuorumEvidence :=
  let! n := my_id in
  let! voters := read (λ w, sorted_str (elements (acknowledged ∩ active_voters w))) in
  let! majority := majority_of in
  if Z.of_nat (size acknowledged) <? majority then
    rep_record (RCheckQuorumFailed n m.(lm_term) acked voters majority deadline) ;;
    on_cluster (step_down n "check-quorum-failed") ;;
    raise LeaderQuorumUnavailable "leader could not confirm the active voting quorum"
  else
    rep_record (RCheckQuorum n m.(lm_term) acked voters majority deadline) ;;
    ret (mkQuorumEvidence n m.(lm_term) acked voters "stable" majority).

Section fuel.
Context (rf : nat).

(** [for _ in range(max_attempts_per_peer)] *)
Fixpoint check_attempts m peer (attempts : nat) : RM bool :=
  match attempts with
  | O => ret false
  | S attempts' =>
      require_watched_leader m ;;
      let! active := or_authority_loss m (probe_activity rf peer) in
      if active then ret true else check_attempts m peer attempts'
  end.

(** The loop over the peers left: who acknowledged, and in which order. *)
Fixpoint check_peers m (attempts : nat) (ps : list string) (acknowledged : gset string) (acked : list string)
    : RM (gset string * list string) :=
  match ps with
  | [] => ret (acknowledged, acked)
  | peer :: ps' =>
      let! majority := majority_of in
      if majority <=? Z.of_nat (size acknowledged) then ret (acknowledged, acked)
      else
        let! active := check_attempts m peer attempts in
        if active then check_peers m attempts ps' ({[peer]} ∪ acknowledged) (acked ++ [peer])
        else check_peers m attempts ps' acknowledged acked
  end.

Definition check_gather m (max_attempts : Z) : RM (gset string * list string) :=
  raise_if (max_attempts <=? 0) ValueError "max_attempts_per_peer must be positive" ;;
  require_watched_leader m ;;
  require_voter ;;
  let! n := my_id in
  let! ps := read (voter_peers n) in
  let! acks := check_peers m (Z.to_nat max_attempts) ps {[n]} [] in
  require_watched_leader m ;;
  ret acks.

Definition check m (max_attempts : Z) : RM LeaderQuorumEvidence :=
  let! acks := check_gather m max_attempts in
  conclude_round m acks.1 acks.2 None.

(** [probes[peer] = self.replicator.begin_activity_probe(peer)], in order *)
Fixpoint begin_probes m (ps : list string) : RM (list (string * PeerActivityProbe)) :=
  match ps with
  | [] => ret []
  | peer :: ps' =>
      let! probe := or_authority_loss m (begin_activity_probe peer) in
      let! probes := begin_probes m ps' in
      ret ((peer, probe) :: probes)
  end.

Fixpoint finish_probes m (probes : list (string * PeerActivityProbe)) (acknowledged : gset string)
    (acked : list string) : RM (gset string * list string) :=
  match probes with
  | [] => ret (acknowledged, acked)
  | (peer, probe) :: probes' =>
      let! active := or_authority_loss m (finish_activity_probe probe) in
      if active then finish_probes m probes' ({[peer]} ∪ acknowledged) (acked ++ [peer])
      else finish_probes m probes' acknowledged acked
  end.

Definition window_gather m (timeout : Z) : RM (gset string * list string * Z) :=
  raise_if (timeout <=? 0) ValueError "response_timeout must be positive" ;;
  require_watched_leader m ;;
  require_voter ;;
  let! n := my_id in
  let! ps := read (voter_peers n) in
  let! probes := begin_probes m ps in
  let! deadline := read (λ w, w.(sim).(time) + timeout) in
  let! voters := read (λ w, Z.of_nat (size (active_voters w))) in
  rep_record (RCheckQuorumWindow n m.(lm_term) deadline voters) ;;
  on_cluster (raft_run_until rf deadline) ;;
  try_except (require_watched_leader m) (λ e,
    when (bool_decide (e.(exn_cls) = LeaderAuthorityLost)) (record_authority_lost m e.(exn_msg)) ;; rethrow e) ;;
  let! acks := finish_probes m probes {[n]} [] in
  ret (acks, deadline).

Definition check_window m (timeout : Z) : RM LeaderQuorumEvidence :=
  let! r := window_gather m timeout in
  conclude_round m r.1.1 r.1.2 (Some r.2).

Definition quorum_round m (c : CheckCall) : RM LeaderQuorumEvidence :=
  match c with Sequential k => check m k | Window t => check_window m t end.

(** ** Heartbeats *)

Definition new_LeaderHeartbeatController m (interval timeout : Z) : RM LeaderHeartbeatController :=
  raise_if (interval <=? 0) ValueError "heartbeat_interval must be positive" ;;
  raise_if (timeout <=? 0) ValueError "response_timeout must be positive" ;;
  raise_if (interval <? timeout) ValueError "response_timeout cannot exceed heartbeat_interval" ;;
  let! now := read (λ w, w.(sim).(time)) in
  ret (mkController m interval timeout (now + interval) 0).

(** The replicator's world and [self] *)
Record HeartbeatWorld := mkHeartbeatWorld { hb_rep : RepWorld (C := C); hb_self : LeaderHeartbeatController }.

Definition on_rep {A} (c : RM A) : M HeartbeatWorld A := λ x,
  let r := c x.(hb_rep) in (mkHeartbeatWorld r.1 x.(hb_self), r.2).
Definition upd_controller (f : LeaderHeartbeatController → LeaderHeartbeatController) : M HeartbeatWorld unit :=
  modify (λ x, mkHeartbeatWorld x.(hb_rep) (f x.(hb_self))).

Definition set_next_heartbeat t (c : LeaderHeartbeatController) :=
  mkController c.(hb_monitor) c.(heartbeat_interval) c.(response_timeout) t c.(hb_round_number).
Definition set_round k (c : LeaderHeartbeatController) :=
  mkController c.(hb_monitor) c.(heartbeat_interval) c.(response_timeout) c.(hb_next_heartbeat_time) k.

(** The body of the loop of [run] *)
Definition heartbeat_round : M HeartbeatWorld HeartbeatRound :=
  let! c := gets hb_self in
  let! n := on_rep my_id in
  let! now := on_rep (read (λ w, w.(sim).(time))) in
  let scheduled_time := Z.max c.(hb_next_heartbeat_time) now in
  let! d := on_rep (read (λ w, dur w n)) in
  when (negb (scheduled_time =? c.(hb_next_heartbeat_time)))
    (on_rep (rep_record (RHeartbeatDelayed n d.(current_term) c.(hb_next_heartbeat_time) scheduled_time))) ;;
  on_rep (on_cluster (raft_run_until rf scheduled_time)) ;;
  let round := c.(hb_round_number) + 1 in
  upd_controller (set_round round) ;;
  let! d := on_rep (read (λ w, dur w n)) in
  on_rep (rep_record (RHeartbeatStart n d.(current_term) round scheduled_time c.(response_timeout))) ;;
  let! evidence := try_except (on_rep (check_window c.(hb_monitor) c.(response_timeout))) (λ e,
    if is_liveness_error e then
      let! d := on_rep (read (λ w, dur w n)) in
      let! t := on_rep (read (λ w, w.(sim).(time))) in
      on_rep (rep_record (RHeartbeatFailed n d.(current_term) round scheduled_time t e.(exn_msg))) ;;
      rethrow e
    else rethrow e) in
  let! completed_time := on_rep (read (λ w, w.(sim).(time))) in
  on_rep (rep_record (RHeartbeatComplete n evidence.(qe_term) round scheduled_time completed_time
    evidence.(qe_acknowledged_voters))) ;;
  upd_controller (set_next_heartbeat (scheduled_time + c.(heartbeat_interval))) ;;
  ret (mkHeartbeatRound round scheduled_time completed_time evidence).

Fixpoint heartbeat_rounds (rounds : nat) : M HeartbeatWorld (list HeartbeatRound) :=
  match rounds with
  | O => ret []
  | S rounds' =>
      let! r := heartbeat_round in
      let! rs := heartbeat_rounds rounds' in
      ret (r :: rs)
  end.

(** [LeaderHeartbeatController.run] *)
Definition run_heartbeats (rounds : Z) : M HeartbeatWorld (list HeartbeatRound) :=
  raise_if (rounds <=? 0) ValueError "rounds must be positive" ;;
  heartbeat_rounds (Z.to_nat rounds).

(** A method of the controller [c], for who has only the replicator *)
Definition with_controller {A} (c : LeaderHeartbeatController) (k : M HeartbeatWorld A) : RM A := λ st,
  let r := k (mkHeartbeatWorld st c) in (r.1.(hb_rep), r.2).
End fuel.
End liveness.

(** ** Rounds move the cluster forward *)

Section moving.
Context {C : Type} `{EqDecision C}.
Implicit Types (m : LeaderQuorumMonitor).
Local Abbreviation RM := (M (RepWorld (C := C))).

Lemma quiet_try {A} (c : RM A) h : quiet c → (∀ e, quiet (h e)) → quiet (try_except c h).
Proof.
  intros Hc Hh st. unfold try_except. specialize (Hc st). destruct (c st) as [st1 [e|a]]; [|done].
  destruct Hc as [Hl E], (Hh e st1) as [Hl' E']. simpl in *. split; [by eapply later_trans|congruence].
Qed.

Lemma quiet_rethrow {A} e : quiet (rethrow (A := A) e : RM A).
Proof. intros st. split; [apply later_refl|done]. Qed.

Lemma quiet_when b (c : RM unit) : quiet c → quiet (when b c).
Proof. intros Hc. destruct b; [done|]. intros st. split; [apply later_refl|done]. Qed.

Lemma quiet_run_until rf t : quiet (on_cluster (raft_run_until (C := C) rf t)).
Proof. apply quiet_on_cluster, moves_run_until. Qed.
Lemma quiet_step_down n r : quiet (on_cluster (step_down (C := C) n r)).
Proof. apply quiet_on_cluster, moves_step_down. Qed.
Lemma quiet_read {A} (f : _ → A) : quiet (read (C := C) f).
Proof. unfold read. auto with distlab. Qed.
Lemma quiet_my_id : quiet (my_id (C := C)).
Proof. unfold my_id. auto with distlab. Qed.
#[local] Hint Resolve quiet_try quiet_rethrow quiet_when quiet_run_until quiet_step_down quiet_read quiet_my_id : distlab.

Lemma quiet_or_loss {A} m (c : RM A) : quiet c → quiet (or_authority_loss m c).
Proof.
  intros Hc. unfold or_authority_loss, raise_authority_loss, record_authority_lost.
  apply quiet_try; [done|]. intros e. auto 20 with distlab.
Qed.
Lemma quiet_watched m : quiet (require_watched_leader (C := C) m).
Proof. unfold require_watched_leader. auto 20 with distlab. Qed.
Lemma quiet_voter : quiet (require_voter (C := C)).
Proof. unfold require_voter. auto 20 with distlab. Qed.
Lemma quiet_conclude m k l d : quiet (conclude_round (C := C) m k l d).
Proof. unfold conclude_round, majority_of. auto 20 with distlab. Qed.
#[local] Hint Resolve quiet_or_loss quiet_watched quiet_voter quiet_conclude : distlab.

Lemma quiet_attempts rf m peer k : quiet (check_attempts (C := C) rf m peer k).
Proof. induction k; simpl; auto 20 with distlab. Qed.
#[local] Hint Resolve quiet_attempts : distlab.
Lemma quiet_peers rf m k ps acknowledged acked : quiet (check_peers (C := C) rf m k ps acknowledged acked).
Proof. revert acknowledged acked. induction ps; intros; simpl; unfold majority_of; auto 20 with distlab. Qed.
Lemma quiet_begin_probes m ps : quiet (begin_probes (C := C) m ps).
Proof. induction ps; simpl; auto 20 with distlab. Qed.
Lemma quiet_finish_probes m probes acknowledged acked : quiet (finish_probes (C := C) m probes acknowledged acked).
Proof. revert acknowledged acked. induction probes as [|[]]; intros; simpl; auto 20 with distlab. Qed.
#[local] Hint Resolve quiet_peers quiet_begin_probes quiet_finish_probes : distlab.

Lemma quiet_quorum_round rf m c : quiet (quorum_round (C := C) rf m c).
Proof.
  destruct c; simpl; unfold check, check_gather, check_window, window_gather, record_authority_lost; auto 40 with distlab.
Qed.
End moving.
#[export] Hint Resolve quiet_quorum_round : distlab.

(** ** What a round has seen *)

Lemma refines_and {W S A} (step : S → S → Prop) (R : W → S → Prop) ok s (c : M W A) (Q : W → S → A → Prop) (P : W → A → Prop) w :
  refines step R ok s c Q w → wp c P (λ _ _, True) w → refines step R ok s c (λ w' s' a, Q w' s' a ∧ P w' a) w.
Proof.
  unfold refines, wp. destruct (c w) as [w' [e|a]]; [done|]. intros (s' & ? & ? & ?) HP. by exists s'.
Qed.

Section refinement.
Context {C : Type} `{EqDecision C}.
Implicit Types (w : World (RaftSig (C := C))) (s : Spec C) (n peer : string) (m : LeaderQuorumMonitor).
Implicit Types (st : RepWorld (C := C)).

(** The [k]th event of the trace *)
Definition event_at w (k : nat) : option (Event RaftSig) := tr_event <$> trace_of w !! k.

(** [n] handled, at [start] or later, a response of [peer] in term [t] that
    comes after all that [peer] had sent it before [start], and [peer] handled a
    request of [n] in that term since then. *)
Definition heard (start : nat) w n peer (t : Z) : Prop :=
  ∃ i o (m : AppendEntriesResponse), (start ≤ S i)%nat ∧ m.(aer_term) = t
  ∧ event_at w i = Some (EvDeliver (Σ := RaftSig) peer n o (PAppendEntriesResponse m))
  ∧ event_at w (S i) = Some (EvProto (Σ := RaftSig) (RAppendResponse n peer t m.(aer_success) m.(aer_match_index)))
  ∧ (∀ k o' q action, (k < start)%nat →
       event_at w k = Some (EvSend (Σ := RaftSig) peer n o' (PAppendEntriesResponse q) action) → o' < o)
  ∧ ∃ j prev prev_term count commit mine,
       (start ≤ j)%nat ∧ event_at w j = Some (EvProto (Σ := RaftSig)
         (RAppendEntries peer n t prev prev_term count commit mine m.(aer_success) m.(aer_match_index))).

Lemma event_at_later w w' k e : later w w' → event_at w k = Some e → event_at w' k = Some e.
Proof.
  intros Hl (x & Hx & ->)%fmap_Some. destruct (la_records _ _ Hl) as (new & E & _). unfold event_at, trace_of in *.
  rewrite E. by erewrite lookup_app_l_Some by done.
Qed.

(** What was there is not rewritten. *)
Lemma event_at_before w w' k : later w w' → (k < length (trace_of w))%nat → event_at w' k = event_at w k.
Proof.
  intros Hl Hk. destruct (la_records _ _ Hl) as (new & E & _). unfold event_at, trace_of in *. by rewrite E, lookup_app_l.
Qed.

Lemma event_at_length w k e : event_at w k = Some e → (k < length (trace_of w))%nat.
Proof. intros (x & Hx & _)%fmap_Some. by eapply lookup_lt_Some. Qed.

Lemma heard_later start w w' n peer t : later w w' → heard start w n peer t → heard start w' n peer t.
Proof.
  intros Hl (i & o & m & Hi & Ht & Hd & Hr & Hs & j & p & pt & c & cm & mi & Hj & He).
  exists i, o, m. do 2 (split; [done|]). split; [by eapply event_at_later|]. split; [by eapply event_at_later|]. split.
  - intros k o' m' a Hk. rewrite (event_at_before w w') by (done || (apply event_at_length in Hr; lia)). by apply Hs.
  - exists j, p, pt, c, cm, mi. split; [done|by eapply event_at_later].
Qed.

(** [peer] answered [n] in term [t] since [start]: it sent a response, which
    was delivered and handled, and it handled a request of that term. *)
Definition answered (start : nat) w n peer (t : Z) : Prop :=
  ∃ k i o (m : AppendEntriesResponse) action, (start ≤ k < i)%nat ∧ m.(aer_term) = t
  ∧ event_at w k = Some (EvSend (Σ := RaftSig) peer n o (PAppendEntriesResponse m) action)
  ∧ event_at w i = Some (EvDeliver (Σ := RaftSig) peer n o (PAppendEntriesResponse m))
  ∧ event_at w (S i) = Some (EvProto (Σ := RaftSig) (RAppendResponse n peer t m.(aer_success) m.(aer_match_index)))
  ∧ ∃ j prev prev_term count commit mine,
       (start ≤ j)%nat ∧ event_at w j = Some (EvProto (Σ := RaftSig)
         (RAppendEntries peer n t prev prev_term count commit mine m.(aer_success) m.(aer_match_index))).

(** A response whose ordinal is new was sent since. *)
Lemma heard_answered start w n peer t : traced w → heard start w n peer t → answered start w n peer t.
Proof.
  intros [_ Hd] (i & o & m & Hi & Ht & Hdel & Hr & Hf & Hj).
  destruct (Hd i _ _ _ _ Hdel) as (x & a & Hx & Ex). apply list_elem_of_lookup in Hx as [k Hk].
  apply lookup_take_Some in Hk as [Hk Hlt].
  assert (event_at w k = Some (EvSend (Σ := RaftSig) peer n o (PAppendEntriesResponse m) a)) as Hs
    by (unfold event_at, trace_of; rewrite Hk; simpl; by rewrite Ex).
  exists k, i, o, m, a. split; [|done]. split; [|done].
  destruct (Nat.lt_ge_cases k start) as [Hlow|]; [|done]. specialize (Hf _ _ _ _ Hlow Hs). lia.
Qed.

Lemma heard_from start start' w n peer t : (start ≤ start')%nat → heard start' w n peer t → heard start w n peer t.
Proof.
  intros Hs (i & o & m & Hi & Ht & Hd & Hr & Hf & j & p & pt & c & cm & mi & Hj & He).
  exists i, o, m. split; [lia|]. do 3 (split; [done|]). split.
  - intros k o' m' a Hk. apply Hf. lia.
  - exists j, p, pt, c, cm, mi. split; [lia|done].
Qed.

Lemma trace_later w w' : later w w' → (length (trace_of w) ≤ length (trace_of w'))%nat.
Proof. intros Hl. destruct (la_records _ _ Hl) as (new & E & _). unfold trace_of. rewrite E, length_app. lia. Qed.

(** The floor is above all responses sent so far. *)
Lemma floor_above tr (r : LeaderReplicator) peer x o q action :
  x ∈ tr → tr_event x = EvSend (Σ := RaftSig) peer r.(leader) o (PAppendEntriesResponse q) action →
  o ≤ append_response_ordinal_floor (C := C) tr r peer.
Proof.
  intros Hx Ex. unfold append_response_ordinal_floor. match goal with |- _ ≤ foldl ?f 0 tr => set (g := f) end.
  assert (∀ l z, z ≤ foldl g z l) as Hge.
  { induction l as [|y l IH]; intros z; simpl; [lia|]. etrans; [|apply IH]. unfold g.
    destruct (tr_event y) as [s d k [] ?| | | | | | | | | | | | | | |]; try lia. destruct (_ && _); lia. }
  generalize 0. induction tr as [|y tr IH]; intros z; [by apply elem_of_nil in Hx|].
  apply elem_of_cons in Hx as [<-|Hx]; simpl; [|by apply IH].
  etrans; [|apply Hge]. unfold g at 1. rewrite Ex, !String.eqb_refl. simpl. lia.
Qed.

(** A probe begun at [start] or later *)
Definition fresh (start : nat) w (r : LeaderReplicator) (probe : PeerActivityProbe) : Prop :=
  (start ≤ probe.(probe_trace_start) ≤ length (trace_of w))%nat
  ∧ ∀ k o q action, (k < start)%nat →
      event_at w k = Some (EvSend (Σ := RaftSig) probe.(probe_peer) r.(leader) o (PAppendEntriesResponse q) action) →
      o ≤ probe.(probe_ordinal_floor).

Lemma fresh_later start w w' r probe : later w w' → fresh start w r probe → fresh start w' r probe.
Proof.
  intros Hl [Hs Hf]. pose proof Hl as (new & E & _)%la_records. split.
  - unfold trace_of in *. rewrite E, length_app. lia.
  - intros k o m a Hk. rewrite (event_at_before w w') by (done || lia). by apply Hf.
Qed.

Lemma matching_response_since w (r : LeaderReplicator) probe start em ec x :
  fresh start w r probe →
  matching_response (trace_of w) r probe.(probe_peer) probe.(probe_trace_start) em em ec probe.(probe_ordinal_floor) = Some x →
  heard start w r.(leader) probe.(probe_peer) r.(rep_term).
Proof.
  intros [[Hs _] Hf] (i & Hin & Hi)%head_Some_elem_of%list_elem_of_omap. unfold response_at in Hi.
  destruct (tr_event <$> trace_of w !! i) as [[]|] eqn:Ee; try done.
  destruct r0; try done. destruct (_ && _) eqn:Hc; [|done].
  rewrite !andb_true_iff in Hc. destruct Hc as (((((Hl & Hp) & Ht) & Hd) & _) & Ho).
  apply String.eqb_eq in Hl as ->. apply String.eqb_eq in Hp as ->. apply Z.eqb_eq in Ht as ->.
  unfold append_response_delivered_after in Hd. destruct i as [|i]; [done|].
  destruct (tr_event <$> trace_of w !! i) as [[]|] eqn:Ei; try done. destruct p; try done.
  rewrite !andb_true_iff in Hd. destruct Hd as ((((((Hds & Hdd) & Hfl) & Hdt) & _) & Hok) & Hmi).
  apply String.eqb_eq in Hds as ->. apply String.eqb_eq in Hdd as ->. apply negb_true_iff, Z.leb_gt in Hfl.
  apply Z.eqb_eq in Hdt, Hmi. apply eqb_prop in Hok. subst.
  apply list_elem_of_In, in_rev, in_seq in Hin. exists i, n, m. split; [lia|]. split; [done|]. do 2 (split; [done|]). split.
  - intros k o' q a Hk He. specialize (Hf _ _ _ _ Hk He). lia.
  - unfold append_probe_observed in Ho. apply existsb_exists in Ho as (y & Hy%list_elem_of_In & Hev).
    apply list_elem_of_lookup in Hy as [j Hj]. rewrite lookup_drop in Hj.
    destruct (tr_event y) as [] eqn:Ey; try done. destruct r0; try done. rewrite !andb_true_iff in Hev.
    destruct Hev as ((((((Hl & Hp) & Ht) & _) & _) & Hok) & Hm).
    apply String.eqb_eq in Hl as ->. apply String.eqb_eq in Hp as ->. apply Z.eqb_eq in Ht as ->.
    apply eqb_prop in Hok as ->. apply Z.eqb_eq in Hm as ->.
    eexists _, _, _, _, _, _. split; [|unfold event_at; rewrite Hj; simpl; by rewrite Ey]. lia.
Qed.

Lemma wp_any {X A} (c : M X A) x : wp c (λ _ _, True) (λ _ _, True) x.
Proof. unfold wp. by destruct (c x) as [? [?|?]]. Qed.

(** A record leaves the nodes and the replicator alone. *)
Lemma wp_rep_record rec st (E : _ → exn → Prop) :
  accepted_request (EvProto (Σ := RaftSig) rec) = None →
  wp (rep_record rec) (λ st' _, later st.(cluster) st'.(cluster) ∧ same_nodes st.(cluster) st'.(cluster)
    ∧ st'.(self) = st.(self) ∧ st'.(cluster).(sim).(time) = st.(cluster).(sim).(time)) E st.
Proof.
  intros Hacc. pose proof (moves_trace_rec rec Hacc st.(cluster)) as Hl.
  assert (wp (trace_rec rec) (λ w' _, same_nodes st.(cluster) w' ∧ w'.(sim).(time) = st.(cluster).(sim).(time)) (λ _ _, False) st.(cluster)) as Hwp.
  { apply wp_record. intros w' He _ _. split; [split; intros n|by rewrite (se_time _ _ _ He)].
    - exact (sim_ext_durable _ _ _ n He).
    - unfold vol, volatile. by rewrite (se_volatile _ _ _ He).
    - unfold is_alive. by rewrite (se_alive _ _ _ He). }
  unfold rep_record, on_cluster, wp in *. destruct (trace_rec rec _) as [w' [e|[]]]; [done|].
  simpl in *. by destruct Hwp.
Qed.

Lemma wp_current st :
  wp require_current_leader (λ st' _, st' = st ∧ current st) (λ _ _, True) st.
Proof.
  apply wp_bind, wp_gets. eapply wp_mono; [apply wp_on_cluster_same| |done].
  - eapply wp_mono; [apply wp_check_current| |]; [intros w' a (-> & ? & ? & ?); split; [done|exact (conj H (conj H0 H1))]|].
    intros w' e [-> ?]. split; [done|exact I].
  - intros st' [] [-> (? & ? & ?)]. done.
Qed.

Lemma wp_begin_probe peer st :
  wp (begin_activity_probe peer) (λ _ p, p.(probe_peer) = peer
      ∧ ∀ start, (start ≤ length (trace_of st.(cluster)))%nat → fresh start st.(cluster) st.(self) p) (λ _ _, True) st.
Proof.
  unfold begin_activity_probe, require_peer. apply wp_bind, wp_bind, wp_gets, wp_raise_if; [done|intros _].
  apply wp_bind. eapply wp_mono; [apply wp_current| |done]. intros st' [] [-> _].
  apply wp_bind, wp_gets, wp_bind. assert (∀ n, (log_view n st.(cluster)).1 = st.(cluster)) as Hv by done.
  specialize (Hv (leader (self st))). unfold wp at 1, on_cluster at 1. destruct (log_view _ _) as [w' [e|v]]; [done|].
  simpl in Hv. subst w'. cbv zeta. apply wp_bind. unfold wp at 1, on_cluster at 1. simpl.
  apply wp_bind. eapply wp_mono; [apply wp_any| |done]. intros st1 [] _.
  apply wp_bind. eapply wp_mono; [apply wp_any| |done]. intros st2 [] _. apply wp_ret.
  split; [done|]. intros start Hs. split; [simpl; lia|]. intros k o q a Hk (x & Hx & Ex)%fmap_Some. simpl.
  eapply floor_above; [by eapply list_elem_of_lookup_2|done].
Qed.

Lemma wp_finish_probe probe st :
  wp (finish_activity_probe probe) (λ st' b, current st' ∧ later st.(cluster) st'.(cluster) ∧ st'.(self) = st.(self)
    ∧ (b = true → ∀ start, fresh start st.(cluster) st.(self) probe →
         heard start st'.(cluster) st.(self).(leader) probe.(probe_peer) st.(self).(rep_term)))
    (λ _ _, True) st.
Proof.
  unfold finish_activity_probe, require_peer. apply wp_bind, wp_bind, wp_gets, wp_raise_if; [done|intros _].
  apply wp_bind. eapply wp_mono; [apply wp_current| |done]. intros st' [] [-> Hc].
  apply wp_bind, wp_gets, wp_bind, wp_raise_if; [done|intros _].
  apply wp_bind. unfold wp at 1, on_cluster at 1. simpl. destruct st as [w r]. simpl in *.
  destruct (matching_response _ _ _ _ _ _ _) as [[b x]|] eqn:Em; apply wp_bind;
    (eapply wp_mono; [by apply (wp_rep_record _ _ (λ _ _, True))| |done]); intros st1 [] (Hl & Hn & Hs & _); apply wp_ret;
    (split_and!; [by eapply current_same|done|done|]); [|done].
  intros _ start Hf. eapply heard_later; [exact Hl|]. by eapply matching_response_since.
Qed.

Section with_ids.
Context (ids : list string) (ld : string) (ok : exn → Prop) {may : C → Prop}.
Local Abbreviation quorum := (majority ids).
Local Abbreviation steps := (rtc (spec_step quorum true may)).
Local Abbreviation RRep := (RRep ids ld).
Local Abbreviation refinesR ok := (Refinement.refines (spec_step quorum true may) RRep ok).

Lemma refines_rep_get {A B} okk s (f : _ → A) (k : A → M _ B) Q st :
  refinesR okk s (k (f st)) Q st → refinesR okk s (bind (gets f) k) Q st.
Proof. apply refines_gets. Qed.

Definition watched m st : Prop := current st ∧ m.(lm_term) = st.(self).(rep_term).

Lemma wp_look {A} (f : _ → A) Q E st : Q st (f st.(cluster)) → wp (read f) Q E st.
Proof. by destruct st. Qed.

Lemma wp_require_watched m st :
  wp (require_watched_leader m) (λ st' _, st' = st ∧ watched m st)
    (λ st' e, st' = st ∧ exn_cls e = LeaderAuthorityLost) st.
Proof.
  unfold require_watched_leader. apply wp_bind, wp_gets, wp_bind, wp_look, wp_bind, wp_raise_if; [done|intros Ha%negb_false_iff].
  apply wp_bind, wp_look, wp_bind, wp_raise_if; [done|intros Hr%negb_false_iff%bool_decide_eq_true].
  apply wp_bind, wp_look, wp_bind, wp_raise_if; [done|intros Ht%negb_false_iff%Z.eqb_eq].
  apply wp_bind, wp_gets, wp_raise_if; [done|intros Hm%negb_false_iff%Z.eqb_eq].
  split; [done|]. split; [split; [done..|congruence]|done].
Qed.

Lemma refines_watched {B} s m (k : unit → M _ B) Q st :
  RRep st s → allows ok LeaderAuthorityLost → (watched m st → refinesR ok s (k tt) Q st) →
  refinesR ok s (bind (require_watched_leader m) k) Q st.
Proof.
  intros HR Hok Hk. apply (refines_pure _ _ _ _ _ _ (λ _, watched m st)); [|done|by intros [] ?; apply Hk].
  eapply wp_mono; [apply wp_require_watched|by intros ? ? []|]. intros w' e [-> ?]. split; [done|by apply Hok].
Qed.

Lemma refines_look {A B} s (f : _ → A) (k : A → M _ B) Q st :
  refinesR ok s (k (f st.(cluster))) Q st → refinesR ok s (bind (read f) k) Q st.
Proof. apply refines_read. Qed.

Lemma refines_authority_lost s m reason st :
  RRep st s → refinesR ok s (record_authority_lost m reason) (λ st' s' _, s' = s ∧ st'.(self) = st.(self)) st.
Proof.
  intros HR. unfold record_authority_lost. apply refines_rep_get, refines_look, refines_look.
  eapply refines_weaken; [by apply refines_record|]. by intros ? ? ? _ _ (-> & _ & _ & ->).
Qed.

(** A [ReplicationError] becomes the loss of authority. *)
Lemma refines_or_loss {A} s m (c : M _ A) Q st :
  allows ok LeaderAuthorityLost →
  refinesR (λ e, ok e ∨ is_replication_error e = true) s c Q st → refinesR ok s (or_authority_loss m c) Q st.
Proof.
  intros Hok Hc. eapply refines_try; [exact Hc|]. intros s' st' e Hs HR' He E.
  destruct (is_replication_error e) eqn:Hrep.
  - eapply refines_bind; [by apply refines_authority_lost|]. intros s2 st2 [] _ HR2 _.
    apply refines_raise; [done|by apply Hok].
  - unfold refines, wp, rethrow. split; [by exists s'|]. destruct He as [?|?]; [done|congruence].
Qed.

Lemma wp_quiet {A} (c : M _ A) st :
  quiet c → wp c (λ st' _, later st.(cluster) st'.(cluster) ∧ st'.(self) = st.(self)) (λ _ _, True) st.
Proof. intros Hq. unfold wp. specialize (Hq st). by destruct (c st) as [? [?|?]]. Qed.

(** What a part of a round leaves: the replicator it works for, and a trace that
    went on. *)
Section round.
Context (start : nat) (r0 : LeaderReplicator) (rf : nat).
Hypothesis Hlost : allows ok LeaderAuthorityLost.
Hypothesis Hval : allows ok ValueError.
Hypothesis Hfuel : allows ok OutOfFuel.
Local Abbreviation ok1 := (λ e, ok e ∨ is_replication_error e = true).

Definition underway st : Prop := (start ≤ length (trace_of st.(cluster)))%nat ∧ st.(self) = r0.
Definition acked_by st peer : Prop := heard start st.(cluster) r0.(leader) peer r0.(rep_term).

Lemma underway_quiet st st' :
  underway st → later st.(cluster) st'.(cluster) ∧ st'.(self) = st.(self) → underway st'.
Proof. intros [Hs E] [Hl E']. split; [pose proof (trace_later _ _ Hl); lia|congruence]. Qed.

Lemma allows_rep c : c = ReplicationError ∨ c = ReplicationResponseMissing → allows ok1 c.
Proof. intros Hc e He. right. unfold is_replication_error. by destruct Hc as [->| ->], e; simpl in *; subst. Qed.

Lemma allows_more c : allows ok c → allows ok1 c.
Proof. intros Hc e He. left. by apply Hc. Qed.

Lemma refines_quietly {A} okk s (c : M _ A) (Q : _ → _ → A → Prop) st :
  quiet c → underway st → refinesR okk s c Q st → refinesR okk s c (λ st' s' a, Q st' s' a ∧ later st.(cluster) st'.(cluster) ∧ underway st') st.
Proof.
  intros Hq Hu Hc. eapply refines_weaken; [apply refines_and; [exact Hc|by apply wp_quiet]|].
  intros s' st' a _ _ [? Hl]. split_and!; [done|apply Hl|by eapply underway_quiet].
Qed.

Lemma refines_begin m peer s st :
  RRep st s → underway st →
  refinesR ok s (or_authority_loss m (begin_activity_probe peer)) (λ st' _ p, p.(probe_peer) = peer
    ∧ fresh start st'.(cluster) r0 p ∧ later st.(cluster) st'.(cluster) ∧ underway st') st.
Proof.
  intros HR Hu. apply refines_or_loss; [done|]. eapply refines_weaken.
  - apply refines_and; [|apply wp_begin_probe]. apply refines_quietly; [apply quiet_begin|done|].
    apply safely_begin_probe; [apply allows_rep; by left|by apply allows_more|done].
  - intros s' st' p _ _ [[_ [Hl Hu']] [Ep Hf]]. destruct Hu as [Hs <-].
    split_and!; [done|by eapply fresh_later, Hf|done..].
Qed.

Lemma refines_finish m probe s st :
  RRep st s → underway st → fresh start st.(cluster) r0 probe →
  refinesR ok s (or_authority_loss m (finish_activity_probe probe)) (λ st' _ b, current st'
    ∧ (b = true → acked_by st' probe.(probe_peer)) ∧ later st.(cluster) st'.(cluster) ∧ underway st') st.
Proof.
  intros HR Hu Hfr. apply refines_or_loss; [done|]. eapply refines_weaken.
  - apply refines_and; [|apply wp_finish_probe]. apply refines_quietly; [apply quiet_finish|done|].
    apply safely_finish_probe; [apply allows_rep; by left|by apply allows_more|done].
  - intros s' st' b _ _ [[_ [Hl Hu']] (Hc & _ & _ & Hh)]. split_and!; [done| |done..].
    intros Hb. specialize (Hh Hb start). destruct Hu as [_ E]. rewrite E in Hh. by apply Hh.
Qed.

Lemma refines_probe m peer s st :
  RRep st s → underway st →
  refinesR ok s (or_authority_loss m (probe_activity rf peer))
    (λ st' _ b, (b = true → acked_by st' peer) ∧ later st.(cluster) st'.(cluster) ∧ underway st') st.
Proof.
  intros HR Hu. apply refines_or_loss; [done|]. eapply refines_weaken.
  - apply refines_and with (P := λ st' b, b = true → acked_by st' peer).
    + apply refines_quietly; [apply quiet_probe|done|].
      apply safely_probe_activity; [apply allows_rep; by left|by apply allows_more..|done].
    + unfold probe_activity. apply wp_bind.
      eapply wp_mono; [apply wp_and; [apply wp_begin_probe|apply wp_quiet, quiet_begin]| |done].
      intros st1 p [[Ep Hf] Hl1]. assert (underway st1) as Hu1 by by eapply underway_quiet.
      apply wp_bind. eapply wp_mono; [apply (wp_quiet (on_cluster (raft_run rf None)) st1); auto with distlab| |done].
      intros st2 z Hl2. assert (underway st2) as Hu2 by by eapply underway_quiet.
      eapply wp_mono; [apply wp_finish_probe| |done]. intros st3 b (_ & _ & _ & Hh) Hb. specialize (Hh Hb start).
      destruct Hu2 as [_ E2], Hu as [Hs E]. rewrite E2, Ep in Hh. apply Hh.
      eapply fresh_later; [apply Hl2|]. eapply fresh_later; [apply Hl1|]. rewrite <-E. by apply Hf.
  - intros s' st' b _ _ [[_ [Hl Hu']] Hb]. done.
Qed.

Lemma refines_attempts m peer k s st :
  RRep st s → underway st →
  refinesR ok s (check_attempts rf m peer k)
    (λ st' _ b, (b = true → acked_by st' peer) ∧ later st.(cluster) st'.(cluster) ∧ underway st') st.
Proof.
  revert s st. induction k as [|k IH]; intros s st HR Hu; simpl.
  { apply refines_ret; [done|]. split_and!; [done|apply later_refl|done]. }
  apply refines_watched; [done..|intros _]. eapply refines_bind; [by apply refines_probe|].
  intros s1 st1 b _ HR1 (Hb & Hl1 & Hu1). destruct b; [by apply refines_ret|].
  eapply refines_weaken; [by apply IH|]. intros s2 st2 b _ _ (? & Hl2 & ?).
  split_and!; [done|by eapply later_trans|done].
Qed.

(** The acknowledgements counted so far are of nodes that acked_by. *)
Definition counted st (acknowledged : gset string) (acked : list string) : Prop :=
  acknowledged = {[r0.(leader)]} ∪ list_to_set acked
  ∧ ∀ p, p ∈ acked → p ∈ ids ∧ p ≠ r0.(leader) ∧ acked_by st p.

Lemma counted_start st : counted st {[r0.(leader)]} [].
Proof. split; [simpl; set_solver|]. by intros p ?%elem_of_nil. Qed.

Lemma counted_later st st' acknowledged acked :
  later st.(cluster) st'.(cluster) → counted st acknowledged acked → counted st' acknowledged acked.
Proof. intros Hl [E Ha]. split; [done|]. intros p (? & ? & ?)%Ha. split_and!; [done..|by eapply heard_later]. Qed.

Lemma counted_add st acknowledged acked p :
  counted st acknowledged acked → p ∈ ids → p ≠ r0.(leader) → acked_by st p →
  counted st ({[p]} ∪ acknowledged) (acked ++ [p]).
Proof.
  intros [E Ha] Hp Hn Hans. split; [rewrite E, list_to_set_app_L; simpl; set_solver|].
  intros q [?| ->%list_elem_of_singleton]%elem_of_app; [by apply Ha|done].
Qed.

Definition voters_of (ps : list string) : Prop := ∀ p, p ∈ ps → p ∈ ids ∧ p ≠ r0.(leader).

Lemma refines_peers m k ps acknowledged acked s st :
  RRep st s → underway st → voters_of ps → counted st acknowledged acked →
  refinesR ok s (check_peers rf m k ps acknowledged acked)
    (λ st' _ acks, counted st' acks.1 acks.2 ∧ underway st') st.
Proof.
  revert acknowledged acked s st. induction ps as [|p ps IH]; intros acknowledged acked s st HR Hu Hps Hc; simpl.
  { by apply refines_ret. }
  apply refines_look. destruct (_ <=? _); [by apply refines_ret|].
  assert (voters_of ps) as Hps' by (intros q Hq; apply Hps; by right). destruct (Hps p) as [Hp Hn]; [by left|].
  eapply refines_bind; [by apply refines_attempts|]. intros s1 st1 b _ HR1 (Hb & Hl & Hu1).
  assert (counted st1 acknowledged acked) as Hc1 by by eapply counted_later.
  destruct b; [|by apply IH]. apply IH; [done..|]. apply counted_add; auto.
Qed.

Lemma refines_begin_all m ps s st :
  RRep st s → underway st →
  refinesR ok s (begin_probes m ps) (λ st' _ probes, underway st'
    ∧ ∀ x, x ∈ probes → x.1 ∈ ps ∧ x.2.(probe_peer) = x.1 ∧ fresh start st'.(cluster) r0 x.2) st.
Proof.
  revert s st. induction ps as [|p ps IH]; intros s st HR Hu; simpl.
  { apply refines_ret; [done|]. split; [done|]. by intros x ?%elem_of_nil. }
  eapply refines_bind; [by apply refines_begin|]. intros s1 st1 probe _ HR1 (Ep & Hst & _ & Hu1).
  eapply refines_bind; [apply refines_and; [by apply IH|apply wp_quiet, quiet_begin_probes]|].
  intros s2 st2 probes _ HR2 [[Hu2 Hx] [Hl2 _]]. apply refines_ret; [done|].
  split; [done|]. intros x [-> |(? & ? & ?)%Hx]%elem_of_cons; [split_and!; [by left|done|by eapply fresh_later]|].
  split_and!; [by right|done..].
Qed.

Lemma refines_finish_all m probes acknowledged acked s st :
  RRep st s → underway st → current st → counted st acknowledged acked →
  (∀ x, x ∈ probes → (x.1 ∈ ids ∧ x.1 ≠ r0.(leader)) ∧ x.2.(probe_peer) = x.1 ∧ fresh start st.(cluster) r0 x.2) →
  refinesR ok s (finish_probes m probes acknowledged acked)
    (λ st' _ acks, counted st' acks.1 acks.2 ∧ underway st' ∧ current st') st.
Proof.
  revert acknowledged acked s st. induction probes as [|[p probe] probes IH]; intros acknowledged acked s st HR Hu Hcur Hc Hx; simpl.
  { by apply refines_ret. }
  destruct (Hx (p, probe)) as ([Hp Hn] & Ep & Hst); [by left|]. simpl in *.
  eapply refines_bind; [by apply refines_finish|]. intros s1 st1 b _ HR1 (Hcur1 & Hb & Hl & Hu1).
  assert (counted st1 acknowledged acked) as Hc1 by by eapply counted_later.
  assert (∀ x, x ∈ probes → (x.1 ∈ ids ∧ x.1 ≠ r0.(leader)) ∧ x.2.(probe_peer) = x.1 ∧ fresh start st1.(cluster) r0 x.2) as Hx'
    by (intros x Hin; destruct (Hx x) as (? & ? & ?); [by right|]; split_and!; [apply H..|done|by eapply fresh_later]).
  destruct b; [|by apply IH]. apply IH; [done..| |done]. apply counted_add; [done..|]. rewrite <-Ep. by apply Hb.
Qed.

(** ** The two kinds of round *)

Lemma require_voter_in st s : RRep st s → require_voter st = (st, inr tt).
Proof.
  intros (HR & Hr & _). unfold require_voter, my_id, read, on_cluster, bind, gets. destruct st as [w r]. simpl in *.
  rewrite bool_decide_true; [done|]. unfold active_voters. rewrite elem_of_list_to_set, (R_ids _ _ _ _ _ _ _ HR).
  rewrite (ro_leader _ _ _ _ Hr). apply Hr.
Qed.

Lemma voter_peers_ok st s : RRep st s → underway st → voters_of (voter_peers st.(self).(leader) st.(cluster)).
Proof.
  intros (HR & _) [_ <-] p. unfold voter_peers, active_voters.
  rewrite elem_of_sorted_str, elem_of_elements, (R_ids _ _ _ _ _ _ _ HR). set_solver.
Qed.

(** The acknowledgements a round goes by *)
Definition gathered m st (acknowledged : gset string) (acked : list string) : Prop :=
  counted st acknowledged acked ∧ underway st ∧ current st ∧ m.(lm_term) = r0.(rep_term).

Lemma refines_check_gather m k s st :
  RRep st s → underway st →
  refinesR ok s (check_gather rf m k) (λ st' _ acks, gathered m st' acks.1 acks.2) st.
Proof.
  intros HR Hu. apply refines_check; [done|by intros _; apply Hval|intros _].
  apply refines_watched; [done..|intros _]. eapply refines_returns; [by eapply require_voter_in|].
  apply refines_rep_get, refines_look. destruct (Hu) as [_ E].
  eapply refines_bind.
  { apply refines_peers; [done..|by eapply voter_peers_ok|]. rewrite E. apply counted_start. }
  intros s1 st1 acks _ HR1 [Hc Hu1]. apply refines_watched; [done..|intros [Hcur Hm]]. apply refines_ret; [done|].
  split_and!; [done..|]. by destruct Hu1 as [_ <-].
Qed.

Lemma refines_or_record m s st :
  RRep st s →
  refinesR ok s (try_except (require_watched_leader m) (λ e,
    when (bool_decide (e.(exn_cls) = LeaderAuthorityLost)) (record_authority_lost m e.(exn_msg)) ;; rethrow e))
    (λ st' s' _, st' = st ∧ watched m st) st.
Proof.
  intros HR. eapply (refines_try _ _ (λ e, exn_cls e = LeaderAuthorityLost)).
  - eapply wp_mono; [apply wp_require_watched| |].
    + intros st' [] [-> Hw]. by exists s.
    + intros st' e [-> He]. split; [by exists s|done].
  - intros s1 st1 e _ HR1 He _. rewrite bool_decide_true by done.
    eapply refines_bind; [by apply refines_authority_lost|]. intros s2 st2 [] _ HR2 _.
    unfold refines, wp, rethrow. split; [by exists s2|by apply Hlost].
Qed.

Lemma refines_window_gather m t s st :
  RRep st s → underway st →
  refinesR ok s (window_gather rf m t) (λ st' _ r, gathered m st' r.1.1 r.1.2) st.
Proof.
  intros HR Hu. apply refines_check; [done|by intros _; apply Hval|intros _].
  apply refines_watched; [done..|intros _]. eapply refines_returns; [by eapply require_voter_in|].
  apply refines_rep_get, refines_look. pose proof (voter_peers_ok _ _ HR Hu) as Hps.
  eapply refines_bind; [by apply refines_begin_all|]. intros s1 st1 probes _ HR1 [Hu1 Hx].
  apply refines_look, refines_look. eapply refines_bind; [by apply refines_record|].
  intros s2 st2 [] _ HR2 (_ & _ & Hl2 & Hs2). assert (underway st2) as Hu2 by by eapply underway_quiet.
  eapply refines_bind; [apply (refines_on_cluster _ _ _ _ _ (λ _ _ _, True)); [done|apply moves_run_until|]|].
  { eapply safely_any, raft_safely_run_until; [done|done|by apply Hval|by apply Hfuel|exact (proj1 HR2)]. }
  intros s3 st3 z _ HR3 [[_ Hl3] Hs3]. assert (underway st3) as Hu3 by by eapply underway_quiet.
  eapply refines_bind; [by apply refines_or_record|]. intros s4 st4 [] _ HR4 [-> [Hcur Hm]].
  pose proof Hu as [_ E]. pose proof Hu3 as [_ E3].
  eapply refines_bind; [apply refines_finish_all; [done..|rewrite E; apply counted_start|]|].
  { intros x (Hin & ? & ?)%Hx. split_and!; [by apply Hps|by apply Hps|done|].
    eapply fresh_later; [exact Hl3|]. by eapply fresh_later. }
  intros s5 st5 acks _ HR5 (Hc & Hu5 & Hcur5). apply refines_ret; [done|]. split_and!; [done..|congruence].
Qed.
End round.
(** ** How a round ends *)

(** What the evidence of a round says, by what it means that a peer answers *)
Record backed (answers : string → Prop) r (ev : LeaderQuorumEvidence) : Prop := {
  bk_leader : ev.(qe_leader) = r.(leader);
  bk_term : ev.(qe_term) = r.(rep_term);
  bk_majority : majority ids (list_to_set ev.(qe_acknowledged_voters));
  bk_voters v : v ∈ ev.(qe_acknowledged_voters) ↔ v = r.(leader) ∨ v ∈ ev.(qe_acknowledged_peers);
  bk_answers p : p ∈ ev.(qe_acknowledged_peers) → answers p;
}.

Lemma backed_mono (P Q : string → Prop) r ev : (∀ p, P p → Q p) → backed P r ev → backed Q r ev.
Proof. intros HPQ [? ? ? ? Ha]. split; auto. Qed.

(** The peers heard in a round that began at [start] *)
Definition heard_by start r st peer : Prop := heard start st.(cluster) r.(leader) peer r.(rep_term).

Definition confirmed start r st ev : Prop := current st ∧ st.(self) = r ∧ backed (heard_by start r st) r ev.

Lemma backed_later start start' r st st' ev :
  (start ≤ start')%nat → later st.(cluster) st'.(cluster) →
  backed (heard_by start' r st) r ev → backed (heard_by start r st') r ev.
Proof. intros Hs Hl. apply backed_mono. intros p Hp. eapply heard_later, heard_from; done. Qed.

Lemma safely_round_step_down s reason st :
  RRep st s → current st → allows ok ValueError →
  refinesR ok s (on_cluster (step_down st.(self).(leader) reason)) (λ _ _ _, True) st.
Proof.
  intros HR Hc Hval. eapply refines_weaken;
    [apply (refines_on_cluster _ _ _ _ _ (λ _ _ _, True)); [done|apply moves_step_down|]|done].
  eapply safely_any, safely_step_down; [exact (proj1 HR)| |by left; apply Hc|by intros msg; apply Hval].
  destruct HR as (_ & Hr & _). rewrite (ro_leader _ _ _ _ Hr). apply Hr.
Qed.

Lemma refines_conclude start r m acknowledged acked deadline s st :
  RRep st s → gathered start r m st acknowledged acked → allows ok LeaderQuorumUnavailable → allows ok ValueError →
  refinesR ok s (conclude_round m acknowledged acked deadline) (λ st' _ ev, confirmed start r st' ev) st.
Proof.
  intros HR ([Ea Ha] & [Hs E] & Hcur & Hm) Hun Hval. unfold conclude_round. apply refines_rep_get, refines_look, refines_look.
  pose proof (R_ids _ _ _ _ _ _ _ (proj1 HR)) as Eids. pose proof (proj1 (proj2 HR)) as Hr.
  destruct (Z.ltb_spec (Z.of_nat (size acknowledged)) (quorum_size st.(cluster).(objs).(node_ids))) as [Hlt|Hge].
  - eapply refines_bind; [by apply refines_record|]. intros s1 st1 [] _ HR1 (_ & Hn & _ & Hs1).
    assert (current st1) as Hcur1 by by eapply current_same.
    rewrite <-Hs1. eapply refines_bind; [by apply safely_round_step_down|].
    intros s2 st2 b _ HR2 _. apply refines_raise; [done|by apply Hun].
  - eapply refines_bind; [by apply refines_record|]. intros s1 st1 [] _ HR1 (_ & Hn & Hl & Hs1).
    apply refines_ret; [done|].
    assert (acknowledged ⊆ list_to_set ids) as Hsub.
    { rewrite Ea. intros v [->%elem_of_singleton|Hv%elem_of_list_to_set]%elem_of_union; apply elem_of_list_to_set;
        [rewrite <-E, (ro_leader _ _ _ _ Hr); apply Hr|by apply Ha]. }
    assert (acknowledged ∩ active_voters st.(cluster) = acknowledged) as Einter.
    { unfold active_voters. rewrite Eids. set_solver. }
    assert (∀ v, v ∈ sorted_str (elements (acknowledged ∩ active_voters st.(cluster))) ↔ v ∈ acknowledged) as Hin
      by (intros v; by rewrite Einter, elem_of_sorted_str, elem_of_elements).
    split; [by eapply current_same|]. split; [congruence|]. split; simpl; [by rewrite E|by rewrite Hm| | |].
    + assert (list_to_set (sorted_str (elements (acknowledged ∩ active_voters st.(cluster)))) = acknowledged) as ->
        by (apply set_eq; intros v; by rewrite elem_of_list_to_set).
      split; [done|by rewrite <-Eids].
    + intros v. rewrite Hin, Ea. set_solver.
    + intros p (_ & _ & Hh)%Ha. by eapply heard_later.
Qed.


(** An unconfirmed quorum retires the leader. *)
Lemma conclude_unavailable m acknowledged acked deadline st :
  current st →
  wp (conclude_round m acknowledged acked deadline) (λ _ _, True)
    (λ st' e, exn_cls e = LeaderQuorumUnavailable → ¬ in_lead st') st.
Proof.
  intros Hcur. unfold conclude_round. apply wp_bind, wp_gets, wp_bind, wp_look, wp_bind, wp_look.
  assert (∀ rec, accepted_request (EvProto (Σ := RaftSig) rec) = None →
    wp (rep_record rec) (λ st' _, current st' ∧ st'.(self) = st.(self)) (λ _ e, exn_cls e ≠ LeaderQuorumUnavailable) st) as Hrec.
  { intros rec Hacc. eapply wp_mono; [by apply (wp_rep_record _ _ (λ _ e, exn_cls e ≠ LeaderQuorumUnavailable))| |done].
    intros st1 [] (_ & Hn & Hs & _). split; [by eapply current_same|done]. }
  destruct (_ <? _); apply wp_bind; (eapply wp_mono; [by apply Hrec| |by intros ? ? ? ?]); intros st1 [] [Hcur1 Hs1]; [|by apply wp_ret].
  apply wp_bind. rewrite <-Hs1. pose proof (wp_step_down st1.(self).(leader) "check-quorum-failed" st1.(cluster)) as Hsd.
  assert (∀ w', retires (self st1).(leader) (cluster st1) w' → ¬ in_lead (mkRepWorld w' (self st1))) as Hret.
  { intros w' Hr [Hl Ht]. specialize (Hr Hl). simpl in Ht. destruct Hcur1 as [_ _ Hc]. unfold term_at_node in *. simpl in *. lia. }
  unfold wp at 1, on_cluster. unfold wp at 1 in Hsd. destruct (step_down _ _ _) as [w' [e|b]]; simpl in *.
  - intros He. destruct Hsd as [Hin|Hr]; [|by apply Hret]. rewrite He in Hin. clear -Hin. set_solver.
  - apply wp_raise. intros _. by apply Hret.
Qed.

(** ** Both kinds of round *)
Section rounds.
Context (rf : nat) (m : LeaderQuorumMonitor).

Definition round_gather (c : CheckCall) : M (RepWorld (C := C)) (gset string * list string * option Z) :=
  match c with
  | Sequential k => let! acks := check_gather rf m k in ret (acks, None)
  | Window t => let! r := window_gather rf m t in ret (r.1, Some r.2)
  end.

Lemma quorum_round_eq c st :
  quorum_round rf m c st = bind (round_gather c) (λ r, conclude_round m r.1.1 r.1.2 r.2) st.
Proof.
  destruct c; simpl; unfold check, check_window, bind; [destruct (check_gather _ _ _ _) as [? [?|?]]|destruct (window_gather _ _ _ _) as [? [?|?]]]; done.
Qed.

Lemma refines_round_gather c s st :
  RRep st s → allows ok LeaderAuthorityLost → allows ok ValueError → allows ok OutOfFuel →
  refinesR ok s (round_gather c) (λ st' _ r, gathered (length (trace_of st.(cluster))) st.(self) m st' r.1.1 r.1.2) st.
Proof.
  intros HR Hl Hv Hf. assert (underway (length (trace_of st.(cluster))) st.(self) st) as Hu by done.
  destruct c as [k|t]; simpl.
  - eapply refines_bind; [by apply refines_check_gather|]. intros s1 st1 acks _ HR1 Hg. by apply refines_ret.
  - eapply refines_bind; [by apply refines_window_gather|]. intros s1 st1 acks _ HR1 Hg. by apply refines_ret.
Qed.

(** What [quorum_round] may raise *)
Definition round_errors : list exn_class := [ValueError; LeaderAuthorityLost; LeaderQuorumUnavailable; OutOfFuel].

Lemma refines_quorum_round c s st :
  RRep st s → (∀ x, x ∈ round_errors → allows ok x) →
  refinesR ok s (quorum_round rf m c)
    (λ st' _ ev, confirmed (length (trace_of st.(cluster))) st.(self) st' ev) st.
Proof.
  intros HR Hok. unfold refines, wp. rewrite quorum_round_eq.
  eapply refines_bind; [apply refines_round_gather; [done|apply Hok; unfold round_errors; set_solver..]|].
  intros s1 st1 r _ HR1 Hg. apply refines_conclude; [done..| |]; apply Hok; unfold round_errors; set_solver.
Qed.
End rounds.
End with_ids.

Lemma quorum_round_unavailable ids ld rf m c s st :
  RRep ids ld st s →
  wp (quorum_round rf m c) (λ _ _, True) (λ st' e, exn_cls e = LeaderQuorumUnavailable → ¬ in_lead st') st.
Proof.
  intros HR. enough (wp (bind (round_gather rf m c) (λ r, conclude_round m r.1.1 r.1.2 r.2)) (λ _ _, True)
    (λ st' e, exn_cls e = LeaderQuorumUnavailable → ¬ in_lead st') st) as Hw by (unfold wp in *; by rewrite quorum_round_eq).
  apply wp_bind.
  assert (∀ x, x ≠ LeaderQuorumUnavailable → allows (λ e, exn_cls e ≠ LeaderQuorumUnavailable) x) as Hok
    by (intros x Hx e He; simpl; by rewrite He).
  pose proof (refines_round_gather ids ld (λ e, exn_cls e ≠ LeaderQuorumUnavailable) (may := any_command) rf m c s st HR
    (Hok LeaderAuthorityLost ltac:(done)) (Hok ValueError ltac:(done)) (Hok OutOfFuel ltac:(done))) as Hg.
  eapply wp_mono; [exact Hg| |].
  - intros st1 r (s1 & _ & _ & _ & _ & Hcur & _). by apply conclude_unavailable.
  - by intros st1 e [_ He] ?.
Qed.
End refinement.

(** ** The clock *)

Create HintDb instant.

Section clock.
Context {C : Type} `{EqDecision C}.
Implicit Types (m : LeaderQuorumMonitor) (c : LeaderHeartbeatController).
Implicit Types (x : HeartbeatWorld (C := C)).
Local Abbreviation now st := (st.(cluster).(sim).(time)).

(** Computations that take no simulated time, when they return *)
Definition instant {A} (k : M (RepWorld (C := C)) A) : Prop := ∀ st, wp k (λ st' _, now st' = now st) (λ _ _, True) st.

Lemma instant_bind {A B} (k : M (RepWorld (C := C)) A) (h : A → M _ B) :
  instant k → (∀ a, instant (h a)) → instant (bind k h).
Proof.
  intros Hk Hh st. apply wp_bind. eapply wp_mono; [apply Hk| |done]. intros st1 a E.
  eapply wp_mono; [apply Hh| |done]. intros st2 b E'. congruence.
Qed.

Lemma instant_ret {A} (a : A) : instant (ret a). Proof. by intros st. Qed.
Lemma instant_gets {A} (f : _ → A) : instant (gets f). Proof. by intros st. Qed.
Lemma instant_raise {A} e msg : instant (raise (A := A) e msg). Proof. by intros st. Qed.
Lemma instant_raise_if b e msg : instant (raise_if b e msg). Proof. intros st. by destruct b. Qed.
Lemma instant_read {A} (f : _ → A) : instant (read f). Proof. intros st. by apply wp_look. Qed.

(** A handler that only raises does not matter. *)
Lemma wp_try_raises {S A} (k : M S A) h Q s :
  wp k Q (λ _ _, True) s → (∀ e s', wp (h e) (λ _ _, False) (λ _ _, True) s') → wp (try_except k h) Q (λ _ _, True) s.
Proof.
  unfold wp, try_except. intros Hk Hh. destruct (k s) as [s' [e|a]]; [|done]. specialize (Hh e s').
  by destruct (h e s') as [? [?|?]].
Qed.

Lemma wp_raises {S A B} (k : M S A) (h : A → M S B) s :
  (∀ a s', wp (h a) (λ _ _, False) (λ _ _, True) s') → wp (bind k h) (λ _ _, False) (λ _ _, True) s.
Proof. intros Hh. apply wp_bind. eapply wp_mono; [apply wp_any|by intros; apply Hh|done]. Qed.

Lemma instant_try {A} (k : M _ A) h :
  instant k → (∀ e st, wp (h e) (λ _ _, False) (λ _ _, True) st) → instant (try_except k h).
Proof. intros Hk Hh st. by apply wp_try_raises. Qed.

Lemma instant_record rec : accepted_request (EvProto (Σ := RaftSig) rec) = None → instant (rep_record rec).
Proof. intros Hacc st. eapply wp_mono; [by apply (wp_rep_record _ _ (λ _ _, True))| |done]. by intros ? ? (_ & _ & _ & ?). Qed.

Lemma instant_send n peer prev es commit : instant (on_cluster (send_append_entries n peer prev es commit)).
Proof.
  intros st. enough (wp (send_append_entries n peer prev es commit) (λ w' _, w'.(sim).(time) = st.(cluster).(sim).(time))
    (λ _ _, True) st.(cluster)) as Hw by (unfold wp, on_cluster in *; destruct (send_append_entries _ _ _ _ _ _) as [? [?|?]]; done).
  unfold send_append_entries, last_log_index, log_view, net_send.
  repeat first [progress wp_steps; try done | match goal with |- match ?r with inl _ => _ | inr _ => _ end => destruct r; [done|] end].
  apply wp_send; [lia|]. intros w' new He _. by rewrite (se_time _ _ _ He).
Qed.
#[local] Hint Resolve instant_bind instant_ret instant_gets instant_raise instant_raise_if instant_read instant_record
  instant_send wp_raises wp_raise : instant.
#[local] Hint Extern 3 (instant (bind _ _)) => apply instant_bind; [|intros] : instant.

Lemma instant_watched m : instant (require_watched_leader (C := C) m).
Proof. unfold require_watched_leader, my_id. auto 20 with instant. Qed.

Lemma instant_or_loss {A} m (k : M (RepWorld (C := C)) A) : instant k → instant (or_authority_loss m k).
Proof.
  intros Hk. apply instant_try; [done|]. intros e st. destruct (is_replication_error e); [|done].
  apply wp_raises. intros. by apply wp_raise.
Qed.

Lemma instant_current : instant (require_current_leader (C := C)).
Proof. intros st. eapply wp_mono; [apply wp_current|by intros st' [] [-> _]|done]. Qed.
Lemma instant_view n : instant (on_cluster (log_view (C := C) n)).
Proof. intros [w r]. unfold wp, on_cluster, log_view, bind, gets, lift. simpl. by destruct (new_RaftLogView _ _ _). Qed.
Lemma instant_peer peer : instant (require_peer (C := C) peer).
Proof. unfold require_peer. auto with instant. Qed.
#[local] Hint Resolve instant_current instant_view instant_peer : instant.

Lemma instant_begin peer : instant (begin_activity_probe (C := C) peer).
Proof.
  assert (instant (on_cluster (gets (trace_of (C := C))))) by apply instant_read.
  unfold begin_activity_probe. cbv zeta. auto 20 with instant.
Qed.

Lemma instant_finish probe : instant (finish_activity_probe (C := C) probe).
Proof.
  assert (instant (on_cluster (gets (trace_of (C := C))))) by apply instant_read.
  unfold finish_activity_probe. do 5 (apply instant_bind; [auto with instant|intros ?]).
  destruct (matching_response _ _ _ _ _ _ _) as [[]|]; auto with instant.
Qed.
#[local] Hint Resolve instant_begin instant_finish instant_or_loss instant_watched : instant.

Lemma instant_begin_all m ps : instant (begin_probes (C := C) m ps).
Proof. induction ps; simpl; auto 20 with instant. Qed.

Lemma instant_finish_all m probes acknowledged acked : instant (finish_probes (C := C) m probes acknowledged acked).
Proof.
  revert acknowledged acked. induction probes as [|[peer probe] probes IH]; intros; simpl; [auto with instant|].
  apply instant_bind; [auto with instant|]. intros []; apply IH.
Qed.

Lemma instant_conclude m k l d : instant (conclude_round (C := C) m k l d).
Proof.
  unfold conclude_round, my_id, majority_of. do 3 (apply instant_bind; [auto with instant|intros ?]).
  destruct (_ <? _); [|auto with instant]. apply instant_bind; [auto with instant|intros ?].
  intros st. apply (wp_mono _ (λ _ _, False) _ (λ _ _, True)); [|by intros ? ? []|done].
  apply wp_raises. intros. by apply wp_raise.
Qed.

Lemma instant_voter : instant (require_voter (C := C)).
Proof.
  unfold require_voter, my_id. do 2 (apply instant_bind; [auto with instant|intros ?]).
  destruct (negb _); [|apply instant_ret]. intros st. apply (wp_mono _ (λ _ _, False) _ (λ _ _, True)); [|by intros ? ? []|done].
  apply wp_raises. intros. by apply wp_raise.
Qed.

Lemma wp_instant {A B} (k : M (RepWorld (C := C)) A) (h : A → M _ B) Q st :
  instant k → (∀ a st', now st' = now st → wp (h a) Q (λ _ _, True) st') → wp (bind k h) Q (λ _ _, True) st.
Proof. intros Hk Hh. apply wp_bind. eapply wp_mono; [apply Hk| |done]. auto. Qed.

(** A run until [t] ends at [t]. *)
Lemma wp_window_run rf t st :
  wp (on_cluster (raft_run_until (C := C) rf t)) (λ st' _, now st' = t ∧ st'.(self) = st.(self)) (λ _ _, True) st.
Proof.
  enough (wp (raft_run_until (C := C) rf t) (λ w' _, w'.(sim).(time) = t) (λ _ _, True) st.(cluster)) as Hw
    by (unfold wp, on_cluster in *; destruct (raft_run_until _ _ _) as [? [?|?]]; done).
  unfold raft_run_until, run_until_time. apply wp_bind, wp_gets, wp_bind, wp_raise_if; [done|intros _].
  apply wp_bind. eapply wp_mono; [apply wp_any| |done]. intros w1 k _. by apply wp_bind, wp_upd_sim, wp_ret.
Qed.

(** A window is as long as it says. *)
Lemma wp_check_window rf m t st :
  wp (check_window (C := C) rf m t) (λ st' _, now st' = now st + t) (λ _ _, True) st.
Proof.
  unfold check_window, window_gather, my_id. apply wp_bind, wp_bind, wp_raise_if; [done|intros _].
  apply wp_instant; [auto with instant|intros _ st1 E1]. apply wp_instant; [apply instant_voter|intros _ st2 E2].
  apply wp_bind, wp_gets, wp_bind, wp_look. apply wp_instant; [apply instant_begin_all|intros probes st3 E3].
  apply wp_bind, wp_look, wp_bind, wp_look. apply wp_instant; [auto with instant|intros _ st4 E4].
  apply wp_bind. eapply wp_mono; [apply wp_window_run| |done]. intros st5 k [E5 _].
  apply wp_instant; [apply instant_try; [auto with instant|]|intros _ st6 E6].
  { intros e st'. apply wp_raises. by intros _ s'. }
  apply wp_instant; [apply instant_finish_all|intros acks st7 E7]. apply wp_ret.
  eapply wp_mono; [apply instant_conclude| |done]. intros st8 ev E8. congruence.
Qed.

(** *** Heartbeats on schedule *)

Local Abbreviation at_time x := (now x.(hb_rep)).

(** When the next round begins *)
Definition next_beat x : Z := Z.max x.(hb_self).(hb_next_heartbeat_time) (at_time x).

Lemma wp_on_rep {A} (k : M _ A) Q (E : _ → exn → Prop) x :
  wp k (λ st' a, Q (mkHeartbeatWorld st' x.(hb_self)) a) (λ st' e, E (mkHeartbeatWorld st' x.(hb_self)) e) x.(hb_rep) →
  wp (on_rep k) Q E x.
Proof. unfold wp, on_rep. by destruct (k (hb_rep x)) as [? [?|?]]. Qed.

Lemma wp_on_instant {A B} (k : M (RepWorld (C := C)) A) (h : A → M _ B) Q x :
  instant k → (∀ a st', now st' = at_time x → wp (h a) Q (λ _ _, True) (mkHeartbeatWorld st' x.(hb_self))) →
  wp (bind (on_rep k) h) Q (λ _ _, True) x.
Proof. intros Hk Hh. apply wp_bind, wp_on_rep. eapply wp_mono; [apply Hk| |done]. auto. Qed.

(** The times of a round, and what the controller has when it returns *)
Record timed x (i : nat) (r : HeartbeatRound) : Prop := {
  tm_number : r.(hr_round_number) = x.(hb_self).(hb_round_number) + 1 + Z.of_nat i;
  tm_scheduled : r.(hr_scheduled_time) = next_beat x + Z.of_nat i * x.(hb_self).(heartbeat_interval);
  tm_completed : r.(hr_completed_time) = r.(hr_scheduled_time) + x.(hb_self).(response_timeout);
}.

Lemma wp_heartbeat_round rf x :
  wp (heartbeat_round rf) (λ x' r, timed x 0 r
      ∧ x'.(hb_self) = set_next_heartbeat (next_beat x + x.(hb_self).(heartbeat_interval))
          (set_round (x.(hb_self).(hb_round_number) + 1) x.(hb_self))
      ∧ at_time x' = next_beat x + x.(hb_self).(response_timeout)) (λ _ _, True) x.
Proof.
  destruct x as [st c]. unfold heartbeat_round, my_id. apply wp_bind, wp_gets.
  apply wp_on_instant; [auto with instant|intros n st1 E1]. apply wp_bind, wp_on_rep, wp_look. simpl in *.
  rewrite E1. fold (next_beat (mkHeartbeatWorld st c)). set (b := next_beat _).
  apply wp_on_instant; [auto with instant|intros d st2 E2]. apply wp_bind.
  apply (wp_mono _ (λ x' _, x'.(hb_self) = c) _ (λ _ _, True)); [|intros [st3 c3] [] E3|done].
  { apply wp_when; [intros _|done]. apply wp_on_rep. eapply wp_mono; [apply wp_any|done|done]. }
  simpl in E3. subst c3. apply wp_bind, wp_on_rep. eapply wp_mono; [apply wp_window_run| |done]. intros st4 k [E4 _].
  apply wp_bind, wp_modify. simpl. apply wp_on_instant; [auto with instant|intros d' st5 E5].
  apply wp_on_instant; [auto with instant|intros _ st6 E6]. apply wp_bind.
  apply wp_try_raises; [apply wp_on_rep; eapply wp_mono; [apply wp_check_window| |done]|].
  2:{ intros e x'. destruct (is_liveness_error e); [|done]. do 3 (apply wp_raises; intros ? ?). done. }
  simpl in *. intros st7 ev E7. apply wp_bind, wp_on_rep, wp_look.
  apply wp_on_instant; [auto with instant|intros _ st8 E8]. apply wp_bind, wp_modify, wp_ret. simpl in *.
  assert (now st7 = b + response_timeout c) as Ec by (rewrite E7, E6, E5, E4; done).
  split; [|split; [done|congruence]]. split; simpl; [lia| |congruence]. fold b. lia.
Qed.

(** A controller that gives each window no more time than the interval keeps to
    its schedule. *)
Lemma wp_heartbeat_rounds rf k x :
  x.(hb_self).(response_timeout) ≤ x.(hb_self).(heartbeat_interval) →
  wp (heartbeat_rounds rf k) (λ x' rs, length rs = k ∧ (∀ i r, rs !! i = Some r → timed x i r)
    ∧ x'.(hb_self) = match k with
        | O => x.(hb_self)
        | _ => set_next_heartbeat (next_beat x + Z.of_nat k * x.(hb_self).(heartbeat_interval))
                 (set_round (x.(hb_self).(hb_round_number) + Z.of_nat k) x.(hb_self))
        end) (λ _ _, True) x.
Proof.
  revert x. induction k as [|k IH]; intros x Hle; simpl; [by apply wp_ret|].
  apply wp_bind. eapply wp_mono; [apply wp_heartbeat_round| |done]. intros x1 r (Hr & Es & Et).
  assert (next_beat x1 = next_beat x + x.(hb_self).(heartbeat_interval)) as En
    by (unfold next_beat at 1; rewrite Es, Et; simpl; lia).
  apply wp_bind. eapply wp_mono; [apply IH; by rewrite Es| |done]. intros x2 rs (Hlen & Hrs & Hx2).
  apply wp_ret. split; [simpl; lia|]. split.
  - intros [|i] q; simpl; [by intros [= <-]|]. intros [Hn Hs Hc]%Hrs. rewrite En, Es in *. simpl in *.
    split; [lia|rewrite Hs; lia|done].
  - rewrite Hx2, En, Es. destruct k; unfold set_next_heartbeat, set_round; simpl; f_equal; lia.
Qed.

Lemma wp_run_heartbeats rf rounds x :
  x.(hb_self).(response_timeout) ≤ x.(hb_self).(heartbeat_interval) →
  wp (run_heartbeats rf rounds) (λ _ rs, zlen rs = rounds ∧ ∀ i r, rs !! i = Some r → timed x i r) (λ _ _, True) x.
Proof.
  intros Hle. apply wp_bind, wp_raise_if; [done|intros Hr%Z.leb_gt].
  eapply wp_mono; [by apply wp_heartbeat_rounds| |done]. intros x' rs (Hlen & Ht & _).
  split; [unfold zlen; rewrite Hlen; lia|done].
Qed.
End clock.

(** ** Heartbeats, step by step *)

Section beats.
Context {C : Type} `{EqDecision C}.
Implicit Types (m : LeaderQuorumMonitor) (x : HeartbeatWorld (C := C)) (s : Spec C).
Local Abbreviation HM := (M (HeartbeatWorld (C := C))).

(** They move the cluster and leave the replicator alone. *)
Definition calm {A} (k : HM A) : Prop := ∀ x,
  later x.(hb_rep).(cluster) (k x).1.(hb_rep).(cluster) ∧ (k x).1.(hb_rep).(self) = x.(hb_rep).(self).

Lemma calm_bind {A B} (k : HM A) (h : A → HM B) : calm k → (∀ a, calm (h a)) → calm (bind k h).
Proof.
  intros Hk Hh x. unfold bind. specialize (Hk x). destruct (k x) as [x1 [e|a]]; [done|].
  destruct Hk as [Hl E], (Hh a x1) as [Hl' E']. simpl in *. split; [by eapply later_trans|congruence].
Qed.
Lemma calm_try {A} (k : HM A) h : calm k → (∀ e, calm (h e)) → calm (try_except k h).
Proof.
  intros Hk Hh x. unfold try_except. specialize (Hk x). destruct (k x) as [x1 [e|a]]; [|done].
  destruct Hk as [Hl E], (Hh e x1) as [Hl' E']. simpl in *. split; [by eapply later_trans|congruence].
Qed.
Lemma calm_same {A} (k : HM A) : (∀ x, (k x).1.(hb_rep) = x.(hb_rep)) → calm k.
Proof. intros Hk x. rewrite Hk. split; [apply later_refl|done]. Qed.
Lemma calm_on_rep {A} (k : M _ A) : quiet k → calm (on_rep k).
Proof. intros Hk x. apply (Hk x.(hb_rep)). Qed.
Lemma calm_record rec : accepted_request (EvProto (Σ := RaftSig) rec) = None → calm (on_rep (rep_record rec)).
Proof. intros. apply calm_on_rep. auto with distlab. Qed.
Lemma calm_read {A} (f : _ → A) : calm (on_rep (read f)).
Proof. apply calm_on_rep, quiet_read. Qed.
Lemma calm_my_id : calm (on_rep my_id). Proof. apply calm_on_rep, quiet_my_id. Qed.
Lemma calm_ret {A} (a : A) : calm (ret a). Proof. by apply calm_same. Qed.
Lemma calm_gets {A} (f : _ → A) : calm (gets f). Proof. by apply calm_same. Qed.
Lemma calm_controller f : calm (upd_controller f). Proof. by apply calm_same. Qed.
Lemma calm_rethrow {A} e : calm (rethrow (A := A) e). Proof. by apply calm_same. Qed.
Lemma calm_run_until rf t : calm (on_rep (on_cluster (raft_run_until (C := C) rf t))).
Proof. apply calm_on_rep, quiet_run_until. Qed.
Lemma calm_window rf m t : calm (on_rep (check_window (C := C) rf m t)).
Proof. apply calm_on_rep. exact (quiet_quorum_round rf m (Window t)). Qed.
#[local] Hint Resolve calm_record calm_read calm_my_id calm_ret calm_gets calm_controller calm_rethrow calm_run_until calm_window : distlab.
#[local] Hint Extern 3 (calm (bind _ _)) => apply calm_bind; [|intros] : distlab.

Lemma calm_round rf : calm (heartbeat_round (C := C) rf).
Proof.
  assert (∀ b (k : HM unit), calm k → calm (when b k)) as Hw by (intros [] k Hk; [done|apply calm_ret]).
  unfold heartbeat_round. cbv zeta. do 4 (apply calm_bind; [auto with distlab|intros ?]).
  apply calm_bind; [auto with distlab|intros _]. do 4 (apply calm_bind; [auto with distlab|intros ?]).
  apply calm_bind; [|intros ev; auto 20 with distlab]. apply calm_try; [auto with distlab|]. intros e.
  destruct (is_liveness_error e); auto 20 with distlab.
Qed.

Lemma calm_rounds rf k : calm (heartbeat_rounds (C := C) rf k).
Proof.
  induction k as [|k IH]; simpl; [apply calm_ret|]. apply calm_bind; [apply calm_round|intros r].
  apply calm_bind; [exact IH|intros rs; apply calm_ret].
Qed.

Lemma calm_run rf rounds : calm (run_heartbeats (C := C) rf rounds).
Proof.
  unfold run_heartbeats. apply calm_bind; [apply calm_same; by destruct (_ <=? _)|intros _; apply calm_rounds].
Qed.

Lemma wp_calm {A} (k : HM A) x :
  calm k → wp k (λ x' _, later x.(hb_rep).(cluster) x'.(hb_rep).(cluster) ∧ x'.(hb_rep).(self) = x.(hb_rep).(self)) (λ _ _, True) x.
Proof. intros Hk. unfold wp. specialize (Hk x). by destruct (k x) as [? [?|?]]. Qed.

Section with_ids.
Context (ids : list string) (ld : string) (ok : exn → Prop) {may : C → Prop}.
Context (Hok : ∀ c, c ∈ round_errors → allows ok c).
Definition RH x s : Prop := RRep ids ld x.(hb_rep) s.
Local Abbreviation refinesH := (Refinement.refines (spec_step (majority ids) true may) RH ok).
Local Abbreviation refinesR := (Refinement.refines (spec_step (majority ids) true may) (RRep ids ld) ok).

Lemma refines_on_rep {A} s (k : M _ A) (Q : _ → _ → A → Prop) x :
  refinesR s k Q x.(hb_rep) →
  refinesH s (on_rep k) (λ x' s' a, Q x'.(hb_rep) s' a ∧ x'.(hb_self) = x.(hb_self)) x.
Proof. unfold refines, wp, on_rep. destruct (k (hb_rep x)) as [st' [e|a]]; [done|]. intros (s' & ? & ? & ?). by exists s'. Qed.

Lemma on_rep_read_eq {A} (f : _ → A) x : on_rep (read f) x = (x, inr (f x.(hb_rep).(cluster))).
Proof. by destruct x as [[w r] c]. Qed.

Lemma refines_beat_read {A B} s (f : _ → A) (k : A → HM B) Q x :
  refinesH s (k (f x.(hb_rep).(cluster))) Q x → refinesH s (bind (on_rep (read f)) k) Q x.
Proof. apply refines_returns, on_rep_read_eq. Qed.

Lemma refines_beat_id {B} s (k : _ → HM B) Q x :
  refinesH s (k x.(hb_rep).(self).(leader)) Q x → refinesH s (bind (on_rep my_id) k) Q x.
Proof. apply refines_returns. by destruct x. Qed.

Section round.
Context (start : nat) (r0 : LeaderReplicator).
Local Abbreviation underway x := (underway start r0 x.(hb_rep)).

(** A step of the controller that its round does not depend on *)
Lemma refines_beat {A} s (k : M _ A) x :
  underway x → quiet k → refinesR s k (λ _ _ _, True) x.(hb_rep) →
  refinesH s (on_rep k) (λ x' _ _, underway x' ∧ x'.(hb_self) = x.(hb_self)
    ∧ later x.(hb_rep).(cluster) x'.(hb_rep).(cluster)) x.
Proof.
  intros Hu Hq Hk. eapply refines_weaken;
    [apply refines_and; [apply refines_on_rep; exact Hk|apply wp_calm; by apply calm_on_rep]|].
  intros s' x' a _ _ [[_ ?] Hl]. split_and!; [by eapply underway_quiet|done|apply Hl].
Qed.

Lemma refines_beat_record s rec x :
  RH x s → underway x → plain (EvProto (Σ := RaftSig) rec) = true → accepted_request (EvProto (Σ := RaftSig) rec) = None →
  refinesH s (on_rep (rep_record rec)) (λ x' _ _, underway x' ∧ x'.(hb_self) = x.(hb_self)
    ∧ later x.(hb_rep).(cluster) x'.(hb_rep).(cluster)) x.
Proof. intros HR Hu Hp Ha. apply refines_beat; [done|auto with distlab|]. eapply refines_weaken; [by apply refines_record|done]. Qed.

Lemma refines_window rf m t s x :
  RH x s → underway x →
  refinesH s (on_rep (check_window rf m t)) (λ x' _ ev, backed ids (heard_by start r0 x'.(hb_rep)) r0 ev ∧ current x'.(hb_rep)
    ∧ underway x' ∧ later x.(hb_rep).(cluster) x'.(hb_rep).(cluster)) x.
Proof.
  intros HR Hu. eapply refines_weaken; [apply refines_and; [|apply wp_calm, calm_window]|].
  - apply refines_on_rep. apply (refines_quorum_round ids ld ok rf m (Window t)); [exact HR|exact Hok].
  - intros s' x' ev _ _ [[(Hc & _ & Hb) _] Hl]. split_and!; [|done|by eapply underway_quiet|apply Hl].
    destruct Hu as [Hs <-]. eapply backed_later; [exact Hs|apply later_refl|exact Hb].
Qed.

Lemma refines_heartbeat_round rf s x :
  RH x s → underway x →
  refinesH s (heartbeat_round rf) (λ x' _ r, backed ids (heard_by start r0 x'.(hb_rep)) r0 r.(hr_evidence)
    ∧ current x'.(hb_rep) ∧ underway x') x.
Proof.
  intros HR Hu. unfold heartbeat_round. cbv zeta. apply refines_gets, refines_beat_id, refines_beat_read, refines_beat_read.
  eapply (refines_bind _ _ _ _ _ _ _ (λ x' _ _, underway x')).
  { destruct (negb _); simpl; [|by apply refines_ret]. eapply refines_weaken; [by apply refines_beat_record|by intros ? ? ? _ _ (? & _)]. }
  intros s1 x1 _ _ HR1 Hu1.
  eapply refines_bind; [apply refines_beat; [done|apply quiet_run_until|]|].
  { eapply refines_weaken; [apply (refines_on_cluster _ _ _ _ _ (λ _ _ _, True)); [exact HR1|apply moves_run_until|]|done].
    eapply safely_any, raft_safely_run_until; [done|done|apply Hok; unfold round_errors; set_solver..|exact (proj1 HR1)]. }
  intros s2 x2 _ _ HR2 (Hu2 & _). apply wp_bind, wp_modify. apply refines_beat_read.
  eapply refines_bind; [by apply refines_beat_record|]. intros s3 x3 _ _ HR3 (Hu3 & _ & _).
  eapply refines_bind.
  { eapply refines_try; [by apply refines_window|]. intros s4 x4 e _ HR4 He _.
    assert (∀ s' x', RH x' s' → refinesH s' (rethrow e : HM LeaderQuorumEvidence)
      (λ x' _ ev, backed ids (heard_by start r0 x'.(hb_rep)) r0 ev ∧ current x'.(hb_rep)
        ∧ underway x' ∧ later x3.(hb_rep).(cluster) x'.(hb_rep).(cluster)) x') as Hre
      by (intros s' x' HR'; unfold refines, wp, rethrow; split; [by exists s'|done]).
    destruct (is_liveness_error e); [|by apply Hre]. apply refines_beat_read, refines_beat_read.
    eapply refines_bind; [|intros s5 x5 a _ HR5 _; by apply Hre].
    eapply refines_weaken; [apply refines_on_rep; by apply refines_record|done]. }
  intros s4 x4 ev _ HR4 (Hb & Hc & Hu4 & _). apply refines_beat_read.
  eapply refines_bind; [apply refines_and; [by apply refines_beat_record|]|].
  { apply (wp_on_rep _ (λ x' _, current x'.(hb_rep))). eapply wp_mono; [by apply (wp_rep_record _ _ (λ _ _, True))| |done].
    intros st' a (_ & Hn & Hs & _). by eapply current_same. }
  intros s5 x5 _ _ HR5 [(Hu5 & _ & Hl) Hc5]. apply wp_bind, wp_modify. apply refines_ret; [done|]. simpl.
  split_and!; [by eapply backed_later|done..].
Qed.

(** The rounds of a run are each backed by a majority. *)
Lemma refines_heartbeat_rounds rf k s x :
  RH x s → underway x →
  refinesH s (heartbeat_rounds rf k) (λ x' _ rs,
    Forall (λ r, backed ids (heard_by start r0 x'.(hb_rep)) r0 r.(hr_evidence)) rs
    ∧ (current x.(hb_rep) ∨ k ≠ 0%nat → current x'.(hb_rep)) ∧ underway x') x.
Proof.
  revert s x. induction k as [|k IH]; intros s x HR Hu; simpl; [apply refines_ret; [done|]; split_and!; [done|by intros [?|?]|done]|].
  eapply refines_bind; [by apply refines_heartbeat_round|]. intros s1 x1 r _ HR1 (Hb & Hc & Hu1).
  eapply refines_bind; [apply refines_and; [by apply IH|apply wp_calm, calm_rounds]|].
  intros s2 x2 rs _ HR2 [(Hrs & Hk & Hu2) [Hl Hs]]. apply refines_ret; [done|]. split_and!; [|intros _|done].
  - constructor; [by eapply backed_later|done].
  - apply Hk. by left.
Qed.
End round.

Lemma refines_run_heartbeats rf c rounds s st :
  RRep ids ld st s →
  refinesR s (with_controller c (run_heartbeats rf rounds)) (λ st' _ rs,
    Forall (λ r, backed ids (heard_by (length (trace_of st.(cluster))) st.(self) st') st.(self) r.(hr_evidence)) rs ∧ current st') st.
Proof.
  intros HR. set (x := mkHeartbeatWorld st c).
  assert (refinesH s (run_heartbeats rf rounds) (λ x' _ rs,
    Forall (λ r, backed ids (heard_by (length (trace_of st.(cluster))) st.(self) x'.(hb_rep)) st.(self) r.(hr_evidence)) rs
    ∧ current x'.(hb_rep)) x) as Hrun.
  { apply refines_check; [done|by intros _; apply (Hok ValueError); [unfold round_errors; set_solver|]|].
    intros Hr%Z.leb_gt. eapply refines_weaken; [by apply refines_heartbeat_rounds|].
    intros s' x' rs _ _ (Hrs & Hc & _). split; [exact Hrs|]. apply Hc. right. lia. }
  unfold refines, wp, with_controller in *. fold x. by destruct (run_heartbeats rf rounds x) as [x' [e|rs]].
Qed.
End with_ids.

Lemma quiet_with_controller {A} c (k : HM A) : calm k → quiet (with_controller c k).
Proof. intros Hk st. apply (Hk (mkHeartbeatWorld st c)). Qed.

Lemma quiet_run_heartbeats rf c rounds : quiet (with_controller c (run_heartbeats (C := C) rf rounds)).
Proof. apply quiet_with_controller, calm_run. Qed.
End beats.
#[export] Hint Resolve quiet_run_heartbeats : distlab.
