(* ===== verification/Driver.v ===== *)
(** * Driver: a Raft cluster with the modules that drive its leaders

    The calls a client makes of [raft.py], [commit_recovery.py],
    [replication.py], [leader_liveness.py] and [heartbeat.py], on one cluster
    and any number of replicators, which are objects beside it.  A driven cluster is one whose callers keep to the
    leader's log: entries enter through [append_current_term_barrier], and what
    is sent by hand is the sender's own ([disciplined]). *)

From S2P Require Import Prelude Simulator LogIndex Raft RaftSafe Replication LeaderLiveness.

Section driver.
Context {C : Type} `{EqDecision C}.
Implicit Types (n peer : string).

Record DriveWorld := mkDriveWorld {
  dw_cluster : World (RaftSig (C := C));
  dw_replicators : list LeaderReplicator;
}.

Abbreviation DM := (M DriveWorld).

Definition of_cluster {A} (m : M (World (RaftSig (C := C))) A) : DM A := λ d,
  let r := m d.(dw_cluster) in (mkDriveWorld r.1 d.(dw_replicators), r.2).

(** A method of the replicator at position [i] *)
Definition of_replicator {A} (i : nat) (m : M (RepWorld (C := C)) A) : DM A := λ d,
  match d.(dw_replicators) !! i with
  | None => (d, inl (Exn KeyError "replicator"))
  | Some r =>
      let x := m (mkRepWorld d.(dw_cluster) r) in
      (mkDriveWorld x.1.(cluster) (<[i := x.1.(self)]> d.(dw_replicators)), x.2)
  end.

Definition add_replicator n : DM unit :=
  let! n := of_cluster (node n) in
  let! r := of_cluster (new_LeaderReplicator n) in
  modify (λ d, mkDriveWorld d.(dw_cluster) (d.(dw_replicators) ++ [r])).

Inductive drive_op :=
  | DCall (o : raft_op (C := C))
  | DBarrier n (command : C)
  | DNew n
  | DReplicate (i rf fuel : nat) peer (max_attempts : option Z)
  | DRecover (i rf fuel : nat) peer (max_attempts : option Z)
  | DAdvanceCommit (i : nat)
  | DProbe (i rf : nat) peer
  | DBeginProbe (i : nat) peer
  | DFinishProbe (i : nat) (probe : PeerActivityProbe)
  | DCheckQuorum (i rf : nat) (m : LeaderQuorumMonitor) (c : CheckCall)
  | DHeartbeat (i rf : nat) (c : LeaderHeartbeatController) (rounds : Z).

Definition exec_drive (o : drive_op) : DM unit :=
  match o with
  | DCall o => of_cluster (exec_op o)
  | DBarrier n c => of_cluster (let! n := node n in append_current_term_barrier n c ;; ret tt)
  | DNew n => add_replicator n
  | DReplicate i rf fuel peer k => of_replicator i (replicate rf fuel peer k ;; ret tt)
  | DRecover i rf fuel peer k => of_replicator i (recover_peer rf fuel peer k ;; ret tt)
  | DAdvanceCommit i => of_replicator i (rep_advance_commit_index ;; ret tt)
  | DProbe i rf peer => of_replicator i (probe_activity rf peer ;; ret tt)
  | DBeginProbe i peer => of_replicator i (begin_activity_probe peer ;; ret tt)
  | DFinishProbe i probe => of_replicator i (finish_activity_probe probe ;; ret tt)
  | DCheckQuorum i rf m c => of_replicator i (quorum_round rf m c ;; ret tt)
  | DHeartbeat i rf c rounds => of_replicator i (with_controller c (run_heartbeats rf rounds) ;; ret tt)
  end.

Definition drive_ok (d : DriveWorld) (o : drive_op) : Prop :=
  match o with DCall o => op_wf o ∧ disciplined d.(dw_cluster) o | _ => True end.

(** One call, or a reboot of the cluster over its disks, which loses every
    replicator. *)
Inductive drive_next ids ts (d : DriveWorld) : DriveWorld → Prop :=
  | drive_call o d' r : drive_ok d o → exec_drive o d = (d', r) → drive_next ids ts d d'
  | drive_reboot plan w' :
      init_cluster ids ts (boot_world plan d.(dw_cluster).(sim).(persistent_state)) = (w', inr tt) →
      drive_next ids ts d (mkDriveWorld w' []).

Inductive driven ids ts : DriveWorld → Prop :=
  | driven_init plan w :
      init_cluster ids ts (boot_world plan ∅) = (w, inr tt) → driven ids ts (mkDriveWorld w [])
  | driven_next d d' : driven ids ts d → drive_next ids ts d d' → driven ids ts d'.

(** What a node takes for committed *)
Definition committed_log (w : World (RaftSig (C := C))) n : list (LogEntry C) :=
  take (Z.to_nat (vol w n).(commit_index)) (dur w n).(log).
End driver.
