(* ===== verification/DriverRefine.v ===== *)
(** * DriverRefine: driven clusters refine the specification of replicated logs

    Every call of a driven cluster takes steps of [RaftSpec.spec_step] with the
    log discipline on, and raises only what [drive_errors] lists. *)

From stdpp Require Import relations.
From S2P Require Import Prelude Simulator SimFacts Quorum LogIndex RaftSpec Refinement Raft RaftRefine RaftSafe.
From S2P Require Import RaftMono Replication ReplicationRefine LeaderLiveness Driver ReplicationMono.

Section refinement.
Context {C : Type} `{EqDecision C} (ids : list string) (ts : option (gmap string Z)) {may : C → Prop}.
Implicit Types (d : DriveWorld (C := C)) (s : Spec C) (n peer : string).
Local Abbreviation quorum := (majority ids).
Local Abbreviation steps := (rtc (spec_step quorum true may)).
Local Abbreviation Ra := (Ra (C := C) true ids ids).

Definition D d s : Prop :=
  Ra d.(dw_cluster) s ∧ ∀ i r, d.(dw_replicators) !! i = Some r →
    rep_ok ids r.(leader) s r ∧ rep_tracks d.(dw_cluster) r.

Section calls.
Context (ok : exn → Prop).
Local Abbreviation refinesD := (refines (spec_step quorum true may) D ok).
Local Abbreviation safelyD := (safely (spec_step quorum true may) D ok).

Lemma reps_ok_mono d s w' s' :
  D d s → steps s s' → later d.(dw_cluster) w' → ∀ i r, d.(dw_replicators) !! i = Some r →
  rep_ok ids r.(leader) s' r ∧ rep_tracks w' r.
Proof.
  intros [HR Hr] Hs Hl i r Hi. destruct (Hr i r Hi) as [Hok Ht]. split.
  - eapply rep_ok_mono; [exact (Ra_inv _ _ _ HR)|done..].
  - by eapply tracks_later.
Qed.

Lemma refines_of_cluster {A} s (m : M _ A) (Q : _ → _ → A → Prop) d :
  D d s → moves m → refines (spec_step quorum true may) Ra ok s m Q d.(dw_cluster) →
  refinesD s (of_cluster m) (λ d' s' a, Q d'.(dw_cluster) s' a) d.
Proof.
  intros HD Hmv Hm. unfold of_cluster, refines, wp in *. specialize (Hmv (dw_cluster d)).
  destruct (m (dw_cluster d)) as [w' [e|a]]; simpl.
  - destruct Hm as [(s' & Hs & HR') Hok]. split; [|done]. exists s'. split; [done|]. split; [done|].
    by apply (reps_ok_mono d s w' s').
  - destruct Hm as (s' & Hs & HR' & HQ). exists s'. split; [done|]. split; [|done]. split; [done|].
    by apply (reps_ok_mono d s w' s').
Qed.

Lemma safely_of_cluster {A} s (m : M _ A) d :
  D d s → moves m → safely (spec_step quorum true may) Ra ok s m d.(dw_cluster) → safelyD s (of_cluster m) d.
Proof. intros HD Hmv Hm. by apply (refines_of_cluster _ _ (λ _ _ _, True)). Qed.

Lemma refines_of_replicator {A} s i (m : M _ A) (Q : _ → _ → A → Prop) d :
  D d s → allows ok KeyError → grows m →
  (∀ r, d.(dw_replicators) !! i = Some r → RRep ids r.(leader) (mkRepWorld d.(dw_cluster) r) s →
     refines (spec_step quorum true may) (RRep ids r.(leader)) ok s m Q (mkRepWorld d.(dw_cluster) r)) →
  refinesD s (of_replicator i m) (λ d' s' a, ∃ r', d'.(dw_replicators) !! i = Some r'
    ∧ Q (mkRepWorld d'.(dw_cluster) r') s' a) d.
Proof.
  intros HD Hok Hmv Hm. unfold of_replicator, refines, wp in *.
  destruct (dw_replicators d !! i) as [r|] eqn:Hi.
  2:{ split; [by exists s|by apply Hok]. }
  destruct (proj2 HD i r Hi) as [Hr Ht]. pose proof (gr_later _ _ (Hmv (mkRepWorld d.(dw_cluster) r))) as Hlat.
  clear Hmv.
  assert (∀ s' (x : RepWorld (C := C)), later d.(dw_cluster) x.(cluster) → steps s s' → RRep ids (leader r) x s' →
    D (mkDriveWorld (cluster x) (<[i := self x]> (dw_replicators d))) s') as HD'.
  { intros s' x Hl Hs (HR' & Hr' & Ht'). split; [done|]. intros j q. simpl.
    intros [(<- & <- & _)|[_ Hj]]%list_lookup_insert_Some.
    - by rewrite (ro_leader _ _ _ _ Hr').
    - by eapply (reps_ok_mono d s). }
  specialize (Hm r eq_refl (conj (proj1 HD) (conj Hr Ht))). destruct (m _) as [x [e|a]]; simpl in *.
  - destruct Hm as [(s' & Hs & HR') He]. split; [|done]. exists s'. split; [done|]. by apply HD'.
  - destruct Hm as (s' & Hs & HR' & HQ). exists s'. split; [done|]. split; [by apply HD'|].
    exists x.(self). split; [|by destruct x]. apply list_lookup_insert_eq. by eapply lookup_lt_Some.
Qed.

Lemma safely_of_replicator {A} s i (m : M _ A) d :
  D d s → allows ok KeyError → grows m →
  (∀ r, d.(dw_replicators) !! i = Some r → RRep ids r.(leader) (mkRepWorld d.(dw_cluster) r) s →
     safely (spec_step quorum true may) (RRep ids r.(leader)) ok s m (mkRepWorld d.(dw_cluster) r)) →
  safelyD s (of_replicator i m) d.
Proof. intros HD Hok Hmv Hm. eapply refines_weaken; [by apply refines_of_replicator|done]. Qed.

Lemma refines_driven_node {B} n s d (k : string → M _ B) Q :
  D d s → allows ok KeyError → (n ∈ ids → refinesD s (k n) Q d) →
  refinesD s (bind (of_cluster (node n)) k) Q d.
Proof.
  intros HD Hok Hk. unfold refines, wp, bind at 1, of_cluster, node. unfold bind, gets.
  rewrite (raft_member_ids _ _ _ _ _ _ _ _ (proj1 HD)). case_bool_decide as Hn; simpl.
  - destruct d. by apply Hk.
  - split; [exists s; by destruct d|by apply Hok].
Qed.

Lemma safely_add_replicator n s d :
  D d s → allows ok KeyError → allows ok ReplicationError → safelyD s (add_replicator n) d.
Proof.
  intros HD Hk Hr. apply refines_driven_node; [done..|intros Hn].
  eapply refines_bind.
  { apply (refines_of_cluster _ _ (λ w' s' r, rep_ok ids n s' r ∧ rep_tracks w' r)); [done|auto with distlab|].
    apply refines_new_replicator; [apply HD|done..]. }
  intros s1 d1 r _ HD1 [Hrep Htr]. simpl in Hrep. exists s1. split; [done|]. split; [|done].
  split; [apply HD1|]. simpl. intros i q [Hi|[_ Hi]]%lookup_app_Some; [by eapply (proj2 HD1)|].
  apply list_lookup_singleton_Some in Hi as [_ <-]. by rewrite (ro_leader _ _ _ _ Hrep).
Qed.
End calls.

(** The exceptions each call may raise. *)
Definition drive_errors (o : drive_op (C := C)) : list exn_class :=
  match o with
  | DCall o => filter (λ c, c ≠ LogMatchingViolation) (op_errors o)
  | DBarrier _ _ => [KeyError; CommitRecoveryError]
  | DNew _ => [KeyError; ReplicationError]
  | DAdvanceCommit _ => [KeyError; ReplicationError]
  | DBeginProbe _ _ | DFinishProbe _ _ => [KeyError; ValueError; ReplicationError]
  | DReplicate _ _ _ _ _ | DRecover _ _ _ _ _ =>
      [KeyError; ValueError; ReplicationError; ReplicationResponseMissing; OutOfFuel]
  | DProbe _ _ _ => [KeyError; ValueError; ReplicationError; OutOfFuel]
  | DCheckQuorum _ _ _ _ | DHeartbeat _ _ _ _ => KeyError :: round_errors
  end.

Definition drive_errs (o : drive_op (C := C)) (e : exn) : Prop := exn_cls e ∈ drive_errors o.

Lemma drive_allows o c : c ∈ drive_errors o → allows (drive_errs o) c.
Proof. intros Hc e He. unfold drive_errs. by rewrite He. Qed.

(** A wider set of exceptions *)
Lemma safely_errors {W S A} (step : S → S → Prop) (R : W → S → Prop) (ok ok' : exn → Prop) (m : M W A) w (s : S) :
  (∀ e, ok e → ok' e) → safely step R ok s m w → safely step R ok' s m w.
Proof. intros Hok Hm. eapply wp_mono; [exact Hm|done|]. intros w' e [? ?]. auto. Qed.

(** The commands callers append *)
Definition drive_may (o : drive_op (C := C)) : Prop :=
  match o with DBarrier _ c => may c | _ => True end.

Lemma safely_exec_drive o d s :
  D d s → drive_ok d o → drive_may o → safely (spec_step quorum true may) D (drive_errs o) s (exec_drive o) d.
Proof.
  intros HD Hwf Hmay.
  assert (∀ c, c ∈ drive_errors o → allows (drive_errs o) c) as Hok by apply drive_allows.
  destruct o as [o|n c|n|i rf fuel peer k|i rf fuel peer k|i|i rf peer|i peer|i probe|i rf m c|i rf c rounds]; simpl in *.
  - destruct Hwf as [Hwf Hdis]. apply safely_of_cluster; [done|auto with distlab|].
    eapply safely_errors; [|apply (raft_safely_exec_op true ids ids o); [done|apply HD|done|done]].
    intros e [He Hne]. apply list_elem_of_filter. by split; [apply Hne|].
  - apply safely_of_cluster; [done|auto with distlab|].
    apply (raft_refines_node true ids ids); [apply HD|apply Hok; set_solver|intros Hn].
    apply safely_unit, safely_barrier; [apply HD|apply Hok; set_solver|done].
  - apply safely_add_replicator; [done|apply Hok; set_solver..].
  - apply safely_of_replicator; [done|apply Hok; set_solver|auto with distlab|intros r Hr HR].
    apply safely_unit. eapply refines_weaken; [apply refines_replicate; [apply Hok; set_solver..|done]|done].
  - apply safely_of_replicator; [done|apply Hok; set_solver|auto with distlab|intros r Hr HR].
    apply safely_unit. eapply refines_weaken; [apply refines_recover_peer; [apply Hok; set_solver..|done]|done].
  - apply safely_of_replicator; [done|apply Hok; set_solver|auto with distlab|intros r Hr HR].
    apply safely_unit. eapply refines_weaken; [apply refines_rep_advance; [done|apply Hok; set_solver]|done].
  - apply safely_of_replicator; [done|apply Hok; set_solver|auto with distlab|intros r Hr HR].
    apply safely_unit, safely_probe_activity; [apply Hok; set_solver..|done].
  - apply safely_of_replicator; [done|apply Hok; set_solver|auto with distlab|intros r Hr HR].
    apply safely_unit, safely_begin_probe; [apply Hok; set_solver..|done].
  - apply safely_of_replicator; [done|apply Hok; set_solver|auto with distlab|intros r Hr HR].
    apply safely_unit, safely_finish_probe; [apply Hok; set_solver..|done].
  - apply safely_of_replicator; [done|apply Hok; set_solver|auto with distlab|intros r Hr HR].
    apply safely_unit. eapply refines_weaken; [apply refines_quorum_round; [done|]|done]. intros x Hx. apply Hok. by right.
  - apply safely_of_replicator; [done|apply Hok; set_solver|auto with distlab|intros r Hr HR].
    apply safely_unit. eapply refines_weaken; [apply refines_run_heartbeats; [|done]|done]. intros x Hx. apply Hok. by right.
Qed.

End refinement.

(** ** Driven clusters move forward *)

Section moving.
Context {C : Type} `{EqDecision C}.
Implicit Types (d : DriveWorld (C := C)).

Lemma later_of_cluster {A} (m : M _ A) d : moves m → later d.(dw_cluster) (of_cluster m d).1.(dw_cluster).
Proof. intros Hm. apply Hm. Qed.

Lemma later_of_replicator {A} i (m : M _ A) d : grows m → later d.(dw_cluster) (of_replicator i m d).1.(dw_cluster).
Proof.
  intros Hm. unfold of_replicator. destruct (dw_replicators d !! i) as [r|]; [|apply later_refl].
  apply (gr_later _ _ (Hm (mkRepWorld d.(dw_cluster) r))).
Qed.

Lemma later_exec_drive o d : later d.(dw_cluster) (exec_drive o d).1.(dw_cluster).
Proof.
  destruct o; simpl; try (by apply later_of_replicator; auto with distlab); try (by apply later_of_cluster; auto with distlab).
  unfold add_replicator, bind at 1. pose proof (later_of_cluster (node n) d ltac:(auto with distlab)) as Hl.
  destruct (of_cluster (node n) d) as [d1 [e|x]]; [done|]. eapply later_trans; [exact Hl|]. simpl in *.
  unfold bind. pose proof (later_of_cluster (new_LeaderReplicator x) d1 ltac:(auto with distlab)) as Hl1.
  by destruct (of_cluster (new_LeaderReplicator x) d1) as [d2 [e|r]].
Qed.

Lemma driven_traced ids ts d : driven ids ts d → traced d.(dw_cluster).
Proof.
  induction 1 as [plan w Hw|d d' _ IH [o d1 r _ Ho|plan w' Hi]]; simpl; [by eapply traced_boot| |by eapply traced_boot].
  pose proof (la_traced _ _ (later_exec_drive o d) IH) as Ht. by rewrite Ho in Ht.
Qed.
End moving.

(** ** Any commands *)

Section driven.
Context {C : Type} `{EqDecision C} (ids : list string) (ts : option (gmap string Z)).
Implicit Types (d : DriveWorld (C := C)) (s : Spec C).
Local Abbreviation quorum := (majority ids).
Local Abbreviation steps := (rtc (spec_step quorum true any_command)).

Lemma drive_may_any (o : drive_op (C := C)) : drive_may (may := any_command) o.
Proof. by destruct o. Qed.

Lemma drive_next_D d d' s :
  ids ≠ [] → NoDup ids → timeouts_ok ids ts → D ids d s → drive_next ids ts d d' →
  ∃ s', steps s s' ∧ D ids d' s'.
Proof.
  intros Hne Hnd Hts HD [o d1 r Hwf Ho|plan w' Hi].
  - pose proof (safely_exec_drive (may := any_command) ids o d s HD Hwf (drive_may_any o)) as Hwp. unfold safely, refines, wp in Hwp. rewrite Ho in Hwp.
    destruct r as [e|[]]; [destruct Hwp as [(s' & ? & ?) _]|destruct Hwp as (s' & ? & ? & _)]; by exists s'.
  - pose proof (raft_wp_init_cluster true ids ts plan _ s Hne Hnd Hts
      (raft_R_boot _ _ _ _ _ _ plan _ _ (proj1 HD))) as Hwp.
    unfold wp in Hwp. rewrite Hi in Hwp. destruct Hwp as [HR' _]. exists s. split; [done|]. by split.
Qed.

Lemma drive_nexts_D d d' s :
  ids ≠ [] → NoDup ids → timeouts_ok ids ts → D ids d s → rtc (drive_next ids ts) d d' →
  ∃ s', steps s s' ∧ D ids d' s'.
Proof.
  intros Hne Hnd Hts HD Hn. revert s HD. induction Hn as [|d d1 d' Hn _ IH]; intros s HD; [by exists s|].
  destruct (drive_next_D _ _ _ Hne Hnd Hts HD Hn) as (s1 & Hs1 & HD1).
  destruct (IH s1 HD1) as (s2 & Hs2 & HD2). exists s2. split; [by etrans|done].
Qed.

Lemma driven_D d :
  driven ids ts d →
  ids ≠ [] ∧ NoDup ids ∧ timeouts_ok ids ts ∧ ∃ s, steps spec0 s ∧ D ids d s.
Proof.
  induction 1 as [plan w Hw|d d' Hd IH Hn].
  - destruct (init_cluster_checks _ _ _ _ Hw) as (Hne & Hnd & Hts). split_and!; [done..|].
    pose proof (raft_wp_init_cluster (C := C) true ids ts plan ∅ _ Hne Hnd Hts (raft_R_empty _ _ _ plan)) as Hwp.
    unfold wp in Hwp. rewrite Hw in Hwp. destruct Hwp as [HR _]. exists spec0. split; [done|]. by split.
  - destruct IH as (Hne & Hnd & Hts & s & Hs & HD). split_and!; [done..|].
    destruct (drive_next_D _ _ _ Hne Hnd Hts HD Hn) as (s' & Hs' & HD'). exists s'. split; [by etrans|done].
Qed.
End driven.
