(* ===== verification/RaftProperties.v ===== *)
(** * RaftProperties: what [raft.py] guarantees

    The statements are about durable dictionaries, roles and the cluster's
    tables; [RaftRefine] and [RaftSafe] supply the simulation behind them.
    Worlds are reached by any calls, crashes and deliveries, and by reboots of
    the whole cluster over its disks. *)

From stdpp Require Import relations.
From S2P Require Import Prelude Simulator SimFacts Quorum LogIndex RaftSpec Refinement Raft RaftRefine RaftSafe.

Section properties.
Context {C : Type} `{EqDecision C}.
Implicit Types (w : World (RaftSig (C := C))) (n : string) (ids : list string).

(** [n] is in the leader role of term [t]. *)
Definition leads w n (t : Z) : Prop := (vol w n).(role) = LEADER ∧ (dur w n).(current_term) = t.

(** [a] has voted for [c] in term [t], or can no longer vote in it. *)
Definition committed_to w (t : Z) (c a : string) : Prop :=
  t < (dur w a).(current_term) ∨ ((dur w a).(current_term) = t ∧ (dur w a).(voted_for) = Some c).

#[global] Instance committed_to_dec w t c a : Decision (committed_to w t c a).
Proof. unfold committed_to. apply _. Defined.

Definition supporters ids w (t : Z) (c : string) : gset string :=
  filter (committed_to w t c) (list_to_set ids).

(** One call, or a reboot of every node over the disks. *)
Inductive next ids ts w : World (RaftSig (C := C)) → Prop :=
  | next_call o w' r : op_wf o → exec_op o w = (w', r) → next ids ts w w'
  | next_reboot plan w' :
      init_cluster ids ts (boot_world plan w.(sim).(persistent_state)) = (w', inr tt) →
      next ids ts w w'.

Lemma raft_next_R ids ts w w' s :
  ids ≠ [] → NoDup ids → timeouts_ok ids ts → Ra false ids ids w s → next ids ts w w' →
  ∃ s', rtc (spec_step (majority ids) false any_command) s s' ∧ Ra false ids ids w' s'.
Proof.
  intros Hne Hnd Hts HR [o w1 r Hwf Ho|plan w1 Hi].
  - pose proof (raft_safely_exec_op (may := any_command) false ids ids o w s ltac:(done) HR Hwf ltac:(done)) as Hwp.
    unfold safely, refines, wp in Hwp. rewrite Ho in Hwp.
    destruct r as [e|[]]; [destruct Hwp as [(s' & ? & ?) _]|destruct Hwp as (s' & ? & ? & _)];
      by exists s'.
  - pose proof (raft_wp_init_cluster false ids ts plan _ s Hne Hnd Hts (raft_R_boot _ _ _ _ _ _ plan _ _ HR)) as Hwp.
    unfold wp in Hwp. rewrite Hi in Hwp. destruct Hwp as [HR' _]. by exists s.
Qed.

Lemma raft_nexts_R ids ts w w' s :
  ids ≠ [] → NoDup ids → timeouts_ok ids ts → Ra false ids ids w s → rtc (next ids ts) w w' →
  ∃ s', rtc (spec_step (majority ids) false any_command) s s' ∧ Ra false ids ids w' s'.
Proof.
  intros Hne Hnd Hts HR Hn. revert s HR. induction Hn as [|w w1 w' Hn _ IH]; intros s HR; [by exists s|].
  destruct (raft_next_R _ _ _ _ _ Hne Hnd Hts HR Hn) as (s1 & Hs1 & HR1).
  destruct (IH s1 HR1) as (s2 & Hs2 & HR2). exists s2. split; [by etrans|done].
Qed.

Lemma raft_leads_recorded ids w s n t :
  Ra false ids ids w s → leads w n t →
  w.(objs).(leaders_by_term) !! t = Some n
  ∧ ∃ g, w.(objs).(active_leader_generations) !! n = Some (t, g).
Proof.
  intros HR [Hr <-]. pose proof (R_role _ _ _ _ _ _ _ HR n ltac:(done)) as Hok.
  unfold role_ok in Hok. rewrite Hr in Hok. by destruct Hok as (? & _ & ? & _).
Qed.

(** C4: Election Safety, across the whole history of the disks: two nodes
    that are ever in the leader role of the same term, at the same time or
    with any calls, crashes and reboots between, are the same node. *)
Theorem raft_election_safety ids ts w w' n n' t :
  reachable ids ts w → rtc (next ids ts) w w' → leads w n t → leads w' n' t → n' = n.
Proof.
  intros (Hne & Hnd & Hts & s & _ & HR)%raft_reachable_follows Hn Hl Hl'.
  destruct (raft_nexts_R _ _ _ _ _ Hne Hnd Hts HR Hn) as (s' & Hs & HR').
  destruct (raft_leads_recorded _ _ _ _ _ HR Hl) as [Ht _].
  destruct (raft_leads_recorded _ _ _ _ _ HR' Hl') as [Ht' _].
  apply (R_leaders _ _ _ _ _ _ _ HR) in Ht. apply (R_leaders _ _ _ _ _ _ _ HR') in Ht'.
  apply (spec_steps_elected (majority ids) false (may := any_command) s s') in Ht; [congruence|apply HR|done].
Qed.

(** A call raises only what its arguments or the state of its node
    provoke, and a delivery only [LogMatchingViolation] (callers may send
    entries of their own); [ElectionSafetyViolation], [TypeError] and
    [IndexError] are never raised. *)
Theorem raft_call_errors ids ts w o w' e :
  reachable (C := C) ids ts w → op_wf o → exec_op o w = (w', inl e) → exn_cls e ∈ op_errors o.
Proof.
  intros (_ & _ & _ & s & _ & HR)%raft_reachable_follows Hwf Ho.
  pose proof (raft_safely_exec_op (may := any_command) false ids ids o w s ltac:(done) HR Hwf ltac:(done)) as Hwp.
  unfold safely, refines, wp in Hwp. rewrite Ho in Hwp. by destruct Hwp as [_ [? _]].
Qed.

(** Durable state: a node's term never goes down and its vote in a term
    is never changed or withdrawn, whatever is called, reboots included. *)
Theorem raft_term_vote_final ids ts w w' n :
  reachable ids ts w → next ids ts w w' →
  (dur w n).(current_term) ≤ (dur w' n).(current_term)
  ∧ (∀ c, (dur w' n).(current_term) = (dur w n).(current_term) →
       (dur w n).(voted_for) = Some c → (dur w' n).(voted_for) = Some c).
Proof.
  intros (Hne & Hnd & Hts & s & _ & HR)%raft_reachable_follows Hn.
  destruct (raft_next_R _ _ _ _ _ Hne Hnd Hts HR Hn) as (s' & Hs & HR').
  pose proof (R_dur _ _ _ _ _ _ _ HR n) as Hd. pose proof (R_dur _ _ _ _ _ _ _ HR' n) as Hd'. split.
  - rewrite <-(rd_known _ _ _ _ Hd), <-(rd_known _ _ _ _ Hd'). by eapply (steps_terms (majority ids) false).
  - intros c Ht Hv%(rd_vote _ _ _ _ Hd). apply (rd_cast _ _ _ _ Hd' (current_term (dur w n))); [|done].
    eapply (spec_steps_cast (majority ids) false); [apply HR|done..].
Qed.

(** Every leader the cluster has recorded holds a majority, each node of
    which voted for it in its term or has moved on to a later one. *)
Theorem raft_leader_backed ids ts w n t :
  reachable ids ts w → w.(objs).(leaders_by_term) !! t = Some n →
  quorum_size ids ≤ Z.of_nat (size (supporters ids w t n)).
Proof.
  intros (_ & _ & _ & s & _ & HR)%raft_reachable_follows Hl.
  pose proof (ei_elected _ _ (si_election _ _ _ (R_inv _ _ _ _ _ _ _ HR)) _ _ (R_leaders _ _ _ _ _ _ _ HR _ _ Hl))
    as (Q & [Hsub Hsize] & HQ).
  assert (Q ⊆ supporters ids w t n) as Hle%subseteq_size; [|lia].
  intros a Ha. unfold supporters. apply elem_of_filter. split; [|by apply Hsub].
  destruct (rd_cast _ _ _ _ (R_dur _ _ _ _ _ _ _ HR a) _ _ (HQ a Ha)) as [Hle Heq].
  unfold committed_to. destruct (decide (current_term (dur w a) = t)) as [Ht|]; [right; auto|left; lia].
Qed.

(** A node in the leader role is the recorded leader of its term and owns
    an active leadership generation for it; no generation is owned twice, and
    none is beyond the counter. *)
Theorem raft_leader_generation ids ts w n :
  reachable ids ts w → (vol w n).(role) = LEADER →
  w.(objs).(leaders_by_term) !! (dur w n).(current_term) = Some n
  ∧ ∃ g, w.(objs).(active_leader_generations) !! n = Some ((dur w n).(current_term), g)
    ∧ 1 ≤ g ≤ w.(objs).(leadership_generation)
    ∧ ∀ n' t', w.(objs).(active_leader_generations) !! n' = Some (t', g) → n' = n.
Proof.
  intros (_ & _ & _ & s & _ & HR)%raft_reachable_follows Hr.
  destruct (raft_leads_recorded _ _ _ n _ HR (conj Hr eq_refl)) as (Hl & g & Hg).
  split; [done|]. exists g. split_and!; [done|by eapply R_generation..|].
  intros n' t' Hn'. by eapply R_distinct.
Qed.

(** A reboot over the disks of a reachable world succeeds: every node
    comes back a follower with its durable state as it was, and no leader. *)
Theorem raft_reboot ids ts w plan :
  reachable ids ts w →
  ∃ w', init_cluster ids ts (boot_world plan w.(sim).(persistent_state)) = (w', inr tt)
    ∧ ∀ n, dur w' n = dur w n ∧ (vol w' n).(role) = FOLLOWER.
Proof.
  intros (Hne & Hnd & Hts & s & _ & HR)%raft_reachable_follows.
  pose proof (raft_wp_init_cluster false ids ts plan _ s Hne Hnd Hts (raft_R_boot _ _ _ _ _ _ plan _ _ HR)) as Hwp.
  unfold wp in Hwp. destruct (init_cluster ids ts _) as [w' [e|[]]]; [done|].
  exists w'. split; [done|]. intros n. apply Hwp.
Qed.
End properties.
