(* ===== verification/DriverProperties.v ===== *)
(** * DriverProperties: what replication guarantees

    Raft's promises for driven clusters, as statements about durable logs and
    commit indices: State Machine Safety, Leader Completeness, durability of
    what is committed, Log Matching and Leader Append-Only, and what the
    methods of a replicator raise and report. *)

From stdpp Require Import relations.
From S2P Require Import Prelude Simulator SimFacts Quorum LogIndex RaftSpec Refinement Raft RaftRefine RaftSafe RaftProperties.
From S2P Require Import RaftMono Replication ReplicationRefine LeaderLiveness Driver ReplicationMono DriverRefine.

Section properties.
Context {C : Type} `{EqDecision C}.
Implicit Types (d : DriveWorld (C := C)) (n : string) (ids : list string).
Local Abbreviation steps ids := (rtc (spec_step (majority ids) true any_command)).

(** Two moments of a driven cluster *)
Lemma driven_pair ids ts d d' :
  driven ids ts d → rtc (drive_next ids ts) d d' →
  ∃ s s', D ids d s ∧ steps ids s s' ∧ D ids d' s' ∧ spec_inv (majority ids) true s'.
Proof.
  intros (Hne & Hnd & Hts & s & _ & HD)%driven_D Hn.
  destruct (drive_nexts_D _ _ _ _ _ Hne Hnd Hts HD Hn) as (s' & Hs & HD').
  exists s, s'. split_and!; [done..|]. exact (Ra_inv _ _ _ (proj1 HD')).
Qed.

Lemma disc_log ids d s n :
  D ids d s → (dur d.(dw_cluster) n).(log) = nlog s n ∧ good s (nlog s n).
Proof. intros HD. by destruct (disc_good _ _ _ _ _ n _ _ (proj1 HD) eq_refl) as (_ & ? & ?). Qed.

Lemma committed_log_committed ids d s n :
  D ids d s → committed (majority ids) s (dur d.(dw_cluster) n).(current_term) (committed_log d.(dw_cluster) n).
Proof. intros HD. apply (R_commit _ _ _ _ _ _ _ (proj1 HD) n eq_refl). Qed.

(** A later moment still has it committed. *)
Lemma committed_log_later ids d s s' n :
  D ids d s → steps ids s s' →
  committed (majority ids) s' (dur d.(dw_cluster) n).(current_term) (committed_log d.(dw_cluster) n).
Proof.
  intros HD Hs. eapply (steps_committed (majority ids) true); [done|exact (Ra_inv _ _ _ (proj1 HD))|exact Hs|].
  by apply committed_log_committed.
Qed.

(** What is committed is in the logs of a majority. *)
Lemma committed_majority ids d s t p :
  ids ≠ [] → NoDup ids → D ids d s → committed (majority ids) s t p →
  ∃ Q, majority ids Q ∧ ∀ v, v ∈ Q → p `prefix_of` (dur d.(dw_cluster) v).(log).
Proof.
  intros Hne Hnd HD [->|(u & L & i & k & _ & Hc & HL & Hk & ->)].
  - exists (list_to_set ids). split; [|intros v _; apply prefix_nil]. split; [done|].
    rewrite size_list_to_set by done. unfold quorum_size, zlen.
    assert (length ids ≠ 0)%nat by (by destruct ids). pose proof (Z.div_lt (Z.of_nat (length ids)) 2). lia.
  - destruct Hc as (L' & Q & HL' & Hm & HQ & Hv). rewrite HL in HL'. injection HL' as <-. exists Q. split; [done|].
    intros v Hin. destruct (Hv v Hin) as (m & Him & Hack). rewrite (proj1 (disc_log _ _ _ v HD)).
    pose proof (Ra_inv _ _ _ (proj1 HD)) as Hi.
    destruct (li_ack _ _ (si_logs _ _ _ Hi eq_refl) _ _ _ Hack) as (_ & L0 & HL0 & _ & E).
    rewrite HL in HL0. injection HL0 as <-.
    assert (take i (nlog s v) = take i L) as Ei.
    { apply E; [done|]. apply (spec_chosen_choosable (majority ids)). by exists L, Q. }
    rewrite (take_le L (nlog s v) k i) by done. apply prefix_take.
Qed.

Lemma leader_llog ids d s n t :
  D ids d s → leads d.(dw_cluster) n t → s.(llogs) !! t = Some (dur d.(dw_cluster) n).(log).
Proof.
  intros HD [Hr <-]. pose proof (R_role _ _ _ _ _ _ _ (proj1 HD) n ltac:(done)) as Hrole.
  unfold role_ok in Hrole. rewrite Hr in Hrole. destruct Hrole as (_ & _ & _ & HL).
  rewrite (proj1 (disc_log _ _ _ n HD)). by apply HL.
Qed.

(** C3: State Machine Safety: what two nodes take for committed, at the same
    time or with any calls, crashes and reboots between, never disagrees: one is
    a prefix of the other. *)
Theorem raft_state_machine_safety ids ts d d' n n' :
  driven ids ts d → rtc (drive_next ids ts) d d' →
  committed_log d.(dw_cluster) n `prefix_of` committed_log d'.(dw_cluster) n'
  ∨ committed_log d'.(dw_cluster) n' `prefix_of` committed_log d.(dw_cluster) n.
Proof.
  intros Hd Hn. destruct (driven_pair _ _ _ _ Hd Hn) as (s & s' & HD & Hs & HD' & Hi).
  eapply (committed_agree (majority ids) true); [done|exact Hi| |].
  - by eapply committed_log_later.
  - by apply committed_log_committed.
Qed.

(** C5: Leader Completeness: whoever leads a term at or after the one in which
    a node took entries for committed has those entries in its log. *)
Theorem raft_leader_completeness ids ts d d' n n' t :
  driven ids ts d → rtc (drive_next ids ts) d d' → leads d'.(dw_cluster) n' t →
  (dur d.(dw_cluster) n).(current_term) ≤ t →
  committed_log d.(dw_cluster) n `prefix_of` (dur d'.(dw_cluster) n').(log).
Proof.
  intros Hd Hn Hl Ht. destruct (driven_pair _ _ _ _ Hd Hn) as (s & s' & HD & Hs & HD' & Hi).
  eapply (committed_leader (majority ids) true); [done|exact Hi| |exact Ht|by eapply leader_llog].
  by eapply committed_log_later.
Qed.

(** Durability: what a node took for committed is, from then on, in the
    durable logs of a majority. *)
Theorem raft_committed_durable ids ts d d' n :
  driven ids ts d → rtc (drive_next ids ts) d d' →
  ∃ Q, majority ids Q ∧ ∀ v, v ∈ Q →
    committed_log d.(dw_cluster) n `prefix_of` (dur d'.(dw_cluster) v).(log).
Proof.
  intros Hd Hn. destruct (driven_D _ _ _ Hd) as (Hne & Hnd & _).
  destruct (driven_pair _ _ _ _ Hd Hn) as (s & s' & HD & Hs & HD' & _).
  eapply committed_majority; [done..|]. by eapply committed_log_later.
Qed.

(** C27: Log Matching: logs that have entries of the same term at an index are
    the same up to it. *)
Theorem raft_log_matching ids ts d n n' (i : nat) e e' :
  driven ids ts d → (dur d.(dw_cluster) n).(log) !! i = Some e →
  (dur d.(dw_cluster) n').(log) !! i = Some e' → e.(le_term) = e'.(le_term) →
  take (S i) (dur d.(dw_cluster) n).(log) = take (S i) (dur d.(dw_cluster) n').(log).
Proof.
  intros (_ & _ & _ & s & _ & HD)%driven_D.
  destruct (disc_log _ _ _ n HD) as [-> Hg]. destruct (disc_log _ _ _ n' HD) as [-> Hg'].
  intros. by eapply good_agree.
Qed.

(** Leader Append-Only: as long as it leads one term, a leader's log is
    only ever appended to. *)
Theorem raft_leader_append_only ids ts d d' n t :
  driven ids ts d → rtc (drive_next ids ts) d d' → leads d.(dw_cluster) n t → leads d'.(dw_cluster) n t →
  (dur d.(dw_cluster) n).(log) `prefix_of` (dur d'.(dw_cluster) n).(log).
Proof.
  intros Hd Hn Hl Hl'. destruct (driven_pair _ _ _ _ Hd Hn) as (s & s' & HD & Hs & HD' & _).
  pose proof (leader_llog _ _ _ _ _ HD Hl) as HL. pose proof (leader_llog _ _ _ _ _ HD' Hl') as HL'.
  destruct (steps_llog (majority ids) true s s' t _ eq_refl (Ra_inv _ _ _ (proj1 HD)) Hs HL) as [k Hk].
  exists k. congruence.
Qed.

(** C31: a call of a driven cluster raises only what [drive_errors] lists: no
    log mismatch is ever found, whatever is lost, duplicated or reordered, no
    index is out of range, and no assertion fails. *)
Theorem drive_call_errors ids ts d o d' e :
  driven ids ts d → drive_ok d o → exec_drive o d = (d', inl e) → exn_cls e ∈ drive_errors o.
Proof.
  intros (_ & _ & _ & s & _ & HD)%driven_D Hwf Ho.
  pose proof (safely_exec_drive ids o d s HD Hwf (drive_may_any o)) as Hwp.
  unfold safely, refines, wp in Hwp. rewrite Ho in Hwp. by destruct Hwp as [_ ?].
Qed.

(** C35: what a replicator whose node still leads its term believes is so: its
    indices stay within the leader's log, the leader has committed what the
    replicator has, and every later leader has those entries. *)
Theorem replicator_knows ids ts d d' i r n t :
  driven ids ts d → d.(dw_replicators) !! i = Some r → leads d.(dw_cluster) r.(leader) r.(rep_term) →
  rtc (drive_next ids ts) d d' → leads d'.(dw_cluster) n t → r.(rep_term) ≤ t →
  (∀ peer p, r.(progress) !! peer = Some p →
     1 ≤ p.(next_index) ≤ zlen (dur d.(dw_cluster) r.(leader)).(log) + 1
     ∧ 0 ≤ p.(match_index) ≤ zlen (dur d.(dw_cluster) r.(leader)).(log))
  ∧ 0 ≤ r.(rep_commit_index) ≤ (vol d.(dw_cluster) r.(leader)).(commit_index)
  ∧ (vol d.(dw_cluster) r.(leader)).(commit_index) ≤ zlen (dur d.(dw_cluster) r.(leader)).(log)
  ∧ take (Z.to_nat r.(rep_commit_index)) (dur d.(dw_cluster) r.(leader)).(log)
      `prefix_of` (dur d'.(dw_cluster) n).(log).
Proof.
  intros Hd Hr Hl Hn Hl' Ht. destruct (driven_pair _ _ _ _ Hd Hn) as (s & s' & HD & Hs & HD' & Hi).
  pose proof (leader_llog _ _ _ _ _ HD Hl) as HL.
  destruct (proj2 HD _ _ Hr) as [Hok Htr]. destruct (ro_log _ _ _ _ Hok) as (L & HL0 & Hc & Hcom & Hall).
  rewrite HL in HL0. injection HL0 as <-. split_and!.
  - intros peer p Hp. by destruct (Hall _ _ Hp) as (? & ? & _).
  - apply Hc.
  - by apply (in_lead_commit ids r.(leader) (mkRepWorld d.(dw_cluster) r) s); [split_and!; [apply HD|..]|].
  - destruct (R_commit _ _ _ _ _ _ _ (proj1 HD) r.(leader) eq_refl) as [Hci _]. apply Hci.
  - eapply (committed_leader (majority ids) true); [done|exact Hi| |exact Ht|by eapply leader_llog].
    eapply (steps_committed (majority ids) true); [done|exact (Ra_inv _ _ _ (proj1 HD))|exact Hs|exact Hcom].
Qed.

(** C28: when [recover_peer] returns true, the peer has acknowledged the whole
    log of the leader, and has committed at least what the replicator has: the
    two committed prefixes agree. *)
Theorem recover_peer_complete ids ts d i rf fuel peer k d' :
  driven ids ts d → of_replicator i (recover_peer rf fuel peer k) d = (d', inr true) →
  ∃ r p, d'.(dw_replicators) !! i = Some r ∧ r.(progress) !! peer = Some p
    ∧ leads d'.(dw_cluster) r.(leader) r.(rep_term)
    ∧ p.(match_index) = zlen (dur d'.(dw_cluster) r.(leader)).(log)
    ∧ take (Z.to_nat r.(rep_commit_index)) (dur d'.(dw_cluster) r.(leader)).(log)
        `prefix_of` committed_log d'.(dw_cluster) peer.
Proof.
  intros (_ & _ & _ & s & _ & HD)%driven_D Ho.
  pose proof (refines_of_replicator (may := any_command) ids (λ _, True) s i (recover_peer rf fuel peer k) _ d HD (λ _ _, I)
    (grows_recover rf fuel peer k) (λ r Hr HR, refines_recover_peer _ _ _ rf (λ _ _, I) (λ _ _, I) (λ _ _, I) (λ _ _, I) fuel peer k _ s HR)) as Hwp.
  unfold refines, wp in Hwp. rewrite Ho in Hwp.
  destruct Hwp as (s' & Hs & HD' & r & Hr & Hrec). destruct (Hrec eq_refl) as (Hc & (p & Hp & Hm) & Hcom).
  simpl in Hp, Hm, Hcom. assert (leads d'.(dw_cluster) r.(leader) r.(rep_term)) as Hl by (split; apply Hc).
  exists r, p. pose proof (leader_llog _ _ _ _ _ HD' Hl) as HL.
  destruct (ro_log _ _ _ _ (proj1 (proj2 HD' _ _ Hr))) as (L & HL0 & Hci & HcomL & Hall).
  rewrite HL in HL0. injection HL0 as <-. destruct (Hall _ _ Hp) as (_ & Hb & _).
  split_and!; [done|done|done|lia|].
  destruct (R_commit _ _ _ _ _ _ _ (proj1 HD') peer eq_refl) as [Hpc Hpcom].
  pose proof (Ra_inv _ _ _ (proj1 HD')) as Hi. unfold committed_log.
  destruct (committed_agree (majority ids) true s' _ _ _ _ eq_refl Hi HcomL Hpcom) as [?|Hpre]; [done|].
  assert (length (take (Z.to_nat (rep_commit_index r)) (log (dur (dw_cluster d') (leader r))))
    ≤ length (take (Z.to_nat (commit_index (vol (dw_cluster d') peer))) (log (dur (dw_cluster d') peer))))%nat as Hlen
    by (rewrite !length_take; unfold zlen in *; lia).
  destruct Hpre as [x Hx]. assert (x = []) as ->; [|rewrite app_nil_r in Hx; by rewrite Hx].
  apply (f_equal length) in Hx. rewrite length_app in Hx. destruct x; simpl in *; [done|lia].
Qed.

(** ** Leader liveness *)

(** The world a replicator's method runs in *)
Lemma driven_rep ids ts d i r :
  driven ids ts d → d.(dw_replicators) !! i = Some r →
  ∃ s, RRep ids r.(leader) (mkRepWorld d.(dw_cluster) r) s.
Proof.
  intros (_ & _ & _ & s & _ & HR & Hreps)%driven_D Hr. exists s. split; [done|]. by apply (Hreps i).
Qed.

(** The peers that answered the replicator [r] since [start] *)
Definition answers (start : nat) w r peer : Prop := answered (C := C) start w r.(leader) peer r.(rep_term).

Lemma heard_answers ids start w (r r' : LeaderReplicator) ev :
  traced w → backed ids (heard_by start r (mkRepWorld w r')) r ev → backed ids (answers start w r) r ev.
Proof. intros Hw. apply backed_mono. intros p Hp. by apply heard_answered. Qed.

(** C29: CheckQuorum, in either form, on a driven cluster: when it returns, the
    leader is up and still leads the replicator's term, and the evidence names
    a majority, each member of which is the leader or has answered it since the
    round began: in that time it handled a request of the leader in that term
    and sent a response, which was delivered and handled, so that no response
    sent earlier counts; when it raises [LeaderQuorumUnavailable], the
    leader has been retired. *)
Theorem check_quorum_sound ids ts d i r rf m c d' out :
  driven ids ts d → d.(dw_replicators) !! i = Some r → of_replicator i (quorum_round rf m c) d = (d', out) →
  match out with
  | inr ev => is_alive d'.(dw_cluster) r.(leader) = true ∧ leads d'.(dw_cluster) r.(leader) r.(rep_term)
      ∧ backed ids (answers (length (trace_of d.(dw_cluster))) d'.(dw_cluster) r) r ev
  | inl e => exn_cls e = LeaderQuorumUnavailable → ¬ leads d'.(dw_cluster) r.(leader) r.(rep_term)
  end.
Proof.
  intros Hd Hr Ho. destruct (driven_rep _ _ _ _ _ Hd Hr) as [s HR]. unfold of_replicator in Ho. rewrite Hr in Ho.
  pose proof (refines_quorum_round (may := any_command) ids _ (λ _, True) rf m c s _ HR (λ _ _ _ _, I)) as Hev.
  pose proof (quorum_round_unavailable ids _ rf m c s _ HR) as Hun.
  pose proof (quiet_quorum_round rf m c (mkRepWorld d.(dw_cluster) r)) as [Hl Hs].
  pose proof (la_traced _ _ Hl (driven_traced _ _ _ Hd)) as Ht.
  unfold refines, wp in Hev, Hun. destruct (quorum_round rf m c _) as [[w' r'] v]. simpl in *. subst r'.
  injection Ho as <- <-. destruct v as [e|ev].
  - intros He Hlead. by apply Hun.
  - destruct Hev as (s' & _ & _ & Hc & _ & Hb). split; [apply Hc|]. split; [split; apply Hc|by eapply heard_answers].
Qed.

(** C30: a controller whose windows fit its interval runs as many rounds as it
    is asked for, one per interval from its next heartbeat on, each exactly as
    long as the response timeout and each backed by a majority that answered
    since the run began; after the last one the leader still leads its term. *)
Theorem heartbeat_schedule ids ts d i r rf c rounds d' rs :
  driven ids ts d → d.(dw_replicators) !! i = Some r → c.(response_timeout) ≤ c.(heartbeat_interval) →
  of_replicator i (with_controller c (run_heartbeats rf rounds)) d = (d', inr rs) →
  zlen rs = rounds ∧ leads d'.(dw_cluster) r.(leader) r.(rep_term)
  ∧ ∀ k b, rs !! k = Some b →
      timed (mkHeartbeatWorld (mkRepWorld d.(dw_cluster) r) c) k b
      ∧ backed ids (answers (length (trace_of d.(dw_cluster))) d'.(dw_cluster) r) r b.(hr_evidence).
Proof.
  intros Hd Hr Hle Ho. destruct (driven_rep _ _ _ _ _ Hd Hr) as [s HR]. unfold of_replicator in Ho. rewrite Hr in Ho.
  pose proof (refines_run_heartbeats ids _ (λ _, True) (may := any_command) (λ _ _ _ _, I) rf c rounds s _ HR) as Hev.
  pose proof (wp_run_heartbeats rf rounds (mkHeartbeatWorld (mkRepWorld d.(dw_cluster) r) c) Hle) as Ht.
  pose proof (quiet_run_heartbeats rf c rounds (mkRepWorld d.(dw_cluster) r)) as [Hl Hs].
  pose proof (la_traced _ _ Hl (driven_traced _ _ _ Hd)) as Htr.
  unfold refines, wp, with_controller in *. destruct (run_heartbeats rf rounds _) as [[[w' r'] c'] v]. simpl in *.
  subst r'. injection Ho as <- ->. destruct Hev as (s' & _ & _ & Hb & Hc), Ht as [Hlen Ht].
  split; [exact Hlen|]. split; [split; apply Hc|]. intros k b Hk. split; [by apply Ht|].
  eapply heard_answers; [exact Htr|]. by eapply Forall_lookup_1 in Hb.
Qed.
End properties.
