(* ===== verification/RaftTimers.v ===== *)
(** * RaftTimers: no live follower is left without an election timer

    [reset_election_timeout] replaces a timer by a later one, and the event of
    the old one is ignored when it comes.  The invariant is that every node
    that is up, is not a leader and has a timeout configured has the event of
    its current timer in the queue, at its deadline; each call and delivery
    preserves it, also when it raises.  [J [n]] leaves [n] out: it is what
    holds between the moment [n] loses its timer and the moment it is re-armed. *)

From S2P Require Import Prelude Simulator SimFacts Quorum LogIndex RaftSpec Refinement Raft RaftRefine RaftSafe RaftProperties.

Section timers.
Context {C : Type} `{EqDecision C}.
Implicit Types (w : World (RaftSig (C := C))) (n : string) (x : list string).

(** The message of an election timer. *)
Definition timer_message n (g : Z) (dl : option Z) : Message (RaftSig (C := C)) :=
  mkMessage (Σ := RaftSig) n n (PElectionTimeout g dl) 0 None.

(** [n] must have a timer. *)
Definition needs_timer w n : Prop :=
  is_alive w n = true ∧ (vol w n).(role) ≠ LEADER ∧ is_Some (w.(objs).(timeouts) !! n).

(** The event of [n]'s current timer is in the queue, at its deadline. *)
Definition pending w n : Prop :=
  ∃ t, (timer w n).(deadline) = Some t ∧ ∃ e, e ∈ w.(sim).(queue)
    ∧ e.(sd_time) = t ∧ e.(sd_message) = timer_message n (timer w n).(generation) (Some t).

Record J x w : Prop := {
  J_view n : view_wf (view_of (dur w n));
  J_timer n : n ∉ x → needs_timer w n → pending w n;
  J_restart n : is_Some (w.(sim).(handlers) !! n) → w.(sim).(restart_handlers) !! n = Some n;
}.

Lemma J_weaken x y w : x ⊆ y → J x w → J y w.
Proof. intros Hx [Hv Ht Hr]. split; [done| |done]. intros m Hm. apply Ht. set_solver. Qed.

Lemma J_close n x w : J (n :: x) w → (needs_timer w n → pending w n) → J x w.
Proof.
  intros [Hv Ht Hr] Hn. split; [done| |done]. intros m Hm. destruct (decide (m = n)) as [->|]; [done|].
  apply Ht. set_solver.
Qed.

(** ** Frames *)

Lemma J_ext x new w w' : sim_ext new w w' → J x w → J x w'.
Proof.
  intros He [Hv Ht Hrs]. assert (w'.(objs) = w.(objs)) as Ho by apply He. split.
  - intros n. assert (dur w' n = dur w n) as -> by exact (sim_ext_durable _ _ _ n He). done.
  - intros n Hx (Ha & Hr & Hto).
    destruct (Ht n Hx) as (t & Hd & e & Hin & He').
    { split_and!; [|by unfold vol, volatile in *; rewrite (se_volatile _ _ _ He) in Hr|by rewrite <-Ho].
      unfold is_alive in *. by rewrite (se_alive _ _ _ He) in Ha. }
    unfold pending, timer in *. rewrite Ho. exists t. split; [done|]. exists e. split; [|done].
    rewrite (se_queue _ _ _ He), elem_of_app. by right.
  - rewrite (se_handlers _ _ _ He), (se_restart _ _ _ He). exact Hrs.
Qed.

Lemma J_dur x n d w w' : dur_ext n d w w' → view_wf (view_of d) → J x w → J x w'.
Proof.
  intros He Hd [Hv Ht Hrs]. assert (w'.(objs) = w.(objs)) as Ho by apply He. split.
  - intros m. destruct (decide (m = n)) as [->|Hne].
    + assert (dur w' n = d) as -> by apply (de_at _ _ _ _ He). done.
    + assert (dur w' m = dur w m) as -> by by apply (de_other _ _ _ _ He). done.
  - intros m Hx (Ha & Hr & Hto).
    destruct (Ht m Hx) as (t & Hdl & e & Hin & He').
    { split_and!; [|by unfold vol, volatile in *; rewrite (de_volatile _ _ _ _ He) in Hr|by rewrite <-Ho].
      unfold is_alive in *. by rewrite (de_alive _ _ _ _ He) in Ha. }
    unfold pending, timer in *. rewrite Ho, (de_queue _ _ _ _ He). eauto.
  - rewrite (de_handlers _ _ _ _ He), (de_restart _ _ _ _ He). exact Hrs.
Qed.

Lemma J_vol x n f w :
  (n ∈ x ∨ ((f (vol w n)).(role) ≠ LEADER → (vol w n).(role) ≠ LEADER)) →
  J x w → J x (vol_world n f w).
Proof.
  intros Hf [Hv Ht Hrs]. split; [done| |done]. intros m Hx (Ha & Hr & Hto). apply Ht; [done|].
  split_and!; [done| |done]. rewrite vol_vol_world in Hr.
  case_decide; [subst; destruct Hf; [done|auto]|done].
Qed.

(** A change of the cluster's attributes that leaves timers alone. *)
Lemma J_objs x (o : RaftObjects) w :
  o.(timers) = w.(objs).(timers) → o.(timeouts) = w.(objs).(timeouts) →
  J x w → J x (mkWorld (Σ := RaftSig) w.(sim) o).
Proof.
  intros Ht Hto [Hv Hj Hrs]. split; [done| |done]. intros n Hx (Ha & Hr & Hsome).
  destruct (Hj n Hx) as (t & Hd & He); [split_and!; [done..|by rewrite <-Hto]|].
  exists t. unfold timer in *. simpl. by rewrite Ht.
Qed.

Lemma J_cancel x n t w : n ∈ x → J x w → J x (timer_world n t w).
Proof.
  intros Hn [Hv Hj Hrs]. split; [done| |done]. intros m Hx Hneed.
  destruct (Hj m Hx Hneed) as (u & Hd & He). exists u. unfold timer in *. simpl.
  rewrite lookup_insert_ne by (intros ->; done). done.
Qed.

(** ** Computations that keep the invariant *)

(** Whatever happens, and without raising at all. *)
Definition holds {A} x (m : M _ A) : Prop := ∀ w,
  J x w → wp m (λ w' _, J x w') (λ w' _, J x w') w.
Definition sleeps {A} (m : M _ A) : Prop := ∀ x w,
  J x w → wp m (λ w' _, J x w') (λ _ _, False) w.
(** [m] re-arms [n]. *)
Definition rearms {A} n (m : M _ A) : Prop := ∀ w,
  J [n] w → wp m (λ w' _, J [] w') (λ w' _, J [] w') w.

Lemma sleeps_holds {A} x (m : M _ A) : sleeps m → holds x m.
Proof. intros Hm w Hw. eapply wp_mono; [by apply Hm|done|done]. Qed.

Lemma holds_bind {A B} x (m : M _ A) (k : A → M _ B) :
  holds x m → (∀ a, holds x (k a)) → holds x (bind m k).
Proof. intros Hm Hk w Hw. apply wp_bind. eapply wp_mono; [by apply Hm| |done]. intros w' a. apply Hk. Qed.

Lemma sleeps_bind {A B} (m : M _ A) (k : A → M _ B) :
  sleeps m → (∀ a, sleeps (k a)) → sleeps (bind m k).
Proof. intros Hm Hk x w Hw. apply wp_bind. eapply wp_mono; [by apply Hm| |done]. intros w' a. apply Hk. Qed.

Lemma rearms_l {A B} n (m : M _ A) (k : A → M _ B) :
  rearms n m → (∀ a, holds [] (k a)) → rearms n (bind m k).
Proof. intros Hm Hk w Hw. apply wp_bind. eapply wp_mono; [by apply Hm| |done]. intros w' a. apply Hk. Qed.

Lemma rearms_r {A B} n (m : M _ A) (k : A → M _ B) :
  sleeps m → (∀ a, rearms n (k a)) → rearms n (bind m k).
Proof. intros Hm Hk w Hw. apply wp_bind. eapply wp_mono; [by apply Hm| |done]. intros w' a. apply Hk. Qed.

Lemma rearms_holds {A} n (m : M _ A) : rearms n m → holds [] m.
Proof. intros Hm w Hw. apply Hm. eapply J_weaken, Hw. apply list_subseteq_nil. Qed.

Lemma sleeps_ret {A} (a : A) : sleeps (ret a).
Proof. by intros x w Hw. Qed.
Lemma sleeps_gets {A} (f : _ → A) : sleeps (gets f).
Proof. by intros x w Hw. Qed.
Lemma holds_raise_if x b c msg : holds x (raise_if b c msg).
Proof. intros w Hw. by apply wp_raise_if. Qed.
Lemma holds_lift {A} x (r : exn + A) : holds x (lift r).
Proof. intros w Hw. apply wp_lift. by destruct r. Qed.
Lemma holds_raise {A} x c msg : holds x (raise (A := A) c msg).
Proof. by intros w Hw. Qed.
Lemma sleeps_record e : sleeps (record (Σ := RaftSig) e).
Proof. intros x w Hw. apply wp_record. intros w' He _ _. by eapply J_ext. Qed.
Lemma sleeps_trace r : sleeps (trace_rec r).
Proof. apply sleeps_record. Qed.
Lemma sleeps_send s d p : sleeps (net_send s d p).
Proof. intros x w Hw. apply wp_send; [lia|]. intros w' new He _ _. by eapply J_ext. Qed.
Lemma sleeps_schedule m delay : sleeps (schedule (Σ := RaftSig) m delay).
Proof. intros x w Hw. apply wp_schedule. intros w' d He _ _. by eapply J_ext. Qed.
Lemma sleeps_upd_vol n f :
  (∀ v, (f v).(role) = v.(role) ∨ (f v).(role) = LEADER) → sleeps (upd_vol n f).
Proof.
  intros Hf x w Hw. apply wp_upd_vol, J_vol; [right|done].
  by destruct (Hf (vol w n)) as [->| ->].
Qed.
Lemma sleeps_upd_obj f :
  (∀ o, (f o).(timers) = o.(timers) ∧ (f o).(timeouts) = o.(timeouts)) → sleeps (upd_obj (C := C) f).
Proof. intros Hf x w Hw. apply wp_modify. by apply J_objs; [apply Hf..|]. Qed.
Lemma sleeps_put n f :
  (∀ d, (f d).(log_base_index) = d.(log_base_index) ∧ (f d).(log_base_term) = d.(log_base_term)) →
  sleeps (put (C := C) n f).
Proof.
  intros Hf x w Hw. apply wp_persist. intros w' He. eapply J_dur; [exact He| |done].
  destruct (Hf (dur w n)) as [Hi Ht]. pose proof (J_view _ _ Hw n) as Hv.
  unfold view_wf, view_of in *. simpl in *. unfold dur in *. by rewrite Hi, Ht.
Qed.
Lemma sleeps_for_each {A} (l : list A) f : (∀ a, sleeps (f a)) → sleeps (for_each l f).
Proof. intros Hf. induction l as [|a l IH]; [apply sleeps_ret|]. by apply sleeps_bind. Qed.
Lemma holds_for_each {A} x (l : list A) f : (∀ a, holds x (f a)) → holds x (for_each l f).
Proof. intros Hf. induction l as [|a l IH]; [apply sleeps_holds, sleeps_ret|]. by apply holds_bind. Qed.
Lemma sleeps_log_view n : sleeps (log_view n).
Proof.
  intros x w Hw. apply wp_bind, wp_gets, wp_lift.
  rewrite (proj2 (new_RaftLogView_wf _ _ _ _) (conj eq_refl (J_view _ _ Hw n))). exact Hw.
Qed.
End timers.

#[export] Hint Resolve sleeps_ret sleeps_gets sleeps_record sleeps_trace sleeps_send sleeps_schedule
  sleeps_log_view sleeps_for_each holds_raise_if holds_lift holds_raise holds_for_each : distlab.
#[export] Hint Extern 2 (sleeps (upd_vol _ _)) => apply sleeps_upd_vol; intros; first [by left|by right] : distlab.
#[export] Hint Extern 2 (sleeps (upd_obj _)) => apply sleeps_upd_obj; by intros : distlab.
#[export] Hint Extern 2 (sleeps (put _ _)) => apply sleeps_put; by intros : distlab.
#[export] Hint Extern 3 (sleeps (bind _ _)) => apply sleeps_bind; [|intros] : distlab.
#[export] Hint Extern 3 (holds _ (bind _ _)) => apply holds_bind; [|intros] : distlab.
#[export] Hint Extern 5 (sleeps (if ?b then _ else _)) => destruct b : distlab.
#[export] Hint Extern 5 (holds _ (if ?b then _ else _)) => destruct b : distlab.
#[export] Hint Extern 6 (sleeps (when ?b _)) => unfold when; destruct b : distlab.
#[export] Hint Extern 6 (holds _ (when ?b _)) => unfold when; destruct b : distlab.
#[export] Hint Extern 9 (holds _ _) => apply sleeps_holds : distlab.

Section operations.
Context {C : Type} `{EqDecision C}.
Implicit Types (w : World (RaftSig (C := C))) (n : string) (x : list string).

Lemma sleeps_last_log_index n : sleeps (C := C) (last_log_index n).
Proof. unfold last_log_index. auto with distlab. Qed.
Lemma sleeps_last_log_term n : sleeps (C := C) (last_log_term n).
Proof. unfold last_log_term. auto with distlab. Qed.
Lemma sleeps_clear_pre_vote n : sleeps (C := C) (clear_pre_vote n).
Proof. unfold clear_pre_vote. auto with distlab. Qed.
Lemma sleeps_persist_term n t v : sleeps (C := C) (persist_term_and_vote n t v).
Proof. unfold persist_term_and_vote. auto with distlab. Qed.
Lemma sleeps_persist_log n l : sleeps (C := C) (persist_log n l).
Proof. unfold persist_log. auto 10 with distlab. Qed.
Lemma sleeps_notify e : sleeps (C := C) (notify e).
Proof. unfold notify. auto 10 with distlab. Qed.
Lemma sleeps_send_to_peers n p : sleeps (C := C) (send_to_peers n p).
Proof. unfold send_to_peers. auto 10 with distlab. Qed.
#[local] Hint Resolve sleeps_last_log_index sleeps_last_log_term sleeps_clear_pre_vote
  sleeps_persist_term sleeps_persist_log sleeps_notify sleeps_send_to_peers : distlab.

Lemma sleeps_up_to_date n i t : sleeps (C := C) (up_to_date n i t).
Proof. unfold up_to_date. auto 10 with distlab. Qed.

Lemma sleeps_retired n t r : sleeps (C := C) (notify_leader_retired n t r).
Proof.
  apply sleeps_bind; [auto with distlab|]. intros [[t' g]|]; auto 15 with distlab.
Qed.
#[local] Hint Resolve sleeps_up_to_date sleeps_retired : distlab.

Lemma sleeps_acquired n t r : sleeps (C := C) (notify_leader_acquired n t r).
Proof.
  apply sleeps_bind; [auto with distlab|]. intros [[t' g]|]; cbv zeta; auto 20 with distlab.
Qed.
#[local] Hint Resolve sleeps_acquired : distlab.

(** ** Timers *)

Lemma is_role_spec w n r : is_role w n r = true ↔ (vol w n).(role) = r.
Proof. unfold is_role. apply bool_decide_eq_true. Qed.

Lemma wp_reset n r x w E :
  J (n :: x) w → wp (reset_election_timeout (C := C) n r) (λ w' _, J x w') E w.
Proof.
  intros Hw. unfold reset_election_timeout. do 2 apply wp_bind, wp_gets.
  destruct (timeouts (objs w) !! n) as [t|] eqn:Et.
  2:{ apply wp_ret, (J_close n); [done|]. intros (_ & _ & [? ?]). congruence. }
  destruct (is_role w n LEADER) eqn:Er.
  { apply wp_ret, (J_close n); [done|]. intros (_ & Hr & _). by apply is_role_spec in Er. }
  do 2 apply wp_bind, wp_gets. apply wp_bind, wp_modify.
  set (g := generation _ + 1). set (d := time _ + t). set (w1 := mkWorld _ _).
  assert (J (n :: x) w1) as Hw1 by (apply J_cancel; [by left|exact Hw]).
  assert (timer w1 n = mkTimer g (Some d)) as Ht1 by (unfold timer; simpl; by rewrite lookup_insert_eq).
  assert (d = time (sim w1) + t) as Hd by done. clearbody w1 d g.
  apply wp_bind, wp_record. intros w2 He2 _ _. apply wp_schedule. intros w3 e He3 _ _.
  pose proof (sim_ext_trans _ _ _ _ _ He2 He3) as He.
  apply (J_close n); [by eapply J_ext|]. intros _.
  assert (timer w3 n = mkTimer g (Some d)) as Ht3
    by (unfold timer in *; by rewrite (se_objs _ _ _ He)).
  exists d. rewrite Ht3. split; [done|]. exists e. split_and!.
  - rewrite (se_queue _ _ _ He). by left.
  - simpl. by rewrite (se_time _ _ _ He2).
  - done.
Qed.

Lemma rearms_reset n r : rearms (C := C) n (reset_election_timeout n r).
Proof. intros w Hw. by apply wp_reset. Qed.

Lemma holds_reset n r : holds (C := C) [] (reset_election_timeout n r).
Proof. apply (rearms_holds n), rearms_reset. Qed.
#[local] Hint Resolve holds_reset rearms_reset : distlab.
#[local] Hint Extern 3 (rearms _ (bind _ _)) =>
  first [apply rearms_r; [solve [auto 15 with distlab]|intros]|apply rearms_l; [|intros]] : distlab.

(** A leader needs no timer. *)
Lemma holds_become_leader n t : holds (C := C) [] (become_leader n t).
Proof.
  intros w Hw. unfold become_leader. do 2 apply wp_bind, wp_gets. destruct (_ || _); [done|].
  apply wp_bind. eapply wp_mono.
  { assert (holds (C := C) [] (record_leader t n)) as Hrec
      by (unfold record_leader; auto 10 with distlab). exact (Hrec w Hw). }
  2: done.
  intros w1 a Hw1. do 2 apply wp_bind, wp_upd_vol. apply wp_bind, wp_cancel_timer.
  set (w2 := timer_world _ _ _). assert (J [] w2) as Hw2; [|clearbody w2].
  { apply (J_close n).
    - apply J_cancel; [by left|]. do 2 (apply J_vol; [left; by left|]). eapply J_weaken, Hw1. apply list_subseteq_nil.
    - intros (_ & Hr & _). exfalso. apply Hr. unfold w2, timer_world.
      change (role (vol (vol_world n (set_pre_vote None ∅) (vol_world n (set_role LEADER) w1)) n) = LEADER).
      by rewrite !vol_vol_world, !decide_True. }
  assert (holds (C := C) [] (trace_rec (RLeader n t) ;; notify_leader_acquired n t "election-won" ;; ret tt))
    as Hrest by auto 10 with distlab. by apply Hrest.
Qed.
#[local] Hint Resolve holds_become_leader : distlab.

(** A crashed node needs no timer either. *)
Lemma rearms_alive {B} n c msg (k : unit → M _ B) :
  rearms (C := C) n (k tt) →
  rearms (C := C) n (bind (gets (λ w, is_alive w n)) (λ up, bind (raise_if (negb up) c msg) k)).
Proof.
  intros Hk w Hw. apply wp_bind, wp_gets, wp_bind, wp_raise_if; intros Hup; [|by apply Hk].
  apply (J_close n); [done|]. intros [Ha _]. by rewrite Ha in Hup.
Qed.

Lemma rearms_start_election n : rearms (C := C) n (start_election n).
Proof.
  apply rearms_alive. apply rearms_r; [auto with distlab|intros _].
  apply rearms_r; [auto with distlab|intros d]. cbv zeta.
  apply rearms_r; [auto with distlab|intros _].
  intros w Hw. do 2 apply wp_bind, wp_upd_vol. set (w1 := vol_world _ _ _).
  assert (J [n] w1) as Hw1 by (do 2 (apply J_vol; [left; by left|]); done). clearbody w1.
  assert (rearms (C := C) n (
    let! li := last_log_index n in let! lt := last_log_term n in
    trace_rec (RElectionStart n (d.(current_term) + 1) li lt) ;;
    reset_election_timeout n "election-start" ;;
    let! majority := has_majority 1 in
    if majority then become_leader n (d.(current_term) + 1)
    else let! request := lift (new_RequestVote (d.(current_term) + 1) n li lt) in
         send_to_peers n (PRequestVote request))) as Hrest; [|by apply Hrest].
  do 2 (apply rearms_r; [auto with distlab|intros ?]).
  apply rearms_r; [auto with distlab|intros _]. apply rearms_l; [auto with distlab|intros _].
  unfold has_majority. auto 10 with distlab.
Qed.

Lemma rearms_start_pre_vote n : rearms (C := C) n (start_pre_vote n).
Proof.
  apply rearms_alive. intros w Hw. apply wp_bind, wp_gets. destruct (is_role w n LEADER) eqn:Er.
  { apply wp_ret, (J_close n); [done|]. intros (_ & Hr & _). by apply is_role_spec in Er. }
  assert (rearms (C := C) n (
    let! d := gets (λ w, dur w n) in
    let prospective_term := d.(current_term) + 1 in
    upd_vol n (set_pre_vote (Some prospective_term) {[n]}) ;;
    let! li := last_log_index n in
    let! lt := last_log_term n in
    trace_rec (RPreVoteStart n prospective_term d.(current_term) li lt) ;;
    let! majority := has_majority 1 in
    if majority then clear_pre_vote n ;; start_election n
    else
      reset_election_timeout n "pre-vote-start" ;;
      let! request := lift (new_PreVote prospective_term n li lt) in
      send_to_peers n (PPreVote request))) as Hrest; [|by apply Hrest].
  apply rearms_r; [auto with distlab|intros d]. cbv zeta.
  apply rearms_r; [auto with distlab|intros _].
  do 2 (apply rearms_r; [auto with distlab|intros ?]).
  apply rearms_r; [auto with distlab|intros _]. unfold has_majority.
  apply rearms_r; [auto with distlab|intros b]. destruct b.
  - apply rearms_r; [auto with distlab|intros _]. apply rearms_start_election.
  - apply rearms_l; [auto with distlab|intros _]. auto 10 with distlab.
Qed.
(** ** Stepping down and terms *)

Lemma rearms_vol {B} n f (k : unit → M _ B) :
  rearms (C := C) n (k tt) → rearms (C := C) n (bind (upd_vol n f) k).
Proof. intros Hk w Hw. apply wp_bind, wp_upd_vol, Hk, J_vol; [left; by left|done]. Qed.

Lemma holds_step_down n r : holds (C := C) [] (step_down n r).
Proof.
  unfold step_down. apply holds_bind; [auto with distlab|intros _].
  do 2 (apply holds_bind; [auto with distlab|intros ?]).
  apply holds_bind; [auto with distlab|intros leads]. destruct (negb leads); [auto with distlab|].
  apply holds_bind; [auto with distlab|intros d]. apply (rearms_holds n).
  do 2 apply rearms_vol. do 3 (apply rearms_r; [auto with distlab|intros _]).
  apply rearms_l; [auto with distlab|intros _]. auto with distlab.
Qed.

(** [n] is left without a timer if it was a leader and is not re-armed. *)
Definition out (b : bool) n : list string := if b then [n] else [].

Lemma J_out b n w : J [] w → J (out b n) w.
Proof. intros Hw. destruct b; [eapply J_weaken, Hw; apply list_subseteq_nil|done]. Qed.

Lemma wp_quiet_bind {A B} (m : M _ A) (k : A → M _ B) x w (Q : _ → B → Prop) E :
  sleeps m → J x w → (∀ w' a, J x w' → wp (k a) Q E w') → wp (bind m k) Q E w.
Proof.
  intros Hm Hw Hk. apply wp_bind. eapply wp_mono; [by apply Hm| |done]. intros w' a. apply Hk.
Qed.

Lemma wp_cut {A B} (P : _ → A → Prop) (m : M _ A) (k : A → M _ B) Q w :
  wp m P (λ w' _, J [] w') w → (∀ w' a, P w' a → wp (k a) Q (λ w' _, J (C := C) [] w') w') →
  wp (bind m k) Q (λ w' _, J [] w') w.
Proof. intros Hm Hk. apply wp_bind. eapply wp_mono; [exact Hm|done|done]. Qed.

Lemma wp_advance_term n t b w :
  J [] w → wp (advance_term n t b)
    (λ w' _, J (out (is_role w n LEADER && ((dur w n).(current_term) <? t) && negb b) n) w')
    (λ w' _, J [] w') w.
Proof.
  intros Hw. unfold advance_term. apply wp_bind, wp_gets.
  destruct (Z.leb_spec t (current_term (dur w n))) as [Hle|Hlt]; [by apply wp_ret, J_out|].
  rewrite (proj2 (Z.ltb_lt _ _) Hlt), andb_true_r. apply wp_bind, wp_gets.
  set (leads := is_role w n LEADER) in *.
  apply (wp_cut (λ w' _, J (out leads n) w' ∧ vol w' n = vol w n)).
  { apply wp_bind, wp_persist. intros w1 He1. apply wp_record. intros w2 He2 _ _. split.
    - eapply J_ext; [exact He2|]. eapply J_dur; [exact He1|apply (J_view _ _ Hw n)|by apply J_out].
    - unfold vol, volatile. by rewrite (se_volatile _ _ _ He2), (de_volatile _ _ _ _ He1). }
  intros w1 a [Hw1 Hv1]. apply wp_bind, wp_upd_vol. set (w2 := vol_world _ _ _).
  assert (J (out leads n) w2) as Hw2; [|clearbody w2].
  { apply J_vol; [|done]. destruct leads eqn:El; [left; by left|right; intros _]. rewrite Hv1.
    intros Hr%is_role_spec. subst leads. congruence. }
  clearbody leads. eapply wp_quiet_bind; [|exact Hw2|]; [auto with distlab|intros w3 _ Hw3].
  eapply wp_quiet_bind; [|exact Hw3|]; [auto with distlab|intros w4 _ Hw4].
  eapply wp_quiet_bind; [|exact Hw4|]; [auto 10 with distlab|intros w5 _ Hw5].
  eapply wp_quiet_bind; [|exact Hw5|]; [auto with distlab|intros w6 _ Hw6].
  destruct leads; simpl in *; [|by rewrite andb_false_r].
  rewrite andb_true_r. destruct b; simpl; [|exact Hw6]. by apply rearms_reset.
Qed.

Lemma holds_advance_term n t : holds (C := C) [] (advance_term n t true).
Proof.
  intros w Hw. eapply wp_mono; [by apply wp_advance_term| |done].
  intros w' a. by rewrite andb_false_r.
Qed.
#[local] Hint Resolve holds_advance_term : distlab.

(** ** Handlers *)

Lemma holds_handle_pre_vote n s m : holds (C := C) [] (handle_pre_vote n s m).
Proof. unfold handle_pre_vote. cbv zeta. auto 20 with distlab. Qed.

Lemma holds_handle_pre_vote_response n m : holds (C := C) [] (handle_pre_vote_response n m).
Proof.
  unfold handle_pre_vote_response, has_majority. cbv zeta.
  pose proof (rearms_holds n _ (rearms_start_election n)). auto 25 with distlab.
Qed.

Lemma rearms_vote n (m : RequestVote) w :
  J [n] w → wp (vote_for (C := C) n m) (λ w' g, J (out (negb g) n) w') (λ w' _, J [] w') w.
Proof.
  intros Hw. unfold vote_for. apply wp_bind, wp_gets.
  destruct (match voted_for _ with None => _ | Some _ => _ end); [|by apply wp_ret].
  eapply wp_quiet_bind; [|exact Hw|]; [auto with distlab|intros w1 _ Hw1].
  apply wp_bind, wp_upd_vol.
  eapply wp_quiet_bind; [|apply J_vol; [left; by left|exact Hw1]|]; [auto with distlab|intros w2 _ Hw2].
  apply wp_bind. eapply wp_mono; [by apply rearms_reset|by intros|done].
Qed.

Lemma holds_vote n (m : RequestVote) : holds (C := C) [] (vote_for n m).
Proof.
  unfold vote_for. apply holds_bind; [auto with distlab|intros d].
  destruct (match voted_for _ with None => _ | Some _ => _ end); [|auto with distlab].
  apply (rearms_holds n), rearms_r; [auto with distlab|intros _]. apply rearms_vol.
  apply rearms_r; [auto with distlab|intros _]. apply rearms_l; [auto with distlab|intros _].
  auto with distlab.
Qed.

Lemma holds_handle_request_vote n s m : holds (C := C) [] (handle_request_vote n s m).
Proof.
  intros w Hw. unfold handle_request_vote. do 2 apply wp_bind, wp_gets. cbv zeta.
  set (retired := is_role w n LEADER && _).
  apply (wp_cut (λ w' _, J (out retired n) w')).
  { apply wp_when; intros Hlt.
    - eapply wp_mono; [by apply wp_advance_term| |done]. intros w' a. rewrite andb_true_r. done.
    - by apply J_out. }
  intros w1 a Hw1. clearbody retired. clear Hw w.
  eapply wp_quiet_bind; [|exact Hw1|]; [auto with distlab|intros w2 ok Hw2].
  apply wp_bind, wp_gets. apply (wp_cut (λ w' g, J (out (retired && negb g) n) w')).
  { destruct (_ && ok); [|apply wp_ret; by rewrite andb_true_r].
    destruct retired; simpl; [by apply rearms_vote|]. by apply holds_vote. }
  intros w3 grant Hw3. apply (wp_cut (λ w' _, J [] w')).
  { destruct (retired && negb grant); [by apply rearms_reset|done]. }
  intros w4 a4 Hw4. revert w4 Hw4.
  change (holds (C := C) [] (
    let! li := last_log_index n in let! lt := last_log_term n in
    trace_rec (RVote n m.(rv_candidate_id) m.(rv_term) grant ok
      m.(rv_last_log_index) m.(rv_last_log_term) li lt) ;;
    let! d := gets (λ w, dur w n) in
    net_send n s (PRequestVoteResponse (mkRequestVoteResponse d.(current_term) n grant)))).
  auto 20 with distlab.
Qed.

Lemma holds_handle_request_vote_response n m : holds (C := C) [] (handle_request_vote_response n m).
Proof. unfold handle_request_vote_response, has_majority. cbv zeta. auto 25 with distlab. Qed.

Lemma holds_handle_append_entries_response n m :
  holds (C := C) [] (handle_append_entries_response n m).
Proof. unfold handle_append_entries_response. auto 10 with distlab. Qed.

Lemma holds_check_pair x l r : holds (C := C) x (check_pair l r).
Proof. unfold check_pair. auto 25 with distlab. Qed.
#[local] Hint Resolve holds_check_pair : distlab.

Lemma holds_assert_log_matching x : holds (C := C) x assert_log_matching.
Proof. unfold assert_log_matching. auto 10 with distlab. Qed.

Lemma holds_advance_commit x n i s : holds (C := C) x (advance_commit_index n i s).
Proof. unfold advance_commit_index. auto 25 with distlab. Qed.

Lemma holds_merge_entries x n i es : holds (C := C) x (merge_entries n i es).
Proof. unfold merge_entries. auto 15 with distlab. Qed.
#[local] Hint Resolve holds_assert_log_matching holds_advance_commit holds_merge_entries : distlab.

Lemma holds_accept_entries x n m : holds (C := C) x (accept_entries n m).
Proof. unfold accept_entries. cbv zeta. auto 25 with distlab. Qed.

Lemma rearms_follow n t b m : rearms (C := C) n (follow n t b m).
Proof.
  do 2 apply rearms_vol. apply rearms_r; [auto with distlab|intros _].
  apply rearms_r; [auto 10 with distlab|intros _]. apply rearms_reset.
Qed.

Lemma holds_send_append_entries n peer prev es c :
  holds (C := C) [] (send_append_entries n peer prev es c).
Proof. unfold send_append_entries. cbv zeta. auto 40 with distlab. Qed.
(** ** What leaves durable dictionaries and liveness alone *)

Definition still w w' : Prop := (∀ n, dur w' n = dur w n) ∧ w'.(sim).(alive) = w.(sim).(alive).
Definition keeps {A} (m : M _ A) : Prop := ∀ w, wp m (λ w' _, still w w') (λ _ _, True) w.

Lemma keeps_bind {A B} (m : M _ A) (k : A → M _ B) :
  keeps m → (∀ a, keeps (k a)) → keeps (bind m k).
Proof.
  intros Hm Hk w. apply wp_bind. eapply wp_mono; [apply Hm| |done]. intros w1 a [Hd1 Ha1].
  eapply wp_mono; [apply Hk| |done]. intros w2 b [Hd2 Ha2]. split; [|congruence].
  intros n. by rewrite Hd2.
Qed.

Lemma sim_ext_still new w w' : sim_ext new w w' → still w w'.
Proof. intros He. split; [intros n; exact (sim_ext_durable _ _ _ n He)|apply He]. Qed.

Lemma keeps_ret {A} (a : A) : keeps (ret a).
Proof. by intros w. Qed.
Lemma keeps_gets {A} (f : _ → A) : keeps (gets f).
Proof. by intros w. Qed.
Lemma keeps_trace r : keeps (trace_rec r).
Proof. intros w. apply wp_record. intros w' He _ _. by eapply sim_ext_still. Qed.
Lemma keeps_schedule m delay : keeps (schedule (Σ := RaftSig) m delay).
Proof. intros w. apply wp_schedule. intros w' d He _ _. by eapply sim_ext_still. Qed.
Lemma keeps_upd_vol n f : keeps (upd_vol n f).
Proof. by intros w. Qed.
Lemma keeps_upd_obj f : keeps (upd_obj (C := C) f).
Proof. by intros w. Qed.
Lemma keeps_for_each {A} (l : list A) f : (∀ a, keeps (f a)) → keeps (for_each l f).
Proof. intros Hf. induction l as [|a l IH]; [apply keeps_ret|]. by apply keeps_bind. Qed.
#[local] Hint Resolve keeps_ret keeps_gets keeps_trace keeps_schedule keeps_upd_vol keeps_upd_obj
  keeps_for_each : distlab.
#[local] Hint Extern 3 (keeps (bind _ _)) => apply keeps_bind; [|intros] : distlab.
#[local] Hint Extern 5 (keeps (if ?b then _ else _)) => destruct b : distlab.
#[local] Hint Extern 6 (keeps (when ?b _)) => unfold when; destruct b : distlab.

Lemma keeps_retired n t r : keeps (notify_leader_retired n t r).
Proof.
  apply keeps_bind; [auto with distlab|]. unfold notify. intros [[t' g]|]; auto 20 with distlab.
Qed.

Lemma keeps_reset n r : keeps (reset_election_timeout n r).
Proof.
  unfold reset_election_timeout. do 2 (apply keeps_bind; [auto with distlab|intros ?]).
  destruct a; auto 15 with distlab.
Qed.
#[local] Hint Resolve keeps_retired keeps_reset : distlab.

(** [_advance_term] adopts the term. *)
Lemma wp_advance_term_adopts n t b w :
  (dur w n).(current_term) < t →
  wp (advance_term n t b) (λ w' _, (dur w' n).(current_term) = t) (λ _ _, True) w.
Proof.
  intros Ht. unfold advance_term. apply wp_bind, wp_gets. rewrite (proj2 (Z.leb_gt _ _) Ht).
  apply wp_bind, wp_gets. set (leads := is_role w n LEADER). clearbody leads.
  apply wp_bind. unfold persist_term_and_vote. apply wp_bind, wp_persist. intros w1 He1.
  apply wp_record. intros w2 He2 _ _.
  assert ((dur w2 n).(current_term) = t) as Hw2.
  { assert (dur w2 n = dur w1 n) as -> by exact (sim_ext_durable _ _ _ n He2).
    assert (dur w1 n = set_term_vote t None (dur w n)) as -> by apply (de_at _ _ _ _ He1). done. }
  set (old := current_term (dur w n)). clearbody old.
  assert (keeps (upd_vol n (set_role FOLLOWER) ;; upd_vol n (set_votes ∅) ;; clear_pre_vote n ;;
    when leads (notify_leader_retired n old "higher-term-observed" ;; ret tt) ;;
    trace_rec (RTermAdvance n t) ;; when (b && leads) (reset_election_timeout n "term-advance"))) as Hk.
  { unfold clear_pre_vote. auto 25 with distlab. }
  eapply wp_mono; [apply Hk| |done]. intros w3 a [Hd _]. by rewrite Hd.
Qed.

Lemma holds_handle_append_entries n s m : holds (C := C) [] (handle_append_entries n s m).
Proof.
  intros w Hw. unfold handle_append_entries. apply wp_bind, wp_gets. cbv zeta.
  apply wp_bind, wp_gets. set (was := is_role w n LEADER). set (t := current_term (dur w n)).
  apply (wp_cut (λ w' _, J (out (was && (t <? m.(ae_term))) n) w'
    ∧ (t < m.(ae_term) → (dur w' n).(current_term) = m.(ae_term)))).
  { apply wp_when; intros Hlt.
    - apply Z.ltb_lt in Hlt as Hlt'. eapply wp_mono.
      + eapply wp_and; [by apply wp_advance_term|by apply (wp_advance_term_adopts _ _ false)].
      + intros w' a [Hj Ha]. split; [|done]. by rewrite andb_true_r in Hj.
      + by intros w' e [? _].
    - split; [by apply J_out|]. apply Z.ltb_ge in Hlt. lia. }
  intros w1 a [Hw1 Hterm]. apply wp_bind, wp_gets. apply (wp_cut (λ w' _, J [] w')).
  { destruct (Z.eqb_spec (ae_term m) (current_term (dur w1 n))) as [|Hne].
    - assert (rearms (C := C) n (follow n t was m ;; accept_entries n m)) as Hre.
      { apply rearms_l; [apply rearms_follow|intros _; apply holds_accept_entries]. }
      apply Hre. eapply J_weaken; [|exact Hw1]. destruct (was && _); [done|apply list_subseteq_nil].
    - apply wp_ret. destruct (Z.ltb_spec t (ae_term m)) as [Hlt|]; [by rewrite Hterm in Hne|].
      by rewrite andb_false_r in Hw1. }
  intros w2 r Hw2. revert w2 Hw2.
  change (holds (C := C) [] (
    let! d := gets (λ w, dur w n) in
    let! commit := gets (λ w, (vol w n).(commit_index)) in
    trace_rec (RAppendEntries n m.(ae_leader_id) m.(ae_term) m.(ae_prev_log_index) m.(ae_prev_log_term)
      (zlen m.(ae_entries)) m.(ae_leader_commit) commit r.1 r.2) ;;
    let! response := lift (new_AppendEntriesResponse d.(current_term) n r.1 r.2) in
    net_send n s (PAppendEntriesResponse response))).
  auto 20 with distlab.
Qed.
End operations.

(** ** Delivery *)
Section delivery.
Context {C : Type} `{EqDecision C}.
Implicit Types (w : World (RaftSig (C := C))) (n : string) (m : Message (RaftSig (C := C))).

(** [m] is the event of [n]'s current timer, and is due. *)
Definition due m w n : Prop :=
  ∃ t, m = timer_message n (timer w n).(generation) (Some t)
    ∧ (timer w n).(deadline) = Some t ∧ t ≤ w.(sim).(time).

(** [m] has been taken from the queue to be delivered to [n]. *)
Definition taken m w n : Prop :=
  J [n] w ∧ (needs_timer w n → pending w n ∨ due m w n).

Lemma taken_pending m w n : taken m w n → ¬ due m w n → J [] w.
Proof. intros [Hw Hn] Hd. apply (J_close n); [done|]. intros Hneed. by destruct (Hn Hneed). Qed.

Lemma taken_ext m w w' n : sim_ext [] w w' → taken m w n → taken m w' n.
Proof.
  intros He [Hw Hn]. split; [by eapply J_ext|]. intros Hneed.
  assert (w'.(objs) = w.(objs)) as Ho by apply He.
  destruct Hn as [(t & Hd & e & Hin & He')|(t & Hm & Hd & Ht)].
  - destruct Hneed as (Ha & Hr & Hto). split_and!.
    + unfold is_alive in *. by rewrite (se_alive _ _ _ He) in Ha.
    + unfold vol, volatile in *. by rewrite (se_volatile _ _ _ He) in Hr.
    + by rewrite <-Ho.
  - left. exists t. unfold timer in *. rewrite Ho. split; [done|]. exists e. split; [|done].
    by rewrite (se_queue _ _ _ He).
  - right. exists t. unfold timer in *. by rewrite Ho, (se_time _ _ _ He).
Qed.

Lemma wp_handle_timeout n g dl w :
  taken (timer_message n g dl) w n →
  wp (handle_election_timeout n g dl) (λ w' _, J [] w') (λ w' _, J [] w') w.
Proof.
  intros Hw. unfold handle_election_timeout. do 2 apply wp_bind, wp_gets.
  assert (∀ r, ¬ due (timer_message n g dl) w n →
    wp (trace_rec r) (λ w' _, J [] w') (λ w' _, J [] w') w) as Hreject.
  { intros r Hno. apply sleeps_holds; [apply sleeps_trace|]. by eapply taken_pending. }
  destruct (Z.eqb_spec g (generation (timer w n))) as [->|Hg]; simpl.
  2:{ apply Hreject. intros (t & Hm & _). unfold timer_message in Hm. congruence. }
  case_bool_decide as Hdl; simpl.
  2:{ apply Hreject. intros (t & Hm & Hd & _). apply Hdl. unfold timer_message in Hm. congruence. }
  destruct (match deadline (timer w n) with None => _ | Some _ => _ end) eqn:Hearly.
  { apply Hreject. intros (t & _ & Hd & Ht). rewrite Hd in Hearly. apply Z.ltb_lt in Hearly. lia. }
  apply wp_bind, wp_gets. destruct (is_role w n LEADER) eqn:Er.
  { apply wp_ret, (J_close n); [apply Hw|]. intros (_ & Hr & _). by apply is_role_spec in Er. }
  assert (rearms (C := C) n (trace_rec (RTimeout n (generation (timer w n))) ;; start_pre_vote n)) as Hre.
  { apply rearms_r; [auto with distlab|intros _]. apply rearms_start_pre_vote. }
  apply Hre, Hw.
Qed.

(** The envelope checks accept a node's own timer. *)
Lemma due_accepted m w n : due m w n → n ∈ w.(objs).(node_ids) → envelope_reason w n m = None.
Proof.
  intros (t & -> & _) Hn. unfold envelope_reason. simpl. rewrite String.eqb_refl. simpl.
  unfold member. by rewrite bool_decide_eq_true_2 by done.
Qed.

Lemma taken_defaults m w n : taken m w n → taken m (vol_world n (λ v, v) w) n.
Proof.
  intros [Hw Hn]. split; [apply J_vol; [by right|done]|]. intros (Ha & Hr & Hto).
  rewrite vol_vol_world, decide_True in Hr by done. by apply Hn.
Qed.

Lemma taken_timeout m w n g dl :
  taken m w n → m.(payload) = PElectionTimeout g dl → taken (timer_message n g dl) w n.
Proof.
  intros [Hw Hn] Hp. split; [done|]. intros Hneed. destruct (Hn Hneed) as [?|(t & -> & Hd & Ht)]; [by left|].
  right. simpl in Hp. injection Hp as <- <-. by exists t.
Qed.

Lemma wp_handle_message n m w :
  taken m w n → n ∈ w.(objs).(node_ids) →
  wp (handle_message n m) (λ w' _, J [] w') (λ w' _, J [] w') w.
Proof.
  intros Hw Hn. apply wp_bind, (wp_upd_vol n). apply taken_defaults in Hw.
  set (w1 := vol_world n _ w) in *. assert (n ∈ w1.(objs).(node_ids)) as Hn1 by done. clearbody w1.
  apply wp_bind, wp_gets. destruct (envelope_reason w1 n m) as [[r c]|] eqn:Henv.
  { apply sleeps_holds; [apply sleeps_trace|]. eapply taken_pending; [exact Hw|].
    intros Hd. by rewrite (due_accepted _ _ _ Hd Hn1) in Henv. }
  unfold dispatch.
  assert ((∀ g d, payload m ≠ PElectionTimeout g d) → J [] w1) as Hother.
  { intros Hp. eapply taken_pending; [exact Hw|]. intros (t & -> & _). by eapply Hp. }
  destruct (payload m) as [g d|p|p|p|p|p|p|ty] eqn:Hp; [|specialize (Hother ltac:(done))..].
  - apply wp_handle_timeout. by eapply taken_timeout.
  - by apply holds_handle_pre_vote.
  - by apply holds_handle_pre_vote_response.
  - by apply holds_handle_request_vote.
  - by apply holds_handle_request_vote_response.
  - by apply holds_handle_append_entries.
  - by apply holds_handle_append_entries_response.
  - by apply wp_raise.
Qed.

(** Taking the first event of the queue, at its time. *)
Lemma J_take w d rest :
  J [] w → w.(sim).(queue) = d :: rest →
  taken d.(sd_message)
    (mkWorld (Σ := RaftSig) (set_time d.(sd_time) (set_queue rest w.(sim))) w.(objs)) d.(sd_message).(dst).
Proof.
  intros [Hv Ht Hrs] Hq. set (w1 := mkWorld _ _).
  assert (∀ n, needs_timer w n → n = d.(sd_message).(dst) ∧ due d.(sd_message) w1 n ∨ pending w1 n) as Hcase.
  { intros n Hneed. destruct (Ht n ltac:(set_solver) Hneed) as (t & Hd & e & Hin & Htime & Hmsg).
    rewrite Hq in Hin. apply elem_of_cons in Hin as [->|Hin].
    - left. rewrite Hmsg. split; [done|]. exists t. split_and!; [done..|]. simpl. lia.
    - right. exists t. split; [done|]. by exists e. }
  split.
  - split; [done| |done]. intros n Hn Hneed. destruct (Hcase n Hneed) as [[-> _]|?]; [|done].
    exfalso. apply Hn. by left.
  - intros Hneed. destruct (Hcase _ Hneed) as [[_ ?]|?]; [by right|by left].
Qed.

Lemma wp_deliver ids reg al w s d rest :
  R false ids reg None al w s → (∀ n, n ∈ ids → n ∈ reg) → J [] w → w.(sim).(queue) = d :: rest →
  wp (deliver_event (Σ := RaftSig) handle_message d) (λ w' _, J [] w') (λ w' _, J [] w')
    (mkWorld (Σ := RaftSig) (set_queue rest w.(sim)) w.(objs)).
Proof.
  intros HR Hreg Hw Hq. pose proof (J_take _ _ _ Hw Hq) as Htaken.
  pose proof (R_queue _ _ _ _ _ _ _ HR d) as Hm.
  destruct Hm as (_ & Hdst & Hddst); [rewrite Hq; by left|].
  pose proof (R_reg _ _ _ _ _ _ _ HR _ (Hreg _ Hdst)) as [h Eh].
  destruct (R_handlers _ _ _ _ _ _ _ HR _ _ Eh) as (-> & _ & _).
  apply wp_bind, wp_upd_sim. simpl.
  set (w1 := mkWorld _ _) in *.
  assert (w1.(sim).(handlers) = w.(sim).(handlers)) as Hh by done.
  assert (w1.(objs).(node_ids) = ids) as Hids by apply (R_ids _ _ _ _ _ _ _ HR). clearbody w1.
  apply wp_bind, wp_gets. destruct (is_alive w1 (dst (sd_message d))) eqn:Hup; simpl.
  - apply wp_bind, wp_gets. unfold endpoint. rewrite Hddst, Hh.
    match goal with |- context [match ?x with Some _ => _ | None => _ end] =>
      replace x with (Some (dst (sd_message d))) by (symmetry; exact Eh) end.
    apply wp_bind, wp_record. intros w2 He _ _. apply wp_handle_message; [by eapply taken_ext|].
    by rewrite (se_objs _ _ _ He), Hids.
  - apply sleeps_holds; [apply sleeps_record|]. apply (J_close (dst (sd_message d))); [apply Htaken|].
    intros [Ha _]. congruence.
Qed.
End delivery.

(** ** The calls *)
Section calls.
Context {C : Type} `{EqDecision C}.
Implicit Types (w : World (RaftSig (C := C))) (n : string).
Context (ids reg : list string) (Hreg : ∀ n, n ∈ ids → n ∈ reg).

(** What the delivery loops keep. *)
Definition tended w : Prop := J [] w ∧ ∃ s, Ra false ids reg w s.

Lemma tended_deliver w d rest :
  tended w → w.(sim).(queue) = d :: rest →
  wp (deliver_event (Σ := RaftSig) handle_message d) (λ w' _, tended w') (λ w' _, J [] w')
    (mkWorld (Σ := RaftSig) (set_queue rest w.(sim)) w.(objs)).
Proof.
  intros [Hw [s HR]] Hq.
  pose proof (wp_deliver _ _ _ _ _ _ _ HR Hreg Hw Hq) as H1.
  pose proof (raft_safely_deliver (may := any_command) false ids reg (λ _, True) Hreg (λ _ _ _, I) _ _ _ _ _ HR Hq) as H2.
  eapply wp_mono; [exact (wp_and _ _ _ _ _ _ H1 H2)| |].
  - intros w' a [Hj (s' & _ & HR' & _)]. split; [done|]. exists s'. by eapply R_Ra.
  - by intros w' e [? _].
Qed.

Lemma wp_raft_run fuel k w : tended w → wp (raft_run fuel k) (λ w' _, J [] w') (λ w' _, J [] w') w.
Proof.
  intros Hw. apply wp_bind, wp_raise_if; intros _; [apply Hw|].
  eapply wp_mono; [apply (wp_run_loop _ tended (λ w' _, J [] w')); [| |done]| |done].
  - by intros w' msg [? _].
  - intros w' d rest. apply tended_deliver.
  - by intros w' a [? _].
Qed.

Lemma J_time x t w : J x w → J x (mkWorld (Σ := RaftSig) (set_time t w.(sim)) w.(objs)).
Proof. by intros []. Qed.

Lemma wp_raft_run_until fuel t w :
  tended w → wp (raft_run_until fuel t) (λ w' _, J [] w') (λ w' _, J [] w') w.
Proof.
  intros Hw. apply wp_bind, wp_gets, wp_bind, wp_raise_if; intros _; [apply Hw|].
  apply wp_bind. eapply wp_mono; [apply (wp_run_until_loop _ tended (λ w' _, J [] w')); [| |done]| |done].
  - by intros w' msg [? _].
  - intros w' d rest. apply tended_deliver.
  - intros w' a [Hj _]. apply wp_bind, wp_upd_sim, wp_ret. by apply J_time.
Qed.

Lemma J_alive x n b w :
  J x w → J (n :: x) (mkWorld (Σ := RaftSig) (set_alive (<[n := b]> w.(sim).(alive)) w.(sim)) w.(objs)).
Proof.
  intros [Hv Ht Hrs]. split; [done| |done]. intros m [Hne Hm]%not_elem_of_cons (Ha & Hr & Hto).
  apply Ht; [done|]. split_and!; [|done..]. unfold is_alive in *. simpl in Ha.
  by rewrite lookup_insert_ne in Ha.
Qed.

Lemma J_net_ext x w w' : net_ext w w' → J x w → J x w'.
Proof.
  intros He [Hv Ht Hrs]. assert (w'.(objs) = w.(objs)) as Ho by apply He. split.
  - intros n. unfold dur, durable. rewrite (ne_persistent _ _ He). apply Hv.
  - intros n Hx (Ha & Hr & Hto). unfold pending, timer. rewrite Ho, (ne_queue _ _ He).
    apply Ht; [done|]. split_and!; [| |by rewrite <-Ho].
    + unfold is_alive in *. by rewrite (ne_alive _ _ He) in Ha.
    + unfold vol, volatile in *. by rewrite (ne_volatile _ _ He) in Hr.
  - rewrite (ne_handlers _ _ He), (ne_restart _ _ He). exact Hrs.
Qed.

Lemma holds_net_only (m : M _ unit) x : net_only m → holds (C := C) x m.
Proof.
  intros Hm w Hw. eapply wp_mono; [apply Hm| |].
  - intros w' a He. exact (J_net_ext _ _ _ He Hw).
  - intros w' e [He _]. exact (J_net_ext _ _ _ He Hw).
Qed.

Lemma keeps_handle_crash n : keeps (handle_crash (C := C) n).
Proof.
  unfold handle_crash. apply keeps_bind; [apply keeps_gets|intros []; [|apply keeps_ret]].
  apply keeps_bind; [apply keeps_gets|intros d]. apply keeps_bind; [apply keeps_retired|]. intros _.
  apply keeps_ret.
Qed.

Lemma sleeps_handle_crash n : sleeps (handle_crash (C := C) n).
Proof. unfold handle_crash. pose proof (sleeps_retired (C := C)). auto 10 with distlab. Qed.

Lemma holds_crash n : holds (C := C) [] (raft_crash n).
Proof.
  intros w Hw. apply wp_bind. unfold validate_node. apply wp_bind, wp_gets, wp_raise_if; intros _; [done|].
  apply wp_bind, wp_upd_sim. apply J_alive with (n := n) (b := false) in Hw. set (w1 := mkWorld _ _) in *.
  assert (is_alive w1 n = false) as Hup by (unfold is_alive; simpl; by rewrite lookup_insert_eq).
  clearbody w1. apply wp_bind, wp_record. intros w2 He _ _. apply wp_bind, wp_gets, wp_bind.
  apply J_ext with (1 := He) in Hw.
  assert (is_alive w2 n = false) as Hup2 by (unfold is_alive in *; by rewrite (se_alive _ _ _ He)).
  assert (∀ w3, J [n] w3 → still w2 w3 → wp (clear_volatile (Σ := RaftSig) n)
    (λ w' _, J [] w') (λ w' _, J [] w') w3) as Hclear.
  { intros w3 Hw3 [_ Ha]. apply (wp_upd_vol n). apply (J_close n).
    - apply J_vol; [left; by left|done].
    - intros [Ha' _]. unfold is_alive in *. simpl in Ha'. rewrite Ha in Ha'. congruence. }
  destruct (crash_handlers _ !! n) as [h|]; [|by apply wp_ret, Hclear].
  eapply wp_mono; [eapply wp_and; [by apply sleeps_handle_crash|by apply keeps_handle_crash]| |by intros ?? [[] _]].
  intros w3 a [Hw3 Hs]. by apply Hclear.
Qed.

Lemma rearms_handle_restart n : rearms (C := C) n (handle_restart n).
Proof.
  unfold handle_restart. apply rearms_r; [auto with distlab|intros active].
  apply rearms_r.
  { pose proof (sleeps_retired (C := C)). destruct active as [[t g]|]; auto 10 with distlab. }
  intros _. apply rearms_r; [unfold validate_persistent_log; auto with distlab|intros _].
  intros w Hw. apply wp_bind, wp_cancel_timer. set (w1 := timer_world _ _ _).
  assert (J [n] w1) as Hw1 by (apply J_cancel; [by left|done]). clearbody w1. clear Hw w. revert w1 Hw1.
  change (rearms (C := C) n (reset_volatile_defaults n ;;
    let! d := gets (λ w, dur w n) in
    let! li := last_log_index n in
    let! lt := last_log_term n in
    trace_rec (RRaftRestart n d.(current_term) d.(voted_for) d.(log_base_index) d.(log_base_term) li lt) ;;
    reset_election_timeout n "restart")).
  apply rearms_vol. apply rearms_r; [auto with distlab|intros d].
  apply rearms_r; [apply sleeps_last_log_index|intros li].
  apply rearms_r; [apply sleeps_last_log_term|intros lt].
  apply rearms_r; [auto with distlab|intros _]. apply rearms_reset.
Qed.

Lemma holds_restart n : holds (C := C) [] (raft_restart n).
Proof.
  intros w Hw. apply wp_bind. unfold validate_node. apply wp_bind, wp_gets, wp_raise_if; intros Hk; [done|].
  apply negb_false_iff, bool_decide_eq_true in Hk. pose proof (J_restart _ _ Hw n Hk) as Hrs.
  apply wp_bind, wp_upd_sim. apply J_alive with (n := n) (b := true) in Hw. set (w1 := mkWorld _ _) in *.
  assert (restart_handlers w1.(sim) !! n = Some n) as Hrs1 by done. clearbody w1.
  apply wp_bind, (wp_upd_vol n). set (w2 := vol_world n _ w1).
  assert (J [n] w2) as Hw2 by (apply J_vol; [left; by left|done]).
  assert (restart_handlers w2.(sim) !! n = Some n) as Hrs2 by done. clearbody w2.
  apply wp_bind, wp_record. intros w3 He _ _. apply wp_bind, wp_gets.
  rewrite (se_restart _ _ _ He). match goal with |- context [match ?x with Some _ => _ | None => _ end] =>
    replace x with (Some n) by (symmetry; exact Hrs2) end.
  apply rearms_handle_restart. by eapply J_ext.
Qed.

Lemma holds_register_observer x o b : holds (C := C) x (register_leadership_observer o b).
Proof. unfold register_leadership_observer. auto 15 with distlab. Qed.

Lemma holds_node {A} x n (k : string → M _ A) : (∀ n, holds (C := C) x (k n)) → holds x (bind (node n) k).
Proof. intros Hk. apply holds_bind; [|done]. unfold node. auto 10 with distlab. Qed.

Lemma holds_unit {A} x (m : M _ A) : holds (C := C) x m → holds x (m ;; ret tt).
Proof. intros Hm. apply holds_bind; [done|]. intros _. apply sleeps_holds, sleeps_ret. Qed.

Lemma wp_exec_op (o : raft_op (C := C)) w :
  tended w → wp (exec_op o) (λ w' _, J [] w') (λ w' _, J [] w') w.
Proof.
  intros Hw. destruct o; simpl;
    try (apply (holds_net_only _ []); [solve [auto with distlab]|apply Hw]);
    try (apply holds_node; [intros m|apply Hw]).
  - apply (rearms_holds m), rearms_start_election.
  - apply (rearms_holds m), rearms_start_pre_vote.
  - apply holds_unit, holds_step_down.
  - apply holds_send_append_entries.
  - apply holds_unit, holds_advance_commit.
  - apply holds_reset.
  - apply holds_register_observer, Hw.
  - apply wp_bind. eapply wp_mono; [by apply wp_raft_run|by intros|done].
  - apply wp_bind. eapply wp_mono; [by apply wp_raft_run_until|by intros|done].
  - apply holds_crash, Hw.
  - apply holds_restart, Hw.
  - apply holds_assert_log_matching, Hw.
Qed.
End calls.

(** ** Booting *)
Section boot.
Context {C : Type} `{EqDecision C} (ids : list string) (ts : option (gmap string Z)).
Implicit Types (w : World (RaftSig (C := C))) (n : string).

Lemma J_booted plan (disks : gmap string RaftDurable) :
  timeouts_ok ids ts → (∀ n, view_wf (view_of (dur (booted (C := C) ids ts plan disks) n))) →
  J ids (booted (C := C) ids ts plan disks).
Proof.
  intros Hts Hv. split; [done| |by intros n [? ?]].
  intros n Hn (_ & _ & [t Ht]). exfalso. simpl in Ht. unfold timeouts_ok in Hts.
  destruct ts as [m|]; simpl in Ht; [|by rewrite lookup_empty in Ht].
  destruct Hts as [Hdom _]. apply Hn. apply (elem_of_list_to_set (C := gset string)).
  rewrite <-Hdom. by eapply elem_of_dom_2.
Qed.

Lemma wp_register_timers l w :
  l ⊆ ids → J ids w →
  wp (for_each l (λ n, register (Σ := RaftSig) n n (Some n) (Some n)))
    (λ w' _, J ids w') (λ _ _, True) w.
Proof.
  intros Hl Hw. apply (wp_for_each _ _ (J ids)); [done|]. intros n w1 Hin Hw1.
  unfold register. apply wp_bind, wp_gets, wp_bind, wp_raise_if; intros _; [done|].
  do 3 apply wp_bind, wp_upd_sim. apply wp_upd_sim. simpl. destruct Hw1 as [Hv Ht Hrs]. split.
  - done.
  - intros m Hm (Ha & Hr & Hto). apply Ht; [done|]. split_and!; [|done..].
    unfold is_alive in *. simpl in Ha. rewrite lookup_insert_ne in Ha; [done|].
    intros <-. by apply Hm, Hl.
  - intros m. simpl. intros [h [[<- _]|[Hne Hh]]%lookup_insert_Some].
    + by rewrite lookup_insert_eq.
    + rewrite lookup_insert_ne by done. apply Hrs. by exists h.
Qed.

Lemma wp_reset_all (l : list string) r w E :
  J l w → wp (for_each l (λ n, reset_election_timeout (C := C) n r)) (λ w' _, J [] w') E w.
Proof.
  revert w. induction l as [|n l IH]; intros w Hw; simpl; [done|].
  apply wp_bind. eapply wp_mono; [by apply (wp_reset n r l w E)| |by intros]. intros w' a. apply IH.
Qed.

Lemma wp_boot_timers plan disks :
  timeouts_ok ids ts → (∀ n, view_wf (view_of (dur (booted (C := C) ids ts plan disks) n))) →
  wp (init_cluster ids ts) (λ w' _, J (C := C) [] w') (λ _ _, True) (boot_world plan disks).
Proof.
  intros Hts Hv. unfold init_cluster.
  do 2 (apply wp_bind, wp_raise_if; intros _; [done|]). apply wp_bind.
  assert (∀ (m : M (World (RaftSig (C := C))) unit) (Q : _ → _ → Prop), (∀ w, wp m (λ w' _, w' = w) (λ _ _, True) w) →
    Q (boot_world plan disks) tt → wp m Q (λ _ _, True) (boot_world plan disks)) as Hpure.
  { intros m Q Hm HQ. eapply wp_mono; [apply Hm| |done]. by intros w' [] ->. }
  apply Hpure.
  { intros w. destruct ts as [m|]; [|done]. apply wp_bind, wp_raise_if; intros _; [done|].
    by apply wp_raise_if. }
  apply wp_bind, wp_modify. change (mkWorld _ _) with (booted (C := C) ids ts plan disks).
  pose proof (J_booted plan disks Hts Hv) as Hw.
  apply wp_bind. eapply wp_mono; [|intros w1 a1 Hw1|].
  { apply (wp_for_each _ _ (J ids) (λ _ _, True)); [exact Hw|]. intros n w _ Hwn.
    assert (sleeps (C := C) (validate_persistent_log n ;; reset_volatile_defaults n)) as Hq.
    { unfold validate_persistent_log, reset_volatile_defaults. auto 10 with distlab. }
    eapply wp_mono; [by apply Hq|done|done]. }
  2: done.
  apply wp_bind. eapply wp_mono; [by apply (wp_register_timers ids)| |done].
  intros w2 a2 Hw2. by apply wp_reset_all.
Qed.

(** The invariant of every reachable world. *)
Lemma reachable_timers w : reachable (C := C) ids ts w → J [] w.
Proof.
  intros Hr. induction Hr as [plan w Hw|w o w' r Hw IH Hwf Ho|w plan w' Hw IH Hi].
  - destruct (init_cluster_checks _ _ _ _ Hw) as (_ & _ & Hts).
    pose proof (wp_boot_timers plan ∅ Hts) as Hwp. unfold wp in Hwp. rewrite Hw in Hwp.
    apply Hwp. intros n. apply (R_dur _ _ _ _ _ _ _ (raft_R_empty false ids ts plan) n).
  - destruct (raft_reachable_follows _ _ _ Hw) as (_ & _ & _ & s & _ & HR).
    pose proof (wp_exec_op ids ids ltac:(done) o w ltac:(split; [done|by exists s])) as Hwp.
    unfold wp in Hwp. rewrite Ho in Hwp. by destruct r.
  - destruct (raft_reachable_follows _ _ _ Hw) as (_ & _ & Hts & s & _ & HR).
    pose proof (wp_boot_timers plan w.(sim).(persistent_state) Hts) as Hwp. unfold wp in Hwp. rewrite Hi in Hwp.
    apply Hwp. intros n. apply (R_dur _ _ _ _ _ _ _ (raft_R_boot false ids ts _ _ _ plan _ _ HR) n).
Qed.

(** C26: whatever has been called, delivered, crashed or rebooted, a node that
    is up, is not a leader and has an election timeout has the event of its
    current timer in the queue, at the timer's deadline: an election can always
    start without outside help. *)
Theorem raft_timer_pending w n t :
  reachable (C := C) ids ts w → is_alive w n = true → (vol w n).(role) ≠ LEADER →
  w.(objs).(timeouts) !! n = Some t →
  ∃ dl e, (timer w n).(deadline) = Some dl ∧ e ∈ w.(sim).(queue) ∧ e.(sd_time) = dl
    ∧ e.(sd_message) = timer_message n (timer w n).(generation) (Some dl).
Proof.
  intros Hr Ha Hrole Ht. apply reachable_timers in Hr as [_ Hj _].
  destruct (Hj n ltac:(set_solver)) as (dl & Hdl & e & ? & ? & ?); [by split_and!|]. by exists dl, e.
Qed.
End boot.
