(* ===== verification/DriverWitnesses.v ===== *)
(** * DriverWitnesses: the properties of Raft and of driven clusters at concrete ones

    Three nodes without election timers: [n1] is elected, appends two entries
    and replicates them to [n2]; then it crashes and [n2] leads the next term,
    recovers [n3], and the cluster is rebooted. *)

From stdpp Require Import relations.
From S2P Require Import Prelude Simulator Quorum LogIndex RaftSpec Raft Replication RaftRefine RaftSafe ReplicationRefine LeaderLiveness Driver DriverRefine RaftProperties DriverProperties RaftTimers.

Section exec.
Context {C : Type} `{EqDecision C}.
Implicit Types (d : DriveWorld (C := C)).

Definition drive_ops (l : list (drive_op (C := C))) d : DriveWorld := foldl (λ d o, (exec_drive o d).1) d l.

(** Calls that need no condition on the world *)
Definition plain_op (o : drive_op (C := C)) : Prop :=
  match o with
  | DCall (OpSendAppendEntries _ _ _ _ _) | DCall (OpAdvanceCommit _ _ _) => False
  | _ => True
  end.

Lemma plain_drive_ok d o : plain_op o → drive_ok d o.
Proof. destruct o as [[]| | | | | | | | | |]; simpl; intros []; split; exact I. Qed.

Lemma drive_nexts ids ts l d : Forall plain_op l → rtc (drive_next ids ts) d (drive_ops l d).
Proof.
  revert d. induction l as [|o l IH]; intros d Hl; [reflexivity|].
  apply Forall_cons in Hl as [Ho Hl]. eapply rtc_l; [|by apply IH].
  eapply drive_call; [by apply plain_drive_ok|apply surjective_pairing].
Qed.

Lemma driven_ops ids ts l d : driven ids ts d → Forall plain_op l → driven ids ts (drive_ops l d).
Proof.
  revert d. induction l as [|o l IH]; intros d Hd Hl; [exact Hd|].
  apply Forall_cons in Hl as [Ho Hl]. apply IH; [|exact Hl].
  eapply driven_next; [exact Hd|]. eapply drive_call; [by apply plain_drive_ok|apply surjective_pairing].
Qed.
End exec.

Lemma outcome_of {A B} (p q : A * B) r : p = q → q.2 = r → p = (q.1, r).
Proof. destruct q. simpl. by intros -> ->. Qed.

Definition drive_start : DriveWorld (C := string) :=
  mkDriveWorld (init_cluster ["n1"; "n2"; "n3"] None (boot_world [] ∅)).1 [].

Lemma drive_start_driven : driven ["n1"; "n2"; "n3"] None drive_start.
Proof.
  apply (driven_init _ _ []). unfold drive_start. simpl.
  rewrite <-(surjective_pairing (init_cluster ["n1"; "n2"; "n3"] None (boot_world [] ∅))) at 1.
  vm_compute. reflexivity.
Qed.

(** [n1] commits two entries with [n2]; [n3] is cut off. *)
Definition drive1 : DriveWorld (C := string) := drive_ops
  [DCall (OpStartElection "n1"); DCall (OpRun 50 None); DCall (OpPartition ["n3"] ["n1"; "n2"]);
   DBarrier "n1" "x"; DBarrier "n1" "y"; DNew "n1"; DReplicate 0 50 0 "n2" (Some 3)] drive_start.

(** It crashes; [n2] leads term 2 and brings [n3] up to date. *)
Definition drive2 : DriveWorld (C := string) := drive_ops
  [DCall (OpHealPartition ["n3"] ["n1"; "n2"]); DCall (OpCrash "n1"); DCall (OpStartElection "n2");
   DCall (OpRun 50 None); DBarrier "n2" "z"; DNew "n2"; DReplicate 1 50 0 "n3" (Some 5)] drive1.

(** Recovering a peer that is already up to date, on an edge the dead node
    does not touch *)
Definition drive3 : DriveWorld (C := string) * (exn + bool) :=
  of_replicator 1 (recover_peer 50 10 "n3" (Some 3)) drive2.

Lemma drive1_driven : driven ["n1"; "n2"; "n3"] None drive1.
Proof. apply driven_ops; [exact drive_start_driven|repeat constructor]. Qed.

Lemma drive1_drive2 : rtc (drive_next ["n1"; "n2"; "n3"] None) drive1 drive2.
Proof. apply drive_nexts. repeat constructor. Qed.

Lemma drive2_driven : driven ["n1"; "n2"; "n3"] None drive2.
Proof. apply driven_ops; [exact drive1_driven|repeat constructor]. Qed.

Definition barrier_terms (l : list (LogEntry string)) : list (Z * string) :=
  (λ e, (e.(le_term), e.(le_command))) <$> l.

Lemma drive1_committed :
  barrier_terms (committed_log drive1.(dw_cluster) "n1") = [(1, "x"); (1, "y")].
Proof. vm_compute. reflexivity. Qed.

Lemma drive2_committed :
  barrier_terms (committed_log drive2.(dw_cluster) "n2") = [(1, "x"); (1, "y"); (2, "z")].
Proof. vm_compute. reflexivity. Qed.

Lemma drive2_leads : leads drive2.(dw_cluster) "n2" 2.
Proof. split; vm_compute; reflexivity. Qed.

Lemma raft_state_machine_safety_witness :
  barrier_terms (committed_log drive1.(dw_cluster) "n1") = [(1, "x"); (1, "y")]
  ∧ barrier_terms (committed_log drive2.(dw_cluster) "n2") = [(1, "x"); (1, "y"); (2, "z")]
  ∧ (committed_log drive1.(dw_cluster) "n1" `prefix_of` committed_log drive2.(dw_cluster) "n2"
     ∨ committed_log drive2.(dw_cluster) "n2" `prefix_of` committed_log drive1.(dw_cluster) "n1").
Proof.
  split; [exact drive1_committed|]. split; [exact drive2_committed|].
  exact (raft_state_machine_safety _ _ _ _ "n1" "n2" drive1_driven drive1_drive2).
Defined.

Lemma raft_leader_completeness_witness :
  barrier_terms (committed_log drive1.(dw_cluster) "n1") = [(1, "x"); (1, "y")]
  ∧ leads drive2.(dw_cluster) "n2" 2
  ∧ committed_log drive1.(dw_cluster) "n1" `prefix_of` (dur drive2.(dw_cluster) "n2").(log).
Proof.
  split; [exact drive1_committed|]. split; [exact drive2_leads|].
  refine (raft_leader_completeness _ _ _ _ "n1" "n2" 2 drive1_driven drive1_drive2 drive2_leads _).
  apply Z.leb_le. vm_compute. reflexivity.
Defined.

Lemma raft_committed_durable_witness :
  barrier_terms (committed_log drive1.(dw_cluster) "n1") = [(1, "x"); (1, "y")]
  ∧ ∃ Q, majority ["n1"; "n2"; "n3"] Q ∧ ∀ v, v ∈ Q →
      committed_log drive1.(dw_cluster) "n1" `prefix_of` (dur drive2.(dw_cluster) v).(log).
Proof.
  split; [exact drive1_committed|].
  exact (raft_committed_durable _ _ _ _ "n1" drive1_driven drive1_drive2).
Defined.

Lemma raft_log_matching_witness :
  take 2 (dur drive2.(dw_cluster) "n1").(log) = take 2 (dur drive2.(dw_cluster) "n3").(log).
Proof.
  refine (raft_log_matching _ _ _ "n1" "n3" 1 (mkLogEntry 1 "y") (mkLogEntry 1 "y") drive2_driven _ _ _);
    vm_compute; reflexivity.
Defined.

(** [n2] appends once more while it leads term 2. *)
Definition drive4 : DriveWorld (C := string) := drive_ops [DBarrier "n2" "w"] drive2.

Lemma raft_leader_append_only_witness :
  length (dur drive4.(dw_cluster) "n2").(log) = 4%nat
  ∧ (dur drive2.(dw_cluster) "n2").(log) `prefix_of` (dur drive4.(dw_cluster) "n2").(log).
Proof.
  split; [vm_compute; reflexivity|].
  refine (raft_leader_append_only _ _ _ _ "n2" 2 drive2_driven _ drive2_leads _).
  - apply drive_nexts. repeat constructor.
  - split; vm_compute; reflexivity.
Defined.

(** Replicating to the dead node *)
Definition drive_missing := exec_drive (DReplicate 1 50 0 "n1" (Some 1)) drive2.

Lemma drive_call_errors_witness :
  ∃ e, drive_missing.2 = inl e ∧ e.(exn_cls) = ReplicationResponseMissing
  ∧ e.(exn_cls) ∈ drive_errors (C := string) (DReplicate 1 50 0 "n1" (Some 1)).
Proof.
  destruct drive_missing.2 as [e|] eqn:E; [|vm_compute in E; discriminate].
  exists e. split; [reflexivity|]. split.
  - change (match @inl exn unit e with inl e => exn_cls e | _ => OutOfFuel end = ReplicationResponseMissing).
    rewrite <-E. vm_compute. reflexivity.
  - refine (drive_call_errors _ _ _ _ drive_missing.1 e drive2_driven _ _).
    + split; exact I.
    + apply (outcome_of _ drive_missing); [unfold drive_missing; reflexivity|exact E].
Defined.

Lemma replicator_knows_witness :
  ∃ r, drive1.(dw_replicators) !! 0%nat = Some r ∧ r.(rep_commit_index) = 2
  ∧ take 2 (dur drive1.(dw_cluster) "n1").(log) `prefix_of` (dur drive2.(dw_cluster) "n2").(log).
Proof.
  destruct (drive1.(dw_replicators) !! 0%nat) as [r|] eqn:E; [|vm_compute in E; discriminate].
  exists r. split; [reflexivity|].
  assert (leader r = "n1" ∧ rep_term r = 1 ∧ rep_commit_index r = 2) as (Hl & Ht & Hc).
  { change (let r := default r (Some r) in leader r = "n1" ∧ rep_term r = 1 ∧ rep_commit_index r = 2).
    rewrite <-E. vm_compute. auto. }
  split; [exact Hc|].
  destruct (replicator_knows _ _ drive1 drive2 0 r "n2" 2 drive1_driven E) as (_ & _ & _ & H).
  - rewrite Hl, Ht. split; vm_compute; reflexivity.
  - exact drive1_drive2.
  - exact drive2_leads.
  - rewrite Ht. lia.
  - rewrite Hl, Hc in H. exact H.
Defined.

Lemma recover_peer_complete_witness :
  ∃ r p, drive3.1.(dw_replicators) !! 1%nat = Some r ∧ r.(progress) !! "n3" = Some p
    ∧ leads drive3.1.(dw_cluster) r.(leader) r.(rep_term)
    ∧ p.(match_index) = zlen (dur drive3.1.(dw_cluster) r.(leader)).(log)
    ∧ take (Z.to_nat r.(rep_commit_index)) (dur drive3.1.(dw_cluster) r.(leader)).(log)
        `prefix_of` committed_log drive3.1.(dw_cluster) "n3".
Proof.
  refine (recover_peer_complete ["n1"; "n2"; "n3"] None drive2 1 50 10 "n3" (Some 3) drive3.1 drive2_driven _).
  apply (outcome_of _ drive3); [unfold drive3; reflexivity|vm_compute; reflexivity].
Defined.

(** With [n3] cut off, [n1] runs a CheckQuorum round and, as another way to go
    on, three heartbeats; cut off itself, it cannot confirm a quorum. *)
Definition watch : LeaderQuorumMonitor := mkMonitor 1.
Definition beat (d : DriveWorld (C := string)) : LeaderHeartbeatController :=
  mkController watch 10 4 (d.(dw_cluster).(sim).(time) + 10) 0.
Definition drive_quorum := of_replicator 0 (quorum_round 50 watch (Sequential 2)) drive1.
Definition drive_beats := of_replicator 0 (with_controller (beat drive1) (run_heartbeats 50 3)) drive1.
Definition drive_alone : DriveWorld (C := string) := drive_ops [DCall (OpPartition ["n1"] ["n2"; "n3"])] drive1.
Definition drive_noquorum := of_replicator 0 (quorum_round 50 watch (Window 4)) drive_alone.

Lemma drive_alone_driven : driven ["n1"; "n2"; "n3"] None drive_alone.
Proof. apply driven_ops; [exact drive1_driven|repeat constructor]. Qed.

(** The replicator at position 0 *)
Lemma rep0 (d : DriveWorld (C := string)) :
  ((λ r, (leader r, rep_term r)) <$> d.(dw_replicators) !! 0%nat) = Some ("n1", 1) →
  ∃ r, d.(dw_replicators) !! 0%nat = Some r ∧ leader r = "n1" ∧ rep_term r = 1.
Proof.
  destruct (d.(dw_replicators) !! 0%nat) as [r|]; simpl; [|discriminate]. intros E. injection E as E1 E2. by exists r.
Defined.

Lemma check_quorum_sound_witness :
  (∃ r ev, drive_quorum.2 = inr ev ∧ ev.(qe_acknowledged_voters) = ["n1"; "n2"]
     ∧ leads drive_quorum.1.(dw_cluster) "n1" 1
     ∧ backed ["n1"; "n2"; "n3"] (answers (length (trace_of drive1.(dw_cluster))) drive_quorum.1.(dw_cluster) r) r ev)
  ∧ ¬ leads drive_noquorum.1.(dw_cluster) "n1" 1.
Proof.
  destruct (rep0 drive1) as (r & Hr & El & Et); [vm_compute; reflexivity|].
  destruct (rep0 drive_alone) as (r' & Hr' & El' & Et'); [vm_compute; reflexivity|]. split.
  - exists r. eexists. split; [vm_compute; reflexivity|]. split; [reflexivity|].
    destruct (check_quorum_sound ["n1"; "n2"; "n3"] None drive1 0 r 50 watch (Sequential 2) drive_quorum.1 _ drive1_driven Hr
      (outcome_of _ drive_quorum (inr (mkQuorumEvidence "n1" 1 ["n2"] ["n1"; "n2"] "stable" 2)) ltac:(unfold drive_quorum; reflexivity) ltac:(vm_compute; reflexivity)))
      as (_ & Hl & Hb).
    rewrite El, Et in Hl. split; [exact Hl|exact Hb].
  - rewrite <-El', <-Et'.
    apply (check_quorum_sound ["n1"; "n2"; "n3"] None drive_alone 0 r' 50 watch (Window 4) drive_noquorum.1 _ drive_alone_driven Hr'
      (outcome_of _ drive_noquorum (inl (Exn LeaderQuorumUnavailable "leader could not confirm the active voting quorum")) ltac:(unfold drive_noquorum; reflexivity) ltac:(vm_compute; reflexivity))).
    reflexivity.
Defined.

Lemma heartbeat_schedule_witness :
  ∃ r rs, drive_beats.2 = inr rs ∧ zlen rs = 3 ∧ leads drive_beats.1.(dw_cluster) "n1" 1
  ∧ ∀ k b, rs !! k = Some b →
      timed (mkHeartbeatWorld (mkRepWorld drive1.(dw_cluster) r) (beat drive1)) k b
      ∧ backed ["n1"; "n2"; "n3"] (answers (length (trace_of drive1.(dw_cluster))) drive_beats.1.(dw_cluster) r) r b.(hr_evidence).
Proof.
  destruct (rep0 drive1) as (r & Hr & El & Et); [vm_compute; reflexivity|].
  destruct drive_beats.2 as [e|rs] eqn:E; [vm_compute in E; discriminate|].
  destruct (heartbeat_schedule ["n1"; "n2"; "n3"] None drive1 0 r 50 (beat drive1) 3 drive_beats.1 rs drive1_driven Hr)
    as (Hlen & Hl & Hall).
  - vm_compute. discriminate.
  - apply (outcome_of _ drive_beats); [unfold drive_beats; reflexivity|exact E].
  - rewrite El, Et in Hl. exists r, rs. split; [reflexivity|]. split; [exact Hlen|]. split; [exact Hl|exact Hall].
Defined.

(** ** The properties of [raft.py] at a concrete cluster

    Three nodes with election timeouts: a campaign by timer that survives a
    lost message, log replication, a leader that crashes, a second leader, and
    a reboot of the cluster over its disks.  The last example shows a
    leadership generation that outlives its leader. *)

Section exec.
Context {C : Type} `{EqDecision C}.
Implicit Types (w : World (RaftSig (C := C))).

Definition raft_exec_ops (l : list (raft_op (C := C))) w : World RaftSig :=
  foldl (λ w o, (exec_op o w).1) w l.

Lemma raft_exec_nexts ids ts l w :
  Forall op_wf l → rtc (next ids ts) w (raft_exec_ops l w).
Proof.
  revert w. induction l as [|o l IH]; intros w Hl; [reflexivity|].
  apply Forall_cons in Hl as [Ho Hl]. eapply rtc_l; [|by apply IH].
  eapply next_call; [exact Ho|apply surjective_pairing].
Qed.

Lemma raft_reachable_exec ids ts l w :
  reachable ids ts w → Forall op_wf l → reachable ids ts (raft_exec_ops l w).
Proof.
  revert w. induction l as [|o l IH]; intros w Hw Hl; [exact Hw|].
  apply Forall_cons in Hl as [Ho Hl]. apply IH; [|exact Hl].
  eapply reach_op; [exact Hw|exact Ho|apply surjective_pairing].
Qed.

Definition raft_cluster ids ts plan : World (RaftSig (C := C)) :=
  (init_cluster ids ts (boot_world plan ∅)).1.

Lemma raft_reachable_cluster ids ts plan l :
  (init_cluster (C := C) ids ts (boot_world plan ∅)).2 = inr tt → Forall op_wf l →
  reachable ids ts (raft_exec_ops l (raft_cluster ids ts plan)).
Proof.
  intros Hi Hl. apply raft_reachable_exec; [|exact Hl]. apply (reach_init _ _ plan).
  unfold raft_cluster. rewrite <-Hi. apply surjective_pairing.
Qed.
End exec.

Definition raft_ids : list string := ["n1"; "n2"; "n3"].
Definition raft_timeouts : option (gmap string Z) :=
  Some (list_to_map [("n1", 5); ("n2", 9); ("n3", 13)]).
Definition raft_plan : FaultPlan := [mkFaultRule DROP None (Some "n3") (Some 1) (Some "RequestVote") 0].

(** [n1] times out, wins term 1 and replicates an entry to [n2]. *)
Definition raft_ops1 : list (raft_op (C := string)) :=
  [OpRunUntil 100 10;
   OpSendAppendEntries "n1" "n2" (Some 0) [mkLogEntry 1 "x"] (Some 0)].
Definition raft_demo1 : World (RaftSig (C := string)) :=
  raft_exec_ops raft_ops1 (raft_cluster raft_ids raft_timeouts raft_plan).

Lemma raft_demo1_reachable : reachable raft_ids raft_timeouts raft_demo1.
Proof. apply raft_reachable_cluster; [vm_compute; reflexivity|]. by repeat constructor. Qed.

(** It crashes and [n2], or [n3], leads a later term. *)
Definition raft_ops2 : list (raft_op (C := string)) :=
  [OpRunUntil 100 12; OpCrash "n1"; OpRunUntil 200 40].
Definition raft_demo2 : World (RaftSig (C := string)) := raft_exec_ops raft_ops2 raft_demo1.

Lemma raft_demo2_nexts : rtc (next raft_ids raft_timeouts) raft_demo1 raft_demo2.
Proof. apply raft_exec_nexts. by repeat constructor. Qed.

Lemma raft_demo2_reachable : reachable raft_ids raft_timeouts raft_demo2.
Proof. apply raft_reachable_exec; [apply raft_demo1_reachable|]. by repeat constructor. Qed.

Definition raft_demo1' : World (RaftSig (C := string)) := raft_exec_ops [OpRunUntil 100 12] raft_demo1.

Lemma raft_election_safety_witness : leads raft_demo1 "n1" 1 ∧ leads raft_demo1' "n1" 1 ∧ "n1" = "n1".
Proof.
  assert (leads raft_demo1 "n1" 1) as H1 by (split; vm_compute; reflexivity).
  assert (leads raft_demo1' "n1" 1) as H2 by (split; vm_compute; reflexivity).
  split; [exact H1|]. split; [exact H2|].
  apply (raft_election_safety raft_ids raft_timeouts raft_demo1 raft_demo1' "n1" "n1" 1);
    [exact raft_demo1_reachable| |exact H1|exact H2].
  apply raft_exec_nexts. by repeat constructor.
Defined.

Lemma raft_call_errors_witness :
  ∃ e, (exec_op (OpStartElection "n1") raft_demo2).2 = inl e ∧ exn_cls e ∈ [KeyError; RuntimeError].
Proof.
  exists (Exn RuntimeError "crashed node cannot start an election").
  split; [vm_compute; reflexivity|].
  refine (raft_call_errors raft_ids raft_timeouts raft_demo2 (OpStartElection "n1") _ _
    raft_demo2_reachable I _). vm_compute. reflexivity.
Defined.

Lemma raft_term_vote_final_witness :
  (dur raft_demo2 "n2").(current_term)
    ≤ (dur (raft_exec_ops [OpStartElection "n2"] raft_demo2) "n2").(current_term).
Proof.
  refine (proj1 (raft_term_vote_final raft_ids raft_timeouts raft_demo2 _ "n2" raft_demo2_reachable _)).
  exact (next_call raft_ids raft_timeouts raft_demo2 (OpStartElection "n2") _ _ I (surjective_pairing _)).
Defined.

Lemma raft_leader_backed_witness : quorum_size raft_ids ≤ Z.of_nat (size (supporters raft_ids raft_demo2 1 "n1")).
Proof.
  refine (raft_leader_backed raft_ids raft_timeouts raft_demo2 "n1" 1 raft_demo2_reachable _).
  vm_compute. reflexivity.
Defined.

Lemma raft_leader_generation_witness :
  ∃ g, raft_demo2.(objs).(active_leader_generations) !! "n2" = Some ((dur raft_demo2 "n2").(current_term), g).
Proof.
  destruct (raft_leader_generation raft_ids raft_timeouts raft_demo2 "n2" raft_demo2_reachable)
    as (_ & g & Hg & _); [vm_compute; reflexivity|]. by exists g.
Defined.

Lemma raft_reboot_witness :
  ∃ w', init_cluster raft_ids raft_timeouts (boot_world [] raft_demo2.(sim).(persistent_state)) = (w', inr tt)
    ∧ dur w' "n2" = dur raft_demo2 "n2".
Proof.
  destruct (raft_reboot raft_ids raft_timeouts raft_demo2 [] raft_demo2_reachable) as (w' & Hi & Hw').
  exists w'. split; [exact Hi|]. apply Hw'.
Defined.

Lemma raft_timer_pending_witness :
  ∃ dl, (timer raft_demo2 "n3").(deadline) = Some dl.
Proof.
  destruct (raft_timer_pending raft_ids raft_timeouts raft_demo2 "n3" 13 raft_demo2_reachable)
    as (dl & _ & Hdl & _); [vm_compute; congruence..|]. exists dl. exact Hdl.
Defined.

(** [n1] calls another election while it leads term 1, is cut off, loses it and
    follows [n2], the leader of term 3. *)
Definition raft_superseded : World (RaftSig (C := string)) := raft_exec_ops
  [OpRunUntil 100 10; OpStartElection "n1"; OpPartition ["n1"] ["n2"; "n3"]; OpRunUntil 100 24;
   OpHealPartition ["n1"] ["n2"; "n3"]; OpRunUntil 100 28] (raft_cluster raft_ids raft_timeouts []).

(** [start_election] does not retire the generation of a leader that calls
    it: a leader that starts another election and loses stays in the table of
    active leaders, as a follower beside the leader of a later term. *)
Example raft_stale_generation :
  reachable raft_ids raft_timeouts raft_superseded
  ∧ (vol raft_superseded "n1").(role) = FOLLOWER ∧ (vol raft_superseded "n2").(role) = LEADER
  ∧ raft_superseded.(objs).(active_leader_generations) !! "n1" = Some (1, 1)
  ∧ raft_superseded.(objs).(active_leader_generations) !! "n2" = Some (3, 2).
Proof.
  split_and!; [|vm_compute; reflexivity..].
  apply raft_reachable_cluster; [vm_compute; reflexivity|]. by repeat constructor.
Qed.
