(* ===== verification/AppWorld.v ===== *)
(** * AppWorld: the world of the replicated key/value store

    The state that [state_machine.py], [kv.py] and [snapshot.py] keep on top of
    a Raft cluster.  [AppWorld] holds the Raft world, the durable keys these
    modules add to a node's persistent dictionary ([AppDurable]; Raft's own keys
    stay in its world), the dictionaries of one [StateMachineApplier] and of one
    [ReplicatedKV], and the trace records they write, which are kept apart from
    the simulator's. *)

From S2P Require Import Prelude Simulator LogIndex KVCommands Raft.

(** What a Raft entry can carry: the members of [KVCommand], the membership
    commands [ReplicatedKV] skips, and anything else. *)
Inductive KVCommand :=
  | CmdOperation (op : KVOperation)
  | CmdRequest (r : ClientRequest)
  | CmdBarrier
  | CmdMembership (ty : string)
  | CmdOther (repr : string).

#[global] Instance KVCommand_eq_dec : EqDecision KVCommand.
Proof. solve_decision. Defined.

Abbreviation Entry := (LogEntry KVCommand).
Abbreviation RaftWorld := (World (RaftSig (C := KVCommand))).

Record AppliedEntry := mkAppliedEntry {
  ap_node : string;
  ap_index : Z;
  ap_entry : Entry;
}.

(** The dictionaries of [StateMachineApplier] at one node. *)
Record NodeApplied := mkNodeApplied {
  na_base_index : Z;
  na_base_term : Z;
  na_last_applied : Z;
  na_applied : list AppliedEntry;
}.

Record Applier := mkApplier {
  per_node : gmap string NodeApplied;
  canonical_by_index : gmap Z AppliedEntry;
}.

(** User-visible state and the deduplication table of [ReplicatedKV] at one node. *)
Record KVImage := mkKVImage {
  kv_state : gmap string string;
  kv_requests : gmap (string * Z) KVOperation;
}.

#[global] Instance KVImage_eq_dec : EqDecision KVImage.
Proof. solve_decision. Defined.

Definition kv_image0 : KVImage := mkKVImage ∅ ∅.

Record SnapshotClientRequest := mkSnapshotClientRequest {
  sc_client_id : string;
  sc_request_id : Z;
  sc_operation : KVOperation;
}.

#[global] Instance SnapshotClientRequest_eq_dec : EqDecision SnapshotClientRequest.
Proof. solve_decision. Defined.

Record SnapshotVotingConfiguration := mkVotingConfiguration {
  vc_committed_index : Z;
  vc_old_voters : list string;
  vc_new_voters : option (list string);
}.

#[global] Instance SnapshotVotingConfiguration_eq_dec : EqDecision SnapshotVotingConfiguration.
Proof. solve_decision. Defined.

Record KVSnapshot := mkKVSnapshot {
  last_included_index : Z;
  last_included_term : Z;
  snap_state : list (string * string);
  client_requests : list SnapshotClientRequest;
  voting_configuration : option SnapshotVotingConfiguration;
}.

#[global] Instance KVSnapshot_eq_dec : EqDecision KVSnapshot.
Proof. solve_decision. Defined.

(** [state_machine_applied], [state_machine_base_index], [state_machine_base_term]
    and [kv_snapshot] *)
Record AppDurable := mkAppDurable {
  sm_applied : list Entry;
  sm_base_index : Z;
  sm_base_term : Z;
  kv_snapshot : option KVSnapshot;
}.

Definition app_durable0 : AppDurable := mkAppDurable [] 0 0 None.

Inductive AppRec :=
  | RSMApply (node : string) (index term : Z) (command : KVCommand)
  | RSMCompact (node : string) (previous_base base_index base_term last_applied retained : Z)
  | RKVControlNoop (node : string) (index : option Z) (command : string)
  | RKVApply (node : string) (index : option Z) (operation : string) (key value : option string)
      (client_id : option string) (request_id : option Z) (duplicate stale : bool)
  | RSnapshotPersist (node : string) (index term keys requests : Z) (membership : option Z)
  | RLogCompact (node : string) (previous_base base_index base_term previous_retained retained : Z)
  | RSnapshotInstall (node : string) (previous_base previous_last previous_applied index term : Z)
      (retained keys requests : Z) (membership : option Z).

Record AppWorld := mkAppWorld {
  raft : RaftWorld;
  disk : gmap string AppDurable;
  applier : Applier;
  kvs : gmap string KVImage;
  app_trace : list AppRec;
}.

Abbreviation AM := (M AppWorld).
Implicit Types (w : AppWorld) (n : string).

Definition set_raft r w : AppWorld := mkAppWorld r w.(disk) w.(applier) w.(kvs) w.(app_trace).
Definition set_disk d w : AppWorld := mkAppWorld w.(raft) d w.(applier) w.(kvs) w.(app_trace).
Definition set_applier a w : AppWorld := mkAppWorld w.(raft) w.(disk) a w.(kvs) w.(app_trace).
Definition set_kvs k w : AppWorld := mkAppWorld w.(raft) w.(disk) w.(applier) k w.(app_trace).

(** A method of the Raft cluster, called from above. *)
Definition on_raft {A} (m : M RaftWorld A) : AM A := λ w,
  let r := m w.(raft) in (set_raft r.1 w, r.2).

Definition app_record (r : AppRec) : AM unit :=
  modify (λ w, mkAppWorld w.(raft) w.(disk) w.(applier) w.(kvs) (w.(app_trace) ++ [r])).

Definition disk_of w n : AppDurable := default app_durable0 (w.(disk) !! n).
Definition put_disk n (f : AppDurable → AppDurable) : AM unit :=
  modify (λ w, set_disk (<[n := f (disk_of w n)]> w.(disk)) w).

Definition set_sm es bi bt (d : AppDurable) : AppDurable := mkAppDurable es bi bt d.(kv_snapshot).
Definition set_snapshot s (d : AppDurable) : AppDurable :=
  mkAppDurable d.(sm_applied) d.(sm_base_index) d.(sm_base_term) s.

Definition node_applied w n : NodeApplied :=
  default (mkNodeApplied 0 0 0 []) (w.(applier).(per_node) !! n).
Definition put_applied n (a : NodeApplied) : AM unit :=
  modify (λ w, set_applier
    (mkApplier (<[n := a]> w.(applier).(per_node)) w.(applier).(canonical_by_index)) w).

Definition image_of w n : KVImage := default kv_image0 (w.(kvs) !! n).
Definition put_image n (im : KVImage) : AM unit := modify (λ w, set_kvs (<[n := im]> w.(kvs)) w).

Definition cluster_ids w : list string := w.(raft).(objs).(node_ids).
