(* ===== verification/StateMachine.v ===== *)
(** * StateMachine: applying committed entries

    Models [src/distlab/state_machine.py].  An applier keeps, per node, the
    entries it has applied after a snapshot boundary, the same entries durably,
    and one map of the first entry applied at every index, against which every
    later application is checked. *)

From S2P Require Import Prelude Simulator LogIndex KVCommands Raft AppWorld.

Implicit Types (w : AppWorld) (n : string).

Definition sm_require_node n : AM unit :=
  let! known := gets (λ w, bool_decide (is_Some (w.(applier).(per_node) !! n))) in
  raise_if (negb known) ValueError "unknown Raft node".

Definition last_applied n : AM Z :=
  sm_require_node n ;; gets (λ w, (node_applied w n).(na_last_applied)).
Definition applied_base_index n : AM Z :=
  sm_require_node n ;; gets (λ w, (node_applied w n).(na_base_index)).
Definition applied_base_term n : AM Z :=
  sm_require_node n ;; gets (λ w, (node_applied w n).(na_base_term)).
Definition applied_entries n : AM (list Entry) :=
  sm_require_node n ;; gets (λ w, ap_entry <$> (node_applied w n).(na_applied)).

(** [cluster.node(node_id).log_view] *)
Definition node_log n : AM (RaftLogView KVCommand) :=
  on_raft (let! n := node n in log_view n).

(** [sequence[i]], for an index the code computes *)
Definition item {A} (l : list A) (i : Z) : AM A :=
  match znth l i with Some x => ret x | None => raise IndexError "tuple index out of range" end.

(** [enumerate(entries, start=base_index + 1)] as records of [n] *)
Definition records_from n (base_index : Z) (entries : list Entry) : list AppliedEntry :=
  imap (λ i e, mkAppliedEntry n (base_index + 1 + Z.of_nat i) e) entries.

Definition load_durable_state n : AM (Z * Z * list Entry) :=
  let! d := gets (λ w, disk_of w n) in
  let bi := d.(sm_base_index) in
  let bt := d.(sm_base_term) in
  let value := d.(sm_applied) in
  raise_if ((bi <? 0) || (bt <? 0)) ValueError
    "durable state-machine boundary must be non-negative" ;;
  raise_if ((bi =? 0) && negb (bt =? 0)) ValueError
    "durable state-machine base term must be zero at index zero" ;;
  let! log := node_log n in
  let last := bi + zlen value in
  raise_if (log.(base_index) <? bi) StateMachineSafetyViolation
    "state-machine snapshot boundary exceeds compacted Raft boundary" ;;
  raise_if (last_index log <? last) StateMachineSafetyViolation
    "durable applied history exceeds the persistent Raft log" ;;
  raise_if ((bi =? log.(base_index)) && (0 <? bi) && negb (bt =? log.(base_term)))
    StateMachineSafetyViolation "durable state-machine boundary diverges from Raft boundary" ;;
  when ((bi <? log.(base_index)) && (log.(base_index) <=? last))
    (let! e := item value (log.(base_index) - bi - 1) in
     raise_if (negb (e.(le_term) =? log.(base_term))) StateMachineSafetyViolation
       "durable applied history diverges at compacted boundary") ;;
  for_each (zrange (Z.max (bi + 1) (first_retained_index log)) (last + 1)) (λ index,
    let! e := item value (index - bi - 1) in
    let! le := lift (entry_at log index) in
    raise_if (negb (bool_decide (le = e))) StateMachineSafetyViolation
      "durable applied history diverges from the persistent Raft log") ;;
  ret (bi, bt, value).

Definition record_canonical (record : AppliedEntry) : AM unit :=
  let! canonical := gets (λ w, w.(applier).(canonical_by_index) !! record.(ap_index)) in
  match canonical with
  | Some c =>
      raise_if (negb (bool_decide (c.(ap_entry) = record.(ap_entry)))) StateMachineSafetyViolation
        "State Machine Safety violated"
  | None =>
      modify (λ w, set_applier (mkApplier w.(applier).(per_node)
        (<[record.(ap_index) := record]> w.(applier).(canonical_by_index))) w)
  end.

(** [StateMachineApplier(cluster)] *)
Definition init_applier : AM unit :=
  modify (set_applier (mkApplier ∅ ∅)) ;;
  let! ids := gets cluster_ids in
  for_each ids (λ n,
    let! r := load_durable_state n in
    let '(bi, bt, entries) := r in
    let records := records_from n bi entries in
    put_applied n (mkNodeApplied bi bt (bi + zlen records) records) ;;
    for_each records record_canonical).

Definition sm_compact_through n (index term : Z) : AM unit :=
  sm_require_node n ;;
  raise_if ((index <? 0) || (term <? 0)) ValueError
    "state-machine snapshot boundary must be non-negative" ;;
  let! a := gets (λ w, node_applied w n) in
  raise_if (index <? a.(na_base_index)) ValueError
    "state-machine snapshot boundary cannot move backwards" ;;
  raise_if (a.(na_last_applied) <? index) ValueError
    "state-machine snapshot boundary cannot exceed last applied" ;;
  if index =? a.(na_base_index) then
    raise_if (negb (term =? a.(na_base_term))) StateMachineSafetyViolation
      "state-machine snapshot term diverges at existing boundary"
  else
    let! boundary := item a.(na_applied) (index - a.(na_base_index) - 1) in
    raise_if (negb (boundary.(ap_entry).(le_term) =? term)) StateMachineSafetyViolation
      "state-machine snapshot term diverges from applied entry" ;;
    let retained := drop (Z.to_nat (index - a.(na_base_index))) a.(na_applied) in
    put_disk n (set_sm (ap_entry <$> retained) index term) ;;
    put_applied n (mkNodeApplied index term a.(na_last_applied) retained) ;;
    app_record (RSMCompact n a.(na_base_index) index term a.(na_last_applied) (zlen retained)).

(** The body of the loop of [apply_committed]. *)
Definition apply_index n (log : RaftLogView KVCommand) (index : Z) : AM AppliedEntry :=
  let! entry := lift (entry_at log index) in
  let record := mkAppliedEntry n index entry in
  record_canonical record ;;
  put_disk n (λ d, set_sm (d.(sm_applied) ++ [entry]) d.(sm_base_index) d.(sm_base_term) d) ;;
  let! a := gets (λ w, node_applied w n) in
  put_applied n (mkNodeApplied a.(na_base_index) a.(na_base_term) index (a.(na_applied) ++ [record])) ;;
  app_record (RSMApply n index entry.(le_term) entry.(le_command)) ;;
  ret record.

Fixpoint apply_indices n (log : RaftLogView KVCommand) (l : list Z) (applied_now : list AppliedEntry)
    : AM (list AppliedEntry) :=
  match l with
  | [] => ret applied_now
  | index :: l' =>
      let! record := apply_index n log index in
      apply_indices n log l' (applied_now ++ [record])
  end.

Definition sm_apply_committed n : AM (list AppliedEntry) :=
  sm_require_node n ;;
  on_raft (node n) ;;
  let! previous := gets (λ w, (node_applied w n).(na_last_applied)) in
  let! commit := gets (λ w, (vol w.(raft) n).(commit_index)) in
  if commit <=? previous then ret []
  else
    let! last := on_raft (last_log_index n) in
    raise_if (last <? commit) AssertionError "commit index cannot exceed the local Raft log" ;;
    let! log := on_raft (log_view n) in
    raise_if (previous <? log.(base_index)) StateMachineSafetyViolation
      "durable applied history does not reach the compacted Raft boundary" ;;
    apply_indices n log (zrange (previous + 1) (commit + 1)) [].

(** ** The cluster-wide check *)

(** [seen] and [boundaries] *)
Record SafetyScan := mkSafetyScan {
  seen : gmap Z AppliedEntry;
  boundaries : gmap Z (string * Z);
}.

Fixpoint scan_records (records : list AppliedEntry) (expected : Z) (s : SafetyScan) : AM SafetyScan :=
  match records with
  | [] => ret s
  | record :: records' =>
      raise_if (negb (record.(ap_index) =? expected)) AssertionError
        "non-contiguous applied history" ;;
      raise_if match s.(seen) !! record.(ap_index) with
        | Some c => negb (bool_decide (c.(ap_entry) = record.(ap_entry)))
        | None => false
        end StateMachineSafetyViolation "State Machine Safety violated" ;;
      raise_if match s.(boundaries) !! record.(ap_index) with
        | Some b => negb (b.2 =? record.(ap_entry).(le_term))
        | None => false
        end StateMachineSafetyViolation "applied entry diverges from snapshot boundary" ;;
      scan_records records' (expected + 1) (mkSafetyScan
        (match s.(seen) !! record.(ap_index) with
         | Some _ => s.(seen)
         | None => <[record.(ap_index) := record]> s.(seen)
         end) s.(boundaries))
  end.

Definition scan_boundary n (base_index base_term : Z) (s : SafetyScan) : AM SafetyScan :=
  if 0 <? base_index then
    raise_if match s.(boundaries) !! base_index with
      | Some b => negb (b.2 =? base_term)
      | None => false
      end StateMachineSafetyViolation "State Machine Safety violated at snapshot boundary" ;;
    raise_if match s.(seen) !! base_index with
      | Some c => negb (c.(ap_entry).(le_term) =? base_term)
      | None => false
      end StateMachineSafetyViolation "snapshot boundary diverges from applied term" ;;
    ret (mkSafetyScan s.(seen) match s.(boundaries) !! base_index with
      | Some _ => s.(boundaries)
      | None => <[base_index := (n, base_term)]> s.(boundaries)
      end)
  else ret s.

Fixpoint scan_nodes (ids : list string) (s : SafetyScan) : AM unit :=
  match ids with
  | [] => ret tt
  | n :: ids' =>
      let! a := gets (λ w, node_applied w n) in
      let! s := scan_boundary n a.(na_base_index) a.(na_base_term) s in
      let! s := scan_records a.(na_applied) (a.(na_base_index) + 1) s in
      let! durable := load_durable_state n in
      let! applied := applied_entries n in
      raise_if (negb (bool_decide (durable = (a.(na_base_index), a.(na_base_term), applied))))
        StateMachineSafetyViolation "durable state-machine history changed after application" ;;
      scan_nodes ids' s
  end.

Definition assert_state_machine_safety : AM unit :=
  let! ids := gets cluster_ids in
  scan_nodes ids (mkSafetyScan ∅ ∅).
