(* ===== verification/KV.v ===== *)
(** * KV: the replicated key/value store

    Models [ReplicatedKV] of [src/distlab/kv.py] over the applier of
    [StateMachine].  [kv.applier.cluster is cluster] holds by construction; a
    command that is none of the supported ones is [CmdOther]. *)

From S2P Require Import Prelude Simulator LogIndex KVCommands Raft AppWorld StateMachine.

Implicit Types (w : AppWorld) (n : string).

Definition kv_require_node n : AM unit :=
  let! known := gets (λ w, bool_decide (is_Some (w.(kvs) !! n))) in
  raise_if (negb known) ValueError "unknown Raft node".

Definition kv_get n (key : string) : AM (option string) :=
  kv_require_node n ;; gets (λ w, (image_of w n).(kv_state) !! key).
Definition kv_snapshot_of n : AM (gmap string string) :=
  kv_require_node n ;; gets (λ w, (image_of w n).(kv_state)).
Definition kv_client_requests n : AM (gmap (string * Z) KVOperation) :=
  kv_require_node n ;; gets (λ w, (image_of w n).(kv_requests)).
Definition has_applied_request n (client_id : string) (request_id : Z) : AM bool :=
  kv_require_node n ;;
  gets (λ w, bool_decide (is_Some ((image_of w n).(kv_requests) !! (client_id, request_id)))).

(** [max(... for (owner, seen) in requests if owner == client_id, default=-1)] *)
Definition latest_request_id (requests : gmap (string * Z) KVOperation) (client_id : string) : Z :=
  match (λ e, e.1.2) <$> filter (λ e, e.1.1 = client_id) (map_to_list requests) with
  | [] => -1
  | x :: l => foldr Z.max x l
  end.

(** [_execute_operation] on the state of one node *)
Definition execute_operation (op : KVOperation) (st : gmap string string) : gmap string string :=
  match op with
  | Put k v => <[k := v]> st
  | Delete k => delete k st
  end.

Definition run_operation n (op : KVOperation) : AM unit :=
  let! im := gets (λ w, image_of w n) in
  put_image n (mkKVImage (execute_operation op im.(kv_state)) im.(kv_requests)).

Definition trace_operation n (index : option Z) (op : KVOperation) (client : option string)
    (request : option Z) (duplicate stale : bool) : AM unit :=
  match op with
  | Put k v => app_record (RKVApply n index "put" (Some k) (Some v) client request duplicate stale)
  | Delete k => app_record (RKVApply n index "delete" (Some k) None client request duplicate stale)
  end.

(** [_apply_command] for a [ClientRequest]: whether it is a duplicate, and
    whether it is stale. *)
Definition admit_request n (r : ClientRequest) : AM (bool * bool) :=
  let! im := gets (λ w, image_of w n) in
  let identity := (r.(cr_client_id), r.(cr_request_id)) in
  match im.(kv_requests) !! identity with
  | Some previous =>
      raise_if (negb (bool_decide (previous = r.(cr_operation)))) ClientRequestConflict
        "client request identity reused with different operation" ;;
      ret (true, false)
  | None =>
      if r.(cr_request_id) <? latest_request_id im.(kv_requests) r.(cr_client_id)
      then ret (false, true)
      else
        put_image n (mkKVImage im.(kv_state) (<[identity := r.(cr_operation)]> im.(kv_requests))) ;;
        ret (false, false)
  end.

Definition apply_command n (command : KVCommand) (emit_trace : bool) (index : option Z) : AM unit :=
  match command with
  | CmdMembership ty => when emit_trace (app_record (RKVControlNoop n index ty))
  | CmdRequest r =>
      let! flags := admit_request n r in
      when (negb flags.1 && negb flags.2) (run_operation n r.(cr_operation)) ;;
      when emit_trace (trace_operation n index r.(cr_operation) (Some r.(cr_client_id))
        (Some r.(cr_request_id)) flags.1 flags.2)
  | CmdOperation op =>
      run_operation n op ;;
      when emit_trace (trace_operation n index op None None false false)
  | CmdBarrier =>
      when emit_trace (app_record (RKVApply n index "commit-recovery-barrier" None None None None
        false false))
  | CmdOther _ => raise InvalidKVCommand "unsupported KV command"
  end.

(** [_validate_entries] *)
Definition validate_entries (entries : list Entry) : AM unit :=
  for_each entries (λ e,
    match e.(le_command) with
    | CmdOther _ => raise InvalidKVCommand "unsupported KV command"
    | _ => ret tt
    end).

(** [_validate_request_conflicts] *)
Fixpoint validate_conflicts (entries : list Entry) (seen : gmap (string * Z) KVOperation) : AM unit :=
  match entries with
  | [] => ret tt
  | e :: entries' =>
      match e.(le_command) with
      | CmdRequest r =>
          let identity := (r.(cr_client_id), r.(cr_request_id)) in
          match seen !! identity with
          | Some previous =>
              raise_if (negb (bool_decide (previous = r.(cr_operation)))) ClientRequestConflict
                "client request identity reused with different operation" ;;
              validate_conflicts entries' seen
          | None => validate_conflicts entries' (<[identity := r.(cr_operation)]> seen)
          end
      | _ => validate_conflicts entries' seen
      end
  end.

Definition validate_request_conflicts n (entries : list Entry) : AM unit :=
  let! im := gets (λ w, image_of w n) in validate_conflicts entries im.(kv_requests).

(** [_restore_snapshot_boundary] *)
Definition restore_requests n (items : list SnapshotClientRequest) : AM unit :=
  for_each items (λ i,
    let! im := gets (λ w, image_of w n) in
    let identity := (i.(sc_client_id), i.(sc_request_id)) in
    raise_if match im.(kv_requests) !! identity with
      | Some previous => negb (bool_decide (previous = i.(sc_operation)))
      | None => false
      end ClientRequestConflict "snapshot contains conflicting client request identity" ;;
    put_image n (mkKVImage im.(kv_state) (<[identity := i.(sc_operation)]> im.(kv_requests)))).

Definition restore_snapshot_boundary n : AM unit :=
  let! bi := applied_base_index n in
  if bi =? 0 then ret tt
  else
    let! d := gets (λ w, disk_of w n) in
    match d.(kv_snapshot) with
    | None => raise AssertionError "compacted state-machine history requires a durable KV snapshot"
    | Some s =>
        raise_if (negb (s.(last_included_index) =? bi)) AssertionError
          "KV snapshot index diverges from state-machine boundary" ;;
        let! bt := applied_base_term n in
        raise_if (negb (s.(last_included_term) =? bt)) AssertionError
          "KV snapshot term diverges from state-machine boundary" ;;
        let! im := gets (λ w, image_of w n) in
        put_image n (mkKVImage (list_to_map (rev s.(snap_state))) im.(kv_requests)) ;;
        restore_requests n s.(client_requests)
    end.

(** [ReplicatedKV(cluster, applier)] *)
Definition init_node n : AM unit :=
  restore_snapshot_boundary n ;;
  let! history := applied_entries n in
  validate_entries history ;;
  validate_request_conflicts n history ;;
  for_each history (λ e, apply_command n e.(le_command) false None).

Definition init_kv : AM unit :=
  let! ids := gets cluster_ids in
  modify (set_kvs (list_to_map ((λ n, (n, kv_image0)) <$> ids))) ;;
  for_each ids init_node.

Definition kv_apply_committed n : AM (list AppliedEntry) :=
  kv_require_node n ;;
  on_raft (node n) ;;
  let! last := last_applied n in
  let start := last + 1 in
  let! commit := gets (λ w, (vol w.(raft) n).(commit_index)) in
  let! pending :=
    if start <=? commit then
      let! log := on_raft (log_view n) in
      let! suffix := lift (suffix_from log start) in
      ret (take (Z.to_nat (commit - start + 1)) suffix)
    else ret [] in
  validate_entries pending ;;
  validate_request_conflicts n pending ;;
  let! applied := sm_apply_committed n in
  for_each applied (λ record,
    apply_command n record.(ap_entry).(le_command) true (Some record.(ap_index))) ;;
  ret applied.

(** [assert_replica_consistency]; [by_prefix] is an association list, since its
    keys are only compared. *)
Definition Prefix : Type := Z * Z * list Entry.

Fixpoint find_prefix (p : Prefix) (l : list (Prefix * KVImage)) : option KVImage :=
  match l with
  | [] => None
  | (q, im) :: l' => if bool_decide (q = p) then Some im else find_prefix p l'
  end.

Fixpoint check_replicas (ids : list string) (by_prefix : list (Prefix * KVImage)) : AM unit :=
  match ids with
  | [] => ret tt
  | n :: ids' =>
      let! bi := applied_base_index n in
      let! bt := applied_base_term n in
      let! entries := applied_entries n in
      let! st := kv_snapshot_of n in
      let! requests := kv_client_requests n in
      let current := mkKVImage st requests in
      match find_prefix (bi, bt, entries) by_prefix with
      | Some existing =>
          raise_if (negb (bool_decide (existing = current))) AssertionError
            "deterministic KV state diverged for identical applied prefix" ;;
          check_replicas ids' by_prefix
      | None => check_replicas ids' (by_prefix ++ [((bi, bt, entries), current)])
      end
  end.

Definition assert_replica_consistency : AM unit :=
  let! ids := gets cluster_ids in check_replicas ids [].
