(* ===== verification/Snapshot.v ===== *)
(** * Snapshot: durable checkpoints of the key/value store

    Models [KVSnapshotStore] of [src/distlab/snapshot.py] for a plain
    [RaftCluster]; the branches for a [ReconfigurableRaftCluster], which
    checkpoint its voting configuration, are not modelled.  Tuples of pairs are
    ordered as Python orders them, strings by [String.le]. *)

From S2P Require Import Prelude Simulator LogIndex KVCommands Raft AppWorld StateMachine KV.

Implicit Types (w : AppWorld) (n : string).

(** Python's order on pairs *)
Definition lex_le {A B} (RA : A → A → Prop) (RB : B → B → Prop) (x y : A * B) : Prop :=
  (x.1 ≠ y.1 ∧ RA x.1 y.1) ∨ (x.1 = y.1 ∧ RB x.2 y.2).

#[global] Instance lex_le_dec {A B} RA RB `{EqDecision A, !RelDecision RA, !RelDecision RB} :
  RelDecision (lex_le (A := A) (B := B) RA RB).
Proof. intros x y. unfold lex_le. apply _. Defined.

Definition state_le : relation (string * string) := lex_le String.le String.le.
Definition identity_le : relation (string * Z) := lex_le String.le Z.le.

#[global] Instance state_le_dec : RelDecision state_le := _.
#[global] Instance identity_le_dec : RelDecision identity_le := _.

(** [sorted(state.items())] and [sorted(requests)] *)
Definition sorted_state (st : gmap string string) : list (string * string) :=
  merge_sort state_le (map_to_list st).
Definition sorted_identities (requests : gmap (string * Z) KVOperation) : list (string * Z) :=
  merge_sort identity_le (map_to_list requests).*1.

Definition identity_of (i : SnapshotClientRequest) : string * Z := (i.(sc_client_id), i.(sc_request_id)).

Definition canonical (l : list string) : bool := bool_decide (merge_sort String.le l = l).

Definition new_SnapshotVotingConfiguration (ci : Z) (old : list string) (new : option (list string))
    : exn + SnapshotVotingConfiguration :=
  if ci <? 0 then inl (Exn ValueError "snapshot membership commit index must be non-negative")
  else if bool_decide (old = []) then
    inl (Exn ValueError "snapshot membership requires at least one old voter")
  else if negb (canonical old) then
    inl (Exn ValueError "snapshot old voters must be canonically sorted")
  else if negb (bool_decide (NoDup old)) then
    inl (Exn ValueError "snapshot old voters must be unique")
  else match new with
    | Some l =>
        if bool_decide (l = []) then
          inl (Exn ValueError "snapshot joint membership requires at least one new voter")
        else if negb (canonical l) then
          inl (Exn ValueError "snapshot new voters must be canonically sorted")
        else if negb (bool_decide (NoDup l)) then
          inl (Exn ValueError "snapshot new voters must be unique")
        else inr (mkVotingConfiguration ci old new)
    | None => inr (mkVotingConfiguration ci old new)
    end.

Definition new_KVSnapshot (index term : Z) (st : list (string * string))
    (requests : list SnapshotClientRequest) (vc : option SnapshotVotingConfiguration) : exn + KVSnapshot :=
  if index <=? 0 then inl (Exn ValueError "snapshot index must be positive")
  else if term <? 0 then inl (Exn ValueError "snapshot term must be non-negative")
  else if negb (bool_decide (merge_sort state_le st = st)) then
    inl (Exn ValueError "snapshot state must be canonically sorted")
  else if negb (bool_decide (merge_sort identity_le (identity_of <$> requests) = identity_of <$> requests))
       || negb (bool_decide (NoDup (identity_of <$> requests))) then
    inl (Exn ValueError "snapshot client requests must be unique and canonically sorted")
  else if match vc with Some c => index <? c.(vc_committed_index) | None => false end then
    inl (Exn ValueError "snapshot membership cannot exceed the snapshot boundary")
  else inr (mkKVSnapshot index term st requests vc).

Definition snap_require_node n : AM unit :=
  let! known := gets (λ w, bool_decide (n ∈ cluster_ids w)) in
  raise_if (negb known) ValueError "unknown Raft node".

Definition latest n : AM (option KVSnapshot) :=
  snap_require_node n ;; gets (λ w, (disk_of w n).(kv_snapshot)).

(** [_client_requests]; the operation of an identity in the table *)
Definition snapshot_requests n : AM (list SnapshotClientRequest) :=
  let! requests := kv_client_requests n in
  ret (omap (λ i, (λ op, mkSnapshotClientRequest i.1 i.2 op) <$> requests !! i) (sorted_identities requests)).

Definition create n : AM KVSnapshot :=
  snap_require_node n ;;
  let! last := last_applied n in
  raise_if (last =? 0) ValueError "cannot snapshot an empty applied state machine" ;;
  on_raft (node n) ;;
  let! last_log := on_raft (last_log_index n) in
  raise_if (last_log <? last) AssertionError "applied index cannot exceed the local Raft log" ;;
  let! view := on_raft (log_view n) in
  let! term := lift (term_at view last) in
  let! st := kv_snapshot_of n in
  let! requests := snapshot_requests n in
  let! snapshot := lift (new_KVSnapshot last term (sorted_state st) requests None) in
  let! previous := latest n in
  raise_if match previous with Some p => last <? p.(last_included_index) | None => false end
    AssertionError "snapshot index cannot move backwards" ;;
  put_disk n (set_snapshot (Some snapshot)) ;;
  app_record (RSnapshotPersist n last term (zlen snapshot.(snap_state)) (zlen snapshot.(client_requests)) None) ;;
  ret snapshot.

(** The boundary and entries of Raft's own log are replaced together. *)
Definition put_log n (es : list Entry) (bi bt : Z) : AM unit :=
  on_raft (put n (λ d, mkRaftDurable d.(current_term) d.(voted_for) es bi bt)).

Definition compact n : AM KVSnapshot :=
  let! snapshot := create n in
  on_raft (node n) ;;
  let! d := gets (λ w, dur w.(raft) n) in
  let! view := on_raft (log_view n) in
  let! compacted := lift (compact_through view snapshot.(last_included_index)) in
  raise_if (negb (compacted.(base_term) =? snapshot.(last_included_term))) AssertionError
    "snapshot term diverges from compacted Raft boundary" ;;
  put_log n compacted.(entries) compacted.(base_index) compacted.(base_term) ;;
  sm_compact_through n snapshot.(last_included_index) snapshot.(last_included_term) ;;
  app_record (RLogCompact n d.(log_base_index) compacted.(base_index) compacted.(base_term)
    (zlen d.(log)) (zlen compacted.(entries))) ;;
  ret snapshot.

(** [_validate_snapshot_membership] for a cluster that is not reconfigurable *)
Definition validate_snapshot_membership (s : KVSnapshot) : AM unit :=
  raise_if (bool_decide (is_Some s.(voting_configuration))) ValueError
    "non-reconfigurable Raft snapshot cannot carry voting configuration".

(** The suffix of the log that an installation keeps *)
Definition install_suffix n (s : KVSnapshot) (preserve : bool) : AM (list Entry) :=
  let! last := on_raft (last_log_index n) in
  if s.(last_included_index) <? last then
    raise_if (negb preserve) ValueError
      "snapshot install cannot discard a retained suffix beyond its boundary" ;;
    let! view := on_raft (log_view n) in
    let! matches := lift (prefix_matches view s.(last_included_index) s.(last_included_term)) in
    raise_if (negb matches) ValueError
      "snapshot install cannot preserve retained suffix without a matching boundary" ;;
    lift (suffix_from view (s.(last_included_index) + 1))
  else ret [].

(** What [install] writes once its checks have passed *)
Definition install_state n (s : KVSnapshot) (suffix : list Entry) : AM unit :=
  put_disk n (λ d, mkAppDurable [] s.(last_included_index) s.(last_included_term) (Some s)) ;;
  put_log n suffix s.(last_included_index) s.(last_included_term) ;;
  put_applied n (mkNodeApplied s.(last_included_index) s.(last_included_term) s.(last_included_index) []) ;;
  put_image n (mkKVImage (list_to_map (rev s.(snap_state)))
    (list_to_map (rev ((λ i, (identity_of i, i.(sc_operation))) <$> s.(client_requests))))).

Definition install n (s : KVSnapshot) (preserve_matching_suffix : bool) : AM unit :=
  snap_require_node n ;;
  on_raft (node n) ;;
  let! previous := latest n in
  raise_if match previous with
    | Some p => s.(last_included_index) <? p.(last_included_index)
    | None => false
    end ValueError "installed snapshot cannot move backwards" ;;
  if match previous with
     | Some p => p.(last_included_index) =? s.(last_included_index)
     | None => false
     end
  then raise_if (negb (bool_decide (previous = Some s))) AssertionError
         "snapshot contents diverge at existing boundary"
  else
    let! d := gets (λ w, dur w.(raft) n) in
    raise_if (s.(last_included_index) <? d.(log_base_index)) ValueError
      "installed snapshot cannot precede the local Raft boundary" ;;
    let! suffix := install_suffix n s preserve_matching_suffix in
    let! previous_applied := last_applied n in
    raise_if (s.(last_included_index) <? previous_applied) ValueError
      "snapshot install cannot roll back applied state beyond its boundary" ;;
    validate_snapshot_membership s ;;
    let! previous_last := on_raft (last_log_index n) in
    install_state n s suffix ;;
    let! commit := gets (λ w, (vol w.(raft) n).(commit_index)) in
    when (commit <? s.(last_included_index))
      (on_raft (advance_commit_index n s.(last_included_index) "install-snapshot") ;; ret tt) ;;
    app_record (RSnapshotInstall n d.(log_base_index) previous_last previous_applied
      s.(last_included_index) s.(last_included_term) (zlen suffix) (zlen s.(snap_state))
      (zlen s.(client_requests)) None) ;;
    on_raft assert_log_matching ;;
    assert_state_machine_safety.

(** [_validate_against_applied_history]: the replay it compares with. *)
Fixpoint replay_history (entries : list Entry) (st : gmap string string)
    (requests : gmap (string * Z) SnapshotClientRequest)
    : exn + gmap string string * gmap (string * Z) SnapshotClientRequest :=
  match entries with
  | [] => inr (st, requests)
  | e :: entries' =>
      match e.(le_command) with
      | CmdMembership _ | CmdBarrier => replay_history entries' st requests
      | CmdRequest r =>
          let identity := (r.(cr_client_id), r.(cr_request_id)) in
          let i := mkSnapshotClientRequest r.(cr_client_id) r.(cr_request_id) r.(cr_operation) in
          match requests !! identity with
          | Some previous =>
              if bool_decide (previous = i) then replay_history entries' st requests
              else inl (Exn AssertionError "snapshot prefix contains conflicting client request")
          | None => replay_history entries' (execute_operation r.(cr_operation) st)
                      (<[identity := i]> requests)
          end
      | CmdOperation op => replay_history entries' (execute_operation op st) requests
      | CmdOther _ => inl (Exn TypeError "unsupported snapshot command")
      end
  end.

Definition validate_against_applied_history n (s : KVSnapshot) : AM unit :=
  validate_snapshot_membership s ;;
  let! bi := applied_base_index n in
  let! bt := applied_base_term n in
  if 0 <? bi then
    raise_if (negb (s.(last_included_index) =? bi)) AssertionError
      "snapshot index diverges from compacted applied boundary" ;;
    raise_if (negb (s.(last_included_term) =? bt)) AssertionError
      "snapshot term diverges from compacted applied boundary"
  else
    let! history := applied_entries n in
    raise_if (zlen history <? s.(last_included_index)) AssertionError
      "snapshot exceeds durable applied history" ;;
    let included := take (Z.to_nat s.(last_included_index)) history in
    let! boundary := item included (zlen included - 1) in
    raise_if (negb (boundary.(le_term) =? s.(last_included_term))) AssertionError
      "snapshot term diverges from durable applied history" ;;
    let! r := lift (replay_history included ∅ ∅) in
    raise_if (negb (bool_decide (sorted_state r.1 = s.(snap_state)))) AssertionError
      "snapshot KV state diverges from durable applied history" ;;
    raise_if (negb (bool_decide
        (omap (λ i, r.2 !! i) (merge_sort identity_le (map_to_list r.2).*1) = s.(client_requests))))
      AssertionError "snapshot dedup state diverges from durable applied history".

(** [KVSnapshotStore(cluster, kv)] *)
Definition init_store : AM unit :=
  let! ids := gets cluster_ids in
  for_each ids (λ n,
    let! s := latest n in
    match s with
    | Some s => validate_against_applied_history n s
    | None => ret tt
    end).
