(* ===== verification/AppFacts.v ===== *)
(** * AppFacts: the invariant of the applier and of the key/value store

    [replay] is the specification of a replica: the image a sequence of commands
    leads to.  The invariant says that every node's applied history is contiguous
    after its boundary, durable, and agrees with the canonical entry of every
    index, and that its image is the replay of that history over the image of
    its boundary. *)

From S2P Require Import Prelude Simulator LogIndex KVCommands Raft AppWorld StateMachine KV Snapshot.

Implicit Types (w : AppWorld) (n : string).

(** ** The specification of a replica *)

Definition step_image (im : KVImage) (command : KVCommand) : KVImage :=
  match command with
  | CmdOperation op => mkKVImage (execute_operation op im.(kv_state)) im.(kv_requests)
  | CmdRequest r =>
      let identity := (r.(cr_client_id), r.(cr_request_id)) in
      match im.(kv_requests) !! identity with
      | Some _ => im
      | None =>
          if r.(cr_request_id) <? latest_request_id im.(kv_requests) r.(cr_client_id) then im
          else mkKVImage (execute_operation r.(cr_operation) im.(kv_state))
                 (<[identity := r.(cr_operation)]> im.(kv_requests))
      end
  | _ => im
  end.

Definition replay (im : KVImage) (commands : list KVCommand) : KVImage := foldl step_image im commands.

Definition commands_of (entries : list Entry) : list KVCommand := le_command <$> entries.

Definition snapshot_image (s : KVSnapshot) : KVImage :=
  mkKVImage (list_to_map (rev s.(snap_state)))
    (list_to_map (rev ((λ i, (identity_of i, i.(sc_operation))) <$> s.(client_requests)))).

(** The image at a node's boundary *)
Definition base_image (d : AppDurable) : KVImage :=
  if d.(sm_base_index) =? 0 then kv_image0
  else match d.(kv_snapshot) with Some s => snapshot_image s | None => kv_image0 end.

(** ** The invariant *)

(** What the constructor guarantees *)
Definition snapshot_wf (s : KVSnapshot) : Prop :=
  new_KVSnapshot s.(last_included_index) s.(last_included_term) s.(snap_state) s.(client_requests)
    s.(voting_configuration) = inr s.

(** The applied history [a] of [n], its durable part [d] and the canonical
    entries [c] *)
Record node_ok (c : gmap Z AppliedEntry) (d : AppDurable) n (a : NodeApplied) : Prop := {
  no_base : 0 ≤ a.(na_base_index);
  no_last : a.(na_last_applied) = a.(na_base_index) + zlen a.(na_applied);
  no_records : a.(na_applied) = records_from n a.(na_base_index) d.(sm_applied);
  no_index : d.(sm_base_index) = a.(na_base_index);
  no_term : d.(sm_base_term) = a.(na_base_term);
  no_canonical r : r ∈ a.(na_applied) →
    ∃ r', c !! r.(ap_index) = Some r' ∧ r'.(ap_entry) = r.(ap_entry);
}.

(** What is on disk at a boundary, and the image [im] of the history [d] *)
Record image_ok (d : AppDurable) (im : KVImage) : Prop := {
  io_snapshot : d.(sm_base_index) ≠ 0 → ∃ s, d.(kv_snapshot) = Some s
    ∧ s.(last_included_index) = d.(sm_base_index) ∧ s.(last_included_term) = d.(sm_base_term);
  io_image : im = replay (base_image d) (commands_of d.(sm_applied));
}.

Definition supported (command : KVCommand) : bool :=
  match command with CmdOther _ => false | _ => true end.

Record disk_ok (d : AppDurable) : Prop := {
  do_snapshot s : d.(kv_snapshot) = Some s → snapshot_wf s;
  do_supported : Forall (λ c, supported c = true) (commands_of d.(sm_applied));
}.

Definition nodes w : gmap string NodeApplied := w.(applier).(per_node).
Definition canon w : gmap Z AppliedEntry := w.(applier).(canonical_by_index).

Definition sm_inv w : Prop := ∀ n a, nodes w !! n = Some a → node_ok (canon w) (disk_of w n) n a.

Record app_inv w : Prop := {
  ai_sm : sm_inv w;
  ai_kv n im : w.(kvs) !! n = Some im → image_ok (disk_of w n) im;
  ai_disk n : disk_ok (disk_of w n);
  ai_dom n : is_Some (nodes w !! n) ↔ is_Some (w.(kvs) !! n);
}.

(** ** Frames *)

(** [w'] is [w] up to the Raft world and the trace. *)
Definition same_core w w' : Prop :=
  w'.(disk) = w.(disk) ∧ w'.(applier) = w.(applier) ∧ w'.(kvs) = w.(kvs).

Lemma same_core_refl w : same_core w w.
Proof. done. Qed.

Lemma same_core_trans w1 w2 w3 : same_core w1 w2 → same_core w2 w3 → same_core w1 w3.
Proof. unfold same_core. intuition congruence. Qed.

Lemma app_inv_core w w' : same_core w w' → app_inv w → app_inv w'.
Proof.
  destruct w as [r d a k t], w' as [r' d' a' k' t']. intros (Hd & Ha & Hk). simpl in *. subst.
  by intros [Hsm Hkv Hdisk Hdom].
Qed.

(** Computations that only read, or change Raft's part. *)
Definition reads {A} (m : AM A) : Prop := ∀ w,
  wp m (λ w' _, same_core w w') (λ w' _, same_core w w') w.

Lemma reads_bind {A B} (m : AM A) (k : A → AM B) :
  reads m → (∀ a, reads (k a)) → reads (bind m k).
Proof.
  intros Hm Hk w. apply wp_bind. eapply wp_mono; [apply Hm| |done]. intros w1 a H1.
  eapply wp_mono; [apply Hk| |]; intros w2 b H2; exact (same_core_trans _ _ _ H1 H2).
Qed.
Lemma reads_ret {A} (a : A) : reads (ret a).
Proof. by intros w. Qed.
Lemma reads_gets {A} (f : AppWorld → A) : reads (gets f).
Proof. by intros w. Qed.
Lemma reads_raise {A} c msg : reads (raise (A := A) c msg).
Proof. by intros w. Qed.
Lemma reads_raise_if b c msg : reads (raise_if b c msg).
Proof. intros w. by apply wp_raise_if. Qed.
Lemma reads_lift {A} (r : exn + A) : reads (lift r).
Proof. intros w. apply wp_lift. by destruct r. Qed.
Lemma reads_record r : reads (app_record r).
Proof. by intros w. Qed.
Lemma reads_on_raft {A} (m : M RaftWorld A) : reads (on_raft m).
Proof. intros w. unfold wp, on_raft. by destruct (m (raft w)) as [r [e|a]]. Qed.
Lemma reads_for_each {A} (l : list A) f : (∀ a, reads (f a)) → reads (for_each l f).
Proof. intros Hf. induction l as [|a l IH]; [apply reads_ret|]. by apply reads_bind. Qed.
Lemma reads_item {A} (l : list A) i : reads (item l i).
Proof. unfold item. destruct (znth l i); [apply reads_ret|apply reads_raise]. Qed.

#[export] Hint Resolve reads_ret reads_gets reads_raise reads_raise_if reads_lift reads_record
  reads_on_raft reads_for_each reads_item : distlab.
#[export] Hint Extern 3 (reads (bind _ _)) => apply reads_bind; [|intros] : distlab.
#[export] Hint Extern 5 (reads (if ?b then _ else _)) => destruct b : distlab.
#[export] Hint Extern 6 (reads (when ?b _)) => unfold when; destruct b : distlab.

Lemma reads_sm_require n : reads (sm_require_node n).
Proof. unfold sm_require_node. auto with distlab. Qed.
Lemma reads_kv_require n : reads (kv_require_node n).
Proof. unfold kv_require_node. auto with distlab. Qed.
Lemma reads_snap_require n : reads (snap_require_node n).
Proof. unfold snap_require_node. auto with distlab. Qed.
#[export] Hint Resolve reads_sm_require reads_kv_require reads_snap_require : distlab.

Lemma reads_load n : reads (load_durable_state n).
Proof. unfold load_durable_state, node_log. cbv zeta. auto 40 with distlab. Qed.
Lemma reads_latest n : reads (latest n).
Proof. unfold latest. auto with distlab. Qed.
#[export] Hint Resolve reads_load reads_latest : distlab.

Lemma reads_scan_records l i s : reads (scan_records l i s).
Proof. revert i s. induction l as [|r l IH]; intros i s; simpl; auto 15 with distlab. Qed.
Lemma reads_scan_boundary n i t s : reads (scan_boundary n i t s).
Proof. unfold scan_boundary. auto 15 with distlab. Qed.
#[export] Hint Resolve reads_scan_records reads_scan_boundary : distlab.

Lemma reads_assert_safety : reads assert_state_machine_safety.
Proof.
  apply reads_bind; [auto with distlab|intros ids]. generalize (mkSafetyScan ∅ ∅).
  induction ids as [|n ids IH]; intros s; simpl; [auto with distlab|]. unfold applied_entries.
  auto 25 with distlab.
Qed.

Lemma reads_validate_entries l : reads (validate_entries l).
Proof. apply reads_for_each. intros e. destruct (le_command e); auto with distlab. Qed.
Lemma reads_validate_conflicts l seen : reads (validate_conflicts l seen).
Proof.
  revert seen. induction l as [|e l IH]; intros seen; simpl; [auto with distlab|].
  destruct (le_command e); auto. cbv zeta. destruct (seen !! _); auto 10 with distlab.
Qed.
Lemma reads_validate_request_conflicts n l : reads (validate_request_conflicts n l).
Proof. apply reads_bind; [auto with distlab|intros im]. apply reads_validate_conflicts. Qed.
#[export] Hint Resolve reads_validate_entries reads_validate_request_conflicts : distlab.

Lemma wp_reads_bind {A B} (m : AM A) (k : A → AM B) w (Q : _ → _ → Prop) (E : _ → _ → Prop) :
  reads m → (∀ w' a, same_core w w' → wp (k a) Q E w') → (∀ w' e, same_core w w' → E w' e) →
  wp (bind m k) Q E w.
Proof. intros Hm Hk HE. apply wp_bind. eapply wp_mono; [apply Hm|done|done]. Qed.

(** ** One node changes *)

Record updated n (d : AppDurable) (a : NodeApplied) (im : KVImage) w w' : Prop := {
  u_disk m : disk_of w' m = if decide (m = n) then d else disk_of w m;
  u_node m : nodes w' !! m = if decide (m = n) then Some a else nodes w !! m;
  u_image m : w'.(kvs) !! m = if decide (m = n) then Some im else w.(kvs) !! m;
  u_canon : canon w ⊆ canon w';
}.

Lemma updated_core n a im w w' :
  nodes w !! n = Some a → w.(kvs) !! n = Some im → same_core w w' →
  updated n (disk_of w n) a im w w'.
Proof.
  intros Ha Hi (Hd & Hn & Hk). unfold nodes, canon in *.
  split; unfold disk_of, nodes, canon; rewrite ?Hd, ?Hn, ?Hk; [..|done];
    intros m; case_decide; by subst.
Qed.

Lemma updated_trans n d a im d' a' im' w w1 w2 :
  updated n d a im w w1 → updated n d' a' im' w1 w2 → updated n d' a' im' w w2.
Proof.
  intros [D1 N1 K1 C1] [D2 N2 K2 C2]. split; [intros m..|by etrans];
    [rewrite D2, D1|rewrite N2, N1|rewrite K2, K1]; by case_decide.
Qed.

Lemma updated_at n d a im w w' :
  updated n d a im w w' → disk_of w' n = d ∧ nodes w' !! n = Some a ∧ w'.(kvs) !! n = Some im.
Proof. intros [D N K _]. rewrite D, N, K. by rewrite !decide_True. Qed.

Lemma node_ok_mono c c' d n a : c ⊆ c' → node_ok c d n a → node_ok c' d n a.
Proof.
  intros Hc [? ? ? ? ? Hcan]. split; try done. intros r (r' & Hr & He)%Hcan.
  exists r'. split; [|done]. by eapply lookup_weaken.
Qed.

Lemma app_inv_updated n d a im w w' :
  app_inv w → updated n d a im w w' → is_Some (nodes w !! n) →
  node_ok (canon w') d n a → image_ok d im → disk_ok d → app_inv w'.
Proof.
  intros [Hsm Hkv Hd Hdom] [D N K C] Hn Hno Hio Hdo. split.
  - intros m b. rewrite N, D. case_decide as E; [by intros [= <-]; subst|].
    intros Hb. eapply node_ok_mono; [exact C|]. by apply Hsm.
  - intros m i. rewrite K, D. case_decide; [by intros [= <-]|apply Hkv].
  - intros m. rewrite D. case_decide; [done|apply Hd].
  - intros m. rewrite N, K. case_decide; [by split|apply Hdom].
Qed.

(** ** Applying committed entries *)

Definition grow_disk (d : AppDurable) (es : list Entry) : AppDurable :=
  set_sm (d.(sm_applied) ++ es) d.(sm_base_index) d.(sm_base_term) d.
Definition grow_node n (a : NodeApplied) (es : list Entry) : NodeApplied :=
  mkNodeApplied a.(na_base_index) a.(na_base_term) (a.(na_last_applied) + zlen es)
    (a.(na_applied) ++ records_from n a.(na_last_applied) es).

Lemma zlen_records n b es : zlen (records_from n b es) = zlen es.
Proof. unfold zlen, records_from. by rewrite length_imap. Qed.

Lemma records_from_app n b es es' :
  records_from n b (es ++ es') = records_from n b es ++ records_from n (b + zlen es) es'.
Proof.
  unfold records_from. rewrite imap_app. f_equal. apply imap_ext. intros i e _. simpl.
  f_equal. unfold zlen. lia.
Qed.

Lemma records_from_cons n b e es :
  records_from n b (e :: es) = mkAppliedEntry n (b + 1) e :: records_from n (b + 1) es.
Proof.
  change (e :: es) with ([e] ++ es). rewrite records_from_app. unfold records_from at 1. simpl.
  by rewrite Z.add_0_r.
Qed.

Lemma records_entries n b es : ap_entry <$> records_from n b es = es.
Proof. revert b. induction es as [|e es IH]; intros b; [done|]. rewrite records_from_cons. simpl. by rewrite IH. Qed.

Lemma grow_disk_nil d : grow_disk d [] = d.
Proof. destruct d. unfold grow_disk, set_sm. simpl. by rewrite app_nil_r. Qed.
Lemma grow_node_nil n a : grow_node n a [] = a.
Proof. destruct a. unfold grow_node. simpl. by rewrite Z.add_0_r, app_nil_r. Qed.
Lemma grow_disk_app d es es' : grow_disk (grow_disk d es) es' = grow_disk d (es ++ es').
Proof. unfold grow_disk, set_sm. simpl. by rewrite app_assoc. Qed.
Lemma grow_node_app n a es es' : grow_node n (grow_node n a es) es' = grow_node n a (es ++ es').
Proof.
  unfold grow_node. simpl. rewrite records_from_app, app_assoc, zlen_app. f_equal. lia.
Qed.

Lemma node_ok_grow c d n a e :
  node_ok c d n a →
  (∃ r, c !! (a.(na_last_applied) + 1) = Some r ∧ r.(ap_entry) = e) →
  node_ok c (grow_disk d [e]) n (grow_node n a [e]).
Proof.
  intros [Hb Hl Hr Hi Ht Hc] Hlast. split; simpl; [done| |..|done|done|].
  - rewrite zlen_app, zlen_records. lia.
  - rewrite records_from_app, <-Hr. f_equal. f_equal.
    rewrite Hl, Hr. by rewrite zlen_records.
  - intros r. rewrite elem_of_app. intros [Hin|Hin]; [by apply Hc|].
    rewrite records_from_cons in Hin. apply list_elem_of_singleton in Hin as ->. done.
Qed.

(** What [_record_canonical] keeps, and accepts *)
Definition note (c : gmap Z AppliedEntry) (r : AppliedEntry) : gmap Z AppliedEntry :=
  match c !! r.(ap_index) with Some _ => c | None => <[r.(ap_index) := r]> c end.
Definition agrees (c : gmap Z AppliedEntry) (r : AppliedEntry) : bool :=
  match c !! r.(ap_index) with Some r' => bool_decide (r'.(ap_entry) = r.(ap_entry)) | None => true end.
Fixpoint all_agree (c : gmap Z AppliedEntry) (l : list AppliedEntry) : bool :=
  match l with [] => true | r :: l' => agrees c r && all_agree (note c r) l' end.

Lemma note_subseteq c r : c ⊆ note c r.
Proof. unfold note. destruct (c !! _) eqn:E; [done|by apply insert_subseteq]. Qed.

Lemma note_lookup c r :
  agrees c r = true → ∃ r', note c r !! r.(ap_index) = Some r' ∧ r'.(ap_entry) = r.(ap_entry).
Proof.
  unfold note, agrees. destruct (c !! _) as [r'|] eqn:E; [|rewrite lookup_insert_eq; eauto].
  intros Hr%bool_decide_eq_true. eauto.
Qed.

Lemma wp_record_canonical r w :
  wp (record_canonical r)
    (λ w' _, w'.(raft) = w.(raft) ∧ w'.(disk) = w.(disk) ∧ nodes w' = nodes w ∧ w'.(kvs) = w.(kvs)
       ∧ canon w' = note (canon w) r ∧ agrees (canon w) r = true)
    (λ w' e, w' = w ∧ exn_cls e = StateMachineSafetyViolation ∧ agrees (canon w) r = false) w.
Proof.
  unfold record_canonical, note, agrees. wp_steps. fold (canon w).
  destruct (canon w !! ap_index r) as [c|] eqn:E.
  - wp_steps; [split_and!; [done..|by apply negb_true_iff]|]. split_and!; try done. by apply negb_false_iff.
  - by wp_steps.
Qed.

(** The end of a computation whose error, if any, is a safety violation that
    applying [l] showed *)
Abbreviation unsafe := (λ (_ : AppWorld) (e : exn), exn_cls e = StateMachineSafetyViolation).
Abbreviation unsafe_in w l := (λ (_ : AppWorld) (e : exn),
  exn_cls e = StateMachineSafetyViolation ∧ all_agree (canon w) l = false).

Lemma disk_of_insert d n m w :
  disk_of (set_disk (<[n:=d]> w.(disk)) w) m = if decide (m = n) then d else disk_of w m.
Proof.
  unfold disk_of. simpl. case_decide as E; [by subst; rewrite lookup_insert_eq|].
  by rewrite lookup_insert_ne.
Qed.

Lemma wp_apply_index n log index e a im w :
  nodes w !! n = Some a → w.(kvs) !! n = Some im → node_ok (canon w) (disk_of w n) n a →
  index = a.(na_last_applied) + 1 → entry_at log index = inr e →
  wp (apply_index n log index)
    (λ w' r, r = mkAppliedEntry n index e
       ∧ updated n (grow_disk (disk_of w n) [e]) (grow_node n a [e]) im w w'
       ∧ node_ok (canon w') (grow_disk (disk_of w n) [e]) n (grow_node n a [e])
       ∧ canon w' = note (canon w) r ∧ agrees (canon w) r = true)
    (unsafe_in w [mkAppliedEntry n index e]) w.
Proof.
  intros Ha Hi Hno -> He. unfold apply_index. wp_steps. rewrite He. cbv zeta. wp_step.
  eapply wp_mono; [apply wp_record_canonical| |by intros ? ? (_ & ? & Hbad); simpl; rewrite Hbad].
  intros w1 _ (_ & Hd & Hn & Hk & Hcan & Hag). cbv beta.
  assert (na_eq : node_applied w1 n = a) by (unfold node_applied; fold (nodes w1); by rewrite Hn, Ha).
  assert (canon w ⊆ canon w1) as Hc by (rewrite Hcan; apply note_subseteq).
  destruct (note_lookup _ _ Hag) as (c & Hcr & Hce). rewrite <-Hcan in Hcr. simpl in Hcr, Hce.
  unfold put_disk, put_applied, app_record. wp_steps. split; [done|].
  assert (node_ok (canon w1) (grow_disk (disk_of w n) [e]) n (grow_node n a [e])) as Hok.
  { apply node_ok_grow; [by eapply node_ok_mono|]. by exists c. }
  assert (disk_of w1 = disk_of w) as Hdo by (unfold disk_of; by rewrite Hd).
  split; [|by split]. split; unfold nodes, canon in *; simpl; [intros m..|exact Hc].
  - etrans; [apply (disk_of_insert _ n m w1)|]. by rewrite Hdo.
  - unfold node_applied in *. simpl. rewrite na_eq. case_decide as E.
    + subst. rewrite lookup_insert_eq. unfold grow_node. by rewrite records_from_cons.
    + by rewrite lookup_insert_ne, Hn.
  - rewrite Hk. case_decide; by subst.
Qed.

Lemma zrange_cons a b : a < b → zrange a b = a :: zrange (a + 1) b.
Proof.
  intros Hab. unfold zrange. replace (Z.to_nat (b - a)) with (S (Z.to_nat (b - (a + 1)))) by lia.
  simpl. f_equal; [lia|]. rewrite <-fmap_S_seq, <-list_fmap_compose. apply list_fmap_ext.
  intros i x _. simpl. lia.
Qed.

Lemma zrange_nil a b : b ≤ a → zrange a b = [].
Proof. intros Hab. unfold zrange. by replace (Z.to_nat (b - a)) with O by lia. Qed.

(** [log] holds [es] right after [index]. *)
Definition holds (log : RaftLogView KVCommand) (index : Z) (es : list Entry) : Prop :=
  ∀ i e, es !! i = Some e → entry_at log (index + 1 + Z.of_nat i) = inr e.

Lemma holds_cons log index e es :
  holds log index (e :: es) → entry_at log (index + 1) = inr e ∧ holds log (index + 1) es.
Proof.
  intros H. split.
  - rewrite <-(H O e eq_refl). f_equal. simpl. lia.
  - intros i x Hx. rewrite <-(H (S i) x Hx). f_equal. lia.
Qed.

Lemma wp_apply_indices n log es acc a im w :
  nodes w !! n = Some a → w.(kvs) !! n = Some im → node_ok (canon w) (disk_of w n) n a →
  holds log a.(na_last_applied) es →
  wp (apply_indices n log (zrange (a.(na_last_applied) + 1) (a.(na_last_applied) + 1 + zlen es)) acc)
    (λ w' r, r = acc ++ records_from n a.(na_last_applied) es
       ∧ updated n (grow_disk (disk_of w n) es) (grow_node n a es) im w w'
       ∧ node_ok (canon w') (grow_disk (disk_of w n) es) n (grow_node n a es)
       ∧ canon w' = foldl note (canon w) (records_from n a.(na_last_applied) es))
    (unsafe_in w (records_from n a.(na_last_applied) es)) w.
Proof.
  revert acc a w. induction es as [|e es IH]; intros acc a w Ha Hi Hno Hh.
  { rewrite zrange_nil by (unfold zlen; simpl; lia). simpl. apply wp_ret.
    rewrite grow_disk_nil, grow_node_nil, app_nil_r. split; [done|]. split; [|done].
    by apply updated_core. }
  rewrite records_from_cons. simpl foldl. simpl all_agree.
  apply holds_cons in Hh as [He Hh].
  rewrite zrange_cons by (rewrite zlen_cons; pose proof (zlen_nonneg es); lia). simpl.
  apply wp_bind. eapply wp_mono; [by eapply wp_apply_index| |].
  2:{ intros ? ? [? Hbad]. split; [done|]. simpl in Hbad. by destruct (agrees _ _). }
  intros w1 r (-> & Hu & Hok & Hcan & Hag). cbv beta. rewrite Hag, <-Hcan. destruct (updated_at _ _ _ _ _ _ Hu) as (Hd1 & Ha1 & Hi1).
  assert (grow_last : na_last_applied (grow_node n a [e]) = na_last_applied a + 1) by done.
  replace (na_last_applied a + 1 + zlen (e :: es)) with
    (na_last_applied (grow_node n a [e]) + 1 + zlen es) by (rewrite grow_last, zlen_cons; lia).
  rewrite <-grow_last at 1. rewrite <-Hd1 in Hok.
  eapply wp_mono; [apply (IH _ (grow_node n a [e])); done| |done].
  intros w2 r (-> & Hu2 & Hok2 & Hcan2). cbv beta.
  rewrite Hd1, grow_disk_app, grow_node_app in *. split; [|split; [by eapply updated_trans|done]].
  by rewrite <-app_assoc, grow_last.
Qed.

(** ** The commands of a batch *)

(** [r] reuses an identity of [requests] for another operation. *)
Definition conflicts (requests : gmap (string * Z) KVOperation) (r : ClientRequest) : bool :=
  match requests !! (r.(cr_client_id), r.(cr_request_id)) with
  | Some previous => negb (bool_decide (previous = r.(cr_operation)))
  | None => false
  end.

(** [_validate_request_conflicts] as a test *)
Fixpoint conflict_free (commands : list KVCommand) (seen : gmap (string * Z) KVOperation) : bool :=
  match commands with
  | [] => true
  | CmdRequest r :: commands' =>
      negb (conflicts seen r) &&
      conflict_free commands' (<[(r.(cr_client_id), r.(cr_request_id)) := r.(cr_operation)]> seen)
  | _ :: commands' => conflict_free commands' seen
  end.

Definition conflict : exn :=
  Exn ClientRequestConflict "client request identity reused with different operation".

Lemma validate_conflicts_eq es seen w :
  validate_conflicts es seen w =
    (w, if conflict_free (commands_of es) seen then inr tt else inl conflict).
Proof.
  revert seen. induction es as [|e es IH]; intros seen; simpl; [done|].
  destruct (le_command e) as [|r| | |]; try apply IH. unfold conflicts.
  destruct (seen !! _) as [p|] eqn:E; simpl; [|apply IH].
  case_bool_decide; simpl; [|done]. subst. unfold bind, ret. simpl. rewrite IH.
  by rewrite insert_id.
Qed.

Lemma validate_entries_eq es w :
  validate_entries es w =
    (w, if forallb supported (commands_of es) then inr tt
        else inl (Exn InvalidKVCommand "unsupported KV command")).
Proof.
  unfold validate_entries. induction es as [|e es IH]; simpl; [done|].
  unfold bind. destruct (le_command e); simpl; done || apply IH.
Qed.

Lemma step_image_requests im c seen :
  im.(kv_requests) ⊆ seen →
  (step_image im c).(kv_requests) ⊆ match c with
    | CmdRequest r => <[(r.(cr_client_id), r.(cr_request_id)) := r.(cr_operation)]> seen
    | _ => seen
    end ∨ (∃ r, c = CmdRequest r ∧ conflicts seen r = true).
Proof.
  intros Hsub. destruct c as [|r| | |]; [by left| |by left..]. simpl.
  destruct (kv_requests im !! _) as [p|] eqn:E.
  - pose proof (lookup_weaken _ _ _ _ E Hsub) as E'. unfold conflicts.
    destruct (decide (p = cr_operation r)) as [->|]; [left; by rewrite insert_id|].
    right. exists r. by rewrite E', bool_decide_eq_false_2.
  - destruct (seen !! (cr_client_id r, cr_request_id r)) as [p|] eqn:E2.
    + destruct (decide (p = cr_operation r)) as [->|].
      * left. rewrite (insert_id seen) by done. destruct (_ <? _); [done|]. simpl.
        apply insert_subseteq_l; done.
      * right. exists r. unfold conflicts. by rewrite E2, bool_decide_eq_false_2.
    + left. destruct (_ <? _); simpl; [|by apply insert_mono].
      etrans; [exact Hsub|]. by apply insert_subseteq.
Qed.

(** ** Applying a command *)

(** What the state machine of [n] keeps while its image changes to [im] *)
Definition imaged n (im : KVImage) w w' : Prop :=
  w'.(disk) = w.(disk) ∧ w'.(applier) = w.(applier) ∧ w'.(kvs) = <[n := im]> w.(kvs).

Abbreviation never := (λ (_ : AppWorld) (_ : exn), False).

Lemma image_of_imaged n im w w' : imaged n im w w' → image_of w' n = im.
Proof. intros (_ & _ & Hk). unfold image_of. rewrite Hk. by rewrite lookup_insert_eq. Qed.

Lemma imaged_refl n w : w.(kvs) !! n = Some (image_of w n) → imaged n (image_of w n) w w.
Proof. intros Hi. split_and!; try done. by rewrite insert_id. Qed.

Lemma imaged_trans n im im' w w1 w2 : imaged n im w w1 → imaged n im' w1 w2 → imaged n im' w w2.
Proof.
  intros (Hd & Ha & Hk) (Hd' & Ha' & Hk'). unfold imaged.
  rewrite Hd', Hd, Ha', Ha, Hk', Hk. by rewrite insert_insert_eq.
Qed.

Lemma imaged_core n im w w1 w2 : imaged n im w w1 → same_core w1 w2 → imaged n im w w2.
Proof. intros (? & ? & ?) (? & ? & ?). unfold imaged. intuition congruence. Qed.

Lemma imaged_updated n im d a im' w w1 w2 :
  updated n d a im w w1 → imaged n im' w1 w2 → updated n d a im' w w2.
Proof.
  intros [D N K C] (Hd & Ha & Hk). unfold nodes, canon, disk_of in *. split; unfold nodes, canon, disk_of.
  - intros m. rewrite Hd. apply D.
  - intros m. rewrite Ha. apply N.
  - intros m. rewrite Hk. case_decide as E; [subst; by rewrite lookup_insert_eq|].
    rewrite lookup_insert_ne, K by done. by rewrite decide_False.
  - by rewrite Ha.
Qed.

Lemma imaged_kvs n im w w' : imaged n im w w' → w'.(kvs) !! n = Some im.
Proof. intros (_ & _ & ->). by rewrite lookup_insert_eq. Qed.

Lemma wp_admit_request n r w :
  w.(kvs) !! n = Some (image_of w n) → conflicts (image_of w n).(kv_requests) r = false →
  wp (admit_request n r) (λ w' flags, ∃ im, imaged n im w w' ∧
    step_image (image_of w n) (CmdRequest r) =
      if negb flags.1 && negb flags.2
      then mkKVImage (execute_operation r.(cr_operation) im.(kv_state)) im.(kv_requests) else im) never w.
Proof.
  intros Hi Hc. unfold admit_request. wp_steps. cbv zeta. unfold conflicts in Hc. simpl.
  destruct (kv_requests (image_of w n) !! _) as [p|] eqn:E.
  - wp_steps; [by rewrite Hc in *|]. exists (image_of w n). split; [by apply imaged_refl|done].
  - destruct (_ <? _).
    + wp_steps. exists (image_of w n). split; [by apply imaged_refl|done].
    + unfold put_image. wp_steps. eexists. by split.
Qed.

Lemma wp_run_operation n op w :
  wp (run_operation n op) (λ w' _,
    imaged n (mkKVImage (execute_operation op (image_of w n).(kv_state)) (image_of w n).(kv_requests)) w w')
    never w.
Proof. unfold run_operation, put_image. by wp_steps. Qed.

(** A computation that never raises and only writes the trace *)
Lemma wp_trace_operation n i op c r dup stale w :
  wp (trace_operation n i op c r dup stale) (λ w' _, same_core w w') never w.
Proof. unfold trace_operation, app_record. destruct op; by wp_steps. Qed.

Definition admissible (im : KVImage) (c : KVCommand) : bool :=
  supported c && match c with CmdRequest r => negb (conflicts im.(kv_requests) r) | _ => true end.

Lemma wp_apply_command n c tr i w :
  w.(kvs) !! n = Some (image_of w n) → admissible (image_of w n) c = true →
  wp (apply_command n c tr i) (λ w' _, imaged n (step_image (image_of w n) c) w w') never w.
Proof.
  intros Hi [Hs Hc]%andb_prop. destruct c as [op|r| |ty|]; [| | | |done]; unfold apply_command.
  - wp_step. eapply wp_mono; [apply wp_run_operation| |done]. intros w1 ? H1. cbv beta in *.
    wp_step; [|done]. eapply wp_mono; [apply wp_trace_operation| |done].
    intros w2 ? H2. cbv beta in *. exact (imaged_core _ _ _ _ _ H1 H2).
  - apply negb_true_iff in Hc. wp_step. eapply wp_mono; [by apply wp_admit_request| |done].
    intros w1 flags (im & H1 & Hst). cbv beta. rewrite Hst. pose proof (image_of_imaged _ _ _ _ H1) as Him.
    wp_step.
    destruct (negb flags.1 && negb flags.2) eqn:E; simpl.
    + eapply wp_mono; [apply wp_run_operation| |done]. intros w2 ? H2. cbv beta in *. rewrite Him in H2.
      pose proof (imaged_trans _ _ _ _ _ _ H1 H2) as H12.
      wp_step; [|exact H12]. eapply wp_mono; [apply wp_trace_operation| |done].
      intros w3 ? H3. cbv beta in *. exact (imaged_core _ _ _ _ _ H12 H3).
    + wp_steps; [|exact H1]. eapply wp_mono; [apply wp_trace_operation| |done].
      intros w3 ? H3. cbv beta in *. exact (imaged_core _ _ _ _ _ H1 H3).
  - wp_steps; [unfold app_record; wp_steps|]; (eapply imaged_core; [by apply imaged_refl|done]).
  - wp_steps; [unfold app_record; wp_steps|]; (eapply imaged_core; [by apply imaged_refl|done]).
Qed.

(** Applying a validated batch replays it. *)
Lemma wp_apply_commands {A} n (f : A → AM unit) (g : A → KVCommand) l seen w :
  (∀ x w', w'.(kvs) !! n = Some (image_of w' n) → admissible (image_of w' n) (g x) = true →
    wp (f x) (λ w'' _, imaged n (step_image (image_of w' n) (g x)) w' w'') never w') →
  w.(kvs) !! n = Some (image_of w n) → (image_of w n).(kv_requests) ⊆ seen →
  Forall (λ c, supported c = true) (g <$> l) → conflict_free (g <$> l) seen = true →
  wp (for_each l f) (λ w' _, imaged n (replay (image_of w n) (g <$> l)) w w') never w.
Proof.
  intros Hf. revert seen w. induction l as [|x l IH]; intros seen w Hi Hsub Hs Hcf; simpl.
  { wp_steps. by apply imaged_refl. }
  apply Forall_cons in Hs as [Hsx Hs]. simpl in Hcf.
  assert (admissible (image_of w n) (g x) = true) as Hadm.
  { unfold admissible. rewrite Hsx. destruct (g x) as [|r| | |]; try done. simpl.
    apply andb_prop in Hcf as [Hcf _]. unfold conflicts in *.
    destruct (kv_requests (image_of w n) !! _) as [p|] eqn:E; [|done].
    by rewrite (lookup_weaken _ _ _ _ E Hsub) in Hcf. }
  wp_step. eapply wp_mono; [by apply Hf| |done]. intros w1 ? H1. cbv beta in *.
  pose proof (image_of_imaged _ _ _ _ H1) as Him. pose proof (imaged_kvs _ _ _ _ H1) as Hk.
  destruct (step_image_requests (image_of w n) (g x) seen Hsub) as [Hsub'|(r & Hr & Hbad)].
  - eapply wp_mono; [eapply (IH _ w1)| |done]; rewrite ?Him; try done.
    + destruct (g x); try exact Hcf. by apply andb_prop in Hcf as [_ Hcf].
    + intros w2 ? H2. cbv beta in *. exact (imaged_trans _ _ _ _ _ _ H1 H2).
  - rewrite Hr in Hcf. apply andb_prop in Hcf as [Hcf _]. by rewrite Hbad in Hcf.
Qed.
