(* ===== verification/AppInv.v ===== *)
(** * AppInv: the operations of the store keep its invariant

    Each operation of [ReplicatedKV], [StateMachineApplier] and
    [KVSnapshotStore] that changes state, by its effect on the one node it
    names ([updated]) and on [app_inv]. *)

From S2P Require Import Prelude Simulator LogIndex KVCommands Raft AppWorld StateMachine KV Snapshot AppFacts.

Implicit Types (w : AppWorld) (n : string).

(** ** Computations that change nothing at all *)

Definition stays {S A} (m : M S A) : Prop := ∀ s, (m s).1 = s.

Section stays.
Context {S : Type}.

Lemma stays_ret {A} (a : A) : stays (S := S) (ret a). Proof. done. Qed.
Lemma stays_gets {A} (f : S → A) : stays (gets f). Proof. done. Qed.
Lemma stays_raise {A} c msg : stays (S := S) (raise (A := A) c msg). Proof. done. Qed.
Lemma stays_raise_if b c msg : stays (S := S) (raise_if b c msg). Proof. by destruct b. Qed.
Lemma stays_lift {A} (r : exn + A) : stays (S := S) (lift r). Proof. done. Qed.
Lemma stays_bind {A B} (m : M S A) (k : A → M S B) : stays m → (∀ a, stays (k a)) → stays (bind m k).
Proof.
  intros Hm Hk s. unfold bind. specialize (Hm s). destruct (m s) as [s' [e|a]]; simpl in *; subst; [done|].
  apply Hk.
Qed.
Lemma stays_for_each {A} (l : list A) (f : A → M S unit) : (∀ a, stays (f a)) → stays (for_each l f).
Proof. intros Hf. induction l as [|a l IH]; [done|]. by apply stays_bind. Qed.

Lemma stays_eq {A} (m : M S A) s r s' : stays m → m s = (s', r) → s' = s.
Proof. intros Hm E. specialize (Hm s). by rewrite E in Hm. Qed.

Lemma wp_stays_bind {A B} (m : M S A) (k : A → M S B) (Q : S → B → Prop) (E : S → exn → Prop) s :
  stays m → (∀ a, m s = (s, inr a) → wp (k a) Q E s) → (∀ e, m s = (s, inl e) → E s e) →
  wp (bind m k) Q E s.
Proof.
  intros Hm Hk He. specialize (Hm s). unfold wp, bind in *.
  destruct (m s) as [s' [e|a]]; simpl in Hm; subst; [by apply He|by apply Hk].
Qed.
End stays.

#[export] Hint Resolve stays_ret stays_gets stays_raise stays_raise_if stays_lift stays_for_each : distlab.
#[export] Hint Extern 3 (stays (bind _ _)) => apply stays_bind; [|intros] : distlab.
#[export] Hint Extern 5 (stays (if ?b then _ else _)) => destruct b : distlab.
#[export] Hint Extern 6 (stays (when ?b _)) => unfold when; destruct b : distlab.

Lemma set_raft_id w : set_raft w.(raft) w = w.
Proof. by destruct w. Qed.

Lemma stays_on_raft {A} (m : M RaftWorld A) : stays m → stays (on_raft m).
Proof. intros Hm w. unfold on_raft. rewrite Hm. apply set_raft_id. Qed.

Lemma stays_node n : stays (node (C := KVCommand) n).
Proof. unfold node. auto with distlab. Qed.
Lemma stays_log_view n : stays (log_view (C := KVCommand) n).
Proof. unfold log_view. auto with distlab. Qed.
Lemma stays_last_log_index n : stays (last_log_index (C := KVCommand) n).
Proof. apply stays_bind; [apply stays_log_view|auto with distlab]. Qed.
#[export] Hint Resolve stays_on_raft stays_node stays_log_view stays_last_log_index : distlab.

Lemma stays_item {A} (l : list A) i : stays (item l i).
Proof. unfold item. destruct (znth l i); auto with distlab. Qed.
Lemma stays_sm_require n : stays (sm_require_node n).
Proof. unfold sm_require_node. auto with distlab. Qed.
Lemma stays_kv_require n : stays (kv_require_node n).
Proof. unfold kv_require_node. auto with distlab. Qed.
Lemma stays_snap_require n : stays (snap_require_node n).
Proof. unfold snap_require_node. auto with distlab. Qed.
#[export] Hint Resolve stays_item stays_sm_require stays_kv_require stays_snap_require : distlab.

Lemma stays_last_applied n : stays (last_applied n).
Proof. unfold last_applied. auto with distlab. Qed.
Lemma stays_applied_entries n : stays (applied_entries n).
Proof. unfold applied_entries. auto with distlab. Qed.
Lemma stays_latest n : stays (latest n).
Proof. unfold latest. auto with distlab. Qed.
Lemma stays_snapshot_requests n : stays (snapshot_requests n).
Proof. unfold snapshot_requests, kv_client_requests. auto with distlab. Qed.
Lemma stays_validate_entries l : stays (validate_entries l).
Proof. intros w. by rewrite validate_entries_eq. Qed.
Lemma stays_validate_request_conflicts n l : stays (validate_request_conflicts n l).
Proof. intros w. unfold validate_request_conflicts, bind, gets. by rewrite validate_conflicts_eq. Qed.
#[export] Hint Resolve stays_last_applied stays_applied_entries stays_latest stays_snapshot_requests
  stays_validate_entries stays_validate_request_conflicts : distlab.

(** The view of a node's log *)
Definition view_of w n : exn + RaftLogView KVCommand :=
  let d := dur w.(raft) n in new_RaftLogView d.(log_base_index) d.(log_base_term) d.(log).

Lemma log_view_eq n w : on_raft (log_view n) w = (w, view_of w n).
Proof. unfold on_raft, log_view, view_of, bind, gets, lift. simpl. by rewrite set_raft_id. Qed.

Lemma last_log_index_eq n w :
  on_raft (last_log_index n) w =
    (w, match view_of w n with inr v => inr (last_index (C := KVCommand) v) | inl e => inl e end).
Proof.
  unfold on_raft, last_log_index, log_view, view_of, bind, gets, lift. simpl.
  destruct (new_RaftLogView _ _ _); simpl; by rewrite set_raft_id.
Qed.

(** ** Reads that succeed *)

Lemma wp_eq {S A} (m : M S A) (Q : S → A → Prop) E s r : m s = (s, inr r) → Q s r → wp m Q E s.
Proof. unfold wp. by intros ->. Qed.

Lemma sm_known {A} n a (m : AM A) w :
  nodes w !! n = Some a → (sm_require_node n ;; m) w = m w.
Proof.
  intros Ha. unfold sm_require_node, bind, gets. fold (nodes w).
  by rewrite bool_decide_eq_true_2 by by eexists.
Qed.

Lemma node_applied_some n a w : nodes w !! n = Some a → node_applied w n = a.
Proof. intros Ha. unfold node_applied. fold (nodes w). by rewrite Ha. Qed.

Lemma sm_require_known n a w : nodes w !! n = Some a → sm_require_node n w = (w, inr tt).
Proof.
  intros Ha. unfold sm_require_node, bind, gets. fold (nodes w).
  by rewrite bool_decide_eq_true_2 by by eexists.
Qed.

Lemma node_member n w x : on_raft (node n) w = (w, inr x) → member w.(raft) n = true.
Proof. unfold on_raft, node, bind, gets. simpl. by destruct (member (raft w) n). Qed.

Lemma member_node n w : member w.(raft) n = true → on_raft (node n) w = (w, inr n).
Proof. intros Hm. unfold on_raft, node, bind, gets. simpl. rewrite Hm. simpl. by rewrite set_raft_id. Qed.

Lemma image_of_some w n im : w.(kvs) !! n = Some im → image_of w n = im.
Proof. intros Hi. unfold image_of. by rewrite Hi. Qed.

Lemma kv_known {A} n im (m : AM A) w :
  w.(kvs) !! n = Some im → (kv_require_node n ;; m) w = m w.
Proof.
  intros Hi. unfold kv_require_node, bind, gets. by rewrite bool_decide_eq_true_2 by by eexists.
Qed.

Lemma last_applied_eq n a w : nodes w !! n = Some a → last_applied n w = (w, inr a.(na_last_applied)).
Proof.
  intros Ha. unfold last_applied. rewrite (sm_known _ _ _ _ Ha). unfold gets.
  by rewrite (node_applied_some _ _ _ Ha).
Qed.

(** ** [apply_committed] *)

Lemma suffix_holds (v : RaftLogView KVCommand) start es k :
  suffix_from v start = inr es → holds v (start - 1) (take k es).
Proof.
  unfold suffix_from. destruct (Z.ltb_spec start (first_retained_index v)); [done|].
  destruct (_ <? _); [done|]. intros [= <-] i e He. apply lookup_take_Some in He as [He _].
  rewrite lookup_drop in He. unfold first_retained_index in *.
  apply entry_at_lookup. split; [lia|]. unfold znth. rewrite <-He. f_equal. lia.
Qed.

Lemma length_suffix (v : RaftLogView KVCommand) start es :
  suffix_from v start = inr es → zlen es = last_index v - start + 1.
Proof.
  unfold suffix_from, last_index, first_retained_index. destruct (Z.ltb_spec start (base_index v + 1)); [done|].
  destruct (Z.ltb_spec (base_index v + zlen (entries v) + 1) start); [done|]. intros [= <-].
  unfold zlen in *. rewrite length_drop. lia.
Qed.

Lemma commands_of_app es es' : commands_of (es ++ es') = commands_of es ++ commands_of es'.
Proof. apply fmap_app. Qed.

Lemma replay_app im l k : replay im (l ++ k) = replay (replay im l) k.
Proof. apply foldl_app. Qed.

Lemma base_image_grow d es : base_image (grow_disk d es) = base_image d.
Proof. done. Qed.

Lemma image_ok_grow d im es :
  image_ok d im → image_ok (grow_disk d es) (replay im (commands_of es)).
Proof.
  intros [Hs ->]. split; [exact Hs|]. rewrite base_image_grow. simpl.
  by rewrite commands_of_app, replay_app.
Qed.

Lemma disk_ok_grow d es :
  disk_ok d → Forall (λ c, supported c = true) (commands_of es) → disk_ok (grow_disk d es).
Proof. intros [Hs Hf] Hes. split; [exact Hs|]. simpl. rewrite commands_of_app. by apply Forall_app. Qed.

(** What is pending at [n] *)
Definition pending_at w n (a : NodeApplied) (es : list Entry) : Prop :=
  let commit := (vol w.(raft) n).(commit_index) in
  if commit <=? a.(na_last_applied) then es = []
  else ∃ v, view_of w n = inr v ∧ holds v a.(na_last_applied) es
    ∧ a.(na_last_applied) + zlen es = Z.min commit (last_index v).

(** The state after [es] has been applied at [n] *)
Definition applied_state n es (a : NodeApplied) im w w' : Prop :=
  updated n (grow_disk (disk_of w n) es) (grow_node n a es) (replay im (commands_of es)) w w'
  ∧ node_ok (canon w') (grow_disk (disk_of w n) es) n (grow_node n a es)
  ∧ canon w' = foldl note (canon w) (records_from n a.(na_last_applied) es).

(** What [apply_committed] needs of Raft: the node, and a log that reaches from
    what is applied to the commit index. *)
Definition ready w n (a : NodeApplied) : Prop :=
  member w.(raft) n = true
  ∧ ((vol w.(raft) n).(commit_index) ≤ a.(na_last_applied)
     ∨ ∃ v, view_of w n = inr v ∧ v.(base_index) ≤ a.(na_last_applied)
         ∧ (vol w.(raft) n).(commit_index) ≤ last_index v).

Lemma wp_sm_apply n a im es w :
  nodes w !! n = Some a → w.(kvs) !! n = Some im → node_ok (canon w) (disk_of w n) n a →
  pending_at w n a es →
  wp (sm_apply_committed n)
    (λ w' r, r = records_from n a.(na_last_applied) es
       ∧ updated n (grow_disk (disk_of w n) es) (grow_node n a es) im w w'
       ∧ node_ok (canon w') (grow_disk (disk_of w n) es) n (grow_node n a es)
       ∧ canon w' = foldl note (canon w) (records_from n a.(na_last_applied) es))
    (λ w' e, unsafe_in w (records_from n a.(na_last_applied) es) w' e ∨ w' = w ∧ ¬ ready w n a) w.
Proof.
  intros Ha Hi Hno Hp. unfold sm_apply_committed. unfold ready.
  wp_step. eapply wp_eq; [by eapply sm_require_known|]. cbv beta.
  apply wp_stays_bind; [auto with distlab| |by right; split; [|intros [Hm _]; by rewrite member_node in H]].
  intros x Hm%node_member. rewrite Hm. pose proof (node_applied_some _ _ _ Ha) as Hna.
  do 4 (wp_step; cbv beta). rewrite Hna. unfold pending_at in Hp.
  destruct (Z.leb_spec (commit_index (vol (raft w) n)) (na_last_applied a)) as [Hc|Hc].
  { subst es. apply wp_ret. rewrite grow_disk_nil, grow_node_nil. split; [done|]. split; [|done].
    by apply updated_core. }
  destruct Hp as (v & Hv & Hh & Hlen).
  wp_step. eapply wp_eq; [rewrite last_log_index_eq, Hv; reflexivity|]. cbv beta.
  assert (∀ v', view_of w n = inr v' → v' = v) as Hvv by congruence.
  apply wp_stays_bind; [auto with distlab|intros [] Hle|].
  2:{ intros e He. right. split; [done|]. intros [_ [Hx|(v' & ->%Hvv & _ & Hx)]]; [lia|].
      by rewrite (proj2 (Z.ltb_ge _ _)) in He by done. }
  destruct (Z.ltb_spec (last_index v) (commit_index (vol (raft w) n))); [done|].
  wp_step. eapply wp_eq; [rewrite log_view_eq, Hv; reflexivity|]. cbv beta.
  apply wp_stays_bind; [auto with distlab|intros [] _|].
  2:{ intros e He. right. split; [done|]. intros [_ [Hx|(v' & ->%Hvv & Hx & _)]]; [lia|].
      by rewrite (proj2 (Z.ltb_ge _ _)) in He by done. }
  replace (commit_index (vol (raft w) n) + 1) with (na_last_applied a + 1 + zlen es) by lia.
  eapply wp_mono; [by apply wp_apply_indices| |by left]. intros w1 r H1. exact H1.
Qed.

(** The pending entries [ReplicatedKV.apply_committed] validates before it asks
    the applier for them *)
Lemma wp_pending {B} n a (k : list Entry → AM B) (Q : _ → _ → Prop) (E : _ → _ → Prop) w :
  (∀ es, pending_at w n a es → wp (k es) Q E w) →
  (∀ e, (member w.(raft) n = true → ¬ ready w n a) → E w e) →
  wp (let! pending :=
        if a.(na_last_applied) + 1 <=? (vol w.(raft) n).(commit_index) then
          let! log := on_raft (log_view n) in
          let! suffix := lift (suffix_from log (a.(na_last_applied) + 1)) in
          ret (take (Z.to_nat ((vol w.(raft) n).(commit_index) - (a.(na_last_applied) + 1) + 1)) suffix)
        else ret [] in k pending) Q E w.
Proof.
  intros Hk HE. unfold pending_at in Hk. unfold ready in HE.
  apply wp_stays_bind; [auto 10 with distlab|..]; set (commit := commit_index (vol (raft w) n)) in *.
  - intros es Hes. apply Hk. destruct (Z.leb_spec (na_last_applied a + 1) commit).
    + rewrite (proj2 (Z.leb_gt _ _)) by lia. unfold bind at 1 in Hes.
      rewrite log_view_eq in Hes. destruct (view_of w n) as [|v]; [done|].
      exists v. split; [done|]. unfold bind, lift, ret in Hes.
      destruct (suffix_from v (na_last_applied a + 1)) as [|suf] eqn:Hs; [done|].
      injection Hes as <-. pose proof (suffix_holds _ _ _ (Z.to_nat (commit - (na_last_applied a + 1) + 1)) Hs) as Hh.
      replace (na_last_applied a + 1 - 1) with (na_last_applied a) in Hh by lia. split; [done|].
      apply length_suffix in Hs. unfold zlen in *. rewrite length_take. lia.
    + rewrite (proj2 (Z.leb_le _ _)) by lia. by injection Hes.
  - intros e He. apply HE. intros _ [_ [Hx|(v & Hv & Hb & Hl)]].
    + by rewrite (proj2 (Z.leb_gt _ _)) in He by lia.
    + destruct (_ <=? _) eqn:Ele in He; [|done]. apply Z.leb_le in Ele.
      unfold bind at 1 in He. rewrite log_view_eq, Hv in He. unfold bind, lift, ret in He.
      unfold suffix_from, first_retained_index in He.
      rewrite (proj2 (Z.ltb_ge _ _)), (proj2 (Z.ltb_ge _ _)) in He by lia. done.
Qed.

Lemma pending_unique w n a es es' : pending_at w n a es → pending_at w n a es' → es = es'.
Proof.
  unfold pending_at. destruct (_ <=? _); [by intros -> ->|].
  intros (v & Hv & Hh & Hl) (v' & Hv' & Hh' & Hl'). assert (v' = v) as -> by congruence.
  apply list_eq_same_length with (n := length es); [unfold zlen in *; lia|done|].
  intros i x y _ Hx Hy. apply Hh in Hx. apply Hh' in Hy. congruence.
Qed.

(** A batch passes the validation of [apply_committed]. *)
Definition acceptable (im : KVImage) (es : list Entry) : bool :=
  forallb supported (commands_of es) && conflict_free (commands_of es) im.(kv_requests).

Lemma conflict_free_of w n es :
  validate_request_conflicts n es w = (w, inr tt) →
  conflict_free (commands_of es) (image_of w n).(kv_requests) = true.
Proof.
  unfold validate_request_conflicts, bind, gets. rewrite validate_conflicts_eq.
  by destruct (conflict_free _ _).
Qed.

Lemma supported_of w es :
  validate_entries es w = (w, inr tt) → Forall (λ c, supported c = true) (commands_of es).
Proof.
  rewrite validate_entries_eq. destruct (forallb _ _) eqn:E; [|done]. intros _.
  rewrite forallb_forall in E. apply Forall_forall. intros c Hc. by apply E, list_elem_of_In.
Qed.

(** The end of an operation that either changed nothing or reported that two
    nodes applied different entries at one index *)
Abbreviation unsafe_or_same w := (λ w' e, exn_cls e = StateMachineSafetyViolation ∨ w' = w).

(** What the validation raises for a batch that does not pass: it looks for
    unsupported commands first. *)
Definition refusal (es : list Entry) : exn :=
  if forallb supported (commands_of es) then conflict else Exn InvalidKVCommand "unsupported KV command".

(** [apply_committed] of a node raised [e] and could not be expected to do its
    work. *)
Definition refused w n (e : exn) : Prop := ∀ a im es,
  nodes w !! n = Some a → w.(kvs) !! n = Some im → pending_at w n a es → ready w n a →
  acceptable im es = false ∧ e = refusal es.

Lemma wp_kv_apply n w :
  app_inv w →
  wp (kv_apply_committed n)
    (λ w' r, ∃ a im es, nodes w !! n = Some a ∧ w.(kvs) !! n = Some im ∧ pending_at w n a es
       ∧ acceptable im es = true
       ∧ r = records_from n a.(na_last_applied) es ∧ applied_state n es a im w w' ∧ app_inv w')
    (λ w' e, w' = w ∧ refused w n e ∨ exn_cls e = StateMachineSafetyViolation
       ∧ ∃ a es, nodes w !! n = Some a ∧ pending_at w n a es
           ∧ all_agree (canon w) (records_from n a.(na_last_applied) es) = false) w.
Proof.
  intros Hinv. unfold kv_apply_committed.
  apply wp_stays_bind; [auto with distlab|intros [] Hn|].
  2:{ intros e Hn. left. split; [done|]. intros a im es _ Hi. exfalso. unfold kv_require_node, bind, gets in Hn.
      by rewrite bool_decide_eq_true_2 in Hn by by eexists. }
  assert (∃ im, kvs w !! n = Some im) as [im Hi].
  { unfold kv_require_node, bind, gets in Hn. case_bool_decide as E; [exact E|done]. }
  destruct (proj2 (ai_dom _ Hinv n) (mk_is_Some _ _ Hi)) as [a Ha].
  pose proof (ai_sm _ Hinv _ _ Ha) as Hno.
  assert (∀ es e, pending_at w n a es → (ready w n a → acceptable im es = false ∧ e = refusal es) → refused w n e) as Href.
  { intros es e Hp Hb a' im' es' Ha' Hi' Hp' Hr. simplify_eq.
    rewrite (pending_unique _ _ _ _ _ Hp' Hp). by apply Hb. }
  assert (∀ e, (ready w n a → False) → refused w n e) as Hnot.
  { intros e Hb a' im' es' Ha' Hi' Hp' Hr. simplify_eq. by destruct Hb. }
  apply wp_stays_bind; [auto with distlab|intros x Hm%node_member|].
  2:{ intros e Hm. left. split; [done|]. apply Hnot. intros [Hx _]. by rewrite member_node in Hm. }
  wp_step. eapply wp_eq; [apply (last_applied_eq _ _ _ Ha)|].
  cbv beta zeta. do 2 (wp_step; cbv beta). apply wp_pending.
  2:{ intros e Hr. left. split; [done|]. apply Hnot. by apply Hr. }
  intros es Hp. assert (∀ e, (ready w n a → acceptable im es = false ∧ e = refusal es) → refused w n e) as Hbad
    by (intros e; by apply Href). clear Href.
  apply wp_stays_bind; [auto with distlab|intros [] Hsup|].
  2:{ intros e He. left. split; [done|]. apply Hbad. intros _. unfold acceptable, refusal.
      rewrite validate_entries_eq in He. destruct (forallb _ _); [done|]. by injection He as <-. }
  apply supported_of in Hsup.
  apply wp_stays_bind; [auto with distlab|intros [] Hcf%conflict_free_of|].
  2:{ intros e He. left. split; [done|]. apply Hbad. intros _. unfold acceptable, refusal.
      assert (forallb supported (commands_of es) = true) as ->
        by (apply forallb_forall; intros c Hc; rewrite Forall_forall in Hsup; by apply Hsup, list_elem_of_In).
      unfold validate_request_conflicts, bind, gets in He. rewrite validate_conflicts_eq in He.
      rewrite (image_of_some _ _ _ Hi) in He. destruct (conflict_free _ _); [done|]. injection He as <-. by split. }
  rewrite (image_of_some _ _ _ Hi) in Hcf. wp_step.
  eapply wp_mono; [by apply (wp_sm_apply n a im es)| |].
  2:{ intros w' e [[He Hun]|[-> Hr]]; [right|left; split; [done|by apply Hnot]].
      split; [done|]. by exists a, es. }
  intros w1 r (-> & Hu & Hok & Hcn). cbv beta. wp_step.
  destruct (updated_at _ _ _ _ _ _ Hu) as (Hd1 & Ha1 & Hi1). pose proof (image_of_some _ _ _ Hi1) as Him.
  assert ((λ r, le_command (ap_entry r)) <$> records_from n (na_last_applied a) es = commands_of es) as Hcmd.
  { rewrite <-(records_entries n (na_last_applied a) es) at 2. unfold commands_of.
    by rewrite <-list_fmap_compose. }
  eapply wp_mono; [eapply (wp_apply_commands n _ (λ r, le_command (ap_entry r)) _ (kv_requests im))| |done];
    rewrite ?Him, ?Hcmd; try done.
  { intros r w' Hk Hadm. by apply wp_apply_command. }
  intros w2 ? H2. wp_steps. pose proof (imaged_updated _ _ _ _ _ _ _ _ Hu H2) as Hu2.
  exists a, im, es. assert (canon w2 = canon w1) as Hcan by (destruct H2 as (_ & Ha2 & _); unfold canon; by rewrite Ha2).
  rewrite <-Hcan in Hok, Hcn. do 3 (split; [done|]). split; [|split_and!; try done].
  { unfold acceptable. rewrite Hcf, andb_true_r. apply forallb_forall. intros c Hin.
    rewrite Forall_forall in Hsup. by apply Hsup, list_elem_of_In. } eapply app_inv_updated; try done.
  - apply image_ok_grow. by apply (ai_kv _ Hinv).
  - apply disk_ok_grow; [|done]. apply (ai_disk _ Hinv).
Qed.
