(* ===== verification/AppRebuild.v ===== *)
(** * AppRebuild: building the applier and the store from disk

    [StateMachineApplier(cluster)] and [ReplicatedKV(cluster, applier)] over
    what a node's disk holds: when they succeed, and the state they build. *)

From S2P Require Import Prelude Simulator LogIndex KVCommands Raft AppWorld StateMachine KV Snapshot AppFacts AppInv.

Implicit Types (w : AppWorld) (n : string).

(** ** The applier *)

Lemma foldl_note_subseteq c l : c ⊆ foldl note c l.
Proof. revert c. induction l as [|r l IH]; intros c; simpl; [done|]. etrans; [apply note_subseteq|apply IH]. Qed.

Lemma foldl_note_lookup c l r :
  all_agree c l = true → r ∈ l → ∃ r', foldl note c l !! r.(ap_index) = Some r' ∧ r'.(ap_entry) = r.(ap_entry).
Proof.
  revert c. induction l as [|r0 l IH]; intros c; simpl; [by intros _ Hr%elem_of_nil|].
  intros [Hag Hall]%andb_prop [->|Hr]%elem_of_cons; [|by apply IH].
  destruct (note_lookup _ _ Hag) as (r' & Hr' & He). exists r'. split; [|done].
  eapply lookup_weaken; [exact Hr'|apply foldl_note_subseteq].
Qed.

Lemma wp_record_all records w :
  wp (for_each records record_canonical)
    (λ w' _, w'.(raft) = w.(raft) ∧ w'.(disk) = w.(disk) ∧ nodes w' = nodes w ∧ w'.(kvs) = w.(kvs)
       ∧ canon w' = foldl note (canon w) records ∧ all_agree (canon w) records = true)
    unsafe w.
Proof.
  revert w. induction records as [|r records IH]; intros w; simpl; [by wp_steps|].
  wp_step. eapply wp_mono; [apply wp_record_canonical| |by intros ? ? (_ & ? & _)].
  intros w1 ? (Hr & Hd & Hn & Hk & Hc & Hag). cbv beta in *. rewrite Hag, <-Hc. simpl.
  eapply wp_mono; [apply IH| |done]. intros w2 ? (Hr2 & Hd2 & Hn2 & Hk2 & Hc2 & Hall). cbv beta in *.
  split_and!; congruence.
Qed.

(** What is on disk, as an applied history *)
Definition loaded n (d : AppDurable) : NodeApplied :=
  mkNodeApplied d.(sm_base_index) d.(sm_base_term) (d.(sm_base_index) + zlen d.(sm_applied))
    (records_from n d.(sm_base_index) d.(sm_applied)).

Lemma stays_load n : stays (load_durable_state n).
Proof.
  unfold load_durable_state, node_log. cbv zeta. auto 40 with distlab.
Qed.

Lemma load_returns n w v :
  load_durable_state n w = (w, inr v) →
  v = ((disk_of w n).(sm_base_index), (disk_of w n).(sm_base_term), (disk_of w n).(sm_applied))
  ∧ 0 ≤ (disk_of w n).(sm_base_index).
Proof.
  intros H. assert (wp (load_durable_state n) (λ w' r, w' = w → r =
    ((disk_of w n).(sm_base_index), (disk_of w n).(sm_base_term), (disk_of w n).(sm_applied))
    ∧ 0 ≤ (disk_of w n).(sm_base_index)) (λ _ _, True) w) as Hwp; [|unfold wp in Hwp; rewrite H in Hwp; auto].
  unfold load_durable_state. cbv zeta. do 4 (wp_step; cbv beta); [done|].
  assert (0 ≤ sm_base_index (disk_of w n)) as Hb by lia.
  unfold node_log. repeat (apply wp_stays_bind; [by auto 20 with distlab|intros ? ?|done]).
  by apply wp_ret.
Qed.

(** [n] after its iteration of [StateMachineApplier.__init__] *)
Definition loaded_at w w' n : Prop :=
  nodes w' !! n = Some (loaded n (disk_of w n)) ∧ node_ok (canon w') (disk_of w n) n (loaded n (disk_of w n)).

Lemma wp_load_node n w :
  wp (let! r := load_durable_state n in
      let '(bi, bt, entries) := r in
      let records := records_from n bi entries in
      put_applied n (mkNodeApplied bi bt (bi + zlen records) records) ;;
      for_each records record_canonical)
    (λ w' _, w'.(raft) = w.(raft) ∧ w'.(disk) = w.(disk) ∧ w'.(kvs) = w.(kvs)
       ∧ canon w' = foldl note (canon w) (loaded n (disk_of w n)).(na_applied)
       ∧ loaded_at w w' n ∧ ∀ m, m ≠ n → nodes w' !! m = nodes w !! m) (λ _ _, True) w.
Proof.
  apply wp_stays_bind; [apply stays_load| |done]. intros v [-> Hb]%load_returns. cbv zeta.
  unfold put_applied. do 2 wp_step. cbv beta.
  rewrite zlen_records. fold (loaded n (disk_of w n)).
  eapply wp_mono; [apply wp_record_all| |done]. intros w1 ? (Hr & Hd & Hn & Hk & Hc & Hall). cbv beta in *.
  assert (nodes w1 = <[n:=loaded n (disk_of w n)]> (nodes w)) as Hnodes by (rewrite Hn; done).
  do 4 (split; [done|]). split; [split|].
  - rewrite Hnodes. apply lookup_insert_eq.
  - split; simpl; try done; [by rewrite zlen_records|]. intros r. rewrite Hc. by apply foldl_note_lookup.
  - intros m Hm. rewrite Hnodes. by apply lookup_insert_ne.
Qed.

Lemma wp_init_applier w :
  wp init_applier
    (λ w' _, w'.(raft) = w.(raft) ∧ w'.(disk) = w.(disk) ∧ w'.(kvs) = w.(kvs)
       ∧ (∀ n, n ∈ cluster_ids w → loaded_at w w' n)
       ∧ (∀ n, n ∉ cluster_ids w → nodes w' !! n = None)
       ∧ canon w' = foldl (λ c n, foldl note c (loaded n (disk_of w n)).(na_applied)) ∅ (cluster_ids w))
    (λ _ _, True) w.
Proof.
  unfold init_applier. do 4 (wp_step; cbv beta). set (w0 := set_applier (mkApplier ∅ ∅) w).
  change (cluster_ids w0) with (cluster_ids w).
  assert (disk_of w0 = disk_of w) as Hd0 by done.
  assert (∀ ids done w1, w1.(raft) = w.(raft) → w1.(disk) = w.(disk) → w1.(kvs) = w.(kvs) →
    (∀ n, n ∈ done → loaded_at w w1 n) → (∀ n, n ∉ done → nodes w1 !! n = None) →
    wp (for_each ids (λ n,
        let! r := load_durable_state n in
        let '(bi, bt, entries) := r in
        let records := records_from n bi entries in
        put_applied n (mkNodeApplied bi bt (bi + zlen records) records) ;;
        for_each records record_canonical))
      (λ w' _, w'.(raft) = w.(raft) ∧ w'.(disk) = w.(disk) ∧ w'.(kvs) = w.(kvs)
        ∧ (∀ n, n ∈ done ++ ids → loaded_at w w' n) ∧ (∀ n, n ∉ done ++ ids → nodes w' !! n = None)
        ∧ canon w' = foldl (λ c n, foldl note c (loaded n (disk_of w n)).(na_applied)) (canon w1) ids)
      (λ _ _, True) w1) as Hloop.
  { intros ids. induction ids as [|n ids IH]; intros dn w1 Hr Hd Hk Hdone Hrest; simpl.
    { wp_steps. by rewrite app_nil_r. }
    wp_step. eapply wp_mono; [apply wp_load_node| |done].
    intros w2 ? (Hr2 & Hd2 & Hk2 & Hcn2 & [Hl Hok] & Hother). cbv beta in *.
    assert (canon w1 ⊆ canon w2) as Hc2 by (rewrite Hcn2; apply foldl_note_subseteq).
    assert (disk_of w1 = disk_of w) as Hdo by (unfold disk_of; by rewrite Hd). rewrite Hdo in *.
    eapply wp_mono; [apply (IH (dn ++ [n]))| |done]; try congruence.
    - intros m Hm. destruct (decide (m = n)) as [->|Hne]; [by split|].
      apply elem_of_app in Hm as [Hm|Hm%list_elem_of_singleton]; [|done].
      destruct (Hdone m Hm) as [Hl1 Hok1]. split; [by rewrite Hother|]. by eapply node_ok_mono.
    - intros m [Hm Hne]%not_elem_of_app. rewrite list_elem_of_singleton in Hne.
      rewrite Hother by done. by apply Hrest.
    - intros w3 ? H3. cbv beta in *. rewrite <-app_assoc, Hcn2 in H3. exact H3. }
  apply (Hloop (cluster_ids w) [] w0); try done. by intros n Hn%elem_of_nil.
Qed.

(** ** The store *)

Definition boundary_ok (d : AppDurable) : Prop :=
  d.(sm_base_index) ≠ 0 → ∃ s, d.(kv_snapshot) = Some s
    ∧ s.(last_included_index) = d.(sm_base_index) ∧ s.(last_included_term) = d.(sm_base_term).

(** No identity of the history is reused for another operation. *)
Definition rebuildable (d : AppDurable) : Prop :=
  boundary_ok d ∧ conflict_free (commands_of d.(sm_applied)) (base_image d).(kv_requests) = true.

(** The image of a history *)
Definition image_of_disk (d : AppDurable) : KVImage := replay (base_image d) (commands_of d.(sm_applied)).

Definition request_pair (i : SnapshotClientRequest) : (string * Z) * KVOperation :=
  (identity_of i, i.(sc_operation)).

Lemma elem_of_fmap_rev {A B} (f : A → B) (l : list A) y : y ∈ f <$> rev l ↔ y ∈ f <$> l.
Proof.
  rewrite !list_elem_of_fmap. setoid_rewrite list_elem_of_In. by setoid_rewrite <-in_rev.
Qed.

Lemma wp_restore_requests n items before im w :
  NoDup (identity_of <$> before ++ items) →
  w.(kvs) !! n = Some im → im.(kv_requests) = list_to_map (rev (request_pair <$> before)) →
  wp (restore_requests n items)
    (λ w' _, imaged n (mkKVImage im.(kv_state) (list_to_map (rev (request_pair <$> before ++ items)))) w w')
    never w.
Proof.
  revert before im w. induction items as [|i items IH]; intros before im w Hnd Hi Hreq; simpl.
  { wp_steps. rewrite app_nil_r, <-Hreq. pose proof (image_of_some _ _ _ Hi) as E.
    destruct im as [st rq]. simpl. rewrite <-E in *. by apply imaged_refl. }
  unfold restore_requests. simpl. wp_step. unfold put_image. wp_steps; rewrite (image_of_some _ _ _ Hi) in *.
  - assert (kv_requests im !! (sc_client_id i, sc_request_id i) = None) as Hnone.
    { rewrite Hreq. apply not_elem_of_list_to_map_1. rewrite elem_of_fmap_rev, <-list_fmap_compose.
      rewrite fmap_app, NoDup_app in Hnd. destruct Hnd as (_ & Hnd & _).
      intros Hin. eapply Hnd; [exact Hin|]. left. }
    by rewrite Hnone in *.
  - set (im' := mkKVImage (kv_state im) (<[(sc_client_id i, sc_request_id i):=sc_operation i]> (kv_requests im))).
    eapply wp_mono; [apply (IH (before ++ [i]) im')| |done].
    + by rewrite <-app_assoc.
    + apply lookup_insert_eq.
    + simpl. rewrite Hreq, fmap_app, rev_app_distr. done.
    + intros w2 ? H2. cbv beta in *. rewrite <-app_assoc in H2.
      refine (imaged_trans n im' _ w _ w2 _ H2). done.
Qed.

Lemma snapshot_wf_nodup s : snapshot_wf s → NoDup (identity_of <$> s.(client_requests)).
Proof.
  unfold snapshot_wf, new_KVSnapshot. do 3 (destruct (_ : bool); [done|]).
  destruct (_ || _) eqn:E; [done|]. intros _. apply orb_false_iff in E as [_ E].
  by apply negb_false_iff, bool_decide_eq_true in E.
Qed.

Lemma applied_reads n a w :
  nodes w !! n = Some a →
  applied_base_index n w = (w, inr a.(na_base_index)) ∧ applied_base_term n w = (w, inr a.(na_base_term))
  ∧ last_applied n w = (w, inr a.(na_last_applied)) ∧ applied_entries n w = (w, inr (ap_entry <$> a.(na_applied))).
Proof.
  intros Ha. unfold applied_base_index, applied_base_term, last_applied, applied_entries.
  rewrite !(sm_known _ _ _ _ Ha). unfold gets. by rewrite (node_applied_some _ _ _ Ha).
Qed.

Lemma wp_restore n a w :
  nodes w !! n = Some a → node_ok (canon w) (disk_of w n) n a → disk_ok (disk_of w n) →
  w.(kvs) !! n = Some kv_image0 →
  wp (restore_snapshot_boundary n)
    (λ w' _, boundary_ok (disk_of w n) ∧ imaged n (base_image (disk_of w n)) w w')
    (λ _ _, ¬ boundary_ok (disk_of w n)) w.
Proof.
  intros Ha Hno Hdo Hi. destruct (applied_reads _ _ _ Ha) as (Hbi & Hbt & _).
  unfold restore_snapshot_boundary. wp_step. eapply wp_eq; [exact Hbi|].
  rewrite <-(no_index _ _ _ _ Hno) in *. unfold boundary_ok, base_image.
  destruct (Z.eqb_spec (sm_base_index (disk_of w n)) 0) as [E|E].
  { apply wp_ret. split; [done|]. rewrite <-(image_of_some _ _ _ Hi). apply imaged_refl.
    by rewrite (image_of_some _ _ _ Hi). }
  wp_steps. destruct (kv_snapshot (disk_of w n)) as [s|] eqn:Es.
  2:{ apply wp_raise. intros Hb. by destruct (Hb E) as (? & ? & _). }
  wp_steps.
  { intros Hb. destruct (Hb E) as (s' & [= <-] & ? & _). lia. }
  eapply wp_eq; [exact Hbt|]. rewrite <-(no_term _ _ _ _ Hno) in *. cbv beta. wp_steps.
  { intros Hb. destruct (Hb E) as (s' & [= <-] & _ & ?). lia. }
  unfold put_image. wp_steps. rewrite (image_of_some _ _ _ Hi).
  pose proof (snapshot_wf_nodup _ (do_snapshot _ Hdo _ Es)) as Hnd.
  eapply wp_mono; [apply (wp_restore_requests n (client_requests s) []); [done|apply lookup_insert_eq|done]| |done].
  intros w' ? H'. cbv beta in *. simpl in H'. split.
  - intros _. exists s. split_and!; [done|lia|lia].
  - refine (imaged_trans _ _ _ _ _ _ _ H'). done.
Qed.

Lemma wp_init_node n a w :
  nodes w !! n = Some a → node_ok (canon w) (disk_of w n) n a → disk_ok (disk_of w n) →
  w.(kvs) !! n = Some kv_image0 →
  wp (init_node n)
    (λ w' _, rebuildable (disk_of w n) ∧ imaged n (image_of_disk (disk_of w n)) w w')
    (λ _ _, ¬ rebuildable (disk_of w n)) w.
Proof.
  intros Ha Hno Hdo Hi. unfold init_node. wp_step.
  eapply wp_mono; [by eapply wp_restore| |by intros ? ? Hb [? _]].
  intros w1 ? [Hb H1]. cbv beta in *. wp_step.
  assert (nodes w1 !! n = Some a) as Ha1 by (unfold nodes; destruct H1 as (_ & -> & _); exact Ha).
  eapply wp_eq; [apply (applied_reads _ _ _ Ha1)|].
  rewrite (no_records _ _ _ _ Hno), records_entries. set (d := disk_of w n) in *.
  wp_step. unfold wp at 1. rewrite validate_entries_eq.
  assert (forallb supported (commands_of (sm_applied d)) = true) as ->.
  { apply forallb_forall. intros c Hc. pose proof (do_supported _ Hdo) as Hs.
    rewrite Forall_forall in Hs. by apply Hs, list_elem_of_In. }
  wp_step. unfold validate_request_conflicts. do 2 wp_step. cbv beta. rewrite (image_of_imaged _ _ _ _ H1).
  unfold wp at 1. rewrite validate_conflicts_eq.
  destruct (conflict_free _ _) eqn:Ec; [|intros [_ Hc]; by rewrite Hc in Ec].
  eapply wp_mono; [eapply (wp_apply_commands n _ le_command _ (kv_requests (base_image d)) w1)| |done].
  - intros x w' Hk Hadm. by apply wp_apply_command.
  - rewrite (image_of_imaged _ _ _ _ H1). by apply (imaged_kvs _ _ _ _ H1).
  - by rewrite (image_of_imaged _ _ _ _ H1).
  - apply (do_supported _ Hdo).
  - exact Ec.
  - intros w2 ? H2. cbv beta in *. rewrite (image_of_imaged _ _ _ _ H1) in H2.
    split; [done|]. exact (imaged_trans _ _ _ _ _ _ H1 H2).
Qed.

Lemma wp_init_nodes ids w :
  NoDup ids →
  (∀ n, n ∈ ids → w.(kvs) !! n = Some kv_image0 ∧ ∃ a, nodes w !! n = Some a
     ∧ node_ok (canon w) (disk_of w n) n a ∧ disk_ok (disk_of w n)) →
  wp (for_each ids init_node)
    (λ w' _, w'.(disk) = w.(disk) ∧ w'.(applier) = w.(applier)
       ∧ (∀ n, n ∈ ids → rebuildable (disk_of w n) ∧ w'.(kvs) !! n = Some (image_of_disk (disk_of w n)))
       ∧ (∀ n, n ∉ ids → w'.(kvs) !! n = w.(kvs) !! n))
    (λ _ _, ∃ n, n ∈ ids ∧ ¬ rebuildable (disk_of w n)) w.
Proof.
  revert w. induction ids as [|n ids IH]; intros w Hnd Hids; simpl.
  { wp_steps. split_and!; try done. by intros n Hn%elem_of_nil. }
  apply NoDup_cons in Hnd as [Hn Hnd]. wp_step.
  destruct (Hids n (list_elem_of_here _ _)) as (Hi & a & Ha & Hno & Hdo).
  eapply wp_mono; [by eapply wp_init_node| |intros ? ? Hbad; exists n; split; [left|exact Hbad]].
  intros w1 ? (Hok & Hd & Hap & Hk). cbv beta.
  assert (disk_of w1 = disk_of w) as Hdo1 by (unfold disk_of; by rewrite Hd).
  eapply wp_mono; [apply (IH w1 Hnd)| |].
  - intros m Hm. unfold nodes, canon in *. rewrite Hdo1, Hap, Hk, lookup_insert_ne by (by intros ->).
    apply Hids. by right.
  - intros w2 ? (Hd2 & Hap2 & Hin & Hout). cbv beta in *. rewrite Hdo1 in *.
    split; [congruence|]. split; [congruence|]. split.
    + intros m [->|Hm]%elem_of_cons; [|by apply Hin]. split; [done|].
      rewrite Hout, Hk by done. apply lookup_insert_eq.
    + intros m Hm. rewrite not_elem_of_cons in Hm. destruct Hm as [Hne Hm].
      rewrite Hout, Hk by done. by rewrite lookup_insert_ne.
  - intros ? ? (m & Hm & Hbad). rewrite Hdo1 in Hbad. exists m. split; [by right|done].
Qed.
