(* ===== verification/AppCheckpoint.v ===== *)
(** * AppCheckpoint: checkpoints of the store

    [KVSnapshotStore.create], [compact] and [install]: what a checkpoint holds,
    and the effect of each operation on the node it names. *)

From S2P Require Import Prelude Simulator LogIndex KVCommands Raft AppWorld StateMachine KV Snapshot.
From S2P Require Import AppFacts AppInv AppRebuild.

Implicit Types (w : AppWorld) (n : string).

(** ** The contents of a checkpoint *)

Lemma list_to_map_rev_perm `{Countable K} {V} (l : list (K * V)) (m : gmap K V) :
  l ≡ₚ map_to_list m → list_to_map (rev l) = m.
Proof.
  intros Hl. etrans; [|apply list_to_map_to_list]. apply list_to_map_proper.
  - assert (rev l ≡ₚ map_to_list m) as -> by (by rewrite <-Permutation_rev). apply NoDup_fst_map_to_list.
  - by rewrite <-Permutation_rev.
Qed.

Lemma sorted_state_perm st : sorted_state st ≡ₚ map_to_list st.
Proof. apply merge_sort_Permutation. Qed.

(** The requests [create] writes down *)
Definition table_requests (requests : gmap (string * Z) KVOperation) : list SnapshotClientRequest :=
  omap (λ i, (λ op, mkSnapshotClientRequest i.1 i.2 op) <$> requests !! i) (sorted_identities requests).

Lemma table_requests_perm requests : request_pair <$> table_requests requests ≡ₚ map_to_list requests.
Proof.
  unfold table_requests, sorted_identities. rewrite merge_sort_Permutation.
  assert (∀ l, (∀ e, e ∈ l → requests !! e.1 = Some e.2) →
    request_pair <$> omap (λ i, (λ op, mkSnapshotClientRequest i.1 i.2 op) <$> requests !! i) l.*1 = l) as Hl.
  { induction l as [|[[c r] op] l IH]; intros Hl; [done|]. simpl.
    pose proof (Hl ((c, r), op) (list_elem_of_here _ _)) as E. simpl in E. rewrite E. simpl.
    f_equal. apply IH. intros e He. apply Hl. by right. }
  rewrite Hl; [done|]. intros [i op] Hi. by apply elem_of_map_to_list.
Qed.

Lemma table_requests_identities requests : identity_of <$> table_requests requests = sorted_identities requests.
Proof.
  unfold table_requests, sorted_identities. set (ids := merge_sort identity_le _).
  assert (∀ i, i ∈ ids → is_Some (requests !! i)) as Hids.
  { intros i. subst ids. rewrite merge_sort_Permutation, list_elem_of_fmap.
    intros ([j op] & -> & Hj). apply elem_of_map_to_list in Hj. by eexists. }
  clearbody ids. induction ids as [|[c r] ids IH]; [done|]. simpl.
  destruct (Hids (c, r) (list_elem_of_here _ _)) as [op ->]. simpl. unfold identity_of at 1. simpl.
  f_equal. apply IH. intros j Hj. apply Hids. by right.
Qed.

Lemma snapshot_image_of im s :
  s.(snap_state) = sorted_state im.(kv_state) → s.(client_requests) = table_requests im.(kv_requests) →
  snapshot_image s = im.
Proof.
  intros Hs Hr. unfold snapshot_image. rewrite Hs, Hr. destruct im as [st rq]. simpl. f_equal.
  - apply list_to_map_rev_perm, sorted_state_perm.
  - apply (list_to_map_rev_perm (request_pair <$> table_requests rq)), table_requests_perm.
Qed.

(** ** Python's order on pairs sorts a table one way *)

Section lex.
Context {A B : Type} (RA : relation A) (RB : relation B).
Context `{EqDecision A, !RelDecision RA, !RelDecision RB}.
Context `{!PartialOrder RA, !PartialOrder RB, !Total RA, !Total RB}.

#[global] Instance lex_le_transitive : Transitive (lex_le RA RB).
Proof.
  intros [a b] [a' b'] [a'' b'']. unfold lex_le. simpl.
  intros [[H1 H2]|[-> H2]] [[H3 H4]|[-> H4]]; [|by left..|right; split; [done|by etrans]].
  left. split; [|by etrans]. intros ->. apply H1. by apply (anti_symm RA).
Qed.

#[global] Instance lex_le_antisymm : AntiSymm (=) (lex_le RA RB).
Proof.
  intros [a b] [a' b']. unfold lex_le. simpl.
  intros [[H1 H2]|[-> H2]] [[H3 H4]|[H3 H4]]; try done.
  - destruct H1. by apply (anti_symm RA).
  - f_equal. by apply (anti_symm RB).
Qed.

#[global] Instance lex_le_total : Total (lex_le RA RB).
Proof.
  intros [a b] [a' b']. unfold lex_le. simpl. destruct (decide (a = a')) as [->|Hne].
  - destruct (total RB b b'); [left|right]; by right.
  - destruct (total RA a a'); [left|right]; left; by split.
Qed.
End lex.

Lemma merge_sort_again {A} (R : relation A) `{!RelDecision R, !Transitive R, !AntiSymm (=) R, !Total R} l :
  merge_sort R (merge_sort R l) = merge_sort R l.
Proof.
  apply (StronglySorted_unique R); [apply (StronglySorted_merge_sort R)..|apply merge_sort_Permutation].
Qed.

Lemma sort_state_again l : merge_sort state_le (merge_sort state_le l) = merge_sort state_le l.
Proof. unfold state_le, state_le_dec. exact (merge_sort_again (lex_le String.le String.le) l). Qed.
Lemma sort_identities_again l : merge_sort identity_le (merge_sort identity_le l) = merge_sort identity_le l.
Proof. unfold identity_le, identity_le_dec. exact (merge_sort_again (lex_le String.le Z.le) l). Qed.

(** A checkpoint of any image is accepted by the constructor and holds it. *)
Lemma snapshot_builds index term im :
  0 < index → 0 ≤ term →
  let s := mkKVSnapshot index term (sorted_state im.(kv_state)) (table_requests im.(kv_requests)) None in
  new_KVSnapshot index term (sorted_state im.(kv_state)) (table_requests im.(kv_requests)) None = inr s
  ∧ snapshot_image s = im.
Proof.
  intros Hi Ht s. split; [|by apply snapshot_image_of]. unfold new_KVSnapshot.
  rewrite (proj2 (Z.leb_gt _ _)) by done. rewrite (proj2 (Z.ltb_ge _ _)) by done.
  rewrite (bool_decide_eq_true_2 (merge_sort state_le _ = _)) by apply sort_state_again. simpl.
  rewrite table_requests_identities.
  rewrite (bool_decide_eq_true_2 (merge_sort identity_le _ = _)) by apply sort_identities_again. simpl.
  rewrite bool_decide_eq_true_2; [done|]. unfold sorted_identities.
  rewrite merge_sort_Permutation. apply NoDup_fst_map_to_list.
Qed.

(** ** Taking a checkpoint *)

Lemma kv_reads n im w :
  w.(kvs) !! n = Some im →
  kv_snapshot_of n w = (w, inr im.(kv_state))
  ∧ snapshot_requests n w = (w, inr (table_requests im.(kv_requests))).
Proof.
  intros Hi. assert (kv_client_requests n w = (w, inr im.(kv_requests))) as Hc.
  { unfold kv_client_requests. rewrite (kv_known _ _ _ _ Hi). unfold gets. by rewrite (image_of_some _ _ _ Hi). }
  split; [|unfold snapshot_requests, bind; by rewrite Hc].
  unfold kv_snapshot_of. rewrite (kv_known _ _ _ _ Hi). unfold gets. by rewrite (image_of_some _ _ _ Hi).
Qed.

Lemma node_of_last n w last :
  last_applied n w = (w, inr last) → ∃ a, nodes w !! n = Some a ∧ last = a.(na_last_applied).
Proof.
  unfold last_applied, sm_require_node, bind, gets. fold (nodes w).
  case_bool_decide as E; [|done]. destruct E as [a Ha]. intros [= <-]. exists a. split; [done|].
  by rewrite (node_applied_some _ _ _ Ha).
Qed.

(** The state of a node in a world that satisfies the invariant *)
Lemma app_inv_node n a w :
  app_inv w → nodes w !! n = Some a →
  ∃ im, w.(kvs) !! n = Some im ∧ image_ok (disk_of w n) im ∧ node_ok (canon w) (disk_of w n) n a
    ∧ disk_ok (disk_of w n).
Proof.
  intros Hinv Ha. destruct (proj1 (ai_dom _ Hinv n) (mk_is_Some _ _ Ha)) as [im Hi].
  exists im. split_and!; [done|by apply (ai_kv _ Hinv)|by apply (ai_sm _ Hinv)|apply (ai_disk _ Hinv)].
Qed.

(** The checkpoint of [n]'s applied state *)
Record checkpoint_of w n (s : KVSnapshot) : Prop := {
  cp_wf : snapshot_wf s;
  cp_node : ∃ a im, nodes w !! n = Some a ∧ w.(kvs) !! n = Some im
    ∧ s.(last_included_index) = a.(na_last_applied) ∧ snapshot_image s = im;
  cp_term : ∃ v, view_of w n = inr v ∧ term_at v s.(last_included_index) = inr s.(last_included_term);
  cp_member : member w.(raft) n = true;
  cp_positive : 0 < s.(last_included_index) ∧ 0 ≤ s.(last_included_term);
}.

Lemma new_KVSnapshot_fields index term st rq vc s :
  new_KVSnapshot index term st rq vc = inr s →
  s = mkKVSnapshot index term st rq vc ∧ 0 < index ∧ 0 ≤ term ∧ snapshot_wf s.
Proof.
  intros E. assert (s = mkKVSnapshot index term st rq vc ∧ 0 < index ∧ 0 ≤ term) as (-> & Hi & Ht).
  { revert E. unfold new_KVSnapshot. destruct (Z.leb_spec index 0); [done|].
    destruct (Z.ltb_spec term 0); [done|]. intros E. repeat (case_match; simplify_eq); split_and!; done || lia. }
  done.
Qed.

Lemma wp_create n w :
  app_inv w →
  wp (create n)
    (λ w' s, checkpoint_of w n s ∧ w'.(raft) = w.(raft) ∧ w'.(applier) = w.(applier) ∧ w'.(kvs) = w.(kvs)
       ∧ ∀ m, disk_of w' m = if decide (m = n) then set_snapshot (Some s) (disk_of w n) else disk_of w m)
    (λ w' _, w' = w) w.
Proof.
  intros Hinv. unfold create. apply wp_stays_bind; [auto with distlab| |done]. intros _ _.
  apply wp_stays_bind; [auto with distlab| |done]. intros last (a & Ha & ->)%node_of_last.
  destruct (app_inv_node _ _ _ Hinv Ha) as (im & Hi & _).
  destruct (kv_reads _ _ _ Hi) as [Hst Hrq].
  apply wp_stays_bind; [auto with distlab| |done]. intros _ _.
  apply wp_stays_bind; [auto with distlab| |done]. intros x Hnode%node_member.
  apply wp_stays_bind; [auto with distlab| |done]. intros last_log _.
  apply wp_stays_bind; [auto with distlab| |done]. intros _ _.
  apply wp_stays_bind; [auto with distlab| |done]. intros v Hv. rewrite log_view_eq in Hv.
  injection Hv as Hv.
  apply wp_stays_bind; [auto with distlab| |done]. intros term Hterm. injection Hterm as Hterm.
  wp_step. eapply wp_eq; [exact Hst|]. cbv beta. wp_step. eapply wp_eq; [exact Hrq|]. cbv beta.
  apply wp_stays_bind; [auto with distlab| |done]. intros s Hs. injection Hs as Hs.
  apply new_KVSnapshot_fields in Hs as (Hs & Hpos & Hnn & Hwf).
  apply wp_stays_bind; [auto with distlab| |done]. intros previous _.
  apply wp_stays_bind; [auto with distlab| |done]. intros _ _.
  unfold put_disk, app_record. wp_steps. split; [|split_and!; try done].
  - split; [done| | |done|]; subst s; simpl; [|by exists v|done].
    exists a, im. split_and!; try done. by apply snapshot_image_of.
  - intros m. apply (disk_of_insert _ n m w).
Qed.

(** Compacting a node leaves its image in the checkpoint and its history empty. *)
Definition compacted n (s : KVSnapshot) : AppDurable :=
  mkAppDurable [] s.(last_included_index) s.(last_included_term) (Some s).
Definition compacted_node (s : KVSnapshot) : NodeApplied :=
  mkNodeApplied s.(last_included_index) s.(last_included_term) s.(last_included_index) [].

(** Compaction at the last applied index, once the snapshot [s] is on disk *)
Lemma wp_compact_last n a im s w :
  nodes w !! n = Some a → w.(kvs) !! n = Some im → (disk_of w n).(kv_snapshot) = Some s →
  node_ok (canon w) (disk_of w n) n a → s.(last_included_index) = a.(na_last_applied) →
  0 ≤ s.(last_included_term) →
  wp (sm_compact_through n s.(last_included_index) s.(last_included_term))
    (λ w' _, updated n (compacted n s) (compacted_node s) im w w' ∧ canon w' = canon w) unsafe w.
Proof.
  intros Ha Hi Hd Hno Hlast Ht. unfold sm_compact_through.
  pose proof (node_applied_some _ _ _ Ha) as Hna. pose proof (no_last _ _ _ _ Hno) as Hl.
  pose proof (no_base _ _ _ _ Hno) as Hb. pose proof (zlen_nonneg (na_applied a)) as Hz.
  wp_step. eapply wp_eq; [by eapply sm_require_known|]. cbv beta. wp_step. wp_step; [lia|].
  do 2 wp_step. cbv beta. rewrite Hna. do 2 (wp_step; wp_step; [lia|]).
  destruct (Z.eqb_spec (last_included_index s) (na_base_index a)) as [E|E].
  - wp_step; [done|]. assert (na_applied a = []) as Hnil.
    { destruct (na_applied a); [done|]. rewrite zlen_cons in *. pose proof (zlen_nonneg l). lia. }
    assert (disk_of w n = compacted n s) as <-.
    { unfold compacted. rewrite <-Hd. destruct (disk_of w n) as [es bi bt sn] eqn:Ed. simpl in *.
      destruct Hno as [_ _ Hr Hi2 Ht2 _]. simpl in *. f_equal; [|lia|].
      - rewrite Hnil in Hr. destruct es; [done|]. by rewrite records_from_cons in Hr.
      - destruct (Z.eqb_spec (last_included_term s) (na_base_term a)); [lia|done]. }
    assert (a = compacted_node s) as <-.
    { unfold compacted_node. destruct a as [bi bt la l]. simpl in *. subst l.
      f_equal; [lia| |lia]. destruct (Z.eqb_spec (last_included_term s) bt); done. }
    split; [by apply updated_core|done].
  - wp_step. unfold item. destruct (znth _ _) as [b|] eqn:Eb.
    2:{ exfalso. unfold znth, zlen in *. apply lookup_ge_None in Eb. lia. }
    wp_step. wp_step. wp_step; [done|]. cbv zeta. rewrite drop_ge by (unfold zlen in *; lia).
    unfold put_disk, put_applied, app_record. wp_steps.
    assert (set_sm [] (last_included_index s) (last_included_term s) (disk_of w n) = compacted n s) as Hset
      by (unfold set_sm, compacted; by rewrite Hd). simpl. rewrite Hset.
    split; [|done]. split; unfold nodes, canon; simpl; [intros m..|done].
    + apply (disk_of_insert _ n m w).
    + rewrite Hlast. unfold compacted_node. rewrite Hlast. case_decide; [subst; by rewrite lookup_insert_eq|by rewrite lookup_insert_ne].
    + case_decide; by subst.
Qed.

Lemma node_ok_snapshot c d n a s : node_ok c d n a → node_ok c (set_snapshot s d) n a.
Proof. by intros []. Qed.

Lemma compact_through_last (v : RaftLogView KVCommand) index term :
  view_wf v → term_at v index = inr term → 0 < index → 0 ≤ term →
  ∃ v', compact_through v index = inr v' ∧ v'.(base_term) = term.
Proof.
  intros Hwf Ht Hi Hn. assert (in_range v index) as Hr.
  { unfold in_range, term_at in *. destruct (Z.eqb_spec index (base_index v)) as [->|].
    - unfold last_index. pose proof (zlen_nonneg (entries v)). lia.
    - destruct (entry_at v index) as [|e] eqn:E; [done|].
      apply entry_at_lookup in E as [Hlt E]. apply lookup_lt_Some in E. unfold last_index, zlen. lia. }
  unfold in_range in Hr. destruct (decide (index = base_index v)) as [->|Hne].
  - exists v. unfold compact_through. rewrite Z.ltb_irrefl, Z.eqb_refl, (proj2 (Z.ltb_ge _ _)) by lia.
    split; [done|]. unfold term_at in Ht. rewrite Z.eqb_refl in Ht. by injection Ht.
  - rewrite (compact_eq v index term) by (done || lia).
    eexists. split; [apply new_RaftLogView_wf; split; [done|]|done]. unfold view_wf. simpl. lia.
Qed.

Lemma view_of_wf w n v : view_of w n = inr v → view_wf v.
Proof. unfold view_of. intros Hv. apply new_RaftLogView_wf in Hv as [-> H]. exact H. Qed.

Lemma wp_put_log n es bi bt w : wp (put_log n es bi bt) (λ w' _, same_core w w') never w.
Proof. done. Qed.

Lemma wp_compact n w :
  app_inv w →
  wp (compact n)
    (λ w' s, checkpoint_of w n s
       ∧ canon w' = canon w
       ∧ ∃ im, w.(kvs) !! n = Some im ∧ updated n (compacted n s) (compacted_node s) im w w')
    (unsafe_or_same w) w.
Proof.
  intros Hinv. unfold compact. wp_step. eapply wp_mono; [by apply wp_create| |by right].
  intros w1 s (Hcp & Hr & Ha1 & Hk1 & Hd1). cbv beta.
  destruct (cp_node _ _ _ Hcp) as (a & im & Ha & Hi & Hlast & _).
  destruct (cp_term _ _ _ Hcp) as (v & Hv & Ht). destruct (cp_positive _ _ _ Hcp) as [Hpos Hnn].
  wp_step. eapply wp_eq; [apply member_node; rewrite Hr; apply Hcp|]. cbv beta. wp_steps.
  assert (view_of w1 n = inr v) as Hv1 by (unfold view_of; by rewrite Hr).
  eapply wp_eq; [rewrite log_view_eq, Hv1; reflexivity|]. cbv beta. do 2 wp_step.
  destruct (compact_through_last v _ _ (view_of_wf _ _ _ Hv) Ht Hpos Hnn) as (v' & -> & Hv').
  do 2 wp_step; [by rewrite Hv', Z.eqb_refl in *|]. wp_step.
  eapply wp_mono; [apply wp_put_log| |done]. intros w2 ? (Hd2 & Ha2 & Hk2). cbv beta. wp_step.
  assert (updated n (set_snapshot (Some s) (disk_of w n)) a im w w2) as Hu.
  { split; unfold nodes, canon, disk_of in *; rewrite ?Hd2, ?Ha2, ?Hk2, ?Ha1, ?Hk1; [exact Hd1|..|done];
      intros m; case_decide; by subst. }
  destruct (updated_at _ _ _ _ _ _ Hu) as (Hd3 & Ha3 & Hi3).
  eapply wp_mono; [apply (wp_compact_last n a im s w2); try done| |by left].
  - by rewrite Hd3.
  - rewrite Hd3. apply node_ok_snapshot. eapply node_ok_mono; [apply Hu|]. by apply (ai_sm _ Hinv).
  - intros w3 ? [H3 Hc3]. cbv beta in *. unfold app_record. wp_steps. split; [done|].
    split; [unfold canon in *; simpl; by rewrite Hc3, Ha2, Ha1|]. exists im. split; [done|].
    pose proof (updated_trans _ _ _ _ _ _ _ _ _ _ Hu H3) as [D N K C]. by split.
Qed.

(** ** Installing a checkpoint *)

Lemma stays_install_suffix n s preserve : stays (install_suffix n s preserve).
Proof. unfold install_suffix. auto 20 with distlab. Qed.
Lemma stays_validate_membership s : stays (validate_snapshot_membership s).
Proof. unfold validate_snapshot_membership. auto with distlab. Qed.
#[export] Hint Resolve stays_install_suffix stays_validate_membership : distlab.

Lemma wp_install_state n s suffix w :
  wp (install_state n s suffix) (λ w' _,
    updated n (compacted n s) (compacted_node s) (snapshot_image s) w w' ∧ canon w' = canon w) never w.
Proof.
  unfold install_state, put_disk. wp_step. wp_step. wp_step.
  eapply wp_mono; [apply wp_put_log| |done]. intros w1 ? (Hd & Ha & Hk). cbv beta.
  unfold put_applied, put_image. wp_steps. split; [|unfold canon in *; simpl; by rewrite Ha].
  split; unfold nodes, canon; simpl in *; [intros m..|by rewrite Ha].
  - unfold disk_of. simpl. rewrite Hd. apply (disk_of_insert _ n m w).
  - rewrite Ha. case_decide; [subst; by rewrite lookup_insert_eq|by rewrite lookup_insert_ne].
  - rewrite Hk. case_decide; [subst; by rewrite lookup_insert_eq|by rewrite lookup_insert_ne].
Qed.

Lemma updated_later n d a im w w1 w2 : updated n d a im w w1 → same_core w1 w2 → updated n d a im w w2.
Proof.
  intros [D N K C] (Hd & Ha & Hk). split; unfold nodes, canon, disk_of in *;
    rewrite ?Hd, ?Ha, ?Hk; done.
Qed.

(** [n] holds the checkpoint [s] and nothing else. *)
Definition installed n (s : KVSnapshot) w w' : Prop :=
  (∃ a, nodes w !! n = Some a ∧ a.(na_last_applied) ≤ s.(last_included_index))
  ∧ updated n (compacted n s) (compacted_node s) (snapshot_image s) w w' ∧ canon w' = canon w.

Lemma latest_eq n w previous : latest n w = (w, inr previous) → previous = (disk_of w n).(kv_snapshot).
Proof. unfold latest, snap_require_node, bind, gets. case_bool_decide; [|done]. by intros [= <-]. Qed.

(** Whether it returns or raises, [install] has replaced everything or nothing;
    it returns without a change only when [s] is what the node holds. *)
Lemma wp_install n s preserve w :
  wp (install n s preserve)
    (λ w' _, same_core w w' ∧ (disk_of w n).(kv_snapshot) = Some s ∨ installed n s w w')
    (λ w' _, same_core w w' ∨ installed n s w w') w.
Proof.
  unfold install.
  apply wp_stays_bind; [auto with distlab|intros [] _|by left].
  apply wp_stays_bind; [auto with distlab|intros x _|by left].
  apply wp_stays_bind; [auto with distlab|intros previous Hprev%latest_eq|by left].
  apply wp_stays_bind; [auto with distlab|intros [] _|by left].
  destruct (match previous with Some p => _ | None => _ end).
  { wp_step; [by left|]. left. split; [done|]. rewrite <-Hprev.
    by destruct (bool_decide_reflect (previous = Some s)). }
  do 2 wp_step. cbv beta.
  apply wp_stays_bind; [auto with distlab|intros [] _|by left].
  apply wp_stays_bind; [auto with distlab|intros suffix _|by left].
  apply wp_stays_bind; [auto with distlab|intros last (a & Ha & ->)%node_of_last|by left].
  apply wp_stays_bind; [auto with distlab|intros [] Hle|by left].
  apply wp_stays_bind; [auto with distlab|intros [] _|by left].
  apply wp_stays_bind; [auto with distlab|intros previous_last _|by left].
  assert (a.(na_last_applied) ≤ s.(last_included_index)) as Hlast.
  { destruct (Z.ltb_spec (last_included_index s) (na_last_applied a)); done. }
  wp_step. eapply wp_mono; [apply wp_install_state| |done]. intros w1 ? [H1 Hc1]. cbv beta.
  assert (∀ w', same_core w1 w' → installed n s w w') as Hdone.
  { intros w' Hc. split; [by exists a|]. split; [exact (updated_later _ _ _ _ _ _ _ H1 Hc)|].
    destruct Hc as (_ & Ha2 & _). unfold canon in *. by rewrite Ha2. }
  eapply wp_mono; [|intros w' ? Hc; right; exact (Hdone w' Hc)|intros w' ? Hc; right; exact (Hdone w' Hc)].
  assert (reads assert_state_machine_safety) as Hsafe by apply reads_assert_safety.
  match goal with |- wp ?m _ _ _ => assert (reads m) as Hreads; [|apply Hreads] end.
  auto 20 with distlab.
Qed.
