(* ===== verification/AppSystem.v ===== *)
(** * AppSystem: the store over any Raft that keeps its promise

    Worlds the application layer reaches, whatever the cluster below it does in
    between, as long as the committed entries of every node belong to one
    history [H]: the State Machine Safety that Raft promises its client.  The
    abstract specification is [replay] of a prefix of [H]. *)

From S2P Require Import Prelude Simulator LogIndex KVCommands Raft AppWorld StateMachine KV Snapshot.
From S2P Require Import AppFacts AppInv AppRebuild AppCheckpoint.

Implicit Types (w : AppWorld) (n : string).

(** A call of the application layer; [AppRaft] is whatever calls of the cluster
    and of the simulator made of Raft's world. *)
Inductive app_op :=
  | AppRaft (r : RaftWorld)
  | AppApply n
  | AppCreate n
  | AppCompact n
  | AppInstall n (s : KVSnapshot) (preserve : bool)
  | AppRebuild
  | AppAssert.

Definition exec_app (o : app_op) : AM unit :=
  match o with
  | AppRaft r => modify (set_raft r)
  | AppApply n => kv_apply_committed n ;; ret tt
  | AppCreate n => create n ;; ret tt
  | AppCompact n => compact n ;; ret tt
  | AppInstall n s preserve => install n s preserve
  | AppRebuild => init_applier ;; init_kv
  | AppAssert => assert_state_machine_safety ;; assert_replica_consistency
  end.

(** The image after the first [k] entries of a history *)
Definition image_at (H : list Entry) (k : Z) : KVImage :=
  replay kv_image0 (commands_of (take (Z.to_nat k) H)).

(** A checkpoint of a prefix of the history *)
Definition faithful (H : list Entry) (s : KVSnapshot) : Prop :=
  0 ≤ s.(last_included_index) ≤ zlen H ∧ snapshot_image s = image_at H s.(last_included_index).

(** What Raft promises: a committed entry of [n] is the entry of the history. *)
Definition committed_in (H : list Entry) w n : Prop := ∀ v index e,
  view_of w n = inr v → index ≤ (vol w.(raft) n).(commit_index) → entry_at v index = inr e →
  znth H (index - 1) = Some e.

Definition app_ok (H : list Entry) w (o : app_op) : Prop :=
  match o with
  | AppApply n => committed_in H w n
  | AppCreate n => (disk_of w n).(sm_base_index) = 0
  | AppInstall _ s _ => snapshot_wf s ∧ faithful H s
  | AppRebuild => NoDup (cluster_ids w)
  | _ => True
  end.

(** After a reported safety violation, or a constructor that raised, there is
    nothing to go on with. *)
Definition continues (o : app_op) (r : exn + unit) : Prop :=
  match r with
  | inr _ => True
  | inl e => exn_cls e ≠ StateMachineSafetyViolation ∧ o ≠ AppRebuild
  end.

Inductive app_reachable (H : list Entry) : AppWorld → Prop :=
  | app_reach_init w w' :
      w.(disk) = ∅ → NoDup (cluster_ids w) → exec_app AppRebuild w = (w', inr tt) → app_reachable H w'
  | app_reach_op w o w' r :
      app_reachable H w → app_ok H w o → exec_app o w = (w', r) → continues o r → app_reachable H w'.

(** ** The invariant with the history *)

Record disk_follows (H : list Entry) (d : AppDurable) : Prop := {
  df_base : 0 ≤ d.(sm_base_index) ≤ zlen H;
  df_entries : d.(sm_applied) `prefix_of` drop (Z.to_nat d.(sm_base_index)) H;
  df_snapshot s : d.(kv_snapshot) = Some s → faithful H s;
}.

(** [r] is the entry of the history at its index. *)
Definition in_history (H : list Entry) (r : AppliedEntry) : Prop :=
  0 < r.(ap_index) ∧ znth H (r.(ap_index) - 1) = Some r.(ap_entry).

Definition canon_follows (H : list Entry) (c : gmap Z AppliedEntry) : Prop :=
  ∀ i r, c !! i = Some r → r.(ap_index) = i ∧ in_history H r.

Record app_follows (H : list Entry) w : Prop := {
  af_inv : app_inv w;
  af_canon : canon_follows H (canon w);
  af_disk n : disk_follows H (disk_of w n);
}.

Lemma note_follows H c r :
  canon_follows H c → in_history H r → agrees c r = true ∧ canon_follows H (note c r).
Proof.
  intros Hc [Hr He]. unfold agrees, note. destruct (c !! ap_index r) as [r'|] eqn:E.
  - destruct (Hc _ _ E) as (Hi & Hr' & He'). rewrite Hi, He in He'. injection He' as He'.
    split; [|done]. by apply bool_decide_eq_true.
  - split; [done|]. intros i r1 [[<- <-]|[_ Hi]]%lookup_insert_Some; [done|by apply Hc].
Qed.

Lemma all_agree_follows H c l :
  canon_follows H c → (∀ r, r ∈ l → in_history H r) →
  all_agree c l = true ∧ canon_follows H (foldl note c l).
Proof.
  revert c. induction l as [|r l IH]; intros c Hc Hl; simpl; [done|].
  destruct (note_follows H c r Hc) as [-> Hc']; [apply Hl; left|].
  apply IH; [done|]. intros r' Hr'. apply Hl. by right.
Qed.

Lemma records_in_history H n b es :
  0 ≤ b → es `prefix_of` drop (Z.to_nat b) H → ∀ r, r ∈ records_from n b es → in_history H r.
Proof.
  intros Hb [k Hk] r Hr. unfold records_from in Hr. apply elem_of_lookup_imap in Hr as (i & e & -> & He).
  split; simpl; [lia|]. unfold znth.
  replace (Z.to_nat (b + 1 + Z.of_nat i - 1)) with (Z.to_nat b + i)%nat by lia.
  rewrite <-lookup_drop, Hk. by apply lookup_app_l_Some.
Qed.

Lemma prefix_take {A} (l k : list A) : l `prefix_of` k → l = take (length l) k.
Proof. intros [r ->]. by rewrite take_app_length. Qed.

(** The image a disk describes is the one of the history it has applied. *)
Lemma image_of_disk_at H d :
  boundary_ok d → disk_follows H d →
  image_of_disk d = image_at H (d.(sm_base_index) + zlen d.(sm_applied)).
Proof.
  intros Hb [Hr Hp Hs]. unfold image_of_disk, image_at.
  assert (base_image d = replay kv_image0 (commands_of (take (Z.to_nat (sm_base_index d)) H))) as ->.
  { unfold base_image. destruct (Z.eqb_spec (sm_base_index d) 0) as [E|E]; [by rewrite E|].
    destruct (Hb E) as (s & Es & <- & _). rewrite Es. apply (Hs s Es). }
  rewrite <-replay_app, <-commands_of_app. do 2 f_equal.
  rewrite (prefix_take _ _ Hp) at 1. rewrite take_take_drop. f_equal. unfold zlen. lia.
Qed.

Lemma image_ok_of_disk d im : image_ok d im → boundary_ok d ∧ im = image_of_disk d.
Proof. by intros []. Qed.

(** A replica's image *)
Lemma image_at_node H w n a im :
  app_follows H w → nodes w !! n = Some a → w.(kvs) !! n = Some im →
  im = image_at H a.(na_last_applied) ∧ 0 ≤ a.(na_last_applied) ≤ zlen H.
Proof.
  intros [Hinv _ Hf] Ha Hi. destruct (image_ok_of_disk _ _ (ai_kv _ Hinv _ _ Hi)) as [Hb ->].
  pose proof (ai_sm _ Hinv _ _ Ha) as Hno. pose proof (Hf n) as Hd.
  rewrite (image_of_disk_at H _ Hb Hd).
  assert (sm_base_index (disk_of w n) + zlen (sm_applied (disk_of w n)) = na_last_applied a) as Hlast.
  { rewrite (no_index _ _ _ _ Hno), (no_last _ _ _ _ Hno), (no_records _ _ _ _ Hno) at 1.
    by rewrite zlen_records. }
  rewrite Hlast. split; [done|]. destruct Hd as [Hr Hp _]. rewrite <-Hlast.
  apply prefix_length in Hp. rewrite length_drop in Hp. unfold zlen in *. lia.
Qed.

Lemma disk_follows_updated H n d a im w w' :
  (∀ m, disk_follows H (disk_of w m)) → updated n d a im w w' → disk_follows H d →
  ∀ m, disk_follows H (disk_of w' m).
Proof. intros Hf [D _ _ _] Hd m. rewrite D. by case_decide. Qed.

Lemma app_follows_core H w w' : same_core w w' → app_follows H w → app_follows H w'.
Proof.
  intros Hc [Hinv Hcn Hf]. split; [by eapply app_inv_core|unfold canon; by destruct Hc as (_ & -> & _)|]. intros n.
  unfold disk_of. destruct Hc as (-> & _). apply Hf.
Qed.

(** A compacted or installed checkpoint keeps the invariant. *)
Lemma app_follows_compacted H n s a w w' :
  app_follows H w → snapshot_wf s → faithful H s → is_Some (nodes w !! n) →
  updated n (compacted n s) (compacted_node s) a w w' → canon w' = canon w → a = snapshot_image s →
  0 < s.(last_included_index) → app_follows H w'.
Proof.
  intros [Hinv Hcn Hf] Hwf Hfa Hn Hu Hc -> Hpos. split; [|by rewrite Hc|].
  - eapply app_inv_updated; try done.
    + split; simpl; try done; [lia|unfold zlen; simpl; lia|]. by intros r Hr%elem_of_nil.
    + split; simpl; [by intros _; exists s|]. unfold base_image. simpl.
      destruct (Z.eqb_spec (last_included_index s) 0); [lia|done].
    + split; simpl; [by intros ? [= <-]|constructor].
  - eapply disk_follows_updated; [exact Hf|exact Hu|]. split; simpl; [apply Hfa|apply prefix_nil|].
    by intros ? [= <-].
Qed.

(** The entries pending at a node are the next ones of the history. *)
Lemma pending_prefix H w n a es :
  app_follows H w → nodes w !! n = Some a → committed_in H w n → pending_at w n a es →
  es `prefix_of` drop (Z.to_nat a.(na_last_applied)) H.
Proof.
  intros Hf Ha Hc Hp. unfold pending_at in Hp. destruct (_ <=? _) eqn:E; [subst; apply prefix_nil|].
  destruct Hp as (v & Hv & Hh & Hlen).
  assert (0 ≤ na_last_applied a) as Hpos.
  { destruct (app_inv_node _ _ _ (af_inv _ _ Hf) Ha) as (im & Hi & _).
    by apply (image_at_node _ _ _ _ _ Hf Ha Hi). }
  assert (es = take (length es) (drop (Z.to_nat (na_last_applied a)) H)) as ->.
  2:{ eexists. symmetry. apply take_drop. }
  apply list_eq. intros i. destruct (es !! i) as [e|] eqn:Ee.
  - pose proof (lookup_lt_Some _ _ _ Ee) as Hi. rewrite lookup_take_lt by done. rewrite lookup_drop.
    assert (znth H (na_last_applied a + 1 + Z.of_nat i - 1) = Some e) as HH.
    { apply (Hc v _ e Hv); [unfold zlen in Hlen; lia|by apply Hh]. }
    unfold znth in HH.
    rewrite <-HH. f_equal. lia.
  - rewrite lookup_take_ge; [done|by apply lookup_ge_None].
Qed.

(** ** Every operation keeps the invariant *)

Lemma app_follows_apply H n w w' r :
  app_follows H w → committed_in H w n → kv_apply_committed n w = (w', r) →
  match r with inr _ => app_follows H w' | inl e => w' = w ∧ refused w n e end.
Proof.
  intros Hf Hc E. pose proof (wp_kv_apply n w (af_inv _ _ Hf)) as Hwp. unfold wp in Hwp. rewrite E in Hwp.
  assert (∀ a es, nodes w !! n = Some a → pending_at w n a es →
    all_agree (canon w) (records_from n (na_last_applied a) es) = true
    ∧ canon_follows H (foldl note (canon w) (records_from n (na_last_applied a) es))) as Hall.
  { intros a es Ha Hp. apply all_agree_follows; [apply Hf|]. apply records_in_history.
    - destruct (app_inv_node _ _ _ (af_inv _ _ Hf) Ha) as (im & Hi & _). by apply (image_at_node _ _ _ _ _ Hf Ha Hi).
    - by eapply pending_prefix. }
  destruct r as [e|l].
  { destruct Hwp as [?|(_ & a & es & Ha & Hp & Hbad)]; [done|]. by rewrite (proj1 (Hall _ _ Ha Hp)) in Hbad. }
  destruct Hwp as (a & im & es & Ha & Hi & Hp & _ & _ & (Hu & _ & Hcn) & Hinv').
  split; [done|rewrite Hcn; by apply Hall|]. eapply disk_follows_updated; [apply Hf|exact Hu|].
  pose proof (pending_prefix _ _ _ _ _ Hf Ha Hc Hp) as [rest Hes].
  destruct (app_inv_node _ _ _ (af_inv _ _ Hf) Ha) as (_ & _ & _ & Hno & _).
  destruct (af_disk _ _ Hf n) as [Hr [k Hk] Hs]. split; [done| |done]. simpl.
  exists rest. rewrite Hk, <-app_assoc. f_equal. rewrite <-Hes.
  assert (drop (length (sm_applied (disk_of w n))) (drop (Z.to_nat (sm_base_index (disk_of w n))) H) = k) as <-.
  { rewrite Hk. apply drop_app_length. }
  rewrite drop_drop. f_equal. rewrite (no_last _ _ _ _ Hno), <-(no_index _ _ _ _ Hno).
  rewrite (no_records _ _ _ _ Hno), zlen_records. unfold zlen. lia.
Qed.

Lemma checkpoint_faithful H n s w :
  app_follows H w → checkpoint_of w n s → faithful H s.
Proof.
  intros Hf Hcp. destruct (cp_node _ _ _ Hcp) as (a & im & Ha & Hi & Hl & Him).
  destruct (image_at_node _ _ _ _ _ Hf Ha Hi) as [-> Hr]. unfold faithful. by rewrite Hl, Him.
Qed.

Lemma app_follows_create H n w w' r :
  app_follows H w → (disk_of w n).(sm_base_index) = 0 → create n w = (w', r) → app_follows H w'.
Proof.
  intros Hf Hz E. pose proof (wp_create n w (af_inv _ _ Hf)) as Hwp. unfold wp in Hwp. rewrite E in Hwp.
  destruct r as [e|s]; [by subst|]. destruct Hwp as (Hcp & _ & Ha & Hk & Hd).
  destruct (cp_node _ _ _ Hcp) as (a & im & Ha1 & Hi & _).
  destruct (app_inv_node _ _ _ (af_inv _ _ Hf) Ha1) as (im' & Hi' & Hio & Hno & Hdo).
  assert (im' = im) as -> by congruence.
  assert (updated n (set_snapshot (Some s) (disk_of w n)) a im w w') as Hu.
  { split; unfold nodes, canon in *; [exact Hd|..|by rewrite Ha]; intros m;
      rewrite ?Ha, ?Hk; case_decide; by subst. }
  split; [|unfold canon; rewrite Ha; apply Hf|].
  - eapply app_inv_updated; [apply Hf|exact Hu|by eexists|..].
    + apply node_ok_snapshot. eapply node_ok_mono; [apply Hu|done].
    + destruct Hio as [Hb ->]. split; simpl; [by rewrite Hz|]. unfold base_image. simpl. by rewrite Hz.
    + split; simpl; [by intros ? [= <-]; apply Hcp|apply Hdo].
  - eapply disk_follows_updated; [apply Hf|exact Hu|]. destruct (af_disk _ _ Hf n) as [? ? ?].
    split; simpl; try done. intros ? [= <-]. by eapply checkpoint_faithful.
Qed.

Lemma app_follows_compact H n w w' r :
  app_follows H w → compact n w = (w', r) →
  match r with inr _ => app_follows H w' | inl e => exn_cls e = StateMachineSafetyViolation ∨ w' = w end.
Proof.
  intros Hf E. pose proof (wp_compact n w (af_inv _ _ Hf)) as Hwp. unfold wp in Hwp. rewrite E in Hwp.
  destruct r as [e|s]; [exact Hwp|]. destruct Hwp as (Hcp & Hc & im & Hi & Hu).
  destruct (cp_node _ _ _ Hcp) as (a & im' & Ha & Hi' & Hl & Him). assert (im' = im) as -> by congruence.
  eapply app_follows_compacted; [exact Hf|apply Hcp|by eapply checkpoint_faithful|by eexists|exact Hu|exact Hc|done|].
  apply Hcp.
Qed.

Lemma snapshot_wf_positive s : snapshot_wf s → 0 < s.(last_included_index).
Proof. intros Hwf. by apply new_KVSnapshot_fields in Hwf as (_ & Hi & _). Qed.

Lemma app_follows_install H n s preserve w w' r :
  app_follows H w → snapshot_wf s → faithful H s → install n s preserve w = (w', r) → app_follows H w'.
Proof.
  intros Hf Hwf Hfa E. pose proof (wp_install n s preserve w) as Hwp.
  assert (same_core w w' ∨ installed n s w w') as [Hc|((a & Ha & _) & Hu & Hcn)].
  { unfold wp in Hwp. rewrite E in Hwp. destruct r; tauto. }
  - by eapply app_follows_core.
  - eapply app_follows_compacted;
      [exact Hf|exact Hwf|exact Hfa|by eexists|exact Hu|exact Hcn|done|by apply snapshot_wf_positive].
Qed.

(** ** Rebuilding *)

(** What a disk needs so that both constructors return: facts of the disk only. *)
Definition disks_ok H w : Prop := ∀ n, disk_ok (disk_of w n) ∧ disk_follows H (disk_of w n).

Lemma rebuilt_canon H w ids :
  disks_ok H w → canon_follows H (foldl (λ c n, foldl note c (loaded n (disk_of w n)).(na_applied)) ∅ ids).
Proof.
  intros Hd. assert (canon_follows H ∅) as Hc by (by intros i r; rewrite lookup_empty).
  revert Hc. generalize (∅ : gmap Z AppliedEntry). induction ids as [|n ids IH]; intros c Hc; simpl; [done|].
  apply IH, all_agree_follows; [done|]. destruct (proj2 (Hd n)) as [Hr Hp _].
  apply records_in_history; [lia|done].
Qed.

Lemma app_follows_rebuild H w w' :
  disks_ok H w → NoDup (cluster_ids w) → exec_app AppRebuild w = (w', inr tt) →
  app_follows H w' ∧ w'.(disk) = w.(disk)
  ∧ ∀ n, n ∈ cluster_ids w → nodes w' !! n = Some (loaded n (disk_of w n))
      ∧ w'.(kvs) !! n = Some (image_of_disk (disk_of w n)) ∧ rebuildable (disk_of w n).
Proof.
  intros Hd Hnd E. simpl in E. set (ids := cluster_ids w) in *.
  assert (wp (init_applier ;; init_kv) (λ w' _, w'.(disk) = w.(disk)
    ∧ (∀ n, n ∈ ids → loaded_at w w' n ∧ rebuildable (disk_of w n)
         ∧ w'.(kvs) !! n = Some (image_of_disk (disk_of w n)))
    ∧ (∀ n, n ∉ ids → nodes w' !! n = None ∧ w'.(kvs) !! n = None)
    ∧ canon w' = foldl (λ c n, foldl note c (loaded n (disk_of w n)).(na_applied)) ∅ ids) (λ _ _, True) w) as Hwp.
  { wp_step. eapply wp_mono; [apply wp_init_applier| |done].
    intros w1 ? (Hr1 & Hd1 & Hk1 & Hin1 & Hout1 & Hcn1). cbv beta. unfold init_kv.
    assert (cluster_ids w1 = ids) as Hids by (unfold cluster_ids; by rewrite Hr1).
    do 4 (wp_step; cbv beta). rewrite Hids. set (w2 := set_kvs _ w1).
    assert (disk_of w2 = disk_of w) as Hdo by (unfold disk_of; simpl; by rewrite Hd1).
    assert (∀ n, n ∈ ids → w2.(kvs) !! n = Some kv_image0) as Hkv.
    { intros n Hn. subst w2. simpl. apply elem_of_list_to_map.
      - rewrite <-list_fmap_compose. simpl. by rewrite list_fmap_id.
      - apply list_elem_of_fmap. by exists n. }
    assert (∀ n, n ∉ ids → w2.(kvs) !! n = None) as Hkn.
    { intros n Hn. subst w2. simpl. apply not_elem_of_list_to_map_1.
      rewrite <-list_fmap_compose. simpl. by rewrite list_fmap_id. }
    eapply wp_mono; [apply (wp_init_nodes ids w2 Hnd)| |done].
    - intros n Hn. destruct (Hin1 n Hn) as [Hl Hok]. split; [by apply Hkv|].
      eexists. split_and!; [exact Hl|by rewrite Hdo|rewrite Hdo; apply Hd].
    - intros w3 ? (Hd3 & Ha3 & Hin3 & Hout3). cbv beta. split; [by rewrite Hd3|]. split; [|split].
      + intros n Hn. destruct (Hin3 n Hn) as [Hre Hk3]. rewrite Hdo in *.
        split; [|done]. unfold loaded_at, nodes, canon in *. rewrite Ha3. by apply Hin1.
      + intros n Hn. split; [|by rewrite Hout3, Hkn]. unfold nodes in *. rewrite Ha3. by apply Hout1.
      + unfold canon in *. by rewrite Ha3. }
  unfold wp in Hwp. rewrite E in Hwp. destruct Hwp as (Hd' & Hin & Hout & Hcn).
  assert (disk_of w' = disk_of w) as Hdo by (unfold disk_of; by rewrite Hd').
  split; [|split; [done|]].
  2:{ intros n Hn. destruct (Hin n Hn) as ([Hl _] & Hre & Hk). done. }
  assert (∀ n, is_Some (nodes w' !! n) ∨ is_Some (w'.(kvs) !! n) → n ∈ ids) as Hids.
  { intros n Hn. destruct (decide (n ∈ ids)) as [|Hno]; [done|]. destruct (Hout n Hno) as [E1 E2].
    rewrite E1, E2 in Hn. by destruct Hn as [[]|[]]. }
  split; [split|rewrite Hcn; by apply rebuilt_canon|].
  - intros n a Ha. destruct (Hin n) as ([Hl Hok] & _); [apply Hids; left; by eexists|].
    rewrite Hdo. assert (a = loaded n (disk_of w n)) as -> by congruence. done.
  - intros n im Hi. destruct (Hin n) as (_ & [Hb _] & Hk); [apply Hids; right; by eexists|].
    rewrite Hdo. split; [done|]. by assert (im = image_of_disk (disk_of w n)) as -> by congruence.
  - intros n. rewrite Hdo. apply Hd.
  - intros n. split; intros Hs; destruct (Hin n) as ([Hl _] & _ & Hk); eauto.
  - intros n. rewrite Hdo. apply Hd.
Qed.

Lemma disks_of_follows H w : app_follows H w → disks_ok H w.
Proof. intros [Hinv _ Hf] n. split; [apply (ai_disk _ Hinv)|apply Hf]. Qed.

Lemma reads_check_replicas ids l : reads (check_replicas ids l).
Proof.
  revert l. induction ids as [|n ids IH]; intros l; simpl; [auto with distlab|].
  unfold applied_base_index, applied_base_term, applied_entries, kv_snapshot_of, kv_client_requests.
  do 5 (apply reads_bind; [auto with distlab|intros ?]).
  destruct (find_prefix _ _); auto with distlab.
Qed.

Lemma reads_assert : reads (exec_app AppAssert).
Proof.
  apply reads_bind; [apply reads_assert_safety|intros _].
  apply reads_bind; [auto with distlab|intros ids]. apply reads_check_replicas.
Qed.

Lemma reads_eq {A} (m : AM A) w w' r : reads m → m w = (w', r) → same_core w w'.
Proof. intros Hm E. specialize (Hm w). unfold wp in Hm. rewrite E in Hm. by destruct r. Qed.

Lemma app_reachable_follows H w : app_reachable H w → app_follows H w.
Proof.
  induction 1 as [w w' Hz Hnd E|w o w' r _ IH Hok E Hgo].
  - eapply app_follows_rebuild; [|done..]. intros n. unfold disk_of. rewrite Hz, lookup_empty. simpl.
    pose proof (zlen_nonneg H). split; split; simpl; try (done || lia). apply prefix_nil.
  - destruct o as [r'|n|n|n|n s preserve| |]; simpl in *.
    + injection E as <- <-. eapply app_follows_core; [|exact IH]. done.
    + unfold bind, ret in E. destruct (kv_apply_committed n w) as [w1 r1] eqn:Ea.
      pose proof (app_follows_apply _ _ _ _ _ IH Hok Ea) as Hr. destruct r1 as [e|l]; injection E as <- <-; [|done].
      by destruct Hr as [-> _].
    + unfold bind, ret in E. destruct (create n w) as [w1 r1] eqn:Ea.
      pose proof (app_follows_create _ _ _ _ _ IH Hok Ea). destruct r1; by injection E as <- <-.
    + unfold bind, ret in E. destruct (compact n w) as [w1 r1] eqn:Ea.
      pose proof (app_follows_compact _ _ _ _ _ IH Ea) as Hr. destruct r1 as [e|l]; injection E as <- <-; [|done].
      destruct Hr as [Hbad| ->]; [|done]. by destruct Hgo.
    + destruct Hok. by eapply app_follows_install.
    + destruct r as [e|[]]; [by destruct Hgo|]. by eapply (app_follows_rebuild H w w'); [apply disks_of_follows| |].
    + eapply app_follows_core; [|exact IH]. by eapply reads_eq; [apply reads_assert|].
Qed.
