(* ===== verification/AppProperties.v ===== *)
(** * AppProperties: what the replicated store promises

    The properties of [state_machine.py], [kv.py] and [snapshot.py], over any
    Raft whose committed entries belong to one history. *)

From S2P Require Import Prelude Simulator LogIndex KVCommands Raft AppWorld StateMachine KV Snapshot.
From S2P Require Import AppFacts AppInv AppRebuild AppCheckpoint AppSystem.

Implicit Types (w : AppWorld) (n : string) (H : list Entry).

(** A node of a reachable world *)
Lemma app_node H w n a :
  app_reachable H w → nodes w !! n = Some a →
  app_follows H w ∧ w.(kvs) !! n = Some (image_of w n) ∧ image_of w n = image_at H a.(na_last_applied)
  ∧ 0 ≤ a.(na_last_applied) ≤ zlen H ∧ boundary_ok (disk_of w n)
  ∧ node_ok (canon w) (disk_of w n) n a.
Proof.
  intros Hf%app_reachable_follows Ha.
  destruct (app_inv_node _ _ _ (af_inv _ _ Hf) Ha) as (im & Hi & Hio & Hno & _).
  destruct (image_at_node _ _ _ _ _ Hf Ha Hi) as [-> Hr]. rewrite (image_of_some _ _ _ Hi).
  split_and!; try done; [lia..|]. by destruct (image_ok_of_disk _ _ Hio).
Qed.

(** What a node has applied after its boundary *)
Definition slice H (a : NodeApplied) : list Entry :=
  take (Z.to_nat (a.(na_last_applied) - a.(na_base_index))) (drop (Z.to_nat a.(na_base_index)) H).

(** C10: refinement of the replicated state machine.  In every world reached by
    applying, checkpointing, compacting, installing and rebuilding, whatever Raft
    did in between, a node has applied a prefix of the history: its image is the
    replay of that prefix from the empty store, its records are exactly the
    entries after its boundary, at their indices, and the same entries are on
    its disk. *)
Theorem app_replica_refines H w n a :
  app_reachable H w → nodes w !! n = Some a →
  0 ≤ a.(na_base_index) ≤ a.(na_last_applied) ∧ a.(na_last_applied) ≤ zlen H
  ∧ image_of w n = replay kv_image0 (commands_of (take (Z.to_nat a.(na_last_applied)) H))
  ∧ a.(na_applied) = records_from n a.(na_base_index) (slice H a)
  ∧ (disk_of w n).(sm_applied) = slice H a ∧ (disk_of w n).(sm_base_index) = a.(na_base_index).
Proof.
  intros Hw Ha. destruct (app_node _ _ _ _ Hw Ha) as (Hf & _ & Him & Hr & _ & Hno).
  pose proof (no_last _ _ _ _ Hno) as Hl. pose proof (no_base _ _ _ _ Hno) as Hb.
  pose proof (zlen_nonneg (na_applied a)) as Hz. pose proof (no_records _ _ _ _ Hno) as Hrec.
  assert (sm_applied (disk_of w n) = slice H a) as Hslice.
  { destruct (af_disk _ _ Hf n) as [_ Hp _]. rewrite (no_index _ _ _ _ Hno) in Hp.
    rewrite (prefix_take _ _ Hp). unfold slice. f_equal. rewrite Hl, Hrec, zlen_records. unfold zlen. lia. }
  split_and!; [lia..|exact Him|by rewrite <-Hslice|exact Hslice|apply Hno].
Qed.

(** The committed entries [apply_committed] finds *)
Definition to_apply H w n (a : NodeApplied) : list Entry :=
  take (Z.to_nat ((vol w.(raft) n).(commit_index) - a.(na_last_applied)))
    (drop (Z.to_nat a.(na_last_applied)) H).

Lemma holds_view (v : RaftLogView KVCommand) index es' :
  v.(base_index) ≤ index → es' = drop (Z.to_nat (index - v.(base_index))) v.(entries) → holds v index es'.
Proof.
  intros Hb -> i e He. rewrite lookup_drop in He. apply entry_at_lookup. split; [lia|].
  unfold znth. rewrite <-He. f_equal. lia.
Qed.

(** With a log that reaches the commit index, what is pending is what the
    history says. *)
Lemma pending_ready H w n a :
  app_reachable H w → nodes w !! n = Some a → committed_in H w n → ready w n a →
  pending_at w n a (to_apply H w n a).
Proof.
  intros Hw Ha Hc [_ Hr]. destruct (app_node _ _ _ _ Hw Ha) as (Hf & _ & _ & Hlast & _).
  set (commit := commit_index (vol (raft w) n)) in *.
  destruct (Z.leb_spec commit (na_last_applied a)) as [Hle|Hgt].
  { unfold pending_at. fold commit. rewrite (proj2 (Z.leb_le _ _)) by done.
    unfold to_apply. fold commit. by replace (Z.to_nat (commit - na_last_applied a)) with O by lia. }
  destruct Hr as [|(v & Hv & Hb & Hl)]; [lia|].
  set (es := take (Z.to_nat (commit - na_last_applied a)) (drop (Z.to_nat (na_last_applied a - v.(base_index))) v.(entries))).
  assert (pending_at w n a es) as Hp.
  { unfold pending_at. fold commit. rewrite (proj2 (Z.leb_gt _ _)) by done. exists v. split; [done|]. split.
    - intros i e He. apply lookup_take_Some in He as [He _]. by eapply holds_view.
    - subst es. unfold zlen, last_index, zlen in *. rewrite length_take, length_drop. lia. }
  pose proof (pending_prefix _ _ _ _ _ Hf Ha Hc Hp) as Hes%prefix_take.
  assert (length es = Z.to_nat (commit - na_last_applied a)) as Hlen.
  { subst es. unfold last_index, zlen in *. rewrite length_take, length_drop. lia. }
  rewrite Hlen in Hes. unfold to_apply. fold commit. by rewrite <-Hes.
Qed.

(** What [apply_committed] does, as the lemma its clients use *)
Lemma kv_apply_outcome H w n a :
  app_reachable H w → nodes w !! n = Some a → committed_in H w n → ready w n a →
  let es := to_apply H w n a in
  if acceptable (image_of w n) es then
    ∃ w', kv_apply_committed n w = (w', inr (records_from n a.(na_last_applied) es))
      ∧ image_of w' n = replay (image_of w n) (commands_of es)
      ∧ (node_applied w' n).(na_last_applied) = Z.max a.(na_last_applied) (vol w.(raft) n).(commit_index)
      ∧ ∀ m, m ≠ n → image_of w' m = image_of w m ∧ node_applied w' m = node_applied w m
  else kv_apply_committed n w = (w, inl (refusal es)).
Proof.
  intros Hw Ha Hc Hr es. destruct (app_node _ _ _ _ Hw Ha) as (Hf & Hi & _ & Hlast & _).
  pose proof (pending_ready _ _ _ _ Hw Ha Hc Hr) as Hp. fold es in Hp.
  destruct (kv_apply_committed n w) as [w' r] eqn:E.
  pose proof (app_follows_apply _ _ _ _ _ Hf Hc E) as Hinv.
  pose proof (wp_kv_apply n w (af_inv _ _ Hf)) as Hwp. unfold wp in Hwp. rewrite E in Hwp.
  destruct r as [e|l].
  { destruct Hinv as [-> Href]. by destruct (Href _ _ _ Ha Hi Hp Hr) as [-> ->]. }
  destruct Hwp as (a' & im & es' & Ha' & Hi' & Hp' & Hacc & -> & (Hu & _) & _). simplify_eq.
  rewrite (pending_unique _ _ _ _ _ Hp' Hp) in *. rewrite Hacc. exists w'. split; [done|].
  destruct (updated_at _ _ _ _ _ _ Hu) as (_ & Hn & Hk). split; [by apply image_of_some|]. split.
  - rewrite (node_applied_some _ _ _ Hn). simpl. subst es.
    destruct Hr as [_ Hr]. unfold to_apply, zlen in *. rewrite length_take, length_drop.
    destruct (Z.leb_spec (commit_index (vol (raft w) n)) (na_last_applied a)); [lia|].
    unfold pending_at in Hp. rewrite (proj2 (Z.leb_gt _ _)) in Hp by done.
    destruct Hp as (v & Hv & _ & Hlen). destruct Hr as [|(v' & Hv' & _ & Hl)]; [lia|].
    assert (v' = v) as -> by congruence. unfold to_apply, zlen in Hlen.
    rewrite length_take, length_drop in Hlen. lia.
  - intros m Hm. destruct Hu as [_ N K _]. unfold image_of, node_applied. fold (nodes w') (nodes w).
    by rewrite N, K, !decide_False.
Qed.

(** C25: [ReplicatedKV.apply_committed] is all or nothing, and does not fail for
    want of Raft: on a log that reaches from what is applied to the commit index
    it applies exactly the committed entries that are pending, in order, and ends
    in their replay, if the batch has no unsupported command and reuses no client
    request identity; otherwise it changes nothing and raises
    [InvalidKVCommand], for an unsupported command, or else
    [ClientRequestConflict]: never a State Machine Safety violation.  Raft is
    any that keeps the committed entries of the node within the history
    ([committed_in]) and, being up, lets its log be read ([ready]). *)
Theorem apply_committed_complete H w n a :
  app_reachable H w → nodes w !! n = Some a → committed_in H w n → ready w n a →
  let es := to_apply H w n a in
  if acceptable (image_of w n) es then
    ∃ w', kv_apply_committed n w = (w', inr (records_from n a.(na_last_applied) es))
      ∧ image_of w' n = replay (image_of w n) (commands_of es)
      ∧ (node_applied w' n).(na_last_applied) = Z.max a.(na_last_applied) (vol w.(raft) n).(commit_index)
      ∧ ∀ m, m ≠ n → image_of w' m = image_of w m ∧ node_applied w' m = node_applied w m
  else kv_apply_committed n w = (w, inl (refusal es)).
Proof. apply kv_apply_outcome. Qed.

(** ** Client retries *)

Definition identity (r : ClientRequest) : string * Z := (r.(cr_client_id), r.(cr_request_id)).

(** The identity [i] has had its effect, or a later request of its client has. *)
Definition settled (im : KVImage) (i : string * Z) : Prop :=
  ∃ j, i.2 ≤ j ∧ is_Some (im.(kv_requests) !! (i.1, j)).

Lemma foldr_max_ge (l : list Z) x z : z ∈ x :: l → z ≤ foldr Z.max x l.
Proof.
  intros Hz. assert (x ≤ foldr Z.max x l) as Hx by (clear; induction l; simpl; lia).
  apply elem_of_cons in Hz as [->|Hz]; [done|].
  clear Hx. induction l as [|y l IH]; [by apply elem_of_nil in Hz|]. simpl.
  apply elem_of_cons in Hz as [->|Hz]; [lia|]. specialize (IH Hz). lia.
Qed.

Lemma foldr_max_elem (l : list Z) x : foldr Z.max x l ∈ x :: l.
Proof.
  induction l as [|y l IH]; simpl; [by left|].
  destruct (Z.max_spec y (foldr Z.max x l)) as [[_ ->]|[_ ->]]; [|right; left].
  apply elem_of_cons in IH as [->|IH]; [left|]. right. by right.
Qed.

Lemma latest_ge requests c j : is_Some (requests !! (c, j)) → j ≤ latest_request_id requests c.
Proof.
  intros [op Hop]. unfold latest_request_id.
  assert (j ∈ (λ e : string * Z * KVOperation, e.1.2) <$> filter (λ e, e.1.1 = c) (map_to_list requests)) as Hj.
  { apply list_elem_of_fmap. exists ((c, j), op). split; [done|]. apply list_elem_of_filter.
    split; [done|]. by apply elem_of_map_to_list. }
  destruct (_ <$> _) as [|x l]; [by apply elem_of_nil in Hj|]. by apply foldr_max_ge.
Qed.

Lemma latest_elem requests c :
  0 ≤ latest_request_id requests c → is_Some (requests !! (c, latest_request_id requests c)).
Proof.
  unfold latest_request_id. destruct (_ <$> _) as [|x l] eqn:E; [lia|]. intros _.
  pose proof (foldr_max_elem l x) as Hin. rewrite <-E in Hin.
  apply list_elem_of_fmap in Hin as ([[c' j] op] & Hj & Hin). simpl in Hj. rewrite Hj.
  apply list_elem_of_filter in Hin as [<- Hin]. apply elem_of_map_to_list in Hin. by eexists.
Qed.

Lemma step_requests_mono im c : im.(kv_requests) ⊆ (step_image im c).(kv_requests).
Proof.
  destruct c as [|r| | |]; try done. simpl. destruct (_ !! _) eqn:E; [done|].
  destruct (_ <? _); [done|]. by apply insert_subseteq.
Qed.

Lemma settled_mono im l i : settled im i → settled (replay im l) i.
Proof.
  revert im. induction l as [|c l IH]; intros im H; [exact H|]. apply IH.
  destruct H as (j & Hj & x & Hx). exists j. split; [done|]. exists x.
  eapply lookup_weaken; [exact Hx|apply step_requests_mono].
Qed.

Lemma settled_step im r : 0 ≤ r.(cr_request_id) → settled (step_image im (CmdRequest r)) (identity r).
Proof.
  intros Hr. unfold settled. simpl. destruct (_ !! _) as [op|] eqn:E.
  { exists (cr_request_id r). split; [done|]. by exists op. }
  destruct (Z.ltb_spec (cr_request_id r) (latest_request_id (kv_requests im) (cr_client_id r))).
  - exists (latest_request_id (kv_requests im) (cr_client_id r)). split; [lia|]. apply latest_elem. lia.
  - exists (cr_request_id r). split; [done|]. simpl. rewrite lookup_insert_eq. by eexists.
Qed.

Lemma settled_noop im r : settled im (identity r) → step_image im (CmdRequest r) = im.
Proof.
  intros (j & Hj & Hs). simpl in *. destruct (_ !! (_, cr_request_id r)) as [op|] eqn:E; [done|].
  pose proof (latest_ge _ _ _ Hs) as Hge.
  destruct (Z.ltb_spec (cr_request_id r) (latest_request_id (kv_requests im) (cr_client_id r))); [done|].
  assert (j = cr_request_id r) as -> by lia. rewrite E in Hs. by destruct Hs.
Qed.

Lemma replay_retry im pre mid post r r' :
  0 ≤ r.(cr_request_id) → identity r' = identity r →
  replay im (pre ++ CmdRequest r :: mid ++ CmdRequest r' :: post)
  = replay im (pre ++ CmdRequest r :: mid ++ post).
Proof.
  intros Hr Hid. rewrite !replay_app. simpl. fold (replay (step_image (replay im pre) (CmdRequest r))).
  rewrite !replay_app. unfold replay at 1. simpl foldl. f_equal.
  apply settled_noop. rewrite Hid. apply settled_mono. by apply settled_step.
Qed.

(** Exactly-once effect of retried client requests.  However often the log
    carries a request again, and whatever was committed in between, a replica
    that has applied the whole history has the image of the history without the
    retry. *)
Theorem retry_has_no_effect H w n a pre e mid e' post r r' :
  app_reachable H w → nodes w !! n = Some a → a.(na_last_applied) = zlen H →
  H = pre ++ e :: mid ++ e' :: post →
  e.(le_command) = CmdRequest r → e'.(le_command) = CmdRequest r' →
  new_ClientRequest r.(cr_client_id) r.(cr_request_id) r.(cr_operation) = inr r → identity r' = identity r →
  image_of w n = replay kv_image0 (commands_of (pre ++ e :: mid ++ post)).
Proof.
  intros Hw Ha Hl HH He He' Hr Hid. destruct (app_node _ _ _ _ Hw Ha) as (_ & _ & -> & _).
  assert (0 ≤ cr_request_id r) as Hpos.
  { unfold new_ClientRequest, checked in Hr. destruct (empty_str _); [done|].
    destruct (Z.ltb_spec (cr_request_id r) 0); [done|lia]. }
  unfold image_at. rewrite Hl, take_ge by (unfold zlen; lia). rewrite HH, !commands_of_app. simpl.
  rewrite !commands_of_app. simpl. rewrite He, He'. by apply replay_retry.
Qed.

(** ** Consistency and rebuilding *)

Lemma find_prefix_in p l im : find_prefix p l = Some im → (p, im) ∈ l.
Proof.
  induction l as [|[q im'] l IH]; simpl; [done|]. case_bool_decide as E; [|intros; right; auto].
  intros [= <-]. subst. left.
Qed.

(** The check on replicas, as the lemma its clients use *)
Lemma check_replicas_pass H w :
  app_reachable H w → (∀ n, n ∈ cluster_ids w → is_Some (nodes w !! n)) →
  assert_replica_consistency w = (w, inr tt).
Proof.
  intros Hw Hids. unfold assert_replica_consistency, bind, gets.
  assert (∀ ids l, (∀ n, n ∈ ids → is_Some (nodes w !! n)) →
    (∀ p im, (p, im) ∈ l → im = image_at H (p.1.1 + zlen p.2)) →
    check_replicas ids l w = (w, inr tt)) as Hloop; [|by apply Hloop; [exact Hids|intros ? ? ?%elem_of_nil]].
  induction ids as [|n ids IH]; intros l Hn Hl; [done|]. simpl.
  destruct (Hn n (list_elem_of_here _ _)) as [a Ha].
  destruct (app_node _ _ _ _ Hw Ha) as (_ & Hi & Him & _ & _ & Hno).
  destruct (applied_reads _ _ _ Ha) as (Hbi & Hbt & _ & Hes). destruct (kv_reads _ _ _ Hi) as [Hst _].
  assert (kv_client_requests n w = (w, inr (image_of w n).(kv_requests))) as Hrq.
  { unfold kv_client_requests. by rewrite (kv_known _ _ _ _ Hi). }
  unfold bind at 1. rewrite Hbi. unfold bind at 1. rewrite Hbt. unfold bind at 1. rewrite Hes.
  unfold bind at 1. rewrite Hst. unfold bind at 1. rewrite Hrq.
  assert (mkKVImage (kv_state (image_of w n)) (kv_requests (image_of w n)) = image_of w n) as ->
    by (by destruct (image_of w n)).
  assert (image_of w n = image_at H (na_base_index a + zlen (ap_entry <$> na_applied a))) as Hp.
  { rewrite Him, (no_last _ _ _ _ Hno). unfold zlen. by rewrite length_fmap. }
  destruct (find_prefix _ _) as [im|] eqn:Ef.
  - apply find_prefix_in, Hl in Ef. simpl in Ef. rewrite Ef, <-Hp, bool_decide_eq_true_2 by done.
    unfold bind, raise_if, ret. simpl. apply IH; [|done]. intros m Hm. apply Hn. by right.
  - apply IH; [intros m Hm; apply Hn; by right|]. intros p im [Hin|[= -> ->]%list_elem_of_singleton]%elem_of_app.
    + by apply Hl.
    + exact Hp.
Qed.

(** The replica check never fails: in a reachable world nodes that have
    applied the same prefix, entry for entry and boundary for boundary, have the
    same image, even when one applied the entries and another installed a
    checkpoint of them. *)
Theorem replicas_consistent H w :
  app_reachable H w → (∀ n, n ∈ cluster_ids w → is_Some (nodes w !! n)) →
  assert_replica_consistency w = (w, inr tt).
Proof. apply check_replicas_pass. Qed.

Lemma loaded_node c d n a : node_ok c d n a → a = loaded n d.
Proof.
  intros [_ Hl Hr Hi Ht _]. destruct a as [bi bt la l]. unfold loaded. simpl in *. subst.
  by rewrite zlen_records.
Qed.

(** No request identity in the history of [d] is reused for another operation. *)
Definition history_conflict_free (d : AppDurable) : bool :=
  conflict_free (commands_of d.(sm_applied)) (base_image d).(kv_requests).

Lemma init_kv_fresh w n :
  NoDup (cluster_ids w) → n ∈ cluster_ids w →
  (set_kvs (list_to_map ((λ n, (n, kv_image0)) <$> cluster_ids w)) w).(kvs) !! n = Some kv_image0.
Proof.
  intros Hnd Hn. simpl. apply elem_of_list_to_map.
  - rewrite <-list_fmap_compose. simpl. by rewrite list_fmap_id.
  - apply list_elem_of_fmap. by exists n.
Qed.

(** A new [ReplicatedKV] over the applier: it succeeds exactly on histories
    without a reused identity. *)
Lemma init_kv_outcome H w :
  app_reachable H w → NoDup (cluster_ids w) → (∀ n, n ∈ cluster_ids w → is_Some (nodes w !! n)) →
  if forallb (λ n, history_conflict_free (disk_of w n)) (cluster_ids w) then
    ∃ w', init_kv w = (w', inr tt) ∧ ∀ n, n ∈ cluster_ids w → image_of w' n = image_of w n
  else ∃ w' e, init_kv w = (w', inl e).
Proof.
  intros Hw Hnd Hids. set (w2 := set_kvs (list_to_map ((λ n, (n, kv_image0)) <$> cluster_ids w)) w).
  assert (init_kv w = for_each (cluster_ids w) init_node w2) as -> by done.
  assert (Hwp := wp_init_nodes (cluster_ids w) w2 Hnd).
  destruct (for_each (cluster_ids w) init_node w2) as [w' r] eqn:E. unfold wp in Hwp. rewrite E in Hwp.
  assert (∀ n, n ∈ cluster_ids w → boundary_ok (disk_of w n)
    ∧ image_of w n = image_of_disk (disk_of w n)) as Hnode.
  { intros n Hn. destruct (Hids n Hn) as [a Ha]. destruct (app_node _ _ _ _ Hw Ha) as (Hf & Hi & _ & _ & Hb & _).
    split; [done|]. by destruct (ai_kv _ (af_inv _ _ Hf) _ _ Hi). }
  specialize (Hwp ltac:(intros n Hn; split; [by apply init_kv_fresh|];
    destruct (Hids n Hn) as [a Ha]; destruct (app_node _ _ _ _ Hw Ha) as (Hf & _ & _ & _ & _ & Hno);
    exists a; split_and!; [exact Ha|exact Hno|apply (ai_disk _ (af_inv _ _ Hf))])).
  destruct r as [e|[]].
  - destruct Hwp as (n & Hn & Hbad). destruct (forallb _ _) eqn:Ef; [|by exists w', e].
    rewrite forallb_forall in Ef. destruct Hbad. split; [by apply Hnode|]. by apply Ef, list_elem_of_In.
  - destruct Hwp as (_ & _ & Hin & _).
    assert (forallb (λ n, history_conflict_free (disk_of w n)) (cluster_ids w) = true) as ->.
    { apply forallb_forall. intros n Hn%list_elem_of_In. by destruct (Hin n Hn) as ([_ Hc] & _). }
    exists w'. split; [done|]. intros n Hn. destruct (Hin n Hn) as [_ Hk].
    rewrite (image_of_some _ _ _ Hk). symmetry. by apply Hnode.
Qed.

(** Rebuilding over the disks, as after a restart of the process, gives
    every node the applied history and the image it had; and a store built over
    the applied histories fails only when a history reuses a client request
    identity for another operation, and then always. *)
Theorem rebuild_restores H w :
  app_reachable H w → NoDup (cluster_ids w) → (∀ n, n ∈ cluster_ids w → is_Some (nodes w !! n)) →
  (∀ w', exec_app AppRebuild w = (w', inr tt) → w'.(disk) = w.(disk)
     ∧ ∀ n, n ∈ cluster_ids w → nodes w' !! n = nodes w !! n ∧ image_of w' n = image_of w n)
  ∧ if forallb (λ n, history_conflict_free (disk_of w n)) (cluster_ids w) then
      ∃ w', init_kv w = (w', inr tt) ∧ ∀ n, n ∈ cluster_ids w → image_of w' n = image_of w n
    else ∃ w' e, init_kv w = (w', inl e).
Proof.
  intros Hw Hnd Hids. split; [|by apply (init_kv_outcome H)]. intros w' E.
  pose proof (app_reachable_follows _ _ Hw) as Hf.
  destruct (app_follows_rebuild _ _ _ (disks_of_follows _ _ Hf) Hnd E) as (_ & Hd & Hall).
  split; [done|]. intros n Hn. destruct (Hids n Hn) as [a Ha]. destruct (Hall n Hn) as (Hl & Hk & _).
  destruct (app_node _ _ _ _ Hw Ha) as (_ & Hi & _ & _ & _ & Hno).
  rewrite Ha, Hl, <-(loaded_node _ _ _ _ Hno). split; [done|]. rewrite (image_of_some _ _ _ Hk).
  symmetry. by destruct (ai_kv _ (af_inv _ _ Hf) _ _ Hi).
Qed.

(** ** Checkpoints *)

(** C36: a checkpoint carries the whole replicated state.  [compact] keeps the
    node's image, empties its applied history up to what it had applied, and
    returns a snapshot its constructor accepts; installed on a node of any other
    world, it gives that node, and no other, the same image and
    applied index, unless the node held this very snapshot already. *)
Theorem checkpoint_transfers H w n w1 s :
  app_reachable H w → compact n w = (w1, inr s) →
  (image_of w1 n = image_of w n ∧ (node_applied w1 n).(na_applied) = []
   ∧ (node_applied w1 n).(na_last_applied) = (node_applied w n).(na_last_applied)
   ∧ s.(last_included_index) = (node_applied w n).(na_last_applied) ∧ snapshot_wf s ∧ faithful H s)
  ∧ ∀ w2 m preserve w3, install m s preserve w2 = (w3, inr tt) → (disk_of w2 m).(kv_snapshot) ≠ Some s →
      image_of w3 m = image_of w n
      ∧ (node_applied w3 m).(na_last_applied) = (node_applied w n).(na_last_applied)
      ∧ (∀ k, k ≠ m → image_of w3 k = image_of w2 k ∧ node_applied w3 k = node_applied w2 k).
Proof.
  intros Hw E. pose proof (app_reachable_follows _ _ Hw) as Hf.
  pose proof (wp_compact n w (af_inv _ _ Hf)) as Hwp. unfold wp in Hwp. rewrite E in Hwp.
  destruct Hwp as (Hcp & _ & im & Hi & Hu). destruct (updated_at _ _ _ _ _ _ Hu) as (_ & Hn1 & Hi1).
  destruct (cp_node _ _ _ Hcp) as (a & im' & Ha & Hi' & Hl & Him). assert (im' = im) as -> by congruence.
  rewrite (image_of_some _ _ _ Hi), (image_of_some _ _ _ Hi1), (node_applied_some _ _ _ Hn1),
    (node_applied_some _ _ _ Ha). simpl. rewrite Hl. split.
  { split_and!; try done; [apply Hcp|by eapply checkpoint_faithful]. }
  intros w2 m preserve w3 E2 Hne. pose proof (wp_install m s preserve w2) as Hwp. unfold wp in Hwp.
  rewrite E2 in Hwp. destruct Hwp as [[_ Heq]|(_ & Hu3 & _)]; [done|].
  destruct (updated_at _ _ _ _ _ _ Hu3) as (_ & Hn3 & Hi3).
  rewrite (image_of_some _ _ _ Hi3), (node_applied_some _ _ _ Hn3). simpl. split_and!; [done..|].
  intros k Hk. destruct Hu3 as [_ N K _]. unfold image_of, node_applied. fold (nodes w3) (nodes w2).
  by rewrite N, K, !decide_False.
Qed.
