(* ===== verification/AppWhole.v ===== *)
(** * AppWhole: the frame lemmas of the store, and stores over whole logs

    Applying, checkpointing, rebuilding and checking read the cluster and never
    change it ([spares]); only compaction and installation write Raft's log. *)

From S2P Require Import Prelude Simulator LogIndex KVCommands Raft AppWorld StateMachine KV Snapshot AppFacts AppInv AppRebuild AppCheckpoint AppSystem AppProperties.

Implicit Types (w : AppWorld) (n : string).

Definition spares {A} (m : AM A) : Prop := ∀ w, (m w).1.(raft) = w.(raft).

Lemma spares_stays {A} (m : AM A) : stays m → spares m.
Proof. intros Hm w. by rewrite Hm. Qed.

Lemma spares_bind {A B} (m : AM A) (k : A → AM B) : spares m → (∀ a, spares (k a)) → spares (bind m k).
Proof.
  intros Hm Hk w. unfold bind. specialize (Hm w). destruct (m w) as [w' [e|a]]; simpl in *; [done|].
  by rewrite Hk.
Qed.

Lemma spares_for_each {A} (l : list A) (f : A → AM unit) : (∀ a, spares (f a)) → spares (for_each l f).
Proof. intros Hf. induction l as [|a l IH]; [done|]. by apply spares_bind. Qed.

Lemma spares_record r : spares (app_record r). Proof. done. Qed.
Lemma spares_put_disk n f : spares (put_disk n f). Proof. done. Qed.
Lemma spares_put_applied n a : spares (put_applied n a). Proof. done. Qed.
Lemma spares_put_image n im : spares (put_image n im). Proof. done. Qed.
Lemma spares_modify f : (∀ w, (f w).(raft) = w.(raft)) → spares (modify f). Proof. intros Hf w. apply Hf. Qed.

#[export] Hint Resolve spares_record spares_put_disk spares_put_applied spares_put_image spares_for_each : distlab.
#[export] Hint Extern 2 (spares (modify _)) => apply spares_modify; intros; reflexivity : distlab.
#[export] Hint Extern 3 (spares (bind _ _)) => apply spares_bind; [|intros] : distlab.
#[export] Hint Extern 5 (spares (if ?b then _ else _)) => destruct b : distlab.
#[export] Hint Extern 6 (spares (when ?b _)) => unfold when; destruct b : distlab.
#[export] Hint Extern 7 (spares _) => apply spares_stays; solve [auto 20 with distlab] : distlab.

Lemma spares_record_canonical r : spares (record_canonical r).
Proof. unfold record_canonical. apply spares_bind; [auto with distlab|]. intros [|]; auto with distlab. Qed.
#[export] Hint Resolve spares_record_canonical : distlab.

Lemma spares_apply_indices n log l acc : spares (apply_indices n log l acc).
Proof.
  revert acc. induction l as [|i l IH]; intros acc; simpl; [auto with distlab|].
  apply spares_bind; [|auto]. unfold apply_index. auto 20 with distlab.
Qed.
#[export] Hint Resolve spares_apply_indices : distlab.

Lemma spares_sm_apply n : spares (sm_apply_committed n).
Proof. unfold sm_apply_committed. auto 20 with distlab. Qed.

Lemma spares_run n op : spares (run_operation n op).
Proof. unfold run_operation. auto 20 with distlab. Qed.

Lemma spares_admit n r : spares (admit_request n r).
Proof.
  unfold admit_request. apply spares_bind; [auto with distlab|intros im]. cbv zeta.
  destruct (_ !! _); auto 20 with distlab.
Qed.
Lemma spares_trace n i op c q b b' : spares (trace_operation n i op c q b b').
Proof. by destruct op. Qed.
#[export] Hint Resolve spares_sm_apply spares_run spares_admit spares_trace : distlab.

Lemma spares_apply_command n c b i : spares (apply_command n c b i).
Proof. destruct c; unfold apply_command; auto 20 with distlab. Qed.
#[export] Hint Resolve spares_apply_command : distlab.

Lemma spares_kv_apply n : spares (kv_apply_committed n).
Proof. unfold kv_apply_committed. cbv zeta. auto 30 with distlab. Qed.

Lemma spares_create n : spares (create n).
Proof. unfold create, kv_snapshot_of. auto 40 with distlab. Qed.

Lemma spares_init_applier : spares init_applier.
Proof.
  unfold init_applier. apply spares_bind; [auto with distlab|intros _].
  apply spares_bind; [auto with distlab|intros ids]. apply spares_for_each. intros n.
  apply spares_bind; [apply spares_stays, stays_load|]. intros [[bi bt] es]. auto with distlab.
Qed.

Lemma spares_restore n : spares (restore_snapshot_boundary n).
Proof.
  unfold restore_snapshot_boundary, applied_base_index, applied_base_term. apply spares_bind; [auto with distlab|intros bi].
  destruct (bi =? 0); [auto with distlab|]. apply spares_bind; [auto with distlab|intros d].
  destruct (kv_snapshot d); [|auto with distlab]. unfold restore_requests. auto 20 with distlab.
Qed.
#[export] Hint Resolve spares_kv_apply spares_create spares_init_applier spares_restore : distlab.

Lemma spares_init_kv : spares init_kv.
Proof. unfold init_kv, init_node. auto 20 with distlab. Qed.

Lemma stays_scan_records l i c : stays (scan_records l i c).
Proof. revert i c. induction l as [|r l IH]; intros i c; simpl; auto 10 with distlab. Qed.
Lemma stays_scan_boundary n bi bt c : stays (scan_boundary n bi bt c).
Proof. unfold scan_boundary. auto 10 with distlab. Qed.
#[export] Hint Resolve spares_init_kv stays_scan_records stays_scan_boundary stays_load : distlab.

Lemma stays_assert_safety : stays assert_state_machine_safety.
Proof.
  apply stays_bind; [auto with distlab|intros ids]. generalize (mkSafetyScan ∅ ∅).
  induction ids as [|n ids IH]; intros c; simpl; auto 20 with distlab.
Qed.

Lemma stays_check_replicas ids l : stays (check_replicas ids l).
Proof.
  revert l. induction ids as [|n ids IH]; intros l; simpl; [auto with distlab|].
  unfold applied_base_index, applied_base_term, kv_snapshot_of, kv_client_requests.
  do 5 (apply stays_bind; [auto 10 with distlab|intros ?]).
  destruct (find_prefix _ _); auto with distlab.
Qed.

Lemma stays_assert : stays (exec_app AppAssert).
Proof.
  apply stays_bind; [apply stays_assert_safety|intros _].
  apply stays_bind; [auto with distlab|intros ids]. apply stays_check_replicas.
Qed.

(** Whether a call of the store leaves the cluster as it was *)
Definition leaves_raft (o : app_op) : bool :=
  match o with AppRaft _ | AppCompact _ | AppInstall _ _ _ => false | _ => true end.

Lemma spares_exec_app o : leaves_raft o = true → spares (exec_app o).
Proof. destruct o; try done; intros _; simpl; auto 10 with distlab. apply spares_stays, stays_assert. Qed.

(** ** A store over logs that were never compacted

    When every node keeps its whole log and has applied a prefix of it
    ([whole]), what is on disk can always be loaded: the applier is rebuilt, its
    safety check accepts the cluster, and only a reused client identity stops
    the store from being rebuilt. *)

Implicit Types (H : list Entry).

Definition whole w n : Prop :=
  member w.(raft) n = true ∧ ∃ l, view_of w n = inr (mkRaftLogView 0 0 l)
    ∧ (disk_of w n).(sm_base_index) = 0 ∧ (disk_of w n).(sm_base_term) = 0
    ∧ (disk_of w n).(sm_applied) `prefix_of` l.

Lemma whole_same w w' n : w'.(raft) = w.(raft) → w'.(disk) = w.(disk) → whole w n → whole w' n.
Proof. unfold whole, view_of, disk_of. by intros -> ->. Qed.

(** ** Running a computation that returns *)

Lemma bind_returns {S A B} (m : M S A) (k : A → M S B) s s1 a :
  m s = (s1, inr a) → bind m k s = k a s1.
Proof. unfold bind. by intros ->. Qed.

Lemma for_each_returns {S A} (l : list A) (f : A → M S unit) s :
  (∀ a, a ∈ l → f a s = (s, inr tt)) → for_each l f s = (s, inr tt).
Proof.
  induction l as [|a l IH]; intros Hf; [done|]. simpl. rewrite (bind_returns _ _ _ s tt).
  - apply IH. intros b Hb. apply Hf. by right.
  - apply Hf. left.
Qed.

Lemma wp_returns {S A} (m : M S A) (Q : S → A → Prop) E s :
  wp m Q E s → (∃ s' a, m s = (s', inr a)) → wp m Q (λ _ _, False) s.
Proof. unfold wp. intros Hm (s' & a & E'). by rewrite E' in *. Qed.

(** ** Loading *)

Lemma load_whole w n :
  whole w n → load_durable_state n w = (w, inr (0, 0, (disk_of w n).(sm_applied))).
Proof.
  intros (Hm & l & Hv & Hb & Ht & Hp). pose proof (prefix_length _ _ Hp) as Hlen.
  unfold load_durable_state, node_log. unfold bind at 1, gets. rewrite Hb, Ht. cbv zeta.
  rewrite (bind_returns _ _ w w tt) by done. rewrite (bind_returns _ _ w w tt) by done.
  rewrite (bind_returns _ _ w w (mkRaftLogView 0 0 l)).
  2:{ unfold on_raft, node. rewrite (bind_returns _ _ w.(raft) w.(raft) n).
      - unfold log_view, view_of, bind, gets, lift in *. rewrite Hv. simpl. by rewrite set_raft_id.
      - unfold bind, gets. cbv beta iota. by rewrite Hm. }
  cbn [LogIndex.base_index LogIndex.base_term]. unfold last_index, first_retained_index, zlen.
  cbn [LogIndex.base_index LogIndex.entries].
  rewrite (bind_returns _ _ w w tt) by done.
  rewrite (bind_returns _ _ w w tt); [|unfold raise_if; by destruct (Z.ltb_spec (0 + Z.of_nat (length l))
    (0 + Z.of_nat (length (sm_applied (disk_of w n))))); [lia|]].
  rewrite (bind_returns _ _ w w tt) by done. rewrite (bind_returns _ _ w w tt) by done.
  rewrite (bind_returns _ _ w w tt); [done|].
  apply for_each_returns. intros i Hi%elem_of_zrange.
  destruct (lookup_lt_is_Some_2 (sm_applied (disk_of w n)) (Z.to_nat (i - 0 - 1))) as [e He]; [lia|].
  rewrite (bind_returns _ _ w w e) by (unfold item, znth; by rewrite He).
  assert (entry_at (mkRaftLogView 0 0 l) i = inr e) as ->.
  { apply entry_at_lookup. split; [simpl; lia|]. unfold znth. simpl. by eapply prefix_lookup_Some. }
  unfold bind, lift, raise_if. by rewrite bool_decide_eq_true_2.
Qed.

(** ** The safety check *)

Section history.
Context (H : list Entry).

Lemma scan_records_whole n b es expected c w :
  0 ≤ b → es `prefix_of` drop (Z.to_nat b) H → expected = b + 1 →
  canon_follows H c.(seen) → c.(boundaries) = ∅ →
  ∃ c', scan_records (records_from n b es) expected c w = (w, inr c')
    ∧ canon_follows H c'.(seen) ∧ c'.(boundaries) = ∅.
Proof.
  intros Hb. revert b Hb expected c. induction es as [|e es IH]; intros b Hb expected c Hp -> Hc Hz.
  { by exists c. }
  destruct (note_follows H c.(seen) (mkAppliedEntry n (b + 1) e) Hc) as [Hag Hn].
  { split; simpl; [lia|]. unfold znth. destruct Hp as [k Hk].
    replace (Z.to_nat (b + 1 - 1)) with (Z.to_nat b + 0)%nat by lia. by rewrite <-lookup_drop, Hk. }
  rewrite records_from_cons. unfold agrees, note in *. cbn [ap_index ap_entry] in *.
  cbn [scan_records]. cbv zeta. cbn [ap_index ap_entry].
  rewrite (bind_returns _ _ w w tt) by (unfold raise_if; by rewrite Z.eqb_refl).
  rewrite (bind_returns _ _ w w tt).
  2:{ unfold raise_if. destruct (seen c !! (b + 1)); [by rewrite Hag|done]. }
  rewrite (bind_returns _ _ w w tt) by (by rewrite Hz, lookup_empty).
  apply (IH (b + 1)); [lia|..|done|done|done].
  destruct Hp as [k Hk]. exists k.
  replace (Z.to_nat (b + 1)) with (Z.to_nat b + 1)%nat by lia. by rewrite <-drop_drop, Hk.
Qed.

Lemma scan_nodes_whole ids c w :
  app_follows H w → (∀ n, n ∈ ids → whole w n ∧ is_Some (nodes w !! n)) →
  canon_follows H c.(seen) → c.(boundaries) = ∅ → scan_nodes ids c w = (w, inr tt).
Proof.
  intros Hf. revert c. induction ids as [|n ids IH]; intros c Hids Hc Hz; [done|]. simpl.
  destruct (Hids n (list_elem_of_here _ _)) as [Hw [a Ha]].
  pose proof (ai_sm _ (af_inv _ _ Hf) _ _ Ha) as Hno.
  pose proof Hw as (_ & l & _ & Hb & Ht & _). unfold bind at 1, gets. rewrite (node_applied_some _ _ _ Ha).
  rewrite <-(no_index _ _ _ _ Hno), <-(no_term _ _ _ _ Hno), (no_records _ _ _ _ Hno), <-(no_index _ _ _ _ Hno), Hb, Ht.
  rewrite (bind_returns _ _ w w c) by done.
  destruct (scan_records_whole n 0 (sm_applied (disk_of w n)) (0 + 1) c w) as (c' & Hscan & Hc' & Hz'); try done.
  { pose proof (df_entries _ _ (af_disk _ _ Hf n)) as Hde. by rewrite Hb in Hde. }
  rewrite (bind_returns _ _ _ _ _ Hscan), (bind_returns _ _ _ _ _ (load_whole _ _ Hw)).
  destruct (applied_reads _ _ _ Ha) as (_ & _ & _ & Hes). rewrite (bind_returns _ _ _ _ _ Hes).
  rewrite (no_records _ _ _ _ Hno), records_entries.
  rewrite (bind_returns _ _ w w tt) by (by rewrite bool_decide_eq_true_2).
  apply IH; [|done..]. intros m Hm. apply Hids. by right.
Qed.

Lemma assert_safety_whole w :
  app_follows H w → (∀ n, n ∈ cluster_ids w → whole w n ∧ is_Some (nodes w !! n)) →
  assert_state_machine_safety w = (w, inr tt).
Proof.
  intros Hf Hids. unfold assert_state_machine_safety. unfold bind at 1, gets.
  apply scan_nodes_whole; [done|done| |done]. intros i r. simpl. by rewrite lookup_empty.
Qed.

(** ** Rebuilding *)

Lemma record_all_returns records w :
  all_agree (canon w) records = true → ∃ w', for_each records record_canonical w = (w', inr tt).
Proof.
  revert w. induction records as [|r records IH]; intros w Ha; [by exists w|]. simpl in *.
  apply andb_prop in Ha as [Har Ha]. pose proof (wp_record_canonical r w) as Hwp.
  unfold wp in Hwp. unfold bind. destruct (record_canonical r w) as [w1 [e|[]]].
  - destruct Hwp as (_ & _ & Hbad). congruence.
  - apply IH. destruct Hwp as (_ & _ & _ & _ & -> & _). exact Ha.
Qed.

Definition load_node n : AM unit :=
  let! r := load_durable_state n in
  let '(bi, bt, entries) := r in
  let records := records_from n bi entries in
  put_applied n (mkNodeApplied bi bt (bi + zlen records) records) ;;
  for_each records record_canonical.

Lemma wp_load_whole w n :
  disks_ok H w → canon_follows H (canon w) → whole w n →
  wp (load_node n) (λ w' _, w'.(raft) = w.(raft) ∧ w'.(disk) = w.(disk) ∧ canon_follows H (canon w'))
    (λ _ _, False) w.
Proof.
  intros Hd Hc Hw. pose proof Hw as (_ & l & _ & Hb & Ht & _).
  assert (∀ r, r ∈ records_from n 0 (sm_applied (disk_of w n)) → in_history H r) as Hin.
  { pose proof (df_entries _ _ (proj2 (Hd n))) as Hde. rewrite Hb in Hde. by apply records_in_history. }
  destruct (all_agree_follows H (canon w) _ Hc Hin) as [Hag Hf].
  eapply wp_mono; [eapply wp_returns; [apply wp_load_node|]| |done].
  - unfold load_node. rewrite (bind_returns _ _ _ _ _ (load_whole _ _ Hw)). unfold put_applied.
    unfold bind at 1, modify.
    destruct (record_all_returns (records_from n 0 (sm_applied (disk_of w n)))
      (set_applier (mkApplier (<[n:=mkNodeApplied 0 0 (0 + zlen (records_from n 0 (sm_applied (disk_of w n))))
        (records_from n 0 (sm_applied (disk_of w n)))]> (per_node (applier w))) (canonical_by_index (applier w))) w))
      as [w' Hw']; [exact Hag|]. exists w', tt. exact Hw'.
  - intros w' _ (Hr & Hdk & _ & Hcn & _). split; [done|]. split; [done|]. rewrite Hcn. simpl. by rewrite Hb.
Qed.

Lemma wp_init_applier_whole w :
  disks_ok H w → (∀ n, n ∈ cluster_ids w → whole w n) → wp init_applier (λ _ _, True) (λ _ _, False) w.
Proof.
  intros Hd Hw. unfold init_applier. do 4 (wp_step; cbv beta). set (w0 := set_applier _ w).
  eapply wp_mono; [apply (wp_for_each _ load_node
    (λ w', w'.(raft) = w.(raft) ∧ w'.(disk) = w.(disk) ∧ canon_follows H (canon w')) (λ _ _, False))|done|done].
  { split_and!; [done..|]. intros i r. unfold canon, w0. cbn. by rewrite lookup_empty. }
  intros n w1 Hn (Hr & Hdk & Hc). eapply wp_mono; [apply wp_load_whole|cbv beta|done].
  - intros m. unfold disk_of. rewrite Hdk. apply Hd.
  - exact Hc.
  - apply (whole_same w); [done..|]. by apply Hw.
  - intros w2 _ (Hr2 & Hd2 & Hc2). split_and!; congruence || done.
Qed.

(** A whole store is rebuilt, unless a history reuses a request identity, and
    then it is not. *)
Lemma rebuild_whole w :
  disks_ok H w → NoDup (cluster_ids w) → (∀ n, n ∈ cluster_ids w → whole w n) →
  if forallb (λ n, history_conflict_free (disk_of w n)) (cluster_ids w)
  then ∃ w', exec_app AppRebuild w = (w', inr tt)
  else ∃ w' e, exec_app AppRebuild w = (w', inl e).
Proof.
  intros Hd Hnd Hw. set (ids := cluster_ids w).
  assert (wp (exec_app AppRebuild) (λ _ _, forallb (λ n, history_conflict_free (disk_of w n)) ids = true)
    (λ _ _, forallb (λ n, history_conflict_free (disk_of w n)) ids = false) w) as Hwp.
  { cbn [exec_app]. wp_step. eapply wp_mono.
    { eapply wp_and; [apply wp_init_applier|by apply wp_init_applier_whole]. }
    2:{ by intros ? ? [_ []]. }
    intros w1 _ [(Hr & Hdk & _ & Hin & _) _]. cbv beta. unfold init_kv.
    assert (cluster_ids w1 = ids) as Hids by (unfold cluster_ids; by rewrite Hr).
    do 4 (wp_step; cbv beta). rewrite Hids. set (w2 := set_kvs _ w1).
    assert (disk_of w2 = disk_of w) as Hdo by (unfold disk_of; simpl; by rewrite Hdk).
    eapply wp_mono; [apply (wp_init_nodes ids w2 Hnd)| |].
    - intros n Hn. destruct (Hin n Hn) as [Hl Hok].
      split; [by apply (init_kv_fresh w n)|]. eexists. split_and!; [exact Hl|by rewrite Hdo|rewrite Hdo; apply Hd].
    - intros w3 _ (_ & _ & Hok & _). apply forallb_forall. intros n Hn%list_elem_of_In.
      destruct (Hok n Hn) as [[_ Hcf] _]. by rewrite Hdo in Hcf.
    - intros w3 e (n & Hn & Hbad). apply not_true_is_false. intros Hall. rewrite forallb_forall in Hall.
      apply Hbad. rewrite Hdo. split; [|by apply Hall, list_elem_of_In].
      destruct (Hw n Hn) as (_ & l & _ & Hb & _). intros Hne. by destruct Hne. }
  unfold wp in Hwp. destruct (exec_app AppRebuild w) as [w' [e|[]]]; fold ids; rewrite Hwp; eauto.
Qed.
End history.
