(* ===== verification/LinearizableRead.v ===== *)
(** * LinearizableRead: reads served by a leader

    Models [src/distlab/linearizable_read.py] on a cluster with a fixed
    membership: the branches for a [ReconfigurableRaftCluster] are left out, and
    the quorum mode is always ["stable"].  A reader is a store and a replicator,
    over the cluster both belong to; [self.leader] is the replicator's, and
    [rf] bounds the run of each replication attempt. *)

From S2P Require Import Prelude Simulator Quorum LogIndex KVCommands Raft Replication AppWorld StateMachine KV.

Record ReadBarrierEvidence := mkEvidence {
  ev_leader : string;
  ev_term : Z;
  ev_commit_index : Z;
  acknowledged_peers : list string;
  acknowledged_voters : list string;
  ev_majority : Z;
  quorum_mode : string;
}.

Inductive ReadRec :=
  | RReadBarrier (leader : string) (term commit_index : Z) (peers voters : list string)
      (majority : Z) (quorum_mode : string)
  | RRead (leader : string) (term commit_index : Z) (key : string) (value : option string)
      (peers voters : list string) (majority : Z) (quorum_mode : string)
  | RReadQuorumFailed (leader : string) (term acknowledgements majority : Z) (voters : list string)
      (quorum_mode : string).

(** [self.kv] and [self.replicator]; the cluster is in the store.  The records
    readers write are kept apart from the simulator's, as the store's are. *)
Record ReadWorld := mkReadWorld {
  rd_store : AppWorld;
  rd_replicator : LeaderReplicator;
  rd_trace : list ReadRec;
}.

Implicit Types (x : ReadWorld).
Abbreviation RdM := (M ReadWorld).

Definition rep_of x : RepWorld (C := KVCommand) := mkRepWorld x.(rd_store).(raft) x.(rd_replicator).

Definition on_replicator {A} (m : M (RepWorld (C := KVCommand)) A) : RdM A := λ x,
  let r := m (rep_of x) in (mkReadWorld (set_raft r.1.(cluster) x.(rd_store)) r.1.(self) x.(rd_trace), r.2).
Definition on_kv {A} (m : AM A) : RdM A := λ x,
  let r := m x.(rd_store) in (mkReadWorld r.1 x.(rd_replicator) x.(rd_trace), r.2).
Definition read_record (r : ReadRec) : RdM unit :=
  modify (λ x, mkReadWorld x.(rd_store) x.(rd_replicator) (x.(rd_trace) ++ [r])).

Definition leader_id x : string := x.(rd_replicator).(leader).
Definition leader_dur x : RaftDurable (C := KVCommand) := dur x.(rd_store).(raft) (leader_id x).
Definition leader_vol x : RaftVolatile := vol x.(rd_store).(raft) (leader_id x).

(** [_require_current_leader] *)
Definition require_read_leader : RdM unit :=
  let! up := gets (λ x, is_alive x.(rd_store).(raft) (leader_id x)) in
  raise_if (negb up) LinearizableReadError "linearizable reads require a live leader" ;;
  let! leads := gets (λ x, is_role x.(rd_store).(raft) (leader_id x) LEADER) in
  raise_if (negb leads) LinearizableReadError "linearizable reads require leader role" ;;
  let! current := gets (λ x, (leader_dur x).(current_term) =? x.(rd_replicator).(rep_term)) in
  raise_if (negb current) LinearizableReadError "linearizable read replicator term is stale" ;;
  try_except (on_replicator rep_advance_commit_index ;; ret tt) (λ e,
    if is_replication_error e then raise LinearizableReadError e.(exn_msg) else rethrow e).

(** [_require_current_term_commit] *)
Definition require_current_term_commit : RdM unit :=
  let! commit_index := gets (λ x, (leader_vol x).(commit_index)) in
  if commit_index =? 0 then
    raise CurrentTermCommitRequired
      "linearizable reads require a committed entry from the leader's current term"
  else
    let! n := gets leader_id in
    let! log := on_replicator (on_cluster (log_view n)) in
    let! t := on_replicator (on_cluster (lift (term_at log commit_index))) in
    let! d := gets leader_dur in
    raise_if (negb (t =? d.(current_term))) CurrentTermCommitRequired
      "linearizable reads require a committed entry from the leader's current term".

Section fuel.
Context (rf : nat).

(** The loop of [_confirm_authority] over the peers left: who acknowledged, and
    in which order. *)
Fixpoint confirm_peers (max_attempts majority : Z) (ps : list string) (acknowledged : gset string)
    (acked : list string) : RdM (gset string * list string) :=
  match ps with
  | [] => ret (acknowledged, acked)
  | peer :: ps' =>
      if majority <=? Z.of_nat (size acknowledged) then ret (acknowledged, acked)
      else
        let! ok := try_except (on_replicator (replicate rf 0 peer (Some max_attempts))) (λ e,
          match e.(exn_cls) with ReplicationResponseMissing => ret false | _ => rethrow e end) in
        if ok then confirm_peers max_attempts majority ps' ({[peer]} ∪ acknowledged) (acked ++ [peer])
        else confirm_peers max_attempts majority ps' acknowledged acked
  end.

(** [_confirm_authority] *)
Definition confirm_authority (max_attempts : Z) : RdM ReadBarrierEvidence :=
  raise_if (max_attempts <=? 0) ValueError "max_attempts_per_peer must be positive" ;;
  require_read_leader ;;
  require_current_term_commit ;;
  let! n := gets leader_id in
  let! majority := gets (λ x, quorum_size (cluster_ids x.(rd_store))) in
  let! ps := gets (λ x, peers x.(rd_store).(raft) n) in
  let! acks := confirm_peers max_attempts majority ps {[n]} [] in
  require_read_leader ;;
  let voters := sorted_str (elements acks.1) in
  let! d := gets leader_dur in
  when (Z.of_nat (size acks.1) <? majority)
    (read_record (RReadQuorumFailed n d.(current_term) (Z.of_nat (size acks.1)) majority voters "stable") ;;
     raise ReadQuorumUnavailable "leader could not confirm the active voting quorum") ;;
  let! v := gets leader_vol in
  ret (mkEvidence n d.(current_term) v.(commit_index) acks.2 voters majority "stable").

Definition read_barrier (max_attempts : Z) : RdM ReadBarrierEvidence :=
  let! e := confirm_authority max_attempts in
  let! n := gets leader_id in
  on_kv (kv_apply_committed n) ;;
  read_record (RReadBarrier e.(ev_leader) e.(ev_term) e.(ev_commit_index) e.(acknowledged_peers)
    e.(acknowledged_voters) e.(ev_majority) e.(quorum_mode)) ;;
  ret e.

Definition linearizable_get (key : string) (max_attempts : Z) : RdM (option string) :=
  raise_if (key =? "")%string ValueError "KV key must be non-empty" ;;
  let! e := confirm_authority max_attempts in
  let! n := gets leader_id in
  on_kv (kv_apply_committed n) ;;
  let! value := on_kv (kv_get n key) in
  read_record (RRead e.(ev_leader) e.(ev_term) e.(ev_commit_index) key value e.(acknowledged_peers)
    e.(acknowledged_voters) e.(ev_majority) e.(quorum_mode)) ;;
  ret value.
End fuel.
