(* ===== verification/Follows.v ===== *)
(** * Follows: a store that follows a driven cluster

    The key/value store of [state_machine.py], [kv.py] and [snapshot.py] on a
    cluster of [raft.py] that [replication.py] and [commit_recovery.py] drive.
    What [AppSystem] asks of Raft ([committed_in]) is here a theorem: the history
    is what the cluster has committed ([follows]), whether the cluster moves or
    the store does. *)

From stdpp Require Import relations.
From S2P Require Import Prelude Simulator Quorum LogIndex KVCommands RaftSpec Refinement Raft RaftRefine RaftSafe.
From S2P Require Import Replication ReplicationRefine Driver DriverRefine DriverProperties.
From S2P Require Import AppWorld StateMachine KV LinearizableRead Snapshot AppFacts AppInv AppRebuild AppCheckpoint AppSystem AppWhole AppProperties.

Record SystemWorld := mkSystem {
  store : AppWorld;
  replicators : list LeaderReplicator;
  reads : list ReadRec;  (** what readers recorded *)
}.

Definition set_store w y : SystemWorld := mkSystem w y.(replicators) y.(reads).

Implicit Types (y : SystemWorld) (w : AppWorld) (n : string) (H p : list Entry) (s : Spec KVCommand).

(** The cluster and its replicators *)
Definition driven_part y : DriveWorld := mkDriveWorld y.(store).(raft) y.(replicators).
Definition with_driven (d : DriveWorld) y : SystemWorld :=
  mkSystem (set_raft d.(dw_cluster) y.(store)) d.(dw_replicators) y.(reads).

(** ** A longer history *)

Lemma znth_prefix {A} (l k : list A) i x : l `prefix_of` k → znth l i = Some x → znth k i = Some x.
Proof. intros Hp Hx. by eapply prefix_lookup_Some. Qed.

Lemma committed_in_mono H H' w n : H `prefix_of` H' → committed_in H w n → committed_in H' w n.
Proof. intros Hp Hc v i e Hv Hi He. eapply znth_prefix; [exact Hp|]. by eapply Hc. Qed.

Lemma image_at_mono H H' k : H `prefix_of` H' → 0 ≤ k ≤ zlen H → image_at H' k = image_at H k.
Proof.
  intros [x ->] Hk. unfold image_at, zlen in *. by rewrite take_app_le by lia.
Qed.

Lemma faithful_mono H H' c : H `prefix_of` H' → faithful H c → faithful H' c.
Proof.
  intros Hp [Hr Him]. pose proof (prefix_length _ _ Hp). unfold faithful, zlen in *.
  split; [lia|]. rewrite (image_at_mono H); [done..|unfold zlen; lia].
Qed.

Lemma app_reachable_mono H H' w : H `prefix_of` H' → app_reachable H w → app_reachable H' w.
Proof.
  intros Hp. induction 1 as [w w' Hz Hnd E|w o w' r _ IH Hok E Hgo]; [by eapply app_reach_init|].
  eapply app_reach_op; [exact IH| |exact E|exact Hgo].
  destruct o as [r'|n|n|n|n c preserve| |]; simpl in *; try done.
  - by eapply committed_in_mono.
  - destruct Hok. split; [done|]. by eapply faithful_mono.
Qed.

(** ** The invariant *)

Section follows.
Context (ids : list string) (ts : option (gmap string Z)) {may : KVCommand → Prop}.
Local Abbreviation quorum := (majority ids).
Local Abbreviation steps := (rtc (spec_step quorum true may)).
Local Abbreviation committed := (committed quorum).

(** What [n] has applied is committed, and in its log for good. *)
Definition kept s n p : Prop := ∃ t, committed s t p ∧ t ≤ term_of s n ∧ p `prefix_of` nlog s n.

Record follows y s H : Prop := {
  fo_driven : D ids (driven_part y) s;
  fo_history : ∃ t, committed s t H;
  fo_store : app_reachable H y.(store);
  fo_base n : (disk_of y.(store) n).(sm_base_index) = 0;
  fo_term n : (disk_of y.(store) n).(sm_base_term) = 0;
  fo_kept n : kept s n (disk_of y.(store) n).(sm_applied);
  fo_nodes n : n ∈ ids → is_Some (nodes y.(store) !! n);
}.

(** What readers recorded is beside the point. *)
Lemma follows_reads y y' s H :
  follows y s H → y'.(store) = y.(store) → y'.(replicators) = y.(replicators) → follows y' s H.
Proof.
  intros [HD Hc Hst Hb Ht Hk Hn] Es Er. split; rewrite ?Es; try done.
  unfold driven_part. by rewrite Es, Er.
Qed.

Lemma kept_steps s s' n p : spec_inv quorum true s → steps s s' → kept s n p → kept s' n p.
Proof.
  intros Hi Hs (t & Hc & Ht & Hp). exists t. split.
  - by eapply (steps_committed quorum true).
  - by eapply (steps_keeps quorum true).
Qed.

Lemma driven_inv d s : D ids d s → spec_inv quorum true s.
Proof. intros HD. exact (Ra_inv _ _ _ (proj1 HD)). Qed.

(** Raft moves. *)
Lemma follows_raft y s H s' d :
  follows y s H → steps s s' → D ids d s' → follows (with_driven d y) s' H.
Proof.
  intros [HD [t Hc] Hst Hb Ht Hk Hn] Hs HD'. pose proof (driven_inv _ _ HD) as Hi.
  split; simpl; try done; [exists t; by eapply (steps_committed quorum true)| |].
  - by eapply (app_reach_op H _ (AppRaft (dw_cluster d)) _ (inr tt)).
  - intros n. by eapply kept_steps, Hk.
Qed.

Lemma driven_view d s n w :
  D ids d s → w.(raft) = d.(dw_cluster) →
  view_of w n = inr (mkRaftLogView 0 0 (nlog s n)) ∧ (dur w.(raft) n).(log) = nlog s n.
Proof.
  intros HD Hw. destruct (disc_good _ _ _ _ _ n _ _ (proj1 HD) eq_refl) as (Hv & Hl & _).
  unfold view_of. rewrite Hw. unfold RaftRefine.view_of in Hv. injection Hv as -> -> ->. by split.
Qed.

(** What [n] takes for committed belongs to a history that extends the one so
    far. *)
Lemma follows_extend y s H n :
  follows y s H → ∃ H', H `prefix_of` H' ∧ follows y s H' ∧ committed_log y.(store).(raft) n `prefix_of` H'.
Proof.
  intros Hf. pose proof (committed_log_committed _ _ _ n (fo_driven _ _ _ Hf)) as Hn.
  destruct (fo_history _ _ _ Hf) as [t Hc].
  destruct (committed_agree quorum true _ _ _ _ _ eq_refl (driven_inv _ _ (fo_driven _ _ _ Hf)) Hc Hn) as [Hp|Hp].
  - eexists. split; [exact Hp|]. split; [|done]. destruct Hf. split; try done; [by eexists|].
    by eapply app_reachable_mono.
  - by exists H.
Qed.

Lemma follows_committed_in y s H n :
  follows y s H → committed_log y.(store).(raft) n `prefix_of` H → committed_in H y.(store) n.
Proof.
  intros Hf Hp v i e Hv Hi He.
  destruct (driven_view _ _ n y.(store) (fo_driven _ _ _ Hf) eq_refl) as [Hv' Hl].
  rewrite Hv in Hv'. injection Hv' as ->. apply entry_at_lookup in He as [Hr He]. simpl in Hr.
  eapply znth_prefix; [exact Hp|]. unfold committed_log. rewrite Hl. unfold znth in *. simpl in He.
  replace (i - 0 - 1) with (i - 1) in He by lia.
  rewrite lookup_take_lt; [done|lia].
Qed.

Lemma driven_ids d s : D ids d s → d.(dw_cluster).(objs).(node_ids) = ids.
Proof. intros HD. apply (R_ids _ _ _ _ _ _ _ (proj1 HD)). Qed.

(** ** The store moves *)

Lemma follows_store y s H w' :
  follows y s H → w'.(raft) = y.(store).(raft) → app_reachable H w' →
  (∀ n, sm_base_index (disk_of w' n) = 0 ∧ sm_base_term (disk_of w' n) = 0
     ∧ kept s n (sm_applied (disk_of w' n))) →
  (∀ n, n ∈ ids → is_Some (nodes w' !! n)) →
  follows (set_store w' y) s H.
Proof.
  intros [HD Hc _ _ _ _ _] Hr Hw Hd Hn. split; simpl; try done; [by unfold driven_part; simpl; rewrite Hr|..];
    intros n; apply Hd.
Qed.

Lemma prefix_shorter {A} (l k m : list A) :
  l `prefix_of` m → k `prefix_of` m → (length l ≤ length k)%nat → l `prefix_of` k.
Proof.
  intros [x ->] [z Hz] Hlen. exists (take (length k - length l) x).
  apply (f_equal (take (length k))) in Hz. rewrite take_app_length, take_app, take_ge in Hz by done. done.
Qed.

Lemma kept_committed y s H n p :
  follows y s H → p `prefix_of` committed_log y.(store).(raft) n → kept s n p.
Proof.
  intros Hf Hp. pose proof (fo_driven _ _ _ Hf) as HD.
  exists (dur y.(store).(raft) n).(current_term). split_and!.
  - eapply committed_weaken; [by apply (committed_log_committed ids)|done|exact Hp].
  - by rewrite (rd_known _ _ _ _ (R_dur _ _ _ _ _ _ _ (proj1 HD) n)).
  - destruct (driven_view _ _ n y.(store) HD eq_refl) as [_ <-]. etrans; [exact Hp|].
    eexists. symmetry. apply take_drop.
Qed.

Lemma committed_log_length y s H n :
  follows y s H → zlen (committed_log y.(store).(raft) n) = (vol y.(store).(raft) n).(commit_index).
Proof.
  intros Hf. destruct (R_commit _ _ _ _ _ _ _ (proj1 (fo_driven _ _ _ Hf)) n eq_refl) as [Hc _].
  simpl in Hc. unfold committed_log, zlen in *. rewrite length_take. lia.
Qed.

Lemma follows_apply y s H n w' r :
  follows y s H → kv_apply_committed n y.(store) = (w', r) →
  ∃ H', H `prefix_of` H' ∧ follows (set_store w' y) s H'
    ∧ match r with inl e => w' = y.(store) ∧ refused y.(store) n e | inr _ => True end.
Proof.
  intros Hf0 E. destruct (follows_extend _ _ _ n Hf0) as (H' & Hp & Hf & Hcl). exists H'. split; [done|].
  pose proof (follows_committed_in _ _ _ _ Hf Hcl) as Hci.
  pose proof (app_reachable_follows _ _ (fo_store _ _ _ Hf)) as Hap.
  pose proof (app_follows_apply _ _ _ _ _ Hap Hci E) as Hr.
  destruct r as [e|l].
  { destruct Hr as [-> Href]. split; [|done]. by destruct Hf. }
  pose proof (wp_kv_apply n y.(store) (af_inv _ _ Hap)) as Hwp. unfold wp in Hwp. rewrite E in Hwp.
  destruct Hwp as (a & im & es & Ha & _ & Hpend & _ & _ & ([Hdisk Hnode _ _] & _) & _).
  split; [|done]. apply (follows_store _ _ _ _ Hf).
  - pose proof (spares_kv_apply n y.(store)) as Hq. by rewrite E in Hq.
  - eapply (app_reach_op H' _ (AppApply n) _ (inr tt)); [apply Hf|exact Hci| |done].
    simpl. unfold bind. by rewrite E.
  - intros m. rewrite Hdisk. case_decide as Hm; [|split_and!; apply Hf]. subst m. simpl.
    split; [apply Hf|]. split; [apply Hf|]. unfold pending_at in Hpend.
    destruct (_ <=? _) eqn:Ele; [subst es; rewrite app_nil_r; apply Hf|].
    destruct Hpend as (v & _ & _ & Hlen). eapply kept_committed; [exact Hf|].
    eapply prefix_shorter; [|exact Hcl|].
    + destruct (af_disk _ _ Hr n) as [_ Hde _]. rewrite Hdisk, decide_True in Hde by done. simpl in Hde.
      by rewrite (fo_base _ _ _ Hf) in Hde.
    + pose proof (committed_log_length _ _ _ n Hf) as Hcl'.
      destruct (app_inv_node _ _ _ (af_inv _ _ Hap) Ha) as (_ & _ & _ & Hno & _).
      pose proof (no_last _ _ _ _ Hno) as Hl. rewrite (no_records _ _ _ _ Hno), zlen_records in Hl.
      rewrite <-(no_index _ _ _ _ Hno), (fo_base _ _ _ Hf) in Hl.
      rewrite length_app. unfold zlen in *. lia.
  - intros m Hm. rewrite Hnode. case_decide; [by eexists|by apply (fo_nodes _ _ _ Hf)].
Qed.

Lemma follows_create y s H n w' r :
  follows y s H → create n y.(store) = (w', r) → follows (set_store w' y) s H.
Proof.
  intros Hf E. pose proof (app_reachable_follows _ _ (fo_store _ _ _ Hf)) as Hap.
  pose proof (wp_create n y.(store) (af_inv _ _ Hap)) as Hwp. unfold wp in Hwp. rewrite E in Hwp.
  destruct r as [e|c]; [subst; by destruct Hf|]. destruct Hwp as (_ & Hr & Ha & _ & Hd).
  apply (follows_store _ _ _ _ Hf); [done|..].
  - eapply (app_reach_op H _ (AppCreate n) _ (inr tt)); [apply Hf|apply Hf| |done].
    simpl. unfold bind. by rewrite E.
  - intros m. rewrite Hd. case_decide as Hm; [subst m; simpl|]; split_and!; apply Hf.
  - intros m Hm. unfold nodes. rewrite Ha. by apply (fo_nodes _ _ _ Hf).
Qed.

Lemma follows_rebuild y s H w' :
  NoDup ids → follows y s H → exec_app AppRebuild y.(store) = (w', inr tt) →
  follows (set_store w' y) s H.
Proof.
  intros Hnd Hf E. pose proof (app_reachable_follows _ _ (fo_store _ _ _ Hf)) as Hap.
  assert (cluster_ids y.(store) = ids) as Hids by apply (driven_ids _ _ (fo_driven _ _ _ Hf)).
  assert (NoDup (cluster_ids y.(store))) as Hnd' by (by rewrite Hids).
  destruct (app_follows_rebuild _ _ _ (disks_of_follows _ _ Hap) Hnd' E) as (_ & Hd & Hn). rewrite Hids in Hn.
  apply (follows_store _ _ _ _ Hf).
  - pose proof (spares_exec_app AppRebuild eq_refl y.(store)) as Hq. by rewrite E in Hq.
  - by eapply (app_reach_op H _ AppRebuild _ (inr tt)); [apply Hf| |exact E|].
  - intros m. unfold disk_of. rewrite Hd. fold (disk_of y.(store) m). split_and!; apply Hf.
  - intros m Hm. destruct (Hn m Hm) as [-> _]. by eexists.
Qed.

(** The cluster boots over the disks. *)
Lemma follows_boot plan y s H :
  ids ≠ [] → NoDup ids → timeouts_ok ids ts → follows y s H →
  ∃ r, init_cluster ids ts (boot_world plan y.(store).(raft).(sim).(persistent_state)) = (r, inr tt)
    ∧ follows (with_driven (mkDriveWorld r []) y) s H.
Proof.
  intros Hne Hnd Hts Hf.
  pose proof (raft_wp_init_cluster true ids ts plan _ s Hne Hnd Hts
    (raft_R_boot _ _ _ _ _ _ plan _ _ (proj1 (fo_driven _ _ _ Hf)))) as Hwp.
  change (dw_cluster (driven_part y)) with (raft (store y)) in Hwp.
  unfold wp in Hwp. destruct (init_cluster ids ts _) as [r [e|[]]]; [done|]. destruct Hwp as [HR _].
  exists r. split; [done|]. eapply follows_raft; [exact Hf|done|]. by split.
Qed.

(** ** Reading a followed store *)

Lemma follows_view y s H n :
  follows y s H →
  view_of y.(store) n = inr (mkRaftLogView 0 0 (dur y.(store).(raft) n).(log))
  ∧ (dur y.(store).(raft) n).(log) = nlog s n.
Proof.
  intros Hf. destruct (driven_view (driven_part y) s n y.(store) (fo_driven _ _ _ Hf) eq_refl) as [Hv Hl].
  by rewrite Hl.
Qed.

Lemma follows_ids y s H : follows y s H → cluster_ids y.(store) = ids.
Proof. intros Hf. apply (driven_ids _ _ (fo_driven _ _ _ Hf)). Qed.

Lemma follows_member y s H n : follows y s H → n ∈ ids → member y.(store).(raft) n = true.
Proof.
  intros Hf Hn. unfold member. pose proof (follows_ids _ _ _ Hf) as Hids. unfold cluster_ids in Hids.
  rewrite Hids. by apply bool_decide_eq_true_2.
Qed.

Lemma follows_applied y s H n :
  follows y s H → (disk_of y.(store) n).(sm_applied) `prefix_of` (dur y.(store).(raft) n).(log).
Proof.
  intros Hf. destruct (follows_view _ _ _ n Hf) as [_ ->]. destruct (fo_kept _ _ _ Hf n) as (t & _ & _ & Hp).
  exact Hp.
Qed.

Lemma follows_whole y s H n : follows y s H → n ∈ ids → whole y.(store) n.
Proof.
  intros Hf Hn. split; [by eapply follows_member|]. eexists. split; [by apply (follows_view _ s H)|].
  split_and!; [apply Hf|apply Hf|by eapply follows_applied].
Qed.

(** A replica in a followed world *)
Lemma follows_node y s H n :
  follows y s H → n ∈ ids → ∃ a, nodes y.(store) !! n = Some a ∧ node_applied y.(store) n = a
    ∧ 0 ≤ a.(na_last_applied) ≤ zlen H ∧ image_of y.(store) n = image_at H a.(na_last_applied)
    ∧ (ap_entry <$> a.(na_applied)) = take (Z.to_nat a.(na_last_applied)) H
    ∧ take (Z.to_nat a.(na_last_applied)) (dur y.(store).(raft) n).(log) = take (Z.to_nat a.(na_last_applied)) H.
Proof.
  intros Hf Hn. destruct (fo_nodes _ _ _ Hf n Hn) as [a Ha]. exists a.
  destruct (app_node _ _ _ _ (fo_store _ _ _ Hf) Ha) as (Hap & _ & Him & Hr & _ & Hno).
  pose proof (no_last _ _ _ _ Hno) as Hl. rewrite (no_records _ _ _ _ Hno), zlen_records in Hl.
  rewrite <-(no_index _ _ _ _ Hno), (fo_base _ _ _ Hf) in Hl.
  assert (Z.to_nat (na_last_applied a) = length (sm_applied (disk_of y.(store) n))) as Hlen by (unfold zlen in Hl; lia).
  pose proof (df_entries _ _ (af_disk _ _ Hap n)) as Hp. rewrite (fo_base _ _ _ Hf) in Hp.
  rewrite (no_records _ _ _ _ Hno), records_entries, Hlen. simpl in Hp.
  split_and!; [done|by apply node_applied_some|lia..|exact Him|by apply prefix_take|].
  rewrite <-(prefix_take _ _ (follows_applied _ _ _ n Hf)). by apply prefix_take.
Qed.

Lemma follows_ready y s H n a : follows y s H → n ∈ ids → nodes y.(store) !! n = Some a → ready y.(store) n a.
Proof.
  intros Hf Hn Ha. destruct (follows_node _ _ _ _ Hf Hn) as (a' & Ha' & _ & Hr & _).
  rewrite Ha in Ha'. injection Ha' as <-. split; [by eapply follows_member|]. right.
  eexists. split; [by apply (follows_view _ s H)|].
  pose proof (committed_log_length _ _ _ n Hf) as Hclen. unfold committed_log, zlen in Hclen.
  rewrite length_take in Hclen. unfold last_index, zlen. simpl. split; lia.
Qed.

(** An [apply_committed] that returns has applied all that is committed. *)
Lemma follows_applies y s H n w' l :
  follows y s H → n ∈ ids → kv_apply_committed n y.(store) = (w', inr l) →
  (node_applied w' n).(na_last_applied)
    = Z.max (node_applied y.(store) n).(na_last_applied) (vol y.(store).(raft) n).(commit_index).
Proof.
  intros Hf0 Hn E. destruct (follows_extend _ _ _ n Hf0) as (H' & _ & Hf & Hcl).
  destruct (follows_node _ _ _ _ Hf Hn) as (a & Ha & -> & Hr & _).
  pose proof (kv_apply_outcome H' y.(store) n a (fo_store _ _ _ Hf) Ha (follows_committed_in _ _ _ _ Hf Hcl)) as Ho.
  cbv zeta in Ho. specialize (Ho (follows_ready _ _ _ _ _ Hf Hn Ha)). destruct (acceptable _ _).
  - destruct Ho as (w1 & E1 & _ & Hl & _). rewrite E in E1. by injection E1 as <- _.
  - by rewrite E in Ho.
Qed.
End follows.
