(* ===== verification/ReadRefine.v ===== *)
(** * ReadRefine: what a leader's read has confirmed

    [confirm_authority] over [follows]: when it returns, the leader has
    committed its whole log of the start, and a majority had not gone past its
    term by then; so all that was committed anywhere is in what it serves. *)

From stdpp Require Import relations.
From S2P Require Import Prelude Simulator Quorum LogIndex KVCommands RaftSpec Refinement Raft RaftRefine RaftSafe.
From S2P Require Import RaftMono Replication ReplicationMono ReplicationRefine Driver DriverRefine.
From S2P Require Import AppWorld StateMachine KV LinearizableRead AppFacts AppInv AppSystem AppWhole AppProperties Follows.

Implicit Types (x : ReadWorld) (n peer : string) (s : Spec KVCommand) (H : list Entry).

(** ** Readers only move forward *)

Definition read_grows {A} (m : RdM A) : Prop := ∀ x, grown (rep_of x) (rep_of (m x).1).

Lemma read_grows_bind {A B} (m : RdM A) (k : A → RdM B) : read_grows m → (∀ a, read_grows (k a)) → read_grows (bind m k).
Proof.
  intros Hm Hk x. unfold bind. specialize (Hm x). destruct (m x) as [x1 [e|a]]; [done|].
  eapply grown_trans; [exact Hm|apply Hk].
Qed.
Lemma read_grows_try {A} (m : RdM A) h : read_grows m → (∀ e, read_grows (h e)) → read_grows (try_except m h).
Proof.
  intros Hm Hh x. unfold try_except. specialize (Hm x). destruct (m x) as [x1 [e|a]]; [|done].
  eapply grown_trans; [exact Hm|apply Hh].
Qed.
Lemma read_grows_replicator {A} (m : M _ A) : grows m → read_grows (on_replicator m).
Proof.
  intros Hm x. specialize (Hm (rep_of x)). unfold on_replicator, rep_of at 2. simpl.
  by destruct (m (rep_of x)) as [[] r].
Qed.
Lemma read_grows_kv {A} (m : AM A) : spares m → read_grows (on_kv m).
Proof. intros Hm x. unfold rep_of. simpl. rewrite Hm. apply grown_refl. Qed.
Lemma read_grows_still {A} (m : RdM A) : (∀ x, rep_of (m x).1 = rep_of x) → read_grows m.
Proof. intros Hm x. rewrite Hm. apply grown_refl. Qed.

#[local] Hint Resolve read_grows_try read_grows_replicator read_grows_kv : distlab.
#[local] Hint Extern 2 (read_grows (ret _)) => apply read_grows_still; reflexivity : distlab.
#[local] Hint Extern 2 (read_grows (gets _)) => apply read_grows_still; reflexivity : distlab.
#[local] Hint Extern 2 (read_grows (raise _ _)) => apply read_grows_still; reflexivity : distlab.
#[local] Hint Extern 2 (read_grows (rethrow _)) => apply read_grows_still; reflexivity : distlab.
#[local] Hint Extern 2 (read_grows (read_record _)) => apply read_grows_still; reflexivity : distlab.
#[local] Hint Extern 2 (read_grows (raise_if ?b _ _)) => apply read_grows_still; by destruct b : distlab.
#[local] Hint Extern 3 (read_grows (bind _ _)) => apply read_grows_bind; [|intros] : distlab.
#[local] Hint Extern 5 (read_grows (if ?b then _ else _)) => destruct b : distlab.
#[local] Hint Extern 5 (read_grows (match ?b with _ => _ end)) => destruct b : distlab.
#[local] Hint Extern 6 (read_grows (when ?b _)) => unfold when; destruct b : distlab.
#[local] Hint Extern 7 (grows (on_cluster _)) => apply quiet_grows, quiet_on_cluster; solve [auto with distlab] : distlab.

Lemma read_grows_leader : read_grows require_read_leader.
Proof. unfold require_read_leader. auto 40 with distlab. Qed.
Lemma read_grows_term : read_grows require_current_term_commit.
Proof. unfold require_current_term_commit. auto 40 with distlab. Qed.
#[local] Hint Resolve read_grows_leader read_grows_term : distlab.
Lemma read_grows_confirm rf k q ps a l : read_grows (confirm_peers rf k q ps a l).
Proof. revert a l. induction ps as [|p ps IH]; intros a l; simpl; auto 40 with distlab. Qed.
#[local] Hint Resolve read_grows_confirm : distlab.
Lemma read_grows_authority rf k : read_grows (confirm_authority rf k).
Proof. unfold confirm_authority. cbv zeta. auto 60 with distlab. Qed.
#[local] Hint Resolve read_grows_authority : distlab.
Lemma read_grows_barrier rf k : read_grows (read_barrier rf k).
Proof. unfold read_barrier. auto 40 with distlab. Qed.
Lemma stays_kv_get n key : spares (kv_get n key).
Proof. unfold kv_get. auto 40 with distlab. Qed.
#[local] Hint Resolve stays_kv_get : distlab.
Lemma read_grows_get rf key k : read_grows (linearizable_get rf key k).
Proof. unfold linearizable_get. auto 40 with distlab. Qed.

Lemma read_grows_unit {A} (m : RdM A) : read_grows m → read_grows (m ;; ret tt).
Proof. intros Hm. auto with distlab. Qed.

(** ** Readers follow the cluster *)

Section readers.
Context (ids : list string) (ok : exn → Prop) {may : KVCommand → Prop}.
Local Abbreviation quorum := (majority ids).
Local Abbreviation steps := (rtc (spec_step quorum true may)).
Local Abbreviation follows := (follows ids).
Local Abbreviation allows := (allows ok).

(** The abstract state: the specification's, and the history of the store. *)
Implicit Types (p : Spec KVCommand * list Entry).
Definition both_step p p' : Prop := steps p.1 p'.1 ∧ p.2 `prefix_of` p'.2.
Definition alone x : SystemWorld := mkSystem x.(rd_store) [x.(rd_replicator)] x.(rd_trace).
Definition F x p : Prop := follows (alone x) p.1 p.2.
Local Abbreviation refinesF := (refines both_step F).
Local Abbreviation refinesR ld := (refines (spec_step quorum true may) (RRep (C := KVCommand) ids ld)).

Lemma both_steps p p' : rtc both_step p p' → both_step p p'.
Proof. induction 1 as [|p p1 p' [Hs Hp] _ [Hs' Hp']]; [by split|]. split; by etrans. Qed.

Lemma F_rep x p : F x p → RRep ids (leader_id x) (rep_of x) p.1.
Proof. intros Hf. destruct (fo_driven _ _ _ _ Hf) as [HR Hr]. split; [exact HR|]. by apply (Hr 0%nat). Qed.

Lemma F_inv x p : F x p → spec_inv quorum true p.1.
Proof. intros Hf. exact (Ra_inv _ _ _ (proj1 (F_rep _ _ Hf))). Qed.

Lemma refines_replicator {A} (okc : exn → Prop) p (m : M _ A) (Q : _ → _ → A → Prop) x :
  F x p → (RRep ids (leader_id x) (rep_of x) p.1 → refinesR (leader_id x) okc p.1 m Q (rep_of x)) →
  refinesF okc p (on_replicator m) (λ x' p' a, Q (rep_of x') p'.1 a ∧ p'.2 = p.2) x.
Proof.
  intros Hf Hm. specialize (Hm (F_rep _ _ Hf)). unfold on_replicator, refines, wp in *.
  assert (∀ s' (st : RepWorld (C := KVCommand)), steps p.1 s' → RRep ids (leader_id x) st s' →
    both_step p (s', p.2)
    ∧ F (mkReadWorld (set_raft st.(cluster) x.(rd_store)) st.(self) x.(rd_trace)) (s', p.2)) as HF.
  { intros s' st Hs (HR & Hr & Ht). split; [by split|].
    apply (follows_raft (may := may) ids (alone x) p.1 p.2 s' (mkDriveWorld st.(cluster) [st.(self)])); [done..|].
    split; [done|]. intros i r. simpl. intros [_ <-]%list_lookup_singleton_Some.
    by rewrite (ro_leader _ _ _ _ Hr). }
  destruct (m (rep_of x)) as [st [e|a]]; simpl in *.
  - destruct Hm as [(s' & Hs & HR') He]. destruct (HF s' st Hs HR'). split; [|done].
    exists (s', p.2). split; [by apply rtc_once|done].
  - destruct Hm as (s' & Hs & HR' & HQ). destruct (HF s' st Hs HR'). exists (s', p.2).
    split; [by apply rtc_once|]. split; [done|]. split; [by destruct st|done].
Qed.

(** The store applies what its node has committed. *)
Lemma refines_kv_apply p n x :
  F x p → refinesF (λ _, True) p (on_kv (kv_apply_committed n)) (λ x' p' _, p'.1 = p.1 ∧ rep_of x' = rep_of x
    ∧ (n ∈ ids → (node_applied x'.(rd_store) n).(na_last_applied)
        = Z.max (node_applied x.(rd_store) n).(na_last_applied) (vol x.(rd_store).(raft) n).(commit_index))) x.
Proof.
  intros Hf. unfold on_kv, refines, wp. pose proof (spares_kv_apply n (rd_store x)) as Hraft.
  destruct (kv_apply_committed n (rd_store x)) as [w r] eqn:E.
  destruct (follows_apply ids (alone x) p.1 p.2 n w r Hf E) as (H' & Hp & Hf' & _). simpl in *.
  assert (both_step p (p.1, H')) as Hs by by split.
  destruct r as [e|l]; [split; [|done]|]; exists (p.1, H'); (split; [by apply rtc_once|]); [done|].
  split; [done|]. split; [done|]. split; [unfold rep_of; simpl; by rewrite Hraft|].
  intros Hn. apply (follows_applies ids (alone x) p.1 p.2 n w l Hf Hn E).
Qed.

Lemma refines_read_record {B} okc p (r : ReadRec) (k : unit → RdM B) Q x :
  F x p → (∀ x', F x' p → rep_of x' = rep_of x → x'.(rd_store) = x.(rd_store) → refinesF okc p (k tt) Q x') →
  refinesF okc p (bind (read_record r) k) Q x.
Proof.
  intros Hf Hk. apply wp_bind, wp_modify, Hk; [|done..].
  by apply (follows_reads ids (alone x)).
Qed.

Lemma refines_read_grown {A} okc p (m : RdM A) Q x :
  read_grows m → refinesF okc p m Q x →
  refinesF okc p m (λ x' p' a, grown (rep_of x) (rep_of x') ∧ Q x' p' a) x.
Proof.
  intros Hg. specialize (Hg x). unfold refines, wp. destruct (m x) as [x' [e|a]]; [done|].
  intros (p' & ? & ? & ?). by exists p'.
Qed.

(** ** The steps of a read *)

Section authority.
Context (rf : nat) (Hlin : allows LinearizableReadError) (Hcur : allows CurrentTermCommitRequired).
Context (Hquo : allows ReadQuorumUnavailable) (Hrep : allows ReplicationError) (Hval : allows ValueError).
Context (Hfuel : allows OutOfFuel).

(** What a majority has of the leader's log, up to an entry of its term, is
    committed. *)
Definition commits_shared s (st st' : RepWorld (C := KVCommand)) : Prop := ∀ L i,
  s.(llogs) !! st.(self).(rep_term) = Some L → 1 ≤ i ≤ zlen L → term_before L i = st.(self).(rep_term) →
  quorum_size ids ≤ replicas st.(self) i → i ≤ st'.(self).(rep_commit_index).

Lemma refines_read_leader p x :
  F x p → refinesF ok p require_read_leader (λ x' _ _, in_lead (rep_of x') ∧ commits_shared p.1 (rep_of x) (rep_of x')) x.
Proof.
  intros Hf. unfold require_read_leader.
  apply refines_gets, refines_check; [done|by intros _; apply Hlin|intros _].
  apply refines_gets, refines_check; [done|by intros _; apply Hlin|intros _].
  apply refines_gets, refines_check; [done|by intros _; apply Hlin|intros _].
  apply (refines_try _ _ (λ e, exn_cls e = ReplicationError)).
  - eapply refines_bind.
    + apply refines_replicator; [done|]. intros HR. apply refines_rep_advance; [exact HR|by intros e].
    + intros p' x' _ _ Hf' [[? ?] _]. by apply refines_ret.
  - intros p' x' e _ Hf' He _. unfold is_replication_error. rewrite He. apply refines_raise; [done|by apply Hlin].
Qed.

Lemma replicator_returns {A} (m : M _ A) x (a : A) :
  m x.(rd_store).(raft) = (x.(rd_store).(raft), inr a) → on_replicator (on_cluster m) x = (x, inr a).
Proof.
  intros Hm. unfold on_replicator. rewrite (on_cluster_returns m (rep_of x) a Hm). destruct x as [[] r tr]. done.
Qed.

(** The last entry of the leader's log is of its own term. *)
Lemma refines_term_commit p x :
  F x p → in_lead (rep_of x) →
  refinesF ok p require_current_term_commit (λ x' p' _, x' = x ∧ p' = p ∧ ∃ L,
    p.1.(llogs) !! x.(rd_replicator).(rep_term) = Some L ∧ 1 ≤ zlen L
    ∧ term_before L (zlen L) = x.(rd_replicator).(rep_term)) x.
Proof.
  intros Hf Hlead. pose proof (F_rep _ _ Hf) as HR. destruct (in_lead_log _ _ _ _ HR Hlead) as (Hv & _ & HL).
  simpl in Hv, HL. fold (leader_id x) in Hv. change (dur _ (leader x.(rd_replicator))) with (leader_dur x) in *.
  destruct (R_commit _ _ _ _ _ _ _ (proj1 HR) (leader_id x) eq_refl) as [Hci _]. simpl in Hci.
  change (vol _ (leader_id x)) with (leader_vol x) in Hci. change (dur _ (leader_id x)) with (leader_dur x) in Hci.
  unfold require_current_term_commit. apply refines_gets.
  destruct (Z.eqb_spec (commit_index (leader_vol x)) 0); [by apply refines_raise; [|apply Hcur]|].
  apply refines_gets. eapply refines_returns.
  { apply replicator_returns. eapply log_view_returns. exact (proj1 HR). }
  change (dur _ (leader_id x)) with (leader_dur x) in *. rewrite Hv. rewrite term_at_before by lia.
  eapply refines_returns; [by apply replicator_returns|]. apply refines_gets.
  destruct (Z.eqb_spec (term_before (log (leader_dur x)) (commit_index (leader_vol x))) (current_term (leader_dur x)))
    as [Ht|]; simpl; [|by apply refines_raise; [|apply Hcur]].
  apply refines_ret; [done|]. split_and!; [done..|]. eexists. split; [exact HL|].
  assert (current_term (leader_dur x) = rep_term (rd_replicator x)) as Hterm by apply Hlead. rewrite Hterm in Ht.
  assert (1 ≤ zlen (log (leader_dur x))) as Hlen by lia. split; [done|].
  assert (∀ i, 1 ≤ i ≤ zlen (log (leader_dur x)) → term_before (log (leader_dur x)) i = rep_term (rd_replicator x)
    ↔ made_by (log (leader_dur x)) (rep_term (rd_replicator x)) (Z.to_nat i)) as Hmade.
  { intros i Hi. unfold term_before, made_by, znth. destruct (Z.eqb_spec i 0); [lia|].
    replace (Nat.pred (Z.to_nat i)) with (Z.to_nat (i - 1)) by lia.
    destruct (lookup_lt_is_Some_2 (log (leader_dur x)) (Z.to_nat (i - 1))) as [e He]; [unfold zlen in *; lia|].
    rewrite He. split; [intros <-; exists e; by split_and!; [lia|..]|]. by intros (e' & _ & [= <-] & ?). }
  apply Hmade; [lia|]. unfold zlen. rewrite Nat2Z.id.
  eapply (own_entries_last quorum true); [done|exact (F_inv _ _ Hf)|exact HL|].
  apply (Hmade (commit_index (leader_vol x))); [lia|exact Ht].
Qed.

(** Who acknowledged has the log of the start, and was in the leader's term at
    most. *)
Definition acknowledges p0 x0 x (a : string) : Prop :=
  a = leader_id x0 ∨ confirmed (rep_of x0) p0.1 a (rep_of x).

Lemma refines_confirm_peers k q ps acknowledged acked p0 x0 p x :
  F x0 p0 → F x p → both_step p0 p → grown (rep_of x0) (rep_of x) →
  (∀ a, a ∈ acknowledged → acknowledges p0 x0 x a) →
  refinesF ok p (confirm_peers rf k q ps acknowledged acked)
    (λ x' _ r, ∀ a, a ∈ r.1 → acknowledges p0 x0 x' a) x.
Proof.
  intros Hf0. revert acknowledged acked p x.
  induction ps as [|peer ps IH]; intros acknowledged acked p x Hf Hs Hg Ha; simpl; [by apply refines_ret|].
  destruct (q <=? _); [by apply refines_ret|].
  assert (∀ x', grown (rep_of x) (rep_of x') → ∀ a, a ∈ acknowledged → acknowledges p0 x0 x' a) as Hkeep.
  { intros x' Hg' a Hin. destruct (Ha a Hin) as [->|Hc]; [by left|right]. by eapply confirmed_grown. }
  pose proof (read_grows_replicator _ (grows_replicate (C := KVCommand) rf 0 peer (Some k)) x) as Hgr.
  eapply refines_bind.
  - apply (refines_try _ _ (λ e, ok e ∨ exn_cls e = ReplicationResponseMissing) _ p _ _
      (λ x' p' b, grown (rep_of x) (rep_of x') ∧ (b = true → confirmed (rep_of x) p.1 peer (rep_of x')))).
    + eapply refines_weaken; [apply refines_read_grown; [by apply read_grows_replicator, grows_replicate|]|].
      * apply refines_replicator; [done|]. intros HR.
        apply refines_replicate; [intros e ?; left; by apply Hrep|intros e ?; by right
          |intros e ?; left; by apply Hval|intros e ?; left; by apply Hfuel|exact HR].
      * intros p' x' b _ _ (Hg' & Hb & _). done.
    + intros p' x' e _ Hf' He E. rewrite E in Hgr. simpl in Hgr.
      destruct He as [He|He]; [|rewrite He; by apply refines_ret].
      destruct (exn_cls e); (split; [by exists p'|exact He]) || by apply refines_ret.
  - intros p' x' b Hs' Hf' [Hg' Hb]. apply both_steps in Hs'.
    assert (both_step p0 p') as Hs0 by (destruct Hs, Hs'; split; by etrans).
    assert (grown (rep_of x0) (rep_of x')) as Hg0 by by eapply grown_trans.
    destruct b; apply IH; try done; [|by apply Hkeep].
    intros a [->%elem_of_singleton|Hin]%elem_of_union; [right|by apply Hkeep].
    eapply (confirmed_before ids _ _ (rep_of x) p.1); [exact (F_inv _ _ Hf0)|apply Hs|done|by apply Hb].
Qed.

(** A majority that acknowledged is a quorum of the specification. *)
Lemma acknowledged_quorum p0 x0 p x (A : gset string) :
  F x0 p0 → F x p → grown (rep_of x0) (rep_of x) → in_lead (rep_of x0) →
  (∀ a, a ∈ A → acknowledges p0 x0 x a) → quorum_size ids ≤ Z.of_nat (size A) →
  quorum A ∧ ∀ a, a ∈ A → term_of p0.1 a ≤ x0.(rd_replicator).(rep_term).
Proof.
  intros Hf0 Hf Hg Hlead HA Hsize. destruct (F_rep _ _ Hf0) as (HR0 & Hok0 & _), (F_rep _ _ Hf) as (_ & Hok & _).
  assert (∀ a, term_of p0.1 a = term_at_node (rep_of x0).(cluster) a) as Hterm.
  { intros a. apply (rd_known _ _ _ _ (R_dur _ _ _ _ _ _ _ HR0 a)). }
  split; [split; [|exact Hsize]|].
  - intros a Ha. apply elem_of_list_to_set. destruct (HA a Ha) as [->|(_ & y & Hy & _)].
    + apply Hok0.
    + apply (ro_peers _ _ _ _ Hok a). by exists y.
  - intros a Ha. rewrite Hterm. destruct (HA a Ha) as [->|[Ht _]]; [|exact Ht].
    destruct Hlead as [_ E]. simpl in E. unfold leader_id. simpl. lia.
Qed.

Lemma acknowledged_replicas p0 x0 x (A : gset string) L :
  (∀ a, a ∈ A → acknowledges p0 x0 x a) → p0.1.(llogs) !! x0.(rd_replicator).(rep_term) = Some L →
  Z.of_nat (size A) ≤ replicas x.(rd_replicator) (zlen L).
Proof.
  intros HA HL. rewrite replicas_size.
  assert (A ⊆ {[leader_id x0]} ∪ rep_holders x.(rd_replicator) (zlen L)) as Hsub%subseteq_size.
  { intros a Ha. destruct (HA a Ha) as [->|(_ & y & Hy & Hall)]; apply elem_of_union; [left; by apply elem_of_singleton|right].
    apply elem_of_rep_holders. exists y. split; [exact Hy|by apply Hall]. }
  rewrite size_union_alt, size_singleton in Hsub.
  assert (size (rep_holders (rd_replicator x) (zlen L) ∖ {[leader_id x0]}) ≤ size (rep_holders (rd_replicator x) (zlen L)))%nat
    by (apply subseteq_size; set_solver).
  lia.
Qed.

(** What a leader may serve: all that was committed anywhere. *)
Definition serves s x : Prop := ∀ t q, committed quorum s t q →
  q `prefix_of` committed_log x.(rd_store).(raft) (leader_id x).

Lemma confirmed_serves p0 x0 L p x :
  F x0 p0 → F x p → both_step p0 p → grown (rep_of x0) (rep_of x) → in_lead (rep_of x) →
  p0.1.(llogs) !! x0.(rd_replicator).(rep_term) = Some L →
  zlen L ≤ x.(rd_replicator).(rep_commit_index) →
  (∀ t q, committed quorum p0.1 t q → q `prefix_of` L) → serves p0.1 x.
Proof.
  intros Hf0 Hf [Hs _] Hg Hlead HL Hlen Hall t q Hq. pose proof (F_rep _ _ Hf) as HR.
  destruct (in_lead_log _ _ _ _ HR Hlead) as (_ & _ & HL'). pose proof (in_lead_commit _ _ _ _ HR Hlead) as Hci.
  rewrite (gr_term _ _ Hg) in HL'. simpl in HL', Hci.
  destruct (steps_llog quorum true _ _ _ _ eq_refl (F_inv _ _ Hf0) Hs HL) as [k HL2]. simpl in HL2.
  rewrite HL2 in HL'. injection HL' as E. etrans; [by eapply Hall|]. unfold committed_log, leader_id. rewrite <-E.
  rewrite take_app_ge by (unfold zlen in *; lia). by eexists.
Qed.

Lemma refines_authority p x k :
  F x p → refinesF ok p (confirm_authority rf k) (λ x' _ _, serves p.1 x') x.
Proof.
  intros Hf. unfold confirm_authority. apply refines_check; [done|by intros _; apply Hval|intros _].
  eapply refines_bind; [apply refines_read_grown; [apply read_grows_leader|by apply refines_read_leader]|].
  intros p1 x1 _ Hs1%both_steps Hf1 (Hg1 & Hlead1 & _).
  eapply refines_bind; [by apply refines_term_commit|].
  intros ? ? _ _ _ (-> & -> & L & HL & Hlen & Hlast).
  apply refines_gets, refines_gets, refines_gets. set (n := leader_id x1).
  assert (cluster_ids (rd_store x1) = ids) as Hids by apply (R_ids _ _ _ _ _ _ _ (proj1 (F_rep _ _ Hf1))).
  rewrite Hids. eapply refines_bind.
  { apply refines_read_grown; [apply read_grows_confirm|].
    apply (refines_confirm_peers _ _ _ _ _ p1 x1 p1 x1); [done|done|by split|apply grown_refl|].
    intros a ->%elem_of_singleton. by left. }
  intros p2 x2 [A acked] Hs2%both_steps Hf2 [Hg2 HA]. simpl in HA.
  eapply refines_bind; [apply refines_read_grown; [apply read_grows_leader|by apply refines_read_leader]|].
  intros p3 x3 _ Hs3%both_steps Hf3 (Hg3 & Hlead3 & Hshared). cbv zeta. apply refines_gets. cbn [fst snd].
  destruct (Z.ltb_spec (Z.of_nat (size A)) (quorum_size ids)) as [|Hsize]; simpl.
  { eapply (refines_bind _ _ _ _ _ _ _ (λ _ _ _, False)); [|done].
    apply refines_read_record; [done|]. intros x' Hf' _ _. apply refines_raise; [done|by apply Hquo]. }
  eapply refines_returns; [reflexivity|]. apply refines_gets, refines_ret; [done|].
  assert (both_step p1 p3) as Hs by (destruct Hs2, Hs3; split; by etrans).
  assert (grown (rep_of x1) (rep_of x3)) as Hg by by eapply grown_trans.
  intros t q Hq. eapply (confirmed_serves p1 x1 L p3 x3); try done.
  - destruct (steps_llog quorum true _ _ _ _ eq_refl (F_inv _ _ Hf1) (proj1 Hs2) HL) as [y HL2].
    pose proof (acknowledged_replicas _ _ _ _ _ HA HL) as Hreps. pose proof (gr_term _ _ Hg2) as Et. simpl in Et.
    apply (Hshared (L ++ y)); simpl; rewrite ?Et; [done| | |lia].
    + unfold zlen in *. rewrite length_app. lia.
    + rewrite <-Hlast. unfold term_before. destruct (Z.eqb_spec (zlen L) 0); [done|].
      unfold znth, zlen in *. by rewrite lookup_app_l by lia.
  - destruct (acknowledged_quorum p1 x1 p2 x2 A) as [HQ HT]; [done..|].
    intros t' q' Hq'.
    eapply (committed_among quorum true _ _ _ A); [done|exact (F_inv _ _ Hf1)|exact Hq'|exact HQ|exact HT|exact HL].
  - eapply (steps_committed quorum true); [done|exact (F_inv _ _ Hf)|apply Hs1|exact Hq].
Qed.
End authority.
End readers.

Arguments both_step : clear implicits.

(** ** Reads of the whole system *)

Section reads.
Context (ids : list string) {may : KVCommand → Prop}.
Local Abbreviation quorum := (majority ids).
Local Abbreviation F := (F ids).
Local Abbreviation refinesF := (refines (both_step ids may) F (λ _, True)).
Implicit Types (y : SystemWorld) (p : Spec KVCommand * list Entry).

(** The replica of [n] has applied all that was committed in [s]. *)
Definition fresh s x p n : Prop := n ∈ ids ∧ ∀ t q, committed quorum s t q →
  q `prefix_of` take (Z.to_nat (node_applied x.(rd_store) n).(na_last_applied)) p.2.

Lemma serves_fresh s p x p' x' :
  F x p → F x' p' → serves ids s x → rep_of x' = rep_of x →
  (leader_id x ∈ ids → (node_applied x'.(rd_store) (leader_id x)).(na_last_applied)
     = Z.max (node_applied x.(rd_store) (leader_id x)).(na_last_applied)
         (vol x.(rd_store).(raft) (leader_id x)).(commit_index)) →
  fresh s x' p' (leader_id x).
Proof.
  intros Hf Hf' Hs Hrep Hlast. destruct (F_rep _ _ _ Hf) as (_ & Hok & _).
  assert (leader_id x ∈ ids) as Hn by apply Hok. split; [exact Hn|]. intros t q Hq.
  destruct (follows_node ids (alone x') p'.1 p'.2 _ Hf' Hn) as (a & Ha & Ha' & Hr & _ & _ & Hlog).
  simpl in Ha', Hr, Hlog. specialize (Hlast Hn). rewrite Ha' in Hlast |- *. rewrite <-Hlog.
  etrans; [by eapply Hs|]. assert (raft (rd_store x') = raft (rd_store x)) as -> by by injection Hrep.
  unfold committed_log. apply take_prefix_le. lia.
Qed.

Lemma refines_applying {A} rf k p x (m : ReadBarrierEvidence → string → RdM A) Q :
  F x p → (∀ e n p' x', F x' p' → fresh p.1 x' p' n → refinesF p' (m e n) Q x') →
  refinesF p (let! e := confirm_authority rf k in let! n := gets leader_id in on_kv (kv_apply_committed n) ;; m e n) Q x.
Proof.
  intros Hf Hm. eapply refines_bind; [by apply refines_authority|]. intros p1 x1 e _ Hf1 Hs1.
  apply refines_gets. eapply refines_bind; [by apply refines_kv_apply|].
  intros p2 x2 l _ Hf2 (_ & Hrep & Hlast). apply Hm; [done|]. by eapply serves_fresh.
Qed.

Lemma kv_get_returns n key x p :
  F x p → n ∈ ids → on_kv (kv_get n key) x = (x, inr ((image_of x.(rd_store) n).(kv_state) !! key)).
Proof.
  intros Hf Hn. destruct (fo_nodes _ _ _ _ Hf n Hn) as [a Ha]. simpl in Ha.
  destruct (app_node _ _ _ _ (fo_store _ _ _ _ Hf) Ha) as (_ & Hi & _). simpl in Hi.
  unfold on_kv, kv_get, kv_require_node, bind, gets. rewrite bool_decide_eq_true_2 by (by eexists). simpl. by destruct x.
Qed.

(** A read returns what the history gives, from a point on that has all that was
    committed when it began. *)
Lemma refines_get rf key k p x :
  F x p → refinesF p (linearizable_get rf key k) (λ x' p' v, ∃ j, 0 ≤ j ≤ zlen p'.2
    ∧ v = (image_at p'.2 j).(kv_state) !! key
    ∧ ∀ t q, committed quorum p.1 t q → q `prefix_of` take (Z.to_nat j) p'.2) x.
Proof.
  intros Hf. unfold linearizable_get. apply refines_check; [done..|intros _].
  apply (refines_applying rf k p x (λ e n, let! v := on_kv (kv_get n key) in read_record _ ;; ret v)); [done|].
  intros e n p1 x1 Hf1 [Hn Hfresh]. eapply refines_returns; [by eapply kv_get_returns|].
  apply refines_read_record; [done|]. intros x2 Hf2 _ E. apply refines_ret; [done|].
  destruct (follows_node ids (alone x1) p1.1 p1.2 n Hf1 Hn) as (a & _ & Ha & Hr & Him & _). simpl in Ha, Him.
  rewrite Ha in Hfresh. exists (na_last_applied a). rewrite Him. split_and!; [lia|lia|done|exact Hfresh].
Qed.

Lemma safely_read_barrier rf k p x : F x p → refinesF p (read_barrier rf k) (λ _ _ _, True) x.
Proof.
  intros Hf. unfold read_barrier. apply (refines_applying rf k p x (λ e n, read_record _ ;; ret e)); [done|].
  intros e n p1 x1 Hf1 _. apply refines_read_record; [done|]. intros x2 Hf2 _ _. by apply refines_ret.
Qed.

(** A reader of the system: its store, one of its replicators *)
Lemma follows_pick y s H i r :
  follows ids y s H → y.(replicators) !! i = Some r → F (mkReadWorld y.(store) r y.(reads)) (s, H).
Proof.
  intros [[HR Hr] Hc Hst Hb Ht Hk Hn] Hi. split; simpl; try done. split; [exact HR|].
  intros j q. simpl. intros [_ <-]%list_lookup_singleton_Some. by eapply Hr.
Qed.

Lemma follows_put y s H i r x s' H' :
  follows ids y s H → y.(replicators) !! i = Some r → rtc (spec_step quorum true may) s s' →
  later y.(store).(raft) x.(rd_store).(raft) → F x (s', H') →
  follows ids (mkSystem x.(rd_store) (<[i := x.(rd_replicator)]> y.(replicators)) x.(rd_trace)) s' H'.
Proof.
  intros Hf Hi Hs Hl [[HR Hr] Hc Hst Hb Ht Hk Hn]. split; simpl; try done. split; [exact HR|].
  intros j q. simpl. intros [(<- & <- & _)|[_ Hj]]%list_lookup_insert_Some; [by apply (Hr 0%nat)|].
  by apply (reps_ok_mono ids (driven_part y) s _ s' (fo_driven _ _ _ _ Hf) Hs Hl j).
Qed.
End reads.
