(* ===== verification/System.v ===== *)
(** * System: the replicated store over a driven Raft cluster

    The composition of the two halves of the library: every call of the Raft
    cluster, of its drivers and of the key/value store, restarts of the process
    over its disks included, keeps the store to the committed history. *)

From stdpp Require Import relations.
From S2P Require Import Prelude Simulator Quorum LogIndex KVCommands RaftSpec Refinement Raft RaftRefine RaftSafe.
From S2P Require Import RaftMono Replication ReplicationMono ReplicationRefine Driver DriverRefine DriverProperties.
From S2P Require Import AppWorld StateMachine KV Snapshot AppFacts AppInv AppRebuild AppCheckpoint AppSystem AppWhole LinearizableRead Follows ReadRefine.

Implicit Types (y : SystemWorld) (w : AppWorld) (n : string) (H p : list Entry) (s : Spec KVCommand).

(** Calls of Raft and of the store.  Compaction is left out: a driven cluster
    keeps its logs whole. *)
Inductive sys_op :=
  | SDrive (o : drive_op (C := KVCommand))
  | SApply n
  | SCreate n
  | SRebuild
  | SAssert
  | SRead (i rf : nat) (key : string) (max_attempts_per_peer : Z)
  | SReadBarrier (i rf : nat) (max_attempts_per_peer : Z).

Definition on_store {A} (m : AM A) : M SystemWorld A := λ y,
  let r := m y.(store) in (set_store r.1 y, r.2).

(** A reader over the replicator at position [i] *)
Definition of_reader {A} (i : nat) (m : RdM A) : M SystemWorld A := λ y,
  match y.(replicators) !! i with
  | None => (y, inl (Exn KeyError "replicator"))
  | Some r =>
      let x := m (mkReadWorld y.(store) r y.(reads)) in
      (mkSystem x.1.(rd_store) (<[i := x.1.(rd_replicator)]> y.(replicators)) x.1.(rd_trace), x.2)
  end.

Definition exec_sys (o : sys_op) : M SystemWorld unit :=
  match o with
  | SDrive o => λ y, let r := exec_drive o (driven_part y) in (with_driven r.1 y, r.2)
  | SApply n => on_store (exec_app (AppApply n))
  | SCreate n => on_store (exec_app (AppCreate n))
  | SRebuild => on_store (exec_app AppRebuild)
  | SAssert => on_store (exec_app AppAssert)
  | SRead i rf key k => of_reader i (linearizable_get rf key k ;; ret tt)
  | SReadBarrier i rf k => of_reader i (read_barrier rf k ;; ret tt)
  end.

Definition sys_ok y (o : sys_op) : Prop :=
  match o with SDrive o => drive_ok (driven_part y) o | _ => True end.

(** One call, raised or returned, or a restart of the whole process over the
    disks; where the constructors of the store raise there is no store to go on
    with. *)
Inductive sys_next ids ts y : SystemWorld → Prop :=
  | sys_call o y' r :
      sys_ok y o → exec_sys o y = (y', r) → (o = SRebuild → r = inr tt) → sys_next ids ts y y'
  | sys_reboot plan r w' :
      init_cluster ids ts (boot_world plan y.(store).(raft).(sim).(persistent_state)) = (r, inr tt) →
      exec_app AppRebuild (set_raft r y.(store)) = (w', inr tt) →
      sys_next ids ts y (mkSystem w' [] []).

Definition no_store (r : RaftWorld) : AppWorld := mkAppWorld r ∅ (mkApplier ∅ ∅) ∅ [].

Inductive sys_reachable ids ts : SystemWorld → Prop :=
  | sys_init plan r w :
      init_cluster ids ts (boot_world plan ∅) = (r, inr tt) →
      exec_app AppRebuild (no_store r) = (w, inr tt) →
      sys_reachable ids ts (mkSystem w [] [])
  | sys_step y y' : sys_reachable ids ts y → sys_next ids ts y y' → sys_reachable ids ts y'.

(** ** Every step *)

Section steps.
Context (ids : list string) (ts : option (gmap string Z)) {may : KVCommand → Prop}.
Local Abbreviation quorum := (majority ids).
Local Abbreviation steps := (rtc (spec_step quorum true may)).
Local Abbreviation follows := (follows ids).

Lemma follows_reader {A} y s H i (m : RdM A) Q :
  follows y s H → read_grows m →
  (∀ x, F ids x (s, H) → refines (both_step ids may) (F ids) (λ _, True) (s, H) m (Q x) x) →
  ∃ s' H', steps s s' ∧ H `prefix_of` H' ∧ follows (of_reader i m y).1 s' H'
    ∧ ∀ a, (of_reader i m y).2 = inr a → ∃ r x', y.(replicators) !! i = Some r ∧
        F ids (mkReadWorld y.(store) r y.(reads)) (s, H)
        ∧ m (mkReadWorld y.(store) r y.(reads)) = (x', inr a)
        ∧ (of_reader i m y).1.(store) = x'.(rd_store)
        ∧ Q (mkReadWorld y.(store) r y.(reads)) x' (s', H') a.
Proof.
  intros Hf Hg Hm. unfold of_reader. destruct (replicators y !! i) as [r|] eqn:Hi; [|by exists s, H].
  set (x := mkReadWorld _ _ _). pose proof (follows_pick _ _ _ _ _ _ Hf Hi : F ids x (s, H)) as HF.
  specialize (Hm x HF). pose proof (gr_later _ _ (Hg x)) as Hl. unfold refines, wp in Hm.
  assert (∀ x' (p' : Spec KVCommand * list Entry), rtc (both_step ids may) (s, H) p' → F ids x' p' → later (raft (store y)) (raft (rd_store x')) →
    steps s p'.1 ∧ H `prefix_of` p'.2
    ∧ follows (mkSystem (rd_store x') (<[i := rd_replicator x']> (replicators y)) (rd_trace x')) p'.1 p'.2) as Hput.
  { intros x' p' [Hs Hp]%both_steps HF' Hl'. split_and!; [done..|]. eapply follows_put; [done..|].
    by destruct p'. }
  destruct (m x) as [x' [e|a]] eqn:E; simpl in *.
  - destruct Hm as [(p' & Hs & HF') _]. destruct (Hput _ _ Hs HF' Hl) as (? & ? & ?). by exists p'.1, p'.2.
  - destruct Hm as (p' & Hs & HF' & HQ). destruct (Hput _ _ Hs HF' Hl) as (? & ? & ?). exists p'.1, p'.2.
    split_and!; [done..|]. intros b [= <-]. exists r, x'. split_and!; try done. by destruct p'.
Qed.

(** The commands callers append *)
Definition sys_may (o : sys_op) : Prop := match o with SDrive o => drive_may (may := may) o | _ => True end.

Lemma follows_call y o y' r s H :
  NoDup ids → follows y s H → sys_ok y o → sys_may o → exec_sys o y = (y', r) → (o = SRebuild → r = inr tt) →
  ∃ s' H', steps s s' ∧ H `prefix_of` H' ∧ follows y' s' H'.
Proof.
  intros Hnd Hf Hok Hmay E Hgo.
  destruct o as [o|n|n| | |i rf key k|i rf k]; simpl in Hok, Hmay; unfold exec_sys, on_store in E.
  - pose proof (safely_exec_drive ids o (driven_part y) s (fo_driven _ _ _ _ Hf) Hok Hmay) as Hwp.
    unfold safely, refines, wp in Hwp. destruct (exec_drive o _) as [d' r'] eqn:Ed. injection E as <- <-.
    assert (∃ s', steps s s' ∧ D ids d' s') as (s' & Hs & HD').
    { destruct r' as [e|[]]; [destruct Hwp as [(s' & ? & ?) _]|destruct Hwp as (s' & ? & ? & _)]; by exists s'. }
    exists s', H. split_and!; [done..|]. by eapply follows_raft.
  - cbn [exec_app] in E. unfold bind, ret in E. destruct (kv_apply_committed n _) as [w1 r1] eqn:Ea.
    destruct (follows_apply _ _ _ _ _ _ _ Hf Ea) as (H' & Hp & Hf' & _).
    exists s, H'. destruct r1; injection E as <- <-; by split_and!.
  - cbn [exec_app] in E. unfold bind, ret in E. destruct (create n _) as [w1 r1] eqn:Ea.
    pose proof (follows_create _ _ _ _ _ _ _ Hf Ea). exists s, H. destruct r1; injection E as <- <-; by split_and!.
  - destruct (exec_app AppRebuild _) as [w1 r1] eqn:Ea. injection E as <- <-. rewrite Hgo in Ea by done.
    exists s, H. split_and!; [done..|]. by eapply follows_rebuild.
  - pose proof (stays_assert y.(store)) as Hst. destruct (exec_app AppAssert _) as [w1 r1]. simpl in *.
    injection E as <- <-. subst w1. exists s, H. split_and!; [done..|]. by destruct Hf.
  - destruct (follows_reader y s H i (linearizable_get rf key k ;; ret tt) (λ _ _ _ _, True) Hf) as (s' & H' & ? & ? & Hf' & _).
    + apply read_grows_unit, read_grows_get.
    + intros x HF. apply safely_unit. eapply refines_weaken; [by apply refines_get|done].
    + rewrite E in Hf'. by exists s', H'.
  - destruct (follows_reader y s H i (read_barrier rf k ;; ret tt) (λ _ _ _ _, True) Hf) as (s' & H' & ? & ? & Hf' & _).
    + apply read_grows_unit, read_grows_barrier.
    + intros x HF. apply safely_unit. by apply safely_read_barrier.
    + rewrite E in Hf'. by exists s', H'.
Qed.

(** A restart over the disks *)
Lemma follows_reboot plan y r w' s H :
  ids ≠ [] → NoDup ids → timeouts_ok ids ts → follows y s H →
  init_cluster ids ts (boot_world plan y.(store).(raft).(sim).(persistent_state)) = (r, inr tt) →
  exec_app AppRebuild (set_raft r y.(store)) = (w', inr tt) → follows (mkSystem w' [] []) s H.
Proof.
  intros Hne Hnd Hts Hf Hi E.
  destruct (follows_boot (may := any_command) ids ts plan _ _ _ Hne Hnd Hts Hf) as (r' & Hi' & Hf'). rewrite Hi in Hi'. injection Hi' as <-.
  apply (follows_reads ids (set_store w' (with_driven (mkDriveWorld r []) y))); [|done..].
  by apply (follows_rebuild ids (with_driven (mkDriveWorld r []) y)).
Qed.

(** The first start *)
Lemma follows_start plan r w :
  init_cluster ids ts (boot_world plan ∅) = (r, inr tt) → exec_app AppRebuild (no_store r) = (w, inr tt) →
  ids ≠ [] ∧ NoDup ids ∧ timeouts_ok ids ts ∧ follows (mkSystem w [] []) spec0 [].
Proof.
  intros Hi E. destruct (init_cluster_checks _ _ _ _ Hi) as (Hne & Hnd & Hts). split_and!; [done..|].
  assert (D ids (mkDriveWorld r []) spec0) as HD.
  { pose proof (raft_wp_init_cluster (C := KVCommand) true ids ts plan ∅ _ Hne Hnd Hts (raft_R_empty _ _ _ plan)) as Hwp.
    unfold wp in Hwp. rewrite Hi in Hwp. split; [apply Hwp|done]. }
  assert (cluster_ids (no_store r) = ids) as Hids by apply (driven_ids _ _ _ HD).
  assert (NoDup (cluster_ids (no_store r))) as Hnd' by (by rewrite Hids).
  assert (app_reachable [] w) as Hw by (by apply (app_reach_init [] (no_store r))).
  edestruct (app_follows_rebuild [] (no_store r) w) as (_ & Hd & Hn'); [|done..|].
  { intros n. unfold disk_of. simpl. rewrite lookup_empty. simpl.
    split; split; simpl; done || lia || apply prefix_nil. }
  rewrite Hids in Hn'. simpl in Hd. split; simpl; try done.
  - unfold driven_part. simpl. pose proof (spares_exec_app AppRebuild eq_refl (no_store r)) as Hq.
    rewrite E in Hq. simpl in Hq. by rewrite Hq.
  - exists 0. by left.
  - intros n. unfold disk_of. by rewrite Hd, lookup_empty.
  - intros n. unfold disk_of. by rewrite Hd, lookup_empty.
  - intros n. unfold disk_of. rewrite Hd, lookup_empty. simpl. exists (term_of (spec0 (C := KVCommand)) n).
    split_and!; [by left|done|apply prefix_nil].
  - intros n Hin. destruct (Hn' n Hin) as [-> _]. by eexists.
Qed.
End steps.

(** ** Any commands *)

Section reachable.
Context (ids : list string) (ts : option (gmap string Z)).
Local Abbreviation steps := (rtc (spec_step (majority ids) true any_command)).
Local Abbreviation follows := (follows ids).

Lemma follows_next y y' s H :
  ids ≠ [] → NoDup ids → timeouts_ok ids ts → follows y s H → sys_next ids ts y y' →
  ∃ s' H', steps s s' ∧ H `prefix_of` H' ∧ follows y' s' H'.
Proof.
  intros Hne Hnd Hts Hf [o y1 r Hok E Hgo|plan r w' Hi E].
  - assert (sys_may (may := any_command) o) as Hmay by (destruct o; [apply drive_may_any|done..]).
    by eapply follows_call.
  - exists s, H. split_and!; [done..|]. by eapply follows_reboot.
Qed.

Lemma follows_nexts y y' s H :
  ids ≠ [] → NoDup ids → timeouts_ok ids ts → follows y s H → rtc (sys_next ids ts) y y' →
  ∃ s' H', steps s s' ∧ H `prefix_of` H' ∧ follows y' s' H'.
Proof.
  intros Hne Hnd Hts Hf Hn. revert s H Hf. induction Hn as [y|y y1 y' Hn _ IH]; intros s H Hf; [by exists s, H|].
  destruct (follows_next _ _ _ _ Hne Hnd Hts Hf Hn) as (s1 & H1 & Hs1 & Hp1 & Hf1).
  destruct (IH _ _ Hf1) as (s2 & H2 & Hs2 & Hp2 & Hf2).
  exists s2, H2. split_and!; [by etrans..|done].
Qed.

Lemma sys_reachable_follows y :
  sys_reachable ids ts y →
  ids ≠ [] ∧ NoDup ids ∧ timeouts_ok ids ts ∧ ∃ s H, follows y s H.
Proof.
  induction 1 as [plan r w Hi E|y y' _ IH Hn].
  - destruct (follows_start ids ts _ _ _ Hi E) as (? & ? & ? & ?). split_and!; [done..|]. by eexists _, _.
  - destruct IH as (Hne & Hnd & Hts & s & H & Hf). split_and!; [done..|].
    destruct (follows_next _ _ _ _ Hne Hnd Hts Hf Hn) as (s' & H' & _ & _ & Hf'). by exists s', H'.
Qed.
End reachable.
