(* ===== verification/SystemProperties.v ===== *)
(** * SystemProperties: what the replicated store promises on a real cluster

    End to end: the images of all replicas, at all times, are replays of one
    history that a majority holds; applying committed entries is reading one's
    own log; the program's own safety checks never fail; a restart of the whole
    process gives every replica what it had. *)

From stdpp Require Import relations.
From S2P Require Import Prelude Simulator Quorum LogIndex KVCommands Refinement RaftSpec Raft Replication RaftRefine RaftSafe ReplicationRefine Driver DriverRefine RaftProperties DriverProperties DriverWitnesses AppWorld StateMachine KV Snapshot AppFacts AppInv AppRebuild AppCheckpoint AppSystem AppProperties AppWhole LinearizableRead Follows ReadRefine System.

Section properties.
Context (ids : list string) (ts : option (gmap string Z)).
Implicit Types (y : SystemWorld) (n : string) (H : list Entry).

Definition replays y H : Prop := ∀ n, n ∈ ids →
  let a := node_applied y.(store) n in
  0 ≤ a.(na_last_applied) ≤ zlen H ∧ image_of y.(store) n = image_at H a.(na_last_applied)
  ∧ (ap_entry <$> a.(na_applied)) = take (Z.to_nat a.(na_last_applied)) H.

Lemma follows_replays y s H : follows ids y s H → replays y H.
Proof. intros Hf n Hn. destruct (follows_node _ _ _ _ _ Hf Hn) as (a & _ & Ha & ? & ? & ? & _). by rewrite Ha. Qed.

(** C1: one history.  Whatever is called, lost, duplicated, crashed and
    restarted, there is one history that only grows: at any time every replica
    has applied a prefix of it and nothing else, its image is the replay of that
    prefix, and the whole history is in the durable logs of a majority. *)
Theorem sys_one_history y y' :
  sys_reachable ids ts y → rtc (sys_next ids ts) y y' →
  ∃ H H', H `prefix_of` H' ∧ replays y H ∧ replays y' H'
    ∧ ∃ Q, majority ids Q ∧ ∀ v, v ∈ Q → H' `prefix_of` (dur y'.(store).(raft) v).(log).
Proof.
  intros (Hne & Hnd & Hts & s & H & Hf)%sys_reachable_follows Hn.
  destruct (follows_nexts _ _ _ _ _ _ Hne Hnd Hts Hf Hn) as (s' & H' & _ & Hp & Hf').
  exists H, H'. split_and!; [done|by eapply follows_replays..|].
  destruct (fo_history _ _ _ _ Hf') as [t Hc]. exact (committed_majority _ _ _ _ _ Hne Hnd (fo_driven _ _ _ _ Hf') Hc).
Qed.

Lemma max_prefix {A} (l k : list A) i j :
  0 ≤ i → 0 ≤ j → take (Z.to_nat i) l = take (Z.to_nat i) k → take (Z.to_nat j) l = take (Z.to_nat j) k →
  take (Z.to_nat (Z.max i j)) l = take (Z.to_nat (Z.max i j)) k.
Proof. intros ? ? Hi Hj. destruct (Z.max_spec i j) as [[_ ->]|[_ ->]]; done. Qed.

(** C18: [apply_committed] of a replica is the replay of its own committed log,
    all or nothing: with no unsupported command and no reused request identity
    among the pending entries it applies all of them and ends in the replay of
    its log up to the commit index; otherwise it changes nothing and raises
    [InvalidKVCommand] or [ClientRequestConflict], whichever the batch calls for.
    It reports no safety violation and finds no entry missing. *)
Theorem sys_apply_committed y n :
  sys_reachable ids ts y → n ∈ ids →
  let last := (node_applied y.(store) n).(na_last_applied) in
  let commit := (vol y.(store).(raft) n).(commit_index) in
  let log := (dur y.(store).(raft) n).(log) in
  image_of y.(store) n = replay kv_image0 (commands_of (take (Z.to_nat last) log))
  ∧ if acceptable (image_of y.(store) n) (drop (Z.to_nat last) (take (Z.to_nat commit) log)) then
      ∃ y', exec_sys (SApply n) y = (y', inr tt)
        ∧ (node_applied y'.(store) n).(na_last_applied) = Z.max last commit
        ∧ image_of y'.(store) n = replay kv_image0 (commands_of (take (Z.to_nat (Z.max last commit)) log))
        ∧ ∀ m, m ≠ n → image_of y'.(store) m = image_of y.(store) m
    else exec_sys (SApply n) y = (y, inl (refusal (drop (Z.to_nat last) (take (Z.to_nat commit) log)))).
Proof.
  intros (_ & _ & _ & s & H0 & Hf0)%sys_reachable_follows Hn.
  destruct (follows_extend _ _ _ _ n Hf0) as (H & _ & Hf & Hcl).
  destruct (follows_node _ _ _ _ _ Hf Hn) as (a & Ha & -> & Hr & Him & _ & Htake). cbv zeta.
  set (last := na_last_applied a) in *. set (commit := commit_index (vol y.(store).(raft) n)).
  set (lg := log (dur y.(store).(raft) n)) in *.
  pose proof (committed_log_length _ _ _ _ n Hf) as Hclen. fold commit in Hclen.
  assert (0 ≤ commit) as Hc0 by (rewrite <-Hclen; apply zlen_nonneg).
  assert (take (Z.to_nat commit) lg = take (Z.to_nat commit) H) as Hcommit.
  { pose proof (prefix_take _ _ Hcl) as E. unfold zlen in Hclen.
    replace (length (committed_log (raft (store y)) n)) with (Z.to_nat commit) in E by lia. exact E. }
  split; [rewrite Him; unfold image_at; by rewrite Htake|].
  assert (to_apply H y.(store) n a = drop (Z.to_nat last) (take (Z.to_nat commit) lg)) as Hes.
  { unfold to_apply. fold commit last. rewrite Hcommit, skipn_firstn_comm. f_equal. lia. }
  pose proof (kv_apply_outcome H y.(store) n a (fo_store _ _ _ _ Hf) Ha (follows_committed_in _ _ _ _ _ Hf Hcl)) as Ho.
  cbv zeta in Ho. rewrite Hes in Ho. unfold exec_sys, on_store. cbn [exec_app].
  specialize (Ho (follows_ready _ _ _ _ _ _ Hf Hn Ha)). destruct (acceptable _ _).
  - destruct Ho as (w' & E & Him' & Hl' & Hother). exists (set_store w' y).
    rewrite (bind_returns _ _ _ _ _ E). split; [done|]. simpl. fold commit last in Hl'. split; [done|].
    split; [|intros m Hm; by apply Hother].
    rewrite Him', Him, (max_prefix lg H last commit) by (done || lia). unfold image_at. rewrite <-replay_app, <-commands_of_app.
    do 2 f_equal. rewrite Hcommit. destruct (Z.max_spec last commit) as [[Hlt ->]|[Hle ->]].
    + rewrite <-(take_drop (Z.to_nat last) (take (Z.to_nat commit) H)) at 2.
      f_equal. rewrite take_take. f_equal. lia.
    + rewrite drop_ge by (rewrite length_take; lia). apply app_nil_r.
  - unfold bind. rewrite Ho. by destruct y.
Qed.

(** The program's own checks, [assert_state_machine_safety] and
    [assert_replica_consistency], accept every reachable system and change
    nothing. *)
Theorem sys_checks_pass y : sys_reachable ids ts y → exec_sys SAssert y = (y, inr tt).
Proof.
  intros (_ & _ & _ & s & H & Hf)%sys_reachable_follows.
  pose proof (app_reachable_follows _ _ (fo_store _ _ _ _ Hf)) as Hap. pose proof (follows_ids _ _ _ _ Hf) as Hids.
  unfold exec_sys, on_store. cbn [exec_app].
  rewrite (bind_returns _ _ _ _ _ (assert_safety_whole H _ Hap ltac:(intros n Hn; rewrite Hids in Hn;
    split; [by eapply follows_whole|by apply (fo_nodes _ _ _ _ Hf)]))).
  rewrite (check_replicas_pass H) by (apply Hf || (intros n Hn; rewrite Hids in Hn; by apply (fo_nodes _ _ _ _ Hf))).
  by destruct y.
Qed.

(** C20: restarting the process over its disks: the cluster boots, and the store
    is rebuilt with every replica's history, applied index and image as they
    were, unless a history reuses a client request identity for another
    operation; then, and only then, its constructor raises. *)
Theorem sys_restart plan y :
  sys_reachable ids ts y →
  ∃ r, init_cluster ids ts (boot_world plan y.(store).(raft).(sim).(persistent_state)) = (r, inr tt)
    ∧ if forallb (λ n, history_conflict_free (disk_of y.(store) n)) ids then
        ∃ w', exec_app AppRebuild (set_raft r y.(store)) = (w', inr tt)
          ∧ sys_reachable ids ts (mkSystem w' [] [])
          ∧ ∀ n, n ∈ ids → nodes w' !! n = nodes y.(store) !! n ∧ image_of w' n = image_of y.(store) n
      else ∃ w' e, exec_app AppRebuild (set_raft r y.(store)) = (w', inl e).
Proof.
  intros Hreach. destruct (sys_reachable_follows _ _ _ Hreach) as (Hne & Hnd & Hts & s & H & Hf).
  destruct (follows_boot (may := any_command) ids ts plan y s H Hne Hnd Hts Hf) as (r & Hi & Hf'). exists r. split; [done|].
  pose proof (app_reachable_follows _ _ (fo_store _ _ _ _ Hf')) as Hap.
  pose proof (follows_ids _ _ _ _ Hf') as Hids. simpl in Hap, Hids.
  assert (NoDup (cluster_ids (set_raft r y.(store)))) as Hnd' by (by rewrite Hids).
  pose proof (rebuild_whole H (set_raft r y.(store)) (disks_of_follows _ _ Hap) Hnd'
    ltac:(intros n Hn; rewrite Hids in Hn; by apply (follows_whole _ _ _ _ n Hf'))) as Hre.
  rewrite Hids in Hre. change (disk_of (set_raft r (store y))) with (disk_of (store y)) in Hre.
  destruct (forallb _ ids); [|done]. destruct Hre as [w' E]. exists w'. split; [done|]. split.
  { eapply sys_step; [exact Hreach|]. by eapply sys_reboot. }
  destruct (app_follows_rebuild _ _ _ (disks_of_follows _ _ Hap) Hnd' E) as (_ & _ & Hin). rewrite Hids in Hin.
  intros n Hn. destruct (Hin n Hn) as (Hl & Hk & _).
  change (disk_of (set_raft r (store y))) with (disk_of (store y)) in Hl, Hk. destruct (fo_nodes _ _ _ _ Hf n Hn) as [a Ha].
  destruct (app_node _ _ _ _ (fo_store _ _ _ _ Hf) Ha) as (Hap0 & Hi0 & _ & _ & _ & Hno).
  rewrite Ha, Hl, (image_of_some _ _ _ Hk). split; [by rewrite <-(loaded_node _ _ _ _ Hno)|].
  by destruct (ai_kv _ (af_inv _ _ Hap0) _ _ Hi0).
Qed.
End properties.

(** ** The whole system on three nodes

    A client request is replicated, applied and retried, its leader crashes, and
    another leader carries on; the process is restarted over its disks. *)

Definition sys_ops (l : list sys_op) (y : SystemWorld) : SystemWorld := foldl (λ y o, (exec_sys o y).1) y l.

Definition plain_sys (o : sys_op) : Prop :=
  match o with SDrive o => plain_op o | SRebuild => False | _ => True end.

Lemma sys_plain_next ids ts o y : plain_sys o → sys_next ids ts y (exec_sys o y).1.
Proof.
  intros Ho. eapply (sys_call _ _ _ o); [|apply surjective_pairing|by intros ->].
  destruct o; simpl in *; try done. by apply plain_drive_ok.
Qed.

Lemma sys_ops_next ids ts l y : Forall plain_sys l → rtc (sys_next ids ts) y (sys_ops l y).
Proof.
  revert y. induction l as [|o l IH]; intros y Hl; [reflexivity|]. apply Forall_cons in Hl as [Ho Hl].
  eapply rtc_l; [by apply (sys_plain_next _ _ o)|by apply IH].
Qed.

Lemma sys_ops_reachable ids ts l y : sys_reachable ids ts y → Forall plain_sys l → sys_reachable ids ts (sys_ops l y).
Proof.
  revert y. induction l as [|o l IH]; intros y Hy Hl; [exact Hy|]. apply Forall_cons in Hl as [Ho Hl].
  apply IH; [|exact Hl]. eapply sys_step; [exact Hy|]. by apply sys_plain_next.
Qed.

Definition sys_ids : list string := ["n1"; "n2"; "n3"].
Definition sys_raft : RaftWorld := (init_cluster sys_ids None (boot_world [] ∅)).1.
Definition sys_start : SystemWorld := mkSystem (exec_app AppRebuild (no_store sys_raft)).1 [] [].

Lemma sys_start_reachable : sys_reachable sys_ids None sys_start.
Proof.
  apply (sys_init _ _ [] sys_raft).
  - apply outcome_of with (q := init_cluster sys_ids None (boot_world [] ∅)); [reflexivity|vm_compute; reflexivity].
  - apply outcome_of with (q := exec_app AppRebuild (no_store sys_raft)); [reflexivity|vm_compute; reflexivity].
Qed.

Definition put_a : KVCommand := CmdRequest (mkClientRequest "c" 1 (Put "a" "1")).

(** [n1] leads term 1 and commits the request and a barrier with [n2]. *)
Definition sys1 : SystemWorld := sys_ops
  [SDrive (DCall (OpStartElection "n1")); SDrive (DCall (OpRun 50 None));
   SDrive (DBarrier "n1" put_a); SDrive (DBarrier "n1" CmdBarrier); SDrive (DNew "n1");
   SDrive (DReplicate 0 50 0 "n2" (Some 3))] sys_start.

(** It applies them and crashes; [n2] leads term 2, and the client's retry and
    another entry are committed with [n3], which applies everything. *)
Definition sys2 : SystemWorld := sys_ops
  [SApply "n1"; SDrive (DCall (OpCrash "n1")); SDrive (DCall (OpStartElection "n2")); SDrive (DCall (OpRun 50 None));
   SDrive (DBarrier "n2" put_a); SDrive (DBarrier "n2" (CmdOperation (Put "b" "2"))); SDrive (DNew "n2");
   SDrive (DRecover 1 50 10 "n3" (Some 8)); SApply "n3"; SAssert] sys1.

Lemma sys1_reachable : sys_reachable sys_ids None sys1.
Proof. apply sys_ops_reachable; [exact sys_start_reachable|repeat constructor]. Qed.

Lemma sys1_sys2 : rtc (sys_next sys_ids None) sys1 sys2.
Proof. apply sys_ops_next. repeat constructor. Qed.

Lemma sys2_reachable : sys_reachable sys_ids None sys2.
Proof. apply sys_ops_reachable; [exact sys1_reachable|repeat constructor]. Qed.

Lemma sys2_states :
  map_to_list (kv_state (image_of sys2.(store) "n1")) = [("a", "1")]
  ∧ map_to_list (kv_state (image_of sys2.(store) "n3")) = [("a", "1"); ("b", "2")].
Proof. split; vm_compute; reflexivity. Qed.

Lemma sys_one_history_witness :
  (map_to_list (kv_state (image_of sys2.(store) "n1")) = [("a", "1")]
   ∧ map_to_list (kv_state (image_of sys2.(store) "n3")) = [("a", "1"); ("b", "2")])
  ∧ ∃ H H', H `prefix_of` H' ∧ replays sys_ids sys1 H ∧ replays sys_ids sys2 H'
    ∧ ∃ Q, majority sys_ids Q ∧ ∀ v, v ∈ Q → H' `prefix_of` (dur sys2.(store).(raft) v).(log).
Proof. split; [exact sys2_states|]. exact (sys_one_history _ _ _ _ sys1_reachable sys1_sys2). Defined.

Lemma sys1_pending :
  acceptable (image_of sys1.(store) "n1")
    (drop (Z.to_nat (node_applied sys1.(store) "n1").(na_last_applied))
      (take (Z.to_nat (vol sys1.(store).(raft) "n1").(commit_index)) (dur sys1.(store).(raft) "n1").(log))) = true.
Proof. vm_compute. reflexivity. Qed.

Lemma sys_apply_committed_witness :
  ∃ y', exec_sys (SApply "n1") sys1 = (y', inr tt)
    ∧ (node_applied y'.(store) "n1").(na_last_applied)
      = Z.max (node_applied sys1.(store) "n1").(na_last_applied) (vol sys1.(store).(raft) "n1").(commit_index).
Proof.
  assert ("n1" ∈ sys_ids) as Hin by (left).
  destruct (sys_apply_committed _ _ _ "n1" sys1_reachable Hin) as [_ Hw].
  rewrite sys1_pending in Hw. destruct Hw as (y' & E & Hl & _). exists y'. split; [exact E|exact Hl].
Defined.

Lemma sys_checks_pass_witness : exec_sys SAssert sys2 = (sys2, inr tt).
Proof. exact (sys_checks_pass _ _ _ sys2_reachable). Defined.

Lemma sys2_conflict_free : forallb (λ n, history_conflict_free (disk_of sys2.(store) n)) sys_ids = true.
Proof. vm_compute. reflexivity. Qed.

Lemma sys_restart_witness :
  ∃ r w', init_cluster sys_ids None (boot_world [] sys2.(store).(raft).(sim).(persistent_state)) = (r, inr tt)
    ∧ exec_app AppRebuild (set_raft r sys2.(store)) = (w', inr tt)
    ∧ map_to_list (kv_state (image_of w' "n3")) = [("a", "1"); ("b", "2")].
Proof.
  destruct (sys_restart _ _ [] _ sys2_reachable) as (r & Hr & Hw). rewrite sys2_conflict_free in Hw.
  destruct Hw as (w' & E & _ & Hall). exists r, w'. split; [exact Hr|]. split; [exact E|].
  assert ("n3" ∈ sys_ids) as Hin by (right; right; left).
  destruct (Hall "n3" Hin) as [_ ->]. exact (proj2 sys2_states).
Defined.

(** ** Reads served by a leader are up to date

    What [linearizable_read.py] is for, on the whole system: a read that returns
    saw everything any node had committed, and any replica had applied, before
    it began. *)

Section properties.
Context (ids : list string) (ts : option (gmap string Z)).
Implicit Types (y : SystemWorld) (n : string) (H : list Entry).

(** C15: no stale reads: a linearizable read returns the value of its key after some
    point of the one history of the system; by that point the history has all
    that any replica had applied ([H0]), and all that any node took for
    committed, when the read began or at any earlier time, whatever was lost,
    delayed, crashed and restarted since. *)
Theorem linearizable_read_fresh y0 y i rf key k v y' :
  sys_reachable ids ts y0 → rtc (sys_next ids ts) y0 y →
  of_reader i (linearizable_get rf key k) y = (y', inr v) →
  ∃ H0 H j, replays ids y0 H0 ∧ replays ids y' H ∧ 0 ≤ j ≤ zlen H
    ∧ v = (image_at H j).(kv_state) !! key
    ∧ H0 `prefix_of` take (Z.to_nat j) H
    ∧ ∀ n, committed_log y0.(store).(raft) n `prefix_of` take (Z.to_nat j) H.
Proof.
  intros (Hne & Hnd & Hts & s0 & H0 & Hf0)%sys_reachable_follows Hn E.
  destruct (follows_nexts _ _ _ _ _ _ Hne Hnd Hts Hf0 Hn) as (s & H1 & Hs & _ & Hf).
  destruct (follows_reader (may := any_command) ids y s H1 i (linearizable_get rf key k) (λ x x' p' v, ∃ j, 0 ≤ j ≤ zlen p'.2
    ∧ v = (image_at p'.2 j).(kv_state) !! key
    ∧ ∀ t q, committed (majority ids) s t q → q `prefix_of` take (Z.to_nat j) p'.2) Hf (read_grows_get rf key k))
    as (s' & H & _ & _ & Hf' & Hret); [intros x HF; by apply refines_get|].
  rewrite E in Hf', Hret. destruct (Hret v eq_refl) as (r & x' & _ & _ & _ & _ & j & Hj & Hv & Hall).
  simpl in Hj, Hv, Hall. pose proof (driven_inv ids _ _ (fo_driven _ _ _ _ Hf0)) as Hi0.
  exists H0, H, j. split_and!; [by eapply follows_replays|by eapply follows_replays|lia|lia|done| |].
  - destruct (fo_history _ _ _ _ Hf0) as [t Hc]. eapply Hall. by eapply (steps_committed (majority ids) true).
  - intros n. eapply Hall. eapply (steps_committed (majority ids) true); [done|exact Hi0|exact Hs|].
    exact (committed_log_committed ids (driven_part y0) s0 n (fo_driven _ _ _ _ Hf0)).
Qed.

(** The exceptions the confirmation of a leader's authority may raise. *)
Definition authority_errors : list exn_class :=
  [ValueError; LinearizableReadError; CurrentTermCommitRequired; ReadQuorumUnavailable; ReplicationError; OutOfFuel].

(** Confirming authority fails only the way the module says: a bad argument, no
    live leader of the replicator's term, no entry of that term committed, no
    quorum, leadership lost on the way, or a run out of the fuel given; a peer
    that does not answer is passed over, and no call fails inside. *)
Theorem read_authority_errors y i r rf k y' e :
  sys_reachable ids ts y → y.(replicators) !! i = Some r →
  of_reader i (confirm_authority rf k) y = (y', inl e) → e.(exn_cls) ∈ authority_errors.
Proof.
  intros (_ & _ & _ & s & H & Hf)%sys_reachable_follows Hi E.
  pose proof (follows_pick ids _ _ _ _ _ Hf Hi) as HF.
  set (ok := λ e, exn_cls e ∈ authority_errors).
  assert (∀ c, bool_decide (c ∈ authority_errors) = true → allows ok c) as Hok
    by (intros c Hc%bool_decide_eq_true e' He; unfold ok; by rewrite He).
  pose proof (refines_authority (may := any_command) ids ok rf (Hok LinearizableReadError eq_refl) (Hok CurrentTermCommitRequired eq_refl)
    (Hok ReadQuorumUnavailable eq_refl) (Hok ReplicationError eq_refl) (Hok ValueError eq_refl)
    (Hok OutOfFuel eq_refl) _ _ k HF) as Hwp.
  unfold refines, wp in Hwp. unfold of_reader in E. rewrite Hi in E.
  destruct (confirm_authority rf k _) as [x [e'|]]; [|done]. injection E as _ <-. apply Hwp.
Qed.
End properties.

(** [n1] reads what it committed in [sys1]. *)
Lemma linearizable_read_fresh_witness :
  ∃ y', of_reader 0 (linearizable_get 50 "a" 1) sys1 = (y', inr (Some "1"))
    ∧ ∃ H0 H j, replays sys_ids sys1 H0 ∧ replays sys_ids y' H ∧ 0 ≤ j ≤ zlen H
      ∧ Some "1" = (image_at H j).(kv_state) !! "a"
      ∧ H0 `prefix_of` take (Z.to_nat j) H
      ∧ ∀ n, committed_log sys1.(store).(raft) n `prefix_of` take (Z.to_nat j) H.
Proof.
  exists (of_reader 0 (linearizable_get 50 "a" 1) sys1).1.
  assert (of_reader 0 (linearizable_get 50 "a" 1) sys1
    = ((of_reader 0 (linearizable_get 50 "a" 1) sys1).1, inr (Some "1"))) as E.
  { apply outcome_of with (q := of_reader 0 (linearizable_get 50 "a" 1) sys1); [reflexivity|vm_compute; reflexivity]. }
  split; [exact E|]. exact (linearizable_read_fresh _ _ _ _ _ _ _ _ _ _ sys1_reachable (rtc_refl _ _) E).
Defined.

(** The only peer that could answer is cut off. *)
Definition sys_cut : SystemWorld := sys_ops
  [SDrive (DCall (OpCrash "n2")); SDrive (DCall (OpCrash "n3"))] sys1.

Lemma sys_cut_reachable : sys_reachable sys_ids None sys_cut.
Proof. apply sys_ops_reachable; [exact sys1_reachable|repeat constructor]. Qed.

Lemma read_authority_errors_witness :
  ∃ y' e, of_reader 0 (confirm_authority 50 1) sys_cut = (y', inl e) ∧ exn_cls e = ReadQuorumUnavailable
    ∧ exn_cls e ∈ authority_errors.
Proof.
  destruct (sys_cut.(replicators) !! 0%nat) as [r|] eqn:Hr; [|vm_compute in Hr; discriminate].
  assert ((of_reader 0 (confirm_authority 50 1) sys_cut).2
    = inl (Exn ReadQuorumUnavailable "leader could not confirm the active voting quorum")) as E
    by (vm_compute; reflexivity).
  assert (of_reader 0 (confirm_authority 50 1) sys_cut = ((of_reader 0 (confirm_authority 50 1) sys_cut).1,
    inl (Exn ReadQuorumUnavailable "leader could not confirm the active voting quorum"))) as E'.
  { apply outcome_of with (q := of_reader 0 (confirm_authority 50 1) sys_cut); [reflexivity|exact E]. }
  eexists _, _. split; [exact E'|]. split; [reflexivity|].
  exact (read_authority_errors _ _ _ _ _ _ _ _ _ sys_cut_reachable Hr E').
Defined.
