(* ===== verification/ClientHistory.v ===== *)
(** * ClientHistory: client-visible executions of the replicated store

    Models [src/distlab/client_history.py]: a [KVClientHistory] records the
    writes and reads of clients in an [OperationHistory] and keeps the requests
    of the writes that have no answer yet.  It runs over the composed system of
    [System]: its [kv] is the system's store, so the checks that a reader and
    the history share one store hold by construction, and a reader is the
    position of its replicator.  Records are kept apart from the simulator's, as
    the store's are.  [rf] bounds each run of the simulator. *)

From S2P Require Import Prelude Simulator LogIndex KVCommands History Raft Replication Driver AppWorld StateMachine KV LinearizableRead Follows System.

(** What clients, services and sessions record *)
Inductive ServiceRec :=
  | RClientInvoke (operation_id client_id : string) (request_id : option Z) (operation key : string)
      (node consistency : option string) (generation : option Z)
  | RClientRetry (operation_id client_id : string) (request_id : option Z) (operation key : string)
      (node consistency : option string) (generation : option Z)
  | RClientResponse (operation_id client_id : string) (request_id : option Z) (node : string)
      (result consistency : option string) (generation : option Z)
  | RClientAbandon (operation_id client_id key : string)
  | RServiceBarrier (leader : string) (term generation commit_index : Z) (voters : list string) (mode : string)
  | RServiceAppend (kind leader : string) (term index : Z) (request : option (string * Z))
  | RServiceWrite (leader : string) (term generation : Z) (log_index : option Z) (commit_index : Z)
      (client_id : string) (request_id : Z)
  | RServiceRead (leader : string) (term generation commit_index : Z) (key : string) (value : option string)
  | RServiceQuorumFailed (leader : string) (term generation target_index commit_index : Z) (operation : string)
  | RSessionRecover (client_id node : string) (last_completed : Z) (pending_operation : option string)
  | RSessionRecoverLinearizable (client_id node : string) (term commit_index last_completed : Z)
      (pending_operation : option string)
  | RSessionRecoverFenced (client_id node : string) (term generation commit_index last_completed : Z)
      (pending_operation : option string)
  | RSessionAdvance (client_id : string) (request_id : Z) (node : string)
  | RSessionRecoverPending (client_id operation_id operation : string).

(** [self.history] and [self._pending_writes] *)
Record KVClientHistory := mkClients {
  history : OperationHistory;
  pending_writes : gmap string ClientRequest;
}.

Record ServiceWorld := mkService {
  sv_system : SystemWorld;
  sv_clients : KVClientHistory;
  sv_trace : list ServiceRec;
}.

Abbreviation SM := (M ServiceWorld).
Implicit Types (n operation_id client_id key : string).

Definition on_system {A} (m : M SystemWorld A) : SM A := λ w,
  let r := m w.(sv_system) in (mkService r.1 w.(sv_clients) w.(sv_trace), r.2).
Definition on_history {A} (m : HM A) : SM A := λ w,
  let r := m w.(sv_clients).(history) in
  (mkService w.(sv_system) (mkClients r.1 w.(sv_clients).(pending_writes)) w.(sv_trace), r.2).
Definition on_kv {A} (m : AM A) : SM A := on_system (on_store m).
Definition upd_pending (f : gmap string ClientRequest → gmap string ClientRequest) : SM unit :=
  modify (λ w, mkService w.(sv_system) (mkClients w.(sv_clients).(history) (f w.(sv_clients).(pending_writes))) w.(sv_trace)).
Definition sv_record (r : ServiceRec) : SM unit :=
  modify (λ w, mkService w.(sv_system) w.(sv_clients) (w.(sv_trace) ++ [r])).

Definition history_of (w : ServiceWorld) : OperationHistory := w.(sv_clients).(history).

Definition operation_name (op : KVOperation) : string :=
  match op with Put _ _ => "put" | Delete _ => "delete" end.

(** The loop of [__init__] *)
Fixpoint restore_pending (h : OperationHistory) (l : list Invocation) (acc : gmap string ClientRequest)
    : exn + gmap string ClientRequest :=
  match l with
  | [] => inr acc
  | i :: l' =>
      match client_request_id h i.(inv_operation_id) with
      | None => restore_pending h l' acc
      | Some request_id =>
          match i.(inv_operation) with
          | HGet _ => inl (Exn ValueError "client request identity is attached to a non-write history invocation")
          | HWrite op =>
              match new_ClientRequest i.(inv_client_id) request_id op with
              | inl e => inl e
              | inr r => restore_pending h l' (<[i.(inv_operation_id) := r]> acc)
              end
          end
      end
  end.

(** [KVClientHistory(kv, history)] *)
Definition new_KVClientHistory (h : OperationHistory) : exn + KVClientHistory :=
  match restore_pending h (pending h) ∅ with inl e => inl e | inr p => inr (mkClients h p) end.

(** [_ensure_client_request_identity_available] *)
Definition identity_taken (h : OperationHistory) client_id (request_id : Z) : bool :=
  existsb (λ i, (i.(inv_client_id) =? client_id)%string
    && bool_decide (client_request_id h i.(inv_operation_id) = Some request_id)) (invocations h).

Definition ensure_client_request_identity_available client_id (request_id : Z) : SM unit :=
  let! taken := gets (λ w, identity_taken (history_of w) client_id request_id) in
  raise_if taken InvalidHistory "client request identity is already attached to active operation".

Definition invoke_write operation_id client_id (request_id : Z) (op : KVOperation) : SM ClientRequest :=
  let! request := lift (new_ClientRequest client_id request_id op) in
  ensure_client_request_identity_available client_id request_id ;;
  on_history (invoke operation_id client_id (HWrite op)) ;;
  on_history (attach_client_request_id operation_id request_id) ;;
  upd_pending <[operation_id := request]> ;;
  sv_record (RClientInvoke operation_id client_id (Some request_id) (operation_name op) (kv_key op) None None None) ;;
  ret request.

Definition require_pending_write operation_id : SM ClientRequest :=
  let! request := gets (λ w, w.(sv_clients).(pending_writes) !! operation_id) in
  match request with
  | Some r => ret r
  | None => raise ValueError "unknown pending write"
  end.

Definition retry_write operation_id : SM ClientRequest :=
  let! request := require_pending_write operation_id in
  sv_record (RClientRetry operation_id request.(cr_client_id) (Some request.(cr_request_id))
    (operation_name request.(cr_operation)) (kv_key request.(cr_operation)) None None None) ;;
  ret request.

Definition complete_write operation_id n : SM unit :=
  let! request := require_pending_write operation_id in
  let! requests := on_kv (kv_client_requests n) in
  match requests !! (request.(cr_client_id), request.(cr_request_id)) with
  | None => raise RuntimeError "cannot complete a client write before the target replica applied its request"
  | Some applied =>
      raise_if (negb (bool_decide (applied = request.(cr_operation)))) ClientRequestConflict
        "cannot complete a client write from conflicting applied request identity" ;;
      on_history (respond operation_id None) ;;
      on_history (retire_client_request_id operation_id) ;;
      upd_pending (delete operation_id) ;;
      sv_record (RClientResponse operation_id request.(cr_client_id) (Some request.(cr_request_id)) n None None None)
  end.

(** A read of one replica, as stale as it may be *)
Definition sampled_read operation_id client_id n key : SM (option string) :=
  let! operation := lift (new_Get key) in
  on_history (invoke operation_id client_id operation) ;;
  sv_record (RClientInvoke operation_id client_id None "get" key (Some n) None None) ;;
  let! result := on_kv (kv_get n key) in
  on_history (respond operation_id result) ;;
  sv_record (RClientResponse operation_id client_id None n result None None) ;;
  ret result.

(** [reader.leader.node_id]; there is no reader at a position without a
    replicator. *)
Definition reader_leader (i : nat) : SM string :=
  let! r := gets (λ w, w.(sv_system).(replicators) !! i) in
  match r with
  | Some r => ret r.(leader)
  | None => raise KeyError "replicator"
  end.

(** [{item.operation_id: item for item in self.history.pending()}.get(operation_id)] *)
Definition pending_invocation (h : OperationHistory) operation_id : option Invocation :=
  last (filter (λ i, i.(inv_operation_id) = operation_id) (pending h)).

(** The pending read a retry or an abandonment names *)
Definition require_pending_invocation operation_id client_id key (mismatch : string) : SM unit :=
  let! pending := gets (λ w, pending_invocation (history_of w) operation_id) in
  match pending with
  | None => raise ValueError "unknown pending linearizable read"
  | Some i =>
      raise_if (negb (i.(inv_client_id) =? client_id)%string) ValueError mismatch ;;
      let! operation := lift (new_Get key) in
      raise_if (negb (bool_decide (i.(inv_operation) = operation))) ValueError mismatch
  end.

Section fuel.
Context (rf : nat).

Definition complete_linearizable_read operation_id client_id (i : nat) key (max_attempts_per_peer : Z)
    : SM (option string) :=
  let! result := on_system (of_reader i (linearizable_get rf key max_attempts_per_peer)) in
  on_history (respond operation_id result) ;;
  let! n := reader_leader i in
  sv_record (RClientResponse operation_id client_id None n result (Some "linearizable") None) ;;
  ret result.

Definition clients_linearizable_read operation_id client_id (i : nat) key (max_attempts_per_peer : Z)
    : SM (option string) :=
  let! n := reader_leader i in
  let! operation := lift (new_Get key) in
  on_history (invoke operation_id client_id operation) ;;
  sv_record (RClientInvoke operation_id client_id None "get" key (Some n) (Some "linearizable") None) ;;
  complete_linearizable_read operation_id client_id i key max_attempts_per_peer.

Definition clients_retry_linearizable_read operation_id client_id (i : nat) key (max_attempts_per_peer : Z)
    : SM (option string) :=
  let! n := reader_leader i in
  let! gone := gets (λ w, is_abandoned (history_of w) operation_id) in
  raise_if gone ValueError "abandoned linearizable read cannot be retried" ;;
  require_pending_invocation operation_id client_id key "linearizable read retry must match the pending invocation" ;;
  sv_record (RClientRetry operation_id client_id None "get" key (Some n) (Some "linearizable") None) ;;
  complete_linearizable_read operation_id client_id i key max_attempts_per_peer.
End fuel.

Definition clients_abandon_linearizable_read operation_id client_id key : SM unit :=
  let! gone := gets (λ w, is_abandoned (history_of w) operation_id) in
  raise_if gone ValueError "linearizable read was already abandoned" ;;
  require_pending_invocation operation_id client_id key "linearizable read abandonment must match the pending invocation" ;;
  on_history (abandon operation_id) ;;
  sv_record (RClientAbandon operation_id client_id key).
