(* ===== verification/LeaderService.v ===== *)
(** * LeaderService: client operations under one leader generation

    Models [src/distlab/leader_authority.py] and
    [src/distlab/leader_service.py] over a cluster of fixed membership: a
    service does work for a client only while the leader it was given holds the
    leadership generation it was given, checked before every effect and before
    an answer is published.  Of the runtime supervisor the service uses the
    cluster only.  A replicator made for one call is left in the system's list,
    where nothing refers to it any more. *)

From S2P Require Import Prelude Simulator LogIndex KVCommands History Raft Replication Driver AppWorld StateMachine KV LinearizableRead Follows System ClientHistory.

(** ** LeaderGenerationGuard *)

Record LeaderRuntimeIdentity := mkIdentity {
  li_leader : string;
  li_term : Z;
  li_generation : Z;
}.

Implicit Types (n leader_id operation_id client_id key : string) (identity : LeaderRuntimeIdentity).

Definition guard_current leader_id : M RaftWorld LeaderRuntimeIdentity :=
  let! active := gets (λ w : RaftWorld, w.(objs).(active_leader_generations) !! leader_id) in
  match active with
  | None => raise LeaderRuntimeUnavailable "node has no active leader runtime generation"
  | Some (term, generation) =>
      let! n := node leader_id in
      let! up := gets (λ w : RaftWorld, is_alive w n) in
      let! leads := gets (λ w, is_role w n LEADER) in
      let! d := gets (λ w, dur w n) in
      raise_if (negb up || negb leads || negb (d.(current_term) =? term)) LeaderRuntimeUnavailable
        "node no longer owns runtime generation" ;;
      ret (mkIdentity leader_id term generation)
  end.

Definition guard_require leader_id (expected_generation : Z) : M RaftWorld LeaderRuntimeIdentity :=
  let! identity := guard_current leader_id in
  raise_if (negb (identity.(li_generation) =? expected_generation)) StaleLeaderRuntimeGeneration
    "leader runtime generation is stale" ;;
  ret identity.

Definition guard_validate identity : M RaftWorld LeaderRuntimeIdentity :=
  let! current := guard_require identity.(li_leader) identity.(li_generation) in
  raise_if (negb (current.(li_term) =? identity.(li_term))) LeaderRuntimeUnavailable
    "node changed term while retaining generation" ;;
  ret current.

(** ** LeaderKVService *)

Record LeaderWriteResult := mkWriteResult {
  wr_leader_id : string;
  wr_term : Z;
  wr_generation : Z;
  wr_request : ClientRequest;
  wr_log_index : option Z;
  wr_commit_index : Z;
}.

Record LeaderReadResult := mkReadResult {
  rr_leader_id : string;
  rr_term : Z;
  rr_generation : Z;
  rr_key : string;
  rr_value : option string;
  rr_commit_index : Z;
}.

(** [self.cluster] *)
Definition on_raft_cluster {A} (m : M RaftWorld A) : SM A := on_kv (on_raft m).
Definition cluster_of (w : ServiceWorld) : RaftWorld := w.(sv_system).(store).(raft).

Definition require_generation leader_id (expected_generation : Z) : SM LeaderRuntimeIdentity :=
  on_raft_cluster (guard_require leader_id expected_generation).
Definition require_same identity : SM unit :=
  require_generation identity.(li_leader) identity.(li_generation) ;; ret tt.

(** [_new_replicator]: where the new object is *)
Definition new_replicator n : SM nat :=
  on_system (λ y, let r := add_replicator n (driven_part y) in (with_driven r.1 y, r.2)) ;;
  gets (λ w, Nat.pred (length w.(sv_system).(replicators))).

Definition positive_peer_attempts (max_attempts_per_peer : Z) : SM unit :=
  raise_if (max_attempts_per_peer <=? 0) ValueError "max_attempts_per_peer must be positive".

Definition request_of (c : KVCommand) : option (string * Z) :=
  match c with CmdRequest r => Some (r.(cr_client_id), r.(cr_request_id)) | _ => None end.

(** [_append_command] *)
Definition append_command n (command : KVCommand) (trace_kind : string) : SM Z :=
  let! d := gets (λ w, dur (cluster_of w) n) in
  let previous := d.(log) in
  let! entry := lift (new_LogEntry d.(current_term) command) in
  on_raft_cluster (persist_log n (previous ++ [entry])) ;;
  let! view := on_raft_cluster (log_view n) in
  let index := last_index view in
  let! d := gets (λ w, dur (cluster_of w) n) in
  sv_record (RServiceAppend trace_kind n d.(current_term) index (request_of command)) ;;
  raise_if (negb (bool_decide (take (length previous) d.(log) = previous))) AssertionError
    "Leader Append-Only violated while appending service command" ;;
  ret index.

(** [_request_log_index]: the loop on the indices left *)
Fixpoint find_request (view : RaftLogView KVCommand) (request : ClientRequest) (indices : list Z) : exn + option Z :=
  match indices with
  | [] => inr None
  | index :: indices' =>
      match entry_at view index with
      | inl e => inl e
      | inr entry =>
          match entry.(le_command) with
          | CmdRequest command =>
              if negb (command.(cr_client_id) =? request.(cr_client_id))%string
                 || negb (command.(cr_request_id) =? request.(cr_request_id))
              then find_request view request indices'
              else if negb (bool_decide (command.(cr_operation) = request.(cr_operation)))
              then inl (Exn ClientRequestConflict "leader log contains conflicting client request identity")
              else inr (Some index)
          | _ => find_request view request indices'
          end
      end
  end.

Definition request_log_index n (request : ClientRequest) : SM (option Z) :=
  let! view := on_raft_cluster (log_view n) in
  lift (find_request view request (zrange (first_retained_index view) (last_index view + 1))).

(** [_current_term_target_after], from the last index down *)
Fixpoint find_term (view : RaftLogView KVCommand) (term : Z) (indices : list Z) : exn + option Z :=
  match indices with
  | [] => inr None
  | index :: indices' =>
      match term_at view index with
      | inl e => inl e
      | inr t => if t =? term then inr (Some index) else find_term view term indices'
      end
  end.

Definition current_term_target_after n (request_index : Z) : SM (option Z) :=
  let! view := on_raft_cluster (log_view n) in
  let! d := gets (λ w, dur (cluster_of w) n) in
  lift (find_term view d.(current_term) (rev (zrange (request_index + 1) (last_index view + 1)))).

Definition write_result identity (request : ClientRequest) (log_index : option Z) : SM LeaderWriteResult :=
  let! n := on_raft_cluster (node identity.(li_leader)) in
  let! v := gets (λ w, vol (cluster_of w) n) in
  ret (mkWriteResult identity.(li_leader) identity.(li_term) identity.(li_generation) request log_index v.(commit_index)).

Definition commit_index_of n : SM Z := gets (λ w, (vol (cluster_of w) n).(commit_index)).

Section fuel.
Context (rf : nat).

(** [_drive_commit]: the loop over the peers left; whether the target was
    reached *)
Fixpoint drive_peers identity (i : nat) (target_index max_attempts_per_peer : Z) (peers : list string) : SM bool :=
  match peers with
  | [] => ret false
  | peer :: peers' =>
      require_same identity ;;
      let! answered := try_except
        (on_system (of_reader i (on_replicator (replicate rf 0 peer (Some max_attempts_per_peer)))) ;; ret true)
        (λ e, match e.(exn_cls) with
          | ReplicationResponseMissing => ret false
          | ReplicationError => require_same identity ;; raise LeaderKVServiceError e.(exn_msg)
          | _ => rethrow e
          end) in
      if negb answered then drive_peers identity i target_index max_attempts_per_peer peers'
      else
        require_same identity ;;
        let! commit := commit_index_of identity.(li_leader) in
        if target_index <=? commit then ret true
        else drive_peers identity i target_index max_attempts_per_peer peers'
  end.

Definition drive_commit identity (i : nat) (target_index max_attempts_per_peer : Z) (failure_type : exn_class) : SM unit :=
  let n := identity.(li_leader) in
  let! commit := commit_index_of n in
  if target_index <=? commit then ret tt
  else
    let! ps := gets (λ w, sorted_str (peers (cluster_of w) n)) in
    let! reached := drive_peers identity i target_index max_attempts_per_peer ps in
    if reached : bool then ret tt
    else
      let! commit := commit_index_of n in
      sv_record (RServiceQuorumFailed n identity.(li_term) identity.(li_generation) target_index commit
        (match failure_type with LeaderWriteQuorumUnavailable => "write" | _ => "read-barrier" end)) ;;
      raise failure_type "leader could not commit index".

Definition ensure_current_term_commit identity (i : nat) (max_attempts_per_peer : Z) : SM unit :=
  let n := identity.(li_leader) in
  let! commit := commit_index_of n in
  let! done := (if 0 <? commit then
      let! view := on_raft_cluster (log_view n) in
      let! t := lift (term_at view commit) in
      let! d := gets (λ w, dur (cluster_of w) n) in
      ret (t =? d.(current_term))
    else ret false) in
  if done : bool then ret tt
  else
    let! target := append_command n CmdBarrier "raft-current-term-barrier" in
    drive_commit identity i target max_attempts_per_peer LeaderReadBarrierUnavailable ;;
    on_kv (kv_apply_committed n) ;; ret tt.

Definition linearizable_barrier leader_id (expected_generation max_attempts_per_peer : Z) : SM ReadBarrierEvidence :=
  positive_peer_attempts max_attempts_per_peer ;;
  let! identity := require_generation leader_id expected_generation in
  let! n := on_raft_cluster (node leader_id) in
  let! i := new_replicator n in
  ensure_current_term_commit identity i max_attempts_per_peer ;;
  let! e := on_system (of_reader i (read_barrier rf max_attempts_per_peer)) in
  require_generation leader_id expected_generation ;;
  sv_record (RServiceBarrier leader_id identity.(li_term) identity.(li_generation) e.(ev_commit_index)
    e.(acknowledged_voters) e.(quorum_mode)) ;;
  ret e.

(** The part of [_commit_write] for a request the leader has not applied *)
Definition commit_new identity operation_id (request : ClientRequest) (max_attempts_per_peer : Z) : SM LeaderWriteResult :=
  let n := identity.(li_leader) in
  let! i := new_replicator n in
  let! found := request_log_index n request in
  let! request_index := (match found with
    | Some index => ret index
    | None => append_command n (CmdRequest request) "raft-client-append"
    end) in
  let! view := on_raft_cluster (log_view n) in
  let! t := lift (term_at view request_index) in
  let! d := gets (λ w, dur (cluster_of w) n) in
  let! target := (if t =? d.(current_term) then ret request_index
    else
      let! later := current_term_target_after n request_index in
      match later with
      | Some index => ret index
      | None => append_command n CmdBarrier "raft-current-term-barrier"
      end) in
  drive_commit identity i target max_attempts_per_peer LeaderWriteQuorumUnavailable ;;
  on_kv (kv_apply_committed n) ;;
  let! applied := on_kv (has_applied_request n request.(cr_client_id) request.(cr_request_id)) in
  raise_if (negb applied) AssertionError "committed client request was not applied on the leader" ;;
  require_same identity ;;
  complete_write operation_id n ;;
  let! result := write_result identity request (Some request_index) in
  sv_record (RServiceWrite result.(wr_leader_id) result.(wr_term) result.(wr_generation) result.(wr_log_index)
    result.(wr_commit_index) request.(cr_client_id) request.(cr_request_id)) ;;
  ret result.

Definition commit_write identity operation_id (request : ClientRequest) (max_attempts_per_peer : Z) : SM LeaderWriteResult :=
  positive_peer_attempts max_attempts_per_peer ;;
  require_same identity ;;
  let! n := on_raft_cluster (node identity.(li_leader)) in
  on_kv (kv_apply_committed n) ;;
  let! applied := on_kv (has_applied_request n request.(cr_client_id) request.(cr_request_id)) in
  if applied : bool then
    let! requests := on_kv (kv_client_requests n) in
    match requests !! (request.(cr_client_id), request.(cr_request_id)) with
    | None => raise KeyError "requests"
    | Some op =>
        raise_if (negb (bool_decide (op = request.(cr_operation)))) ClientRequestConflict
          "applied request identity conflicts with pending client write" ;;
        require_same identity ;;
        complete_write operation_id n ;;
        let! index := request_log_index n request in
        write_result identity request index
    end
  else commit_new identity operation_id request max_attempts_per_peer.

Definition service_write leader_id (expected_generation : Z) operation_id client_id (request_id : Z) (op : KVOperation)
    (max_attempts_per_peer : Z) : SM LeaderWriteResult :=
  let! identity := require_generation leader_id expected_generation in
  let! request := invoke_write operation_id client_id request_id op in
  commit_write identity operation_id request max_attempts_per_peer.

Definition service_retry_write leader_id (expected_generation : Z) operation_id (max_attempts_per_peer : Z)
    : SM LeaderWriteResult :=
  let! identity := require_generation leader_id expected_generation in
  let! request := retry_write operation_id in
  commit_write identity operation_id request max_attempts_per_peer.

Definition complete_read identity operation_id client_id key (max_attempts_per_peer : Z) : SM LeaderReadResult :=
  positive_peer_attempts max_attempts_per_peer ;;
  let! n := on_raft_cluster (node identity.(li_leader)) in
  let! i := new_replicator n in
  ensure_current_term_commit identity i max_attempts_per_peer ;;
  let! value := on_system (of_reader i (linearizable_get rf key max_attempts_per_peer)) in
  require_same identity ;;
  on_history (respond operation_id value) ;;
  sv_record (RClientResponse operation_id client_id None n value (Some "linearizable") (Some identity.(li_generation))) ;;
  let! commit := commit_index_of n in
  sv_record (RServiceRead n identity.(li_term) identity.(li_generation) commit key value) ;;
  ret (mkReadResult n identity.(li_term) identity.(li_generation) key value commit).

Definition service_linearizable_read leader_id (expected_generation : Z) operation_id client_id key
    (max_attempts_per_peer : Z) : SM LeaderReadResult :=
  raise_if (empty_str key) ValueError "KV key must be non-empty" ;;
  let! identity := require_generation leader_id expected_generation in
  on_history (invoke operation_id client_id (HGet key)) ;;
  sv_record (RClientInvoke operation_id client_id None "get" key (Some leader_id) (Some "linearizable")
    (Some identity.(li_generation))) ;;
  complete_read identity operation_id client_id key max_attempts_per_peer.

Definition service_retry_linearizable_read leader_id (expected_generation : Z) operation_id client_id key
    (max_attempts_per_peer : Z) : SM LeaderReadResult :=
  let! identity := require_generation leader_id expected_generation in
  require_pending_invocation operation_id client_id key "linearizable read retry must match the pending invocation" ;;
  let! gone := gets (λ w, is_abandoned (history_of w) operation_id) in
  raise_if gone ValueError "abandoned linearizable read cannot be retried" ;;
  sv_record (RClientRetry operation_id client_id None "get" key (Some leader_id) (Some "linearizable")
    (Some identity.(li_generation))) ;;
  complete_read identity operation_id client_id key max_attempts_per_peer.
End fuel.
