(* ===== verification/ClientSession.v ===== *)
(** * ClientSession: one logical client's operations in order

    Models [src/distlab/client_session.py].  A [KVClientSession] is an object
    beside the client history: its methods run on a pair of the service's world
    and the object, and what they changed stays changed when they raise; a class
    method that builds a session returns it.  The service and the session share
    one client history by construction.  [session_op] and [session_reachable]
    are the closed system: clients act through sessions, one for each client at
    a time, over a cluster on which anything may happen. *)

From S2P Require Import Prelude Simulator LogIndex KVCommands History Raft RaftSafe Replication Driver AppWorld StateMachine KV AppSystem LinearizableRead Follows System ClientHistory LeaderService.

Record PendingSessionWrite := mkPendingWrite { pw_operation_id : string; pw_request : ClientRequest }.
Record PendingSessionRead := mkPendingRead { pr_operation_id : string; pr_key : string }.

Record KVClientSession := mkSession {
  ss_client_id : string;
  last_completed_request_id : Z;
  ss_pending : option PendingSessionWrite;
  ss_pending_read : option PendingSessionRead;
}.

Implicit Types (n operation_id client_id key leader_id : string) (s : KVClientSession).

Definition set_pending v s : KVClientSession := mkSession s.(ss_client_id) s.(last_completed_request_id) v s.(ss_pending_read).
Definition set_pending_read v s : KVClientSession := mkSession s.(ss_client_id) s.(last_completed_request_id) s.(ss_pending) v.
Definition set_completed v s : KVClientSession := mkSession s.(ss_client_id) v s.(ss_pending) s.(ss_pending_read).

(** The world and [self] *)
Record SelfWorld := mkSelf { sw_world : ServiceWorld; sw_self : KVClientSession }.

Abbreviation SeM := (M SelfWorld).

Definition in_service {A} (m : SM A) : SeM A := λ x,
  let r := m x.(sw_world) in (mkSelf r.1 x.(sw_self), r.2).
Definition upd_session (f : KVClientSession → KVClientSession) : SeM unit :=
  modify (λ x, mkSelf x.(sw_world) (f x.(sw_self))).

Definition new_KVClientSession client_id (last_completed : Z) : exn + KVClientSession :=
  if empty_str client_id then inl (Exn ValueError "client_id must be non-empty")
  else checked (last_completed <? -1) ValueError "last_completed_request_id must be at least -1"
    (mkSession client_id last_completed None None).

Definition pending_operation_id s : option string :=
  match s.(ss_pending) with
  | Some p => Some p.(pw_operation_id)
  | None => pr_operation_id <$> s.(ss_pending_read)
  end.

(** ** Guards *)

Definition ensure_can_start_write (request_id : Z) : SeM unit :=
  let! s := gets sw_self in
  raise_if (bool_decide (is_Some s.(ss_pending))) SessionWritePending "client already has pending write" ;;
  raise_if (bool_decide (is_Some s.(ss_pending_read))) SessionReadPending "client cannot write while read is pending" ;;
  raise_if (request_id <=? s.(last_completed_request_id)) StaleClientRequest
    "request_id is not newer than completed request_id".

Definition ensure_can_start_read : SeM unit :=
  let! s := gets sw_self in
  raise_if (bool_decide (is_Some s.(ss_pending))) SessionWritePending "client cannot read while write is pending" ;;
  raise_if (bool_decide (is_Some s.(ss_pending_read))) SessionReadPending "client already has pending read".

Definition require_pending operation_id : SeM PendingSessionWrite :=
  let! s := gets sw_self in
  match s.(ss_pending) with
  | Some p => raise_if (negb (p.(pw_operation_id) =? operation_id)%string) ValueError "unknown pending session write" ;; ret p
  | None => raise ValueError "unknown pending session write"
  end.

Definition require_pending_read operation_id : SeM PendingSessionRead :=
  let! s := gets sw_self in
  match s.(ss_pending_read) with
  | Some p => raise_if (negb (p.(pr_operation_id) =? operation_id)%string) ValueError "unknown pending session read" ;; ret p
  | None => raise ValueError "unknown pending session read"
  end.

Definition pending_write operation_id : SeM (option ClientRequest) :=
  gets (λ x, x.(sw_world).(sv_clients).(pending_writes) !! operation_id).

(** [operation_id in {item.operation_id for item in self.clients.history.invocations()}] *)
Definition operation_exists operation_id : SeM bool :=
  gets (λ x, bool_decide (operation_id ∈ (inv_operation_id <$> invocations (history_of x.(sw_world))))).

(** ** Writes *)

Definition advance_completed_write (p : PendingSessionWrite) n : SeM unit :=
  upd_session (set_completed p.(pw_request).(cr_request_id)) ;;
  upd_session (set_pending None) ;;
  let! s := gets sw_self in
  in_service (sv_record (RSessionAdvance s.(ss_client_id) s.(last_completed_request_id) n)).

Definition session_invoke_write operation_id (request_id : Z) (op : KVOperation) : SeM ClientRequest :=
  ensure_can_start_write request_id ;;
  let! s := gets sw_self in
  let! request := in_service (invoke_write operation_id s.(ss_client_id) request_id op) in
  upd_session (set_pending (Some (mkPendingWrite operation_id request))) ;;
  ret request.

Definition session_retry_write operation_id : SeM ClientRequest :=
  let! p := require_pending operation_id in
  let! retried := in_service (retry_write operation_id) in
  raise_if (negb (bool_decide (retried = p.(pw_request)))) AssertionError
    "client history retry changed the active request identity" ;;
  ret retried.

Definition session_complete_write operation_id n : SeM unit :=
  let! p := require_pending operation_id in
  in_service (complete_write operation_id n) ;;
  advance_completed_write p n.

Definition accept_service_write_result operation_id (result : LeaderWriteResult) : SeM unit :=
  let! p := require_pending operation_id in
  raise_if (negb (bool_decide (result.(wr_request) = p.(pw_request)))) AssertionError
    "leader service changed the active request identity" ;;
  let! still := pending_write operation_id in
  raise_if (bool_decide (is_Some still)) AssertionError "leader service returned before completing client history" ;;
  advance_completed_write p result.(wr_leader_id).

(** [except Exception: ...; raise] of a write that may not have been invoked *)
Definition forget_write {A} operation_id (existed : bool) (expected : ClientRequest) (e : exn) : SeM A :=
  let! pending := pending_write operation_id in
  when (existed || negb (bool_decide (pending = Some expected))) (upd_session (set_pending None)) ;;
  rethrow e.

(** ** Reads *)

(** The same of a read *)
Definition forget_read {A} operation_id key (existed : bool) (e : exn) : SeM A :=
  let! pending := gets (λ x, pending_invocation (history_of x.(sw_world)) operation_id) in
  let! s := gets sw_self in
  when (existed || match pending with
      | None => true
      | Some i => negb (i.(inv_client_id) =? s.(ss_client_id))%string || negb (bool_decide (i.(inv_operation) = HGet key))
      end) (upd_session (set_pending_read None)) ;;
  rethrow e.

Definition session_abandon_linearizable_read operation_id : SeM unit :=
  let! p := require_pending_read operation_id in
  let! s := gets sw_self in
  in_service (clients_abandon_linearizable_read operation_id s.(ss_client_id) p.(pr_key)) ;;
  upd_session (set_pending_read None).

(** ** Recovery *)

(** [_restore_pending_operation] *)
Definition unresolved (h : OperationHistory) client_id : list Invocation :=
  filter (λ i, i.(inv_client_id) = client_id ∧ is_abandoned h i.(inv_operation_id) = false) (pending h).

Definition restore_pending_operation s (durable_requests : gmap (string * Z) KVOperation) : SM KVClientSession :=
  let! h := gets history_of in
  match unresolved h s.(ss_client_id) with
  | [] => ret s
  | [invocation] =>
      match invocation.(inv_operation) with
      | HWrite operation =>
          let! request := gets (λ w, w.(sv_clients).(pending_writes) !! invocation.(inv_operation_id)) in
          match request with
          | None => raise ClientSessionError "pending write history is inconsistent with client request state"
          | Some request =>
              raise_if (negb (request.(cr_client_id) =? s.(ss_client_id))%string
                || negb (bool_decide (request.(cr_operation) = operation))) ClientSessionError
                "pending write history is inconsistent with client request state" ;;
              raise_if (request.(cr_request_id) <? s.(last_completed_request_id)) ClientSessionError
                "pending write request id precedes recovered durable sequence floor" ;;
              raise_if ((request.(cr_request_id) =? s.(last_completed_request_id))
                && negb (bool_decide (durable_requests !! (request.(cr_client_id), request.(cr_request_id))
                     = Some request.(cr_operation)))) ClientSessionError
                "pending write conflicts with durable request identity at recovered sequence floor" ;;
              sv_record (RSessionRecoverPending s.(ss_client_id) invocation.(inv_operation_id) "write") ;;
              ret (set_pending (Some (mkPendingWrite invocation.(inv_operation_id) request)) s)
          end
      | HGet key =>
          sv_record (RSessionRecoverPending s.(ss_client_id) invocation.(inv_operation_id) "read") ;;
          ret (set_pending_read (Some (mkPendingRead invocation.(inv_operation_id) key)) s)
      end
  | _ => raise ClientSessionError "client has unresolved history operations"
  end.

Definition recover client_id n : SM KVClientSession :=
  let! requests := on_kv (kv_client_requests n) in
  let last_completed := latest_request_id requests client_id in
  let! s := lift (new_KVClientSession client_id last_completed) in
  let! s := restore_pending_operation s requests in
  sv_record (RSessionRecover client_id n last_completed (pending_operation_id s)) ;;
  ret s.

Section fuel.
Context (rf : nat).

Definition recover_linearizable client_id (i : nat) (max_attempts_per_peer : Z) : SM KVClientSession :=
  let! e := on_system (of_reader i (read_barrier rf max_attempts_per_peer)) in
  let! s := recover client_id e.(ev_leader) in
  sv_record (RSessionRecoverLinearizable client_id e.(ev_leader) e.(ev_term) e.(ev_commit_index)
    s.(last_completed_request_id) (pending_operation_id s)) ;;
  ret s.

Definition recover_generation_fenced client_id leader_id (expected_generation max_attempts_per_peer : Z)
    : SM KVClientSession :=
  let! e := linearizable_barrier rf leader_id expected_generation max_attempts_per_peer in
  let! s := recover client_id e.(ev_leader) in
  sv_record (RSessionRecoverFenced client_id e.(ev_leader) e.(ev_term) expected_generation e.(ev_commit_index)
    s.(last_completed_request_id) (pending_operation_id s)) ;;
  ret s.

Definition write_via_service leader_id (expected_generation : Z) operation_id (request_id : Z) (op : KVOperation)
    (max_attempts_per_peer : Z) : SeM LeaderWriteResult :=
  ensure_can_start_write request_id ;;
  let! s := gets sw_self in
  let! expected := lift (new_ClientRequest s.(ss_client_id) request_id op) in
  let! existed := operation_exists operation_id in
  upd_session (set_pending (Some (mkPendingWrite operation_id expected))) ;;
  let! result := try_except
    (in_service (service_write rf leader_id expected_generation operation_id s.(ss_client_id) request_id op max_attempts_per_peer))
    (forget_write operation_id existed expected) in
  accept_service_write_result operation_id result ;;
  ret result.

Definition retry_write_via_service leader_id (expected_generation : Z) operation_id (max_attempts_per_peer : Z)
    : SeM LeaderWriteResult :=
  require_pending operation_id ;;
  let! result := in_service (service_retry_write rf leader_id expected_generation operation_id max_attempts_per_peer) in
  accept_service_write_result operation_id result ;;
  ret result.

(** The shape of the two reads: [m] is the call that may leave the operation
    without an answer. *)
Definition start_read {A} operation_id key (m : string → SM A) : SeM A :=
  ensure_can_start_read ;;
  let! existed := operation_exists operation_id in
  upd_session (set_pending_read (Some (mkPendingRead operation_id key))) ;;
  let! s := gets sw_self in
  let! result := try_except (in_service (m s.(ss_client_id))) (forget_read operation_id key existed) in
  upd_session (set_pending_read None) ;;
  ret result.

Definition session_linearizable_read operation_id (i : nat) key (max_attempts_per_peer : Z) : SeM (option string) :=
  start_read operation_id key (λ client_id,
    clients_linearizable_read rf operation_id client_id i key max_attempts_per_peer).

Definition linearizable_read_via_service leader_id (expected_generation : Z) operation_id key (max_attempts_per_peer : Z)
    : SeM LeaderReadResult :=
  start_read operation_id key (λ client_id,
    service_linearizable_read rf leader_id expected_generation operation_id client_id key max_attempts_per_peer).

Definition session_retry_linearizable_read operation_id (i : nat) (max_attempts_per_peer : Z) : SeM (option string) :=
  let! p := require_pending_read operation_id in
  let! s := gets sw_self in
  let! result := in_service (clients_retry_linearizable_read rf operation_id s.(ss_client_id) i p.(pr_key) max_attempts_per_peer) in
  upd_session (set_pending_read None) ;;
  ret result.

Definition retry_linearizable_read_via_service leader_id (expected_generation : Z) operation_id (max_attempts_per_peer : Z)
    : SeM LeaderReadResult :=
  let! p := require_pending_read operation_id in
  let! s := gets sw_self in
  let! result := in_service (service_retry_linearizable_read rf leader_id expected_generation operation_id
    s.(ss_client_id) p.(pr_key) max_attempts_per_peer) in
  upd_session (set_pending_read None) ;;
  ret result.
End fuel.

(** ** The system of sessions *)

(** The live session of each client *)
Record SessionWorld := mkSessions {
  sn_world : ServiceWorld;
  sn_sessions : gmap string KVClientSession;
}.

Abbreviation SnM := (M SessionWorld).
Implicit Types (z : SessionWorld).

Definition in_world {A} (m : SM A) : SnM A := λ z,
  let r := m z.(sn_world) in (mkSessions r.1 z.(sn_sessions), r.2).
Definition of_session {A} client_id (m : SeM A) : SnM A := λ z,
  match z.(sn_sessions) !! client_id with
  | None => (z, inl (Exn KeyError "session"))
  | Some s =>
      let r := m (mkSelf z.(sn_world) s) in
      (mkSessions r.1.(sw_world) (<[client_id := r.1.(sw_self)]> z.(sn_sessions)), r.2)
  end.
Definition install client_id s : SnM unit :=
  modify (λ z, mkSessions z.(sn_world) (<[client_id := s]> z.(sn_sessions))).

Inductive session_op :=
  | NOutside (o : sys_op)
  | NBarrier (rf : nat) leader_id (generation max_attempts : Z)
  | NOpen client_id
  | NRecover (rf : nat) client_id (i : nat) (max_attempts : Z)
  | NRecoverFenced (rf : nat) client_id leader_id (generation max_attempts : Z)
  | NInvoke client_id operation_id (request_id : Z) (op : KVOperation)
  | NRetryInvoke client_id operation_id
  | NComplete client_id operation_id n
  | NWrite (rf : nat) client_id leader_id (generation : Z) operation_id (request_id : Z) (op : KVOperation) (max_attempts : Z)
  | NRetryWrite (rf : nat) client_id leader_id (generation : Z) operation_id (max_attempts : Z)
  | NReaderRead (rf : nat) client_id operation_id (i : nat) key (max_attempts : Z)
  | NReaderRetry (rf : nat) client_id operation_id (i : nat) (max_attempts : Z)
  | NRead (rf : nat) client_id leader_id (generation : Z) operation_id key (max_attempts : Z)
  | NRetryRead (rf : nat) client_id leader_id (generation : Z) operation_id (max_attempts : Z)
  | NAbandon client_id operation_id.

Definition exec_session (o : session_op) : SnM unit :=
  match o with
  | NOutside o => in_world (on_system (exec_sys o))
  | NBarrier rf l g k => in_world (linearizable_barrier rf l g k) ;; ret tt
  | NOpen c => let! s := in_world (lift (new_KVClientSession c (-1))) in install c s
  | NRecover rf c i k => let! s := in_world (recover_linearizable rf c i k) in install c s
  | NRecoverFenced rf c l g k => let! s := in_world (recover_generation_fenced rf c l g k) in install c s
  | NInvoke c id r op => of_session c (session_invoke_write id r op) ;; ret tt
  | NRetryInvoke c id => of_session c (session_retry_write id) ;; ret tt
  | NComplete c id n => of_session c (session_complete_write id n)
  | NWrite rf c l g id r op k => of_session c (write_via_service rf l g id r op k) ;; ret tt
  | NRetryWrite rf c l g id k => of_session c (retry_write_via_service rf l g id k) ;; ret tt
  | NReaderRead rf c id i key k => of_session c (session_linearizable_read rf id i key k) ;; ret tt
  | NReaderRetry rf c id i k => of_session c (session_retry_linearizable_read rf id i k) ;; ret tt
  | NRead rf c l g id key k => of_session c (linearizable_read_via_service rf l g id key k) ;; ret tt
  | NRetryRead rf c l g id k => of_session c (retry_linearizable_read_via_service rf l g id k) ;; ret tt
  | NAbandon c id => of_session c (session_abandon_linearizable_read id)
  end.

(** Commands appended around the sessions: no writes but requests a client is
    waiting for. *)
Definition appendable (cl : KVClientHistory) (c : KVCommand) : Prop :=
  match c with
  | CmdRequest r => ∃ operation_id, cl.(pending_writes) !! operation_id = Some r
  | CmdOperation _ => False
  | _ => True
  end.

(** A client without a session gets its first one by the constructor, and
    every later one by a recovery behind a read barrier. *)
Definition session_ok z (o : session_op) : Prop :=
  match o with
  | NOutside o => sys_ok z.(sn_world).(sv_system) o
      ∧ match o with SDrive (DBarrier _ c) => appendable z.(sn_world).(sv_clients) c | SRebuild => False | _ => True end
  | NOpen c => ∀ i, i ∈ (history_of z.(sn_world)).(h_invocations) → i.(inv_client_id) ≠ c
  | _ => True
  end.

(** One call, or a restart of the servers' process over its disks: sessions are
    lost, and the client history is built again around what clients recorded. *)
Inductive session_next ids ts z : SessionWorld → Prop :=
  | session_call o z' r : session_ok z o → exec_session o z = (z', r) → session_next ids ts z z'
  | session_reboot plan r w' cl :
      init_cluster ids ts (boot_world plan (cluster_of z.(sn_world)).(sim).(persistent_state)) = (r, inr tt) →
      exec_app AppRebuild (set_raft r z.(sn_world).(sv_system).(store)) = (w', inr tt) →
      new_KVClientHistory (history_of z.(sn_world)) = inr cl →
      session_next ids ts z (mkSessions (mkService (mkSystem w' [] []) cl []) ∅).

Inductive session_reachable ids ts : SessionWorld → Prop :=
  | session_init plan r w cl :
      init_cluster ids ts (boot_world plan ∅) = (r, inr tt) →
      exec_app AppRebuild (no_store r) = (w, inr tt) →
      new_KVClientHistory new_history = inr cl →
      session_reachable ids ts (mkSessions (mkService (mkSystem w [] []) cl []) ∅)
  | session_step z z' : session_reachable ids ts z → session_next ids ts z z' → session_reachable ids ts z'.
