(* ===== verification/RaftInvariants.v ===== *)
(** * RaftInvariants: the program's executable safety properties

    Models [src/distlab/raft_invariants.py].  The checkers read a cluster and
    keep what they have seen; each is a method over its own state, with the
    cluster it reads as an argument.  [RaftSafetyHarness] keeps the three of them
    beside the [StateMachineApplier] of the cluster, which is the one of
    [AppWorld]: [scenario_runner.py] hands it to the store. *)

From S2P Require Import Prelude Simulator LogIndex Raft AppWorld StateMachine.

Section checkers.
Context {C : Type} `{EqDecision C}.
Local Abbreviation Cluster := (World (RaftSig (C := C))).
Local Abbreviation View := (RaftLogView C).
Implicit Types (w : Cluster) (n : string) (term : Z).

Record CommittedEntryObservation := mkObservation {
  ob_index : Z;
  ob_entry : LogEntry C;
  ob_committed_in_term : Z;
  ob_leader_id : string;
}.

Record LeaderLogObservation := mkLeaderLog {
  ll_term : Z;
  ll_leader_id : string;
  ll_view : View;
}.

(** [node.log_view] *)
Definition read_log w n : exn + View := (log_view n w).2.

Definition is_leader w n : bool := bool_decide ((vol w n).(role) = LEADER).

(** The items of a dict, by key *)
Definition key_le {A} (x y : Z * A) : Prop := x.1 ≤ y.1.
#[global] Instance key_le_dec {A} : RelDecision (key_le (A := A)).
Proof. intros x y. unfold key_le. apply _. Defined.

Definition sorted_items {A} (m : gmap Z A) : list (Z * A) := merge_sort key_le (map_to_list m).

Lemma elem_of_sorted_items {A} (m : gmap Z A) k x : (k, x) ∈ sorted_items m ↔ m !! k = Some x.
Proof. unfold sorted_items. by rewrite merge_sort_Permutation, elem_of_map_to_list. Qed.

Definition recorded_leaders w : list (Z * string) := sorted_items w.(objs).(leaders_by_term).

(** ** ElectionSafetyChecker *)

Definition note_leader term n : M (gmap Z string) unit :=
  raise_if (term <? 0) ValueError "leader term must be non-negative" ;;
  let! existing := gets (λ seen, seen !! term) in
  raise_if match existing with Some e => negb (e =? n)%string | None => false end
    ElectionSafetyViolation "Election Safety violated" ;;
  modify <[term := n]>.

Definition assert_one_leader w : M (gmap Z string) unit :=
  for_each (recorded_leaders w) (λ x, note_leader x.1 x.2) ;;
  for_each w.(objs).(node_ids) (λ n,
    when (is_leader w n) (note_leader (dur w n).(current_term) n)).

(** ** LeaderAppendOnlyChecker *)

Local Abbreviation LeaderLogs := (gmap (Z * string) View).

Definition leadership_le (x y : (Z * string) * View) : Prop :=
  x.1.1 < y.1.1 ∨ (x.1.1 = y.1.1 ∧ String.le x.1.2 y.1.2).
#[global] Instance leadership_le_dec : RelDecision leadership_le.
Proof. intros x y. unfold leadership_le. apply _. Defined.

Definition observations (logs : LeaderLogs) : list LeaderLogObservation :=
  (λ x, mkLeaderLog x.1.1 x.1.2 x.2) <$> merge_sort leadership_le (map_to_list logs).

Definition check_append_only (previous current : View) : M LeaderLogs unit :=
  raise_if (current.(base_index) <? previous.(base_index)) LeaderAppendOnlyViolation
    "regressed compacted boundary" ;;
  raise_if (last_index current <? last_index previous) LeaderAppendOnlyViolation "shrunk its log" ;;
  when ((previous.(base_index) <? current.(base_index)) && (current.(base_index) <=? last_index previous))
    (let! expected_term := lift (term_at previous current.(base_index)) in
     raise_if (negb (current.(base_term) =? expected_term)) LeaderAppendOnlyViolation
       "changed compacted boundary term") ;;
  let overlap_start := Z.max (first_retained_index previous) (first_retained_index current) in
  for_each (zrange overlap_start (last_index previous + 1)) (λ index,
    let! now := lift (entry_at current index) in
    let! before := lift (entry_at previous index) in
    raise_if (negb (bool_decide (now = before))) LeaderAppendOnlyViolation
      "overwrote an entry previously observed").

Definition observe_leader_log w n : M LeaderLogs unit :=
  raise_if (negb (is_leader w n)) ValueError "node must currently be a leader" ;;
  let key := ((dur w n).(current_term), n) in
  let! current := lift (read_log w n) in
  let! previous := gets (λ logs : LeaderLogs, logs !! key) in
  match previous with
  | Some previous => check_append_only previous current
  | None => ret tt
  end ;;
  modify <[key := current]>.

Definition assert_append_only w : M LeaderLogs unit :=
  for_each w.(objs).(node_ids) (λ n, when (is_leader w n) (observe_leader_log w n)).

(** ** LeaderCompletenessChecker *)

Local Abbreviation Committed := (gmap Z CommittedEntryObservation).

Definition committed_entries (seen : Committed) : list CommittedEntryObservation :=
  (sorted_items seen).*2.

Definition check_observation term (log : View) (o : CommittedEntryObservation) : M Committed unit :=
  if term <=? o.(ob_committed_in_term) then ret tt
  else if o.(ob_index) <? log.(base_index) then ret tt
  else if o.(ob_index) =? log.(base_index) then
    raise_if (negb (log.(base_term) =? o.(ob_entry).(le_term))) LeaderCompletenessViolation
      "has compacted boundary term"
  else
    raise_if (last_index log <? o.(ob_index)) LeaderCompletenessViolation "is missing committed index" ;;
    let! actual := lift (entry_at log o.(ob_index)) in
    raise_if (negb (bool_decide (actual = o.(ob_entry)))) LeaderCompletenessViolation
      "Leader Completeness violated".

Definition assert_leader_view term (log : View) : M Committed unit :=
  raise_if (term <? 0) ValueError "leader term must be non-negative" ;;
  let! seen := gets (λ seen, seen) in
  for_each (committed_entries seen) (check_observation term log).

Definition assert_leader_log term (log : list (LogEntry C)) : M Committed unit :=
  let! view := lift (uncompacted log) in assert_leader_view term view.

Definition assert_leader_node w n : M Committed unit :=
  raise_if (negb (is_leader w n)) ValueError "node must currently be a leader" ;;
  let! log := lift (read_log w n) in
  assert_leader_view (dur w n).(current_term) log.

Definition note_committed w n (log : View) (index : Z) : M Committed unit :=
  let! entry := lift (entry_at log index) in
  let! existing := gets (λ seen : Committed, seen !! index) in
  match existing with
  | Some o =>
      raise_if (negb (bool_decide (o.(ob_entry) = entry))) LeaderCompletenessViolation
        "committed entry changed"
  | None => modify <[index := mkObservation index entry (dur w n).(current_term) n]>
  end.

Definition observe_commit w n (previous_commit_index : Z) : M Committed unit :=
  let commit := (vol w n).(commit_index) in
  raise_if (negb (is_leader w n)) ValueError "committed entries must be observed from a leader" ;;
  raise_if (previous_commit_index <? 0) ValueError "previous_commit_index must be non-negative" ;;
  raise_if (commit <? previous_commit_index) ValueError
    "previous_commit_index cannot exceed leader commit index" ;;
  let! log := lift (read_log w n) in
  let first_observable := Z.max (previous_commit_index + 1) (first_retained_index log) in
  for_each (zrange first_observable (commit + 1)) (note_committed w n log) ;;
  assert_leader_node w n.

Definition assert_recorded_leaders w : M Committed unit :=
  for_each (recorded_leaders w) (λ x,
    let! log := lift (read_log w x.2) in
    assert_leader_view x.1 log).
End checkers.

(** ** RaftSafetyHarness *)

Record RaftSafetyHarness := mkHarness {
  election_safety : gmap Z string;
  leader_append_only : gmap (Z * string) (RaftLogView KVCommand);
  leader_completeness : gmap Z (CommittedEntryObservation (C := KVCommand));
  observed_commit_index : gmap string Z;
}.

(** The harness and the cluster it watches, with the applier they share *)
Record HarnessWorld := mkHarnessWorld {
  watched : AppWorld;
  harness : RaftSafetyHarness;
}.

Abbreviation HW := (M HarnessWorld).

Definition on_watched {A} (m : AM A) : HW A := λ x,
  let r := m x.(watched) in (mkHarnessWorld r.1 x.(harness), r.2).

Definition on_election_safety {A} (m : M (gmap Z string) A) : HW A := λ x,
  let h := x.(harness) in let r := m h.(election_safety) in
  (mkHarnessWorld x.(watched)
     (mkHarness r.1 h.(leader_append_only) h.(leader_completeness) h.(observed_commit_index)), r.2).

Definition on_append_only {A} (m : M (gmap (Z * string) (RaftLogView KVCommand)) A) : HW A := λ x,
  let h := x.(harness) in let r := m h.(leader_append_only) in
  (mkHarnessWorld x.(watched)
     (mkHarness h.(election_safety) r.1 h.(leader_completeness) h.(observed_commit_index)), r.2).

Definition on_completeness {A} (m : M (gmap Z CommittedEntryObservation) A) : HW A := λ x,
  let h := x.(harness) in let r := m h.(leader_completeness) in
  (mkHarnessWorld x.(watched)
     (mkHarness h.(election_safety) h.(leader_append_only) r.1 h.(observed_commit_index)), r.2).

Definition set_observed n (index : Z) : HW unit :=
  modify (λ x, let h := x.(harness) in
    mkHarnessWorld x.(watched)
      (mkHarness h.(election_safety) h.(leader_append_only) h.(leader_completeness)
         (<[n := index]> h.(observed_commit_index)))).

(** The constructor, for a cluster of these nodes; its [StateMachineApplier] is
    built by [init_applier]. *)
Definition new_harness (ids : list string) : RaftSafetyHarness :=
  mkHarness ∅ ∅ ∅ (list_to_map ((λ n, (n, 0)) <$> ids)).

Definition the_cluster (x : HarnessWorld) : RaftWorld := x.(watched).(raft).

Definition observe_node n : HW unit :=
  let! w := gets the_cluster in
  if is_leader w n then
    let! observed := gets (λ x, x.(harness).(observed_commit_index) !! n) in
    match observed with
    | None => raise KeyError "node_id"
    | Some observed =>
        let commit := (vol w n).(commit_index) in
        let previous_commit_index := if commit <? observed then 0 else observed in
        on_completeness (observe_commit w n previous_commit_index) ;;
        set_observed n commit
    end
  else ret tt.

Definition checkpoint : HW unit :=
  let! w := gets the_cluster in
  on_election_safety (assert_one_leader w) ;;
  on_append_only (assert_append_only w) ;;
  for_each w.(objs).(node_ids) observe_node ;;
  on_completeness (assert_recorded_leaders w) ;;
  on_watched (on_raft assert_log_matching) ;;
  on_watched assert_state_machine_safety.
