(* ===== verification/InvariantsPass.v ===== *)
(** * InvariantsPass: the executable safety properties hold

    Whatever a driven cluster does between two checkpoints, what the checkers of
    [RaftInvariants] have seen stays true of the specification ([seen_ok]), so
    no assertion of theirs ever fails. *)

From stdpp Require Import relations.
From S2P Require Import Prelude Simulator Quorum LogIndex KVCommands Refinement RaftSpec Raft Replication RaftRefine RaftSafe ReplicationRefine Driver DriverRefine DriverProperties DriverWitnesses AppWorld StateMachine KV Snapshot AppFacts AppInv AppRebuild AppCheckpoint AppSystem AppProperties AppWhole Follows System SystemProperties RaftInvariants.

Section checkers.
Context {C : Type} `{EqDecision C} (ids : list string).
Local Abbreviation quorum := (majority ids).
Local Abbreviation steps := (rtc (spec_step quorum true any_command)).
Local Abbreviation committed := (committed quorum).
Implicit Types (w : World (RaftSig (C := C))) (s : Spec C) (n : string) (t : Z).

(** What the checkers can read of a cluster *)
Record readable w s : Prop := {
  re_inv : spec_inv quorum true s;
  re_log n : read_log w n = inr (mkRaftLogView 0 0 (nlog s n));
  re_term n : 0 ≤ (dur w n).(current_term);
  re_leader n : is_leader w n = true →
    s.(elected) !! (dur w n).(current_term) = Some n ∧ s.(llogs) !! (dur w n).(current_term) = Some (nlog s n);
  re_recorded t n : w.(objs).(leaders_by_term) !! t = Some n → s.(elected) !! t = Some n;
  re_commit n : 0 ≤ (vol w n).(commit_index) ≤ zlen (nlog s n)
    ∧ committed s (dur w n).(current_term) (take (Z.to_nat (vol w n).(commit_index)) (nlog s n));
}.

Lemma driven_readable d s : D ids d s → readable d.(dw_cluster) s.
Proof.
  intros [HR _]. assert (∀ n, RaftRefine.view_of (dur d.(dw_cluster) n) = mkRaftLogView 0 0 (nlog s n)
    ∧ (dur d.(dw_cluster) n).(log) = nlog s n) as Hv.
  { intros n. by destruct (disc_good _ _ _ _ _ n _ _ HR eq_refl) as (-> & <- & _). }
  split.
  - apply HR.
  - intros n. unfold read_log. rewrite (log_view_returns _ _ _ _ _ _ _ _ HR). simpl. f_equal. apply Hv.
  - intros n. apply (rd_term _ _ _ _ (R_dur _ _ _ _ _ _ _ HR n)).
  - intros n Hl%bool_decide_eq_true. pose proof (R_role _ _ _ _ _ _ _ HR n ltac:(done)) as Hr.
    unfold role_ok in Hr. rewrite Hl in Hr. destruct Hr as (_ & ? & _ & HL). split; [done|by apply HL].
  - apply HR.
  - intros n. pose proof (R_commit _ _ _ _ _ _ _ HR n eq_refl) as Hc. by rewrite (proj2 (Hv n)) in Hc.
Qed.

(** ** What has been seen *)

Definition leaders_ok s (seen : gmap Z string) : Prop := ∀ t n, seen !! t = Some n → s.(elected) !! t = Some n.

Definition logs_ok s (logs : gmap (Z * string) (RaftLogView C)) : Prop := ∀ t n v, logs !! (t, n) = Some v →
  s.(elected) !! t = Some n ∧ ∃ l L, v = mkRaftLogView 0 0 l ∧ s.(llogs) !! t = Some L ∧ l `prefix_of` L.

Definition entries_ok s (seen : gmap Z (CommittedEntryObservation (C := C))) : Prop := ∀ i o, seen !! i = Some o →
  o.(ob_index) = i ∧ 1 ≤ i ∧ ∃ p, committed s o.(ob_committed_in_term) p ∧ p !! Z.to_nat (i - 1) = Some o.(ob_entry).

Lemma leaders_ok_mono s s' seen :
  spec_inv quorum true s → steps s s' → leaders_ok s seen → leaders_ok s' seen.
Proof. intros Hi Hs Hok t n Ht. eapply (spec_steps_elected quorum true); [done|done|by apply Hok]. Qed.

Lemma logs_ok_mono s s' logs : spec_inv quorum true s → steps s s' → logs_ok s logs → logs_ok s' logs.
Proof.
  intros Hi Hs Hok t n v Hv. destruct (Hok _ _ _ Hv) as (He & l & L & -> & HL & Hp).
  destruct (steps_llog quorum true _ _ _ _ eq_refl Hi Hs HL) as [k HL'].
  split; [by eapply (spec_steps_elected quorum true)|]. exists l, (L ++ k). split_and!; [done..|by apply prefix_app_r].
Qed.

Lemma entries_ok_mono s s' seen : spec_inv quorum true s → steps s s' → entries_ok s seen → entries_ok s' seen.
Proof.
  intros Hi Hs Hok i o Ho. destruct (Hok _ _ Ho) as (? & ? & p & Hc & Hp). split_and!; [done..|].
  exists p. split; [by eapply (steps_committed quorum true)|done].
Qed.

Section passes.
Context w s (Hw : readable w s).

(** *** Election Safety *)

Lemma wp_note_leader t n seen :
  s.(elected) !! t = Some n → leaders_ok s seen →
  wp (note_leader t n) (λ seen' _, leaders_ok s seen') (λ _ _, False) seen.
Proof.
  intros He Hok. unfold note_leader. wp_steps.
  - pose proof (li_leader _ _ (si_logs _ _ _ (re_inv _ _ Hw) eq_refl) _ _ He). lia.
  - destruct (seen !! t) as [e|] eqn:E; [|done]. rewrite (Hok _ _ E) in He. injection He as ->.
    by rewrite String.eqb_refl in *.
  - intros t' n'. intros [[<- <-]|[_ ?]]%lookup_insert_Some; [done|by apply Hok].
Qed.

Lemma wp_assert_one_leader seen :
  leaders_ok s seen → wp (assert_one_leader w) (λ seen' _, leaders_ok s seen') (λ _ _, False) seen.
Proof.
  intros Hok. unfold assert_one_leader. wp_step. eapply wp_mono; [apply (wp_for_each _ _ (leaders_ok s) (λ _ _, False)); [done|]| |done].
  - intros [t n] seen' Hin Hok'. apply wp_note_leader; [|done]. apply (re_recorded _ _ Hw).
    by apply elem_of_sorted_items.
  - intros seen' ? Hok'. apply (wp_for_each _ _ (leaders_ok s)); [done|]. intros n seen'' _ Hok''.
    apply wp_when; [|done]. intros Hl. apply wp_note_leader; [by apply (re_leader _ _ Hw)|done].
Qed.

(** *** Leader Append-Only *)

Lemma entry_at_whole (l : list (LogEntry C)) i :
  1 ≤ i ≤ zlen l → ∃ e, entry_at (mkRaftLogView 0 0 l) i = inr e ∧ l !! Z.to_nat (i - 1) = Some e.
Proof.
  intros Hi. destruct (lookup_lt_is_Some_2 l (Z.to_nat (i - 1))) as [e He]; [unfold zlen in Hi; lia|].
  exists e. split; [|done]. apply entry_at_lookup. simpl. split; [unfold last_index; simpl; lia|].
  unfold znth. by replace (Z.to_nat (i - 0 - 1)) with (Z.to_nat (i - 1)) by lia.
Qed.

Lemma wp_check_append_only (l l' : list (LogEntry C)) logs (Q : _ → _ → Prop) :
  l `prefix_of` l' → Q logs tt →
  wp (check_append_only (mkRaftLogView 0 0 l) (mkRaftLogView 0 0 l')) Q (λ _ _, False) logs.
Proof.
  intros Hp HQ. pose proof (prefix_length _ _ Hp) as Hlen. unfold check_append_only.
  unfold last_index, first_retained_index. cbn [LogIndex.base_index LogIndex.base_term LogIndex.entries].
  do 2 (wp_step; wp_step; [done || (unfold zlen in *; lia)|]). wp_step. wp_step; [done|].
  cbv zeta. eapply wp_mono; [apply (wp_for_each _ _ (λ x, x = logs) (λ _ _, False)); [done|]| |done]; [|by intros ? [] ->].
  intros i x Hi%elem_of_zrange ->. cbv beta.
  destruct (entry_at_whole l i) as (e & He & Hl); [lia|].
  destruct (entry_at_whole l' i) as (e' & He' & Hl'); [unfold zlen in *; lia|].
  rewrite He, He'. wp_steps; [|done]. assert (e' = e) as ->.
  { pose proof (prefix_lookup_Some _ _ _ _ Hl Hp). congruence. }
  by rewrite bool_decide_eq_true_2 in *.
Qed.

Lemma wp_observe_leader_log n logs :
  is_leader w n = true → logs_ok s logs →
  wp (observe_leader_log w n) (λ logs' _, logs_ok s logs') (λ _ _, False) logs.
Proof.
  intros Hl Hok. destruct (re_leader _ _ Hw n Hl) as [He HL]. unfold observe_leader_log.
  wp_step. wp_step; [by rewrite Hl in *|]. wp_step. wp_step. rewrite (re_log _ _ Hw). wp_step. wp_step. cbv beta.
  wp_step. set (t := current_term (dur w n)) in *.
  assert (logs_ok s (<[(t, n) := mkRaftLogView 0 0 (nlog s n)]> logs)) as Hnext.
  { intros t' n' v. intros [[[= <- <-] <-]|[_ ?]]%lookup_insert_Some; [|by apply Hok].
    split; [done|]. by exists (nlog s n), (nlog s n). }
  destruct (logs !! (t, n)) as [v|] eqn:E; [|by wp_steps].
  destruct (Hok _ _ _ E) as (_ & l & L & -> & HL' & Hp). apply wp_check_append_only; [congruence|]. by wp_steps.
Qed.

Lemma wp_assert_append_only logs :
  logs_ok s logs → wp (assert_append_only w) (λ logs' _, logs_ok s logs') (λ _ _, False) logs.
Proof.
  intros Hok. apply (wp_for_each _ _ (logs_ok s)); [done|]. intros n logs' _ Hok'.
  apply wp_when; [|done]. intros Hl. by apply wp_observe_leader_log.
Qed.

(** *** Leader Completeness *)

(** A log that has what was committed in earlier terms *)
Definition complete t (l : list (LogEntry C)) : Prop := ∀ t0 p, committed s t0 p → t0 < t → p `prefix_of` l.

Lemma wp_assert_leader_view t l seen :
  0 ≤ t → complete t l → entries_ok s seen →
  wp (assert_leader_view t (mkRaftLogView 0 0 l)) (λ seen' _, seen' = seen) (λ _ _, False) seen.
Proof.
  intros Ht Hl Hok. unfold assert_leader_view. wp_step. wp_step; [lia|]. wp_step. wp_step. cbv beta.
  apply (wp_for_each _ _ (λ x, x = seen)); [done|]. intros o x Ho ->. unfold check_observation.
  apply list_elem_of_fmap in Ho as ([i o'] & -> & Ho%elem_of_sorted_items). simpl.
  destruct (Hok _ _ Ho) as (Hi & H1 & p & Hc & Hp). rewrite Hi. set (o := o') in *.
  destruct (Z.leb_spec t (ob_committed_in_term o)); [by wp_steps|].
  destruct (Z.ltb_spec i 0); [lia|]. destruct (Z.eqb_spec i 0); [lia|].
  assert (l !! Z.to_nat (i - 1) = Some o.(ob_entry)) as Hlk
    by (eapply prefix_lookup_Some; [exact Hp|]; by eapply Hl).
  pose proof (lookup_lt_Some _ _ _ Hlk). destruct (entry_at_whole l i) as (e & He & Hle); [unfold zlen; lia|].
  rewrite He. unfold last_index. simpl. wp_steps; [unfold zlen in *; lia| |done].
  assert (e = ob_entry o) as -> by congruence. by rewrite bool_decide_eq_true_2 in *.
Qed.

Lemma complete_leader n : is_leader w n = true → complete (dur w n).(current_term) (nlog s n).
Proof.
  intros Hl t0 p Hc Ht. eapply (committed_held quorum true); [done|apply Hw|exact Hc|exact Ht|]. by apply (re_leader _ _ Hw).
Qed.

Lemma wp_assert_leader_node n seen :
  is_leader w n = true → entries_ok s seen →
  wp (assert_leader_node w n) (λ seen' _, seen' = seen) (λ _ _, False) seen.
Proof.
  intros Hl Hok. unfold assert_leader_node. wp_step. wp_step; [by rewrite Hl in *|]. wp_step. wp_step.
  rewrite (re_log _ _ Hw). apply wp_assert_leader_view; [apply Hw|by apply complete_leader|done].
Qed.

Lemma wp_note_committed n i seen :
  1 ≤ i ≤ (vol w n).(commit_index) → entries_ok s seen →
  wp (note_committed w n (mkRaftLogView 0 0 (nlog s n)) i) (λ seen' _, entries_ok s seen') (λ _ _, False) seen.
Proof.
  intros Hi Hok. destruct (re_commit _ _ Hw n) as [Hc Hcom].
  destruct (entry_at_whole (nlog s n) i) as (e & He & Hlk); [lia|]. unfold note_committed. wp_step. wp_step. rewrite He.
  wp_step. wp_step. cbv beta. set (c := take _ _) in Hcom.
  assert (c !! Z.to_nat (i - 1) = Some e) as Hce by (unfold c; rewrite lookup_take_lt by lia; done).
  destruct (seen !! i) as [o|] eqn:E; wp_step; [|done|].
  - destruct (Hok _ _ E) as (_ & _ & p & Hp & Hpe). assert (ob_entry o = e) as Heq; [|by rewrite bool_decide_eq_true_2 in *].
    destruct (committed_agree quorum true _ _ _ _ _ eq_refl (re_inv _ _ Hw) Hcom Hp) as [Hpre|Hpre].
    + pose proof (prefix_lookup_Some _ _ _ _ Hce Hpre). congruence.
    + pose proof (prefix_lookup_Some _ _ _ _ Hpe Hpre). congruence.
  - intros j o. intros [[<- <-]|[_ ?]]%lookup_insert_Some; [|by apply Hok]. simpl. split_and!; [done|lia|].
    by exists c.
Qed.

Lemma wp_observe_commit n previous seen :
  is_leader w n = true → 0 ≤ previous ≤ (vol w n).(commit_index) → entries_ok s seen →
  wp (observe_commit w n previous) (λ seen' _, entries_ok s seen') (λ _ _, False) seen.
Proof.
  intros Hl Hp Hok. unfold observe_commit. cbv zeta. wp_step. wp_step; [by rewrite Hl in *|].
  do 2 (wp_step; wp_step; [lia|]). wp_step. wp_step. rewrite (re_log _ _ Hw). wp_step.
  eapply wp_mono; [apply (wp_for_each _ _ (entries_ok s) (λ _ _, False)); [done|]| |done].
  - intros i seen' Hi%elem_of_zrange Hok'. apply wp_note_committed; [|done].
    unfold first_retained_index in Hi. simpl in Hi. lia.
  - intros seen' ? Hok'. eapply wp_mono; [by apply wp_assert_leader_node| |done]. by intros x ? ->.
Qed.

Lemma wp_assert_recorded seen :
  entries_ok s seen → wp (assert_recorded_leaders w) (λ seen' _, seen' = seen) (λ _ _, False) seen.
Proof.
  intros Hok. apply (wp_for_each _ _ (λ x, x = seen)); [done|]. intros [t n] x Hin ->.
  apply elem_of_sorted_items, (re_recorded _ _ Hw) in Hin. wp_step. wp_step. simpl. rewrite (re_log _ _ Hw).
  pose proof (li_leader _ _ (si_logs _ _ _ (re_inv _ _ Hw) eq_refl) _ _ Hin).
  apply wp_assert_leader_view; [lia| |done]. intros t0 p Hc Ht. by eapply (committed_held quorum true); [done|apply Hw|..].
Qed.
End passes.
End checkers.

(** ** The harness *)

Section harness.
Context (ids : list string) (ts : option (gmap string Z)).
Local Abbreviation quorum := (majority ids).
Local Abbreviation steps := (rtc (spec_step quorum true any_command)).
Implicit Types (y : SystemWorld) (h : RaftSafetyHarness) (x : HarnessWorld) (s : Spec KVCommand) (n : string).

(** What a harness has seen, of a cluster of these nodes *)
Record seen_ok s h : Prop := {
  se_leaders : leaders_ok s h.(election_safety);
  se_logs : logs_ok s h.(leader_append_only);
  se_entries : entries_ok ids s h.(leader_completeness);
  se_observed n : n ∈ ids → ∃ k, h.(observed_commit_index) !! n = Some k ∧ 0 ≤ k;
}.

Lemma seen_ok_mono s s' h : spec_inv quorum true s → steps s s' → seen_ok s h → seen_ok s' h.
Proof.
  intros Hi Hs [Hl Hg He Ho].
  split; [by eapply leaders_ok_mono|by eapply logs_ok_mono|by eapply entries_ok_mono|done].
Qed.

Lemma seen_ok_new s : seen_ok s (new_harness ids).
Proof.
  split; simpl; [by intros ? ?; rewrite lookup_empty|by intros ? ? ?; rewrite lookup_empty|
    by intros ? ?; rewrite lookup_empty|].
  intros n Hn. exists 0. split; [|done]. apply elem_of_list_to_map_1'.
  - by intros k (? & [= <- ->] & _)%list_elem_of_fmap.
  - apply list_elem_of_fmap. by exists n.
Qed.

(** The parts of a harness *)
Lemma wp_on_election_safety {A} (m : M (gmap Z string) A) (Q : _ → A → Prop) E x :
  wp m (λ seen a, Q (mkHarnessWorld x.(watched) (mkHarness seen x.(harness).(leader_append_only)
      x.(harness).(leader_completeness) x.(harness).(observed_commit_index))) a) (λ _ _, False)
    x.(harness).(election_safety) →
  wp (on_election_safety m) Q E x.
Proof. unfold wp, on_election_safety. destruct (m _) as [? [?|?]]; simpl; [done|auto]. Qed.

Lemma wp_on_append_only {A} (m : M _ A) (Q : _ → A → Prop) E x :
  wp m (λ logs a, Q (mkHarnessWorld x.(watched) (mkHarness x.(harness).(election_safety) logs
      x.(harness).(leader_completeness) x.(harness).(observed_commit_index))) a) (λ _ _, False)
    x.(harness).(leader_append_only) →
  wp (on_append_only m) Q E x.
Proof. unfold wp, on_append_only. destruct (m _) as [? [?|?]]; simpl; [done|auto]. Qed.

Lemma wp_on_completeness {A} (m : M _ A) (Q : _ → A → Prop) E x :
  wp m (λ seen a, Q (mkHarnessWorld x.(watched) (mkHarness x.(harness).(election_safety)
      x.(harness).(leader_append_only) seen x.(harness).(observed_commit_index))) a) (λ _ _, False)
    x.(harness).(leader_completeness) →
  wp (on_completeness m) Q E x.
Proof. unfold wp, on_completeness. destruct (m _) as [? [?|?]]; simpl; [done|auto]. Qed.

Lemma wp_on_watched_read {A} (m : AM A) a (Q : _ → A → Prop) E x :
  m x.(watched) = (x.(watched), inr a) → Q x a → wp (on_watched m) Q E x.
Proof. unfold wp, on_watched. intros -> HQ. by destruct x. Qed.

Definition harness_inv (w : AppWorld) s x : Prop := x.(watched) = w ∧ seen_ok s x.(harness).

Lemma wp_observe_node w s n x :
  readable ids w.(raft) s → n ∈ ids → harness_inv w s x →
  wp (observe_node n) (λ x' _, harness_inv w s x') (λ _ _, False) x.
Proof.
  intros Hre Hn [<- Hs]. unfold observe_node. wp_step. wp_step. cbv beta. unfold the_cluster.
  destruct (is_leader (raft (watched x)) n) eqn:Hl; [|by wp_steps].
  wp_step. wp_step. cbv beta. destruct (se_observed _ _ Hs n Hn) as (k & -> & Hk). cbv zeta. wp_step.
  pose proof (re_commit _ _ _ Hre n) as [Hc _].
  apply wp_on_completeness. eapply wp_mono; [apply (wp_observe_commit _ _ _ Hre); [done| |apply Hs]| |done].
  - destruct (Z.ltb_spec (vol (raft (watched x)) n).(commit_index) k); lia.
  - intros seen ? Hok. wp_steps. split; [done|]. destruct Hs as [Ha Hb _ Ho]. split; try done. simpl.
    intros m Hm. destruct (decide (m = n)) as [->|Hne].
    + rewrite lookup_insert_eq. eexists. split; [done|lia].
    + rewrite lookup_insert_ne by done. by apply Ho.
Qed.

Lemma checkpoint_passes y s H h :
  follows ids y s H → seen_ok s h →
  ∃ h', checkpoint (mkHarnessWorld y.(store) h) = (mkHarnessWorld y.(store) h', inr tt) ∧ seen_ok s h'.
Proof.
  intros Hf Hs. pose proof (driven_readable _ _ _ (fo_driven _ _ _ _ Hf)) as Hre.
  change (dw_cluster (driven_part y)) with (raft (store y)) in Hre.
  pose proof (follows_ids _ _ _ _ Hf) as Hids. unfold cluster_ids in Hids.
  assert (wp checkpoint (λ x' _, harness_inv y.(store) s x') (λ _ _, False) (mkHarnessWorld y.(store) h)) as Hwp.
  { unfold checkpoint. wp_step. wp_step. cbv beta. unfold the_cluster. cbn [watched]. wp_step.
    apply wp_on_election_safety. eapply wp_mono; [apply (wp_assert_one_leader _ _ _ Hre); apply Hs| |done].
    intros seen ? Hseen. wp_step. apply wp_on_append_only.
    eapply wp_mono; [apply (wp_assert_append_only _ _ _ Hre); apply Hs| |done]. intros logs ? Hlogs. wp_step. cbn [watched harness].
    eapply wp_mono; [apply (wp_for_each _ _ (harness_inv y.(store) s) (λ _ _, False))| |done].
    - split; [done|]. destruct Hs. by split.
    - intros n x Hn Hx. rewrite Hids in Hn. by apply wp_observe_node.
    - intros x ? [Hx Hsx]. wp_step. apply wp_on_completeness.
      eapply wp_mono; [apply (wp_assert_recorded _ _ _ Hre); apply Hsx| |done]. intros ? ? ->.
      rewrite <-Hx in *. wp_step. apply (wp_on_watched_read _ tt).
      + cbn [watched]. unfold on_raft.
        pose proof (wp_assert_log_matching true ids ids None _ _ _ (proj1 (fo_driven _ _ _ _ Hf))) as Hlm.
        change (dw_cluster (driven_part y)) with (raft (store y)) in Hlm. rewrite <-Hx in Hlm. unfold wp in Hlm.
        destruct (assert_log_matching _) as [w' [e|[]]]; [by destruct Hlm as (_ & _ & ?)|]. simpl. subst w'.
        by rewrite set_raft_id.
      + apply (wp_on_watched_read _ tt); [|by split; [|destruct Hsx; split]]. cbn [watched]. rewrite Hx.
        apply (assert_safety_whole H); [by apply app_reachable_follows, Hf|].
        intros n Hn. unfold cluster_ids in Hn. rewrite <-Hx, Hids in Hn.
        split; [by eapply follows_whole|by apply (fo_nodes _ _ _ _ Hf)]. }
  unfold wp in Hwp. destruct (checkpoint _) as [[w' h'] [e|[]]]; [done|]. destruct Hwp as [Hx Hok].
  simpl in *. subst w'. by exists h'.
Qed.

(** A system under watch: the harness is built with the applier, and from then
    on sees any calls of Raft and of the store. *)
Inductive watching : SystemWorld → RaftSafetyHarness → Prop :=
  | watch_start y w' :
      sys_reachable ids ts y → exec_app AppRebuild y.(store) = (w', inr tt) →
      watching (set_store w' y) (new_harness (cluster_ids y.(store)))
  | watch_call y h o y' r :
      watching y h → sys_ok y o → o ≠ SRebuild → exec_sys o y = (y', r) → watching y' h
  | watch_checkpoint y h x r :
      watching y h → checkpoint (mkHarnessWorld y.(store) h) = (x, r) →
      watching (set_store x.(watched) y) x.(harness).

Lemma watching_seen y h :
  watching y h → sys_reachable ids ts y ∧ ∃ s H, follows ids y s H ∧ seen_ok s h.
Proof.
  induction 1 as [y w' Hy E|y h o y' r _ [Hy IH] Hok Hne E|y h x r _ [Hy IH] E].
  - assert (sys_reachable ids ts (set_store w' y)) as Hy'.
    { eapply sys_step; [exact Hy|]. apply (sys_call ids ts y SRebuild _ (inr tt)); [done| |done].
      unfold exec_sys, on_store. by rewrite E. }
    split; [done|]. destruct (sys_reachable_follows _ _ _ Hy) as (_ & _ & _ & s0 & H0 & Hf0).
    destruct (sys_reachable_follows _ _ _ Hy') as (_ & _ & _ & s & H & Hf).
    exists s, H. split; [done|]. rewrite (follows_ids _ _ _ _ Hf0). apply seen_ok_new.
  - destruct IH as (s & H & Hf & Hs). destruct (sys_reachable_follows _ _ _ Hy) as (Hne' & Hnd & Hts & _).
    assert (sys_next ids ts y y') as Hn by (by eapply sys_call).
    split; [by eapply sys_step|].
    destruct (follows_next _ _ _ _ _ _ Hne' Hnd Hts Hf Hn) as (s' & H' & Hst & _ & Hf').
    exists s', H'. split; [done|]. eapply seen_ok_mono; [exact (driven_inv _ _ _ (fo_driven _ _ _ _ Hf))|done|done].
  - destruct IH as (s & H & Hf & Hs). destruct (checkpoint_passes _ _ _ _ Hf Hs) as (h' & E' & Hs').
    rewrite E' in E. injection E as <- <-. simpl. assert (set_store (store y) y = y) as -> by by destruct y.
    split; [done|]. by exists s, H.
Qed.

(** C17: The executable safety properties are true: at whatever moments of whatever
    execution of the system a harness takes its checkpoints, Election Safety,
    Leader Append-Only, Leader Completeness (of the leaders of the moment and of
    every recorded one), Log Matching and State Machine Safety are accepted; a
    checkpoint raises nothing and leaves the system as it is. *)
Theorem harness_accepts y h :
  watching y h → ∃ h', checkpoint (mkHarnessWorld y.(store) h) = (mkHarnessWorld y.(store) h', inr tt).
Proof.
  intros [_ (s & H & Hf & Hs)]%watching_seen. destruct (checkpoint_passes _ _ _ _ Hf Hs) as (h' & E & _). by exists h'.
Qed.
End harness.

(** * InvariantsWitnesses: a harness over two leaders *)

Definition watched_start : SystemWorld := mkSystem (exec_app AppRebuild sys_start.(store)).1 [] [].

Lemma watched_start_watching : watching sys_ids None watched_start (new_harness sys_ids).
Proof.
  apply (watch_start _ _ sys_start); [exact sys_start_reachable|].
  apply outcome_of with (q := exec_app AppRebuild sys_start.(store)); [reflexivity|vm_compute; reflexivity].
Qed.

Lemma watching_ops l y h :
  watching sys_ids None y h → Forall plain_sys l → watching sys_ids None (sys_ops l y) h.
Proof.
  revert y. induction l as [|o l IH]; intros y Hy Hl; [exact Hy|]. apply Forall_cons in Hl as [Ho Hl].
  apply IH; [|exact Hl]. eapply (watch_call _ _ y h o); [exact Hy|..|apply surjective_pairing].
  - destruct o; simpl in *; try done. by apply plain_drive_ok.
  - by intros ->.
Qed.

Definition checked (y : SystemWorld) (h : RaftSafetyHarness) : RaftSafetyHarness :=
  (checkpoint (mkHarnessWorld y.(store) h)).1.(harness).

Lemma watching_checked y h : watching sys_ids None y h → watching sys_ids None y (checked y h).
Proof.
  intros Hy. destruct (checkpoint (mkHarnessWorld (store y) h)) as [x r] eqn:E.
  pose proof (watch_checkpoint _ _ _ _ _ _ Hy E) as Hx. unfold checked. rewrite E. simpl.
  destruct (watching_seen _ _ _ _ Hy) as (_ & s & H & Hf & Hs).
  destruct (checkpoint_passes _ _ _ _ _ Hf Hs) as (h' & E' & _). rewrite E' in E. injection E as <- <-.
  by destruct y.
Qed.

(** [n1] leads and commits; after a checkpoint it crashes, and [n2] leads. *)
Definition watched1 : SystemWorld := sys_ops
  [SDrive (DCall (OpStartElection "n1")); SDrive (DCall (OpRun 50 None));
   SDrive (DBarrier "n1" put_a); SDrive (DBarrier "n1" CmdBarrier); SDrive (DNew "n1");
   SDrive (DReplicate 0 50 0 "n2" (Some 3))] watched_start.
Definition watched2 : SystemWorld := sys_ops
  [SApply "n1"; SDrive (DCall (OpCrash "n1")); SDrive (DCall (OpStartElection "n2")); SDrive (DCall (OpRun 50 None));
   SDrive (DBarrier "n2" put_a); SDrive (DBarrier "n2" (CmdOperation (Put "b" "2"))); SDrive (DNew "n2");
   SDrive (DRecover 1 50 10 "n3" (Some 8)); SApply "n3"] watched1.

Definition harness1 : RaftSafetyHarness := checked watched1 (new_harness sys_ids).

Lemma watched2_watching : watching sys_ids None watched2 harness1.
Proof.
  apply watching_ops; [|repeat constructor]. apply watching_checked.
  apply watching_ops; [exact watched_start_watching|repeat constructor].
Qed.

(** What the two checkpoints have seen *)
Lemma checked_evidence :
  (λ o, (o.(ob_index), o.(ob_committed_in_term), o.(ob_leader_id))) <$>
    committed_entries (leader_completeness (checked watched2 harness1))
  = [(1, 1, "n1"); (2, 1, "n1"); (3, 2, "n2"); (4, 2, "n2")]
  ∧ sorted_items (election_safety (checked watched2 harness1)) = [(1, "n1"); (2, "n2")].
Proof. split; vm_compute; reflexivity. Qed.

Lemma harness_accepts_witness :
  ∃ h', checkpoint (mkHarnessWorld watched2.(store) harness1) = (mkHarnessWorld watched2.(store) h', inr tt)
    ∧ sorted_items h'.(election_safety) = [(1, "n1"); (2, "n2")].
Proof.
  destruct (harness_accepts _ _ _ _ watched2_watching) as [h' E]. exists h'. split; [exact E|].
  pose proof (proj2 checked_evidence) as He. unfold checked in He. rewrite E in He. exact He.
Defined.
