(* ===== verification/AppWitnesses.v ===== *)
(** * AppWitnesses: the replicated store on two nodes

    A history with a client request, a barrier, a retry of the request and an
    operation.  Both nodes apply from logs of their own; one compacts and the
    other installs its checkpoint; then everything is rebuilt from disk.  The
    last examples are the findings on [kv.py] and [snapshot.py]. *)

From S2P Require Import Prelude Simulator LogIndex KVCommands Raft AppWorld StateMachine KV Snapshot.
From S2P Require Import AppFacts AppInv AppRebuild AppCheckpoint AppSystem AppProperties.

Implicit Types (w : AppWorld) (n : string) (H : list Entry).

(** ** Running the application layer *)

Definition committed_inb H w n : bool :=
  match view_of w n with
  | inl _ => true
  | inr v => forallb (λ i, match entry_at v i with
      | inr e => bool_decide (znth H (i - 1) = Some e) | inl _ => true end)
      (zrange (v.(base_index) + 1) ((vol w.(raft) n).(commit_index) + 1))
  end.

Lemma committed_inb_ok H w n : committed_inb H w n = true → committed_in H w n.
Proof.
  unfold committed_inb. intros Hb v i e Hv Hi He. rewrite Hv, forallb_forall in Hb.
  assert (i ∈ zrange (base_index v + 1) (commit_index (vol (raft w) n) + 1)) as Hin.
  { apply elem_of_zrange. apply entry_at_lookup in He. lia. }
  specialize (Hb i (proj1 (list_elem_of_In _ _) Hin)). rewrite He in Hb. by apply bool_decide_eq_true in Hb.
Qed.

Definition app_okb H w (o : app_op) : bool :=
  match o with
  | AppApply n => committed_inb H w n
  | AppCreate n => (disk_of w n).(sm_base_index) =? 0
  | AppInstall _ s _ =>
      match new_KVSnapshot s.(last_included_index) s.(last_included_term)
        s.(snap_state) s.(client_requests) s.(voting_configuration) with
      | inr s' => bool_decide (s' = s) | inl _ => false end
      && (0 <=? s.(last_included_index)) && (s.(last_included_index) <=? zlen H)
      && bool_decide (snapshot_image s = image_at H s.(last_included_index))
  | AppRebuild => bool_decide (NoDup (cluster_ids w))
  | _ => true
  end.

Lemma app_okb_ok H w o : app_okb H w o = true → app_ok H w o.
Proof.
  destruct o as [r|n|n|n|n s preserve| |]; simpl; try done.
  - apply committed_inb_ok.
  - apply Z.eqb_eq.
  - intros [[[Hwf Hlo]%andb_prop Hhi]%andb_prop Him]%andb_prop.
    apply bool_decide_eq_true in Him. unfold snapshot_wf, faithful. split; [|by split; [lia|]].
    destruct (new_KVSnapshot _ _ _ _ _) as [|s']; [done|]. by apply bool_decide_eq_true in Hwf as ->.
  - apply bool_decide_eq_true.
Qed.

Definition app_next H (ow : option AppWorld) (o : app_op) : option AppWorld :=
  w ← ow; if app_okb H w o then
    match exec_app o w with (w', inr _) => Some w' | _ => None end
  else None.

Definition app_run H w (l : list app_op) : option AppWorld := foldl (app_next H) (Some w) l.

Lemma app_run_none H l : foldl (app_next H) None l = None.
Proof. by induction l. Qed.

Lemma app_run_reachable H w l w' : app_reachable H w → app_run H w l = Some w' → app_reachable H w'.
Proof.
  unfold app_run. revert w. induction l as [|o l IH]; intros w Hw; simpl; [by intros [= <-]|].
  destruct (app_okb H w o) eqn:Ho; [|by rewrite app_run_none].
  destruct (exec_app o w) as [w1 [e|[]]] eqn:E; [by rewrite app_run_none|].
  apply IH. eapply app_reach_op; [exact Hw|by apply app_okb_ok|exact E|done].
Qed.

(** ** Two nodes *)

Definition kv_ids : list string := ["a"; "b"].

(** A cluster over these logs and commit indexes *)
Definition raft_with (d : gmap string RaftDurable) (commits : list (string * Z)) : RaftWorld :=
  ((init_cluster kv_ids None ;;
    for_each commits (λ c, upd_vol c.1 (set_commit c.2))) (boot_world [] d)).1.

Definition disk_log (es : list Entry) : RaftDurable := mkRaftDurable 2 None es 0 0.
Definition same_logs (es : list Entry) : gmap string RaftDurable :=
  list_to_map ((λ n, (n, disk_log es)) <$> kv_ids).

Definition put_x : ClientRequest := mkClientRequest "c" 1 (Put "x" "1").
Definition kv_history : list Entry :=
  [mkLogEntry 1 (CmdRequest put_x); mkLogEntry 1 CmdBarrier; mkLogEntry 2 (CmdRequest put_x);
   mkLogEntry 2 (CmdOperation (Put "y" "2"))].

Definition app_world0 (r : RaftWorld) : AppWorld := mkAppWorld r ∅ (mkApplier ∅ ∅) ∅ [].

Definition built (r : RaftWorld) : AppWorld := (exec_app AppRebuild (app_world0 r)).1.

Lemma built_reachable H (r : RaftWorld) :
  bool_decide (NoDup r.(objs).(node_ids)) = true → (exec_app AppRebuild (app_world0 r)).2 = inr tt →
  app_reachable H (built r).
Proof.
  intros Hnd%bool_decide_eq_true E. eapply (app_reach_init H (app_world0 r)); [done|exact Hnd|].
  unfold built. rewrite <-E. apply surjective_pairing.
Qed.

Definition world_of (ow : option AppWorld) (w : AppWorld) : AppWorld := default w ow.

(** [a] has everything committed, [b] the first two entries. *)
Definition kv_start : AppWorld := built (raft_with (same_logs kv_history) [("a", 4); ("b", 2)]).

Lemma kv_start_reachable : app_reachable kv_history kv_start.
Proof. apply built_reachable; vm_compute; reflexivity. Qed.

Definition kv_applied : AppWorld :=
  world_of (app_run kv_history kv_start [AppApply "a"; AppApply "b"]) kv_start.

Lemma kv_applied_reachable : app_reachable kv_history kv_applied.
Proof.
  apply (app_run_reachable kv_history kv_start [AppApply "a"; AppApply "b"]); [apply kv_start_reachable|].
  vm_compute. reflexivity.
Qed.

Definition kv_snapshot_a : KVSnapshot :=
  mkKVSnapshot 4 2 [("x", "1"); ("y", "2")] [mkSnapshotClientRequest "c" 1 (Put "x" "1")] None.

Definition kv_transferred : AppWorld :=
  world_of (app_run kv_history kv_applied [AppCompact "a"; AppInstall "b" kv_snapshot_a false; AppRebuild; AppAssert])
    kv_applied.

Lemma kv_transferred_reachable : app_reachable kv_history kv_transferred.
Proof.
  apply (app_run_reachable kv_history kv_applied
    [AppCompact "a"; AppInstall "b" kv_snapshot_a false; AppRebuild; AppAssert]); [apply kv_applied_reachable|].
  vm_compute. reflexivity.
Qed.

(** ** The properties at these worlds *)

Lemma kv_applied_node : nodes kv_applied !! "a" = Some (node_applied kv_applied "a").
Proof. vm_compute. reflexivity. Qed.

Lemma app_replica_refines_witness :
  image_of kv_applied "a" = replay kv_image0 (commands_of (take 4 kv_history)).
Proof.
  pose proof (app_replica_refines kv_history kv_applied "a" (node_applied kv_applied "a")
    kv_applied_reachable kv_applied_node) as (_ & _ & H & _).
  exact H.
Defined.

Lemma kv_start_committed : committed_in kv_history kv_start "a".
Proof. apply committed_inb_ok. vm_compute. reflexivity. Qed.

Lemma apply_committed_complete_witness :
  ∃ w', kv_apply_committed "a" kv_start = (w', inr (records_from "a" 0 kv_history))
    ∧ image_of w' "a" = replay kv_image0 (commands_of kv_history).
Proof.
  assert (ready kv_start "a" (node_applied kv_start "a")) as Hr.
  { split; [vm_compute; reflexivity|]. right. exists (mkRaftLogView 0 0 kv_history).
    split; [vm_compute; reflexivity|]. split; vm_compute; discriminate. }
  assert (nodes kv_start !! "a" = Some (node_applied kv_start "a")) as Hn by (vm_compute; reflexivity).
  pose proof (apply_committed_complete kv_history kv_start "a" (node_applied kv_start "a")
    kv_start_reachable Hn kv_start_committed Hr) as H. cbv zeta in H.
  assert (to_apply kv_history kv_start "a" (node_applied kv_start "a") = kv_history) as Ht
    by (vm_compute; reflexivity).
  assert (image_of kv_start "a" = kv_image0) as Hi by (vm_compute; reflexivity).
  assert (na_last_applied (node_applied kv_start "a") = 0) as Hl by (vm_compute; reflexivity).
  assert (acceptable kv_image0 kv_history = true) as Ha by (vm_compute; reflexivity).
  rewrite Ht, Hi, Hl, Ha in H.
  destruct H as (w' & H1 & H2 & _). exists w'. split; [exact H1|exact H2].
Defined.

Lemma retry_has_no_effect_witness :
  image_of kv_applied "a" = replay kv_image0 [CmdRequest put_x; CmdBarrier; CmdOperation (Put "y" "2")].
Proof.
  apply (retry_has_no_effect kv_history kv_applied "a" (node_applied kv_applied "a") []
    (mkLogEntry 1 (CmdRequest put_x)) [mkLogEntry 1 CmdBarrier] (mkLogEntry 2 (CmdRequest put_x))
    [mkLogEntry 2 (CmdOperation (Put "y" "2"))] put_x put_x kv_applied_reachable kv_applied_node);
    reflexivity.
Defined.

Lemma kv_ids_built w : cluster_ids w = kv_ids → is_Some (nodes w !! "a") → is_Some (nodes w !! "b") →
  ∀ n, n ∈ cluster_ids w → is_Some (nodes w !! n).
Proof.
  intros -> Ha Hb n [->|[->|Hn%elem_of_nil]%elem_of_cons]%elem_of_cons; done.
Qed.

Lemma replicas_consistent_witness :
  assert_replica_consistency kv_transferred = (kv_transferred, inr tt).
Proof.
  apply (replicas_consistent kv_history kv_transferred kv_transferred_reachable).
  apply kv_ids_built; [vm_compute; reflexivity|eexists; vm_compute; reflexivity..].
Defined.

Lemma rebuild_restores_witness :
  ∃ w', init_kv kv_applied = (w', inr tt) ∧ image_of w' "b" = image_of kv_applied "b".
Proof.
  assert (NoDup (cluster_ids kv_applied)) as Hnd
    by (apply (bool_decide_unpack _); vm_compute; exact I).
  pose proof (rebuild_restores kv_history kv_applied kv_applied_reachable Hnd
    (kv_ids_built kv_applied eq_refl (mk_is_Some _ _ kv_applied_node)
      ltac:(eexists; vm_compute; reflexivity))) as [_ H].
  destruct (forallb _ _) eqn:Hc; [|vm_compute in Hc; discriminate].
  destruct H as (w' & H & Hi). exists w'. split; [exact H|]. apply Hi.
  change (cluster_ids kv_applied) with kv_ids. right. left.
Defined.

Definition kv_compacted : AppWorld := (compact "a" kv_applied).1.

Lemma checkpoint_transfers_witness :
  image_of (install "b" kv_snapshot_a false kv_compacted).1 "b" = image_of kv_applied "a".
Proof.
  assert (compact "a" kv_applied = (kv_compacted, inr kv_snapshot_a)) as Hc by (vm_compute; reflexivity).
  pose proof (checkpoint_transfers kv_history kv_applied "a" kv_compacted kv_snapshot_a
    kv_applied_reachable Hc) as [_ H].
  apply (H kv_compacted "b" false); vm_compute; [reflexivity|discriminate].
Defined.

(** ** Findings *)

Definition request (id : Z) (v : string) : Entry := mkLogEntry 1 (CmdRequest (mkClientRequest "c" id (Put "x" v))).

(** A request that is already stale reuses an identity, in another batch, for
    another operation.  The live store accepts it, as it keeps no identity of a
    stale request; the store built again over the same history does not. *)
Definition stale_history : list Entry := [request 2 "2"; request 1 "1"; request 1 "9"].
Definition stale_world : AppWorld :=
  world_of (app_run stale_history (built (raft_with (same_logs stale_history) [("a", 2)]))
    [AppApply "a"; AppRaft (raft_with (same_logs stale_history) [("a", 3)]); AppApply "a"])
    (app_world0 (raft_with ∅ [])).

Lemma kv_stale_identity_breaks_rebuild :
  app_reachable stale_history stale_world
  ∧ (node_applied stale_world "a").(na_last_applied) = 3
  ∧ (exec_app AppRebuild stale_world).2 = inl conflict.
Proof.
  split; [|split; vm_compute; reflexivity].
  apply (app_run_reachable stale_history (built (raft_with (same_logs stale_history) [("a", 2)]))
    [AppApply "a"; AppRaft (raft_with (same_logs stale_history) [("a", 3)]); AppApply "a"]);
    [|vm_compute; reflexivity].
  apply built_reachable; vm_compute; reflexivity.
Qed.

(** [KVSnapshotStore] replays the history without the rule for stale requests:
    the checkpoint the store has just taken does not survive its own check. *)
Definition stale_snapshot : AppWorld :=
  world_of (app_run [request 2 "2"; request 1 "1"]
    (built (raft_with (same_logs [request 2 "2"; request 1 "1"]) [("a", 2)])) [AppApply "a"; AppCreate "a"])
    (app_world0 (raft_with ∅ [])).

Lemma snapshot_store_rejects_stale :
  app_reachable [request 2 "2"; request 1 "1"] stale_snapshot
  ∧ is_Some ((disk_of stale_snapshot "a").(kv_snapshot))
  ∧ (exec_app AppRebuild stale_snapshot).2 = inr tt
  ∧ (init_store stale_snapshot).2
    = inl (Exn AssertionError "snapshot KV state diverges from durable applied history").
Proof.
  split; [|split; [eexists; vm_compute; reflexivity|split; vm_compute; reflexivity]].
  apply (app_run_reachable [request 2 "2"; request 1 "1"]
    (built (raft_with (same_logs [request 2 "2"; request 1 "1"]) [("a", 2)])) [AppApply "a"; AppCreate "a"]);
    [|vm_compute; reflexivity].
  apply built_reachable; vm_compute; reflexivity.
Qed.

(** [create] without [compact], after an earlier compaction, overwrites the
    snapshot of the boundary: the store cannot be built again. *)
Definition bare_world : AppWorld :=
  world_of (app_run kv_history (built (raft_with (same_logs kv_history) [("a", 2)]))
    [AppApply "a"; AppCompact "a"]) (app_world0 (raft_with ∅ [])).
Definition advance_a (r : RaftWorld) : RaftWorld := (upd_vol "a" (set_commit 4) r).1.
Definition bare_created : AppWorld :=
  (create "a" (kv_apply_committed "a" (set_raft (advance_a bare_world.(raft)) bare_world)).1).1.

Lemma create_after_compact_breaks_rebuild :
  app_reachable kv_history bare_world
  ∧ (exec_app AppRebuild bare_world).2 = inr tt
  ∧ is_Some ((disk_of bare_created "a").(kv_snapshot))
  ∧ (exec_app AppRebuild bare_created).2
    = inl (Exn AssertionError "KV snapshot index diverges from state-machine boundary").
Proof.
  split; [|split; [vm_compute; reflexivity|split; [eexists; vm_compute; reflexivity|vm_compute; reflexivity]]].
  apply (app_run_reachable kv_history (built (raft_with (same_logs kv_history) [("a", 2)]))
    [AppApply "a"; AppCompact "a"]); [|vm_compute; reflexivity].
  apply built_reachable; vm_compute; reflexivity.
Qed.
