(* ===== verification/SessionSpec.v ===== *)
(** * SessionSpec: what the clients of a replicated log may observe

    The abstract specification of the session system: the committed history, a
    list of entries, together with the request each write stands for ([issued])
    and a point of the history for each answered operation ([points]).
    [ordered] histories replay to the effects of their distinct requests, and
    when the points are in order with real time ([points_ok]) the client history
    is explained by one order of operations ([points_explain]).

    It is a specification: no definition of this file translates code. *)

From stdpp Require Import relations.
From S2P Require Import Prelude Quorum LogIndex KVCommands History Linearizability Locality Projection MultiKey RaftSpec Raft AppWorld KV AppFacts AppSystem AppProperties.

Implicit Types (cs l : list KVCommand) (r : ClientRequest) (rs : list ClientRequest) (H : list Entry)
  (h : OperationHistory) (i : Invocation) (issued : gmap string ClientRequest) (points : gmap string nat).

Local Abbreviation client r := (r.(cr_client_id)).
Local Abbreviation number r := (r.(cr_request_id)).

(** ** Histories of requests *)

Definition add_request rs (c : KVCommand) : list ClientRequest :=
  match c with CmdRequest r => if decide (r ∈ rs) then rs else rs ++ [r] | _ => rs end.

(** The requests of a history, in the order of their first occurrence *)
Definition distinct cs : list ClientRequest := foldl add_request [] cs.

Lemma add_request_prefix rs c : rs `prefix_of` add_request rs c.
Proof. destruct c as [op|r| |ty|x]; simpl; try done. case_decide; [done|by eexists]. Qed.

Lemma distinct_prefix cs cs' : cs `prefix_of` cs' → distinct cs `prefix_of` distinct cs'.
Proof.
  intros [k ->]. unfold distinct. rewrite foldl_app. generalize (foldl add_request [] cs) as rs.
  induction k as [|c k IH]; intros rs; simpl; [done|]. etrans; [apply add_request_prefix|apply IH].
Qed.

Lemma distinct_nodup cs : NoDup (distinct cs).
Proof.
  unfold distinct. assert (NoDup (@nil ClientRequest)) as Hn by constructor. revert Hn. generalize (@nil ClientRequest) as rs.
  induction cs as [|c cs IH]; intros rs Hn; simpl; [done|]. apply IH. destruct c as [op|r| |ty|x]; simpl; try done.
  case_decide; [done|]. apply NoDup_app. split_and!; [done|set_solver|apply NoDup_singleton].
Qed.

Definition run_writes rs : gmap string string := foldl (λ st r, execute_operation r.(cr_operation) st) ∅ rs.

Lemma distinct_snoc cs c : distinct (cs ++ [c]) = add_request (distinct cs) c.
Proof. unfold distinct. by rewrite foldl_app. Qed.

Lemma elem_of_distinct cs r : r ∈ distinct cs ↔ CmdRequest r ∈ cs.
Proof.
  induction cs as [|c cs IH] using rev_ind; [by split; intros ?%elem_of_nil|].
  rewrite distinct_snoc, elem_of_app, list_elem_of_singleton. destruct c as [op|r'| |ty|x]; simpl; [naive_solver| |naive_solver..].
  case_decide as Hd; [|rewrite elem_of_app, list_elem_of_singleton]; naive_solver.
Qed.

(** What clients append, one request after the other: no bare operations, and a
    new request has a higher number than its client's earlier ones. *)
Record ordered cs : Prop := {
  or_plain op : CmdOperation op ∉ cs;
  or_number r : CmdRequest r ∈ cs → 0 ≤ number r;
  or_newer l r l' r' : cs = l ++ CmdRequest r :: l' → CmdRequest r ∉ l → CmdRequest r' ∈ l →
    client r' = client r → number r' < number r;
}.

Lemma ordered_snoc cs c : ordered (cs ++ [c]) → ordered cs.
Proof.
  intros [Hp Hn Hr]. split.
  - intros op Hop. apply (Hp op). set_solver.
  - intros r Hr'. apply Hn. set_solver.
  - intros l r l' r' -> Hni Hin Hc. apply (Hr l r (l' ++ [c]) r'); [by rewrite <-app_assoc|done..].
Qed.

(** Replaying such a history executes each request once. *)
Lemma replay_ordered cs :
  ordered cs →
  (replay kv_image0 cs).(kv_state) = run_writes (distinct cs)
  ∧ ∀ c q op, (replay kv_image0 cs).(kv_requests) !! (c, q) = Some op ↔ mkClientRequest c q op ∈ distinct cs.
Proof.
  induction cs as [|x cs IH] using rev_ind.
  { intros _. split; [done|]. intros c q op. split; [done|by intros ?%elem_of_nil]. }
  intros Ho. pose proof (ordered_snoc _ _ Ho) as Ho'. specialize (IH Ho') as [Hst Hreq].
  unfold replay in *. rewrite foldl_app, distinct_snoc. cbn [foldl]. set (im := foldl step_image kv_image0 cs) in *.
  destruct x as [op|r| |ty|y]; try done.
  { destruct (or_plain _ Ho op). set_solver. }
  assert (mkClientRequest (client r) (number r) (cr_operation r) = r) as Hr by by destruct r.
  cbn [step_image add_request].
  destruct (kv_requests im !! (client r, number r)) as [op|] eqn:Hlook.
  - rewrite Hreq in Hlook. destruct (decide (r ∈ distinct cs)) as [|Hni]; [done|]. exfalso.
    pose proof Hlook as Hin%elem_of_distinct.
    assert (number (mkClientRequest (client r) (number r) op) < number r); [|simpl in *; lia].
    apply (or_newer _ Ho cs r [] _); [done| |done|done]. by rewrite <-elem_of_distinct.
  - destruct (decide (r ∈ distinct cs)) as [Hin|Hni].
    { rewrite <-Hr in Hin. apply Hreq in Hin. congruence. }
    destruct (Z.ltb_spec (number r) (latest_request_id (kv_requests im) (client r))) as [Hlt|_].
    { exfalso. pose proof (or_number _ Ho r ltac:(set_solver)).
      destruct (latest_elem (kv_requests im) (client r) ltac:(lia)) as [op Hop]. apply Hreq in Hop.
      pose proof Hop as Hin%elem_of_distinct.
      pose proof (or_newer _ Ho cs r [] _ eq_refl ltac:(by rewrite <-elem_of_distinct) Hin eq_refl). simpl in *. lia. }
    cbn [kv_state kv_requests]. split.
    { unfold run_writes in *. by rewrite foldl_app, Hst. }
    intros c q op. rewrite elem_of_app, list_elem_of_singleton, <-Hreq. split.
    + intros [[[= <- <-] <-]|[_ ?]]%lookup_insert_Some; [by right|by left].
    + intros [Hop| E].
      * rewrite lookup_insert_ne; [done|]. intros [= <- <-]. congruence.
      * rewrite <-E. simpl. by rewrite lookup_insert_eq.
Qed.

(** ** Issued requests *)

(** The requests of the writes clients have invoked; a client has one write at a
    time, with higher numbers later. *)
Record issued_ok issued h : Prop := {
  is_wf : history_wf h;
  is_invoked id r : issued !! id = Some r → ∃ i, invocation_of h id = Some i
    ∧ i.(inv_operation) = HWrite r.(cr_operation) ∧ i.(inv_client_id) = client r ∧ 0 ≤ number r;
  is_issued i : i ∈ h.(h_invocations) → is_write i.(inv_operation) = true → is_Some (issued !! i.(inv_operation_id));
  is_order id r i id' r' i' : issued !! id = Some r → invocation_of h id = Some i →
    issued !! id' = Some r' → invocation_of h id' = Some i' → client r = client r' →
    i.(inv_sequence) < i'.(inv_sequence) →
    number r < number r' ∧ ∃ c, h.(h_completions) !! id = Some c ∧ c.(cpl_sequence) < i'.(inv_sequence);
}.

(** What leaders append *)
Definition allowed issued (c : KVCommand) : Prop :=
  match c with
  | CmdRequest r => ∃ id, issued !! id = Some r
  | CmdOperation _ => False
  | _ => True
  end.

Definition commands_to H (k : nat) : list KVCommand := take k (commands_of H).
Definition state_to H (k : nat) : gmap string string := (replay kv_image0 (commands_to H k)).(kv_state).

(** An answered operation took effect at its point: a write is in the history by
    then, a read saw the state there, what was invoked after the answer comes
    later. *)
Record points_ok issued points H h : Prop := {
  po_allowed c : c ∈ commands_of H → allowed issued c;
  po_point id c : h.(h_completions) !! id = Some c → ∃ p, points !! id = Some p ∧ (p ≤ length H)%nat;
  po_write id c r p : h.(h_completions) !! id = Some c → points !! id = Some p → issued !! id = Some r →
    CmdRequest r ∈ commands_to H p;
  po_read id c p i key : h.(h_completions) !! id = Some c → points !! id = Some p → invocation_of h id = Some i →
    i.(inv_operation) = HGet key → c.(cpl_result) = state_to H p !! key;
  po_later id c p id' r' i' : h.(h_completions) !! id = Some c → points !! id = Some p →
    issued !! id' = Some r' → invocation_of h id' = Some i' → c.(cpl_sequence) < i'.(inv_sequence) →
    CmdRequest r' ∉ commands_to H p;
  po_next id c p id' c' p' i' : h.(h_completions) !! id = Some c → points !! id = Some p →
    h.(h_completions) !! id' = Some c' → points !! id' = Some p' → invocation_of h id' = Some i' →
    c.(cpl_sequence) < i'.(inv_sequence) → (p ≤ p')%nat;
}.

(** *** Occurrences in prefixes *)

Lemma commands_to_snoc H k c : commands_of H !! k = Some c → commands_to H (S k) = commands_to H k ++ [c].
Proof. apply take_S_r. Qed.

Lemma commands_to_mono H k k' c : (k ≤ k')%nat → c ∈ commands_to H k → c ∈ commands_to H k'.
Proof.
  intros Hk (j & Hj & Hlt)%elem_of_take. apply elem_of_take. exists j. split; [done|lia].
Qed.

(** [x] is new after [l]. *)
Lemma new_in_take {A} (x : A) (l k : list A) p : x ∉ l → x ∈ take p (l ++ k) → (length l < p)%nat.
Proof.
  intros Hni Hin. destruct (decide (length l < p)%nat) as [|Hle]; [done|]. destruct Hni.
  rewrite take_app_le in Hin by lia. apply elem_of_take in Hin as (j & Hj & _). by eapply list_elem_of_lookup_2.
Qed.

Lemma old_in_take {A} (x : A) (l k : list A) p : x ∈ l → (length l ≤ p)%nat → x ∈ take p (l ++ k).
Proof. intros Hin Hp. rewrite take_app_ge by lia. apply elem_of_app. by left. Qed.

Section explained.
Context issued points H h (Hi : issued_ok issued h) (Hp : points_ok issued points H h).

Lemma issued_unique id id' r r' :
  issued !! id = Some r → issued !! id' = Some r' → client r = client r' → number r = number r' → id = id'.
Proof.
  intros Hr Hr' Hc Hn.
  destruct (is_invoked _ _ Hi _ _ Hr) as (i & Hii & _), (is_invoked _ _ Hi _ _ Hr') as (i' & Hii' & _).
  pose proof (invocation_of_elem _ _ _ Hii) as [Hin <-]. pose proof (invocation_of_elem _ _ _ Hii') as [Hin' <-].
  destruct (Z.lt_trichotomy i.(inv_sequence) i'.(inv_sequence)) as [Hlt|[Heq|Hlt]].
  - destruct (is_order _ _ Hi _ _ _ _ _ _ Hr Hii Hr' Hii' Hc Hlt). lia.
  - f_equal. eapply inv_moment; [apply Hi|done..].
  - destruct (is_order _ _ Hi _ _ _ _ _ _ Hr' Hii' Hr Hii (eq_sym Hc) Hlt). lia.
Qed.

(** What is in the history is in order. *)
Lemma history_ordered k : ordered (commands_to H k).
Proof.
  assert (∀ c, c ∈ commands_to H k → allowed issued c) as Hall.
  { intros c (j & Hj & _)%elem_of_take. apply (po_allowed _ _ _ _ Hp). by eapply list_elem_of_lookup_2. }
  split.
  - intros op Hop. exact (Hall _ Hop).
  - intros r Hr. destruct (Hall _ Hr) as [id Hid]. by destruct (is_invoked _ _ Hi _ _ Hid) as (i & _ & _ & _ & ?).
  - intros l r l' r' Hcs Hni Hin Hc.
    destruct (Hall (CmdRequest r) ltac:(rewrite Hcs; set_solver)) as [id Hid].
    destruct (Hall (CmdRequest r') ltac:(rewrite Hcs; set_solver)) as [id' Hid'].
    destruct (is_invoked _ _ Hi _ _ Hid) as (i & Hii & _), (is_invoked _ _ Hi _ _ Hid') as (i' & Hii' & _).
    destruct (Z.lt_trichotomy i'.(inv_sequence) i.(inv_sequence)) as [Hlt|[Heq|Hlt]].
    + by destruct (is_order _ _ Hi _ _ _ _ _ _ Hid' Hii' Hid Hii Hc Hlt).
    + exfalso. pose proof (invocation_of_elem _ _ _ Hii) as [Hini <-]. pose proof (invocation_of_elem _ _ _ Hii') as [Hini' <-].
      assert (i = i') as -> by (eapply inv_moment; [apply Hi|done..]). rewrite Hid in Hid'. by injection Hid' as ->.
    + exfalso. destruct (is_order _ _ Hi _ _ _ _ _ _ Hid Hii Hid' Hii' (eq_sym Hc) Hlt) as (_ & c & Hcc & Hclt).
      destruct (po_point _ _ _ _ Hp _ _ Hcc) as (p & Hpp & _).
      pose proof (po_write _ _ _ _ Hp _ _ _ _ Hcc Hpp Hid) as Hw.
      apply (po_later _ _ _ _ Hp _ _ _ _ _ _ Hcc Hpp Hid' Hii' Hclt).
      assert (commands_of H = l ++ (CmdRequest r :: l') ++ drop k (commands_of H)) as E.
      { rewrite app_assoc, <-Hcs. symmetry. apply take_drop. }
      unfold commands_to in Hw |- *. rewrite E in Hw |- *. apply old_in_take; [done|].
      apply new_in_take in Hw; [lia|done].
Qed.

(** *** The order of operations *)

(** The invocation of a request *)
Definition writes_of r : list Invocation := filter (λ i, issued !! i.(inv_operation_id) = Some r) h.(h_invocations).

(** A request is executed where it occurs first; reads between two entries are
    in the order of their invocation. *)
Definition write_at (k : nat) : list Invocation :=
  match commands_of H !! k with
  | Some (CmdRequest r) => if decide (CmdRequest r ∈ commands_to H k) then [] else writes_of r
  | _ => []
  end.
Definition reads_at (k : nat) : list Invocation :=
  filter (λ i, is_write i.(inv_operation) = false ∧ is_Some (h.(h_completions) !! i.(inv_operation_id))
    ∧ points !! i.(inv_operation_id) = Some k) h.(h_invocations).

Fixpoint before (k : nat) : list Invocation :=
  match k with O => [] | S k => (before k ++ reads_at k) ++ write_at k end.
Definition order : list Invocation := before (length H) ++ reads_at (length H).

Lemma nodup_singleton {A} (x : A) (k : list A) : NoDup k → x ∈ k → (∀ y, y ∈ k → y = x) → k = [x].
Proof.
  destruct k as [|y [|z k]]; intros Hnd Hx Hall; [by apply elem_of_nil in Hx|by rewrite (Hall y) by left|].
  assert (y = z) as -> by (rewrite (Hall y), (Hall z) by set_solver; done).
  apply NoDup_cons in Hnd as [Hz _]. set_solver.
Qed.

Lemma invocations_nodup : NoDup h.(h_invocations).
Proof. eapply NoDup_fmap_1, wf_ids, Hi. Qed.

Lemma writes_of_issued r id i : issued !! id = Some r → invocation_of h id = Some i → writes_of r = [i].
Proof.
  intros Hr [Hin <-]%invocation_of_elem. unfold writes_of. apply nodup_singleton.
  - apply NoDup_filter, invocations_nodup.
  - by apply list_elem_of_filter.
  - intros j [Hj Hinj]%list_elem_of_filter. eapply inv_unique; [apply Hi|done..|]. by eapply issued_unique.
Qed.

Lemma elem_of_write_at k i : i ∈ write_at k ↔ i ∈ h.(h_invocations) ∧ ∃ r, issued !! i.(inv_operation_id) = Some r
  ∧ commands_of H !! k = Some (CmdRequest r) ∧ CmdRequest r ∉ commands_to H k.
Proof.
  unfold write_at. destruct (commands_of H !! k) as [[op|r| |ty|x]|] eqn:E;
    try (split; [by intros ?%elem_of_nil|by intros (_ & ? & _ & ? & _)]).
  case_decide as Hin.
  - split; [by intros ?%elem_of_nil|]. by intros (_ & r' & _ & [= <-] & ?).
  - unfold writes_of. rewrite list_elem_of_filter. split; [intros [? ?]; naive_solver|].
    by intros (? & r' & ? & [= <-] & _).
Qed.

Lemma elem_of_reads_at k i : i ∈ reads_at k ↔ i ∈ h.(h_invocations) ∧ is_write i.(inv_operation) = false
  ∧ is_Some (h.(h_completions) !! i.(inv_operation_id)) ∧ points !! i.(inv_operation_id) = Some k.
Proof. unfold reads_at. rewrite list_elem_of_filter. naive_solver. Qed.

(** A write by [k] entries, and a read before them *)
Definition write_by (k : nat) i : Prop :=
  ∃ r, issued !! i.(inv_operation_id) = Some r ∧ CmdRequest r ∈ commands_to H k.
Definition read_by (k : nat) i : Prop :=
  is_write i.(inv_operation) = false ∧ is_Some (h.(h_completions) !! i.(inv_operation_id))
  ∧ ∃ p, (p < k)%nat ∧ points !! i.(inv_operation_id) = Some p.

Lemma commands_to_S H' k c : c ∈ commands_to H' (S k) ↔ c ∈ commands_to H' k ∨ commands_of H' !! k = Some c.
Proof.
  destruct (commands_of H' !! k) as [x|] eqn:E.
  - rewrite (commands_to_snoc _ _ _ E), elem_of_app, list_elem_of_singleton. naive_solver.
  - unfold commands_to. apply lookup_ge_None_1 in E. rewrite !take_ge by lia. naive_solver.
Qed.

Lemma elem_of_before k i : i ∈ before k ↔ i ∈ h.(h_invocations) ∧ (write_by k i ∨ read_by k i).
Proof.
  induction k as [|k IH]; simpl.
  { split; [by intros ?%elem_of_nil|]. intros (_ & [(r & _ & Hr)|(_ & _ & p & ? & _)]); [|lia].
    by apply elem_of_nil in Hr. }
  rewrite !elem_of_app, IH, elem_of_reads_at, elem_of_write_at. unfold write_by, read_by.
  setoid_rewrite commands_to_S. split.
  - intros [[(? & [(r & ? & ?)|(? & ? & p & ? & ?)])|(? & ? & ? & ?)]|(? & r & ? & ? & ?)]; (split; [done|]).
    + left. eauto.
    + right. split_and!; [done..|]. exists p. split; [lia|done].
    + right. split_and!; [done..|]. exists k. split; [lia|done].
    + left. eauto.
  - intros (? & [(r & ? & [?|?])|(? & ? & p & ? & ?)]).
    + left; left. eauto.
    + destruct (decide (CmdRequest r ∈ commands_to H k)); [left; left|right]; eauto 10.
    + destruct (decide (p = k)) as [->|]; [left; right; done|]. left; left. split; [done|]. right. split_and!; [done..|].
      exists p. split; [lia|done].
Qed.

(** *** What the order does *)

Lemma run_reads (l1 l2 : list Invocation) : (∀ i, i ∈ l2 → is_write i.(inv_operation) = false) → run_ops (l1 ++ l2) = run_ops l1.
Proof.
  induction l2 as [|i l2 IH] using rev_ind; intros Hl; [by rewrite app_nil_r|].
  rewrite app_assoc, run_ops_snoc, IH by (intros j Hj; apply Hl; set_solver).
  specialize (Hl i ltac:(set_solver)). by destruct (inv_operation i).
Qed.

Lemma run_before_reads k (l2 l3 : list Invocation) : reads_at k = l2 ++ l3 → run_ops (before k ++ l2) = run_ops (before k).
Proof.
  intros E. apply run_reads. intros i Hin. assert (i ∈ reads_at k) as Hr by (rewrite E; set_solver).
  by apply elem_of_reads_at in Hr as (_ & ? & _).
Qed.

Lemma run_before k : (k ≤ length H)%nat → run_ops (before k) = state_to H k.
Proof.
  induction k as [|k IH]; intros Hk; [done|]. specialize (IH ltac:(lia)). cbn [before].
  rewrite <-(run_before_reads k (reads_at k) []) in IH by (by rewrite app_nil_r).
  destruct (lookup_lt_is_Some_2 (commands_of H) k) as [c Hc]; [unfold commands_of; rewrite length_fmap; lia|].
  pose proof (history_ordered (S k)) as Hor. pose proof (history_ordered k) as Hor'.
  unfold state_to in *. rewrite (commands_to_snoc _ _ _ Hc) in Hor |- *.
  rewrite (proj1 (replay_ordered _ Hor)), distinct_snoc. rewrite (proj1 (replay_ordered _ Hor')) in IH.
  unfold write_at. rewrite Hc. destruct c as [op|r| |ty|x]; try (by rewrite app_nil_r).
  simpl. destruct (decide (CmdRequest r ∈ commands_to H k)) as [Hin|Hni].
  - rewrite app_nil_r, decide_True by (by apply elem_of_distinct). done.
  - rewrite decide_False by (by rewrite elem_of_distinct).
    assert (allowed issued (CmdRequest r)) as [id Hid] by (apply (po_allowed _ _ _ _ Hp); by eapply list_elem_of_lookup_2).
    destruct (is_invoked _ _ Hi _ _ Hid) as (i & Hii & Hop & _). rewrite (writes_of_issued _ _ _ Hid Hii).
    rewrite run_ops_snoc, IH, Hop. unfold run_writes. rewrite foldl_app. simpl. by destruct (cr_operation r).
Qed.
(** Nothing comes before what was answered before it was invoked. *)
Definition may_precede i j : Prop := ∀ c, h.(h_completions) !! j.(inv_operation_id) = Some c →
  i.(inv_sequence) ≤ c.(cpl_sequence).

Lemma invocation_of_in i : i ∈ h.(h_invocations) → invocation_of h i.(inv_operation_id) = Some i.
Proof.
  intros Hin. destruct (invocation_of h i.(inv_operation_id)) as [j|] eqn:Hj.
  - pose proof (invocation_of_elem _ _ _ Hj) as [Hjn Hid]. f_equal. by eapply inv_unique; [apply Hi|..].
  - apply invocation_of_none in Hj. destruct Hj. apply list_elem_of_fmap. by exists i.
Qed.

Lemma before_reads_precede k i j : i ∈ before k → j ∈ reads_at k → may_precede i j.
Proof.
  intros (Hin & Hb)%elem_of_before (Hjn & _ & _ & Hpj)%elem_of_reads_at c Hc.
  destruct (decide (cpl_sequence c < inv_sequence i)) as [Hlt|]; [exfalso|lia].
  destruct Hb as [(r & Hr & Hrk)|(_ & [c' Hc'] & p & Hpk & Hpi)].
  - by apply (po_later _ _ _ _ Hp _ _ _ _ _ _ Hc Hpj Hr (invocation_of_in _ Hin) Hlt).
  - pose proof (po_next _ _ _ _ Hp _ _ _ _ _ _ _ Hc Hpj Hc' Hpi (invocation_of_in _ Hin) Hlt). lia.
Qed.

Lemma before_write_precede k i j : i ∈ before k ∨ i ∈ reads_at k → j ∈ write_at k → may_precede i j.
Proof.
  intros Hb (Hjn & r & Hr & Hk & Hnew)%elem_of_write_at c Hc.
  destruct (decide (cpl_sequence c < inv_sequence i)) as [Hlt|]; [exfalso|lia].
  destruct (po_point _ _ _ _ Hp _ _ Hc) as (p & Hpj & _).
  pose proof (po_write _ _ _ _ Hp _ _ _ _ Hc Hpj Hr) as Hin.
  assert (k < p)%nat as Hkp.
  { destruct (decide (k < p)%nat) as [|Hle]; [done|]. destruct Hnew. eapply commands_to_mono; [|exact Hin]. lia. }
  destruct Hb as [(Hi' & [(r' & Hr' & Hrk)|(_ & [c' Hc'] & q & Hq & Hqi)])%elem_of_before|
    (Hi' & _ & [c' Hc'] & Hqi)%elem_of_reads_at].
  - eapply (po_later _ _ _ _ Hp _ _ _ _ _ _ Hc Hpj Hr' (invocation_of_in _ Hi') Hlt).
    eapply commands_to_mono; [|exact Hrk]. lia.
  - pose proof (po_next _ _ _ _ Hp _ _ _ _ _ _ _ Hc Hpj Hc' Hqi (invocation_of_in _ Hi') Hlt). lia.
  - pose proof (po_next _ _ _ _ Hp _ _ _ _ _ _ _ Hc Hpj Hc' Hqi (invocation_of_in _ Hi') Hlt). lia.
Qed.

Lemma reads_sorted k : StronglySorted may_precede (reads_at k).
Proof.
  apply filter_sorted. intros l1 i l2 j E Hj _ (_ & [c Hc] & _) c' Hc'.
  assert (c' = c) as -> by congruence.
  destruct (wf_completion _ (is_wf _ _ Hi) _ _ Hc) as (_ & _ & j' & Hj' & Hlt & _).
  assert (j ∈ h.(h_invocations)) as Hjn by (rewrite E; set_solver).
  rewrite (invocation_of_in _ Hjn) in Hj'. injection Hj' as <-.
  pose proof (wf_sorted _ (is_wf _ _ Hi)) as Hs. rewrite E in Hs.
  apply StronglySorted_app_1_r, StronglySorted_inv in Hs as [_ Hs]. rewrite Forall_forall in Hs. specialize (Hs j Hj). lia.
Qed.

Lemma before_sorted k : StronglySorted may_precede (before k).
Proof.
  induction k as [|k IH]; simpl; [constructor|].
  apply StronglySorted_app_2; [|apply StronglySorted_app_2; [|exact IH|apply reads_sorted]|].
  - intros i j [Hin|Hin]%elem_of_app Hj; eapply before_write_precede; [by left|done|by right|done].
  - intros i j. apply before_reads_precede.
  - unfold write_at. destruct (_ !! _) as [[op|r| |ty|x]|] eqn:E; try constructor. case_decide; [constructor|].
    assert (allowed issued (CmdRequest r)) as [id Hid] by (apply (po_allowed _ _ _ _ Hp); by eapply list_elem_of_lookup_2).
    destruct (is_invoked _ _ Hi _ _ Hid) as (i & Hii & _). rewrite (writes_of_issued _ _ _ Hid Hii). repeat constructor.
Qed.

Lemma order_sorted : StronglySorted may_precede order.
Proof.
  apply StronglySorted_app_2; [|apply before_sorted|apply reads_sorted]. intros i j. apply before_reads_precede.
Qed.

(** *** The order explains the history *)

Lemma reads_nodup k : NoDup (reads_at k).
Proof. apply NoDup_filter, invocations_nodup. Qed.

Lemma write_nodup k : NoDup (write_at k).
Proof.
  unfold write_at. destruct (_ !! _) as [[op|r| |ty|x]|]; try constructor. case_decide; [constructor|].
  apply NoDup_filter, invocations_nodup.
Qed.

Lemma issued_write i r : i ∈ h.(h_invocations) → issued !! i.(inv_operation_id) = Some r →
  is_write i.(inv_operation) = true.
Proof.
  intros Hin Hr. destruct (is_invoked _ _ Hi _ _ Hr) as (i' & Hii & Hop & _).
  rewrite (invocation_of_in _ Hin) in Hii. injection Hii as <-. by rewrite Hop.
Qed.

Lemma before_not_reads k i : i ∈ before k → i ∉ reads_at k.
Proof.
  intros (Hin & Hb)%elem_of_before (_ & Hw & _ & Hpi)%elem_of_reads_at.
  destruct Hb as [(r & Hr & _)|(_ & _ & p & ? & ?)]; [|simplify_eq; lia].
  rewrite (issued_write _ _ Hin Hr) in Hw. done.
Qed.

Lemma before_nodup k : NoDup (before k).
Proof.
  induction k as [|k IH]; simpl; [constructor|]. apply NoDup_app. split_and!; [|intros i Hb|apply write_nodup].
  - apply NoDup_app. split_and!; [done|intros i; apply before_not_reads|apply reads_nodup].
  - intros (Hin & r & Hr & _ & Hnew)%elem_of_write_at. apply elem_of_app in Hb as [(_ & Hb)%elem_of_before|(_ & Hw & _)%elem_of_reads_at].
    + destruct Hb as [(r' & Hr' & ?)|(Hw & _)]; [by simplify_eq|]. by rewrite (issued_write _ _ Hin Hr) in Hw.
    + by rewrite (issued_write _ _ Hin Hr) in Hw.
Qed.

Lemma before_prefix k k' : (k < k')%nat → ∃ l : list Invocation, before k' = before k ++ reads_at k ++ l.
Proof.
  induction k' as [|k' IH]; intros Hk; [lia|]. simpl.
  destruct (decide (k = k')) as [->|]; [exists (write_at k'); by rewrite app_assoc|].
  destruct (IH ltac:(lia)) as [l ->]. exists (l ++ reads_at k' ++ write_at k'). by rewrite <-!app_assoc.
Qed.

Lemma order_at k : (k ≤ length H)%nat → ∃ l : list Invocation, order = before k ++ reads_at k ++ l.
Proof.
  intros Hk. unfold order. destruct (decide (k = length H)) as [->|]; [exists []; by rewrite app_nil_r|].
  destruct (before_prefix k (length H)) as [l ->]; [lia|]. exists (l ++ reads_at (length H)). by rewrite <-!app_assoc.
Qed.

(** A completed operation is in the order. *)
Lemma completed_placed id c i :
  h.(h_completions) !! id = Some c → invocation_of h id = Some i →
  ∃ l1 l2 : list Invocation, order = l1 ++ i :: l2 ∧ c.(cpl_result) = op_answer i.(inv_operation) (run_ops l1).
Proof.
  intros Hc Hii. destruct (po_point _ _ _ _ Hp _ _ Hc) as (p & Hpp & Hle).
  pose proof (invocation_of_elem _ _ _ Hii) as [Hin Hid].
  destruct (wf_completion _ (is_wf _ _ Hi) _ _ Hc) as (_ & _ & i' & Hii' & _ & Hres).
  rewrite Hii in Hii'. injection Hii' as <-. destruct (inv_operation i) as [op|key] eqn:Hop.
  - destruct (is_issued _ _ Hi i Hin ltac:(by rewrite Hop)) as [r Hr].
    assert (i ∈ order) as Hio.
    { unfold order. apply elem_of_app. left. apply elem_of_before. split; [done|]. left. exists r. split; [done|].
      eapply commands_to_mono; [exact Hle|]. eapply po_write; [done|exact Hc|done|congruence]. }
    apply list_elem_of_split in Hio as (l1 & l2 & Ho). exists l1, l2. split; [done|]. by apply Hres.
  - assert (i ∈ reads_at p) as Hir.
    { apply elem_of_reads_at. rewrite Hop, Hid. split_and!; [done..|by eexists|done]. }
    destruct (order_at p Hle) as [l Ho]. apply list_elem_of_split in Hir as (k1 & k2 & Hr).
    exists (before p ++ k1), (k2 ++ l). split; [rewrite Ho, Hr; by rewrite <-!app_assoc|].
    rewrite (run_before_reads p _ _ Hr), run_before by done. simpl. eapply po_read; done.
Qed.

Theorem points_explain : explains h order.
Proof.
  split.
  - unfold order. apply NoDup_app. split_and!; [apply before_nodup|intros i; apply before_not_reads|apply reads_nodup].
  - intros i [[? _]%elem_of_before|[? _]%elem_of_reads_at]%elem_of_app; done.
  - intros id c Hc. destruct (wf_completion _ (is_wf _ _ Hi) _ _ Hc) as (_ & _ & i & Hii & _).
    destruct (completed_placed _ _ _ Hc Hii) as (l1 & l2 & Ho & Hr). exists l1, i, l2.
    pose proof (invocation_of_elem _ _ _ Hii) as [_ ?]. by split_and!.
  - intros id c l1 i l2 Hc Ho Hlt. destruct (wf_completion _ (is_wf _ _ Hi) _ _ Hc) as (_ & _ & a & Ha & Hac & _).
    destruct (completed_placed _ _ _ Hc Ha) as (k1 & k2 & Ho' & _). pose proof (invocation_of_elem _ _ _ Ha) as [_ Hid].
    exists a. split; [|done]. assert (a ∈ l1 ++ i :: l2) as [?|[->|Hin]%elem_of_cons]%elem_of_app by (rewrite <-Ho, Ho'; set_solver);
      [done|lia|exfalso].
    pose proof order_sorted as Hs. rewrite Ho in Hs. apply StronglySorted_app_1_r, StronglySorted_inv in Hs as [_ Hs].
    rewrite Forall_forall in Hs. specialize (Hs a Hin c). rewrite Hid in Hs. specialize (Hs Hc). lia.
Qed.
End explained.

(** ** The machine of clients *)

(** One call of one client: the operation it may start or finish. *)
Inductive Call :=
  | CallWrite (id : string) r
  | CallRead (id client_id key : string)
  | CallFinish (id : string)
  | NoCall.

Definition call_id (call : Call) : option string :=
  match call with CallWrite id _ | CallRead id _ _ | CallFinish id => Some id | NoCall => None end.

Record Abs := mkAbs {
  ab_spec : Spec KVCommand;
  ab_entries : list Entry;
  ab_issued : gmap string ClientRequest;
  ab_points : gmap string nat;
  ab_history : OperationHistory;
}.

Implicit Types (a : Abs) (call : Call).

(** The new histories: one more invocation, one more answer *)
Record invoked h i h' : Prop := {
  iv_wf : history_wf h';
  iv_new : invocation_of h i.(inv_operation_id) = None;
  iv_invocations : h'.(h_invocations) = h.(h_invocations) ++ [i];
  iv_sequence : i.(inv_sequence) = h.(h_sequence);
  iv_completions : h'.(h_completions) = h.(h_completions);
  iv_abandoned : h'.(h_abandoned) = h.(h_abandoned);
}.

Record answered h (id : string) (c : Completion) h' : Prop := {
  as_wf : history_wf h';
  as_new : h.(h_completions) !! id = None;
  as_invocations : h'.(h_invocations) = h.(h_invocations);
  as_completions : h'.(h_completions) = <[id := c]> h.(h_completions);
  as_sequence : c.(cpl_sequence) = h.(h_sequence);
  as_abandoned : h'.(h_abandoned) = h.(h_abandoned);
}.

(** The point of an answer *)
Definition fits a (id : string) (c : Completion) (p : nat) : Prop :=
  (p ≤ length a.(ab_entries))%nat
  ∧ (∀ r, a.(ab_issued) !! id = Some r → CmdRequest r ∈ commands_to a.(ab_entries) p)
  ∧ (∀ i key, invocation_of a.(ab_history) id = Some i → i.(inv_operation) = HGet key →
       c.(cpl_result) = state_to a.(ab_entries) p !! key)
  ∧ (∀ i id' c' p', invocation_of a.(ab_history) id = Some i → a.(ab_history).(h_completions) !! id' = Some c' →
       a.(ab_points) !! id' = Some p' → c'.(cpl_sequence) < i.(inv_sequence) → (p' ≤ p)%nat).

(** A client starts a write when its earlier ones are answered, with a higher
    number. *)
Definition next_request issued h r : Prop := 0 ≤ number r ∧ ∀ id' r',
  issued !! id' = Some r' → client r' = client r → number r' < number r ∧ is_Some (h.(h_completions) !! id').

Section machine.
Context (quorum : gset string → Prop) `{!QuorumSystem quorum} (call : Call).

Inductive client_step : Abs → Abs → Prop :=
  | cs_grow a s H :
      rtc (spec_step quorum true (allowed a.(ab_issued))) a.(ab_spec) s → a.(ab_entries) `prefix_of` H →
      (∃ t, committed quorum s t H) →
      client_step a (mkAbs s H a.(ab_issued) a.(ab_points) a.(ab_history))
  | cs_write a id r i h :
      call = CallWrite id r → invoked a.(ab_history) i h → i.(inv_operation_id) = id →
      i.(inv_operation) = HWrite r.(cr_operation) → i.(inv_client_id) = client r →
      next_request a.(ab_issued) a.(ab_history) r →
      client_step a (mkAbs a.(ab_spec) a.(ab_entries) (<[id := r]> a.(ab_issued)) a.(ab_points) h)
  | cs_read a id c key i h :
      call = CallRead id c key → invoked a.(ab_history) i h → i.(inv_operation_id) = id →
      i.(inv_operation) = HGet key → i.(inv_client_id) = c →
      client_step a (mkAbs a.(ab_spec) a.(ab_entries) a.(ab_issued) a.(ab_points) h)
  | cs_answer a id c p h :
      call_id call = Some id → answered a.(ab_history) id c h → fits a id c p →
      client_step a (mkAbs a.(ab_spec) a.(ab_entries) a.(ab_issued) (<[id := p]> a.(ab_points)) h)
  | cs_abandon a id c key i h :
      call = CallRead id c key → invocation_of a.(ab_history) id = Some i → is_write i.(inv_operation) = false →
      history_wf h → h.(h_invocations) = a.(ab_history).(h_invocations) →
      h.(h_completions) = a.(ab_history).(h_completions) → h.(h_abandoned) = {[id]} ∪ a.(ab_history).(h_abandoned) →
      client_step a (mkAbs a.(ab_spec) a.(ab_entries) a.(ab_issued) a.(ab_points) h).

(** *** Its invariant *)

Record abs_inv a : Prop := {
  av_issued : issued_ok a.(ab_issued) a.(ab_history);
  av_points : points_ok a.(ab_issued) a.(ab_points) a.(ab_entries) a.(ab_history);
  av_carries : carries (allowed a.(ab_issued)) a.(ab_spec);
}.

Lemma same_invocation_of h h' id : h'.(h_invocations) = h.(h_invocations) → invocation_of h' id = invocation_of h id.
Proof. unfold invocation_of. by intros ->. Qed.

Lemma invoked_of h i h' id : invoked h i h' →
  invocation_of h' id = if decide (id = i.(inv_operation_id)) then Some i else invocation_of h id.
Proof.
  intros Hv. pose proof (invocation_of_app h i id (h_sequence h) (iv_new _ _ _ Hv)) as <-.
  apply same_invocation_of. by rewrite (iv_invocations _ _ _ Hv).
Qed.

Lemma commands_to_prefix H H' k : H `prefix_of` H' → (k ≤ length H)%nat → commands_to H' k = commands_to H k.
Proof.
  intros [x ->] Hk. unfold commands_to, commands_of. rewrite fmap_app, take_app_le by (rewrite length_fmap; lia). done.
Qed.

Lemma state_to_prefix H H' k : H `prefix_of` H' → (k ≤ length H)%nat → state_to H' k = state_to H k.
Proof. intros Hp Hk. unfold state_to. by rewrite (commands_to_prefix H H'). Qed.

Lemma points_grow issued points H H' h :
  points_ok issued points H h → H `prefix_of` H' → (∀ c, c ∈ commands_of H' → allowed issued c) →
  points_ok issued points H' h.
Proof.
  intros [Ha Hp Hw Hr Hl Hn] Hpre Hall.
  assert (∀ id c p, h_completions h !! id = Some c → points !! id = Some p → (p ≤ length H)%nat) as Hle.
  { intros id c p Hc Hpp. destruct (Hp _ _ Hc) as (p' & ? & ?). by simplify_eq. }
  split; try done.
  - intros id c Hc. destruct (Hp _ _ Hc) as (p & ? & ?). exists p. split; [done|].
    pose proof (prefix_length _ _ Hpre). lia.
  - intros id c r p Hc Hpp Hi. rewrite (commands_to_prefix H H') by eauto. by eapply Hw.
  - intros id c p i key Hc Hpp Hi Ho. rewrite (state_to_prefix H H') by eauto. by eapply Hr.
  - intros id c p id' r' i' Hc Hpp. rewrite (commands_to_prefix H H') by eauto. by eapply Hl.
Qed.

(** The fields the invariant reads *)
Lemma issued_same issued h h' :
  issued_ok issued h → history_wf h' → h'.(h_invocations) = h.(h_invocations) →
  (∀ id c, h.(h_completions) !! id = Some c → h'.(h_completions) !! id = Some c) → issued_ok issued h'.
Proof.
  intros [Hw Hi Hs Ho] Hw' Ei Ec. assert (∀ id, invocation_of h' id = invocation_of h id) as E by (intros; by apply same_invocation_of).
  split; [done| | |].
  - intros id r. rewrite E. apply Hi.
  - rewrite Ei. apply Hs.
  - intros id r i id' r' i'. rewrite !E. intros Hr Hii Hr' Hii' Hc Hlt.
    destruct (Ho _ _ _ _ _ _ Hr Hii Hr' Hii' Hc Hlt) as (? & c & ? & ?). eauto.
Qed.

Lemma points_same issued points H h h' :
  points_ok issued points H h → h'.(h_invocations) = h.(h_invocations) → h'.(h_completions) = h.(h_completions) →
  points_ok issued points H h'.
Proof.
  intros [Ha Hp Hw Hr Hl Hn] Ei Ec. assert (∀ id, invocation_of h' id = invocation_of h id) as E by (intros; by apply same_invocation_of).
  split; rewrite ?Ec; try done; intros; rewrite ?E in *; eauto.
Qed.

(** A new invocation *)
Lemma completion_old h id c : history_wf h → h.(h_completions) !! id = Some c → invocation_of h id ≠ None ∧ c.(cpl_sequence) < h.(h_sequence).
Proof. intros Hw Hc. destruct (wf_completion _ Hw _ _ Hc) as (_ & ? & i & -> & _). done. Qed.

Lemma issued_invoked issued h i h' :
  issued_ok issued h → invoked h i h' → is_write i.(inv_operation) = false → issued_ok issued h'.
Proof.
  intros [Hw Hi Hs Ho] Hv Hr. pose proof (λ id, invoked_of h i h' id Hv) as E. split; [apply Hv| | |].
  - intros id r Hid. rewrite E. destruct (Hi _ _ Hid) as (j & Hj & ?). case_decide as Hd; [|by exists j].
    rewrite Hd, (iv_new _ _ _ Hv) in Hj. done.
  - rewrite (iv_invocations _ _ _ Hv). intros j [Hj| ->%list_elem_of_singleton]%elem_of_app Hwr; [by apply Hs|congruence].
  - intros id r j id' r' j' Hid. rewrite !E, (iv_completions _ _ _ Hv). intros Hj Hid' Hj'.
    destruct (Hi _ _ Hid) as (k & Hk & _), (Hi _ _ Hid') as (k' & Hk' & _).
    rewrite decide_False in Hj by (intros ->; by rewrite (iv_new _ _ _ Hv) in Hk).
    rewrite decide_False in Hj' by (intros ->; by rewrite (iv_new _ _ _ Hv) in Hk'). eauto.
Qed.

Lemma points_invoked issued points H h i h' :
  history_wf h → points_ok issued points H h → issued_ok issued h → invoked h i h' → points_ok issued points H h'.
Proof.
  intros Hwf [Ha Hp Hw Hr Hl Hn] Hio Hv. pose proof (λ id, invoked_of h i h' id Hv) as E.
  split; rewrite ?(iv_completions _ _ _ Hv); try done.
  - intros id c p j key Hc Hpp. rewrite E. case_decide as Hd; [|by eapply Hr].
    destruct (completion_old _ _ _ Hwf Hc). by rewrite Hd, (iv_new _ _ _ Hv) in *.
  - intros id c p id' r' j Hc Hpp Hid'. rewrite E. case_decide as Hd; [|by eapply Hl].
    destruct (is_invoked _ _ Hio _ _ Hid') as (k & Hk & _). by rewrite Hd, (iv_new _ _ _ Hv) in Hk.
  - intros id c p id' c' p' j Hc Hpp Hc' Hpp'. rewrite E. case_decide as Hd; [|by eapply Hn].
    destruct (completion_old _ _ _ Hwf Hc'). by rewrite Hd, (iv_new _ _ _ Hv) in *.
Qed.

Lemma issued_write_step issued h i r h' :
  issued_ok issued h → invoked h i h' → i.(inv_operation) = HWrite r.(cr_operation) → i.(inv_client_id) = client r →
  next_request issued h r → issued_ok (<[i.(inv_operation_id) := r]> issued) h'.
Proof.
  intros [Hw Hi Hs Ho] Hv Hop Hcl [H0 Hnx]. pose proof (λ id, invoked_of h i h' id Hv) as E.
  assert (∀ id r', issued !! id = Some r' → id ≠ i.(inv_operation_id)) as Hne.
  { intros id r' Hid ->. destruct (Hi _ _ Hid) as (j & Hj & _). by rewrite (iv_new _ _ _ Hv) in Hj. }
  split; [apply Hv| | |].
  - intros id r' [[<- <-]|[Hd Hid]]%lookup_insert_Some; rewrite E.
    + rewrite decide_True by done. by exists i.
    + rewrite decide_False by done. by apply Hi.
  - rewrite (iv_invocations _ _ _ Hv). intros j [Hj| ->%list_elem_of_singleton]%elem_of_app Hwr.
    + destruct (Hs j Hj Hwr) as [r' Hr']. exists r'. rewrite lookup_insert_ne by (intros Heq; by apply (Hne _ _ Hr')). done.
    + rewrite lookup_insert_eq. by eexists.
  - intros id r1 j id' r2 j'. rewrite !E, (iv_completions _ _ _ Hv).
    intros [[<- <-]|[Hd Hid]]%lookup_insert_Some Hj [[<- <-]|[Hd' Hid']]%lookup_insert_Some Hj' Hc Hlt.
    + rewrite decide_True in Hj, Hj' by done. simplify_eq. lia.
    + rewrite decide_True in Hj by done. injection Hj as <-. rewrite decide_False in Hj' by done.
      pose proof (invocation_of_elem _ _ _ Hj') as [Hin _]. pose proof (wf_fresh _ Hw _ Hin).
      rewrite (iv_sequence _ _ _ Hv) in Hlt. lia.
    + rewrite decide_True in Hj' by done. injection Hj' as <-. destruct (Hnx _ _ Hid Hc) as (? & c & Hcc).
      split; [done|]. exists c. split; [done|]. rewrite (iv_sequence _ _ _ Hv). by apply (completion_old _ _ _ Hw Hcc).
    + rewrite decide_False in Hj by done. rewrite decide_False in Hj' by done. eauto.
Qed.

Lemma points_write_step issued points H h i r h' :
  issued_ok issued h → points_ok issued points H h → invoked h i h' → next_request issued h r →
  points_ok (<[i.(inv_operation_id) := r]> issued) points H h'.
Proof.
  intros Hio [Ha Hp Hw Hr Hl Hn] Hv [_ Hnx]. pose proof (λ id, invoked_of h i h' id Hv) as E.
  pose proof (is_wf _ _ Hio) as Hwf.
  assert (∀ id c, h_completions h !! id = Some c → id ≠ i.(inv_operation_id)) as Hne.
  { intros id c Hc ->. destruct (completion_old _ _ _ Hwf Hc). by rewrite (iv_new _ _ _ Hv) in *. }
  assert (∀ c, allowed issued c → allowed (<[i.(inv_operation_id) := r]> issued) c) as Hal.
  { intros [op|r'| |ty|x]; simpl; try done. intros [id Hid]. exists id. rewrite lookup_insert_ne; [done|].
    intros <-. destruct (is_invoked _ _ Hio _ _ Hid) as (j & Hj & _). by rewrite (iv_new _ _ _ Hv) in Hj. }
  split; rewrite ?(iv_completions _ _ _ Hv); try done.
  - intros c Hc. by apply Hal, Ha.
  - intros id c r' p Hc Hpp. rewrite lookup_insert_ne by (apply not_eq_sym; by eapply Hne). by eapply Hw.
  - intros id c p j key Hc Hpp. rewrite E, decide_False by (by eapply Hne). by eapply Hr.
  - intros id c p id' r' j Hc Hpp [[<- <-]|[Hd Hid']]%lookup_insert_Some Hj Hlt.
    + intros (k & Hk & _)%elem_of_take. destruct (Ha _ ltac:(by eapply list_elem_of_lookup_2)) as [id0 Hid0].
      destruct (Hnx _ _ Hid0 eq_refl). lia.
    + rewrite E, decide_False in Hj by done. by eapply Hl.
  - intros id c p id' c' p' j Hc Hpp Hc' Hpp'. rewrite E, decide_False by (by eapply Hne). by eapply Hn.
Qed.

(** A new answer *)
Lemma points_answered a id c p h' :
  abs_inv a → answered a.(ab_history) id c h' → fits a id c p →
  points_ok a.(ab_issued) (<[id := p]> a.(ab_points)) a.(ab_entries) h'.
Proof.
  intros [Hio [Ha Hp Hw Hr Hl Hn] _] Has (Hle & Hfw & Hfr & Hfn). pose proof (is_wf _ _ Hio) as Hwf.
  assert (∀ id, invocation_of h' id = invocation_of a.(ab_history) id) as E
    by (intros; apply same_invocation_of, Has).
  assert (∀ i, invocation_of a.(ab_history) i.(inv_operation_id) = Some i → i.(inv_sequence) < c.(cpl_sequence)) as Hlate.
  { intros i [Hin _]%invocation_of_elem. pose proof (wf_fresh _ Hwf _ Hin). rewrite (as_sequence _ _ _ _ Has). lia. }
  assert (∀ i id', invocation_of a.(ab_history) id' = Some i → i.(inv_sequence) < c.(cpl_sequence)) as Hlate'.
  { intros i id' Hi. apply Hlate. by pose proof (invocation_of_elem _ _ _ Hi) as [_ ->]. }
  split; rewrite ?(as_completions _ _ _ _ Has); try done.
  - intros id' c' [[<- <-]|[Hd Hc']]%lookup_insert_Some; [exists p; by rewrite lookup_insert_eq|].
    rewrite lookup_insert_ne by done. by eapply Hp.
  - intros id' c' r p' [[<- <-]|[Hd Hc']]%lookup_insert_Some.
    + rewrite lookup_insert_eq. intros [= <-]. apply Hfw.
    + rewrite lookup_insert_ne by done. by eapply Hw.
  - intros id' c' p' i key [[<- <-]|[Hd Hc']]%lookup_insert_Some; rewrite E.
    + rewrite lookup_insert_eq. intros [= <-]. apply Hfr.
    + rewrite lookup_insert_ne by done. by eapply Hr.
  - intros id' c' p' id2 r' i [[<- <-]|[Hd Hc']]%lookup_insert_Some; rewrite E.
    + intros _ _ Hi. pose proof (Hlate' _ _ Hi). lia.
    + rewrite lookup_insert_ne by done. by eapply Hl.
  - intros id' c' p' id2 c2 p2 i [[<- <-]|[Hd Hc']]%lookup_insert_Some; rewrite E.
    + intros _ _ _ Hi. pose proof (Hlate' _ _ Hi). lia.
    + rewrite lookup_insert_ne by done. intros Hp' [[<- <-]|[Hd2 Hc2]]%lookup_insert_Some.
      * rewrite lookup_insert_eq. intros [= <-] Hi Hlt. by eapply Hfn.
      * rewrite lookup_insert_ne by done. by eapply Hn.
Qed.

Lemma client_step_inv a a' : client_step a a' → abs_inv a → abs_inv a'.
Proof.
  intros Hs Hav. pose proof Hav as [Hio Hp Hca].
  destruct Hs as [a s H Hs Hpre [t Hc]|a id r i h -> Hv <- Ho Hcl Hnx|a id c key i h -> Hv <- Ho Hcl|a id c p h Hid Has Hf|a id c key i h -> Hi Hr Hwf Ei Ec Eb].
  - assert (carries (allowed a.(ab_issued)) s) as Hca' by (eapply steps_carries; [|exact Hs|done]; done).
    split; simpl; [done| |done]. eapply points_grow; [done..|].
    intros c (e & -> & He)%list_elem_of_fmap. by eapply committed_carries.
  - split; simpl; [by apply (issued_write_step _ a.(ab_history))|by apply (points_write_step _ _ _ a.(ab_history))|].
    eapply carries_mono; [|exact Hca]. intros [op|r'| |ty|x]; simpl; try done. intros [id Hid]. exists id.
    rewrite lookup_insert_ne; [done|]. intros <-. destruct (is_invoked _ _ Hio _ _ Hid) as (j & Hj & _).
    by rewrite (iv_new _ _ _ Hv) in Hj.
  - split; simpl; [|eapply points_invoked; [apply Hio|done..]|done]. eapply issued_invoked; [done..|]. by rewrite Ho.
  - split; simpl; [|by eapply points_answered|done]. eapply issued_same; [done|apply Has..|].
    intros id' c' Hc'. rewrite (as_completions _ _ _ _ Has), lookup_insert_ne; [done|]. intros <-.
    by rewrite (as_new _ _ _ _ Has) in Hc'.
  - split; simpl; [|by eapply points_same|done]. eapply issued_same; [done..|]. by rewrite Ec.
Qed.

Lemma client_steps_inv a a' : rtc client_step a a' → abs_inv a → abs_inv a'.
Proof. induction 1; eauto using client_step_inv. Qed.

(** *** What a call leaves alone *)

(** Answers and requests stay; a new request is the call's. *)
Record framed a a' : Prop := {
  fr_invoked id : invocation_of a'.(ab_history) id = None → invocation_of a.(ab_history) id = None;
  fr_completed id c : a.(ab_history).(h_completions) !! id = Some c → a'.(ab_history).(h_completions) !! id = Some c;
  fr_kept id r : a.(ab_issued) !! id = Some r → a'.(ab_issued) !! id = Some r;
  fr_issued id r : a'.(ab_issued) !! id = Some r →
    a.(ab_issued) !! id = Some r ∨ call = CallWrite id r ∧ invocation_of a.(ab_history) id = None;
  fr_entries : a.(ab_entries) `prefix_of` a'.(ab_entries);
}.

Lemma framed_refl a : framed a a.
Proof. split; auto. Qed.

Lemma framed_trans a1 a2 a3 : framed a1 a2 → framed a2 a3 → framed a1 a3.
Proof.
  intros [Hv Hc Hk Hi He] [Hv' Hc' Hk' Hi' He']. split; [auto..| |by etrans].
  intros id r [Hid|[-> Hn]]%Hi'; [by apply Hi|right]. by auto.
Qed.

Lemma client_step_framed a a' : abs_inv a → client_step a a' → framed a a'.
Proof.
  intros [Hio _ _] Hs.
  destruct Hs as [a s H Hs Hpre [t Hc]|a id r i h -> Hv <- Ho Hcl Hnx|a id c key i h -> Hv <- Ho Hcl|a id c p h Hid Has Hf|a id c key i h -> Hi Hr Hwf Ei Ec Eb];
    split; simpl; auto.
  - intros id. rewrite (invoked_of _ _ _ _ Hv). by case_decide.
  - intros id c. by rewrite (iv_completions _ _ _ Hv).
  - intros id r' Hid. rewrite lookup_insert_ne; [done|]. intros <-. destruct (is_invoked _ _ Hio _ _ Hid) as (j & Hj & _).
    by rewrite (iv_new _ _ _ Hv) in Hj.
  - intros id r' [[<- <-]|[Hd Hid]]%lookup_insert_Some; [right|by left]. split; [done|apply Hv].
  - intros id. rewrite (invoked_of _ _ _ _ Hv). by case_decide.
  - intros id c'. by rewrite (iv_completions _ _ _ Hv).
  - intros id'. by rewrite (same_invocation_of _ _ _ (as_invocations _ _ _ _ Has)).
  - intros id' c' Hc'. rewrite (as_completions _ _ _ _ Has), lookup_insert_ne; [done|]. intros <-.
    by rewrite (as_new _ _ _ _ Has) in Hc'.
  - intros id'. by rewrite (same_invocation_of _ _ _ Ei).
  - intros id' c'. by rewrite Ec.
Qed.

Lemma client_steps_framed a a' : rtc client_step a a' → abs_inv a → framed a a'.
Proof.
  induction 1 as [a|a a1 a' Hs _ IH]; intros Ha; [apply framed_refl|].
  eapply framed_trans; [by apply client_step_framed|]. by eapply IH, client_step_inv.
Qed.
End machine.
