(* ===== verification/ServiceRefine.v ===== *)
(** * ServiceRefine: the services of the store within the specification

    The calls of [System]'s composition that [ClientHistory], [LeaderService] and
    [ClientSession] make, as refinements of the pair of the specification's state
    and the committed history: a leader's append, a new replicator, a replication,
    an application, and the two methods of a reader with what they have seen. *)

From stdpp Require Import relations.
From S2P Require Import Prelude Simulator SimFacts Quorum LogIndex KVCommands History Refinement RaftSpec Raft RaftMono Replication RaftRefine RaftSafe ReplicationMono ReplicationRefine Driver DriverRefine AppWorld StateMachine KV AppFacts AppInv AppSystem AppProperties AppWhole LinearizableRead Follows ReadRefine System ClientHistory LeaderService SessionSpec.

Implicit Types (y : SystemWorld) (w : ServiceWorld) (a : Abs) (n id key : string) (r : ClientRequest)
  (s : Spec KVCommand) (H : list Entry) (h : OperationHistory) (identity : LeaderRuntimeIdentity).

(** ** A leader's append *)

Definition leads (x : RaftWorld) n : Prop := (vol x n).(role) = LEADER.

Lemma refines_leader_append ids {may : KVCommand → Prop} ok (x : RaftWorld) s n c :
  Ra true ids ids x s → leads x n → may c →
  refines (spec_step (majority ids) true may) (Ra true ids ids) ok s
    (persist_log n ((dur x n).(log) ++ [mkLogEntry (dur x n).(current_term) c])) (λ x' _ _, leads x' n) x.
Proof.
  intros HR Hl Hmay. destruct (append_steps ids x s n c HR Hl Hmay) as (Hs & Hap & Hd & Hrole & Hcom).
  set (t := current_term (dur x n)) in *. set (s1 := append_state _ _ _ _) in *.
  apply (refines_steps _ _ _ _ s1); [done|]. unfold persist_log. apply wp_bind, wp_persist. intros x1 He1.
  assert (Ra true ids ids x1 s1) as HR1.
  { eapply R_Ra. eapply raft_R_dur_ext; [exact He1|exact HR|done..|by right|done]. }
  assert (leads x1 n) as Hl1. { unfold leads, vol, volatile. by rewrite (de_volatile _ _ _ _ He1). }
  clearbody s1. apply wp_bind, wp_gets. eapply wp_plain; [exact HR1|done|]. intros x2 He2 _ HR2.
  exists s1. split; [done|]. split; [by eapply R_Ra|].
  unfold leads, vol, volatile. by rewrite (se_volatile _ _ _ He2).
Qed.

(** ** The system *)

Section system.
Context (ids : list string) {may : KVCommand → Prop}.
Implicit Types (p : Spec KVCommand * list Entry).

Definition Sys y p : Prop := follows ids y p.1 p.2.
Local Abbreviation refinesS := (refines (both_step ids may) Sys (λ _, True)).
Local Abbreviation refinesA := (refines (spec_step (majority ids) true may) (Ra true ids ids) (λ _, True)).
Local Abbreviation refinesD := (refines (spec_step (majority ids) true may) (D ids) (λ _, True)).

Lemma Sys_Ra y p : Sys y p → Ra true ids ids y.(store).(raft) p.1.
Proof. intros Hf. exact (proj1 (fo_driven _ _ _ _ Hf)). Qed.

(** The cluster and its replicators move. *)
Lemma refines_driven {A} p (m : M _ A) (Q : _ → _ → A → Prop) y :
  Sys y p → refinesD p.1 m Q (driven_part y) →
  refinesS p (λ y, let r := m (driven_part y) in (with_driven r.1 y, r.2))
    (λ y' p' v, Q (driven_part y') p'.1 v ∧ p'.2 = p.2) y.
Proof.
  intros Hf Hm. unfold refines, wp in *. destruct (m (driven_part y)) as [d [e|v]]; simpl.
  - destruct Hm as [(s' & Hs & HD) _]. split; [|done]. exists (s', p.2).
    split; [by apply rtc_once|]. by eapply follows_raft.
  - destruct Hm as (s' & Hs & HD & HQ). exists (s', p.2). split; [by apply rtc_once|].
    split; [by eapply follows_raft|]. split; [|done]. by destruct d.
Qed.

Lemma refines_raft {A} p (m : M RaftWorld A) (Q : _ → _ → A → Prop) y :
  Sys y p → moves m → refinesA p.1 m Q y.(store).(raft) →
  refinesS p (on_store (on_raft m)) (λ y' p' v, Q y'.(store).(raft) p'.1 v ∧ p'.2 = p.2) y.
Proof.
  intros Hf Hmv Hm. pose proof (refines_driven p (of_cluster m) (λ d s v, Q d.(dw_cluster) s v) y Hf) as Hd.
  unfold on_store, on_raft, refines, wp in *.
  specialize (Hd (refines_of_cluster ids (λ _, True) p.1 m Q (driven_part y) (fo_driven _ _ _ _ Hf) Hmv Hm)).
  unfold of_cluster in Hd. simpl in Hd. destruct (m (raft (store y))) as [x [e|v]]; simpl in *; exact Hd.
Qed.

Lemma stays_check_leader (q : LeaderReplicator) : stays (check_current_leader (C := KVCommand) q).
Proof. unfold check_current_leader. auto 40 with distlab. Qed.
#[local] Hint Resolve stays_check_leader : distlab.

Lemma stays_new_replicator n : stays (new_LeaderReplicator (C := KVCommand) n).
Proof. unfold new_LeaderReplicator. cbv zeta. auto 40 with distlab. Qed.

Lemma add_replicator_cluster n (d : DriveWorld (C := KVCommand)) : (add_replicator n d).1.(dw_cluster) = d.(dw_cluster).
Proof.
  unfold add_replicator, of_cluster, bind, modify. simpl.
  pose proof (stays_node n d.(dw_cluster)) as Hn. destruct (node n _) as [x [e|n']]; simpl in *; [done|].
  pose proof (stays_new_replicator n' x) as Hr. destruct (new_LeaderReplicator n' x) as [x' [e|q]]; simpl in *; congruence.
Qed.

Lemma refines_add_replicator p n y :
  Sys y p → refinesS p (λ y, let r := add_replicator n (driven_part y) in (with_driven r.1 y, r.2))
    (λ y' p' _, y'.(store).(raft) = y.(store).(raft)) y.
Proof.
  intros Hf. pose proof (refines_driven p (add_replicator n) (λ _ _ _, True) y Hf) as Hd.
  pose proof (add_replicator_cluster n (driven_part y)) as E.
  eapply wp_mono; [eapply wp_and; [apply Hd|]| |].
  - apply (safely_add_replicator ids (λ _, True)); [apply Hf|done..].
  - instantiate (1 := λ _ _, True). instantiate (1 := λ y' _, y'.(store).(raft) = y.(store).(raft)).
    unfold wp. destruct (add_replicator n (driven_part y)) as [d [e|[]]]; simpl in *; [done|exact E].
  - intros y' v [(p' & ? & ? & _) ?]. by exists p'.
  - intros y' e [? _]. done.
Qed.

(** A replica applies what it has committed. *)
Lemma refines_apply p n y :
  Sys y p → refinesS p (on_store (kv_apply_committed n)) (λ y' p' _, y'.(store).(raft) = y.(store).(raft)) y.
Proof.
  intros Hf. unfold on_store, refines, wp. pose proof (spares_kv_apply n y.(store)) as Hraft.
  destruct (kv_apply_committed n y.(store)) as [x v] eqn:E.
  destruct (follows_apply ids y p.1 p.2 n x v Hf E) as (H' & Hp & Hf' & _). simpl in *.
  assert (rtc (both_step ids may) p (p.1, H')) as Hs by (by apply rtc_once).
  destruct v as [e|l]; [split; [|done]|]; exists (p.1, H'); by split.
Qed.

(** A reader's method *)
Lemma refines_reader {A} p i (m : RdM A) (Q : _ → _ → _ → A → Prop) y :
  Sys y p → read_grows m →
  (∀ x, F ids x p → refines (both_step ids may) (F ids) (λ _, True) p m (Q x) x) →
  refinesS p (of_reader i m) (λ y' p' v, ∃ x x', y'.(replicators) !! i = Some x'.(rd_replicator)
    ∧ y'.(store) = x'.(rd_store) ∧ F ids x' p' ∧ Q x x' p' v) y.
Proof.
  intros Hf Hg Hm. unfold of_reader, refines, wp.
  destruct (replicators y !! i) as [q|] eqn:Hi; [|split; [by exists p|done]].
  set (x := mkReadWorld _ _ _). assert (F ids x p) as HF by by eapply follows_pick in Hf.
  specialize (Hm x HF). pose proof (gr_later _ _ (Hg x)) as Hl. unfold refines, wp in Hm.
  assert (∀ x' p', rtc (both_step ids may) p p' → F ids x' p' → later (raft (store y)) (raft (rd_store x')) →
    Sys (mkSystem (rd_store x') (<[i := rd_replicator x']> (replicators y)) (rd_trace x')) p') as Hput.
  { intros x' p' [Hs _]%both_steps HF' Hl'. eapply follows_put; [done..|]. by destruct p'. }
  destruct (m x) as [x' [e|v]]; simpl in *.
  - destruct Hm as [(p' & Hs & HF') _]. split; [|done]. exists p'. split; [done|by apply Hput].
  - destruct Hm as (p' & Hs & HF' & HQ). exists p'. split; [done|]. split; [by apply Hput|]. exists x, x'.
    split; [apply list_lookup_insert_eq; by eapply lookup_lt_Some|]. done.
Qed.

Lemma refines_on_replicator {A} p (m : M _ A) x :
  F ids x p → (RRep ids (leader_id x) (rep_of x) p.1 →
    refines (spec_step (majority ids) true may) (RRep ids (leader_id x)) (λ _, True) p.1 m (λ _ _ _, True) (rep_of x)) →
  refines (both_step ids may) (F ids) (λ _, True) p (on_replicator m) (λ _ _ _, True) x.
Proof.
  intros Hf Hm. eapply refines_weaken.
  - by apply (refines_replicator ids (λ _, True) p m (λ _ _ _, True)).
  - done.
Qed.

(** Where a replica's image is in the history *)
Lemma Sys_image y p n :
  Sys y p → ∃ j, (j ≤ length p.2)%nat ∧ image_of y.(store) n = replay kv_image0 (commands_to p.2 j).
Proof.
  intros Hf. destruct (kvs (store y) !! n) as [im|] eqn:Hi.
  2:{ exists 0%nat. split; [lia|]. unfold image_of. by rewrite Hi. }
  pose proof (app_reachable_follows _ _ (fo_store _ _ _ _ Hf)) as Hap. pose proof (af_inv _ _ Hap) as Hinv.
  destruct (image_ok_of_disk _ _ (ai_kv _ Hinv _ _ Hi)) as [Hb E].
  pose proof (af_disk _ _ Hap n) as Hd. rewrite (image_of_disk_at _ _ Hb Hd), (fo_base _ _ _ _ Hf) in E.
  destruct Hd as [_ Hp _]. rewrite (fo_base _ _ _ _ Hf) in Hp. apply prefix_length in Hp. simpl in Hp.
  exists (length (sm_applied (disk_of y.(store) n))). split; [exact Hp|].
  rewrite (image_of_some _ _ _ Hi), E. unfold image_at, commands_to, commands_of, zlen.
  by rewrite Z.add_0_l, Nat2Z.id, fmap_take.
Qed.

(** ** What a reader has seen *)

Lemma bind_inv {S A B} (m : M S A) (k : A → M S B) x x' (b : B) :
  bind m k x = (x', inr b) → ∃ x1 v, m x = (x1, inr v) ∧ k v x1 = (x', inr b).
Proof. unfold bind. destruct (m x) as [x1 [e|v]]; [done|]. intros Hk. by exists x1, v. Qed.

Lemma read_grows_same {A} (m : RdM A) x x' v : read_grows m → m x = (x', v) → leader_id x' = leader_id x.
Proof. intros Hg E. specialize (Hg x). rewrite E in Hg. exact (gr_leader _ _ Hg). Qed.

Lemma authority_leader rf k x x' e : confirm_authority rf k x = (x', inr e) → e.(ev_leader) = leader_id x'.
Proof.
  unfold confirm_authority. intros (x0 & [] & E0 & E)%bind_inv.
  apply bind_inv in E as (x1 & [] & _ & E). apply bind_inv in E as (x2 & [] & _ & E).
  apply bind_inv in E as (? & n & [= <- <-] & E). apply bind_inv in E as (? & q & [= <- <-] & E).
  apply bind_inv in E as (? & ps & [= <- <-] & E). apply bind_inv in E as (x3 & acks & E3 & E).
  apply bind_inv in E as (x4 & [] & E4 & E). cbv zeta in E.
  apply bind_inv in E as (? & d & [= <- <-] & E). apply bind_inv in E as (x5 & [] & E5 & E).
  injection E as <- <-. simpl.
  pose proof (read_grows_same _ _ _ _ (read_grows_confirm _ _ _ _ _ _) E3) as H3.
  pose proof (read_grows_same _ _ _ _ read_grows_leader E4) as H4.
  unfold when in E5. destruct (_ <? _) in E5; [done|]. injection E5 as <-. by rewrite H4, H3.
Qed.

(** All that was committed when the method began, and the replica at [n] at that point *)
Definition seen p y' p' n (j : nat) : Prop := (length p.2 ≤ j ≤ length p'.2)%nat
  ∧ image_of y'.(store) n = replay kv_image0 (commands_to p'.2 j).

Lemma refines_of_barrier p i rf k y :
  Sys y p → refinesS p (of_reader i (read_barrier rf k)) (λ y' p' e, ∃ j, seen p y' p' e.(ev_leader) j) y.
Proof.
  intros Hf. eapply refines_weaken.
  - apply (refines_reader p i _ (λ _ x' p' e, fresh ids p.1 x' p' e.(ev_leader))); [done|apply read_grows_barrier|].
    intros x HF. unfold read_barrier.
    eapply (refines_bind _ _ _ _ _ _ _ (λ x' _ e, serves ids p.1 x' ∧ e.(ev_leader) = leader_id x')).
    { eapply wp_mono; [eapply wp_and; [by apply (refines_authority ids (λ _, True) (may := may))|]| |].
      - instantiate (1 := λ _ _, True). instantiate (1 := λ x' e, e.(ev_leader) = leader_id x').
        pose proof (authority_leader rf k x) as He. unfold wp. destruct (confirm_authority rf k x) as [x' [e|e]]; [done|]. by apply He.
      - simpl. intros x' e [(p' & ? & ? & ?) ?]. by exists p'.
      - simpl. intros x' e [? _]. done. }
    intros p1 x1 e _ Hf1 [Hs He]. apply refines_gets. eapply refines_bind; [by apply refines_kv_apply|].
    intros p2 x2 l _ Hf2 (_ & Hrep & Hlast). apply refines_read_record; [done|]. intros x3 Hf3 _ Es.
    apply refines_ret; [done|]. eapply serves_fresh in Hlast; [|exact Hf1|exact Hf2|exact Hs|exact Hrep].
    destruct Hlast as [? ?]. rewrite He. split; [done|]. by rewrite Es.
  - intros p' y' e _ Hf' (x & x' & _ & Es & _ & Hn & Hfresh).
    destruct (follows_node ids y' p'.1 p'.2 _ Hf' Hn) as (b & _ & Ha & Hr & Him & _). rewrite Es in Ha, Him.
    rewrite Ha in Hfresh. destruct (fo_history _ _ _ _ Hf) as [t Hc]. apply Hfresh in Hc. apply prefix_length in Hc.
    rewrite length_take in Hc. exists (Z.to_nat (na_last_applied b)). unfold zlen in Hr. split; [lia|].
    rewrite Es, Him. unfold image_at, commands_to, commands_of. by rewrite fmap_take.
Qed.

Lemma refines_of_get p i rf key k y :
  Sys y p → refinesS p (of_reader i (linearizable_get rf key k)) (λ y' p' v, is_Some (y'.(replicators) !! i)
    ∧ ∃ j, (length p.2 ≤ j ≤ length p'.2)%nat ∧ v = state_to p'.2 j !! key) y.
Proof.
  intros Hf. eapply refines_weaken.
  - apply (refines_reader p i _ (λ _ x' p' v, ∃ j, 0 ≤ j ≤ zlen p'.2 ∧ v = (image_at p'.2 j).(kv_state) !! key
      ∧ ∀ t q, committed (majority ids) p.1 t q → q `prefix_of` take (Z.to_nat j) p'.2)); [done|apply read_grows_get|].
    intros x HF. by apply refines_get.
  - intros p' y' v _ Hf' (x & x' & Hi & _ & _ & j & Hj & -> & Hfresh). split; [by eexists|].
    destruct (fo_history _ _ _ _ Hf) as [t Hc]. apply Hfresh in Hc. apply prefix_length in Hc.
    rewrite length_take in Hc. exists (Z.to_nat j). unfold zlen in Hj. split; [lia|].
    unfold state_to, image_at, commands_to, commands_of. by rewrite fmap_take.
Qed.
End system.

(** ** The client history and the leader service within the specification

    [SW w a]: the service's world [w] stands for the state [a] of the machine of
    clients of [SessionSpec].  [calls call X a m Q w]: run from [w], which stands
    for [a], the method [m] ends in a world that stands for a state the machine
    reaches in steps of [call]; [Q] holds if it returned and [X] if it raised.
    Each method of [ClientHistory] and [LeaderService] is such a call. *)

Implicit Types (cl : KVClientHistory) (X : Abs → Prop).

(** ** Calls that change nothing *)

Lemma stays_on_system {A} (m : M SystemWorld A) : stays m → stays (on_system m).
Proof. intros Hm w. unfold on_system. rewrite Hm. by destruct w. Qed.
Lemma stays_on_store {A} (m : AM A) : stays m → stays (on_store m).
Proof. intros Hm y. unfold on_store. rewrite Hm. by destruct y. Qed.
Lemma stays_on_kv {A} (m : AM A) : stays m → stays (on_kv m).
Proof. intros Hm. by apply stays_on_system, stays_on_store. Qed.
Lemma stays_on_raft_cluster {A} (m : M RaftWorld A) : stays m → stays (on_raft_cluster m).
Proof. intros Hm. by apply stays_on_kv, stays_on_raft. Qed.
#[export] Hint Resolve stays_on_kv stays_on_raft_cluster : distlab.
#[export] Hint Extern 5 (stays (match ?b with _ => _ end)) => destruct b : distlab.

Lemma stays_guard_current l : stays (guard_current l).
Proof. unfold guard_current. auto 20 with distlab. Qed.
#[export] Hint Resolve stays_guard_current : distlab.
Lemma stays_guard l g : stays (guard_require l g).
Proof. unfold guard_require. auto with distlab. Qed.
#[export] Hint Resolve stays_guard : distlab.
Lemma stays_require l g : stays (require_generation l g).
Proof. unfold require_generation. auto with distlab. Qed.
#[export] Hint Resolve stays_require : distlab.
Lemma stays_same identity : stays (require_same identity).
Proof. unfold require_same. auto with distlab. Qed.
Lemma stays_requests n : stays (kv_client_requests n).
Proof. unfold kv_client_requests. auto with distlab. Qed.
Lemma stays_has_applied n c q : stays (has_applied_request n c q).
Proof. unfold has_applied_request. auto with distlab. Qed.
Lemma stays_reader_leader i : stays (reader_leader i).
Proof. unfold reader_leader. auto with distlab. Qed.
Lemma stays_pending_write id : stays (require_pending_write id).
Proof. unfold require_pending_write. auto with distlab. Qed.
Lemma stays_pending_invocation id c key msg : stays (require_pending_invocation id c key msg).
Proof. unfold require_pending_invocation. auto 20 with distlab. Qed.
Lemma stays_available c q : stays (ensure_client_request_identity_available c q).
Proof. unfold ensure_client_request_identity_available. auto with distlab. Qed.
#[export] Hint Resolve stays_same stays_requests stays_has_applied stays_reader_leader stays_pending_write
  stays_pending_invocation stays_available : distlab.
Lemma stays_request_log_index n r : stays (request_log_index n r).
Proof. unfold request_log_index. auto with distlab. Qed.
Lemma stays_target_after n k : stays (current_term_target_after n k).
Proof. unfold current_term_target_after. auto with distlab. Qed.
Lemma stays_write_result identity r k : stays (write_result identity r k).
Proof. unfold write_result. auto with distlab. Qed.
Lemma stays_commit_index_of n : stays (commit_index_of n).
Proof. unfold commit_index_of. auto with distlab. Qed.
Lemma stays_positive k : stays (positive_peer_attempts k).
Proof. unfold positive_peer_attempts. auto with distlab. Qed.
#[export] Hint Resolve stays_request_log_index stays_target_after stays_write_result stays_commit_index_of
  stays_positive : distlab.

(** ** A guard that passes *)

(** [identity] owns the runtime generation it names. *)
Record owns (x : RaftWorld) identity : Prop := {
  ow_generation : x.(objs).(active_leader_generations) !! identity.(li_leader)
    = Some (identity.(li_term), identity.(li_generation));
  ow_member : member x identity.(li_leader) = true;
  ow_alive : is_alive x identity.(li_leader) = true;
  ow_leads : leads x identity.(li_leader);
  ow_term : (dur x identity.(li_leader)).(current_term) = identity.(li_term);
}.

Lemma guard_current_returns l x x' i :
  guard_current l x = (x', inr i) → owns x i ∧ i.(li_leader) = l.
Proof.
  unfold guard_current. intros (x1 & v & [= <- <-] & E)%bind_inv.
  destruct (_ !! l) as [[t g]|] eqn:Eg; [|done].
  apply bind_inv in E as (x1 & n & En & E). unfold node, bind, gets in En.
  destruct (member x l) eqn:Em; [|done]. injection En as <- <-.
  apply bind_inv in E as (? & up & [= <- <-] & E). apply bind_inv in E as (? & ld & [= <- <-] & E).
  apply bind_inv in E as (? & d & [= <- <-] & E). apply bind_inv in E as (x2 & [] & Ec & E).
  injection E as <- <-. destruct (negb _ || _ || _) eqn:Eb in Ec; [done|].
  apply orb_false_iff in Eb as [[Ha%negb_false_iff Hl%negb_false_iff]%orb_false_iff Ht%negb_false_iff%Z.eqb_eq].
  split; [|done]. split; try done. by apply bool_decide_eq_true in Hl.
Qed.

Lemma guard_require_returns l g x x' i :
  guard_require l g x = (x', inr i) → owns x i ∧ i.(li_leader) = l ∧ i.(li_generation) = g.
Proof.
  unfold guard_require. intros (x1 & v & Ev & E)%bind_inv.
  pose proof (stays_eq _ _ _ _ (stays_guard_current l) Ev) as ->.
  apply guard_current_returns in Ev as [Ho Hl]. apply bind_inv in E as (x2 & [] & Ec & E). injection E as <- <-.
  destruct (negb _) eqn:Eb in Ec; [done|]. apply negb_false_iff, Z.eqb_eq in Eb. done.
Qed.

Lemma require_returns l g w w' i :
  require_generation l g w = (w', inr i) → owns (cluster_of w) i ∧ i.(li_leader) = l ∧ i.(li_generation) = g.
Proof.
  unfold require_generation, on_raft_cluster, on_kv, on_system, on_store, on_raft. simpl. fold (cluster_of w).
  pose proof (guard_require_returns l g (cluster_of w)) as Hg. destruct (guard_require l g (cluster_of w)) as [x v].
  intros [= _ ->]. by apply (Hg x).
Qed.

(** ** The relation *)

Lemma bool_is_some {A} (o : option A) : bool_decide (is_Some o) = match o with Some _ => true | None => false end.
Proof. by destruct o. Qed.

(** The requests a client history waits for are the issued ones without an
    answer. *)
Definition waiting a id : option ClientRequest :=
  if completed_id a.(ab_history) id then None else a.(ab_issued) !! id.

Section calls.
Context (ids : list string) (call : Call).
Local Abbreviation step := (client_step (majority ids) call).

Record SW w a : Prop := {
  sw_follows : follows ids w.(sv_system) a.(ab_spec) a.(ab_entries);
  sw_history : history_of w = a.(ab_history);
  sw_pending id : w.(sv_clients).(pending_writes) !! id = waiting a id;
  sw_number id : a.(ab_history).(h_client_request_ids) !! id = cr_request_id <$> waiting a id;
  sw_inv : abs_inv a;
}.

(** Raft and the store move, the clients do not. *)
Record moved a a' : Prop := {
  mv_issued : a'.(ab_issued) = a.(ab_issued);
  mv_points : a'.(ab_points) = a.(ab_points);
  mv_history : a'.(ab_history) = a.(ab_history);
  mv_entries : a.(ab_entries) `prefix_of` a'.(ab_entries);
}.

Lemma moved_refl a : moved a a.
Proof. done. Qed.
Lemma moved_trans a1 a2 a3 : moved a1 a2 → moved a2 a3 → moved a1 a3.
Proof. intros [] []. split; congruence || by etrans. Qed.

Definition calls X {A} a (m : SM A) (Q : ServiceWorld → Abs → A → Prop) w : Prop :=
  wp m (λ w' v, ∃ a', rtc step a a' ∧ SW w' a' ∧ Q w' a' v) (λ w' _, ∃ a', rtc step a a' ∧ SW w' a' ∧ X a') w.

Lemma calls_framed w a a' : SW w a → rtc step a a' → framed call a a'.
Proof. intros Hw Hs. eapply client_steps_framed; [done|apply Hw]. Qed.

Section rules.
Context X (HX : ∀ a a', moved a a' → X a → X a').

Lemma calls_ret {A} a (v : A) (Q : _ → _ → A → Prop) w : SW w a → Q w a v → calls X a (ret v) Q w.
Proof. intros Hw HQ. by exists a. Qed.

Lemma calls_weaken {A} X' a (m : SM A) (Q Q' : _ → _ → A → Prop) w :
  calls X' a m Q w → (∀ a' w' v, rtc step a a' → SW w' a' → Q w' a' v → Q' w' a' v) → (∀ a', X' a' → X a') →
  calls X a m Q' w.
Proof.
  intros Hm HQ HX'. eapply wp_mono; [exact Hm| |].
  - intros w' v (a' & ? & ? & ?). exists a'. auto.
  - intros w' e (a' & ? & ? & ?). exists a'. auto.
Qed.

Lemma calls_bind {A B} a (m : SM A) (k : A → SM B) P Q w :
  calls X a m P w → (∀ a' w' v, rtc step a a' → SW w' a' → P w' a' v → calls X a' (k v) Q w') →
  calls X a (bind m k) Q w.
Proof.
  intros Hm Hk. apply wp_bind. eapply wp_mono; [exact Hm| |done].
  intros w' v (a' & Hs & Hw & HP). eapply wp_mono; [by apply (Hk a')|..].
  - intros w2 v2 (a2 & ? & ? & ?). exists a2. split; [by etrans|done].
  - intros w2 e (a2 & ? & ? & ?). exists a2. split; [by etrans|done].
Qed.

Lemma calls_assoc {A B D} a (m : SM A) (k : A → SM B) (k' : B → SM D) Q w :
  calls X a (bind m (λ v, bind (k v) k')) Q w → calls X a (bind (bind m k) k') Q w.
Proof. unfold calls, wp, bind. by destruct (m w) as [w' [e|v]]. Qed.

Lemma calls_ret_r {A} a (m : SM A) Q w : calls X a (bind m ret) Q w → calls X a m Q w.
Proof. unfold calls, wp, bind. by destruct (m w) as [w' [e|v]]. Qed.

(** A handler goes on from where the exception was raised. *)
Lemma calls_try {A} X' a (m : SM A) (f : exn → SM A) (Q : _ → _ → A → Prop) w :
  calls X' a m Q w → (∀ a' w' e, rtc step a a' → SW w' a' → X' a' → calls X a' (f e) Q w') →
  calls X a (try_except m f) Q w.
Proof.
  intros Hm Hh. unfold calls, try_except, wp in *. destruct (m w) as [w' [e|v]]; [|done].
  destruct Hm as (a' & Hs & Hw & HXa). specialize (Hh a' w' e Hs Hw HXa).
  destruct (f e w') as [w2 [e2|v2]]; destruct Hh as (a2 & ? & ? & ?); exists a2; (split; [by etrans|done]).
Qed.

Lemma calls_returns {A B} a (m : SM A) (k : A → SM B) (v : A) Q w :
  m w = (w, inr v) → calls X a (k v) Q w → calls X a (bind m k) Q w.
Proof. intros Hm Hk. apply wp_bind. unfold wp at 1. by rewrite Hm. Qed.

Lemma calls_gets {A B} a (f : _ → A) (k : A → SM B) Q w : calls X a (k (f w)) Q w → calls X a (bind (gets f) k) Q w.
Proof. intros Hk. by apply wp_bind, wp_gets. Qed.

Lemma calls_raise {A} a c msg (Q : _ → _ → A → Prop) w : SW w a → X a → calls X a (raise c msg) Q w.
Proof. intros Hw Ha. by exists a. Qed.

Lemma calls_stay {A B} a (m : SM A) (k : A → SM B) Q w :
  SW w a → X a → stays m → (∀ v, m w = (w, inr v) → calls X a (k v) Q w) → calls X a (bind m k) Q w.
Proof. intros Hw Ha Hm Hk. apply wp_stays_bind; [done|exact Hk|]. intros e _. by exists a. Qed.

(** The same at the end of a method *)
Lemma calls_stays {A} a (m : SM A) w : SW w a → X a → stays m → calls X a m (λ w' a' _, w' = w ∧ a' = a) w.
Proof.
  intros Hw Ha Hm. unfold calls, wp. specialize (Hm w). destruct (m w) as [w' [e|v]]; simpl in Hm; subst; by exists a.
Qed.

Lemma SW_record w a rec :
  SW w a → SW (mkService w.(sv_system) w.(sv_clients) (w.(sv_trace) ++ [rec])) a.
Proof. intros []. by split. Qed.

Lemma calls_record {B} a rec (k : unit → SM B) Q w :
  SW w a → (∀ w', SW w' a → w'.(sv_system) = w.(sv_system) → calls X a (k tt) Q w') →
  calls X a (bind (sv_record rec) k) Q w.
Proof. intros Hw Hk. apply wp_bind, wp_modify. apply Hk; [by apply SW_record|done]. Qed.

(** The system moves. *)
Lemma SW_moves w a p' w' :
  SW w a → rtc (both_step ids (allowed a.(ab_issued))) (a.(ab_spec), a.(ab_entries)) p' → Sys ids w'.(sv_system) p' →
  w'.(sv_clients) = w.(sv_clients) →
  let a' := mkAbs p'.1 p'.2 a.(ab_issued) a.(ab_points) a.(ab_history) in rtc step a a' ∧ SW w' a' ∧ moved a a'.
Proof.
  intros Hw [Hs Hp]%both_steps Hf Hcl a'.
  assert (step a a') as Hst by (apply cs_grow; [done..|apply Hf]).
  assert (abs_inv a') as Ha' by (eapply client_step_inv; [exact Hst|apply Hw]).
  split; [by apply rtc_once|]. split; [|by split]. destruct Hw. split; try done; [unfold history_of; by rewrite Hcl|].
  intros id. rewrite Hcl. apply sw_pending0.
Qed.

Lemma calls_system {A B} a (m : M SystemWorld A) (P : SystemWorld → Spec KVCommand * list Entry → A → Prop) (k : A → SM B) Q w :
  SW w a → X a →
  refines (both_step ids (allowed a.(ab_issued))) (Sys ids) (λ _, True) (a.(ab_spec), a.(ab_entries)) m P w.(sv_system) →
  (∀ a' w' v, moved a a' → SW w' a' → P w'.(sv_system) (a'.(ab_spec), a'.(ab_entries)) v → calls X a' (k v) Q w') →
  calls X a (bind (on_system m) k) Q w.
Proof.
  intros Hw Ha Hm Hk. unfold calls, bind, on_system, refines, wp in *. destruct (m (sv_system w)) as [y [e|v]]; simpl.
  - destruct Hm as [(p' & Hs & Hf) _].
    edestruct (SW_moves w a p' (mkService y w.(sv_clients) w.(sv_trace))) as (? & ? & ?); [done..|].
    eexists. split; [done|]. split; [done|]. by eapply HX.
  - destruct Hm as (p' & Hs & Hf & HP).
    edestruct (SW_moves w a p' (mkService y w.(sv_clients) w.(sv_trace))) as (Hst & Hw' & Hmv); [done..|].
    specialize (Hk _ _ v Hmv Hw'). simpl in Hk. specialize (Hk ltac:(by destruct p')).
    destruct (k v _) as [w2 [e2|v2]]; destruct Hk as (a2 & ? & ? & ?); exists a2; (split; [by etrans|done]).
Qed.
End rules.
End calls.
