(* ===== verification/ServiceCalls.v ===== *)
(** * ServiceCalls: the methods of the client history and of the leader service

    Each method is a call of the machine of clients ([ServiceRefine.calls]): an
    invocation is a write or a read of the client, an answer has a point of the
    committed history, and what is appended is issued or no write. *)

From stdpp Require Import relations.
From S2P Require Import Prelude Simulator Quorum LogIndex KVCommands History Linearizability Projection Refinement RaftSpec Raft RaftMono Replication RaftRefine RaftSafe ReplicationMono ReplicationRefine Driver DriverRefine AppWorld StateMachine KV AppFacts AppInv AppSystem AppProperties AppWhole LinearizableRead Follows ReadRefine System ClientHistory LeaderService SessionSpec ServiceRefine.

Implicit Types (w : ServiceWorld) (a : Abs) (n id key : string) (r : ClientRequest)
  (h : OperationHistory) (identity : LeaderRuntimeIdentity) (cl : KVClientHistory) (X : Abs → Prop).

(** ** Histories *)

Lemma new_ClientRequest_returns c q op r : new_ClientRequest c q op = inr r → r = mkClientRequest c q op ∧ 0 ≤ q.
Proof.
  unfold new_ClientRequest, checked. destruct (empty_str c); [done|].
  destruct (Z.ltb_spec q 0); [done|]. by intros [= <-].
Qed.

Lemma elem_of_invocations h i : i ∈ invocations h ↔ i ∈ h.(h_invocations).
Proof. unfold invocations. by rewrite (merge_sort_Permutation by_sequence h.(h_invocations)). Qed.

Lemma identity_free h c q id :
  history_wf h → identity_taken h c q = false → h.(h_active_client_requests) !! (c, q) ≠ Some id.
Proof.
  intros Hw Hf Ha. destruct (wf_active _ Hw _ _ _ Ha) as (Hr & i & Hi & Hc).
  pose proof (invocation_of_elem _ _ _ Hi) as [Hin <-]. apply not_true_iff_false in Hf. apply Hf.
  unfold identity_taken. apply existsb_exists. exists i. rewrite <-list_elem_of_In, elem_of_invocations.
  split; [done|]. rewrite Hc, String.eqb_refl. simpl. by apply bool_decide_eq_true.
Qed.

Lemma invoke_invoked h id c op h' :
  history_wf h → history_wf h' → h' = with_invocation h id c op → invocation_of h id = None →
  invoked h (mkInvocation id c op h.(h_sequence)) h'.
Proof. intros Hw Hw' -> Hn. by split. Qed.

Lemma wp_invoked h id c op :
  history_wf h → wp (invoke id c op)
    (λ h' _, h' = with_invocation h id c op ∧ invoked h (mkInvocation id c op h.(h_sequence)) h') (λ h' _, h' = h) h.
Proof.
  intros Hw. eapply wp_mono; [apply wp_and; [by apply wp_invoke|by apply invoke_wf]| |].
  - intros h' _ [[-> Hn] Hw']. split; [done|]. by apply invoke_invoked.
  - intros h' e [[? _] _]. done.
Qed.

Lemma wp_answered h id v :
  history_wf h → wp (respond id v)
    (λ h' _, h' = with_completion h id v ∧ answered h id (mkCompletion id v h.(h_sequence)) h') (λ h' _, h' = h) h.
Proof.
  intros Hw. eapply wp_mono; [apply wp_and; [by apply wp_respond|by apply respond_wf]| |].
  - intros h' _ [[-> Hn] Hw']. by split.
  - intros h' e [? _]. done.
Qed.

(** The number of a fresh write is attached. *)
Lemma attach_returns h i q :
  history_wf h → invocation_of h i.(inv_operation_id) = Some i → is_write i.(inv_operation) = true → 0 ≤ q →
  h.(h_completions) !! i.(inv_operation_id) = None → h.(h_client_request_ids) !! i.(inv_operation_id) = None →
  h.(h_active_client_requests) !! (i.(inv_client_id), q) = None →
  attach_client_request_id i.(inv_operation_id) q h =
    (set_active_requests (<[(i.(inv_client_id), q) := i.(inv_operation_id)]> h.(h_active_client_requests))
      (set_request_ids (<[i.(inv_operation_id) := q]> h.(h_client_request_ids)) h), inr tt).
Proof.
  intros Hw Hi Hwr Hq Hc Hn Ha. unfold attach_client_request_id, require_invocation, bind, gets, raise_if, completed_id.
  rewrite Hi. simpl. rewrite Hwr. simpl. rewrite !bool_is_some, Hc, Hn, Ha.
  destruct (Z.ltb_spec q 0); [lia|]. done.
Qed.

(** A number is retired with its answer. *)
Lemma retire_returns h id i q c :
  history_wf h → h.(h_completions) !! id = Some c → invocation_of h id = Some i → h.(h_client_request_ids) !! id = Some q →
  retire_client_request_id id h =
    (set_active_requests (delete (i.(inv_client_id), q) h.(h_active_client_requests))
      (set_request_ids (delete id h.(h_client_request_ids)) h), inr q).
Proof.
  intros Hw Hc Hi Hq. destruct (wf_request _ Hw _ _ Hq) as (j & Hj & _ & Ha). rewrite Hi in Hj. injection Hj as <-.
  unfold retire_client_request_id, bind, gets, raise_if, completed_id. rewrite bool_is_some, Hc, Hi. simpl. rewrite Hq.
  unfold modify, when. simpl. rewrite bool_decide_eq_true_2 by done. done.
Qed.

(** The state in which an operation has been answered at a point *)
Definition answer_at a id (p : nat) h : Abs :=
  mkAbs a.(ab_spec) a.(ab_entries) a.(ab_issued) (<[id := p]> a.(ab_points)) h.

Section methods.
Context (ids : list string) (call : Call).
Local Abbreviation quorum := (majority ids).
Local Abbreviation step := (client_step quorum call).
Local Abbreviation SW := (SW ids).
Local Abbreviation calls := (calls ids call).

Lemma SW_wf w a : SW w a → history_wf a.(ab_history).
Proof. intros Hw. exact (is_wf _ _ (av_issued _ (sw_inv _ _ _ Hw))). Qed.

Lemma not_issued w a id : SW w a → invocation_of a.(ab_history) id = None →
  a.(ab_issued) !! id = None ∧ a.(ab_history).(h_completions) !! id = None.
Proof.
  intros Hw Hn. pose proof (SW_wf _ _ Hw) as Hwf. split; apply eq_None_not_Some; intros [x Hx].
  - destruct (is_invoked _ _ (av_issued _ (sw_inv _ _ _ Hw)) _ _ Hx) as (i & Hi & _). congruence.
  - by destruct (completion_old _ _ _ Hwf Hx).
Qed.

(** *** The client history *)

(** A write that is invoked is the client's next request. *)
Definition wrote a id r w' a' : Prop :=
  a'.(ab_issued) = <[id := r]> a.(ab_issued) ∧ a'.(ab_history).(h_completions) = a.(ab_history).(h_completions)
  ∧ invocation_of a.(ab_history) id = None ∧ waiting a' id = Some r.

Lemma calls_invoke_write X a id c q op w :
  SW w a → X a →
  (∀ r, new_ClientRequest c q op = inr r → call = CallWrite id r ∧ next_request a.(ab_issued) a.(ab_history) r) →
  calls X a (invoke_write id c q op) (λ w' a' r, new_ClientRequest c q op = inr r ∧ wrote a id r w' a'
    ∧ w'.(sv_system) = w.(sv_system)) w.
Proof.
  intros Hw Ha Hr. unfold invoke_write. apply calls_stay; [done|done|auto with distlab|intros r [= Er]].
  destruct (Hr r Er) as [Hcall Hnext]. destruct (new_ClientRequest_returns _ _ _ _ Er) as [-> Hq].
  apply calls_stay; [done|done|auto with distlab|].
  intros [] Hav. assert (identity_taken a.(ab_history) c q = false) as Hfree.
  { rewrite <-(sw_history _ _ _ Hw). unfold ensure_client_request_identity_available, bind, gets in Hav.
    by destruct (identity_taken _ _ _). }
  pose proof (SW_wf _ _ Hw) as Hwf. apply wp_bind. pose proof (wp_invoked a.(ab_history) id c (HWrite op) Hwf) as Hv.
  unfold wp at 1. unfold on_history, wp in Hv |- *. fold (history_of w). rewrite (sw_history _ _ _ Hw).
  destruct (invoke id c (HWrite op) _) as [h1 [e|j]].
  { subst h1. exists a. split; [done|]. split; [|done]. destruct Hw. by split. }
  destruct Hv as [-> Hv]. set (i := mkInvocation id c (HWrite op) _) in *. pose proof (iv_new _ _ _ Hv) as Hn. simpl in Hn.
  destruct (not_issued _ _ _ Hw Hn) as [Hni Hnc].
  set (h1 := with_invocation _ _ _ _) in *. assert (invocation_of h1 id = Some i) as Hi1
    by (rewrite (invoked_of _ _ _ _ Hv); by rewrite decide_True).
  assert (h1.(h_client_request_ids) !! id = None) as Hnr.
  { apply eq_None_not_Some. intros [q' Hq']. destruct (wf_request _ Hwf _ _ Hq') as (? & ? & _). congruence. }
  assert (h1.(h_active_client_requests) !! (c, q) = None) as Hna.
  { apply eq_None_not_Some. intros [id' Hid']. by apply (identity_free _ _ _ id' Hwf Hfree). }
  pose proof (attach_returns h1 i q (iv_wf _ _ _ Hv) Hi1 eq_refl Hq Hnc Hnr Hna) as Hatt.
  pose proof (attach_wf h1 id q (iv_wf _ _ _ Hv)) as Hwf2. unfold wp in Hwf2. simpl in Hatt. rewrite Hatt in Hwf2.
  set (h2 := set_active_requests _ _) in *.
  apply wp_bind. unfold wp at 1. simpl. rewrite Hatt. cbn [fst snd].
  apply wp_bind, wp_modify, wp_bind, wp_modify, wp_ret.
  assert (invoked a.(ab_history) i h2) as Hv2 by (split; try done; apply Hv).
  set (r := mkClientRequest c q op) in *.
  set (a' := mkAbs a.(ab_spec) a.(ab_entries) (<[id := r]> a.(ab_issued)) a.(ab_points) h2).
  assert (step a a') as Hs by by apply (cs_write _ _ _ id r i).
  exists a'. split; [by apply rtc_once|].
  assert (∀ id', waiting a' id' = if decide (id' = id) then Some r else waiting a id') as Hwait.
  { intros id'. unfold waiting, completed_id. simpl. case_decide as Hd; [subst id'|by rewrite lookup_insert_ne].
    rewrite lookup_insert_eq, bool_is_some. by rewrite Hnc. }
  split; [|split; [done|]; split; [|done]; split_and!; [done..|by rewrite Hwait, decide_True]].
  split; [apply Hw|done| | |eapply client_step_inv; [exact Hs|apply Hw]].
  - intros id'. simpl. rewrite Hwait. case_decide as Hd; [subst id'; by rewrite lookup_insert_eq|].
    rewrite lookup_insert_ne by done. apply Hw.
  - intros id'. rewrite Hwait. simpl. case_decide as Hd; [subst id'; by rewrite lookup_insert_eq|].
    rewrite lookup_insert_ne by done. apply Hw.
Qed.

Lemma kv_requests_returns n w w' requests :
  on_kv (kv_client_requests n) w = (w', inr requests) → requests = (image_of w.(sv_system).(store) n).(kv_requests).
Proof.
  unfold on_kv, on_system, on_store, kv_client_requests, kv_require_node, bind, gets. simpl.
  destruct (bool_decide _); [|done]. by intros [= _ <-].
Qed.

(** What a replica has applied of requests is in the history. *)
Lemma applied_request w a n r j :
  SW w a → (j ≤ length a.(ab_entries))%nat →
  image_of w.(sv_system).(store) n = replay kv_image0 (commands_to a.(ab_entries) j) →
  (image_of w.(sv_system).(store) n).(kv_requests) !! (r.(cr_client_id), r.(cr_request_id)) = Some r.(cr_operation)
  ↔ CmdRequest r ∈ commands_to a.(ab_entries) j.
Proof.
  intros Hw Hj ->. pose proof (sw_inv _ _ _ Hw) as [Hi Hp _].
  destruct (replay_ordered _ (history_ordered _ _ _ _ Hi Hp j)) as [_ ->]. rewrite elem_of_distinct. by destruct r.
Qed.

Lemma waiting_some a id r : waiting a id = Some r → a.(ab_issued) !! id = Some r ∧ a.(ab_history).(h_completions) !! id = None.
Proof. unfold waiting, completed_id. rewrite bool_is_some. by destruct (h_completions _ !! id). Qed.

Lemma pending_write_returns w w' a id r : SW w a → require_pending_write id w = (w', inr r) → waiting a id = Some r.
Proof.
  intros Hw. rewrite <-(sw_pending _ _ _ Hw). unfold require_pending_write, bind, gets.
  destruct (_ !! id); [|done]. by intros [= _ ->].
Qed.

Lemma calls_complete_write X a id n w :
  SW w a → X a → call_id call = Some id →
  calls X a (complete_write id n) (λ w' a' _, w'.(sv_clients).(pending_writes) !! id = None
    ∧ a'.(ab_issued) = a.(ab_issued) ∧ w'.(sv_system) = w.(sv_system)) w.
Proof.
  intros Hw Ha Hcall. unfold complete_write. apply calls_stay; [done|done|auto with distlab|].
  intros r Hr. eapply pending_write_returns in Hr; [|done]. destruct (waiting_some _ _ _ Hr) as [Hri Hrc].
  pose proof (sw_inv _ _ _ Hw) as Hinv. destruct (is_invoked _ _ (av_issued _ Hinv) _ _ Hri) as (i & Hi & Hop & Hcl & Hq).
  apply calls_stay; [done|done|auto with distlab|]. intros requests ->%kv_requests_returns.
  destruct (_ !! (cr_client_id r, cr_request_id r)) as [applied|] eqn:Happ; [|by apply calls_raise].
  apply calls_stay; [done|done|auto with distlab|]. intros [] Heq.
  assert (applied = r.(cr_operation)) as -> by (by destruct (bool_decide_reflect (applied = r.(cr_operation)))).
  destruct (Sys_image ids _ _ n (sw_follows _ _ _ Hw : Sys ids w.(sv_system) (a.(ab_spec), a.(ab_entries)))) as (j & Hj & Him).
  simpl in Hj, Him. apply (applied_request w a n r j) in Happ; [|done..].
  pose proof (SW_wf _ _ Hw) as Hwf. apply wp_bind. pose proof (wp_answered a.(ab_history) id None Hwf) as Hv.
  unfold wp at 1. unfold on_history, wp in Hv |- *. fold (history_of w). rewrite (sw_history _ _ _ Hw).
  destruct (respond id None _) as [h1 [e|c]].
  { subst h1. exists a. split; [done|]. split; [|done]. destruct Hw. by split. }
  destruct Hv as [-> Hv]. set (c' := mkCompletion id None _) in *. set (h1 := with_completion _ _ _) in *.
  pose proof (sw_number _ _ _ Hw id) as Hnum. rewrite Hr in Hnum.
  pose proof (as_wf _ _ _ _ Hv) as Hwf1.
  assert (h1.(h_completions) !! id = Some c') as Hc1 by (rewrite (as_completions _ _ _ _ Hv); apply lookup_insert_eq).
  assert (invocation_of h1 id = Some i) as Hi1 by (by rewrite (same_invocation_of _ _ _ (as_invocations _ _ _ _ Hv))).
  pose proof (retire_returns h1 id i r.(cr_request_id) c' Hwf1 Hc1 Hi1 Hnum) as Hret.
  pose proof (retire_wf h1 id Hwf1) as Hwf2. unfold wp in Hwf2. rewrite Hret in Hwf2. set (h2 := set_active_requests _ _) in *.
  apply wp_bind. unfold wp at 1. simpl. rewrite Hret. cbn [fst snd].
  apply wp_bind, wp_modify, wp_modify.
  assert (answered a.(ab_history) id c' h2) as Hv2 by (split; try done; apply Hv).
  set (a' := answer_at a id (length a.(ab_entries)) h2).
  assert (step a a') as Hs.
  { apply (cs_answer _ _ _ id c'); [done|done|]. split; [done|]. split_and!.
    - intros r'. rewrite Hri. intros [= <-]. by eapply commands_to_mono.
    - intros i' key Hi'. rewrite Hi in Hi'. injection Hi' as <-. by rewrite Hop.
    - intros i' id' c2 p' _ Hc2 Hp' _. destruct (po_point _ _ _ _ (av_points _ Hinv) _ _ Hc2) as (p2 & Hp2 & ?).
      rewrite Hp' in Hp2. by injection Hp2 as ->. }
  exists a'. split; [by apply rtc_once|].
  assert (∀ id', waiting a' id' = if decide (id' = id) then None else waiting a id') as Hwait.
  { intros id'. unfold waiting, completed_id. simpl. rewrite !bool_is_some.
    destruct (decide (id' = id)) as [->|Hd]; [by rewrite lookup_insert_eq|by rewrite lookup_insert_ne]. }
  split; [|split; [simpl; apply lookup_delete_eq|done]].
  split; [apply Hw|done| | |eapply client_step_inv; [exact Hs|done]].
  - intros id'. simpl. rewrite Hwait. destruct (decide (id' = id)) as [->|Hd]; [by rewrite lookup_delete_eq|].
    rewrite lookup_delete_ne by done. apply Hw.
  - intros id'. rewrite Hwait. simpl. destruct (decide (id' = id)) as [->|Hd]; [by rewrite lookup_delete_eq|].
    rewrite lookup_delete_ne by done. apply Hw.
Qed.

(** *** Reads *)

Local Abbreviation any := (λ _ : Abs, True).

(** The read [id] of [key] has been invoked. *)
Definition reading a id key : Prop := ∃ i, invocation_of a.(ab_history) id = Some i ∧ i.(inv_operation) = HGet key.

Lemma reading_not_issued w a id key : SW w a → reading a id key → a.(ab_issued) !! id = None.
Proof.
  intros Hw (i & Hi & Hop). apply eq_None_not_Some. intros [r Hr].
  destruct (is_invoked _ _ (av_issued _ (sw_inv _ _ _ Hw)) _ _ Hr) as (j & Hj & Hjop & _). congruence.
Qed.

Lemma moved_reading a a' id key : moved a a' → reading a id key → reading a' id key.
Proof. intros Hm. unfold reading. by rewrite (mv_history _ _ Hm). Qed.

(** [v] is what the history gives, somewhere after all that was answered. *)
Definition readable a id key (v : option string) : Prop := reading a id key ∧ ∃ j, (j ≤ length a.(ab_entries))%nat
  ∧ v = state_to a.(ab_entries) j !! key
  ∧ ∀ id' c p, a.(ab_history).(h_completions) !! id' = Some c → a.(ab_points) !! id' = Some p → (p ≤ j)%nat.

Lemma calls_answer_read {B} a id key v (k : Completion → SM B) Q w :
  SW w a → call_id call = Some id → readable a id key v →
  (∀ w' a' c, SW w' a' → w'.(sv_system) = w.(sv_system) → calls any a' (k c) Q w') →
  calls any a (bind (on_history (respond id v)) k) Q w.
Proof.
  intros Hw Hcall (Hrd & j & Hj & -> & Hlast) Hk. pose proof (SW_wf _ _ Hw) as Hwf. pose proof (sw_inv _ _ _ Hw) as Hinv.
  pose proof (reading_not_issued _ _ _ _ Hw Hrd) as Hni. destruct Hrd as (i & Hi & Hop).
  eapply (calls_bind ids call any _ _ _ (λ w' _ _, w'.(sv_system) = w.(sv_system))); [|intros a' w' c _ Hw' ?; by apply Hk].
  pose proof (wp_answered a.(ab_history) id (state_to a.(ab_entries) j !! key) Hwf) as Hv.
  unfold calls, on_history. unfold wp in Hv |- *. fold (history_of w). rewrite (sw_history _ _ _ Hw).
  destruct (respond id _ _) as [h1 [e|c]]; simpl.
  { subst h1. exists a. split; [done|]. split; [|done]. destruct Hw. by split. }
  destruct Hv as [E Hv]. exists (answer_at a id j h1).
  assert (step a (answer_at a id j h1)) as Hs.
  { eapply (cs_answer _ _ _ id); [done|exact Hv|]. split; [done|]. split_and!.
    - intros r. by rewrite Hni.
    - intros i' key'. rewrite Hi. intros [= <-]. rewrite Hop. by intros [= <-].
    - intros i' id' c2 p' _ Hc2 Hp' _. by eapply Hlast. }
  split; [by apply rtc_once|]. split; [|done].
  assert (∀ id', waiting (answer_at a id j h1) id' = waiting a id') as Hwait.
  { intros id'. unfold waiting, completed_id. simpl. rewrite (as_completions _ _ _ _ Hv), !bool_is_some.
    destruct (decide (id' = id)) as [->|Hd]; [|by rewrite lookup_insert_ne].
    rewrite lookup_insert_eq, Hni. by case_match. }
  split; [apply Hw|done| | |eapply client_step_inv; [exact Hs|done]].
  - intros id'. rewrite Hwait. apply Hw.
  - intros id'. rewrite Hwait. subst h1. apply Hw.
Qed.

Lemma calls_invoke_read {B} a id c key (k : Invocation → SM B) Q w :
  SW w a → call = CallRead id c key →
  (∀ w' a' i, SW w' a' → w'.(sv_system) = w.(sv_system) → reading a' id key → calls any a' (k i) Q w') →
  calls any a (bind (on_history (invoke id c (HGet key))) k) Q w.
Proof.
  intros Hw Hcall Hk. pose proof (SW_wf _ _ Hw) as Hwf.
  eapply (calls_bind ids call any _ _ _ (λ w' a' _, w'.(sv_system) = w.(sv_system) ∧ reading a' id key));
    [|intros a' w' i _ Hw' [? ?]; by apply Hk].
  pose proof (wp_invoked a.(ab_history) id c (HGet key) Hwf) as Hv.
  unfold calls, on_history. unfold wp in Hv |- *. fold (history_of w). rewrite (sw_history _ _ _ Hw).
  destruct (invoke id c _ _) as [h1 [e|i]]; simpl.
  { subst h1. exists a. split; [done|]. split; [|done]. destruct Hw. by split. }
  destruct Hv as [E Hv]. set (j := mkInvocation id c (HGet key) _) in *.
  set (a' := mkAbs a.(ab_spec) a.(ab_entries) a.(ab_issued) a.(ab_points) h1).
  assert (step a a') as Hs by (eapply (cs_read _ _ _ id c key j); done).
  exists a'. split; [by apply rtc_once|]. split.
  - assert (∀ id', waiting a' id' = waiting a id') as Hwait
      by (intros id'; unfold waiting, completed_id; simpl; by rewrite (iv_completions _ _ _ Hv)).
    split; [apply Hw|done| | |eapply client_step_inv; [exact Hs|apply Hw]].
    + intros id'. rewrite Hwait. apply Hw.
    + intros id'. rewrite Hwait. subst h1. apply Hw.
  - split; [done|]. exists j. split; [|done]. simpl. by rewrite (invoked_of _ _ _ _ Hv), decide_True.
Qed.

Lemma pending_invocation_reading h id i :
  history_wf h → pending_invocation h id = Some i → invocation_of h id = Some i.
Proof.
  intros Hw Hi%last_Some_elem_of. apply list_elem_of_filter in Hi as [<- Hi].
  apply list_elem_of_filter in Hi as [_ Hi]. apply elem_of_invocations in Hi.
  destruct (invocation_of h i.(inv_operation_id)) as [j|] eqn:Hj.
  - apply invocation_of_elem in Hj as [Hin Hid]. f_equal. by eapply inv_unique.
  - apply invocation_of_none in Hj. destruct Hj. apply list_elem_of_fmap. by exists i.
Qed.

Lemma require_pending_reading a id c key msg w w' :
  SW w a → require_pending_invocation id c key msg w = (w', inr tt) → reading a id key.
Proof.
  intros Hw. unfold require_pending_invocation. intros (x & p & [= <- <-] & E)%bind_inv.
  rewrite (sw_history _ _ _ Hw) in E. destruct (pending_invocation _ id) as [i|] eqn:Hp; [|done].
  apply pending_invocation_reading in Hp; [|by eapply SW_wf].
  apply bind_inv in E as (x & [] & _ & E). apply bind_inv in E as (x1 & op & Eop & E).
  unfold lift, new_Get, checked in Eop. destruct (empty_str key); [done|]. injection Eop as <- <-.
  exists i. split; [done|]. unfold raise_if in E. destruct (bool_decide_reflect (i.(inv_operation) = HGet key)); [done|]. done.
Qed.

Lemma any_moved a a' : moved a a' → any a → any a'.
Proof. done. Qed.
#[local] Hint Resolve any_moved : core.

Section fuel.
Context (rf : nat).

(** A read at a leader *)
Lemma calls_get {B} a id i key k (f : option string → SM B) Q w :
  SW w a → reading a id key →
  (∀ w' a' v, SW w' a' → readable a' id key v → is_Some (w'.(sv_system).(replicators) !! i) → calls any a' (f v) Q w') →
  calls any a (bind (on_system (of_reader i (linearizable_get rf key k))) f) Q w.
Proof.
  intros Hw Hrd Hf. eapply calls_system; [done|done|done|by apply refines_of_get; apply Hw|].
  intros a' w' v Hm Hw' (Hi & j & Hj & Hv). simpl in Hj, Hv.
  apply (Hf _ a'); [done| |done]. split; [by eapply moved_reading|]. exists j. split_and!; [lia|done|].
  intros id' c p. rewrite (mv_history _ _ Hm), (mv_points _ _ Hm). intros Hc Hp.
  destruct (po_point _ _ _ _ (av_points _ (sw_inv _ _ _ Hw)) _ _ Hc) as (p' & Hp' & ?). rewrite Hp in Hp'.
  injection Hp' as <-. lia.
Qed.

Lemma calls_complete_linearizable_read a id c i key k w :
  SW w a → call_id call = Some id → reading a id key →
  calls any a (complete_linearizable_read rf id c i key k) (λ _ _ _, True) w.
Proof.
  intros Hw Hcall Hrd. unfold complete_linearizable_read. eapply calls_get; [done..|].
  intros w' a' v Hw' Hv _. eapply calls_answer_read; [done..|]. intros w2 a2 cp Hw2 _.
  apply calls_stay; [done|done|auto with distlab|intros n _]. apply calls_record; [done|]. intros w3 Hw3 _. by apply calls_ret.
Qed.

Lemma calls_clients_read a id c i key k w :
  SW w a → call = CallRead id c key → calls any a (clients_linearizable_read rf id c i key k) (λ _ _ _, True) w.
Proof.
  intros Hw Hcall. unfold clients_linearizable_read. apply calls_stay; [done|done|auto with distlab|intros n _].
  apply calls_stay; [done|done|auto with distlab|intros op Hop].
  assert (op = HGet key) as ->.
  { revert Hop. unfold lift, new_Get, checked. destruct (empty_str key); [done|]. by intros [= <-]. }
  eapply calls_invoke_read; [done..|]. intros w1 a1 i1 Hw1 _ Hrd. apply calls_record; [done|]. intros w2 Hw2 _.
  apply calls_complete_linearizable_read; [done|by rewrite Hcall|done].
Qed.

Lemma calls_clients_retry_read a id c i key k w :
  SW w a → call = CallRead id c key → calls any a (clients_retry_linearizable_read rf id c i key k) (λ _ _ _, True) w.
Proof.
  intros Hw Hcall. unfold clients_retry_linearizable_read. apply calls_stay; [done|done|auto with distlab|intros n _].
  apply calls_gets, calls_stay; [done|done|auto with distlab|intros [] _].
  apply calls_stay; [done|done|auto with distlab|]. intros [] Hrd%(require_pending_reading a); [|done].
  apply calls_record; [done|]. intros w1 Hw1 _. apply calls_complete_linearizable_read; [done|by rewrite Hcall|done].
Qed.
End fuel.

Lemma wp_abandon h id i :
  history_wf h → invocation_of h id = Some i →
  wp (abandon id) (λ h' _, history_wf h' ∧ is_write i.(inv_operation) = false
    ∧ h' = set_abandoned ({[id]} ∪ h.(h_abandoned)) h) (λ h' _, h' = h) h.
Proof.
  intros Hw Hi. eapply wp_mono; [apply wp_and; [|by apply abandon_wf]| |].
  - instantiate (1 := λ h' _, h' = h).
    instantiate (1 := λ h' _, is_write i.(inv_operation) = false ∧ h' = set_abandoned ({[id]} ∪ h.(h_abandoned)) h).
    unfold abandon, require_invocation. wp_steps. rewrite Hi. by wp_steps.
  - intros h' _ [[? ?] ?]. done.
  - intros h' e [? _]. done.
Qed.

Lemma calls_abandon_read a id c key w :
  SW w a → call = CallRead id c key → calls any a (clients_abandon_linearizable_read id c key) (λ _ _ _, True) w.
Proof.
  intros Hw Hcall. unfold clients_abandon_linearizable_read.
  apply calls_gets, calls_stay; [done|done|auto with distlab|intros [] _].
  apply calls_stay; [done|done|auto with distlab|]. intros [] (i & Hi & Hop)%(require_pending_reading a); [|done].
  eapply (calls_bind ids call any _ _ _ (λ _ _ _, True)); [|intros a' w' j _ Hw' _].
  2:{ by exists a'; split; [|split; [apply SW_record|]]. }
  pose proof (SW_wf _ _ Hw) as Hwf. pose proof (wp_abandon a.(ab_history) id i Hwf Hi) as Hv.
  unfold calls, on_history. unfold wp in Hv |- *. fold (history_of w). rewrite (sw_history _ _ _ Hw).
  destruct (abandon id _) as [h1 [e|j]]; simpl.
  { subst h1. exists a. split; [done|]. split; [|done]. destruct Hw. by split. }
  destruct Hv as (Hwf1 & Hr & ->). set (h1 := set_abandoned _ _) in *.
  set (a' := mkAbs a.(ab_spec) a.(ab_entries) a.(ab_issued) a.(ab_points) h1).
  assert (step a a') as Hs by by apply (cs_abandon _ _ _ id c key i).
  exists a'. split; [by apply rtc_once|]. split; [|done].
  split; [apply Hw|done| | |eapply client_step_inv; [exact Hs|apply Hw]]; apply Hw.
Qed.
End methods.

(** ** The methods of the leader service

    A service appends to the log of a leader that owns its generation, drives the
    commit by replication, and answers from what the leader has applied. *)


Section leader.
Context (ids : list string) (call : Call).
Local Abbreviation step := (client_step (majority ids) call).
Local Abbreviation SW := (SW ids).
Local Abbreviation calls := (calls ids call).

Section rules.
Context X (HX : ∀ a a', moved a a' → X a → X a').

(** *** The steps of a service *)

Lemma calls_require {B} a l g (k : LeaderRuntimeIdentity → SM B) Q w :
  SW w a → X a →
  (∀ i, owns (cluster_of w) i → i.(li_leader) = l → calls X a (k i) Q w) →
  calls X a (bind (require_generation l g) k) Q w.
Proof.
  intros Hw Ha Hk. apply calls_stay; [done|done|auto with distlab|]. intros i (Ho & Hl & _)%require_returns. by apply Hk.
Qed.

Lemma calls_append {B} a n c kind (k : Z → SM B) Q w :
  SW w a → X a → leads (cluster_of w) n → allowed a.(ab_issued) c →
  (∀ w' a' v, moved a a' → SW w' a' → leads (cluster_of w') n → calls X a' (k v) Q w') →
  calls X a (bind (append_command n c kind) k) Q w.
Proof.
  intros Hw Ha Hl Hc Hk.
  eapply (calls_bind ids call X _ _ _ (λ w' a' _, moved a a' ∧ leads (cluster_of w') n));
    [|intros a' w' v _ Hw' [? ?]; by apply Hk].
  unfold append_command. apply calls_gets. cbv zeta. apply calls_stay; [done|done|auto with distlab|intros e He].
  assert (e = mkLogEntry (dur (cluster_of w) n).(current_term) c) as ->.
  { revert He. unfold lift, new_LogEntry. destruct (_ <? 0); [done|]. by intros [= <-]. }
  unfold on_raft_cluster at 1, on_kv at 1. eapply calls_system; [done|done|done| |].
  { eapply (refines_raft ids _ _ (λ x _ _, leads x n)); [apply Hw|apply moves_persist_log|].
    apply refines_leader_append; [exact (Sys_Ra ids _ (_, _) (sw_follows _ _ _ Hw))|done|done]. }
  intros a1 w1 [] Hm Hw1 [Hl1 _]. assert (X a1) as Ha1 by by eapply HX.
  apply calls_stay; [done|done|auto with distlab|intros v _]. cbv zeta. apply calls_gets, calls_record; [done|].
  intros w2 Hw2 Es. apply calls_stay; [done|done|auto with distlab|intros [] _]. apply calls_ret; [done|].
  split; [done|]. unfold cluster_of. by rewrite Es.
Qed.

Lemma calls_new_replicator {B} a n (k : nat → SM B) Q w :
  SW w a → X a →
  (∀ w' a' i, moved a a' → SW w' a' → cluster_of w' = cluster_of w → calls X a' (k i) Q w') →
  calls X a (bind (new_replicator n) k) Q w.
Proof.
  intros Hw Ha Hk.
  eapply (calls_bind ids call X _ _ _ (λ w' a' _, moved a a' ∧ cluster_of w' = cluster_of w));
    [|intros a' w' v _ Hw' [? ?]; by apply Hk].
  unfold new_replicator. eapply calls_system; [done|done|done|by apply refines_add_replicator; apply Hw|].
  intros a1 w1 [] Hm Hw1 Hr. apply wp_gets. by exists a1.
Qed.

Lemma calls_apply {B} a n (k : list AppliedEntry → SM B) Q w :
  SW w a → X a →
  (∀ w' a' v, moved a a' → SW w' a' → cluster_of w' = cluster_of w → calls X a' (k v) Q w') →
  calls X a (bind (on_kv (kv_apply_committed n)) k) Q w.
Proof.
  intros Hw Ha Hk. unfold on_kv at 1. eapply calls_system; [done|done|done|by apply refines_apply; apply Hw|].
  intros a1 w1 v Hm Hw1 Hr. by apply Hk.
Qed.

Section fuel.
Context (rf : nat).

Lemma calls_replicate a identity i peer k w (f : exn → SM bool) :
  SW w a → X a → (∀ w' a' e, moved a a' → SW w' a' → X a' → calls X a' (f e) (λ _ a' _, moved a a') w') →
  calls X a (try_except (on_system (of_reader i (on_replicator (replicate rf 0 peer k))) ;; ret true) f)
    (λ _ a' _, moved a a') w.
Proof.
  intros Hw Ha Hf. apply (calls_try ids call X (λ a', X a' ∧ moved a a')).
  2:{ intros a' w' e _ Hw' [? ?]. by apply Hf. }
  eapply calls_system; [|done|split; [done|apply moved_refl]| |].
  - intros a1 a2 Hm [? ?]. split; [by eapply HX|by eapply moved_trans].
  - apply (refines_reader ids _ i _ (λ _ _ _ _, True)); [apply Hw|by apply read_grows_replicator, grows_replicate|].
    intros x HF. apply refines_on_replicator; [done|]. intros HR.
    eapply refines_weaken; [by apply refines_replicate|done].
  - intros a' w' v Hm Hw' _. by apply calls_ret.
Qed.

Lemma calls_drive_peers a identity i target k ps w :
  SW w a → X a → calls X a (drive_peers rf identity i target k ps) (λ _ a' _, moved a a') w.
Proof.
  revert a w. induction ps as [|p ps IH]; intros a w Hw Ha; simpl; [by apply calls_ret|].
  apply calls_stay; [done|done|auto with distlab|intros [] _].
  eapply calls_bind.
  { apply calls_replicate; [done..|]. intros w' a' e Hm Hw' Ha'.
    destruct (exn_cls e); try (by exists a').
    apply calls_stay; [done|done|auto with distlab|intros [] _]. by apply calls_raise. }
  intros a1 w1 b Hs Hw1 Hm. simpl in Hm. assert (X a1) as Ha1 by by eapply HX.
  assert (calls X a1 (drive_peers rf identity i target k ps) (λ _ a' _, moved a a') w1) as Hrest.
  { eapply calls_weaken; [by apply IH| |done]. intros a2 w2 v _ _ Hm2. by eapply moved_trans. }
  destruct b; [|exact Hrest]. simpl. apply calls_stay; [done|done|auto with distlab|intros [] _].
  apply calls_gets. destruct (_ <=? _); [by apply calls_ret|exact Hrest].
Qed.

Lemma calls_drive {B} a identity i target k cls (f : unit → SM B) Q w :
  SW w a → X a → (∀ w' a', moved a a' → SW w' a' → calls X a' (f tt) Q w') →
  calls X a (bind (drive_commit rf identity i target k cls) f) Q w.
Proof.
  intros Hw Ha Hf.
  eapply (calls_bind ids call X _ _ _ (λ _ a' _, moved a a')); [|intros a' w' [] _ Hw' ?; by apply Hf].
  unfold drive_commit. cbv zeta. apply calls_gets. destruct (_ <=? _); [by apply calls_ret|].
  apply calls_gets. eapply calls_bind; [by apply calls_drive_peers|]. intros a1 w1 b Hs Hw1 Hm. simpl in Hm.
  destruct b; [by apply calls_ret|]. apply calls_gets, calls_record; [done|]. intros w2 Hw2 _.
  apply calls_raise; [done|by eapply HX].
Qed.

Lemma calls_current_term {B} a identity i k (f : unit → SM B) Q w :
  SW w a → X a → leads (cluster_of w) identity.(li_leader) → (∀ w' a', moved a a' → SW w' a' → calls X a' (f tt) Q w') →
  calls X a (bind (ensure_current_term_commit rf identity i k) f) Q w.
Proof.
  intros Hw Ha Hl Hf.
  eapply (calls_bind ids call X _ _ _ (λ _ a' _, moved a a')); [|intros a' w' [] _ Hw' ?; by apply Hf].
  unfold ensure_current_term_commit. cbv zeta. apply calls_gets. apply calls_stay; [done|done|auto 20 with distlab|intros b _].
  destruct b; [by apply calls_ret|]. apply calls_append; [done..|]. intros w1 a1 t Hm1 Hw1 _.
  assert (X a1) as Ha1 by by eapply HX. apply calls_drive; [done..|]. intros w2 a2 Hm2 Hw2.
  assert (X a2) as Ha2 by by eapply HX. apply calls_apply; [done..|]. intros w3 a3 l Hm3 Hw3 _. apply calls_ret; [done|].
  by eapply moved_trans, moved_trans.
Qed.
End fuel.
End rules.
End leader.
Section service.
Context (ids : list string) (call : Call).
Local Abbreviation step := (client_step (majority ids) call).
Local Abbreviation SW := (SW ids).
Local Abbreviation calls := (calls ids call).
Local Abbreviation any := (λ _ : Abs, True).

Lemma moved_any a a' : moved a a' → any a → any a'.
Proof. done. Qed.

(** The operation [id] has no answer. *)
Definition unanswered id a : Prop := a.(ab_history).(h_completions) !! id = None.

Lemma moved_unanswered id a a' : moved a a' → unanswered id a → unanswered id a'.
Proof. unfold unanswered. intros Hm. by rewrite (mv_history _ _ Hm). Qed.
#[local] Hint Resolve moved_any moved_unanswered : core.

(** *** What does not raise *)

Lemma write_result_returns identity r k w :
  member (cluster_of w) identity.(li_leader) = true → ∃ v, write_result identity r k w = (w, inr v).
Proof.
  intros Hm. unfold write_result, bind, on_raft_cluster, on_kv, on_system, on_store, on_raft, node, bind, gets. simpl.
  fold (cluster_of w). rewrite Hm. eexists. by destruct w as [[[] ? ?] ? ?].
Qed.

Lemma find_request_returns issued h L r id indices :
  issued_ok issued h → issued !! id = Some r → (∀ e, e ∈ L → allowed issued e.(le_command)) →
  (∀ i, i ∈ indices → 1 ≤ i ≤ zlen L) → ∃ v, find_request (mkRaftLogView 0 0 L) r indices = inr v.
Proof.
  intros Hi Hr HL. induction indices as [|i indices IH]; intros Hin; simpl; [by eexists|].
  destruct (entry_at_total (mkRaftLogView 0 0 L) i) as [e He]; [specialize (Hin i ltac:(left)); unfold last_index; simpl; lia|].
  rewrite He. destruct IH as [v IH]; [intros; apply Hin; by right|].
  apply entry_at_lookup in He as [_ He]. simpl in He. apply list_elem_of_lookup_2, HL in He.
  destruct (le_command e) as [op|r'| |ty|x]; try by exists v. destruct (negb _ || _) eqn:Eb; [by exists v|].
  apply orb_false_iff in Eb as [Hc%negb_false_iff%String.eqb_eq Hq%negb_false_iff%Z.eqb_eq].
  destruct He as [id' Hr']. assert (id' = id) as -> by by eapply issued_unique.
  rewrite Hr in Hr'. injection Hr' as ->. rewrite bool_decide_eq_true_2 by done. by eexists.
Qed.

Lemma request_log_index_returns w a n r id :
  SW w a → a.(ab_issued) !! id = Some r → ∃ v, request_log_index n r w = (w, inr v).
Proof.
  intros Hw Hr. pose proof (stays_request_log_index n r w) as Hs. unfold request_log_index, bind in Hs |- *.
  destruct (follows_view ids _ _ _ n (sw_follows _ _ _ Hw)) as [Hv Hl].
  assert (on_raft_cluster (log_view n) w = (w, inr (mkRaftLogView 0 0 (dur (cluster_of w) n).(log)))) as E.
  { unfold on_raft_cluster, on_kv, on_system, on_store. rewrite log_view_eq, Hv. simpl. by destruct w as [[] ? ?]. }
  rewrite E in Hs |- *. unfold lift in Hs |- *. pose proof (sw_inv _ _ _ Hw) as [Hi _ Hca].
  set (view := mkRaftLogView 0 0 _) in *.
  destruct (find_request_returns a.(ab_issued) a.(ab_history) (dur (cluster_of w) n).(log) r id
    (zrange (first_retained_index view) (last_index view + 1))) as [v Hf]; [done..| | |].
  - intros e He. unfold cluster_of in He. rewrite Hl in He. by eapply ca_nlog.
  - intros i. rewrite elem_of_zrange. unfold first_retained_index, last_index. simpl. lia.
  - exists v. by rewrite <-Hf.
Qed.

(** *** Writes *)

Section fuel.
Context (rf : nat).

(** The answer of a write, and what cannot raise after it *)
Lemma calls_finish {B} a id r identity (k : unit → SM B) Q w :
  SW w a → unanswered id a → call_id call = Some id → a.(ab_issued) !! id = Some r →
  (∀ w' a', SW w' a' → a'.(ab_issued) !! id = Some r → member (cluster_of w') identity.(li_leader) = true →
     calls (unanswered id) a' (k tt) Q w') →
  calls (unanswered id) a (require_same identity ;; bind (complete_write id identity.(li_leader)) k) Q w.
Proof.
  intros Hw Ha Hcall Hr Hk. apply calls_stay; [done|done|auto with distlab|].
  intros [] (w1 & i & Ho & E)%bind_inv. injection E as <-. apply require_returns in Ho as (Ho & Hl & _).
  eapply calls_bind; [by apply calls_complete_write|]. intros a2 w2 [] _ Hw2 (_ & Hi & Es).
  apply (Hk _ a2); [done|by rewrite Hi|]. unfold cluster_of. rewrite Es, <-Hl. apply Ho.
Qed.

Lemma calls_commit_new a id identity r k w :
  SW w a → unanswered id a → call_id call = Some id → a.(ab_issued) !! id = Some r →
  leads (cluster_of w) identity.(li_leader) →
  calls (unanswered id) a (commit_new rf identity id r k) (λ _ _ _, True) w.
Proof.
  intros Hw Ha Hcall Hr Hl. unfold commit_new. cbv zeta.
  apply calls_new_replicator; [eauto|done|done|]. intros w1 a1 i Hm1 Hw1 Ec.
  assert (unanswered id a1) as Ha1 by eauto. rewrite <-Ec in Hl. rewrite <-(mv_issued _ _ Hm1) in Hr. clear dependent w.
  apply calls_stay; [done|done|auto with distlab|intros found _].
  eapply (calls_bind ids call _ _ _ _ (λ w' a' _, moved a1 a' ∧ leads (cluster_of w') identity.(li_leader))).
  { destruct found as [j|]; [by apply calls_ret|]. apply calls_ret_r.
    apply calls_append; [eauto|done|done|done|by exists id|]. intros w2 a2 v Hm2 Hw2 Hl2. by apply calls_ret. }
  intros a2 w2 index _ Hw2 [Hm2 Hl2]. assert (unanswered id a2) as Ha2 by eauto.
  rewrite <-(mv_issued _ _ Hm2) in Hr. clear dependent w1.
  apply calls_stay; [done|done|auto with distlab|intros view _]. apply calls_stay; [done|done|auto with distlab|intros t _].
  apply calls_gets. eapply (calls_bind ids call _ _ _ _ (λ w' a' _, moved a2 a')).
  { destruct (_ =? _); [by apply calls_ret|]. apply calls_stay; [done|done|auto with distlab|intros [j|] _]; [by apply calls_ret|].
    apply calls_ret_r. apply calls_append; [eauto|done..|]. intros w3 a3 v Hm3 Hw3 _. by apply calls_ret. }
  intros a3 w3 target _ Hw3 Hm3. simpl in Hm3. assert (unanswered id a3) as Ha3 by eauto.
  rewrite <-(mv_issued _ _ Hm3) in Hr. clear dependent w2.
  apply calls_drive; [eauto|done|done|]. intros w4 a4 Hm4 Hw4. assert (unanswered id a4) as Ha4 by eauto.
  rewrite <-(mv_issued _ _ Hm4) in Hr. apply calls_apply; [eauto|done|done|]. intros w5 a5 l Hm5 Hw5 _.
  assert (unanswered id a5) as Ha5 by eauto. rewrite <-(mv_issued _ _ Hm5) in Hr.
  apply calls_stay; [done|done|auto with distlab|intros applied _]. apply calls_stay; [done|done|auto with distlab|intros [] _].
  eapply calls_finish; [done..|]. intros w6 a6 Hw6 _ Hmem.
  destruct (write_result_returns identity r (Some index) w6 Hmem) as [v Hv]. eapply calls_returns; [exact Hv|].
  apply calls_record; [done|]. intros w7 Hw7 _. by apply calls_ret.
Qed.

Lemma calls_commit_write a id identity r k w :
  SW w a → unanswered id a → call_id call = Some id → a.(ab_issued) !! id = Some r →
  calls (unanswered id) a (commit_write rf identity id r k) (λ _ _ _, True) w.
Proof.
  intros Hw Ha Hcall Hr. unfold commit_write. apply calls_stay; [done|done|auto with distlab|intros [] _].
  apply calls_stay; [done|done|auto with distlab|]. intros [] (w1 & i & Ho & E)%bind_inv. injection E as <-.
  apply require_returns in Ho as (Ho & Hl & _). pose proof (ow_leads _ _ Ho) as Hlead. rewrite Hl in Hlead.
  apply calls_stay; [done|done|auto with distlab|intros n Hn].
  assert (n = identity.(li_leader)) as ->.
  { revert Hn. unfold on_raft_cluster, on_kv, on_system, on_store, on_raft, node, bind, gets. simpl.
    destruct (member _ _); [|done]. by intros [= _ <-]. }
  apply calls_apply; [eauto|done|done|]. intros w2 a2 l Hm2 Hw2 Ec. assert (unanswered id a2) as Ha2 by eauto.
  rewrite <-(mv_issued _ _ Hm2) in Hr. rewrite <-Ec in Hlead.
  apply calls_stay; [done|done|auto with distlab|intros applied _]. destruct applied; [|by apply calls_commit_new].
  apply calls_stay; [done|done|auto with distlab|intros requests _]. destruct (requests !! _); [|by apply calls_raise].
  apply calls_stay; [done|done|auto with distlab|intros [] _]. eapply calls_finish; [done..|]. intros w3 a3 Hw3 Hr3 Hmem.
  destruct (request_log_index_returns w3 a3 identity.(li_leader) r id Hw3 Hr3) as [v Hv].
  eapply calls_returns; [exact Hv|]. destruct (write_result_returns identity r v w3 Hmem) as [res Hres].
  apply (wp_eq _ _ _ _ _ Hres). by exists a3.
Qed.

(** When a write raises, it has no answer; with an operation id that is taken it
    starts nothing. *)
Definition not_written a id a' : Prop :=
  if bool_decide (is_Some (invocation_of a.(ab_history) id)) then a'.(ab_issued) = a.(ab_issued) else unanswered id a'.

Lemma calls_service_write a l g id c q op k w :
  SW w a →
  (∀ r, new_ClientRequest c q op = inr r → call = CallWrite id r ∧ next_request a.(ab_issued) a.(ab_history) r) →
  calls (not_written a id) a (service_write rf l g id c q op k) (λ _ _ _, True) w.
Proof.
  intros Hw Hr. assert (not_written a id a) as Ha.
  { unfold not_written. case_bool_decide as Hi; [done|]. apply eq_None_not_Some in Hi. unfold unanswered. by eapply not_issued. }
  unfold service_write. apply calls_require; [done|done|]. intros i Ho Hl.
  eapply calls_bind; [by apply calls_invoke_write|]. intros a1 w1 r _ Hw1 (Er & (Hi & Hc & Hn & _) & _).
  destruct (Hr r Er) as [Hcall _].
  assert (unanswered id a1) as Hu by (unfold unanswered; rewrite Hc; by eapply not_issued).
  eapply calls_weaken; [apply calls_commit_write; [done|exact Hu|by rewrite Hcall|]|done|].
  - rewrite Hi. apply lookup_insert_eq.
  - intros a' Ha'. unfold not_written. by rewrite Hn.
Qed.

Lemma calls_retry_write a l g id k w :
  SW w a → call_id call = Some id → calls any a (service_retry_write rf l g id k) (λ _ _ _, True) w.
Proof.
  intros Hw Hcall. unfold service_retry_write. apply calls_require; [done|done|]. intros i Ho Hl.
  unfold retry_write. apply calls_assoc. apply calls_stay; [done|done|auto with distlab|].
  intros r Hr. eapply pending_write_returns in Hr; [|done]. destruct (waiting_some _ _ _ Hr) as [Hri Hrc].
  apply calls_assoc. apply calls_record; [done|]. intros w1 Hw1 _. eapply calls_returns; [reflexivity|].
  eapply calls_weaken; [by apply calls_commit_write|done|done].
Qed.

(** *** Reads *)

Lemma calls_complete_read a id c identity key k w :
  SW w a → call_id call = Some id → reading a id key → leads (cluster_of w) identity.(li_leader) →
  calls any a (complete_read rf identity id c key k) (λ _ _ _, True) w.
Proof.
  intros Hw Hcall Hrd Hl. unfold complete_read. apply calls_stay; [done|done|auto with distlab|intros [] _].
  apply calls_stay; [done|done|auto with distlab|intros n _].
  apply calls_new_replicator; [eauto|done|done|]. intros w1 a1 i Hm1 Hw1 Ec. rewrite <-Ec in Hl.
  pose proof (moved_reading _ _ _ _ Hm1 Hrd) as Hrd1. apply calls_current_term; [eauto|done|done|done|].
  intros w2 a2 Hm2 Hw2. pose proof (moved_reading _ _ _ _ Hm2 Hrd1) as Hrd2. eapply calls_get; [done..|].
  intros w3 a3 v Hw3 Hv _. apply calls_stay; [done|done|auto with distlab|intros [] _].
  eapply calls_answer_read; [done..|]. intros w4 a4 cp Hw4 _. apply calls_record; [done|]. intros w5 Hw5 _.
  apply calls_stay; [done|done|auto with distlab|intros ci _]. apply calls_record; [done|]. intros w6 Hw6 _. by apply calls_ret.
Qed.

Lemma calls_service_read a l g id c key k w :
  SW w a → call = CallRead id c key → calls any a (service_linearizable_read rf l g id c key k) (λ _ _ _, True) w.
Proof.
  intros Hw Hcall. unfold service_linearizable_read. apply calls_stay; [done|done|auto with distlab|intros [] _].
  apply calls_require; [done|done|]. intros i Ho Hl. pose proof (ow_leads _ _ Ho) as Hlead.
  eapply calls_invoke_read; [done..|]. intros w1 a1 inv Hw1 Es Hrd. apply calls_record; [done|]. intros w2 Hw2 Es2.
  apply calls_complete_read; [done|by rewrite Hcall|done|]. unfold cluster_of. by rewrite Es2, Es.
Qed.

Lemma calls_service_retry_read a l g id c key k w :
  SW w a → call = CallRead id c key → calls any a (service_retry_linearizable_read rf l g id c key k) (λ _ _ _, True) w.
Proof.
  intros Hw Hcall. unfold service_retry_linearizable_read. apply calls_require; [done|done|]. intros i Ho Hl.
  pose proof (ow_leads _ _ Ho) as Hlead. apply calls_stay; [done|done|auto with distlab|].
  intros [] Hrd%(require_pending_reading ids a); [|done]. apply calls_gets, calls_stay; [done|done|auto with distlab|intros [] _].
  apply calls_record; [done|]. intros w2 Hw2 Es2. apply calls_complete_read; [done|by rewrite Hcall|done|].
  unfold cluster_of. by rewrite Es2.
Qed.

(** *** The barrier *)

Lemma calls_barrier a l g k w :
  SW w a → calls any a (linearizable_barrier rf l g k) (λ w' a' e, moved a a' ∧ ∃ j,
    seen (a.(ab_spec), a.(ab_entries)) w'.(sv_system) (a'.(ab_spec), a'.(ab_entries)) e.(ev_leader) j) w.
Proof.
  intros Hw. unfold linearizable_barrier. apply calls_stay; [done|done|auto with distlab|intros [] _].
  apply calls_require; [done|done|]. intros i Ho Hl. pose proof (ow_leads _ _ Ho) as Hlead.
  apply calls_stay; [done|done|auto with distlab|intros n _].
  apply calls_new_replicator; [eauto|done|done|]. intros w1 a1 j Hm1 Hw1 Ec. rewrite <-Ec in Hlead.
  apply calls_current_term; [eauto|done|done|done|]. intros w2 a2 Hm2 Hw2.
  eapply calls_system; [eauto|done|done|apply refines_of_barrier, Hw2|]. intros a3 w3 e Hm3 Hw3 [p [Hp Him]].
  apply calls_stay; [done|done|auto with distlab|intros i' _]. apply calls_record; [done|]. intros w4 Hw4 Es.
  apply calls_ret; [done|]. split; [by eapply moved_trans, moved_trans|]. exists p. split; [|by rewrite Es].
  pose proof (prefix_length _ _ (mv_entries _ _ Hm1)). pose proof (prefix_length _ _ (mv_entries _ _ Hm2)). simpl in *. lia.
Qed.
End fuel.
End service.
