(* ===== verification/SessionRefine.v ===== *)
(** * SessionRefine: sessions stay within the machine of clients

    [sess_ok a s]: the session [s] knows which of its client's writes have no
    answer, and has a floor at or above the numbers of those that have.  Every
    method of a session, every recovery and every call around the sessions is a
    sequence of steps of [SessionSpec.client_step] that keeps all sessions so. *)

From stdpp Require Import relations.
From S2P Require Import Prelude Simulator Quorum LogIndex KVCommands History Projection RaftSpec Refinement Raft RaftRefine RaftSafe RaftMono Replication ReplicationMono ReplicationRefine Driver DriverRefine AppWorld StateMachine KV LinearizableRead AppFacts AppInv AppSystem AppWhole AppProperties Follows ReadRefine System ClientHistory LeaderService ClientSession SessionSpec ServiceRefine ServiceCalls.

Implicit Types (w : ServiceWorld) (x : SelfWorld) (a : Abs) (n id key c : string) (r : ClientRequest)
  (h : OperationHistory) (s : KVClientSession) (z : SessionWorld) (call : Call).

(** ** What a session knows *)

Record sess_ok a s : Prop := {
  so_writes id r : a.(ab_issued) !! id = Some r → r.(cr_client_id) = s.(ss_client_id) →
    (is_Some (a.(ab_history).(h_completions) !! id) ∧ r.(cr_request_id) ≤ s.(last_completed_request_id))
    ∨ s.(ss_pending) = Some (mkPendingWrite id r);
  so_newer p : s.(ss_pending) = Some p → s.(last_completed_request_id) ≤ p.(pw_request).(cr_request_id);
}.

(** Calls of other clients, and those that issue nothing *)
Lemma sess_ok_framed call a a' s :
  sess_ok a s → framed call a a' →
  (∀ id r, call = CallWrite id r → r.(cr_client_id) = s.(ss_client_id) → invocation_of a.(ab_history) id = None →
    a'.(ab_issued) !! id = Some r → s.(ss_pending) = Some (mkPendingWrite id r)) →
  sess_ok a' s.
Proof.
  intros [Hw Hn] Hf Hc. split; [|done]. intros id r Hr Hcl.
  destruct (fr_issued _ _ _ Hf _ _ Hr) as [Hr0|[-> Hnew]]; [|right; by apply Hc].
  destruct (Hw id r Hr0 Hcl) as [[[cp Hcp] Hle]|Hp]; [left|by right]. split; [|done]. exists cp. by apply (fr_completed _ _ _ Hf).
Qed.

Lemma sess_ok_read a s v : sess_ok a s → sess_ok a (set_pending_read v s).
Proof. by intros []. Qed.

(** A write that is answered raises the floor. *)
Lemma sess_ok_advance a s p :
  sess_ok a s → s.(ss_pending) = Some p → waiting a p.(pw_operation_id) = None →
  sess_ok a (set_pending None (set_completed p.(pw_request).(cr_request_id) s)).
Proof.
  intros [Hw Hn] Hp Hwait. split; [|done]. intros id r Hr Hc. left. simpl. pose proof (Hn p Hp) as Hle.
  destruct (Hw id r Hr Hc) as [[? ?]|E]; [split; [done|lia]|]. rewrite Hp in E. injection E as ->. simpl in *.
  split; [|lia]. unfold waiting, completed_id in Hwait. rewrite bool_is_some in Hwait.
  destruct (h_completions _ !! id); [by eexists|congruence].
Qed.

(** A session with no write open may start one above its floor. *)
Lemma sess_ok_next a s r :
  sess_ok a s → s.(ss_pending) = None → r.(cr_client_id) = s.(ss_client_id) → 0 ≤ r.(cr_request_id) →
  s.(last_completed_request_id) < r.(cr_request_id) → next_request a.(ab_issued) a.(ab_history) r.
Proof.
  intros [Hw _] Hp Hc H0 Hlt. split; [done|]. intros id' r' Hr' Hc'.
  destruct (Hw id' r' Hr' ltac:(congruence)) as [[? ?]|E]; [split; [lia|done]|congruence].
Qed.

Lemma sess_ok_pending a s p :
  sess_ok a s → s.(ss_pending) = None → s.(last_completed_request_id) ≤ p.(pw_request).(cr_request_id) →
  sess_ok a (set_pending (Some p) s).
Proof.
  intros [Hw _] Hp Hle. split; [|by intros ? [= <-]]. intros id r Hr Hc. destruct (Hw id r Hr Hc) as [?|E]; [by left|congruence].
Qed.

Lemma sess_ok_forget a s :
  sess_ok a s → (∀ id r, a.(ab_issued) !! id = Some r → r.(cr_client_id) = s.(ss_client_id) → s.(ss_pending) ≠ Some (mkPendingWrite id r)) →
  sess_ok a (set_pending None s).
Proof.
  intros [Hw _] Hn. split; [|done]. intros id r Hr Hc. destruct (Hw id r Hr Hc) as [?|E]; [by left|by apply Hn in E].
Qed.

Section sessions.
Context (ids : list string).
Local Abbreviation steps call := (rtc (client_step (majority ids) call)).
Local Abbreviation SW := (SW ids).
Local Abbreviation any := (λ _ : Abs, True).

(** ** The methods of a session *)

Section client.
Context (c : string).

Definition owned x a : Prop := SW x.(sw_world) a ∧ sess_ok a x.(sw_self) ∧ x.(sw_self).(ss_client_id) = c.

(** A method of the client's session ends in a world reached by one of its
    calls, whether it returns or raises. *)
Definition reached a x : Prop := ∃ call a', (∀ id r, call = CallWrite id r → r.(cr_client_id) = c) ∧ steps call a a' ∧ owned x a'.
Definition handles {A} (m : SeM A) : Prop := ∀ a x, owned x a → wp m (λ x' _, reached a x') (λ x' _, reached a x') x.

Lemma reached_now a x : owned x a → reached a x.
Proof. intros Ho. by exists NoCall, a. Qed.

(** A call of the service inside a method *)
Lemma wp_in_service {A} call X a (m : SM A) (Q : ServiceWorld → Abs → A → Prop) x :
  calls ids call X a m Q x.(sw_world) →
  wp (in_service m) (λ x' v, ∃ a', steps call a a' ∧ SW x'.(sw_world) a' ∧ x'.(sw_self) = x.(sw_self) ∧ Q x'.(sw_world) a' v)
    (λ x' _, ∃ a', steps call a a' ∧ SW x'.(sw_world) a' ∧ x'.(sw_self) = x.(sw_self) ∧ X a') x.
Proof.
  unfold calls, in_service, wp. destruct (m (sw_world x)) as [w [e|v]]; simpl; intros (a' & ? & ? & ?); by exists a'.
Qed.

Lemma wp_self_stay {A B} (m : SeM A) (k : A → SeM B) a Q x :
  owned x a → stays m → (∀ v, m x = (x, inr v) → wp (k v) Q (λ x' _, reached a x') x) →
  wp (bind m k) Q (λ x' _, reached a x') x.
Proof. intros Ho Hm Hk. apply wp_stays_bind; [done|exact Hk|]. intros e _. by apply reached_now. Qed.

(** Calls that issue nothing keep the session. *)
Lemma owned_steps call x x' a a' :
  owned x a → steps call a a' → SW x'.(sw_world) a' → x'.(sw_self) = x.(sw_self) → (∀ id r, call ≠ CallWrite id r) → owned x' a'.
Proof.
  intros (Hw & Hs & Hcl) Hst Hw' E Hc. split; [done|]. rewrite E. split; [|done].
  eapply sess_ok_framed; [exact Hs|eapply client_steps_framed; [exact Hst|apply Hw]|]. intros id r Hcall. by destruct (Hc id r).
Qed.

Lemma stays_require_pending id : stays (require_pending id).
Proof. unfold require_pending. auto 20 with distlab. Qed.
Lemma stays_require_pending_read id : stays (require_pending_read id).
Proof. unfold require_pending_read. auto 20 with distlab. Qed.
Lemma stays_start_write q : stays (ensure_can_start_write q).
Proof. unfold ensure_can_start_write. auto 20 with distlab. Qed.
Lemma stays_start_read : stays ensure_can_start_read.
Proof. unfold ensure_can_start_read. auto 20 with distlab. Qed.
#[local] Hint Resolve stays_require_pending stays_require_pending_read stays_start_write stays_start_read : distlab.

Lemma require_pending_returns id x x' p :
  require_pending id x = (x', inr p) → x.(sw_self).(ss_pending) = Some p ∧ p.(pw_operation_id) = id.
Proof.
  unfold require_pending, bind, gets. destruct (ss_pending _) as [q|]; [|done].
  destruct (String.eqb_spec q.(pw_operation_id) id); [|done]. by intros [= _ <-].
Qed.

Lemma start_write_returns q x x' :
  ensure_can_start_write q x = (x', inr tt) → x.(sw_self).(ss_pending) = None ∧ x.(sw_self).(last_completed_request_id) < q.
Proof.
  unfold ensure_can_start_write, bind, gets, raise_if. rewrite !bool_is_some. destruct (ss_pending _); [done|].
  simpl. destruct (ss_pending_read _); [done|]. simpl. destruct (Z.leb_spec q (last_completed_request_id x.(sw_self))); [done|].
  by intros _.
Qed.

Lemma wp_advance call a a' p n x :
  (∀ id r, call = CallWrite id r → r.(cr_client_id) = c) → steps call a a' → owned x a' →
  x.(sw_self).(ss_pending) = Some p → waiting a' p.(pw_operation_id) = None →
  wp (advance_completed_write p n) (λ x' _, reached a x') (λ x' _, reached a x') x.
Proof.
  intros Hcall Hst (Hw & Hs & Hcl) Hp Hwait. unfold advance_completed_write, upd_session. wp_steps.
  exists call, a'. split; [done|]. split; [done|]. split; [by apply SW_record|].
  split; [by apply sess_ok_advance|done].
Qed.

Lemma wp_accept call a a' id result x :
  (∀ id r, call = CallWrite id r → r.(cr_client_id) = c) → steps call a a' → owned x a' →
  wp (accept_service_write_result id result) (λ x' _, reached a x') (λ x' _, reached a x') x.
Proof.
  intros Hcall Hst Ho. assert (reached a x) as Hr by by exists call, a'.
  unfold accept_service_write_result. apply wp_stays_bind; [auto with distlab| |done].
  intros p [Hp Hid]%require_pending_returns. apply wp_bind, wp_raise_if; [done|intros _].
  unfold pending_write. apply wp_bind, wp_gets, wp_bind, wp_raise_if; [done|]. intros Hno.
  eapply wp_advance; [done..|]. rewrite bool_is_some, (sw_pending _ _ _ (proj1 Ho)), <-Hid in Hno.
  by destruct (waiting _ _).
Qed.

Lemma handles_invoke_write id q op : handles (session_invoke_write id q op).
Proof.
  intros a x Ho. pose proof Ho as (Hw & Hs & Hcl). unfold session_invoke_write.
  eapply wp_self_stay; [done|auto with distlab|]. intros [] [Hp Hlt]%start_write_returns.
  apply wp_bind, wp_gets, wp_bind. set (r := mkClientRequest c q op).
  eapply wp_mono; [eapply (wp_in_service (CallWrite id r) (λ a', a'.(ab_issued) = a.(ab_issued)) a), calls_invoke_write; [done|done|]| |].
  - intros r' Hr'. apply new_ClientRequest_returns in Hr' as [-> H0]. rewrite Hcl. split; [done|].
    by eapply sess_ok_next.
  - intros x' r' (a' & Hst & Hw' & E & Hr' & (Hi & _) & _). apply new_ClientRequest_returns in Hr' as [-> H0].
    rewrite Hcl in *. fold r in Hi |- *. apply wp_bind, wp_modify, wp_ret. exists (CallWrite id r), a'.
    split; [by intros ? ? [= _ <-]|]. split; [done|]. split; [done|]. rewrite E. split; [|done].
    apply (sess_ok_framed (CallWrite id r) a).
    + apply sess_ok_pending; [done..|simpl; lia].
    + eapply client_steps_framed; [exact Hst|apply Hw].
    + intros id' r' [= <- <-] _ _ _. done.
  - intros x' e (a' & Hst & Hw' & E & Hi). exists (CallWrite id r), a'.
    split; [by intros ? ? [= _ <-]|]. split; [done|]. split; [done|]. rewrite E. split; [|done].
    apply (sess_ok_framed (CallWrite id r) a); [done|eapply client_steps_framed; [exact Hst|apply Hw]|].
    intros id' r' [= <- <-] _ Hn. rewrite Hi. apply (not_issued ids (sw_world x) a) in Hn as [-> _]; done.
Qed.

Lemma calls_retry_only call a id w : SW w a → calls ids call any a (retry_write id) (λ _ _ _, True) w.
Proof.
  intros Hw. unfold retry_write. apply calls_stay; [done|done|auto with distlab|intros r _].
  apply calls_record; [done|]. intros w' Hw' _. by apply calls_ret.
Qed.

Lemma handles_retry_write id : handles (session_retry_write id).
Proof.
  intros a x Ho. unfold session_retry_write. eapply wp_self_stay; [done|auto with distlab|]. intros p _.
  apply wp_bind. eapply wp_mono; [eapply (wp_in_service NoCall any a), calls_retry_only, Ho| |].
  - intros x' r (a' & Hst & Hw' & E & _). assert (reached a x') as Hr.
    { exists NoCall, a'. split; [done|]. split; [done|]. by eapply owned_steps. }
    apply wp_bind, wp_raise_if; [done|intros _]. done.
  - intros x' e (a' & Hst & Hw' & E & _). exists NoCall, a'. split; [done|]. split; [done|]. by eapply owned_steps.
Qed.

Lemma handles_complete_write id n : handles (session_complete_write id n).
Proof.
  intros a x Ho. unfold session_complete_write. eapply wp_self_stay; [done|auto with distlab|].
  intros p [Hp Hid]%require_pending_returns. apply wp_bind.
  eapply wp_mono; [eapply (wp_in_service (CallFinish id) any a), calls_complete_write; [apply Ho|done|done]| |].
  - intros x' [] (a' & Hst & Hw' & E & Hno & _ & _). eapply (wp_advance (CallFinish id)); [done|done| | |].
    + by eapply owned_steps.
    + by rewrite E.
    + by rewrite Hid, <-(sw_pending _ _ _ Hw').
  - intros x' e (a' & Hst & Hw' & E & _). exists (CallFinish id), a'. split; [done|]. split; [done|]. by eapply owned_steps.
Qed.

(** *** Writes by the leader service *)

Section fuel.
Context (rf : nat).

Lemma operation_exists_returns id x x' b :
  history_wf (history_of x.(sw_world)) → operation_exists id x = (x', inr b) →
  b = bool_decide (is_Some (invocation_of (history_of x.(sw_world)) id)).
Proof.
  intros Hw [= _ <-]. apply bool_decide_ext. rewrite list_elem_of_fmap. split.
  - intros (i & -> & Hi). apply elem_of_invocations in Hi. destruct (invocation_of _ _) eqn:E; [by eexists|].
    apply invocation_of_none in E. destruct E. apply list_elem_of_fmap. by exists i.
  - intros [i Hi]. apply invocation_of_elem in Hi as [Hi <-]. exists i. by rewrite elem_of_invocations.
Qed.

(** A write that raised is forgotten when it was not issued. *)
Lemma wp_forget_write {A} call a a' id r (existed : bool) e x :
  (∀ id r, call = CallWrite id r → r.(cr_client_id) = c) → steps call a a' → owned x a' →
  x.(sw_self).(ss_pending) = Some (mkPendingWrite id r) →
  (if existed then a'.(ab_issued) !! id ≠ Some r else unanswered id a') →
  wp (forget_write (A := A) id existed r e) (λ _ _, False) (λ x' _, reached a x') x.
Proof.
  intros Hcall Hst Ho Hp Hex. pose proof Ho as (Hw & Hs & Hcl).
  unfold forget_write, pending_write, upd_session. apply wp_bind, wp_gets, wp_bind, wp_when.
  - intros Hb. apply wp_modify. exists call, a'. split; [done|]. split; [done|]. split; [done|]. split; [|done].
    apply sess_ok_forget; [done|]. intros id' r' Hr' _. rewrite Hp. intros [= -> ->].
    destruct existed; [done|]. unfold unanswered in Hex. simpl in Hb. rewrite (sw_pending _ _ _ Hw) in Hb.
    unfold waiting, completed_id in Hb. rewrite bool_is_some, Hex, Hr', bool_decide_eq_true_2 in Hb; done.
  - intros _. by exists call, a'.
Qed.

Lemma wp_try {S A} (m : M S A) f (Q : S → A → Prop) (E E' : S → exn → Prop) (t : S) :
  wp m Q E' t → (∀ t' e, E' t' e → wp (f e) Q E t') → wp (try_except m f) Q E t.
Proof. intros Hm Hf. unfold try_except, wp in *. destruct (m t) as [t' [e|v]]; [by apply Hf|done]. Qed.

Lemma handles_write_via_service l g id q op k : handles (write_via_service rf l g id q op k).
Proof.
  intros a x Ho. pose proof Ho as (Hw & Hs & Hcl). unfold write_via_service.
  eapply wp_self_stay; [done|auto with distlab|]. intros [] [Hp Hlt]%start_write_returns.
  apply wp_bind, wp_gets. eapply wp_self_stay; [done|auto with distlab|].
  intros r Er. assert (new_ClientRequest c q op = inr r) as Er' by (rewrite <-Hcl; by injection Er).
  apply new_ClientRequest_returns in Er' as [-> H0]. set (r := mkClientRequest c q op) in *.
  eapply wp_self_stay; [done|unfold operation_exists; auto with distlab|].
  intros existed ->%operation_exists_returns; [|rewrite (sw_history _ _ _ Hw); by eapply SW_wf].
  rewrite (sw_history _ _ _ Hw). unfold upd_session. apply wp_bind, wp_modify. rewrite Hcl.
  set (p := mkPendingWrite id r). set (x1 := mkSelf _ _).
  assert (sess_ok a x1.(sw_self)) as Hs1 by (apply sess_ok_pending; [done..|simpl; lia]).
  assert (∀ x' a', steps (CallWrite id r) a a' → SW x'.(sw_world) a' → x'.(sw_self) = x1.(sw_self) → owned x' a') as Hown.
  { intros x' a' Hst Hw' E. split; [done|]. rewrite E. split; [|done].
    apply (sess_ok_framed (CallWrite id r) a); [done|eapply client_steps_framed; [exact Hst|apply Hw]|].
    by intros id' r' [= <- <-]. }
  assert (∀ id' r', CallWrite id r = CallWrite id' r' → r'.(cr_client_id) = c) as Hcall by (by intros ? ? [= _ <-]).
  apply wp_bind. eapply wp_try.
  - eapply wp_mono; [apply (wp_in_service (CallWrite id r) (not_written a id) a), calls_service_write; [done|]| |].
    + intros r' Hr'. apply new_ClientRequest_returns in Hr' as [-> _]. split; [done|]. by apply (sess_ok_next a x.(sw_self)).
    + intros x' v (a' & Hst & Hw' & E & _). apply wp_bind.
      eapply wp_mono; [eapply (wp_accept (CallWrite id r)); [done|exact Hst|by apply Hown]|done|done].
    + intros x' e He. exact He.
  - intros x' e (a' & Hst & Hw' & E & Hn). eapply wp_mono; [eapply (wp_forget_write (CallWrite id r) a a')|done|done];
      [done|done|by apply Hown|by rewrite E|].
    unfold not_written in Hn. case_bool_decide; [|done]. rewrite Hn. intros Hr.
    destruct (so_writes _ _ Hs _ _ Hr (eq_sym Hcl)) as [[_ Hle]|?]; [simpl in Hle; lia|congruence].
Qed.

Lemma handles_retry_write_via_service l g id k : handles (retry_write_via_service rf l g id k).
Proof.
  intros a x Ho. unfold retry_write_via_service. eapply wp_self_stay; [done|auto with distlab|]. intros p _.
  apply wp_bind. eapply wp_mono; [eapply (wp_in_service (CallFinish id) any a), calls_retry_write; [apply Ho|done]| |].
  - intros x' v (a' & Hst & Hw' & E & _). apply wp_bind.
    eapply wp_mono; [eapply (wp_accept (CallFinish id)); [done|exact Hst|by eapply owned_steps]|done|done].
  - intros x' e (a' & Hst & Hw' & E & _). exists (CallFinish id), a'. split; [done|]. split; [done|]. by eapply owned_steps.
Qed.

(** *** Reads *)

Lemma owned_read x a v : owned x a → owned (mkSelf x.(sw_world) (set_pending_read v x.(sw_self))) a.
Proof. intros (? & ? & ?). split; [done|]. split; [by apply sess_ok_read|done]. Qed.

Lemma reached_read a x v : reached a x → reached a (mkSelf x.(sw_world) (set_pending_read v x.(sw_self))).
Proof. intros (call & a' & Hc & Hst & Ho). exists call, a'. split; [done|]. split; [done|]. by apply owned_read. Qed.

(** A read in the service, from a world of the session *)
Lemma wp_read {A} call a (m : SM A) x :
  (∀ id r, call ≠ CallWrite id r) → owned x a → calls ids call any a m (λ _ _ _, True) x.(sw_world) →
  wp (in_service m) (λ x' _, reached a x') (λ x' _, reached a x') x.
Proof.
  intros Hc Ho Hm. assert (∀ id r, call = CallWrite id r → r.(cr_client_id) = c) as Hc' by (intros id r E; by destruct (Hc id r)).
  eapply wp_mono; [by apply (wp_in_service call any a)| |].
  - intros x' v (a' & Hst & Hw' & E & _). exists call, a'. split; [done|]. split; [done|]. by eapply owned_steps.
  - intros x' e (a' & Hst & Hw' & E & _). exists call, a'. split; [done|]. split; [done|]. by eapply owned_steps.
Qed.

Lemma handles_start_read {A} id key (m : string → SM A) :
  (∀ a w, SW w a → calls ids (CallRead id c key) any a (m c) (λ _ _ _, True) w) → handles (start_read id key m).
Proof.
  intros Hm a x Ho. unfold start_read, upd_session. eapply wp_self_stay; [done|auto with distlab|intros [] _].
  eapply wp_self_stay; [done|unfold operation_exists; auto with distlab|intros existed _].
  apply wp_bind, wp_modify, wp_bind, wp_gets, wp_bind. set (p := mkPendingRead id key).
  pose proof (owned_read x a (Some p) Ho) as Ho1. set (x1 := mkSelf _ _) in *.
  eapply (wp_try _ _ _ _ (λ x' _, reached a x')).
  - eapply wp_mono; [apply (wp_read (CallRead id c key) a); [done|exact Ho1|]|..].
    + destruct Ho1 as (? & _ & Hcl). simpl in Hcl |- *. rewrite Hcl. by apply Hm.
    + intros x' v Hr. apply wp_bind, wp_modify, wp_ret. by apply reached_read.
    + done.
  - intros x' e Hr. unfold forget_read, upd_session. apply wp_bind, wp_gets, wp_bind, wp_gets, wp_bind, wp_when.
    + intros _. apply wp_modify. unfold rethrow, wp. by apply reached_read.
    + intros _. exact Hr.
Qed.

(** A retry of the pending read *)
Lemma handles_retry_read {A} id (m : string → string → SM A) :
  (∀ a w key, SW w a → calls ids (CallRead id c key) any a (m c key) (λ _ _ _, True) w) →
  handles (let! p := require_pending_read id in let! s := gets sw_self in
    let! result := in_service (m s.(ss_client_id) p.(pr_key)) in upd_session (set_pending_read None) ;; ret result).
Proof.
  intros Hm a x Ho. eapply wp_self_stay; [done|auto with distlab|intros p _]. apply wp_bind, wp_gets, wp_bind.
  eapply wp_mono; [apply (wp_read (CallRead id c p.(pr_key)) a); [done|exact Ho|]|..].
  - destruct Ho as (? & _ & ->). by apply Hm.
  - intros x' v Hr. apply wp_bind, wp_modify, wp_ret. by apply reached_read.
  - done.
Qed.

Lemma handles_reads id i key l g k :
  handles (session_linearizable_read rf id i key k) ∧ handles (linearizable_read_via_service rf l g id key k)
  ∧ handles (session_retry_linearizable_read rf id i k) ∧ handles (retry_linearizable_read_via_service rf l g id k).
Proof.
  split_and!.
  - apply handles_start_read. intros a w Hw. by apply calls_clients_read.
  - apply handles_start_read. intros a w Hw. by apply calls_service_read.
  - apply (handles_retry_read id (λ c key, clients_retry_linearizable_read rf id c i key k)). intros a w key' Hw. by apply calls_clients_retry_read.
  - apply (handles_retry_read id (λ c key, service_retry_linearizable_read rf l g id c key k)). intros a w key' Hw. by apply calls_service_retry_read.
Qed.
End fuel.

Lemma handles_abandon id : handles (session_abandon_linearizable_read id).
Proof.
  intros a x Ho. unfold session_abandon_linearizable_read, upd_session.
  eapply wp_self_stay; [done|auto with distlab|intros p _]. apply wp_bind, wp_gets, wp_bind.
  eapply wp_mono; [apply (wp_read (CallRead id c p.(pr_key)) a); [done|exact Ho|]|..].
  - destruct Ho as (? & _ & ->). by apply calls_abandon_read.
  - intros x' v Hr. apply wp_modify. by apply reached_read.
  - done.
Qed.
End client.

(** ** Recovery *)

(** All that the client has had answered is in what [n] has applied. *)
Definition covers a w n c : Prop := ∃ j, (j ≤ length a.(ab_entries))%nat
  ∧ image_of w.(sv_system).(store) n = replay kv_image0 (commands_to a.(ab_entries) j)
  ∧ ∀ id r, a.(ab_issued) !! id = Some r → r.(cr_client_id) = c →
      is_Some (a.(ab_history).(h_completions) !! id) → CmdRequest r ∈ commands_to a.(ab_entries) j.

Lemma seen_covers w a w' a' n c j :
  SW w a → moved a a' → seen (a.(ab_spec), a.(ab_entries)) w'.(sv_system) (a'.(ab_spec), a'.(ab_entries)) n j → covers a' w' n c.
Proof.
  intros Hw Hm [Hj Him]. simpl in Hj, Him. exists j. split; [lia|]. split; [done|].
  intros id r. rewrite (mv_issued _ _ Hm), (mv_history _ _ Hm). intros Hr _ [cp Hcp].
  pose proof (av_points _ (sw_inv _ _ _ Hw)) as Hp. destruct (po_point _ _ _ _ Hp _ _ Hcp) as (p & Hpp & Hle).
  pose proof (po_write _ _ _ _ Hp _ _ _ _ Hcp Hpp Hr) as Hin. rewrite <-(commands_to_prefix _ _ _ (mv_entries _ _ Hm) Hle) in Hin.
  eapply commands_to_mono; [|exact Hin]. lia.
Qed.

(** A write without an answer is unresolved. *)
Lemma unresolved_write w a id r c :
  SW w a → a.(ab_issued) !! id = Some r → r.(cr_client_id) = c → a.(ab_history).(h_completions) !! id = None →
  ∃ i, i ∈ unresolved a.(ab_history) c ∧ i.(inv_operation_id) = id ∧ i.(inv_operation) = HWrite r.(cr_operation).
Proof.
  intros Hw Hr Hc Hn. pose proof (sw_inv _ _ _ Hw) as [Hi _ _]. destruct (is_invoked _ _ Hi _ _ Hr) as (i & Hii & Hop & Hcl & _).
  pose proof (invocation_of_elem _ _ _ Hii) as [Hin Hid]. exists i. split; [|done]. unfold unresolved, pending, is_abandoned.
  rewrite !list_elem_of_filter, elem_of_invocations, Hid. split_and!; [congruence| |done..].
  apply bool_decide_eq_false. intros Hab. destruct (wf_abandoned _ (is_wf _ _ Hi) _ Hab) as (_ & i' & Hi' & Hwr).
  rewrite Hii in Hi'. injection Hi' as <-. by rewrite Hop in Hwr.
Qed.

Lemma calls_restore a w s requests :
  SW w a → s.(ss_pending) = None →
  (∀ id r, a.(ab_issued) !! id = Some r → r.(cr_client_id) = s.(ss_client_id) →
     is_Some (a.(ab_history).(h_completions) !! id) → r.(cr_request_id) ≤ s.(last_completed_request_id)) →
  calls ids NoCall any a (restore_pending_operation s requests)
    (λ w' a' s', s'.(ss_client_id) = s.(ss_client_id) ∧ sess_ok a' s') w.
Proof.
  intros Hw Hp Hfloor. unfold restore_pending_operation. apply calls_gets. rewrite (sw_history _ _ _ Hw).
  assert (∀ s', (∀ id r, a.(ab_issued) !! id = Some r → r.(cr_client_id) = s.(ss_client_id) →
      a.(ab_history).(h_completions) !! id = None → s'.(ss_pending) = Some (mkPendingWrite id r)) →
    s'.(ss_client_id) = s.(ss_client_id) → s'.(last_completed_request_id) = s.(last_completed_request_id) →
    (∀ p, s'.(ss_pending) = Some p → s.(last_completed_request_id) ≤ p.(pw_request).(cr_request_id)) → sess_ok a s') as Hok.
  { intros s' Hs' Ec El Hle. split; rewrite ?Ec, El; [|done]. intros id r Hr Hc.
    destruct (h_completions _ !! id) eqn:E; [left; split; [done|]; by eapply Hfloor|right; by apply Hs']. }
  destruct (unresolved _ _) as [|i [|]] eqn:Eu; [| |by apply calls_raise].
  { apply calls_ret; [done|]. split; [done|]. apply Hok; [|done|done|by rewrite Hp].
    intros id r Hr Hc Hn. destruct (unresolved_write w a id r _ Hw Hr Hc Hn) as (i & Hi & _). rewrite Eu in Hi. by apply elem_of_nil in Hi. }
  destruct (inv_operation i) as [op|key] eqn:Eop.
  - apply calls_gets. destruct (pending_writes _ !! _) as [request|] eqn:Ep; [|by apply calls_raise].
    apply calls_stay; [done|done|auto with distlab|intros [] _]. apply calls_stay; [done|done|auto with distlab|intros [] Hle].
    apply calls_stay; [done|done|auto with distlab|intros [] _]. apply calls_record; [done|]. intros w' Hw' _.
    apply calls_ret; [done|]. split; [done|]. apply Hok; [|done|done|].
    + intros id r Hr Hc Hn. destruct (unresolved_write w a id r _ Hw Hr Hc Hn) as (j & Hj & <- & _). rewrite Eu in Hj.
      apply list_elem_of_singleton in Hj as ->. rewrite (sw_pending _ _ _ Hw) in Ep. apply waiting_some in Ep as [Ep _]. simpl. congruence.
    + intros p [= <-]. simpl. unfold raise_if in Hle. destruct (Z.ltb_spec (cr_request_id request) (last_completed_request_id s)); [done|lia].
  - apply calls_record; [done|]. intros w' Hw' _. apply calls_ret; [done|]. split; [done|]. apply Hok; [|done|done|by simpl; rewrite Hp].
    intros id r Hr Hc Hn. destruct (unresolved_write w a id r _ Hw Hr Hc Hn) as (j & Hj & _ & Hjop). rewrite Eu in Hj.
    apply list_elem_of_singleton in Hj as ->. congruence.
Qed.

Lemma calls_recover a w c n :
  SW w a → covers a w n c →
  calls ids NoCall any a (recover c n) (λ w' a' s, s.(ss_client_id) = c ∧ sess_ok a' s) w.
Proof.
  intros Hw (j & Hj & Him & Hall). unfold recover. apply calls_stay; [done|done|auto with distlab|].
  intros requests ->%kv_requests_returns. cbv zeta. apply calls_stay; [done|done|auto with distlab|intros s Hs].
  assert (s = mkSession c (latest_request_id (image_of w.(sv_system).(store) n).(kv_requests) c) None None) as ->.
  { revert Hs. unfold lift, new_KVClientSession, checked. destruct (empty_str c); [done|]. destruct (_ <? -1); [done|]. by intros [= <-]. }
  eapply calls_bind.
  - apply calls_restore; [done|done|]. simpl. intros id r Hr Hc Hcp. apply latest_ge. rewrite <-Hc.
    eexists. apply (applied_request ids w a n r j Hw Hj Him). by eapply Hall.
  - intros a' w' s _ Hw' [Hcl Hs']. apply calls_record; [done|]. intros w2 Hw2 _. by apply calls_ret.
Qed.

Section fuel.
Context (rf : nat).

Lemma calls_recover_linearizable a w c i k :
  SW w a → calls ids NoCall any a (recover_linearizable rf c i k) (λ w' a' s, s.(ss_client_id) = c ∧ sess_ok a' s) w.
Proof.
  intros Hw. unfold recover_linearizable. eapply calls_system; [done|done|done|apply refines_of_barrier, Hw|].
  intros a1 w1 e Hm Hw1 [j Hj]. eapply calls_bind; [apply calls_recover; [done|eapply seen_covers; [exact Hw|exact Hm|exact Hj]]|].
  intros a2 w2 s _ Hw2 Hs. apply calls_record; [done|]. intros w3 Hw3 _. by apply calls_ret.
Qed.

Lemma calls_recover_fenced a w c l g k :
  SW w a → calls ids NoCall any a (recover_generation_fenced rf c l g k) (λ w' a' s, s.(ss_client_id) = c ∧ sess_ok a' s) w.
Proof.
  intros Hw. unfold recover_generation_fenced. eapply calls_bind; [by apply calls_barrier|].
  intros a1 w1 e _ Hw1 (Hm & j & Hj). eapply calls_bind; [apply calls_recover; [done|eapply seen_covers; [exact Hw|exact Hm|exact Hj]]|].
  intros a2 w2 s _ Hw2 Hs. apply calls_record; [done|]. intros w3 Hw3 _. by apply calls_ret.
Qed.
End fuel.
End sessions.
