(* ===== verification/SessionProperties.v ===== *)
(** * SessionProperties: what the clients of the Raft store observe

    The system of [ClientSession]: clients with one session each, over a cluster
    on which anything may happen.  Their history is linearizable
    ([session_linearizable]), every replica executes each request once
    ([session_exactly_once]), and a recovered session has caught up
    ([session_recovered]). *)

From stdpp Require Import relations.
From S2P Require Import Prelude Simulator Quorum LogIndex KVCommands History Projection MultiKey RaftSpec Refinement Raft RaftRefine RaftSafe Replication Driver DriverRefine AppWorld StateMachine KV AppFacts AppInv AppSystem AppWhole AppProperties LinearizableRead Follows ReadRefine System ClientHistory LeaderService ClientSession SessionSpec ServiceRefine ServiceCalls SessionRefine.

Implicit Types (w : ServiceWorld) (a : Abs) (n id key c : string) (r : ClientRequest)
  (h : OperationHistory) (s : KVClientSession) (z : SessionWorld) (call : Call).

Section system.
Context (ids : list string) (ts : option (gmap string Z)).
Local Abbreviation steps call := (rtc (client_step (majority ids) call)).
Local Abbreviation SW := (SW ids).
Local Abbreviation follows := (follows ids).

(** ** Every call *)

Definition SN z a : Prop := SW z.(sn_world) a
  ∧ ∀ c s, z.(sn_sessions) !! c = Some s → s.(ss_client_id) = c ∧ sess_ok a s.

(** Other clients' sessions *)
Lemma sessions_framed call z a a' (c : option string) :
  SN z a → steps call a a' → (∀ id r, call = CallWrite id r → c = Some r.(cr_client_id)) →
  ∀ c' s, z.(sn_sessions) !! c' = Some s → c ≠ Some c' → s.(ss_client_id) = c' ∧ sess_ok a' s.
Proof.
  intros [Hw Hs] Hst Hc c' s Hl Hne. destruct (Hs c' s Hl) as [Hid Hok]. split; [done|].
  eapply sess_ok_framed; [exact Hok|eapply client_steps_framed; [exact Hst|apply Hw]|].
  intros id r Hcall Hcl. exfalso. apply Hne. rewrite (Hc _ _ Hcall). congruence.
Qed.

Lemma SN_session {A} z a c (m : SeM A) z' v :
  SN z a → handles ids c m → of_session c m z = (z', v) → ∃ a', SN z' a'.
Proof.
  intros Hz Hm. pose proof Hz as [Hw Hs]. unfold of_session. destruct (_ !! c) as [s|] eqn:Hl; [|intros [= <- _]; by exists a].
  destruct (Hs c s Hl) as [Hid Hok]. specialize (Hm a (mkSelf z.(sn_world) s) (conj Hw (conj Hok Hid))). unfold wp in Hm.
  destruct (m _) as [x r]. assert (reached ids c a x) as (call & a' & Hcall & Hst & Hw' & Hok' & Hid') by by destruct r.
  intros [= <- _]. exists a'. split; [done|]. intros c' s' Hl'. simpl in Hl'.
  apply lookup_insert_Some in Hl' as [[<- <-]|[Hne Hl']]; [done|].
  eapply (sessions_framed call z a a' (Some c)); [done|done| |done|congruence]. intros id q Hq. by rewrite (Hcall _ _ Hq).
Qed.

Lemma SN_service {A} z a (m : SM A) Q z' v :
  SN z a → calls ids NoCall (λ _, True) a m Q z.(sn_world) → in_world m z = (z', v) →
  ∃ a', SN z' a' ∧ z'.(sn_sessions) = z.(sn_sessions) ∧ ∀ b, v = inr b → Q z'.(sn_world) a' b.
Proof.
  intros Hz Hm. unfold in_world. unfold calls, wp in Hm. destruct (m (sn_world z)) as [w [e|b]]; intros [= <- <-];
    destruct Hm as (a' & Hst & Hw' & HQ); exists a'; (split; [|split; [done|]]).
  2: done.
  3: by intros b' [= <-].
  all: split; [done|]; intros c s Hl; by eapply (sessions_framed NoCall z a a' None).
Qed.

Lemma SN_install z a c s : SN z a → s.(ss_client_id) = c → sess_ok a s → SN (mkSessions z.(sn_world) (<[c := s]> z.(sn_sessions))) a.
Proof.
  intros [Hw Hs] Hc Hok. split; [done|]. simpl. intros c' s' [[<- <-]|[_ Hl]]%lookup_insert_Some; [done|by apply Hs].
Qed.

(** A recovery that returns installs its session. *)
Lemma SN_recover z a c (m : SM KVClientSession) z' v :
  SN z a → calls ids NoCall (λ _, True) a m (λ w' a' s, s.(ss_client_id) = c ∧ sess_ok a' s) z.(sn_world) →
  (let! s := in_world m in install c s) z = (z', v) → ∃ a', SN z' a'.
Proof.
  intros Hz Hm. unfold bind. destruct (in_world m z) as [z1 [e|s]] eqn:E.
  - intros [= <- _]. destruct (SN_service _ _ _ _ _ _ Hz Hm E) as (a' & ? & _). by exists a'.
  - destruct (SN_service _ _ _ _ _ _ Hz Hm E) as (a' & Hz' & _ & Hs). destruct (Hs s eq_refl) as [? ?].
    intros [= <- _]. exists a'. by apply SN_install.
Qed.

Lemma unit_result {S A} (m : M S A) x x' v : (m ;; ret tt) x = (x', v) → ∃ v', m x = (x', v').
Proof. unfold bind. destruct (m x) as [y [e|b]]; intros [= <- _]; by eexists. Qed.

(** What is done around the sessions *)
Lemma SN_outside z a o z' v :
  NoDup ids → SN z a → session_ok z (NOutside o) → in_world (on_system (exec_sys o)) z = (z', v) → ∃ a', SN z' a'.
Proof.
  intros Hnd Hz [Hok Happ] E. pose proof Hz as [Hw Hs].
  unfold in_world, on_system in E. destruct (exec_sys o _) as [y b] eqn:Ey. injection E as <- <-.
  edestruct (follows_call ids (may := allowed a.(ab_issued)) z.(sn_world).(sv_system) o y b) as (s' & H' & Hst & Hp & Hf);
    [done|exact (sw_follows _ _ _ Hw)|done| |done|by intros ->|].
  { destruct o as [[|n command| | | | | | | | |]| | | | | |]; try done. simpl. unfold appendable in Happ. destruct command; try done.
    destruct Happ as [id Hid]. rewrite (sw_pending _ _ _ Hw) in Hid. apply waiting_some in Hid as [? _]. by exists id. }
  edestruct (SW_moves ids NoCall z.(sn_world) a (s', H') (mkService y z.(sn_world).(sv_clients) z.(sn_world).(sv_trace)))
    as (Hst' & Hw' & _); [done|by apply rtc_once; split|exact Hf|done|].
  eexists. split; [exact Hw'|]. intros c s Hl. by eapply (sessions_framed NoCall z a _ None).
Qed.

Lemma SN_exec z a o z' v : NoDup ids → SN z a → session_ok z o → exec_session o z = (z', v) → ∃ a', SN z' a'.
Proof.
  intros Hnd Hz Hok E.
  destruct o as [o|rf l g k|c|rf c i k|rf c l g k|c id q op|c id|c id n|rf c l g id q op k|rf c l g id k|rf c id i key k|rf c id i k|rf c l g id key k|rf c l g id k|c id];
    simpl in E; try (apply unit_result in E as [v' E]).
  - by eapply SN_outside.
  - destruct (SN_service z a _ _ _ _ Hz (calls_barrier ids NoCall rf a l g k _ (proj1 Hz)) E) as (a' & Hz' & _). by exists a'.
  - eapply (SN_recover z a c); [done| |exact E].
    apply calls_ret_r. apply calls_stay; [apply Hz|done|auto with distlab|]. intros s Hs. unfold lift, new_KVClientSession, checked in Hs. destruct (empty_str c); [done|]. injection Hs as <-.
    apply calls_ret; [apply Hz|]. split; [done|]. split; [|done]. simpl. intros id r Hr Hc. exfalso.
    destruct (is_invoked _ _ (av_issued _ (sw_inv _ _ _ (proj1 Hz))) _ _ Hr) as (i & Hi & _ & Hcl & _).
    apply invocation_of_elem in Hi as [Hi _]. simpl in Hok. rewrite (sw_history _ _ _ (proj1 Hz)) in Hok. apply (Hok i Hi). congruence.
  - eapply (SN_recover z a c); [done|by apply calls_recover_linearizable, Hz|exact E].
  - eapply (SN_recover z a c); [done|by apply calls_recover_fenced, Hz|exact E].
  - by eapply SN_session; [|apply handles_invoke_write|].
  - by eapply SN_session; [|apply handles_retry_write|].
  - by eapply SN_session; [|apply handles_complete_write|].
  - by eapply SN_session; [|apply handles_write_via_service|].
  - by eapply SN_session; [|apply handles_retry_write_via_service|].
  - destruct (handles_reads ids c rf id i key "" 0 k) as (? & _). by eapply SN_session.
  - destruct (handles_reads ids c rf id i "" "" 0 k) as (_ & _ & ? & _). by eapply SN_session.
  - destruct (handles_reads ids c rf id 0 key l g k) as (_ & ? & _). by eapply SN_session.
  - destruct (handles_reads ids c rf id 0 "" l g k) as (_ & _ & _ & ?). by eapply SN_session.
  - by eapply SN_session; [|apply handles_abandon|].
Qed.

(** ** Restarts *)

(** The client history built again waits for the same requests. *)
Lemma restore_pending_lookup w a l acc p :
  SW w a → (∀ i, i ∈ l → i ∈ a.(ab_history).(h_invocations)) →
  restore_pending a.(ab_history) l acc = inr p →
  (∀ id, acc !! id = waiting a id
     ∨ ∃ i, i ∈ l ∧ i.(inv_operation_id) = id ∧ is_Some (client_request_id a.(ab_history) id)) →
  ∀ id, p !! id = waiting a id.
Proof.
  intros Hw. revert acc. induction l as [|i l IH]; intros acc Hl; simpl.
  { intros [= <-] Hacc id. destruct (Hacc id) as [?|(i & Hi & _)]; [done|by apply elem_of_nil in Hi]. }
  assert (∀ j, j ∈ l → j ∈ a.(ab_history).(h_invocations)) as Hl' by (intros j Hj; apply Hl; by right).
  unfold client_request_id. destruct (h_client_request_ids _ !! inv_operation_id i) as [q|] eqn:Eq.
  - destruct (inv_operation i) as [op|key] eqn:Eop; [|done].
    destruct (new_ClientRequest _ q op) as [e|r] eqn:Er; [done|]. apply new_ClientRequest_returns in Er as [-> _].
    intros Hp Hacc. eapply IH; [exact Hl'|exact Hp|]. intros id.
    destruct (decide (i.(inv_operation_id) = id)) as [<-|Hne].
    + left. rewrite lookup_insert_eq. rewrite (sw_number _ _ _ Hw) in Eq.
      destruct (waiting a (inv_operation_id i)) as [r|] eqn:Ew; [|done]. injection Eq as <-.
      apply waiting_some in Ew as [Hr _]. pose proof (sw_inv _ _ _ Hw) as [Hi _ _].
      destruct (is_invoked _ _ Hi _ _ Hr) as (j & Hj & Hop & Hc & _). apply invocation_of_elem in Hj as [Hj Hid].
      assert (j = i) as -> by (eapply inv_unique; [apply Hi|done|apply Hl; by left|done]).
      rewrite Eop in Hop. injection Hop as ->. rewrite Hc. by destruct r.
    + rewrite lookup_insert_ne by done. destruct (Hacc id) as [?|(j & [->|Hj]%elem_of_cons & <- & ?)]; [by left|done|right]. by exists j.
  - intros Hp Hacc. eapply IH; [exact Hl'|exact Hp|]. intros id.
    destruct (Hacc id) as [?|(j & [->|Hj]%elem_of_cons & <- & Hs)]; [by left| |right; by exists j].
    unfold client_request_id in Hs. rewrite Eq in Hs. by destruct Hs.
Qed.

Lemma new_clients_restored w a cl :
  SW w a → new_KVClientHistory a.(ab_history) = inr cl →
  cl.(history) = a.(ab_history) ∧ ∀ id, cl.(pending_writes) !! id = waiting a id.
Proof.
  intros Hw. unfold new_KVClientHistory. destruct (restore_pending _ _ _) as [e|p] eqn:Ep; [done|]. intros [= <-].
  split; [done|]. simpl. eapply restore_pending_lookup; [exact Hw| |exact Ep|].
  - intros i [_ Hi]%list_elem_of_filter. by apply elem_of_invocations.
  - intros id. destruct (waiting a id) as [r|] eqn:Ew; [right|by left].
    pose proof (sw_number _ _ _ Hw id) as Hn. rewrite Ew in Hn. apply waiting_some in Ew as [Hr Hc].
    destruct (is_invoked _ _ (av_issued _ (sw_inv _ _ _ Hw)) _ _ Hr) as (i & Hi & _).
    apply invocation_of_elem in Hi as [Hi Hid]. exists i. split; [|split; [done|by eexists]].
    unfold pending. rewrite list_elem_of_filter, elem_of_invocations. by rewrite Hid.
Qed.

Lemma SN_next z a z' :
  ids ≠ [] → NoDup ids → timeouts_ok ids ts → SN z a → session_next ids ts z z' → ∃ a', SN z' a'.
Proof.
  intros Hne Hnd Hts Hz [o z1 r Hok E|plan r w cl Hi E Hcl]; [by eapply SN_exec|].
  destruct Hz as [Hw _]. exists a. rewrite (sw_history _ _ _ Hw) in Hcl.
  destruct (new_clients_restored _ _ _ Hw Hcl) as [Hh Hp]. split; [|done]. split; simpl.
  - eapply follows_reboot; [done..|exact (sw_follows _ _ _ Hw)|exact Hi|exact E].
  - exact Hh.
  - exact Hp.
  - apply Hw.
  - apply Hw.
Qed.

Definition abs0 : Abs := mkAbs spec0 [] ∅ ∅ new_history.

Lemma abs0_inv : abs_inv abs0.
Proof.
  split; [|split; simpl; try done; by intros c ?%elem_of_nil|apply spec0_carries].
  split; simpl; try done; [apply new_history_wf|by intros i ?%elem_of_nil].
Qed.

Lemma session_reachable_SN z :
  session_reachable ids ts z → ids ≠ [] ∧ NoDup ids ∧ timeouts_ok ids ts ∧ ∃ a, SN z a.
Proof.
  induction 1 as [plan r w cl Hi E Hcl|z z' _ (Hne & Hnd & Hts & a & Hz) Hn].
  - destruct (follows_start ids ts _ _ _ Hi E) as (? & ? & ? & Hf). split_and!; [done..|]. exists abs0.
    injection Hcl as <-. split; [|done]. split; simpl; try done. apply abs0_inv.
  - split_and!; [done..|]. by eapply SN_next.
Qed.

(** ** The theorems *)

(** C2: What the clients of the Raft store recorded is linearizable, whatever the
    servers, the network, the drivers and the clients did: writes and reads
    through sessions at any leader, by the service under any generation or by
    a reader, answers lost and operations retried elsewhere, reads abandoned,
    sessions lost and recovered behind a read barrier, reboots of all servers.  One order of the
    answered operations and some unanswered writes, over all keys, respects real
    time and explains every answer; so the checker never rejects such a history. *)
Theorem session_linearizable z : session_reachable ids ts z → accepted (history_of z.(sn_world)).
Proof.
  intros (_ & _ & _ & a & Hw & _)%session_reachable_SN. rewrite (sw_history _ _ _ Hw).
  destruct (sw_inv _ _ _ Hw) as [Hi Hp _]. eapply explained_accepted; [apply Hi|]. by apply (points_explain a.(ab_issued) a.(ab_points) a.(ab_entries)).
Qed.

(** C12: C: Exactly once, on every replica: there is one order of distinct requests, each
    of them a write some client invoked, such that what a replica stores is what
    the first so many of them do, each executed once, and its table of requests
    knows exactly those. *)
Theorem session_exactly_once z :
  session_reachable ids ts z →
  ∃ order, NoDup order
    ∧ (∀ r, r ∈ order → ∃ i, i ∈ (history_of z.(sn_world)).(h_invocations)
        ∧ i.(inv_client_id) = r.(cr_client_id) ∧ i.(inv_operation) = HWrite r.(cr_operation))
    ∧ ∀ n, ∃ k, (image_of z.(sn_world).(sv_system).(store) n).(kv_state) = run_writes (take k order)
        ∧ ∀ c q op, (image_of z.(sn_world).(sv_system).(store) n).(kv_requests) !! (c, q) = Some op
            ↔ mkClientRequest c q op ∈ take k order.
Proof.
  intros (_ & _ & _ & a & Hw & _)%session_reachable_SN. pose proof (sw_inv _ _ _ Hw) as [Hi Hp _].
  rewrite (sw_history _ _ _ Hw). exists (distinct (commands_of a.(ab_entries))). split; [apply distinct_nodup|]. split.
  - intros r [id Hr]%elem_of_distinct%(po_allowed _ _ _ _ Hp). destruct (is_invoked _ _ Hi _ _ Hr) as (i & Hii & ? & ? & _).
    apply invocation_of_elem in Hii as [? _]. by exists i.
  - intros n. destruct (Sys_image ids _ (_, _) n (sw_follows _ _ _ Hw)) as (j & Hj & ->). simpl.
    destruct (replay_ordered _ (history_ordered _ _ _ _ Hi Hp j)) as [Hst Hreq].
    destruct (distinct_prefix (commands_to a.(ab_entries) j) (commands_of a.(ab_entries))) as [k Hk].
    { eexists. symmetry. apply take_drop. }
    exists (length (distinct (commands_to a.(ab_entries) j))). rewrite Hk, take_app_length. done.
Qed.

(** C13: C: A live session knows its client: whatever stands in a log of the cluster
    under the client's name is numbered at most its floor or is its pending
    request, so a number above the floor is new; and a write the client has no
    answer for is the pending one.  It holds of a session that a recovery behind
    a read barrier has just built, whatever was lost with the one before. *)
Theorem session_floor z c s :
  session_reachable ids ts z → z.(sn_sessions) !! c = Some s →
  (∀ n e r, e ∈ (dur (cluster_of z.(sn_world)) n).(log) → e.(le_command) = CmdRequest r → r.(cr_client_id) = c →
     r.(cr_request_id) ≤ s.(last_completed_request_id) ∨ ∃ p, s.(ss_pending) = Some p ∧ p.(pw_request) = r)
  ∧ (∀ i op, i ∈ (history_of z.(sn_world)).(h_invocations) → i.(inv_client_id) = c → i.(inv_operation) = HWrite op →
     (history_of z.(sn_world)).(h_completions) !! i.(inv_operation_id) = None →
     ∃ p, s.(ss_pending) = Some p ∧ p.(pw_operation_id) = i.(inv_operation_id) ∧ p.(pw_request).(cr_operation) = op).
Proof.
  intros (_ & _ & _ & a & Hw & Hs)%session_reachable_SN Hl. destruct (Hs c s Hl) as [<- [Hwr _]].
  pose proof (sw_inv _ _ _ Hw) as [Hi _ Hca]. rewrite (sw_history _ _ _ Hw). split.
  - intros n e r He Hc Hcl. destruct (follows_view ids _ _ _ n (sw_follows _ _ _ Hw)) as [_ Hlog].
    unfold cluster_of in He. rewrite Hlog in He. apply (ca_nlog _ _ Hca) in He. rewrite Hc in He. destruct He as [id Hid].
    destruct (Hwr id r Hid Hcl) as [[_ ?]|Hp]; [by left|right; by eexists].
  - intros i op Hin Hcl Hop Hn. destruct (is_issued _ _ Hi i Hin) as [r Hr]; [by rewrite Hop|].
    destruct (is_invoked _ _ Hi _ _ Hr) as (j & Hj & Hjop & Hjc & _). apply invocation_of_elem in Hj as [Hj Hid].
    assert (j = i) as -> by (eapply inv_unique; [apply Hi|done..]). rewrite Hop in Hjop. injection Hjop as ->.
    destruct (Hwr _ r Hr ltac:(congruence)) as [[[? ?] _]|Hp]; [congruence|]. eexists. split; [exact Hp|]. done.
Qed.
End system.

(** ** Fenced by the generation *)

(** [l] leads and holds the generation [g]. *)
Definition held w l (g : Z) : Prop := ∃ i, owns (cluster_of w) i ∧ i.(li_leader) = l ∧ i.(li_generation) = g.

(** The leader's generation is checked before anything changes, and has been
    checked after the last change of the cluster when an answer is published. *)
Record fenced {A} l (g : Z) (m : SM A) : Prop := {
  fe_refused w : ¬ held w l g → ∃ e, m w = (w, inl e);
  fe_published w w' v : m w = (w', inr v) → held w' l g;
}.

Definition refuses {A} l (g : Z) (m : SM A) : Prop := ∀ w, ¬ held w l g → ∃ e, m w = (w, inl e).
Definition publishes {A} l (g : Z) (m : SM A) : Prop := ∀ w w' v, m w = (w', inr v) → held w' l g.
(** The cluster stays as it is. *)
Definition spares_cluster {A} (m : SM A) : Prop := ∀ w, cluster_of (m w).1 = cluster_of w.

Lemma refuses_require {A} l g (k : LeaderRuntimeIdentity → SM A) : refuses l g (bind (require_generation l g) k).
Proof.
  intros w Hh. unfold bind. pose proof (stays_require l g w) as Hs.
  destruct (require_generation l g w) as [w1 [e|i]] eqn:E; simpl in Hs; subst; [by exists e|].
  destruct Hh. exists i. by eapply require_returns.
Qed.

Lemma refuses_stay {A B} l g (m : SM A) (k : A → SM B) : stays m → (∀ v, refuses l g (k v)) → refuses l g (bind m k).
Proof.
  intros Hm Hk w Hh. unfold bind. specialize (Hm w). destruct (m w) as [w1 [e|v]]; simpl in Hm; subst; [by exists e|by apply Hk].
Qed.

Lemma publishes_bind {A B} l g (m : SM A) (k : A → SM B) : (∀ v, publishes l g (k v)) → publishes l g (bind m k).
Proof. intros Hk w w' v (w1 & u & _ & E)%bind_inv. by eapply Hk. Qed.

Lemma publishes_require {A} l g (k : LeaderRuntimeIdentity → SM A) :
  (∀ i, spares_cluster (k i)) → publishes l g (bind (require_generation l g) k).
Proof.
  intros Hk w w' v (w1 & i & E1 & E)%bind_inv. pose proof (stays_eq _ _ _ _ (stays_require l g) E1) as ->.
  apply require_returns in E1. specialize (Hk i w). rewrite E in Hk. simpl in Hk. exists i. by rewrite Hk.
Qed.

Lemma publishes_same {A} i (m : SM A) : spares_cluster m → publishes i.(li_leader) i.(li_generation) (require_same i ;; m).
Proof.
  intros Hm w w' v (w1 & [] & E1 & E)%bind_inv. unfold require_same in E1. apply bind_inv in E1 as (w2 & j & E2 & [= <-]).
  pose proof (stays_eq _ _ _ _ (stays_require _ _) E2) as ->.
  apply require_returns in E2. specialize (Hm w). rewrite E in Hm. simpl in Hm. exists j. by rewrite Hm.
Qed.

Lemma spares_cluster_stays {A} (m : SM A) : stays m → spares_cluster m.
Proof. intros Hm w. by rewrite Hm. Qed.
Lemma spares_cluster_bind {A B} (m : SM A) (k : A → SM B) : spares_cluster m → (∀ v, spares_cluster (k v)) → spares_cluster (bind m k).
Proof.
  intros Hm Hk w. unfold bind. specialize (Hm w). destruct (m w) as [w1 [e|v]]; simpl in *; [done|]. by rewrite Hk.
Qed.
Lemma spares_cluster_history {A} (m : HM A) : spares_cluster (on_history m). Proof. done. Qed.
Lemma spares_cluster_record rec : spares_cluster (sv_record rec). Proof. done. Qed.
Lemma spares_cluster_pending f : spares_cluster (upd_pending f). Proof. done. Qed.
#[local] Hint Resolve spares_cluster_history spares_cluster_record spares_cluster_pending : distlab.
#[local] Hint Extern 3 (spares_cluster (bind _ _)) => apply spares_cluster_bind; [|intros] : distlab.
#[local] Hint Extern 5 (spares_cluster (match ?b with _ => _ end)) => destruct b : distlab.
#[local] Hint Extern 7 (spares_cluster _) => apply spares_cluster_stays; solve [auto 20 with distlab] : distlab.

Lemma spares_cluster_complete id n : spares_cluster (complete_write id n).
Proof. unfold complete_write. auto 20 with distlab. Qed.
#[local] Hint Resolve spares_cluster_complete : distlab.

Section fuel.
Context (rf : nat).

Lemma publishes_commit i id r k : publishes i.(li_leader) i.(li_generation) (commit_write rf i id r k).
Proof.
  unfold commit_write, commit_new. do 4 (apply publishes_bind; intros ?). apply publishes_bind. intros [|].
  - apply publishes_bind. intros requests. destruct (requests !! _); [|by intros ? ? ?]. apply publishes_bind. intros _.
    apply publishes_same. auto 20 with distlab.
  - do 11 (apply publishes_bind; intros ?). apply publishes_same. auto 20 with distlab.
Qed.

Lemma publishes_complete_read i id c key k : publishes i.(li_leader) i.(li_generation) (complete_read rf i id c key k).
Proof.
  unfold complete_read. do 5 (apply publishes_bind; intros ?). apply publishes_same. auto 20 with distlab.
Qed.

(** C14: C: Every operation of the leader service is fenced: when its leader does not
    hold the generation it was given, the operation raises and nothing has
    changed, the client history included; and when it returns, the leader held
    that generation in the very state of the cluster in which the answer was
    published. *)
Theorem service_fenced l g id c q op key k :
  fenced l g (service_write rf l g id c q op k) ∧ fenced l g (service_retry_write rf l g id k)
  ∧ fenced l g (service_linearizable_read rf l g id c key k) ∧ fenced l g (service_retry_linearizable_read rf l g id c key k)
  ∧ fenced l g (linearizable_barrier rf l g k).
Proof.
  assert (∀ {A} (m : LeaderRuntimeIdentity → SM A), (∀ i, publishes i.(li_leader) i.(li_generation) (m i)) →
    publishes l g (bind (require_generation l g) m)) as Hreq.
  { intros A m Hm w w' v (w1 & i & E1 & E)%bind_inv. apply require_returns in E1 as (_ & <- & <-). by eapply Hm. }
  split_and!; split.
  - apply refuses_require.
  - apply Hreq. intros i. apply publishes_bind. intros r. apply publishes_commit.
  - apply refuses_require.
  - apply Hreq. intros i. apply publishes_bind. intros r. apply publishes_commit.
  - apply refuses_stay; [auto with distlab|intros _; apply refuses_require].
  - apply publishes_bind. intros _. apply Hreq. intros i. do 2 (apply publishes_bind; intros ?). apply publishes_complete_read.
  - apply refuses_require.
  - apply Hreq. intros i. do 4 (apply publishes_bind; intros ?). apply publishes_complete_read.
  - apply refuses_stay; [auto with distlab|intros _; apply refuses_require].
  - do 6 (apply publishes_bind; intros ?). apply publishes_require. intros i. auto with distlab.
Qed.
End fuel.
