(* ===== verification/SessionWitnesses.v ===== *)
(** * SessionWitnesses: two clients of a store on three nodes

    A write whose leader loses its followers stays open, the servers' process
    restarts over its disks, the client recovers behind another leader's barrier
    and finishes the write, and a service call of the old generation is refused. *)

From stdpp Require Import relations.
From S2P Require Import Prelude Simulator Quorum LogIndex KVCommands History Linearizability Locality Projection MultiKey Raft RaftRefine RaftProperties Driver DriverProperties DriverWitnesses AppWorld KV AppSystem Follows System SystemProperties ClientHistory LeaderService ClientSession SessionSpec ServiceRefine SessionRefine SessionProperties.

Definition session_ops (l : list session_op) (z : SessionWorld) : SessionWorld := foldl (λ z o, (exec_session o z).1) z l.

(** Operations the discipline of [session_ok] asks nothing more of *)
Definition plain_session (o : session_op) : Prop :=
  match o with
  | NOutside (SDrive (DBarrier _ _)) | NOutside SRebuild => False
  | NOutside o => plain_sys o
  | NOpen _ => False
  | _ => True
  end.

Lemma session_ops_reachable ids ts l z :
  session_reachable ids ts z → Forall plain_session l → session_reachable ids ts (session_ops l z).
Proof.
  revert z. induction l as [|o l IH]; intros z Hz Hl; [exact Hz|]. apply Forall_cons in Hl as [Ho Hl].
  apply IH; [|exact Hl]. eapply session_step; [exact Hz|]. eapply (session_call _ _ _ o); [|apply surjective_pairing].
  destruct o as [[o| | | | | |]| | | | | | | | | | | | | |]; try done; simpl in *.
  destruct o; try done; (split; [by apply plain_drive_ok|done]).
Qed.

Lemma session_open ids ts z c :
  session_reachable ids ts z → (history_of z.(sn_world)).(h_invocations) = [] →
  session_reachable ids ts (exec_session (NOpen c) z).1.
Proof.
  intros Hz Hh. eapply session_step; [exact Hz|]. eapply (session_call _ _ _ (NOpen c)); [|apply surjective_pairing].
  simpl. rewrite Hh. by intros i ?%elem_of_nil.
Qed.

Definition sess_start : SessionWorld := mkSessions (mkService sys_start (mkClients new_history ∅) []) ∅.

Lemma sess_start_reachable : session_reachable sys_ids None sess_start.
Proof.
  apply (session_init _ _ [] sys_raft); [| |reflexivity].
  - apply outcome_of with (q := init_cluster sys_ids None (boot_world [] ∅)); [reflexivity|vm_compute; reflexivity].
  - apply outcome_of with (q := exec_app AppRebuild (no_store sys_raft)); [reflexivity|vm_compute; reflexivity].
Qed.

(** Two first sessions *)
Definition sess_open : SessionWorld := (exec_session (NOpen "bob") (exec_session (NOpen "alice") sess_start).1).1.

Lemma sess_open_reachable : session_reachable sys_ids None sess_open.
Proof. apply session_open; [apply session_open; [exact sess_start_reachable|]|]; vm_compute; reflexivity. Qed.

(** [n1] leads; [alice] writes and [bob] reads; the followers crash and her
    second write stays open. *)
Definition sess1 : SessionWorld := session_ops
  [NOutside (SDrive (DCall (OpStartElection "n1"))); NOutside (SDrive (DCall (OpRun 50 None)));
   NWrite 50 "alice" "n1" 1 "w1" 0 (Put "a" "1") 3; NRead 50 "bob" "n1" 1 "r1" "a" 3;
   NOutside (SDrive (DCall (OpCrash "n2"))); NOutside (SDrive (DCall (OpCrash "n3")));
   NWrite 50 "alice" "n1" 1 "w2" 1 (Put "a" "2") 3] sess_open.

(** All servers restart over their disks. *)
Definition sess_boot : RaftWorld := (init_cluster sys_ids None (boot_world [] (cluster_of sess1.(sn_world)).(sim).(persistent_state))).1.
Definition sess_store : AppWorld := (exec_app AppRebuild (set_raft sess_boot sess1.(sn_world).(sv_system).(store))).1.
Definition sess2 : SessionWorld := mkSessions (mkService (mkSystem sess_store [] [])
  (match new_KVClientHistory (history_of sess1.(sn_world)) with inr cl => cl | inl _ => mkClients new_history ∅ end) []) ∅.

(** [n1] crashes, [n2] leads, [bob] and [alice] recover, and she finishes. *)
Definition sess3 : SessionWorld := session_ops
  [NOutside (SDrive (DCall (OpCrash "n1"))); NOutside (SDrive (DCall (OpStartElection "n2"))); NOutside (SDrive (DCall (OpRun 50 None)));
   NRecoverFenced 50 "bob" "n2" 1 3; NRecoverFenced 50 "alice" "n2" 1 3;
   NRead 50 "bob" "n2" 1 "r2" "a" 3; NRetryWrite 50 "alice" "n2" 1 "w2" 3; NRead 50 "alice" "n2" 1 "r3" "a" 3] sess2.

Lemma sess1_reachable : session_reachable sys_ids None sess1.
Proof. apply session_ops_reachable; [exact sess_open_reachable|repeat constructor]. Qed.

Lemma sess2_reachable : session_reachable sys_ids None sess2.
Proof.
  eapply session_step; [exact sess1_reachable|]. apply (session_reboot _ _ _ [] sess_boot).
  - apply outcome_of with (q := init_cluster sys_ids None (boot_world [] (cluster_of sess1.(sn_world)).(sim).(persistent_state)));
      [reflexivity|vm_compute; reflexivity].
  - apply outcome_of with (q := exec_app AppRebuild (set_raft sess_boot sess1.(sn_world).(sv_system).(store)));
      [reflexivity|vm_compute; reflexivity].
  - vm_compute. reflexivity.
Qed.

Lemma sess3_reachable : session_reachable sys_ids None sess3.
Proof. apply session_ops_reachable; [exact sess2_reachable|repeat constructor]. Qed.

Definition answer_of z id : option HistoryResult := cpl_result <$> (history_of z.(sn_world)).(h_completions) !! id.

Lemma sess3_answers :
  (answer_of sess3 <$> ["w1"; "r1"; "w2"; "r2"; "r3"]) = [Some None; Some (Some "1"); Some None; Some (Some "1"); Some (Some "2")]
  ∧ answer_of sess2 "w2" = None.
Proof. split; vm_compute; reflexivity. Qed.

Lemma session_linearizable_witness :
  ((answer_of sess3 <$> ["w1"; "r1"; "w2"; "r2"; "r3"]) = [Some None; Some (Some "1"); Some None; Some (Some "1"); Some (Some "2")]
   ∧ answer_of sess2 "w2" = None)
  ∧ accepted (history_of sess3.(sn_world)).
Proof. split; [exact sess3_answers|]. exact (session_linearizable _ _ _ sess3_reachable). Defined.

Definition stored z n : list (string * string) := map_to_list (kv_state (image_of z.(sn_world).(sv_system).(store) n)).

Lemma sess3_stores : (stored sess3 <$> sys_ids) = [[("a", "1")]; [("a", "2")]; []].
Proof. vm_compute. reflexivity. Qed.

Lemma session_exactly_once_witness :
  (stored sess3 <$> sys_ids) = [[("a", "1")]; [("a", "2")]; []]
  ∧ ∃ order, NoDup order
    ∧ (∀ r, r ∈ order → ∃ i, i ∈ (history_of sess3.(sn_world)).(h_invocations)
        ∧ i.(inv_client_id) = r.(cr_client_id) ∧ i.(inv_operation) = HWrite r.(cr_operation))
    ∧ ∀ n, ∃ k, (image_of sess3.(sn_world).(sv_system).(store) n).(kv_state) = run_writes (take k order)
        ∧ ∀ c q op, (image_of sess3.(sn_world).(sv_system).(store) n).(kv_requests) !! (c, q) = Some op
            ↔ mkClientRequest c q op ∈ take k order.
Proof. split; [exact sess3_stores|]. exact (session_exactly_once _ _ _ sess3_reachable). Defined.

(** [alice]'s session when her second write is open *)
Definition alice_open : KVClientSession :=
  mkSession "alice" 0 (Some (mkPendingWrite "w2" (mkClientRequest "alice" 1 (Put "a" "2")))) None.

Lemma sess1_alice : sess1.(sn_sessions) !! "alice" = Some alice_open.
Proof. vm_compute. reflexivity. Qed.

Lemma session_floor_witness :
  (∀ n e r, e ∈ (dur (cluster_of sess1.(sn_world)) n).(log) → e.(le_command) = CmdRequest r → r.(cr_client_id) = "alice" →
     r.(cr_request_id) ≤ 0 ∨ ∃ p, alice_open.(ss_pending) = Some p ∧ p.(pw_request) = r)
  ∧ (∀ i op, i ∈ (history_of sess1.(sn_world)).(h_invocations) → i.(inv_client_id) = "alice" → i.(inv_operation) = HWrite op →
     (history_of sess1.(sn_world)).(h_completions) !! i.(inv_operation_id) = None →
     ∃ p, alice_open.(ss_pending) = Some p ∧ p.(pw_operation_id) = i.(inv_operation_id) ∧ p.(pw_request).(cr_operation) = op).
Proof. exact (session_floor _ _ _ _ _ sess1_reachable sess1_alice). Defined.

(** The deposed leader's generation *)
Lemma sess3_not_held : ¬ held sess3.(sn_world) "n1" 1.
Proof.
  intros (i & Ho & Hl & _). pose proof (ow_alive _ _ Ho) as Ha. rewrite Hl in Ha.
  assert (is_alive (cluster_of sess3.(sn_world)) "n1" = false) as E by (vm_compute; reflexivity). congruence.
Qed.

Lemma service_fenced_witness :
  ∃ e, service_write 50 "n1" 1 "w3" "alice" 2 (Put "a" "3") 3 sess3.(sn_world) = (sess3.(sn_world), inl e).
Proof.
  destruct (service_fenced 50 "n1" 1 "w3" "alice" 2 (Put "a" "3") "a" 3) as [Hw _]. exact (fe_refused _ _ _ Hw _ sess3_not_held).
Defined.

(** *** Outside the discipline

    A session recovered from a replica that has fallen behind, without a read
    barrier, may give a number out again; the second write of the number is
    answered and never executed, and the checker rejects the history.  So
    [session_ok] asks for the barrier. *)
Definition stale_session : SnM unit := let! s := in_world (recover "alice" "n3") in install "alice" s.

Definition stale_history : SessionWorld :=
  session_ops [NWrite 50 "alice" "n1" 1 "w3" 0 (Put "a" "1") 3; NRead 50 "bob" "n1" 1 "r2" "a" 3]
    (stale_session (session_ops [NOutside (SDrive (DCall (OpStartElection "n1"))); NOutside (SDrive (DCall (OpRun 50 None)));
      NWrite 50 "alice" "n1" 1 "w1" 0 (Put "a" "1") 3; NWrite 50 "bob" "n1" 1 "w2" 0 (Put "a" "2") 3] sess_open)).1.

Example stale_recovery :
  answer_of stale_history "r2" = Some (Some "2")
  ∧ match check_multi_key (history_of stale_history.(sn_world)) 10 10 1000 with
    | inr r => r.(mk_linearizable) = false
    | inl _ => False
    end.
Proof. split; vm_compute; reflexivity. Qed.
